(* ===== verification/_CoqProject ===== *)
-Q . S2P
Prelude.v
Sql.v
Json.v
Dates.v
StableJson.v
ConflictStrategy.v
Transport.v
LocalMutationLog.v
LocalMutationLogCorrect.v
SyncReplay.v
SyncReplayCorrect.v
ServerChangeFeed.v
ServerChangeFeedStore.v
ServerChangeFeedPages.v
Numbers.v
ModelChangeFeed.v
SyncPull.v
SyncPullCorrect.v
Cron.v
CronGrammar.v
Scheduler.v
SchedulerCorrect.v
RequestBuffer.v
RequestBufferTheorems.v
HttpRequests.v
HttpMultipart.v
HttpClient.v
ResponseCompression.v
ClientDeliveryQueue.v
WebsocketFrames.v
WebsocketFramesCorrect.v
WebsocketDispatch.v
WebsocketDispatchCorrect.v
WebsocketSessions.v
WebsocketSessionsCorrect.v
Sha256.v
JobSemantics.v
JsonSocket.v
LocalProtocol.v
EnvelopeReplay.v
EnvelopeReplayCorrect.v
ReplayFeed.v
SyncQueue.v
SyncQueueCorrect.v
QueueReplay.v
LocalStore.v
LocalStoreCorrect.v
LocalStoreTheorems.v
LocalDispatcher.v
LocalDispatcherCorrect.v
LocalDispatcherStore.v
LocalDispatcherTheorems.v
ActsAsList.v
ConnectionPool.v
ConnectionPoolCorrect.v
ConnectionPoolQueue.v
ConnectionPoolBounds.v
ConnectionPoolIdle.v
ConnectionPoolDrain.v
JsObjects.v
ParamsToObject.v
ParamsToObjectCorrect.v
ParamsToObjectSafe.v
