(* ===== verification/Prelude.v ===== *)
(** * Velocious: a development of the framework's core logic

    Velocious (src/src/) is a JavaScript web framework: an HTTP server, an
    active-record layer over SQL databases, background jobs, frontend models that
    mirror backend records, and offline synchronisation. This library models parts
    whose correctness rests on their own logic, translated from the source, and
    proves what each of them promises. Code outside src/ (Node, SQL engines, the
    application's classes) is a parameter, with the hypotheses that are used.

    ** How the parts interact

    _Background jobs_ (src/src/background-jobs/). A job is enqueued with normalized
    options ([JobSemantics.v]) into the local durable store ([LocalStore.v]), which
    hands jobs to the in-process dispatcher under a fence (the handoff id), takes
    its acknowledgements, and recovers after a crash. [LocalDispatcher.v] is that
    dispatcher, over the store. [Scheduler.v] enqueues recurring jobs, by intervals
    or by cron expressions ([Cron.v], [CronGrammar.v], with [Number(text)] in
    [Numbers.v]). Processes talk over a line-based socket ([JsonSocket.v]).

    _HTTP_ (src/src/http-server/). [HttpClient.v] is one connection: it feeds
    the bytes to the request parser ([RequestBuffer.v]), runs requests concurrently
    and sends their responses in order, compressed as [ResponseCompression.v]
    negotiates. The keys of queries and forms become nested objects in
    [ParamsToObject.v], over the objects of [JsObjects.v]. What a worker writes to its
    clients goes through [ClientDeliveryQueue.v]. An upgraded connection is a session: [WebsocketFrames.v]
    cuts its bytes into messages, [WebsocketDispatch.v] gives them, one after the
    other, to the handler, and [WebsocketSessions.v] is what the messages about
    connections do, with sessions that pause and resume.

    _Databases_ (src/src/database/pool/). [ConnectionPool.v] gives connections to
    callers: every function of the pool as it is suspended at its [await]s.

    _Synchronisation_ (src/src/sync/). A client logs its offline mutations
    ([LocalMutationLog.v]) in a row storage; [SyncReplay.v] queues them and drains
    the log to the server, whose answer becomes the local status; [SyncQueue.v] is
    the queue of local changes, a row per resource. The server decides conflicts
    ([ConflictStrategy.v]), applies what it is sent once ([EnvelopeReplay.v]) and
    appends what it accepts to the change feed ([ServerChangeFeed.v]), of its own
    models too ([ModelChangeFeed.v]), which clients read page by page
    ([ServerChangeFeedPages.v]) and pull ([SyncPull.v]). Two files compose them: [ReplayFeed.v] from the server's answer to another client's pull,
    [QueueReplay.v] from a client's queue to the server's effect. Scopes and payloads
    are compared by canonical text ([StableJson.v] over [Json.v]) and hashed
    ([Sha256.v]); typed values cross JSON as markers ([Transport.v], with the
    dates of [Dates.v]).

    _Records_ (src/src/database/record/). [ActsAsList.v] keeps the rows of a scope
    in order.

    ** Files

    - [Prelude.v]: results, the state-and-exception monad with its rules
      ([preserves], [returns], [ends]), numbers and strings.
    - [Sql.v]: filters, orders and counts of result sets.
    - [Json.v], [StableJson.v] (utils/stable-json.js), [Dates.v]: JSON.stringify and
      JSON.parse with their round trip, the canonical text, dates and ISO texts.
    - [ConflictStrategy.v] (sync/conflict-strategy.js).
    - [Transport.v] (frontend-models/transport-serialization.js).
    - [LocalMutationLog.v], [LocalMutationLogCorrect.v] (sync/local-mutation-log.js):
      the class [RowStorage] is the adapter, [RowStorageLaws] its contract, [Rows] an
      adapter that keeps it; [log_step] the abstract log.
    - [SyncReplay.v], [SyncReplayCorrect.v] (sync/sync-api-client.js, the methods on
      conflict-tracked syncs): client of both.
    - [ServerChangeFeed.v], [ServerChangeFeedStore.v] (sync/server-change-feed.js):
      the class [FeedStore] is the interface, with the table and the in-memory
      fallback as its instances, used by one caller at a time; [ServerChangeFeedPages.v]:
      the statements of concurrent appends, prunes and page reads on the table.
    - [ModelChangeFeed.v] (sync/sync-model-change-feed-service.js), [SyncPull.v],
      [SyncPullCorrect.v] (pulling in sync/sync-api-client.js).
    - [EnvelopeReplay.v], [EnvelopeReplayCorrect.v]
      (sync/sync-envelope-replay-service.js), [ReplayFeed.v]; [SyncQueue.v],
      [SyncQueueCorrect.v] (the queue of sync/sync-api-client.js), [QueueReplay.v].
    - [Numbers.v], [Cron.v], [CronGrammar.v] (background-jobs/cron-expression.js),
      [Scheduler.v], [SchedulerCorrect.v] (background-jobs/scheduler.js).
    - [RequestBuffer.v], [RequestBufferTheorems.v], [HttpRequests.v],
      [HttpMultipart.v] (http-server/client/request-buffer/).
    - [HttpClient.v] (http-server/client/index.js, request-parser.js): modules
      [Connection] and [Drain].
    - [ResponseCompression.v] (response-compression.js, response.js).
    - [JsObjects.v]: a heap of objects with prototypes; [ParamsToObject.v],
      [ParamsToObjectCorrect.v] (what keys build), [ParamsToObjectSafe.v] (what they may
      write) (http-server/client/params-to-object.js).
    - [ClientDeliveryQueue.v] (http-server/client-delivery-queue.js).
    - [WebsocketFrames.v], [WebsocketFramesCorrect.v], [WebsocketDispatch.v],
      [WebsocketDispatchCorrect.v], [WebsocketSessions.v],
      [WebsocketSessionsCorrect.v] (http-server/client/websocket-session.js,
      http-server/websocket-connection.js, the registry in configuration.js).
    - [Sha256.v] (utils/sha256-hex.js).
    - [JobSemantics.v] (background-jobs/job-semantics.js), [JsonSocket.v]
      (json-socket.js), [LocalProtocol.v] (the abstract queue), [LocalStore.v],
      [LocalStoreCorrect.v], [LocalStoreTheorems.v] (local-store.js).
    - [LocalDispatcher.v], [LocalDispatcherCorrect.v], [LocalDispatcherTheorems.v]
      (local-dispatcher.js): a step relation over the class [HandoffStore] with its
      contract [HandoffLaws]; [LocalDispatcherStore.v] proves that the local store
      keeps it.
    - [ActsAsList.v] (acts-as-list.js and the parts of record/index.js it runs in).
    - [ConnectionPool.v], [ConnectionPoolCorrect.v] (who may use a connection),
      [ConnectionPoolQueue.v] (the order of waiting checkouts),
      [ConnectionPoolBounds.v] (the maximum), [ConnectionPoolIdle.v] (idle connections
      have no transaction), [ConnectionPoolDrain.v] (a drain alone)
      (database/pool/async-tracked-multi-connection.js).

    Definitions carry the names of the code; a field or a method of the same name in
    two classes is told apart by its file or module.

    ** What the theorems show

    - Refinement: every request to the job store is a sequence of steps of the
      abstract queue; every call of the mutation log a step of the abstract log;
      every save or destroy of a list record an operation on a list.
    - Invariants and safety: concurrency caps, the life of a job, fences; the jobs
      handed off are exactly those the dispatcher owns, none after a stop; one
      response after the other on a connection; the mutation log keeps what replay
      needs; a drain sends nothing twice, and each request only when what its first
      mutation depends on is synced; a queue marks as sent only what the server has
      accepted; a mutation takes effect once, whatever others write between two
      statements of its replay; reading and pulling a feed repeat nothing, and lose only
      what was pruned or committed behind the cursor; a websocket connection has one
      session, and its messages arrive in order through pauses, except those counted as
      lost; a database connection has one holder, of the
      right database, and waiting checkouts are served in order; parameters write to
      their own objects only, unless a key names something inherited.
    - Equivalence: the hash is FIPS 180-4's, the parsers of requests and of websocket
      frames do not depend on the chunks, canonical texts decide equality.
    - Function: parsers read exactly their languages, keys of parameters build the
      object they describe, and compression answers what the client accepts.
    - Round trips: values through the transport, messages through a socket, text
      messages through masked and fragmented frames.
    - Termination and liveness: drains end and, undisturbed, leave nothing they could
      do; kept acknowledgements are retried; a cron job runs at every match.
    - Errors, bounds and types: a request that throws changes nothing; the pool keeps
      its maximum; normalized records are a fixed point.

    Some theorems have [Example]s next to them that run the model to a state the code
    should not reach; the findings of the manifest name them.

    ** Models and bounds

    Asynchronous methods are state-passing steps: one step per method where a lock
    or a transaction makes it atomic, and a step relation where the interleaving of
    callbacks is the point ([HttpClient.Drain], [LocalDispatcher.dstep],
    [Scheduler.step], [ClientDeliveryQueue.step], [WebsocketDispatch.step],
    [ServerChangeFeedPages.statement], [WebsocketSessions.step], [ConnectionPool.step]);
    the last two are relations over an executable [perform], so that runs can be
    computed. In [EnvelopeReplay.v] what others write between two statements of a replay
    is a parameter ([others]), and the tables a pull reads change from page to page. Exceptions are
    values of a sum type. Integers are [Z], with the width written out where
    JavaScript has one (32-bit operators in [Sha256.v], [MAX_SAFE_INTEGER],
    [MAX_TIME]). A string is a sequence of code units below 256, a byte is an
    [ascii]; Sha256 uses lists of 16-bit units. Fuel is given to loops that are not
    structural, and theorems show it to suffice: the length of the text for
    [Json.parse], the request parser and the websocket frames, the size of the heap
    for [Transport] and for chains of prototypes, the number of pending mutations for a
    drain, the sequence numbers that are left for a pull, the iterations of the code's own
    bound for [Cron].

    ** What is not modelled, and why

    Left out as input and output or glue over libraries: database drivers,
    migrations, file-system and process handling, command-line and generator code,
    sockets, templates, mail and log backends. Left out because their contract is
    that of an SQL engine or of application code: the query builder and the rest of
    the active-record layer, frontend models and their controller, configuration,
    websocket channels, the SQL-backed job store with its main and worker processes,
    authorization, routing, the test runner. Within modelled parts, the manifest's
    notes say what is left out of each. A continuation would take the SQL job store
    as a second implementation of the abstract queue, and channel subscriptions. *)

From stdpp Require Import base gmap strings list sorting.
From Stdlib Require Import ZArith Ascii String QArith Qround Lia.

#[global] Set Default Goal Selector "!".
#[global] Unset Printing Records.
Open Scope Z_scope.

(** ** Results: a JavaScript computation returns or throws *)

Inductive result (E A : Type) : Type :=
| Ok (a : A)
| Throw (e : E).
Arguments Ok {E A} a.
Arguments Throw {E A} e.

#[export] Instance result_ret {E} : MRet (result E) := fun A a => Ok a.
#[export] Instance result_bind {E} : MBind (result E) := fun A B k m =>
  match m with Ok a => k a | Throw e => Throw e end.
#[export] Instance result_fmap {E} : FMap (result E) := fun A B f m =>
  match m with Ok a => Ok (f a) | Throw e => Throw e end.

Definition is_Ok {E A} (r : result E A) : bool :=
  match r with Ok _ => true | Throw _ => false end.

#[export] Instance result_eq_dec {E A} `{EqDecision E, EqDecision A} :
  EqDecision (result E A).
Proof. solve_decision. Defined.

Lemma result_bind_Ok {E A B} (m : result E A) (k : A -> result E B) b :
  (m ≫= k) = Ok b <-> exists a, m = Ok a /\ k a = Ok b.
Proof.
  destruct m as [a|e]; cbn; split.
  - intros H; eauto.
  - intros (a' & Ha & Hk). congruence.
  - discriminate.
  - intros (a' & Ha & _). discriminate.
Qed.

(** ** The state-and-exception monad of the stateful components

    A step threads a state and either returns or throws; the state reached
    before the throw is kept, so that the caller decides what is rolled back. *)

Definition ST (S E A : Type) : Type := S -> result E A * S.

#[export] Instance ST_ret {S E} : MRet (ST S E) := fun A a s => (Ok a, s).
#[export] Instance ST_bind {S E} : MBind (ST S E) := fun A B k m s =>
  match m s with
  | (Ok a, s') => k a s'
  | (Throw e, s') => (Throw e, s')
  end.

Definition throw {S E A} (e : E) : ST S E A := fun s => (Throw e, s).
Definition gets {S E A} (f : S -> A) : ST S E A := fun s => (Ok (f s), s).
Definition modify {S E} (f : S -> S) : ST S E unit := fun s => (Ok tt, f s).
Definition lift_result {S E A} (r : result E A) : ST S E A := fun s => (r, s).

(** [for (const x of xs) await f(x)] *)
Fixpoint for_each {S E A} (f : A -> ST S E unit) (xs : list A) : ST S E unit :=
  match xs with
  | [] => mret tt
  | x :: xs' => _ ← f x; for_each f xs'
  end.

Lemma ST_bind_Ok {S E A B} (m : ST S E A) (k : A -> ST S E B) s b s' :
  (m ≫= k) s = (Ok b, s') <->
  exists a s1, m s = (Ok a, s1) /\ k a s1 = (Ok b, s').
Proof.
  unfold mbind, ST_bind. destruct (m s) as [[a|e] s1]; split.
  - eauto.
  - intros (a' & s2 & H & Hk). by simplify_eq.
  - discriminate.
  - intros (a' & s2 & H & Hk). by simplify_eq.
Qed.

Lemma ST_ret_Ok {S E A} (a b : A) (s s' : S) :
  (mret a : ST S E A) s = (Ok b, s') -> b = a /\ s' = s.
Proof. by intros [= <- <-]. Qed.

Lemma ST_gets_Ok {S E A} (f : S -> A) b (s s' : S) :
  (gets f : ST S E A) s = (Ok b, s') -> b = f s /\ s' = s.
Proof. by intros [= <- <-]. Qed.

Lemma ST_modify_Ok {S E} (f : S -> S) b (s s' : S) :
  (modify f : ST S E unit) s = (Ok b, s') -> s' = f s.
Proof. by intros [= <- <-]. Qed.

Lemma ST_lift_Ok {S E A} (r : result E A) b (s s' : S) :
  lift_result r s = (Ok b, s') -> r = Ok b /\ s' = s.
Proof. by intros [= -> <-]. Qed.

(** Reads a run that returned backwards into the runs of its statements. *)
Ltac st_inv :=
  repeat match goal with
  | H : mbind _ _ _ = (Ok _, _) |- _ => apply ST_bind_Ok in H as (? & ? & ? & ?)
  | H : mret _ _ = (Ok _, _) |- _ => apply ST_ret_Ok in H as [? ?]; subst
  | H : gets _ _ = (Ok _, _) |- _ => apply ST_gets_Ok in H as [? ?]; subst
  | H : modify _ _ = (Ok _, _) |- _ => apply ST_modify_Ok in H; subst
  | H : lift_result _ _ = (Ok _, _) |- _ => apply ST_lift_Ok in H as [? ?]; subst
  | H : throw _ _ = (Ok _, _) |- _ => discriminate H
  end.

(** Unfolds the monad, to compute a run. *)
Ltac st_run :=
  repeat (progress (unfold mbind, ST_bind, mret, ST_ret, gets, modify, throw, lift_result;
                    cbv beta)).

(** A predicate of the state that a step keeps, whether it returns or throws. *)
Definition preserves {S E A} (P : S -> Prop) (m : ST S E A) : Prop :=
  forall s, P s -> P (snd (m s)).

Section preserves.
Context {S E : Type} (P : S -> Prop).

Lemma preserves_ret {A} (a : A) : preserves P (mret a : ST S E A).
Proof. by intros s Hs. Qed.

Lemma preserves_throw {A} (e : E) : preserves P (throw e : ST S E A).
Proof. by intros s Hs. Qed.

Lemma preserves_gets {A} (f : S -> A) : preserves P (gets f : ST S E A).
Proof. by intros s Hs. Qed.

Lemma preserves_lift {A} (r : result E A) : preserves P (lift_result r : ST S E A).
Proof. by intros s Hs. Qed.

Lemma preserves_bind {A B} (m : ST S E A) (k : A -> ST S E B) :
  preserves P m -> (forall a, preserves P (k a)) -> preserves P (m ≫= k).
Proof.
  intros Hm Hk s Hs. unfold mbind, ST_bind.
  specialize (Hm s Hs). destruct (m s) as [[a|e] s1]; cbn in *.
  - by apply Hk.
  - done.
Qed.

Lemma preserves_for_each {A} (f : A -> ST S E unit) xs :
  (forall x, preserves P (f x)) -> preserves P (for_each f xs).
Proof.
  intros Hf. induction xs as [|x xs IH]; [apply preserves_ret|].
  apply preserves_bind; [apply Hf | done].
Qed.

Lemma preserves_if {A} (b : bool) (m1 m2 : ST S E A) :
  preserves P m1 -> preserves P m2 -> preserves P (if b then m1 else m2).
Proof. by destruct b. Qed.
End preserves.

Create HintDb preserves.
#[export] Hint Resolve preserves_ret preserves_throw preserves_gets
  preserves_lift preserves_bind preserves_for_each preserves_if : preserves.

(** What a step guarantees of its value and its final state when it returns. *)
Definition returns {S E A} (m : ST S E A) (Q : A -> S -> Prop) (s : S) : Prop :=
  forall a s', m s = (Ok a, s') -> Q a s'.

Section returns.
Context {S E : Type}.

Lemma returns_ret {A} (a : A) (Q : A -> S -> Prop) s : Q a s -> returns (mret a : ST S E A) Q s.
Proof. intros H a' s' [= <- <-]. done. Qed.

Lemma returns_throw {A} (e : E) (Q : A -> S -> Prop) s : returns (throw e : ST S E A) Q s.
Proof. intros a s' [=]. Qed.

Lemma returns_gets {A} (f : S -> A) (Q : A -> S -> Prop) s :
  Q (f s) s -> returns (gets f : ST S E A) Q s.
Proof. intros H a' s' [= <- <-]. done. Qed.

Lemma returns_modify (f : S -> S) (Q : unit -> S -> Prop) s :
  Q tt (f s) -> returns (modify f : ST S E unit) Q s.
Proof. intros H a' s' [= <- <-]. done. Qed.

Lemma returns_lift {A} (r : result E A) (Q : A -> S -> Prop) s :
  (forall a, r = Ok a -> Q a s) -> returns (lift_result r) Q s.
Proof. intros H a' s' [= -> <-]. auto. Qed.

Lemma returns_bind {A B} (m : ST S E A) (k : A -> ST S E B) (Q : B -> S -> Prop) s :
  returns m (fun a s' => returns (k a) Q s') s -> returns (m ≫= k) Q s.
Proof.
  intros H b s' Hb. apply ST_bind_Ok in Hb as (a & s1 & Hm & Hk). exact (H a s1 Hm b s' Hk).
Qed.

Lemma returns_mono {A} (m : ST S E A) (Q Q' : A -> S -> Prop) s :
  returns m Q s -> (forall a s', Q a s' -> Q' a s') -> returns m Q' s.
Proof. intros H HQ a s' Hm. apply HQ, H, Hm. Qed.

(** The loop rule: an invariant indexed by the elements still to visit. *)
Lemma returns_for_each {A} (f : A -> ST S E unit) (I : list A -> S -> Prop) xs s :
  I xs s ->
  (forall x xs' s', I (x :: xs') s' -> returns (f x) (fun _ s'' => I xs' s'') s') ->
  returns (for_each f xs) (fun _ s' => I [] s') s.
Proof.
  intros HI Hf. revert s HI. induction xs as [|x xs IH]; intros s HI.
  - by apply returns_ret.
  - apply returns_bind. eapply returns_mono; [by apply Hf|]. intros [] s' H. by apply IH.
Qed.
End returns.

(** What a step establishes, whether it returns or throws. *)
Definition ends {S E A} (m : ST S E A) (Q : result E A -> S -> Prop) (s : S) : Prop :=
  Q (m s).1 (m s).2.

Section ends.
Context {S E : Type}.

Lemma ends_ret {A} (a : A) (Q : result E A -> S -> Prop) s : Q (Ok a) s -> ends (mret a) Q s.
Proof. done. Qed.

Lemma ends_throw {A} (e : E) (Q : result E A -> S -> Prop) s :
  Q (Throw e) s -> ends (throw e) Q s.
Proof. done. Qed.

Lemma ends_lift {A} (r : result E A) (Q : result E A -> S -> Prop) s :
  Q r s -> ends (lift_result r) Q s.
Proof. done. Qed.

Lemma ends_bind {A B} (m : ST S E A) (k : A -> ST S E B) (Q : result E B -> S -> Prop) s :
  ends m (fun r s' => match r with Ok a => ends (k a) Q s' | Throw e => Q (Throw e) s' end) s ->
  ends (m ≫= k) Q s.
Proof. unfold ends, mbind, ST_bind. by destruct (m s) as [[a|e] s']. Qed.

Lemma ends_mono {A} (m : ST S E A) (Q Q' : result E A -> S -> Prop) s :
  ends m Q s -> (forall r s', Q r s' -> Q' r s') -> ends m Q' s.
Proof. unfold ends. auto. Qed.

(** The same for a statement of a longer body: its value goes on, its exception
    leaves the body. *)
Lemma ends_step {A B} (m : ST S E A) (k : A -> ST S E B) (Q : result E A -> S -> Prop)
    (Q' : result E B -> S -> Prop) s :
  ends m Q s -> (forall a s', Q (Ok a) s' -> ends (k a) Q' s') ->
  (forall e s', Q (Throw e) s' -> Q' (Throw e) s') -> ends (m ≫= k) Q' s.
Proof.
  intros Hm Hk He. apply ends_bind. eapply ends_mono; [exact Hm|]. intros [a|e] s' H; auto.
Qed.
End ends.

(** ** JavaScript scalars *)

(** A JavaScript number: the rationals contain every finite double. *)
Inductive number :=
| Fin (q : Q)
| PosInfinity
| NegInfinity
| NaN.

(** A value read from an option object whose type the code tests at run time. *)
Inductive scalar :=
| JsUndefined
| JsNull
| JsBoolean (b : bool)
| JsNumber (n : number)
| JsString (s : string).

Definition of_Z (z : Z) : scalar := JsNumber (Fin (inject_Z z)).

(** [Number.isFinite] *)
Definition is_finite (n : number) : bool :=
  match n with Fin _ => true | _ => false end.

(** [Number.isInteger(v)], with the integer. *)
Definition as_integer (v : scalar) : option Z :=
  match v with
  | JsNumber (Fin q) => if Qeq_bool (inject_Z (Qfloor q)) q then Some (Qfloor q) else None
  | _ => None
  end.

Definition MAX_SAFE_INTEGER : Z := 9007199254740991.

Definition is_safe_Z (z : Z) : bool := Z.abs z <=? MAX_SAFE_INTEGER.

(** [Number.isSafeInteger(v)], with the integer. *)
Definition as_safe_integer (v : scalar) : option Z :=
  match as_integer v with
  | Some z => if is_safe_Z z then Some z else None
  | None => None
  end.

Lemma as_integer_of_Z z : as_integer (of_Z z) = Some z.
Proof.
  cbn -[Qeq_bool inject_Z Qfloor]. rewrite Qfloor_Z.
  assert (Qeq_bool (inject_Z z) (inject_Z z) = true) as ->; [|done].
  by apply Qeq_bool_iff.
Qed.

(** ** Strings

    A string stands for a JavaScript string whose code units are all below
    256 (an [ascii] is one such code unit). *)

(** The code units [String.prototype.trim] removes: TAB, LF, VT, FF, CR,
    SPACE and NO-BREAK SPACE. *)
Definition is_js_space (c : ascii) : bool :=
  let n := N_of_ascii c in
  (9 <=? n)%N && (n <=? 13)%N || (n =? 32)%N || (n =? 160)%N.

Fixpoint trim_start (s : string) : string :=
  match s with
  | EmptyString => EmptyString
  | String c s' => if is_js_space c then trim_start s' else s
  end.

Fixpoint trim_end (s : string) : string :=
  match s with
  | EmptyString => EmptyString
  | String c s' =>
      match trim_end s' with
      | EmptyString => if is_js_space c then EmptyString else String c EmptyString
      | t => String c t
      end
  end.

(** [s.trim()] *)
Definition js_trim (s : string) : string := trim_end (trim_start s).

(** [s.startsWith(p)] *)
Definition starts_with (p s : string) : bool := String.prefix p s.

(** [s.toLowerCase()] on the ASCII letters. *)
Definition lower_ascii (c : ascii) : ascii :=
  let n := N_of_ascii c in
  if ((65 <=? n) && (n <=? 90))%N then ascii_of_N (n + 32) else c.

Definition upper_ascii (c : ascii) : ascii :=
  let n := N_of_ascii c in
  if ((97 <=? n) && (n <=? 122))%N then ascii_of_N (n - 32) else c.

Fixpoint string_map (f : ascii -> ascii) (s : string) : string :=
  match s with
  | EmptyString => EmptyString
  | String c s' => String (f c) (string_map f s')
  end.

Lemma trim_end_idemp s : trim_end (trim_end s) = trim_end s.
Proof.
  induction s as [|c s IH]; [done|]. cbn.
  destruct (trim_end s) as [|c' t] eqn:Ht.
  - destruct (is_js_space c) eqn:Hc; [done|]. cbn. by rewrite Hc.
  - cbn in IH |- *. by rewrite IH.
Qed.

Lemma trim_start_trim_end s : trim_start s = s -> trim_start (trim_end s) = trim_end s.
Proof.
  destruct s as [|c s]; [done|]. cbn. destruct (is_js_space c) eqn:Hc.
  - intros H. exfalso.
    assert (String.length (trim_start s) <= String.length s)%nat as Hl.
    { clear. induction s as [|d s IH]; [done|]. cbn. destruct (is_js_space d); cbn; lia. }
    rewrite H in Hl. cbn in Hl. lia.
  - intros _. destruct (trim_end s); cbn; by rewrite Hc.
Qed.

Lemma trim_start_idemp s : trim_start (trim_start s) = trim_start s.
Proof.
  induction s as [|c s IH]; [done|]. cbn. destruct (is_js_space c) eqn:Hc; [done|].
  cbn. by rewrite Hc.
Qed.

Lemma js_trim_idemp s : js_trim (js_trim s) = js_trim s.
Proof.
  unfold js_trim. rewrite trim_start_trim_end by apply trim_start_idemp.
  apply trim_end_idemp.
Qed.

(** Every character of the string is one of [P]. *)
Fixpoint all_chars (P : ascii -> bool) (s : string) : bool :=
  match s with EmptyString => true | String c s' => P c && all_chars P s' end.

Lemma all_chars_app P s t : all_chars P (s +:+ t) = all_chars P s && all_chars P t.
Proof.
  induction s as [|c s IH]; [done|]. change (String c s +:+ t) with (String c (s +:+ t)).
  cbn. rewrite IH. by rewrite andb_assoc.
Qed.

Lemma all_chars_mono (P Q : ascii -> bool) s : (forall c, P c = true -> Q c = true) ->
  all_chars P s = true -> all_chars Q s = true.
Proof.
  intros H. induction s as [|c s IH]; [done|]. cbn. intros [Hc Hs]%andb_prop.
  by rewrite (H c Hc), IH.
Qed.

Lemma trim_end_all_chars (P : ascii -> bool) s : (forall c, P c = true -> is_js_space c = false) ->
  all_chars P s = true -> trim_end s = s.
Proof.
  intros H. induction s as [|c s IH]; [done|]. cbn [all_chars trim_end]. intros [Hc Hs]%andb_prop.
  rewrite IH by done. destruct s; [|done]. by rewrite (H c Hc).
Qed.

Lemma trim_all_chars (P : ascii -> bool) s : (forall c, P c = true -> is_js_space c = false) ->
  all_chars P s = true -> js_trim s = s.
Proof.
  intros H Hs. unfold js_trim. assert (trim_start s = s) as ->; [|by eapply trim_end_all_chars].
  destruct s as [|c s]; [done|]. cbn in Hs |- *. apply andb_prop in Hs as [Hc _]. by rewrite (H c Hc).
Qed.

(** ** Concatenation and search *)

Lemma append_cons c s t : String c s +:+ t = String c (s +:+ t).
Proof. done. Qed.

Lemma append_nil_l t : "" +:+ t = t.
Proof. done. Qed.

Lemma append_assoc s t u : (s +:+ t) +:+ u = s +:+ t +:+ u.
Proof. induction s as [|c s IH]; [done|]. by rewrite !append_cons, IH. Qed.

Lemma append_nil_r s : s +:+ "" = s.
Proof. induction s as [|c s IH]; [done|]. by rewrite append_cons, IH. Qed.

Lemma length_append s t : String.length (s +:+ t) = (String.length s + String.length t)%nat.
Proof. induction s as [|c s IH]; [done|]. rewrite append_cons. cbn. lia. Qed.

Definition LF : ascii := "010"%char.
Definition CR : ascii := "013"%char.
Definition CRLF : string := String CR (String LF "").

(** [s.indexOf(c)]: what precedes and what follows the first occurrence. *)
Fixpoint break_at (c : ascii) (s : string) : option (string * string) :=
  match s with
  | EmptyString => None
  | String d s' =>
      if decide (d = c) then Some ("", s') else (fun p => (String d p.1, p.2)) <$> break_at c s'
  end.

Definition has_char (c : ascii) (s : string) : bool :=
  match break_at c s with Some _ => true | None => false end.

Lemma break_at_cons c d s :
  break_at c (String d s) =
  if decide (d = c) then Some ("", s) else (fun p => (String d p.1, p.2)) <$> break_at c s.
Proof. done. Qed.

Lemma has_char_cons c d s :
  has_char c (String d s) = bool_decide (d = c) || has_char c s.
Proof.
  unfold has_char. rewrite break_at_cons. destruct (decide (d = c)) as [->|Hd].
  - by rewrite bool_decide_eq_true_2.
  - rewrite bool_decide_eq_false_2 by done. by destruct (break_at c s).
Qed.

Lemma has_char_app c s t : has_char c (s +:+ t) = has_char c s || has_char c t.
Proof.
  induction s as [|d s IH]; [done|].
  rewrite append_cons, !has_char_cons, IH. by destruct (bool_decide _).
Qed.

Lemma break_at_app c s t : has_char c s = false -> break_at c (s +:+ String c t) = Some (s, t).
Proof.
  induction s as [|d s IH].
  - intros _. change ("" +:+ String c t) with (String c t). rewrite break_at_cons.
    by destruct (decide (c = c)).
  - rewrite has_char_cons, append_cons, break_at_cons. intros [Hd Hs]%orb_false_iff.
    apply bool_decide_eq_false in Hd. destruct (decide (d = c)); [done|]. by rewrite IH.
Qed.

(** A text that ends in a character that stays is not trimmed at its end. *)
Lemma trim_end_last s c : is_js_space c = false -> trim_end (s +:+ String c "") = s +:+ String c "".
Proof.
  intros Hc. induction s as [|d s IH].
  - rewrite append_nil_l. cbn [trim_end]. by rewrite Hc.
  - rewrite append_cons. cbn [trim_end]. rewrite IH. by destruct s.
Qed.

Lemma break_at_split c s before rest : break_at c s = Some (before, rest) ->
  s = before +:+ String c rest /\ has_char c before = false.
Proof.
  revert before. induction s as [|d s IH]; intros before; [done|]. rewrite break_at_cons.
  case_decide as Hd.
  - intros [= <- <-]. by subst.
  - destruct (break_at c s) as [[b r]|] eqn:Hb; [|done]. cbn. intros [= <- <-].
    destruct (IH b eq_refl) as [-> Hno]. split; [done|].
    by rewrite has_char_cons, Hno, bool_decide_eq_false_2.
Qed.
