(* ===== verification/Sql.v ===== *)
(** * What the stores use of a SQL result: filters, [ORDER BY] and [LIMIT 1]

    A result set is a list of rows. [WHERE] is a filter by a boolean condition,
    [ORDER BY a, b] a sort by a total preorder built from the columns, [LIMIT 1]
    the head. The order in which the engine scans a table is a parameter
    ([scan_order]) of the components that use it. *)

From stdpp Require Import base gmap list sorting.
From Stdlib Require Import ZArith QArith.
From S2P Require Import Prelude.
Open Scope Z_scope.

(** Order by a column, and by a second one where the first is equal. *)
Definition by_key {A B} (R : relation B) (f : A -> B) : relation A := fun a b => R (f a) (f b).

Definition then_by {A} (R S : relation A) : relation A := fun a b => R a b /\ (R b a -> S a b).

Section orders.
Context {A : Type}.

#[export] Instance by_key_dec {B} (R : relation B) (f : A -> B) `{!RelDecision R} :
  RelDecision (by_key R f).
Proof. intros a b. unfold by_key. apply _. Defined.

#[export] Instance by_key_total {B} (R : relation B) (f : A -> B) `{!Total R} :
  Total (by_key R f).
Proof. intros a b. unfold by_key. apply total. done. Qed.

#[export] Instance by_key_trans {B} (R : relation B) (f : A -> B) `{!Transitive R} :
  Transitive (by_key R f).
Proof. intros a b c. unfold by_key. apply transitivity. Qed.

#[export] Instance then_by_dec (R S : relation A) `{!RelDecision R, !RelDecision S} :
  RelDecision (then_by R S).
Proof. intros a b. unfold then_by. apply _. Defined.

#[export] Instance then_by_total (R S : relation A) `{!RelDecision R, !Total R, !Total S} :
  Total (then_by R S).
Proof.
  intros a b. unfold then_by. destruct (total R a b) as [H|H], (total S a b) as [H1|H1];
    destruct (decide (R a b)), (decide (R b a)); tauto.
Qed.

#[export] Instance then_by_trans (R S : relation A) `{!Transitive R, !Transitive S} :
  Transitive (then_by R S).
Proof.
  intros a b c [Hab Hab'] [Hbc Hbc']. split; [by transitivity b|].
  intros Hca. transitivity b; [apply Hab'|apply Hbc'].
  - by transitivity c.
  - by transitivity a.
Qed.
End orders.

#[export] Instance Qle_dec : RelDecision Qle.
Proof. intros a b. destruct (Qlt_le_dec b a); [right; by apply Qlt_not_le | left; done]. Defined.
#[export] Instance Qge_dec : RelDecision (flip Qle).
Proof. intros a b. apply Qle_dec. Defined.
#[export] Instance Qge_total : Total (flip Qle).
Proof. intros a b. unfold flip. destruct (Q_dec a b) as [[H|H]|H].
  - right. by apply Qlt_le_weak.
  - left. by apply Qlt_le_weak.
  - right. rewrite H. apply Qle_refl.
Qed.
#[export] Instance Qge_trans : Transitive (flip Qle).
Proof. intros a b c H1 H2. unfold flip in *. by apply Qle_trans with b. Qed.

(** [SELECT … ORDER BY R LIMIT 1] *)
Definition first_by {A} (R : relation A) `{!RelDecision R} (rows : list A) : option A :=
  head (merge_sort R rows).

Section first_by.
Context {A : Type} (R : relation A) `{!RelDecision R, !Total R, !Transitive R}.

Lemma first_by_Some rows x : first_by R rows = Some x ->
  x ∈ rows /\ Forall (fun y => y = x \/ R x y) rows.
Proof.
  unfold first_by. intros Hx.
  pose proof (StronglySorted_merge_sort R rows) as Hs.
  pose proof (merge_sort_Permutation R rows) as Hp.
  destruct (merge_sort R rows) as [|y ys]; [done|]. injection Hx as ->.
  split; [rewrite <- Hp; constructor|]. rewrite <- Hp.
  inversion Hs; subst. constructor; [by left|]. eapply Forall_impl; [done|]. by right.
Qed.

Lemma first_by_None rows : first_by R rows = None <-> rows = [].
Proof.
  unfold first_by. split; [|by intros ->]. intros Hx.
  pose proof (merge_sort_Permutation R rows) as Hp.
  destruct (merge_sort R rows); [|done]. by apply Permutation_nil_l in Hp.
Qed.

(** Where the order identifies a row, the result does not depend on the scan. *)
Lemma first_by_Permutation rows rows' : rows ≡ₚ rows' ->
  (forall x y, x ∈ rows -> y ∈ rows -> R x y -> R y x -> x = y) ->
  first_by R rows = first_by R rows'.
Proof.
  intros Hp Ha. destruct (first_by R rows) as [x|] eqn:Hx.
  - destruct (first_by R rows') as [y|] eqn:Hy.
    + apply first_by_Some in Hx as [Hx Hxl], Hy as [Hy Hyl]. f_equal.
      rewrite Forall_forall in Hxl, Hyl. rewrite <- Hp in Hy.
      destruct (Hxl y Hy) as [|Hxy]; [done|]. rewrite Hp in Hx.
      destruct (Hyl x Hx) as [|Hyx]; [done|]. apply Ha; try done. by rewrite Hp.
    + apply first_by_None in Hy. rewrite Hy in Hp. apply Permutation_nil_r in Hp. by subst.
  - apply first_by_None in Hx. subst. apply Permutation_nil_l in Hp. by subst.
Qed.
End first_by.

(** The order in which the engine returns the rows of a table when the query
    gives none: some enumeration of the rows. *)
Record scan_order (K A : Type) `{Countable K} := {
  scan : gmap K A -> list A;
  scan_rows : forall m, scan m ≡ₚ (map_to_list m).*2
}.
Arguments scan {K A _ _} s m.
Arguments scan_rows {K A _ _} s m.

#[program] Definition key_order {K A} `{Countable K} : scan_order K A :=
  {| scan := fun m => (map_to_list m).*2 |}.

Lemma elem_of_scan {K A} `{Countable K} (o : scan_order K A) m x :
  x ∈ scan o m <-> exists k, m !! k = Some x.
Proof.
  rewrite (scan_rows o m), list_elem_of_fmap. split.
  - intros ([k y] & -> & Hk%elem_of_map_to_list). eauto.
  - intros [k Hk]. exists (k, x). split; [done|]. by apply elem_of_map_to_list.
Qed.

(** ** Counting rows

    [SELECT COUNT( * ) … WHERE p]. *)
Definition count_where {K A} `{Countable K} (p : A -> bool) (m : gmap K A) : Z :=
  Z.of_nat (length (List.filter p (map_to_list m).*2)).

Section count_where.
Context {K : Type} `{Countable K}.

Lemma filter_Permutation {A} (p : A -> bool) l l' : l ≡ₚ l' -> List.filter p l ≡ₚ List.filter p l'.
Proof.
  induction 1 as [|x l l' _ IH|x y l|l l' l'' _ IH _ IH']; cbn; [done| | |by rewrite IH].
  - destruct (p x); [by constructor|done].
  - destruct (p x), (p y); try constructor; done.
Qed.

Lemma count_where_empty {A} (p : A -> bool) : count_where p (∅ : gmap K A) = 0.
Proof. unfold count_where. by rewrite map_to_list_empty. Qed.

Lemma count_where_insert_new {A} (p : A -> bool) (m : gmap K A) k v : m !! k = None ->
  count_where p (<[k := v]> m) = Z.b2z (p v) + count_where p m.
Proof.
  intros Hk. unfold count_where.
  assert ((map_to_list (<[k:=v]> m)).*2 ≡ₚ v :: (map_to_list m).*2) as Hp.
  { by rewrite (map_to_list_insert m k v Hk). }
  apply (filter_Permutation p) in Hp. rewrite Hp. cbn [List.filter].
  destruct (p v); cbn [length Z.b2z]; lia.
Qed.

Lemma count_where_insert {A} (p : A -> bool) (m : gmap K A) k v :
  count_where p (<[k := v]> m) =
    count_where p m + Z.b2z (p v) - from_option (Z.b2z ∘ p) 0 (m !! k).
Proof.
  destruct (m !! k) as [u|] eqn:Hk; cbn.
  - rewrite <- (insert_delete_id m k u Hk) at 2. rewrite <- (insert_delete_eq m k v).
    rewrite !count_where_insert_new by apply lookup_delete_eq. lia.
  - rewrite count_where_insert_new by done. lia.
Qed.

Lemma count_where_nonneg {A} (p : A -> bool) (m : gmap K A) : 0 <= count_where p m.
Proof. unfold count_where. lia. Qed.

Lemma count_where_pos {A} (p : A -> bool) (m : gmap K A) k v :
  m !! k = Some v -> p v = true -> 0 < count_where p m.
Proof.
  intros Hk Hp. rewrite <- (insert_delete_id m k v Hk).
  rewrite count_where_insert_new by apply lookup_delete_eq. rewrite Hp. cbn.
  pose proof (count_where_nonneg p (delete k m)). lia.
Qed.

Lemma count_where_zero {A} (p : A -> bool) (m : gmap K A) :
  (forall k v, m !! k = Some v -> p v = false) -> count_where p m = 0.
Proof.
  induction m as [|k v m Hk IH] using map_ind; intros Hp; [apply count_where_empty|].
  rewrite count_where_insert_new by done.
  rewrite (Hp k v) by apply lookup_insert_eq. rewrite IH; [done|].
  intros k' v' Hk'. apply (Hp k'). rewrite lookup_insert_ne by (intros ->; congruence). done.
Qed.

Lemma count_where_fmap {A B} (p : B -> bool) (f : A -> B) (m : gmap K A) :
  count_where p (f <$> m) = count_where (fun x => p (f x)) m.
Proof.
  induction m as [|k v m Hk IH] using map_ind.
  - rewrite fmap_empty. by rewrite !count_where_empty.
  - rewrite fmap_insert, !count_where_insert_new, IH; [done|done|].
    by rewrite lookup_fmap, Hk.
Qed.

Lemma count_where_ext {A} (p q : A -> bool) (m : gmap K A) :
  (forall x, p x = q x) -> count_where p m = count_where q m.
Proof. intros Hpq. unfold count_where. by rewrite (filter_ext p q Hpq). Qed.
End count_where.
