(* ===== verification/Json.v ===== *)
(** * JSON values, [JSON.stringify] and [JSON.parse]

    The part of the ECMAScript JSON functions the modelled code relies on: the
    sync scopes, the mutation log and the job arguments are stored as the text
    [JSON.stringify] returns and read back with [JSON.parse]. A number is
    represented by its JSON literal, an object by the list of its own properties
    in enumeration order. The second half proves the round trip. *)

From stdpp Require Import base gmap strings list sorting.
From Stdlib Require Import ZArith Ascii Lia.
From S2P Require Import Prelude.
Open Scope Z_scope.

Inductive json :=
| JNull
| JBool (b : bool)
| JNum (literal : string)
| JStr (s : string)
| JArr (items : list json)
| JObj (members : list (string * json)).

(** Induction over the nested lists. *)
Section json_ind.
Context (P : json -> Prop)
  (Hnull : P JNull) (Hbool : forall b, P (JBool b)) (Hnum : forall n, P (JNum n))
  (Hstr : forall s, P (JStr s))
  (Harr : forall l, Forall P l -> P (JArr l))
  (Hobj : forall l, Forall (fun kv => P kv.2) l -> P (JObj l)).

Fixpoint json_nested_ind (v : json) : P v :=
  match v with
  | JNull => Hnull
  | JBool b => Hbool b
  | JNum n => Hnum n
  | JStr s => Hstr s
  | JArr l => Harr l ((fix go l : Forall P l :=
      match l with
      | [] => Forall_nil_2 _
      | x :: l' => Forall_cons_2 _ _ _ (json_nested_ind x) (go l')
      end) l)
  | JObj l => Hobj l ((fix go (l : list (string * json)) : Forall (fun kv => P kv.2) l :=
      match l with
      | [] => Forall_nil_2 _
      | kv :: l' => Forall_cons_2 _ _ _ (json_nested_ind kv.2) (go l')
      end) l)
  end.
End json_ind.

#[export] Instance json_eq_dec : EqDecision json.
Proof.
  refine (fix go (v w : json) {struct v} : Decision (v = w) :=
    match v, w with
    | JNull, JNull => left eq_refl
    | JBool a, JBool b => cast_if (decide (a = b))
    | JNum a, JNum b => cast_if (decide (a = b))
    | JStr a, JStr b => cast_if (decide (a = b))
    | JArr a, JArr b => cast_if (@list_eq_dec _ go a b)
    | JObj a, JObj b =>
        cast_if (@list_eq_dec _ (fun p q : string * json =>
          match p, q with
          | (k, x), (k', y) => cast_if_and (decide (k = k')) (go x y)
          end) a b)
    | _, _ => right _
    end); try clear go; abstract congruence.
Defined.

(** ** Own properties of an ordinary object *)

Definition digit_value (c : ascii) : option Z :=
  let n := Z.of_N (N_of_ascii c) in
  if (48 <=? n) && (n <=? 57) then Some (n - 48) else None.

Fixpoint decimal_value (acc : Z) (s : string) : option Z :=
  match s with
  | EmptyString => Some acc
  | String c s' => d ← digit_value c; decimal_value (10 * acc + d) s'
  end.

(** The integer an array-index key stands for: a canonical decimal numeral
    below [2^32 - 1]. *)
Definition array_index (key : string) : option Z :=
  match key with
  | EmptyString => None
  | String c EmptyString => digit_value c
  | String c rest =>
      d ← digit_value c;
      if d =? 0 then None else
      n ← decimal_value d rest;
      if n <? 4294967295 then Some n else None
  end.

(** Where a new property is enumerated: array indices come first, in ascending
    order; the other keys follow in order of creation. *)
Definition enumerated_before (k k' : string) : bool :=
  match array_index k, array_index k' with
  | Some n, Some n' => n <? n'
  | Some _, None => true
  | None, _ => false
  end.

Fixpoint obj_insert {A} (k : string) (v : A) (l : list (string * A)) :
    list (string * A) :=
  match l with
  | [] => [(k, v)]
  | (k', v') :: l' =>
      if enumerated_before k k' then (k, v) :: l else (k', v') :: obj_insert k v l'
  end.

Fixpoint obj_replace {A} (k : string) (v : A) (l : list (string * A)) :
    list (string * A) :=
  match l with
  | [] => []
  | (k', v') :: l' =>
      if decide (k = k') then (k', v) :: l' else (k', v') :: obj_replace k v l'
  end.

(** CreateDataProperty: an existing property keeps its place. *)
Definition obj_define {A} (k : string) (v : A) (l : list (string * A)) :
    list (string * A) :=
  if decide (k ∈ l.*1) then obj_replace k v l else obj_insert k v l.

(** [o[k] = v] on an object literal: assigning to [__proto__] calls the
    inherited setter and creates no own property. *)
Definition obj_assign {A} (k : string) (v : A) (l : list (string * A)) :
    list (string * A) :=
  if decide (k = "__proto__") then l else obj_define k v l.

Fixpoint obj_get {A} (k : string) (l : list (string * A)) : option A :=
  match l with
  | [] => None
  | (k', v) :: l' => if decide (k = k') then Some v else obj_get k l'
  end.

(** ** JSON.stringify *)

Definition hex_digit (n : N) : ascii :=
  ascii_of_N (if (n <? 10)%N then 48 + n else 87 + n).

Definition dquote : string := String (ascii_of_N 34) "".

(** The characters a code unit becomes inside a JSON string literal. *)
Definition quote_char (c : ascii) : string :=
  let n := N_of_ascii c in
  if (n =? 34)%N then String (ascii_of_N 92) dquote else
  if (n =? 92)%N then "\\" else
  if (n =? 8)%N then "\b" else
  if (n =? 9)%N then "\t" else
  if (n =? 10)%N then "\n" else
  if (n =? 12)%N then "\f" else
  if (n =? 13)%N then "\r" else
  if (n <? 32)%N then
    "\u00" +:+ String (hex_digit (n / 16)) (String (hex_digit (n mod 16)) "")
  else String c "".

Fixpoint quote_chars (s : string) : string :=
  match s with
  | EmptyString => ""
  | String c s' => quote_char c +:+ quote_chars s'
  end.

Definition quote_string (s : string) : string := dquote +:+ quote_chars s +:+ dquote.

(** [xs.join(",")] *)
Fixpoint join_comma (l : list string) : string :=
  match l with
  | [] => ""
  | [x] => x
  | x :: l' => x +:+ "," +:+ join_comma l'
  end.

Fixpoint stringify (v : json) : string :=
  match v with
  | JNull => "null"
  | JBool true => "true"
  | JBool false => "false"
  | JNum n => n
  | JStr s => quote_string s
  | JArr l => "[" +:+ join_comma (map stringify l) +:+ "]"
  | JObj l =>
      "{" +:+ join_comma (map (fun kv => quote_string kv.1 +:+ ":" +:+ stringify kv.2) l) +:+ "}"
  end.

(** ** JSON.parse *)

Definition is_json_ws (c : ascii) : bool :=
  let n := N_of_ascii c in (n =? 32)%N || (n =? 9)%N || (n =? 10)%N || (n =? 13)%N.

Fixpoint skip_ws (s : string) : string :=
  match s with
  | String c s' => if is_json_ws c then skip_ws s' else s
  | EmptyString => s
  end.

Definition is_digit (c : ascii) : bool :=
  let n := N_of_ascii c in (48 <=? n)%N && (n <=? 57)%N.

(** The characters a number literal is made of. *)
Definition is_number_char (c : ascii) : bool :=
  is_digit c ||
  let n := N_of_ascii c in
  (n =? 43)%N || (n =? 45)%N || (n =? 46)%N || (n =? 69)%N || (n =? 101)%N.

Fixpoint span (p : ascii -> bool) (s : string) : string * string :=
  match s with
  | EmptyString => ("", "")
  | String c s' =>
      if p c then let '(a, b) := span p s' in (String c a, b) else ("", s)
  end.

Definition all_digits1 (s : string) : bool :=
  match s with "" => false | _ => match (span is_digit s).2 with "" => true | _ => false end end.

(** [e] or [E], an optional sign, digits; or nothing. *)
Definition valid_exponent (s : string) : bool :=
  match s with
  | EmptyString => true
  | String c s' =>
      let n := N_of_ascii c in
      if (n =? 69)%N || (n =? 101)%N then
        match s' with
        | String d s'' =>
            let m := N_of_ascii d in
            if (m =? 43)%N || (m =? 45)%N then all_digits1 s'' else all_digits1 s'
        | EmptyString => false
        end
      else false
  end.

(** The JSON number grammar: an optional minus sign, an integer part without a
    leading zero, an optional fraction and an optional exponent. *)
Definition valid_number (s : string) : bool :=
  let s := match s with String c s' => if (N_of_ascii c =? 45)%N then s' else s | _ => s end in
  let '(int, rest) := span is_digit s in
  let int_ok := match int with
    | EmptyString => false
    | String c EmptyString => true
    | String c _ => negb (N_of_ascii c =? 48)%N
    end in
  int_ok &&
  match rest with
  | EmptyString => true
  | String c rest' =>
      if (N_of_ascii c =? 46)%N then
        let '(frac, exp) := span is_digit rest' in
        match frac with EmptyString => false | _ => valid_exponent exp end
      else valid_exponent rest
  end.

(** A number literal: the grammar, and nothing but number characters. *)
Definition number_literal (s : string) : bool :=
  valid_number s &&
  match (span is_number_char s).2 with EmptyString => true | _ => false end.

Definition hex_value (c : ascii) : option N :=
  let n := N_of_ascii c in
  if ((48 <=? n) && (n <=? 57))%N then Some (n - 48)%N else
  if ((97 <=? n) && (n <=? 102))%N then Some (n - 87)%N else
  if ((65 <=? n) && (n <=? 70))%N then Some (n - 55)%N else None.

(** The body of a string literal after its opening quote. A [\u] escape above
    [\u00ff] is outside the modelled alphabet. *)
Fixpoint parse_string_body (s : string) : option (string * string) :=
  match s with
  | EmptyString => None
  | String c s' =>
      let n := N_of_ascii c in
      if (n =? 34)%N then Some ("", s') else
      if (n <? 32)%N then None else
      if (n =? 92)%N then
        match s' with
        | EmptyString => None
        | String e s'' =>
            let push (d : N) := p ← parse_string_body s''; Some (String (ascii_of_N d) p.1, p.2) in
            let m := N_of_ascii e in
            if (m =? 34)%N then push 34%N else
            if (m =? 92)%N then push 92%N else
            if (m =? 47)%N then push 47%N else
            if (m =? 98)%N then push 8%N else
            if (m =? 102)%N then push 12%N else
            if (m =? 110)%N then push 10%N else
            if (m =? 114)%N then push 13%N else
            if (m =? 116)%N then push 9%N else
            if (m =? 117)%N then
              match s'' with
              | String a (String b (String h (String l s4))) =>
                  a ← hex_value a; b ← hex_value b; h ← hex_value h; l ← hex_value l;
                  if ((a =? 0) && (b =? 0))%N then
                    p ← parse_string_body s4; Some (String (ascii_of_N (16 * h + l)) p.1, p.2)
                  else None
              | _ => None
              end
            else None
        end
      else p ← parse_string_body s'; Some (String c p.1, p.2)
  end.

(** [strip p s] is what follows the prefix [p] of [s]. *)
Fixpoint strip (p s : string) : option string :=
  match p, s with
  | EmptyString, _ => Some s
  | String a p', String b s' => if decide (a = b) then strip p' s' else None
  | String _ _, EmptyString => None
  end.

Definition expect (p s : string) : option string := strip p (skip_ws s).

(** The fuel bounds the nesting and the number of items; the length of the text
    is enough. *)
Fixpoint parse_value (fuel : nat) (s : string) : option (json * string) :=
  match fuel with
  | O => None
  | S fuel =>
    match skip_ws s with
    | EmptyString => None
    | String c s1 as s0 =>
        let n := N_of_ascii c in
        if (n =? 34)%N then p ← parse_string_body s1; Some (JStr p.1, p.2) else
        if (n =? 91)%N then
          match expect "]" s1 with
          | Some s2 => Some (JArr [], s2)
          | None => p ← parse_items fuel s1; Some (JArr p.1, p.2)
          end
        else if (n =? 123)%N then
          match expect "}" s1 with
          | Some s2 => Some (JObj [], s2)
          | None => p ← parse_members fuel [] s1; Some (JObj p.1, p.2)
          end
        else if (n =? 110)%N then s2 ← strip "null" s0; Some (JNull, s2)
        else if (n =? 116)%N then s2 ← strip "true" s0; Some (JBool true, s2)
        else if (n =? 102)%N then s2 ← strip "false" s0; Some (JBool false, s2)
        else
          let '(literal, s2) := span is_number_char s0 in
          if number_literal literal then Some (JNum literal, s2) else None
    end
  end
(** One or more items and the closing bracket. *)
with parse_items (fuel : nat) (s : string) : option (list json * string) :=
  match fuel with
  | O => None
  | S fuel =>
      p ← parse_value fuel s;
      match expect "]" p.2 with
      | Some s2 => Some ([p.1], s2)
      | None => s2 ← expect "," p.2; q ← parse_items fuel s2; Some (p.1 :: q.1, q.2)
      end
  end
(** One or more members and the closing brace; the object is built as its
    members are read. *)
with parse_members (fuel : nat) (acc : list (string * json)) (s : string) :
    option (list (string * json) * string) :=
  match fuel with
  | O => None
  | S fuel =>
      s1 ← expect dquote s;
      k ← parse_string_body s1;
      s2 ← expect ":" k.2;
      p ← parse_value fuel s2;
      let acc := obj_define k.1 p.1 acc in
      match expect "}" p.2 with
      | Some s3 => Some (acc, s3)
      | None => s3 ← expect "," p.2; parse_members fuel acc s3
      end
  end.

Definition parse (s : string) : option json :=
  match parse_value (S (String.length s)) s with
  | Some (v, rest) => match skip_ws rest with EmptyString => Some v | _ => None end
  | None => None
  end.

(** ** The round trip *)

(** The values JSON text can carry: every number is a literal. *)
Inductive valid_json : json -> Prop :=
| valid_null : valid_json JNull
| valid_bool b : valid_json (JBool b)
| valid_num n : number_literal n = true -> valid_json (JNum n)
| valid_str s : valid_json (JStr s)
| valid_arr l : Forall valid_json l -> valid_json (JArr l)
| valid_obj l : Forall (fun kv => valid_json kv.2) l -> valid_json (JObj l).

(** The value as [JSON.parse] rebuilds it: every object is filled member by
    member, which puts its array-index keys first. *)
Fixpoint rebuild (v : json) : json :=
  match v with
  | JArr l => JArr (map rebuild l)
  | JObj l => JObj (fold_left (fun acc kv => obj_define kv.1 (rebuild kv.2) acc) l [])
  | _ => v
  end.

Lemma parse_quote_char c t :
  parse_string_body (quote_char c +:+ t) =
  (p ← parse_string_body t; Some (String c p.1, p.2)).
Proof. by destruct c as [[] [] [] [] [] [] [] []]. Qed.

Lemma parse_quote_chars s t :
  parse_string_body (quote_chars s +:+ dquote +:+ t) = Some (s, t).
Proof.
  induction s as [|c s IH]; [done|]. cbn [quote_chars].
  by rewrite append_assoc, parse_quote_char, IH.
Qed.

Lemma strip_append p t : strip p (p +:+ t) = Some t.
Proof.
  induction p as [|c p IH]; [done|]. rewrite append_cons. cbn.
  by rewrite decide_True.
Qed.

(** How a text starts: the parser dispatches on it. *)
Definition head_not (p : ascii -> bool) (s : string) : Prop :=
  match s with EmptyString => True | String c _ => p c = false end.

Lemma skip_ws_head s : head_not is_json_ws s -> skip_ws s = s.
Proof. destruct s; [done|]. cbn. by intros ->. Qed.

Lemma span_append p s t :
  (span p s).2 = "" -> head_not p t -> span p (s +:+ t) = (s, t).
Proof.
  induction s as [|c s IH]; cbn.
  - intros _. rewrite append_nil_l. destruct t as [|c t]; [done|]. cbn. by intros ->.
  - rewrite append_cons. cbn. destruct (p c); [|done].
    destruct (span p s) as [a b] eqn:Hs. cbn. intros Hb Ht. by rewrite IH.
Qed.

Definition is_ws_or (d c : ascii) : bool := is_json_ws c || bool_decide (c = d).

Lemma expect_head_not d t :
  head_not (is_ws_or d) t -> expect (String d "") t = None.
Proof.
  unfold expect. destruct t as [|c t]; [done|]. unfold is_ws_or. cbn.
  intros [Hw Hd]%orb_false_iff. rewrite Hw. cbn.
  apply bool_decide_eq_false in Hd. by rewrite decide_False.
Qed.

Lemma number_literal_head n : number_literal n = true ->
  exists c n', n = String c n' /\ is_number_char c = true.
Proof.
  unfold number_literal. intros [Hv Hs]%andb_true_iff.
  destruct n as [|c n']; [done|]. exists c, n'. split; [done|].
  cbn in Hs. by destruct (is_number_char c).
Qed.

(** The first character of a serialized value is neither blank nor a separator
    nor a closing bracket. *)
Definition starts_value (c : ascii) : bool :=
  negb (is_json_ws c || bool_decide (c = "]"%char) || bool_decide (c = "}"%char)).

Lemma stringify_head v : valid_json v ->
  exists c t, stringify v = String c t /\ starts_value c = true.
Proof.
  intros Hv. destruct Hv as [|b|n Hn|s|l Hl|l Hl]; cbn.
  - by eexists _, _.
  - destruct b; by eexists _, _.
  - apply number_literal_head in Hn as (c & n' & -> & Hc).
    exists c, n'. split; [done|].
    revert Hc. by destruct c as [[] [] [] [] [] [] [] []].
  - by eexists _, _.
  - by eexists _, _.
  - by eexists _, _.
Qed.

(** Fuel that suffices to parse the serialization of a value. *)
Fixpoint json_size (v : json) : nat :=
  match v with
  | JArr l => S (foldr (fun x n => S (json_size x + n)) 0%nat l)
  | JObj l => S (foldr (fun kv n => S (json_size kv.2 + n)) 0%nat l)
  | _ => 1%nat
  end.

Definition items_size (l : list json) : nat :=
  foldr (fun x n => S (json_size x + n)) 0%nat l.
Definition members_size (l : list (string * json)) : nat :=
  foldr (fun kv n => S (json_size kv.2 + n)) 0%nat l.

Definition parses (v : json) : Prop := forall fuel rest,
  (json_size v <= fuel)%nat -> head_not is_number_char rest ->
  parse_value fuel (stringify v +:+ rest) = Some (rebuild v, rest).

(** A text that starts with one of the separators the serializer writes. *)
Lemma head_not_sep p c t : p c = false -> head_not p (String c t).
Proof. done. Qed.

Lemma parse_value_skip fuel s : skip_ws s = s -> forall c t, s = String c t ->
  N_of_ascii c <> 34%N -> N_of_ascii c <> 91%N -> N_of_ascii c <> 123%N ->
  N_of_ascii c <> 110%N -> N_of_ascii c <> 116%N -> N_of_ascii c <> 102%N ->
  parse_value (S fuel) s =
    (let '(literal, s2) := span is_number_char s in
     if number_literal literal then Some (JNum literal, s2) else None).
Proof.
  intros Hs c t -> H1 H2 H3 H4 H5 H6. cbn [parse_value]. rewrite Hs.
  rewrite !(proj2 (N.eqb_neq _ _)) by done. done.
Qed.

Lemma parses_num n : number_literal n = true -> parses (JNum n).
Proof.
  intros Hn fuel rest Hf Hr. destruct fuel as [|fuel]; [cbn in Hf; lia|].
  pose proof Hn as Hn'. apply number_literal_head in Hn' as (c & n' & Heq & Hc).
  assert (is_json_ws c = false /\ N_of_ascii c <> 34%N /\ N_of_ascii c <> 91%N /\
          N_of_ascii c <> 123%N /\ N_of_ascii c <> 110%N /\ N_of_ascii c <> 116%N /\
          N_of_ascii c <> 102%N) as (Hw & H1 & H2 & H3 & H4 & H5 & H6).
  { clear -Hc. revert Hc. by destruct c as [[] [] [] [] [] [] [] []]. }
  cbn [stringify rebuild].
  erewrite parse_value_skip; try done.
  - rewrite span_append; [by rewrite Hn| |done].
    unfold number_literal in Hn. apply andb_true_iff in Hn as [_ Hn].
    by destruct (span is_number_char n).2.
  - apply skip_ws_head. by rewrite Heq, append_cons.
  - rewrite Heq, append_cons. done.
Qed.

Lemma parses_str str : parses (JStr str).
Proof.
  intros fuel rest Hf Hr. destruct fuel as [|fuel]; [cbn in Hf; lia|].
  cbn [stringify rebuild]. unfold quote_string. rewrite append_assoc.
  change (parse_value (S fuel) (dquote +:+ ?t))
    with (p ← parse_string_body t; Some (JStr p.1, p.2)).
  by rewrite append_assoc, parse_quote_chars.
Qed.

Lemma starts_value_head_not c : starts_value c = true ->
  is_ws_or "]" c = false /\ is_ws_or "}" c = false.
Proof.
  unfold starts_value, is_ws_or. rewrite negb_true_iff, !orb_false_iff. tauto.
Qed.

Lemma join_comma_cons x y l t :
  join_comma (x :: y :: l) +:+ t = x +:+ "," +:+ join_comma (y :: l) +:+ t.
Proof. cbn [join_comma]. by rewrite !append_assoc. Qed.

Lemma parse_items_stringify l : l <> [] -> Forall parses l -> forall fuel rest,
  (items_size l <= fuel)%nat ->
  parse_items fuel (join_comma (map stringify l) +:+ "]" +:+ rest) =
    Some (map rebuild l, rest).
Proof.
  intros Hne Hall. revert Hne.
  induction Hall as [|x l Hx Hall IH]; [done|]. intros _ fuel rest Hf.
  destruct fuel as [|fuel]; [cbn in Hf; lia|]. cbn in Hf.
  destruct l as [|y l].
  - cbn [map join_comma parse_items].
    rewrite Hx by (done || lia). done.
  - cbn [map]. rewrite join_comma_cons. cbn [parse_items].
    rewrite Hx by (done || lia). cbn [mbind option_bind fst snd].
    change (expect "]" ("," +:+ ?t)) with (@None string).
    change (expect "," ("," +:+ ?t)) with (Some t). cbn [mbind option_bind].
    change (stringify y :: map stringify l) with (map stringify (y :: l)).
    rewrite IH; [done|done|unfold items_size in *; cbn in *; lia].
Qed.

Lemma parses_arr l : Forall valid_json l -> Forall parses l -> parses (JArr l).
Proof.
  intros Hv Hp fuel rest Hf Hr. destruct fuel as [|fuel]; [cbn in Hf; lia|].
  cbn [stringify rebuild]. rewrite !append_assoc.
  destruct l as [|x l]; [done|].
  assert (expect "]" (join_comma (map stringify (x :: l)) +:+ "]" +:+ rest) = None) as He.
  { apply expect_head_not. inversion Hv as [|? ? Hx _]; subst.
    apply stringify_head in Hx as (c & t & Hs & Hc).
    apply starts_value_head_not in Hc as [Hc _]. cbn [map].
    destruct l; cbn [map join_comma]; rewrite Hs, ?append_assoc, ?append_cons; done. }
  change (parse_value (S fuel) ("[" +:+ ?s1)) with
    (match expect "]" s1 with
     | Some s2 => Some (JArr [], s2)
     | None => p ← parse_items fuel s1; Some (JArr p.1, p.2)
     end).
  rewrite He, parse_items_stringify; [done|done|done|].
  change (json_size (JArr (x :: l))) with (S (items_size (x :: l))) in Hf. lia.
Qed.

Definition member_text (kv : string * json) : string :=
  quote_string kv.1 +:+ ":" +:+ stringify kv.2.

Definition rebuild_members (acc l : list (string * json)) : list (string * json) :=
  fold_left (fun acc kv => obj_define kv.1 (rebuild kv.2) acc) l acc.

Lemma parse_member_text fuel acc k v rest :
  parse_members (S fuel) acc (member_text (k, v) +:+ rest) =
  (p ← parse_value fuel (stringify v +:+ rest);
   let acc := obj_define k p.1 acc in
   match expect "}" p.2 with
   | Some s3 => Some (acc, s3)
   | None => s3 ← expect "," p.2; parse_members fuel acc s3
   end).
Proof.
  unfold member_text. cbn [fst snd]. unfold quote_string. rewrite !append_assoc.
  change (parse_members (S fuel) acc (dquote +:+ ?t)) with
    (k ← parse_string_body t; s2 ← expect ":" k.2; p ← parse_value fuel s2;
     let acc := obj_define k.1 p.1 acc in
     match expect "}" p.2 with
     | Some s3 => Some (acc, s3)
     | None => s3 ← expect "," p.2; parse_members fuel acc s3
     end).
  by rewrite parse_quote_chars.
Qed.

Lemma parse_members_stringify l : l <> [] -> Forall (fun kv => parses kv.2) l ->
  forall fuel acc rest, (members_size l <= fuel)%nat ->
  parse_members fuel acc (join_comma (map member_text l) +:+ "}" +:+ rest) =
    Some (rebuild_members acc l, rest).
Proof.
  intros Hne Hall. revert Hne.
  induction Hall as [|[k x] l Hx Hall IH]; [done|]. intros _ fuel acc rest Hf.
  destruct fuel as [|fuel]; [cbn in Hf; lia|]. cbn in Hf, Hx.
  destruct l as [|y l].
  - cbn [map join_comma]. rewrite parse_member_text, Hx by (done || lia). done.
  - cbn [map]. rewrite join_comma_cons, parse_member_text, Hx by (done || lia).
    cbn [mbind option_bind fst snd].
    change (expect "}" ("," +:+ ?t)) with (@None string).
    change (expect "," ("," +:+ ?t)) with (Some t). cbn [mbind option_bind].
    change (member_text y :: map member_text l) with (map member_text (y :: l)).
    rewrite IH; [done|done|unfold members_size in *; cbn in *; lia].
Qed.

Lemma parses_obj l : Forall (fun kv => parses kv.2) l -> parses (JObj l).
Proof.
  intros Hp fuel rest Hf Hr. destruct fuel as [|fuel]; [cbn in Hf; lia|].
  change (stringify (JObj l)) with ("{" +:+ join_comma (map member_text l) +:+ "}").
  cbn [rebuild]. rewrite !append_assoc.
  destruct l as [|x l]; [done|].
  assert (expect "}" (join_comma (map member_text (x :: l)) +:+ "}" +:+ rest) = None) as He.
  { apply expect_head_not. cbn [map].
    destruct l; cbn [map join_comma]; unfold member_text, quote_string;
      rewrite !append_assoc; done. }
  change (parse_value (S fuel) ("{" +:+ ?s1)) with
    (match expect "}" s1 with
     | Some s2 => Some (JObj [], s2)
     | None => p ← parse_members fuel [] s1; Some (JObj p.1, p.2)
     end).
  rewrite He, parse_members_stringify; [done|done|done|].
  change (json_size (JObj (x :: l))) with (S (members_size (x :: l))) in Hf. lia.
Qed.

Lemma valid_parses v : valid_json v -> parses v.
Proof.
  induction v as [|b|n|str|l IH|l IH] using json_nested_ind; intros Hv.
  - intros [|fuel] rest Hf _; [cbn in Hf; lia|]. done.
  - intros [|fuel] rest Hf _; [cbn in Hf; lia|]. by destruct b.
  - inversion Hv; subst. by apply parses_num.
  - apply parses_str.
  - inversion Hv as [| | | |? Hl|]; subst. apply parses_arr; [done|].
    rewrite Forall_forall in IH, Hl |- *. eauto.
  - inversion Hv as [| | | | |? Hl]; subst. apply parses_obj.
    rewrite Forall_forall in IH, Hl |- *. eauto.
Qed.

Lemma join_comma_length (l : list string) :
  (foldr (fun x n => String.length x + n) 0 l + length l <=
   S (String.length (join_comma l)))%nat.
Proof.
  induction l as [|x [|y l] IH]; [cbn; lia|cbn; lia|].
  cbn [join_comma]. rewrite !length_append. cbn in IH |- *. lia.
Qed.

Lemma json_size_length v : valid_json v -> (json_size v <= String.length (stringify v))%nat.
Proof.
  induction v as [|b|n|str|l IH|l IH] using json_nested_ind; intros Hv.
  - cbn; lia.
  - destruct b; cbn; lia.
  - inversion Hv as [| |? Hn| | |]; subst.
    apply number_literal_head in Hn as (c & t & -> & _). cbn; lia.
  - cbn [stringify]. unfold quote_string. rewrite !length_append. cbn; lia.
  - inversion Hv as [| | | |? Hl|]; subst. cbn [stringify json_size].
    rewrite !length_append. cbn [String.length].
    pose proof (join_comma_length (map stringify l)) as Hj. rewrite length_map in Hj.
    cut (items_size l <= foldr (fun x n => String.length x + n) 0 (map stringify l) + length l)%nat.
    { unfold items_size. lia. }
    clear Hj Hv. induction Hl as [|x l Hx Hl IHl]; [done|].
    apply Forall_cons in IH as [Hi IH]. specialize (Hi Hx). specialize (IHl IH).
    unfold items_size in *. cbn in *. lia.
  - inversion Hv as [| | | | |? Hl]; subst.
    change (stringify (JObj l)) with ("{" +:+ join_comma (map member_text l) +:+ "}").
    cbn [json_size]. rewrite !length_append. cbn [String.length].
    pose proof (join_comma_length (map member_text l)) as Hj. rewrite length_map in Hj.
    cut (members_size l <= foldr (fun x n => String.length x + n) 0 (map member_text l) + length l)%nat.
    { unfold members_size. lia. }
    clear Hj Hv. induction Hl as [|x l Hx Hl IHl]; [done|].
    apply Forall_cons in IH as [Hi IH]. specialize (Hi Hx). specialize (IHl IH).
    unfold members_size, member_text in *. cbn [foldr map length].
    rewrite !length_append. cbn [String.length]. lia.
Qed.

(** [JSON.parse(JSON.stringify(v))] is [v] with its objects refilled. *)
Lemma parse_stringify_rebuild v : valid_json v -> parse (stringify v) = Some (rebuild v).
Proof.
  intros Hv. unfold parse.
  rewrite <- (append_nil_r (stringify v)) at 2.
  rewrite (valid_parses v Hv); [done| |done].
  pose proof (json_size_length v Hv). lia.
Qed.

(** An object whose property list is one an object can have: distinct keys,
    array indices first and ascending. *)
Fixpoint ordinary_order {A} (l : list (string * A)) : Prop :=
  match l with
  | [] => True
  | (k, _) :: l' =>
      (forall kv, kv ∈ l' -> k <> kv.1 /\ enumerated_before kv.1 k = false) /\
      ordinary_order l'
  end.

Inductive ordinary : json -> Prop :=
| ordinary_null : ordinary JNull
| ordinary_bool b : ordinary (JBool b)
| ordinary_num n : ordinary (JNum n)
| ordinary_str s : ordinary (JStr s)
| ordinary_arr l : Forall ordinary l -> ordinary (JArr l)
| ordinary_obj l : ordinary_order l -> Forall (fun kv => ordinary kv.2) l ->
    ordinary (JObj l).

Lemma obj_insert_last {A} k (v : A) l :
  (forall kv, kv ∈ l -> enumerated_before k kv.1 = false) ->
  obj_insert k v l = l ++ [(k, v)].
Proof.
  induction l as [|[k' v'] l IH]; [done|]. intros H. cbn.
  pose proof (H (k', v')) as Hk. cbn in Hk. rewrite Hk by constructor.
  rewrite IH; [done|].
  intros kv Hkv. apply H. by constructor.
Qed.

(** Filling an object with properties that are in enumeration order appends them. *)
Lemma define_all_ordinary {A} (acc l : list (string * A)) :
  ordinary_order (acc ++ l) ->
  fold_left (fun acc kv => obj_define kv.1 kv.2 acc) l acc = acc ++ l.
Proof.
  revert acc. induction l as [|[k v] l IH]; intros acc Ho; cbn [fold_left].
  - by rewrite app_nil_r.
  - assert (forall kv, kv ∈ acc -> kv.1 <> k /\ enumerated_before k kv.1 = false) as Hacc.
    { clear -Ho. induction acc as [|[k' v'] acc IHacc]; [set_solver|].
      destruct Ho as [Hk Ho]. intros kv [->|Hkv]%elem_of_cons; [|by apply IHacc].
      apply (Hk (k, v)), elem_of_app. right. constructor. }
    cbn [fst snd]. unfold obj_define at 2. rewrite decide_False.
    + rewrite obj_insert_last by (intros kv Hkv; by apply Hacc).
      replace (acc ++ (k, v) :: l) with ((acc ++ [(k, v)]) ++ l) in *
        by by rewrite <- app_assoc.
      by apply IH.
    + rewrite list_elem_of_fmap. intros (kv & -> & Hkv). by apply Hacc in Hkv as [? _].
Qed.

Lemma rebuild_members_ordinary acc l :
  ordinary_order (acc ++ l) -> Forall (fun kv => rebuild kv.2 = kv.2) l ->
  rebuild_members acc l = acc ++ l.
Proof.
  intros Ho Hl. rewrite <- define_all_ordinary by done. clear Ho. revert acc.
  unfold rebuild_members. induction Hl as [|kv l Hv Hl IH]; intros acc; [done|].
  cbn [fold_left]. by rewrite Hv, IH.
Qed.

Lemma ordinary_rebuild v : ordinary v -> rebuild v = v.
Proof.
  induction v as [|b|n|str|l IH|l IH] using json_nested_ind; intros Hv; try done.
  - inversion Hv as [| | | |? Hl|]; subst. cbn. f_equal.
    induction Hl as [|x l Hx Hl IHl]; [done|]. apply Forall_cons in IH as [Hi IH].
    cbn. rewrite Hi by done. f_equal. apply IHl; [done|by constructor].
  - inversion Hv as [| | | | |? Ho Hl]; subst.
    change (JObj (rebuild_members [] l) = JObj l). f_equal.
    rewrite rebuild_members_ordinary; [done|done|].
    rewrite Forall_forall in IH, Hl |- *. eauto.
Qed.

Lemma parse_stringify v : valid_json v -> ordinary v -> parse (stringify v) = Some v.
Proof. intros Hv Ho. rewrite parse_stringify_rebuild by done. by rewrite ordinary_rebuild. Qed.

(** ** The text of a value is one trimmed line *)

Lemma quote_char_no_line c : has_char LF (quote_char c) = false.
Proof. by destruct c as [[] [] [] [] [] [] [] []]. Qed.

Lemma quote_chars_no_line s : has_char LF (quote_chars s) = false.
Proof. induction s as [|c s IH]; [done|]. cbn [quote_chars]. by rewrite has_char_app, quote_char_no_line, IH. Qed.

Lemma quote_string_no_line s : has_char LF (quote_string s) = false.
Proof. unfold quote_string. by rewrite !has_char_app, quote_chars_no_line. Qed.

Lemma number_chars n : number_literal n = true -> all_chars is_number_char n = true.
Proof.
  unfold number_literal. intros [_ Hs]%andb_prop.
  induction n as [|c n IH]; [done|]. cbn in Hs |- *. destruct (is_number_char c); [|done].
  apply IH. by destruct (span is_number_char n).
Qed.

Lemma all_chars_no_line P s : P LF = false -> all_chars P s = true -> has_char LF s = false.
Proof.
  intros HP. induction s as [|c s IH]; [done|]. cbn. intros [Hc Hs]%andb_prop.
  rewrite has_char_cons, IH by done. rewrite bool_decide_eq_false_2; [done|congruence].
Qed.

Lemma join_comma_no_line l : Forall (fun t => has_char LF t = false) l -> has_char LF (join_comma l) = false.
Proof.
  induction 1 as [|x l Hx Hl IH]; [done|]. destruct l as [|y l]; [done|].
  change (join_comma (x :: y :: l)) with (x +:+ "," +:+ join_comma (y :: l)).
  by rewrite !has_char_app, Hx, IH.
Qed.

Lemma stringify_no_line v : valid_json v -> has_char LF (stringify v) = false.
Proof.
  induction v as [|b|n|s|l IH|l IH] using json_nested_ind; intros Hv; inversion Hv; subst; cbn.
  - done.
  - by destruct b.
  - eapply all_chars_no_line; [|by apply number_chars]. done.
  - apply quote_string_no_line.
  - rewrite !has_char_app, join_comma_no_line; [done|]. rewrite Forall_map.
    rewrite Forall_forall in IH, H0 |- *. eauto.
  - rewrite !has_char_app, join_comma_no_line; [done|]. rewrite Forall_map.
    rewrite Forall_forall in IH, H0 |- *. intros kv Hkv.
    rewrite !has_char_app, quote_string_no_line, IH by auto. done.
Qed.

Lemma stringify_trim v : valid_json v -> js_trim (stringify v) = stringify v.
Proof.
  intros Hv. destruct Hv as [|b|n Hn|s|l Hl|l Hl].
  - done.
  - by destruct b.
  - apply (trim_all_chars is_number_char); [|by apply number_chars].
    intros c. by destruct c as [[] [] [] [] [] [] [] []].
  - cbn [stringify]. unfold quote_string, js_trim. change (trim_start (dquote +:+ ?x)) with (dquote +:+ x).
    rewrite <- append_assoc. by apply trim_end_last.
  - cbn [stringify]. unfold js_trim. change (trim_start ("[" +:+ ?x)) with ("[" +:+ x).
    rewrite <- append_assoc. by apply trim_end_last.
  - cbn [stringify]. unfold js_trim. change (trim_start ("{" +:+ ?x)) with ("{" +:+ x).
    rewrite <- append_assoc. by apply trim_end_last.
Qed.
