(* ===== verification/Dates.v ===== *)
(** * ECMAScript dates

    The time-value arithmetic of ECMAScript (days are counted from 1970, a time
    value is a number of milliseconds) and the text [Date.prototype.toISOString]
    writes. [iso_value] reads exactly those texts back. *)

From stdpp Require Import base strings list.
From Stdlib Require Import ZArith Ascii Lia.
From S2P Require Import Prelude Json.
Open Scope Z_scope.

(** ** Days *)

Definition DayFromYear (y : Z) : Z :=
  365 * (y - 1970) + (y - 1969) / 4 - (y - 1901) / 100 + (y - 1601) / 400.

Definition is_leap (y : Z) : bool :=
  (y mod 4 =? 0) && (negb (y mod 100 =? 0) || (y mod 400 =? 0)).

(** The year of a day: an estimate, corrected by at most one. *)
Definition YearFromDay (day : Z) : Z :=
  let y := 1970 + day * 400 / 146097 in
  if day <? DayFromYear y then y - 1 else if DayFromYear (y + 1) <=? day then y + 1 else y.

Definition days_before_month (leap : bool) : list Z :=
  let l := Z.b2z leap in
  [0; 31; 59 + l; 90 + l; 120 + l; 151 + l; 181 + l; 212 + l; 243 + l; 273 + l; 304 + l; 334 + l].

(** The last month that begins at or before the day of the year. *)
Definition MonthFromDay (day : Z) : Z :=
  let y := YearFromDay day in
  let n := day - DayFromYear y in
  Z.of_nat (length (List.filter (fun d => d <=? n) (days_before_month (is_leap y)))) - 1.

Definition DateFromDay (day : Z) : Z :=
  let y := YearFromDay day in
  day - DayFromYear y -
    nth (Z.to_nat (MonthFromDay day)) (days_before_month (is_leap y)) 0 + 1.

Lemma DayFromYear_bounds y :
  146097 * (y - 1970) - 1200 <= 400 * DayFromYear y <= 146097 * (y - 1970) + 1200.
Proof.
  unfold DayFromYear.
  assert (forall x k, 0 < k -> k * (x / k) <= x < k * (x / k) + k) as Hdiv.
  { intros x k Hk. pose proof (Z.div_mod x k ltac:(lia)). pose proof (Z.mod_pos_bound x k Hk). lia. }
  pose proof (Hdiv (y - 1969) 4 eq_refl). pose proof (Hdiv (y - 1901) 100 eq_refl).
  pose proof (Hdiv (y - 1601) 400 eq_refl). lia.
Qed.

Lemma YearFromDay_spec day :
  DayFromYear (YearFromDay day) <= day < DayFromYear (YearFromDay day + 1).
Proof.
  unfold YearFromDay. set (y := 1970 + day * 400 / 146097).
  assert (DayFromYear (y - 1) <= day < DayFromYear (y + 2)) as H.
  { assert (146097 * (y - 1970) <= 400 * day < 146097 * (y - 1970) + 146097) as Hy.
    { unfold y. pose proof (Z.div_mod (day * 400) 146097 ltac:(lia)).
      pose proof (Z.mod_pos_bound (day * 400) 146097 ltac:(lia)). lia. }
    clearbody y. pose proof (DayFromYear_bounds (y - 1)). pose proof (DayFromYear_bounds (y + 2)). lia. }
  destruct (Z.ltb_spec day (DayFromYear y)).
  - replace (y - 1 + 1) with y by lia. lia.
  - destruct (Z.leb_spec (DayFromYear (y + 1)) day); [|lia].
    replace (y + 1 + 1) with (y + 2) by lia. lia.
Qed.

Lemma DayFromYear_mono a b : a <= b -> DayFromYear a <= DayFromYear b.
Proof. intros H. unfold DayFromYear. Z.to_euclidean_division_equations. lia. Qed.

(** The month and the date are within the calendar. *)
Lemma month_and_date day : 0 <= MonthFromDay day <= 11 /\ 1 <= DateFromDay day <= 31.
Proof.
  pose proof (YearFromDay_spec day) as Hy. unfold DateFromDay, MonthFromDay.
  set (y := YearFromDay day) in *. set (n := day - DayFromYear y).
  assert (0 <= n < 365 + Z.b2z (is_leap y)) as Hn.
  { assert (DayFromYear (y + 1) = DayFromYear y + 365 + Z.b2z (is_leap y)) as Hl; [|lia].
    clear. unfold DayFromYear, is_leap.
    destruct (Z.eqb_spec (y mod 4) 0), (Z.eqb_spec (y mod 100) 0), (Z.eqb_spec (y mod 400) 0);
      cbn; Z.to_euclidean_division_equations; lia. }
  clearbody n. unfold days_before_month. destruct (is_leap y); cbn in Hn |- *;
    repeat match goal with
    | |- context [?a <=? n] => destruct (Z.leb_spec a n); try lia; cbn
    end;
    match goal with
    | |- context [Z.to_nat ?x] => let v := eval vm_compute in (Z.to_nat x) in change (Z.to_nat x) with v
    end; cbv iota; lia.
Qed.

(** ** Fixed-width decimals *)

Definition digit_char (d : Z) : ascii := ascii_of_N (Z.to_N (48 + d)).

(** The last [w] decimal digits of [n]. *)
Fixpoint pad (w : nat) (n : Z) : string :=
  match w with
  | O => ""
  | S w => String (digit_char (n / 10 ^ Z.of_nat w mod 10)) (pad w n)
  end.

Fixpoint read_fixed (w : nat) (acc : Z) (s : string) : option (Z * string) :=
  match w, s with
  | O, _ => Some (acc, s)
  | S w, String c s' => d ← digit_value c; read_fixed w (10 * acc + d) s'
  | S _, EmptyString => None
  end.

Lemma digit_value_char d : 0 <= d < 10 -> digit_value (digit_char d) = Some d.
Proof.
  intros Hd. assert (d ∈ [0; 1; 2; 3; 4; 5; 6; 7; 8; 9]) as Hin by (rewrite !elem_of_cons; lia).
  revert Hin. clear. rewrite !elem_of_cons, elem_of_nil.
  intros [-> | [-> | [-> | [-> | [-> | [-> | [-> | [-> | [-> | [-> | []]]]]]]]]]]; reflexivity.
Qed.

Lemma read_pad w acc n t : 0 <= n ->
  read_fixed w acc (pad w n +:+ t) = Some (acc * 10 ^ Z.of_nat w + n mod 10 ^ Z.of_nat w, t).
Proof.
  intros Hn. revert acc. induction w as [|w IH]; intros acc.
  - cbn. rewrite Z.mod_1_r. do 2 f_equal. lia.
  - cbn [pad]. rewrite append_cons. cbn [read_fixed].
    rewrite digit_value_char by (apply Z.mod_pos_bound; lia). cbn [mbind option_bind].
    rewrite IH. do 2 f_equal. rewrite Nat2Z.inj_succ, Z.pow_succ_r by lia.
    assert (0 < 10 ^ Z.of_nat w) by (apply Z.pow_pos_nonneg; lia).
    rewrite (Z.mul_comm 10 (10 ^ Z.of_nat w)), Z.rem_mul_r by lia. lia.
Qed.

(** ** ISO texts *)

Definition msPerDay : Z := 86400000.
Definition MAX_TIME : Z := 8640000000000000.

(** Four digits, or a sign and six. *)
Definition year_text (y : Z) : string :=
  if (0 <=? y) && (y <=? 9999) then pad 4 y
  else (if y <? 0 then "-" else "+") +:+ pad 6 (Z.abs y).

(** [date.toISOString()] of a date with the time value [t]. *)
Definition toISOString (t : Z) : string :=
  let day := t / msPerDay in
  let ms := t mod msPerDay in
  year_text (YearFromDay day) +:+ "-" +:+ pad 2 (MonthFromDay day + 1) +:+ "-" +:+
  pad 2 (DateFromDay day) +:+ "T" +:+ pad 2 (ms / 3600000) +:+ ":" +:+
  pad 2 (ms / 60000 mod 60) +:+ ":" +:+ pad 2 (ms / 1000 mod 60) +:+ "." +:+
  pad 3 (ms mod 1000) +:+ "Z".

Definition read_year (s : string) : option (Z * string) :=
  match strip "-" s with
  | Some s' => p ← read_fixed 6 0 s'; Some (- p.1, p.2)
  | None => match strip "+" s with Some s' => read_fixed 6 0 s' | None => read_fixed 4 0 s end
  end.

(** A separator and a number of [w] digits. *)
Definition read_part (separator : string) (w : nat) (s : string) : option (Z * string) :=
  s' ← strip separator s; read_fixed w 0 s'.

Definition read_iso (s : string) : option Z :=
  y ← read_year s; m ← read_part "-" 2 y.2; d ← read_part "-" 2 m.2;
  h ← read_part "T" 2 d.2; mi ← read_part ":" 2 h.2; sec ← read_part ":" 2 mi.2;
  ms ← read_part "." 3 sec.2;
  let day := DayFromYear y.1 +
    nth (Z.to_nat (m.1 - 1)) (days_before_month (is_leap y.1)) 0 + d.1 - 1 in
  Some (day * msPerDay + h.1 * 3600000 + mi.1 * 60000 + sec.1 * 1000 + ms.1).

(** The time value of a text that is the ISO text of a date, and of no other. *)
Definition iso_value (s : string) : option Z :=
  t ← read_iso s;
  if decide (Z.abs t <= MAX_TIME /\ toISOString t = s) then Some t else None.

Lemma iso_value_spec s t : iso_value s = Some t -> toISOString t = s /\ Z.abs t <= MAX_TIME.
Proof.
  unfold iso_value. destruct (read_iso s) as [t'|]; cbn; [|done].
  case_decide as H; [|done]. intros [= <-]. tauto.
Qed.

Lemma read_part_pad w n t sep : 0 <= n < 10 ^ Z.of_nat w ->
  read_part sep w (sep +:+ pad w n +:+ t) = Some (n, t).
Proof.
  intros Hn. unfold read_part. rewrite strip_append. cbn. rewrite read_pad by lia.
  do 2 f_equal. rewrite Z.mod_small by lia. lia.
Qed.

Lemma pad_head w n : (0 < w)%nat -> exists d s, pad w n = String (digit_char d) s /\ 0 <= d < 10.
Proof.
  destruct w as [|w]; [lia|]. intros _. cbn [pad]. eexists _, _. split; [done|].
  apply Z.mod_pos_bound. lia.
Qed.

Lemma digit_not_sign d : 0 <= d < 10 -> digit_char d <> "-"%char /\ digit_char d <> "+"%char.
Proof.
  intros Hd%digit_value_char. split; intros Hc; rewrite Hc in Hd; discriminate Hd.
Qed.

Lemma read_year_text y t : Z.abs y <= 999999 -> read_year (year_text y +:+ t) = Some (y, t).
Proof.
  intros Hy. unfold year_text, read_year.
  destruct ((0 <=? y) && (y <=? 9999)) eqn:Hr.
  - destruct (pad_head 4 y) as (d & s & Hs & Hd); [lia|]. rewrite Hs.
    apply digit_not_sign in Hd as [H1 H2]. rewrite append_cons. cbn [strip].
    rewrite !decide_False by congruence. rewrite <- append_cons, <- Hs, read_pad by lia.
    do 2 f_equal. rewrite Z.mod_small by (cbn; lia). lia.
  - destruct (Z.ltb_spec y 0).
    + rewrite append_assoc, strip_append. cbn [mbind option_bind]. rewrite read_pad by lia.
      cbn [mbind option_bind fst snd]. do 2 f_equal. rewrite Z.mod_small by (cbn; lia). lia.
    + change (strip "-" (("+" +:+ pad 6 (Z.abs y)) +:+ t)) with (@None string).
      cbv iota. rewrite append_assoc, strip_append, read_pad by lia.
      do 2 f_equal. rewrite Z.mod_small by (cbn; lia). lia.
Qed.

Lemma year_range t : Z.abs t <= MAX_TIME -> Z.abs (YearFromDay (t / msPerDay)) <= 999999.
Proof.
  intros Ht. pose proof (YearFromDay_spec (t / msPerDay)) as Hy.
  set (y := YearFromDay _) in *. clearbody y.
  assert (- 100000000 <= t / msPerDay <= 100000000).
  { unfold MAX_TIME, msPerDay in *. Z.to_euclidean_division_equations. lia. }
  pose proof (DayFromYear_bounds y). pose proof (DayFromYear_bounds (y + 1)). lia.
Qed.

(** Every date reads back from its ISO text. *)
Lemma iso_value_toISOString t : Z.abs t <= MAX_TIME -> iso_value (toISOString t) = Some t.
Proof.
  intros Ht. assert (read_iso (toISOString t) = Some t) as Hr.
  { unfold toISOString, read_iso. set (day := t / msPerDay). set (ms := t mod msPerDay).
    assert (0 <= ms < 86400000) as Hms by (apply Z.mod_pos_bound; done).
    pose proof (month_and_date day) as [Hm Hd].
    rewrite read_year_text by by apply year_range.
    cbn [mbind option_bind fst snd].
    assert (0 <= ms / 3600000 < 24 /\ 0 <= ms / 60000 mod 60 < 60 /\
            0 <= ms / 1000 mod 60 < 60 /\ 0 <= ms mod 1000 < 1000) as (H1 & H2 & H3 & H4).
    { Z.to_euclidean_division_equations. lia. }
    repeat (rewrite read_part_pad by (cbn; lia); cbn [mbind option_bind fst snd]).
    f_equal. replace (MonthFromDay day + 1 - 1) with (MonthFromDay day) by lia.
    assert (t = day * msPerDay + ms) as Htime
      by (unfold day, ms; pose proof (Z.div_mod t msPerDay ltac:(done)); lia).
    assert (ms = ms / 3600000 * 3600000 + ms / 60000 mod 60 * 60000 +
                 ms / 1000 mod 60 * 1000 + ms mod 1000) by
      (clear; Z.to_euclidean_division_equations; lia).
    rewrite Htime. clearbody day ms. unfold DateFromDay, msPerDay. lia. }
  unfold iso_value. rewrite Hr. cbn. by rewrite decide_True.
Qed.
