(* ===== verification/StableJson.v ===== *)
(** * Canonical JSON text ([src/src/utils/stable-json.js])

    [stableJsonStringify] serializes a value with recursively sorted keys. Sync
    scopes and mutation payloads are compared by this text, so the theorem to
    have is that equal texts mean equal values up to the order of the keys. *)

From stdpp Require Import base gmap strings list sorting.
From Stdlib Require Import ZArith Ascii Lia.
From S2P Require Import Prelude Json.
Open Scope Z_scope.

(** [Object.keys(value).sort()] *)
Definition sorted_keys (l : list (string * json)) : list string :=
  merge_sort String.le (l.*1).

(** [keys.reduce((memo, key) => { memo[key] = l[key]; return memo }, {})] *)
Definition assign_keys (l : list (string * json)) (keys : list string) :
    list (string * json) :=
  fold_left (fun memo key =>
    match obj_get key l with
    | Some value => obj_assign key value memo
    | None => memo
    end) keys [].

Fixpoint stableJsonValue (v : json) : json :=
  match v with
  | JArr l => JArr (map stableJsonValue l)
  | JObj l =>
      let l' := map (fun kv => (kv.1, stableJsonValue kv.2)) l in
      JObj (assign_keys l' (sorted_keys l'))
  | _ => v
  end.

Definition stableJsonStringify (v : json) : string := stringify (stableJsonValue v).

(** ** Equality of JSON values up to the order of object keys *)

Inductive json_equiv : json -> json -> Prop :=
| equiv_null : json_equiv JNull JNull
| equiv_bool b : json_equiv (JBool b) (JBool b)
| equiv_num n : json_equiv (JNum n) (JNum n)
| equiv_str s : json_equiv (JStr s) (JStr s)
| equiv_arr l l' : Forall2 json_equiv l l' -> json_equiv (JArr l) (JArr l')
| equiv_obj l l' :
    (forall k, option_Forall2 json_equiv (obj_get k l) (obj_get k l')) ->
    json_equiv (JObj l) (JObj l').

(** The objects of a value have distinct keys, none of them [__proto__]. *)
Inductive plain_json (proto_ok : bool) : json -> Prop :=
| plain_null : plain_json proto_ok JNull
| plain_bool b : plain_json proto_ok (JBool b)
| plain_num n : number_literal n = true -> plain_json proto_ok (JNum n)
| plain_str s : plain_json proto_ok (JStr s)
| plain_arr l : Forall (plain_json proto_ok) l -> plain_json proto_ok (JArr l)
| plain_obj l : NoDup (l.*1) -> proto_ok || bool_decide ("__proto__" ∉ l.*1) ->
    Forall (fun kv => plain_json proto_ok kv.2) l -> plain_json proto_ok (JObj l).

Lemma plain_valid b v : plain_json b v -> valid_json v.
Proof.
  induction v as [| | | |l IH|l IH] using json_nested_ind; intros Hv;
    inversion Hv as [| | | |? Hl|? ? ? Hl]; subst; constructor; try done.
  - rewrite Forall_forall in IH, Hl |- *. eauto.
  - rewrite Forall_forall in IH, Hl |- *. eauto.
Qed.

Lemma plain_proto b v : plain_json b v -> plain_json true v.
Proof.
  induction v as [| | | |l IH|l IH] using json_nested_ind; intros Hv;
    inversion Hv as [| | | |? Hl|? ? ? Hl]; subst; constructor; try done.
  - rewrite Forall_forall in IH, Hl |- *. eauto.
  - rewrite Forall_forall in IH, Hl |- *. eauto.
Qed.

(** ** Lookup in property lists *)

Lemma obj_get_elem {A} k (v : A) l : obj_get k l = Some v -> (k, v) ∈ l.
Proof.
  induction l as [|[k' v'] l IH]; [done|]. cbn.
  case_decide; [intros [= ->]; subst; constructor | constructor; auto].
Qed.

Lemma obj_get_keys {A} k (l : list (string * A)) : is_Some (obj_get k l) <-> k ∈ l.*1.
Proof.
  induction l as [|[k' v'] l IH]; cbn.
  - split; [by intros [] | intros []%elem_of_nil].
  - case_decide as H; [subst; split; [constructor|eauto]|].
    rewrite IH, elem_of_cons. naive_solver.
Qed.

Lemma obj_get_map {A B} (f : A -> B) k l :
  obj_get k (map (fun kv => (kv.1, f kv.2)) l) = f <$> obj_get k l.
Proof. induction l as [|[k' v'] l IH]; [done|]. cbn. by case_decide. Qed.

Lemma fst_map_snd {A B} (f : A -> B) (l : list (string * A)) :
  (map (fun kv => (kv.1, f kv.2)) l).*1 = l.*1.
Proof. induction l as [|[k' v'] l IH]; [done|]. cbn. by rewrite IH. Qed.

Lemma obj_get_replace {A} k k' (v : A) l :
  k ∈ l.*1 -> obj_get k' (obj_replace k v l) = if decide (k' = k) then Some v else obj_get k' l.
Proof.
  induction l as [|[k0 v0] l IH]; cbn; [by intros []%elem_of_nil|].
  intros Hin. destruct (decide (k = k0)) as [->|Hne]; cbn.
  - by destruct (decide (k' = k0)).
  - apply elem_of_cons in Hin as [|Hin]; [done|]. rewrite IH by done.
    destruct (decide (k' = k0)), (decide (k' = k)); congruence.
Qed.

Lemma obj_get_insert {A} k k' (v : A) l :
  k ∉ l.*1 -> obj_get k' (obj_insert k v l) = if decide (k' = k) then Some v else obj_get k' l.
Proof.
  induction l as [|[k0 v0] l IH]; cbn; [done|].
  intros [Hne Hin]%not_elem_of_cons. destruct (enumerated_before k k0); cbn; [done|].
  rewrite IH by done. destruct (decide (k' = k0)), (decide (k' = k)); congruence.
Qed.

Lemma obj_get_define {A} k k' (v : A) l :
  obj_get k' (obj_define k v l) = if decide (k' = k) then Some v else obj_get k' l.
Proof.
  unfold obj_define. case_decide; [by apply obj_get_replace | by apply obj_get_insert].
Qed.

Lemma obj_get_assign {A} k k' (v : A) l : k <> "__proto__" ->
  obj_get k' (obj_assign k v l) = if decide (k' = k) then Some v else obj_get k' l.
Proof. intros H. unfold obj_assign. rewrite decide_False by done. apply obj_get_define. Qed.

(** ** Order of enumeration *)

Lemma enumerated_before_trans k k' k'' :
  enumerated_before k k' = true -> enumerated_before k'' k' = false ->
  enumerated_before k'' k = false.
Proof.
  unfold enumerated_before.
  destruct (array_index k), (array_index k'), (array_index k''); try done; lia.
Qed.

Lemma enumerated_before_asym k k' :
  enumerated_before k k' = true -> enumerated_before k' k = false.
Proof.
  unfold enumerated_before. destruct (array_index k), (array_index k'); try done; lia.
Qed.

Lemma elem_of_obj_insert {A} k (v : A) l kv : kv ∈ obj_insert k v l <-> kv = (k, v) \/ kv ∈ l.
Proof.
  induction l as [|[k' v'] l IH]; cbn; [set_solver|].
  destruct (enumerated_before k k'); rewrite ?elem_of_cons, ?IH; set_solver.
Qed.

Lemma ordinary_order_insert {A} k (v : A) l :
  k ∉ l.*1 -> ordinary_order l -> ordinary_order (obj_insert k v l).
Proof.
  induction l as [|[k' v'] l IH]; cbn.
  - intros _ _. split; [intros kv []%elem_of_nil | done].
  - intros [Hne Hk]%not_elem_of_cons [Hl Ho].
    destruct (enumerated_before k k') eqn:Hb; cbn.
    + split; [|done]. intros kv [->|Hkv]%elem_of_cons; cbn.
      * split; [done|]. by apply enumerated_before_asym.
      * apply Hl in Hkv as Hkv'. split.
        -- intros ->. apply Hk, list_elem_of_fmap. eauto.
        -- eapply enumerated_before_trans; [done|]. apply Hkv'.
    + split; [|by apply IH]. intros kv [->|Hkv]%elem_of_obj_insert; [done|]. by apply Hl.
Qed.

Lemma elem_of_obj_replace {A} k (v : A) l kv :
  kv ∈ obj_replace k v l -> kv.1 ∈ l.*1.
Proof.
  induction l as [|[k' v'] l IH]; cbn; [by intros []%elem_of_nil|].
  case_decide; intros [->|H']%elem_of_cons; cbn.
  - constructor.
  - constructor. apply list_elem_of_fmap. eauto.
  - constructor.
  - constructor. auto.
Qed.

Lemma ordinary_order_replace {A} k (v : A) l : ordinary_order l -> ordinary_order (obj_replace k v l).
Proof.
  induction l as [|[k' v'] l IH]; cbn; [done|]. intros [Hl Ho].
  case_decide; cbn; [done|]. split; [|by apply IH].
  intros kv Hkv%elem_of_obj_replace. apply list_elem_of_fmap in Hkv as (kv' & -> & H').
  by apply Hl.
Qed.

Lemma ordinary_order_assign {A} k (v : A) l : ordinary_order l -> ordinary_order (obj_assign k v l).
Proof.
  intros Hl. unfold obj_assign, obj_define. repeat case_decide; [done| |].
  - by apply ordinary_order_replace.
  - by apply ordinary_order_insert.
Qed.

Lemma ordinary_order_NoDup {A} (l : list (string * A)) : ordinary_order l -> NoDup l.*1.
Proof.
  induction l as [|[k v] l IH]; cbn; [constructor|]. intros [Hk Ho].
  constructor; [|by apply IH]. rewrite list_elem_of_fmap. intros (kv & Hkv & Hin).
  by apply (Hk kv Hin).
Qed.

(** What [JSON.parse] returns has numbers that are literals and objects an object
    can be, so that a second trip through text changes nothing. *)
Definition parsed_json (v : json) : Prop := valid_json v /\ ordinary v.

Definition parsed_members (l : list (string * json)) : Prop :=
  ordinary_order l /\ Forall (fun kv => parsed_json kv.2) l.

Lemma ordinary_order_define {A} k (v : A) l : ordinary_order l -> ordinary_order (obj_define k v l).
Proof.
  intros Ho. unfold obj_define. case_decide;
    [by apply ordinary_order_replace | by apply ordinary_order_insert].
Qed.

(** The order depends on the names alone, and is decidable. *)
Fixpoint names_ordered (names : list string) : bool :=
  match names with
  | [] => true
  | k :: names => forallb (fun k' => negb (k =? k')%string && negb (enumerated_before k' k)) names && names_ordered names
  end.

Lemma ordinary_order_names {A} (l : list (string * A)) : names_ordered l.*1 = true -> ordinary_order l.
Proof.
  induction l as [|[k v] l IH]; [done|]. cbn. intros [Hk Hl]%andb_prop. split; [|by apply IH].
  intros [k' v'] Hin. rewrite forallb_forall in Hk. specialize (Hk k').
  rewrite <- list_elem_of_In in Hk. specialize (Hk (list_elem_of_fmap_2 fst l _ Hin)).
  apply andb_prop in Hk as [Hne Hb]. apply negb_true_iff in Hne, Hb. cbn. split; [|done].
  intros ->. by rewrite String.eqb_refl in Hne.
Qed.

Lemma parsed_define k v l : parsed_members l -> parsed_json v -> parsed_members (obj_define k v l).
Proof.
  intros [Ho Hl] Hv. split; [by apply ordinary_order_define|].
  rewrite Forall_forall in Hl |- *. intros kv Hkv.
  unfold obj_define in Hkv. case_decide.
  - clear -Hl Hkv Hv. induction l as [|[k' v'] l IH]; cbn in Hkv; [by apply elem_of_nil in Hkv|].
    case_decide; apply elem_of_cons in Hkv as [->|Hkv]; try done.
    + apply Hl. by constructor.
    + apply Hl. constructor.
    + apply IH; [|done]. intros kv' Hin. apply Hl. by constructor.
  - apply elem_of_obj_insert in Hkv as [->|Hkv]; [done|by apply Hl].
Qed.

Lemma parsed_arr l : Forall parsed_json l -> parsed_json (JArr l).
Proof. intros Hl. split; constructor; eapply Forall_impl; try done; by intros v []. Qed.

Lemma parsed_obj l : parsed_members l -> parsed_json (JObj l).
Proof.
  intros [Ho Hl]. split; constructor; try done; eapply Forall_impl; try done; by intros kv [].
Qed.

Lemma parser_parsed fuel :
  (forall s v rest, parse_value fuel s = Some (v, rest) -> parsed_json v) /\
  (forall s l rest, parse_items fuel s = Some (l, rest) -> Forall parsed_json l) /\
  (forall acc s l rest, parse_members fuel acc s = Some (l, rest) ->
     parsed_members acc -> parsed_members l).
Proof.
  induction fuel as [|fuel (IHv & IHi & IHm)]; [done|]. split_and!.
  - intros s v rest. cbn [parse_value]. destruct (skip_ws s) as [|c s1]; [done|].
    repeat case_match; cbn; intros Hp; simplify_option_eq; try (split; constructor; done).
    all: try (apply parsed_arr; constructor).
    all: try (apply parsed_obj; split; [done|constructor]).
    all: try match goal with H : parse_items _ _ = Some ?p |- _ =>
      destruct p; apply parsed_arr; by eapply IHi end.
    all: try match goal with H : parse_members _ _ _ = Some ?p |- _ =>
      destruct p; apply parsed_obj; eapply IHm; [done|split; [done|constructor]] end.
  - intros s l rest. cbn [parse_items].
    destruct (parse_value fuel s) as [[v s1]|] eqn:Hv; cbn [mbind option_bind fst snd]; [|done]. apply IHv in Hv.
    destruct (expect "]" s1); [intros [= <- <-]; by constructor|].
    destruct (expect "," s1) as [s2|]; cbn [mbind option_bind fst snd]; [|done].
    destruct (parse_items fuel s2) as [[vs s3]|] eqn:Hi; cbn [mbind option_bind fst snd]; [|done]. apply IHi in Hi.
    intros [= <- <-]. by constructor.
  - intros acc s l rest. cbn [parse_members]. destruct (expect dquote s) as [s1|]; cbn [mbind option_bind fst snd]; [|done].
    destruct (parse_string_body s1) as [[k s2]|]; cbn [mbind option_bind fst snd]; [|done].
    destruct (expect ":" s2) as [s3|]; cbn [mbind option_bind fst snd]; [|done].
    destruct (parse_value fuel s3) as [[v s4]|] eqn:Hv; cbn [mbind option_bind fst snd]; [|done]. apply IHv in Hv.
    destruct (expect "}" s4); [intros [= <- <-] Hacc; by apply parsed_define|].
    destruct (expect "," s4) as [s5|]; cbn [mbind option_bind fst snd]; [|done].
    intros Hm Hacc. apply IHm in Hm; [done|]. by apply parsed_define.
Qed.

Lemma parse_parsed s v : parse s = Some v -> parsed_json v.
Proof.
  unfold parse. destruct (parse_value _ s) as [[w rest]|] eqn:Hp; [|done].
  destruct (skip_ws rest); [|done]. intros [= <-]. by apply parser_parsed in Hp.
Qed.

(** A value that was parsed is its own copy. *)
Lemma parse_stringify_parsed v : parsed_json v -> parse (stringify v) = Some v.
Proof. intros []. by apply parse_stringify. Qed.

(** ** The equivalence *)

#[export] Instance json_equiv_refl : Reflexive json_equiv.
Proof.
  intros v. induction v as [| | | |l IH|l IH] using json_nested_ind; constructor.
  - by induction IH; constructor.
  - intros k. destruct (obj_get k l) as [v|] eqn:Hk; constructor.
    apply obj_get_elem in Hk. rewrite Forall_forall in IH. by apply (IH (k, v)).
Qed.

#[export] Instance json_equiv_sym : Symmetric json_equiv.
Proof.
  intros v. induction v as [| | | |l IH|l IH] using json_nested_ind;
    intros w Hw; inversion Hw as [| | | |? l' Hl|? l' Hl]; subst; constructor.
  - clear Hw. induction Hl as [|x y l l' Hxy Hl IHl]; [constructor|].
    apply Forall_cons in IH as [Hx IH]. constructor; auto.
  - intros k. specialize (Hl k). destruct (obj_get k l) as [x|] eqn:Hk;
      inversion Hl; subst; constructor.
    apply obj_get_elem in Hk. rewrite Forall_forall in IH. by apply (IH (k, x)).
Qed.

#[export] Instance json_equiv_trans : Transitive json_equiv.
Proof.
  intros v. induction v as [| | | |l IH|l IH] using json_nested_ind;
    intros w u Hw Hu; inversion Hw as [| | | |? l' Hl|? l' Hl]; subst; try done;
    inversion Hu as [| | | |? l'' Hl'|? l'' Hl']; subst; constructor.
  - clear Hw Hu. revert l'' Hl'.
    induction Hl as [|x y l l' Hxy Hl IHl]; intros l'' Hl'; inversion Hl'; subst; constructor;
      apply Forall_cons in IH as [Hx IH]; eauto.
  - intros k. specialize (Hl k). specialize (Hl' k).
    destruct (obj_get k l) as [x|] eqn:Hk; inversion Hl as [? y Hxy Hx Hy|Hx Hy]; subst;
      rewrite <- Hy in Hl'; inversion Hl'; subst; constructor.
    apply obj_get_elem in Hk. rewrite Forall_forall in IH. by eapply (IH (k, x)).
Qed.

#[export] Instance json_equiv_equivalence : Equivalence json_equiv.
Proof. split; apply _. Qed.

(** [JSON.parse] refills objects: the order of the keys may change, nothing else. *)
Lemma obj_get_rebuild_members l acc k : NoDup l.*1 ->
  obj_get k (rebuild_members acc l) =
  match obj_get k l with Some v => Some (rebuild v) | None => obj_get k acc end.
Proof.
  revert acc. induction l as [|[k' v] l IH]; intros acc; cbn; [done|].
  intros [Hk Hd]%NoDup_cons. fold (rebuild_members (obj_define k' (rebuild v) acc) l).
  rewrite IH by done. rewrite obj_get_define. case_decide; [subst|done].
  destruct (obj_get k' l) eqn:Hg; [|done]. exfalso. apply Hk, obj_get_keys. eauto.
Qed.

Lemma rebuild_equiv v : plain_json true v -> json_equiv v (rebuild v).
Proof.
  induction v as [| | | |l IH|l IH] using json_nested_ind; intros Hv; try done;
    inversion Hv as [| | | |? Hl|? Hd _ Hl]; subst.
  - cbn. constructor. clear Hv. induction Hl as [|x l Hx Hl IHl]; [constructor|].
    apply Forall_cons in IH as [Hi IH]. cbn. constructor; auto.
  - change (rebuild (JObj l)) with (JObj (rebuild_members [] l)). constructor. intros k.
    rewrite obj_get_rebuild_members by done.
    destruct (obj_get k l) as [x|] eqn:Hk; cbn; constructor. apply obj_get_elem in Hk.
    rewrite Forall_forall in IH, Hl. apply (IH (k, x)), (Hl (k, x)); done.
Qed.

(** ** The canonical form *)

Lemma elem_of_sorted_keys k l : k ∈ sorted_keys l <-> k ∈ l.*1.
Proof. unfold sorted_keys. by rewrite merge_sort_Permutation. Qed.

Lemma obj_get_fold_assign (l : list (string * json)) keys memo k :
  Forall (fun k => k <> "__proto__" /\ is_Some (obj_get k l)) keys ->
  obj_get k (fold_left (fun memo key =>
    match obj_get key l with
    | Some value => obj_assign key value memo
    | None => memo
    end) keys memo) = if decide (k ∈ keys) then obj_get k l else obj_get k memo.
Proof.
  revert memo. induction keys as [|k' keys IH]; intros memo Hk.
  - by rewrite decide_False by set_solver.
  - apply Forall_cons in Hk as [[Hp [v' Hv']] Hk]. cbn [fold_left].
    rewrite IH by done. rewrite Hv'. destruct (decide (k ∈ keys)).
    + by rewrite decide_True by set_solver.
    + rewrite obj_get_assign by done. destruct (decide (k = k')) as [->|].
      * by rewrite decide_True by constructor.
      * by rewrite decide_False by set_solver.
Qed.

Lemma obj_get_assign_keys (l : list (string * json)) k : "__proto__" ∉ l.*1 ->
  obj_get k (assign_keys l (sorted_keys l)) = obj_get k l.
Proof.
  intros Hp. unfold assign_keys. rewrite obj_get_fold_assign.
  - case_decide as Hk; [done|]. rewrite elem_of_sorted_keys, <- obj_get_keys in Hk.
    destruct (obj_get k l) eqn:?; [|done]. naive_solver.
  - apply Forall_forall. intros k'. rewrite elem_of_sorted_keys. intros Hk'. split.
    + by intros ->.
    + by apply obj_get_keys.
Qed.

(** Canonicalization keeps the value. *)
Lemma stableJsonValue_equiv v : plain_json false v -> json_equiv v (stableJsonValue v).
Proof.
  induction v as [| | | |l IH|l IH] using json_nested_ind; intros Hv; [done..| |].
  - inversion Hv as [| | | |? Hl|]; subst. cbn. constructor.
    induction Hl as [|x l Hx Hl IHl]; [constructor|]. apply Forall_cons in IH as [Hi IH].
    cbn. constructor; [by apply Hi|]. apply IHl; [done|]. by constructor.
  - inversion Hv as [| | | | |? Hd Hp Hl]; subst. cbn in Hp |- *.
    apply bool_decide_unpack in Hp.
    constructor. intros k. rewrite obj_get_assign_keys by by rewrite fst_map_snd.
    rewrite obj_get_map. destruct (obj_get k l) as [x|] eqn:Hk; constructor.
    apply obj_get_elem in Hk. rewrite Forall_forall in IH, Hl.
    apply (IH (k, x)), (Hl (k, x)); done.
Qed.

Lemma equiv_keys l l' :
  (forall k, option_Forall2 json_equiv (obj_get k l) (obj_get k l')) ->
  NoDup l.*1 -> NoDup l'.*1 -> sorted_keys l = sorted_keys l'.
Proof.
  intros Hl Hd Hd'. unfold sorted_keys.
  apply (Sorted_unique String.le); try apply Sorted_merge_sort; try apply _.
  rewrite !merge_sort_Permutation. apply NoDup_Permutation; [done..|]. intros k.
  rewrite <- !obj_get_keys. specialize (Hl k). split; intros [x Hx]; rewrite Hx in Hl;
    inversion Hl; eauto.
Qed.

Lemma assign_keys_ext l l' keys :
  (forall k, obj_get k l = obj_get k l') -> assign_keys l keys = assign_keys l' keys.
Proof.
  intros H. unfold assign_keys. generalize (@nil (string * json)).
  induction keys as [|k keys IH]; intros memo; [done|]. cbn. rewrite H. apply IH.
Qed.

(** Equal values have one canonical form. *)
Lemma equiv_stableJsonValue b v w :
  plain_json b v -> plain_json b w -> json_equiv v w -> stableJsonValue v = stableJsonValue w.
Proof.
  revert w. induction v as [| | | |l IH|l IH] using json_nested_ind; intros w Hv Hw He;
    inversion He as [| | | |? l' Hl|? l' Hl]; subst; try done; cbn.
  - f_equal. inversion Hv as [| | | |? Hv'|]; inversion Hw as [| | | |? Hw'|]; subst.
    clear Hv Hw He. induction Hl as [|x y l l' Hxy Hl IHl]; [done|].
    apply Forall_cons in IH as [Hx IH], Hv' as [Hxv Hv'], Hw' as [Hyw Hw'].
    cbn. f_equal; auto.
  - f_equal. inversion Hv as [| | | | |? Hd Hp Hv']; inversion Hw as [| | | | |? Hd' Hp' Hw']; subst.
    assert (sorted_keys (map (fun kv => (kv.1, stableJsonValue kv.2)) l)
          = sorted_keys (map (fun kv => (kv.1, stableJsonValue kv.2)) l')) as ->.
    { unfold sorted_keys. rewrite !fst_map_snd. by apply equiv_keys. }
    apply assign_keys_ext. intros k. rewrite !obj_get_map. specialize (Hl k).
    destruct (obj_get k l) as [x|] eqn:Hk; inversion Hl as [? y Hxy Hx Hy|Hx Hy]; subst; [|done].
    symmetry in Hy. apply obj_get_elem in Hk, Hy. rewrite Forall_forall in IH, Hv', Hw'.
    cbn. f_equal. apply (IH (k, x)); [done|..].
    + by apply (Hv' (k, x)).
    + by apply (Hw' (k, y)).
    + done.
Qed.

(** Every value of an object built by assignment comes from the source object. *)
Lemma elem_of_obj_assign {A} k (v : A) l kv : kv ∈ obj_assign k v l -> kv.2 = v \/ kv ∈ l.
Proof.
  unfold obj_assign, obj_define. repeat case_decide.
  - by right.
  - clear. induction l as [|[k' v'] l IH]; [by right|]. cbn.
    case_decide; intros [->|Hin]%elem_of_cons; cbn.
    + by left.
    + right. by constructor.
    + right. constructor.
    + apply IH in Hin as [?|?]; [by left|]. right. by constructor.
  - intros [->|Hin]%elem_of_obj_insert; [by left|by right].
Qed.

Lemma assign_keys_Forall (P : json -> Prop) l keys :
  Forall (fun kv => P kv.2) l -> Forall (fun kv => P kv.2) (assign_keys l keys).
Proof.
  intros Hl. unfold assign_keys.
  assert (Forall (fun kv : string * json => P kv.2) []) as Hm by constructor.
  revert Hm. generalize (@nil (string * json)).
  induction keys as [|k keys IH]; intros memo Hm; [done|]. cbn. apply IH.
  destruct (obj_get k l) as [v|] eqn:Hv; [|done]. apply obj_get_elem in Hv.
  rewrite Forall_forall in Hl, Hm |- *. intros kv [->|Hkv]%elem_of_obj_assign; [|by apply Hm].
  by apply (Hl (k, v)).
Qed.

Lemma assign_keys_ordinary_order l keys : ordinary_order (assign_keys l keys).
Proof.
  unfold assign_keys. assert (ordinary_order (@nil (string * json))) as Ho by done. revert Ho.
  generalize (@nil (string * json)).
  induction keys as [|k keys IH]; intros memo Hm; [done|]. cbn. apply IH.
  case_match; [|done]. by apply ordinary_order_assign.
Qed.

(** The canonical form is an ordinary value of literals, so its text reads back
    as itself. *)
Lemma stableJsonValue_ordinary v : ordinary (stableJsonValue v).
Proof.
  induction v as [| | | |l IH|l IH] using json_nested_ind; cbn; constructor.
  - by apply Forall_map.
  - apply assign_keys_ordinary_order.
  - apply assign_keys_Forall. by apply Forall_map.
Qed.

Lemma stableJsonValue_valid b v : plain_json b v -> valid_json (stableJsonValue v).
Proof.
  induction v as [| | | |l IH|l IH] using json_nested_ind; intros Hv; cbn; constructor;
    inversion Hv as [| | | |? Hl|? ? ? Hl]; subst.
  - done.
  - apply Forall_map. rewrite Forall_forall in IH, Hl |- *. eauto.
  - apply (assign_keys_Forall valid_json), Forall_map.
    rewrite Forall_forall in IH, Hl |- *. eauto.
Qed.

Lemma assign_keys_no_proto l keys : "__proto__" ∉ (assign_keys l keys).*1.
Proof.
  unfold assign_keys. assert ("__proto__" ∉ (@nil (string * json)).*1) as Hm by set_solver.
  revert Hm. generalize (@nil (string * json)).
  induction keys as [|k keys IH]; intros memo Hm; [done|]. cbn. apply IH.
  destruct (obj_get k l) as [v|]; [|done]. unfold obj_assign. case_decide; [done|].
  rewrite <- obj_get_keys in Hm |- *. by rewrite obj_get_define, decide_False.
Qed.

Lemma stableJsonValue_plain b v : plain_json b v -> plain_json b (stableJsonValue v).
Proof.
  induction v as [| | | |l IH|l IH] using json_nested_ind; intros Hv; cbn; try done;
    inversion Hv as [| | | |? Hl|? Hd Hp Hl]; subst; constructor.
  - apply Forall_map. rewrite Forall_forall in IH, Hl |- *. eauto.
  - apply ordinary_order_NoDup, assign_keys_ordinary_order.
  - apply orb_prop_intro. right. apply bool_decide_pack, assign_keys_no_proto.
  - apply (assign_keys_Forall (plain_json b)), Forall_map.
    rewrite Forall_forall in IH, Hl |- *. eauto.
Qed.

Lemma stableJsonValue_idemp v : plain_json false v ->
  stableJsonValue (stableJsonValue v) = stableJsonValue v.
Proof.
  intros Hv. symmetry. apply (equiv_stableJsonValue false); [done|by apply stableJsonValue_plain|].
  by apply stableJsonValue_equiv.
Qed.

Lemma parse_stableJsonStringify b v :
  plain_json b v -> parse (stableJsonStringify v) = Some (stableJsonValue v).
Proof.
  intros Hv. apply parse_stringify.
  - by eapply stableJsonValue_valid.
  - apply stableJsonValue_ordinary.
Qed.

(** ** Equality of texts *)

(** C5: the canonical text decides equality: for values whose objects have distinct
    keys, none of them [__proto__], two texts are equal exactly when the values
    are equal up to the order of object keys, at every depth. *)
Theorem stableJsonStringify_canonical v w : plain_json false v -> plain_json false w ->
  (stableJsonStringify v = stableJsonStringify w <-> json_equiv v w).
Proof.
  intros Hv Hw. split.
  - intros He. apply (f_equal parse) in He.
    rewrite !(parse_stableJsonStringify false) in He by done. injection He as He.
    transitivity (stableJsonValue v); [by apply stableJsonValue_equiv|].
    rewrite He. symmetry. by apply stableJsonValue_equiv.
  - intros He. unfold stableJsonStringify. f_equal. by apply (equiv_stableJsonValue false).
Qed.

Lemma stableJsonStringify_canonical_witness :
  stableJsonStringify (JObj [("b", JNum "1"); ("a", JArr [JNull])]) =
  stableJsonStringify (JObj [("a", JArr [JNull]); ("b", JNum "1")]).
Proof.
  apply stableJsonStringify_canonical.
  - constructor; [repeat constructor; set_solver|vm_compute; exact I|repeat constructor].
  - constructor; [repeat constructor; set_solver|vm_compute; exact I|repeat constructor].
  - apply equiv_obj. intros k. cbn.
    destruct (decide (k = "b")) as [->|]; [|destruct (decide (k = "a")) as [->|]]; cbn;
      repeat constructor.
Defined.

(** Where a key is [__proto__], the assignment [memo[key] = …] sets the prototype
    of the copy and the member is lost: two different values get one text. *)
Theorem stableJsonStringify_proto_collision :
  let v := JObj [("__proto__", JObj [("a", JNum "1")])] in
  let w := JObj [("__proto__", JObj [("a", JNum "2")])] in
  plain_json true v /\ plain_json true w /\ ~ json_equiv v w /\
  stableJsonStringify v = stableJsonStringify w.
Proof.
  intros v w. split_and!.
  - repeat constructor; set_solver.
  - repeat constructor; set_solver.
  - intros He. inversion He as [| | | | |? ? Hg]; subst. specialize (Hg "__proto__"). cbn in Hg.
    inversion Hg as [? ? He'|]; subst. inversion He' as [| | | | |? ? Hg']; subst.
    specialize (Hg' "a"). cbn in Hg'. inversion Hg' as [? ? He''|]; subst. inversion He''.
  - reflexivity.
Qed.
