(* ===== verification/ConflictStrategy.v ===== *)
(** * Conflict strategies of a sync replay ([src/src/sync/conflict-strategy.js])

    [resolveSyncConflict] decides whether a mutation made offline may still be
    applied to the server's record: by the version the mutation was based on, by
    a three-way merge of its fields, or unconditionally. Values are compared by
    a canonical JSON text of the file's own; the first theorem is that the text
    decides equality of the values, the second what every strategy answers.

    An object is its list of own properties in enumeration order ([Json.v]); a
    value that may be [undefined] is an option. A method inherited from
    [Object.prototype] reads as [undefined], whose JSON text it has. *)

From stdpp Require Import base gmap strings list sorting.
From Stdlib Require Import ZArith Ascii Lia.
From S2P Require Import Prelude Json StableJson.
Open Scope Z_scope.

Abbreviation properties := (list (string * json)).

Record conflict_record := {
  record_attributes : properties;
  record_version : option json
}.

Record mutation := {
  mutation_attributes : option json;
  baseVersion : option json;
  clientMutationId : string;
  mutation_model : string;
  mutation_operation : string;
  mutation_payload : option properties
}.

Inductive conflict_error :=
| UnknownStrategy (strategy : string)
| HandlerReturnedNoObject
| HandlerReturnedUnknownStatus
| HandlerThrew (message : string)
| TypeError
| SyntaxError.

Record arguments := {
  baseRecord : option conflict_record;
  the_mutation : mutation;
  serverRecord : option conflict_record;
  strategy : string;
  versionAttribute : string
}.

Definition CONFLICT_STRATEGIES : list string :=
  ["optimisticVersion"; "serverWins"; "lastWriterWins"; "fieldThreeWay"; "appendOnly"].

(** ** Comparison of values *)

Fixpoint text_at (key : string) (texts : list (string * string)) : string :=
  match texts with
  | [] => ""
  | (k, t) :: texts' => if decide (key = k) then t else text_at key texts'
  end.

(** The canonical text of a JSON value: the keys of every object in the order of
    their UTF-16 code units. *)
Fixpoint stable_text (v : json) : string :=
  match v with
  | JArr l => "[" +:+ join_comma (map stable_text l) +:+ "]"
  | JObj l =>
      let texts := map (fun kv => (kv.1, stable_text kv.2)) l in
      "{" +:+ join_comma (map (fun key => quote_string key +:+ ":" +:+ text_at key texts)
                              (merge_sort String.le texts.*1)) +:+ "}"
  | _ => stringify v
  end.

(** [JSON.stringify(undefined)] is [undefined], which is no string. *)
Definition jsonValuesEqual (left right : option json) : bool :=
  bool_decide (stable_text <$> left = stable_text <$> right).

(** [attributes[field]]: [__proto__] reads [Object.prototype], which has no
    enumerable property. *)
Definition read_attribute (field : string) (attributes : properties) : option json :=
  match obj_get field attributes with
  | Some v => Some v
  | None => if decide (field = "__proto__") then Some (JObj []) else None
  end.

(** [x ?? y] *)
Definition nullish_or (x y : option json) : option json :=
  match x with
  | None | Some JNull => y
  | _ => x
  end.

(** ** The strategies *)

Abbreviation outcome A := (result conflict_error A).

Definition mutationAttributesFor (m : mutation) : outcome properties :=
  match mutation_attributes m with
  | Some (JObj l) =>
      match parse (stringify (JObj l)) with
      | Some (JObj l') => Ok l'
      | _ => Throw SyntaxError
      end
  | _ => Ok []
  end.

Definition server_version (a : arguments) (r : conflict_record) : json :=
  match nullish_or (record_version r) (read_attribute (versionAttribute a) (record_attributes r)) with
  | Some v => v
  | None => JNull
  end.

Definition hasVersionConflict (a : arguments) : bool :=
  match serverRecord a with
  | None => false
  | Some server =>
      match baseVersion (the_mutation a) with
      | None | Some JNull => false
      | Some base => negb (jsonValuesEqual (Some (server_version a server)) (Some base))
      end
  end.

Definition or_null (v : option json) : json := match v with Some v => v | None => JNull end.

Definition conflictResult (a : arguments) (affectedFields : option (list string)) :
    outcome properties :=
  let m := the_mutation a in
  mutationAttributes ← mutationAttributesFor m;
  Ok [("conflict", JObj [
         ("affectedFields", JArr (map JStr
            (match affectedFields with Some l => l | None => mutationAttributes.*1 end)));
         ("baseRecord", or_null (JObj ∘ record_attributes <$> baseRecord a));
         ("baseVersion", or_null (baseVersion m));
         ("localMutation", JObj [
            ("attributes", JObj mutationAttributes);
            ("clientMutationId", JStr (clientMutationId m));
            ("model", JStr (mutation_model m));
            ("operation", JStr (mutation_operation m));
            ("payload", or_null (JObj <$> mutation_payload m))]);
         ("serverModel", or_null (JObj ∘ record_attributes <$> serverRecord a));
         ("serverVersion", or_null (server_version a <$> serverRecord a));
         ("suggestedResolution",
            JStr (if decide (strategy a = "serverWins") then "keep_server" else "manual"));
         ("versionAttribute", JStr (versionAttribute a))]);
      ("status", JStr "conflict"); ("strategy", JStr (strategy a))].

Definition applied (attributes : properties) (a : arguments) : properties :=
  [("attributes", JObj attributes); ("status", JStr "applied"); ("strategy", JStr (strategy a))].

(** The test of one field of the merge. *)
Definition field_merges (base server : conflict_record) (field : string) (localValue : json) : bool :=
  let baseValue := read_attribute field (record_attributes base) in
  let serverValue := read_attribute field (record_attributes server) in
  jsonValuesEqual serverValue baseValue || jsonValuesEqual serverValue (Some localValue).

(** One turn of the loop over the entries of the mutation's attributes. *)
Definition merge_field (base server : conflict_record)
    (acc : properties * list string) (entry : string * json) : properties * list string :=
  let '(mergedAttributes, affectedFields) := acc in
  let '(field, localValue) := entry in
  if field_merges base server field localValue
  then (obj_assign field localValue mergedAttributes, affectedFields)
  else (mergedAttributes, affectedFields ++ [field]).

Definition fieldThreeWayResult (a : arguments) : outcome properties :=
  mutationAttributes ← mutationAttributesFor (the_mutation a);
  match baseRecord a, serverRecord a with
  | Some base, Some server =>
      let '(mergedAttributes, affectedFields) :=
        fold_left (merge_field base server) mutationAttributes ([], []) in
      if (0 <? Z.of_nat (length affectedFields))
      then conflictResult a (Some affectedFields)
      else Ok (applied mergedAttributes a)
  | _, _ => Ok (applied mutationAttributes a)
  end.

(** [String(value)] of a JSON value. An object with an own [toString] has no
    callable one, and its [valueOf] yields no primitive. *)
Fixpoint js_string (v : json) : outcome string :=
  match v with
  | JNull => Ok "null"
  | JBool b => Ok (if b then "true" else "false")
  | JNum n => Ok n
  | JStr s => Ok s
  | JArr l =>
      (fix join (l : list json) : outcome string :=
        match l with
        | [] => Ok ""
        | x :: l' =>
            s ← (match x with JNull => Ok "" | _ => js_string x end);
            match l' with
            | [] => Ok s
            | _ => rest ← join l'; Ok (s +:+ "," +:+ rest)
            end
        end) l
  | JObj l => if decide ("toString" ∈ l.*1) then Throw TypeError else Ok "[object Object]"
  end.

Definition normalizeConflictResult (returned : option json) (strategy : string) :
    outcome properties :=
  match returned with
  | Some (JObj resultRecord) =>
      status ← match obj_get "status" resultRecord with
               | Some v => js_string v
               | None => Ok "undefined"
               end;
      if decide (status ∈ ["applied"; "conflict"; "rejected"])
      then Ok (fold_left (fun acc kv => obj_define kv.1 kv.2 acc) resultRecord
                         [("strategy", JStr strategy)])
      else Throw HandlerReturnedUnknownStatus
  | _ => Throw HandlerReturnedNoObject
  end.

Definition resolveSyncConflict
    (customHandler : option (arguments -> outcome (option json))) (a : arguments) :
    outcome properties :=
  match customHandler with
  | Some handler => returned ← handler a; normalizeConflictResult returned (strategy a)
  | None =>
      if decide (strategy a ∉ CONFLICT_STRATEGIES) then Throw (UnknownStrategy (strategy a)) else
      mutationAttributes ← mutationAttributesFor (the_mutation a);
      if bool_decide (strategy a = "appendOnly") || bool_decide (strategy a = "lastWriterWins")
      then Ok (applied mutationAttributes a) else
      if decide (strategy a = "fieldThreeWay") then fieldThreeWayResult a else
      if hasVersionConflict a then conflictResult a None else
      Ok (applied mutationAttributes a)
  end.

(** ** Outcome of a replay for the local log *)

Inductive local_status := LocalConflict | LocalRejected | LocalSynced.

Definition is_string (key s : string) (l : properties) : bool :=
  bool_decide (obj_get key l = Some (JStr s)).

Definition replayResultHasFailedApplication (r : properties) : bool :=
  if bool_decide (obj_get "serverSequence" r = Some JNull) ||
     is_string "serverChangeFeedStatus" "error" r then true else
  match obj_get "response" r with
  | Some (JObj response) => is_string "status" "error" response
  | _ => false
  end.

(** [None] where the code throws [Unknown sync replay result status]. *)
Definition replayResultLocalStatus (r : properties) : option local_status :=
  if is_string "syncState" "conflict" r then Some LocalConflict else
  if is_string "syncState" "failed" r || is_string "syncState" "rejected" r
  then Some LocalRejected else
  if is_string "syncState" "successful" r || is_string "syncState" "duplicate" r
  then Some LocalSynced else
  if is_string "status" "conflict" r then Some LocalConflict else
  if is_string "status" "error" r || is_string "status" "rejected" r
  then Some LocalRejected else
  if is_string "status" "success" r && replayResultHasFailedApplication r
  then Some LocalRejected else
  if is_string "status" "success" r || is_string "status" "applied" r ||
     is_string "status" "duplicate" r then Some LocalSynced else
  None.

(** ** The canonical text decides equality *)

Definition get_or_null (key : string) (l : properties) : json :=
  match obj_get key l with Some v => v | None => JNull end.

(** The value [stable_text] is the JSON text of. *)
Fixpoint canon (v : json) : json :=
  match v with
  | JArr l => JArr (map canon l)
  | JObj l =>
      let l' := map (fun kv => (kv.1, canon kv.2)) l in
      JObj (map (fun key => (key, get_or_null key l')) (sorted_keys l'))
  | _ => v
  end.

Lemma text_at_get key l : key ∈ l.*1 ->
  Forall (fun kv => stable_text kv.2 = stringify (canon kv.2)) l ->
  text_at key (map (fun kv => (kv.1, stable_text kv.2)) l) =
  stringify (get_or_null key (map (fun kv => (kv.1, canon kv.2)) l)).
Proof.
  unfold get_or_null. induction l as [|[k v] l IH]; cbn; [by intros []%elem_of_nil|].
  intros Hk [Hv Hl]%Forall_cons. case_decide; [done|].
  apply IH; [|done]. apply elem_of_cons in Hk as [|]; done.
Qed.

Lemma texts_keys (f : json -> string) (l : properties) :
  (map (fun kv => (kv.1, f kv.2)) l).*1 = l.*1.
Proof. induction l as [|[k v] l IH]; [done|]. cbn. by rewrite IH. Qed.

Lemma stable_text_canon v : stable_text v = stringify (canon v).
Proof.
  induction v as [| | | |l IH|l IH] using json_nested_ind; try done; cbn.
  - do 2 f_equal. rewrite map_map. f_equal. induction IH; cbn; by f_equal.
  - do 2 f_equal. unfold sorted_keys. rewrite texts_keys, fst_map_snd.
    rewrite (map_map (fun key => (key, _))). f_equal.
    apply map_ext_in. intros key Hkey. cbn. do 3 f_equal. apply text_at_get; [|done].
    apply elem_of_sorted_keys. by apply list_elem_of_In.
Qed.

Lemma obj_get_keyed (f : string -> json) keys k :
  obj_get k (map (fun key => (key, f key)) keys) = if decide (k ∈ keys) then Some (f k) else None.
Proof.
  induction keys as [|k' keys IH]; cbn; [done|]. rewrite IH.
  repeat case_decide; set_solver.
Qed.

Lemma fst_keyed (f : string -> json) keys : (map (fun key => (key, f key)) keys).*1 = keys.
Proof. induction keys as [|k keys IH]; [done|]. cbn. by rewrite IH. Qed.

Lemma obj_get_canon l k :
  obj_get k (map (fun key => (key, get_or_null key l)) (sorted_keys l)) = obj_get k l.
Proof.
  rewrite obj_get_keyed. unfold get_or_null. case_decide as H;
    rewrite elem_of_sorted_keys, <- obj_get_keys in H; destruct (obj_get k l); naive_solver.
Qed.

Lemma canon_equiv v : json_equiv v (canon v).
Proof.
  induction v as [| | | |l IH|l IH] using json_nested_ind; cbn; try done; constructor.
  - induction IH; cbn; by constructor.
  - intros k. rewrite obj_get_canon, obj_get_map.
    destruct (obj_get k l) as [x|] eqn:Hk; constructor. apply obj_get_elem in Hk.
    rewrite Forall_forall in IH. by apply (IH (k, x)).
Qed.

Lemma canon_plain v : plain_json true v -> plain_json true (canon v).
Proof.
  induction v as [| | | |l IH|l IH] using json_nested_ind; intros Hv; cbn;
    inversion Hv as [| | | |? Hl|? Hd _ Hl]; subst; constructor; try done.
  - apply Forall_map. rewrite Forall_forall in IH, Hl |- *. eauto.
  - rewrite fst_keyed. unfold sorted_keys. by rewrite merge_sort_Permutation, fst_map_snd.
  - apply Forall_map, Forall_forall. intros k. rewrite elem_of_sorted_keys. cbn.
    unfold get_or_null. rewrite obj_get_map. intros _.
    destruct (obj_get k l) as [x|] eqn:Hk; cbn; [|constructor]. apply obj_get_elem in Hk.
    rewrite Forall_forall in IH, Hl. apply (IH (k, x)), (Hl (k, x)); done.
Qed.

(** Equal values have one canonical value. *)
Lemma equiv_canon v w :
  plain_json true v -> plain_json true w -> json_equiv v w -> canon v = canon w.
Proof.
  revert w. induction v as [| | | |l IH|l IH] using json_nested_ind; intros w Hv Hw He;
    inversion He as [| | | |? l' Hl|? l' Hl]; subst; try done; cbn.
  - f_equal. inversion Hv as [| | | |? Hv'|]; inversion Hw as [| | | |? Hw'|]; subst.
    clear Hv Hw He. induction Hl as [|x y l l' Hxy Hl IHl]; [done|].
    apply Forall_cons in IH as [Hx IH], Hv' as [Hxv Hv'], Hw' as [Hyw Hw'].
    cbn. f_equal; auto.
  - f_equal. inversion Hv as [| | | | |? Hd _ Hv']; inversion Hw as [| | | | |? Hd' _ Hw']; subst.
    unfold sorted_keys. rewrite !fst_map_snd.
    change (merge_sort String.le l.*1) with (sorted_keys l).
    change (merge_sort String.le l'.*1) with (sorted_keys l').
    rewrite (equiv_keys l l') by done. apply map_ext. intros k. f_equal.
    unfold get_or_null. rewrite !obj_get_map. specialize (Hl k).
    destruct (obj_get k l) as [x|] eqn:Hk; inversion Hl as [? y Hxy Hx Hy|Hx Hy]; subst; [|done].
    symmetry in Hy. apply obj_get_elem in Hk, Hy. rewrite Forall_forall in IH, Hv', Hw'.
    cbn. apply (IH (k, x)); [done|by apply (Hv' (k, x))|by apply (Hw' (k, y))|done].
Qed.

Lemma stable_text_equiv v w : plain_json true v -> plain_json true w ->
  (stable_text v = stable_text w <-> json_equiv v w).
Proof.
  intros Hv Hw. rewrite !stable_text_canon. split.
  - intros He. apply (f_equal parse) in He.
    rewrite !parse_stringify_rebuild in He by eauto using plain_valid, canon_plain.
    injection He as He. rewrite (canon_equiv v), (canon_equiv w).
    rewrite (rebuild_equiv (canon v)), (rebuild_equiv (canon w)) by by apply canon_plain.
    by rewrite He.
  - intros He. by rewrite (equiv_canon v w).
Qed.

(** Two values that may be absent are equal up to the order of object keys. *)
Abbreviation same_value := (option_Forall2 json_equiv).

Definition plain_value (v : option json) : Prop :=
  match v with Some v => plain_json true v | None => True end.

Lemma jsonValuesEqual_iff v w : plain_value v -> plain_value w ->
  jsonValuesEqual v w = true <-> same_value v w.
Proof.
  intros Hv Hw. unfold jsonValuesEqual. rewrite bool_decide_eq_true.
  destruct v as [v|], w as [w|]; cbn in Hv, Hw |- *.
  - pose proof (stable_text_equiv v w Hv Hw) as H. split.
    + intros [= He]. constructor. by apply H.
    + intros He. inversion He; subst. f_equal. by apply H.
  - split; [done|]. intros H. inversion H.
  - split; [done|]. intros H. inversion H.
  - split; [constructor|done].
Qed.

(** ** What the strategies decide *)

Definition sent_attributes (m : mutation) : properties :=
  match mutation_attributes m with Some (JObj l) => l | _ => [] end.

(** The records and the mutation carry JSON values. *)
Record well_formed (a : arguments) : Prop := {
  wf_mutation : plain_json false (JObj (sent_attributes (the_mutation a)));
  wf_base_version : plain_value (baseVersion (the_mutation a));
  wf_records : forall r, baseRecord a = Some r \/ serverRecord a = Some r ->
    plain_json true (JObj (record_attributes r)) /\ plain_value (record_version r)
}.

(** The server's value of the field is the one the mutation was made against, or
    already the one it writes. *)
Definition unchanged_or_equal (base server : conflict_record) (field : string)
    (localValue : json) : Prop :=
  let serverValue := read_attribute field (record_attributes server) in
  same_value serverValue (read_attribute field (record_attributes base)) \/
  same_value serverValue (Some localValue).

(** The mutation names the version it was based on, and the server's is another. *)
Definition version_conflict (a : arguments) : Prop :=
  exists server base, serverRecord a = Some server /\
    baseVersion (the_mutation a) = Some base /\ base <> JNull /\
    ~ json_equiv (server_version a server) base.

(** The decision as a relation: [None] applies the attributes, [Some fields]
    refuses them because of the fields. *)
Inductive decides (a : arguments) (attributes : properties) : option (list string) -> Prop :=
| decides_always : strategy a = "appendOnly" \/ strategy a = "lastWriterWins" ->
    decides a attributes None
| decides_same_version : strategy a = "optimisticVersion" \/ strategy a = "serverWins" ->
    ~ version_conflict a -> decides a attributes None
| decides_other_version : strategy a = "optimisticVersion" \/ strategy a = "serverWins" ->
    version_conflict a -> decides a attributes (Some attributes.*1)
| decides_no_snapshot : strategy a = "fieldThreeWay" ->
    baseRecord a = None \/ serverRecord a = None -> decides a attributes None
| decides_merge base server : strategy a = "fieldThreeWay" ->
    baseRecord a = Some base -> serverRecord a = Some server ->
    (forall f v, (f, v) ∈ attributes -> unchanged_or_equal base server f v) ->
    decides a attributes None
| decides_fields base server fields : strategy a = "fieldThreeWay" ->
    baseRecord a = Some base -> serverRecord a = Some server ->
    fields <> [] -> sublist fields attributes.*1 ->
    (forall f v, (f, v) ∈ attributes ->
       (f ∈ fields <-> ~ unchanged_or_equal base server f v)) ->
    decides a attributes (Some fields).

Lemma plain_member b l k v : plain_json b (JObj l) -> obj_get k l = Some v -> plain_json b v.
Proof.
  intros Hl Hk%obj_get_elem. inversion Hl as [| | | | |? ? ? Hf]; subst.
  rewrite Forall_forall in Hf. by apply (Hf (k, v)).
Qed.

Lemma plain_read f l : plain_json true (JObj l) -> plain_value (read_attribute f l).
Proof.
  intros Hl. unfold read_attribute. destruct (obj_get f l) eqn:Hf.
  - by eapply plain_member.
  - case_decide; [|done]. cbn. repeat constructor.
Qed.

(** The copy through JSON text is the attributes in enumeration order. *)
Lemma mutationAttributesFor_copy m : plain_json false (JObj (sent_attributes m)) ->
  exists attributes, mutationAttributesFor m = Ok attributes /\
    json_equiv (JObj (sent_attributes m)) (JObj attributes) /\
    attributes = rebuild_members [] (sent_attributes m).
Proof.
  intros Hm. pose proof (plain_proto _ _ Hm) as Ht.
  exists (rebuild_members [] (sent_attributes m)).
  split_and!; [|exact (rebuild_equiv _ Ht)|done].
  unfold mutationAttributesFor, sent_attributes in *.
  destruct (mutation_attributes m) as [[| | | | |l]|]; try done.
  by rewrite parse_stringify_rebuild by by eapply plain_valid.
Qed.

Lemma ordinary_order_rebuild_members acc l :
  ordinary_order acc -> ordinary_order (rebuild_members acc l).
Proof.
  revert acc. induction l as [|[k v] l IH]; intros acc Ho; [done|]. cbn. apply IH.
  unfold obj_define. case_decide; [by apply ordinary_order_replace|].
  by apply ordinary_order_insert.
Qed.

(** An entry that merges. *)
Definition merges (base server : conflict_record) (kv : string * json) : Prop :=
  Is_true (field_merges base server kv.1 kv.2).

#[export] Instance merges_dec base server kv : Decision (merges base server kv).
Proof. unfold merges. apply _. Defined.

(** The loop of the merge: the entries that merge are copied, the names of the
    others are collected. *)
Lemma merge_loop base server (l merged : properties) affected :
  "__proto__" ∉ l.*1 ->
  fold_left (merge_field base server) l (merged, affected) =
  (fold_left (fun acc kv => obj_define kv.1 kv.2 acc)
     (filter (merges base server) l) merged,
   affected ++ (filter (fun kv => ~ merges base server kv) l).*1).
Proof.
  revert merged affected.
  induction l as [|[f v] l IH]; intros merged affected; cbn [fold_left].
  - intros _. by rewrite app_nil_r.
  - intros [Hf Hl]%not_elem_of_cons. cbn [merge_field].
    destruct (field_merges base server f v) eqn:Hm; rewrite IH by done.
    + assert (merges base server (f, v)) as Hp by (unfold merges; cbn; by rewrite Hm).
      rewrite filter_cons_True by done.
      rewrite (filter_cons_False (fun kv => ~ merges base server kv)) by tauto.
      cbn [fold_left fst snd]. unfold obj_assign. by rewrite decide_False by done.
    + assert (~ merges base server (f, v)) as Hp.
      { unfold merges. cbn. rewrite Hm. tauto. }
      rewrite filter_cons_False by done.
      rewrite (filter_cons_True (fun kv => ~ merges base server kv)) by done.
      cbn. by rewrite <- app_assoc.
Qed.

Lemma NoDup_keys_agree {A} (l : list (string * A)) k v v' :
  NoDup l.*1 -> (k, v) ∈ l -> (k, v') ∈ l -> v = v'.
Proof.
  induction l as [|[k0 v0] l IH]; cbn; [by intros _ []%elem_of_nil|].
  intros [Hk Hd]%NoDup_cons H1 H2. apply elem_of_cons in H1 as [H1|H1], H2 as [H2|H2].
  - congruence.
  - destruct Hk. apply list_elem_of_fmap. exists (k, v'). by simplify_eq.
  - destruct Hk. apply list_elem_of_fmap. exists (k, v). by simplify_eq.
  - by apply IH.
Qed.

Lemma filter_all {A} (P : A -> Prop) `{forall x, Decision (P x)} l :
  Forall P l -> filter P l = l.
Proof. induction 1; [done|]. rewrite filter_cons_True by done. by f_equal. Qed.

Lemma sublist_filter_keys (P : string * json -> Prop) `{forall x, Decision (P x)} l :
  sublist (filter P l).*1 l.*1.
Proof.
  induction l as [|[k v] l IH]; [constructor|]. rewrite filter_cons. by case_decide; constructor.
Qed.

Lemma field_merges_iff a base server f v :
  well_formed a -> baseRecord a = Some base -> serverRecord a = Some server ->
  plain_json true v ->
  (field_merges base server f v = true <-> unchanged_or_equal base server f v).
Proof.
  intros Ha Hb Hs Hv. destruct (wf_records a Ha base) as [Hbr _]; [by left|].
  destruct (wf_records a Ha server) as [Hsr _]; [by right|].
  unfold field_merges, unchanged_or_equal.
  rewrite orb_true_iff, !jsonValuesEqual_iff by (done || by apply plain_read). done.
Qed.

Lemma server_version_plain a r : well_formed a -> serverRecord a = Some r ->
  plain_json true (server_version a r).
Proof.
  intros Ha Hr. destruct (wf_records a Ha r) as [Hl Hv]; [by right|].
  pose proof (plain_read (versionAttribute a) _ Hl) as Hp. unfold server_version.
  destruct (record_version r) as [[]|]; cbn in *;
    destruct (read_attribute _ _); try done; constructor.
Qed.

Lemma hasVersionConflict_iff a : well_formed a ->
  hasVersionConflict a = true <-> version_conflict a.
Proof.
  intros Ha. unfold hasVersionConflict, version_conflict.
  destruct (serverRecord a) as [server|] eqn:Hs; [|naive_solver].
  pose proof (wf_base_version a Ha) as Hb.
  destruct (baseVersion (the_mutation a)) as [base|]; [|naive_solver]. cbn in Hb.
  pose proof (server_version_plain a server Ha Hs) as Hp.
  pose proof (jsonValuesEqual_iff (Some (server_version a server)) (Some base) Hp Hb) as He.
  assert (same_value (Some (server_version a server)) (Some base) <->
          json_equiv (server_version a server) base) as Hi.
  { split; [by inversion 1 | by constructor]. }
  rewrite Hi in He. clear Hi.
  destruct (decide (base = JNull)) as [->|Hn]; [naive_solver|].
  transitivity (negb (jsonValuesEqual (Some (server_version a server)) (Some base)) = true).
  { by destruct base. }
  rewrite negb_true_iff, <- not_true_iff_false, He. naive_solver.
Qed.

(** A refusal: the details name the fields, the server's values and the suggestion. *)
Definition refusal (a : arguments) (attributes : properties) (fields : list string)
    (r : outcome properties) : Prop :=
  exists details,
    r = Ok [("conflict", JObj details); ("status", JStr "conflict");
            ("strategy", JStr (strategy a))] /\
    obj_get "affectedFields" details = Some (JArr (map JStr fields)) /\
    obj_get "localMutation" details = Some (JObj [
      ("attributes", JObj attributes);
      ("clientMutationId", JStr (clientMutationId (the_mutation a)));
      ("model", JStr (mutation_model (the_mutation a)));
      ("operation", JStr (mutation_operation (the_mutation a)));
      ("payload", or_null (JObj <$> mutation_payload (the_mutation a)))]) /\
    obj_get "serverModel" details = Some (or_null (JObj ∘ record_attributes <$> serverRecord a)).

Lemma conflictResult_refusal a attributes fields :
  mutationAttributesFor (the_mutation a) = Ok attributes ->
  refusal a attributes (match fields with Some l => l | None => attributes.*1 end)
    (conflictResult a fields).
Proof.
  intros Hm. unfold refusal, conflictResult. rewrite Hm. cbn. eexists. split_and!; done.
Qed.

Lemma rebuild_plain b v : plain_json b v -> plain_json b (rebuild v).
Proof.
  induction v as [| | | |l IH|l IH] using json_nested_ind; intros Hv; try done;
    inversion Hv as [| | | |? Hl|? Hd Hp Hl]; subst.
  - cbn. constructor. apply Forall_map. rewrite Forall_forall in IH, Hl |- *. eauto.
  - change (rebuild (JObj l)) with (JObj (rebuild_members [] l)).
    assert (ordinary_order (rebuild_members [] l)) as Ho
      by by apply ordinary_order_rebuild_members.
    assert (forall k, k ∈ (rebuild_members [] l).*1 -> k ∈ l.*1) as Hk.
    { intros k. rewrite <- !obj_get_keys, obj_get_rebuild_members by done.
      destruct (obj_get k l); [eauto|]. by intros []. }
    constructor; [by apply ordinary_order_NoDup| |].
    + apply orb_prop_elim in Hp as [Hp|Hp]; apply orb_prop_intro; [by left|right].
      apply bool_decide_unpack in Hp. apply bool_decide_pack. intros Hin. by apply Hp, Hk.
    + apply Forall_forall. intros [k x] Hin.
      pose proof (obj_get_rebuild_members l [] k Hd) as Hg.
      assert (obj_get k (rebuild_members [] l) = Some x) as Hx.
      { destruct (obj_get k (rebuild_members [] l)) as [y|] eqn:Hy.
        - f_equal. apply obj_get_elem in Hy. symmetry.
          by eapply NoDup_keys_agree; [apply ordinary_order_NoDup| |].
        - assert (is_Some (obj_get k (rebuild_members [] l))) as [z Hz]; [|congruence].
          apply obj_get_keys, list_elem_of_fmap. by exists (k, x). }
      rewrite Hg in Hx. destruct (obj_get k l) as [y|] eqn:Hy; [|done]. injection Hx as <-.
      apply obj_get_elem in Hy. rewrite Forall_forall in IH, Hl. cbn.
      apply (IH (k, y)), (Hl (k, y)); done.
Qed.

Lemma threeWay_decides a attributes : well_formed a -> strategy a = "fieldThreeWay" ->
  mutationAttributesFor (the_mutation a) = Ok attributes ->
  ordinary_order attributes -> plain_json false (JObj attributes) ->
  (decides a attributes None /\ fieldThreeWayResult a = Ok (applied attributes a)) \/
  exists fields, decides a attributes (Some fields) /\
    refusal a attributes fields (fieldThreeWayResult a).
Proof.
  intros Ha Hst Hm Ho Hp. unfold fieldThreeWayResult. rewrite Hm. cbn [mbind result_bind].
  destruct (baseRecord a) as [base|] eqn:Hb; [|left; split; [|done]; apply decides_no_snapshot; auto].
  destruct (serverRecord a) as [server|] eqn:Hs;
    [|left; split; [|done]; apply decides_no_snapshot; auto].
  inversion Hp as [| | | | |? Hd Hproto Hl]; subst. cbn in Hproto.
  apply bool_decide_unpack in Hproto.
  rewrite merge_loop by done. cbn [app].
  assert (forall f v, (f, v) ∈ attributes ->
    merges base server (f, v) <-> unchanged_or_equal base server f v) as Hok.
  { intros f v Hin. rewrite <- (field_merges_iff a) by
      (done || rewrite Forall_forall in Hl; eapply plain_proto, (Hl (f, v)); done).
    unfold merges. by rewrite Is_true_true. }
  destruct (decide (filter (fun kv => ~ merges base server kv) attributes = [])) as [He|Hne].
  - left. rewrite He. cbn [fmap list_fmap length Z.of_nat Z.ltb Z.compare].
    assert (Forall (merges base server) attributes) as Hall.
    { apply Forall_forall. intros kv Hin. apply dec_stable. intros Hn.
      apply (not_elem_of_nil kv). rewrite <- He. by apply list_elem_of_filter. }
    rewrite filter_all, define_all_ordinary by done. split; [|done].
    apply (decides_merge _ _ base server); try done. intros f v Hin.
    apply Hok; [done|]. rewrite Forall_forall in Hall. by apply (Hall (f, v)).
  - right. set (fields := (filter (fun kv => ~ merges base server kv) attributes).*1).
    assert (fields <> []) as Hf by by unfold fields; destruct (filter _ _).
    rewrite (proj2 (Z.ltb_lt 0 (Z.of_nat (length fields)))) by (destruct fields; cbn; done || lia).
    exists fields. split; [|by apply (conflictResult_refusal _ _ (Some fields))].
    apply (decides_fields _ _ base server); try done.
    + apply sublist_filter_keys.
    + intros f v Hin. rewrite <- Hok by done. unfold fields. rewrite list_elem_of_fmap. split.
      * intros ([f' v'] & Heq & [Hn Hin']%list_elem_of_filter). cbn in Heq. subst f'.
        by rewrite (NoDup_keys_agree _ _ _ _ Hd Hin Hin').
      * intros Hn. exists (f, v). split; [done|]. by apply list_elem_of_filter.
Qed.

(** For every strategy the replay decides as specified: [appendOnly] and
    [lastWriterWins] always apply the mutation; [optimisticVersion] and
    [serverWins] refuse it exactly when it names a base version that differs from
    the server's (up to the order of object keys); [fieldThreeWay] refuses it
    exactly for the fields whose server value neither is the base value nor
    already equals the written one, and otherwise applies every attribute. What is
    applied is the mutation's attributes up to key order, and a refusal carries the
    fields, the attributes and the server's values. *)
Lemma resolveSyncConflict_decides a : well_formed a -> strategy a ∈ CONFLICT_STRATEGIES ->
  exists attributes decision,
    json_equiv (JObj (sent_attributes (the_mutation a))) (JObj attributes) /\
    decides a attributes decision /\
    match decision with
    | None => resolveSyncConflict None a = Ok (applied attributes a)
    | Some fields => refusal a attributes fields (resolveSyncConflict None a)
    end.
Proof.
  intros Ha Hst. destruct (mutationAttributesFor_copy _ (wf_mutation a Ha)) as (l & Hm & He & Hl).
  exists l. unfold resolveSyncConflict. rewrite decide_False by (intros Hn; by apply Hn). rewrite Hm.
  cbn [mbind result_bind].
  destruct (bool_decide (strategy a = "appendOnly") || bool_decide (strategy a = "lastWriterWins"))
    eqn:Hb.
  { exists None. split_and!; [done| |done]. apply decides_always.
    by apply orb_true_iff in Hb as [Hb%bool_decide_eq_true|Hb%bool_decide_eq_true]; auto. }
  apply orb_false_iff in Hb as [H1%bool_decide_eq_false H2%bool_decide_eq_false].
  destruct (decide (strategy a = "fieldThreeWay")) as [H3|H3].
  { destruct (threeWay_decides a l Ha H3 Hm) as [[Hd Hr]|(fields & Hd & Hr)].
    - subst l. by apply ordinary_order_rebuild_members.
    - subst l. apply (rebuild_plain false (JObj _)), Ha.
    - by exists None.
    - by exists (Some fields). }
  assert (strategy a = "optimisticVersion" \/ strategy a = "serverWins") as Hs.
  { unfold CONFLICT_STRATEGIES in Hst. rewrite !elem_of_cons in Hst.
    destruct Hst as [?|[?|[?|[?|[?|[]%elem_of_nil]]]]]; by auto. }
  pose proof (hasVersionConflict_iff a Ha) as Hv. destruct (hasVersionConflict a).
  - exists (Some l.*1). split_and!; [done| |by apply (conflictResult_refusal _ _ None)].
    apply decides_other_version; [done|by apply Hv].
  - exists None. split_and!; [done| |done].
    apply decides_same_version; [done|]. rewrite <- Hv. done.
Qed.

(** ** An example *)

Definition example_record l : conflict_record := {| record_attributes := l; record_version := None |}.
Definition example_arguments : arguments := {|
  baseRecord := Some (example_record [("name", JStr "a"); ("tags", JArr [])]);
  serverRecord := Some (example_record [("name", JStr "a"); ("tags", JArr [JNull])]);
  the_mutation := {| mutation_attributes := Some (JObj [("tags", JNull); ("name", JStr "b")]);
    baseVersion := None; clientMutationId := "1"; mutation_model := "Task";
    mutation_operation := "update"; mutation_payload := None |};
  strategy := "fieldThreeWay"; versionAttribute := "updatedAt" |}.

Lemma resolveSyncConflict_decides_witness :
  exists attributes decision,
    json_equiv (JObj [("tags", JNull); ("name", JStr "b")]) (JObj attributes) /\
    decides example_arguments attributes decision /\
    match decision with
    | None => resolveSyncConflict None example_arguments = Ok (applied attributes example_arguments)
    | Some fields => refusal example_arguments attributes fields (resolveSyncConflict None example_arguments)
    end.
Proof.
  apply (resolveSyncConflict_decides example_arguments).
  - split; [| exact I |].
    + cbn. constructor; [repeat constructor; set_solver|vm_compute; exact I|repeat constructor].
    + intros r [[= <-]|[= <-]]; (split; [|exact I]); cbn;
        (constructor; [repeat constructor; set_solver|vm_compute; exact I|repeat constructor]).
  - vm_compute. right. right. right. left.
Defined.

(** The decision of that replay, computed: the tags changed on the server. *)
Example three_way_refuses_tags :
  match resolveSyncConflict None example_arguments with
  | Ok [("conflict", JObj (("affectedFields", JArr fields) :: _)); _; _] => fields
  | _ => []
  end = [JStr "tags"].
Proof. vm_compute. reflexivity. Qed.
