(* ===== verification/Transport.v ===== *)
(** * Transport values ([src/src/frontend-models/transport-serialization.js])

    Values that JSON has no text for (dates, [undefined], big integers, the
    non-finite numbers, model records) are sent as marker objects, and restored
    by the reader. A [value] is a JavaScript value of the kinds the serializer
    tells apart; a record of a backend model is a reference into the heap of
    records, because its preloaded relationships may lead back to it.

    Parameters: the formatting of a date in a time zone (the Temporal library),
    the reading of texts other than the ISO form by [new Date(text)]
    (implementation-defined), and the frontend-model classes an application
    registers, each with its [instantiateFromResponse]. *)

From stdpp Require Import base functions gmap strings list sorting.
From Stdlib Require Import ZArith Ascii Lia DecimalString DecimalZ.
From S2P Require Import Prelude Json StableJson Dates.
Open Scope Z_scope.

Inductive non_finite := NotANumber | Infinite | NegativeInfinite.

Inductive value :=
| VUndefined
| VNull
| VBool (b : bool)
| VNum (literal : string)
| VNonFinite (n : non_finite)
| VBigInt (n : Z)
| VStr (s : string)
| VDate (t : option Z)                     (* [None]: an invalid date *)
| VArr (items : list value)
| VObj (members : list (string * value))
| VModel (reference : Z).

Section value_ind.
Context (P : value -> Prop)
  (Hundefined : P VUndefined) (Hnull : P VNull) (Hbool : forall b, P (VBool b))
  (Hnum : forall n, P (VNum n)) (Hnf : forall n, P (VNonFinite n)) (Hbig : forall n, P (VBigInt n))
  (Hstr : forall s, P (VStr s)) (Hdate : forall t, P (VDate t))
  (Harr : forall l, Forall P l -> P (VArr l))
  (Hobj : forall l, Forall (fun kv => P kv.2) l -> P (VObj l))
  (Hmodel : forall r, P (VModel r)).

Fixpoint value_nested_ind (v : value) : P v :=
  match v with
  | VUndefined => Hundefined
  | VNull => Hnull
  | VBool b => Hbool b
  | VNum n => Hnum n
  | VNonFinite n => Hnf n
  | VBigInt n => Hbig n
  | VStr s => Hstr s
  | VDate t => Hdate t
  | VArr l => Harr l ((fix go l : Forall P l :=
      match l with
      | [] => Forall_nil_2 _
      | x :: l' => Forall_cons_2 _ _ _ (value_nested_ind x) (go l')
      end) l)
  | VObj l => Hobj l ((fix go (l : list (string * value)) : Forall (fun kv => P kv.2) l :=
      match l with
      | [] => Forall_nil_2 _
      | kv :: l' => Forall_cons_2 _ _ _ (value_nested_ind kv.2) (go l')
      end) l)
  | VModel r => Hmodel r
  end.
End value_ind.

Inductive transport_error := RangeError | NoSuchRecord | HydrationError (message : string) | OutOfFuel.

Abbreviation outcome A := (result transport_error A).
Abbreviation members := (list (string * value)).

(** A record: the relationships in the order of the class's map, with what a
    preloaded one has loaded. *)
Record model_record := {
  model_name : string;
  model_attributes : members;
  relationships : list (string * option value)
}.

Record environment := {
  heap : gmap Z model_record;
  formatDateInTimeZone : Z -> string -> string;
  other_date_texts : string -> option Z;
  model_classes : gmap string (value -> outcome value)
}.

Definition TYPE_KEY : string := "__velocious_type".
Definition PRELOADED_RELATIONSHIPS_KEY : string := "__preloadedRelationships".

(** [l.map(f)] where [f] may throw. *)
Definition traverse {A B} (f : A -> outcome B) : list A -> outcome (list B) :=
  fix go l :=
    match l with
    | [] => Ok []
    | x :: l' => y ← f x; ys ← go l'; Ok (y :: ys)
    end.

(** The object built by [assignSafeProperty] for each entry: [__proto__] is an
    own property like any other. *)
Definition assign_safe {A} (entries : list (string * A)) : list (string * A) :=
  fold_left (fun target kv => obj_define kv.1 kv.2 target) entries [].

Definition non_finite_text (n : non_finite) : string :=
  match n with NotANumber => "NaN" | Infinite => "Infinity" | NegativeInfinite => "-Infinity" end.

(** [bigint.toString()] and [BigInt(text)] of [/^-?\d+$/]. *)
Definition bigint_text (n : Z) : string := NilZero.string_of_int (Z.to_int n).
Definition bigint_value (s : string) : option Z := Z.of_int <$> NilZero.int_of_string s.

Definition marker (type : string) (content : list (string * json)) : json :=
  JObj ((TYPE_KEY, JStr type) :: content).

Section operations.
Context (e : environment).

(** ** Serialization *)

Definition date_text (timeZone : option string) (t : Z) : string :=
  match timeZone with
  | Some zone => formatDateInTimeZone e t zone
  | None => toISOString t
  end.

(** [loaded == undefined ? null : loaded] *)
Definition loaded_value (v : value) : value := match v with VUndefined => VNull | _ => v end.

(** The nesting of the value is followed structurally; [fuel] bounds the chain of
    records entered through preloaded relationships. *)
Fixpoint serialize_internal (timeZone : option string) (fuel : nat) :
    gset Z -> value -> outcome json :=
  fix ser (seenModels : gset Z) (v : value) {struct v} : outcome json :=
    match v with
    | VUndefined => Ok (marker "undefined" [])
    | VDate (Some t) => Ok (marker "date" [("value", JStr (date_text timeZone t))])
    | VDate None => Throw RangeError
    | VBigInt n => Ok (marker "bigint" [("value", JStr (bigint_text n))])
    | VNonFinite n => Ok (marker "number" [("value", JStr (non_finite_text n))])
    | VArr l => items ← traverse (ser seenModels) l; Ok (JArr items)
    | VModel r =>
        match fuel with
        | O => Throw OutOfFuel
        | S fuel =>
            match heap e !! r with
            | None => Throw NoSuchRecord
            | Some m =>
                attributes ← serialize_internal timeZone fuel seenModels (VObj (model_attributes m));
                let serializedModel :=
                  [(TYPE_KEY, JStr "frontend_model"); ("attributes", attributes);
                   ("modelName", JStr (model_name m))] in
                if decide (r ∈ seenModels) then Ok (JObj serializedModel) else
                loaded ← traverse (fun kv : string * value =>
                    x ← serialize_internal timeZone fuel ({[r]} ∪ seenModels)
                          (loaded_value kv.2);
                    Ok (kv.1, x))
                  (omap (fun kv => v ← kv.2; Some (kv.1, v)) (relationships m));
                let preloadedRelationships := assign_safe loaded in
                Ok (JObj (match preloadedRelationships with
                          | [] => serializedModel
                          | _ => serializedModel ++
                                   [("preloadedRelationships", JObj preloadedRelationships)]
                          end))
            end
        end
    | VObj l =>
        entries ← traverse (fun kv : string * value => x ← ser seenModels kv.2; Ok (kv.1, x)) l;
        Ok (JObj (assign_safe entries))
    | VNull => Ok JNull
    | VBool b => Ok (JBool b)
    | VNum n => Ok (JNum n)
    | VStr s => Ok (JStr s)
    end.

(** ** Deserialization *)

Definition is_marker_of (type : string) (l : list (string * json)) : bool :=
  bool_decide (obj_get TYPE_KEY l = Some (JStr type)).

Definition isUndefinedMarker (l : list (string * json)) : bool :=
  (length l =? 1)%nat && is_marker_of "undefined" l.

(** The string of a two-property marker with a string [value]. *)
Definition string_marker (type : string) (l : list (string * json)) : option string :=
  if (length l =? 2)%nat && is_marker_of type l then
    match obj_get "value" l with Some (JStr s) => Some s | _ => None end
  else None.

Definition non_finite_value (s : string) : option non_finite :=
  if decide (s = "NaN") then Some NotANumber else
  if decide (s = "Infinity") then Some Infinite else
  if decide (s = "-Infinity") then Some NegativeInfinite else None.

(** The name of the model and its preloaded relationships, of a model marker. *)
Definition frontend_model_marker (l : list (string * json)) : option string :=
  if negb (is_marker_of "frontend_model" l) then None else
  match obj_get "modelName" l, obj_get "attributes" l, obj_get "preloadedRelationships" l with
  | Some (JStr (String _ _ as name)), Some (JObj _), (None | Some (JObj _)) => Some name
  | _, _, _ => None
  end.

(** [new Date(text)] *)
Definition new_Date (s : string) : value :=
  VDate (match iso_value s with Some t => Some t | None => other_date_texts e s end).

(** The own enumerable properties a spread copies; a hydrated model is an
    application object, whose fields are not modelled. *)
Definition spread (v : value) : members := match v with VObj l => l | _ => [] end.

(** [Object.keys(preloaded).length > 0] adds them under the reserved key. *)
Definition with_preloaded (attributes preloaded : value) : value :=
  match spread preloaded with
  | [] => attributes
  | _ => VObj (obj_define PRELOADED_RELATIONSHIPS_KEY preloaded (spread attributes))
  end.

Definition deserializeFrontendModelMarker (name : string) (attributes preloaded : value) :
    outcome value :=
  match model_classes e !! name with
  | Some instantiateFromResponse => instantiateFromResponse (with_preloaded attributes preloaded)
  | None => Ok (with_preloaded attributes preloaded)
  end.

Fixpoint deserialize (j : json) : outcome value :=
  match j with
  | JNull => Ok VNull
  | JBool b => Ok (VBool b)
  | JNum n => Ok (VNum n)
  | JStr s => Ok (VStr s)
  | JArr l => items ← traverse deserialize l; Ok (VArr items)
  | JObj l =>
      let at_key key := match obj_get key (map (fun kv => (kv.1, deserialize kv.2)) l) with
                        | Some r => r | None => Ok (VObj []) end in
      if isUndefinedMarker l then Ok VUndefined else
      match string_marker "date" l with
      | Some s => Ok (new_Date s)
      | None =>
      match string_marker "bigint" l ≫= bigint_value with
      | Some n => Ok (VBigInt n)
      | None =>
      match string_marker "number" l ≫= non_finite_value with
      | Some n => Ok (VNonFinite n)
      | None =>
      match frontend_model_marker l with
      | Some name =>
          attributes ← at_key "attributes";
          preloaded ← at_key "preloadedRelationships";
          deserializeFrontendModelMarker name attributes preloaded
      | None =>
          entries ← traverse (fun kv : string * json => x ← deserialize kv.2; Ok (kv.1, x)) l;
          Ok (VObj (assign_safe entries))
      end end end end
  end.

End operations.

(** [serializeFrontendModelTransportValue]: every record of the heap may be
    entered once on a path, and met once more. *)
Definition serialize (e : environment) (timeZone : option string) (v : value) : outcome json :=
  serialize_internal e timeZone (S (size (heap e))) ∅ v.

(** ** Running over lists *)

Lemma traverse_Forall2 {A B} (f : A -> outcome B) l ys :
  Forall2 (fun x y => f x = Ok y) l ys -> traverse f l = Ok ys.
Proof. induction 1 as [|x y l ys Hx Hl IH]; [done|]. cbn. rewrite Hx. cbn. by rewrite IH. Qed.

Lemma Forall_choose {A B} (R : A -> B -> Prop) l :
  Forall (fun x => exists y, R x y) l -> exists ys, Forall2 R l ys.
Proof.
  induction 1 as [|x l [y Hy] Hl [ys IH]]; [by exists []|]. exists (y :: ys). by constructor.
Qed.

Lemma ordinary_order_keys {A B} (l : list (string * A)) (l' : list (string * B)) :
  l.*1 = l'.*1 -> ordinary_order l -> ordinary_order l'.
Proof.
  revert l'. induction l as [|[k v] l IH]; intros [|[k' v'] l']; cbn; try done.
  intros [= <- Hk] [Hfirst Ho]. split; [|by apply IH].
  intros kv Hkv. assert (kv.1 ∈ l.*1) as Hin.
  { rewrite Hk. apply list_elem_of_fmap. eauto. }
  apply list_elem_of_fmap in Hin as (kv' & -> & Hin). by apply Hfirst.
Qed.

Lemma assign_safe_ordinary {A} (l : list (string * A)) : ordinary_order l -> assign_safe l = l.
Proof. intros Ho. unfold assign_safe. by rewrite define_all_ordinary. Qed.

(** ** The round trip *)

Section roundtrip.
Context (e : environment) (timeZone : option string).

Lemma serialize_array fuel seen l : serialize_internal e timeZone fuel seen (VArr l) =
  (items ← traverse (serialize_internal e timeZone fuel seen) l; Ok (JArr items)).
Proof. by destruct fuel. Qed.

Lemma serialize_object fuel seen l : serialize_internal e timeZone fuel seen (VObj l) =
  (entries ← traverse (fun kv : string * value =>
     x ← serialize_internal e timeZone fuel seen kv.2; Ok (kv.1, x)) l;
   Ok (JObj (assign_safe entries))).
Proof. by destruct fuel. Qed.

(** The date reads back from the text it is sent as. *)
Definition readable (t : Z) : Prop := new_Date e (date_text e timeZone t) = VDate (Some t).

(** Values without records, whose dates are readable and whose objects are not
    taken for markers. *)
Inductive portable : value -> Prop :=
| portable_undefined : portable VUndefined
| portable_null : portable VNull
| portable_bool b : portable (VBool b)
| portable_num n : number_literal n = true -> portable (VNum n)
| portable_non_finite n : portable (VNonFinite n)
| portable_bigint n : portable (VBigInt n)
| portable_str s : portable (VStr s)
| portable_date t : readable t -> portable (VDate (Some t))
| portable_arr l : Forall portable l -> portable (VArr l)
| portable_obj l : ordinary_order l -> TYPE_KEY ∉ l.*1 -> Forall (fun kv => portable kv.2) l ->
    portable (VObj l).

(** What is sent for a value: it does not depend on the records on the path, is
    JSON text's own value, and is read back as the value. *)
Definition sent_as (v : value) (j : json) : Prop :=
  (forall fuel seen, serialize_internal e timeZone fuel seen v = Ok j) /\
  deserialize e j = Ok v /\ valid_json j /\ ordinary j.

Lemma bigint_roundtrip n : bigint_value (bigint_text n) = Some n.
Proof.
  unfold bigint_value, bigint_text. rewrite NilZero.isi.
  - cbn. by rewrite DecimalZ.of_to.
  - destruct n as [|p|p]; cbn; try done. intros H. injection H as H.
    by apply (DecimalPos.Unsigned.to_uint_nonnil p).
  - destruct n as [|p|p]; cbn; try done. intros H. injection H as H.
    by apply (DecimalPos.Unsigned.to_uint_nonnil p).
Qed.

Lemma deserialize_bigint s n : bigint_value s = Some n ->
  deserialize e (marker "bigint" [("value", JStr s)]) = Ok (VBigInt n).
Proof.
  intros Hs. unfold marker. cbn [deserialize].
  change (string_marker "bigint" [(TYPE_KEY, JStr "bigint"); ("value", JStr s)]) with (Some s).
  cbn [mbind option_bind]. by rewrite Hs.
Qed.

Lemma ordinary_marker type s : ordinary (marker type [("value", JStr s)]).
Proof.
  constructor; [|repeat constructor]. cbn. split.
  - intros kv ->%list_elem_of_singleton. by split.
  - split; [|done]. by intros kv []%elem_of_nil.
Qed.

Lemma sent_array l : Forall (fun v => exists j, sent_as v j) l -> exists j, sent_as (VArr l) j.
Proof.
  intros [js Hjs]%Forall_choose. exists (JArr js). split_and!.
  - intros fuel seen. rewrite serialize_array, (traverse_Forall2 _ _ js); [done|].
    eapply Forall2_impl; [done|]. intros v j [H _]. apply H.
  - cbn. rewrite (traverse_Forall2 _ _ l); [done|]. apply Forall2_flip.
    eapply Forall2_impl; [done|]. by intros v j (_ & H & _).
  - constructor. clear -Hjs. induction Hjs as [|v j l js (_ & _ & H & _) _ IH]; by constructor.
  - constructor. clear -Hjs. induction Hjs as [|v j l js (_ & _ & _ & H) _ IH]; by constructor.
Qed.

Definition member_sent (kv : string * value) (kj : string * json) : Prop :=
  kv.1 = kj.1 /\ sent_as kv.2 kj.2.

Lemma members_keys l js : Forall2 member_sent l js -> l.*1 = js.*1.
Proof. induction 1 as [|kv kj l js [H _] _ IH]; [done|]. cbn. by rewrite IH, H. Qed.

Lemma unmarked l : TYPE_KEY ∉ l.*1 ->
  isUndefinedMarker l = false /\ (forall type, string_marker type l = None) /\
  frontend_model_marker l = None.
Proof.
  intros Hk. assert (forall type, is_marker_of type l = false) as Hm.
  { intros type. apply bool_decide_eq_false. intros Hg. apply Hk, obj_get_keys. eauto. }
  unfold isUndefinedMarker, string_marker, frontend_model_marker.
  split_and!; [|intros type|]; rewrite Hm, ?andb_false_r; done.
Qed.

Lemma sent_object l : ordinary_order l -> TYPE_KEY ∉ l.*1 ->
  Forall (fun kv => exists j, sent_as kv.2 j) l -> exists j, sent_as (VObj l) j.
Proof.
  intros Ho Hk Hl. assert (Forall (fun kv => exists kj, member_sent kv kj) l) as [js Hjs]%Forall_choose.
  { eapply Forall_impl; [done|]. intros [k v] [j Hj]. by exists (k, j). }
  pose proof (members_keys l js Hjs) as Hkeys.
  assert (ordinary_order js) as Hoj by by eapply ordinary_order_keys.
  exists (JObj js). split_and!.
  - intros fuel seen. rewrite serialize_object, (traverse_Forall2 _ _ js).
    + cbn. by rewrite assign_safe_ordinary.
    + eapply Forall2_impl; [done|]. intros [k v] [k' j] [[= <-] [H _]]. cbn in H |- *. by rewrite H.
  - cbn [deserialize]. rewrite Hkeys in Hk. destruct (unmarked js Hk) as (-> & H2 & ->).
    rewrite !H2. cbn [mbind option_bind]. rewrite (traverse_Forall2 _ _ l).
    + cbn. by rewrite assign_safe_ordinary.
    + apply Forall2_flip. eapply Forall2_impl; [done|].
      intros [k v] [k' j] [[= <-] (_ & H & _)]. cbn in H |- *. by rewrite H.
  - constructor. clear -Hjs. induction Hjs as [|kv kj l js (_ & _ & _ & H & _) _ IH]; by constructor.
  - constructor; [done|].
    clear -Hjs. induction Hjs as [|kv kj l js (_ & _ & _ & _ & H) _ IH]; by constructor.
Qed.

Lemma portable_sent v : portable v -> exists j, sent_as v j.
Proof.
  induction v as [| | | |n|n| |t|l IH|l IH|] using value_nested_ind; intros Hv;
    inversion Hv as [| | |? Hn| | | |? Ht|? Hl|? Ho Hk Hl]; subst.
  - eexists. split_and!; [by intros []|done|repeat constructor|].
    constructor; [|repeat constructor]. split; [by intros kv []%elem_of_nil|done].
  - eexists. split_and!; [by intros []|done|constructor..].
  - eexists. split_and!; [by intros []|done|constructor..].
  - eexists. split_and!; [by intros []|done|by constructor|constructor].
  - eexists. split_and!; [by intros []|by destruct n|repeat constructor|apply ordinary_marker].
  - eexists. split_and!; [by intros []| |repeat constructor|apply ordinary_marker].
    apply deserialize_bigint, bigint_roundtrip.
  - eexists. split_and!; [by intros []|done|constructor..].
  - eexists. split_and!; [by intros []| |repeat constructor|apply ordinary_marker].
    cbn -[new_Date]. f_equal. exact Ht.
  - apply sent_array. rewrite Forall_forall in IH, Hl |- *. eauto.
  - apply sent_object; [done..|]. rewrite Forall_forall in IH, Hl |- *. eauto.
Qed.

End roundtrip.

(** Every date a [Date] can hold is readable from its ISO text. *)
Lemma iso_readable e t : Z.abs t <= MAX_TIME -> readable e None t.
Proof. intros Ht. unfold readable, new_Date, date_text. by rewrite iso_value_toISOString. Qed.

(** C15: a value sent through the transport arrives unchanged: serialization
    returns, the JSON text of what it returns is read back by [JSON.parse], and
    deserialization gives the value, for every value without records, whose
    objects have no key [__velocious_type] and whose dates are readable from the
    text they are sent as (as ISO text, every valid date is). *)
Theorem transport_roundtrip e timeZone v : portable e timeZone v ->
  exists j, serialize e timeZone v = Ok j /\ parse (stringify j) = Some j /\ deserialize e j = Ok v.
Proof.
  intros (j & Hs & Hd & Hv & Ho)%portable_sent. exists j. split_and!; [apply Hs| |done].
  by apply parse_stringify.
Qed.

(** ** Records whose relationships form cycles *)

(** A value the serializer accepts: its dates are valid and its records exist. *)
Inductive sendable (h : gmap Z model_record) : value -> Prop :=
| sendable_undefined : sendable h VUndefined
| sendable_null : sendable h VNull
| sendable_bool b : sendable h (VBool b)
| sendable_num n : sendable h (VNum n)
| sendable_non_finite n : sendable h (VNonFinite n)
| sendable_bigint n : sendable h (VBigInt n)
| sendable_str s : sendable h (VStr s)
| sendable_date t : sendable h (VDate (Some t))
| sendable_arr l : Forall (sendable h) l -> sendable h (VArr l)
| sendable_obj l : Forall (fun kv => sendable h kv.2) l -> sendable h (VObj l)
| sendable_model r : is_Some (h !! r) -> sendable h (VModel r).

(** The attributes of a record hold column values; what its relationships have
    loaded may be any records, the record itself among them. *)
Definition sendable_heap (h : gmap Z model_record) : Prop := forall r m, h !! r = Some m ->
  sendable ∅ (VObj (model_attributes m)) /\
  Forall (fun kv => forall v, kv.2 = Some v -> sendable h v) (relationships m).

Section termination.
Context (e : environment) (timeZone : option string).

(** One result for every fuel from [n]. *)
Definition settles (n : nat) (seen : gset Z) (v : value) : Prop :=
  exists j, forall fuel, (n <= fuel)%nat -> serialize_internal e timeZone fuel seen v = Ok j.

Lemma traverse_settles {A} (f : nat -> A -> outcome json) n l :
  Forall (fun x => exists j, forall fuel, (n <= fuel)%nat -> f fuel x = Ok j) l ->
  exists js, forall fuel, (n <= fuel)%nat -> traverse (f fuel) l = Ok js.
Proof.
  intros [js Hjs]%Forall_choose. exists js. intros fuel Hf. apply traverse_Forall2.
  eapply Forall2_impl; [done|]. intros x j H. by apply H.
Qed.

Lemma traverse_members_settles (f : nat -> value -> outcome json) n (l : members) :
  Forall (fun kv => exists j, forall fuel, (n <= fuel)%nat -> f fuel kv.2 = Ok j) l ->
  exists js, forall fuel, (n <= fuel)%nat ->
    traverse (fun kv : string * value => x ← f fuel kv.2; Ok (kv.1, x)) l = Ok js.
Proof.
  intros Hl.
  assert (Forall (fun kv : string * value => exists kj : string * json,
    forall fuel, (n <= fuel)%nat -> (x ← f fuel kv.2; Ok (kv.1, x)) = Ok kj) l)
    as [js Hjs]%Forall_choose.
  { eapply Forall_impl; [done|]. intros [k v] [j Hj]. exists (k, j). intros fuel Hf. cbn in *.
    by rewrite Hj. }
  exists js. intros fuel Hf. apply traverse_Forall2.
  eapply Forall2_impl; [done|]. intros x j H. by apply H.
Qed.

(** The nesting of arrays and objects, given what the records in it do. *)
Lemma settles_nested h n seen v :
  (forall r, is_Some (h !! r) -> settles n seen (VModel r)) -> sendable h v -> settles n seen v.
Proof.
  intros Hm. induction v as [| | | | | | |t|l IH|l IH|r] using value_nested_ind; intros Hv;
    inversion Hv as [| | | | | | | |? Hl|? Hl|? Hr]; subst;
    try (eexists; intros [|fuel] Hf; reflexivity).
  - assert (Forall (settles n seen) l) as Hs.
    { rewrite Forall_forall in IH, Hl |- *. eauto. }
    apply (traverse_settles (fun fuel => serialize_internal e timeZone fuel seen))
      in Hs as [js Hjs].
    exists (JArr js). intros fuel Hf. by rewrite serialize_array, Hjs.
  - assert (Forall (fun kv => settles n seen kv.2) l) as Hs.
    { rewrite Forall_forall in IH, Hl |- *. eauto. }
    apply (traverse_members_settles (fun fuel => serialize_internal e timeZone fuel seen))
      in Hs as [js Hjs].
    eexists. intros fuel Hf. by rewrite serialize_object, Hjs.
  - by apply Hm.
Qed.

Lemma settles_plain n seen v : sendable ∅ v -> settles n seen v.
Proof. apply settles_nested. intros r [m Hm]. by rewrite lookup_empty in Hm. Qed.

(** One record, given what its relationships do once it is on the path. *)
Lemma settles_record n seen r m : heap e !! r = Some m -> sendable ∅ (VObj (model_attributes m)) ->
  (r ∉ seen -> Forall (fun kv => forall v, kv.2 = Some v -> settles n ({[r]} ∪ seen) v)
                 (relationships m)) ->
  settles (S n) seen (VModel r).
Proof.
  intros Hr Ha Hrel. destruct (settles_plain 0 seen _ Ha) as [ja Hja].
  destruct (decide (r ∈ seen)) as [Hin|Hnot].
  - eexists. intros [|fuel] Hf; [lia|]. cbn [serialize_internal]. rewrite Hr, Hja by lia.
    cbn [mbind result_bind]. by rewrite decide_True.
  - specialize (Hrel Hnot).
    set (loaded := omap (fun kv : string * option value => v ← kv.2; Some (kv.1, v)) (relationships m)).
    assert (Forall (fun kv => settles n ({[r]} ∪ seen) (loaded_value kv.2))
      loaded) as Hl.
    { unfold loaded. clear -Hrel. induction Hrel as [|[k [v|]] l Hv Hl IH]; cbn; [done| |done].
      constructor; [|done]. cbn. specialize (Hv v eq_refl).
      destruct v; try done. exists JNull. by intros [|fuel]. }
    apply (traverse_members_settles (fun fuel v => serialize_internal e timeZone fuel ({[r]} ∪ seen)
      (loaded_value v))) in Hl as [js Hjs].
    eexists. intros [|fuel] Hf; [lia|]. cbn [serialize_internal]. rewrite Hr, Hja by lia.
    cbn [mbind result_bind]. rewrite decide_False by done. fold loaded. rewrite Hjs by lia. done.
Qed.

Lemma settles_records n : sendable_heap (heap e) -> forall seen v, seen ⊆ dom (heap e) ->
  (size (heap e) - size seen <= n)%nat -> sendable (heap e) v -> settles (S n) seen v.
Proof.
  intros Hh. induction n as [|n IH]; intros seen v Hsub Hn; apply settles_nested;
    intros r [m Hr]; destruct (Hh r m Hr) as [Ha Hrel];
    apply (settles_record _ _ _ m Hr Ha); intros Hnot.
  - destruct Hnot. assert (seen = dom (heap e)) as ->; [|by apply elem_of_dom].
    apply (set_subseteq_size_eq (C := gset Z)); [done|]. rewrite size_dom. lia.
  - assert (size ({[r]} ∪ seen) = S (size seen)) as Hsize.
    { rewrite size_union by set_solver. by rewrite size_singleton. }
    eapply Forall_impl; [done|]. intros [k o] Hv v' Heq. apply IH.
    + apply union_subseteq. split; [|done]. apply singleton_subseteq_l, elem_of_dom. eauto.
    + lia.
    + by apply Hv.
Qed.

End termination.

(** Serialization ends on every graph of records: whatever records the
    preloaded relationships lead back to, the fuel of [serialize] is enough, and
    any larger fuel gives the same result. *)
Lemma serialize_terminates e timeZone v :
  sendable_heap (heap e) -> sendable (heap e) v ->
  exists j, serialize e timeZone v = Ok j /\
    forall fuel, (S (size (heap e)) <= fuel)%nat -> serialize_internal e timeZone fuel ∅ v = Ok j.
Proof.
  intros Hh Hv. destruct (settles_records e timeZone (size (heap e)) Hh ∅ v) as [j Hj];
    [set_solver|lia|done|].
  exists j. split; [by apply Hj|done].
Qed.

(** ** An example: a task and its project, each loaded from the other *)

Definition example_records : gmap Z model_record := list_to_map [
  (1, {| model_name := "Task"; model_attributes := [("id", VNum "1"); ("dueAt", VDate (Some 0))];
         relationships := [("project", Some (VModel 2)); ("comments", None)] |});
  (2, {| model_name := "Project"; model_attributes := [("id", VNum "2")];
         relationships := [("tasks", Some (VArr [VModel 1]))] |})].

Definition example_environment : environment := {|
  heap := example_records; formatDateInTimeZone t _ := toISOString t;
  other_date_texts _ := None; model_classes := ∅ |}.

Lemma example_sendable : sendable_heap example_records.
Proof.
  assert (forall r, is_Some (example_records !! r) -> sendable example_records (VModel r)) as Hm
    by by constructor.
  intros r m Hr. apply elem_of_list_to_map_2 in Hr. apply elem_of_cons in Hr as [Hr|Hr];
    [|apply elem_of_cons in Hr as [Hr|[]%elem_of_nil]]; injection Hr as -> ->; cbn.
  - split; [repeat constructor|]. constructor; [intros v [= <-]; by apply Hm; eexists|].
    constructor; [done|constructor].
  - split; [repeat constructor|]. constructor; [|constructor]. intros v [= <-].
    constructor. constructor; [by apply Hm; eexists|constructor].
Qed.

Lemma serialize_terminates_witness :
  exists j, serialize example_environment None (VModel 1) = Ok j /\
    forall fuel, (3 <= fuel)%nat ->
      serialize_internal example_environment None fuel ∅ (VModel 1) = Ok j.
Proof.
  apply (serialize_terminates example_environment None (VModel 1)).
  - exact example_sendable.
  - constructor. by eexists.
Defined.

(** The project within its own task is sent without its relationships. *)
Example cycle_is_cut :
  match serialize example_environment None (VModel 2) with
  | Ok (JObj [_; _; _; (_, JObj [(_, JArr [JObj task])])]) =>
      match obj_get "preloadedRelationships" task with
      | Some (JObj [(_, JObj project)]) => project.*1
      | _ => []
      end
  | _ => []
  end = [TYPE_KEY; "attributes"; "modelName"].
Proof. vm_compute. reflexivity. Qed.

(** An object that has the shape of a marker is not escaped: it arrives as what
    the marker stands for. *)
Example marker_shape_is_revived :
  serialize example_environment None (VObj [(TYPE_KEY, VStr "undefined")]) =
    Ok (JObj [(TYPE_KEY, JStr "undefined")]) /\
  deserialize example_environment (JObj [(TYPE_KEY, JStr "undefined")]) = Ok VUndefined.
Proof. split; vm_compute; reflexivity. Qed.

Lemma transport_roundtrip_witness :
  let v := VObj [("at", VDate (Some 1750759200000)); ("n", VArr [VUndefined; VNonFinite NotANumber]);
                 ("big", VBigInt (-12345678901234567890))] in
  exists j, serialize example_environment None v = Ok j /\ parse (stringify j) = Some j /\
    deserialize example_environment j = Ok v.
Proof.
  intros v. apply (transport_roundtrip example_environment None v). constructor.
  - cbn. split_and!; [| | |exact I]; intros kv Hkv; rewrite ?elem_of_cons, ?elem_of_nil in Hkv;
      repeat destruct Hkv as [->|Hkv]; try done.
  - cbn. set_solver.
  - repeat constructor.
Defined.
