(* ===== verification/LocalMutationLog.v ===== *)
(** * The local mutation log ([src/src/sync/local-mutation-log.js])

    The client-side log of mutations made offline: records are appended pending,
    change status as they are replayed, and terminal ones are compacted away.
    [LocalMutationLog] works over a row storage the application supplies; the
    class [RowStorage] is that adapter's contract, and everything below is proved
    against it. Every writing method runs under the lock of its storage key
    ([withStorageKeyLock]), so that a method is one step.

    A row is a JavaScript object given by the properties the code reads.
    Timestamps are ISO texts ([Dates.v]); they are compared as texts, which is the
    order of time for years of four digits. *)

From stdpp Require Import base functions gmap strings list sorting.
From Stdlib Require Import ZArith Ascii Lia.
From S2P Require Import Prelude Sql Json StableJson Dates Transport.
Open Scope Z_scope.

Abbreviation properties := (list (string * json)).

(** ** Records *)

Inductive mutation_status := Pending | AppliedLocally | PeerApplied | Conflict | Rejected | Synced.

#[export] Instance mutation_status_eq_dec : EqDecision mutation_status.
Proof. solve_decision. Defined.

Definition status_name (s : mutation_status) : string :=
  match s with
  | Pending => "pending" | AppliedLocally => "applied-locally" | PeerApplied => "peer-applied"
  | Conflict => "conflict" | Rejected => "rejected" | Synced => "synced"
  end.

Definition PENDING_STATUS_VALUES : list mutation_status := [Pending; AppliedLocally; PeerApplied].
Definition TERMINAL_STATUSES : list mutation_status := [Rejected; Synced].
Definition MUTATION_STATUSES : list mutation_status :=
  PENDING_STATUS_VALUES ++ [Conflict; Rejected; Synced].

Record dependency := { dependency_id : string; dependency_model : string }.

Record sync_mutation := {
  actorDeviceId : string;
  actorUserId : string;
  clientMutationId : string;
  mutation_model : string;
  occurredAt : string;
  offlineGrantId : string;
  operation : string;
  policyHash : string;
  mutation_attributes : option properties;
  mutation_baseVersion : option json;
  mutation_command : option string;
  mutation_payload : option properties
}.

Record log_record := {
  createdAt : string;
  dependencies : list dependency;
  id : string;
  mutation : sync_mutation;
  sequence : Z;
  status : mutation_status;
  updatedAt : string;
  signedMutation : option properties;
  syncResult : option properties
}.

(** A property as it is read: absent, or any JSON value. *)
Abbreviation property := (option json).

(** The row as the code meets it, before any check. The sequence is the one
    property whose value as a number matters. *)
Record raw_record := {
  raw_createdAt : property;
  raw_dependencies : property;
  raw_id : property;
  raw_mutation : property;
  raw_sequence : scalar;
  raw_status : property;
  raw_updatedAt : property;
  raw_signedMutation : property;
  raw_syncResult : property
}.

Inductive log_error :=
| Expected (label : string)
| UnknownStatus (status : string)
| SignedMutationMismatch
| NoRecord (id : string)
| NotPending (id : string)
| InvalidClock
| SyntaxError
| TransportError (e : transport_error)
| StorageError (message : string).

Abbreviation outcome A := (result log_error A).

(** ** Normalization *)

Definition requiredString (value : property) (label : string) : outcome string :=
  match value with
  | Some (JStr (String _ _ as s)) => Ok s
  | _ => Throw (Expected label)
  end.

Definition requiredIsoTimestamp (value : property) (label : string) : outcome string :=
  s ← requiredString value label;
  match iso_value s with Some _ => Ok s | None => Throw (Expected label) end.

Definition requiredPositiveInteger (value : scalar) (label : string) : outcome Z :=
  match as_integer value with
  | Some n => if n <? 1 then Throw (Expected label) else Ok n
  | None => Throw (Expected label)
  end.

Definition cloneBaseVersion (value : json) : outcome json :=
  match value with
  | JNull | JStr _ | JNum _ => Ok value
  | _ => Throw (Expected "baseVersion")
  end.

(** [JSON.parse(JSON.stringify(object))] *)
Definition clone_object (l : properties) : outcome properties :=
  match parse (stringify (JObj l)) with
  | Some (JObj l') => Ok l'
  | _ => Throw SyntaxError
  end.

Definition cloneJsonObject (value : json) (label : string) : outcome properties :=
  match value with
  | JObj l => clone_object l
  | _ => Throw (Expected label)
  end.

(** [if (value !== undefined) …] *)
Definition when_present {A} (value : property) (f : json -> outcome A) : outcome (option A) :=
  match value with
  | None => Ok None
  | Some v => x ← f v; Ok (Some x)
  end.

Definition normalizeMutation (value : property) : outcome sync_mutation :=
  match value with
  | Some (JObj m) =>
      device ← requiredString (obj_get "actorDeviceId" m) "actorDeviceId";
      user ← requiredString (obj_get "actorUserId" m) "actorUserId";
      client ← requiredString (obj_get "clientMutationId" m) "clientMutationId";
      model ← requiredString (obj_get "model" m) "model";
      occurred ← requiredIsoTimestamp (obj_get "occurredAt" m) "occurredAt";
      grant ← requiredString (obj_get "offlineGrantId" m) "offlineGrantId";
      op ← requiredString (obj_get "operation" m) "operation";
      policy ← requiredString (obj_get "policyHash" m) "policyHash";
      attributes ← when_present (obj_get "attributes" m) (fun v => cloneJsonObject v "attributes");
      base ← when_present (obj_get "baseVersion" m) cloneBaseVersion;
      command ← when_present (obj_get "command" m) (fun v => requiredString (Some v) "command");
      payload ← when_present (obj_get "payload" m) (fun v => cloneJsonObject v "payload");
      Ok {| actorDeviceId := device; actorUserId := user; clientMutationId := client;
            mutation_model := model; occurredAt := occurred; offlineGrantId := grant;
            operation := op; policyHash := policy; mutation_attributes := attributes;
            mutation_baseVersion := base; mutation_command := command;
            mutation_payload := payload |}
  | _ => Throw (Expected "mutation")
  end.

Definition normalize_dependency (value : json) : outcome dependency :=
  match value with
  | JObj l =>
      client ← requiredString (obj_get "clientMutationId" l) "dependency clientMutationId";
      model ← requiredString (obj_get "model" l) "dependency model";
      Ok {| dependency_id := client; dependency_model := model |}
  | _ => Throw (Expected "dependency")
  end.

(** [value.map(f)] where [f] may throw. *)
Fixpoint map_result {A B} (f : A -> outcome B) (l : list A) : outcome (list B) :=
  match l with
  | [] => Ok []
  | x :: l' => y ← f x; ys ← map_result f l'; Ok (y :: ys)
  end.

Definition normalizeDependencies (value : property) : outcome (list dependency) :=
  match value with
  | None => Ok []
  | Some (JArr l) => map_result normalize_dependency l
  | Some _ => Throw (Expected "dependencies")
  end.

Definition read_status (name : string) : outcome mutation_status :=
  match List.find (fun s => bool_decide (status_name s = name)) MUTATION_STATUSES with
  | Some s => Ok s
  | None => Throw (UnknownStatus name)
  end.

Definition normalizeRecord (raw : option raw_record) : outcome log_record :=
  match raw with
  | None => Throw (Expected "record")
  | Some r =>
      name ← requiredString (raw_status r) "status";
      st ← read_status name;
      created ← requiredIsoTimestamp (raw_createdAt r) "createdAt";
      deps ← normalizeDependencies (raw_dependencies r);
      identifier ← requiredString (raw_id r) "id";
      m ← normalizeMutation (raw_mutation r);
      n ← requiredPositiveInteger (raw_sequence r) "sequence";
      updated ← requiredIsoTimestamp (raw_updatedAt r) "updatedAt";
      signed ← when_present (raw_signedMutation r) (fun v => cloneJsonObject v "signedMutation");
      synced ← when_present (raw_syncResult r) (fun v => cloneJsonObject v "syncResult");
      Ok {| createdAt := created; dependencies := deps; id := identifier; mutation := m;
            sequence := n; status := st; updatedAt := updated;
            signedMutation := signed; syncResult := synced |}
  end.

(** ** Rows of records: what [JSON.parse(JSON.stringify(record))] gives *)

Definition clone_option (o : option properties) : outcome (option properties) :=
  match o with None => Ok None | Some l => l' ← clone_object l; Ok (Some l') end.

Definition clone_mutation (m : sync_mutation) : outcome sync_mutation :=
  attributes ← clone_option (mutation_attributes m);
  payload ← clone_option (mutation_payload m);
  Ok {| actorDeviceId := actorDeviceId m; actorUserId := actorUserId m;
        clientMutationId := clientMutationId m; mutation_model := mutation_model m;
        occurredAt := occurredAt m; offlineGrantId := offlineGrantId m;
        operation := operation m; policyHash := policyHash m;
        mutation_attributes := attributes; mutation_baseVersion := mutation_baseVersion m;
        mutation_command := mutation_command m; mutation_payload := payload |}.

Definition cloneRecord (r : log_record) : outcome log_record :=
  m ← clone_mutation (mutation r);
  signed ← clone_option (signedMutation r);
  synced ← clone_option (syncResult r);
  Ok {| createdAt := createdAt r; dependencies := dependencies r; id := id r; mutation := m;
        sequence := sequence r; status := status r; updatedAt := updatedAt r;
        signedMutation := signed; syncResult := synced |}.

(** A record as an object with its properties. *)
Definition dependency_json (d : dependency) : json :=
  JObj [("clientMutationId", JStr (dependency_id d)); ("model", JStr (dependency_model d))].

(** A property that is left out where the value is [undefined]. *)
Definition present (key : string) (value : property) : properties :=
  match value with Some v => [(key, v)] | None => [] end.

Definition mutation_members (m : sync_mutation) : properties :=
  [("actorDeviceId", JStr (actorDeviceId m)); ("actorUserId", JStr (actorUserId m));
   ("clientMutationId", JStr (clientMutationId m)); ("model", JStr (mutation_model m));
   ("occurredAt", JStr (occurredAt m)); ("offlineGrantId", JStr (offlineGrantId m));
   ("operation", JStr (operation m)); ("policyHash", JStr (policyHash m))] ++
  present "attributes" (JObj <$> mutation_attributes m) ++
  present "baseVersion" (mutation_baseVersion m) ++
  present "command" (JStr <$> mutation_command m) ++
  present "payload" (JObj <$> mutation_payload m).

Definition mutation_json (m : sync_mutation) : json := JObj (mutation_members m).

Definition raw_of_record (r : log_record) : raw_record := {|
  raw_createdAt := Some (JStr (createdAt r));
  raw_dependencies := Some (JArr (map dependency_json (dependencies r)));
  raw_id := Some (JStr (id r));
  raw_mutation := Some (mutation_json (mutation r));
  raw_sequence := of_Z (sequence r);
  raw_status := Some (JStr (status_name (status r)));
  raw_updatedAt := Some (JStr (updatedAt r));
  raw_signedMutation := JObj <$> signedMutation r;
  raw_syncResult := JObj <$> syncResult r |}.

(** ** Well-formed records *)

(** An object that is its own copy through JSON text. *)
Definition copied (o : option properties) : Prop :=
  match o with Some l => clone_object l = Ok l | None => True end.

Definition is_iso (s : string) : Prop := is_Some (iso_value s).

Record mutation_typed (m : sync_mutation) : Prop := {
  typed_names : Forall (fun s => s <> "")
    [actorDeviceId m; actorUserId m; clientMutationId m; mutation_model m;
     offlineGrantId m; operation m; policyHash m];
  typed_occurred : is_iso (occurredAt m);
  typed_attributes : copied (mutation_attributes m);
  typed_base : match mutation_baseVersion m with
               | Some (JNull | JStr _ | JNum _) | None => True
               | _ => False
               end;
  typed_command : mutation_command m <> Some "";
  typed_payload : copied (mutation_payload m)
}.

Record record_typed (r : log_record) : Prop := {
  typed_created : is_iso (createdAt r);
  typed_dependencies : Forall (fun d => dependency_id d <> "" /\ dependency_model d <> "")
    (dependencies r);
  typed_id : id r <> "";
  typed_mutation : mutation_typed (mutation r);
  typed_sequence : 1 <= sequence r;
  typed_updated : is_iso (updatedAt r);
  typed_signed : copied (signedMutation r);
  typed_result : copied (syncResult r)
}.

(** Reads a normalization that returned backwards into its checks. *)
Ltac checks :=
  repeat match goal with
  | H : (_ ≫= _) = Ok _ |- _ => apply result_bind_Ok in H as (? & ? & ?)
  | H : Ok _ = Ok _ |- _ => injection H as <-
  | H : Throw _ = Ok _ |- _ => discriminate H
  end.

Lemma requiredString_Ok v label s : requiredString v label = Ok s ->
  v = Some (JStr s) /\ s <> "".
Proof. unfold requiredString. intros H. by repeat case_match; simplify_eq. Qed.

Lemma requiredString_ok s label : s <> "" -> requiredString (Some (JStr s)) label = Ok s.
Proof. by destruct s. Qed.

Lemma requiredIsoTimestamp_Ok v label s : requiredIsoTimestamp v label = Ok s -> is_iso s.
Proof.
  unfold requiredIsoTimestamp. intros H. checks.
  destruct (iso_value x) eqn:Hi; checks. by eexists.
Qed.

Lemma is_iso_nonempty s : is_iso s -> s <> "".
Proof. intros [t Ht] ->. discriminate Ht. Qed.

Lemma requiredIsoTimestamp_ok s label : is_iso s ->
  requiredIsoTimestamp (Some (JStr s)) label = Ok s.
Proof.
  intros Hs. unfold requiredIsoTimestamp. rewrite requiredString_ok by by apply is_iso_nonempty.
  destruct Hs as [t Ht]. cbn. by rewrite Ht.
Qed.

Lemma clone_object_copied l l' : clone_object l = Ok l' -> clone_object l' = Ok l'.
Proof.
  unfold clone_object. destruct (parse (stringify (JObj l))) as [[]|] eqn:Hp; try done.
  intros [= <-]. apply parse_parsed in Hp. by rewrite parse_stringify_parsed.
Qed.

Lemma cloneJsonObject_copied v label l : cloneJsonObject v label = Ok l -> copied (Some l).
Proof. destruct v; cbn; try done. apply clone_object_copied. Qed.

Lemma when_present_copied v label o :
  when_present v (fun v => cloneJsonObject v label) = Ok o -> copied o.
Proof.
  destruct v; cbn; intros H; checks; [|done]. by eapply cloneJsonObject_copied.
Qed.

Lemma when_present_ok o label : copied o ->
  when_present (JObj <$> o) (fun v => cloneJsonObject v label) = Ok o.
Proof. destruct o as [l|]; cbn; [|done]. by intros ->. Qed.

Lemma clone_option_ok o : copied o -> clone_option o = Ok o.
Proof. destruct o as [l|]; cbn; [|done]. by intros ->. Qed.

Lemma normalizeMutation_typed v m : normalizeMutation v = Ok m -> mutation_typed m.
Proof.
  unfold normalizeMutation. intros H. repeat case_match; try discriminate. checks.
  repeat match goal with H : requiredString _ _ = Ok _ |- _ => apply requiredString_Ok in H as [_ H] end.
  split; cbn.
  - repeat constructor; done.
  - by eapply requiredIsoTimestamp_Ok.
  - by eapply when_present_copied.
  - destruct (obj_get "baseVersion" _) as [b|]; cbn in *; checks; [|done].
    by destruct b; cbn in *; checks.
  - destruct (obj_get "command" _) as [b|]; cbn [when_present] in *; checks; [|done].
    match goal with H : requiredString _ _ = Ok _ |- _ => apply requiredString_Ok in H as [_ H] end.
    congruence.
  - by eapply when_present_copied.
Qed.

Lemma mutation_get m : let get key := obj_get key (mutation_members m) in
  get "actorDeviceId" = Some (JStr (actorDeviceId m)) /\
  get "actorUserId" = Some (JStr (actorUserId m)) /\
  get "clientMutationId" = Some (JStr (clientMutationId m)) /\
  get "model" = Some (JStr (mutation_model m)) /\
  get "occurredAt" = Some (JStr (occurredAt m)) /\
  get "offlineGrantId" = Some (JStr (offlineGrantId m)) /\
  get "operation" = Some (JStr (operation m)) /\
  get "policyHash" = Some (JStr (policyHash m)) /\
  get "attributes" = JObj <$> mutation_attributes m /\
  get "baseVersion" = mutation_baseVersion m /\
  get "command" = JStr <$> mutation_command m /\
  get "payload" = JObj <$> mutation_payload m.
Proof.
  unfold mutation_members.
  destruct (mutation_attributes m), (mutation_baseVersion m), (mutation_command m),
    (mutation_payload m); split_and!; reflexivity.
Qed.

Lemma normalizeMutation_json m : mutation_typed m ->
  normalizeMutation (Some (mutation_json m)) = Ok m.
Proof.
  intros [Hn Ho Ha Hb Hc Hp]. rewrite !Forall_cons in Hn.
  destruct Hn as (H1 & H2 & H3 & H4 & H5 & H6 & H7 & _).
  destruct (mutation_get m) as (E1 & E2 & E3 & E4 & E5 & E6 & E7 & E8 & E9 & E10 & E11 & E12).
  unfold normalizeMutation, mutation_json.
  rewrite E1, E2, E3, E4, E5, E6, E7, E8, E9, E10, E11, E12.
  rewrite !requiredString_ok, requiredIsoTimestamp_ok, !when_present_ok by done.
  assert (when_present (mutation_baseVersion m) cloneBaseVersion = Ok (mutation_baseVersion m)) as ->.
  { destruct (mutation_baseVersion m) as [[]|]; done. }
  assert (when_present (JStr <$> mutation_command m)
    (fun v => requiredString (Some v) "command") = Ok (mutation_command m)) as ->.
  { destruct (mutation_command m) as [s|]; [|done].
    cbn [fmap option_fmap option_map when_present].
    rewrite requiredString_ok; [done|congruence]. }
  cbn. by destruct m.
Qed.

Lemma normalizeDependencies_typed v l : normalizeDependencies v = Ok l ->
  Forall (fun d => dependency_id d <> "" /\ dependency_model d <> "") l.
Proof.
  unfold normalizeDependencies. intros H. destruct v as [[]|]; checks; [|done].
  revert l H. induction items as [|x items IH]; cbn; intros l H; checks; [done|].
  constructor; [|by apply IH]. unfold normalize_dependency in *. destruct x; checks.
  repeat match goal with H : requiredString _ _ = Ok _ |- _ => apply requiredString_Ok in H as [_ H] end.
  done.
Qed.

Lemma normalizeDependencies_json l :
  Forall (fun d => dependency_id d <> "" /\ dependency_model d <> "") l ->
  normalizeDependencies (Some (JArr (map dependency_json l))) = Ok l.
Proof.
  cbn [normalizeDependencies]. induction 1 as [|[a b] l [H1 H2] Hl IH]; [done|].
  cbn [map map_result].
  assert (normalize_dependency (dependency_json {| dependency_id := a; dependency_model := b |}) =
    Ok {| dependency_id := a; dependency_model := b |}) as ->.
  { transitivity (client ← requiredString (Some (JStr a)) "dependency clientMutationId";
      model ← requiredString (Some (JStr b)) "dependency model";
      Ok {| dependency_id := client; dependency_model := model |} : outcome dependency);
      [reflexivity|]. by rewrite !requiredString_ok. }
  cbn [mbind result_bind]. by rewrite IH.
Qed.

Lemma read_status_name st : read_status (status_name st) = Ok st.
Proof. by destruct st. Qed.

Lemma normalizeRecord_typed raw r : normalizeRecord raw = Ok r -> record_typed r.
Proof.
  unfold normalizeRecord. intros H. destruct raw as [raw|]; [|done]. checks. split; cbn.
  - by eapply requiredIsoTimestamp_Ok.
  - by eapply normalizeDependencies_typed.
  - by match goal with H : requiredString (raw_id _) _ = Ok _ |- _ =>
      apply requiredString_Ok in H as [_ H] end.
  - by eapply normalizeMutation_typed.
  - match goal with H : requiredPositiveInteger _ _ = Ok _ |- _ =>
      unfold requiredPositiveInteger in H; repeat case_match; checks; lia end.
  - by eapply requiredIsoTimestamp_Ok.
  - by eapply when_present_copied.
  - by eapply when_present_copied.
Qed.

(** A well-formed record reads back from its row, and is its own clone. *)
Lemma normalizeRecord_raw r : record_typed r -> normalizeRecord (Some (raw_of_record r)) = Ok r.
Proof.
  intros [Hc Hd Hi Hm Hs Hu Hsi Hre]. unfold normalizeRecord. cbn [raw_of_record
    raw_status raw_createdAt raw_dependencies raw_id raw_mutation raw_sequence raw_updatedAt
    raw_signedMutation raw_syncResult].
  rewrite (requiredString_ok (status_name (status r))) by by destruct (status r). cbn [mbind result_bind].
  rewrite read_status_name. cbn [mbind result_bind].
  rewrite !requiredIsoTimestamp_ok, normalizeDependencies_json, requiredString_ok,
    normalizeMutation_json, !when_present_ok by done. cbn [mbind result_bind].
  unfold requiredPositiveInteger. rewrite as_integer_of_Z.
  rewrite (proj2 (Z.ltb_ge _ _)) by done. cbn. by destruct r.
Qed.

Lemma cloneRecord_typed r : record_typed r -> cloneRecord r = Ok r.
Proof.
  intros [Hc Hd Hi [] Hs Hu Hsi Hre]. unfold cloneRecord, clone_mutation.
  rewrite !clone_option_ok by done. cbn. by destruct r as [? ? ? []].
Qed.

(** ** The storage adapter *)

Class RowStorage (S : Type) := {
  appendRecord : string -> log_record -> ST S log_error unit;
  deleteRecords : string -> list string -> ST S log_error unit;
  storage_nextSequence : string -> ST S log_error scalar;
  storage_record : string -> string -> ST S log_error (option raw_record);
  (* [None]: the adapter returned no array *)
  storage_records : string -> option (list mutation_status) ->
    ST S log_error (option (list raw_record));
  updateRecord : string -> log_record -> ST S log_error unit
}.

(** ** The log *)

Record log_env := {
  idGenerator : nat -> string;
  now : nat -> option Z;          (* [None]: not a valid date *)
  storageKey : string;
  transport : environment
}.

Record world (S : Type) := { store : S; ticks : nat; generated : nat }.
Arguments store {S}. Arguments ticks {S}. Arguments generated {S}.
Arguments Build_world {S}.

(** A record with the typed values of its result restored. *)
Record restored := { plain_record : log_record; restored_result : option value }.

(** [`${storageKey}:${partitionKey.length}:${partitionKey}`], of an ASCII key. *)
Definition partition_key (key partitionKey : string) : option string :=
  match partitionKey with
  | "" => None
  | _ => Some (key +:+ ":" +:+ bigint_text (Z.of_nat (String.length partitionKey)) +:+ ":" +:+
               partitionKey)
  end.

Section operations.
Context {S : Type} `{!RowStorage S} (e : log_env).

Abbreviation M := (ST (world S) log_error).

Definition on_store {A} (m : ST S log_error A) : M A := fun w =>
  let '(r, s) := m (store w) in (r, Build_world s (ticks w) (generated w)).

Definition read_clock : M (option Z) := fun w =>
  (Ok (now e (ticks w)), Build_world (store w) (Datatypes.S (ticks w)) (generated w)).

Definition generate_id : M string := fun w =>
  (Ok (idGenerator e (generated w)), Build_world (store w) (ticks w) (Datatypes.S (generated w))).

Definition currentTimestamp : M string :=
  t ← read_clock;
  match t with
  | Some t => if Z.abs t <=? MAX_TIME then mret (toISOString t) else throw InvalidClock
  | None => throw InvalidClock
  end.

Definition restoreSyncResultTypes (r : log_record) : outcome restored :=
  match syncResult r with
  | None => Ok {| plain_record := r; restored_result := None |}
  | Some l =>
      match deserialize (transport e) (JObj l) with
      | Ok v => Ok {| plain_record := r; restored_result := Some v |}
      | Throw err => Throw (TransportError err)
      end
  end.

Definition by_sequence : relation log_record := by_key Z.le sequence.

Definition normalizeRecordList (found : option (list raw_record)) : outcome (list restored) :=
  match found with
  | None => Throw (Expected "records")
  | Some l =>
      normalized ← map_result (fun raw => normalizeRecord (Some raw)) l;
      cloned ← map_result cloneRecord (merge_sort by_sequence normalized);
      map_result restoreSyncResultTypes cloned
  end.

Definition records : M (list restored) :=
  found ← on_store (storage_records (storageKey e) None);
  lift_result (normalizeRecordList found).

Definition pendingRecords : M (list restored) :=
  found ← on_store (storage_records (storageKey e) (Some PENDING_STATUS_VALUES));
  lift_result (normalizeRecordList found).

(** The envelope signs the mutation that is appended. *)
Definition signs (signed : option properties) (m : json) : bool :=
  match signed with
  | None => true
  | Some l =>
      match obj_get "mutation" l with
      | Some inner => bool_decide (stableJsonStringify inner = stableJsonStringify m)
      | None => false
      end
  end.

Definition append (deps : property) (m : json) (signed : option properties) : M log_record :=
  if negb (signs signed m) then throw SignedMutationMismatch else
  timestamp ← currentTimestamp;
  identifier ← generate_id;
  n ← on_store (storage_nextSequence (storageKey e));
  r ← lift_result (normalizeRecord (Some {|
    raw_createdAt := Some (JStr timestamp);
    raw_dependencies := match deps with Some d => Some d | None => Some (JArr []) end;
    raw_id := Some (JStr identifier);
    raw_mutation := Some m;
    raw_sequence := n;
    raw_status := Some (JStr (status_name Pending));
    raw_updatedAt := Some (JStr timestamp);
    raw_signedMutation := JObj <$> signed;
    raw_syncResult := None |}));
  cloned ← lift_result (cloneRecord r);
  _ ← on_store (appendRecord (storageKey e) cloned);
  lift_result (cloneRecord r).

(** [{...record, status, syncResult, updatedAt}] and [{...record, mutation, updatedAt}] *)
Definition with_status (r : log_record) (st : mutation_status) (res : option properties)
    (at_time : string) : log_record := {|
  createdAt := createdAt r; dependencies := dependencies r; id := id r; mutation := mutation r;
  sequence := sequence r; status := st; updatedAt := at_time; signedMutation := signedMutation r;
  syncResult := match res with Some _ => res | None => syncResult r end |}.

Definition with_mutation (r : log_record) (m : sync_mutation) (at_time : string) : log_record := {|
  createdAt := createdAt r; dependencies := dependencies r; id := id r; mutation := m;
  sequence := sequence r; status := status r; updatedAt := at_time;
  signedMutation := signedMutation r; syncResult := syncResult r |}.

(** [const rawRecord = await this.storage.record(…)], which must exist. *)
Definition find_record (identifier : string) : M log_record :=
  raw ← on_store (storage_record (storageKey e) identifier);
  match raw with
  | None => throw (NoRecord identifier)
  | Some _ => lift_result (normalizeRecord raw)
  end.

(** [cloneJsonObject(serializeFrontendModelTransportValue(syncResult), …)] *)
Definition encode_result (v : value) : outcome properties :=
  match serialize (transport e) None v with
  | Ok j => cloneJsonObject j "syncResult"
  | Throw err => Throw (TransportError err)
  end.

(** [await this.storage.updateRecord(…)] and the record that is returned. *)
Definition store_record (r : log_record) : M restored :=
  cloned ← lift_result (cloneRecord r);
  _ ← on_store (updateRecord (storageKey e) cloned);
  again ← lift_result (cloneRecord r);
  lift_result (restoreSyncResultTypes again).

Definition updateStatus (identifier name : string) (result : option value) : M restored :=
  st ← lift_result (read_status name);
  r ← find_record identifier;
  res ← lift_result (match result with
                     | None => Ok None
                     | Some v => l ← encode_result v; Ok (Some l)
                     end);
  timestamp ← currentTimestamp;
  store_record (with_status r st res timestamp).

Definition is_pending (st : mutation_status) : bool := bool_decide (st ∈ PENDING_STATUS_VALUES).

Definition updateMutation (identifier : string) (m : json) : M restored :=
  r ← find_record identifier;
  if negb (is_pending (status r)) then throw (NotPending identifier) else
  normalized ← lift_result (normalizeMutation (Some m));
  timestamp ← currentTimestamp;
  store_record (with_mutation r normalized timestamp).

(** ** Compaction *)

(** [compareRecordsNewestFirst]: the later text first, then the higher sequence. *)
Definition newest_first : relation log_record :=
  then_by (by_key (flip String.le) updatedAt) (by_key (flip Z.le) sequence).

#[export] Instance flip_string_dec : RelDecision (flip String.le).
Proof. intros a b. unfold flip. apply _. Defined.
#[export] Instance flip_Z_dec : RelDecision (flip Z.le).
Proof. intros a b. unfold flip. apply _. Defined.

Definition still_replayed (r : log_record) : bool :=
  is_pending (status r) || bool_decide (status r = Conflict).

Definition protected_ids (l : list log_record) : list string :=
  flat_map (fun r => map dependency_id (dependencies r)) (List.filter still_replayed l).

Definition is_terminal (r : log_record) : bool := bool_decide (status r ∈ TERMINAL_STATUSES).

Definition prunable (l : list log_record) (r : log_record) : bool :=
  is_terminal r && negb (bool_decide (clientMutationId (mutation r) ∈ protected_ids l)).

(** [set.add(id)], the set in order of insertion. *)
Definition add_id (ids : list string) (r : log_record) : list string :=
  if decide (id r ∈ ids) then ids else ids ++ [id r].

Definition older_than (cutoff : option Z) (r : log_record) : bool :=
  match cutoff, iso_value (updatedAt r) with
  | Some c, Some t => t <? c
  | _, _ => false
  end.

Definition compact (maxTerminalRecords terminalRetentionMs : option Z) : M (list string) :=
  found ← records;
  let l := map plain_record found in
  let terminalRecords := merge_sort newest_first (List.filter (prunable l) l) in
  let by_count :=
    match maxTerminalRecords with
    | Some n => if 0 <=? n then drop (Z.to_nat n) terminalRecords else []
    | None => []
    end in
  by_age ← (match terminalRetentionMs with
            | Some ms =>
                if 0 <=? ms then
                  t ← read_clock;
                  mret (List.filter (older_than (t ← t; Some (t - ms))) terminalRecords)
                else mret []
            | None => mret []
            end : M (list log_record));
  let deletedRecordIds := fold_left add_id (by_count ++ by_age) [] in
  match deletedRecordIds with
  | [] => mret []
  | _ => _ ← on_store (deleteRecords (storageKey e) deletedRecordIds); mret deletedRecordIds
  end.

End operations.
