(* ===== verification/LocalMutationLogCorrect.v ===== *)
(** * The local mutation log: correctness

    [LocalMutationLog.v] is proved here against the contract of its row storage
    ([RowStorageLaws]): the view of a store as one map of records per storage key,
    and what each call of the adapter does to it. A call of the log that returns
    is a step of an abstract log ([log_step]), one that throws changes nothing
    (but for a result that cannot be restored, which is already stored), and the
    records of the key stay well formed and numbered apart. [Rows] is an adapter
    that keeps the contract. *)

From stdpp Require Import base functions gmap strings list sorting pretty.
From Stdlib Require Import ZArith Ascii Lia.
From S2P Require Import Prelude Sql Json StableJson Dates Transport LocalMutationLog.
Open Scope Z_scope.

Abbreviation log_table := (gmap string log_record).

(** ** The contract of the row storage *)

Class RowView (S : Type) := rows : S -> string -> log_table.

Section contract.
Context {S : Type} `{!RowView S}.

Definition unchanged (s s' : S) : Prop :=
  forall k, rows s' k = rows s k.

(** The rows of [key] become [L]; nothing else changes. *)
Definition written (key : string) (L : log_table) (s s' : S) : Prop :=
  rows s' key = L /\ forall k, k <> key -> rows s' k = rows s k.

Definition well_typed (L : log_table) : Prop := map_Forall (fun _ => record_typed) L.

(** The value a call returns and the store it leaves; one that throws has
    changed nothing. *)
Definition calls {A} (m : ST S log_error A) (Q : A -> S -> Prop) (s : S) : Prop :=
  ends m (fun r s' => match r with Ok a => Q a s' | Throw _ => unchanged s s' end) s.
End contract.

Definition records_of (L : log_table) : list log_record := (map_to_list L).*2.

Definition in_statuses (statuses : option (list mutation_status)) (r : log_record) : bool :=
  match statuses with None => true | Some l => bool_decide (status r ∈ l) end.

Class RowStorageLaws (S : Type) `{!RowStorage S, !RowView S} := {
  append_law key r s : rows s key !! id r = None ->
    calls (appendRecord key r) (fun _ => written key (<[id r := r]> (rows s key)) s) s;
  delete_law key ids s :
    calls (deleteRecords key ids)
      (fun _ => written key (filter (fun kv => kv.1 ∉ ids) (rows s key)) s) s;
  sequence_law key s :
    calls (storage_nextSequence key) (fun v s' => exists n, v = of_Z n /\
      (forall i r, rows s key !! i = Some r -> sequence r < n) /\ unchanged s s') s;
  record_law key i s : well_typed (rows s key) ->
    calls (storage_record key i)
      (fun found s' => found = raw_of_record <$> rows s key !! i /\ unchanged s s') s;
  records_law key statuses s : well_typed (rows s key) ->
    calls (storage_records key statuses) (fun found s' => exists l,
      found = Some (map raw_of_record l) /\
      l ≡ₚ List.filter (in_statuses statuses) (records_of (rows s key)) /\ unchanged s s') s;
  update_law key r s : is_Some (rows s key !! id r) ->
    calls (updateRecord key r) (fun _ => written key (<[id r := r]> (rows s key)) s) s
}.

(** ** Lists of records *)

Lemma map_result_Ok {A B} (f : A -> outcome B) (g : A -> B) l :
  Forall (fun x => f x = Ok (g x)) l -> map_result f l = Ok (map g l).
Proof. induction 1 as [|x l Hx Hl IH]; [done|]. cbn. rewrite Hx. cbn. by rewrite IH. Qed.

Lemma map_result_inv {A B} (f : A -> outcome B) l ys :
  map_result f l = Ok ys -> Forall2 (fun x y => f x = Ok y) l ys.
Proof.
  revert ys. induction l as [|x l IH]; cbn; intros ys H; checks; [constructor|].
  constructor; [done|]. by apply IH.
Qed.

Lemma records_of_lookup L r : (forall i x, L !! i = Some x -> id x = i) ->
  r ∈ records_of L <-> L !! id r = Some r.
Proof.
  intros Hid. unfold records_of. rewrite list_elem_of_fmap. split.
  - intros ([i x] & -> & Hx%elem_of_map_to_list). cbn in *. by rewrite (Hid _ _ Hx).
  - intros H. exists (id r, r). split; [done|]. by apply elem_of_map_to_list.
Qed.

Lemma records_of_typed L : well_typed L -> Forall record_typed (records_of L).
Proof.
  intros HL. apply Forall_fmap, Forall_forall. intros [i r] Hr%elem_of_map_to_list.
  exact (HL _ _ Hr).
Qed.

Lemma elem_of_List_filter {A} (f : A -> bool) l x :
  x ∈ List.filter f l <-> f x = true /\ x ∈ l.
Proof. rewrite !list_elem_of_In, List.filter_In. tauto. Qed.

Lemma List_filter_NoDup {A} (f : A -> bool) l : NoDup l -> NoDup (List.filter f l).
Proof.
  induction 1 as [|x l Hx Hl IH]; [constructor|]. cbn. destruct (f x); [|done].
  constructor; [|done]. rewrite elem_of_List_filter. tauto.
Qed.

(** ** The abstract log *)

(** A terminal record that no record still to be replayed depends on. *)
Definition expendable (L : log_table) (r : log_record) : Prop :=
  status r ∈ TERMINAL_STATUSES /\
  forall i r', L !! i = Some r' -> still_replayed r' = true ->
    clientMutationId (mutation r) ∉ map dependency_id (dependencies r').

(** The terminal records past the newest [maximum]. *)
Definition excess (maximum : option Z) (terms : list log_record) : list log_record :=
  match maximum with
  | Some n => if 0 <=? n then drop (Z.to_nat n) terms else []
  | None => []
  end.

(** At the time [clock], the record is older than [retention] milliseconds. *)
Definition outlived (retention clock : option Z) (r : log_record) : Prop :=
  match retention, clock with
  | Some ms, Some t => 0 <= ms /\ exists u, iso_value (updatedAt r) = Some u /\ u < t - ms
  | _, _ => False
  end.

(** The ids a compaction at the time [clock] deletes from [L]: those of the
    expendable records that are past the newest [maximum] or outlived. *)
Definition prunes_exactly (maximum retention clock : option Z) (L : log_table)
    (ids : list string) : Prop :=
  exists terms, NoDup terms /\ StronglySorted newest_first terms /\
    (forall r, r ∈ terms <-> L !! id r = Some r /\ expendable L r) /\ NoDup ids /\
    forall i, i ∈ ids <-> exists r, id r = i /\ r ∈ terms /\
      (r ∈ excess maximum terms \/ outlived retention clock r).

Inductive log_call :=
| Append (deps : property) (m : json) (signed : option properties)
| UpdateStatus (identifier name : string) (res : option value)
| UpdateMutation (identifier : string) (m : json)
| Compact (maxTerminalRecords terminalRetentionMs : option Z)
| Records
| PendingRecords.

Inductive log_answer :=
| Appended (r : log_record)
| Updated (r : restored)
| Deleted (ids : list string)
| Listed (l : list restored).

(** The records a query lists, in the order of their numbers. *)
Definition lists_records (e : log_env) (statuses : option (list mutation_status)) (L : log_table)
    (l : list restored) : Prop :=
  Sorted (fun a b => sequence a < sequence b) (map plain_record l) /\
  map plain_record l ≡ₚ List.filter (in_statuses statuses) (records_of L) /\
  Forall (fun x => restoreSyncResultTypes e (plain_record x) = Ok x) l.

(** What the arguments of a status change write for the result. *)
Definition encodes (e : log_env) (res : option value) (o : option properties) : Prop :=
  match res, o with
  | None, None => True
  | Some v, Some l => encode_result e v = Ok l
  | _, _ => False
  end.

Inductive log_step (e : log_env) (L : log_table) : log_call -> log_answer -> log_table -> Prop :=
| logs_mutation deps m signed r :
    signs signed m = true ->
    normalizeMutation (Some m) = Ok (mutation r) ->
    normalizeDependencies (Some (default (JArr []) deps)) = Ok (dependencies r) ->
    status r = Pending -> syncResult r = None -> updatedAt r = createdAt r ->
    L !! id r = None -> (forall i x, L !! i = Some x -> sequence x < sequence r) ->
    log_step e L (Append deps m signed) (Appended r) (<[id r := r]> L)
| changes_status i name res st r o at_time x :
    L !! i = Some r -> read_status name = Ok st -> encodes e res o ->
    plain_record x = with_status r st o at_time ->
    log_step e L (UpdateStatus i name res) (Updated x) (<[i := plain_record x]> L)
| changes_mutation i m m' r at_time x :
    L !! i = Some r -> status r ∈ PENDING_STATUS_VALUES -> normalizeMutation (Some m) = Ok m' ->
    plain_record x = with_mutation r m' at_time ->
    log_step e L (UpdateMutation i m) (Updated x) (<[i := plain_record x]> L)
| prunes maximum retention clock ids : prunes_exactly maximum retention clock L ids ->
    log_step e L (Compact maximum retention) (Deleted ids) (filter (fun kv => kv.1 ∉ ids) L)
| lists_all l : lists_records e None L l -> log_step e L Records (Listed l) L
| lists_pending l : lists_records e (Some PENDING_STATUS_VALUES) L l ->
    log_step e L PendingRecords (Listed l) L.

Section calls.
Context {S : Type} `{!RowStorage S} (e : log_env).

Definition run_call (c : log_call) : ST (world S) log_error log_answer :=
  match c with
  | Append deps m signed => r ← append e deps m signed; mret (Appended r)
  | UpdateStatus i name res => x ← updateStatus e i name res; mret (Updated x)
  | UpdateMutation i m => x ← updateMutation e i m; mret (Updated x)
  | Compact maximum retention => ids ← compact e maximum retention; mret (Deleted ids)
  | Records => l ← records e; mret (Listed l)
  | PendingRecords => l ← pendingRecords e; mret (Listed l)
  end.
End calls.

(** ** Ordered lists *)

#[export] Instance newest_text_total : Total (flip String.le).
Proof. intros a b. unfold flip. destruct (total String.le a b); auto. Qed.
#[export] Instance newest_text_trans : Transitive (flip String.le).
Proof. intros a b c Hab Hbc. unfold flip in *. by trans b. Qed.
#[export] Instance highest_number_total : Total (flip Z.le).
Proof. intros a b. unfold flip. lia. Qed.
#[export] Instance highest_number_trans : Transitive (flip Z.le).
Proof. intros a b c. unfold flip. lia. Qed.

Lemma strictly_sorted l : StronglySorted by_sequence l -> NoDup l ->
  (forall a b, a ∈ l -> b ∈ l -> sequence a = sequence b -> a = b) ->
  Sorted (fun a b => sequence a < sequence b) l.
Proof.
  intros Hs Hn Hd. apply StronglySorted_Sorted.
  induction Hs as [|a l Hs IH Ha]; [constructor|]. apply NoDup_cons in Hn as [Hal Hn].
  constructor.
  - apply IH; [done|]. intros x y Hx Hy. apply Hd; by right.
  - apply Forall_forall. intros b Hb. rewrite Forall_forall in Ha. specialize (Ha b Hb).
    unfold by_sequence, by_key in Ha.
    assert (sequence a <> sequence b); [|lia].
    intros Heq. apply Hal. rewrite (Hd a b); [done|by left|by right|done].
Qed.

Lemma records_of_NoDup L : (forall i r, L !! i = Some r -> id r = i) -> NoDup (records_of L).
Proof.
  intros Hid. apply NoDup_fmap_2_strong; [|apply NoDup_map_to_list].
  intros [i x] [j y] Hx%elem_of_map_to_list Hy%elem_of_map_to_list. cbn. intros ->.
  by rewrite <- (Hid _ _ Hx), <- (Hid _ _ Hy).
Qed.

Lemma prunable_spec L l r : (forall x, x ∈ l <-> L !! id x = Some x) ->
  (forall i x, L !! i = Some x -> id x = i) ->
  prunable l r = true <-> expendable L r.
Proof.
  intros Hl Hid. unfold prunable, is_terminal, expendable.
  rewrite andb_true_iff, negb_true_iff, bool_decide_eq_true, bool_decide_eq_false.
  apply and_iff_compat_l. unfold protected_ids. rewrite list_elem_of_In, in_flat_map. split.
  - intros H i x Hx Hr Hin. apply H. exists x. rewrite List.filter_In, <- !list_elem_of_In, Hl.
    split; [|done]. split; [|done]. by rewrite (Hid _ _ Hx).
  - intros H (x & Hx & Hin). rewrite List.filter_In, <- list_elem_of_In, Hl in Hx.
    destruct Hx as [Hx Hr]. rewrite <- list_elem_of_In in Hin. by eapply H.
Qed.

Lemma add_ids_spec rs ids : let out := fold_left add_id rs ids in
  (forall i, i ∈ out <-> i ∈ ids \/ exists r, r ∈ rs /\ id r = i) /\ (NoDup ids -> NoDup out).
Proof.
  revert ids. induction rs as [|r rs IH]; intros ids; cbn.
  - split; [|done]. intros i. split; [auto|]. intros [?|(r & []%elem_of_nil & _)]; done.
  - destruct (IH (add_id ids r)) as [Hin Hnd]. split.
    + intros i. rewrite Hin. unfold add_id. case_decide as Hr.
      * split; [|set_solver]. intros [?|(x & ? & ?)]; [by left|right]. exists x. set_solver.
      * rewrite elem_of_app, list_elem_of_singleton. split.
        -- intros [[?| ->]|(x & ? & ?)]; [by left| |]; right; eexists; (split; [|done]); set_solver.
        -- intros [?|(x & [->|?]%elem_of_cons & ?)]; [auto|subst; auto|right; eauto].
    + intros Hn. apply Hnd. unfold add_id. case_decide; [done|].
      apply NoDup_app. split_and!; [done| |apply NoDup_singleton].
      intros i Hi ->%list_elem_of_singleton. done.
Qed.

(** ** The invariant *)

Section correct.
Context {S : Type} `{!RowStorage S, !RowView S, !RowStorageLaws S} (e : log_env).
Context (fresh_ids : forall a b, idGenerator e a = idGenerator e b -> a = b).

Abbreviation key := (storageKey e).
Abbreviation table w := (rows (store w) key).
Abbreviation W := (world S).

Record log_ok (w : W) : Prop := {
  ok_id : forall i r, table w !! i = Some r -> id r = i;
  ok_typed : well_typed (table w);
  ok_distinct : forall i j r r', table w !! i = Some r -> table w !! j = Some r' ->
    sequence r = sequence r' -> i = j;
  ok_generated : forall i r, table w !! i = Some r ->
    exists n, (n < generated w)%nat /\ i = idGenerator e n
}.

(** Every key has its rows of [w]; ids may have been generated. *)
Record same_rows (w w' : W) : Prop := {
  same_table : forall k, rows (store w') k = rows (store w) k;
  same_generated : (generated w <= generated w')%nat
}.

#[export] Instance same_rows_preorder : PreOrder same_rows.
Proof.
  split; [done|]. intros a b c [H1 H2] [H3 H4]. split; [|lia]. intros k. by rewrite H3.
Qed.

Lemma log_ok_same w w' : log_ok w -> same_rows w w' -> log_ok w'.
Proof.
  intros [Hi Ht Hd Hg] [Hk Hn]. split; rewrite Hk; try done.
  intros i r Hr. destruct (Hg i r Hr) as (n & ? & ->). exists n. split; [lia|done].
Qed.

(** The rows of the key after a write, with the invariant. *)
Definition moved (L : log_table) (w w' : W) : Prop :=
  log_ok w' /\ table w' = L /\ forall k, k <> key -> rows (store w') k = rows (store w) k.

Lemma moved_same w w' : log_ok w -> same_rows w w' -> moved (table w) w w'.
Proof.
  intros Hw Hs. split_and!; [by eapply log_ok_same| |intros]; apply Hs.
Qed.

Lemma moved_after w w1 w2 L : same_rows w w1 -> moved L w1 w2 -> moved L w w2.
Proof.
  intros Hs (H1 & H2 & H3). split_and!; [done..|]. intros k Hk. rewrite H3 by done. apply Hs.
Qed.

(** ** The statements of the methods *)

(** A call of the adapter from the log. *)
Lemma on_store_calls {A} (m : ST S log_error A) (Q : A -> S -> Prop) w : calls m Q (store w) ->
  ends (on_store m) (fun r w' => generated w' = generated w /\
    match r with Ok a => Q a (store w') | Throw _ => unchanged (store w) (store w') end) w.
Proof.
  unfold calls, ends, on_store. destruct (m (store w)) as [[a|err] s']; cbn; auto.
Qed.

Lemma unchanged_same w w' : generated w' = generated w -> unchanged (store w) (store w') ->
  same_rows w w'.
Proof. intros Hg Hu. split; [apply Hu|by rewrite Hg]. Qed.

(** A value [Q], and the rows as they are. *)
Definition idled {A} (Q : A -> W -> Prop) (w : W) (r : outcome A) (w' : W) : Prop :=
  same_rows w w' /\ match r with Ok a => Q a w' | Throw _ => True end.

Definition idles {A} (m : ST W log_error A) (Q : A -> W -> Prop) (w : W) : Prop :=
  ends m (idled Q w) w.

Lemma currentTimestamp_idles w : idles (currentTimestamp e) (fun t _ => is_iso t) w.
Proof.
  unfold idles, currentTimestamp. apply ends_bind. unfold ends, read_clock. cbn.
  assert (same_rows w (Build_world (store w) (Datatypes.S (ticks w)) (generated w))) by done.
  destruct (now e (ticks w)) as [t|]; [|done].
  destruct (Z.leb_spec (Z.abs t) MAX_TIME); [|done].
  split; [done|]. eexists. by apply iso_value_toISOString.
Qed.

Lemma find_record_idles i w : log_ok w ->
  idles (find_record e i) (fun r _ => table w !! i = Some r) w.
Proof.
  intros Hw. unfold idles, find_record. eapply ends_step.
  - apply on_store_calls, record_law, Hw.
  - intros raw w1 (Hg & -> & Hu). pose proof (unchanged_same _ _ Hg Hu) as Hs.
    destruct (table w !! i) as [r|] eqn:Hr; [|by split].
    split; [done|]. cbn [fmap option_fmap option_map]. rewrite normalizeRecord_raw; [done|].
    by apply (ok_typed _ Hw i).
  - intros err w1 [Hg Hu]. split; [|done]. by apply unchanged_same.
Qed.

Lemma generate_id_idles w : idles (generate_id e)
  (fun i w' => exists n, i = idGenerator e n /\ (generated w <= n < generated w')%nat) w.
Proof.
  unfold idles, idled, ends, generate_id. cbn. split; [split; cbn; lia || done|].
  exists (generated w). split; [done|lia].
Qed.

Lemma nextSequence_idles w : idles (on_store (storage_nextSequence key))
  (fun v _ => exists n, v = of_Z n /\ forall i r, table w !! i = Some r -> sequence r < n) w.
Proof.
  unfold idles. eapply ends_mono; [apply on_store_calls, sequence_law|].
  intros [v|err] w1 [Hg H].
  - destruct H as (n & -> & Hn & Hu). split; [by apply unchanged_same|]. by exists n.
  - split; [|done]. by apply unchanged_same.
Qed.

(** ** Writes keep the invariant *)

Lemma moved_update w w' r old : log_ok w -> table w !! id r = Some old -> record_typed r ->
  sequence r = sequence old -> generated w' = generated w ->
  written key (<[id r := r]> (table w)) (store w) (store w') ->
  moved (<[id r := r]> (table w)) w w'.
Proof.
  intros Hw Hold Hr Hs Hg (HL & Hother). split_and!; [|done..].
  assert (forall i x, <[id r := r]> (table w) !! i = Some x ->
    exists y, table w !! i = Some y /\ sequence x = sequence y /\ id x = i) as Hback.
  { intros i x. rewrite lookup_insert_Some. intros [[<- <-]|[_ Hx]]; [by eauto|].
    exists x. split_and!; [done..|]. by eapply ok_id. }
  destruct Hw as [Hi Ht Hd Hgen]. split; rewrite HL.
  - intros i x Hx. by destruct (Hback i x Hx) as (? & ? & ? & ?).
  - by apply map_Forall_insert_2.
  - intros i j x x' Hx Hx'. destruct (Hback i x Hx) as (y & Hy & -> & _).
    destruct (Hback j x' Hx') as (y' & Hy' & -> & _). by apply Hd.
  - intros i x Hx. rewrite Hg. destruct (Hback i x Hx) as (y & Hy & _). by eapply Hgen.
Qed.

Lemma moved_append w w1 w' r n : log_ok w -> same_rows w w1 ->
  record_typed r -> id r = idGenerator e n -> (generated w <= n < generated w1)%nat ->
  (forall i x, table w !! i = Some x -> sequence x < sequence r) ->
  generated w' = generated w1 ->
  written key (<[id r := r]> (table w1)) (store w1) (store w') ->
  moved (<[id r := r]> (table w)) w w'.
Proof.
  intros Hw Hs Hr Hid Hn Hseq Hg (HL & Hother).
  split_and!; [|by rewrite HL, (same_table _ _ Hs)|intros k Hk; rewrite Hother by done; apply Hs].
  rewrite (same_table _ _ Hs) in HL. pose proof (same_generated _ _ Hs).
  destruct Hw as [Hi Ht Hd Hgen]. split; rewrite HL.
  - intros i x. rewrite lookup_insert_Some. intros [[<- <-]|[_ Hx]]; auto.
  - by apply map_Forall_insert_2.
  - intros i j x x'. rewrite !lookup_insert_Some.
    intros [[<- <-]|[? Hx]] [[<- <-]|[? Hx']] Heq; [done| | |by eapply Hd].
    + specialize (Hseq j x' Hx'). lia.
    + specialize (Hseq i x Hx). lia.
  - intros i x. rewrite Hg, lookup_insert_Some. intros [[<- _]|[_ Hx]].
    + exists n. split; [lia|done].
    + destruct (Hgen i x Hx) as (m & ? & ->). exists m. split; [lia|done].
Qed.

Lemma moved_delete w w1 w' (ids : list string) : log_ok w -> same_rows w w1 -> generated w' = generated w1 ->
  written key (filter (fun kv => kv.1 ∉ ids) (table w1)) (store w1) (store w') ->
  moved (filter (fun kv => kv.1 ∉ ids) (table w)) w w'.
Proof.
  intros Hw Hs Hg (HL & Hother).
  split_and!; [|by rewrite HL, (same_table _ _ Hs)|intros k Hk; rewrite Hother by done; apply Hs].
  rewrite (same_table _ _ Hs) in HL. pose proof (log_ok_same _ _ Hw Hs) as [Hi Ht Hd Hgen].
  rewrite (same_table _ _ Hs) in Hi, Ht, Hd, Hgen. split; rewrite HL.
  - intros i r [H _]%map_lookup_filter_Some. auto.
  - intros i r [H _]%map_lookup_filter_Some. by apply (Ht i).
  - intros i j r r' [H _]%map_lookup_filter_Some [H' _]%map_lookup_filter_Some. eauto.
  - intros i r [H _]%map_lookup_filter_Some. rewrite Hg. eauto.
Qed.

(** ** What a method ends with *)

(** It returns with its step of the log, or throws: then nothing is changed, or
    the step is made but its answer could not be restored. *)
Definition done_or_thrown {A} (Q : A -> log_table -> Prop) (w : W) (res : outcome A) (w' : W) : Prop :=
  match res with
  | Ok a => exists L, Q a L /\ moved L w w'
  | Throw err => same_rows w w' \/
      exists te a L, err = TransportError te /\ Q a L /\ moved L w w'
  end.

Definition does {A} (m : ST W log_error A) (Q : A -> log_table -> Prop) (w : W) : Prop :=
  ends m (done_or_thrown Q w) w.

Lemma idles_step {A B} (m : ST W log_error A) (k : A -> ST W log_error B) P Q w :
  idles m P w ->
  (forall a w', P a w' -> same_rows w w' -> does (k a) Q w') -> does (m ≫= k) Q w.
Proof.
  intros Hm Hk. eapply ends_step; [exact Hm| |].
  - intros a w1 [Hs Ha]. eapply ends_mono; [by apply (Hk a w1)|]. intros [b|err] w2.
    + intros (L & HQ & Hmoved). exists L. split; [done|]. by eapply moved_after.
    + intros [Hs'|(te & a' & L & -> & HQ & Hmoved)]; [left; by etrans|right].
      exists te, a', L. split_and!; [done..|]. by eapply moved_after.
  - intros err w1 [Hs _]. by left.
Qed.

Lemma does_lift {A B} (r : outcome A) (k : A -> ST W log_error B) Q w :
  (forall a, r = Ok a -> does (k a) Q w) -> does (lift_result r ≫= k) Q w.
Proof. intros Hk. apply ends_bind, ends_lift. destruct r as [a|err]; [by apply Hk|by left]. Qed.

Lemma does_throw {A} err (Q : A -> log_table -> Prop) w : does (throw err) Q w.
Proof. by left. Qed.

Lemma store_record_does r old w : log_ok w -> table w !! id r = Some old -> record_typed r ->
  sequence r = sequence old ->
  does (store_record e r) (fun x L => plain_record x = r /\ L = <[id r := r]> (table w)) w.
Proof.
  intros Hw Hold Hr Hs. unfold store_record. apply does_lift. intros c Hc.
  rewrite cloneRecord_typed in Hc by done. injection Hc as <-.
  eapply ends_step; [apply on_store_calls, update_law; by eexists| |].
  - intros [] w1 [Hg Hwr]. pose proof (moved_update _ _ _ _ Hw Hold Hr Hs Hg Hwr) as Hmoved.
    rewrite cloneRecord_typed by done. apply ends_bind, ends_lift, ends_lift.
    destruct (restoreSyncResultTypes e r) as [x|err] eqn:Hx.
    + exists (<[id r := r]> (table w)). split; [|done]. split; [|done].
      unfold restoreSyncResultTypes in Hx. repeat case_match; by simplify_eq.
    + right. unfold restoreSyncResultTypes in Hx. repeat case_match; simplify_eq.
      eexists _, {| plain_record := r; restored_result := None |}, _. done.
  - intros err w1 [Hg Hu]. left. by apply unchanged_same.
Qed.

Lemma moved_from w w1 w2 L : same_rows w w1 -> moved L w w2 -> moved L w1 w2.
Proof.
  intros Hs (H1 & H2 & H3). split_and!; [done..|]. intros k Hk. rewrite H3 by done.
  symmetry. apply Hs.
Qed.

(** ** Each method makes its step *)

Lemma requiredString_str s label a : requiredString (Some (JStr s)) label = Ok a -> a = s.
Proof. by intros [[= ->] _]%requiredString_Ok. Qed.

Lemma requiredPositiveInteger_of_Z n label a :
  requiredPositiveInteger (of_Z n) label = Ok a -> a = n.
Proof. unfold requiredPositiveInteger. rewrite as_integer_of_Z. by case_match; intros [= ->]. Qed.

(** The record [append] builds. *)
Lemma normalizeRecord_appended timestamp deps identifier m n signed r :
  normalizeRecord (Some {|
    raw_createdAt := Some (JStr timestamp);
    raw_dependencies := match deps with Some d => Some d | None => Some (JArr []) end;
    raw_id := Some (JStr identifier); raw_mutation := Some m; raw_sequence := of_Z n;
    raw_status := Some (JStr (status_name Pending)); raw_updatedAt := Some (JStr timestamp);
    raw_signedMutation := JObj <$> signed; raw_syncResult := None |}) = Ok r ->
  normalizeMutation (Some m) = Ok (mutation r) /\
  normalizeDependencies (Some (default (JArr []) deps)) = Ok (dependencies r) /\
  id r = identifier /\ sequence r = n /\ status r = Pending /\ syncResult r = None /\
  updatedAt r = createdAt r.
Proof.
  unfold normalizeRecord. cbn [raw_createdAt raw_dependencies raw_id raw_mutation raw_sequence
    raw_status raw_updatedAt raw_signedMutation raw_syncResult]. intros H. checks. cbn.
  repeat match goal with
  | H : requiredIsoTimestamp (Some (JStr _)) _ = Ok _ |- _ =>
      unfold requiredIsoTimestamp in H; checks
  | H : context [match iso_value ?s with _ => _ end] |- _ => destruct (iso_value s); checks
  | H : requiredString (Some (JStr _)) _ = Ok _ |- _ => apply requiredString_str in H; subst
  | H : requiredPositiveInteger _ _ = Ok _ |- _ => apply requiredPositiveInteger_of_Z in H; subst
  end.
  split_and!; try done.
  - by destruct deps.
  - rewrite read_status_name in *. by simplify_eq.
  - cbn in *. by checks.
Qed.

Lemma append_does deps m signed w : log_ok w ->
  does (append e deps m signed)
    (fun r => log_step e (table w) (Append deps m signed) (Appended r)) w.
Proof.
  intros Hw. unfold append. destruct (signs signed m) eqn:Hsigns; [|apply does_throw]. cbn [negb].
  eapply idles_step; [apply currentTimestamp_idles|]. intros timestamp w1 _ Hs1.
  eapply idles_step; [apply generate_id_idles|]. intros identifier w2 (k & -> & Hk) Hs2.
  eapply idles_step; [apply nextSequence_idles|]. intros v w3 (n & -> & Hn) Hs3.
  apply does_lift. intros r Hr. pose proof (normalizeRecord_typed _ _ Hr) as Htyped.
  apply normalizeRecord_appended in Hr as (Hm & Hd & Hi & Hseq & Hst & Hres & Hup).
  apply does_lift. intros c Hc. rewrite cloneRecord_typed in Hc by done. injection Hc as <-.
  assert (same_rows w w3) as Hs by (repeat (etrans; [eassumption|]); done).
  pose proof (same_generated _ _ Hs1). pose proof (same_generated _ _ Hs3).
  assert (forall i x, table w !! i = Some x -> sequence x < sequence r) as Hlast.
  { intros i x Hx. rewrite Hseq. apply (Hn i). by rewrite (same_table _ _ Hs2), (same_table _ _ Hs1). }
  assert (table w !! id r = None) as Hnone.
  { destruct (table w !! id r) as [x|] eqn:Hx; [exfalso|done].
    destruct (ok_generated _ Hw _ _ Hx) as (k' & Hlt & Heq).
    rewrite Hi in Heq. apply fresh_ids in Heq. lia. }
  eapply ends_step; [apply on_store_calls, append_law; by rewrite (same_table _ _ Hs)| |].
  - intros [] w4 [Hg Hwr]. apply ends_lift. rewrite cloneRecord_typed by done.
    exists (<[id r := r]> (table w)). split.
    + by constructor.
    + apply (moved_from w w3); [done|]. apply (moved_append w w3 w4 r k); done || lia.
  - intros err w4 [Hg Hu]. left. by apply unchanged_same.
Qed.

(** [updateStatus] and [updateMutation] store a record over the one they found. *)
Lemma stores_over i r r' at_time c w w1 : log_ok w -> same_rows w w1 -> table w !! i = Some r ->
  id r' = id r -> sequence r' = sequence r -> updatedAt r' = at_time -> is_iso at_time ->
  (is_iso at_time -> record_typed r') ->
  (forall x, plain_record x = r' -> log_step e (table w) c (Updated x) (<[i := plain_record x]> (table w))) ->
  does (store_record e r') (fun x => log_step e (table w) c (Updated x)) w1.
Proof.
  intros Hw Hs Hr Hid Hseq Hup Hiso Htyped Hstep. pose proof (ok_id _ Hw _ _ Hr) as Hi.
  eapply ends_mono.
  - apply (store_record_does r' r); [by eapply log_ok_same| |auto|done].
    rewrite (same_table _ _ Hs). by rewrite Hid, Hi.
  - assert (forall x L, plain_record x = r' -> L = <[id r' := r']> (table w1) ->
      log_step e (table w) c (Updated x) L) as Hx.
    { intros x L Hx ->. rewrite (same_table _ _ Hs). specialize (Hstep x Hx).
      by rewrite Hx, <- Hi, <- Hid in Hstep. }
    unfold done_or_thrown. intros [x|err] w2.
    + intros (L & [Hp ->] & Hmoved). eauto.
    + intros [?|(te & x & L & -> & [Hp ->] & Hmoved)]; [by left|]. right. eauto 10.
Qed.

Lemma updateStatus_does i name res w : log_ok w ->
  does (updateStatus e i name res)
    (fun x => log_step e (table w) (UpdateStatus i name res) (Updated x)) w.
Proof.
  intros Hw. unfold updateStatus. apply does_lift. intros st Hst.
  eapply idles_step; [by apply find_record_idles|]. intros r w1 Hr Hs1.
  apply does_lift. intros o Ho. eapply idles_step; [apply currentTimestamp_idles|].
  intros timestamp w2 Hiso Hs2. pose proof (ok_typed _ Hw _ _ Hr) as [].
  assert (copied o /\ encodes e res o) as [Hcopied Henc].
  { destruct res as [v|]; checks; [|done]. split; [|done]. unfold encode_result in *.
    case_match; checks. by eapply cloneJsonObject_copied. }
  eapply (stores_over i r); try done; [by etrans| |].
  - intros _. split; cbn; try done. by destruct o.
  - intros x Hx. by apply (changes_status e _ i name res st r o timestamp).
Qed.

Lemma updateMutation_does i m w : log_ok w ->
  does (updateMutation e i m)
    (fun x => log_step e (table w) (UpdateMutation i m) (Updated x)) w.
Proof.
  intros Hw. unfold updateMutation.
  eapply idles_step; [by apply find_record_idles|]. intros r w1 Hr Hs1.
  unfold is_pending. case_bool_decide as Hst; [|apply does_throw]. cbn [negb].
  apply does_lift. intros m' Hm. eapply idles_step; [apply currentTimestamp_idles|].
  intros timestamp w2 Hiso Hs2. pose proof (ok_typed _ Hw _ _ Hr) as [].
  eapply (stores_over i r); try done; [by etrans| |].
  - intros _. split; cbn; try done. by eapply normalizeMutation_typed.
  - intros x Hx. by apply (changes_mutation e _ i m m' r timestamp).
Qed.

(** ** Reading *)

Lemma lists_from_rows statuses w l found : log_ok w ->
  l ≡ₚ List.filter (in_statuses statuses) (records_of (table w)) ->
  normalizeRecordList e (Some (map raw_of_record l)) = Ok found ->
  lists_records e statuses (table w) found.
Proof.
  intros Hw Hl H. pose proof (ok_id _ Hw) as Hid.
  assert (forall r, r ∈ l -> table w !! id r = Some r) as Hin.
  { intros r. rewrite Hl, elem_of_List_filter, records_of_lookup by done. tauto. }
  assert (Forall record_typed l) as Htyped.
  { apply Forall_forall. intros r Hr%Hin. by apply (ok_typed _ Hw _ _ Hr). }
  unfold normalizeRecordList in H.
  assert (map_result (fun raw => normalizeRecord (Some raw)) (map raw_of_record l) = Ok l) as Hn.
  { clear -Htyped. induction Htyped as [|r l Hr Hl IH]; [done|]. cbn [map map_result].
    rewrite normalizeRecord_raw by done. cbn [mbind result_bind].
    by rewrite IH. }
  rewrite Hn in H. cbn [mbind result_bind] in H.
  pose proof (merge_sort_Permutation by_sequence l) as Hperm.
  rewrite (map_result_Ok _ (fun r => r)), map_id in H.
  2:{ rewrite Hperm. eapply Forall_impl; [exact Htyped|]. apply cloneRecord_typed. }
  cbn [mbind result_bind] in H. apply map_result_inv in H.
  assert (map plain_record found = merge_sort by_sequence l) as Hplain.
  { clear -H. induction H as [|r x rs xs Hx H IH]; [done|]. cbn. rewrite IH. f_equal.
    unfold restoreSyncResultTypes in Hx. repeat case_match; by simplify_eq. }
  split_and!.
  - rewrite Hplain. apply strictly_sorted.
    + apply Sorted_StronglySorted; [apply _|]. apply Sorted_merge_sort. apply _.
    + rewrite Hperm, Hl. apply List_filter_NoDup, records_of_NoDup, Hid.
    + intros a b. rewrite Hperm. intros Ha%Hin Hb%Hin Heq.
      pose proof (ok_distinct _ Hw _ _ _ _ Ha Hb Heq). congruence.
  - by rewrite Hplain, Hperm.
  - clear -H. induction H as [|r x rs xs Hx H IH]; constructor; [|done].
    assert (plain_record x = r) as ->; [|done].
    unfold restoreSyncResultTypes in Hx. repeat case_match; by simplify_eq.
Qed.

Lemma listing_idles statuses w : log_ok w ->
  idles (found ← on_store (storage_records key statuses); lift_result (normalizeRecordList e found))
    (fun l _ => lists_records e statuses (table w) l) w.
Proof.
  intros Hw. unfold idles. eapply ends_step; [apply on_store_calls, records_law, Hw| |].
  - intros found w1 (Hg & l & -> & Hl & Hu). apply ends_lift. split; [by apply unchanged_same|].
    destruct (normalizeRecordList _ _) eqn:Hf; [|done]. by eapply lists_from_rows.
  - intros err w1 [Hg Hu]. split; [|done]. by apply unchanged_same.
Qed.

(** ** Compacting *)

Lemma listing_ticks {A} (m : ST S log_error A) (f : A -> outcome (list restored)) w :
  ticks ((found ← on_store m; lift_result (f found)) w).2 = ticks w.
Proof. unfold mbind, ST_bind, on_store, lift_result. by destruct (m (store w)) as [[a|err] s]. Qed.

(** What the clock says while compacting. *)
Definition aged (retention clock : option Z) (terms : list log_record) : list log_record :=
  match retention with
  | Some ms =>
      if 0 <=? ms then List.filter (older_than (t ← clock; Some (t - ms))) terms else []
  | None => []
  end.

Lemma aged_spec retention clock terms r :
  r ∈ aged retention clock terms <-> r ∈ terms /\ outlived retention clock r.
Proof.
  unfold aged, outlived. destruct retention as [ms|]; [|split; [by intros []%elem_of_nil|tauto]].
  destruct (Z.leb_spec 0 ms); [|split; [by intros []%elem_of_nil|]; destruct clock; lia].
  rewrite elem_of_List_filter. unfold older_than.
  destruct clock as [t|]; [|split; [by intros [[=] _]|tauto]]. cbn [mbind option_bind].
  destruct (iso_value (updatedAt r)) as [u|].
  - rewrite Z.ltb_lt. split; [intros [? ?]; by eauto 8|]. intros (? & _ & u' & [= <-] & ?). done.
  - split; [by intros [[=] _]|by intros (_ & _ & u & [=] & _)].
Qed.

Lemma prune_terms w found maximum retention clock ids : log_ok w ->
  lists_records e None (table w) found ->
  ids = fold_left add_id (excess maximum (merge_sort newest_first
      (List.filter (prunable (map plain_record found)) (map plain_record found))) ++
    aged retention clock (merge_sort newest_first
      (List.filter (prunable (map plain_record found)) (map plain_record found)))) [] ->
  prunes_exactly maximum retention clock (table w) ids.
Proof.
  intros Hw (_ & Hl & _) ->. set (l := map plain_record found) in *.
  set (terms := merge_sort newest_first (List.filter (prunable l) l)).
  pose proof (ok_id _ Hw) as Hid.
  assert (forall x, x ∈ l <-> table w !! id x = Some x) as Hin.
  { intros x. rewrite Hl, elem_of_List_filter, records_of_lookup by done. cbn. tauto. }
  assert (terms ≡ₚ List.filter (prunable l) l) as Hterms by apply merge_sort_Permutation.
  destruct (add_ids_spec (excess maximum terms ++ aged retention clock terms) []) as [Hids Hnd].
  exists terms. split_and!.
  - rewrite Hterms. apply List_filter_NoDup. rewrite Hl.
    apply List_filter_NoDup, records_of_NoDup, Hid.
  - apply StronglySorted_merge_sort; unfold newest_first; apply _.
  - intros r. rewrite Hterms, elem_of_List_filter, (prunable_spec (table w)) by done.
    rewrite Hin. tauto.
  - apply Hnd. constructor.
  - assert (forall r, r ∈ excess maximum terms -> r ∈ terms) as Hsub.
    { intros r. unfold excess. repeat case_match; [|by intros []%elem_of_nil..].
      apply subseteq_drop. }
    intros i. rewrite Hids. split.
    + intros [[]%elem_of_nil|(r & Hr & <-)]. exists r. split; [done|].
      rewrite elem_of_app, aged_spec in Hr. destruct Hr as [Hr|[? ?]]; auto.
    + intros (r & <- & Hr & Hr'). right. exists r. rewrite elem_of_app, aged_spec. tauto.
Qed.

(** The clock is read once, and only for a retention time. *)
Lemma by_age_idles retention terms w :
  idles (match retention with
         | Some ms =>
             if 0 <=? ms then
               t ← read_clock e;
               mret (List.filter (older_than (t ← t; Some (t - ms))) terms)
             else mret []
         | None => mret []
         end : ST W log_error (list log_record))
    (fun old _ => old = aged retention (now e (ticks w)) terms) w.
Proof. unfold idles, idled, ends, aged. destruct retention as [ms|]; [destruct (0 <=? ms)|]; done. Qed.

Lemma filter_none_deleted (L : log_table) :
  filter (fun kv : string * log_record => kv.1 ∉ ([] : list string)) L = L.
Proof. apply map_filter_id. intros i r _. apply not_elem_of_nil. Qed.

Lemma compact_does maximum retention w : log_ok w ->
  does (compact e maximum retention) (fun ids L =>
    prunes_exactly maximum retention (now e (ticks w)) (table w) ids /\
    L = filter (fun kv => kv.1 ∉ ids) (table w)) w.
Proof.
  intros Hw. unfold compact.
  apply (idles_step _ _ (fun l w' => lists_records e None (table w) l /\ ticks w' = ticks w)).
  { assert (idles (records e) (fun l _ => lists_records e None (table w) l) w) as H
      by by apply listing_idles.
    assert (ticks (records e w).2 = ticks w) as Ht by apply listing_ticks.
    unfold idles, idled, ends in *. destruct (records e w) as [[l|err] w']; naive_solver. }
  intros found w1 [Hfound Ht] Hs. cbv zeta.
  set (l := map plain_record found). set (terms := merge_sort newest_first _).
  eapply idles_step; [apply by_age_idles|]. intros old w2 -> Hs2. rewrite Ht.
  match goal with |- context [fold_left add_id ?rs []] => set (ids := fold_left add_id rs []) end.
  assert (prunes_exactly maximum retention (now e (ticks w)) (table w) ids) as Hids.
  { by apply (prune_terms w found). }
  assert (same_rows w w2) as Hs3 by (by etrans). clearbody ids.
  destruct ids as [|i ids].
  - apply ends_ret. exists (table w). split; [by rewrite filter_none_deleted|].
    eapply moved_from; [done|]. by apply moved_same.
  - eapply ends_step; [apply on_store_calls, delete_law| |].
    + intros [] w3 [Hg Hwr]. apply ends_ret. eexists. split; [by split|].
      eapply moved_from; [done|]. by eapply (moved_delete w w2 w3).
    + intros err w3 [Hg Hu]. left. by apply unchanged_same.
Qed.

Lemma answers {A} (m : ST W log_error A) (wrap : A -> log_answer)
    (P : A -> log_table -> Prop) (Q : log_answer -> log_table -> Prop) w :
  does m P w -> (forall a L, P a L -> Q (wrap a) L) -> does (a ← m; mret (wrap a)) Q w.
Proof.
  intros Hm HQ. apply ends_bind. eapply ends_mono; [exact Hm|].
  unfold done_or_thrown. intros [a|err] w'.
  - intros (L & ? & ?). apply ends_ret. eauto.
  - intros [?|(te & a & L & -> & ? & ?)]; [by left|]. right. eauto 8.
Qed.

Lemma listing_answers (m : ST W log_error (list restored)) (P : list restored -> Prop)
    (Q : log_answer -> log_table -> Prop) w :
  log_ok w -> idles m (fun l _ => P l) w -> (forall l, P l -> Q (Listed l) (table w)) ->
  does (l ← m; mret (Listed l)) Q w.
Proof.
  intros Hw Hm HQ. eapply idles_step; [exact Hm|]. intros l w1 Hl Hs. apply ends_ret.
  exists (table w). split; [by apply HQ|]. eapply moved_from; [done|]. by apply moved_same.
Qed.

Lemma run_call_does c w : log_ok w -> does (run_call e c) (log_step e (table w) c) w.
Proof.
  intros Hw. destruct c; cbn [run_call].
  - eapply answers; [by apply append_does|done].
  - eapply answers; [by apply updateStatus_does|done].
  - eapply answers; [by apply updateMutation_does|done].
  - eapply answers; [by apply compact_does|]. intros ids L [Hids ->]. by econstructor.
  - eapply listing_answers; [done|by apply (listing_idles None)|]. by constructor.
  - eapply listing_answers; [done|by apply (listing_idles (Some _))|]. by constructor.
Qed.

Lemma does_keeps_ok {A} (m : ST W log_error A) Q w : log_ok w -> does m Q w -> log_ok (m w).2.
Proof.
  unfold does, done_or_thrown, ends. intros Hw H. destruct (m w) as [[a|err] w']; cbn in *.
  - by destruct H as (L & _ & ? & _).
  - destruct H as [Hs|(te & a & L & _ & _ & ? & _)]; [|done]. by eapply log_ok_same.
Qed.

(** A sequence of calls, whose exceptions the caller handles. *)
Definition run_calls (cs : list log_call) (w : W) : W :=
  fold_left (fun w c => (run_call e c w).2) cs w.

Lemma run_calls_ok cs w : log_ok w -> log_ok (run_calls cs w).
Proof.
  revert w. induction cs as [|c cs IH]; intros w Hw; [done|]. cbn. apply IH.
  eapply does_keeps_ok; [done|]. by apply run_call_does.
Qed.

(** C16: every call of the log either returns with a step of the abstract log on
    the records of its storage key, or throws with the records as they were (but
    for a stored result that cannot be restored for the answer: then the step is
    made). Either way the records stay well formed under their ids and numbered
    apart, and those of every other storage key (a tenant's
    partition) are untouched. *)
Theorem calls_refine_log c w : log_ok w ->
  let '(answer, w') := run_call e c w in
  log_ok w' /\
  (forall k, k <> key -> rows (store w') k = rows (store w) k) /\
  match answer with
  | Ok a => log_step e (table w) c a (table w')
  | Throw err => table w' = table w \/
      exists te a, err = TransportError te /\ log_step e (table w) c a (table w')
  end.
Proof.
  intros Hw. pose proof (run_call_does c w Hw) as H.
  unfold does, done_or_thrown, ends in H. destruct (run_call e c w) as [[a|err] w']; cbn in H.
  - destruct H as (L & Hstep & Hok & <- & Hother). done.
  - destruct H as [Hs|(te & a & L & -> & Hstep & Hok & <- & Hother)].
    + pose proof (moved_same _ _ Hw Hs) as (Hok & Htable & Hother). auto.
    + split_and!; eauto.
Qed.

(** What survives a compaction of [L]. *)
Lemma prunes_bounds maximum retention clock L ids :
  (forall i r, L !! i = Some r -> id r = i) ->
  prunes_exactly maximum retention clock L ids ->
  let kept r := L !! id r = Some r /\ (id r ∉ ids) /\ expendable L r in
  (forall i r, L !! i = Some r -> ~ expendable L r -> i ∉ ids) /\
  (forall r, kept r -> ~ outlived retention clock r) /\
  (forall n rs, maximum = Some n -> 0 <= n -> NoDup rs -> Forall kept rs ->
    Z.of_nat (length rs) <= n) /\
  (forall r r', kept r -> L !! id r' = Some r' -> id r' ∈ ids -> ~ outlived retention clock r' ->
    newest_first r r').
Proof.
  intros Hid (terms & Hnd & Hsorted & Hterms & _ & Hids) kept.
  assert (forall r r', L !! id r = Some r -> L !! id r' = Some r' -> id r = id r' -> r = r') as Hinj
    by congruence.
  assert (forall r, kept r -> r ∈ terms /\ (r ∉ excess maximum terms) /\ ~ outlived retention clock r)
    as Hkept.
  { intros r (HL & Hi & Hex). assert (r ∈ terms) as Hr by by apply Hterms.
    split; [done|]. split; intros H; apply Hi, Hids; eauto. }
  split_and!.
  - intros i r Hr Hex Hi. apply Hids in Hi as (r' & <- & [HL Hex']%Hterms & _). naive_solver.
  - intros r Hr. by apply Hkept.
  - intros n rs -> Hn Hrs Hall. assert (rs ⊆ take (Z.to_nat n) terms) as Hsub.
    { intros r Hr. rewrite Forall_forall in Hall. destruct (Hkept r (Hall r Hr)) as (Hin & Hout & _).
      unfold excess in Hout. rewrite (proj2 (Z.leb_le _ _)) in Hout by done.
      rewrite <- (take_drop (Z.to_nat n) terms) in Hin. set_solver. }
    apply NoDup_submseteq in Hsub; [|done]. apply submseteq_length in Hsub.
    rewrite length_take in Hsub. lia.
  - intros r r' Hr HL' Hi Hout. destruct (Hkept r Hr) as (Hin & Hnot & _).
    apply Hids in Hi as (x & Hx & [HLx _]%Hterms & Hdel).
    assert (x = r') as -> by (apply Hinj; congruence).
    destruct Hdel as [Hdel|]; [|done]. unfold excess in Hnot, Hdel.
    destruct maximum as [n|]; [|by apply elem_of_nil in Hdel].
    destruct (0 <=? n); [|by apply elem_of_nil in Hdel].
    rewrite <- (take_drop (Z.to_nat n) terms) in Hin, Hsorted.
    apply elem_of_app in Hin as [Hin|]; [|done]. by eapply StronglySorted_app_1_elem_of.
Qed.

(** A record whose outcome is not final: it will be replayed, or its conflict resolved. *)
Definition unsettled (r : log_record) : Prop := status r <> Rejected /\ status r <> Synced.

Lemma still_replayed_iff r : still_replayed r = true <-> unsettled r.
Proof. unfold still_replayed, is_pending, unsettled. destruct (status r); vm_compute; naive_solver. Qed.

(** C17: compaction never deletes a record that is still to be replayed or in
    conflict, nor one such a record depends on, and changes no other row. When it
    returns, it has deleted exactly the rows of the ids it reports; no terminal
    record it kept, but for those depended on, has outlived the retention time;
    at most [maxTerminalRecords] such records are left, and one deleted for their
    number is not newer than any of them. *)
Theorem compact_keeps_replay maximum retention w : log_ok w ->
  let '(answer, w') := compact e maximum retention w in
  let L := table w in
  let needed r := unsettled r \/ exists i r', L !! i = Some r' /\ unsettled r' /\ clientMutationId (mutation r) ∈ map dependency_id (dependencies r') in
  (forall i r, L !! i = Some r -> needed r -> table w' !! i = Some r) /\
  (forall i r, table w' !! i = Some r -> L !! i = Some r) /\
  match answer with
  | Ok ids =>
      let kept r := table w' !! id r = Some r /\ status r ∈ TERMINAL_STATUSES /\ ~ needed r in
      let clock := now e (ticks w) in
      (forall i r, L !! i = Some r -> (table w' !! i = None <-> i ∈ ids)) /\
      (forall r, kept r -> ~ outlived retention clock r) /\
      (forall n rs, maximum = Some n -> 0 <= n -> NoDup rs -> Forall kept rs ->
        Z.of_nat (length rs) <= n) /\
      (forall r r', kept r -> L !! id r' = Some r' -> id r' ∈ ids ->
        ~ outlived retention clock r' -> newest_first r r')
  | Throw _ => True
  end.
Proof.
  intros Hw. pose proof (compact_does maximum retention w Hw) as H. unfold does, done_or_thrown, ends in H.
  destruct (compact e maximum retention w) as [answer w']. cbn [fst snd] in H. cbv zeta.
  pose proof (ok_id _ Hw) as Hid.
  set (needed := fun r => unsettled r \/ _).
  assert (forall r, status r ∈ TERMINAL_STATUSES /\ ~ needed r <-> expendable (table w) r) as Hneed.
  { intros r. unfold expendable, needed. split.
    - intros [Hst Hn]. split; [done|]. intros i r' Hr' Hrep%still_replayed_iff Hin. apply Hn. right. eauto 6.
    - intros [Hst Hn]. split; [done|]. intros [Hr|(i & r' & Hr' & Hrep & Hin)].
      + destruct Hr. unfold TERMINAL_STATUSES in Hst. set_solver.
      + apply still_replayed_iff in Hrep. by eapply Hn. }
  assert (forall ids, prunes_exactly maximum retention (now e (ticks w)) (table w) ids ->
    forall L', L' = filter (fun kv => kv.1 ∉ ids) (table w) ->
    (forall i r, table w !! i = Some r -> needed r -> L' !! i = Some r) /\
    (forall i r, L' !! i = Some r -> table w !! i = Some r /\ i ∉ ids)) as Hgen.
  { intros ids Hids L' ->. destruct (prunes_bounds _ _ _ _ _ Hid Hids) as (Hno & _). split.
    - intros i r Hr Hn. apply map_lookup_filter_Some. split; [done|]. cbn. eapply Hno; [done|].
      intros [_ Hex]%Hneed. done.
    - intros i r Hr%map_lookup_filter_Some. done. }
  destruct answer as [ids|err].
  - destruct H as (L & [Hids HL] & _ & Htable & _). rewrite Htable.
    destruct (Hgen ids Hids L HL) as [H1 H2]. split; [done|]. split; [by intros i r []%H2|].
    assert (forall r, L !! id r = Some r /\ status r ∈ TERMINAL_STATUSES /\ ~ needed r ->
      table w !! id r = Some r /\ (id r ∉ ids) /\ expendable (table w) r) as Hk.
    { intros r (Hr & Hr'). apply H2 in Hr as [? ?]. rewrite <- Hneed. done. }
    destruct (prunes_bounds _ _ _ _ _ Hid Hids) as (_ & B1 & B2 & B3). split_and!.
    + intros i r Hr. rewrite HL, map_lookup_filter_None. split.
      * intros [|Hn]; [congruence|]. specialize (Hn r Hr). cbn in Hn.
        destruct (decide (i ∈ ids)); [done|]. by destruct Hn.
      * intros Hi. right. intros x _ Hx. done.
    + intros r Hr. by apply B1, Hk.
    + intros n rs Hn Hn0 Hnd Hrs. apply B2; [done..|]. eapply Forall_impl; [done|]. apply Hk.
    + intros r r' Hr. apply B3, Hk, Hr.
  - destruct H as [Hs|(te & ids & L & _ & [Hids HL] & _ & Htable & _)].
    + rewrite (same_table _ _ Hs). auto.
    + rewrite Htable. destruct (Hgen ids Hids L HL) as [H1 H2].
      split; [done|]. split; [by intros i r []%H2|done].
Qed.

End correct.

(** ** Records are fixed points of normalization *)

(** C18: what [normalizeRecord] returns is well formed (non-empty names, ISO
    timestamps, a positive sequence, objects that are their own JSON copies), and
    is a fixed point: its row normalizes to itself and [cloneRecord] copies it
    unchanged. So a record survives any number of trips through the storage. *)
Theorem normalizeRecord_stable raw r : normalizeRecord raw = Ok r ->
  record_typed r /\ normalizeRecord (Some (raw_of_record r)) = Ok r /\ cloneRecord r = Ok r.
Proof.
  intros H%normalizeRecord_typed.
  auto using normalizeRecord_raw, cloneRecord_typed.
Qed.

(** ** A row storage in memory *)

Module Rows.

Definition table := gmap string log_table.
Definition at_key (s : table) (key : string) : log_table := default ∅ (s !! key).

Definition next_number (L : log_table) : Z :=
  foldr Z.max 1 (map (fun r => sequence r + 1) (records_of L)).

#[global] Instance storage : RowStorage table := {
  appendRecord key r := modify (fun s => <[key := <[id r := r]> (at_key s key)]> s);
  deleteRecords key ids :=
    modify (fun s => <[key := filter (fun kv => kv.1 ∉ ids) (at_key s key)]> s);
  storage_nextSequence key := gets (fun s => of_Z (next_number (at_key s key)));
  storage_record key i := gets (fun s => raw_of_record <$> at_key s key !! i);
  storage_records key statuses := gets (fun s =>
    Some (map raw_of_record (List.filter (in_statuses statuses) (records_of (at_key s key)))));
  updateRecord key r := fun s =>
    match at_key s key !! id r with
    | Some _ => (Ok tt, <[key := <[id r := r]> (at_key s key)]> s)
    | None => (Throw (StorageError "No record"), s)
    end }.

#[global] Instance view : RowView table := at_key.

Lemma put_written key L s : written key L s (<[key := L]> s : table).
Proof.
  unfold written, rows, view, at_key, table. split; [by rewrite lookup_insert_eq|].
  intros k Hk. by rewrite lookup_insert_ne.
Qed.

Lemma next_number_above L i r : L !! i = Some r -> sequence r < next_number L.
Proof.
  intros Hr. assert (r ∈ records_of L) as Hin.
  { apply list_elem_of_fmap. exists (i, r). split; [done|]. by apply elem_of_map_to_list. }
  unfold next_number. clear Hr. induction (records_of L) as [|x l IH]; [by apply elem_of_nil in Hin|].
  cbn. apply elem_of_cons in Hin as [<-|Hin]; [lia|]. specialize (IH Hin). lia.
Qed.

#[global] Instance laws : RowStorageLaws table.
Proof.
  split; unfold calls, ends; cbn.
  - intros. apply put_written.
  - intros. apply put_written.
  - intros key s. exists (next_number (at_key s key)). split; [done|]. split; [|done].
    apply next_number_above.
  - done.
  - intros. by eexists.
  - intros key r s [old Hold]. unfold rows, view in Hold. rewrite Hold. apply put_written.
Qed.

End Rows.

(** ** Examples *)

Definition example_log : log_env := {|
  idGenerator n := "log-" +:+ pretty (N.of_nat n);
  now n := Some (1750759200000 + 60000 * Z.of_nat n);
  storageKey := "velocious.sync.localMutationLog";
  transport := example_environment |}.

Lemma example_fresh a b : idGenerator example_log a = idGenerator example_log b -> a = b.
Proof. cbn. intros H%(inj (String.app "log-"))%(inj pretty). lia. Qed.

Definition empty_world : world Rows.table := Build_world ∅ 0 0.

Lemma empty_ok : log_ok example_log empty_world.
Proof. by split. Qed.

Definition example_mutation (client : string) : json := mutation_json {|
  actorDeviceId := "device-1"; actorUserId := "user-1"; clientMutationId := client;
  mutation_model := "Task"; occurredAt := "2026-06-24T10:00:00.000Z";
  offlineGrantId := "grant-1"; operation := "create"; policyHash := "sha256-task";
  mutation_attributes := Some [("name", JStr "Task")]; mutation_baseVersion := None;
  mutation_command := None; mutation_payload := None |}.

(** The second mutation depends on the first; the first and the third are done. *)
Definition example_world : world Rows.table :=
  run_calls example_log [
    Append None (example_mutation "m1") None;
    Append (Some (JArr [JObj [("clientMutationId", JStr "m1"); ("model", JStr "Task")]]))
      (example_mutation "m2") None;
    Append None (example_mutation "m3") None;
    UpdateStatus "log-0" "synced" None;
    UpdateStatus "log-2" "rejected" (Some (VObj [("reason", VStr "no")]))] empty_world.

Lemma calls_refine_log_witness :
  let '(answer, w') := run_call example_log PendingRecords example_world in
  match answer with
  | Ok (Listed l) => map (fun x => id (plain_record x)) l = ["log-1"]
  | _ => False
  end /\
  match answer with
  | Ok a => log_step example_log (rows (store example_world) (storageKey example_log))
      PendingRecords a (rows (store w') (storageKey example_log))
  | Throw _ => False
  end.
Proof.
  pose proof (calls_refine_log example_log example_fresh PendingRecords example_world
    (run_calls_ok example_log example_fresh _ _ empty_ok)) as H.
  assert (is_Ok (run_call example_log PendingRecords example_world).1 = true) as Hok
    by (vm_compute; reflexivity).
  assert (match (run_call example_log PendingRecords example_world).1 with
    | Ok (Listed l) => map (fun x => id (plain_record x)) l = ["log-1"] | _ => False end) as Hl
    by (vm_compute; reflexivity).
  destruct (run_call example_log PendingRecords example_world) as [[a|err] w'];
    [|discriminate Hok].
  split; [exact Hl|apply H].
Defined.

(** The first record is kept for the second; the third is pruned. *)
Lemma compact_keeps_replay_witness :
  let '(answer, w') := compact example_log (Some 0) (Some 1) example_world in
  answer = Ok ["log-2"] /\
  forall i r, rows (store w') (storageKey example_log) !! i = Some r ->
    rows (store example_world) (storageKey example_log) !! i = Some r.
Proof.
  pose proof (compact_keeps_replay example_log example_fresh (Some 0) (Some 1) example_world
    (run_calls_ok example_log example_fresh _ _ empty_ok)) as H.
  assert ((compact example_log (Some 0) (Some 1) example_world).1 = Ok ["log-2"]) as Ha
    by (vm_compute; reflexivity).
  destruct (compact example_log (Some 0) (Some 1) example_world) as [answer w'].
  split; [exact Ha|apply H].
Defined.

Lemma normalizeRecord_stable_witness :
  let raw := {| raw_createdAt := Some (JStr "2026-06-24T10:00:00.000Z"); raw_dependencies := None;
    raw_id := Some (JStr "log-1"); raw_mutation := Some (example_mutation "m1");
    raw_sequence := of_Z 1; raw_status := Some (JStr "conflict");
    raw_updatedAt := Some (JStr "2026-06-24T10:00:00.000Z"); raw_signedMutation := None;
    raw_syncResult := Some (JObj [("b", JNum "1"); ("7", JNull); ("b", JBool true)]) |} in
  exists r, normalizeRecord (Some raw) = Ok r /\
    syncResult r = Some [("7", JNull); ("b", JBool true)] /\ cloneRecord r = Ok r.
Proof.
  eexists. split; [vm_compute; reflexivity|]. split; [reflexivity|].
  apply (normalizeRecord_stable (Some {| raw_createdAt := Some (JStr "2026-06-24T10:00:00.000Z");
    raw_dependencies := None;
    raw_id := Some (JStr "log-1"); raw_mutation := Some (example_mutation "m1");
    raw_sequence := of_Z 1; raw_status := Some (JStr "conflict");
    raw_updatedAt := Some (JStr "2026-06-24T10:00:00.000Z"); raw_signedMutation := None;
    raw_syncResult := Some (JObj [("b", JNum "1"); ("7", JNull); ("b", JBool true)]) |})).
  vm_compute. reflexivity.
Defined.
