(* ===== verification/SyncReplay.v ===== *)
(** * Replay of conflict-tracked mutations ([src/src/sync/sync-api-client.js])

    [replayConflictTrackedSyncs] drains the local mutation log: round by round it
    reads the log, picks the pending mutations whose dependencies are synced, sends
    them (with successors that can share one request) and writes the answers back
    through [applySyncReplayResultToLocalMutationLog] ([conflict-strategy.js]). It
    composes [LocalMutationLog.v], over any row storage, with the outcome of
    [ConflictStrategy.v]. [queueConflictTrackedSync] is how a mutation gets there.

    Parameters: the server ([postReplay], any function of the requests sent so far)
    and the counter of remote changes ([remoteGeneration]). No other writer of the
    log runs between two calls. The loops of the code are given fuel, which the
    theorems of [SyncReplayCorrect.v] show to be enough; a number is equal to
    another when its JSON text is. *)

From stdpp Require Import base functions gmap strings list sorting.
From Stdlib Require Import ZArith Ascii QArith Qround Lia.
From S2P Require Import Prelude Sql Json StableJson Dates ConflictStrategy Transport LocalMutationLog.
Open Scope Z_scope.

Inductive replay_error :=
| LogFailed (e : log_error)
| UnknownReplayStatus
| TransportFailed (message : string)
| ServerError (errorMessage : option json)
| MissingSyncs
| MissingResult (clientMutationId : string)
| InvalidSyncState (clientMutationId : string)
| NoStringValue                        (* [String(value)] throws *)
| NotAnObject                          (* a property of [null] is read *)
| InvalidTime
| OutOfFuel.

Abbreviation answer A := (result replay_error A).

(** [String(value)] of a property. *)
Definition string_of (v : property) : answer string :=
  match v with
  | None => Ok "undefined"
  | Some v => match js_string v with Ok s => Ok s | Throw _ => Throw NoStringValue end
  end.

(** [record.mutation.payload?.resourceId] *)
Definition payload_property (key : string) (r : log_record) : property :=
  mutation_payload (mutation r) ≫= obj_get key.

Definition client_id (r : log_record) : string := clientMutationId (mutation r).

Definition conflictRecordIdentity (r : log_record) : answer string :=
  resource ← string_of (payload_property "resourceId" r);
  Ok (mutation_model (mutation r) +:+ ":" +:+ resource).

(** ** Grouping *)

Definition depends_on (r : log_record) (client : string) : bool :=
  existsb (fun d => bool_decide (dependency_id d = client)) (dependencies r).

Definition is_scalar (v : json) : bool :=
  match v with JNull | JStr _ | JNum _ | JBool _ => true | JArr _ | JObj _ => false end.

Definition scalarSyncAttributes (o : option properties) : bool :=
  match o with Some l => forallb (fun kv => is_scalar kv.2) l | None => false end.

(** [Object.keys(object || {})] *)
Definition keys_of (o : option properties) : list string :=
  match o with Some l => l.*1 | None => [] end.

(** A base version is a string, a number or [null] ([cloneBaseVersion]), never an object, so
    equality of values is [!==]. *)
Definition canCoalesceConflictRecords (left right : log_record) : answer bool :=
  let a := mutation left in
  let b := mutation right in
  if negb (bool_decide (operation a = "update") && bool_decide (operation b = "update"))
  then Ok false else
  i ← conflictRecordIdentity left;
  j ← conflictRecordIdentity right;
  if negb (bool_decide (i = j)) then Ok false else
  if negb (bool_decide (mutation_baseVersion a = mutation_baseVersion b)) then Ok false else
  if negb (scalarSyncAttributes (mutation_attributes a) &&
           scalarSyncAttributes (mutation_attributes b)) then Ok false else
  Ok (negb (existsb (fun k => bool_decide (k ∈ keys_of (mutation_attributes b)))
                    (keys_of (mutation_attributes a)))).

(** The successors that join [tail] in its group. *)
Fixpoint successors (fuel : nat) (pending : list log_record) (tail : log_record) :
    answer (list log_record) :=
  match List.find (fun candidate => depends_on candidate (client_id tail)) pending with
  | None => Ok []
  | Some successor =>
      joins ← canCoalesceConflictRecords tail successor;
      if negb joins then Ok [] else
      match fuel with
      | O => Throw OutOfFuel
      | S fuel => rest ← successors fuel pending successor; Ok (successor :: rest)
      end
  end.

(** [selected] holds the identities that have their group. *)
Fixpoint groups_from (pending ready : list log_record) (selected : list string) :
    answer (list (list log_record)) :=
  match ready with
  | [] => Ok []
  | record :: ready =>
      identity ← conflictRecordIdentity record;
      if decide (identity ∈ selected) then groups_from pending ready selected else
      rest ← successors (length pending) pending record;
      groups ← groups_from pending ready (identity :: selected);
      Ok ((record :: rest) :: groups)
  end.

Definition conflictReplayGroups (pending ready : list log_record) :
    answer (list (list log_record)) := groups_from pending ready [].

(** [Object.assign({}, ...objects)] *)
Definition assign_all (objects : list properties) : properties :=
  fold_left (fun acc l => fold_left (fun acc kv => obj_assign kv.1 kv.2 acc) l acc) objects [].

(** The request for a group; properties that are [undefined] are not sent. *)
Definition conflictReplayPayload (group : list log_record) : properties :=
  match group with
  | [] => []
  | first :: _ =>
      present "baseVersion" (mutation_baseVersion (mutation first)) ++
      [("clientUpdatedAt", JStr (occurredAt (mutation first)));
       ("data", JObj (assign_all (map (fun r => default [] (mutation_attributes (mutation r))) group)));
       ("id", JStr (client_id first))] ++
      present "resourceId" (payload_property "resourceId" first) ++
      [("resourceType", JStr (mutation_model (mutation first)))] ++
      present "syncType" (payload_property "syncType" first)
  end.

(** [new Map(records.map((record) => [record.mutation.clientMutationId, record.status])).get(client)] *)
Definition status_of (records : list log_record) (client : string) : option mutation_status :=
  status <$> List.find (fun r => bool_decide (client_id r = client)) (rev records).

Definition is_ready (records : list log_record) (r : log_record) : bool :=
  forallb (fun d => bool_decide (status_of records (dependency_id d) = Some Synced)) (dependencies r).

(** [normalizedBatchSize] *)
Definition normalizedBatchSize (batchSize : scalar) : Z :=
  match batchSize with
  | JsNumber (Fin q) => if Qle_bool 1 q then Qfloor q else 100
  | _ => 100
  end.

(** A parsed JSON value as the serializer meets it. *)
Fixpoint of_json (j : json) : value :=
  match j with
  | JNull => VNull
  | JBool b => VBool b
  | JNum n => VNum n
  | JStr s => VStr s
  | JArr l => VArr (map of_json l)
  | JObj l => VObj (map (fun kv => (kv.1, of_json kv.2)) l)
  end.

Definition status_of_outcome (s : local_status) : mutation_status :=
  match s with LocalConflict => Conflict | LocalRejected => Rejected | LocalSynced => Synced end.

(** ** The session of a drain *)

(** A request: the log as it was read, and the groups that are sent. *)
Record post := { read_records : list log_record; sent_groups : list (list log_record) }.

Record session (S : Type) := { log : world S; posts : list post; generation_reads : nat }.
Arguments log {S}. Arguments posts {S}. Arguments generation_reads {S}.
Arguments Build_session {S}.

Record replay_env := {
  resourceType : string;
  batchSize : scalar;
  (* the answer to the last of the requests sent so far *)
  postReplay : list (list properties) -> result string properties;
  (* the generation of an identity at the nth reading *)
  remoteGeneration : nat -> string -> Z
}.

Section operations.
Context {S : Type} `{!RowStorage S} (e : log_env) (v : replay_env).

Abbreviation M := (ST (session S) replay_error).

Definition on_log {A} (m : ST (world S) log_error A) : M A := fun s =>
  let '(r, w) := m (log s) in
  (match r with Ok a => Ok a | Throw err => Throw (LogFailed err) end,
   Build_session w (posts s) (generation_reads s)).

Definition read_generation (identity : string) : M Z := fun s =>
  (Ok (remoteGeneration v (generation_reads s) identity),
   Build_session (log s) (posts s) (Datatypes.S (generation_reads s))).

Definition applySyncReplayResultToLocalMutationLog (r : log_record) (res : properties) : M restored :=
  match replayResultLocalStatus res with
  | Some st =>
      on_log (updateStatus e (id r) (status_name (status_of_outcome st)) (Some (of_json (JObj res))))
  | None => throw UnknownReplayStatus
  end.

Definition with_base (m : sync_mutation) (version : json) : sync_mutation := {|
  actorDeviceId := actorDeviceId m; actorUserId := actorUserId m;
  clientMutationId := clientMutationId m; mutation_model := mutation_model m;
  occurredAt := occurredAt m; offlineGrantId := offlineGrantId m; operation := operation m;
  policyHash := policyHash m; mutation_attributes := mutation_attributes m;
  mutation_baseVersion := Some version; mutation_command := mutation_command m;
  mutation_payload := mutation_payload m |}.

Definition rebaseConflictSuccessor (predecessor : log_record) (serverVersion : json) : M unit :=
  found ← on_log (pendingRecords e);
  match List.find (fun r => depends_on r (client_id predecessor)) (map plain_record found) with
  | None => mret tt
  | Some successor =>
      _ ← on_log (updateMutation e (id successor)
                    (mutation_json (with_base (mutation successor) serverVersion)));
      mret tt
  end.

(** [response.syncs] of a response that is no error. *)
Definition ensureSuccessfulResponse (response : properties) : answer (list json) :=
  if is_string "status" "error" response then Throw (ServerError (obj_get "errorMessage" response)) else
  match obj_get "syncs" response with
  | Some (JArr syncs) => Ok syncs
  | _ => Throw MissingSyncs
  end.

(** [String(result.id)] *)
Definition result_id (r : json) : answer string :=
  match r with
  | JNull => Throw NotAnObject
  | JObj l => string_of (obj_get "id" l)
  | _ => Ok "undefined"
  end.

Fixpoint responses_by_id (syncs : list json) : answer (gmap string json) :=
  match syncs with
  | [] => Ok ∅
  | r :: syncs =>
      i ← result_id r;
      later ← responses_by_id syncs;
      Ok (match later !! i with Some _ => later | None => <[i := r]> later end)
  end.

Definition falsy (v : json) : bool :=
  match v with
  | JNull | JBool false | JStr "" | JNum "0" => true
  | _ => false
  end.

Definition SYNC_STATES : list string := ["successful"; "duplicate"; "conflict"; "failed"; "rejected"].

Definition is_sync_state (states : list string) (res : properties) : bool :=
  existsb (fun state => is_string "syncState" state res) states.

(** The checked result for a group. *)
Definition result_for (responses : gmap string json) (client : string) : answer properties :=
  match responses !! client with
  | None => Throw (MissingResult client)
  | Some r =>
      if falsy r then Throw (MissingResult client) else
      match r with
      | JObj res => if is_sync_state SYNC_STATES res then Ok res else Throw (InvalidSyncState client)
      | _ => Throw (InvalidSyncState client)
      end
  end.

Definition apply_group (responses : gmap string json) (generations : gmap string Z)
    (group : list log_record) : M unit :=
  match group with
  | [] => mret tt
  | first :: _ =>
      res ← lift_result (result_for responses (client_id first));
      _ ← for_each (fun r => _ ← applySyncReplayResultToLocalMutationLog r res; mret tt) group;
      match obj_get "serverVersion" res with
      | Some version =>
          if is_sync_state ["successful"; "duplicate"] res then
            identity ← lift_result (conflictRecordIdentity first);
            generation ← read_generation identity;
            if bool_decide (generations !! client_id first = Some generation)
            then rebaseConflictSuccessor (List.last group first) version
            else mret tt
          else mret tt
      | None => mret tt
      end
  end.

(** The generation of every group's record before it is sent. *)
Fixpoint read_generations (groups : list (list log_record)) (acc : gmap string Z) :
    M (gmap string Z) :=
  match groups with
  | [] => mret acc
  | [] :: groups => read_generations groups acc
  | (first :: _) :: groups =>
      identity ← lift_result (conflictRecordIdentity first);
      generation ← read_generation identity;
      read_generations groups (<[client_id first := generation]> acc)
  end.

Definition send (records : list log_record) (groups : list (list log_record)) : M properties := fun s =>
  let posts' := posts s ++ [{| read_records := records; sent_groups := groups |}] in
  (match postReplay v (map (fun p => map conflictReplayPayload (sent_groups p)) posts') with
   | Ok response => Ok response
   | Throw message => Throw (TransportFailed message)
   end, Build_session (log s) posts' (generation_reads s)).

(** A pending record of the resource. *)
Definition is_drained (r : log_record) : bool :=
  bool_decide (status r = Pending) && bool_decide (mutation_model (mutation r) = resourceType v).

(** One round; [false] when nothing is ready. *)
Definition replay_round : M bool :=
  found ← on_log (records e);
  let read := map plain_record found in
  let pending := List.filter is_drained read in
  match List.filter (is_ready read) pending with
  | [] => mret false
  | ready =>
      all_groups ← lift_result (conflictReplayGroups pending ready);
      let groups := take (Z.to_nat (normalizedBatchSize (batchSize v))) all_groups in
      generations ← read_generations groups ∅;
      response ← send read groups;
      syncs ← lift_result (ensureSuccessfulResponse response);
      responses ← lift_result (responses_by_id syncs);
      _ ← for_each (apply_group responses generations) groups;
      mret true
  end.

Fixpoint replayConflictTrackedSyncs (fuel : nat) : M unit :=
  match fuel with
  | O => throw OutOfFuel
  | Datatypes.S fuel =>
      again ← replay_round;
      if (again : bool) then replayConflictTrackedSyncs fuel else mret tt
  end.

(** ** Queueing a mutation *)

(** The arguments, with what [clientMutationId()] and [now()] return in the call. *)
Record queue_args := {
  queue_actorDeviceId : string;
  queue_actorUserId : string;
  queue_offlineGrantId : string;
  queue_policyHash : string;
  queue_clientMutationId : string;
  queue_now : option Z;
  queue_baseVersion : option json;
  queue_data : properties;
  queue_operation : string;
  queue_resourceId : string;
  queue_resourceType : string;
  queue_syncType : string
}.

(** A mutation of the record that is queued. *)
Definition same_resource (a : queue_args) (r : log_record) : bool :=
  bool_decide (mutation_model (mutation r) = queue_resourceType a) &&
  bool_decide (payload_property "resourceId" r = Some (JStr (queue_resourceId a))).

(** [new Date(Math.max(now.getTime(), predecessorTime + 1)).toISOString()] *)
Definition queue_time (a : queue_args) (predecessor : option log_record) : answer string :=
  match queue_now a with
  | None => Throw InvalidTime
  | Some t =>
      time ← (match predecessor with
              | None => Ok t
              | Some r => match iso_value (occurredAt (mutation r)) with
                          | Some u => Ok (Z.max t (u + 1))
                          | None => Throw InvalidTime
                          end
              end : answer Z);
      if Z.abs time <=? MAX_TIME then Ok (toISOString time) else Throw InvalidTime
  end.

Definition queued_members (a : queue_args) (time : string) : properties :=
  [("actorDeviceId", JStr (queue_actorDeviceId a)); ("actorUserId", JStr (queue_actorUserId a));
   ("attributes", JObj (queue_data a))] ++ present "baseVersion" (queue_baseVersion a) ++
  [("clientMutationId", JStr (queue_clientMutationId a)); ("model", JStr (queue_resourceType a));
   ("occurredAt", JStr time); ("offlineGrantId", JStr (queue_offlineGrantId a));
   ("operation", JStr (queue_operation a));
   ("payload", JObj [("resourceId", JStr (queue_resourceId a)); ("syncType", JStr (queue_syncType a))]);
   ("policyHash", JStr (queue_policyHash a))].

Definition queued_mutation (a : queue_args) (time : string) : json := JObj (queued_members a time).

Definition queueConflictTrackedSync (a : queue_args) : M log_record :=
  found ← on_log (records e);
  let predecessor := last (List.filter (same_resource a) (map plain_record found)) in
  time ← lift_result (queue_time a predecessor);
  let deps := match predecessor with
              | Some r => [JObj [("clientMutationId", JStr (client_id r));
                                 ("model", JStr (queue_resourceType a))]]
              | None => []
              end in
  on_log (append e (Some (JArr deps)) (queued_mutation a time) None).

End operations.
