(* ===== verification/SyncReplayCorrect.v ===== *)
(** * Replay of conflict-tracked mutations: correctness

    The drain of [SyncReplay.v] over any row storage that keeps its contract
    ([LocalMutationLogCorrect.v]) and any server: it ends, sends every mutation at
    most once, sends the first mutation of a request only when everything it depends on is
    synced, and leaves nothing that is ready. A mutation that joins the request of another
    waits for that one only ([successor_sent_before_its_dependency]). The log must be [ordered]: a record depends
    on earlier records only, as queueing keeps it. *)

From stdpp Require Import base functions gmap strings list sorting pretty.
From Stdlib Require Import ZArith Ascii QArith Qround Lia.
From S2P Require Import Prelude Sql Json StableJson Dates ConflictStrategy Transport.
From S2P Require Import LocalMutationLog LocalMutationLogCorrect SyncReplay.
Open Scope Z_scope.

Lemma List_filter_subseteq {A} (f : A -> bool) l : List.filter f l ⊆ l.
Proof. intros x. rewrite elem_of_List_filter. by intros [_ ?]. Qed.

(** ** Groups *)

(** [s] joins [tail] in its group. *)
Definition joins (tail s : log_record) : Prop :=
  depends_on s (client_id tail) = true /\ canCoalesceConflictRecords tail s = Ok true.

Fixpoint chained (pending : list log_record) (tail : log_record) (rest : list log_record) : Prop :=
  match rest with
  | [] => True
  | s :: rest => s ∈ pending /\ joins tail s /\ chained pending s rest
  end.

Lemma string_of_fuel v : string_of v <> Throw OutOfFuel.
Proof. unfold string_of. by repeat case_match. Qed.

Lemma identity_fuel r : conflictRecordIdentity r <> Throw OutOfFuel.
Proof.
  unfold conflictRecordIdentity. pose proof (string_of_fuel (payload_property "resourceId" r)).
  destruct (string_of _); cbn; congruence.
Qed.

Lemma coalesce_fuel a b : canCoalesceConflictRecords a b <> Throw OutOfFuel.
Proof.
  unfold canCoalesceConflictRecords. pose proof (identity_fuel a). pose proof (identity_fuel b).
  case_match; [done|]. destruct (conflictRecordIdentity a); cbn; [|congruence].
  destruct (conflictRecordIdentity b); cbn; [|congruence]. by repeat case_match.
Qed.

Lemma coalesce_identity a b : canCoalesceConflictRecords a b = Ok true ->
  exists i, conflictRecordIdentity a = Ok i /\ conflictRecordIdentity b = Ok i.
Proof.
  unfold canCoalesceConflictRecords. case_match; [done|].
  intros H'. apply result_bind_Ok in H' as (i & Hi & H'). apply result_bind_Ok in H' as (j & Hj & H').
  exists i. split; [done|]. case_match eqn:Hij; [done|].
  apply negb_false_iff, bool_decide_eq_true in Hij. congruence.
Qed.

Lemma successors_chained fuel pending tail rest :
  successors fuel pending tail = Ok rest -> chained pending tail rest.
Proof.
  revert tail rest. induction fuel as [|fuel IH]; intros tail rest; cbn;
    destruct (List.find _ pending) as [s|] eqn:Hs; try by intros [= <-].
  - intros H. apply result_bind_Ok in H as (b & _ & H). destruct b; cbn in H; by simplify_eq.
  - intros H. apply result_bind_Ok in H as (b & Hb & H). destruct b; cbn in H; [|by simplify_eq].
    apply result_bind_Ok in H as (l & Hl & H). simplify_eq. apply List.find_some in Hs as [Hin Hs].
    cbn. split_and!; [by apply list_elem_of_In|done..|]. by apply IH.
Qed.

Section ordered_list.
Context (read : list log_record).
Context (later : forall a b, a ∈ read -> b ∈ read -> depends_on b (client_id a) = true ->
  sequence a < sequence b).

Definition after (tail : log_record) (l : list log_record) : list log_record :=
  List.filter (fun r => sequence tail <? sequence r) l.

Lemma after_shrinks tail s l : s ∈ l -> sequence tail < sequence s ->
  (length (after s l) < length (after tail l))%nat.
Proof.
  intros Hin Hs. unfold after. assert (forall l,
    (length (List.filter (fun r => sequence s <? sequence r)%Z l) <=
     length (List.filter (fun r => sequence tail <? sequence r)%Z l))%nat) as Hle.
  { clear l Hin. intros l. induction l as [|y l IH]; cbn; [done|].
    destruct (Z.ltb_spec (sequence s) (sequence y)), (Z.ltb_spec (sequence tail) (sequence y));
      cbn; lia. }
  induction l as [|x l IH]; [by apply elem_of_nil in Hin|].
  apply elem_of_cons in Hin as [<-|Hin]; cbn.
  - rewrite Z.ltb_irrefl, (proj2 (Z.ltb_lt _ _)) by done. cbn. specialize (Hle l). lia.
  - specialize (IH Hin).
    destruct (Z.ltb_spec (sequence s) (sequence x)), (Z.ltb_spec (sequence tail) (sequence x));
      cbn; lia.
Qed.

Lemma successors_fuel fuel pending tail : pending ⊆ read -> tail ∈ read ->
  (length (after tail pending) <= fuel)%nat -> successors fuel pending tail <> Throw OutOfFuel.
Proof.
  intros Hsub. revert tail. induction fuel as [|fuel IH]; intros tail Htail Hfuel; cbn;
    destruct (List.find _ pending) as [s|] eqn:Hs; try done;
    apply List.find_some in Hs as [Hin%list_elem_of_In Hs];
    pose proof (after_shrinks tail s pending Hin (later _ _ Htail (Hsub _ Hin) Hs));
    pose proof (coalesce_fuel tail s); destruct (canCoalesceConflictRecords tail s) as [[]|]; cbn;
    try congruence; [lia|].
  specialize (IH s (Hsub _ Hin)). destruct (successors fuel pending s); cbn; [done|].
  intros [= ->]. by apply IH; [lia|].
Qed.

Lemma after_length tail l : (length (after tail l) <= length l)%nat.
Proof. unfold after. induction l as [|x l IH]; cbn; [done|]. case_match; cbn; lia. Qed.

Lemma groups_fuel pending ready selected : pending ⊆ read -> ready ⊆ read ->
  groups_from pending ready selected <> Throw OutOfFuel.
Proof.
  intros Hp. revert selected. induction ready as [|r ready IH]; intros selected Hr; cbn; [done|].
  assert (ready ⊆ read) as Hready by set_solver.
  pose proof (identity_fuel r). destruct (conflictRecordIdentity r) as [i|]; cbn; [|congruence].
  case_decide; [by apply IH|]. assert (r ∈ read) as Hin by set_solver.
  pose proof (successors_fuel (length pending) pending r Hp Hin (after_length _ _)).
  destruct (successors _ _ _); cbn; [|congruence].
  specialize (IH (i :: selected) Hready). destruct (groups_from _ _ _); cbn; congruence.
Qed.

(** Each group is a ready record with its chain; the identities are distinct. *)
Inductive grouped (pending ready : list log_record) :
    list string -> list (list log_record) -> Prop :=
| no_group selected : grouped pending ready selected []
| more_groups selected head rest i groups :
    head ∈ ready -> conflictRecordIdentity head = Ok i -> i ∉ selected ->
    chained pending head rest -> grouped pending ready (i :: selected) groups ->
    grouped pending ready selected ((head :: rest) :: groups).

Lemma grouped_mono pending ready ready' selected groups : ready ⊆ ready' ->
  grouped pending ready selected groups -> grouped pending ready' selected groups.
Proof using Type.
  clear later read. intros Hsub. induction 1; econstructor; eauto. Qed.

Lemma groups_grouped pending ready selected groups :
  groups_from pending ready selected = Ok groups -> grouped pending ready selected groups.
Proof using Type.
  clear later read.
  revert selected groups. induction ready as [|r ready IH]; intros selected groups; cbn.
  - intros [= <-]. constructor.
  - intros H. apply result_bind_Ok in H as (i & Hi & H). case_decide as Hsel.
    + eapply grouped_mono; [|by apply IH]. set_solver.
    + apply result_bind_Ok in H as (rest & Hrest & H). apply result_bind_Ok in H as (gs & Hgs & H).
      simplify_eq. econstructor; [by left|done..|by eapply successors_chained|].
      eapply grouped_mono; [|by apply IH]. set_solver.
Qed.

Lemma grouped_take n pending ready selected groups :
  grouped pending ready selected groups -> grouped pending ready selected (take n groups).
Proof using Type.
  clear later read.
  intros H. revert n. induction H; intros [|n]; try constructor. econstructor; eauto.
Qed.

Lemma groups_nonempty pending r ready groups :
  groups_from pending (r :: ready) [] = Ok groups -> groups <> [].
Proof using Type.
  clear later read.
  cbn. intros H ->. apply result_bind_Ok in H as (i & _ & H). case_decide; [set_solver|].
  apply result_bind_Ok in H as (rest & _ & H). apply result_bind_Ok in H as (gs & _ & H). done.
Qed.

(** The members of a chain share the identity and come later. *)
Lemma chained_members pending tail rest i : pending ⊆ read -> tail ∈ read ->
  conflictRecordIdentity tail = Ok i -> chained pending tail rest ->
  Forall (fun r => r ∈ pending /\ conflictRecordIdentity r = Ok i /\ sequence tail < sequence r) rest /\
  NoDup rest.
Proof.
  intros Hsub. revert tail. induction rest as [|s rest IH]; intros tail Htail Hi; cbn.
  - intros _. split; constructor.
  - intros (Hin & [Hdep Hjoin] & Hrest). apply coalesce_identity in Hjoin as (j & Hj & Hs).
    assert (j = i) as -> by congruence.
    pose proof (later _ _ Htail (Hsub _ Hin) Hdep) as Hlt.
    destruct (IH s (Hsub _ Hin) Hs Hrest) as [Hall Hnd]. split.
    + constructor; [done|]. eapply Forall_impl; [exact Hall|]. intros r (? & ? & ?).
      split_and!; [done..|lia].
    + constructor; [|done]. intros Hs'. rewrite Forall_forall in Hall.
      destruct (Hall s Hs') as (_ & _ & ?). lia.
Qed.

Lemma grouped_NoDup pending ready selected groups : pending ⊆ read -> ready ⊆ pending ->
  grouped pending ready selected groups ->
  Forall (fun r => r ∈ pending /\ exists i, conflictRecordIdentity r = Ok i /\ i ∉ selected)
    (concat groups) /\ NoDup (concat groups).
Proof.
  intros Hsub Hready. induction 1 as [|selected head rest i groups Hhead Hi Hsel Hchain Hg [IH1 IH2]].
  { split; constructor. }
  pose proof (Hready _ Hhead) as Hp.
  destruct (chained_members _ _ _ _ Hsub (Hsub _ Hp) Hi Hchain) as [Hall Hnd]. cbn. split.
  - constructor; [by eauto|]. apply Forall_app. split.
    + eapply Forall_impl; [exact Hall|]. intros r (? & ? & _). eauto.
    + eapply Forall_impl; [exact IH1|]. intros r (? & j & ? & Hj). split; [done|].
      exists j. split; [done|]. intros Hsel'. apply Hj. by right.
  - rewrite Forall_forall in Hall, IH1.
    assert (forall r, r ∈ concat groups -> conflictRecordIdentity r <> Ok i) as Hdiff.
    { intros r Hr Heq. destruct (IH1 r Hr) as (_ & j & Hj & Hnot). apply Hnot.
      assert (j = i) as -> by congruence. by left. }
    constructor.
    + rewrite elem_of_app. intros [Hr|Hr]; [|by apply (Hdiff head)].
      destruct (Hall _ Hr) as (_ & _ & ?). lia.
    + apply NoDup_app. split_and!; [done| |done]. intros r Hr Hr'.
      apply (Hdiff r Hr'). by apply Hall.
Qed.
End ordered_list.

(** ** How the log moves in a drain *)

(** The record keeps its place; one that is settled stays settled. *)
Record advance (r r' : log_record) : Prop := {
  same_id : id r' = id r;
  same_sequence : sequence r' = sequence r;
  same_dependencies : dependencies r' = dependencies r;
  same_client : client_id r' = client_id r;
  same_model : mutation_model (mutation r') = mutation_model (mutation r);
  stays_settled : status r' = Pending -> status r = Pending
}.

#[export] Instance advance_preorder : PreOrder advance.
Proof.
  split; [done|]. intros a b c [] []. split; [congruence..|auto].
Qed.

Definition advances (L L' : log_table) : Prop := forall i,
  match L !! i, L' !! i with
  | Some r, Some r' => advance r r'
  | None, None => True
  | _, _ => False
  end.

#[export] Instance advances_preorder : PreOrder advances.
Proof.
  split.
  - intros L i. by case_match.
  - intros a b c Hab Hbc i. specialize (Hab i). specialize (Hbc i).
    destruct (a !! i), (b !! i), (c !! i); try done. by etrans.
Qed.

Lemma advances_lookup L L' i r' : advances L L' -> L' !! i = Some r' ->
  exists r, L !! i = Some r /\ advance r r'.
Proof. intros H Hr. specialize (H i). rewrite Hr in H. destruct (L !! i); [eauto|done]. Qed.

Lemma advances_forward L L' i r : advances L L' -> L !! i = Some r ->
  exists r', L' !! i = Some r' /\ advance r r'.
Proof. intros H Hr. specialize (H i). rewrite Hr in H. destruct (L' !! i); [eauto|done]. Qed.

Lemma advances_insert L i r r' : L !! i = Some r -> advance r r' -> advances L (<[i := r']> L).
Proof.
  intros Hr Hadv j. destruct (decide (i = j)) as [<-|Hj].
  - by rewrite Hr, lookup_insert_eq.
  - rewrite lookup_insert_ne by done. by case_match.
Qed.

(** A record depends on earlier records only. *)
Definition ordered (L : log_table) : Prop := forall i j a b,
  L !! i = Some a -> L !! j = Some b -> depends_on b (client_id a) = true -> sequence a < sequence b.

Lemma ordered_advances L L' : ordered L -> advances L L' -> ordered L'.
Proof.
  intros Ho Hadv i j a' b' Ha Hb Hd.
  destruct (advances_lookup _ _ _ _ Hadv Ha) as (a & Ha0 & []).
  destruct (advances_lookup _ _ _ _ Hadv Hb) as (b & Hb0 & []).
  rewrite same_sequence0, same_sequence1. eapply Ho; [done..|].
  unfold depends_on in *. by rewrite <- same_dependencies1, <- same_client0.
Qed.

Definition settled (L : log_table) (i : string) : Prop :=
  exists r, L !! i = Some r /\ status r <> Pending.

Lemma settled_advances L L' i : settled L i -> advances L L' -> settled L' i.
Proof.
  intros (r & Hr & Hst) Hadv. destruct (advances_forward _ _ _ _ Hadv Hr) as (r' & Hr' & []).
  exists r'. auto.
Qed.

(** The ids of the pending records of the resource. *)
Definition pending_ids (v : replay_env) (L : log_table) : gset string :=
  dom (filter (fun kv => is_drained v kv.2 = true) L).

Lemma elem_of_pending_ids v L i :
  i ∈ pending_ids v L <-> exists r, L !! i = Some r /\ is_drained v r = true.
Proof.
  unfold pending_ids. rewrite elem_of_dom. split.
  - intros [r [? ?]%map_lookup_filter_Some]. eauto.
  - intros (r & ? & ?). exists r. by apply map_lookup_filter_Some.
Qed.

Lemma pending_ids_advances v L L' : advances L L' -> pending_ids v L' ⊆ pending_ids v L.
Proof.
  intros Hadv i. rewrite !elem_of_pending_ids. intros (r' & Hr' & Hd).
  destruct (advances_lookup _ _ _ _ Hadv Hr') as (r & Hr & []). exists r. split; [done|].
  unfold is_drained in *. rewrite andb_true_iff, !bool_decide_eq_true in *.
  destruct Hd as [Hp Hm]. split; [auto|congruence].
Qed.

Lemma settled_not_pending v L i : settled L i -> i ∉ pending_ids v L.
Proof.
  intros (r & Hr & Hst). rewrite elem_of_pending_ids. intros (r' & Hr' & Hd).
  unfold is_drained in Hd. rewrite andb_true_iff, bool_decide_eq_true in Hd. naive_solver.
Qed.

(** ** What is sent *)

Definition sent_records (ps : list post) : list log_record := concat (concat (map sent_groups ps)).

(** The first record of a group is ready in the log that was read, each later one
    is pending and depends on the one before it, with which it shares the request. *)
Definition safe_group (v : replay_env) (read group : list log_record) : Prop :=
  match group with
  | [] => False
  | head :: rest =>
      head ∈ read /\ is_drained v head = true /\
      (forall d, d ∈ dependencies head -> status_of read (dependency_id d) = Some Synced) /\
      chained (List.filter (is_drained v) read) head rest
  end.

(** Every group sent is safe, and no record is sent twice. *)
Definition safe_posts (v : replay_env) (ps : list post) : Prop :=
  Forall (fun p => Forall (safe_group v (read_records p)) (sent_groups p)) ps /\
  NoDup (map id (sent_records ps)).

(** Every pending record of the resource waits for another. *)
Definition nothing_ready (v : replay_env) (read : list log_record) : Prop :=
  Forall (fun r => is_drained v r = true ->
    exists d, d ∈ dependencies r /\ status_of read (dependency_id d) <> Some Synced) read.

Lemma is_ready_spec read r : is_ready read r = true <->
  forall d, d ∈ dependencies r -> status_of read (dependency_id d) = Some Synced.
Proof.
  unfold is_ready. rewrite forallb_forall. setoid_rewrite bool_decide_eq_true.
  by setoid_rewrite <- list_elem_of_In.
Qed.

Lemma nothing_ready_filter v read :
  List.filter (is_ready read) (List.filter (is_drained v) read) = [] -> nothing_ready v read.
Proof.
  intros H. apply Forall_forall. intros r Hr Hd. destruct (is_ready read r) eqn:Hready.
  - assert (r ∈ ([] : list log_record)) as []%elem_of_nil.
    rewrite <- H, !elem_of_List_filter. done.
  - unfold is_ready in Hready. apply not_true_iff_false in Hready.
    assert (~ Forall (fun d => status_of read (dependency_id d) = Some Synced) (dependencies r)) as Hn.
    { intros Hall. apply Hready, is_ready_spec. by apply Forall_forall. }
    apply not_Forall_Exists in Hn; [|apply _]. by apply Exists_exists in Hn.
Qed.

Lemma normalizedBatchSize_pos n : 1 <= normalizedBatchSize n.
Proof.
  unfold normalizedBatchSize. destruct n as [| | |[q| | |]|]; try lia.
  destruct (Qle_bool 1 q) eqn:Hq; [|lia]. apply Qle_bool_iff in Hq.
  change 1 with (Qfloor 1). by apply Qfloor_resp_le.
Qed.

Lemma sent_records_app ps read groups :
  sent_records (ps ++ [{| read_records := read; sent_groups := groups |}]) =
  sent_records ps ++ concat groups.
Proof. unfold sent_records. rewrite map_app, !concat_app. cbn. by rewrite app_nil_r. Qed.

Lemma grouped_safe v read selected groups :
  grouped (List.filter (is_drained v) read)
    (List.filter (is_ready read) (List.filter (is_drained v) read)) selected groups ->
  Forall (safe_group v read) groups.
Proof.
  induction 1 as [|selected head rest i groups Hhead Hi Hsel Hchain Hg IH]; constructor; [|done].
  rewrite !elem_of_List_filter in Hhead. destruct Hhead as (Hready & Hd & Hin).
  split_and!; [done..| |done]. by apply is_ready_spec.
Qed.

(** ** Statements of a drain *)

Section drain.
Context {S : Type} `{!RowStorage S, !RowView S, !RowStorageLaws S} (e : log_env) (v : replay_env).
Context (fresh_ids : forall a b, idGenerator e a = idGenerator e b -> a = b).

Abbreviation table s := (rows (store (log s)) (storageKey e)).
Abbreviation session := (session S).
Abbreviation M := (ST session replay_error).

(** The statement returns with [P], the log well formed and advanced, and the
    requests as they were; or it throws, and not for want of fuel. *)
Definition gone {A} (P : A -> session -> Prop) (s : session) (o : answer A) (s' : session) : Prop :=
  posts s' = posts s /\
  match o with
  | Ok a => log_ok e (log s') /\ advances (table s) (table s') /\ P a s'
  | Throw err => err <> OutOfFuel
  end.

Definition goes {A} (m : M A) (P : A -> session -> Prop) (s : session) : Prop :=
  ends m (gone P s) s.

Lemma goes_bind {A B} (m : M A) (k : A -> M B) P Q s : goes m P s ->
  (forall a s1, log_ok e (log s1) -> advances (table s) (table s1) -> P a s1 -> goes (k a) Q s1) ->
  goes (m ≫= k) Q s.
Proof.
  intros Hm Hk. apply ends_bind. eapply ends_mono; [exact Hm|].
  intros [a|err] s1 [Hp H]; [|done]. destruct H as (Hok & Hadv & HP).
  eapply ends_mono; [by apply (Hk a s1)|]. intros [b|err] s2 [Hp2 H2]; (split; [congruence|]); [|done].
  destruct H2 as (? & ? & ?). split_and!; [done|by etrans|done].
Qed.

Lemma goes_mono {A} (m : M A) (P Q : A -> session -> Prop) s :
  goes m P s -> (forall a s', P a s' -> Q a s') -> goes m Q s.
Proof.
  intros Hm HPQ. eapply ends_mono; [exact Hm|]. intros [a|err] s' [Hp H]; [|done].
  split; [done|]. destruct H as (? & ? & ?). auto.
Qed.

Lemma goes_ret {A} (a : A) (P : A -> session -> Prop) s :
  log_ok e (log s) -> P a s -> goes (mret a) P s.
Proof. done. Qed.

Lemma goes_lift {A} (r : answer A) s : log_ok e (log s) -> r <> Throw OutOfFuel ->
  goes (lift_result r) (fun a _ => r = Ok a) s.
Proof. intros Hok Hr. unfold goes, ends, gone. cbn. destruct r; naive_solver. Qed.

Lemma goes_for_each {A} (f : A -> M unit) (P : A -> session -> Prop) xs s :
  log_ok e (log s) ->
  (forall x s1, x ∈ xs -> log_ok e (log s1) -> advances (table s) (table s1) ->
    goes (f x) (fun _ => P x) s1) ->
  (forall x s1 s2, P x s1 -> advances (table s1) (table s2) -> P x s2) ->
  goes (for_each f xs) (fun _ s' => forall x, x ∈ xs -> P x s') s.
Proof.
  intros Hok Hf Hstable. revert s Hok Hf. induction xs as [|x xs IH]; intros s Hok Hf.
  - apply goes_ret; [done|]. by intros x []%elem_of_nil.
  - cbn. eapply goes_bind; [apply Hf; [by left|done|done]|]. intros [] s1 Hok1 Hadv1 Hx.
    assert (goes (for_each f xs) (fun _ s' => forall x, x ∈ xs -> P x s') s1) as Hxs.
    { apply IH; [done|]. intros y s2 Hy Hok2 Hadv2. apply Hf; [by right|done|by etrans]. }
    eapply ends_mono; [exact Hxs|]. intros [b|err] s2 [Hp H]; (split; [done|]); [|done].
    destruct H as (Hok2 & Hadv2 & HP). split_and!; [done..|].
    intros y [->|Hy]%elem_of_cons; [by eapply Hstable|by apply HP].
Qed.

(** A method of the log, through what it does. *)
Lemma goes_on_log {A} (m : ST (world S) log_error A) (Q : A -> log_table -> Prop) s :
  does e m Q (log s) -> (forall a L, Q a L -> advances (table s) L) ->
  goes (on_log m) (fun a s' => Q a (table s')) s.
Proof.
  intros Hm Hadv. unfold does, done_or_thrown, goes, gone, ends, on_log in *. destruct (m (log s)) as [[a|err] w]; cbn in *.
  - destruct Hm as (L & HQ & Hok & HL & _). rewrite HL. split_and!; [done..|by eapply Hadv|done].
  - done.
Qed.

Lemma read_generation_goes i s : log_ok e (log s) ->
  goes (read_generation v i) (fun _ _ => True) s.
Proof. done. Qed.

(** Reading the log: the records as they are, in order. *)
Lemma listing_goes statuses m s : log_ok e (log s) ->
  m = (found ← on_store (storage_records (storageKey e) statuses);
       lift_result (normalizeRecordList e found)) ->
  goes (on_log m) (fun found s' => lists_records e statuses (table s') found /\
    table s' = table s) s.
Proof.
  intros Hok ->. pose proof (listing_idles e fresh_ids statuses (log s) Hok) as H.
  set (m := mbind _ _) in *. clearbody m. unfold idles, idled, goes, gone, ends, on_log in *.
  destruct (m (log s)) as [[found|err] w]; cbn in *.
  - destruct H as [Hs Hl]. rewrite (same_table _ _ Hs).
    split_and!; [done|by eapply log_ok_same|done..].
  - done.
Qed.
(** What holds of the log before a statement and survives its advances. *)
Lemma goes_frame {A} (m : M A) (K : log_table -> Prop) s : goes m (fun _ _ => True) s ->
  (forall L L', K L -> advances L L' -> K L') -> K (table s) ->
  goes m (fun _ s' => K (table s')) s.
Proof.
  intros Hm HK Hs. eapply ends_mono; [exact Hm|]. intros [a|err] s' [Hp H]; [|done].
  split; [done|]. destruct H as (? & ? & _). split_and!; [done..|by eapply HK].
Qed.

(** ** The answers of the server *)

Lemma normalizeMutation_keeps m m' : normalizeMutation (Some (mutation_json m)) = Ok m' ->
  clientMutationId m' = clientMutationId m /\ mutation_model m' = mutation_model m.
Proof.
  destruct (mutation_get m) as (E1 & E2 & E3 & E4 & E5 & E6 & E7 & E8 & E9 & E10 & E11 & E12).
  unfold normalizeMutation, mutation_json. rewrite E3, E4. intros H. checks. cbn.
  repeat match goal with H : requiredString (Some (JStr _)) _ = Ok _ |- _ =>
    apply requiredString_str in H end. done.
Qed.

Lemma status_advances L i name res x L' st : log_step e L (UpdateStatus i name res) (Updated x) L' ->
  read_status name = Ok st -> st <> Pending -> advances L L' /\ settled L' i.
Proof.
  intros H Hst Hne. inversion H as [|? ? ? st' r o t ? Hr Hst' _ Hx| | | |]; subst.
  assert (st' = st) as -> by congruence. split.
  - eapply advances_insert; [done|]. rewrite Hx. by split.
  - exists (plain_record x). rewrite lookup_insert_eq, Hx. done.
Qed.

Lemma mutation_advances L i m x L' r : log_step e L (UpdateMutation i (mutation_json m)) (Updated x) L' ->
  L !! i = Some r -> clientMutationId m = client_id r ->
  mutation_model m = mutation_model (mutation r) -> advances L L'.
Proof.
  intros H Hr Hc Hm. inversion H as [| |? ? m' r' t ? Hr' _ Hm' Hx| | |]; subst.
  assert (r' = r) as -> by congruence. apply normalizeMutation_keeps in Hm' as [Hc' Hmodel].
  eapply advances_insert; [done|]. rewrite Hx. unfold client_id in *.
  split; try done; unfold client_id; cbn; congruence.
Qed.

Lemma outcome_is_settled st : status_of_outcome st <> Pending.
Proof. by destruct st. Qed.

Lemma apply_result_goes r res s : log_ok e (log s) ->
  goes (applySyncReplayResultToLocalMutationLog e r res) (fun _ s' => settled (table s') (id r)) s.
Proof.
  intros Hok. unfold applySyncReplayResultToLocalMutationLog.
  destruct (replayResultLocalStatus res) as [st|]; [|done].
  pose proof (read_status_name (status_of_outcome st)) as Hname.
  eapply goes_mono; [apply goes_on_log; [by apply updateStatus_does|]|].
  - intros x L Hstep. eapply status_advances in Hstep as [? _]; [done|exact Hname|].
    apply outcome_is_settled.
  - intros x s' Hstep. eapply status_advances in Hstep as [_ ?]; [done|exact Hname|].
    apply outcome_is_settled.
Qed.

Lemma listed_lookup statuses s found r : log_ok e (log s) ->
  lists_records e statuses (table s) found -> r ∈ map plain_record found ->
  table s !! id r = Some r.
Proof.
  intros Hok (_ & Hl & _). rewrite Hl, elem_of_List_filter, records_of_lookup by apply Hok. tauto.
Qed.

Lemma rebase_goes predecessor version s : log_ok e (log s) ->
  goes (rebaseConflictSuccessor e predecessor version) (fun _ _ => True) s.
Proof.
  intros Hok. unfold rebaseConflictSuccessor.
  eapply goes_bind; [by apply (listing_goes (Some PENDING_STATUS_VALUES))|].
  intros found s1 Hok1 _ [Hl Htable].
  destruct (List.find _ (map plain_record found)) as [r|] eqn:Hr; [|by apply goes_ret].
  apply List.find_some in Hr as [Hr%list_elem_of_In _].
  pose proof (listed_lookup _ _ _ _ Hok1 Hl Hr) as Hlookup.
  eapply goes_bind; [apply goes_on_log; [by apply updateMutation_does|]|].
  - intros x L Hstep. eapply mutation_advances; [exact Hstep|exact Hlookup|done|done].
  - intros x s2 Hok2 _ _. by apply goes_ret.
Qed.

Lemma result_for_fuel responses client : result_for responses client <> Throw OutOfFuel.
Proof. unfold result_for. by repeat case_match. Qed.

Definition group_settled (g : list log_record) (L : log_table) : Prop :=
  forall r, r ∈ g -> settled L (id r).

Lemma group_settled_stable g L L' : group_settled g L -> advances L L' -> group_settled g L'.
Proof. intros H Hadv r Hr. eapply settled_advances; [by apply H|done]. Qed.

Lemma apply_group_goes responses generations g s : log_ok e (log s) ->
  goes (apply_group e v responses generations g) (fun _ s' => group_settled g (table s')) s.
Proof.
  intros Hok. destruct g as [|first rest]; [apply goes_ret; [done|]; by intros r []%elem_of_nil|].
  cbn [apply_group]. set (g := first :: rest).
  eapply goes_bind; [apply goes_lift; [done|apply result_for_fuel]|]. intros res s1 Hok1 _ _.
  eapply goes_bind.
  { apply (goes_for_each _ (fun r s' => settled (table s') (id r))); [done| |].
    - intros r s2 _ Hok2 _. eapply goes_bind; [by apply apply_result_goes|].
      intros x s3 Hok3 _ Hset. by apply goes_ret.
    - intros r s2 s3. apply settled_advances. }
  intros [] s2 Hok2 _ Hset. apply goes_frame; [|apply group_settled_stable|done].
  destruct (obj_get "serverVersion" res) as [version|]; [|by apply goes_ret].
  destruct (is_sync_state _ res); [|by apply goes_ret].
  eapply goes_bind; [apply goes_lift; [done|apply identity_fuel]|]. intros i s3 Hok3 _ _.
  eapply goes_bind; [by apply read_generation_goes|]. intros generation s4 Hok4 _ _.
  case_bool_decide; [by apply rebase_goes|by apply goes_ret].
Qed.

Lemma read_generations_goes groups acc s : log_ok e (log s) ->
  goes (read_generations v groups acc) (fun _ _ => True) s.
Proof.
  revert acc s. induction groups as [|[|first rest] groups IH]; intros acc s Hok; cbn.
  - by apply goes_ret.
  - by apply IH.
  - eapply goes_bind; [apply goes_lift; [done|apply identity_fuel]|]. intros i s1 Hok1 _ _.
    eapply goes_bind; [by apply read_generation_goes|]. intros generation s2 Hok2 _ _. by apply IH.
Qed.

Lemma responses_fuel syncs : responses_by_id syncs <> Throw OutOfFuel.
Proof.
  induction syncs as [|r syncs IH]; [done|]. cbn.
  assert (result_id r <> Throw OutOfFuel).
  { destruct r; try done. apply string_of_fuel. }
  destruct (result_id r); cbn; [|congruence]. destruct (responses_by_id syncs); cbn; congruence.
Qed.

Lemma ensure_fuel response : ensureSuccessfulResponse response <> Throw OutOfFuel.
Proof. unfold ensureSuccessfulResponse. by repeat case_match. Qed.

(** ** A round *)

Record drain_ok (s : session) : Prop := {
  drain_log : log_ok e (log s);
  drain_ordered : ordered (table s);
  drain_safe : safe_posts v (posts s);
  drain_settled : forall r, r ∈ sent_records (posts s) -> settled (table s) (id r)
}.

Lemma drain_ok_goes s s' : drain_ok s -> log_ok e (log s') -> advances (table s) (table s') ->
  posts s' = posts s -> drain_ok s'.
Proof.
  intros [Hl Ho Hs Hset] Hok Hadv Hp. split; rewrite ?Hp; try done.
  - by eapply ordered_advances.
  - intros r Hr. eapply settled_advances; [by apply Hset|done].
Qed.

(** The records read are those of the table, in their order. *)
Definition reads (L : log_table) (read : list log_record) : Prop :=
  Sorted (fun a b => sequence a < sequence b) read /\ read ≡ₚ records_of L.

Lemma listed_reads L found : lists_records e None L found -> reads L (map plain_record found).
Proof.
  intros (Hs & Hl & _). split; [done|]. rewrite Hl.
  clear. induction (records_of L) as [|r l IH]; [done|]. cbn. by apply perm_skip.
Qed.

Lemma reads_lookup s read r : log_ok e (log s) -> reads (table s) read ->
  r ∈ read <-> table s !! id r = Some r.
Proof. intros Hok [_ ->]. by apply records_of_lookup, Hok. Qed.

Lemma reads_later s read : log_ok e (log s) -> ordered (table s) -> reads (table s) read ->
  forall a b, a ∈ read -> b ∈ read -> depends_on b (client_id a) = true -> sequence a < sequence b.
Proof.
  intros Hok Ho Hr a b. rewrite !(reads_lookup s) by done. intros Ha Hb. by apply Ho with (id a) (id b).
Qed.

(** The rest of a round, once the answer is there. *)
Lemma answered_goes response generations groups s : log_ok e (log s) ->
  goes (syncs ← lift_result (ensureSuccessfulResponse response);
        responses ← lift_result (responses_by_id syncs);
        _ ← for_each (apply_group e v responses generations) groups;
        mret true)
    (fun again s' => again = true /\ forall g, g ∈ groups -> group_settled g (table s')) s.
Proof.
  intros Hok.
  eapply goes_bind; [apply goes_lift; [done|apply ensure_fuel]|]. intros syncs s1 Hok1 _ _.
  eapply goes_bind; [apply goes_lift; [done|apply responses_fuel]|]. intros responses s2 Hok2 _ _.
  eapply goes_bind; [apply (goes_for_each _ (fun g s' => group_settled g (table s'))); [done| |]|].
  - intros g s3 _ Hok3 _. by apply apply_group_goes.
  - intros g s3 s4. apply group_settled_stable.
  - intros [] s3 Hok3 _ Hset. by apply goes_ret.
Qed.

(** Sending the groups of the records that are ready. *)
Lemma sending_is_safe s read groups n : drain_ok s -> reads (table s) read ->
  conflictReplayGroups (List.filter (is_drained v) read)
    (List.filter (is_ready read) (List.filter (is_drained v) read)) = Ok groups ->
  safe_posts v (posts s ++ [{| read_records := read; sent_groups := take n groups |}]) /\
  forall r, r ∈ concat (take n groups) -> table s !! id r = Some r /\ is_drained v r = true.
Proof.
  intros [Hl Ho [Hsafe Hnd] Hset] Hread Hgroups. apply groups_grouped in Hgroups.
  apply (grouped_take n) in Hgroups. set (sent := take n groups) in *.
  destruct (grouped_NoDup read (reads_later s read Hl Ho Hread) _ _ _ _
    (List_filter_subseteq _ _) (List_filter_subseteq _ _) Hgroups) as [Hall Hndg].
  assert (forall r, r ∈ concat sent -> table s !! id r = Some r /\ is_drained v r = true) as Hin.
  { intros r Hr. rewrite Forall_forall in Hall. destruct (Hall r Hr) as [Hp _].
    apply elem_of_List_filter in Hp as [Hd Hp]. split; [by apply (reads_lookup s read)|done]. }
  split; [|done]. split.
  - apply Forall_app. split; [done|]. apply Forall_singleton. by eapply grouped_safe.
  - rewrite sent_records_app, map_app. apply NoDup_app. split_and!; [done| |].
    + intros i Hi Hi'. apply list_elem_of_fmap in Hi as (r & -> & Hr).
      apply list_elem_of_fmap in Hi' as (r' & Hi & Hr').
      destruct (Hin r' Hr') as [Hr'' Hd]. apply (settled_not_pending v _ _ (Hset r Hr)).
      apply elem_of_pending_ids. rewrite Hi. eauto.
    + apply NoDup_fmap_2_strong; [|done]. intros a b Ha Hb Hid.
      apply Hin in Ha as [Ha _], Hb as [Hb _]. congruence.
Qed.

(** What a round ends with. *)
Definition round_ended (s : session) (o : answer bool) (s' : session) : Prop :=
  match o with
  | Ok true => drain_ok s' /\ pending_ids v (table s') ⊂ pending_ids v (table s)
  | Ok false => drain_ok s' /\ table s' = table s /\
      exists read, reads (table s') read /\ nothing_ready v read
  | Throw err => err <> OutOfFuel /\ safe_posts v (posts s')
  end.

Lemma sent_decreases s s' groups n ready pending : (1 <= n)%nat ->
  advances (table s) (table s') ->
  groups_from pending ready [] = Ok groups -> ready <> [] ->
  (forall r, r ∈ concat (take n groups) -> table s !! id r = Some r /\ is_drained v r = true) ->
  (forall g, g ∈ take n groups -> group_settled g (table s')) ->
  pending_ids v (table s') ⊂ pending_ids v (table s).
Proof.
  intros Hn Hadv Hgroups Hready Hin Hset. destruct ready as [|first ready]; [done|].
  pose proof (groups_nonempty _ _ _ _ Hgroups) as Hne. apply groups_grouped in Hgroups.
  destruct Hgroups as [|selected head rest i groups _ _ _ _ _]; [done|].
  destruct n as [|n]; [lia|]. cbn in Hin, Hset.
  assert (head ∈ head :: rest) as Hhead by left.
  destruct (Hin head ltac:(left)) as [Hr Hd].
  specialize (Hset (head :: rest) ltac:(left) head Hhead).
  split; [by apply pending_ids_advances|]. intros Hsub.
  apply (settled_not_pending v _ _ Hset), Hsub, elem_of_pending_ids. eauto.
Qed.

Lemma replay_round_ends s : drain_ok s -> ends (replay_round e v) (round_ended s) s.
Proof.
  intros Hok. pose proof (drain_log _ Hok) as Hlog. unfold replay_round.
  eapply ends_step; [by apply (listing_goes None)| |].
  2:{ intros err s1 [Hp Herr]. split; [done|]. rewrite Hp. apply Hok. }
  intros found s1 [Hp1 (Hlog1 & Hadv1 & Hfound & Htable)].
  pose proof (drain_ok_goes _ _ Hok Hlog1 Hadv1 Hp1) as Hok1. cbv zeta.
  pose proof (listed_reads _ _ Hfound) as Hread. set (read := map plain_record found) in *.
  set (pending := List.filter (is_drained v) read).
  destruct (List.filter (is_ready read) pending) as [|first rest] eqn:Hready.
  { split_and!; [done|done|]. exists read. split; [done|].
    by apply nothing_ready_filter. }
  set (ready := first :: rest). set (n := Z.to_nat (normalizedBatchSize (batchSize v))).
  assert (1 <= n)%nat as Hn by (pose proof (normalizedBatchSize_pos (batchSize v)); lia).
  assert (conflictReplayGroups pending ready <> Throw OutOfFuel) as Hfuel.
  { apply (groups_fuel read); [by apply (reads_later s1), Hread; apply Hok1| |].
    - apply List_filter_subseteq.
    - unfold ready. rewrite <- Hready. etrans; apply List_filter_subseteq. }
  apply ends_bind, ends_lift. destruct (conflictReplayGroups pending ready) as [groups|err] eqn:Hg.
  2:{ split; [congruence|]. apply Hok1. }
  eapply ends_step; [by apply read_generations_goes| |].
  2:{ intros err s2 [Hp2 Herr]. split; [done|]. rewrite Hp2. apply Hok1. }
  intros generations s2 [Hp2 (Hlog2 & Hadv2 & _)].
  pose proof (drain_ok_goes _ _ Hok1 Hlog2 Hadv2 Hp2) as Hok2.
  pose proof Hg as Hg1. unfold ready in Hg1. rewrite <- Hready in Hg1.
  destruct (sending_is_safe s1 read groups n Hok1 Hread Hg1) as [Hsafe Hsent].
  apply ends_bind. unfold ends, send. cbn [fst snd]. rewrite Hp2.
  set (s3 := Build_session _ _ _).
  destruct (postReplay v _) as [response|message]; [|by split].
  eapply ends_mono; [apply (answered_goes response generations (take n groups) s3 Hlog2)|].
  intros [again|err] s4 [Hp4 H4]; [|split; [done|by rewrite Hp4]].
  destruct H4 as (Hlog4 & Hadv4 & -> & Hset). change (table s3) with (table s2) in Hadv4.
  assert (advances (table s1) (table s4)) as Hadv by by etrans.
  split.
  - split; rewrite ?Hp4; [done|by eapply ordered_advances, Hadv; apply Hok1|done|].
    cbn [posts s3]. rewrite sent_records_app. intros r [Hr|Hr]%elem_of_app.
    + eapply settled_advances; [by apply Hok1; rewrite Hp1 in *|done].
    + apply list_elem_of_In, in_concat in Hr as (g & Hg' & Hr).
      apply (Hset g); by apply list_elem_of_In.
  - rewrite <- Htable. eapply sent_decreases; [exact Hn|exact Hadv|exact Hg|done|exact Hsent|done].
Qed.

(** ** The drain *)

Lemma drain_ends fuel s : drain_ok s ->
  ends (replayConflictTrackedSyncs e v fuel) (fun o s' =>
    match o with
    | Ok _ => drain_ok s' /\ exists read, reads (table s') read /\ nothing_ready v read
    | Throw err => safe_posts v (posts s') /\
        ((size (pending_ids v (table s)) < fuel)%nat -> err <> OutOfFuel)
    end) s.
Proof.
  revert s. induction fuel as [|fuel IH]; intros s Hok.
  { apply ends_throw. split; [apply Hok|lia]. }
  cbn [replayConflictTrackedSyncs]. eapply ends_step; [by apply replay_round_ends| |].
  2:{ intros err s1 [Herr Hsafe]. by split. }
  intros [] s1.
  - intros [Hok1 Hless]. eapply ends_mono; [by apply IH|]. intros [[]|err] s2; [done|].
    intros [Hsafe Hfuel]. split; [done|]. intros Hsize. apply Hfuel.
    apply subset_size in Hless. lia.
  - intros (Hok1 & Htable & Hread). by apply ends_ret.
Qed.

(** More fuel changes nothing once there is enough. *)
Lemma drain_fuel fuel fuel' s : (fuel <= fuel')%nat ->
  (replayConflictTrackedSyncs e v fuel s).1 <> Throw OutOfFuel ->
  replayConflictTrackedSyncs e v fuel' s = replayConflictTrackedSyncs e v fuel s.
Proof.
  revert fuel' s. induction fuel as [|fuel IH]; intros fuel' s Hle; [done|].
  destruct fuel' as [|fuel']; [lia|]. cbn [replayConflictTrackedSyncs]. unfold mbind, ST_bind.
  destruct (replay_round e v s) as [[[]|err] s1]; [|done..]. apply IH. lia.
Qed.

(** A drain starts with an ordered log, and has sent nothing. *)
Record drain_starts (s : session) : Prop := {
  start_log : log_ok e (log s);
  start_ordered : ordered (table s);
  start_posts : posts s = []
}.

Lemma drain_starts_ok s : drain_starts s -> drain_ok s.
Proof.
  intros [Hl Ho Hp]. split; rewrite ?Hp; try done.
  - split; constructor.
  - by intros r []%elem_of_nil.
Qed.

(** C20: a drain ends, whatever the server answers: a round more than the number of
    pending mutations of the resource is enough, and the loop that collects the
    successors of a record ends too. More rounds would change nothing. *)
Theorem drain_terminates s fuel : drain_starts s ->
  (size (pending_ids v (table s)) < fuel)%nat ->
  (replayConflictTrackedSyncs e v fuel s).1 <> Throw OutOfFuel /\
  forall fuel', (fuel <= fuel')%nat ->
    replayConflictTrackedSyncs e v fuel' s = replayConflictTrackedSyncs e v fuel s.
Proof.
  intros Hs Hfuel. pose proof (drain_ends fuel s (drain_starts_ok s Hs)) as H. unfold ends in H.
  assert ((replayConflictTrackedSyncs e v fuel s).1 <> Throw OutOfFuel) as Hne.
  { destruct (replayConflictTrackedSyncs e v fuel s) as [[a|err] s']; cbn in *; [done|].
    destruct H as [_ H]. intros [= ->]. by apply H. }
  split; [done|]. intros fuel' Hle. by apply drain_fuel.
Qed.

(** C19: a drain sends no mutation twice. The first mutation of every request group
    was ready in the log as it was read, all it depends on being synced, and each
    later one is pending and depends on the one before it in the group (its other
    dependencies are not looked at: [successor_sent_before_its_dependency]). When the
    drain returns, the log is still well formed and ordered, and every pending
    mutation of the resource waits for one that is not synced. *)
Theorem drain_sends_in_order s fuel : drain_starts s ->
  let '(answer, s') := replayConflictTrackedSyncs e v fuel s in
  Forall (fun p => Forall (safe_group v (read_records p)) (sent_groups p)) (posts s') /\
  NoDup (map id (sent_records (posts s'))) /\
  match answer with
  | Ok _ => log_ok e (log s') /\ ordered (table s') /\
      exists read, reads (table s') read /\ nothing_ready v read
  | Throw _ => True
  end.
Proof.
  intros Hs. pose proof (drain_ends fuel s (drain_starts_ok s Hs)) as H. unfold ends in H.
  destruct (replayConflictTrackedSyncs e v fuel s) as [[a|err] s']; cbn in H.
  - destruct H as [[Hl Ho [Hsafe Hnd] _] Hread]. done.
  - destruct H as [[Hsafe Hnd] _]. done.
Qed.

(** ** Queueing *)

Lemma queue_time_later a r time : queue_time a (Some r) = Ok time ->
  exists u t, iso_value (occurredAt (mutation r)) = Some u /\ iso_value time = Some t /\ u < t.
Proof.
  unfold queue_time. destruct (queue_now a) as [t|]; [|done]. cbn [mbind result_bind].
  destruct (iso_value (occurredAt (mutation r))) as [u|]; [|done]. cbn [mbind result_bind].
  destruct (Z.leb_spec (Z.abs (Z.max t (u + 1))) MAX_TIME); [|done]. intros [= <-].
  exists u, (Z.max t (u + 1)). rewrite iso_value_toISOString by done. split_and!; [done..|lia].
Qed.

Lemma queued_get a time : let get key := obj_get key (queued_members a time) in
  get "clientMutationId" = Some (JStr (queue_clientMutationId a)) /\
  get "model" = Some (JStr (queue_resourceType a)) /\ get "occurredAt" = Some (JStr time).
Proof. unfold queued_members. by destruct (queue_baseVersion a). Qed.

Lemma queued_mutation_reads a time m : normalizeMutation (Some (queued_mutation a time)) = Ok m ->
  clientMutationId m = queue_clientMutationId a /\ occurredAt m = time /\
  mutation_model m = queue_resourceType a.
Proof.
  destruct (queued_get a time) as (E1 & E2 & E3).
  unfold normalizeMutation, queued_mutation. rewrite E1, E2, E3. intros H. checks. cbn.
  unfold requiredIsoTimestamp in *. checks.
  repeat match goal with
  | H : context [match iso_value ?s with _ => _ end] |- _ => destruct (iso_value s); checks
  | H : requiredString (Some (JStr _)) _ = Ok _ |- _ => apply requiredString_str in H; subst
  end. done.
Qed.

Definition queue_dependencies (a : queue_args) (predecessor : option log_record) : list dependency :=
  match predecessor with
  | Some r => [{| dependency_id := client_id r; dependency_model := queue_resourceType a |}]
  | None => []
  end.

(** The log as [queueConflictTrackedSync] reads and extends it. *)
Lemma reading_ends s : log_ok e (log s) ->
  ends (on_log (records e)) (fun o s' => table s' = table s /\
    match o with
    | Ok found => log_ok e (log s') /\ reads (table s) (map plain_record found)
    | Throw _ => True
    end) s.
Proof.
  intros Hok. assert (idles (records e) (fun l _ => lists_records e None (table s) l) (log s)) as H
    by by apply listing_idles.
  unfold idles, idled, ends, on_log in *. destruct (records e (log s)) as [[found|err] w]; cbn in *.
  - destruct H as [Hs Hl]. split; [apply Hs|]. split; [by eapply log_ok_same|by apply listed_reads].
  - destruct H as [Hs _]. split; [apply Hs|done].
Qed.

Lemma appending_ends deps m signed s : log_ok e (log s) ->
  ends (on_log (append e deps m signed)) (fun o s' =>
    match o with
    | Ok r => log_ok e (log s') /\
        log_step e (table s) (Append deps m signed) (Appended r) (table s')
    | Throw err => table s' = table s \/ exists te, err = LogFailed (TransportError te)
    end) s.
Proof.
  intros Hok. pose proof (append_does e fresh_ids deps m signed (log s) Hok) as H.
  unfold does, done_or_thrown, ends, on_log in *.
  destruct (append e deps m signed (log s)) as [[r|err] w]; cbn in *.
  - destruct H as (L & Hstep & Hw & <- & _). done.
  - destruct H as [Hs|(te & r & L & -> & _)]; [left; apply Hs|right; eauto].
Qed.

(** A new record that nothing depends on, numbered after all, keeps the order. *)
Lemma ordered_append L r : ordered L -> L !! id r = None ->
  (forall i x, L !! i = Some x -> sequence x < sequence r) ->
  (forall i x, L !! i = Some x -> depends_on x (client_id r) = false) ->
  depends_on r (client_id r) = false -> ordered (<[id r := r]> L).
Proof.
  intros Ho Hnone Hlast Hfree Hself i j x y. rewrite !lookup_insert_Some.
  intros [[<- <-]|[_ Hx]] [[<- <-]|[_ Hy]] Hd.
  - congruence.
  - specialize (Hfree j y Hy). congruence.
  - by eapply Hlast.
  - by apply (Ho i j).
Qed.

Lemma queue_dependencies_read a predecessor l :
  normalizeDependencies (Some (JArr (match predecessor with
    | Some r => [JObj [("clientMutationId", JStr (client_id r));
                       ("model", JStr (queue_resourceType a))]]
    | None => []
    end))) = Ok l -> l = queue_dependencies a predecessor.
Proof.
  destruct predecessor as [r|]; cbn -[requiredString obj_get]; intros H; checks; [|done].
  unfold normalize_dependency in *. checks. cbn in *. repeat case_decide; try done.
  repeat match goal with H : requiredString (Some (JStr _)) _ = Ok _ |- _ =>
    apply requiredString_str in H; subst end. done.
Qed.

(** What queueing with [a] ends with. *)
Definition queue_ended (a : queue_args) (s : session) (o : answer log_record) (s' : session) : Prop :=
  match o with
  | Ok r => exists read, reads (table s) read /\
      let predecessor := last (List.filter (same_resource a) read) in
      table s !! id r = None /\ table s' = <[id r := r]> (table s) /\ status r = Pending /\
      client_id r = queue_clientMutationId a /\ dependencies r = queue_dependencies a predecessor /\
      (forall p, predecessor = Some p -> exists u t, iso_value (occurredAt (mutation p)) = Some u /\
        iso_value (occurredAt (mutation r)) = Some t /\ u < t) /\
      log_ok e (log s') /\
      (ordered (table s) ->
       (forall i x, table s !! i = Some x -> client_id x <> queue_clientMutationId a /\
          depends_on x (queue_clientMutationId a) = false) ->
       ordered (table s'))
  | Throw err => table s' = table s \/ exists te, err = LogFailed (TransportError te)
  end.

(** Queueing appends one pending mutation that depends exactly on the latest
    queued mutation of the same record, if there is one, and occurs strictly after
    it. An ordered log stays ordered when the new mutation's id is not yet used in
    it. *)
Lemma queue_follows_predecessor a s : log_ok e (log s) ->
  let '(answer, s') := queueConflictTrackedSync e a s in queue_ended a s answer s'.
Proof.
  intros Hok. enough (ends (queueConflictTrackedSync e a) (queue_ended a s) s) as H.
  { unfold ends in H. by destruct (queueConflictTrackedSync e a s). }
  unfold queueConflictTrackedSync. eapply ends_step; [by apply reading_ends| |].
  2:{ intros err s1 [Htable _]. by left. }
  intros found s1 (Htable & Hok1 & Hread). cbv zeta.
  set (read := map plain_record found) in *. set (predecessor := last _).
  apply ends_bind, ends_lift. destruct (queue_time a predecessor) as [time|err] eqn:Htime; [|by left].
  eapply ends_mono; [by apply appending_ends|]. rewrite Htable. intros [r|err] s2; [|done].
  intros [Hok2 Hstep]. inversion Hstep as [? ? ? ? _ Hm Hd Hst _ _ Hnone Hlast| | | | |]; subst.
  apply queued_mutation_reads in Hm as (Hclient & Htime' & _).
  apply queue_dependencies_read in Hd. exists read. split; [done|].
  change (last (List.filter (same_resource a) read)) with predecessor.
  split_and!; try done.
  - intros p Hp. rewrite Hp in Htime. rewrite Htime'. by eapply queue_time_later.
  - intros Ho Hfree. change (clientMutationId (mutation r)) with (client_id r) in Hclient.
    replace (table s2) with (<[id r := r]> (table s)) by done.
    apply ordered_append; [done..| |].
    + intros i x Hx. rewrite Hclient. by eapply Hfree.
    + rewrite Hclient. unfold depends_on. rewrite Hd. destruct predecessor as [p|] eqn:Hp; [|done].
      cbn. rewrite orb_false_r. apply bool_decide_eq_false. intros Heq.
      unfold predecessor in Hp. apply last_Some_elem_of, elem_of_List_filter in Hp as [_ Hp].
      destruct Hread as [_ Hperm]. rewrite Hperm, records_of_lookup in Hp by apply Hok.
      by eapply Hfree.
Qed.

End drain.

(** ** Examples *)

(** A computable check that a log is ordered. *)
Lemma ordered_check L : (forall i r, L !! i = Some r -> id r = i) ->
  forallb (fun a => forallb (fun b => implb (depends_on b (client_id a)) (sequence a <? sequence b))
    (records_of L)) (records_of L) = true -> ordered L.
Proof.
  intros Hid H i j a b Ha Hb Hd. rewrite forallb_forall in H.
  assert (forall k r, L !! k = Some r -> In r (records_of L)) as Hin.
  { intros k r Hr. apply list_elem_of_In, records_of_lookup; [done|]. by rewrite (Hid k r Hr). }
  specialize (H a (Hin i a Ha)). rewrite forallb_forall in H. specialize (H b (Hin j b Hb)).
  rewrite Hd in H. by apply Z.ltb_lt.
Qed.

Definition example_queued (client operation resource : string) (data : properties) : queue_args := {|
  queue_actorDeviceId := "device-1"; queue_actorUserId := "user-1"; queue_offlineGrantId := "grant-1";
  queue_policyHash := "sha256-task"; queue_clientMutationId := client;
  queue_now := Some 1750759200000; queue_baseVersion := Some (JNum "1"); queue_data := data;
  queue_operation := operation; queue_resourceId := resource; queue_resourceType := "Task";
  queue_syncType := operation |}.

Definition example_append (client operation resource : string) (data : properties)
    (deps : list string) : log_call :=
  Append (Some (JArr (map (fun d => JObj [("clientMutationId", JStr d); ("model", JStr "Task")]) deps)))
    (queued_mutation (example_queued client operation resource data) "2026-06-24T10:00:00.000Z") None.

(** A record created and updated twice, and another one. *)
Definition example_session : session Rows.table := Build_session
  (run_calls example_log [
    example_append "m1" "create" "7" [("name", JStr "a")] [];
    example_append "m2" "update" "7" [("name", JStr "b")] ["m1"];
    example_append "m3" "update" "7" [("done", JBool true)] ["m2"];
    example_append "m4" "create" "8" [("name", JStr "c")] []] empty_world) [] 0.

(** The server that accepts everything and answers with a version. *)
Definition accepts_all (requests : list (list properties)) : result string properties :=
  Ok [("status", JStr "success");
      ("syncs", JArr (map (fun p => JObj (("syncState", JStr "successful") ::
        ("serverVersion", JNum "9") :: present "id" (obj_get "id" p)))
        (default [] (last requests))))].

Definition example_replay : replay_env := {|
  resourceType := "Task"; batchSize := JsUndefined; postReplay := accepts_all;
  remoteGeneration _ _ := 0 |}.

Lemma example_starts : drain_starts example_log example_session.
Proof.
  assert (log_ok example_log (log example_session)) as Hok
    by (apply run_calls_ok; [exact example_fresh|exact empty_ok]).
  split; [done| |done]. apply ordered_check; [apply Hok|]. vm_compute. reflexivity.
Qed.

Lemma drain_terminates_witness :
  size (pending_ids example_replay (rows (store (log example_session)) (storageKey example_log))) = 4%nat /\
  (replayConflictTrackedSyncs example_log example_replay 5 example_session).1 = Ok tt /\
  replayConflictTrackedSyncs example_log example_replay 100 example_session =
  replayConflictTrackedSyncs example_log example_replay 5 example_session.
Proof.
  assert (size (pending_ids example_replay (rows (store (log example_session))
    (storageKey example_log))) = 4%nat) as Hsize by (vm_compute; reflexivity).
  split; [exact Hsize|]. split; [vm_compute; reflexivity|].
  apply (drain_terminates example_log example_replay example_fresh example_session 5 example_starts);
    [rewrite Hsize|]; lia.
Defined.

(** The created record's updates follow it one by one: the first is rebased on the
    version the server answered, so the two no longer share a base. *)
Lemma drain_sends_in_order_witness :
  let '(answer, s') := replayConflictTrackedSyncs example_log example_replay 5 example_session in
  map (fun p => map (map client_id) (sent_groups p)) (posts s') = [[["m1"]; ["m4"]]; [["m2"]]; [["m3"]]] /\
  NoDup (map id (sent_records (posts s'))).
Proof.
  pose proof (drain_sends_in_order example_log example_replay example_fresh example_session 5
    example_starts) as H.
  assert (map (fun p => map (map client_id) (sent_groups p))
    (posts (replayConflictTrackedSyncs example_log example_replay 5 example_session).2) =
    [[["m1"]; ["m4"]]; [["m2"]]; [["m3"]]]) as Hp by (vm_compute; reflexivity).
  destruct (replayConflictTrackedSyncs example_log example_replay 5 example_session) as [answer s'].
  split; [exact Hp|apply H].
Defined.

Lemma queue_follows_predecessor_witness :
  let '(answer, s') := queueConflictTrackedSync example_log
    (example_queued "m5" "destroy" "7" []) example_session in
  match answer with
  | Ok r => map dependency_id (dependencies r) = ["m3"] /\
      occurredAt (mutation r) = "2026-06-24T10:00:00.001Z"
  | Throw _ => False
  end /\ queue_ended example_log (example_queued "m5" "destroy" "7" []) example_session answer s'.
Proof.
  pose proof (queue_follows_predecessor example_log example_fresh
    (example_queued "m5" "destroy" "7" []) example_session
    (start_log _ _ example_starts)) as H.
  assert (match (queueConflictTrackedSync example_log
    (example_queued "m5" "destroy" "7" []) example_session).1 with
    | Ok r => map dependency_id (dependencies r) = ["m3"] /\
        occurredAt (mutation r) = "2026-06-24T10:00:00.001Z"
    | Throw _ => False end) as Ha by (vm_compute; split; reflexivity).
  destruct (queueConflictTrackedSync _ _ _) as [answer s']. split; [exact Ha|exact H].
Defined.

(** A successor joins its predecessor's request although another mutation it
    depends on is in conflict: the chain looks at one dependency only. *)
Definition two_dependencies : world Rows.table :=
  run_calls example_log [
    example_append "other" "create" "8" [("name", JStr "c")] [];
    UpdateStatus "log-0" "conflict" None;
    example_append "m1" "update" "7" [("name", JStr "a")] [];
    example_append "m2" "update" "7" [("parent", JNum "8")] ["m1"; "other"]] empty_world.

Lemma successor_sent_before_its_dependency :
  let '(_, s') := replayConflictTrackedSyncs example_log example_replay 3
    (Build_session two_dependencies [] 0) in
  map (fun p => map (map client_id) (sent_groups p)) (posts s') = [[["m1"; "m2"]]] /\
  map (fun p => status_of (read_records p) "other") (posts s') = [Some Conflict].
Proof. vm_compute. split; reflexivity. Qed.
