(* ===== verification/ServerChangeFeed.v ===== *)
(** * The server change feed ([src/src/sync/server-change-feed.js])

    Accepted sync mutations are appended to a table with an auto-incremented
    server sequence; clients page through it with a cursor, and are told to take
    a snapshot when rows after their cursor may have been pruned. Module [Store]
    is the table-backed store, module [Memory] the process-local fallback.

    Both stores are instances of one interface, [FeedStore]: the requests of a
    process-local store are synchronous, those of a table are when nobody else
    writes meanwhile. Each query and each write of the table-backed store is a
    statement of its own: [ServerChangeFeedPages] lets other requests and open
    transactions come between any two of them.

    The creation of the table ([ensureReady]) is not modelled: the model starts
    when it exists. Timestamps are numbers of milliseconds; the clock is read
    once per append ([clock n] follows the sequence [n]). *)

From stdpp Require Import base functions gmap strings list sorting.
From Stdlib Require Import ZArith Ascii Lia.
From S2P Require Import Prelude Sql Json StableJson.
Open Scope Z_scope.

Abbreviation properties := (list (string * json)).

(** ** Data *)

Record change := {
  change_actorDeviceId : option string;
  change_actorUserId : option string;
  change_attributes : option properties;
  change_createdAt : option Z;
  change_id : option string;
  change_idempotencyKey : option string;
  change_model : string;
  change_operation : string;
  change_payload : option properties;
  change_recordId : option string;
  change_response : option properties;
  change_scope : option properties
}.

Record entry := {
  actorDeviceId : option string;
  actorUserId : option string;
  entry_attributes : json;
  createdAt : Z;
  entry_id : string;
  idempotencyKey : option string;
  entry_model : string;
  entry_operation : string;
  entry_payload : json;
  recordId : option string;
  entry_response : json;
  entry_scope : json;
  serverSequence : Z
}.

Record page := {
  changes : list entry;
  hasMore : bool;
  nextSequence : Z;
  oldestSequence : option Z;
  snapshotRequired : bool;
  upToSequence : Z
}.

Record query := {
  afterSequence : Z;
  limit : scalar;
  query_scope : option properties;
  query_upToSequence : option Z
}.

Definition DEFAULT_PAGE_SIZE : Z := 100.
Definition MAX_PAGE_SIZE : Z := 1000.

(** [/^\d+$/.test(s)], with [Number(s)]. *)
Definition digits_value (s : string) : option Z :=
  match s with "" => None | _ => decimal_value 0 s end.

Definition normalizeLimit (limit : scalar) : Z :=
  match limit with
  | JsNumber _ =>
      match as_integer limit with
      | Some n => if 0 <? n then Z.min n MAX_PAGE_SIZE else DEFAULT_PAGE_SIZE
      | None => DEFAULT_PAGE_SIZE
      end
  | JsString s =>
      match digits_value s with Some n => Z.min n MAX_PAGE_SIZE | None => DEFAULT_PAGE_SIZE end
  | _ => DEFAULT_PAGE_SIZE
  end.

(** [value || null], of an object or nothing. *)
Definition object_or_null (o : option properties) : json :=
  match o with Some l => JObj l | None => JNull end.

(** [s || null] *)
Definition nonempty_or_null (s : option string) : option string :=
  match s with Some "" => None | _ => s end.

(** The text [scope_json] is compared by. *)
Definition scope_text (scope : option properties) : string :=
  stableJsonStringify (object_or_null scope).

(** ** The page of the rows after a cursor

    What the two implementations of [changesAfter] share. *)

Definition snapshot_required (after : Z) (oldest : option Z) : bool :=
  (0 <? after) && match oldest with Some o => after + 1 <? o | None => false end.

Definition snapshot_page (after : Z) (oldest : option Z) (latest : Z) : page := {|
  changes := []; hasMore := false; nextSequence := after; oldestSequence := oldest;
  snapshotRequired := true; upToSequence := latest |}.

Definition changes_page (after : Z) (oldest : option Z) (latest : Z)
    (more : bool) (entries : list entry) : page := {|
  changes := entries; hasMore := more;
  nextSequence := match last entries with Some e => serverSequence e | None => after end;
  oldestSequence := oldest; snapshotRequired := false; upToSequence := latest |}.

(** ** The store backed by a table *)

Module Store.

(** A row of [frontend_model_sync_changes]. *)
Record row := {
  server_sequence : Z;
  actor_device_id : option string;
  actor_user_id : option string;
  attributes_json : string;
  created_at : Z;
  id : string;
  idempotency_key : option string;
  model : string;
  operation : string;
  payload_json : string;
  record_id : option string;
  response_json : string;
  scope_json : string
}.

(** The table by its primary key, and the sequence its auto-increment column
    gave last. *)
Record state := { rows : gmap Z row; allocated : Z; uuids : nat }.

(** The generator of identifiers, the clock, the sequence the engine gives after
    [allocated] (some values may be skipped), the order of an unordered query. *)
Record env := {
  randomUUID : nat -> string;
  clock : Z -> Z;
  increment : Z -> Z;
  row_scan : scan_order Z row;
  retentionSize : Z
}.

Abbreviation M := (ST state string).

Section operations.
Context (e : env).

(** [JSON.parse] of a column; a text that is none throws. *)
Definition parseJsonOrNull (text : string) : result string json :=
  match text with
  | "" => Ok JNull
  | _ => match parse text with Some v => Ok v | None => Throw "SyntaxError" end
  end.

Definition _normalizeChangeRow (r : row) : result string entry :=
  attributes ← parseJsonOrNull (attributes_json r);
  payload ← parseJsonOrNull (payload_json r);
  response ← parseJsonOrNull (response_json r);
  scope ← parseJsonOrNull (scope_json r);
  Ok {| actorDeviceId := nonempty_or_null (actor_device_id r);
        actorUserId := nonempty_or_null (actor_user_id r);
        entry_attributes := attributes;
        createdAt := created_at r;
        entry_id := id r;
        idempotencyKey := nonempty_or_null (idempotency_key r);
        entry_model := model r;
        entry_operation := operation r;
        entry_payload := payload;
        recordId := nonempty_or_null (record_id r);
        entry_response := response;
        entry_scope := scope;
        serverSequence := server_sequence r |}.

(** [rows.map((row) => this._normalizeChangeRow(row))] *)
Fixpoint normalize_rows (l : list row) : result string (list entry) :=
  match l with
  | [] => Ok []
  | r :: l' => x ← _normalizeChangeRow r; xs ← normalize_rows l'; Ok (x :: xs)
  end.

Definition by_sequence : relation row := by_key Z.le server_sequence.

(** [SELECT … WHERE p ORDER BY server_sequence ASC] *)
Definition select_ascending (p : row -> bool) (s : state) : list row :=
  merge_sort by_sequence (List.filter p (scan (row_scan e) (rows s))).

Definition _changeById (identifier : string) : M (option entry) :=
  found ← gets (fun s =>
    head (List.filter (fun r => bool_decide (id r = identifier)) (scan (row_scan e) (rows s))));
  match found with
  | Some r => x ← lift_result (_normalizeChangeRow r); mret (Some x)
  | None => mret None
  end.

Definition _latestSequence (s : state) : Z :=
  match last (select_ascending (fun _ => true) s) with
  | Some r => server_sequence r
  | None => 0
  end.

Definition _oldestSequence (s : state) : option Z :=
  server_sequence <$> head (select_ascending (fun _ => true) s).

(** [DELETE … WHERE id = …] *)
Definition delete_by_id (identifier : string) (s : state) : state :=
  {| rows := filter (fun kv : Z * row => id kv.2 <> identifier) (rows s);
     allocated := allocated s; uuids := uuids s |}.

Definition _pruneRetainedChanges (latestSequence : Z) : M unit :=
  if retentionSize e <? 1 then mret tt else
  let pruneBeforeOrAt := latestSequence - retentionSize e in
  if pruneBeforeOrAt <? 1 then mret tt else
  pruned ← gets (fun s =>
    List.filter (fun r => server_sequence r <=? pruneBeforeOrAt) (scan (row_scan e) (rows s)));
  for_each (fun r => modify (delete_by_id (id r))) pruned.

(** [change.id || randomUUID()] *)
Definition resolve_id (c : change) : M string := fun s =>
  match nonempty_or_null (change_id c) with
  | Some i => (Ok i, s)
  | None => (Ok (randomUUID e (uuids s)),
             {| rows := rows s; allocated := allocated s; uuids := S (uuids s) |})
  end.

(** The data of the [INSERT]. *)
Definition row_of_change (c : change) (identifier : string) (at_ms sequence : Z) : row := {|
  server_sequence := sequence;
  actor_device_id := change_actorDeviceId c;
  actor_user_id := change_actorUserId c;
  attributes_json := stringify (object_or_null (change_attributes c));
  created_at := at_ms;
  id := identifier;
  idempotency_key := change_idempotencyKey c;
  model := change_model c;
  operation := change_operation c;
  payload_json := stringify (object_or_null (change_payload c));
  record_id := change_recordId c;
  response_json := stringify (object_or_null (change_response c));
  scope_json := scope_text (change_scope c) |}.

Definition insert_change (c : change) (identifier : string) (at_ms : Z) (s : state) : state :=
  let sequence := increment e (allocated s) in
  {| rows := <[sequence := row_of_change c identifier at_ms sequence]> (rows s);
     allocated := sequence; uuids := uuids s |}.

Definition append (c : change) : M entry :=
  identifier ← resolve_id c;
  at_ms ← gets (fun s => match change_createdAt c with Some t => t | None => clock e (allocated s) end);
  _ ← modify (insert_change c identifier at_ms);
  found ← _changeById identifier;
  match found with
  | None => throw "Failed to persist server change-feed entry"
  | Some x => _ ← _pruneRetainedChanges (serverSequence x); mret x
  end.

Definition latestSequence : M Z := gets _latestSequence.
Definition oldest_sequence : M (option Z) := gets _oldestSequence.

(** The condition of the page's query. *)
Definition selects (q : query) (latest : Z) (r : row) : bool :=
  (afterSequence q <? server_sequence r) && (server_sequence r <=? latest) &&
  match query_scope q with
  | None => true
  | Some scope => bool_decide (scope_json r = scope_text (Some scope))
  end.

(** [changesAfter] awaits three queries, and other requests may write between them:
    each query reads its own state of the table. *)
Definition changesAfter (q : query) (atLatest atOldest atRows : state) : result string page :=
  let pageSize := normalizeLimit (limit q) in
  let latest := match query_upToSequence q with Some n => n | None => _latestSequence atLatest end in
  let oldest := _oldestSequence atOldest in
  if snapshot_required (afterSequence q) oldest
  then Ok (snapshot_page (afterSequence q) oldest latest) else
  let selected := take (Z.to_nat (pageSize + 1)) (select_ascending (selects q latest) atRows) in
  let more := pageSize <? Z.of_nat (length selected) in
  entries ← normalize_rows (take (Z.to_nat pageSize) selected);
  Ok (changes_page (afterSequence q) oldest latest more entries).

End operations.

Definition initial : state := {| rows := ∅; allocated := 0; uuids := 0 |}.

End Store.

(** ** The process-local fallback *)

Module Memory.

Record state := { _memoryChanges : list entry; _memorySequence : Z; uuids : nat }.

Record env := { randomUUID : nat -> string; clock : Z -> Z; retentionSize : Z }.

(** [scopesEqual] *)
Definition scopesEqual (changeScope : json) (requestedScope : option properties) : bool :=
  match requestedScope with
  | None => true
  | Some scope => bool_decide (stableJsonStringify changeScope = scope_text (Some scope))
  end.

Section operations.
Context (e : env).

Definition entry_of_change (c : change) (identifier : string) (at_ms sequence : Z) : entry := {|
  actorDeviceId := change_actorDeviceId c;
  actorUserId := change_actorUserId c;
  entry_attributes := object_or_null (change_attributes c);
  createdAt := at_ms;
  entry_id := identifier;
  idempotencyKey := change_idempotencyKey c;
  entry_model := change_model c;
  entry_operation := change_operation c;
  entry_payload := object_or_null (change_payload c);
  recordId := change_recordId c;
  entry_response := object_or_null (change_response c);
  entry_scope := object_or_null (change_scope c);
  serverSequence := sequence |}.

Definition _appendMemory (c : change) (identifier : string) (at_ms : Z) (s : state) : entry * state :=
  let sequence := _memorySequence s + 1 in
  let x := entry_of_change c identifier at_ms sequence in
  let pushed := _memoryChanges s ++ [x] in
  let excess := Z.of_nat (length pushed) - retentionSize e in
  (x, {| _memoryChanges :=
           (if retentionSize e <? Z.of_nat (length pushed) then drop (Z.to_nat excess) pushed
            else pushed);
         _memorySequence := sequence; uuids := uuids s |}).

Definition append (c : change) (s : state) : entry * state :=
  let at_ms :=
    match change_createdAt c with Some t => t | None => clock e (_memorySequence s) end in
  match nonempty_or_null (change_id c) with
  | Some i => _appendMemory c i at_ms s
  | None => _appendMemory c (randomUUID e (uuids s)) at_ms
      {| _memoryChanges := _memoryChanges s; _memorySequence := _memorySequence s;
         uuids := S (uuids s) |}
  end.

Definition _memoryChangesAfter (q : query) (s : state) : page :=
  let pageSize := normalizeLimit (limit q) in
  let latest := match query_upToSequence q with Some n => n | None => _memorySequence s end in
  let oldest := serverSequence <$> head (_memoryChanges s) in
  if snapshot_required (afterSequence q) oldest
  then snapshot_page (afterSequence q) oldest latest else
  let selected := List.filter (fun x =>
    (afterSequence q <? serverSequence x) && (serverSequence x <=? latest) &&
    scopesEqual (entry_scope x) (query_scope q)) (_memoryChanges s) in
  changes_page (afterSequence q) oldest latest (pageSize <? Z.of_nat (length selected))
    (take (Z.to_nat pageSize) selected).
End operations.

Definition initial : state := {| _memoryChanges := []; _memorySequence := 0; uuids := 0 |}.
End Memory.

(** ** The interface

    What a reader may rely on: the retained entries are a suffix of everything
    ever appended, in ascending order of their sequences, the latest append is
    among them, and a page is cut out of them by the cursor, the bound, the scope
    and the page size. *)

(** The entry belongs to the scope of the query. *)
Definition in_scope (scope : option properties) (x : entry) : bool :=
  match scope with
  | None => true
  | Some l => bool_decide (stableJsonStringify (entry_scope x) = scope_text (Some l))
  end.

Definition asked (scope : option properties) (after upTo : Z) (x : entry) : bool :=
  (after <? serverSequence x) && (serverSequence x <=? upTo) && in_scope scope x.

Definition latest_of (l : list entry) : Z :=
  match last l with Some x => serverSequence x | None => 0 end.

(** A page of a feed that holds the entries [atLatest], [atOldest] and [atRows] when the
    bound, the oldest sequence and the rows are read. *)
Definition page_at (atLatest atOldest atRows : list entry) (q : query) : page :=
  let latest := match query_upToSequence q with Some n => n | None => latest_of atLatest end in
  let oldest := serverSequence <$> head atOldest in
  if snapshot_required (afterSequence q) oldest
  then snapshot_page (afterSequence q) oldest latest else
  let selected := List.filter (asked (query_scope q) (afterSequence q) latest) atRows in
  changes_page (afterSequence q) oldest latest
    (normalizeLimit (limit q) <? Z.of_nat (length selected))
    (take (Z.to_nat (normalizeLimit (limit q))) selected).

Definition page_of (retained : list entry) (q : query) : page := page_at retained retained retained q.

Definition ascending (l : list entry) : Prop :=
  StronglySorted (fun x y => serverSequence x < serverSequence y) l.

Class FeedStore (S : Type) := {
  start : S;
  appends : S -> entry -> S -> Prop;
  reads : S -> query -> page -> Prop;
  retained : S -> list entry;
  feed_ok : S -> Prop;
  start_ok : feed_ok start;
  start_retained : retained start = [];
  appends_ok s x s' : feed_ok s -> appends s x s' -> feed_ok s';
  appends_after s x s' : feed_ok s -> appends s x s' ->
    0 < serverSequence x /\ Forall (fun y => serverSequence y < serverSequence x) (retained s);
  appends_retained s x s' : feed_ok s -> appends s x s' ->
    exists k, (k <= length (retained s))%nat /\ retained s' = drop k (retained s ++ [x]);
  reads_page s q p : feed_ok s -> reads s q p -> p = page_of (retained s) q;
  reads_total s q : feed_ok s -> exists p, reads s q p
}.

(** ** Paging *)

Section paging.
Context {S : Type} `{!FeedStore S}.

(** [history s h]: the store reached [s] by appending the entries of [h]. *)
Inductive history : S -> list entry -> Prop :=
| history_start : history start []
| history_append s h x s' : history s h -> appends s x s' -> history s' (h ++ [x]).

(** Appends of any writers between two pages. *)
Inductive grows (s : S) (h : list entry) : S -> list entry -> Prop :=
| grows_not : grows s h s h
| grows_append s1 h1 x s2 : grows s h s1 h1 -> appends s1 x s2 -> grows s h s2 (h1 ++ [x]).

(** A reader follows [nextSequence] until [hasMore] is false and is never told to
    take a snapshot; [out] is everything it was given. *)
Inductive delivers (scope : option properties) (size : scalar) (upTo : Z) :
    S -> list entry -> Z -> list entry -> Prop :=
| delivers_last s h after p :
    reads s {| afterSequence := after; limit := size; query_scope := scope;
               query_upToSequence := Some upTo |} p ->
    snapshotRequired p = false -> hasMore p = false ->
    delivers scope size upTo s h after (changes p)
| delivers_more s h after p s' h' out :
    reads s {| afterSequence := after; limit := size; query_scope := scope;
               query_upToSequence := Some upTo |} p ->
    snapshotRequired p = false -> hasMore p = true -> grows s h s' h' ->
    delivers scope size upTo s' h' (nextSequence p) out ->
    delivers scope size upTo s h after (changes p ++ out).

(** What every reachable store satisfies. *)
Record feed_invariant (s : S) (h : list entry) : Prop := {
  inv_ok : feed_ok s;
  inv_ascending : ascending h;
  inv_positive : Forall (fun x => 0 < serverSequence x) h;
  inv_suffix : exists k, retained s = drop k h /\ (k <= length h - 1)%nat
}.

Lemma ascending_app l x : ascending l ->
  Forall (fun y => serverSequence y < serverSequence x) l -> ascending (l ++ [x]).
Proof.
  unfold ascending. induction 1 as [|y l Hl IH Hy]; intros Hx; cbn; [repeat constructor|].
  apply Forall_cons in Hx as [Hyx Hx]. constructor; [by apply IH|].
  apply Forall_app. split; [done|]. by constructor.
Qed.

Lemma ascending_drop k l : ascending l -> ascending (drop k l).
Proof.
  unfold ascending. revert k. induction l as [|x l IH]; intros [|k] Hl; cbn; try done.
  inversion Hl; subst. by apply IH.
Qed.

Lemma ascending_last l y x : ascending (l ++ [y]) -> x ∈ l -> serverSequence x < serverSequence y.
Proof.
  unfold ascending. induction l as [|z l IH]; cbn; [by intros _ []%elem_of_nil|].
  intros Hl. inversion Hl as [|? ? Hl' Hz]; subst. intros [->|Hx]%elem_of_cons.
  - rewrite Forall_forall in Hz. apply Hz, elem_of_app. right. constructor.
  - by apply IH.
Qed.

Lemma invariant_append s h x s' :
  feed_invariant s h -> appends s x s' -> feed_invariant s' (h ++ [x]).
Proof.
  intros [Hok Ha Hp (k & Hk & Hkl)] Hx.
  destruct (appends_after s x s' Hok Hx) as [Hx0 Hbefore].
  destruct (appends_retained s x s' Hok Hx) as (j & Hj & Hret).
  assert (Forall (fun y => serverSequence y < serverSequence x) h) as Hlt.
  { destruct h as [|y0 h0]; [constructor|].
    destruct (exists_last (l := y0 :: h0)) as (h1 & z & Heq); [done|]. rewrite Heq in *.
    assert (serverSequence z < serverSequence x) as Hz.
    { rewrite Forall_forall in Hbefore. apply Hbefore. rewrite Hk.
      rewrite length_app in Hkl. cbn in Hkl. rewrite drop_app_le by lia.
      apply elem_of_app. right. constructor. }
    apply Forall_forall. intros w [Hw| ->%list_elem_of_singleton]%elem_of_app; [|done].
    pose proof (ascending_last h1 z w Ha Hw). lia. }
  rewrite Hk, length_drop in Hj. split.
  - by eapply appends_ok.
  - by apply ascending_app.
  - apply Forall_app. split; [done|]. by constructor.
  - exists (k + j)%nat. split.
    + rewrite Hret, Hk, <- drop_drop, <- drop_app_le by lia. done.
    + rewrite length_app. cbn. lia.
Qed.

Lemma history_invariant s h : history s h -> feed_invariant s h.
Proof.
  induction 1 as [|s h x s' Hh IH Hx]; [|by eapply invariant_append].
  split; [apply start_ok|constructor|constructor|]. exists 0%nat. by rewrite start_retained.
Qed.

Lemma grows_invariant s h s' h' : grows s h s' h' -> feed_invariant s h ->
  feed_invariant s' h' /\ exists l, h' = h ++ l.
Proof.
  induction 1 as [|s1 h1 x s2 Hg IH Hx]; intros Hi.
  - split; [done|]. exists []. by rewrite app_nil_r.
  - destruct (IH Hi) as [Hi1 [l ->]]. split; [by eapply invariant_append|].
    exists (l ++ [x]). by rewrite app_assoc.
Qed.

(** *** Cutting an ascending list at a cursor *)

Lemma filter_none (p : entry -> bool) l : Forall (fun x => p x = false) l -> List.filter p l = [].
Proof. induction 1 as [|x l Hx Hl IH]; cbn; [done|]. by rewrite Hx. Qed.

Lemma filter_every (p : entry -> bool) l : Forall (fun x => p x = true) l -> List.filter p l = l.
Proof. induction 1 as [|x l Hx Hl IH]; cbn; [done|]. by rewrite Hx, IH. Qed.

Lemma ascending_filter p l : ascending l -> ascending (List.filter p l).
Proof.
  unfold ascending. induction 1 as [|x l Hl IH Hx]; cbn; [constructor|].
  destruct (p x); [|done]. constructor; [done|]. rewrite Forall_forall in Hx |- *.
  intros y [Hy _]%list_elem_of_In%filter_In. by apply Hx, list_elem_of_In.
Qed.

Lemma ascending_app_lt l1 l2 x y : ascending (l1 ++ l2) -> x ∈ l1 -> y ∈ l2 ->
  serverSequence x < serverSequence y.
Proof.
  unfold ascending. induction l1 as [|z l1 IH]; cbn; [by intros _ []%elem_of_nil|].
  intros Hl. inversion Hl as [|? ? Hl' Hz]; subst. intros [->|Hx]%elem_of_cons Hy.
  - rewrite Forall_forall in Hz. apply Hz, elem_of_app. by right.
  - by apply IH.
Qed.

Lemma ascending_head l o z : ascending l -> head l = Some o -> z ∈ l ->
  serverSequence o <= serverSequence z.
Proof.
  destruct l as [|x l]; [done|]. intros Hl [= <-]. inversion Hl as [|? ? _ Hx]; subst.
  intros [->|Hz]%elem_of_cons; [lia|]. rewrite Forall_forall in Hx. by apply Z.lt_le_incl, Hx.
Qed.

(** The entries after the last of the first [n] selected ones are the others. *)
Lemma asked_next scope after upTo n l :
  ascending l ->
  let selected := List.filter (asked scope after upTo) l in
  let next := match last (take n selected) with Some x => serverSequence x | None => after end in
  List.filter (asked scope next upTo) l = drop n selected.
Proof.
  intros Hl selected next. assert (ascending selected) as Hs by by apply ascending_filter.
  assert (forall x, x ∈ selected -> after < serverSequence x) as Hafter.
  { intros x [_ Hx]%list_elem_of_In%filter_In. unfold asked in Hx.
    apply andb_true_iff in Hx as [[Hx _]%andb_true_iff _]. by apply Z.ltb_lt. }
  assert (after <= next /\ (forall x, x ∈ take n selected -> serverSequence x <= next) /\
          forall x, x ∈ drop n selected -> next < serverSequence x) as (Hn & Ht & Hd).
  { pose proof (take_drop n selected) as Htd. unfold next.
    destruct (last (take n selected)) as [z|] eqn:Hz.
    - apply last_Some in Hz as [l' Hz]. rewrite Hz in Htd |- *. rewrite <- Htd in Hs, Hafter.
      split_and!.
      + apply Z.lt_le_incl, Hafter. set_solver.
      + intros x [Hx|Hx%list_elem_of_singleton]%elem_of_app; [|subst; lia].
        rewrite <- app_assoc in Hs. apply Z.lt_le_incl.
        eapply ascending_app_lt; [done|done|]. cbn. constructor.
      + intros x Hx. eapply (ascending_app_lt (l' ++ [z])); [done| |done]. set_solver.
    - apply last_None in Hz. rewrite Hz in Htd |- *. split_and!; [lia|set_solver|].
      intros x Hx. apply Hafter. rewrite <- Htd. set_solver. }
  transitivity (List.filter (fun x => next <? serverSequence x) selected).
  - unfold selected. clearbody next. clear -Hn. induction l as [|x l IH]; cbn; [done|].
    destruct (asked scope after upTo x) eqn:Ha; unfold asked in *; cbn.
    + apply andb_true_iff in Ha as [[_ H2]%andb_true_iff H3]. rewrite H2, H3.
      rewrite !andb_true_r. destruct (next <? serverSequence x); by rewrite IH.
    + destruct (next <? serverSequence x) eqn:Hx; [|cbn; exact IH].
      assert ((after <? serverSequence x) = true) as Hx' by (apply Z.ltb_lt in Hx; apply Z.ltb_lt; lia).
      rewrite Hx' in Ha. cbn in Ha |- *. rewrite Ha. exact IH.
  - rewrite <- (take_drop n selected) at 1. rewrite List.filter_app.
    rewrite filter_none, filter_every; [done| |].
    + apply Forall_forall. intros x Hx. apply Z.ltb_lt. by apply Hd.
    + apply Forall_forall. intros x Hx. apply Z.ltb_ge. by apply Ht.
Qed.

(** Where the oldest retained entry is not beyond the cursor, the pruned entries
    were not asked for. *)
Lemma asked_retained scope after upTo k h o :
  ascending h -> head (drop k h) = Some o -> serverSequence o <= after + 1 ->
  List.filter (asked scope after upTo) h = List.filter (asked scope after upTo) (drop k h).
Proof.
  intros Ha Ho Hle. rewrite <- (take_drop k h) at 1. rewrite List.filter_app.
  rewrite filter_none; [done|]. apply Forall_forall. intros x Hx.
  rewrite <- (take_drop k h) in Ha.
  assert (serverSequence x < serverSequence o).
  { eapply ascending_app_lt; [done|done|]. destruct (drop k h); [done|]. injection Ho as ->.
    constructor. }
  unfold asked. destruct (after <? serverSequence x) eqn:Hlt; [|done]. lia.
Qed.

Lemma page_unflagged s q p : feed_ok s -> reads s q p -> snapshotRequired p = false ->
  snapshot_required (afterSequence q) (serverSequence <$> head (retained s)) = false /\
  p = changes_page (afterSequence q) (serverSequence <$> head (retained s))
    (match query_upToSequence q with Some n => n | None => latest_of (retained s) end)
    (normalizeLimit (limit q) <? Z.of_nat (length
       (List.filter (asked (query_scope q) (afterSequence q)
          (match query_upToSequence q with Some n => n | None => latest_of (retained s) end))
          (retained s))))
    (take (Z.to_nat (normalizeLimit (limit q)))
       (List.filter (asked (query_scope q) (afterSequence q)
          (match query_upToSequence q with Some n => n | None => latest_of (retained s) end))
          (retained s))).
Proof.
  intros Hok Hr Hs. rewrite (reads_page s q p Hok Hr) in Hs |- *. unfold page_of, page_at in *.
  by destruct (snapshot_required _ _).
Qed.

(** What the reader of a page may count on: everything ever appended when its
    cursor is positive, everything retained when it starts. *)
Definition visible (s : S) (h : list entry) (after : Z) : list entry :=
  if 0 <? after then h else retained s.

Lemma visible_retained scope after upTo s h : feed_invariant s h -> 0 <= after ->
  snapshot_required after (serverSequence <$> head (retained s)) = false ->
  List.filter (asked scope after upTo) (visible s h after) =
  List.filter (asked scope after upTo) (retained s).
Proof.
  intros [_ Ha Hp (k & Hk & Hkl)] H0 Hs. unfold visible, snapshot_required in *.
  destruct (0 <? after); [|done]. rewrite Hk in *. cbn in Hs.
  destruct (head (drop k h)) as [o|] eqn:Ho.
  - eapply asked_retained; [done..|]. cbn in Hs. lia.
  - destruct (drop k h) eqn:Hd; [|done]. apply (f_equal length) in Hd.
    rewrite length_drop in Hd. cbn in Hd. by destruct h; [|cbn in *; lia].
Qed.

(** Appends beyond the bound do not change what is asked for. *)
Lemma grows_beyond scope after upTo h l : ascending (h ++ l) ->
  Forall (fun x => 0 < serverSequence x) (h ++ l) -> upTo <= latest_of h ->
  List.filter (asked scope after upTo) (h ++ l) = List.filter (asked scope after upTo) h.
Proof.
  intros Ha Hp Hu. rewrite List.filter_app, (filter_none _ l); [by rewrite app_nil_r|].
  apply Forall_forall. intros x Hx. unfold asked.
  assert (upTo < serverSequence x) as Hlt.
  { unfold latest_of in Hu. destruct (last h) as [y|] eqn:Hy.
    - apply last_Some in Hy as [h1 ->].
      assert (serverSequence y < serverSequence x); [|lia].
      eapply ascending_app_lt; [done| |done]. set_solver.
    - rewrite Forall_forall in Hp. assert (0 < serverSequence x) by (apply Hp; set_solver). apply last_None in Hy as ->. cbn in Hu. lia. }
  destruct (serverSequence x <=? upTo) eqn:Hle; [lia|]. by rewrite andb_false_r.
Qed.

Lemma latest_of_grows h l : ascending (h ++ l) ->
  Forall (fun x => 0 < serverSequence x) (h ++ l) -> latest_of h <= latest_of (h ++ l).
Proof.
  intros Ha Hp. unfold latest_of. destruct (last l) as [y|] eqn:Hy.
  - rewrite last_app, Hy. destruct (last h) as [x|] eqn:Hx.
    + apply last_Some in Hx as [h1 ->], Hy as [l1 ->]. apply Z.lt_le_incl.
      eapply ascending_app_lt; [done| |]; set_solver.
    + rewrite Forall_forall in Hp. apply last_Some in Hy as [l1 ->].
      apply Z.lt_le_incl, Hp. set_solver.
  - apply last_None in Hy as ->. by rewrite app_nil_r.
Qed.

Lemma delivers_all scope size upTo s h after out :
  delivers scope size upTo s h after out -> 0 < normalizeLimit size ->
  feed_invariant s h -> 0 <= after -> upTo <= latest_of h ->
  out = List.filter (asked scope after upTo) (visible s h after).
Proof.
  intros Hd Hn. induction Hd as [s h after p Hr Hs Hm|s h after p s' h' out Hr Hs Hm Hg Hd IH];
    intros Hi H0 Hu; destruct (page_unflagged _ _ _ (inv_ok s h Hi) Hr Hs) as [Hf Hp];
    cbn in Hf, Hp; rewrite (visible_retained _ _ _ s h Hi H0 Hf).
  - rewrite Hp in Hm |- *. cbn in *. apply take_ge. lia.
  - set (selected := List.filter (asked scope after upTo) (retained s)) in *.
    rewrite Hp in Hm. cbn in Hm.
    assert (exists z, last (take (Z.to_nat (normalizeLimit size)) selected) = Some z) as [z Hz].
    { destruct (last _) as [z|] eqn:Hz; [by exists z|]. apply last_None in Hz.
      apply (f_equal length) in Hz. rewrite length_take in Hz. cbn in Hz. lia. }
    assert (nextSequence p = serverSequence z) as Hnext by by rewrite Hp; cbn; rewrite Hz.
    assert (z ∈ selected) as Hzin.
    { rewrite <- (take_drop (Z.to_nat (normalizeLimit size))). apply last_Some in Hz as [l' ->].
      set_solver. }
    assert (z ∈ retained s /\ after < serverSequence z) as [Hzr Hza].
    { apply list_elem_of_In, filter_In in Hzin as [Hz1 Hz2]. split; [by apply list_elem_of_In|].
      unfold asked in Hz2. lia. }
    destruct (grows_invariant _ _ _ _ Hg Hi) as [Hi' [l ->]].
    destruct Hi' as [Hok' Ha' Hp' Hsuf'] eqn:Heqi. clear Heqi.
    rewrite IH; [|by split|lia|pose proof (latest_of_grows h l Ha' Hp'); lia].
    rewrite Hp at 1. cbn [changes changes_page].
    rewrite <- (take_drop (Z.to_nat (normalizeLimit size)) selected) at 2. f_equal.
    unfold visible. rewrite (proj2 (Z.ltb_lt 0 (nextSequence p))) by lia.
    rewrite grows_beyond by done.
    destruct Hi as [_ Ha Hpos (k & Hk & Hkl)].
    destruct (head (drop k h)) as [o|] eqn:Ho.
    + assert (serverSequence o <= serverSequence z) as Hoz.
      { apply (ascending_head (drop k h)); [by apply ascending_drop|done|by rewrite <- Hk]. }
      rewrite (asked_retained _ _ _ k h o) by (done || lia).
      rewrite <- Hk. pose proof (asked_next scope after upTo
        (Z.to_nat (normalizeLimit size)) (retained s)) as Hx. cbv zeta in Hx.
      fold selected in Hx. rewrite Hz in Hx. rewrite Hnext. apply Hx.
      rewrite Hk. by apply ascending_drop.
    + exfalso. rewrite Hk in Hzr. by destruct (drop k h); [apply elem_of_nil in Hzr|].
Qed.

(** Paging an unchanging store ends: each page with more behind it moves the
    cursor past at least one entry. *)
Lemma catch_up_from s h scope size upTo : feed_invariant s h -> 0 < normalizeLimit size ->
  forall n after, (length (List.filter (asked scope after upTo) (retained s)) <= n)%nat ->
  snapshot_required after (serverSequence <$> head (retained s)) = false ->
  exists out, delivers scope size upTo s h after out.
Proof.
  intros Hi Hn n. induction n as [|n IH]; intros after Hlen Hf;
    (destruct (reads_total s {| afterSequence := after; limit := size; query_scope := scope;
      query_upToSequence := Some upTo |} (inv_ok s h Hi)) as [p Hr]);
    pose proof (reads_page s _ p (inv_ok s h Hi) Hr) as Hp; unfold page_of, page_at in Hp; cbn in Hp;
    rewrite Hf in Hp; set (selected := List.filter (asked scope after upTo) (retained s)) in *.
  - exists (changes p). apply delivers_last; [done| |]; rewrite Hp; [done|]. cbn. lia.
  - destruct (normalizeLimit size <? Z.of_nat (length selected)) eqn:Hmore.
    + pose proof (asked_next scope after upTo (Z.to_nat (normalizeLimit size)) (retained s))
        as Hnext. cbv zeta in Hnext. fold selected in Hnext.
      destruct (IH (nextSequence p)) as [out Hout].
      * rewrite Hp. cbn. rewrite Hnext.
        -- rewrite length_drop. lia.
        -- destruct (inv_suffix s h Hi) as (k & -> & _). apply ascending_drop, Hi.
      * assert (after <= nextSequence p) as Hle.
        { rewrite Hp. cbn. destruct (last _) as [z|] eqn:Hz; [|lia].
          assert (z ∈ selected) as Hzin.
          { rewrite <- (take_drop (Z.to_nat (normalizeLimit size))).
            apply last_Some in Hz as [l' ->]. set_solver. }
          apply list_elem_of_In, filter_In in Hzin as [_ Hz']. unfold asked in Hz'. lia. }
        assert (nextSequence p = after \/ exists z, z ∈ retained s /\ serverSequence z = nextSequence p)
          as [->|(z & Hz & Heq)]; [|done|].
        { rewrite Hp. cbn. destruct (last _) as [z|] eqn:Hz; [right|by left]. exists z.
          split; [|done]. assert (z ∈ selected) as Hzin.
          { rewrite <- (take_drop (Z.to_nat (normalizeLimit size))).
            apply last_Some in Hz as [l' ->]. set_solver. }
          by apply list_elem_of_In, filter_In in Hzin as [Hz1%list_elem_of_In _]. }
        unfold snapshot_required. destruct (0 <? nextSequence p); [|done]. cbn.
        destruct (head (retained s)) as [o|] eqn:Ho; [|done]. cbn.
        destruct (inv_suffix s h Hi) as (k & Hk & _).
        enough (serverSequence o <= serverSequence z) by lia.
        apply (ascending_head (retained s)); [|done|done]. rewrite Hk.
        apply ascending_drop, Hi.
      * exists (changes p ++ out). eapply delivers_more; [done|by rewrite Hp..|constructor|done].
    + exists (changes p). apply delivers_last; [done|by rewrite Hp|]. by rewrite Hp.
Qed.

End paging.

(** ** The fallback implements the interface *)

Section memory.
Context (e : Memory.env) (Hretention : 1 <= Memory.retentionSize e).

Record memory_ok (s : Memory.state) : Prop := {
  memory_ascending : ascending (Memory._memoryChanges s);
  memory_latest : latest_of (Memory._memoryChanges s) = Memory._memorySequence s;
  memory_nonneg : 0 <= Memory._memorySequence s
}.

Lemma ascending_latest l x : ascending l -> x ∈ l -> serverSequence x <= latest_of l.
Proof.
  intros Hl Hx. unfold latest_of. destruct (last l) as [y|] eqn:Hy.
  - apply last_Some in Hy as [l' ->]. apply elem_of_app in Hx as [Hx|Hx].
    + apply Z.lt_le_incl. by eapply ascending_last.
    + apply list_elem_of_singleton in Hx as ->. lia.
  - apply last_None in Hy as ->. by apply elem_of_nil in Hx.
Qed.

Lemma latest_of_drop k l x : (k <= length l)%nat -> latest_of (drop k (l ++ [x])) = serverSequence x.
Proof. intros Hk. unfold latest_of. rewrite drop_app_le by done. by rewrite last_snoc. Qed.

(** The list after an append is a suffix that keeps the new entry. *)
Lemma memory_appended c s : exists k, (k <= length (Memory._memoryChanges s))%nat /\
  Memory._memoryChanges (Memory.append e c s).2 =
    drop k (Memory._memoryChanges s ++ [(Memory.append e c s).1]) /\
  Memory._memorySequence (Memory.append e c s).2 = Memory._memorySequence s + 1 /\
  serverSequence (Memory.append e c s).1 = Memory._memorySequence s + 1.
Proof.
  unfold Memory.append, Memory._appendMemory.
  destruct (nonempty_or_null (change_id c)); cbn -[Z.of_nat]; rewrite length_app;
    cbn -[Z.of_nat]; case_match;
    (eexists; split_and!; [|reflexivity || by rewrite drop_0|done|done]); lia.
Qed.

#[export, program] Instance memory_feed : FeedStore Memory.state := {
  start := Memory.initial;
  appends s x s' := exists c, Memory.append e c s = (x, s');
  reads s q p := p = Memory._memoryChangesAfter q s;
  retained := Memory._memoryChanges;
  feed_ok := memory_ok
}.
Next Obligation. split; [constructor|done|done]. Qed.
Next Obligation. done. Qed.
Next Obligation.
  intros s x s' [Ha Hl H0] [c Hc]. destruct (memory_appended c s) as (k & Hk & Hs & Hq & Hx).
  rewrite Hc in *. cbn in *. split.
  - rewrite Hs. apply ascending_drop, ascending_app; [done|].
    apply Forall_forall. intros y Hy. pose proof (ascending_latest _ y Ha Hy). lia.
  - rewrite Hs, latest_of_drop by done. by rewrite Hx, Hq.
  - lia.
Qed.
Next Obligation.
  intros s x s' [Ha Hl H0] [c Hc]. destruct (memory_appended c s) as (k & Hk & Hs & Hq & Hx).
  rewrite Hc in *. cbn in *. split; [lia|].
  apply Forall_forall. intros y Hy. pose proof (ascending_latest _ y Ha Hy). lia.
Qed.
Next Obligation.
  intros s x s' _ [c Hc]. destruct (memory_appended c s) as (k & Hk & Hs & _).
  rewrite Hc in *. eauto.
Qed.
Next Obligation.
  intros s q p [_ Hl _] ->. unfold Memory._memoryChangesAfter, page_of, page_at. rewrite Hl. done.
Qed.
Next Obligation. intros. eauto. Qed.
End memory.
