(* ===== verification/ServerChangeFeedStore.v ===== *)
(** * The table-backed change feed implements the feed interface

    The invariant of the table, the run of [Store.append] on it, and the instance
    of [FeedStore] from which the paging theorems of [ServerChangeFeed] follow. *)

From stdpp Require Import base functions gmap strings list sorting pretty.
From Stdlib Require Import ZArith Ascii Lia.
From S2P Require Import Prelude Sql Json StableJson ServerChangeFeed.
Import Store.
Open Scope Z_scope.

(** The sequences the engine gives grow: gaps are possible, reuse is not. *)
Class AutoIncrement (e : env) := increment_grows : forall n, 0 <= n -> n < increment e n.

(** The objects of a change are JSON objects with distinct keys. *)
Definition plain_object (o : option properties) : Prop := plain_json false (object_or_null o).

Record plain_change (c : change) : Prop := {
  plain_attributes : plain_object (change_attributes c);
  plain_payload : plain_object (change_payload c);
  plain_response : plain_object (change_response c);
  plain_scope : plain_object (change_scope c)
}.

Section store.
Context (e : env) `{!AutoIncrement e}.

(** The identifier [append] gives the change, and what it has been given already. *)
Definition identifier_of (c : change) (s : state) : string :=
  match nonempty_or_null (change_id c) with Some i => i | None => randomUUID e (uuids s) end.

Definition fresh_identifier (c : change) (s : state) : Prop :=
  forall k r, rows s !! k = Some r -> id r <> identifier_of c s.

(** The row reads back as an entry, whose scope has the text the row is selected by. *)
Definition row_entry (r : row) (x : entry) : Prop :=
  _normalizeChangeRow r = Ok x /\ serverSequence x = server_sequence r /\
  scope_json r = stableJsonStringify (entry_scope x).

Record store_ok (s : state) : Prop := {
  ok_keys k r : rows s !! k = Some r -> server_sequence r = k /\ 0 < k <= allocated s;
  ok_ids k k' r r' : rows s !! k = Some r -> rows s !! k' = Some r' -> id r = id r' -> k = k';
  ok_entries k r : rows s !! k = Some r -> exists x, row_entry r x;
  ok_allocated : 0 <= allocated s
}.

(** ** The rows of a query *)

Definition ascending_rows (l : list row) : Prop :=
  StronglySorted (fun a b => server_sequence a < server_sequence b) l.

Lemma scan_NoDup s : store_ok s -> NoDup (server_sequence <$> scan (row_scan e) (rows s)).
Proof.
  intros Hok. rewrite (scan_rows (row_scan e) (rows s)), <- list_fmap_compose.
  assert (Forall (fun kv : Z * row => server_sequence kv.2 = kv.1) (map_to_list (rows s))) as Hk.
  { apply Forall_forall. intros [k r] Hkr%elem_of_map_to_list. by eapply ok_keys. }
  replace ((server_sequence ∘ snd) <$> map_to_list (rows s)) with ((map_to_list (rows s)).*1).
  - apply NoDup_fst_map_to_list.
  - clear -Hk. induction Hk as [|kv l Hkv Hl IH]; [done|]. cbn. by rewrite IH, Hkv.
Qed.

Lemma NoDup_fmap_filter {A} (p : row -> bool) (f : row -> A) l :
  NoDup (f <$> l) -> NoDup (f <$> List.filter p l).
Proof.
  induction l as [|x l IH]; cbn; [done|]. intros [Hx Hl]%NoDup_cons.
  destruct (p x); cbn; [|by apply IH]. constructor; [|by apply IH].
  rewrite list_elem_of_fmap in Hx |- *. intros (y & Hy & [Hin _]%list_elem_of_In%filter_In).
  apply Hx. exists y. split; [done|]. by apply list_elem_of_In.
Qed.

(** Sorting by a key no two rows share gives a strictly ascending list. *)
Lemma sorted_ascending l : NoDup (server_sequence <$> l) ->
  ascending_rows (merge_sort by_sequence l).
Proof.
  intros Hd. pose proof (StronglySorted_merge_sort by_sequence l) as Hs.
  assert (NoDup (server_sequence <$> merge_sort by_sequence l)) as Hd'
    by by rewrite (merge_sort_Permutation by_sequence l).
  clear Hd. induction Hs as [|x l' Hs IH Hx]; [constructor|].
  apply NoDup_cons in Hd' as [Hn Hd']. constructor; [by apply IH|].
  rewrite Forall_forall in Hx |- *. intros y Hy. specialize (Hx y Hy).
  unfold by_sequence, by_key in Hx.
  assert (server_sequence x <> server_sequence y); [|lia].
  intros Heq. apply Hn. rewrite Heq. apply list_elem_of_fmap. eauto.
Qed.

Lemma ascending_rows_unique l l' : ascending_rows l -> ascending_rows l' -> l ≡ₚ l' -> l = l'.
Proof. intros H1 H2. intros Hp.
  by apply (StronglySorted_unique_strong (fun a b => server_sequence a < server_sequence b));
    [lia| | |]. Qed.

Lemma select_rows p s : select_ascending e p s ≡ₚ List.filter p (scan (row_scan e) (rows s)).
Proof. apply merge_sort_Permutation. Qed.

Lemma select_ascending_ascending p s : store_ok s -> ascending_rows (select_ascending e p s).
Proof.
  intros Hok. apply sorted_ascending, NoDup_fmap_filter, scan_NoDup, Hok.
Qed.

Lemma ascending_rows_filter p l : ascending_rows l -> ascending_rows (List.filter p l).
Proof.
  unfold ascending_rows. induction 1 as [|x l Hl IH Hx]; cbn; [constructor|].
  destruct (p x); [|done]. constructor; [done|]. rewrite Forall_forall in Hx |- *.
  intros y [Hy _]%list_elem_of_In%filter_In. by apply Hx, list_elem_of_In.
Qed.

(** All rows, in ascending order; every query is a filter of them. *)
Definition all_rows (s : state) : list row := select_ascending e (fun _ => true) s.

Lemma elem_of_all_rows s r : r ∈ all_rows s <-> exists k, rows s !! k = Some r.
Proof.
  unfold all_rows. rewrite select_rows, list_elem_of_In, filter_In, <- list_elem_of_In.
  rewrite elem_of_scan. naive_solver.
Qed.

Lemma select_filter p s : store_ok s -> select_ascending e p s = List.filter p (all_rows s).
Proof.
  intros Hok. apply ascending_rows_unique.
  - by apply select_ascending_ascending.
  - by apply ascending_rows_filter, select_ascending_ascending.
  - unfold all_rows. rewrite select_rows. apply filter_Permutation. symmetry.
    rewrite select_rows. clear. induction (scan _ _) as [|x l IH]; [done|]. cbn. by rewrite IH.
Qed.

(** Rows that read back, in order. *)
Lemma normalize_rows_Ok l : (forall r, r ∈ l -> exists x, row_entry r x) ->
  exists xs, normalize_rows l = Ok xs /\ Forall2 row_entry l xs.
Proof.
  induction l as [|r l IH]; intros Hl; [by exists []|].
  destruct (Hl r) as [x Hx]; [constructor|].
  destruct IH as (xs & Hxs & HF); [intros r' Hr'; apply Hl; by constructor|].
  exists (x :: xs). split; [|by constructor]. cbn. destruct Hx as [-> _]. cbn. by rewrite Hxs.
Qed.

Lemma normalize_rows_Forall2 l xs : Forall2 row_entry l xs -> normalize_rows l = Ok xs.
Proof.
  induction 1 as [|r x l xs [Hx _] Hl IH]; [done|]. cbn. rewrite Hx. cbn. by rewrite IH.
Qed.

Definition retained_entries (s : state) : list entry :=
  match normalize_rows (all_rows s) with Ok xs => xs | Throw _ => [] end.

Lemma retained_Forall2 s : store_ok s -> Forall2 row_entry (all_rows s) (retained_entries s).
Proof.
  intros Hok. unfold retained_entries.
  destruct (normalize_rows_Ok (all_rows s)) as (xs & -> & H); [|done].
  intros r [k Hk]%elem_of_all_rows. by eapply ok_entries.
Qed.

(** Related lists are filtered, cut and read alike. *)
Lemma Forall2_filter (p : row -> bool) (p' : entry -> bool) l xs :
  (forall r x, row_entry r x -> p r = p' x) -> Forall2 row_entry l xs ->
  Forall2 row_entry (List.filter p l) (List.filter p' xs).
Proof.
  intros Hp. induction 1 as [|r x l xs Hr Hl IH]; cbn; [constructor|].
  rewrite (Hp r x Hr). destruct (p' x); [by constructor|done].
Qed.

Lemma Forall2_head l xs : Forall2 row_entry l xs ->
  server_sequence <$> head l = serverSequence <$> head xs.
Proof. destruct 1 as [|r x l xs (_ & Hx & _) _]; cbn; [done|]. by rewrite Hx. Qed.

Lemma Forall2_latest l xs : Forall2 row_entry l xs ->
  match last l with Some r => server_sequence r | None => 0 end = latest_of xs.
Proof.
  unfold latest_of. induction 1 as [|r x l xs (_ & Hx & _) Hl IH]; [done|].
  destruct Hl; [done|]. by rewrite !last_cons_cons.
Qed.

Lemma Forall2_row l xs x : Forall2 row_entry l xs -> x ∈ xs ->
  exists r, r ∈ l /\ row_entry r x.
Proof.
  induction 1 as [|r y l xs Hr Hl IH]; [by intros []%elem_of_nil|].
  intros [->|Hx]%elem_of_cons; [exists r|destruct (IH Hx) as (r' & ? & ?); exists r'];
    (split; [|done]); by constructor.
Qed.

Lemma Forall2_below l xs n : Forall2 row_entry l xs ->
  Forall (fun r => n < server_sequence r) l <-> Forall (fun x => n < serverSequence x) xs.
Proof.
  induction 1 as [|r x l xs (_ & Hx & _) Hl IH]; [done|]. by rewrite !Forall_cons, IH, Hx.
Qed.

Lemma Forall2_ascending l xs : Forall2 row_entry l xs -> ascending_rows l <-> ascending xs.
Proof.
  unfold ascending, ascending_rows. induction 1 as [|r x l xs Hr Hl IH]; [split; constructor|].
  pose proof (Forall2_below l xs (server_sequence r) Hl) as Hb. destruct Hr as (_ & Hx & _).
  rewrite <- Hx in Hb.
  split; intros Ha; inversion Ha; subst; (constructor; [by apply IH|]).
  - rewrite Hx in Hb |- *. by apply Hb.
  - rewrite <- Hx. by apply Hb.
Qed.

Lemma retained_ascending s : store_ok s -> ascending (retained_entries s).
Proof.
  intros Hok. apply (Forall2_ascending _ _ (retained_Forall2 s Hok)).
  by apply select_ascending_ascending.
Qed.

Lemma ascending_NoDup l : ascending_rows l -> NoDup l.
Proof.
  unfold ascending_rows. induction 1 as [|r l Hl IH Hr]; [constructor|]. constructor; [|done].
  rewrite Forall_forall in Hr. intros Hin. specialize (Hr r Hin). lia.
Qed.

(** ** Reading *)

Lemma reads_page_at s1 s2 s3 q : store_ok s1 -> store_ok s2 -> store_ok s3 ->
  changesAfter e q s1 s2 s3 =
  Ok (page_at (retained_entries s1) (retained_entries s2) (retained_entries s3) q).
Proof.
  intros Hok1 Hok2 Hok. pose proof (retained_Forall2 s1 Hok1) as HF1.
  pose proof (retained_Forall2 s2 Hok2) as HF2. pose proof (retained_Forall2 s3 Hok) as HF.
  unfold changesAfter, page_at, _oldestSequence, _latestSequence.
  fold (all_rows s1). fold (all_rows s2).
  rewrite (Forall2_head _ _ HF2), (Forall2_latest _ _ HF1).
  set (latest := match query_upToSequence q with Some n => n | None => _ end).
  destruct (snapshot_required _ _); [done|].
  rewrite select_filter by done.
  assert (Forall2 row_entry (List.filter (selects q latest) (all_rows s3))
    (List.filter (asked (query_scope q) (afterSequence q) latest) (retained_entries s3))) as Hsel.
  { apply Forall2_filter; [|done]. intros r x (_ & Hx & Hscope).
    unfold selects, asked, in_scope. rewrite Hx. f_equal. destruct (query_scope q); [|done].
    by rewrite Hscope. }
  rewrite take_take, Nat.min_l by lia.
  rewrite (normalize_rows_Forall2 _ _ (Forall2_take _ _ _ (Z.to_nat (normalizeLimit (limit q))) Hsel)).
  cbn. do 2 f_equal.
  rewrite length_take, (Forall2_length _ _ _ Hsel).
  set (n := normalizeLimit (limit q)).
  destruct (Z.ltb_spec n (Z.of_nat (Nat.min (Z.to_nat (n + 1)) (length (List.filter
    (asked (query_scope q) (afterSequence q) latest) (retained_entries s3)))))); lia.
Qed.

(** ** Appending *)

(** The entry a change becomes: absent values and empty strings are [null], the
    objects are copied through their text, the scope with its keys sorted. *)
Definition entry_of (c : change) (identifier : string) (at_ms sequence : Z) : entry := {|
  actorDeviceId := nonempty_or_null (change_actorDeviceId c);
  actorUserId := nonempty_or_null (change_actorUserId c);
  entry_attributes := rebuild (object_or_null (change_attributes c));
  createdAt := at_ms;
  entry_id := identifier;
  idempotencyKey := nonempty_or_null (change_idempotencyKey c);
  entry_model := change_model c;
  entry_operation := change_operation c;
  entry_payload := rebuild (object_or_null (change_payload c));
  recordId := nonempty_or_null (change_recordId c);
  entry_response := rebuild (object_or_null (change_response c));
  entry_scope := stableJsonValue (object_or_null (change_scope c));
  serverSequence := sequence |}.

Lemma parse_stored v : valid_json v -> parseJsonOrNull (stringify v) = Ok (rebuild v).
Proof.
  intros Hv. unfold parseJsonOrNull. destruct (stringify_head v Hv) as (ch & t & Ht & _).
  pose proof (parse_stringify_rebuild v Hv) as Hp. rewrite Ht in *. by rewrite Hp.
Qed.

Lemma row_of_change_entry c i t n : plain_change c ->
  row_entry (row_of_change c i t n) (entry_of c i t n).
Proof.
  intros [Ha Hp Hr Hs]. unfold plain_object in *.
  assert (valid_json (stableJsonValue (object_or_null (change_scope c)))) as Hv
    by by eapply stableJsonValue_valid.
  split_and!; [|done|].
  - unfold _normalizeChangeRow, row_of_change, scope_text, stableJsonStringify. cbn -[stringify].
    rewrite !parse_stored by (done || by eapply plain_valid). cbn.
    by rewrite (ordinary_rebuild _ (stableJsonValue_ordinary _)).
  - cbn. unfold scope_text, stableJsonStringify. by rewrite stableJsonValue_idemp.
Qed.

(** Pruning deletes the rows whose identifier it has read. *)
Lemma delete_rows l s : exists s', for_each (fun r => modify (delete_by_id (id r))) l s =
    (@Ok string unit tt, s') /\ allocated s' = allocated s /\
  forall k r, rows s' !! k = Some r <-> rows s !! k = Some r /\ id r ∉ id <$> l.
Proof.
  revert s. induction l as [|r0 l IH]; intros s.
  - exists s. split_and!; [done|done|]. set_solver.
  - destruct (IH (delete_by_id (id r0) s)) as (s' & Hrun & Ha & Hrows).
    exists s'. split_and!; [|done|].
    + cbn. st_run. exact Hrun.
    + intros k r. rewrite Hrows. cbn. rewrite map_lookup_filter_Some. cbn.
      rewrite not_elem_of_cons. tauto.
Qed.

(** The rows an append leaves. *)
Definition kept (latest : Z) (k : Z) : Prop :=
  1 <= retentionSize e -> 1 <= latest - retentionSize e -> latest - retentionSize e < k.

#[local] Instance kept_dec latest k : Decision (kept latest k).
Proof. unfold kept. apply _. Defined.

Lemma prune_rows n s : 
  (forall k r, rows s !! k = Some r -> server_sequence r = k) ->
  (forall k k' r r', rows s !! k = Some r -> rows s !! k' = Some r' -> id r = id r' -> k = k') ->
  exists s', _pruneRetainedChanges e n s = (Ok tt, s') /\ allocated s' = allocated s /\
    forall k r, rows s' !! k = Some r <-> rows s !! k = Some r /\ kept n k.
Proof.
  intros Hkeys Hids. unfold _pruneRetainedChanges, kept.
  destruct (Z.ltb_spec (retentionSize e) 1).
  { exists s. split_and!; [done..|]. intros k r. split; [|tauto]. intros ?. split; [done|lia]. }
  destruct (Z.ltb_spec (n - retentionSize e) 1).
  { exists s. split_and!; [done..|]. intros k r. split; [|tauto]. intros ?. split; [done|lia]. }
  st_run.
  destruct (delete_rows (List.filter (fun r => server_sequence r <=? n - retentionSize e)
    (scan (row_scan e) (rows s))) s) as (s' & Hrun & Ha & Hrows).
  exists s'. split_and!; [exact Hrun|done|]. intros k r. rewrite Hrows.
  assert (forall r0, r0 ∈ List.filter (fun r => server_sequence r <=? n - retentionSize e)
    (scan (row_scan e) (rows s)) <-> exists k0, rows s !! k0 = Some r0 /\ k0 <= n - retentionSize e)
    as Hin.
  { intros r0. rewrite list_elem_of_In, filter_In, <- list_elem_of_In, elem_of_scan. split.
    - intros [[k0 Hk0] Hle]. exists k0. split; [done|]. rewrite (Hkeys _ _ Hk0) in Hle. lia.
    - intros (k0 & Hk0 & Hle). split; [eauto|]. rewrite (Hkeys _ _ Hk0). lia. }
  split; intros [Hk Hn]; (split; [done|]).
  - intros _ _. apply Z.nle_gt. intros Hle. apply Hn, list_elem_of_fmap. exists r.
    split; [done|]. apply Hin. eauto.
  - rewrite list_elem_of_fmap. intros (r0 & Hr0 & (k0 & Hk0 & Hle)%Hin).
    rewrite (Hids k k0 r r0) in Hn by done. lia.
Qed.

Definition time_of (c : change) (s : state) : Z :=
  match change_createdAt c with Some t => t | None => clock e (allocated s) end.

Lemma append_run c s : store_ok s -> plain_change c -> fresh_identifier c s ->
  let n := increment e (allocated s) in
  let x := entry_of c (identifier_of c s) (time_of c s) n in
  let r := row_of_change c (identifier_of c s) (time_of c s) n in
  exists s', append e c s = (Ok x, s') /\ store_ok s' /\ allocated s' = n /\
    forall k r', rows s' !! k = Some r' <-> <[n := r]> (rows s) !! k = Some r' /\ kept n k.
Proof.
  intros Hok Hc Hfresh n x r. pose proof (increment_grows (allocated s) (ok_allocated s Hok)) as Hn.
  fold n in Hn.
  assert (exists s0, resolve_id e c s = (Ok (identifier_of c s), s0) /\ rows s0 = rows s /\
    allocated s0 = allocated s) as (s0 & Hres & Hrows0 & Halloc0).
  { unfold resolve_id, identifier_of. destruct (nonempty_or_null (change_id c)); eauto. }
  set (s1 := insert_change e c (identifier_of c s) (time_of c s) s0).
  assert (rows s1 = <[n := r]> (rows s)) as Hrows1
    by by unfold s1, insert_change; rewrite Halloc0, Hrows0.
  assert (allocated s1 = n) as Halloc1 by by unfold s1, insert_change; cbn; rewrite Halloc0.
  assert (rows s !! n = None) as Hnew.
  { destruct (rows s !! n) eqn:Hl; [|done]. apply (ok_keys s Hok) in Hl as [_ Hl]. lia. }
  assert (row_entry r x) as Hrx by by apply row_of_change_entry.
  assert (forall k r', rows s1 !! k = Some r' -> server_sequence r' = k /\ 0 < k <= n) as Hkeys1.
  { intros k r'. rewrite Hrows1, lookup_insert_Some. intros [[<- <-]|[_ Hk]].
    - split; [done|]. pose proof (ok_allocated s Hok). lia.
    - apply (ok_keys s Hok) in Hk as [? ?]. split; [done|lia]. }
  assert (forall k k' r1 r2, rows s1 !! k = Some r1 -> rows s1 !! k' = Some r2 ->
    id r1 = id r2 -> k = k') as Hids1.
  { intros k k' r1 r2. rewrite Hrows1, !lookup_insert_Some.
    intros [[<- <-]|[_ H1]] [[<- <-]|[_ H2]] Heq; [done| | |by eapply ok_ids].
    - exfalso. by apply (Hfresh _ _ H2).
    - exfalso. by apply (Hfresh _ _ H1). }
  assert (_changeById e (identifier_of c s) s1 = (Ok (Some x), s1)) as Hfind.
  { unfold _changeById. st_run.
    destruct (head (List.filter _ (scan (row_scan e) (rows s1)))) as [r'|] eqn:Hh.
    - assert (r' ∈ scan (row_scan e) (rows s1) /\ id r' = identifier_of c s) as [Hin Hid].
      { destruct (List.filter _ _) as [|r0 l] eqn:Hf; [done|]. injection Hh as ->.
        assert (In r' (r' :: l)) as Hin by by left. rewrite <- Hf in Hin.
        apply filter_In in Hin as [? Hb%bool_decide_eq_true]. split; [by apply list_elem_of_In|done]. }
      apply elem_of_scan in Hin as [k Hk].
      assert (k = n) as ->.
      { apply (Hids1 k n r' r); [done|by rewrite Hrows1, lookup_insert_eq|done]. }
      rewrite Hrows1, lookup_insert_eq in Hk. injection Hk as <-.
      destruct Hrx as [Hx _]. by rewrite Hx.
    - exfalso. destruct (List.filter _ _) as [|r0 l] eqn:Hf; [|done].
      apply (in_nil (a := r)). rewrite <- Hf. apply filter_In. split; [|by apply bool_decide_eq_true].
      apply list_elem_of_In, elem_of_scan. exists n. by rewrite Hrows1, lookup_insert_eq. }
  destruct (prune_rows n s1) as (s' & Hprune & Halloc & Hrows'); [|done|].
  { intros k r' Hk. by destruct (Hkeys1 k r' Hk). }
  exists s'. split_and!.
  - unfold append. st_run. rewrite Hres. cbv beta iota. fold (time_of c s).
    replace (match change_createdAt c with Some t => t | None => clock e (allocated s0) end)
      with (time_of c s) by by unfold time_of; rewrite Halloc0.
    fold s1. rewrite Hfind. cbv beta iota. change (serverSequence x) with n. by rewrite Hprune.
  - split.
    + intros k r' [Hk _]%Hrows'. rewrite Halloc, Halloc1. by apply Hkeys1.
    + intros k k' r1 r2 [H1 _]%Hrows' [H2 _]%Hrows'. by apply Hids1.
    + intros k r' [Hk _]%Hrows'. rewrite Hrows1, lookup_insert_Some in Hk.
      destruct Hk as [[_ <-]|[_ Hk]]; [by exists x|by eapply ok_entries].
    + rewrite Halloc, Halloc1. pose proof (ok_allocated s Hok). lia.
  - by rewrite Halloc, Halloc1.
  - intros k r'. by rewrite Hrows', Hrows1.
Qed.

(** An append extends the retained entries and cuts the oldest ones off. *)
Lemma row_entry_functional r x x' : row_entry r x -> row_entry r x' -> x = x'.
Proof. intros [H1 _] [H2 _]. congruence. Qed.

Lemma Forall2_functional l xs ys : Forall2 row_entry l xs -> Forall2 row_entry l ys -> xs = ys.
Proof.
  intros H. revert ys. induction H as [|r x l xs Hx Hl IH]; intros ys Hy; inversion Hy; subst;
    [done|]. f_equal; [by eapply row_entry_functional|by apply IH].
Qed.

Lemma filter_suffix l x b : ascending (l ++ [x]) -> b < serverSequence x ->
  exists k, (k <= length l)%nat /\
    List.filter (fun y => b <? serverSequence y) (l ++ [x]) = drop k (l ++ [x]).
Proof.
  induction l as [|y l IH]; intros Ha Hb.
  - exists 0%nat. split; [done|]. cbn. by rewrite (proj2 (Z.ltb_lt b _)).
  - destruct (Z.ltb_spec b (serverSequence y)) as [Hy|Hy].
    + exists 0%nat. split; [cbn; lia|]. rewrite drop_0. apply filter_every.
      apply Forall_forall. intros z Hz. apply Z.ltb_lt.
      pose proof (ascending_head _ y z Ha eq_refl Hz). lia.
    + inversion Ha as [|? ? Ha' _]; subst. destruct (IH Ha' Hb) as (k & Hk & Hf).
      exists (S k). split; [cbn; lia|]. cbn [app List.filter drop].
      by rewrite (proj2 (Z.ltb_ge b _)).
Qed.

Lemma append_retained c s x s' : store_ok s -> plain_change c -> fresh_identifier c s ->
  append e c s = (Ok x, s') ->
  exists k, (k <= length (retained_entries s))%nat /\
    retained_entries s' = drop k (retained_entries s ++ [x]).
Proof.
  intros Hok Hc Hf Happ. destruct (append_run c s Hok Hc Hf) as (s2 & Hrun & Hok' & Ha' & Hrows).
  rewrite Happ in Hrun. injection Hrun as Hx <-.
  pose proof (increment_grows (allocated s) (ok_allocated s Hok)) as Hn.
  set (n := increment e (allocated s)) in *.
  set (r := row_of_change c (identifier_of c s) (time_of c s) n) in *.
  assert (row_entry r x) as Hrx by by rewrite Hx; apply row_of_change_entry.
  assert (Forall2 row_entry (all_rows s ++ [r]) (retained_entries s ++ [x])) as HF.
  { apply Forall2_app; [by apply retained_Forall2|by constructor]. }
  assert (Forall (fun y => serverSequence y < serverSequence x) (retained_entries s)) as Hlt.
  { apply Forall_forall. intros y Hy.
    destruct (Forall2_row _ _ y (retained_Forall2 s Hok) Hy) as (ry & [k Hk]%elem_of_all_rows & _ & Hs & _).
    rewrite Hs, Hx. cbn. apply (ok_keys s Hok) in Hk as [-> Hk]. lia. }
  assert (ascending (retained_entries s ++ [x])) as Hasc
    by by apply ascending_app; [apply retained_ascending|].
  set (keep := fun m : Z => bool_decide (kept n m)).
  assert (all_rows s' = List.filter (fun r => keep (server_sequence r)) (all_rows s ++ [r])) as Hall.
  { pose proof (proj2 (Forall2_ascending _ _ HF) Hasc) as Hasc'.
    apply ascending_rows_unique.
    - by apply select_ascending_ascending.
    - by apply ascending_rows_filter.
    - apply NoDup_Permutation; [by apply ascending_NoDup, select_ascending_ascending| |].
      + by apply ascending_NoDup, ascending_rows_filter.
      + intros r'. rewrite (list_elem_of_In (List.filter _ _)), filter_In, <- list_elem_of_In.
        rewrite elem_of_app, list_elem_of_singleton, !elem_of_all_rows.
        unfold keep. rewrite bool_decide_eq_true. split.
        * intros [k [Hk Hkept]%Hrows]. apply lookup_insert_Some in Hk as [[<- <-]|[_ Hk]].
          -- split; [by right|done].
          -- destruct (ok_keys s Hok k r' Hk) as [-> _]. eauto.
        * intros [[[k Hk]| ->] Hkept].
          -- exists k. destruct (ok_keys s Hok k r' Hk) as [<- Hle]. apply Hrows.
             split; [|done]. rewrite lookup_insert_ne by lia. done.
          -- exists n. apply Hrows. split; [by apply lookup_insert_eq|done]. }
  assert (retained_entries s' =
    List.filter (fun y => keep (serverSequence y)) (retained_entries s ++ [x])) as ->.
  { eapply Forall2_functional; [by apply retained_Forall2|]. rewrite Hall.
    apply Forall2_filter; [|done]. intros r' x' (_ & -> & _). done. }
  destruct (decide (1 <= retentionSize e /\ 1 <= n - retentionSize e)) as [[H1 H2]|Hno].
  - destruct (filter_suffix _ x (n - retentionSize e) Hasc) as (k & Hk & Hcut).
    { rewrite Hx. cbn. lia. }
    exists k. split; [done|]. rewrite <- Hcut. apply List.filter_ext. intros y. unfold keep, kept.
    destruct (Z.ltb_spec (n - retentionSize e) (serverSequence y)).
    + by apply bool_decide_eq_true.
    + apply bool_decide_eq_false. lia.
  - exists 0%nat. split; [lia|]. rewrite drop_0. apply filter_every, Forall_forall. intros y _.
    apply bool_decide_eq_true. unfold kept. lia.
Qed.

#[export, program] Instance store_feed : FeedStore state := {
  start := initial;
  appends s x s' := exists c, plain_change c /\ fresh_identifier c s /\ append e c s = (Ok x, s');
  reads s q p := changesAfter e q s s s = Ok p;
  retained := retained_entries;
  feed_ok := store_ok
}.
Next Obligation.
  assert (forall k r, rows initial !! k <> Some r) as Hn.
  { intros k r. change (rows initial) with (∅ : gmap Z row). by rewrite lookup_empty. }
  split; [| | |done].
  - by intros k r Hk%Hn.
  - by intros k k' r r' Hk%Hn.
  - by intros k r Hk%Hn.
Qed.
Next Obligation.
  unfold retained_entries, all_rows, select_ascending.
  assert (scan (row_scan e) (rows initial) = []) as ->; [|done].
  apply Permutation_nil_r. rewrite scan_rows. change (rows initial) with (∅ : gmap Z row).
  by rewrite map_to_list_empty.
Qed.
Next Obligation.
  intros s x s' Hok (c & Hc & Hf & Happ).
  destruct (append_run c s Hok Hc Hf) as (s2 & Hrun & Hok' & _). congruence.
Qed.
Next Obligation.
  intros s x s' Hok (c & Hc & Hf & Happ).
  destruct (append_run c s Hok Hc Hf) as (s2 & Hrun & _).
  rewrite Happ in Hrun. injection Hrun as -> _. cbn.
  pose proof (increment_grows (allocated s) (ok_allocated s Hok)).
  pose proof (ok_allocated s Hok). split; [lia|].
  apply Forall_forall. intros y Hy.
  destruct (Forall2_row _ _ y (retained_Forall2 s Hok) Hy) as (ry & [k Hk]%elem_of_all_rows & _ & Hs & _).
  rewrite Hs. apply (ok_keys s Hok) in Hk as [-> Hk]. lia.
Qed.
Next Obligation.
  intros s x s' Hok (c & Hc & Hf & Happ). by eapply append_retained.
Qed.
Next Obligation.
  intros s q p Hok Hr. assert (changesAfter e q s s s = Ok p) as Hr' by exact Hr.
  rewrite reads_page_at in Hr' by done. by injection Hr' as <-.
Qed.
Next Obligation.
  intros s q Hok. exists (page_of (retained_entries s) q). by apply reads_page_at.
Qed.

End store.

(** ** What the feed promises *)

Section promises.
Context (e : env) `{!AutoIncrement e}.

#[local] Existing Instance store_feed.

(** Catching up ends: from every reachable store and cursor whose first page
    does not ask for a snapshot, a reader with a positive page size reaches, in
    finitely many pages, a page with nothing behind it, and no page on the way
    asks for a snapshot. *)
Lemma catching_up_terminates scope size upTo s h after :
  history s h -> 0 < normalizeLimit size ->
  snapshot_required after (serverSequence <$> head (retained_entries e s)) = false ->
  exists out, delivers scope size upTo s h after out.
Proof.
  intros Hh Hn Hf. by eapply (catch_up_from s h); [apply history_invariant|..].
Qed.

(** An append of a well-formed change with an identifier not in the table
    always returns: the entry has the sequence the engine gave, which is above
    every earlier one, and the data of the change, the objects up to key order;
    the store then holds the rows it held and the new one, less those that fell
    out of the retention window, and stays well formed. *)
Lemma append_returns c s : store_ok s -> plain_change c -> fresh_identifier e c s ->
  let n := increment e (allocated s) in
  exists x s', append e c s = (Ok x, s') /\ store_ok s' /\
    x = entry_of c (identifier_of e c s) (time_of e c s) n /\
    json_equiv (object_or_null (change_attributes c)) (entry_attributes x) /\
    json_equiv (object_or_null (change_payload c)) (entry_payload x) /\
    json_equiv (object_or_null (change_response c)) (entry_response x) /\
    json_equiv (object_or_null (change_scope c)) (entry_scope x) /\
    (forall k r, rows s !! k = Some r -> k < n) /\
    (forall k r, rows s' !! k = Some r <->
       kept e n k /\ (k = n /\ r = row_of_change c (identifier_of e c s) (time_of e c s) n \/
                     rows s !! k = Some r)).
Proof.
  intros Hok Hc Hf n. destruct (append_run e c s Hok Hc Hf) as (s' & Hrun & Hok' & Ha & Hrows).
  fold n in Hrun, Hrows.
  pose proof (increment_grows (allocated s) (ok_allocated s Hok)) as Hgt. fold n in Hgt. eexists _, s'. split_and!; [exact Hrun|done|done|..].
  1-3: destruct Hc; cbn; by apply rebuild_equiv, (plain_proto false).
  - destruct Hc. cbn. by apply stableJsonValue_equiv.
  - intros k r Hk. apply (ok_keys s Hok) in Hk as [_ Hk].
    lia.
  - intros k r. rewrite Hrows, lookup_insert_Some.
    assert (rows s !! k = Some r -> n <> k).
    { intros Hk ->. apply (ok_keys s Hok) in Hk as [_ Hk]. lia. }
    naive_solver.
Qed.

End promises.

(** ** An example: three changes, of which the first is pruned *)

Definition example_env : env := {|
  randomUUID n := pretty n; clock n := 1000 + n; increment n := n + 1;
  row_scan := key_order; retentionSize := 2 |}.

#[export] Instance example_auto : AutoIncrement example_env.
Proof. intros n _. cbn. lia. Qed.

Definition example_change (name : string) : change := {|
  change_actorDeviceId := None; change_actorUserId := Some "7";
  change_attributes := Some [("name", JStr name)]; change_createdAt := None;
  change_id := None; change_idempotencyKey := None; change_model := "Task";
  change_operation := "update"; change_payload := None; change_recordId := Some "1";
  change_response := None; change_scope := Some [("project", JNum "3")] |}.

Lemma example_plain name : plain_change (example_change name).
Proof.
  split; unfold plain_object; cbn;
    [constructor; [repeat constructor; set_solver|exact I|repeat constructor]
    |constructor|constructor
    |constructor; [repeat constructor; set_solver|exact I|repeat constructor; by vm_compute]].
Qed.

(** The store after the appends of the named changes. *)
Fixpoint example_run (names : list string) (s : state) : list entry * state :=
  match names with
  | [] => ([], s)
  | name :: names' =>
      match append example_env (example_change name) s with
      | (Ok x, s') => let '(xs, s2) := example_run names' s' in (x :: xs, s2)
      | (Throw _, s') => ([], s')
      end
  end.

Example example_sequences :
  map serverSequence (retained_entries example_env (example_run ["a"; "b"; "c"] initial).2) = [2; 3].
Proof. vm_compute. reflexivity. Qed.

#[export] Instance example_feed : FeedStore state := store_feed example_env.

Lemma example_append name s h x s' : history s h ->
  append example_env (example_change name) s = (Ok x, s') ->
  bool_decide (map_Forall (fun _ r => id r <> identifier_of example_env (example_change name) s)
                 (rows s)) = true ->
  history s' (h ++ [x]).
Proof.
  intros Hh Happ Hf%bool_decide_eq_true. eapply history_append; [exact Hh|].
  exists (example_change name). split_and!; [apply example_plain|exact Hf|exact Happ].
Qed.

Definition example_names : list string := ["a"; "b"; "c"].
Definition example_state : state := (example_run example_names initial).2.
Definition example_entries : list entry := (example_run example_names initial).1.

Lemma example_history : history example_state example_entries.
Proof.
  apply (example_append "c" (example_run ["a"; "b"] initial).2
    (example_run ["a"; "b"] initial).1 _ _); [|vm_compute; reflexivity|vm_compute; reflexivity].
  apply (example_append "b" (example_run ["a"] initial).2
    (example_run ["a"] initial).1 _ _); [|vm_compute; reflexivity|vm_compute; reflexivity].
  apply (example_append "a" initial [] _ _); [|vm_compute; reflexivity|vm_compute; reflexivity].
  exact history_start.
Qed.

Lemma append_returns_witness :
  exists x s', append example_env (example_change "a") initial = (Ok x, s') /\ serverSequence x = 1.
Proof.
  destruct (append_returns example_env (example_change "a") initial) as (x & s' & Hrun & _ & -> & _).
  - exact start_ok.
  - apply example_plain.
  - intros k r Hk. change (rows initial) with (∅ : gmap Z row) in Hk.
    by rewrite lookup_empty in Hk.
  - eexists _, s'. split; [exact Hrun|reflexivity].
Defined.

Lemma catching_up_terminates_witness :
  exists out, delivers None (of_Z 1) 3 example_state example_entries 1 out.
Proof.
  apply (catching_up_terminates example_env).
  - exact example_history.
  - vm_compute. reflexivity.
  - vm_compute. reflexivity.
Defined.
