(* ===== verification/ServerChangeFeedPages.v ===== *)
(** * Reading the table-backed change feed while others write

    A page is three statements ([ServerChangeFeed.Store.changesAfter]) and an append
    is several: the insert, the read-back, the query of the prunable rows and a
    deletion for each. Here every statement of every request is a step of its own,
    so that appends and prunes of other processes, finished or not, and
    transactions that commit in another order than they took their sequences come
    between any two statements of a reader. *)

From stdpp Require Import base functions gmap strings list sorting relations pretty.
From Stdlib Require Import ZArith Ascii Lia.
From S2P Require Import Prelude Sql Json StableJson ServerChangeFeed ServerChangeFeedStore.
Import Store.
Open Scope Z_scope.

(** ** Statements *)

(** The table, and the sequences taken by transactions that have not ended. *)
Record server := { table : state; open : gset Z }.

Definition unused_identifier (i : string) (s : state) : Prop :=
  forall k r, rows s !! k = Some r -> id r <> i.

(** What [_pruneRetainedChanges] may delete: the rows that a row of the table has
    moved out of the retention window. *)
Definition prunable (e : env) (s : state) (r : row) : Prop :=
  1 <= retentionSize e /\
  exists k m, rows s !! k = Some m /\ server_sequence r <= k - retentionSize e.

Definition take_sequence (e : env) (s : state) : state :=
  {| rows := rows s; allocated := increment e (allocated s); uuids := uuids s |}.

Definition commit_row (k : Z) (r : row) (s : state) : state :=
  {| rows := <[k := r]> (rows s); allocated := allocated s; uuids := uuids s |}.

(** An insert that is visible at once; one whose transaction ends later, or is
    rolled back; one deletion. *)
Inductive statement (e : env) : server -> server -> Prop :=
| statement_uuid s o : statement e {| table := s; open := o |}
    {| table := {| rows := rows s; allocated := allocated s; uuids := S (uuids s) |}; open := o |}
| statement_insert s o c i t : plain_change c -> unused_identifier i s ->
    statement e {| table := s; open := o |} {| table := insert_change e c i t s; open := o |}
| statement_take s o : statement e {| table := s; open := o |}
    {| table := take_sequence e s; open := {[ increment e (allocated s) ]} ∪ o |}
| statement_commit s o c i t k : k ∈ o -> plain_change c -> unused_identifier i s ->
    statement e {| table := s; open := o |}
      {| table := commit_row k (row_of_change c i t k) s; open := o ∖ {[ k ]} |}
| statement_rollback s o k : statement e {| table := s; open := o |} {| table := s; open := o ∖ {[ k ]} |}
| statement_delete s o k r : rows s !! k = Some r -> prunable e s r ->
    statement e {| table := s; open := o |} {| table := delete_by_id (id r) s; open := o |}.

(** ** A reader *)

(** A reader asks for page after page until one has nothing behind it, under the
    bound that the first page has. Page [n] reads the tables [3n], [3n+1] and [3n+2]. *)
Fixpoint read_pages (e : env) (fuel : nat) (tables : nat -> state) (scope : option properties)
    (size : scalar) (upTo : option Z) (n : nat) (after : Z) : option (result string (list page)) :=
  match fuel with
  | O => None
  | S fuel =>
      match changesAfter e {| afterSequence := after; limit := size; query_scope := scope;
                              query_upToSequence := upTo |}
              (tables (3 * n)%nat) (tables (3 * n + 1)%nat) (tables (3 * n + 2)%nat) with
      | Throw err => Some (Throw err)
      | Ok p =>
          if hasMore p then
            match read_pages e fuel tables scope size (Some (upToSequence p)) (S n) (nextSequence p) with
            | Some (Ok ps) => Some (Ok (p :: ps))
            | r => r
            end
          else Some (Ok [p])
      end
  end.

Definition delivered (pages : list page) : list entry := concat (changes <$> pages).

Section server.
Context (e : env) `{!AutoIncrement e}.

Record server_ok (v : server) : Prop := {
  table_ok : store_ok (table v);
  open_unused k : k ∈ open v -> 0 < k <= allocated (table v) /\ rows (table v) !! k = None
}.

(** Any statements of others run between two statements of the reader. *)
Record timeline (T : nat -> server) : Prop := {
  begins_ok : server_ok (T 0%nat);
  goes_on k : rtc (statement e) (T k) (T (S k))
}.

(** *** The invariant *)

Lemma insert_row_ok s k r x : store_ok s -> row_entry r x -> server_sequence r = k ->
  0 < k -> rows s !! k = None -> unused_identifier (id r) s ->
  forall s', rows s' = <[k := r]> (rows s) -> k <= allocated s' -> allocated s <= allocated s' ->
  store_ok s'.
Proof.
  intros Hok Hx Hk Hpos Hnew Hfresh s' Hrows Hle Halloc. split.
  - intros k' r'. rewrite Hrows, lookup_insert_Some. intros [[<- <-]|[_ Hl]]; [lia|].
    apply (ok_keys s Hok) in Hl. lia.
  - intros k1 k2 r1 r2. rewrite Hrows, !lookup_insert_Some.
    intros [[<- <-]|[_ H1]] [[<- <-]|[_ H2]] Heq; [done| | |by eapply ok_ids].
    + exfalso. by apply (Hfresh _ _ H2).
    + exfalso. by apply (Hfresh _ _ H1).
  - intros k' r'. rewrite Hrows, lookup_insert_Some. intros [[_ <-]|[_ Hl]]; [by exists x|].
    by eapply ok_entries.
  - pose proof (ok_allocated s Hok). lia.
Qed.

Lemma next_sequence_new s : store_ok s ->
  allocated s < increment e (allocated s) /\ rows s !! increment e (allocated s) = None.
Proof.
  intros Hok. pose proof (increment_grows (allocated s) (ok_allocated s Hok)) as Hn. split; [done|].
  destruct (rows s !! _) eqn:Hl; [|done]. apply (ok_keys s Hok) in Hl. lia.
Qed.

Lemma same_rows_ok s s' : store_ok s -> rows s' = rows s -> allocated s <= allocated s' -> store_ok s'.
Proof.
  intros [H1 H2 H3 H4] Hr Ha. split; [|by rewrite Hr|by rewrite Hr|lia].
  intros k r. rewrite Hr. intros [? ?]%H1. lia.
Qed.

Lemma delete_row_ok i s : store_ok s -> store_ok (delete_by_id i s).
Proof.
  intros [H1 H2 H3 H4]. split; cbn.
  - intros k r [Hl _]%map_lookup_filter_Some. by apply H1.
  - intros k k' r r' [Hl _]%map_lookup_filter_Some [Hl' _]%map_lookup_filter_Some. by apply H2.
  - intros k r [Hl _]%map_lookup_filter_Some. by eapply H3.
  - done.
Qed.

Lemma statement_ok v v' : server_ok v -> statement e v v' -> server_ok v'.
Proof.
  intros [Hok Hopen] Hst.
  destruct Hst as [s o|s o c i t Hc Hi|s o|s o c i t k Hk Hc Hi|s o k|s o k r Hr Hp]; cbn in *;
    (split; cbn; [|intros k' Hk']).
  - by eapply same_rows_ok.
  - by apply Hopen.
  - destruct (next_sequence_new s Hok) as [Hn Hnew]. pose proof (ok_allocated s Hok).
    set (n := increment e (allocated s)) in *.
    apply (insert_row_ok s n (row_of_change c i t n) (entry_of c i t n)); [done|by apply row_of_change_entry|done|lia|done|done|done|cbn; lia|cbn; lia].
  - destruct (next_sequence_new s Hok) as [Hn Hnew]. destruct (Hopen k' Hk') as [Hb Hl].
    split; [lia|]. by rewrite lookup_insert_ne by lia.
  - eapply same_rows_ok; [done..|]. cbn. destruct (next_sequence_new s Hok). lia.
  - destruct (next_sequence_new s Hok) as [Hn Hnew]. pose proof (ok_allocated s Hok).
    apply elem_of_union in Hk' as [->%elem_of_singleton|Hk']; [split; [lia|done]|].
    destruct (Hopen k' Hk') as [Hb Hl]. split; [lia|done].
  - destruct (Hopen k Hk) as [Hb Hl].
    apply (insert_row_ok s k (row_of_change c i t k) (entry_of c i t k)); [done|by apply row_of_change_entry|done|lia|done|done|done|cbn; lia|cbn; lia].
  - apply elem_of_difference in Hk' as [Hk' Hne%not_elem_of_singleton].
    destruct (Hopen k' Hk') as [Hb Hl]. split; [lia|]. by rewrite lookup_insert_ne by done.
  - done.
  - apply elem_of_difference in Hk' as [Hk' _]. by apply Hopen.
  - by apply delete_row_ok.
  - destruct (Hopen k' Hk') as [Hb Hl]. split; [done|]. apply map_lookup_filter_None. by left.
Qed.

(** A sequence that has been given, and whose transaction has ended, gets no row any more. *)
Definition settled (k : Z) (v : server) : Prop := k <= allocated (table v) /\ k ∉ open v.

Lemma statement_settled k v v' : server_ok v -> statement e v v' -> settled k v ->
  settled k v' /\ forall r, rows (table v') !! k = Some r -> rows (table v) !! k = Some r.
Proof.
  unfold settled. intros [Hok Hopen] Hst [Ha Ho].
  destruct Hst as [s o|s o c i t Hc Hi|s o|s o c i t k0 Hk Hc Hi|s o k0|s o k0 r Hr Hp]; cbn in *.
  - done.
  - destruct (next_sequence_new s Hok) as [Hn _]. split; [split; [lia|done]|].
    intros r. by rewrite lookup_insert_ne by lia.
  - destruct (next_sequence_new s Hok) as [Hn _]. split; [|done]. split; [lia|].
    rewrite not_elem_of_union, not_elem_of_singleton. split; [lia|done].
  - split; [split; [done|set_solver]|]. intros r. rewrite lookup_insert_ne; [done|]. by intros ->.
  - split; [split; [done|set_solver]|done].
  - split; [done|]. intros r' [Hl _]%map_lookup_filter_Some. done.
Qed.

Lemma row_settled k r v : server_ok v -> rows (table v) !! k = Some r -> settled k v.
Proof.
  intros [Hok Hopen] Hr. split; [apply (ok_keys _ Hok) in Hr; lia|].
  intros Hk. destruct (Hopen k Hk) as [_ Hn]. congruence.
Qed.

(** The newest row is never pruned, and a row leaves the table only when a newer
    one is [retentionSize] sequences ahead. *)
Lemma statement_row k r v v' : server_ok v -> statement e v v' -> rows (table v) !! k = Some r ->
  rows (table v') !! k = Some r \/
  1 <= retentionSize e /\ exists k' m, rows (table v') !! k' = Some m /\ k <= k' - retentionSize e.
Proof.
  intros [Hok Hopen] Hst Hr.
  destruct Hst as [s o|s o c i t Hc Hi|s o|s o c i t k0 Hk Hc Hi|s o k0|s o k0 r0 Hr0 [Hret Hp]]; cbn in *;
    try (left; done).
  - left. destruct (next_sequence_new s Hok) as [Hn Hnew]. rewrite lookup_insert_ne; [done|]. intros <-. congruence.
  - left. destruct (Hopen k0 Hk) as [_ Hnew]. rewrite lookup_insert_ne; [done|]. intros <-. congruence.
  - destruct (decide (id r = id r0)) as [Hid|Hid];
      [right; split; [done|]|left; by apply map_lookup_filter_Some].
    assert (k = k0) as -> by by eapply (ok_ids s Hok).
    destruct Hp as (k1 & m & Hm & Hle). destruct (ok_keys s Hok _ _ Hr0) as [Hk0 _].
    exists k1, m. split; [|lia]. apply map_lookup_filter_Some. split; [done|]. cbn. intros Hid'.
    pose proof (ok_ids s Hok k1 k0 m r0 Hm Hr0 Hid'). lia.
Qed.

Lemma statements_ok v v' : server_ok v -> rtc (statement e) v v' -> server_ok v'.
Proof. intros Hok Hr. induction Hr as [|v v1 v2 Hs Hr IH]; [done|]. apply IH. by eapply statement_ok. Qed.

Lemma statements_settled k v v' : server_ok v -> rtc (statement e) v v' -> settled k v ->
  settled k v' /\ forall r, rows (table v') !! k = Some r -> rows (table v) !! k = Some r.
Proof.
  intros Hok Hr. induction Hr as [v|v v1 v2 Hs Hr IH]; [done|]. intros Hk.
  destruct (statement_settled k v v1 Hok Hs Hk) as [Hk1 H1].
  destruct (IH (statement_ok v v1 Hok Hs) Hk1) as [Hk2 H2]. naive_solver.
Qed.

Lemma statements_row k r v v' : server_ok v -> rtc (statement e) v v' -> rows (table v) !! k = Some r ->
  rows (table v') !! k = Some r \/
  1 <= retentionSize e /\ exists k' m, rows (table v') !! k' = Some m /\ k <= k' - retentionSize e.
Proof.
  intros Hok Hr. revert k r. induction Hr as [v|v v1 v2 Hs Hr IH]; intros k r Hk; [by left|].
  specialize (IH (statement_ok v v1 Hok Hs)).
  destruct (statement_row k r v v1 Hok Hs Hk) as [H1|(Hret & k' & m & Hm & Hle)]; [by apply IH|].
  right. split; [done|]. destruct (IH k' m Hm) as [H2|(_ & k2 & m2 & H2 & Hle2)]; [by exists k', m|].
  exists k2, m2. split; [done|lia].
Qed.

(** *** The statements of an append *)

Lemma delete_absent i s : unused_identifier i s -> delete_by_id i s = s.
Proof.
  intros Hi. destruct s as [rs a u]. unfold delete_by_id. cbn in *. f_equal.
  apply map_filter_id. intros k r Hk. cbn. by eapply Hi.
Qed.

(** The deletions of a prune, one after the other, under a row that stays. *)
Lemma deletions_are_statements n m l s o : 1 <= retentionSize e -> rows s !! n = Some m ->
  (forall k r, rows s !! k = Some r -> server_sequence r = k) ->
  (forall k r r', r ∈ l -> rows s !! k = Some r' -> id r' = id r -> k <= n - retentionSize e) ->
  rtc (statement e) {| table := s; open := o |}
    {| table := (for_each (fun r => modify (delete_by_id (id r))) l s : result string unit * state).2;
       open := o |}.
Proof.
  intros Hret. revert s. induction l as [|r l IH]; intros s Hm Hkeys Hl; [done|].
  change ((for_each (fun r => modify (delete_by_id (id r))) (r :: l) s : result string unit * state).2)
    with ((for_each (fun r => modify (delete_by_id (id r))) l (delete_by_id (id r) s)
             : result string unit * state).2).
  assert (forall k r', rows (delete_by_id (id r) s) !! k = Some r' -> rows s !! k = Some r') as Hsub
    by (intros k r' [Hk _]%map_lookup_filter_Some; done).
  transitivity {| table := delete_by_id (id r) s; open := o |}.
  2: { apply IH.
    - apply map_lookup_filter_Some. split; [done|]. cbn. intros Hid.
      pose proof (Hl n r m ltac:(constructor) Hm Hid). lia.
    - intros k r' Hk%Hsub. by apply Hkeys.
    - intros k r0 r' Hr0 Hk%Hsub Hid. eapply (Hl k r0 r'); [by constructor|done..]. }
  destruct (List.filter (fun kv => bool_decide (id kv.2 = id r)) (map_to_list (rows s)))
    as [|[k r'] rest] eqn:Hf.
  - rewrite delete_absent; [done|]. intros k r' Hk Hid.
    apply (in_nil (a := (k, r'))). rewrite <- Hf. apply filter_In.
    split; [|by apply bool_decide_eq_true]. by apply list_elem_of_In, elem_of_map_to_list.
  - assert (In (k, r') ((k, r') :: rest)) as Hin by by left. rewrite <- Hf in Hin.
    apply filter_In in Hin as [Hk%list_elem_of_In%elem_of_map_to_list Hid%bool_decide_eq_true].
    cbn in Hid. rewrite <- Hid. apply rtc_once. apply (statement_delete e s o k r' Hk).
    split; [done|]. exists n, m. split; [done|]. rewrite (Hkeys k r' Hk).
    eapply (Hl k r r'); [constructor|done..].
Qed.

Lemma prune_is_statements n m s o : rows s !! n = Some m ->
  (forall k r, rows s !! k = Some r -> server_sequence r = k) ->
  (forall k k' r r', rows s !! k = Some r -> rows s !! k' = Some r' -> id r = id r' -> k = k') ->
  rtc (statement e) {| table := s; open := o |}
    {| table := (_pruneRetainedChanges e n s).2; open := o |}.
Proof.
  intros Hm Hkeys Hids. unfold _pruneRetainedChanges.
  destruct (Z.ltb_spec (retentionSize e) 1) as [|Hret]; [done|].
  destruct (Z.ltb_spec (n - retentionSize e) 1); [done|].
  st_run. apply (deletions_are_statements n m); [done..|].
  intros k r r' Hr Hk Hid.
  apply list_elem_of_In, filter_In in Hr as [[k0 Hk0]%list_elem_of_In%elem_of_scan Hle%Z.leb_le].
  rewrite (Hids k k0 r' r Hk Hk0 Hid). by rewrite (Hkeys k0 r Hk0) in Hle.
Qed.

(** An append of a change, in one go, is a sequence of statements. *)
Lemma append_is_statements c s o x s' : store_ok s -> plain_change c -> fresh_identifier e c s ->
  append e c s = (Ok x, s') -> rtc (statement e) {| table := s; open := o |} {| table := s'; open := o |}.
Proof.
  intros Hok Hc Hf Happ. destruct (append_run e c s Hok Hc Hf) as (s2 & Hrun & _).
  rewrite Happ in Hrun. injection Hrun as Hx _.
  destruct (next_sequence_new s Hok) as [Hn Hnew].
  set (n := increment e (allocated s)) in *.
  assert (exists s0, resolve_id e c s = (Ok (identifier_of e c s), s0) /\ rows s0 = rows s /\
    allocated s0 = allocated s /\ rtc (statement e) {| table := s; open := o |} {| table := s0; open := o |})
    as (s0 & Hres & Hrows0 & Halloc0 & Hst0).
  { unfold resolve_id, identifier_of. destruct (nonempty_or_null (change_id c)); [by exists s|].
    eexists. split_and!; [done..|]. apply rtc_once. constructor. }
  revert Happ. unfold append. st_run. rewrite Hres. cbv beta iota.
  set (t := match change_createdAt c with Some t => t | None => clock e (allocated s0) end).
  set (s1 := insert_change e c (identifier_of e c s) t s0).
  assert (rows s1 = <[n := row_of_change c (identifier_of e c s) t n]> (rows s)) as Hrows1
    by by unfold s1, insert_change; rewrite Halloc0, Hrows0.
  assert (exists found, _changeById e (identifier_of e c s) s1 = (found, s1)) as [found Hfound].
  { unfold _changeById. st_run. repeat case_match; eexists; reflexivity. }
  rewrite Hfound. destruct found as [[y|]|err]; cbv beta iota; [|done|done].
  destruct (_pruneRetainedChanges e (serverSequence y) s1) as [[[]|err] s3] eqn:Hpruned; [|done].
  intros [= Hyx <-]. rewrite Hyx in Hpruned.
  transitivity {| table := s0; open := o |}; [done|].
  transitivity {| table := s1; open := o |}.
  { apply rtc_once, statement_insert; [done|]. intros k r. rewrite Hrows0. apply Hf. }
  replace s3 with (_pruneRetainedChanges e n s1).2
    by by rewrite Hx in Hpruned; cbn in Hpruned; fold n in Hpruned; rewrite Hpruned.
  eapply prune_is_statements.
  - rewrite Hrows1. by apply lookup_insert_eq.
  - intros k r. rewrite Hrows1, lookup_insert_Some. intros [[<- <-]|[_ Hk]]; [done|].
    by apply (ok_keys s Hok) in Hk as [-> _].
  - intros k k' r r'. rewrite Hrows1, !lookup_insert_Some.
    intros [[<- <-]|[_ H1]] [[<- <-]|[_ H2]] Heq; [done| | |by eapply (ok_ids s Hok)].
    + exfalso. by apply (Hf _ _ H2).
    + exfalso. by apply (Hf _ _ H1).
Qed.

(** ** Pages *)

Lemma elem_of_retained s x : store_ok s ->
  x ∈ retained_entries e s <-> exists r, rows s !! serverSequence x = Some r /\ row_entry r x.
Proof.
  intros Hok. pose proof (retained_Forall2 e s Hok) as HF. split.
  - intros Hx. destruct (Forall2_row _ _ x HF Hx) as (r & [k Hk]%elem_of_all_rows & Hrx).
    exists r. split; [|done]. destruct (ok_keys s Hok k r Hk) as [Hkr _].
    destruct Hrx as (_ & -> & _). by rewrite Hkr.
  - intros (r & Hr & Hrx). assert (r ∈ all_rows e s) as Hin by (apply elem_of_all_rows; eauto).
    apply list_elem_of_lookup in Hin as [i Hi].
    destruct (Forall2_lookup_l _ _ _ _ _ HF Hi) as (y & Hy & Hry).
    rewrite (row_entry_functional r x y Hrx Hry). by apply list_elem_of_lookup_2 in Hy.
Qed.

Lemma below_latest s k r : store_ok s -> rows s !! k = Some r -> k <= latest_of (retained_entries e s).
Proof.
  intros Hok Hr. destruct (ok_entries s Hok k r Hr) as [x Hx].
  destruct (ok_keys s Hok k r Hr) as [Hk _].
  assert (serverSequence x = k) as Hxk by (destruct Hx as (_ & -> & _); done).
  rewrite <- Hxk. apply ascending_latest; [by apply retained_ascending|].
  apply elem_of_retained; [done|]. exists r. by rewrite Hxk.
Qed.
End server.

(** What a page with the bound [upTo] that asks for no snapshot holds of [l]. *)
Lemma page_rows scope size after upTo l1 l2 l : ascending l -> 0 < normalizeLimit size ->
  let p := page_at l1 l2 l {| afterSequence := after; limit := size; query_scope := scope;
                              query_upToSequence := Some upTo |} in
  snapshotRequired p = false ->
  ascending (changes p) /\ after <= nextSequence p /\
  (forall x, x ∈ changes p -> x ∈ l /\ asked scope after upTo x = true /\ serverSequence x <= nextSequence p) /\
  (forall x, x ∈ l -> asked scope after upTo x = true -> x ∉ changes p ->
     hasMore p = true /\ nextSequence p < serverSequence x) /\
  (hasMore p = true -> after < nextSequence p <= upTo).
Proof.
  intros Hl Hn p. unfold p, page_at. cbn [query_upToSequence afterSequence limit query_scope].
  destruct (snapshot_required _ _); [done|]. intros _. cbn [changes nextSequence hasMore changes_page].
  set (sel := List.filter (asked scope after upTo) l).
  set (k := Z.to_nat (normalizeLimit size)).
  assert (ascending sel) as Hsel by by apply ascending_filter.
  assert (forall x, x ∈ sel <-> x ∈ l /\ asked scope after upTo x = true) as Hin.
  { intros x. unfold sel. by rewrite !list_elem_of_In, filter_In. }
  assert (forall x, x ∈ sel -> after < serverSequence x <= upTo) as Hbounds.
  { intros x [_ Hx]%Hin. unfold asked in Hx. lia. }
  rewrite <- (take_drop k sel) in Hsel.
  assert (forall x, x ∈ take k sel -> x ∈ sel) as Htake.
  { intros x Hx. rewrite <- (take_drop k sel). set_solver. }
  assert (forall x, x ∈ drop k sel -> x ∈ sel) as Hdrop.
  { intros x Hx. rewrite <- (take_drop k sel). set_solver. }
  assert (ascending (take k sel)) as Hasc.
  { clear -Hsel. unfold ascending in *. induction (take k sel) as [|x t IH]; [constructor|].
    cbn in Hsel. inversion Hsel as [|? ? H1 H2]; subst. constructor; [by apply IH|].
    by apply Forall_app in H2 as [H2 _]. }
  destruct (last (take k sel)) as [z|] eqn:Hz.
  - assert (z ∈ take k sel) as Hzt by by apply last_Some_elem_of.
    apply last_Some in Hz as [t Ht].
    pose proof (Hbounds z (Htake z Hzt)) as Hzb. split_and!; [done|lia|..].
    + intros x Hx. destruct (proj1 (Hin x) (Htake x Hx)) as [Hxl Hxa]. split_and!; [done..|].
      rewrite Ht in Hx, Hasc. apply elem_of_app in Hx as [Hx| ->%list_elem_of_singleton]; [|lia].
      apply Z.lt_le_incl. by eapply ascending_last.
    + intros x Hxl Hxa Hxn. assert (x ∈ drop k sel) as Hxd.
      { assert (x ∈ take k sel ++ drop k sel) as Hx by by rewrite take_drop; apply Hin.
        by apply elem_of_app in Hx as [Hx|Hx]. }
      split; [|by eapply ascending_app_lt].
      apply Z.ltb_lt. assert (0 < length (drop k sel))%nat as Hlen by by destruct (drop k sel); [apply elem_of_nil in Hxd|cbn; lia].
      rewrite length_drop in Hlen. lia.
    + intros _. lia.
  - apply last_None in Hz. rewrite Hz in *. split_and!; [done|lia| | |].
    + intros x []%elem_of_nil.
    + intros x Hxl Hxa _. exfalso. assert (x ∈ sel) as Hx by by apply Hin.
      destruct sel as [|y sel']; [by apply elem_of_nil in Hx|].
      destruct k eqn:Hk; [lia|done].
    + intros Hmore%Z.ltb_lt. destruct sel as [|y sel']; [cbn in Hmore; lia|].
      destruct k eqn:Hk; [lia|done].
Qed.

Section reader.
Context (e : env) `{!AutoIncrement e} (T : nat -> server) (HT : timeline e T).
Context (scope : option properties) (size : scalar) (Hsize : 0 < normalizeLimit size).

(** What the feed holds at a time. *)
Definition held (k : nat) : list entry := retained_entries e (table (T k)).

Lemma timeline_ok k : server_ok (T k).
Proof.
  induction k as [|k IH]; [apply HT|]. eapply statements_ok; [done|exact IH|apply HT].
Qed.

Lemma timeline_statements j k : (j <= k)%nat -> rtc (statement e) (T j) (T k).
Proof.
  induction 1 as [|k _ IH]; [done|]. transitivity (T k); [done|apply HT].
Qed.

Lemma held_ascending k : ascending (held k).
Proof. apply retained_ascending, timeline_ok. Qed.

Lemma elem_of_held k x : x ∈ held k <->
  exists r, rows (table (T k)) !! serverSequence x = Some r /\ row_entry r x.
Proof. apply elem_of_retained, timeline_ok. Qed.

Lemma held_positive k x : x ∈ held k -> 0 < serverSequence x.
Proof. intros (r & Hr & _)%elem_of_held. apply (ok_keys _ (table_ok _ (timeline_ok k))) in Hr. lia. Qed.

(** A row that is in the table at two times is the same. *)
Lemma held_settled j k x : (j <= k)%nat -> x ∈ held j -> settled (serverSequence x) (T k).
Proof.
  intros Hjk (r & Hr & _)%elem_of_held.
  eapply statements_settled; [done|apply timeline_ok|by apply timeline_statements|].
  eapply row_settled; [apply timeline_ok|exact Hr].
Qed.

(** A change the table holds late was in an open transaction. *)
Lemma held_late j k x : (j <= k)%nat -> x ∈ held k -> serverSequence x <= allocated (table (T j)) ->
  serverSequence x ∉ open (T j) -> x ∈ held j.
Proof.
  intros Hjk (r & Hr & Hrx)%elem_of_held Ha Ho. apply elem_of_held. exists r. split; [|done].
  destruct (statements_settled e (serverSequence x) (T j) (T k)) as [_ Hback];
    [apply timeline_ok|by apply timeline_statements|done|]. by apply Hback.
Qed.

(** A change leaves the table only when a row beyond its retention window is there. *)
Lemma held_until j k x : (j <= k)%nat -> x ∈ held j ->
  x ∈ held k \/ 1 <= retentionSize e /\ serverSequence x <= latest_of (held k) - retentionSize e.
Proof.
  intros Hjk (r & Hr & Hrx)%elem_of_held.
  destruct (statements_row e _ r (T j) (T k) (timeline_ok j) (timeline_statements j k Hjk) Hr)
    as [Hk|(Hret & k' & m & Hm & Hle)].
  - left. apply elem_of_held. by exists r.
  - right. split; [done|].
    pose proof (below_latest e _ k' m (table_ok _ (timeline_ok k)) Hm). fold (held k) in *. lia.
Qed.

Lemma latest_grows j k : (j <= k)%nat -> latest_of (held j) <= latest_of (held k).
Proof.
  intros Hjk. unfold latest_of at 1. destruct (last (held j)) as [z|] eqn:Hz.
  - apply last_Some_elem_of in Hz. destruct (held_until j k z Hjk Hz) as [Hk|[Hret Hle]]; [|lia].
    apply ascending_latest; [apply held_ascending|done].
  - unfold latest_of. destruct (last (held k)) as [z|] eqn:Hk; [|done].
    apply last_Some_elem_of in Hk. apply held_positive in Hk. lia.
Qed.

(** The pages a reader with a bound gets from its [n]th page on. *)
Definition asks (upTo after : Z) (n : nat) : page :=
  page_at (held (3 * n)) (held (3 * n + 1)) (held (3 * n + 2))
    {| afterSequence := after; limit := size; query_scope := scope; query_upToSequence := Some upTo |}.

Inductive paged (upTo : Z) : nat -> Z -> list page -> Prop :=
| paged_last n after : hasMore (asks upTo after n) = false -> paged upTo n after [asks upTo after n]
| paged_more n after ps : hasMore (asks upTo after n) = true ->
    paged upTo (S n) (nextSequence (asks upTo after n)) ps -> paged upTo n after (asks upTo after n :: ps).

Lemma changesAfter_asks upTo after n bound :
  bound = match upTo with Some b => b | None => latest_of (held (3 * n)) end ->
  changesAfter e {| afterSequence := after; limit := size; query_scope := scope;
                    query_upToSequence := upTo |}
    (table (T (3 * n)%nat)) (table (T (3 * n + 1)%nat)) (table (T (3 * n + 2)%nat)) =
  Ok (asks bound after n).
Proof.
  intros ->. rewrite reads_page_at by apply timeline_ok. unfold asks, page_at. done.
Qed.

Lemma asks_bound upTo after n : upToSequence (asks upTo after n) = upTo.
Proof. unfold asks, page_at. cbn -[snapshot_required]. by destruct (snapshot_required _ _). Qed.

Lemma asks_more upTo after n : hasMore (asks upTo after n) = true ->
  snapshotRequired (asks upTo after n) = false.
Proof. unfold asks, page_at. cbn -[snapshot_required]. by destruct (snapshot_required _ _). Qed.

Lemma asks_rows upTo after n : snapshotRequired (asks upTo after n) = false ->
  ascending (changes (asks upTo after n)) /\ after <= nextSequence (asks upTo after n) /\
  (forall x, x ∈ changes (asks upTo after n) ->
     x ∈ held (3 * n + 2) /\ asked scope after upTo x = true /\
     serverSequence x <= nextSequence (asks upTo after n)) /\
  (forall x, x ∈ held (3 * n + 2) -> asked scope after upTo x = true -> x ∉ changes (asks upTo after n) ->
     hasMore (asks upTo after n) = true /\ nextSequence (asks upTo after n) < serverSequence x) /\
  (hasMore (asks upTo after n) = true -> after < nextSequence (asks upTo after n) <= upTo).
Proof. apply page_rows; [apply held_ascending|done]. Qed.

Lemma snapshot_no_rows upTo after n : snapshotRequired (asks upTo after n) = true ->
  changes (asks upTo after n) = [] /\ hasMore (asks upTo after n) = false.
Proof. unfold asks, page_at. cbn -[snapshot_required]. by destruct (snapshot_required _ _). Qed.

(** The reader ends: every page with more behind it moves the cursor on. *)
Lemma read_pages_ends upTo bound fuel n after :
  bound = match upTo with Some b => b | None => latest_of (held (3 * n)) end ->
  bound - after < Z.of_nat fuel -> (0 < fuel)%nat -> exists ps, paged bound n after ps /\
    forall fuel', (fuel <= fuel')%nat ->
      read_pages e fuel' (fun k => table (T k)) scope size upTo n after = Some (Ok ps).
Proof.
  intros Hb. revert upTo n after Hb. induction fuel as [|fuel IH]; intros upTo n after Hb Hf Hpos; [lia|].
  pose proof (changesAfter_asks upTo after n bound Hb) as Hpage.
  destruct (hasMore (asks bound after n)) eqn:Hmore.
  - destruct (asks_rows bound after n (asks_more _ _ _ Hmore)) as (_ & _ & _ & _ & Hnext).
    specialize (Hnext Hmore).
    destruct (IH (Some bound) (S n) (nextSequence (asks bound after n)) eq_refl) as (ps & Hps & Hread);
      [lia|lia|]. exists (asks bound after n :: ps). split; [by constructor|].
    intros [|fuel'] Hle; [lia|]. cbn [read_pages]. rewrite Hpage. cbv beta iota.
    rewrite Hmore, asks_bound, Hread by lia. done.
  - exists [asks bound after n]. split; [by constructor|].
    intros [|fuel'] Hle; [lia|]. cbn [read_pages]. rewrite Hpage. cbv beta iota. by rewrite Hmore.
Qed.

Lemma asked_after scope' after after' upTo x : after <= after' -> asked scope' after' upTo x = true ->
  asked scope' after upTo x = true.
Proof. unfold asked. intros Hle H. apply andb_true_iff in H as [[H1 H2]%andb_true_iff H3]. rewrite H2, H3. lia. Qed.

(** Everything delivered was asked for and in the table when its page was read, in order. *)
Lemma paged_sound upTo n after ps : paged upTo n after ps ->
  ascending (delivered ps) /\
  (forall x, x ∈ delivered ps -> asked scope after upTo x = true /\
     exists m, (m < length ps)%nat /\ x ∈ held (3 * (n + m) + 2)).
Proof.
  unfold delivered.
  assert (forall upTo after n, ascending (changes (asks upTo after n)) /\
    (forall x, x ∈ changes (asks upTo after n) -> asked scope after upTo x = true /\ x ∈ held (3 * n + 2))) as Hone.
  { intros b a k. destruct (snapshotRequired (asks b a k)) eqn:Hs.
    - destruct (snapshot_no_rows _ _ _ Hs) as [-> _]. split; [constructor|]. by intros x []%elem_of_nil.
    - destruct (asks_rows _ _ _ Hs) as (H1 & _ & H2 & _). split; [done|]. intros x Hx.
      by destruct (H2 x Hx) as (? & ? & _). }
  induction 1 as [n after Hm|n after ps Hm Hps IH]; cbn [fmap list_fmap concat].
  - rewrite app_nil_r. destruct (Hone upTo after n) as [H1 H2]. split; [done|]. intros x Hx.
    destruct (H2 x Hx) as [Ha Hh]. split; [done|]. exists 0%nat. cbn. rewrite Nat.add_0_r. split; [lia|done].
  - destruct IH as [IH1 IH2]. destruct (Hone upTo after n) as [H1 H2].
    destruct (asks_rows _ _ _ (asks_more _ _ _ Hm)) as (_ & Hn & H3 & _).
    split.
    + clear -H1 H3 IH1 IH2. unfold ascending in *.
      induction (changes (asks upTo after n)) as [|y l IHl]; [done|]. cbn.
      inversion H1 as [|? ? Hl Hy]; subst. constructor.
      { apply IHl; [done|]. intros x Hx. apply H3. by constructor. }
      apply Forall_app. split; [done|]. apply Forall_forall. intros x Hx.
      destruct (H3 y) as (_ & _ & Hyn); [by constructor|]. destruct (IH2 x Hx) as [Ha _]. unfold asked in Ha. lia.
    + intros x [Hx|Hx]%elem_of_app.
      * destruct (H2 x Hx) as [Ha Hh]. split; [done|]. exists 0%nat. cbn. rewrite Nat.add_0_r. split; [lia|done].
      * destruct (IH2 x Hx) as [Ha (m & Hm' & Hh)]. split; [by eapply asked_after|].
        exists (S m). cbn [length]. replace (n + S m)%nat with (S n + m)%nat by lia. split; [lia|done].
Qed.

(** What a reader that is never told to take a snapshot is not given was not in the
    table when the page that covers it was read. *)
Lemma paged_missed upTo n after ps x : paged upTo n after ps -> 0 <= after ->
  Forall (fun p => snapshotRequired p = false) ps -> asked scope after upTo x = true -> x ∉ delivered ps ->
  exists m c, (m < length ps)%nat /\ ~ (x ∈ held (3 * (n + m) + 2)) /\ 0 <= c < serverSequence x /\
    snapshot_required c (serverSequence <$> head (held (3 * (n + m) + 1))) = false /\
    (c = 0 -> after = 0 /\ m = 0%nat).
Proof.
  unfold delivered. intros Hps. revert x.
  assert (forall upTo after n, snapshotRequired (asks upTo after n) = false ->
    snapshot_required after (serverSequence <$> head (held (3 * n + 1))) = false) as Hflag.
  { intros b a k. unfold asks, page_at. cbn -[snapshot_required]. by destruct (snapshot_required _ _). }
  induction Hps as [n after Hm|n after ps Hm Hps IH]; intros x H0 [Hs Hss]%Forall_cons Ha Hx;
    cbn [fmap list_fmap concat] in Hx; apply not_elem_of_app in Hx as [Hx Hxs];
    destruct (asks_rows _ _ _ Hs) as (_ & Hn & _ & Hall & Hnext).
  - exists 0%nat, after. cbn [length]. rewrite Nat.add_0_r. assert (after < serverSequence x) as Hax by (unfold asked in Ha; lia).
    split_and!; try lia; [|by apply (Hflag upTo)]. intros Hh. destruct (Hall x Hh Ha Hx) as [Hc _]. congruence.
  - specialize (Hnext Hm). destruct (Z.ltb_spec (nextSequence (asks upTo after n)) (serverSequence x)) as [Hlt|Hge].
    + destruct (IH x) as (m & c & Hmlt & Hh & Hc & Hf & Hc0); [lia|done| |done|].
      { unfold asked in Ha |- *. apply andb_true_iff in Ha as [[H1 H2]%andb_true_iff H3]. rewrite H2, H3. lia. }
      exists (S m), c. cbn [length]. replace (n + S m)%nat with (S n + m)%nat by lia.
      split_and!; try lia; done.
    + exists 0%nat, after. cbn [length]. rewrite Nat.add_0_r.
      assert (after < serverSequence x) as Hax by (unfold asked in Ha; lia).
      split_and!; try lia; [|by apply (Hflag upTo)].
      intros Hh. destruct (Hall x Hh Ha Hx) as [_ Hlt]. lia.
Qed.
End reader.

(** ** What paging promises *)

#[local] Instance entry_eq_dec : EqDecision entry.
Proof. solve_decision. Defined.

Definition asks_no_snapshot (pages : list page) : Prop :=
  Forall (fun p => snapshotRequired p = false) pages.

(** A page misses a change it covers only if the change was not in the table yet
    when the page looked for the oldest row (its transaction was open), or was
    deleted after that, or had been deleted while an older row was still there
    (a prune was half done), or the reader had no cursor. *)
Definition overlooked (e : env) (T : nat -> server) (after : Z) (x : entry) (j m : nat) : Prop :=
  (3 * m + 1 < j)%nat \/
  x ∈ held e T (3 * m + 1) \/
  (exists o, o ∈ held e T (3 * m + 1) /\ serverSequence o < serverSequence x) \/
  (after = 0 /\ m = 0%nat).

Section promises.
Context (e : env) `{!AutoIncrement e}.

Lemma held_missing T after x j m c : timeline e T -> x ∈ held e T j -> 0 <= c < serverSequence x ->
  snapshot_required c (serverSequence <$> head (held e T (3 * m + 1))) = false ->
  (c = 0 -> after = 0 /\ m = 0%nat) -> overlooked e T after x j m.
Proof.
  intros HT Hx Hc Hf Hc0. unfold overlooked.
  destruct (decide (3 * m + 1 < j)%nat) as [|Hj]; [by left|right].
  destruct (decide (x ∈ held e T (3 * m + 1))) as [|Hn]; [by left|right].
  destruct (decide (c = 0)) as [->|Hne]; [right; by apply Hc0|left].
  destruct (held_until e T HT j (3 * m + 1) x) as [|[Hret Hle]]; [lia|done|done|].
  pose proof (held_positive e T HT j x Hx) as Hxp.
  destruct (held e T (3 * m + 1)) as [|o l] eqn:Hh; [unfold latest_of in Hle; cbn in Hle; lia|].
  exists o. split; [constructor|]. unfold snapshot_required in Hf. cbn in Hf.
  enough (serverSequence o <> serverSequence x) by lia. intros Heq.
  assert (o ∈ held e T (3 * m + 1)) as Ho by (rewrite Hh; constructor).
  apply Hn. rewrite <- Hh. assert (o = x) as <-; [|done].
  pose proof (held_settled e T HT j j x ltac:(lia) Hx) as Hs.
  apply (elem_of_held e T HT) in Ho as (r & Hr & Hro). apply (elem_of_held e T HT) in Hx as (r' & Hr' & Hrx).
  destruct (statements_settled e (serverSequence x) (T j) (T (3 * m + 1)%nat)) as [_ Hback];
    [by apply (timeline_ok e)|by apply (timeline_statements e); [|lia]|done|].
  rewrite Heq in Hr. apply Hback in Hr. rewrite Hr' in Hr. injection Hr as ->.
  by eapply row_entry_functional.
Qed.

(** C14: catching up while others write. Whatever statements of other requests and
    transactions come between the queries of a reader, the reader gets to a last
    page. What it was given is in strictly ascending order, inside its scope, cursor
    and bound, and was in the table when its page was read. If no page tells it to
    take a snapshot, a change it was not given was not in the table when the rows of
    its page were selected, for one of the reasons of [overlooked]; and every change
    that was there at the start and is inside the retention window at the end has
    been given. *)
Theorem pages_deliver_every_change T scope size upTo after :
  timeline e T -> 0 <= after -> 0 < normalizeLimit size ->
  let bound := match upTo with Some b => b | None => latest_of (held e T 0) end in
  exists pages,
    (forall fuel, (Z.to_nat (bound - after) < fuel)%nat ->
       read_pages e fuel (fun k => table (T k)) scope size upTo 0 after = Some (Ok pages)) /\
    ascending (delivered pages) /\
    (forall x, x ∈ delivered pages -> asked scope after bound x = true /\
       exists m, (m < length pages)%nat /\ x ∈ held e T (3 * m + 2)) /\
    (asks_no_snapshot pages -> forall x j,
       x ∈ held e T j -> asked scope after bound x = true -> x ∉ delivered pages ->
       exists m, (m < length pages)%nat /\ ~ (x ∈ held e T (3 * m + 2)) /\ overlooked e T after x j m) /\
    (asks_no_snapshot pages -> forall x, x ∈ held e T 0 -> asked scope after bound x = true ->
       (1 <= retentionSize e ->
          latest_of (held e T (3 * length pages)) - retentionSize e < serverSequence x) ->
       x ∈ delivered pages).
Proof.
  intros HT H0 Hn bound.
  destruct (read_pages_ends e T HT scope size Hn upTo bound (S (Z.to_nat (bound - after))) 0 after)
    as (pages & Hpaged & Hread); [done|lia|lia|].
  destruct (paged_sound e T HT scope size Hn bound 0 after pages Hpaged) as [Hasc Hsound].
  exists pages. split_and!; [intros fuel Hf; apply Hread; lia|exact Hasc|exact Hsound| |].
  - intros Hs x j Hx Ha Hmiss.
    destruct (paged_missed e T HT scope size Hn bound 0 after pages x Hpaged H0 Hs Ha Hmiss)
      as (m & c & Hm & Hh & Hc & Hf & Hc0). exists m. split_and!; [done|done|].
    by eapply held_missing.
  - intros Hs x Hx Ha Hw. apply dec_stable. intros Hmiss.
    destruct (paged_missed e T HT scope size Hn bound 0 after pages x Hpaged H0 Hs Ha Hmiss)
      as (m & c & Hm & Hh & _). apply Hh.
    destruct (held_until e T HT 0 (3 * (0 + m) + 2) x) as [|[Hret Hle]]; [lia|done|done|exfalso].
    specialize (Hw Hret).
    pose proof (latest_grows e T HT (3 * (0 + m) + 2) (3 * length pages)). lia.
Qed.
End promises.

(** ** Examples *)

Definition example_after (names : list string) : server :=
  {| table := (example_run names initial).2; open := ∅ |}.

Lemma example_statements s name o : store_ok s ->
  bool_decide (map_Forall (fun _ r => id r <> identifier_of example_env (example_change name) s) (rows s)) = true ->
  rtc (statement example_env) {| table := s; open := o |}
    {| table := (example_run [name] s).2; open := o |} /\ store_ok (example_run [name] s).2.
Proof.
  intros Hok Hf%bool_decide_eq_true.
  destruct (append_run example_env (example_change name) s Hok (example_plain name) Hf) as (s' & Hrun & Hok' & _).
  cbn. rewrite Hrun. cbn. split; [|done].
  eapply append_is_statements; [apply _|done|apply example_plain|exact Hf|exact Hrun].
Qed.

Lemma example_ok : store_ok (example_run ["a"; "b"; "c"] initial).2.
Proof. exact (inv_ok _ _ (history_invariant _ _ example_history)). Qed.

(** A change is appended, and the oldest pruned, between two pages of a reader. *)
Definition example_timeline (k : nat) : server :=
  if (k <? 3)%nat then example_after ["a"; "b"; "c"] else
  {| table := (example_run ["d"] (example_run ["a"; "b"; "c"] initial).2).2; open := ∅ |}.

Lemma example_timeline_ok : timeline example_env example_timeline.
Proof.
  split.
  - split; [exact example_ok|]. intros k Hk. by apply elem_of_empty in Hk.
  - intros k. unfold example_timeline. destruct (Nat.ltb_spec k 3), (Nat.ltb_spec (S k) 3); [done| |lia|done].
    apply example_statements; [exact example_ok|vm_compute; reflexivity].
Qed.

(** Pages of one entry, from the cursor 1: the third change is delivered, although
    a fourth one is appended and the second one pruned meanwhile. *)
Lemma pages_deliver_every_change_witness :
  exists pages, read_pages example_env 3 (fun k => table (example_timeline k)) None (of_Z 1) None 0 1 =
      Some (Ok pages) /\
    map serverSequence (delivered pages) = [2; 3] /\
    (asks_no_snapshot pages -> forall x, x ∈ held example_env example_timeline 0 -> serverSequence x = 3 ->
       x ∈ delivered pages).
Proof.
  destruct (pages_deliver_every_change example_env example_timeline None (of_Z 1) None 1 example_timeline_ok)
    as (pages & Hread & _ & _ & _ & Hall); [lia|vm_compute; reflexivity|].
  exists pages. split; [apply Hread; vm_compute; lia|].
  specialize (Hread 3%nat ltac:(vm_compute; lia)). vm_compute in Hread. injection Hread as <-.
  split; [reflexivity|]. intros Hs x Hx Hseq. apply Hall; [done|done| |].
  - unfold asked. rewrite Hseq. reflexivity.
  - intros _. rewrite Hseq. vm_compute. reflexivity.
Defined.

(** A prune between the query of the oldest row and that of the rows: the reader is
    given the third change and a cursor behind it, and never learns that it missed
    the second one, which was in the table when the page began. *)
Example pruned_while_reading :
  let s := (example_run ["a"; "b"; "c"] initial).2 in
  let s' := (example_run ["d"] s).2 in
  map serverSequence (retained_entries example_env s) = [2; 3] /\
  exists p, changesAfter example_env
      {| afterSequence := 1; limit := of_Z 10; query_scope := None; query_upToSequence := None |} s s s' = Ok p /\
    map serverSequence (changes p) = [3] /\ nextSequence p = 3 /\ hasMore p = false /\
    snapshotRequired p = false.
Proof. vm_compute. split; [reflexivity|]. eexists. split; [reflexivity|]. auto. Qed.

(** A change whose transaction commits after a reader has passed its sequence is
    never given: its page was read before it was in the table. *)
Example committed_behind_the_cursor :
  let late := row_of_change (example_change "late") "late" 0 1 in
  let s := insert_change example_env (example_change "b") "b" 0 (take_sequence example_env initial) in
  exists p, changesAfter example_env
      {| afterSequence := 0; limit := of_Z 10; query_scope := None; query_upToSequence := None |} s s s = Ok p /\
    nextSequence p = 2 /\
    rtc (statement example_env) {| table := s; open := {[ 1 ]} |} {| table := commit_row 1 late s; open := ∅ |}.
Proof.
  cbn zeta. eexists. split; [vm_compute; reflexivity|]. split; [reflexivity|].
  set (s := insert_change _ _ _ _ _).
  replace (∅ : gset Z) with (({[ 1 ]} : gset Z) ∖ {[ 1 ]}) by by apply leibniz_equiv; set_solver.
  apply rtc_once, statement_commit; [set_solver|apply example_plain|].
  intros k r Hr. change (rows s) with ({[ 2 := row_of_change (example_change "b") "b" 0 2 ]} : gmap Z row) in Hr.
  by apply lookup_singleton_Some in Hr as [_ <-].
Qed.
