(* ===== verification/Numbers.v ===== *)
(** * [Number(string)] and binary64 rounding

    The conversion of a string to a number that the modelled code performs with
    [Number(value)]: the string numeric literals of ECMAScript (decimal with
    fraction and exponent, [Infinity], hexadecimal, octal and binary), rounded
    to the nearest double, ties to even. *)

From stdpp Require Import base strings list.
From Stdlib Require Import ZArith QArith Qround Ascii Lia.
From S2P Require Import Prelude Json.
Open Scope Z_scope.

(** [x / 2^e] rounded to the nearest integer, ties to even. *)
Definition div_pow2_round_even (n d : Z) : Z :=
  let q := n / d in
  let r := n mod d in
  if (2 * r <? d) || ((2 * r =? d) && Z.even q) then q else q + 1.

(** The double nearest to the positive rational [n / d]. *)
Definition round_positive (n d : Z) : number :=
  let e := Z.max (-1074) (Z.log2 n - Z.log2 d - 53) in
  (* one of two consecutive exponents gives a significand of 53 bits *)
  let significand e :=
    if 0 <=? e then div_pow2_round_even n (d * 2 ^ e)
    else div_pow2_round_even (n * 2 ^ (- e)) d in
  let e := if significand e <? 2 ^ 53 then e else e + 1 in
  let m := significand e in
  if 2 ^ 1024 <=? m * 2 ^ (Z.max 0 e) then PosInfinity
  else if 0 <=? e then Fin (inject_Z (m * 2 ^ e))
  else Fin (Qred (m # Z.to_pos (2 ^ (- e)))).

Definition round_double (q : Q) : number :=
  match Qnum q with
  | Z0 => Fin 0
  | Zpos p => round_positive (Zpos p) (Zpos (Qden q))
  | Zneg p =>
      match round_positive (Zpos p) (Zpos (Qden q)) with
      | Fin x => Fin (- x)
      | PosInfinity => NegInfinity
      | n => n
      end
  end.

(** The value of a digit in a base. *)
Definition digit_in (base : Z) (c : ascii) : option Z :=
  let n := Z.of_N (N_of_ascii c) in
  let v := if (48 <=? n) && (n <=? 57) then n - 48
           else if (97 <=? n) && (n <=? 122) then n - 87
           else if (65 <=? n) && (n <=? 90) then n - 55
           else base in
  if v <? base then Some v else None.

(** The longest run of digits: its value, its length and what follows. *)
Fixpoint read_digits (base acc : Z) (count : nat) (s : string) : Z * nat * string :=
  match s with
  | String c s' =>
      match digit_in base c with
      | Some d => read_digits base (acc * base + d) (S count) s'
      | None => (acc, count, s)
      end
  | EmptyString => (acc, count, s)
  end.

(** All of the string is digits, at least one. *)
Definition whole_digits (base : Z) (s : string) : option Z :=
  match read_digits base 0 0 s with
  | (v, S _, EmptyString) => Some v
  | _ => None
  end.

(** [e+NN], [e-NN], [eNN] or nothing. *)
Definition read_exponent (s : string) : option Z :=
  match s with
  | EmptyString => Some 0
  | String c s' =>
      if bool_decide (c = "e"%char) || bool_decide (c = "E"%char) then
        match s' with
        | String "-" t => Z.opp <$> whole_digits 10 t
        | String "+" t => whole_digits 10 t
        | _ => whole_digits 10 s'
        end
      else None
  end.

Definition scale_by (m e : Z) : Q :=
  if 0 <=? e then inject_Z (m * 10 ^ e) else Qmake m (Z.to_pos (10 ^ (- e))).

(** An unsigned decimal literal. *)
Definition read_decimal (s : string) : number :=
  if decide (s = "Infinity") then PosInfinity else
  match read_digits 10 0 0 s with
  | (whole, n, String "." rest) =>
      match read_digits 10 whole 0 rest with
      | (m, k, tail) =>
          if (n + k =? 0)%nat then NaN else
          match read_exponent tail with
          | Some e => round_double (scale_by m (e - Z.of_nat k))
          | None => NaN
          end
      end
  | (whole, S _, tail) =>
      match read_exponent tail with
      | Some e => round_double (scale_by whole e)
      | None => NaN
      end
  | _ => NaN
  end.

Definition negate (n : number) : number :=
  match n with
  | Fin q => Fin (- q)
  | PosInfinity => NegInfinity
  | NegInfinity => PosInfinity
  | NaN => NaN
  end.

Definition from_digits (v : option Z) : number :=
  match v with Some z => round_double (inject_Z z) | None => NaN end.

(** [Number(s)] *)
Definition js_Number (s : string) : number :=
  match js_trim s with
  | EmptyString => Fin 0
  | String "-" t => negate (read_decimal t)
  | String "+" t => read_decimal t
  | String "0" (String "x" t) | String "0" (String "X" t) => from_digits (whole_digits 16 t)
  | String "0" (String "o" t) | String "0" (String "O" t) => from_digits (whole_digits 8 t)
  | String "0" (String "b" t) | String "0" (String "B" t) => from_digits (whole_digits 2 t)
  | t => read_decimal t
  end.

Definition Number_integer (s : string) : option Z := as_integer (JsNumber (js_Number s)).

Example js_Number_samples :
  map Number_integer ["42"; " 7 "; "0x1f"; "1e2"; "5."; "1.5"; ""; "."; "1e400"; "abc"; "-3"]%string
  = [Some 42; Some 7; Some 31; Some 100; Some 5; None; Some 0; None; None; None; Some (-3)]
  /\ Number_integer "0.99999999999999999999" = Some 1
  /\ Number_integer "9007199254740993" = Some 9007199254740992.
Proof. vm_compute. auto. Qed.

(** ** The decimal text of an integer

    [String(n)] of an integer of less than 21 digits. *)

Definition decimal_digit (d : Z) : ascii := ascii_of_N (Z.to_N (48 + d)).

Fixpoint decimal_digits (fuel : nat) (n : Z) (rest : string) : string :=
  let text := String (decimal_digit (n mod 10)) rest in
  match fuel with
  | S fuel => if n <? 10 then text else decimal_digits fuel (n / 10) text
  | O => text
  end.

Definition decimal_text (n : Z) : string :=
  let digits := decimal_digits (Z.to_nat (Z.log2 (Z.abs n))) (Z.abs n) "" in
  if n <? 0 then String "-" digits else digits.

Lemma digit_in_decimal d : 0 <= d < 10 -> digit_in 10 (decimal_digit d) = Some d.
Proof.
  intros H. assert (d ∈ seqZ 0 10) as Hd by (apply elem_of_seqZ; lia).
  revert d Hd H. apply (Forall_forall (fun d => 0 <= d < 10 -> digit_in 10 (decimal_digit d) = Some d)).
  repeat constructor.
Qed.

(** Reading the digits of [n] is reading [n]. *)
Lemma read_decimal_digits fuel n rest : 0 <= n -> n < 2 ^ Z.of_nat (S fuel) -> exists j, forall a k,
  read_digits 10 a k (decimal_digits fuel n rest) = read_digits 10 (a * 10 ^ Z.of_nat (S j) + n) (k + S j) rest.
Proof.
  revert n rest. induction fuel as [|fuel IH]; intros n rest Hn Hlt.
  - exists O. intros a k. cbn [decimal_digits read_digits]. rewrite Z.mod_small by lia.
    rewrite digit_in_decimal by lia. f_equal; lia.
  - cbn [decimal_digits]. destruct (Z.ltb_spec n 10).
    + exists O. intros a k. cbn [read_digits]. rewrite Z.mod_small, digit_in_decimal by lia. f_equal; lia.
    + assert (n / 10 < 2 ^ Z.of_nat (S fuel)) as Hdiv.
      { apply Z.div_lt_upper_bound; [lia|]. replace (Z.of_nat (S (S fuel))) with (Z.succ (Z.of_nat (S fuel))) in Hlt by lia.
        rewrite Z.pow_succ_r in Hlt by lia. lia. }
      destruct (IH (n / 10) (String (decimal_digit (n mod 10)) rest)) as [j Hj]; [by apply Z.div_pos|done|].
      exists (S j). intros a k. rewrite Hj. cbn [read_digits].
      rewrite digit_in_decimal by (by apply Z.mod_pos_bound).
      f_equal; [|lia]. replace (Z.of_nat (S (S j))) with (Z.succ (Z.of_nat (S j))) by lia.
      rewrite Z.pow_succ_r by lia. pose proof (Z.div_mod n 10). lia.
Qed.

Lemma decimal_digits_facts fuel n rest : 0 <= n ->
  exists d t, decimal_digits fuel n rest = String (decimal_digit d) t /\ 0 <= d < 10 /\
    all_chars (fun c => bool_decide (is_Some (digit_in 10 c))) t =
    all_chars (fun c => bool_decide (is_Some (digit_in 10 c))) rest.
Proof.
  assert (forall d, 0 <= d < 10 -> bool_decide (is_Some (digit_in 10 (decimal_digit d))) = true) as Hdig.
  { intros d Hd. apply bool_decide_eq_true_2. rewrite digit_in_decimal by done. eauto. }
  revert n rest. induction fuel as [|fuel IH]; intros n rest Hn; cbn [decimal_digits].
  - pose proof (Z.mod_pos_bound n 10). eexists _, _. split; [done|]. split; [lia|done].
  - pose proof (Z.mod_pos_bound n 10). destruct (n <? 10).
    + eexists _, _. split; [done|]. split; [lia|done].
    + destruct (IH (n / 10) (String (decimal_digit (n mod 10)) rest)) as (d & t & -> & Hd & Ht);
        [by apply Z.div_pos|].
      eexists _, _. split; [done|]. split; [done|]. rewrite Ht. cbn [all_chars]. by rewrite Hdig by lia.
Qed.

Lemma digit_not_space c : bool_decide (is_Some (digit_in 10 c)) = true -> is_js_space c = false.
Proof.
  intros [d Hd]%bool_decide_eq_true. destruct (is_js_space c) eqn:Hs; [|done]. exfalso.
  destruct c as [[] [] [] [] [] [] [] []]; vm_compute in Hs; try discriminate Hs; vm_compute in Hd; discriminate Hd.
Qed.

(** A text of digits is read as a decimal literal. *)
Lemma js_Number_digits s : s <> "" ->
  all_chars (fun c => bool_decide (is_Some (digit_in 10 c))) s = true -> js_Number s = read_decimal s.
Proof.
  intros Hne Hs. unfold js_Number. rewrite (trim_all_chars _ _ digit_not_space Hs).
  destruct s as [|c s]; [done|]. cbn [all_chars] in Hs. apply andb_prop in Hs as [Hc Hs].
  destruct c as [[] [] [] [] [] [] [] []]; try reflexivity; try (vm_compute in Hc; discriminate Hc).
  destruct s as [|c s]; [done|]. cbn [all_chars] in Hs. apply andb_prop in Hs as [Hc' Hs].
  destruct c as [[] [] [] [] [] [] [] []]; try reflexivity; vm_compute in Hc'; discriminate Hc'.
Qed.

(** Integers below [2^53] are doubles. *)
Lemma round_double_exact n : 0 <= n < 2 ^ 53 -> round_double (inject_Z n) = Fin (inject_Z n).
Proof.
  intros Hn. destruct n as [|p|p]; [done| |lia]. unfold round_double. cbn [Qnum inject_Z Qden].
  set (n := Zpos p) in *. unfold round_positive. rewrite (Z.log2_1 : Z.log2 1 = 0).
  assert (forall k, div_pow2_round_even k 1 = k) as Hdiv.
  { intros k. unfold div_pow2_round_even. by rewrite Z.div_1_r, Z.mod_1_r. }
  pose proof (Z.log2_spec n ltac:(lia)) as [Hlo Hhi]. pose proof (Z.log2_nonneg n) as Hl0.
  assert (Z.log2 n < 53) as Hl by (apply Z.log2_lt_pow2; lia).
  rewrite Z.max_r by lia. set (e := Z.log2 n - 0 - 53).
  assert ((0 <=? e) = false) as He by (apply Z.leb_gt; lia). rewrite He, Hdiv.
  assert ((n * 2 ^ (- e) <? 2 ^ 53) = false) as ->.
  { apply Z.ltb_ge. replace 53 with (Z.log2 n + - e) by lia. rewrite Z.pow_add_r by lia.
    apply Z.mul_le_mono_nonneg_r; lia. }
  destruct (Z.leb_spec 0 (e + 1)) as [H1|H1].
  - assert (e + 1 = 0) as -> by lia. rewrite Z.mul_1_l, Hdiv, !Z.mul_1_r.
    replace (2 ^ 1024 <=? n) with false; [done|]. symmetry. apply Z.leb_gt.
    assert (2 ^ 53 < 2 ^ 1024) by (apply Z.pow_lt_mono_r; lia). lia.
  - rewrite Hdiv, Z.max_l, Z.mul_1_r by lia.
    replace (2 ^ 1024 <=? n * 2 ^ (- (e + 1))) with false.
    2: { symmetry. apply Z.leb_gt. apply Z.lt_le_trans with (2 ^ 53 * 2 ^ 53).
      - apply Z.mul_lt_mono_nonneg; [lia|lia|lia|]. apply Z.pow_lt_mono_r; lia.
      - rewrite <- Z.pow_add_r by lia. apply Z.pow_le_mono_r; lia. }
    f_equal. assert (0 < 2 ^ (- (e + 1))) as Hpos by (apply Z.pow_pos_nonneg; lia).
    assert (Qred (inject_Z n) = inject_Z n) as <-.
    { unfold Qred, inject_Z. pose proof (Z.ggcd_correct_divisors n 1) as Hg.
      pose proof (Z.ggcd_gcd n 1) as Hg1. destruct (Z.ggcd n 1) as [g [aa bb]]. cbn in Hg1 |- *.
      rewrite Z.gcd_1_r in Hg1. subst g. destruct Hg as [Ha Hb]. rewrite Z.mul_1_l in Ha, Hb.
      by subst aa bb. }
    apply Qred_complete. unfold Qeq, inject_Z. cbn [Qnum Qden]. rewrite Z2Pos.id by done. lia.
Qed.

Lemma js_Number_decimal n : 0 <= n < 2 ^ 53 -> js_Number (decimal_text n) = Fin (inject_Z n).
Proof.
  intros Hn. unfold decimal_text. replace (n <? 0) with false by lia. rewrite Z.abs_eq by lia.
  set (fuel := Z.to_nat (Z.log2 n)).
  destruct (decimal_digits_facts fuel n "" ltac:(lia)) as (d & t & Ht & Hd & Hc).
  assert (n < 2 ^ Z.of_nat (S fuel)) as Hlt.
  { unfold fuel. rewrite Nat2Z.inj_succ, Z2Nat.id by apply Z.log2_nonneg.
    destruct (decide (n = 0)) as [->|]; [done|]. apply Z.log2_spec. lia. }
  destruct (read_decimal_digits fuel n "" ltac:(lia) Hlt) as [j Hj].
  rewrite js_Number_digits.
  - unfold read_decimal. rewrite Hj. cbn [read_digits].
    rewrite decide_False.
    + rewrite Z.mul_0_l, Z.add_0_l, Nat.add_succ_r. cbn [read_exponent].
      unfold scale_by. rewrite Z.mul_1_r. by apply round_double_exact.
    + rewrite Ht. intros [= Hi _]. pose proof (digit_in_decimal d Hd) as Hd'. by rewrite Hi in Hd'.
  - by rewrite Ht.
  - rewrite Ht. cbn [all_chars]. rewrite Hc. cbn. rewrite andb_true_r.
    apply bool_decide_eq_true_2. rewrite digit_in_decimal by done. eauto.
Qed.

Lemma Number_integer_decimal n : 0 <= n < 2 ^ 53 -> Number_integer (decimal_text n) = Some n.
Proof. intros Hn. unfold Number_integer. rewrite js_Number_decimal by done. apply as_integer_of_Z. Qed.

Lemma decimal_digits_lead fuel n rest : 0 < n < 2 ^ Z.of_nat (S fuel) ->
  exists d t, decimal_digits fuel n rest = String (decimal_digit d) t /\ 0 < d < 10.
Proof.
  revert n rest. induction fuel as [|fuel IH]; intros n rest Hn; cbn [decimal_digits].
  - eexists _, _. split; [done|]. rewrite Z.mod_small; lia.
  - destruct (Z.ltb_spec n 10) as [H|H].
    + eexists _, _. split; [done|]. rewrite Z.mod_small; lia.
    + apply IH. split; [apply Z.div_str_pos; lia|]. apply Z.div_lt_upper_bound; [lia|].
      replace (Z.of_nat (S (S fuel))) with (Z.succ (Z.of_nat (S fuel))) in Hn by lia.
      rewrite Z.pow_succ_r in Hn by lia. lia.
Qed.

(** The decimal text of a natural number: digits, the first one not [0] unless it is
    all there is. *)
Lemma decimal_text_shape n : 0 <= n -> exists d t, decimal_text n = String (decimal_digit d) t /\
  0 <= d < 10 /\ all_chars (fun c => bool_decide (is_Some (digit_in 10 c))) t = true /\
  (d = 0 -> t = "").
Proof.
  intros Hn. unfold decimal_text. replace (n <? 0) with false by lia. rewrite Z.abs_eq by lia.
  destruct (decide (n = 0)) as [->|Hne].
  { exists 0, "". split; [done|]. by split; [lia|]. }
  destruct (decimal_digits_facts (Z.to_nat (Z.log2 n)) n "" Hn) as (d & t & Ht & Hd & Hc).
  exists d, t. split_and!; [done|lia|lia|done|]. intros ->.
  destruct (decimal_digits_lead (Z.to_nat (Z.log2 n)) n "") as (d' & t' & Ht' & Hd').
  { rewrite Nat2Z.inj_succ, Z2Nat.id by apply Z.log2_nonneg. split; [lia|]. apply Z.log2_spec. lia. }
  rewrite Ht in Ht'. injection Ht' as Hdd _. apply (f_equal (digit_in 10)) in Hdd.
  rewrite !digit_in_decimal in Hdd by lia. injection Hdd as Hdd. lia.
Qed.

(** [!value] *)
Definition is_falsy (v : json) : bool :=
  match v with
  | JNull | JBool false | JStr "" => true
  | JNum t => match js_Number t with Fin q => Qeq_bool q 0 | NaN => true | _ => false end
  | _ => false
  end.
