(* ===== verification/ModelChangeFeed.v ===== *)
(** * The change feed over a sync model ([src/src/sync/sync-model-change-feed-service.js])

    [SyncModelChangeFeedService] serves pages of the rows of an application's sync
    model, in the order of their server sequence, up to a bound that the first page
    of a client resolves. A row keeps its identity and gets a new sequence when it
    changes.

    A request runs up to three queries, and writers may commit between them: each
    reads its own state of the table, in the order in which the engine scans it.
    Parameters: the visibility scope and the serializer of the application, and how
    the engine compares a timestamp or an identifier with a quoted text (used for
    cursors without a sequence). A JSON number is its text, read by [Number].
    [defaultSerializeRecord] and rows with invalid dates are not modelled. *)

From stdpp Require Import base functions gmap strings list sorting.
From Stdlib Require Import ZArith QArith Ascii Lia.
From S2P Require Import Prelude Sql Json Dates Numbers ConflictStrategy.
Open Scope Z_scope.

Inductive feed_error :=
| InvalidLimit
| InvalidCursor (name : string)
| NoNumberValue.                       (* [Number(value)] throws *)

(** [Number(value)] of a JSON value. *)
Definition to_number (v : json) : result feed_error number :=
  match v with
  | JNull | JBool false => Ok (Fin 0)
  | JBool true => Ok (Fin 1)
  | JNum t | JStr t => Ok (js_Number t)
  | JArr _ | JObj _ =>
      match js_string v with Ok t => Ok (js_Number t) | Throw _ => Throw NoNumberValue end
  end.

(** [value === undefined || value === null || value === ""] *)
Definition is_omitted (v : option json) : bool :=
  match v with None | Some JNull | Some (JStr "") => true | _ => false end.

(** [Number(value)] when it is a positive safe integer. *)
Definition positive_safe (v : json) : result feed_error (option Z) :=
  n ← to_number v;
  Ok (match as_safe_integer (JsNumber n) with
      | Some z => if 0 <? z then Some z else None
      | None => None
      end).

Definition optionalPositiveIntegerParam (value : option json) (name : string) :
    result feed_error (option Z) :=
  match value with
  | None | Some JNull | Some (JStr "") => Ok None
  | Some v =>
      integer ← positive_safe v;
      match integer with Some z => Ok (Some z) | None => Throw (InvalidCursor name) end
  end.

Record feed_cursor := {
  feed_cursor_id : string;
  feed_cursor_sequence : Z;
  feed_cursor_updatedAt : string
}.

Record service (R : Type) := {
  defaultLimit : Z;
  maxLimit : Z;
  row_id : R -> string;                    (* String(record.id()) *)
  row_sequence : R -> Z;
  row_updatedAt : R -> Z;
  in_scope : R -> bool;                    (* scopeQuery *)
  serializeRecord : R -> json;
  updated_after : R -> string -> bool;     (* updated_at > text *)
  updated_equal : R -> string -> bool;     (* updated_at = text *)
  id_after : R -> string -> bool           (* id > text *)
}.
Arguments defaultLimit {R} s.
Arguments maxLimit {R} s.
Arguments row_id {R} s r.
Arguments row_sequence {R} s r.
Arguments row_updatedAt {R} s r.
Arguments in_scope {R} s r.
Arguments serializeRecord {R} s r.
Arguments updated_after {R} s r t.
Arguments updated_equal {R} s r t.
Arguments id_after {R} s r t.

Section service.
Context {R : Type} (s : service R).

Definition normalizedLimit (value : option json) : result feed_error Z :=
  match value with
  | None | Some JNull | Some (JStr "") => Ok (defaultLimit s)
  | Some v =>
      limit ← positive_safe v;
      match limit with Some z => Ok (Z.min z (maxLimit s)) | None => Throw InvalidLimit end
  end.

Definition cursorForRecord (r : R) : feed_cursor := {|
  feed_cursor_id := row_id s r; feed_cursor_sequence := row_sequence s r;
  feed_cursor_updatedAt := toISOString (row_updatedAt s r) |}.

Definition string_param (name : string) (params : list (string * json)) : option string :=
  match obj_get name params with Some (JStr t) => Some t | _ => None end.

(** [typeof params[name] === "string" && params[name] !== ""] *)
Definition text_param (name : string) (params : list (string * json)) : option string :=
  match string_param name params with Some "" => None | t => t end.

(** [scopedQuery] *)
Definition scopedQuery (table : list R) : list R := List.filter (in_scope s) table.

Definition ascending : relation R := by_key Z.le (row_sequence s).
Definition descending : relation R := by_key Z.ge (row_sequence s).

#[export] Instance ascending_dec : RelDecision ascending.
Proof. unfold ascending. apply _. Defined.
#[export] Instance descending_dec : RelDecision descending.
Proof. unfold descending. intros a b. unfold by_key. apply _. Defined.

(** [resolveUpToCursor]; [found] is the state of the table its query reads. *)
Definition resolveUpToCursor (table : list R) (params : list (string * json)) :
    result feed_error (option feed_cursor) :=
  sequence ← optionalPositiveIntegerParam (obj_get "upToServerSequence" params) "upToServerSequence";
  let latest := cursorForRecord <$> first_by descending (scopedQuery table) in
  match string_param "upToUpdatedAt" params, string_param "upToId" params with
  | Some updatedAt, Some id =>
      match sequence with
      | Some z => Ok (Some {| feed_cursor_id := id; feed_cursor_sequence := z; feed_cursor_updatedAt := updatedAt |})
      | None =>
          match List.find (fun r => bool_decide (row_id s r = id)) table with
          | Some r => Ok (Some (cursorForRecord r))
          | None => Ok latest
          end
      end
  | _, _ => Ok latest
  end.

(** The condition of [cursorFilteredQuery] on the rows of the scope. *)
Definition cursor_filter (params : list (string * json)) (upTo : feed_cursor) :
    result feed_error (R -> bool) :=
  after ← optionalPositiveIntegerParam (obj_get "afterServerSequence" params) "afterServerSequence";
  let below r := row_sequence s r <=? feed_cursor_sequence upTo in
  match after with
  | Some z => Ok (fun r => below r && (z <? row_sequence s r))
  | None =>
      match text_param "afterUpdatedAt" params with
      | None => Ok below
      | Some t =>
          match text_param "upToUpdatedAt" params, text_param "upToId" params, text_param "afterId" params with
          | Some _, Some _, Some id =>
              Ok (fun r => below r && (updated_after s r t || (updated_equal s r t && id_after s r id)))
          | _, _, _ => Ok (fun r => below r && (updated_after s r t || updated_equal s r t))
          end
      end
  end.

Definition cursorFilteredQuery (params : list (string * json)) (upTo : feed_cursor)
    (table : list R) : result feed_error (list R) :=
  p ← cursor_filter params upTo; Ok (List.filter p (scopedQuery table)).

Definition totalPendingChanges (params : list (string * json)) (upTo : feed_cursor)
    (table : list R) : result feed_error Z :=
  found ← cursorFilteredQuery params upTo table; Ok (Z.of_nat (length found)).

(** The query of [pageQuery]: [ORDER BY server_sequence ASC LIMIT limit]. *)
Definition pageQuery (params : list (string * json)) (limit : Z) (upTo : feed_cursor)
    (table : list R) : result feed_error (list R) :=
  found ← cursorFilteredQuery params upTo table;
  Ok (firstn (Z.to_nat limit) (merge_sort ascending found)).

Definition cursor_json (c : option feed_cursor) : json :=
  match c with
  | Some c => JObj [("id", JStr (feed_cursor_id c));
      ("serverSequence", JNum (decimal_text (feed_cursor_sequence c)));
      ("updatedAt", JStr (feed_cursor_updatedAt c))]
  | None => JNull
  end.

(** [changes]: the tables its three queries read. *)
Definition changes (for_bound for_total for_page : list R) (params : list (string * json)) :
    result feed_error (list (string * json)) :=
  limit ← normalizedLimit (obj_get "limit" params);
  upToCursor ← resolveUpToCursor for_bound params;
  match upToCursor with
  | None => Ok [("status", JStr "success"); ("nextCursor", JNull); ("syncs", JArr []);
                ("total", JNum (decimal_text 0)); ("upToCursor", JNull)]
  | Some upTo =>
      total ← totalPendingChanges params upTo for_total;
      rows ← pageQuery params limit upTo for_page;
      let nextCursor := match last rows with Some r => cursorForRecord r | None => upTo end in
      Ok [("status", JStr "success"); ("nextCursor", cursor_json (Some nextCursor));
          ("syncs", JArr (map (serializeRecord s) rows));
          ("total", JNum (decimal_text total)); ("upToCursor", cursor_json (Some upTo))]
  end.
End service.
