(* ===== verification/SyncPull.v ===== *)
(** * Pulling changes ([src/src/sync/sync-api-client.js])

    [pullChanges] reads the backend's change feed page by page, up to the bound the
    first page names, applies each row locally and saves the cursor of the last row
    once, at the end. [pullChangesWithCursor] keeps the cursor in a row of the
    application, as JSON text.

    Parameters: the server ([postChanges], any answer to the n-th request), how a row
    is applied ([applySync], with any local state), [optionalInteger] of the package
    typanic. A resource type is not the name of a property of [Object.prototype];
    batches hold less than 10^21 rows. The loop of the code has no bound of its own:
    the model's has fuel, and [SyncPullCorrect.v] shows how much is enough. *)

From stdpp Require Import base functions gmap strings list.
From Stdlib Require Import ZArith QArith Ascii Lia.
From S2P Require Import Prelude Json Numbers ConflictStrategy SyncReplay.
Open Scope Z_scope.

Inductive pull_error :=
| TransportFailed (message : string)
| ChangesFailed (errorMessage : option json)
| MissingSyncs
| EntryNotObject
| NotConvertible                        (* [String(value)] throws *)
| ResponseNotReadable                   (* a property of [null] is read *)
| NotAnInteger                          (* [optionalInteger] throws *)
| LocalFailure (message : string)       (* a callback of the application throws *)
| PullOutOfFuel.

Abbreviation pulled A := (result pull_error A).

(** [String(value)] *)
Definition to_string (v : json) : pulled string :=
  match js_string v with Ok t => Ok t | Throw _ => Throw NotConvertible end.

(** [String(value)] unless it is missing. *)
Definition optional_string (v : option json) : pulled (option string) :=
  match v with
  | None | Some JNull => Ok None
  | Some v => t ← to_string v; Ok (Some t)
  end.

(** ** Cursors *)

Record sync_cursor := {
  cursor_id : option string;
  cursor_serverSequence : option Z;
  cursor_updatedAt : string
}.

Section cursors.
Context (optionalInteger : option json -> pulled (option Z)).

(** The object branch of [syncCursorFromPayload]. *)
Definition cursor_of_object (l : list (string * json)) : pulled (option sync_cursor) :=
  match obj_get "updatedAt" l with
  | Some (JStr (String _ _ as updatedAt)) =>
      id ← optional_string (obj_get "id" l);
      serverSequence ← optionalInteger (match obj_get "serverSequence" l with
                                        | Some (JStr "") => Some JNull
                                        | v => v
                                        end);
      Ok (Some {| cursor_id := id; cursor_serverSequence := serverSequence;
                  cursor_updatedAt := updatedAt |})
  | _ => Ok None
  end.

(** [syncCursorFromPayload]: a string is parsed, and read again when it is the text
    of a string; the texts get shorter, so their length is enough fuel. *)
Fixpoint cursor_from (fuel : nat) (payload : json) : pulled (option sync_cursor) :=
  if is_falsy payload then Ok None else
  match payload with
  | JStr text =>
      let as_timestamp := Ok (Some {| cursor_id := None; cursor_serverSequence := None;
                                      cursor_updatedAt := text |}) in
      match parse text, fuel with
      | Some v, S fuel => match cursor_from fuel v with Ok c => Ok c | Throw _ => as_timestamp end
      | _, _ => as_timestamp
      end
  | JObj l => cursor_of_object l
  | _ => Ok None
  end.

Definition syncCursorFromPayload (payload : option json) : pulled (option sync_cursor) :=
  match payload with
  | None => Ok None
  | Some v => cursor_from (match v with JStr s => String.length s | _ => O end) v
  end.
End cursors.

Definition id_json (id : option string) : json :=
  match id with Some i => JStr i | None => JNull end.

(** [cursorPayload] *)
Definition cursorPayload (prefix : string) (cursor : option sync_cursor) : list (string * json) :=
  match cursor with
  | None => []
  | Some c =>
      [(prefix +:+ "Id", id_json (cursor_id c))] ++
      (match cursor_serverSequence c with
       | Some n => if n =? 0 then [] else [(prefix +:+ "ServerSequence", JNum (decimal_text n))]
       | None => []
       end) ++
      [(prefix +:+ "UpdatedAt", JStr (cursor_updatedAt c))]
  end.

(** [JSON.stringify(cursor)] *)
Definition cursor_object (c : sync_cursor) : json :=
  JObj [("id", id_json (cursor_id c));
        ("serverSequence", match cursor_serverSequence c with
                           | Some n => JNum (decimal_text n) | None => JNull end);
        ("updatedAt", JStr (cursor_updatedAt c))].

(** ** Rows of a page *)

(** The payload of a [syncEnvelopeFromPayload]. *)
Abbreviation envelope := (list (string * json)).

Definition syncEnvelopeFromPayload (payload : json) : pulled envelope :=
  match payload with JObj l => Ok l | _ => Throw EntryNotObject end.

Fixpoint envelopes (syncs : list json) : pulled (list envelope) :=
  match syncs with
  | [] => Ok []
  | v :: syncs => x ← syncEnvelopeFromPayload v; rest ← envelopes syncs; Ok (x :: rest)
  end.

(** [sync.resourceType()] *)
Definition resourceType (sync : envelope) : pulled (option string) :=
  optional_string (obj_get "resourceType" sync).

Record apply_result := { apply_changed : bool; apply_resourceType : option string }.

(** ** The pull *)

Record changes_page := {
  page_nextCursor : option sync_cursor;
  page_syncs : list envelope;
  page_total : option Z;
  page_upToCursor : option sync_cursor
}.

Record pull_env (L : Type) := {
  authenticationToken : string;
  batchSize : scalar;
  postChanges : nat -> list (string * json) -> pulled json;
  applySync : envelope -> ST L pull_error apply_result;
  loadCursor : ST L pull_error (option json);
  saveCursor : sync_cursor -> ST L pull_error unit;
  optionalInteger : option json -> pulled (option Z);
  has_onProgress : bool
}.
Arguments authenticationToken {L} p.
Arguments batchSize {L} p.
Arguments postChanges {L} p n request.
Arguments applySync {L} p sync.
Arguments loadCursor {L} p.
Arguments saveCursor {L} p cursor.
Arguments optionalInteger {L} p v.
Arguments has_onProgress {L} p.

(** The application's state, the requests sent, the rows applied and the progress
    reported. *)
Record pull_state (L : Type) := {
  local : L;
  requests : nat;
  applied : list envelope;
  progress : list (Z * Z * Z)
}.
Arguments local {L} p.
Arguments requests {L} p.
Arguments applied {L} p.
Arguments progress {L} p.

Record pull_result := {
  afterCursor : option sync_cursor;
  upToCursor : option sync_cursor;
  changed : bool;
  pages : Z;
  resourceChanged : gmap string bool;
  resourceCounts : gmap string Z;
  syncedCount : Z;
  total : Z
}.

Section pull.
Context {L : Type} (e : pull_env L).

Abbreviation M := (ST (pull_state L) pull_error).

Definition on_local {A} (m : ST L pull_error A) : M A := fun s =>
  let '(r, l) := m (local s) in
  (r, {| local := l; requests := requests s; applied := applied s; progress := progress s |}).

Definition post (request : list (string * json)) : M json := fun s =>
  (postChanges e (requests s) request,
   {| local := local s; requests := S (requests s); applied := applied s; progress := progress s |}).

Definition mark_applied (sync : envelope) : M unit := modify (fun s =>
  {| local := local s; requests := requests s; applied := applied s ++ [sync]; progress := progress s |}).

Definition onProgress (v : pull_result) : M unit :=
  if has_onProgress e then modify (fun s =>
    {| local := local s; requests := requests s; applied := applied s;
       progress := progress s ++ [(pages v, syncedCount v, total v)] |})
  else mret tt.

(** [response[name]] *)
Definition response_property (name : string) (response : json) : pulled (option json) :=
  match response with
  | JObj l => Ok (obj_get name l)
  | JNull => Throw ResponseNotReadable
  | _ => Ok None
  end.

(** [ensureSuccessfulChangesResponse], with the rows. *)
Definition ensureSuccessfulChangesResponse (response : json) : pulled (list json) :=
  status ← response_property "status" response;
  if bool_decide (status = Some (JStr "error")) then
    errorMessage ← response_property "errorMessage" response; Throw (ChangesFailed errorMessage)
  else
    syncs ← response_property "syncs" response;
    match syncs with Some (JArr l) => Ok l | _ => Throw MissingSyncs end.

Definition read_page (response : json) : pulled changes_page :=
  syncs ← ensureSuccessfulChangesResponse response;
  next ← response_property "nextCursor" response;
  nextCursor ← syncCursorFromPayload (optionalInteger e) next;
  rows ← envelopes syncs;
  total ← response_property "total" response;
  total ← optionalInteger e total;
  upTo ← response_property "upToCursor" response;
  upToCursor ← syncCursorFromPayload (optionalInteger e) upTo;
  Ok {| page_nextCursor := nextCursor; page_syncs := rows; page_total := total;
        page_upToCursor := upToCursor |}.

Definition changes_request (limit : Z) (after upTo : option sync_cursor) : list (string * json) :=
  [("authenticationToken", JStr (authenticationToken e)); ("limit", JNum (decimal_text limit))] ++
  cursorPayload "after" after ++ cursorPayload "upTo" upTo.

Definition changesPage (limit : Z) (after upTo : option sync_cursor) : M changes_page :=
  response ← post (changes_request limit after upTo);
  lift_result (read_page response).

Definition initial_result (cursor : option sync_cursor) : pull_result := {|
  afterCursor := cursor; upToCursor := None; changed := false; pages := 0;
  resourceChanged := ∅; resourceCounts := ∅; syncedCount := 0; total := 0 |}.

(** [if (!upToCursor) upToCursor = ...; if (total !== null) total = ...] *)
Definition with_bound (p : changes_page) (v : pull_result) : pull_result := {|
  afterCursor := afterCursor v;
  upToCursor := match upToCursor v with None => page_upToCursor p | c => c end;
  changed := changed v; pages := pages v; resourceChanged := resourceChanged v;
  resourceCounts := resourceCounts v; syncedCount := syncedCount v;
  total := match page_total p with Some n => syncedCount v + n | None => total v end |}.

Definition next_page (v : pull_result) : pull_result := {|
  afterCursor := afterCursor v; upToCursor := upToCursor v; changed := changed v;
  pages := pages v + 1; resourceChanged := resourceChanged v; resourceCounts := resourceCounts v;
  syncedCount := syncedCount v; total := total v |}.

Definition with_cursor (c : option sync_cursor) (v : pull_result) : pull_result := {|
  afterCursor := c; upToCursor := upToCursor v; changed := changed v; pages := pages v;
  resourceChanged := resourceChanged v; resourceCounts := resourceCounts v;
  syncedCount := syncedCount v; total := total v |}.

(** The counters after one applied row. *)
Definition count_applied (r : apply_result) (resource : option string) (v : pull_result) : pull_result :=
  let named := match resource with Some "" => None | t => t end in {|
  afterCursor := afterCursor v; upToCursor := upToCursor v;
  changed := changed v || apply_changed r; pages := pages v;
  resourceChanged := match named with
    | Some t => <[t := default false (resourceChanged v !! t) || apply_changed r]> (resourceChanged v)
    | None => resourceChanged v
    end;
  resourceCounts := match named with
    | Some t => <[t := default 0 (resourceCounts v !! t) + 1]> (resourceCounts v)
    | None => resourceCounts v
    end;
  syncedCount := syncedCount v + 1; total := total v |}.

(** The callback of [recordChanges.batch]. *)
Fixpoint apply_page (syncs : list envelope) (v : pull_result) : M pull_result :=
  match syncs with
  | [] => mret v
  | sync :: syncs =>
      r ← on_local (applySync e sync);
      _ ← mark_applied sync;
      resource ← lift_result (match apply_resourceType r with
                              | Some t => Ok (Some t)
                              | None => resourceType sync
                              end);
      apply_page syncs (count_applied r resource v)
  end.

(** One iteration; [true] when it breaks. *)
Definition pull_page (v : pull_result) : M (pull_result * bool) :=
  let limit := normalizedBatchSize (batchSize e) in
  p ← changesPage limit (afterCursor v) (upToCursor v);
  let v := with_bound p v in
  match page_syncs p with
  | [] => _ ← (if pages v =? 0 then onProgress v else mret tt); mret (v, true)
  | _ =>
      v ← apply_page (page_syncs p) (next_page v);
      let v := with_cursor (page_nextCursor p) v in
      _ ← onProgress v;
      mret (v, Z.of_nat (length (page_syncs p)) <? limit)
  end.

Fixpoint pull_pages (fuel : nat) (v : pull_result) : M pull_result :=
  match fuel with
  | O => throw PullOutOfFuel
  | S fuel =>
      page ← pull_page v;
      if (page.2 : bool) then mret page.1 else pull_pages fuel page.1
  end.

Definition pullChanges (fuel : nat) : M pull_result :=
  loaded ← on_local (loadCursor e);
  cursor ← lift_result (syncCursorFromPayload (optionalInteger e) loaded);
  v ← pull_pages fuel (initial_result cursor);
  _ ← match afterCursor v with Some c => on_local (saveCursor e c) | None => mret tt end;
  mret v.
End pull.

(** ** The cursor in a row of the application *)

Record cursor_store (A : Type) := { cursor_values : gmap string string; records : A }.
Arguments cursor_values {A} c.
Arguments records {A} c.

Section cursor_store.
Context {A : Type}.

Definition loadSyncCursor (cursorKey : string) : ST (cursor_store A) pull_error (option json) :=
  gets (fun s => JStr <$> cursor_values s !! cursorKey).

Definition saveSyncCursor (cursorKey : string) (c : sync_cursor) :
    ST (cursor_store A) pull_error unit :=
  modify (fun s => {| cursor_values := <[cursorKey := stringify (cursor_object c)]> (cursor_values s);
                      records := records s |}).

Definition on_records {B} (m : ST A pull_error B) : ST (cursor_store A) pull_error B := fun s =>
  let '(r, a) := m (records s) in (r, {| cursor_values := cursor_values s; records := a |}).

Definition pullChangesWithCursor (token cursorKey : string) (size : scalar)
    (post : nat -> list (string * json) -> pulled json)
    (apply : envelope -> ST A pull_error apply_result)
    (optionalInteger : option json -> pulled (option Z)) (fuel : nat) :
    ST (pull_state (cursor_store A)) pull_error pull_result :=
  pullChanges {|
    authenticationToken := token; batchSize := size; postChanges := post;
    applySync := fun sync => on_records (apply sync);
    loadCursor := loadSyncCursor cursorKey; saveCursor := saveSyncCursor cursorKey;
    optionalInteger := optionalInteger; has_onProgress := false |} fuel.
End cursor_store.
