(* ===== verification/SyncPullCorrect.v ===== *)
(** * Pulling from a model's change feed: correctness

    [SyncPull.v] against [ModelChangeFeed.v]: a client that pulls with a stored
    cursor, from a table whose rows come, change and go between any two queries, in
    any order of their sequences: [ServerSequenceAllocator] gives them inside
    transactions, which commit in another order. *)

From stdpp Require Import base functions gmap strings list sorting.
From Stdlib Require Import ZArith QArith Ascii Lia.
From S2P Require Import Prelude Sql Json Dates Numbers ConflictStrategy SyncReplay ModelChangeFeed SyncPull.
Open Scope Z_scope.

(** ** Numbers in JSON *)

Lemma decimal_digit_code d : 0 <= d < 10 -> is_digit (decimal_digit d) = true /\
  is_number_char (decimal_digit d) = true /\ (N_of_ascii (decimal_digit d) =? 45)%N = false /\
  ((N_of_ascii (decimal_digit d) =? 48)%N = true -> d = 0).
Proof.
  intros H. assert (d = 0 \/ d = 1 \/ d = 2 \/ d = 3 \/ d = 4 \/ d = 5 \/ d = 6 \/ d = 7 \/ d = 8 \/ d = 9)
    as Hd by lia.
  destruct_or! Hd; subst d; vm_compute; split_and!; congruence.
Qed.

Lemma digit_chars c : bool_decide (is_Some (digit_in 10 c)) = true -> is_digit c = true /\ is_number_char c = true.
Proof.
  intros [d Hd]%bool_decide_eq_true.
  destruct c as [[] [] [] [] [] [] [] []]; vm_compute in Hd; try discriminate Hd; by vm_compute.
Qed.

Lemma span_all_chars (P Q : ascii -> bool) s : (forall c, P c = true -> Q c = true) ->
  all_chars P s = true -> span Q s = (s, "").
Proof.
  intros H. induction s as [|c s IH]; [done|]. cbn. intros [Hc Hs]%andb_prop.
  by rewrite (H c Hc), IH.
Qed.

Lemma decimal_literal n : 0 <= n -> number_literal (decimal_text n) = true.
Proof.
  intros Hn. destruct (decimal_text_shape n Hn) as (d & t & -> & Hd & Ht & H0).
  destruct (decimal_digit_code d Hd) as (H1 & H2 & H3 & H4).
  unfold number_literal, valid_number. rewrite H3. cbn [span]. rewrite H1, H2.
  rewrite !(span_all_chars _ _ t (fun c Hc => proj1 (digit_chars c Hc)) Ht).
  rewrite !(span_all_chars _ _ t (fun c Hc => proj2 (digit_chars c Hc)) Ht).
  cbn. destruct t as [|c t]; [done|]. destruct (_ =? 48)%N eqn:E; [|done].
  by specialize (H0 (H4 eq_refl)).
Qed.

Lemma positive_safe_decimal n : 0 < n < 2 ^ 53 -> positive_safe (JNum (decimal_text n)) = Ok (Some n).
Proof.
  intros Hn. unfold positive_safe. cbn. rewrite js_Number_decimal by lia.
  unfold as_safe_integer. change (JsNumber (Fin (inject_Z n))) with (of_Z n). rewrite as_integer_of_Z.
  unfold is_safe_Z, MAX_SAFE_INTEGER. replace (Z.abs n <=? 9007199254740991) with true by lia.
  by replace (0 <? n) with true by lia.
Qed.

#[local] Arguments positive_safe : simpl never.
#[local] Arguments changes_request : simpl never.

(** ** Ascending pages *)

Lemma first_by_max {R} (f : R -> Z) (dec : RelDecision (by_key Z.ge f)) (l : list R) :
  match first_by (by_key Z.ge f) l with
  | Some r => r ∈ l /\ forall x, x ∈ l -> f x <= f r
  | None => l = []
  end.
Proof.
  destruct (first_by _ l) as [r|] eqn:E.
  - assert (Total (by_key Z.ge f)) by (intros a b; unfold by_key; lia).
    assert (Transitive (by_key Z.ge f)) by (intros a b c; unfold by_key; lia).
    apply first_by_Some in E as [Hr Hall]; [|done..]. split; [done|]. rewrite Forall_forall in Hall.
    intros x Hx. destruct (Hall x Hx) as [->|H']; [lia|]. unfold by_key in H'. lia.
  - by apply first_by_None in E.
Qed.

Section pages.
Context {R : Type} (f : R -> Z).

(** Rows in strictly ascending order. *)
Definition rising (l : list R) : Prop := StronglySorted (fun a b => f a < f b) l.

Lemma rising_app l1 l2 : rising (l1 ++ l2) <->
  rising l1 /\ rising l2 /\ forall a b, a ∈ l1 -> b ∈ l2 -> f a < f b.
Proof.
  unfold rising. rewrite StronglySorted_app. naive_solver.
Qed.

Lemma rising_sort (dec : RelDecision (by_key Z.le f)) l : NoDup (map f l) ->
  rising (merge_sort (by_key Z.le f) l).
Proof.
  intros Hn. assert (NoDup (map f (merge_sort (by_key Z.le f) l))) as Hn'.
  { by rewrite (merge_sort_Permutation (by_key Z.le f) l). }
  assert (StronglySorted (by_key Z.le f) (merge_sort (by_key Z.le f) l)) as Hs.
  { apply (StronglySorted_merge_sort _). }
  unfold rising. induction Hs as [|a l' Hs IH Ha]; [constructor|].
  cbn in Hn'. apply NoDup_cons in Hn' as [Hnot Hn']. constructor; [by apply IH|].
  rewrite Forall_forall in Ha |- *. intros b Hb. specialize (Ha b Hb). unfold by_key in Ha.
  assert (f a <> f b); [|lia]. intros Heq. apply Hnot. rewrite Heq. by apply list_elem_of_fmap_2.
Qed.

(** A page holds the first rows: those up to its last one. *)
Lemma rising_page n l r : rising l -> last (firstn n l) = Some r ->
  forall x, x ∈ l -> f x <= f r -> x ∈ firstn n l.
Proof.
  intros Hl Hlast x Hx Hle. rewrite <- (take_drop n l) in Hl, Hx.
  apply rising_app in Hl as (_ & _ & Hlt). apply elem_of_app in Hx as [Hx|Hx]; [done|].
  assert (r ∈ firstn n l) as Hr.
  { apply last_Some in Hlast as [l' ->]. apply elem_of_app. right. by left. }
  specialize (Hlt r x Hr Hx). lia.
Qed.

Lemma rising_last l r : rising l -> last l = Some r -> forall x, x ∈ l -> f x <= f r.
Proof.
  intros Hl Hlast x Hx. apply last_Some in Hlast as [l' ->]. apply rising_app in Hl as (_ & _ & Hlt).
  apply elem_of_app in Hx as [Hx|Hx%list_elem_of_singleton]; [|by subst].
  specialize (Hlt x r Hx ltac:(by left)). lia.
Qed.
End pages.

(** ** One request *)

(** The cursor the client keeps of one of the feed. *)
Definition client_cursor (c : feed_cursor) : sync_cursor := {|
  cursor_id := Some (feed_cursor_id c); cursor_serverSequence := Some (feed_cursor_sequence c);
  cursor_updatedAt := feed_cursor_updatedAt c |}.

Definition sound_cursor (c : feed_cursor) : Prop :=
  0 < feed_cursor_sequence c < 2 ^ 53 /\ feed_cursor_updatedAt c <> "".

(** The client's cursor stands at the sequence [a], or before all of them. *)
Definition stands (c : option sync_cursor) (a : Z) : Prop :=
  (c = None /\ a = 0) \/
  exists k, c = Some (client_cursor k) /\ sound_cursor k /\ a = feed_cursor_sequence k.

(** What the package typanic documents of [optionalInteger]. *)
Record integer_reader (optionalInteger : option json -> pulled (option Z)) : Prop := {
  reads_missing : optionalInteger (Some JNull) = Ok None;
  reads_integer : forall n, 0 <= n < 2 ^ 53 -> optionalInteger (Some (JNum (decimal_text n))) = Ok (Some n)
}.

Lemma toISOString_nonempty t : toISOString t <> "".
Proof.
  unfold toISOString, year_text. by repeat case_match.
Qed.

Section service.
Context {R : Type} (s : service R) (row_envelope : R -> envelope).
Context (rows_serialized : forall r, serializeRecord s r = JObj (row_envelope r)).
Context {L : Type} (e : pull_env L) (reader : integer_reader (optionalInteger e)).

Abbreviation limit := (normalizedBatchSize (batchSize e)).
Context (limit_fits : 1 <= limit <= maxLimit s) (limit_safe : limit < 2 ^ 53).

(** The rows of a page, and those still to come. *)
Definition window (table : list R) (a upTo : Z) : list R :=
  List.filter (fun r => (row_sequence s r <=? upTo) && (a <? row_sequence s r)) (scopedQuery s table).

Definition page_rows (table : list R) (a upTo : Z) : list R :=
  firstn (Z.to_nat limit) (merge_sort (ascending s) (window table a upTo)).

Abbreviation request := (changes_request e limit).

Lemma request_limit after upTo :
  normalizedLimit s (obj_get "limit" (request after upTo)) = Ok limit.
Proof.
  unfold changes_request. cbn [app obj_get]. rewrite decide_False, decide_True by done.
  cbn [normalizedLimit]. rewrite positive_safe_decimal by lia. cbn. by rewrite Z.min_l by lia.
Qed.

(** The parameters of a request that a cursor contributes. *)
Lemma after_parameters k upTo : sound_cursor k ->
  obj_get "afterServerSequence" (request (Some (client_cursor k)) upTo) =
    Some (JNum (decimal_text (feed_cursor_sequence k))).
Proof.
  intros [Hk _]. unfold changes_request, cursorPayload at 1. cbn [client_cursor cursor_serverSequence].
  by replace (feed_cursor_sequence k =? 0) with false by lia.
Qed.

Lemma no_after_parameters upTo name : name = "afterServerSequence" \/ name = "afterUpdatedAt" ->
  obj_get name (request None upTo) = None.
Proof.
  intros [-> | ->]; (destruct upTo as [[id [n|] t]|]; [|done|done]); unfold changes_request, cursorPayload;
    cbn [cursor_serverSequence]; by destruct (n =? 0).
Qed.

Lemma bound_parameters after a u : stands after a -> sound_cursor u ->
  obj_get "upToServerSequence" (request after (Some (client_cursor u))) =
    Some (JNum (decimal_text (feed_cursor_sequence u))) /\
  obj_get "upToUpdatedAt" (request after (Some (client_cursor u))) = Some (JStr (feed_cursor_updatedAt u)) /\
  obj_get "upToId" (request after (Some (client_cursor u))) = Some (JStr (feed_cursor_id u)).
Proof.
  intros Ha [Hu _]. unfold changes_request, cursorPayload.
  destruct Ha as [[-> ->]|(k & -> & [Hk _] & ->)]; cbn [client_cursor cursor_serverSequence];
    replace (feed_cursor_sequence u =? 0) with false by lia; [done|].
  by replace (feed_cursor_sequence k =? 0) with false by lia.
Qed.

Lemma no_bound_parameters after a name : stands after a ->
  name = "upToServerSequence" \/ name = "upToUpdatedAt" -> obj_get name (request after None) = None.
Proof.
  intros Ha Hn. unfold changes_request, cursorPayload.
  destruct Ha as [[-> ->]|(k & -> & [Hk _] & ->)]; cbn [client_cursor cursor_serverSequence];
    [by destruct Hn as [-> | ->]|].
  replace (feed_cursor_sequence k =? 0) with false by lia. by destruct Hn as [-> | ->].
Qed.

Definition response (rows : list R) (total : Z) (u : feed_cursor) : list (string * json) :=
  [("status", JStr "success");
   ("nextCursor", cursor_json (Some (match last rows with Some r => cursorForRecord s r | None => u end)));
   ("syncs", JArr (map (serializeRecord s) rows)); ("total", JNum (decimal_text total));
   ("upToCursor", cursor_json (Some u))].

Lemma cursor_filter_window after a upTo u table : stands after a ->
  (forall r, r ∈ table -> 0 < row_sequence s r) ->
  cursorFilteredQuery s (request after upTo) u table = Ok (window table a (feed_cursor_sequence u)).
Proof.
  intros Ha Hpos. unfold cursorFilteredQuery, cursor_filter.
  destruct Ha as [[-> ->]|(k & -> & Hk & ->)].
  - unfold text_param, string_param. rewrite !no_after_parameters by auto. cbn. f_equal.
    unfold window. apply List.filter_ext_in. intros r Hr. unfold scopedQuery in Hr.
    apply List.filter_In in Hr as [Hr _]. rewrite <- list_elem_of_In in Hr. specialize (Hpos r Hr).
    replace (0 <? row_sequence s r) with true by lia. by rewrite andb_true_r.
  - rewrite after_parameters by done. cbn [optionalPositiveIntegerParam].
    rewrite positive_safe_decimal by apply Hk. done.
Qed.

Lemma request_limit_ok after upTo T0 T1 T2 : changes s T0 T1 T2 (request after upTo) =
  upToCursor ← resolveUpToCursor s T0 (request after upTo);
  match upToCursor with
  | None => Ok [("status", JStr "success"); ("nextCursor", JNull); ("syncs", JArr []);
                ("total", JNum (decimal_text 0)); ("upToCursor", JNull)]
  | Some upTo' =>
      total ← totalPendingChanges s (request after upTo) upTo' T1;
      rows ← pageQuery s (request after upTo) limit upTo' T2;
      Ok (response rows total upTo')
  end.
Proof. unfold changes. by rewrite request_limit. Qed.

Definition positive (table : list R) : Prop := forall r, r ∈ table -> 0 < row_sequence s r.

Lemma page_response after a upTo u T1 T2 : stands after a -> positive T1 -> positive T2 ->
  (total ← totalPendingChanges s (request after upTo) u T1;
   rows ← pageQuery s (request after upTo) limit u T2;
   Ok (response rows total u)) =
  Ok (response (page_rows T2 a (feed_cursor_sequence u))
        (Z.of_nat (length (window T1 a (feed_cursor_sequence u)))) u).
Proof.
  intros Ha H1 H2. unfold totalPendingChanges, pageQuery. by rewrite !(cursor_filter_window after a).
Qed.

(** The first request of a pull: the bound is the last row there is. *)
Lemma changes_first after a T0 T1 T2 : stands after a -> positive T1 -> positive T2 ->
  changes s T0 T1 T2 (request after None) =
  match first_by (descending s) (scopedQuery s T0) with
  | None => Ok [("status", JStr "success"); ("nextCursor", JNull); ("syncs", JArr []);
                ("total", JNum (decimal_text 0)); ("upToCursor", JNull)]
  | Some m => Ok (response (page_rows T2 a (row_sequence s m))
      (Z.of_nat (length (window T1 a (row_sequence s m)))) (cursorForRecord s m))
  end.
Proof.
  intros Ha H1 H2. rewrite request_limit_ok. unfold resolveUpToCursor, string_param.
  rewrite !(no_bound_parameters after a) by auto. cbn.
  destruct (first_by _ _) as [m|]; [|done]. cbn. by apply page_response.
Qed.

Lemma changes_next after a u T0 T1 T2 : stands after a -> sound_cursor u -> positive T1 -> positive T2 ->
  changes s T0 T1 T2 (request after (Some (client_cursor u))) =
  Ok (response (page_rows T2 a (feed_cursor_sequence u))
        (Z.of_nat (length (window T1 a (feed_cursor_sequence u)))) u).
Proof.
  intros Ha Hu H1 H2. rewrite request_limit_ok. unfold resolveUpToCursor, string_param.
  destruct (bound_parameters after a u Ha Hu) as (-> & -> & ->). cbn [optionalPositiveIntegerParam].
  rewrite positive_safe_decimal by apply Hu. destruct u as [i n t]. cbn. by apply page_response.
Qed.

(** ** What the client reads *)

Lemma read_cursor u : sound_cursor u ->
  syncCursorFromPayload (optionalInteger e) (Some (cursor_json (Some u))) = Ok (Some (client_cursor u)).
Proof.
  intros [Hu Ht]. unfold syncCursorFromPayload, cursor_json. cbn [cursor_from is_falsy].
  unfold cursor_of_object. change (obj_get "updatedAt" _) with (Some (JStr (feed_cursor_updatedAt u))).
  change (obj_get "id" _) with (Some (JStr (feed_cursor_id u))).
  change (obj_get "serverSequence" _) with (Some (JNum (decimal_text (feed_cursor_sequence u)))).
  destruct u as [i n [|c t]]; [done|]. cbn in Hu |- *.
  by rewrite (reads_integer _ reader) by lia.
Qed.

Lemma read_envelopes rows : envelopes (map (serializeRecord s) rows) = Ok (map row_envelope rows).
Proof. induction rows as [|r rows IH]; [done|]. cbn. by rewrite rows_serialized, IH. Qed.

Definition page_of (rows : list R) (total : Z) (u : feed_cursor) : changes_page := {|
  page_nextCursor := Some (client_cursor (match last rows with Some r => cursorForRecord s r | None => u end));
  page_syncs := map row_envelope rows; page_total := Some total;
  page_upToCursor := Some (client_cursor u) |}.

Lemma read_response rows total u : sound_cursor u ->
  (forall r, r ∈ rows -> sound_cursor (cursorForRecord s r)) -> 0 <= total < 2 ^ 53 ->
  read_page e (JObj (response rows total u)) = Ok (page_of rows total u).
Proof.
  intros Hu Hrows Ht. unfold read_page.
  change (ensureSuccessfulChangesResponse (JObj (response rows total u))) with
    (Ok (map (serializeRecord s) rows) : pulled (list json)). cbn [mbind result_bind].
  unfold response_property, response.
  change (obj_get "nextCursor" _) with (Some (cursor_json (Some (match last rows with
    | Some r => cursorForRecord s r | None => u end)))).
  change (obj_get "total" _) with (Some (JNum (decimal_text total))).
  change (obj_get "upToCursor" _) with (Some (cursor_json (Some u))). cbn [mbind result_bind].
  rewrite (read_cursor u Hu), read_envelopes. cbn [mbind result_bind].
  rewrite (reads_integer _ reader) by done. rewrite read_cursor; [done|].
  destruct (last rows) as [r|] eqn:E; [|done]. apply Hrows. apply last_Some in E as [l ->].
  apply elem_of_app. right. by left.
Qed.
End service.

(** ** The table while the client pulls *)

Section pulls.
Context {R : Type} (s : service R) (tables : nat -> list R).

(** The states of the table that successive queries read: nothing is said of how one
    follows from another. Each row has a sequence of its own, a positive safe integer. *)
Record feed_history : Prop := {
  sequences_unique : forall n, NoDup (map (row_sequence s) (tables n));
  sequences_positive : forall n r, r ∈ tables n -> 0 < row_sequence s r < 2 ^ 53;
  tables_small : forall n, Z.of_nat (length (tables n)) < 2 ^ 53
}.

Context (history : feed_history).

Lemma elem_of_window table a upTo r : r ∈ window s table a upTo <->
  r ∈ table /\ in_scope s r = true /\ a < row_sequence s r <= upTo.
Proof.
  unfold window, scopedQuery. rewrite list_elem_of_In, !List.filter_In, <- list_elem_of_In, andb_true_iff.
  rewrite Z.leb_le, Z.ltb_lt. tauto.
Qed.

Lemma window_unique n a upTo : NoDup (map (row_sequence s) (window s (tables n) a upTo)).
Proof.
  pose proof (sequences_unique history n) as Hn. unfold window, scopedQuery.
  generalize dependent (tables n). intros l Hn.
  assert (forall p (l : list R), NoDup (map (row_sequence s) l) ->
    NoDup (map (row_sequence s) (List.filter p l))) as Hf; [|by do 2 apply Hf].
  clear. intros p l. induction l as [|r l IH]; [done|]. cbn. intros [Hr Hl]%NoDup_cons.
  destruct (p r); [|by apply IH]. cbn. apply NoDup_cons. split; [|by apply IH].
  intros (x & Hx & Hin)%list_elem_of_fmap. apply Hr. rewrite Hx. apply list_elem_of_fmap_2.
  rewrite list_elem_of_In, List.filter_In, <- list_elem_of_In in Hin. by destruct Hin.
Qed.

Lemma window_sound n a upTo r : r ∈ window s (tables n) a upTo -> sound_cursor (cursorForRecord s r).
Proof.
  intros (Hr & _ & _)%elem_of_window. split; [by eapply (sequences_positive history)|].
  apply toISOString_nonempty.
Qed.

End pulls.

(** The n-th request of a client, served from three states of the table. *)
Definition served {R} (s : service R) (tables : nat -> list R) (n : nat) (request : list (string * json)) :
    pulled json :=
  match changes s (tables (3 * n)%nat) (tables (3 * n + 1)%nat) (tables (3 * n + 2)%nat) request with
  | Ok l => Ok (JObj l)
  | Throw _ => Throw (TransportFailed "sync request refused")
  end.

Section loop.
Context {R : Type} (s : service R) (row_envelope : R -> envelope).
Context (rows_serialized : forall r, serializeRecord s r = JObj (row_envelope r)).
Context (readable : forall r, exists t, resourceType (row_envelope r) = Ok t).
Context {L : Type} (e : pull_env L) (reader : integer_reader (optionalInteger e)).
Abbreviation limit := (normalizedBatchSize (batchSize e)).
Context (limit_fits : 1 <= limit <= maxLimit s) (limit_safe : limit < 2 ^ 53).
Context (tables : nat -> list R) (history : feed_history s tables).
Context (serves : forall n request, postChanges e n request = served s tables n request).
Context (applies : forall sync l, exists r l', applySync e sync l = (Ok r, l')).

(** The rows are applied, one after the other. *)
Lemma apply_page_runs rows v st : exists v' st', apply_page e (map row_envelope rows) v st = (Ok v', st') /\
  requests st' = requests st /\ applied st' = applied st ++ map row_envelope rows /\
  afterCursor v' = afterCursor v /\ upToCursor v' = upToCursor v.
Proof.
  revert v st. induction rows as [|r rows IH]; intros v st.
  { exists v, st. cbn. by rewrite app_nil_r. }
  cbn [map apply_page]. unfold mbind, ST_bind, on_local.
  destruct (applies (row_envelope r) (local st)) as (x & l & ->). unfold mark_applied, modify, lift_result.
  destruct (readable r) as [t Ht].
  assert (exists o, match apply_resourceType x with Some t => Ok (Some t)
    | None => resourceType (row_envelope r) end = (Ok o : pulled _)) as [o ->].
  { destruct (apply_resourceType x); eauto. }
  set (st1 := {| local := l; requests := requests st; applied := applied st ++ [row_envelope r];
    progress := progress st |}).
  destruct (IH (count_applied x o v) st1) as (v' & st' & Hrun & Hr & Ha & Hc & Hu).
  exists v', st'. split; [exact Hrun|]. split; [done|]. split; [|done].
  rewrite Ha. cbn. by rewrite <- (assoc_L (++)).
Qed.

Lemma onProgress_runs v st : exists st', onProgress e v st = (Ok tt, st') /\
  requests st' = requests st /\ applied st' = applied st.
Proof. unfold onProgress. destruct (has_onProgress e); eexists; split_and!; done. Qed.

(** The answer to the client's next request: the rows after [a] up to the bound [u]. *)
Definition answered (v : pull_result) (n : nat) (a : Z) (u : feed_cursor) : Prop :=
  sound_cursor u /\ (upToCursor v = None \/ upToCursor v = Some (client_cursor u)) /\
  exists total, 0 <= total < 2 ^ 53 /\
    postChanges e n (changes_request e limit (afterCursor v) (upToCursor v)) =
    Ok (JObj (response s (page_rows s e (tables (3 * n + 2)%nat) a (feed_cursor_sequence u)) total u)).

Lemma page_rows_sound n a upTo r : r ∈ page_rows s e (tables n) a upTo -> r ∈ window s (tables n) a upTo.
Proof.
  unfold page_rows. intros Hr%elem_of_take. destruct Hr as (i & Hr & _).
  apply list_elem_of_lookup_2 in Hr. by rewrite merge_sort_Permutation in Hr.
Qed.

Lemma pull_page_runs v st a u : answered v (requests st) a u ->
  let rows := page_rows s e (tables (3 * requests st + 2)%nat) a (feed_cursor_sequence u) in
  exists v' st', pull_page e v st =
      (Ok (v', if decide (rows = []) then true else Z.of_nat (length rows) <? limit), st') /\
    requests st' = S (requests st) /\ applied st' = applied st ++ map row_envelope rows /\
    upToCursor v' = Some (client_cursor u) /\
    afterCursor v' = match last rows with
      | Some r => Some (client_cursor (cursorForRecord s r)) | None => afterCursor v end.
Proof.
  intros (Hu & Hup & total & Ht & Hpost) rows. unfold pull_page, changesPage, post.
  unfold mbind, ST_bind. rewrite Hpost. fold rows. unfold lift_result.
  rewrite (read_response s row_envelope rows_serialized e reader) by
    (try done; intros r Hr; by eapply (window_sound _ _ history), page_rows_sound).
  set (st1 := {| local := local st; requests := S (requests st); applied := applied st;
    progress := progress st |}). cbn [page_syncs page_of].
  set (v1 := with_bound (page_of s row_envelope rows total u) v).
  assert (upToCursor v1 = Some (client_cursor u)) as Hv1 by (cbn; by destruct Hup as [-> | ->]).
  destruct rows as [|r rows'] eqn:E.
  - cbn [map]. destruct (onProgress_runs v1 st1) as (st2 & Ho & Hr2 & Ha2).
    destruct (pages v1 =? 0).
    + rewrite Ho. exists v1, st2. split; [done|]. rewrite Hr2, Ha2. cbn. by rewrite app_nil_r.
    + exists v1, st1. split; [done|]. cbn. by rewrite app_nil_r.
  - cbn [map]. change (row_envelope r :: map row_envelope rows') with (map row_envelope (r :: rows')).
    destruct (apply_page_runs (r :: rows') (next_page v1) st1) as (v2 & st2 & Hrun & Hr2 & Ha2 & Hc2 & Hu2).
    rewrite Hrun.
    set (v3 := with_cursor (page_nextCursor (page_of s row_envelope (r :: rows') total u)) v2).
    destruct (onProgress_runs v3 st2) as (st3 & -> & Hr3 & Ha3).
    exists v3, st3. rewrite length_map. split; [done|]. rewrite Hr3, Ha3, Hr2, Ha2. cbn [requests applied st1].
    split; [done|]. split; [done|]. split; [cbn; by rewrite Hu2|].
    cbn [afterCursor v3 with_cursor page_nextCursor page_of].
    destruct (last (r :: rows')) eqn:El; [done|]. by apply last_None in El.
Qed.

Lemma page_rows_nil n a upTo : page_rows s e (tables n) a upTo = [] -> window s (tables n) a upTo = [].
Proof.
  unfold page_rows. intros H. pose proof (merge_sort_Permutation (ascending s) (window s (tables n) a upTo)) as Hp.
  destruct (merge_sort _ _) as [|x l]; [by apply Permutation_nil_l in Hp|].
  destruct (Z.to_nat limit) eqn:E; [lia|done].
Qed.

Lemma page_rows_rising n a upTo : rising (row_sequence s) (page_rows s e (tables n) a upTo).
Proof.
  assert (rising (row_sequence s) (merge_sort (ascending s) (window s (tables n) a upTo))) as Hs
    by (by apply rising_sort, (window_unique _ _ history)).
  rewrite <- (take_drop (Z.to_nat limit) _) in Hs. by apply rising_app in Hs as [? _].
Qed.

(** What a page leaves out is after its last row. *)
Lemma page_rows_complete n a upTo r : r ∈ window s (tables n) a upTo ->
  Z.of_nat (length (page_rows s e (tables n) a upTo)) < limit \/
    (exists x, last (page_rows s e (tables n) a upTo) = Some x /\ row_sequence s r <= row_sequence s x) ->
  r ∈ page_rows s e (tables n) a upTo.
Proof.
  unfold page_rows. intros Hr Hcase. set (l := merge_sort _ _) in *.
  assert (r ∈ l) as Hl by (unfold l; by rewrite merge_sort_Permutation).
  destruct Hcase as [Hlen|(x & Hx & Hle)].
  - rewrite firstn_all2; [done|]. rewrite length_take in Hlen. lia.
  - apply (rising_page (row_sequence s) _ _ x); [|done|done|done].
    by apply rising_sort, (window_unique _ _ history).
Qed.

Lemma table_positive n : positive s (tables n).
Proof. intros r Hr. by apply (sequences_positive _ _ history) in Hr as [? _]. Qed.

Lemma stands_last rows a c : (forall r, r ∈ rows -> sound_cursor (cursorForRecord s r)) -> stands c a ->
  stands (match last rows with Some r => Some (client_cursor (cursorForRecord s r)) | None => c end)
    (match last rows with Some r => row_sequence s r | None => a end).
Proof.
  intros Hrows Hc. destruct (last rows) as [r|] eqn:E; [|done]. right. exists (cursorForRecord s r).
  split_and!; [done| |done]. apply Hrows. apply last_Some in E as [l ->]. apply elem_of_app. right. by left.
Qed.

(** What a run of the loop has applied: the rows after [a] up to [upTo], in order, but
    for those that were not in the table when the rows of one of its pages were read. *)
Record delivered (a upTo : Z) (before after : nat) (rs : list R) : Prop := {
  delivered_rising : rising (row_sequence s) rs;
  delivered_rows : forall r, r ∈ rs -> a < row_sequence s r <= upTo /\ in_scope s r = true /\
    exists k, (before <= k < after)%nat /\ r ∈ tables (3 * k + 2)%nat;
  delivered_all : forall r, (forall k, (before <= k < after)%nat -> r ∈ tables (3 * k + 2)%nat) ->
    in_scope s r = true -> a < row_sequence s r <= upTo -> r ∈ rs
}.

Lemma delivered_page n a upTo :
  let rows := page_rows s e (tables (3 * n + 2)%nat) a upTo in
  rows = [] \/ Z.of_nat (length rows) < limit -> delivered a upTo n (S n) rows.
Proof.
  intros rows Hend. split; [apply page_rows_rising| |].
  - intros r Hr%page_rows_sound. apply elem_of_window in Hr as (Hr & Hs & Hb). split_and!; try done; [lia..|].
    exists n. split; [lia|done].
  - intros r Hr Hs Hb. assert (r ∈ window s (tables (3 * n + 2)%nat) a upTo) as Hw
      by (apply elem_of_window; split_and!; [apply Hr; lia|done|lia..]).
    destruct Hend as [Hnil|Hlen]; [|by apply page_rows_complete; auto].
    unfold rows in Hnil. rewrite (page_rows_nil _ _ _ Hnil) in Hw. by apply elem_of_nil in Hw.
Qed.

Lemma delivered_app n n' a upTo rs x : (n < n')%nat ->
  let rows := page_rows s e (tables (3 * n + 2)%nat) a upTo in last rows = Some x ->
  delivered (row_sequence s x) upTo (S n) n' rs -> delivered a upTo n n' (rows ++ rs).
Proof.
  intros Hn rows Hlast [D1 D2 D3].
  assert (forall r, r ∈ rows -> r ∈ tables (3 * n + 2)%nat /\ in_scope s r = true /\
    a < row_sequence s r <= upTo) as Hrows by (by intros r ?%page_rows_sound%elem_of_window).
  assert (x ∈ rows) as Hx by (apply last_Some in Hlast as [l ->]; apply elem_of_app; right; by left).
  pose proof (Hrows x Hx) as (_ & _ & Hxb). split.
  - apply rising_app. split_and!; [apply page_rows_rising|done|]. intros b c Hb Hc.
    pose proof (rising_last _ _ _ (page_rows_rising _ _ _) Hlast b Hb). destruct (D2 c Hc) as [? _]. lia.
  - intros r [Hr|Hr]%elem_of_app.
    + destruct (Hrows r Hr) as (H1 & H2 & H3). split_and!; try done; [lia..|].
      exists n. split; [lia|done].
    + destruct (D2 r Hr) as (H1 & H2 & k & Hk & H3). split_and!; try done; [lia..|].
      exists k. split; [lia|done].
  - intros r Hr Hs Hb. apply elem_of_app.
    destruct (Z.le_gt_cases (row_sequence s r) (row_sequence s x)); [left|right].
    + apply page_rows_complete; [|right; by exists x]. apply elem_of_window.
      split_and!; [apply Hr; lia|done|lia..].
    + apply D3; [|done|lia]. intros k Hk. apply Hr. lia.
Qed.

Lemma answered_next v n a u : stands (afterCursor v) a -> upToCursor v = Some (client_cursor u) ->
  sound_cursor u -> answered v n a u.
Proof.
  intros Ha Hv Hu. split; [done|]. split; [by right|]. eexists. split; cycle 1.
  - rewrite serves, Hv. unfold served.
    rewrite (changes_next s e limit_fits limit_safe _ a); [reflexivity|done|done|apply table_positive..].
  - pose proof (tables_small _ _ history (3 * n + 1)%nat). split; [lia|].
    unfold window, scopedQuery. eapply Z.le_lt_trans; [|done]. apply inj_le.
    etrans; apply filter_length_le.
Qed.

Lemma pull_pages_runs fuel : forall v st a u, stands (afterCursor v) a -> answered v (requests st) a u ->
  (0 < fuel)%nat -> feed_cursor_sequence u - a < Z.of_nat fuel ->
  exists v' st' rs, pull_pages e fuel v st = (Ok v', st') /\ (requests st < requests st')%nat /\
    applied st' = applied st ++ map row_envelope rs /\
    delivered a (feed_cursor_sequence u) (requests st) (requests st') rs /\
    stands (afterCursor v') (match last rs with Some r => row_sequence s r | None => a end).
Proof.
  induction fuel as [|fuel IH]; intros v st a u Ha Hans Hpos Hfuel; [lia|].
  destruct (pull_page_runs v st a u Hans) as (v1 & st1 & Hrun & Hreq & Happ & Hu1 & Hc1).
  set (rows := page_rows s e (tables (3 * requests st + 2)%nat) a (feed_cursor_sequence u)) in *.
  assert (stands (afterCursor v1) (match last rows with Some r => row_sequence s r | None => a end)) as Ha1.
  { rewrite Hc1. apply stands_last; [|done]. intros r Hr. by eapply (window_sound _ _ history), page_rows_sound. }
  cbn [pull_pages]. unfold mbind, ST_bind. rewrite Hrun. cbn [fst snd].
  destruct (if decide (rows = []) then true else _) eqn:Hdone.
  - exists v1, st1, rows. split; [done|]. rewrite Hreq. split; [lia|]. split; [done|]. split; [|done].
    apply delivered_page. case_decide; [by left|right]. by apply Z.ltb_lt.
  - case_decide as Hne; [done|]. destruct (last rows) as [x|] eqn:Hx; [|by apply last_None in Hx].
    assert (x ∈ window s (tables (3 * requests st + 2)%nat) a (feed_cursor_sequence u)) as Hxw.
    { apply page_rows_sound. apply last_Some in Hx as [l Hl]. fold rows. rewrite Hl. apply elem_of_app. right. by left. }
    destruct (IH v1 st1 (row_sequence s x) u) as (v' & st' & rs & H1 & H2 & H3 & H4 & H5).
    + done.
    + apply answered_next; [done|done|by destruct Hans].
    + apply elem_of_window in Hxw as (_ & _ & Hb). lia.
    + apply elem_of_window in Hxw as (_ & _ & Hb). lia.
    + exists v', st', (rows ++ rs). split; [done|]. split; [lia|]. split.
      { by rewrite H3, Happ, map_app, (assoc_L (++)). }
      rewrite Hreq in H4. split; [eapply delivered_app; [lia|done|done]|].
      rewrite last_app. destruct (last rs); [done|]. by rewrite Hx.
Qed.
End loop.

(** ** A whole pull *)

Lemma cursor_roundtrip optionalInteger k : integer_reader optionalInteger -> sound_cursor k ->
  syncCursorFromPayload optionalInteger (Some (JStr (stringify (cursor_object (client_cursor k))))) =
  Ok (Some (client_cursor k)).
Proof.
  intros Hread [Hk Ht]. set (v := cursor_object (client_cursor k)).
  assert (parse (stringify v) = Some v) as Hparse.
  { apply parse_stringify.
    - constructor. repeat constructor; cbn. apply decimal_literal. lia.
    - constructor; [|by repeat constructor]. cbn.
      split; [|split; [|split; [|done]]]; intros kv Hkv; rewrite ?elem_of_cons, ?elem_of_nil in Hkv;
        destruct_or? Hkv; subst; done. }
  assert (exists c t, stringify v = String c t) as (c & t & Htext) by (by eexists _, _).
  unfold syncCursorFromPayload. rewrite Htext in *. cbn [String.length cursor_from is_falsy].
  rewrite Hparse. assert (cursor_from optionalInteger (String.length t) v = Ok (Some (client_cursor k))) as ->; [|done].
  destruct (String.length t); cbn [v cursor_object cursor_from is_falsy];
    (unfold cursor_of_object;
     change (obj_get "updatedAt" _) with (Some (JStr (feed_cursor_updatedAt k)));
     change (obj_get "id" _) with (Some (JStr (feed_cursor_id k)));
     change (obj_get "serverSequence" _) with (Some (JNum (decimal_text (feed_cursor_sequence k))));
     destruct k as [i m [|c' t']]; [done|]; cbn in Hk |- *;
     by rewrite (reads_integer _ Hread) by lia).
Qed.

(** The stored cursor stands at [a]. *)
Definition stored_at {A} (optionalInteger : option json -> pulled (option Z)) (key : string)
    (l : cursor_store A) (a : Z) : Prop :=
  exists c, syncCursorFromPayload optionalInteger (JStr <$> cursor_values l !! key) = Ok c /\ stands c a.

Lemma on_records_applies {A} (apply : envelope -> ST A pull_error apply_result) :
  (forall sync a, exists r a', apply sync a = (Ok r, a')) ->
  forall sync (l : cursor_store A), exists r l', on_records (apply sync) l = (Ok r, l').
Proof.
  intros H sync l. destruct (H sync (records l)) as (r & a & Hr). unfold on_records. rewrite Hr. eauto.
Qed.

Section whole.
Context {R : Type} (s : service R) (row_envelope : R -> envelope).
Context (rows_serialized : forall r, serializeRecord s r = JObj (row_envelope r)).
Context (readable : forall r, exists t, resourceType (row_envelope r) = Ok t).
Context {L : Type} (e : pull_env L) (reader : integer_reader (optionalInteger e)).
Abbreviation limit := (normalizedBatchSize (batchSize e)).
Context (limit_fits : 1 <= limit <= maxLimit s) (limit_safe : limit < 2 ^ 53).
Context (tables : nat -> list R) (history : feed_history s tables).
Context (serves : forall n request, postChanges e n request = served s tables n request).
Context (applies : forall sync l, exists r l', applySync e sync l = (Ok r, l')).

(** An empty feed answers with no bound. *)
Lemma pull_page_empty v st a : stands (afterCursor v) a -> upToCursor v = None ->
  scopedQuery s (tables (3 * requests st)%nat) = [] ->
  exists v' st', pull_page e v st = (Ok (v', true), st') /\ requests st' = S (requests st) /\
    applied st' = applied st /\ afterCursor v' = afterCursor v.
Proof.
  intros Ha Hu Hempty. unfold pull_page, changesPage, post, mbind, ST_bind. rewrite serves, Hu. unfold served.
  rewrite (changes_first s e limit_fits limit_safe _ a) by
    (try done; by eapply table_positive). rewrite Hempty. cbn [first_by merge_sort].
  change (first_by (descending s) []) with (@None R). cbn iota. unfold lift_result.
  set (empty := JObj _). assert (read_page e empty = Ok {| page_nextCursor := None; page_syncs := [];
    page_total := Some 0; page_upToCursor := None |}) as ->.
  { unfold read_page, empty. change (ensureSuccessfulChangesResponse _) with (Ok [] : pulled (list json)).
    cbn [mbind result_bind]. unfold response_property.
    change (obj_get "nextCursor" _) with (Some JNull). change (obj_get "upToCursor" _) with (Some JNull).
    change (obj_get "total" _) with (Some (JNum (decimal_text 0))). cbn [mbind result_bind].
    change (syncCursorFromPayload _ _) with (Ok None : pulled (option sync_cursor)). cbn [mbind result_bind envelopes].
    by rewrite (reads_integer _ reader) by lia. }
  cbn [page_syncs]. set (v1 := with_bound _ v). set (st1 := {| local := local st; requests := S (requests st); applied := applied st;
    progress := progress st |}).
  destruct (pages v1 =? 0).
  - destruct (onProgress_runs e v1 st1) as (st2 & -> & Hr & Hap). exists v1, st2. rewrite Hr, Hap. done.
  - by exists v1, st1.
Qed.

Lemma pull_pages_whole fuel v st a : stands (afterCursor v) a -> upToCursor v = None ->
  (0 < fuel)%nat -> (forall r, r ∈ tables (3 * requests st)%nat -> row_sequence s r - a < Z.of_nat fuel) ->
  exists v' st' rs upTo, pull_pages e fuel v st = (Ok v', st') /\ (requests st < requests st')%nat /\
    applied st' = applied st ++ map row_envelope rs /\
    delivered s tables a upTo (requests st) (requests st') rs /\
    stands (afterCursor v') (match last rs with Some r => row_sequence s r | None => a end) /\
    forall r, r ∈ tables (3 * requests st)%nat -> in_scope s r = true -> row_sequence s r <= upTo.
Proof.
  intros Ha Hu Hpos Hfuel. pose proof (first_by_max (row_sequence s) (descending_dec s)
    (scopedQuery s (tables (3 * requests st)%nat))) as Hmax.
  destruct (first_by _ _) as [m|] eqn:Hfirst.
  - destruct Hmax as [Hm Hall]. assert (m ∈ tables (3 * requests st)%nat) as Hmt.
    { unfold scopedQuery in Hm. rewrite list_elem_of_In, List.filter_In, <- list_elem_of_In in Hm. tauto. }
    set (u := cursorForRecord s m).
    assert (sound_cursor u) as Hsound.
    { split; [by apply (sequences_positive _ _ history (3 * requests st)%nat)|apply toISOString_nonempty]. }
    destruct (pull_pages_runs s row_envelope rows_serialized readable e reader limit_fits limit_safe tables
      history serves applies fuel v st a u) as (v' & st' & rs & H1 & H2 & H3 & H4 & H5).
    + done.
    + split; [done|]. split; [by left|]. eexists. split; cycle 1.
      * rewrite serves, Hu. unfold served.
        rewrite (changes_first s e limit_fits limit_safe _ a) by (try done; by eapply table_positive).
        unfold descending in *. rewrite Hfirst. reflexivity.
      * pose proof (tables_small _ _ history (3 * requests st + 1)%nat). split; [lia|].
        unfold window, scopedQuery. eapply Z.le_lt_trans; [|done]. apply inj_le.
        etrans; apply filter_length_le.
    + done.
    + by apply Hfuel.
    + exists v', st', rs, (feed_cursor_sequence u). split_and!; try done. intros r Hr Hs. apply Hall.
      unfold scopedQuery. rewrite list_elem_of_In, List.filter_In, <- list_elem_of_In. done.
  - destruct fuel as [|fuel]; [lia|].
    destruct (pull_page_empty v st a Ha Hu Hmax) as (v' & st' & Hrun & Hr & Hap & Hc).
    exists v', st', [], 0. cbn [pull_pages]. unfold mbind, ST_bind. rewrite Hrun. cbn [fst snd].
    split; [done|]. split; [lia|]. split; [by rewrite Hap, app_nil_r|].
    assert (forall r, r ∈ tables (3 * requests st)%nat -> in_scope s r = true -> False) as Hno.
    { intros r Hin Hs. assert (r ∈ scopedQuery s (tables (3 * requests st)%nat)) as Hx.
      { unfold scopedQuery. by rewrite list_elem_of_In, List.filter_In, <- list_elem_of_In. }
      rewrite Hmax in Hx. by apply elem_of_nil in Hx. }
    split; [|split; [by rewrite Hc|intros; exfalso; eauto]].
    split; [constructor|by intros r ?%elem_of_nil|].
    intros r _ _ Hb. destruct Ha as [[_ ->]|(k & _ & [Hk _] & ->)]; lia.
Qed.
End whole.

(** Applying rows leaves the cursor alone. *)
Lemma pull_pages_keeps {L} (e : pull_env L) (P : L -> Prop) fuel v :
  (forall sync, preserves P (applySync e sync)) -> preserves (fun st => P (local st)) (pull_pages e fuel v).
Proof.
  intros Happ. assert (forall v, preserves (fun st => P (local st)) (onProgress e v)) as Hprog.
  { intros w st Hst. unfold onProgress. by destruct (has_onProgress e). }
  assert (forall syncs w, preserves (fun st => P (local st)) (apply_page e syncs w)) as Hpage.
  { induction syncs as [|sync syncs IH]; intros w; cbn [apply_page]; [auto with preserves|].
    apply preserves_bind.
    - intros st Hst. specialize (Happ sync (local st) Hst). unfold on_local. by destruct (applySync e sync (local st)).
    - intros r. apply preserves_bind; [by intros st Hst|]. intros _. apply preserves_bind; [apply preserves_lift|auto]. }
  revert v. induction fuel as [|fuel IH]; intros v; cbn [pull_pages]; [apply preserves_throw|].
  apply preserves_bind; [|intros p; apply preserves_if; [apply preserves_ret|apply IH]].
  unfold pull_page. apply preserves_bind.
  - unfold changesPage. apply preserves_bind; [by intros st Hst|]. intros. apply preserves_lift.
  - intros p. destruct (page_syncs p); (apply preserves_bind; [|intros; first [apply preserves_ret|
      apply preserves_bind; [apply Hprog|intros; apply preserves_ret]]]).
    + apply preserves_if; [apply Hprog|apply preserves_ret].
    + apply Hpage.
Qed.

(** What a pull from the cursor [c0] has done, when it made [n] requests, applied the
    rows [rs] and stored the cursor [c1]; request [k] selects its rows from the table
    [3 * k + 2]. A row the client has not been given although the cursor has passed it
    was not in the table when the rows of one of the pages were selected. *)
Record misses_nothing {R} (s : service R) (tables : nat -> list R) (n : nat) (c0 c1 : Z) (rs : list R) : Prop := {
  applied_in_order : rising (row_sequence s) rs;
  applied_beyond_cursor : forall r, r ∈ rs -> c0 < row_sequence s r <= c1 /\ in_scope s r = true /\
    exists k, (k < n)%nat /\ r ∈ tables (3 * k + 2)%nat;
  applied_all : forall r, r ∈ tables O -> (forall k, (k < n)%nat -> r ∈ tables (3 * k + 2)%nat) ->
    in_scope s r = true -> c0 < row_sequence s r -> r ∈ rs;
  cursor_covers : forall r, in_scope s r = true -> c0 < row_sequence s r <= c1 -> r ∉ rs ->
    ~ forall k, (k < n)%nat -> r ∈ tables (3 * k + 2)%nat;
  cursor_forward : c0 <= c1
}.

Lemma pull_complete {R A} (s : service R) (row_envelope : R -> envelope) tables
    token key size apply read_integer (l : cursor_store A) c0 fuel :
  (forall r, serializeRecord s r = JObj (row_envelope r)) ->
  (forall r, exists t, resourceType (row_envelope r) = Ok t) ->
  feed_history s tables -> integer_reader read_integer ->
  1 <= normalizedBatchSize size <= maxLimit s -> normalizedBatchSize size < 2 ^ 53 ->
  (forall sync a, exists r a', apply sync a = (Ok r, a')) ->
  stored_at read_integer key l c0 ->
  (0 < fuel)%nat -> (forall r, r ∈ tables O -> row_sequence s r - c0 < Z.of_nat fuel) ->
  exists result st rs c1,
    pullChangesWithCursor token key size (served s tables) apply read_integer fuel
      {| local := l; requests := 0; applied := []; progress := [] |} = (Ok result, st) /\
    applied st = map row_envelope rs /\ stored_at read_integer key (local st) c1 /\
    misses_nothing s tables (requests st) c0 c1 rs.
Proof.
  intros Hser Hread Hist Hint Hfit Hsafe Happ (c & Hload & Hc) Hpos Hfuel.
  set (e := {| authenticationToken := token; batchSize := size; postChanges := served s tables;
    applySync := fun sync => on_records (apply sync); loadCursor := loadSyncCursor key;
    saveCursor := saveSyncCursor key; optionalInteger := read_integer; has_onProgress := false |}).
  set (st0 := {| local := l; requests := 0; applied := []; progress := [] |}).
  destruct (pull_pages_whole s row_envelope Hser Hread e Hint Hfit Hsafe tables Hist
    (fun _ _ => eq_refl) (on_records_applies apply Happ) fuel (initial_result c) st0 c0 Hc eq_refl Hpos Hfuel)
    as (v & st & rs & upTo & Hrun & Hreq & Hap & [D1 D2 D3] & Hst & Hup).
  set (c1 := match last rs with Some r => row_sequence s r | None => c0 end) in *.
  assert (forall r, r ∈ rs -> row_sequence s r <= c1) as Hle.
  { intros r Hr. unfold c1. destruct (last rs) as [x|] eqn:Hx; [by eapply rising_last|].
    apply last_None in Hx. subst. by apply elem_of_nil in Hr. }
  assert (c1 <= upTo \/ rs = [] /\ c1 = c0) as Hc1.
  { unfold c1. destruct (last rs) as [x|] eqn:Hx; [left|right; by apply last_None in Hx].
    apply last_Some in Hx as [l' ->]. apply D2. apply elem_of_app. right. by left. }
  assert (c0 <= c1) as Hc01.
  { destruct Hc1 as [_|[_ ->]]; [|done]. unfold c1. destruct (last rs) as [x|] eqn:Hx; [|done].
    apply last_Some in Hx as [l' ->]. destruct (D2 x) as [? _]; [apply elem_of_app; right; by left|lia]. }
  unfold pullChangesWithCursor, pullChanges. fold e.
  pose proof (pull_pages_keeps e (fun m => cursor_values m = cursor_values l) fuel (initial_result c)) as Hkeep.
  assert (cursor_values (local st) = cursor_values l) as Hvalues.
  { assert (forall sync, preserves (fun m => cursor_values m = cursor_values l) (applySync e sync)) as Ha.
    { intros sync m Hm. cbn. unfold on_records. by destruct (apply sync (records m)). }
    specialize (Hkeep Ha st0 eq_refl). by rewrite Hrun in Hkeep. }
  assert (exists st', pullChanges e fuel st0 = (Ok v, st') /\ requests st' = requests st /\
    applied st' = applied st /\ stored_at read_integer key (local st') c1) as (st' & Hpull & Hr' & Ha' & Hs').
  { assert (on_local (loadCursor e) st0 = (Ok (JStr <$> cursor_values l !! key), st0)) as Hl by reflexivity.
    unfold pullChanges, mbind, ST_bind. rewrite Hl. unfold lift_result.
    change (SyncPull.optionalInteger e) with read_integer. rewrite Hload, Hrun.
    destruct Hst as [[Ha Hz]|(k & Ha & Hk & Hz)]; rewrite Ha.
    - exists st. split_and!; try done. exists c. rewrite Hvalues. split; [done|].
      destruct Hc as [[-> H0]|(k & -> & [Hk _] & Hkc)]; [by left; rewrite Hz|lia].
    - eexists. split; [done|]. cbn. split_and!; try done. exists (Some (client_cursor k)). cbn.
      rewrite lookup_insert_eq. split; [by apply cursor_roundtrip|]. right. by exists k. }
  exists v, st', rs, c1. rewrite Hr', Ha', Hap. cbn in Hreq. split; [done|].
  split_and!; [done..|]. split; [done|..].
  - intros r Hr. destruct (D2 r Hr) as (H1 & H2 & k & H3 & H4). specialize (Hle r Hr).
    split_and!; [lia|lia|done|]. exists k. split; [lia|done].
  - intros r H0 H1 H2 H3. apply D3; [|done|]; [intros k Hk; apply H1; lia|]. specialize (Hup r H0 H2). lia.
  - intros r H1 H2 H3 H4. apply H3, D3; [|done|]; [intros k Hk; apply H4; lia|].
    destruct Hc1 as [Hc1|[_ Hc1]]; lia.
  - done.
Qed.

(** C23: a pull, while the table changes under it in any way. A client whose stored
    cursor stands at [c0] pulls with any batch size up to the server's limit. The pull
    returns. It has applied visible rows in strictly ascending sequence, each beyond
    [c0], up to the cursor [c1] it stores, and in the table when its page was selected:
    among them every visible row beyond [c0] that was there when the pull began and
    whenever a page was selected. And a visible row between [c0] and [c1] that has not
    been applied, which no later pull brings, was not in the table when one of the pages
    was selected: it was deleted or changed meanwhile, or its transaction was still open
    ([late_commit_is_missed]). *)
Theorem pull_misses_nothing {R A} (s : service R) (row_envelope : R -> envelope) tables
    token key size apply read_integer (l : cursor_store A) c0 fuel :
  (forall r, serializeRecord s r = JObj (row_envelope r)) ->
  (forall r, exists t, resourceType (row_envelope r) = Ok t) ->
  feed_history s tables -> integer_reader read_integer ->
  1 <= normalizedBatchSize size <= maxLimit s -> normalizedBatchSize size < 2 ^ 53 ->
  (forall sync a, exists r a', apply sync a = (Ok r, a')) ->
  stored_at read_integer key l c0 ->
  (0 < fuel)%nat -> (forall r, r ∈ tables O -> row_sequence s r - c0 < Z.of_nat fuel) ->
  exists result st rs c1,
    pullChangesWithCursor token key size (served s tables) apply read_integer fuel
      {| local := l; requests := 0; applied := []; progress := [] |} = (Ok result, st) /\
    applied st = map row_envelope rs /\ stored_at read_integer key (local st) c1 /\
    misses_nothing s tables (requests st) c0 c1 rs.
Proof. apply pull_complete. Qed.

(** ** A client and a feed of three rows

    The second row changes, and moves behind the third, after the first page. *)

Record demo_row := { demo_id : string; demo_sequence : Z }.

Definition demo_envelope (r : demo_row) : envelope :=
  [("id", JStr (demo_id r)); ("resourceType", JStr "Task")].

Definition demo_service (pageLimit : Z) : service demo_row := {|
  defaultLimit := 1000; maxLimit := pageLimit; row_id := demo_id; row_sequence := demo_sequence;
  row_updatedAt _ := 0; in_scope _ := true; serializeRecord r := JObj (demo_envelope r);
  updated_after _ _ := false; updated_equal _ _ := true; id_after _ _ := false |}.

Definition demo_row_of (id : string) (n : Z) : demo_row := {| demo_id := id; demo_sequence := n |}.

Definition demo_before : list demo_row := [demo_row_of "a" 1; demo_row_of "b" 2; demo_row_of "c" 3].
Definition demo_after : list demo_row := [demo_row_of "a" 1; demo_row_of "b" 4; demo_row_of "c" 3].

Definition demo_tables (n : nat) : list demo_row := if decide (n < 4)%nat then demo_before else demo_after.

Definition demo_integer (v : option json) : pulled (option Z) :=
  match v with Some (JNum t) => Ok (Number_integer t) | _ => Ok None end.

Definition demo_apply (sync : envelope) : ST nat pull_error apply_result := fun n =>
  (Ok {| apply_changed := true; apply_resourceType := None |}, S n).

Definition demo_store : cursor_store nat := {| cursor_values := ∅; records := O |}.

Lemma demo_history pageLimit : feed_history (demo_service pageLimit) demo_tables.
Proof.
  assert (forall r, r ∈ demo_before -> 0 < demo_sequence r <= 3) as Hb.
  { intros r. unfold demo_before. rewrite !elem_of_cons, elem_of_nil. intros Hr. destruct_or? Hr; subst; cbn; lia. }
  assert (forall r, r ∈ demo_after -> 0 < demo_sequence r <= 4) as Ha.
  { intros r. unfold demo_after. rewrite !elem_of_cons, elem_of_nil. intros Hr. destruct_or? Hr; subst; cbn; lia. }
  split; cbn; unfold demo_tables.
  - intros n. case_decide; cbn; rewrite !NoDup_cons, !elem_of_cons, !elem_of_nil;
      (split_and!; [lia..|constructor]).
  - intros n r Hr. case_decide; [apply Hb in Hr|apply Ha in Hr]; lia.
  - intros n. case_decide; cbn; lia.
Qed.

Lemma demo_integer_reader : integer_reader demo_integer.
Proof. split; [done|]. intros n Hn. unfold demo_integer. by rewrite Number_integer_decimal. Qed.

Lemma pull_misses_nothing_witness : exists result st rs,
  pullChangesWithCursor "t" "cursor" (of_Z 1) (served (demo_service 1000) demo_tables) demo_apply demo_integer 4
    {| local := demo_store; requests := 0; applied := []; progress := [] |} = (Ok result, st) /\
  applied st = map demo_envelope rs /\ rising demo_sequence rs /\ demo_row_of "c" 3 ∈ rs.
Proof.
  destruct (pull_misses_nothing (demo_service 1000) demo_envelope demo_tables "t" "cursor"
    (of_Z 1) demo_apply demo_integer demo_store 0 4) as (result & st & rs & c1 & Hrun & Ha & _ & [Hr _ Hall _ _]).
  - done.
  - intros r. by exists (Some "Task").
  - apply demo_history.
  - apply demo_integer_reader.
  - vm_compute. split; discriminate.
  - vm_compute. done.
  - intros sync a. by eexists _, _.
  - exists None. split; [done|by left].
  - lia.
  - intros r Hd. change (demo_tables O) with demo_before in Hd. unfold demo_before in Hd.
    rewrite !elem_of_cons, elem_of_nil in Hd. destruct_or? Hd; subst; cbn; lia.
  - exists result, st, rs. split; [exact Hrun|]. split; [exact Ha|]. split; [exact Hr|].
    assert (requests st = 3%nat) as Hreq.
    { apply (f_equal snd) in Hrun. cbn [snd] in Hrun. rewrite <- Hrun. vm_compute. reflexivity. }
    apply Hall; [right; right; by left| |done|cbn; lia]. intros k _. unfold demo_tables.
    case_decide; right; right; by left.
Defined.

(** A batch larger than the server's page is taken for the last one: the pull stops
    with rows left, although the server reports three. *)
Example large_batch_stops_early :
  let run := pullChangesWithCursor "t" "cursor" (of_Z 5) (served (demo_service 2) (fun _ => demo_before))
    demo_apply demo_integer 10 {| local := demo_store; requests := 0; applied := []; progress := [] |} in
  length (applied run.2) = 2%nat /\ exists result, run.1 = Ok result /\ total result = 3.
Proof. split; [vm_compute; reflexivity|]. eexists. split; vm_compute; reflexivity. Qed.

(** Sequences are allocated inside the transaction that writes the row. When the
    transaction with sequence 1 commits after a reader has seen sequence 2, the stored
    cursor stands beyond it, and no later pull brings the row. *)
Example late_commit_is_missed :
  let pull (table : list demo_row) (l : cursor_store nat) :=
    pullChangesWithCursor "t" "cursor" (of_Z 5) (served (demo_service 1000) (fun _ => table))
      demo_apply demo_integer 10 {| local := l; requests := 0; applied := []; progress := [] |} in
  let first := pull [demo_row_of "b" 2] demo_store in
  let later := pull [demo_row_of "a" 1; demo_row_of "b" 2] (local first.2) in
  applied first.2 = [demo_envelope (demo_row_of "b" 2)] /\ is_Ok later.1 = true /\ applied later.2 = [].
Proof. vm_compute. done. Qed.
