(* ===== verification/Cron.v ===== *)
(** * Cron schedules ([src/src/background-jobs/cron-expression.js])

    The parser of five-field cron expressions and the search for the next
    matching minute. A [Date] is the local wall-clock time value, in
    milliseconds: the getters and setters the search uses act on that value, so
    that the model is exact in a zone whose offset does not change between the
    reference date and the match. *)

From stdpp Require Import base gmap strings list.
From Stdlib Require Import ZArith Ascii Lia.
From S2P Require Import Prelude Numbers Dates.
Open Scope Z_scope.

(** ** Expressions *)

Inductive cron_field := MinuteField | HourField | DayOfMonthField | MonthField | DayOfWeekField.

#[export] Instance cron_field_eq_dec : EqDecision cron_field.
Proof. solve_decision. Defined.

(** The errors thrown; the field names what the message names. *)
Inductive cron_error :=
| InvalidExpression
| WrongFieldCount (got : nat)
| InvalidField (f : cron_field)
| OutOfRange (f : cron_field) (value : Z)
| InvalidStep (f : cron_field) (value : string)
| RangeReversed (f : cron_field) (first last : Z)
| MissingValue (f : cron_field)
| InvalidValue (f : cron_field) (value : string)
| SplitNotAFunction (* TypeError: a property of [Object.prototype] was read *)
| NeverMatches.

#[export] Instance cron_error_eq_dec : EqDecision cron_error.
Proof. solve_decision. Defined.

Record parsed_cron := {
  minute : gset Z;
  hour : gset Z;
  dayOfMonth : gset Z;
  month : gset Z;
  dayOfWeek : gset Z;
  dayOfMonthRestricted : bool;
  dayOfWeekRestricted : bool
}.

Definition MONTH_NAMES : list string :=
  ["jan"; "feb"; "mar"; "apr"; "may"; "jun"; "jul"; "aug"; "sep"; "oct"; "nov"; "dec"].
Definition DAY_NAMES : list string := ["sun"; "mon"; "tue"; "wed"; "thu"; "fri"; "sat"].

Record field_spec := { name : cron_field; min : Z; max : Z; names : list string }.

Definition MINUTE := {| name := MinuteField; min := 0; max := 59; names := [] |}.
Definition HOUR := {| name := HourField; min := 0; max := 23; names := [] |}.
Definition DAY_OF_MONTH := {| name := DayOfMonthField; min := 1; max := 31; names := [] |}.
Definition MONTH := {| name := MonthField; min := 1; max := 12; names := MONTH_NAMES |}.
Definition DAY_OF_WEEK := {| name := DayOfWeekField; min := 0; max := 7; names := DAY_NAMES |}.

(** [SHORTCUTS[trimmed] || trimmed]: an inherited property of the object literal
    is found too, and is not a string. *)
Definition expand_shortcut (trimmed : string) : option string :=
  if decide (trimmed = "@hourly") then Some "0 * * * *"
  else if decide (trimmed = "@daily") then Some "0 0 * * *"
  else if decide (trimmed = "@midnight") then Some "0 0 * * *"
  else if decide (trimmed = "@weekly") then Some "0 0 * * 0"
  else if decide (trimmed = "@monthly") then Some "0 0 1 * *"
  else if decide (trimmed = "@yearly") then Some "0 0 1 1 *"
  else if decide (trimmed = "@annually") then Some "0 0 1 1 *"
  else if decide (trimmed = "constructor" \/ trimmed = "__proto__") then None
  else Some trimmed.

(** [s.split(c)] for a one-character separator. *)
Fixpoint split_char (c : ascii) (s : string) : list string :=
  match s with
  | EmptyString => [""]
  | String d s' =>
      if decide (d = c) then "" :: split_char c s'
      else match split_char c s' with
           | w :: ws => String d w :: ws
           | [] => [String d ""]
           end
  end.

(** [s.split(/\s+/)]: [in_run] says that the last character was a space. *)
Fixpoint split_spaces (in_run : bool) (s : string) : list string :=
  match s with
  | EmptyString => [""]
  | String d s' =>
      if is_js_space d then
        if in_run then split_spaces true s' else "" :: split_spaces true s'
      else match split_spaces false s' with
           | w :: ws => String d w :: ws
           | [] => [String d ""]
           end
  end.

(** [names.indexOf(raw)], when found. *)
Fixpoint index_of (raw : string) (l : list string) : option Z :=
  match l with
  | [] => None
  | x :: l' => if decide (x = raw) then Some 0 else Z.succ <$> index_of raw l'
  end.

Definition parseValue (rawValue : string) (spec : field_spec) : result cron_error Z :=
  if decide (rawValue = "") then Throw (MissingValue (name spec)) else
  match index_of rawValue (names spec) with
  | Some namedIndex => Ok (namedIndex + min spec)
  | None =>
      match Number_integer rawValue with
      | Some value => Ok value
      | None => Throw (InvalidValue (name spec) rawValue)
      end
  end.

Definition parseStep (value : string) (spec : field_spec) : result cron_error Z :=
  match Number_integer value with
  | Some step => if step <=? 0 then Throw (InvalidStep (name spec) value) else Ok step
  | None => Throw (InvalidStep (name spec) value)
  end.

(** The parts around the first dash, if there is one. *)
Fixpoint split_dash (s : string) : option (string * string) :=
  match s with
  | EmptyString => None
  | String "-" s' => Some ("", s')
  | String c s' => (fun p => (String c p.1, p.2)) <$> split_dash s'
  end.

Definition parseRange (rangePart : string) (spec : field_spec) (hasStep : bool) :
    result cron_error (Z * Z) :=
  if decide (rangePart = "*") then Ok (min spec, max spec) else
  match split_dash rangePart with
  | None =>
      value ← parseValue rangePart spec;
      Ok (value, if hasStep then max spec else value)
  | Some (startPart, endPart) =>
      start ← parseValue startPart spec;
      end_ ← parseValue endPart spec;
      if end_ <? start then Throw (RangeReversed (name spec) start end_) else Ok (start, end_)
  end.

(** [for (let value = start; value <= end; value += step)]: a value outside the
    field throws, so that the loop makes at most [max - min + 2] rounds. *)
Fixpoint add_values (fuel : nat) (spec : field_spec) (value end_ step : Z) (acc : gset Z) :
    result cron_error (gset Z) :=
  match fuel with
  | O => Ok acc
  | S fuel =>
      if end_ <? value then Ok acc
      else if (value <? min spec) || (max spec <? value) then Throw (OutOfRange (name spec) value)
      else add_values fuel spec (value + step) end_ step ({[ value ]} ∪ acc)
  end.

Definition rounds_of (spec : field_spec) : nat := Z.to_nat (max spec - min spec + 2).

Definition addPartValues (part : string) (spec : field_spec) (acc : gset Z) :
    result cron_error (gset Z) :=
  if decide (part = "") then Throw (InvalidField (name spec)) else
  let pieces := split_char "/" part in
  let rangePart := default "" (pieces !! 0%nat) in
  let stepPart := pieces !! 1%nat in
  step ← match stepPart with None => Ok 1 | Some s => parseStep s spec end;
  range ← parseRange rangePart spec (bool_decide (stepPart <> None));
  add_values (rounds_of spec) spec range.1 range.2 step acc.

Fixpoint add_parts (parts : list string) (spec : field_spec) (acc : gset Z) :
    result cron_error (gset Z) :=
  match parts with
  | [] => Ok acc
  | part :: parts' => acc' ← addPartValues part spec acc; add_parts parts' spec acc'
  end.

Definition parseField (field : string) (spec : field_spec) : result cron_error (gset Z) :=
  add_parts (split_char "," field) spec ∅.

Definition normalizeDayOfWeek (s : gset Z) : gset Z :=
  if decide (7 ∈ s) then {[ 0 ]} ∪ s ∖ {[ 7 ]} else s.

(** [toLowerCase] below 256. *)
Definition lower_latin1 (c : ascii) : ascii :=
  let n := N_of_ascii c in
  if ((192 <=? n) && (n <=? 222) && negb (n =? 215))%N then ascii_of_N (n + 32) else lower_ascii c.

Definition parseCronExpression (expression : scalar) : result cron_error parsed_cron :=
  match expression with
  | JsString e =>
      if decide (js_trim e = "") then Throw InvalidExpression else
      let trimmed := string_map lower_latin1 (js_trim e) in
      match expand_shortcut trimmed with
      | None => Throw SplitNotAFunction
      | Some expanded =>
          match split_spaces false expanded with
          | [minuteField; hourField; dayOfMonthField; monthField; dayOfWeekField] =>
              m ← parseField minuteField MINUTE;
              h ← parseField hourField HOUR;
              d ← parseField dayOfMonthField DAY_OF_MONTH;
              mo ← parseField monthField MONTH;
              w ← parseField dayOfWeekField DAY_OF_WEEK;
              Ok {| minute := m; hour := h; dayOfMonth := d; month := mo;
                    dayOfWeek := normalizeDayOfWeek w;
                    dayOfMonthRestricted := bool_decide (dayOfMonthField <> "*");
                    dayOfWeekRestricted := bool_decide (dayOfWeekField <> "*") |}
          | fields => Throw (WrongFieldCount (length fields))
          end
      end
  | _ => Throw InvalidExpression
  end.

(** ** Dates *)

Definition msPerMinute : Z := 60000.
Definition minutesPerDay : Z := 1440.

(** The getters, on a count of minutes. *)
Definition getMinutes (t : Z) : Z := t mod 60.
Definition getHours (t : Z) : Z := t / 60 mod 24.
Definition getDay (t : Z) : Z := (t / minutesPerDay + 4) mod 7.
Definition getDate (t : Z) : Z := DateFromDay (t / minutesPerDay).
Definition getMonth (t : Z) : Z := MonthFromDay (t / minutesPerDay).

(** ** The search *)

Definition candidateMatches (candidate : Z) (parsed : parsed_cron) : bool :=
  if negb (bool_decide (getMinutes candidate ∈ minute parsed)) then false
  else if negb (bool_decide (getHours candidate ∈ hour parsed)) then false
  else if negb (bool_decide (getMonth candidate + 1 ∈ month parsed)) then false
  else
    let dayOfMonthMatch := bool_decide (getDate candidate ∈ dayOfMonth parsed) in
    let dayOfWeekMatch := bool_decide (getDay candidate ∈ dayOfWeek parsed) in
    if dayOfMonthRestricted parsed && dayOfWeekRestricted parsed
    then dayOfMonthMatch || dayOfWeekMatch
    else if dayOfMonthRestricted parsed then dayOfMonthMatch
    else if dayOfWeekRestricted parsed then dayOfWeekMatch
    else true.

Definition MAX_NEXT_FIRE_ITERATIONS : N := 5 * 366 * 24 * 60.

(** One round of the loop: [inl] is the candidate still to try, [inr] the match. *)
Definition search_round (parsed : parsed_cron) (s : Z + Z) : Z + Z :=
  match s with
  | inl candidate => if candidateMatches candidate parsed then inr candidate else inl (candidate + 1)
  | inr found => inr found
  end.

Definition search_result (s : Z + Z) : result cron_error Z :=
  match s with
  | inr found => Ok (found * msPerMinute)
  | inl _ => Throw NeverMatches
  end.

(** [from] and the result are in milliseconds; the candidate has no seconds, so
    it is counted in minutes. *)
Definition nextCronFireDate (parsed : parsed_cron) (from : Z) : result cron_error Z :=
  let candidate := from / msPerMinute + 1 in
  search_result (N.iter MAX_NEXT_FIRE_ITERATIONS (search_round parsed) (inl candidate)).

Example parse_daily : is_Ok (parseCronExpression (JsString "@Daily")) = true /\
  is_Ok (parseCronExpression (JsString " */15 9-17 * jan,Feb mon-fri ")) = true /\
  parseCronExpression (JsString "* * *") = Throw (WrongFieldCount 3) /\
  parseCronExpression (JsString "61 * * * *") = Throw (OutOfRange MinuteField 61).
Proof. vm_compute. auto. Qed.

(** ** Steps of a field *)

Definition field_in (spec : field_spec) (s : gset Z) : Prop := forall v, v ∈ s -> min spec <= v <= max spec.

(** The values of a range with a step. *)
Definition stepped (first last step v : Z) : Prop :=
  first <= v <= last /\ (v - first) mod step = 0.

Lemma stepped_first first last step v : 0 < step ->
  stepped first last step v <-> (v = first /\ first <= last) \/ stepped (first + step) last step v.
Proof.
  intros Hs. unfold stepped. replace (v - first) with (v - (first + step) + 1 * step) by lia.
  rewrite Z.mod_add by lia. split.
  - intros [Hr Hm]. destruct (Z.eq_dec v first) as [->|Hne]; [left; lia|right].
    split; [|done]. apply Z.mod_divide in Hm as [k Hk]; [|lia].
    assert (0 <= k) by nia. nia.
  - intros [[-> Hle]|[Hr Hm]].
    + split; [lia|]. replace (first - (first + step)) with ((-1) * step) by lia. apply Z.mod_mul. lia.
    + split; [lia|done].
Qed.

Lemma add_values_spec fuel spec value end_ step acc s :
  0 < step -> (1 <= fuel)%nat -> (value <= max spec -> max spec - value + 2 <= Z.of_nat fuel) ->
  add_values fuel spec value end_ step acc = Ok s ->
  (forall v, v ∈ s <-> v ∈ acc \/ stepped value end_ step v) /\ (field_in spec acc -> field_in spec s).
Proof.
  intros Hs. revert value acc. induction fuel as [|fuel IH]; intros value acc Hf Hb H; [lia|].
  cbn [add_values] in H. destruct (Z.ltb_spec end_ value).
  - injection H as <-. split; [|done]. intros v. split; [by left|]. intros [?|[? _]]; [done|lia].
  - destruct (Z.ltb_spec value (min spec)); [done|]. destruct (Z.ltb_spec (max spec) value); [done|].
    cbn in H. apply IH in H as [Hv Hin]; [|lia|lia]. split.
    + intros v. rewrite Hv, elem_of_union, elem_of_singleton, (stepped_first value) by done. naive_solver.
    + intros Hacc. apply Hin. intros v [Hv'|Hv']%elem_of_union; [|by apply Hacc].
      apply elem_of_singleton in Hv'. lia.
Qed.

Lemma add_values_runs fuel spec value end_ step acc :
  0 < step -> min spec <= value -> end_ <= max spec ->
  exists s, add_values fuel spec value end_ step acc = Ok s.
Proof.
  intros Hs. revert value acc. induction fuel as [|fuel IH]; intros value acc Hv He; [by eexists|].
  cbn [add_values]. destruct (Z.ltb_spec end_ value); [by eexists|].
  destruct (Z.ltb_spec value (min spec)); [lia|]. destruct (Z.ltb_spec (max spec) value); [lia|].
  apply IH; lia.
Qed.

Lemma parseStep_pos s spec step : parseStep s spec = Ok step -> 0 < step.
Proof.
  unfold parseStep. destruct (Number_integer s) as [z|]; [|done].
  destruct (Z.leb_spec z 0); [done|]. by intros [= <-].
Qed.

(** What one part adds. *)
Lemma addPartValues_spec part spec acc s : min spec <= max spec + 1 ->
  addPartValues part spec acc = Ok s ->
  (exists first last step, 0 < step /\ forall v, v ∈ s <-> v ∈ acc \/ stepped first last step v) /\
  (field_in spec acc -> field_in spec s).
Proof.
  intros Hmm H. unfold addPartValues in H. case_decide; [done|].
  apply result_bind_Ok in H as (step & Hstep & H). apply result_bind_Ok in H as ([first last] & _ & H).
  assert (0 < step) as Hpos.
  { destruct (split_char "/" part !! 1%nat); [by eapply parseStep_pos|]. by injection Hstep as <-. }
  destruct (Z.ltb_spec first (min spec)) as [Hlt|Hge].
  - unfold rounds_of in H. replace (Z.to_nat (max spec - min spec + 2))
      with (S (Z.to_nat (max spec - min spec + 1))) in H by lia. cbn [add_values fst snd] in H.
    destruct (Z.ltb_spec last first) as [Hl|Hl].
    + injection H as <-. split; [|done]. exists first, last, step. split; [done|].
      intros v. split; [by left|]. intros [?|[? _]]; [done|lia].
    + destruct (Z.ltb_spec first (min spec)); [done|lia].
  - apply add_values_spec in H as [H1 H2]; unfold rounds_of; [|done|lia|cbn; lia].
    split; [|done]. by exists first, last, step.
Qed.

Lemma add_parts_in parts spec acc s : min spec <= max spec + 1 ->
  add_parts parts spec acc = Ok s -> field_in spec acc -> field_in spec s.
Proof.
  intros Hmm. revert acc. induction parts as [|part parts IH]; intros acc H; [by injection H as <-|].
  cbn [add_parts] in H. apply result_bind_Ok in H as (acc' & Ha & H). intros Hin.
  eapply IH; [done|]. by apply addPartValues_spec in Ha as [_ Ha]; [apply Ha|].
Qed.

Lemma parseField_in field spec s : min spec <= max spec + 1 ->
  parseField field spec = Ok s -> field_in spec s.
Proof. intros Hmm H. eapply add_parts_in; [done|exact H|]. by intros v ?%elem_of_empty. Qed.

(** Whatever text is parsed, the sets of a parsed expression contain only values
    of their field: minutes 0 to 59, hours 0 to 23, days 1 to 31, months 1 to 12
    and weekdays 0 to 6, Sunday being 0 also when it was written 7. *)
Lemma parseCronExpression_in_range e p : parseCronExpression e = Ok p ->
  (forall v, v ∈ minute p -> 0 <= v <= 59) /\ (forall v, v ∈ hour p -> 0 <= v <= 23) /\
  (forall v, v ∈ dayOfMonth p -> 1 <= v <= 31) /\ (forall v, v ∈ month p -> 1 <= v <= 12) /\
  (forall v, v ∈ dayOfWeek p -> 0 <= v <= 6).
Proof.
  destruct e as [| | | |e]; try done. cbn [parseCronExpression]. case_decide; [done|].
  destruct (expand_shortcut _) as [expanded|]; [|done].
  destruct (split_spaces false expanded) as [|f1 [|f2 [|f3 [|f4 [|f5 [|? ?]]]]]]; try done.
  intros Hp. repeat (apply result_bind_Ok in Hp as (? & ? & Hp)).
  repeat match goal with H : parseField _ _ = Ok _ |- _ => apply parseField_in in H; [|done] end.
  injection Hp as <-. cbn [minute hour dayOfMonth month dayOfWeek].
  split_and!; try done. rename select (field_in DAY_OF_WEEK _) into Hw.
  intros v. unfold normalizeDayOfWeek. case_decide as H7.
  - intros [Hv%elem_of_singleton|[Hv Hne%not_elem_of_singleton]%elem_of_difference]%elem_of_union; [lia|].
    specialize (Hw v Hv). cbn in Hw. lia.
  - intros Hv. specialize (Hw v Hv). cbn in Hw. destruct (Z.eq_dec v 7); [congruence|lia].
Qed.

Lemma parseCronExpression_in_range_witness :
  exists p, parseCronExpression (JsString "0 */6 1 jan-mar 5-7") = Ok p /\
    bool_decide (0 ∈ dayOfWeek p) = true /\ (forall v, v ∈ dayOfWeek p -> 0 <= v <= 6).
Proof.
  destruct (parseCronExpression (JsString "0 */6 1 jan-mar 5-7")) as [p|x] eqn:H;
    [|apply (f_equal is_Ok) in H; vm_compute in H; discriminate H].
  exists p. split; [reflexivity|]. split.
  - apply (f_equal (fun r => match r with Ok p => bool_decide (0 ∈ dayOfWeek p) | Throw _ => false end)) in H.
    rewrite <- H. vm_compute. reflexivity.
  - destruct (parseCronExpression_in_range _ p H) as (_ & _ & _ & _ & Hw). exact Hw.
Defined.

(** ** The search finds the first match *)

Lemma search_spec p n c :
  match N.iter n (search_round p) (inl c) with
  | inr t => c <= t < c + Z.of_N n /\ candidateMatches t p = true /\
      forall u, c <= u < t -> candidateMatches u p = false
  | inl c' => c' = c + Z.of_N n /\ forall u, c <= u < c + Z.of_N n -> candidateMatches u p = false
  end.
Proof.
  induction n as [|n IH] using N.peano_ind; [cbn; split; [lia|intros; lia]|].
  rewrite N.iter_succ, N2Z.inj_succ. destruct (N.iter n _ _) as [c'|t]; cbn [search_round].
  - destruct IH as [-> Hno]. destruct (candidateMatches (c + Z.of_N n) p) eqn:Hm.
    + split; [lia|done].
    + split; [lia|]. intros u Hu. destruct (Z.eq_dec u (c + Z.of_N n)) as [->|]; [done|].
      apply Hno. lia.
  - destruct IH as (Hr & Hm & Hno). split; [lia|done].
Qed.

(** [d] is the first matching minute after [g]. *)
Definition first_after (p : parsed_cron) (g d : Z) : Prop :=
  exists t, d = t * msPerMinute /\ g < d /\ candidateMatches t p = true /\
    forall u, g < u * msPerMinute < d -> candidateMatches u p = false.

Lemma next_fire_or_none p from :
  match nextCronFireDate p from with
  | Ok r => first_after p from r
  | Throw x => x = NeverMatches /\ forall u,
      from < u * msPerMinute <= from + Z.of_N MAX_NEXT_FIRE_ITERATIONS * msPerMinute ->
      candidateMatches u p = false
  end.
Proof.
  unfold nextCronFireDate. pose proof (search_spec p MAX_NEXT_FIRE_ITERATIONS (from / msPerMinute + 1)) as H.
  destruct (N.iter _ _ _) as [c'|t]; cbn [search_result]; unfold first_after, msPerMinute in *.
  - destruct H as [_ H]. split; [done|]. intros u Hu. apply H.
    set (k := Z.of_N MAX_NEXT_FIRE_ITERATIONS) in *. Z.to_euclidean_division_equations. lia.
  - destruct H as (Hr & Hm & Hno). exists t. split; [done|].
    split; [Z.to_euclidean_division_equations; lia|]. split; [done|].
    intros u Hu. apply Hno. Z.to_euclidean_division_equations. lia.
Qed.

Lemma next_fire p from r : nextCronFireDate p from = Ok r -> first_after p from r.
Proof. intros H. pose proof (next_fire_or_none p from) as Hn. by rewrite H in Hn. Qed.

(** [nextCronFireDate] returns the first matching minute strictly after the
    reference date, when there is one within five years of 366 days, and throws
    exactly when no minute of that span matches. *)
Lemma nextCronFireDate_first p from :
  match nextCronFireDate p from with
  | Ok r => first_after p from r
  | Throw x => x = NeverMatches /\ forall u,
      from < u * msPerMinute <= from + Z.of_N MAX_NEXT_FIRE_ITERATIONS * msPerMinute ->
      candidateMatches u p = false
  end.
Proof.
  apply next_fire_or_none.
Qed.

(** ** Leap days *)

(** Only a leap year has a 29th of February, the 60th day of the year. *)
Lemma leap_day day : MonthFromDay day = 1 -> DateFromDay day = 29 ->
  is_leap (YearFromDay day) = true /\ day = DayFromYear (YearFromDay day) + 59.
Proof.
  unfold DateFromDay. intros Hm Hd. rewrite Hm in Hd.
  change (nth (Z.to_nat 1) (days_before_month (is_leap (YearFromDay day))) 0) with 31 in Hd.
  pose proof (YearFromDay_spec day) as Hy. unfold MonthFromDay in Hm.
  set (n := day - DayFromYear (YearFromDay day)) in *.
  split; [|lia]. destruct (is_leap (YearFromDay day)); [done|]. exfalso.
  assert (n = 59) as Hn by lia. rewrite Hn in Hm. vm_compute in Hm. discriminate Hm.
Qed.

(** The schedule of the 29th of February, at midnight. *)
Definition leap_day_schedule : parsed_cron := {|
  minute := {[ 0 ]}; hour := {[ 0 ]}; dayOfMonth := {[ 29 ]}; month := {[ 2 ]};
  dayOfWeek := {[ 0; 1; 2; 3; 4; 5; 6 ]};
  dayOfMonthRestricted := true; dayOfWeekRestricted := false |}.

Lemma leap_day_schedule_match t : candidateMatches t leap_day_schedule = true ->
  getMonth t = 1 /\ getDate t = 29.
Proof.
  unfold candidateMatches. cbn [minute hour month dayOfMonth dayOfWeek dayOfMonthRestricted
    dayOfWeekRestricted leap_day_schedule andb].
  do 3 (case_bool_decide; cbn [negb]; [|done]). intros H2%bool_decide_eq_true.
  rewrite !elem_of_singleton in *. lia.
Qed.

Definition midnight_of (day : Z) : Z := day * minutesPerDay * msPerMinute.

(** Between two leap days the search can give up: from the 1st of March 2096, for
    [0 0 29 2 *], it throws, although the 29th of February 2104 matches: the
    five years of the search do not span the eight years around 2100. *)
Lemma leap_day_schedule_gives_up :
  parseCronExpression (JsString "0 0 29 2 *") = Ok leap_day_schedule /\
  nextCronFireDate leap_day_schedule (midnight_of (DayFromYear 2096 + 60)) = Throw NeverMatches /\
  candidateMatches ((DayFromYear 2104 + 59) * minutesPerDay) leap_day_schedule = true.
Proof.
  split; [vm_compute; reflexivity|]. split; [|vm_compute; reflexivity].
  pose proof (search_spec leap_day_schedule MAX_NEXT_FIRE_ITERATIONS
    (midnight_of (DayFromYear 2096 + 60) / msPerMinute + 1)) as H. unfold nextCronFireDate.
  destruct (N.iter _ _ _) as [c'|t]; [done|]. exfalso. destruct H as (Hr & Hm & _).
  apply leap_day_schedule_match in Hm as [Hmonth Hdate]. unfold getMonth, getDate in *.
  destruct (leap_day _ Hmonth Hdate) as [Hleap Hday].
  pose proof (YearFromDay_spec (t / minutesPerDay)) as Hy.
  set (y := YearFromDay (t / minutesPerDay)) in *. set (day := t / minutesPerDay) in *.
  assert (DayFromYear 2096 + 60 <= day < DayFromYear 2102) as Hrange.
  { change (midnight_of (DayFromYear 2096 + 60) / msPerMinute + 1) with 66356641 in Hr.
    change (Z.of_N MAX_NEXT_FIRE_ITERATIONS) with 2635200 in Hr.
    change (DayFromYear 2096 + 60) with 46081. change (DayFromYear 2102) with 48212.
    unfold day, minutesPerDay. Z.to_euclidean_division_equations. lia. }
  assert (2096 <= y <= 2101) as Hyr.
  { split.
    - destruct (Z.le_gt_cases 2096 y); [done|].
      pose proof (DayFromYear_mono (y + 1) 2096 ltac:(lia)). lia.
    - destruct (Z.le_gt_cases y 2101); [done|].
      pose proof (DayFromYear_mono 2102 y ltac:(lia)). lia. }
  assert (y = 2096 \/ y = 2097 \/ y = 2098 \/ y = 2099 \/ y = 2100 \/ y = 2101) as Hcases by lia.
  destruct Hcases as [Hc|[Hc|[Hc|[Hc|[Hc|Hc]]]]]; rewrite Hc in *; try discriminate Hleap. lia.
Qed.

(** The range check of a value is skipped when the value starts a stepped range
    beyond the field: [60/5] in the minute field is accepted, allows no minute,
    and the schedule then never fires, where [60] alone is rejected. *)
Theorem start_beyond_field_is_accepted :
  parseCronExpression (JsString "60 * * * *") = Throw (OutOfRange MinuteField 60) /\
  exists p, parseCronExpression (JsString "60/5 * * * *") = Ok p /\ minute p = ∅ /\
    forall from, nextCronFireDate p from = Throw NeverMatches.
Proof.
  split; [vm_compute; reflexivity|].
  destruct (parseCronExpression (JsString "60/5 * * * *")) as [p|x] eqn:Hp;
    [|apply (f_equal is_Ok) in Hp; vm_compute in Hp; discriminate Hp].
  exists p. split; [done|].
  assert (minute p = ∅) as Hm.
  { apply (f_equal (fun r => match r with Ok p => bool_decide (minute p = ∅) | Throw _ => false end)) in Hp.
    vm_compute in Hp. clear -Hp. symmetry in Hp. by apply bool_decide_eq_true in Hp. }
  split; [done|]. intros from.
  pose proof (search_spec p MAX_NEXT_FIRE_ITERATIONS (from / msPerMinute + 1)) as H.
  unfold nextCronFireDate. destruct (N.iter _ _ _) as [c'|t]; [done|]. destruct H as (_ & Ht & _).
  unfold candidateMatches in Ht. rewrite Hm in Ht.
  rewrite bool_decide_eq_false_2 in Ht by (apply not_elem_of_empty). done.
Qed.
