(* ===== verification/CronGrammar.v ===== *)
(** * The language of cron expressions

    The abstract syntax the comments of [src/src/background-jobs/cron-expression.js]
    describe, with the set of values it denotes and the ways it may be written
    (five fields or a shortcut, case, spaces), and the proof that the parser reads
    every such text as that set. *)

From stdpp Require Import base gmap strings list pretty.
From Stdlib Require Import ZArith Ascii Lia.
From S2P Require Import Prelude Numbers Json Cron.
Open Scope Z_scope.

(** ** Syntax *)

(** A value: a number below 100, or a name of the field, by its index. *)
Inductive atom := Num (n : nat) | Named (i : nat).

(** What precedes a step. *)
Inductive base := Any | From (a : atom) | Between (a b : atom).

(** [*], [a], [a-b], each optionally with [/step]. *)
Record part := { part_base : base; part_step : option nat }.

(** A field is a comma-separated list of parts. *)
Definition field := (part * list part)%type.

Definition numeral (n : nat) : string := pretty n.

Definition atom_text (spec : field_spec) (a : atom) : string :=
  match a with Num n => numeral n | Named i => nth i (names spec) "" end.

Definition atom_value (spec : field_spec) (a : atom) : Z :=
  match a with Num n => Z.of_nat n | Named i => Z.of_nat i + min spec end.

Definition base_text (spec : field_spec) (b : base) : string :=
  match b with
  | Any => "*"
  | From a => atom_text spec a
  | Between a b => atom_text spec a +:+ "-" +:+ atom_text spec b
  end.

Definition part_text (spec : field_spec) (p : part) : string :=
  match part_step p with
  | None => base_text spec (part_base p)
  | Some n => base_text spec (part_base p) +:+ "/" +:+ numeral n
  end.

Fixpoint join_parts (spec : field_spec) (p : part) (ps : list part) : string :=
  match ps with
  | [] => part_text spec p
  | q :: ps' => part_text spec p +:+ "," +:+ join_parts spec q ps'
  end.

Definition field_text (spec : field_spec) (f : field) : string := join_parts spec f.1 f.2.

(** ** Meaning *)

Definition atom_ok (spec : field_spec) (a : atom) : Prop :=
  match a with Num n => (n < 100)%nat | Named i => (i < length (names spec))%nat end /\
  min spec <= atom_value spec a <= max spec.

Definition base_ok (spec : field_spec) (b : base) : Prop :=
  match b with
  | Any => True
  | From a => atom_ok spec a
  | Between a b => atom_ok spec a /\ atom_ok spec b /\ atom_value spec a <= atom_value spec b
  end.

Definition part_ok (spec : field_spec) (p : part) : Prop :=
  base_ok spec (part_base p) /\ match part_step p with Some n => (0 < n < 100)%nat | None => True end.

Definition field_ok (spec : field_spec) (f : field) : Prop := Forall (part_ok spec) (f.1 :: f.2).

(** The values a part allows; [a/step] runs to the end of the field. *)
Definition part_allows (spec : field_spec) (p : part) (v : Z) : Prop :=
  let step := match part_step p with Some n => Z.of_nat n | None => 1 end in
  match part_base p with
  | Any => stepped (min spec) (max spec) step v
  | From a => stepped (atom_value spec a)
      (match part_step p with Some _ => max spec | None => atom_value spec a end) step v
  | Between a b => stepped (atom_value spec a) (atom_value spec b) step v
  end.

Definition field_allows (spec : field_spec) (f : field) (v : Z) : Prop :=
  Exists (fun p => part_allows spec p v) (f.1 :: f.2).

(** ** Characters *)

Definition lacks (d c : ascii) : bool := negb (bool_decide (c = d)).

Lemma split_char_last d s : all_chars (lacks d) s = true -> split_char d s = [s].
Proof.
  induction s as [|c s IH]; [done|]. cbn [all_chars split_char]. intros [Hc Hs]%andb_prop.
  rewrite IH by done. unfold lacks in Hc. by case_bool_decide; [|rewrite decide_False].
Qed.

Lemma split_char_app d s t : all_chars (lacks d) s = true ->
  split_char d (s +:+ String d t) = s :: split_char d t.
Proof.
  induction s as [|c s IH]; cbn [all_chars].
  - intros _. change ("" +:+ String d t) with (String d t). cbn [split_char]. by rewrite decide_True.
  - intros [Hc Hs]%andb_prop. change (String c s +:+ String d t) with (String c (s +:+ String d t)).
    cbn [split_char]. rewrite IH by done. unfold lacks in Hc. by case_bool_decide; [|rewrite decide_False].
Qed.

Lemma split_dash_none s : all_chars (lacks "-") s = true -> split_dash s = None.
Proof.
  induction s as [|c s IH]; [done|]. cbn [all_chars]. intros [Hc Hs]%andb_prop.
  specialize (IH Hs). unfold lacks in Hc. case_bool_decide as Hne; [done|].
  cbn [split_dash]. rewrite IH. destruct c as [[] [] [] [] [] [] [] []]; done.
Qed.

Lemma split_dash_app s t : all_chars (lacks "-") s = true -> split_dash (s +:+ String "-" t) = Some (s, t).
Proof.
  induction s as [|c s IH]; [done|]. cbn [all_chars]. intros [Hc Hs]%andb_prop.
  specialize (IH Hs). unfold lacks in Hc. case_bool_decide as Hne; [done|].
  change (String c s +:+ String "-" t) with (String c (s +:+ String "-" t)).
  cbn [split_dash]. rewrite IH. destruct c as [[] [] [] [] [] [] [] []]; done.
Qed.

(** The characters of values: digits and lower-case letters. *)
Definition value_char (c : ascii) : bool :=
  let n := N_of_ascii c in ((48 <=? n) && (n <=? 57) || (97 <=? n) && (n <=? 122))%N.

Lemma value_char_lacks d c : value_char d = false -> value_char c = true -> lacks d c = true.
Proof. intros Hd Hc. unfold lacks. case_bool_decide; [subst; congruence|done]. Qed.

Lemma value_text_lacks d s : value_char d = false -> all_chars value_char s = true ->
  all_chars (lacks d) s = true.
Proof. intros Hd. apply all_chars_mono. intros c. by apply value_char_lacks. Qed.

(** ** Values *)

(** The numerals below 100, checked one by one. *)
Lemma numeral_ok n : (n < 100)%nat ->
  Number_integer (numeral n) = Some (Z.of_nat n) /\ all_chars value_char (numeral n) = true /\
  numeral n <> "".
Proof.
  intros Hn.
  assert (Forall (fun n => Number_integer (numeral n) = Some (Z.of_nat n) /\
    all_chars value_char (numeral n) = true /\ numeral n <> "") (seq 0 100)) as H.
  { repeat (constructor; [split_and!; [vm_compute; reflexivity|vm_compute; reflexivity|discriminate]|]).
    constructor. }
  rewrite Forall_forall in H. apply H. apply list_elem_of_In, in_seq. lia.
Qed.

(** The fields whose names are found at their own index, and are not numerals. *)
Record spec_ok (spec : field_spec) : Prop := {
  spec_bounds : 0 <= min spec <= max spec;
  spec_names : forall i, (i < length (names spec))%nat ->
    index_of (nth i (names spec) "") (names spec) = Some (Z.of_nat i) /\
    all_chars value_char (nth i (names spec) "") = true /\ nth i (names spec) "" <> "";
  spec_numerals : forall n, (n < 100)%nat -> index_of (numeral n) (names spec) = None
}.

Lemma no_names_ok spec : names spec = [] -> 0 <= min spec <= max spec -> spec_ok spec.
Proof. intros Hn Hb. split; [done|..]; rewrite Hn; cbn; [lia|done]. Qed.

Lemma MONTH_ok : spec_ok MONTH.
Proof.
  split; [cbn; lia|..].
  - intros i Hi. cbn in Hi. do 12 (destruct i as [|i]; [vm_compute; done|]). lia.
  - intros n Hn. assert (Forall (fun n => index_of (numeral n) MONTH_NAMES = None) (seq 0 100)) as H
      by (repeat (constructor; [vm_compute; reflexivity|]); constructor).
    rewrite Forall_forall in H. apply H, list_elem_of_In, in_seq. lia.
Qed.

Lemma DAY_OF_WEEK_ok : spec_ok DAY_OF_WEEK.
Proof.
  split; [cbn; lia|..].
  - intros i Hi. cbn in Hi. do 7 (destruct i as [|i]; [vm_compute; done|]). lia.
  - intros n Hn. assert (Forall (fun n => index_of (numeral n) DAY_NAMES = None) (seq 0 100)) as H
      by (repeat (constructor; [vm_compute; reflexivity|]); constructor).
    rewrite Forall_forall in H. apply H, list_elem_of_In, in_seq. lia.
Qed.

Section field_parser.
Context (spec : field_spec) (Hspec : spec_ok spec).

Lemma atom_chars a : atom_ok spec a ->
  all_chars value_char (atom_text spec a) = true /\ atom_text spec a <> "".
Proof.
  intros [Ha _]. destruct a as [n|i]; cbn [atom_text atom_value] in *.
  - by apply numeral_ok.
  - by apply (spec_names spec Hspec).
Qed.

Lemma parseValue_atom a : atom_ok spec a -> parseValue (atom_text spec a) spec = Ok (atom_value spec a).
Proof.
  intros Ha. unfold parseValue. rewrite decide_False by by apply atom_chars.
  destruct Ha as [Ha _]. destruct a as [n|i]; cbn [atom_text atom_value] in *.
  - rewrite (spec_numerals spec Hspec) by done. destruct (numeral_ok n Ha) as [Hn _]. by rewrite Hn.
  - destruct (spec_names spec Hspec i Ha) as [-> _]. done.
Qed.

Lemma text_not_star s : all_chars value_char s = true -> s <> "*".
Proof. by intros H ->. Qed.

Definition base_range (b : base) (hasStep : bool) : Z * Z :=
  match b with
  | Any => (min spec, max spec)
  | From a => (atom_value spec a, if hasStep then max spec else atom_value spec a)
  | Between a b => (atom_value spec a, atom_value spec b)
  end.

Lemma parseRange_base b hasStep : base_ok spec b ->
  parseRange (base_text spec b) spec hasStep = Ok (base_range b hasStep).
Proof.
  intros Hb. unfold parseRange. destruct b as [|a|a b]; cbn [base_text base_range].
  - by rewrite decide_True.
  - destruct (atom_chars a Hb) as [Hc _]. rewrite decide_False by by apply text_not_star.
    rewrite split_dash_none by by apply value_text_lacks. by rewrite parseValue_atom.
  - destruct Hb as (Ha & Hb & Hle). destruct (atom_chars a Ha) as [Hc Hne].
    rewrite decide_False.
    2: { destruct (atom_text spec a) as [|c t]; [done|]. intros [= -> Ht]. by destruct t. }
    change ("-" +:+ atom_text spec b) with (String "-" (atom_text spec b)).
    rewrite split_dash_app by by apply value_text_lacks.
    rewrite (parseValue_atom a), (parseValue_atom b) by done. cbn.
    by destruct (Z.ltb_spec (atom_value spec b) (atom_value spec a)); [lia|].
Qed.

(** A step and a comma do not occur in a base. *)
Lemma base_lacks d b : base_ok spec b -> value_char d = false -> d <> "*"%char -> d <> "-"%char ->
  all_chars (lacks d) (base_text spec b) = true.
Proof.
  intros Hb Hd Hs Hm.
  assert (lacks d "*" = true) as Hs' by (unfold lacks; case_bool_decide; cbn; congruence).
  assert (lacks d "-" = true) as Hm' by (unfold lacks; case_bool_decide; cbn; congruence).
  destruct b as [|a|a b]; cbn [base_text].
  - cbn. by rewrite Hs'.
  - apply value_text_lacks; [done|]. by apply atom_chars.
  - destruct Hb as (Ha & Hb & _). rewrite !all_chars_app. cbn [all_chars]. rewrite Hm'.
    rewrite (value_text_lacks d (atom_text spec a)), (value_text_lacks d (atom_text spec b));
      by (try apply atom_chars).
Qed.

Lemma base_nonempty b : base_ok spec b -> base_text spec b <> "".
Proof.
  destruct b as [|a|a b]; cbn [base_text base_ok]; [done|by intros Ha; apply atom_chars|].
  intros (Ha & _ & _). destruct (atom_chars a Ha) as [_ Hne]. by destruct (atom_text spec a).
Qed.

Lemma numeral_step n : (0 < n < 100)%nat -> parseStep (numeral n) spec = Ok (Z.of_nat n).
Proof.
  intros Hn. unfold parseStep. destruct (numeral_ok n) as [-> _]; [lia|].
  by destruct (Z.leb_spec (Z.of_nat n) 0); [lia|].
Qed.

Lemma part_allows_range p : part_ok spec p -> forall v,
  part_allows spec p v <->
  let range := base_range (part_base p) (bool_decide (part_step p <> None)) in
  stepped range.1 range.2 (match part_step p with Some n => Z.of_nat n | None => 1 end) v.
Proof. intros _ v. unfold part_allows. destruct p as [[|a|a b] [n|]]; done. Qed.

Lemma addPartValues_part p acc : part_ok spec p ->
  exists s, addPartValues (part_text spec p) spec acc = Ok s /\
    forall v, v ∈ s <-> v ∈ acc \/ part_allows spec p v.
Proof.
  intros Hp. pose proof (part_allows_range p Hp) as Hallow. destruct Hp as [Hb Hstep].
  set (step := match part_step p with Some n => Z.of_nat n | None => 1 end) in *.
  set (range := base_range (part_base p) (bool_decide (part_step p <> None))) in *.
  assert (addPartValues (part_text spec p) spec acc =
    add_values (rounds_of spec) spec range.1 range.2 step acc) as ->.
  { unfold addPartValues, part_text. destruct (part_step p) as [n|].
    - rewrite decide_False.
      2: { pose proof (base_nonempty _ Hb). by destruct (base_text spec (part_base p)). }
      change ("/" +:+ numeral n) with (String "/" (numeral n)).
      rewrite split_char_app by by apply base_lacks.
      rewrite split_char_last by (apply value_text_lacks; [done|]; apply numeral_ok; lia).
      cbn [lookup list_lookup default]. rewrite numeral_step by done. cbn.
      by rewrite parseRange_base.
    - rewrite decide_False by by apply base_nonempty.
      rewrite split_char_last by by apply base_lacks. cbn. by rewrite parseRange_base. }
  assert (0 < step) as Hpos by (unfold step; destruct (part_step p); lia).
  assert (min spec <= range.1 /\ range.2 <= max spec) as [H1 H2].
  { pose proof (spec_bounds _ Hspec). unfold range. destruct (part_base p) as [|a|a b]; cbn in *.
    - lia.
    - destruct Hb as [_ Hb]. destruct (bool_decide _); lia.
    - destruct Hb as ([_ Ha] & [_ Hb] & _). lia. }
  destruct (add_values_runs (rounds_of spec) spec range.1 range.2 step acc Hpos H1 H2) as [s Hs].
  exists s. split; [done|]. intros v. rewrite Hallow. cbn zeta. pose proof (spec_bounds _ Hspec).
  apply add_values_spec in Hs as [Hs _]; unfold rounds_of; [done|done|lia|lia].
Qed.

Lemma part_lacks_comma p : part_ok spec p -> all_chars (lacks ",") (part_text spec p) = true.
Proof.
  intros [Hb Hs]. unfold part_text. destruct (part_step p) as [n|]; [|by apply base_lacks].
  rewrite !all_chars_app, base_lacks by done. cbn [all_chars].
  rewrite value_text_lacks; [done|done|]. apply numeral_ok. lia.
Qed.

Lemma add_parts_text p ps acc : Forall (part_ok spec) (p :: ps) ->
  exists s, add_parts (split_char "," (join_parts spec p ps)) spec acc = Ok s /\
    forall v, v ∈ s <-> v ∈ acc \/ Exists (fun p => part_allows spec p v) (p :: ps).
Proof.
  revert p acc. induction ps as [|q ps IH]; intros p acc [Hp Hps]%Forall_cons; cbn [join_parts].
  - rewrite split_char_last by by apply part_lacks_comma.
    destruct (addPartValues_part p acc Hp) as (s & Hs & Hv). exists s. cbn. rewrite Hs.
    split; [done|]. intros v. rewrite Hv, Exists_cons, Exists_nil. tauto.
  - change ("," +:+ join_parts spec q ps) with (String "," (join_parts spec q ps)).
    rewrite split_char_app by by apply part_lacks_comma.
    destruct (addPartValues_part p acc Hp) as (s & Hs & Hv).
    destruct (IH q s Hps) as (s' & Hs' & Hv'). exists s'. cbn [add_parts]. rewrite Hs. cbn.
    split; [done|]. intros v. rewrite Hv', Hv, !Exists_cons. tauto.
Qed.

Lemma parseField_text f : field_ok spec f ->
  exists s, parseField (field_text spec f) spec = Ok s /\ forall v, v ∈ s <-> field_allows spec f v.
Proof.
  intros Hf. destruct (add_parts_text f.1 f.2 ∅ Hf) as (s & Hs & Hv). exists s. split; [done|].
  intros v. rewrite Hv, elem_of_empty. unfold field_allows. tauto.
Qed.
End field_parser.

(** ** Whole expressions *)

Definition cron_char (c : ascii) : bool :=
  value_char c || bool_decide (c ∈ ["*"; ","; "-"; "/"]%char).

Lemma cron_char_facts c : cron_char c = true -> is_js_space c = false /\ lower_latin1 c = c.
Proof.
  intros H. destruct c as [[] [] [] [] [] [] [] []]; vm_compute in H; try discriminate H;
    by vm_compute.
Qed.

Lemma value_cron c : value_char c = true -> cron_char c = true.
Proof. intros H. unfold cron_char. by rewrite H. Qed.

Lemma numeral_cron n : (n < 100)%nat -> all_chars cron_char (numeral n) = true.
Proof. intros Hn. eapply all_chars_mono; [apply value_cron|]. by apply numeral_ok. Qed.

Lemma field_text_cron spec f : spec_ok spec -> field_ok spec f ->
  all_chars cron_char (field_text spec f) = true /\ field_text spec f <> "".
Proof.
  intros Hspec. unfold field_ok, field_text. destruct f as [p ps]. cbn [fst snd].
  assert (forall q, part_ok spec q ->
    all_chars cron_char (part_text spec q) = true /\ part_text spec q <> "") as Hpart.
  { intros q [Hb Hs].
    assert (all_chars cron_char (base_text spec (part_base q)) = true) as Hc.
    { destruct (part_base q) as [|a|a b]; cbn [base_text].
      - done.
      - eapply all_chars_mono; [apply value_cron|]. by apply (atom_chars spec Hspec).
      - destruct Hb as (Ha & Hb & _). rewrite !all_chars_app. apply andb_true_iff. split.
        + eapply all_chars_mono; [apply value_cron|]. by apply (atom_chars spec Hspec).
        + cbn [all_chars andb]. eapply all_chars_mono; [apply value_cron|].
          by apply (atom_chars spec Hspec). }
    pose proof (base_nonempty spec Hspec _ Hb) as Hne. unfold part_text.
    destruct (part_step q) as [n|]; [|done]. split.
    - rewrite !all_chars_app, Hc. cbn. apply numeral_cron. lia.
    - by destruct (base_text spec (part_base q)). }
  revert p. induction ps as [|q ps IH]; intros p [Hp Hps]%Forall_cons; cbn [join_parts]; [by apply Hpart|].
  destruct (Hpart p Hp) as [Hc Hne]. destruct (IH q Hps) as [Hcs _]. split.
  - rewrite !all_chars_app, Hc, Hcs. done.
  - by destruct (part_text spec p).
Qed.

Lemma trim_end_app s t : t <> "" -> trim_end t = t -> trim_end (s +:+ t) = s +:+ t.
Proof.
  intros Hne Ht. induction s as [|c s IH]; [done|].
  change (String c s +:+ t) with (String c (s +:+ t)). cbn [trim_end]. rewrite IH.
  destruct (s +:+ t) eqn:E; [|done]. destruct s; [|done]. by cbn in E.
Qed.

Lemma string_map_app f s t : string_map f (s +:+ t) = string_map f s +:+ string_map f t.
Proof.
  induction s as [|c s IH]; [done|]. change (String c s +:+ t) with (String c (s +:+ t)).
  cbn [string_map]. by rewrite IH.
Qed.

Record schedule := {
  s_minute : field; s_hour : field; s_dayOfMonth : field; s_month : field; s_dayOfWeek : field
}.

Record schedule_ok (s : schedule) : Prop := {
  minute_ok : field_ok MINUTE (s_minute s);
  hour_ok : field_ok HOUR (s_hour s);
  dayOfMonth_ok : field_ok DAY_OF_MONTH (s_dayOfMonth s);
  month_ok : field_ok MONTH (s_month s);
  dayOfWeek_ok : field_ok DAY_OF_WEEK (s_dayOfWeek s)
}.

Definition schedule_fields (s : schedule) : list string :=
  [field_text MINUTE (s_minute s); field_text HOUR (s_hour s); field_text DAY_OF_MONTH (s_dayOfMonth s);
   field_text MONTH (s_month s); field_text DAY_OF_WEEK (s_dayOfWeek s)].

(** ** How an expression may be written *)

(** A letter is written small or capital. *)
Definition capital (c : ascii) : ascii :=
  let n := N_of_ascii c in if ((97 <=? n) && (n <=? 122))%N then ascii_of_N (n - 32) else c.

Fixpoint cased (t w : string) : Prop :=
  match t, w with
  | EmptyString, EmptyString => True
  | String c t', String d w' => (d = c \/ d = capital c) /\ cased t' w'
  | _, _ => False
  end.

Definition spaces (s : string) : Prop := all_chars is_js_space s = true.

(** Words, with a run of spaces between one and the next. *)
Inductive spaced : list string -> string -> Prop :=
| spaced_last w : spaced [w] w
| spaced_more w gap ws t : spaces gap -> gap <> "" -> spaced ws t ->
    spaced (w :: ws) (w +:+ gap +:+ t).

Definition always : field := ({| part_base := Any; part_step := None |}, []).
Definition only (n : nat) : field := ({| part_base := From (Num n); part_step := None |}, []).

(** The start of every hour, day, week (Sunday), month and year. *)
Definition hourly := {| s_minute := only 0; s_hour := always; s_dayOfMonth := always;
  s_month := always; s_dayOfWeek := always |}.
Definition daily := {| s_minute := only 0; s_hour := only 0; s_dayOfMonth := always;
  s_month := always; s_dayOfWeek := always |}.
Definition weekly := {| s_minute := only 0; s_hour := only 0; s_dayOfMonth := always;
  s_month := always; s_dayOfWeek := only 0 |}.
Definition monthly := {| s_minute := only 0; s_hour := only 0; s_dayOfMonth := only 1;
  s_month := always; s_dayOfWeek := always |}.
Definition yearly := {| s_minute := only 0; s_hour := only 0; s_dayOfMonth := only 1;
  s_month := only 1; s_dayOfWeek := always |}.

Definition shortcut_schedules : list (string * schedule) :=
  [("@hourly", hourly); ("@daily", daily); ("@midnight", daily); ("@weekly", weekly);
   ("@monthly", monthly); ("@yearly", yearly); ("@annually", yearly)].

(** A text of a schedule: its five fields, or a shortcut for it, in any case,
    with spaces around it and around the fields. *)
Inductive writes (s : schedule) : string -> Prop :=
| writes_fields lead ws t trail : Forall2 cased (schedule_fields s) ws -> spaced ws t ->
    spaces lead -> spaces trail -> writes s (lead +:+ t +:+ trail)
| writes_shortcut lead name w trail : (name, s) ∈ shortcut_schedules -> cased name w ->
    spaces lead -> spaces trail -> writes s (lead +:+ w +:+ trail).

(** ** Reading the text *)

(** Words without spaces, whose case is dropped. *)
Definition lower_char (c : ascii) : bool :=
  negb (is_js_space c) && bool_decide (lower_latin1 c = c) && bool_decide (lower_latin1 (capital c) = c).

Lemma cron_lower c : cron_char c = true -> lower_char c = true.
Proof.
  intros H. destruct c as [[] [] [] [] [] [] [] []]; vm_compute in H; try discriminate H; by vm_compute.
Qed.

Lemma space_lower c : is_js_space c = true -> lower_latin1 c = c.
Proof.
  intros H. destruct c as [[] [] [] [] [] [] [] []]; vm_compute in H; try discriminate H; by vm_compute.
Qed.

Lemma capital_space c : is_js_space (capital c) = is_js_space c.
Proof. by destruct c as [[] [] [] [] [] [] [] []]. Qed.

Definition word (t : string) : Prop := all_chars (fun c => negb (is_js_space c)) t = true /\ t <> "".

Lemma cased_word t w : all_chars lower_char t = true -> t <> "" -> cased t w ->
  word w /\ string_map lower_latin1 w = t.
Proof.
  unfold word. revert w. induction t as [|c t IH]; intros [|d w] Ht Hne Hw; try done.
  cbn [all_chars] in Ht. apply andb_prop in Ht as [Hc Ht]. destruct Hw as [Hd Hw].
  unfold lower_char in Hc. apply andb_prop in Hc as [[Hs Hl]%andb_prop Hu].
  apply bool_decide_eq_true in Hl, Hu.
  assert (negb (is_js_space d) = true /\ lower_latin1 d = c) as [Hds Hdl].
  { destruct Hd as [->| ->]; [done|]. by rewrite capital_space. }
  cbn [all_chars string_map]. rewrite Hds, Hdl.
  destruct t as [|c' t]; [destruct w; done|]. by destruct (IH w Ht ltac:(done) Hw) as [[-> _] ->].
Qed.

Lemma spaces_trim s t : spaces s -> trim_start (s +:+ t) = trim_start t.
Proof.
  unfold spaces. induction s as [|c s IH]; [done|]. cbn [all_chars]. intros [Hc Hs]%andb_prop.
  rewrite append_cons. cbn [trim_start]. rewrite Hc. by apply IH.
Qed.

Lemma trim_end_spaces s : spaces s -> trim_end s = "".
Proof.
  unfold spaces. induction s as [|c s IH]; [done|]. cbn [all_chars trim_end]. intros [Hc Hs]%andb_prop.
  by rewrite IH, Hc.
Qed.

Lemma trim_end_trail t s : spaces s -> trim_end (t +:+ s) = trim_end t.
Proof.
  intros Hs. induction t as [|c t IH]; [by apply trim_end_spaces|].
  rewrite append_cons. cbn [trim_end]. by rewrite IH.
Qed.

Lemma word_trim w : word w -> trim_end w = w.
Proof.
  intros [Hw _]. eapply trim_end_all_chars; [|exact Hw]. intros c Hc. by apply negb_true_iff in Hc.
Qed.

(** A text begins and ends with words. *)
Lemma spaced_ends ws t : Forall word ws -> spaced ws t ->
  t <> "" /\ trim_start t = t /\ trim_end t = t.
Proof.
  assert (forall w r, word w -> w +:+ r <> "" /\ trim_start (w +:+ r) = w +:+ r) as Hhead.
  { intros [|c w] r [Hw Hne]; [done|]. cbn [all_chars] in Hw. apply andb_prop in Hw as [Hc _].
    rewrite append_cons. split; [done|]. cbn [trim_start]. apply negb_true_iff in Hc. by rewrite Hc. }
  intros Hws Ht. induction Ht as [w|w gap ws t Hgap Hne Ht IH].
  - apply Forall_cons in Hws as [Hw _]. destruct (Hhead w "" Hw) as [H1 H2].
    rewrite append_nil_r in H1, H2. split_and!; try done. by apply word_trim.
  - apply Forall_cons in Hws as [Hw Hws]. destruct (IH Hws) as (Hn & _ & He).
    destruct (Hhead w (gap +:+ t) Hw) as [H1 H2]. split_and!; try done.
    apply trim_end_app; [by destruct gap|]. by apply trim_end_app.
Qed.

Lemma spaced_trimmed lead ws t trail : Forall word ws -> spaced ws t -> spaces lead -> spaces trail ->
  js_trim (lead +:+ t +:+ trail) = t /\ t <> "".
Proof.
  intros Hws Ht Hl Hr. destruct (spaced_ends ws t Hws Ht) as (Hne & Hs & He). split; [|done].
  unfold js_trim. rewrite spaces_trim by done.
  assert (trim_start (t +:+ trail) = t +:+ trail) as ->.
  { destruct t as [|c t]; [done|]. rewrite append_cons. cbn [trim_start] in *.
    destruct (is_js_space c); [|done]. exfalso.
    assert (String.length (trim_start t) <= String.length t)%nat as Hlen
      by (clear; induction t as [|d t IH]; [done|]; cbn; destruct (is_js_space d); cbn; lia).
    rewrite Hs in Hlen. cbn in Hlen. lia. }
  by rewrite trim_end_trail.
Qed.

Lemma spaced_lower ws t : spaced ws t ->
  spaced (string_map lower_latin1 <$> ws) (string_map lower_latin1 t).
Proof.
  intros Ht. induction Ht as [w|w gap ws t Hgap Hne Ht IH]; [constructor|].
  assert (string_map lower_latin1 gap = gap) as Hl.
  { clear Hne. unfold spaces in Hgap. induction gap as [|c gap IHg]; [done|]. cbn [all_chars string_map] in *.
    apply andb_prop in Hgap as [Hc Hgap]. by rewrite (space_lower c), IHg. }
  rewrite !string_map_app, Hl. by constructor.
Qed.

Lemma split_spaces_word w : word w -> split_spaces false w = [w] /\ split_spaces true w = [w].
Proof.
  assert (forall s, all_chars (fun c => negb (is_js_space c)) s = true -> split_spaces false s = [s]) as Hs.
  { induction s as [|c s IH]; [done|]. cbn [all_chars split_spaces]. intros [Hc%negb_true_iff Hs]%andb_prop.
    by rewrite Hc, IH. }
  intros [Hw Hne]. split; [by apply Hs|]. destruct w as [|c w]; [done|]. cbn [all_chars split_spaces] in *.
  apply andb_prop in Hw as [Hc%negb_true_iff Hw]. by rewrite Hc, Hs.
Qed.

Lemma split_spaces_gap gap t : spaces gap -> split_spaces true (gap +:+ t) = split_spaces true t.
Proof.
  unfold spaces. induction gap as [|c gap IH]; [done|]. cbn [all_chars]. intros [Hc Hg]%andb_prop.
  rewrite append_cons. cbn [split_spaces]. rewrite Hc. by apply IH.
Qed.

Lemma split_spaces_first w gap t : word w -> spaces gap -> gap <> "" ->
  split_spaces false (w +:+ gap +:+ t) = w :: split_spaces true t.
Proof.
  intros [Hw _] Hg Hne. induction w as [|c w IH].
  - destruct gap as [|c gap]; [done|]. unfold spaces in Hg. cbn [all_chars] in Hg.
    apply andb_prop in Hg as [Hc Hg]. change ("" +:+ String c gap +:+ t) with (String c (gap +:+ t)).
    cbn [split_spaces]. rewrite Hc. by rewrite split_spaces_gap.
  - cbn [all_chars] in Hw. apply andb_prop in Hw as [Hc%negb_true_iff Hw].
    rewrite append_cons. cbn [split_spaces]. by rewrite Hc, IH.
Qed.

(** The words of a text are split back. *)
Lemma split_spaces_spaced ws t : Forall word ws -> spaced ws t -> split_spaces false t = ws.
Proof.
  intros Hws Ht. assert (split_spaces false t = ws /\ split_spaces true t = ws) as [H _]; [|done].
  induction Ht as [w|w gap ws t Hgap Hne Ht IH].
  - apply Forall_cons in Hws as [Hw _]. by apply split_spaces_word.
  - apply Forall_cons in Hws as [Hw Hws]. destruct (IH Hws) as [_ IH'].
    assert (split_spaces true (w +:+ gap +:+ t) = split_spaces false (w +:+ gap +:+ t)) as ->.
    { destruct w as [|c w]; [by destruct Hw|]. destruct Hw as [Hw _]. cbn [all_chars] in Hw.
      apply andb_prop in Hw as [Hc%negb_true_iff _]. rewrite append_cons. cbn [split_spaces]. by rewrite Hc. }
    by rewrite split_spaces_first, IH'.
Qed.

(** A text of several words is no shortcut. *)
Lemma spaced_no_shortcut w w' ws t : spaced (w :: w' :: ws) t -> expand_shortcut t = Some t.
Proof.
  intros Ht. inversion Ht as [|? gap ? r Hgap Hne Hr]; subst.
  assert (all_chars (fun c => negb (is_js_space c)) (w +:+ gap +:+ r) = false) as Hsp.
  { destruct gap as [|c gap]; [done|]. unfold spaces in Hgap. cbn [all_chars] in Hgap.
    apply andb_prop in Hgap as [Hc _]. rewrite all_chars_app, append_cons. cbn [all_chars]. rewrite Hc.
    apply andb_false_r. }
  assert (forall s, all_chars (fun c => negb (is_js_space c)) s = true -> w +:+ gap +:+ r <> s) as Hneq
    by (intros s Hs E; congruence).
  unfold expand_shortcut. rewrite !decide_False; try done; try (apply Hneq; reflexivity).
  intros [He|He]; revert He; apply Hneq; reflexivity.
Qed.

Lemma schedule_words s : schedule_ok s ->
  Forall (fun t => all_chars lower_char t = true /\ t <> "") (schedule_fields s).
Proof.
  intros [O1 O2 O3 O4 O5].
  assert (forall spec f, spec_ok spec -> field_ok spec f ->
    all_chars lower_char (field_text spec f) = true /\ field_text spec f <> "") as Hf.
  { intros spec f Hspec Hok. destruct (field_text_cron spec f Hspec Hok) as [Hc Hne]. split; [|done].
    eapply all_chars_mono; [apply cron_lower|done]. }
  unfold schedule_fields. repeat apply Forall_cons_2; [..|done]; apply Hf;
    first [done|apply MONTH_ok|apply DAY_OF_WEEK_ok|apply no_names_ok; [done|cbn; lia]].
Qed.

(** Every text of a schedule is expanded to its five fields. *)
Lemma writes_expanded s e : schedule_ok s -> writes s e ->
  js_trim e <> "" /\ exists t, expand_shortcut (string_map lower_latin1 (js_trim e)) = Some t /\
    split_spaces false t = schedule_fields s.
Proof.
  intros Hok He. pose proof (schedule_words s Hok) as Hws.
  destruct He as [lead ws t trail Hcase Ht Hl Hr|lead name w trail Hname Hcase Hl Hr].
  - assert (Forall word ws /\ string_map lower_latin1 <$> ws = schedule_fields s) as [Hword Hlow].
    { clear Ht. induction Hcase as [|x y xs ys Hxy Hcase IH]; [done|].
      apply Forall_cons in Hws as [[Hx Hne] Hws]. destruct (IH Hws) as [H1 H2].
      destruct (cased_word x y Hx Hne Hxy) as [H3 H4]. split; [by constructor|].
      cbn. by rewrite H4, H2. }
    destruct (spaced_trimmed lead ws t trail) as [-> Hne]; try done. split; [done|].
    pose proof (spaced_lower ws t Ht) as Ht'. rewrite Hlow in Ht'.
    exists (string_map lower_latin1 t). split; [by eapply spaced_no_shortcut|].
    apply split_spaces_spaced; [|done]. eapply Forall_impl; [exact Hws|]. intros x [Hx Hxn].
    split; [|done]. eapply all_chars_mono; [|exact Hx]. unfold lower_char. intros c Hc.
    by apply andb_prop in Hc as [[Hc _]%andb_prop _].
  - destruct (js_trim (lead +:+ w +:+ trail)) eqn:E; [exfalso|rewrite <- E; split; [by rewrite E|]].
    + destruct (spaced_trimmed lead [w] w trail) as [H Hn]; try done; [|constructor|congruence].
      apply Forall_singleton. eapply cased_word; [| |exact Hcase];
        repeat (apply elem_of_cons in Hname as [[= -> _]|Hname]; [done|]); by apply elem_of_nil in Hname.
    + assert (word w /\ string_map lower_latin1 w = name) as [Hw Hlow].
      { eapply cased_word; [| |exact Hcase];
        repeat (apply elem_of_cons in Hname as [[= -> _]|Hname]; [done|]); by apply elem_of_nil in Hname. }
      destruct (spaced_trimmed lead [w] w trail) as [-> _]; try done;
        [by apply Forall_singleton|constructor|]. rewrite Hlow. clear -Hname.
      repeat (apply elem_of_cons in Hname as [[= -> ->]|Hname];
        [eexists; split; [vm_compute; reflexivity|vm_compute; reflexivity]|]).
      by apply elem_of_nil in Hname.
Qed.

(** C7: the parser reads the documented language. However a well-formed schedule is
    written (five fields with lists, ranges, steps and names, or one of the [@]
    shortcuts for it; letters in any case; any spaces around the expression and
    between its fields), the text is accepted, each set is exactly the values the
    field denotes, with 7 as Sunday, and a day field counts as restricted unless
    it is [*], as the comment at the head of the parser asks. (The comment of the
    type says "not [?]", which no field can be.) *)
Theorem parseCronExpression_reads s e : schedule_ok s -> writes s e ->
  exists p, parseCronExpression (JsString e) = Ok p /\
    (forall v, v ∈ minute p <-> field_allows MINUTE (s_minute s) v) /\
    (forall v, v ∈ hour p <-> field_allows HOUR (s_hour s) v) /\
    (forall v, v ∈ dayOfMonth p <-> field_allows DAY_OF_MONTH (s_dayOfMonth s) v) /\
    (forall v, v ∈ month p <-> field_allows MONTH (s_month s) v) /\
    (forall v, v ∈ dayOfWeek p <-> exists w, field_allows DAY_OF_WEEK (s_dayOfWeek s) w /\ v = w mod 7) /\
    dayOfMonthRestricted p = bool_decide (field_text DAY_OF_MONTH (s_dayOfMonth s) <> "*") /\
    dayOfWeekRestricted p = bool_decide (field_text DAY_OF_WEEK (s_dayOfWeek s) <> "*").
Proof.
  intros Hok Hwrites. destruct (writes_expanded s e Hok Hwrites) as (Hne & t & He & Hf).
  destruct Hok as [O1 O2 O3 O4 O5].
  assert (spec_ok MINUTE) as S1 by (apply no_names_ok; [done|cbn; lia]).
  assert (spec_ok HOUR) as S2 by (apply no_names_ok; [done|cbn; lia]).
  assert (spec_ok DAY_OF_MONTH) as S3 by (apply no_names_ok; [done|cbn; lia]).
  destruct (parseField_text MINUTE S1 _ O1) as (m & Hm & Hm').
  destruct (parseField_text HOUR S2 _ O2) as (h & Hh & Hh').
  destruct (parseField_text DAY_OF_MONTH S3 _ O3) as (d & Hd & Hd').
  destruct (parseField_text MONTH MONTH_ok _ O4) as (mo & Hmo & Hmo').
  destruct (parseField_text DAY_OF_WEEK DAY_OF_WEEK_ok _ O5) as (w & Hw & Hw').
  cbn [parseCronExpression]. unfold schedule_fields in Hf.
  rewrite decide_False, He, Hf, Hm by done. cbn [mbind result_bind].
  rewrite Hh. cbn [mbind result_bind]. rewrite Hd. cbn [mbind result_bind].
  rewrite Hmo. cbn [mbind result_bind]. rewrite Hw. cbn [mbind result_bind].
  eexists. split; [reflexivity|]. cbn [minute hour dayOfMonth month dayOfWeek dayOfMonthRestricted
    dayOfWeekRestricted]. split_and!; try done.
  intros v. unfold normalizeDayOfWeek.
  assert (forall u, u ∈ w -> 0 <= u <= 7) as Hr.
  { intros u Hu. by apply (parseField_in _ DAY_OF_WEEK w ltac:(cbn; lia) Hw). }
  transitivity (exists u, u ∈ w /\ v = u mod 7).
  2: { split; intros (u & Hu & ->); exists u; (split; [by apply Hw'|done]). }
  assert (forall u, u ∈ w -> u mod 7 = if decide (u = 7) then 0 else u) as Hmod.
  { intros u Hu. specialize (Hr u Hu). case_decide as H7; [by rewrite H7|].
    apply Z.mod_small. lia. }
  case_decide as H7.
  - rewrite elem_of_union, elem_of_singleton, elem_of_difference, not_elem_of_singleton. split.
    + intros [->|[Hv Hv7]]; [by exists 7|]. exists v. split; [done|].
      rewrite Hmod by done. by rewrite decide_False.
    + intros (u & Hu & ->). rewrite Hmod by done. case_decide; [by left|by right].
  - split.
    + intros Hv. exists v. split; [done|]. rewrite Hmod by done. rewrite decide_False; congruence.
    + intros (u & Hu & ->). rewrite Hmod by done. rewrite decide_False; congruence.
Qed.

(** Every quarter of an hour from 9 to 17 on the first day of a quarter or a
    Friday to Sunday. *)
Definition demo_schedule : schedule := {|
  s_minute := ({| part_base := Any; part_step := Some 15%nat |}, []);
  s_hour := ({| part_base := Between (Num 9) (Num 17); part_step := None |}, []);
  s_dayOfMonth := ({| part_base := From (Num 1); part_step := None |}, []);
  s_month := ({| part_base := From (Named 0); part_step := Some 3%nat |},
    [{| part_base := From (Num 12); part_step := None |}]);
  s_dayOfWeek := ({| part_base := Between (Named 5) (Num 7); part_step := None |}, []) |}.

Definition demo_text : string := ("  */15  9-17 1" +:+ String "009" "JAN/3,12 Fri-7 ")%string.

Lemma demo_written : writes demo_schedule demo_text.
Proof.
  apply (writes_fields demo_schedule "  " ["*/15"; "9-17"; "1"; "JAN/3,12"; "Fri-7"]
    ("*/15" +:+ "  " +:+ "9-17" +:+ " " +:+ "1" +:+ String "009" "" +:+ "JAN/3,12" +:+ " " +:+ "Fri-7") " ").
  - unfold schedule_fields, demo_schedule. repeat apply Forall2_cons_2; [..|apply Forall2_nil_2];
      vm_compute; repeat split; first [by left|by right].
  - repeat (apply spaced_more; [reflexivity|done|]). apply spaced_last.
  - reflexivity.
  - reflexivity.
Qed.

Lemma demo_schedule_ok : schedule_ok demo_schedule.
Proof.
  split; repeat (apply Forall_cons; split); try apply Forall_nil_2; repeat split; vm_compute; congruence || lia.
Qed.

Lemma weekly_ok : schedule_ok weekly.
Proof.
  split; repeat (apply Forall_cons; split); try apply Forall_nil_2; repeat split; vm_compute; congruence || lia.
Qed.

(** A schedule with tabs and capitals, and [@Weekly]: only Sunday, at midnight. *)
Lemma parseCronExpression_reads_witness :
  (exists p, parseCronExpression (JsString demo_text) = Ok p /\ 9 ∈ hour p /\ 10 ∈ month p) /\
  (exists p, parseCronExpression (JsString " @Weekly") = Ok p /\ 0 ∈ dayOfWeek p /\ dayOfWeekRestricted p = true).
Proof.
  split.
  - destruct (parseCronExpression_reads demo_schedule demo_text demo_schedule_ok demo_written)
      as (p & Hp & _ & Hh & _ & Hm & _).
    exists p. split; [exact Hp|]. split; [apply (proj2 (Hh 9))|apply (proj2 (Hm 10))];
      apply Exists_cons_hd; vm_compute; repeat split; congruence.
  - destruct (parseCronExpression_reads weekly " @Weekly" weekly_ok) as (p & Hp & _ & _ & _ & _ & Hd & _ & Hr).
    + apply (writes_shortcut weekly " " "@weekly" "@Weekly" "");
        [|vm_compute; repeat split; first [by left|by right]|reflexivity|reflexivity].
      do 3 apply elem_of_cons, or_intror. apply elem_of_cons. by left.
    + exists p. split; [exact Hp|]. split; [|exact Hr]. apply (proj2 (Hd 0)). exists 0.
      split; [|reflexivity]. apply Exists_cons_hd. vm_compute. repeat split; congruence.
Defined.
