(* ===== verification/Scheduler.v ===== *)
(** * Recurring jobs ([src/src/background-jobs/scheduler.js])

    The scheduler of the main process arms a timer per configured job: an interval
    ([every], with its first tick) or, for a cron expression, one timer at a time that
    is armed again after each run. A run enqueues the job; a job whose enqueue is still
    in flight is not enqueued again, and [stop] waits for those.

    The functions the code runs between two waits are steps of one relation, on a clock
    in milliseconds. Timers are Node's: a delay that is not between 1 and 2^31 - 1 is
    replaced by 1, and a timer fires at or after the time it is due. [enqueueJob] is
    outside: it takes any time; that it failed is only logged. A job is configured by
    its key; the class and the options it passes on are not part of the state. *)

From stdpp Require Import base strings list relations.
From Stdlib Require Import ZArith QArith Qround Ascii Lia.
From S2P Require Import Prelude Numbers Json Cron.

(** ** Durations *)

Inductive duration_error := NotPositive | NotText | InvalidDuration (value : string).

(** [DURATION_MULTIPLIERS] *)
Definition DURATION_MULTIPLIERS : list (string * Z) :=
  let second := 1000 in let minute := 60 * 1000 in let hour := 60 * 60 * 1000 in
  let day := 24 * 60 * 60 * 1000 in let week := 7 * 24 * 60 * 60 * 1000 in
  [("d", day); ("day", day); ("days", day); ("h", hour); ("hour", hour); ("hours", hour);
   ("m", minute); ("minute", minute); ("minutes", minute); ("ms", 1); ("s", second);
   ("second", second); ("seconds", second); ("w", week); ("week", week); ("weeks", week)].

(** The units of the pattern. *)
Definition duration_units : list string :=
  ["ms"; "s"; "m"; "h"; "d"; "w"; "second"; "seconds"; "minute"; "minutes"; "hour"; "hours";
   "day"; "days"; "week"; "weeks"].

(** The groups of [/^(\d+(?:\.\d+)?)\s*(ms|...|weeks)$/]. *)
Definition match_duration (s : string) : option (string * string) :=
  let '(whole, rest) := span is_digit s in
  if decide (whole = "") then None else
  let '(digits, rest) :=
    match rest with
    | String "." t =>
        let '(fraction, t) := span is_digit t in
        if decide (fraction = "") then (whole, rest) else (whole +:+ "." +:+ fraction, t)
    | _ => (whole, rest)
    end in
  let unit := trim_start rest in
  if decide (unit ∈ duration_units) then Some (digits, unit) else None.

(** [Math.round(a * b)] of a non-negative double and an integer. *)
Definition times_rounded (a : number) (b : Z) : number :=
  match a with
  | Fin q =>
      match round_double (q * inject_Z b)%Q with
      | Fin p => Fin (inject_Z (Qfloor (p + (1 # 2))%Q))
      | n => n
      end
  | n => n
  end.

Definition parseScheduledDuration (value : scalar) : result duration_error number :=
  match value with
  | JsNumber (Fin q) => if Qle_bool 1 q then Ok (Fin q) else Throw NotPositive
  | JsNumber _ => Throw NotPositive
  | JsString s =>
      if decide (js_trim s = "") then Throw NotText else
      match match_duration (string_map lower_latin1 (js_trim s)) with
      | None => Throw (InvalidDuration s)
      | Some (digits, unit) =>
          match obj_get unit DURATION_MULTIPLIERS with
          | Some multiplier => Ok (times_rounded (js_Number digits) multiplier)
          | None => Throw (InvalidDuration s)
          end
      end
  | _ => Throw NotText
  end.

(** ** Configuration *)

(** [every]: a value, or an array of a value and options with a [firstIn]. *)
Inductive every_configuration :=
| Every (value : scalar)
| EveryWith (value : scalar) (options : option scalar).   (* [None]: no options object *)

Record job_configuration := {
  has_class : bool;              (* with [performLaterWithOptions] *)
  cron : option scalar;
  every : option every_configuration;
  enabled : bool                 (* [jobConfiguration && enabled !== false] *)
}.

(** [normalizeEvery] *)
Definition normalizeEvery (e : every_configuration) : scalar * scalar :=
  match e with
  | Every v => (v, JsUndefined)
  | EveryWith v None => (v, JsUndefined)
  | EveryWith v (Some firstIn) => (v, firstIn)
  end.

Inductive schedule_error :=
| NoJobClass
| EveryAndCron
| NeitherEveryNorCron
| CronNotText
| CronError (e : cron_error)
| DurationError (e : duration_error)
| IntervalTooShort.

(** ** Timers *)

Definition TIMEOUT_MAX : Z := 2147483647.

(** The delay Node waits for [setTimeout] and [setInterval]. *)
Definition timer_delay (delay : number) : Z :=
  match delay with
  | Fin q => if Qle_bool 1 q && Qle_bool q (inject_Z TIMEOUT_MAX) then Qfloor q else 1
  | _ => 1
  end.

Inductive callback :=
| FirstTick (jobKey : string) (intervalMs : number)
| Tick (jobKey : string)
| CronTick (jobKey : string) (parsed : parsed_cron).

Record timer := { timer_id : nat; due : Z; repeats : option Z; calls : callback }.

(** ** The scheduler *)

(** A cron callback that awaits its run: the run was due at [run_due]. *)
Record cron_run := { run_key : string; run_parsed : parsed_cron; run_due : Z }.

Record scheduler := {
  stopped : bool;
  intervalIds : list nat;
  timeoutIds : list nat;
  pendingEnqueues : list string;            (* the keys of [pendingEnqueuesByJobKey] *)
  timers : list timer;                      (* armed *)
  next_id : nat;
  clock : Z;
  awaiting : list cron_run;
  ended : list (cron_run * Z);              (* the runs of cron callbacks, with their ends *)
  enqueued : list (string * Z);             (* the calls of [enqueueJob] *)
  starting : bool;                          (* [start] awaits the configuration *)
  stop_waits : option (list string)         (* what [stop] waits for *)
}.

Definition new_scheduler (now : Z) : scheduler := {|
  stopped := false; intervalIds := []; timeoutIds := []; pendingEnqueues := []; timers := [];
  next_id := 0; clock := now; awaiting := []; ended := []; enqueued := []; starting := false; stop_waits := None |}.

Abbreviation M := (ST scheduler schedule_error).

Definition with_timers (ts : list timer) (s : scheduler) : scheduler := {|
  stopped := stopped s; intervalIds := intervalIds s; timeoutIds := timeoutIds s;
  pendingEnqueues := pendingEnqueues s; timers := ts; next_id := next_id s; clock := clock s;
  awaiting := awaiting s; ended := ended s; enqueued := enqueued s; starting := starting s; stop_waits := stop_waits s |}.

Definition with_runs (pending : list string) (runs : list cron_run) (over : list (cron_run * Z)) (s : scheduler) : scheduler := {|
  stopped := stopped s; intervalIds := intervalIds s; timeoutIds := timeoutIds s;
  pendingEnqueues := pending; timers := timers s; next_id := next_id s; clock := clock s;
  awaiting := runs; ended := over; enqueued := enqueued s; starting := starting s; stop_waits := stop_waits s |}.

Definition with_clock (now : Z) (s : scheduler) : scheduler := {|
  stopped := stopped s; intervalIds := intervalIds s; timeoutIds := timeoutIds s;
  pendingEnqueues := pendingEnqueues s; timers := timers s; next_id := next_id s; clock := now;
  awaiting := awaiting s; ended := ended s; enqueued := enqueued s; starting := starting s; stop_waits := stop_waits s |}.

(** [setTimeout], its id pushed on [timeoutIds]. *)
Definition setTimeout (f : callback) (delay : number) (s : scheduler) : scheduler := {|
  stopped := stopped s; intervalIds := intervalIds s; timeoutIds := timeoutIds s ++ [next_id s];
  pendingEnqueues := pendingEnqueues s;
  timers := timers s ++ [{| timer_id := next_id s; due := clock s + timer_delay delay;
                            repeats := None; calls := f |}];
  next_id := S (next_id s); clock := clock s; awaiting := awaiting s; ended := ended s; enqueued := enqueued s;
  starting := starting s; stop_waits := stop_waits s |}.

(** [setInterval], its id pushed on [intervalIds]. *)
Definition setInterval (f : callback) (interval : number) (s : scheduler) : scheduler := {|
  stopped := stopped s; intervalIds := intervalIds s ++ [next_id s]; timeoutIds := timeoutIds s;
  pendingEnqueues := pendingEnqueues s;
  timers := timers s ++ [{| timer_id := next_id s; due := clock s + timer_delay interval;
                            repeats := Some (timer_delay interval); calls := f |}];
  next_id := S (next_id s); clock := clock s; awaiting := awaiting s; ended := ended s; enqueued := enqueued s;
  starting := starting s; stop_waits := stop_waits s |}.

(** [runScheduledJob] up to its wait, with [enqueueScheduledJob]; whether it waits. *)
Definition runScheduledJob (jobKey : string) (s : scheduler) : scheduler * bool :=
  if stopped s || bool_decide (jobKey ∈ pendingEnqueues s) then (s, false) else
  ({| stopped := stopped s; intervalIds := intervalIds s; timeoutIds := timeoutIds s;
      pendingEnqueues := pendingEnqueues s ++ [jobKey]; timers := timers s; next_id := next_id s;
      clock := clock s; awaiting := awaiting s; ended := ended s; enqueued := enqueued s ++ [(jobKey, clock s)];
      starting := starting s; stop_waits := stop_waits s |}, true).

(** [scheduleNext] of [scheduleCronJob] *)
Definition scheduleNext (jobKey : string) (parsed : parsed_cron) : M unit := fun s =>
  if stopped s then (Ok tt, s) else
  match nextCronFireDate parsed (clock s) with
  | Throw e => (Throw (CronError e), s)
  | Ok nextDate =>
      let delayMs := Z.max 1 (nextDate - clock s) in
      (Ok tt, setTimeout (CronTick jobKey parsed) (Fin (inject_Z delayMs)) s)
  end.

Definition scheduleCronJob (j : job_configuration) (jobKey : string) : M unit :=
  match cron j with
  | Some (JsString _ as cronExpression) =>
      match parseCronExpression cronExpression with
      | Ok parsed => scheduleNext jobKey parsed
      | Throw e => throw (CronError e)
      end
  | _ => throw CronNotText
  end.

Definition read_duration (value : scalar) : result schedule_error number :=
  match parseScheduledDuration value with Ok n => Ok n | Throw e => Throw (DurationError e) end.

(** [n < 1] *)
Definition below_one (n : number) : bool :=
  match n with Fin q => negb (Qle_bool 1 q) | NegInfinity => true | _ => false end.

Definition scheduleEveryJob (e : every_configuration) (jobKey : string) : M unit :=
  let '(everyValue, firstInValue) := normalizeEvery e in
  intervalMs ← lift_result (read_duration everyValue);
  firstInMs ← match firstInValue with
              | JsUndefined => mret intervalMs
              | v => lift_result (read_duration v)
              end;
  if below_one intervalMs then throw IntervalTooShort else
  modify (setTimeout (FirstTick jobKey intervalMs) firstInMs).

Definition scheduleJob (j : job_configuration) (jobKey : string) : M unit :=
  if negb (has_class j) then throw NoJobClass else
  match cron j, every j with
  | Some _, Some _ => throw EveryAndCron
  | Some _, None => scheduleCronJob j jobKey
  | None, None => throw NeitherEveryNorCron
  | None, Some e => scheduleEveryJob e jobKey
  end.

(** The loop of [start] over the configured jobs. *)
Fixpoint schedule_jobs (jobs : list (string * job_configuration)) : M unit :=
  match jobs with
  | [] => mret tt
  | (jobKey, j) :: jobs =>
      _ ← (if enabled j then scheduleJob j jobKey else mret tt); schedule_jobs jobs
  end.

(** [start] until it awaits the configuration, and the rest of it. *)
Definition begin_start (s : scheduler) : scheduler := {|
  stopped := false; intervalIds := intervalIds s; timeoutIds := timeoutIds s;
  pendingEnqueues := pendingEnqueues s; timers := timers s; next_id := next_id s; clock := clock s;
  awaiting := awaiting s; ended := ended s; enqueued := enqueued s; starting := true; stop_waits := stop_waits s |}.

Definition end_start (jobs : list (string * job_configuration)) (s : scheduler) : scheduler :=
  let s' := (schedule_jobs jobs s).2 in {|
  stopped := stopped s'; intervalIds := intervalIds s'; timeoutIds := timeoutIds s';
  pendingEnqueues := pendingEnqueues s'; timers := timers s'; next_id := next_id s'; clock := clock s';
  awaiting := awaiting s'; ended := ended s'; enqueued := enqueued s'; starting := false; stop_waits := stop_waits s' |}.

(** [stop] until it waits: both lists are cleared with their timers. *)
Definition begin_stop (s : scheduler) : scheduler := {|
  stopped := true; intervalIds := []; timeoutIds := [];
  pendingEnqueues := pendingEnqueues s;
  timers := List.filter (fun t => negb (bool_decide (timer_id t ∈ intervalIds s) ||
                                        bool_decide (timer_id t ∈ timeoutIds s))) (timers s);
  next_id := next_id s; clock := clock s; awaiting := awaiting s; ended := ended s; enqueued := enqueued s;
  starting := starting s; stop_waits := Some (pendingEnqueues s) |}.

Definition remove_key (k : string) (l : list string) : list string :=
  List.filter (fun k' => negb (bool_decide (k' = k))) l.

(** An armed timer fires: a timeout is disarmed, an interval armed again. *)
Definition disarm (t : timer) (s : scheduler) : scheduler :=
  with_timers (flat_map (fun t' =>
    if decide (timer_id t' = timer_id t) then
      match repeats t' with
      | Some interval => [{| timer_id := timer_id t'; due := clock s + interval; repeats := repeats t';
                             calls := calls t' |}]
      | None => []
      end
    else [t']) (timers s)) s.

(** The callbacks, up to their wait. *)
Definition run_callback (t : timer) (s : scheduler) : scheduler :=
  match calls t with
  | FirstTick jobKey intervalMs =>
      setInterval (Tick jobKey) intervalMs (runScheduledJob jobKey s).1
  | Tick jobKey => (runScheduledJob jobKey s).1
  | CronTick jobKey parsed =>
      if stopped s then s else
      let '(s, waits) := runScheduledJob jobKey s in
      if waits then
        with_runs (pendingEnqueues s)
          (awaiting s ++ [{| run_key := jobKey; run_parsed := parsed; run_due := due t |}]) (ended s) s
      else (scheduleNext jobKey parsed s).2
  end.

Definition fire (t : timer) (s : scheduler) : scheduler := run_callback t (disarm t s).

(** An enqueue ends: its key is deleted, and a cron callback goes on. *)
Definition enqueue_ends (jobKey : string) (s : scheduler) : scheduler :=
  let runs := List.filter (fun r => bool_decide (run_key r = jobKey)) (awaiting s) in
  let s := with_runs (remove_key jobKey (pendingEnqueues s))
             (List.filter (fun r => negb (bool_decide (run_key r = jobKey))) (awaiting s))
             (ended s ++ map (fun r => (r, clock s)) runs) s in
  fold_left (fun s r => (scheduleNext (run_key r) (run_parsed r) s).2) runs s.

Section steps.
Context (jobs : list (string * job_configuration)).

Inductive step : scheduler -> scheduler -> Prop :=
| step_time s now : clock s <= now -> step s (with_clock now s)
| step_end_start s : starting s = true -> step s (end_start jobs s)
| step_fire s t : t ∈ timers s -> due t <= clock s -> step s (fire t s)
| step_enqueue_ends s jobKey : jobKey ∈ pendingEnqueues s -> step s (enqueue_ends jobKey s)
| step_begin_stop s : stop_waits s = None -> step s (begin_stop s).

(** From a call of [start], without another one. *)
Definition reachable (s : scheduler) : Prop := exists now, rtc step (begin_start (new_scheduler now)) s.

(** [stop] has returned: the enqueues it waited for have ended. An enqueue that began
    after the wait would not be among them; none does. *)
Definition stop_returned (s : scheduler) : Prop :=
  exists waits, stop_waits s = Some waits /\ forall k, k ∈ waits -> k ∉ pendingEnqueues s.
End steps.
