(* ===== verification/SchedulerCorrect.v ===== *)
(** * Recurring jobs: correctness

    Whatever the timers and enqueues do: one enqueue of a job at a time, a stop that
    ends everything, and for a cron expression that matches often enough for Node's
    timers, a run for every matching minute except those that pass while the timer or
    the run before it is late. The last part shows what a longer delay does. *)

From stdpp Require Import base strings list relations sorting gmap.
From Stdlib Require Import ZArith QArith Qround Ascii Lia.
From S2P Require Import Prelude Numbers Json Dates Cron Scheduler.

(** ** The invariant of timers and enqueues *)

Record timers_ok (s : scheduler) : Prop := {
  ids_distinct : NoDup (map timer_id (timers s));
  ids_below : forall t, t ∈ timers s -> (timer_id t < next_id s)%nat;
  tracked : forall t, t ∈ timers s -> timer_id t ∈ intervalIds s \/ timer_id t ∈ timeoutIds s;
  pending_distinct : NoDup (pendingEnqueues s);
  runs_pending : forall r, r ∈ awaiting s -> run_key r ∈ pendingEnqueues s
}.

Lemma setTimeout_ok f d s : timers_ok s -> timers_ok (setTimeout f d s).
Proof.
  intros [Hn Hb Ht Hp Hr]. split; cbn; try done.
  - rewrite map_app. apply NoDup_app. split; [done|]. split; [|by apply NoDup_singleton].
    intros i Hi. cbn. rewrite list_elem_of_singleton. intros ->.
    apply list_elem_of_fmap in Hi as (t & Hi & Hin). specialize (Hb t Hin). lia.
  - intros t [Hin| ->%list_elem_of_singleton]%elem_of_app; cbn; [|lia]. specialize (Hb t Hin). lia.
  - intros t [Hin| ->%list_elem_of_singleton]%elem_of_app.
    + destruct (Ht t Hin); [by left|right]. apply elem_of_app. by left.
    + right. apply elem_of_app. right. by left.
Qed.

Lemma setInterval_ok f d s : timers_ok s -> timers_ok (setInterval f d s).
Proof.
  intros [Hn Hb Ht Hp Hr]. split; cbn; try done.
  - rewrite map_app. apply NoDup_app. split; [done|]. split; [|by apply NoDup_singleton].
    intros i Hi. cbn. rewrite list_elem_of_singleton. intros ->.
    apply list_elem_of_fmap in Hi as (t & Hi & Hin). specialize (Hb t Hin). lia.
  - intros t [Hin| ->%list_elem_of_singleton]%elem_of_app; cbn; [|lia]. specialize (Hb t Hin). lia.
  - intros t [Hin| ->%list_elem_of_singleton]%elem_of_app.
    + destruct (Ht t Hin); [left|by right]. apply elem_of_app. by left.
    + left. apply elem_of_app. right. by left.
Qed.

Lemma scheduleNext_cases k p s :
  (scheduleNext k p s).2 = s \/ exists d, (scheduleNext k p s).2 = setTimeout (CronTick k p) d s.
Proof.
  unfold scheduleNext. destruct (stopped s); [by left|]. destruct (nextCronFireDate p (clock s)); [|by left].
  right. by eexists.
Qed.

Lemma scheduleNext_ok k p s : timers_ok s -> timers_ok (scheduleNext k p s).2.
Proof. intros H. destruct (scheduleNext_cases k p s) as [->|[d ->]]; [done|by apply setTimeout_ok]. Qed.

Lemma runScheduledJob_ok k s : timers_ok s -> timers_ok (runScheduledJob k s).1.
Proof.
  intros H. unfold runScheduledJob. destruct (stopped s || _) eqn:Hc; [done|].
  apply orb_false_iff in Hc as [_ Hc%bool_decide_eq_false]. destruct H as [Hn Hb Ht Hp Hr]. split; cbn; try done.
  - apply NoDup_app. split; [done|]. split; [|apply NoDup_singleton].
    intros k' Hk'. rewrite list_elem_of_singleton. by intros ->.
  - intros r Hin. apply elem_of_app. left. by apply Hr.
Qed.

Lemma disarm_timers t s t' : t' ∈ timers (disarm t s) ->
  exists t0, t0 ∈ timers s /\ timer_id t' = timer_id t0 /\ calls t' = calls t0.
Proof.
  cbn. rewrite list_elem_of_In, in_flat_map. intros (t0 & Hin & H).
  exists t0. split; [by apply list_elem_of_In|]. case_decide; [destruct (repeats t0)|]; cbn in H; naive_solver.
Qed.

Lemma disarm_ids t s : map timer_id (timers (disarm t s)) `sublist_of` map timer_id (timers s).
Proof.
  cbn. induction (timers s) as [|t' ts IH]; [done|]. cbn [flat_map map]. rewrite map_app.
  case_decide; [destruct (repeats t')|]; cbn; try by apply sublist_skip. by apply sublist_cons.
Qed.

Lemma disarm_ok t s : timers_ok s -> timers_ok (disarm t s).
Proof.
  intros [Hn Hb Ht Hp Hr]. split; try done.
  - eapply sublist_NoDup; [done|apply disarm_ids].
  - intros t' (t0 & Hin & -> & _)%disarm_timers. by apply Hb.
  - intros t' (t0 & Hin & -> & _)%disarm_timers. by apply Ht.
Qed.

Lemma fire_ok t s : timers_ok s -> timers_ok (fire t s).
Proof.
  intros H. unfold fire, run_callback. pose proof (disarm_ok t s H) as Hd.
  destruct (calls t) as [k i|k|k p].
  - by apply setInterval_ok, runScheduledJob_ok.
  - by apply runScheduledJob_ok.
  - destruct (stopped (disarm t s)); [done|]. pose proof (runScheduledJob_ok k _ Hd) as Hr.
    destruct (runScheduledJob k (disarm t s)) as [s' w] eqn:Hs. cbn in Hr.
    destruct w; [|by apply scheduleNext_ok]. destruct Hr as [Hn Hb Ht Hp Hr]. split; cbn; try done.
    intros r [Hin| ->%list_elem_of_singleton]%elem_of_app; [by apply Hr|]. cbn.
    unfold runScheduledJob in Hs. destruct (stopped _ || _); [done|]. injection Hs as <-. cbn.
    apply elem_of_app. right. by left.
Qed.

Lemma elem_of_remove_key k k' l : k' ∈ remove_key k l <-> k' ∈ l /\ k' <> k.
Proof.
  unfold remove_key. rewrite !list_elem_of_In, filter_In, negb_true_iff, bool_decide_eq_false. done.
Qed.

Lemma elem_of_filter_key (k : string) (l : list cron_run) (b : bool) r :
  r ∈ List.filter (fun r => (if b then negb else fun x => x) (bool_decide (run_key r = k))) l <->
  r ∈ l /\ (if b then run_key r <> k else run_key r = k).
Proof.
  rewrite !list_elem_of_In, filter_In. destruct b.
  - by rewrite negb_true_iff, bool_decide_eq_false.
  - by rewrite bool_decide_eq_true.
Qed.

Lemma NoDup_List_filter {A} (f : A -> bool) l : NoDup l -> NoDup (List.filter f l).
Proof. rewrite !NoDup_ListNoDup. apply List.NoDup_filter. Qed.

Lemma enqueue_ends_ok k s : timers_ok s -> timers_ok (enqueue_ends k s).
Proof.
  intros [Hn Hb Ht Hp Hr]. unfold enqueue_ends.
  match goal with |- timers_ok (fold_left _ ?l ?s0) => assert (timers_ok s0) as Hs; [|revert Hs; generalize l s0] end.
  - split; cbn; try done.
    + by apply NoDup_List_filter.
    + intros r [Hin Hk]%(elem_of_filter_key k _ true). apply elem_of_remove_key. auto.
  - intros l. induction l as [|r l IH]; [done|]. intros s0 H0. cbn [fold_left]. apply IH. by apply scheduleNext_ok.
Qed.

Lemma scheduleJob_cases j k s : (scheduleJob j k s).2 = s \/
  exists f d, (scheduleJob j k s).2 = setTimeout f d s /\
    ((exists i, f = FirstTick k i) \/ (exists p, f = CronTick k p)).
Proof.
  unfold scheduleJob. destruct (has_class j); [|by left]. cbn.
  destruct (cron j) as [c|] eqn:Hc, (every j) as [e|]; try by left.
  - unfold scheduleCronJob. rewrite Hc. destruct c; try by left.
    destruct (parseCronExpression _) as [p|]; [|by left].
    destruct (scheduleNext_cases k p s) as [->|[d ->]]; [by left|]. right. eauto 10.
  - unfold scheduleEveryJob. destruct (normalizeEvery e) as [v f]. unfold mbind, ST_bind, lift_result.
    destruct (read_duration v); [|by left].
    assert (forall first, ((if below_one a then throw IntervalTooShort else
      modify (setTimeout (FirstTick k a) first)) s).2 = s \/ exists f d, ((if below_one a then throw IntervalTooShort else
      modify (setTimeout (FirstTick k a) first)) s : result schedule_error unit * scheduler).2 = setTimeout f d s /\
      ((exists i, f = FirstTick k i) \/ (exists p, f = CronTick k p))) as Hcase.
    { intros first. destruct (below_one a); [by left|right]. eauto 10. }
    destruct f; [apply Hcase|..]; destruct (read_duration _); try (by left); apply Hcase.
Qed.

Lemma schedule_jobs_ok jobs s : timers_ok s -> timers_ok (schedule_jobs jobs s).2.
Proof.
  revert s. induction jobs as [|[k j] jobs IH]; intros s H; [done|]. cbn [schedule_jobs].
  set (m := if enabled j then scheduleJob j k else mret tt). assert (timers_ok (m s).2) as H1.
  { unfold m. destruct (enabled j); [|done]. destruct (scheduleJob_cases j k s) as [->|(f & d & -> & _)]; [done|].
    by apply setTimeout_ok. }
  unfold mbind, ST_bind. destruct (m s) as [[[]|e] s1]; [by apply IH|done].
Qed.

Lemma timers_step jobs s s' : step jobs s s' -> timers_ok s -> timers_ok s'.
Proof.
  intros Hs H. destruct Hs as [s now Hnow|s Hst|s t Hin Hd|s k Hk|s Hw].
  - destruct H. by split.
  - apply (schedule_jobs_ok jobs) in H. destruct H. by split.
  - by apply fire_ok.
  - by apply enqueue_ends_ok.
  - destruct H as [Hn Hb Ht Hp Hr].
    assert (forall t, t ∈ timers (begin_stop s) -> False) as Hnone.
    { intros t. cbn. rewrite list_elem_of_In, filter_In, <- list_elem_of_In, negb_true_iff, orb_false_iff,
        !bool_decide_eq_false. intros (Hin & H1 & H2). by destruct (Ht t Hin). }
    split; cbn; try done.
    + destruct (List.filter _ _) as [|t l] eqn:Hf; [constructor|]. exfalso. apply (Hnone t). cbn. rewrite Hf. by left.
    + intros t Hin. by apply Hnone in Hin.
    + intros t Hin. by apply Hnone in Hin.
Qed.

Lemma timers_reachable jobs s : reachable jobs s -> timers_ok s.
Proof.
  intros [now Hr]. assert (timers_ok (begin_start (new_scheduler now))) as H0.
  { split; cbn; try (by intros ? ?%elem_of_nil); apply NoDup_nil_2. }
  revert H0. induction Hr; [done|]. intros H1. by apply IHHr, (timers_step jobs x).
Qed.

(** ** Stopping *)

(** Without timers and with the flag set nothing is armed or enqueued again. *)
Lemma stopped_fold l s : stopped s = true ->
  fold_left (fun s r => (scheduleNext (run_key r) (run_parsed r) s).2) l s = s.
Proof.
  intros Hs. induction l as [|r l IH]; [done|]. cbn [fold_left]. unfold scheduleNext at 2. by rewrite Hs.
Qed.

Record halted (s0 s : scheduler) : Prop := {
  halted_stopped : stopped s = true;
  halted_started : starting s = false;
  halted_timers : timers s = [];
  halted_enqueued : enqueued s = enqueued s0;
  halted_waits : stop_waits s = Some (pendingEnqueues s0);
  halted_pending : forall k, k ∈ pendingEnqueues s -> k ∈ pendingEnqueues s0
}.

Lemma halted_step jobs s0 s s' : step jobs s s' -> halted s0 s -> halted s0 s'.
Proof.
  intros Hs [H1 H2 H3 H4 H5 H6]. destruct Hs as [s now Hnow|s Hst|s t Hin Hd|s k Hk|s Hw].
  - by split.
  - congruence.
  - rewrite H3 in Hin. by apply elem_of_nil in Hin.
  - unfold enqueue_ends. rewrite stopped_fold by done. split; cbn; try done.
    intros k' [Hk' _]%elem_of_remove_key. auto.
  - congruence.
Qed.

Lemma begin_stop_halted s0 : timers_ok s0 -> starting s0 = false -> halted s0 (begin_stop s0).
Proof.
  intros H Hst. split; try done. cbn.
  destruct (List.filter _ _) as [|t l] eqn:Hf; [done|]. exfalso.
  assert (t ∈ t :: l) as Ht by left. rewrite <- Hf, list_elem_of_In, filter_In, <- list_elem_of_In,
    negb_true_iff, orb_false_iff, !bool_decide_eq_false in Ht.
  destruct Ht as (Hin & Hi & Ho). by destruct (tracked s0 H t Hin).
Qed.

(** A job has one enqueue in flight at most, in every reachable state; and once
    [stop] is called on a started scheduler no timer is armed and nothing is enqueued
    any more, whatever comes after; when [stop] has returned no enqueue is in flight. *)
Lemma stop_ends_scheduling jobs s0 s :
  reachable jobs s0 -> starting s0 = false -> rtc (step jobs) (begin_stop s0) s ->
  NoDup (pendingEnqueues s0) /\
  stopped s = true /\ timers s = [] /\ enqueued s = enqueued s0 /\
  (stop_returned s -> pendingEnqueues s = [] /\ awaiting s = []).
Proof.
  intros Hr Hst Hs. pose proof (timers_reachable jobs s0 Hr) as Hok.
  assert (halted s0 s /\ timers_ok s) as [[H1 H2 H3 H4 H5 H6] Hoks].
  { pose proof (begin_stop_halted s0 Hok Hst) as Hh. 
    assert (timers_ok (begin_stop s0)) as Hb.
    { destruct Hok as [Hn Hb Ht Hp Hw]. pose proof (halted_timers _ _ Hh) as Hnil.
      split; rewrite ?Hnil; cbn; try done; try apply NoDup_nil_2; intros ? ?%elem_of_nil; done. }
    revert Hh Hb. induction Hs as [x|x y z Hxy _ IH]; [done|]. intros Hh Hb.
    apply IH; [by apply (halted_step jobs s0 x)|by apply (timers_step jobs x)]. }
  split; [apply Hok|]. split_and!; try done. intros (waits & Hw & Hall).
  assert (pendingEnqueues s = []) as Hnil.
  { destruct (pendingEnqueues s) as [|k l] eqn:Hp; [done|]. exfalso.
    assert (k ∈ pendingEnqueues s) as Hk by (rewrite Hp; left). rewrite Hp in Hk.
    apply (Hall k); [|done]. assert (waits = pendingEnqueues s0) as -> by congruence. by apply H6. }
  split; [done|]. destruct (awaiting s) as [|r l] eqn:Ha; [done|]. exfalso.
  pose proof (runs_pending s Hoks r) as Hp. rewrite Ha, Hnil in Hp. specialize (Hp ltac:(left)).
  by apply elem_of_nil in Hp.
Qed.

(** ** The runs of a cron job *)

(** Runs, each due at the first matching minute after the end of the one before. *)
Inductive run_chain (p : parsed_cron) (t0 : Z) : list (Z * Z) -> Z -> Prop :=
| no_run : run_chain p t0 [] t0
| one_more_run l g d g' : run_chain p t0 l g -> first_after p g d -> d <= g' ->
    run_chain p t0 (l ++ [(d, g')]) g'.

Lemma run_chain_covers p t0 l g m : run_chain p t0 l g -> candidateMatches m p = true ->
  t0 < m * msPerMinute <= g -> exists d g', (d, g') ∈ l /\ d <= m * msPerMinute <= g'.
Proof.
  intros Hc Hm. induction Hc as [|l g d g' Hc IH Hd Hle]; [lia|]. intros Hr.
  destruct (Z.le_gt_cases (m * msPerMinute) g) as [Hg|Hg].
  - destruct IH as (d' & g'' & Hin & H'); [lia|]. exists d', g''. split; [|done]. apply elem_of_app. by left.
  - exists d, g'. split; [apply elem_of_app; right; by left|].
    destruct Hd as (t & Hdt & Hgd & _ & Hno). destruct (Z.le_gt_cases d (m * msPerMinute)); [lia|].
    rewrite Hno in Hm; [done|lia].
Qed.

Lemma run_chain_le p t0 l g : run_chain p t0 l g -> t0 <= g.
Proof.
  induction 1 as [|l g d g' Hc IH Hd Hle]; [done|]. destruct Hd as (t & _ & Hgd & _). lia.
Qed.

(** The runs are of matching minutes, no two of the same. *)
Lemma run_chain_matches p t0 l g : run_chain p t0 l g ->
  Forall (fun r => r.1 <= r.2 /\ exists t, r.1 = t * msPerMinute /\ candidateMatches t p = true) l /\
  StronglySorted (fun r r' => r.2 < r'.1) l /\ Forall (fun r => r.2 <= g) l.
Proof.
  induction 1 as [|l g d g' Hc IH Hd Hle]; [by repeat constructor|].
  destruct IH as (H1 & H2 & H3). destruct Hd as (t & Hdt & Hgd & Hm & _). split_and!.
  - apply Forall_app. split; [done|]. repeat constructor; [done|]. by exists t.
  - clear H1 Hc. induction H2 as [|r l Hl IH Hr]; [by repeat constructor|]. cbn.
    inversion H3 as [|? ? Hg H3']; subst. constructor; [by apply IH|].
    apply Forall_app. split; [done|]. repeat constructor. cbn. lia.
  - apply Forall_app. split; [|by repeat constructor]. eapply Forall_impl; [done|]. cbn. lia.
Qed.

Definition callback_key (f : callback) : string :=
  match f with FirstTick k _ | Tick k | CronTick k _ => k end.

Definition key_timers (k : string) (s : scheduler) : list timer :=
  List.filter (fun t => bool_decide (callback_key (calls t) = k)) (timers s).
Definition key_runs (k : string) (s : scheduler) : list cron_run :=
  List.filter (fun r => bool_decide (run_key r = k)) (awaiting s).

(** When the ended runs of a key were due, and when they ended. *)
Definition key_ended (k : string) (s : scheduler) : list (Z * Z) :=
  map (fun e => (run_due e.1, e.2)) (List.filter (fun e => bool_decide (run_key e.1 = k)) (ended s)).

(** When the job was enqueued. *)
Definition key_enqueued (k : string) (s : scheduler) : list Z :=
  map snd (List.filter (fun e => bool_decide (e.1 = k)) (enqueued s)).

(** The minutes its runs were due at. *)
Definition key_dues (k : string) (s : scheduler) : list Z :=
  map fst (key_ended k s) ++ map run_due (key_runs k s).

(** A cron job whose last run ended at [g] has a timer or a run. *)
Inductive cron_phase (k : string) (p : parsed_cron) (g : Z) (s : scheduler) : Prop :=
| phase_armed t : key_timers k s = [t] -> calls t = CronTick k p -> repeats t = None ->
    first_after p g (due t) -> key_runs k s = [] -> k ∉ pendingEnqueues s -> cron_phase k p g s
| phase_running r : key_timers k s = [] -> key_runs k s = [r] -> run_parsed r = p -> run_key r = k ->
    first_after p g (run_due r) -> run_due r <= clock s -> k ∈ pendingEnqueues s -> cron_phase k p g s.

Definition cron_inv (k : string) (p : parsed_cron) (t0 : Z) (s : scheduler) : Prop :=
  stopped s = true \/
  exists g, run_chain p t0 (key_ended k s) g /\ g <= clock s /\ cron_phase k p g s /\
    Forall2 Z.le (key_dues k s) (key_enqueued k s).

(** ** What happens to other jobs *)

Record untouched (k : string) (s s' : scheduler) : Prop := {
  same_timers : key_timers k s' = key_timers k s;
  same_runs : key_runs k s' = key_runs k s;
  same_ended : key_ended k s' = key_ended k s;
  same_enqueued : key_enqueued k s' = key_enqueued k s;
  same_pending : k ∈ pendingEnqueues s' <-> k ∈ pendingEnqueues s;
  same_clock : clock s' = clock s;
  same_stopped : stopped s' = stopped s
}.

Lemma untouched_refl k s : untouched k s s.
Proof. by split. Qed.

Lemma untouched_trans k s s' s'' : untouched k s s' -> untouched k s' s'' -> untouched k s s''.
Proof. intros [] []. split; try congruence. tauto. Qed.

Lemma untouched_inv k p t0 s s' : untouched k s s' -> cron_inv k p t0 s -> cron_inv k p t0 s'.
Proof.
  intros [Ht Hr He Hq Hp Hc Hs] [Hst|(g & H1 & H2 & H3 & H4)]; [left; congruence|right].
  exists g. unfold key_dues. rewrite He, Hc, Hr, Hq. split; [done|]. split; [done|]. split; [|done].
  destruct H3 as [t|r].
  - apply (phase_armed _ _ _ _ t); rewrite ?Ht, ?Hr, ?Hp; done.
  - apply (phase_running _ _ _ _ r); rewrite ?Ht, ?Hr, ?Hp, ?Hc; done.
Qed.

Lemma key_timers_app k ts t s :
  callback_key (calls t) <> k -> timers s = ts ++ [t] ->
  key_timers k s = List.filter (fun t => bool_decide (callback_key (calls t) = k)) ts.
Proof.
  intros Hk Ht. unfold key_timers. rewrite Ht, List.filter_app. cbn. rewrite bool_decide_eq_false_2 by done.
  by rewrite app_nil_r.
Qed.

Lemma setTimeout_untouched k f d s : callback_key f <> k -> untouched k s (setTimeout f d s).
Proof. intros Hk. split; try done. eapply (key_timers_app k (timers s)); [|done]; done. Qed.

Lemma setInterval_untouched k f d s : callback_key f <> k -> untouched k s (setInterval f d s).
Proof. intros Hk. split; try done. eapply (key_timers_app k (timers s)); [|done]; done. Qed.

Lemma scheduleNext_untouched k k' p s : k' <> k -> untouched k s (scheduleNext k' p s).2.
Proof.
  intros Hk. destruct (scheduleNext_cases k' p s) as [->|[d ->]]; [apply untouched_refl|].
  by apply setTimeout_untouched.
Qed.

Lemma runScheduledJob_untouched k k' s : k' <> k -> untouched k s (runScheduledJob k' s).1.
Proof.
  intros Hk. unfold runScheduledJob. destruct (stopped s || _); [apply untouched_refl|]. split; try done.
  - unfold key_enqueued. cbn. rewrite List.filter_app. cbn. by rewrite bool_decide_eq_false_2, app_nil_r.
  - cbn. rewrite elem_of_app, list_elem_of_singleton. naive_solver.
Qed.

(** Disarming touches one timer: ids are distinct. *)
Lemma disarm_split t s : timers_ok s -> t ∈ timers s -> exists before rest,
  timers s = before ++ t :: rest /\
  timers (disarm t s) = before ++ (match repeats t with
    | Some i => [{| timer_id := timer_id t; due := clock s + i; repeats := repeats t; calls := calls t |}]
    | None => [] end) ++ rest.
Proof.
  intros Hok Hin. apply list_elem_of_split in Hin as (before & rest & Hs). exists before, rest.
  split; [done|]. pose proof (ids_distinct s Hok) as Hn. cbn. rewrite Hs in Hn |- *.
  rewrite map_app in Hn. cbn in Hn.
  assert (forall l, timer_id t ∉ map timer_id l -> flat_map (fun t' : timer =>
    if decide (timer_id t' = timer_id t) then match repeats t' with
      | Some interval => [{| timer_id := timer_id t'; due := clock s + interval; repeats := repeats t'; calls := calls t' |}]
      | None => [] end else [t']) l = l) as Hother.
  { induction l as [|t' l IH]; [done|]. cbn. rewrite not_elem_of_cons. intros [H1 H2].
    rewrite decide_False by congruence. cbn. by rewrite IH. }
  apply NoDup_app in Hn as (_ & Hd & [Hr _]%NoDup_cons).
  rewrite flat_map_app. cbn. rewrite decide_True by done. rewrite !Hother; [done|done|].
  intros Hb. by apply (Hd _ Hb); left.
Qed.

Lemma disarm_untouched k t s : timers_ok s -> t ∈ timers s -> callback_key (calls t) <> k ->
  untouched k s (disarm t s).
Proof.
  intros Hok Hin Hk. split; try done. unfold key_timers.
  destruct (disarm_split t s Hok Hin) as (before & rest & -> & ->).
  rewrite !List.filter_app. cbn. rewrite (bool_decide_eq_false_2 (callback_key (calls t) = k)) by done.
  f_equal. destruct (repeats t); [|done]. cbn. by rewrite bool_decide_eq_false_2.
Qed.

Lemma filter_runs_other k k' l : k' <> k ->
  List.filter (fun r => bool_decide (run_key r = k))
    (List.filter (fun r => negb (bool_decide (run_key r = k'))) l) =
  List.filter (fun r : cron_run => bool_decide (run_key r = k)) l.
Proof.
  intros Hk. induction l as [|r l IH]; [done|]. cbn.
  destruct (decide (run_key r = k')) as [Hr|Hr].
  - rewrite (bool_decide_eq_true_2 _ Hr), (bool_decide_eq_false_2 (run_key r = k)) by congruence. done.
  - rewrite (bool_decide_eq_false_2 _ Hr). cbn. by rewrite IH.
Qed.

Lemma filter_runs_same k l :
  List.filter (fun r : cron_run => bool_decide (run_key r = k))
    (List.filter (fun r => negb (bool_decide (run_key r = k))) l) = [].
Proof.
  induction l as [|r l IH]; [done|]. cbn. destruct (bool_decide (run_key r = k)) eqn:Hr; cbn; [done|].
  by rewrite Hr.
Qed.

Lemma fire_untouched k t s : timers_ok s -> t ∈ timers s -> callback_key (calls t) <> k ->
  untouched k s (fire t s).
Proof.
  intros Hok Hin Hk. unfold fire, run_callback. pose proof (disarm_untouched k t s Hok Hin Hk) as Hd.
  eapply untouched_trans; [exact Hd|]. clear Hd. set (s1 := disarm t s). destruct (calls t) as [k' i|k'|k' p].
  - eapply untouched_trans; [by apply (runScheduledJob_untouched k k')|]. by apply setInterval_untouched.
  - by apply runScheduledJob_untouched.
  - destruct (stopped s1); [apply untouched_refl|].
    pose proof (runScheduledJob_untouched k k' s1 Hk) as Hr. destruct (runScheduledJob k' s1) as [s2 w]. cbn in Hr.
    eapply untouched_trans; [exact Hr|]. destruct w; [|by apply scheduleNext_untouched]. split; try done.
    unfold key_runs. cbn. rewrite List.filter_app. cbn. cbn in Hk. rewrite bool_decide_eq_false_2 by done.
    by rewrite app_nil_r.
Qed.

Lemma enqueue_ends_untouched k k' s : k' <> k -> untouched k s (enqueue_ends k' s).
Proof.
  intros Hk. unfold enqueue_ends. set (runs := List.filter (fun r => bool_decide (run_key r = k')) (awaiting s)).
  assert (forall r, r ∈ runs -> run_key r = k') as Hruns.
  { intros r Hr. by apply (elem_of_filter_key k' _ false) in Hr as [_ ?]. }
  match goal with |- untouched k s (fold_left _ _ ?x) => set (s1 := x) end.
  assert (untouched k s s1) as H1.
  { split; try done.
    - unfold key_runs. cbn. by apply filter_runs_other.
    - unfold key_ended. cbn. rewrite List.filter_app, map_app.
      replace (List.filter _ (map _ runs)) with (@nil (cron_run * Z)); [by rewrite app_nil_r|].
      symmetry. clear s1. induction runs as [|r l IH]; [done|]. cbn.
      rewrite bool_decide_eq_false_2 by (rewrite (Hruns r) by left; done).
      apply IH. intros r' Hr'. apply Hruns. by right.
    - cbn. rewrite elem_of_remove_key. naive_solver. }
  eapply untouched_trans; [exact H1|]. clearbody s1. clear H1. revert s1.
  induction runs as [|r l IH]; intros s1; [apply untouched_refl|]. cbn [fold_left].
  eapply untouched_trans; [|apply IH; intros; apply Hruns; by right].
  apply scheduleNext_untouched. rewrite (Hruns r) by left. done.
Qed.

(** ** A cron job *)

(** The expression matches again within what a timer can wait, 24 days and more. *)
Definition frequent (p : parsed_cron) : Prop :=
  forall from, exists r, nextCronFireDate p from = Ok r /\ r - from <= TIMEOUT_MAX.

Lemma timer_delay_Z z : 1 <= z <= TIMEOUT_MAX -> timer_delay (Fin (inject_Z z)) = z.
Proof.
  intros [H1 H2]. unfold timer_delay. rewrite !(proj2 (Qle_bool_iff _ _)); [by rewrite Qfloor_Z|..];
    [by rewrite <- Zle_Qle|]. change 1%Q with (inject_Z 1). by rewrite <- Zle_Qle.
Qed.

Lemma scheduleNext_arms k p s : frequent p -> stopped s = false -> exists delay d,
  scheduleNext k p s = (Ok tt, setTimeout (CronTick k p) delay s) /\
  clock s + timer_delay delay = d /\ first_after p (clock s) d.
Proof.
  intros Hf Hs. unfold scheduleNext. rewrite Hs. destruct (Hf (clock s)) as (r & Hr & Hle).
  pose proof (next_fire p (clock s) r Hr) as Hn. rewrite Hr.
  exists (Fin (inject_Z (Z.max 1 (r - clock s)))), r. split; [done|].
  assert (clock s < r) by (by destruct Hn as (t & -> & Hlt & _)).
  rewrite timer_delay_Z by (unfold TIMEOUT_MAX in *; lia). split; [lia|done].
Qed.

Lemma key_timers_setTimeout k f d s : callback_key f = k ->
  key_timers k (setTimeout f d s) = key_timers k s ++
    [{| timer_id := next_id s; due := clock s + timer_delay d; repeats := None; calls := f |}].
Proof.
  intros Hk. unfold key_timers. cbn. rewrite List.filter_app. cbn. by rewrite bool_decide_eq_true_2.
Qed.

Lemma fire_armed k p g t s : timers_ok s -> stopped s = false -> t ∈ timers s -> due t <= clock s ->
  callback_key (calls t) = k -> cron_phase k p g s ->
  cron_phase k p g (fire t s) /\ key_ended k (fire t s) = key_ended k s /\ clock (fire t s) = clock s /\
  key_dues k (fire t s) = key_dues k s ++ [due t] /\
  key_enqueued k (fire t s) = key_enqueued k s ++ [clock s].
Proof.
  intros Hok Hst Hin Hdue Hk Hphase.
  assert (t ∈ key_timers k s) as Hkt.
  { unfold key_timers. rewrite list_elem_of_In, filter_In, <- list_elem_of_In, bool_decide_eq_true. done. }
  destruct Hphase as [t' Ht Hcalls Hrep Hfirst Hruns Hpend|r Ht]; rewrite Ht in Hkt; [|by apply elem_of_nil in Hkt].
  apply list_elem_of_singleton in Hkt as ->. unfold fire, run_callback. rewrite Hcalls.
  unfold runScheduledJob. change (stopped (disarm t' s)) with (stopped s).
  change (pendingEnqueues (disarm t' s)) with (pendingEnqueues s). rewrite Hst, bool_decide_eq_false_2 by done. cbn [orb].
  assert (forall runs, List.filter (fun r => bool_decide (run_key r = k))
    (runs ++ [{| run_key := k; run_parsed := p; run_due := due t' |}]) =
    List.filter (fun r => bool_decide (run_key r = k)) runs ++ [{| run_key := k; run_parsed := p; run_due := due t' |}]) as Hadd.
  { intros runs. rewrite List.filter_app. cbn. by rewrite bool_decide_eq_true_2. }
  split; [|split; [done|split; [done|split]]]; cycle 1.
  { unfold key_dues, key_runs. cbn. by rewrite Hadd, map_app, app_assoc. }
  { unfold key_enqueued. cbn. rewrite List.filter_app. cbn. by rewrite bool_decide_eq_true_2, map_app. }
  assert (key_timers k (disarm t' s) = []) as Hnone.
  { destruct (disarm_split t' s Hok Hin) as (before & rest & Hs & Hd). unfold key_timers in *.
    rewrite Hs, List.filter_app in Ht. cbn in Ht. rewrite bool_decide_eq_true_2 in Ht by done.
    rewrite Hd, Hrep. cbn. rewrite List.filter_app. rewrite <- (app_nil_l [t']) in Ht.
    destruct (List.filter _ before) as [|x l]; cbn in Ht |- *; [congruence|].
    injection Ht as -> Ht. by apply app_eq_nil in Ht as [_ ?]. }
  eapply (phase_running _ _ _ _ {| run_key := k; run_parsed := p; run_due := due t' |}); try done.
  - unfold key_runs in *. cbn. by rewrite Hadd, Hruns.
  - cbn. apply elem_of_app. right. by left.
Qed.

Lemma enqueue_ends_running k p t0 g s : frequent p -> stopped s = false ->
  run_chain p t0 (key_ended k s) g -> cron_phase k p g s -> k ∈ pendingEnqueues s ->
  Forall2 Z.le (key_dues k s) (key_enqueued k s) ->
  cron_inv k p t0 (enqueue_ends k s).
Proof.
  intros Hf Hst Hchain Hphase Hk Hle. destruct Hphase as [|r Ht Hruns Hp Hrk Hfirst Hdue _]; [done|].
  unfold enqueue_ends. unfold key_dues in Hle. rewrite Hruns in Hle. cbn in Hle. unfold key_runs in Hruns. rewrite Hruns. cbn [fold_left map].
  match goal with |- cron_inv k p t0 (scheduleNext _ _ ?x).2 => set (s1 := x) end.
  rewrite Hp, Hrk. destruct (scheduleNext_arms k p s1 Hf Hst) as (delay & d & -> & Hd & Hfirst').
  cbn [snd]. right. exists (clock s).
  assert (key_ended k (setTimeout (CronTick k p) delay s1) = key_ended k s ++ [(run_due r, clock s)]) as Hended.
  { unfold key_ended. cbn. rewrite List.filter_app, map_app. cbn. by rewrite bool_decide_eq_true_2. }
  rewrite Hended. split; [by eapply one_more_run|]. split; [done|]. split; cycle 1.
  { unfold key_dues. rewrite Hended, map_app. unfold key_runs. cbn. rewrite filter_runs_same. cbn.
    by rewrite app_nil_r. }
  eapply phase_armed.
  - rewrite key_timers_setTimeout by done. change (key_timers k s1) with (key_timers k s). by rewrite Ht.
  - done.
  - done.
  - cbn. change (clock s1) with (clock s) in Hd, Hfirst'. by rewrite Hd.
  - apply filter_runs_same.
  - cbn. rewrite elem_of_remove_key. naive_solver.
Qed.

Lemma scheduleNext_flags k p s :
  starting (scheduleNext k p s).2 = starting s /\ stopped (scheduleNext k p s).2 = stopped s.
Proof. by destruct (scheduleNext_cases k p s) as [->|[d ->]]. Qed.

Lemma run_callback_flags t s :
  starting (run_callback t s) = starting s /\ stopped (run_callback t s) = stopped s.
Proof.
  assert (forall k, starting (runScheduledJob k s).1 = starting s /\
    stopped (runScheduledJob k s).1 = stopped s) as Hrun.
  { intros k. unfold runScheduledJob. by destruct (stopped s || _). }
  unfold run_callback. destruct (calls t) as [k i|k|k p]; [apply Hrun|apply Hrun|].
  destruct (stopped s) eqn:Hs; [done|]. specialize (Hrun k). destruct (runScheduledJob k s) as [s' w]. cbn in Hrun.
  destruct w; [done|]. by rewrite !(proj1 (scheduleNext_flags _ _ _)), !(proj2 (scheduleNext_flags _ _ _)).
Qed.

Lemma fire_starting t s : starting (fire t s) = starting s.
Proof. unfold fire. by rewrite (proj1 (run_callback_flags _ _)). Qed.

Lemma fire_stopped t s : stopped (fire t s) = stopped s.
Proof. unfold fire. by rewrite (proj2 (run_callback_flags _ _)). Qed.

Lemma enqueue_ends_flags k s :
  starting (enqueue_ends k s) = starting s /\ stopped (enqueue_ends k s) = stopped s.
Proof.
  unfold enqueue_ends. match goal with |- context [fold_left _ ?l ?x] => set (s1 := x); set (runs := l) end.
  change (starting s) with (starting s1). change (stopped s) with (stopped s1). clearbody s1 runs. revert s1.
  induction runs as [|r l IH]; intros s1; [done|]. cbn [fold_left].
  destruct (IH (scheduleNext (run_key r) (run_parsed r) s1).2) as [-> ->]. apply scheduleNext_flags.
Qed.

Lemma cron_step jobs k p t0 s s' : frequent p -> step jobs s s' -> timers_ok s -> starting s = false ->
  cron_inv k p t0 s -> cron_inv k p t0 s' /\ starting s' = false.
Proof.
  intros Hf Hstep Hok Hst Hinv. destruct Hstep as [s now Hnow|s Hst'|s t Hin Hdue|s k' Hk'|s Hw].
  - split; [|done]. destruct Hinv as [?|(g & H1 & H2 & H3 & H4)]; [by left|right]. exists g. split; [done|].
    split; [cbn; lia|]. split; [|done]. destruct H3 as [t|r]; [by apply (phase_armed _ _ _ _ t)|].
    apply (phase_running _ _ _ _ r); try done. cbn. lia.
  - congruence.
  - split; [|by rewrite fire_starting]. destruct (decide (callback_key (calls t) = k)) as [Hk|Hk].
    + destruct (stopped s) eqn:Hs; [left; by rewrite fire_stopped|].
      destruct Hinv as [?|(g & H1 & H2 & H3 & H4)]; [congruence|right]. exists g.
      destruct (fire_armed k p g t s Hok Hs Hin Hdue Hk H3) as (H5 & -> & -> & -> & ->).
      split_and!; try done. apply Forall2_app; [done|]. by repeat constructor.
    + eapply untouched_inv; [|done]. by apply fire_untouched.
  - split; [|by rewrite (proj1 (enqueue_ends_flags k' s))].
    destruct (decide (k' = k)) as [->|Hk]; [|eapply untouched_inv; [by apply enqueue_ends_untouched|done]].
    destruct (stopped s) eqn:Hs; [left; by rewrite (proj2 (enqueue_ends_flags k s))|].
    destruct Hinv as [?|(g & H1 & H2 & H3 & H4)]; [congruence|]. by apply (enqueue_ends_running k p t0 g).
  - split; [by left|done].
Qed.

(** ** Starting *)

Definition fresh (s : scheduler) : Prop :=
  timers s = [] /\ awaiting s = [] /\ pendingEnqueues s = [] /\ ended s = [] /\ enqueued s = [].

Lemma starting_fresh jobs s : reachable jobs s -> starting s = true -> fresh s.
Proof.
  intros [now Hr]. assert (starting (begin_start (new_scheduler now)) = true ->
    fresh (begin_start (new_scheduler now))) as H0 by done.
  revert H0. induction Hr as [|x y z Hxy _ IH]; [done|]. intros H0. apply IH. clear IH.
  destruct Hxy as [s t Ht|s Hs|s t Hin Hd|s k Hk|s Hw]; try done.
  - rewrite fire_starting. intros Hs. destruct (H0 Hs) as [Hnil _]. rewrite Hnil in Hin. by apply elem_of_nil in Hin.
  - rewrite (proj1 (enqueue_ends_flags k s)). intros Hs. destruct (H0 Hs) as (_ & _ & Hnil & _).
    rewrite Hnil in Hk. by apply elem_of_nil in Hk.
  - cbn. intros Hs. destruct (H0 Hs) as (Hnil & H2 & H3 & H4). unfold fresh. cbn. by rewrite Hnil.
Qed.

Definition is_cron_job (j : job_configuration) (p : parsed_cron) : Prop :=
  enabled j = true /\ exists e, cron j = Some (JsString e) /\ parseCronExpression (JsString e) = Ok p.

Lemma scheduleJob_cron j k p s : is_cron_job j p -> frequent p -> stopped s = false ->
  (scheduleJob j k s).1 = Ok tt -> exists delay d,
  (scheduleJob j k s).2 = setTimeout (CronTick k p) delay s /\
  clock s + timer_delay delay = d /\ first_after p (clock s) d.
Proof.
  intros (_ & e & Hc & Hp) Hf Hs. unfold scheduleJob. destruct (has_class j); [|done]. cbn. rewrite Hc.
  destruct (every j); [done|]. unfold scheduleCronJob. rewrite Hc, Hp. intros _.
  destruct (scheduleNext_arms k p s Hf Hs) as (delay & d & -> & Hd). by exists delay, d.
Qed.

Lemma scheduleJob_untouched j k k' s : k' <> k -> untouched k s (scheduleJob j k' s).2.
Proof.
  intros Hk. destruct (scheduleJob_cases j k' s) as [->|(f & d & -> & Hf)]; [apply untouched_refl|].
  apply setTimeout_untouched. by destruct Hf as [[i ->]|[p ->]].
Qed.

Lemma schedule_jobs_cons k j jobs s : (schedule_jobs ((k, j) :: jobs) s).1 = Ok tt ->
  exists s1, (if enabled j then (scheduleJob j k s).1 = Ok tt /\ s1 = (scheduleJob j k s).2 else s1 = s) /\
    (schedule_jobs jobs s1).1 = Ok tt /\ (schedule_jobs ((k, j) :: jobs) s).2 = (schedule_jobs jobs s1).2.
Proof.
  cbn [schedule_jobs]. unfold mbind, ST_bind. destruct (enabled j).
  - destruct (scheduleJob j k s) as [[[]|e] s1]; [|done]. intros H. by exists s1.
  - intros H. by exists s.
Qed.

Lemma schedule_jobs_untouched k jobs s : k ∉ map fst jobs -> (schedule_jobs jobs s).1 = Ok tt ->
  untouched k s (schedule_jobs jobs s).2.
Proof.
  revert s. induction jobs as [|[k' j] jobs IH]; intros s Hk H; [apply untouched_refl|].
  cbn in Hk. apply not_elem_of_cons in Hk as [Hk Hks].
  apply schedule_jobs_cons in H as (s1 & Hs1 & H & ->). eapply untouched_trans; [|by apply IH].
  destruct (enabled j); [destruct Hs1 as [_ ->]|subst; apply untouched_refl].
  by apply scheduleJob_untouched.
Qed.

Lemma start_cron jobs k j p s : NoDup (map fst jobs) -> (k, j) ∈ jobs -> is_cron_job j p -> frequent p ->
  stopped s = false -> key_timers k s = [] -> key_runs k s = [] -> key_ended k s = [] ->
  key_enqueued k s = [] -> k ∉ pendingEnqueues s -> (schedule_jobs jobs s).1 = Ok tt ->
  cron_inv k p (clock s) (schedule_jobs jobs s).2.
Proof.
  intros Hnd Hin Hj Hf. revert s. induction jobs as [|[k' j'] jobs IH]; [by apply elem_of_nil in Hin|].
  intros s Hs Ht Hr He Hq Hp H. cbn in Hnd. apply NoDup_cons in Hnd as [Hk' Hnd].
  apply schedule_jobs_cons in H as (s1 & Hs1 & H & ->). apply elem_of_cons in Hin as [[= <- <-]|Hin].
  - eapply untouched_inv; [by apply schedule_jobs_untouched|]. rewrite (proj1 Hj) in Hs1. destruct Hs1 as [Hok ->].
    destruct (scheduleJob_cron j k p s Hj Hf Hs Hok) as (delay & d & -> & Hd & Hfirst).
    right. exists (clock s). change (key_ended k (setTimeout (CronTick k p) delay s)) with (key_ended k s).
    unfold key_dues. change (key_ended k (setTimeout (CronTick k p) delay s)) with (key_ended k s).
    change (key_runs k (setTimeout (CronTick k p) delay s)) with (key_runs k s).
    change (key_enqueued k (setTimeout (CronTick k p) delay s)) with (key_enqueued k s).
    rewrite He, Hr, Hq. split; [constructor|]. split; [done|]. split; [|constructor].
    eapply phase_armed; [rewrite key_timers_setTimeout by done; by rewrite Ht|done|done| |done|done].
    cbn. by rewrite Hd.
  - assert (k' <> k) as Hkk.
    { intros ->. apply Hk'. apply list_elem_of_fmap. by exists (k, j). }
    assert (untouched k s s1) as [U1 U2 U3 U4 U5 U6 U7].
    { destruct (enabled j'); [destruct Hs1 as [_ ->]; by apply scheduleJob_untouched|subst; apply untouched_refl]. }
    rewrite <- U6. apply IH; try congruence; try done. by rewrite U5.
Qed.

(** C25: a cron job of a scheduler that has started runs for every matching minute,
    unless the minute passes while the timer or the run of an earlier one is late. The next
    match of its expression is always less than 24.8 days away ([frequent]): the longest
    delay of a timer; a job that matches less often runs at once and again and again
    ([far_cron_fires_at_once]). Then each run so far was due at a matching minute and ended
    before the next one was due, so no minute runs twice; each run is one enqueue, not before
    it was due; and every matching minute since the start fell between the due time and the
    end of a run, or a run is in flight or a timer overdue that was due by then. *)
Theorem cron_runs_every_match jobs k j p s0 s :
  NoDup (map fst jobs) -> (k, j) ∈ jobs -> is_cron_job j p -> frequent p ->
  reachable jobs s0 -> starting s0 = true -> stopped s0 = false -> (schedule_jobs jobs s0).1 = Ok tt ->
  rtc (step jobs) (end_start jobs s0) s -> stopped s = false ->
  Forall (fun r => r.1 <= r.2 /\ exists t, r.1 = t * msPerMinute /\ candidateMatches t p = true) (key_ended k s) /\
  StronglySorted (fun r r' => r.2 < r'.1) (key_ended k s) /\
  Forall2 Z.le (key_dues k s) (key_enqueued k s) /\
  forall m, candidateMatches m p = true -> clock s0 < m * msPerMinute <= clock s ->
    (exists d g, (d, g) ∈ key_ended k s /\ d <= m * msPerMinute <= g) \/
    (exists r, r ∈ awaiting s /\ run_key r = k /\ run_due r <= m * msPerMinute) \/
    (exists t, t ∈ timers s /\ calls t = CronTick k p /\ due t <= m * msPerMinute).
Proof.
  intros Hnd Hin Hj Hf Hr Hst Hs0 Hstart Hsteps Hs.
  assert (cron_inv k p (clock s0) (end_start jobs s0)) as Hinv.
  { destruct (starting_fresh jobs s0 Hr Hst) as (H1 & H2 & H3 & H4 & H5).
    eapply (untouched_inv k p _ (schedule_jobs jobs s0).2); [by split|].
    apply (start_cron jobs k j p s0); try done.
    - unfold key_timers. by rewrite H1.
    - unfold key_runs. by rewrite H2.
    - unfold key_ended. by rewrite H4.
    - unfold key_enqueued. by rewrite H5.
    - rewrite H3. apply not_elem_of_nil. }
  assert (timers_ok (end_start jobs s0)) as Hok.
  { apply (timers_step jobs s0); [by constructor|by apply (timers_reachable jobs)]. }
  assert (cron_inv k p (clock s0) s) as [?|(g & Hchain & Hg & Hphase & Hle)]; [|congruence|].
  { clear Hstart Hs. assert (starting (end_start jobs s0) = false) as Hd by done. revert Hok Hinv Hd.
    induction Hsteps as [|x y z Hxy _ IH]; [done|]. intros Hok Hinv Hd.
    destruct (cron_step jobs k p (clock s0) x y Hf Hxy Hok Hd Hinv) as [Hi' Hd'].
    apply IH; [by apply (timers_step jobs x)|done|done]. }
  destruct (run_chain_matches _ _ _ _ Hchain) as (H1 & H2 & _). split; [done|]. split; [done|]. split; [done|].
  intros m Hm Hr'. destruct (Z.le_gt_cases (m * msPerMinute) g) as [Hgm|Hgm].
  { left. eapply run_chain_covers; [done|done|lia]. }
  assert (forall d, first_after p g d -> d <= m * msPerMinute) as Hfirst.
  { intros d (t & -> & _ & _ & Hno). destruct (Z.le_gt_cases (t * msPerMinute) (m * msPerMinute)); [done|].
    rewrite Hno in Hm; [done|lia]. }
  right. destruct Hphase as [t Ht Hcalls _ Hfst _ _|r _ Hruns _ Hrk Hfst _ _].
  - right. exists t. split; [|split; [done|by apply Hfirst]].
    assert (t ∈ key_timers k s) as Hkt by (rewrite Ht; left).
    unfold key_timers in Hkt. by rewrite list_elem_of_In, filter_In, <- list_elem_of_In in Hkt; destruct Hkt.
  - left. exists r. split; [|split; [done|by apply Hfirst]].
    assert (r ∈ key_runs k s) as Hkr by (rewrite Hruns; left).
    by apply (elem_of_filter_key k _ false) in Hkr as [? _].
Qed.

(** ** An hourly job *)

#[local] Opaque nextCronFireDate.

Lemma next_fire_is p from r : first_after p from r ->
  r <= from + Z.of_N MAX_NEXT_FIRE_ITERATIONS * msPerMinute -> nextCronFireDate p from = Ok r.
Proof.
  intros (t & -> & Hlt & Hm & Hno) Hle. pose proof (next_fire_or_none p from) as Hn.
  destruct (nextCronFireDate p from) as [r'|x].
  - destruct Hn as (t' & -> & Hlt' & Hm' & Hno'). do 2 f_equal.
    destruct (Z.lt_trichotomy t t') as [H|[H|H]]; [|done|]; unfold msPerMinute in *.
    + rewrite Hno' in Hm; [done|lia].
    + rewrite Hno in Hm'; [done|lia].
  - destruct Hn as [_ Hn]. rewrite Hn in Hm; [done|lia].
Qed.

Definition hourly : parsed_cron :=
  match parseCronExpression (JsString "@hourly") with Ok p => p | Throw _ => leap_day_schedule end.

Lemma parse_hourly : parseCronExpression (JsString "@hourly") = Ok hourly.
Proof. vm_compute. reflexivity. Qed.

Lemma hourly_matches t : candidateMatches t hourly = bool_decide (getMinutes t = 0).
Proof.
  assert (forall first n l, Forall (fun h => bool_decide (h ∈ (l : gset Z)) = true) (map Z.of_nat (seq first n)) ->
    forall h, Z.of_nat first <= h < Z.of_nat (first + n) -> bool_decide (h ∈ l) = true) as Hrange.
  { intros first n l Hall h Hr. rewrite Forall_forall in Hall. apply Hall. apply list_elem_of_fmap.
    exists (Z.to_nat h). split; [lia|]. apply elem_of_seq. lia. }
  unfold candidateMatches. assert (minute hourly = {[ 0 ]}) as -> by (vm_compute; reflexivity).
  rewrite (bool_decide_ext _ (getMinutes t = 0)) by apply elem_of_singleton.
  destruct (bool_decide (getMinutes t = 0)); [|done]. cbn [negb].
  rewrite (Hrange 0%nat 24%nat (hour hourly));
    [|by repeat constructor|unfold getHours; Z.to_euclidean_division_equations; lia].
  rewrite (Hrange 1%nat 12%nat (month hourly));
    [|by repeat constructor|unfold getMonth; pose proof (month_and_date (t / minutesPerDay)); lia].
  reflexivity.
Qed.

Lemma next_hour from : nextCronFireDate hourly from = Ok ((from / 3600000 + 1) * 60 * msPerMinute).
Proof.
  apply next_fire_is.
  - exists ((from / 3600000 + 1) * 60). split; [done|]. unfold msPerMinute.
    split; [Z.to_euclidean_division_equations; lia|]. rewrite hourly_matches. split.
    + unfold getMinutes. by rewrite Z.mod_mul.
    + intros u Hu. rewrite hourly_matches. apply bool_decide_eq_false_2. unfold getMinutes.
      Z.to_euclidean_division_equations. lia.
  - transitivity (from + 3600000); unfold msPerMinute; [Z.to_euclidean_division_equations; lia|].
    apply Z.add_le_mono_l. by vm_compute.
Qed.

Lemma hourly_frequent : frequent hourly.
Proof.
  intros from. eexists. split; [apply next_hour|]. unfold TIMEOUT_MAX, msPerMinute.
  Z.to_euclidean_division_equations. lia.
Qed.

Definition hourly_job : job_configuration := {|
  has_class := true; cron := Some (JsString "@hourly"); every := None; enabled := true |}.
Definition demo_jobs : list (string * job_configuration) := [("report", hourly_job)].

Lemma hourly_scheduleNext k s : stopped s = false -> scheduleNext k hourly s =
  (Ok tt, setTimeout (CronTick k hourly)
    (Fin (inject_Z (Z.max 1 ((clock s / 3600000 + 1) * 60 * msPerMinute - clock s)))) s).
Proof. intros Hs. unfold scheduleNext. by rewrite Hs, next_hour. Qed.

(** Started at half past the first hour; the run of the second hour lasts ten minutes. *)
Definition demo_start : scheduler := begin_start (new_scheduler 1800000).

Lemma demo_schedule : schedule_jobs demo_jobs demo_start =
  (Ok tt, setTimeout (CronTick "report" hourly) (Fin (inject_Z 1800000)) demo_start).
Proof.
  unfold demo_jobs, schedule_jobs, hourly_job, scheduleJob, scheduleCronJob.
  cbn [enabled cron every has_class negb]. rewrite parse_hourly. unfold mbind, ST_bind.
  by rewrite hourly_scheduleNext.
Qed.

Definition demo_timer : timer := {|
  timer_id := 0; due := 3600000; repeats := None; calls := CronTick "report" hourly |}.

Definition demo_running : scheduler :=
  fire demo_timer (with_clock 3600005 (end_start demo_jobs demo_start)).
Definition demo_ran : scheduler := enqueue_ends "report" (with_clock 4200000 demo_running).

Lemma demo_running_is : demo_running = {|
  stopped := false; intervalIds := []; timeoutIds := [0%nat]; pendingEnqueues := ["report"]; timers := [];
  next_id := 1; clock := 3600005;
  awaiting := [{| run_key := "report"; run_parsed := hourly; run_due := 3600000 |}];
  ended := []; enqueued := [("report", 3600005)]; starting := false; stop_waits := None |}.
Proof. unfold demo_running, end_start. rewrite demo_schedule. reflexivity. Qed.

Lemma demo_ran_is : demo_ran = {|
  stopped := false; intervalIds := []; timeoutIds := [0%nat; 1%nat]; pendingEnqueues := [];
  timers := [{| timer_id := 1; due := 7200000; repeats := None; calls := CronTick "report" hourly |}];
  next_id := 2; clock := 4200000; awaiting := [];
  ended := [({| run_key := "report"; run_parsed := hourly; run_due := 3600000 |}, 4200000)];
  enqueued := [("report", 3600005)]; starting := false; stop_waits := None |}.
Proof.
  unfold demo_ran. rewrite demo_running_is.
  transitivity ((scheduleNext "report" hourly {|
    stopped := false; intervalIds := []; timeoutIds := [0%nat]; pendingEnqueues := []; timers := [];
    next_id := 1; clock := 4200000; awaiting := [];
    ended := [({| run_key := "report"; run_parsed := hourly; run_due := 3600000 |}, 4200000)];
    enqueued := [("report", 3600005)]; starting := false; stop_waits := None |}).2); [reflexivity|].
  by rewrite hourly_scheduleNext.
Qed.

Definition demo_waiting : scheduler := with_clock 3600005 (end_start demo_jobs demo_start).

Lemma demo_waiting_is : timers demo_waiting = [demo_timer] /\ clock demo_waiting = 3600005 /\
  clock (end_start demo_jobs demo_start) = 1800000.
Proof. unfold demo_waiting, end_start. rewrite demo_schedule. done. Qed.

Lemma demo_step_fire : step demo_jobs demo_waiting demo_running.
Proof.
  destruct demo_waiting_is as (Ht & Hc & _). unfold demo_running. fold demo_waiting.
  apply step_fire; [rewrite Ht; left|rewrite Hc; cbn; lia].
Qed.

Lemma demo_step_time : step demo_jobs (end_start demo_jobs demo_start) demo_waiting.
Proof. apply step_time. destruct demo_waiting_is as (_ & _ & ->). lia. Qed.

Lemma demo_steps : rtc (step demo_jobs) (end_start demo_jobs demo_start) demo_ran.
Proof.
  eapply rtc_l; [apply demo_step_time|]. eapply rtc_l; [apply demo_step_fire|].
  eapply rtc_l; [apply (step_time _ _ 4200000)|].
  { rewrite demo_running_is. cbn. lia. }
  apply rtc_once. apply step_enqueue_ends. rewrite demo_running_is. left.
Qed.

Lemma cron_runs_every_match_witness :
  key_ended "report" demo_ran = [(3600000, 4200000)] /\
  Forall2 Z.le (key_dues "report" demo_ran) (key_enqueued "report" demo_ran) /\
  exists d g, (d, g) ∈ key_ended "report" demo_ran /\ d <= 60 * msPerMinute <= g.
Proof.
  assert (key_ended "report" demo_ran = [(3600000, 4200000)]) as He by (rewrite demo_ran_is; reflexivity).
  destruct (cron_runs_every_match demo_jobs "report" hourly_job hourly demo_start demo_ran)
    as (_ & _ & Hle & _).
  - repeat constructor. apply not_elem_of_nil.
  - left.
  - split; [done|]. exists "@hourly". split; [done|]. apply parse_hourly.
  - apply hourly_frequent.
  - by exists 1800000.
  - done.
  - done.
  - by rewrite demo_schedule.
  - apply demo_steps.
  - by rewrite demo_ran_is.
  - split; [exact He|]. split; [exact Hle|]. exists 3600000, 4200000.
    split; [rewrite He; left|unfold msPerMinute; lia].
Defined.

(** Stopped during the run: the timer is not armed again, and [stop] returns when the
    enqueue has ended. *)
Lemma stop_ends_scheduling_witness :
  let s := enqueue_ends "report" (begin_stop demo_running) in
  timers s = [] /\ enqueued s = [("report", 3600005)] /\ stop_returned s /\
  pendingEnqueues s = [].
Proof.
  set (s := enqueue_ends "report" (begin_stop demo_running)).
  assert (rtc (step demo_jobs) (begin_start (new_scheduler 1800000)) demo_running) as Hr.
  { eapply rtc_l; [by apply step_end_start|]. eapply rtc_l; [apply demo_step_time|].
    apply rtc_once, demo_step_fire. }
  assert (stop_returned s) as Hret.
  { exists ["report"]. unfold s. rewrite demo_running_is. split; [reflexivity|]. intros k _. apply not_elem_of_nil. }
  destruct (stop_ends_scheduling demo_jobs demo_running s) as (_ & _ & Ht & He & Hdone).
  - exists 1800000. exact Hr.
  - by rewrite demo_running_is.
  - apply rtc_once, step_enqueue_ends. rewrite demo_running_is. left.
  - split; [exact Ht|]. split; [rewrite He, demo_running_is; reflexivity|]. split; [exact Hret|].
    by apply Hdone.
Defined.

(** ** Longer delays *)

(** When the next match is more than 24.8 days away, the timer is due in a millisecond,
    and the job runs then, and again a millisecond after every run. *)
Lemma far_cron_fires_at_once k p s r : stopped s = false -> nextCronFireDate p (clock s) = Ok r ->
  TIMEOUT_MAX < r - clock s ->
  timers (scheduleNext k p s).2 = timers s ++
    [{| timer_id := next_id s; due := clock s + 1; repeats := None; calls := CronTick k p |}].
Proof.
  intros Hs Hr Hfar. unfold scheduleNext. rewrite Hs, Hr. cbn. do 3 f_equal. f_equal.
  unfold timer_delay. destruct (Qle_bool _ (inject_Z TIMEOUT_MAX)) eqn:Hle; [|by rewrite andb_false_r].
  apply Qle_bool_iff in Hle. rewrite <- Zle_Qle in Hle. lia.
Qed.

(** An interval of four weeks ticks every millisecond. *)
Example four_weeks_tick_at_once :
  let j := {| has_class := true; cron := None; every := Some (Every (JsString "4 weeks")); enabled := true |} in
  let s := (scheduleJob j "report" (new_scheduler 0)).2 in
  map due (timers s) = [1] /\
  map (fun t => (due t, repeats t)) (timers (fire (default demo_timer (head (timers s))) (with_clock 1 s))) =
    [(2, Some 1)].
Proof. vm_compute. done. Qed.

(** A [stop] while [start] still awaits the configuration leaves the timers [start]
    then arms: their ticks enqueue nothing, but the interval stays armed. *)
Example stop_during_start_leaves_timers :
  let j := {| has_class := true; cron := None; every := Some (Every (JsString "5 minutes")); enabled := true |} in
  let s := end_start [("report", j)] (begin_stop (begin_start (new_scheduler 0))) in
  stopped s = true /\ stop_returned s /\ map due (timers s) = [300000].
Proof. split; [done|]. split; [|vm_compute; done]. exists []. split; [done|]. intros k []%elem_of_nil. Qed.
