(* ===== verification/RequestBuffer.v ===== *)
(** * The HTTP request parser ([src/src/http-server/client/request-buffer/])

    [RequestBuffer.feed] is called with the chunks a socket delivers and runs a
    state machine over their bytes. [buffer] holds the fields of the class; a
    method is a step of the state-and-exception monad over it, and the events
    it emits are appended to [events]. A byte is an [ascii], a chunk and a line
    are strings of bytes (a line is decoded as latin1, so a code unit is a
    byte). [FormDataPart] and [Header] are the classes of the two other files.

    The section variables stand for code that is not here: the parsing of the
    parameters of a body ([JSON.parse] or [querystring.parse], then
    [ParamsToObject] and [incorporate]) and Node's [path.basename]. *)

From stdpp Require Import base strings list.
From Stdlib Require Import ZArith QArith Ascii Lia.
From S2P Require Import Prelude Numbers Json Cron.
Open Scope Z_scope.

(** ** Strings of bytes *)

Abbreviation length := String.length.

(** [s.toLowerCase()], [s.toUpperCase()] on letters below 128, and [trim]. *)
Definition to_lower (s : string) : string := string_map lower_latin1 s.

(** Removes a suffix. *)
Fixpoint strip_suffix (t s : string) : option string :=
  if decide (s = t) then Some "" else
  match s with
  | EmptyString => None
  | String c s' => String c <$> strip_suffix t s'
  end.

(** What the groups of a line match: no line terminator. *)
Definition line_text (line : string) : option string :=
  match strip_suffix CRLF line with
  | Some text => if has_char CR text || has_char LF text then None else Some text
  | None => None
  end.

(** The last split of a text around [": "] into two non-empty parts: the first
    group of [/^(.+): (.+)\r\n/] is greedy. *)
Fixpoint last_colon_split (text : string) : option (string * string) :=
  match text with
  | EmptyString => None
  | String c rest =>
      match last_colon_split rest with
      | Some (name, value) => Some (String c name, value)
      | None =>
          match strip ": " rest with
          | Some (String _ _ as value) => Some (String c "", value)
          | _ => None
          end
      end
  end.

(** The first split of a text around a separator into two non-empty parts: the
    group before it is lazy. *)
Fixpoint first_split (sep text : string) : option (string * string) :=
  match text with
  | EmptyString => None
  | String c rest =>
      match strip sep rest with
      | Some (String _ _ as after) => Some (String c "", after)
      | _ => (fun p => (String c p.1, p.2)) <$> first_split sep rest
      end
  end.

(** [parseInt(s, radix)]: leading space, sign, prefix [0x], then the longest run
    of digits; [None] is NaN. *)
Definition parse_int_digits (base : Z) (s : string) : option Z :=
  match read_digits base 0 0 s with
  | (v, S _, _) => Some v
  | _ => None
  end.

Definition strip_0x (s : string) : option string :=
  match s with
  | String "0" (String "x" t) | String "0" (String "X" t) => Some t
  | _ => None
  end.

Definition parse_int_unsigned (radix : option Z) (s : string) : option Z :=
  match radix, strip_0x s with
  | None, Some t => parse_int_digits 16 t
  | None, None => parse_int_digits 10 s
  | Some 16, Some t => parse_int_digits 16 t
  | Some r, _ => parse_int_digits r s
  end.

Definition parse_int (radix : option Z) (s : string) : option Z :=
  match trim_start s with
  | String "-" t => Z.opp <$> parse_int_unsigned radix t
  | String "+" t => parse_int_unsigned radix t
  | t => parse_int_unsigned radix t
  end.

(** ** Headers and form-data parts *)

Record header := { h_formattedName : string; h_name : string; h_value : string }.

Definition new_header (name value : string) : header :=
  {| h_formattedName := js_trim (to_lower name); h_name := name; h_value := value |}.

(** [headersByName]: own properties in order of creation. The name [__proto__]
    sets the prototype and adds no property. *)
Definition headers := list (string * header).

Fixpoint headers_get (k : string) (hs : headers) : option header :=
  match hs with
  | [] => None
  | (k', h) :: hs' => if decide (k = k') then Some h else headers_get k hs'
  end.

Fixpoint headers_put (k : string) (h : header) (hs : headers) : headers :=
  match hs with
  | [] => [(k, h)]
  | (k', h') :: hs' => if decide (k = k') then (k, h) :: hs' else (k', h') :: headers_put k h hs'
  end.

Definition headers_set (k : string) (h : header) (hs : headers) : headers :=
  if decide (k = "__proto__") then hs else headers_put k h hs.

(** A number field that is unset, NaN or an integer. *)
Inductive maybe_length := Unset | NotANumber | Length (n : Z).

#[export] Instance maybe_length_eq_dec : EqDecision maybe_length.
Proof. solve_decision. Defined.

Definition length_of (s : string) : maybe_length :=
  match parse_int None s with Some n => Length n | None => NotANumber end.

(** [l && bytes >= l]: NaN, zero and an unset length are falsy. *)
Definition reached (l : maybe_length) (bytes : Z) : bool :=
  match l with Length n => negb (n =? 0) && (n <=? bytes) | _ => false end.

Record form_data_part := {
  fp_headers : headers;
  fp_body : string;
  fp_name : option string;
  fp_filename : option string;
  fp_contentLength : maybe_length;
  fp_contentType : option string
}.

Definition new_form_data_part : form_data_part := {|
  fp_headers := []; fp_body := ""; fp_name := None; fp_filename := None;
  fp_contentLength := Unset; fp_contentType := None |}.

(** [/^form-data;\s*name="(.+?)"(?:;\s*filename="(.+?)")?$/], from the end of the
    name: nothing, or a quoted non-empty file name. *)
Definition filename_suffix (rest : string) : option (option string) :=
  match rest with
  | EmptyString => Some None
  | _ =>
      t ← strip ";" rest;
      t ← strip "filename=" (trim_start t);
      t ← strip (String "034" "") t;
      f ← strip_suffix (String "034" "") t;
      if decide (f = "") then None else Some (Some f)
  end.

(** The lazy name: the shortest non-empty one whose closing quote is followed by
    an accepted suffix. *)
Fixpoint quoted_name (s : string) : option (string * option string) :=
  match s with
  | EmptyString => None
  | String c rest =>
      match strip (String "034" "") rest ≫= filename_suffix with
      | Some f => Some (String c "", f)
      | None => (fun p => (String c p.1, p.2)) <$> quoted_name rest
      end
  end.

Definition content_disposition (value : string) : option (string * option string) :=
  t ← strip "form-data;" value;
  t ← strip "name=" (trim_start t);
  t ← strip (String "034" "") t;
  quoted_name t.

(** [FormDataPart.addHeader] *)
Definition part_addHeader (h : header) (p : form_data_part) : form_data_part :=
  let name := h_formattedName h in
  let hs := headers_set name h (fp_headers p) in
  if decide (name = "content-disposition") then
    match content_disposition (h_value h) with
    | Some (n, f) =>
        {| fp_headers := hs; fp_body := fp_body p; fp_name := Some n; fp_filename := f;
           fp_contentLength := fp_contentLength p; fp_contentType := fp_contentType p |}
    | None =>
        {| fp_headers := hs; fp_body := fp_body p; fp_name := fp_name p; fp_filename := fp_filename p;
           fp_contentLength := fp_contentLength p; fp_contentType := fp_contentType p |}
    end
  else if decide (name = "content-length") then
    {| fp_headers := hs; fp_body := fp_body p; fp_name := fp_name p; fp_filename := fp_filename p;
       fp_contentLength := length_of (h_value h); fp_contentType := fp_contentType p |}
  else if decide (name = "content-type") then
    {| fp_headers := hs; fp_body := fp_body p; fp_name := fp_name p; fp_filename := fp_filename p;
       fp_contentLength := fp_contentLength p; fp_contentType := Some (h_value h) |}
  else
    {| fp_headers := hs; fp_body := fp_body p; fp_name := fp_name p; fp_filename := fp_filename p;
       fp_contentLength := fp_contentLength p; fp_contentType := fp_contentType p |}.

Definition set_body (b : string) (p : form_data_part) : form_data_part :=
  {| fp_headers := fp_headers p; fp_body := b; fp_name := fp_name p; fp_filename := fp_filename p;
     fp_contentLength := fp_contentLength p; fp_contentType := fp_contentType p |}.

(** [body.slice(0, body.length - text.length)] *)
Definition drop_end (n : nat) (s : string) : string := String.substring 0 (length s - n) s.

Definition removeFromBody (text : string) (p : form_data_part) : form_data_part :=
  set_body (drop_end (length text) (fp_body p)) p.

(** [body.slice(body.length - n)]: a start before the first byte counts from the
    end, so that the slice of a shorter body is never longer than the body. *)
Definition last_bytes (n : nat) (s : string) : string :=
  if (length s <? n)%nat
  then let start := (Z.of_nat (length s) - Z.of_nat n) + Z.of_nat (length s) in
       let start := Z.to_nat (Z.max 0 start) in String.substring start (length s - start) s
  else String.substring (length s - n) n s.

Definition MAX_IN_MEMORY_FILE_SIZE : Z := 2 * 1024 * 1024.

(** The value of a finished part: text, or an uploaded file kept in memory or
    written to a temporary file. *)
Inductive part_value :=
| TextValue (bytes : string)
| MemoryFile (contentType : option string) (fieldName filename bytes : string)
| TemporaryFile (contentType : option string) (fieldName filename bytes : string).

(** ** The buffer *)

Inductive parser_state :=
| Status
| Headers
| MultiPartFormData
| MultiPartFormDataHeader
| MultiPartFormDataBody
| ChunkedSize
| ChunkedTrailer
| ChunkedData
| ChunkedDataCrlf
| PostBody
| StateDone.

#[export] Instance parser_state_eq_dec : EqDecision parser_state.
Proof. solve_decision. Defined.

Inductive parse_error :=
| BadStatusLine (line : string)
| ExpectedBoundary (line : string)
| InvalidChunkSizeLine (line : string)
| InvalidChunkSize (token : string)
| InvalidContentLength
| MethodNotSet
| PartContentLengthStub                 (* [throw new Error("stub")] *)
| PartNameNotSet
| NotInitialized                        (* the guards of fields the states set *)
| UnknownLineState
| BadParams.                            (* thrown while parsing the parameters *)

Inductive event :=
| HeaderEvent (h : header)
| FormDataPartEvent (p : form_data_part) (value : part_value)
| CompletedEvent.

Record buffer (P : Type) := {
  bodyLength : Z;
  postBodyBuffers : option string;      (* the bytes of the chunks, concatenated *)
  data : string;
  headersByName : headers;
  chunkedBodyChars : option string;
  multiPartyFormData : bool;
  completed : bool;
  params : P;
  readingBody : bool;
  state : parser_state;
  contentLength : maybe_length;
  currentChunkSize : option Z;
  currentChunkBytesRead : Z;
  currentChunkCrlfRead : Z;
  formDataPart : option form_data_part;
  boundary : option string;             (* the three boundary lines derive from it *)
  httpMethod : option string;
  httpVersion : option string;
  path : option string;
  postBody : option string;
  events : list event
}.

Arguments bodyLength {P} b : rename.
Arguments postBodyBuffers {P} b : rename.
Arguments data {P} b : rename.
Arguments headersByName {P} b : rename.
Arguments chunkedBodyChars {P} b : rename.
Arguments multiPartyFormData {P} b : rename.
Arguments completed {P} b : rename.
Arguments params {P} b : rename.
Arguments readingBody {P} b : rename.
Arguments state {P} b : rename.
Arguments contentLength {P} b : rename.
Arguments currentChunkSize {P} b : rename.
Arguments currentChunkBytesRead {P} b : rename.
Arguments currentChunkCrlfRead {P} b : rename.
Arguments formDataPart {P} b : rename.
Arguments boundary {P} b : rename.
Arguments httpMethod {P} b : rename.
Arguments httpVersion {P} b : rename.
Arguments path {P} b : rename.
Arguments postBody {P} b : rename.
Arguments events {P} b : rename.

(** Assignments of the fields. *)
Definition set_bodyLength {P} (v : _) (b : buffer P) : buffer P := {|
  bodyLength := v; postBodyBuffers := postBodyBuffers b; data := data b; headersByName :=
  headersByName b; chunkedBodyChars := chunkedBodyChars b; multiPartyFormData :=
  multiPartyFormData b; completed := completed b; params := params b; readingBody := readingBody
  b; state := state b; contentLength := contentLength b; currentChunkSize := currentChunkSize b;
  currentChunkBytesRead := currentChunkBytesRead b; currentChunkCrlfRead := currentChunkCrlfRead
  b; formDataPart := formDataPart b; boundary := boundary b; httpMethod := httpMethod b;
  httpVersion := httpVersion b; path := path b; postBody := postBody b; events := events b |}.
Definition set_postBodyBuffers {P} (v : _) (b : buffer P) : buffer P := {|
  bodyLength := bodyLength b; postBodyBuffers := v; data := data b; headersByName := headersByName
  b; chunkedBodyChars := chunkedBodyChars b; multiPartyFormData := multiPartyFormData b; completed
  := completed b; params := params b; readingBody := readingBody b; state := state b;
  contentLength := contentLength b; currentChunkSize := currentChunkSize b; currentChunkBytesRead
  := currentChunkBytesRead b; currentChunkCrlfRead := currentChunkCrlfRead b; formDataPart :=
  formDataPart b; boundary := boundary b; httpMethod := httpMethod b; httpVersion := httpVersion
  b; path := path b; postBody := postBody b; events := events b |}.
Definition set_data {P} (v : _) (b : buffer P) : buffer P := {|
  bodyLength := bodyLength b; postBodyBuffers := postBodyBuffers b; data := v; headersByName :=
  headersByName b; chunkedBodyChars := chunkedBodyChars b; multiPartyFormData :=
  multiPartyFormData b; completed := completed b; params := params b; readingBody := readingBody
  b; state := state b; contentLength := contentLength b; currentChunkSize := currentChunkSize b;
  currentChunkBytesRead := currentChunkBytesRead b; currentChunkCrlfRead := currentChunkCrlfRead
  b; formDataPart := formDataPart b; boundary := boundary b; httpMethod := httpMethod b;
  httpVersion := httpVersion b; path := path b; postBody := postBody b; events := events b |}.
Definition set_headersByName {P} (v : _) (b : buffer P) : buffer P := {|
  bodyLength := bodyLength b; postBodyBuffers := postBodyBuffers b; data := data b; headersByName
  := v; chunkedBodyChars := chunkedBodyChars b; multiPartyFormData := multiPartyFormData b;
  completed := completed b; params := params b; readingBody := readingBody b; state := state b;
  contentLength := contentLength b; currentChunkSize := currentChunkSize b; currentChunkBytesRead
  := currentChunkBytesRead b; currentChunkCrlfRead := currentChunkCrlfRead b; formDataPart :=
  formDataPart b; boundary := boundary b; httpMethod := httpMethod b; httpVersion := httpVersion
  b; path := path b; postBody := postBody b; events := events b |}.
Definition set_chunkedBodyChars {P} (v : _) (b : buffer P) : buffer P := {|
  bodyLength := bodyLength b; postBodyBuffers := postBodyBuffers b; data := data b; headersByName
  := headersByName b; chunkedBodyChars := v; multiPartyFormData := multiPartyFormData b; completed
  := completed b; params := params b; readingBody := readingBody b; state := state b;
  contentLength := contentLength b; currentChunkSize := currentChunkSize b; currentChunkBytesRead
  := currentChunkBytesRead b; currentChunkCrlfRead := currentChunkCrlfRead b; formDataPart :=
  formDataPart b; boundary := boundary b; httpMethod := httpMethod b; httpVersion := httpVersion
  b; path := path b; postBody := postBody b; events := events b |}.
Definition set_multiPartyFormData {P} (v : _) (b : buffer P) : buffer P := {|
  bodyLength := bodyLength b; postBodyBuffers := postBodyBuffers b; data := data b; headersByName
  := headersByName b; chunkedBodyChars := chunkedBodyChars b; multiPartyFormData := v; completed
  := completed b; params := params b; readingBody := readingBody b; state := state b;
  contentLength := contentLength b; currentChunkSize := currentChunkSize b; currentChunkBytesRead
  := currentChunkBytesRead b; currentChunkCrlfRead := currentChunkCrlfRead b; formDataPart :=
  formDataPart b; boundary := boundary b; httpMethod := httpMethod b; httpVersion := httpVersion
  b; path := path b; postBody := postBody b; events := events b |}.
Definition set_completed {P} (v : _) (b : buffer P) : buffer P := {|
  bodyLength := bodyLength b; postBodyBuffers := postBodyBuffers b; data := data b; headersByName
  := headersByName b; chunkedBodyChars := chunkedBodyChars b; multiPartyFormData :=
  multiPartyFormData b; completed := v; params := params b; readingBody := readingBody b; state :=
  state b; contentLength := contentLength b; currentChunkSize := currentChunkSize b;
  currentChunkBytesRead := currentChunkBytesRead b; currentChunkCrlfRead := currentChunkCrlfRead
  b; formDataPart := formDataPart b; boundary := boundary b; httpMethod := httpMethod b;
  httpVersion := httpVersion b; path := path b; postBody := postBody b; events := events b |}.
Definition set_params {P} (v : _) (b : buffer P) : buffer P := {|
  bodyLength := bodyLength b; postBodyBuffers := postBodyBuffers b; data := data b; headersByName
  := headersByName b; chunkedBodyChars := chunkedBodyChars b; multiPartyFormData :=
  multiPartyFormData b; completed := completed b; params := v; readingBody := readingBody b; state
  := state b; contentLength := contentLength b; currentChunkSize := currentChunkSize b;
  currentChunkBytesRead := currentChunkBytesRead b; currentChunkCrlfRead := currentChunkCrlfRead
  b; formDataPart := formDataPart b; boundary := boundary b; httpMethod := httpMethod b;
  httpVersion := httpVersion b; path := path b; postBody := postBody b; events := events b |}.
Definition set_readingBody {P} (v : _) (b : buffer P) : buffer P := {|
  bodyLength := bodyLength b; postBodyBuffers := postBodyBuffers b; data := data b; headersByName
  := headersByName b; chunkedBodyChars := chunkedBodyChars b; multiPartyFormData :=
  multiPartyFormData b; completed := completed b; params := params b; readingBody := v; state :=
  state b; contentLength := contentLength b; currentChunkSize := currentChunkSize b;
  currentChunkBytesRead := currentChunkBytesRead b; currentChunkCrlfRead := currentChunkCrlfRead
  b; formDataPart := formDataPart b; boundary := boundary b; httpMethod := httpMethod b;
  httpVersion := httpVersion b; path := path b; postBody := postBody b; events := events b |}.
Definition set_state {P} (v : _) (b : buffer P) : buffer P := {|
  bodyLength := bodyLength b; postBodyBuffers := postBodyBuffers b; data := data b; headersByName
  := headersByName b; chunkedBodyChars := chunkedBodyChars b; multiPartyFormData :=
  multiPartyFormData b; completed := completed b; params := params b; readingBody := readingBody
  b; state := v; contentLength := contentLength b; currentChunkSize := currentChunkSize b;
  currentChunkBytesRead := currentChunkBytesRead b; currentChunkCrlfRead := currentChunkCrlfRead
  b; formDataPart := formDataPart b; boundary := boundary b; httpMethod := httpMethod b;
  httpVersion := httpVersion b; path := path b; postBody := postBody b; events := events b |}.
Definition set_contentLength {P} (v : _) (b : buffer P) : buffer P := {|
  bodyLength := bodyLength b; postBodyBuffers := postBodyBuffers b; data := data b; headersByName
  := headersByName b; chunkedBodyChars := chunkedBodyChars b; multiPartyFormData :=
  multiPartyFormData b; completed := completed b; params := params b; readingBody := readingBody
  b; state := state b; contentLength := v; currentChunkSize := currentChunkSize b;
  currentChunkBytesRead := currentChunkBytesRead b; currentChunkCrlfRead := currentChunkCrlfRead
  b; formDataPart := formDataPart b; boundary := boundary b; httpMethod := httpMethod b;
  httpVersion := httpVersion b; path := path b; postBody := postBody b; events := events b |}.
Definition set_currentChunkSize {P} (v : _) (b : buffer P) : buffer P := {|
  bodyLength := bodyLength b; postBodyBuffers := postBodyBuffers b; data := data b; headersByName
  := headersByName b; chunkedBodyChars := chunkedBodyChars b; multiPartyFormData :=
  multiPartyFormData b; completed := completed b; params := params b; readingBody := readingBody
  b; state := state b; contentLength := contentLength b; currentChunkSize := v;
  currentChunkBytesRead := currentChunkBytesRead b; currentChunkCrlfRead := currentChunkCrlfRead
  b; formDataPart := formDataPart b; boundary := boundary b; httpMethod := httpMethod b;
  httpVersion := httpVersion b; path := path b; postBody := postBody b; events := events b |}.
Definition set_currentChunkBytesRead {P} (v : _) (b : buffer P) : buffer P := {|
  bodyLength := bodyLength b; postBodyBuffers := postBodyBuffers b; data := data b; headersByName
  := headersByName b; chunkedBodyChars := chunkedBodyChars b; multiPartyFormData :=
  multiPartyFormData b; completed := completed b; params := params b; readingBody := readingBody
  b; state := state b; contentLength := contentLength b; currentChunkSize := currentChunkSize b;
  currentChunkBytesRead := v; currentChunkCrlfRead := currentChunkCrlfRead b; formDataPart :=
  formDataPart b; boundary := boundary b; httpMethod := httpMethod b; httpVersion := httpVersion
  b; path := path b; postBody := postBody b; events := events b |}.
Definition set_currentChunkCrlfRead {P} (v : _) (b : buffer P) : buffer P := {|
  bodyLength := bodyLength b; postBodyBuffers := postBodyBuffers b; data := data b; headersByName
  := headersByName b; chunkedBodyChars := chunkedBodyChars b; multiPartyFormData :=
  multiPartyFormData b; completed := completed b; params := params b; readingBody := readingBody
  b; state := state b; contentLength := contentLength b; currentChunkSize := currentChunkSize b;
  currentChunkBytesRead := currentChunkBytesRead b; currentChunkCrlfRead := v; formDataPart :=
  formDataPart b; boundary := boundary b; httpMethod := httpMethod b; httpVersion := httpVersion
  b; path := path b; postBody := postBody b; events := events b |}.
Definition set_formDataPart {P} (v : _) (b : buffer P) : buffer P := {|
  bodyLength := bodyLength b; postBodyBuffers := postBodyBuffers b; data := data b; headersByName
  := headersByName b; chunkedBodyChars := chunkedBodyChars b; multiPartyFormData :=
  multiPartyFormData b; completed := completed b; params := params b; readingBody := readingBody
  b; state := state b; contentLength := contentLength b; currentChunkSize := currentChunkSize b;
  currentChunkBytesRead := currentChunkBytesRead b; currentChunkCrlfRead := currentChunkCrlfRead
  b; formDataPart := v; boundary := boundary b; httpMethod := httpMethod b; httpVersion :=
  httpVersion b; path := path b; postBody := postBody b; events := events b |}.
Definition set_boundary {P} (v : _) (b : buffer P) : buffer P := {|
  bodyLength := bodyLength b; postBodyBuffers := postBodyBuffers b; data := data b; headersByName
  := headersByName b; chunkedBodyChars := chunkedBodyChars b; multiPartyFormData :=
  multiPartyFormData b; completed := completed b; params := params b; readingBody := readingBody
  b; state := state b; contentLength := contentLength b; currentChunkSize := currentChunkSize b;
  currentChunkBytesRead := currentChunkBytesRead b; currentChunkCrlfRead := currentChunkCrlfRead
  b; formDataPart := formDataPart b; boundary := v; httpMethod := httpMethod b; httpVersion :=
  httpVersion b; path := path b; postBody := postBody b; events := events b |}.
Definition set_postBody {P} (v : _) (b : buffer P) : buffer P := {|
  bodyLength := bodyLength b; postBodyBuffers := postBodyBuffers b; data := data b; headersByName
  := headersByName b; chunkedBodyChars := chunkedBodyChars b; multiPartyFormData :=
  multiPartyFormData b; completed := completed b; params := params b; readingBody := readingBody
  b; state := state b; contentLength := contentLength b; currentChunkSize := currentChunkSize b;
  currentChunkBytesRead := currentChunkBytesRead b; currentChunkCrlfRead := currentChunkCrlfRead
  b; formDataPart := formDataPart b; boundary := boundary b; httpMethod := httpMethod b;
  httpVersion := httpVersion b; path := path b; postBody := v; events := events b |}.
Definition set_events {P} (v : _) (b : buffer P) : buffer P := {|
  bodyLength := bodyLength b; postBodyBuffers := postBodyBuffers b; data := data b; headersByName
  := headersByName b; chunkedBodyChars := chunkedBodyChars b; multiPartyFormData :=
  multiPartyFormData b; completed := completed b; params := params b; readingBody := readingBody
  b; state := state b; contentLength := contentLength b; currentChunkSize := currentChunkSize b;
  currentChunkBytesRead := currentChunkBytesRead b; currentChunkCrlfRead := currentChunkCrlfRead
  b; formDataPart := formDataPart b; boundary := boundary b; httpMethod := httpMethod b;
  httpVersion := httpVersion b; path := path b; postBody := postBody b; events := v |}.
Definition set_statusLine {P} (method version target : string) (b : buffer P) : buffer P := {|
  bodyLength := bodyLength b; postBodyBuffers := postBodyBuffers b; data := data b; headersByName
  := headersByName b; chunkedBodyChars := chunkedBodyChars b; multiPartyFormData :=
  multiPartyFormData b; completed := completed b; params := params b; readingBody := readingBody
  b; state := state b; contentLength := contentLength b; currentChunkSize := currentChunkSize b;
  currentChunkBytesRead := currentChunkBytesRead b; currentChunkCrlfRead := currentChunkCrlfRead
  b; formDataPart := formDataPart b; boundary := boundary b; httpMethod := Some method;
  httpVersion := Some version; path := Some target; postBody := postBody b; events := events b |}.

Definition initial_buffer {P} (no_params : P) : buffer P := {|
  bodyLength := 0; postBodyBuffers := None; data := ""; headersByName := [];
  chunkedBodyChars := None; multiPartyFormData := false; completed := false; params := no_params;
  readingBody := false; state := Status; contentLength := Unset; currentChunkSize := None;
  currentChunkBytesRead := 0; currentChunkCrlfRead := 0; formDataPart := None; boundary := None;
  httpMethod := None; httpVersion := None; path := None; postBody := None; events := [] |}.

Section request_buffer.
Context {P : Type}.

(** [incorporate(params, JSON.parse(text))] and [incorporate(params,
    new ParamsToObject(querystring.parse(text)).toObject())], on the bytes of
    the body; [None] is a throw. *)
Context (json_params query_params : string -> P -> option P).

(** [path.basename] *)
Context (basename : string -> string).

Definition RB (A : Type) := ST (buffer P) parse_error A.

Definition emit (e : event) : RB unit := modify (fun b => set_events (events b ++ [e]) b).

Definition setState (newState : parser_state) : RB unit := modify (set_state newState).

Definition getHeader (name : string) (b : buffer P) : option header :=
  headers_get (js_trim (to_lower name)) (headersByName b).

Definition getHeadersHash (b : buffer P) : list (string * string) :=
  map (fun kh => (h_name kh.2, h_value kh.2)) (headersByName b).

Definition parseApplicationJsonParams : RB unit := fun b =>
  match postBody b with
  | Some (String _ _ as body) =>
      match json_params body (params b) with
      | Some p => (Ok tt, set_params p b)
      | None => (Throw BadParams, b)
      end
  | _ => (Ok tt, b)
  end.

Definition parseQueryStringPostParams : RB unit := fun b =>
  match postBody b with
  | Some (String _ _ as body) =>
      match query_params body (params b) with
      | Some p => (Ok tt, set_params p b)
      | None => (Throw BadParams, b)
      end
  | _ => (Ok tt, b)
  end.

(** [this.getHeader("content-type")?.value?.startsWith("application/json")] *)
Definition has_json_body (b : buffer P) : bool :=
  match getHeader "content-type" b with
  | Some h => starts_with "application/json" (h_value h)
  | None => false
  end.

Definition completeRequest : RB unit :=
  _ ← modify (set_state Status);
  _ ← modify (set_completed true);
  json ← gets has_json_body;
  multipart ← gets multiPartyFormData;
  _ ← (if json : bool then parseApplicationJsonParams
       else if multipart : bool then mret tt
       else parseQueryStringPostParams);
  emit CompletedEvent.

Definition postRequestDone : RB unit :=
  _ ← modify (fun b => match postBodyBuffers b with
                       | Some bytes => set_postBody (Some bytes) b
                       | None => b
                       end);
  _ ← modify (set_postBodyBuffers None);
  completeRequest.

Definition finishChunkedBody : RB unit :=
  _ ← modify (fun b => match chunkedBodyChars b with
                       | Some bytes => set_postBody (Some bytes) b
                       | None => b
                       end);
  modify (set_chunkedBodyChars None).

(** ** Form-data parts *)

Definition _sanitizeFilename (filename : option string) : string :=
  match filename with
  | None | Some EmptyString => ""
  | Some f =>
      let base := basename f in
      if decide (base = "." \/ base = ".." \/ base = "") then "upload" else base
  end.

(** [FormDataPart.finish] with [buildUploadedFile]. *)
Definition part_finish (p : form_data_part) : result parse_error part_value :=
  match fp_filename p with
  | Some (String _ _) =>
      let filename := match _sanitizeFilename (fp_filename p) with "" => "upload" | f => f end in
      match fp_name p with
      | Some (String _ _ as fieldName) =>
          if Z.of_nat (length (fp_body p)) <=? MAX_IN_MEMORY_FILE_SIZE
          then Ok (MemoryFile (fp_contentType p) fieldName filename (fp_body p))
          else Ok (TemporaryFile (fp_contentType p) fieldName filename (fp_body p))
      | _ => Throw PartNameNotSet
      end
  | _ => Ok (TextValue (fp_body p))
  end.

Definition formDataPartDone : RB unit :=
  part ← gets formDataPart;
  match part with
  | None => throw NotInitialized
  | Some p =>
      _ ← modify (set_formDataPart None);
      value ← lift_result (part_finish p);
      emit (FormDataPartEvent (set_body "" p) value)
  end.

Definition newFormDataPart : RB unit :=
  _ ← modify (set_formDataPart (Some new_form_data_part));
  setState MultiPartFormDataHeader.

Definition boundaryLine (boundary : string) : string := "--" +:+ boundary +:+ CRLF.
Definition boundaryLineNext (boundary : string) : string := CRLF +:+ "--" +:+ boundary +:+ CRLF.
Definition boundaryLineEnd (boundary : string) : string := CRLF +:+ "--" +:+ boundary +:+ "--".

(** ** Lines *)

Definition readHeaderFromLine (line : string) : option header :=
  text ← line_text line; p ← last_colon_split text; Some (new_header p.1 p.2).

Definition addHeader (h : header) : RB unit :=
  _ ← modify (fun b => set_headersByName (headers_set (h_formattedName h) h (headersByName b)) b);
  if decide (h_formattedName h = "content-length")
  then modify (set_contentLength (length_of (h_value h))) else mret tt.

(** [[A-Z-]+] at the start of a text. *)
Definition is_method_char (c : ascii) : bool :=
  let n := N_of_ascii c in ((65 <=? n) && (n <=? 90) || (n =? 45))%N.

Fixpoint span_method (s : string) : string * string :=
  match s with
  | String c s' =>
      if is_method_char c then let p := span_method s' in (String c p.1, p.2) else ("", s)
  | EmptyString => ("", "")
  end.

Definition match_status_line (line : string) : option (string * string * string) :=
  text ← line_text line;
  match span_method text with
  | (String _ _ as method, String " " rest) =>
      p ← first_split " HTTP/" rest; Some (method, p.1, p.2)
  | _ => None
  end.

Definition parseStatusLine (line : string) : RB unit :=
  match match_status_line line with
  | None => throw (BadStatusLine line)
  | Some (method, target, version) =>
      _ ← modify (set_statusLine method version target);
      setState Headers
  end.

Definition expectsRequestBody (httpMethod : string) : bool :=
  negb (bool_decide (httpMethod ∈ ["GET"; "OPTIONS"; "HEAD"])).

Fixpoint includes (t s : string) : bool :=
  starts_with t s || match s with EmptyString => false | String _ s' => includes t s' end.

Definition isChunkedEncoding (b : buffer P) : bool :=
  match getHeader "transfer-encoding" b with
  | Some h => includes "chunked" (to_lower (h_value h))
  | None => false
  end.

Definition initializeChunkedBody : RB unit :=
  _ ← modify (set_chunkedBodyChars (Some ""));
  _ ← modify (set_currentChunkSize None);
  _ ← modify (set_currentChunkBytesRead 0);
  setState ChunkedSize.

(** Removes a prefix, ignoring the case of letters. *)
Fixpoint strip_ignoring_case (p s : string) : option string :=
  match p, s with
  | EmptyString, _ => Some s
  | String a p', String b s' =>
      if decide (lower_ascii a = lower_ascii b) then strip_ignoring_case p' s' else None
  | String _ _, EmptyString => None
  end.

(** [/^multipart\/form-data;\s*boundary=(.+)$/i] *)
Definition multipart_boundary (value : string) : option string :=
  t ← strip_ignoring_case "multipart/form-data;" value;
  t ← strip_ignoring_case "boundary=" (trim_start t);
  if decide (t = "") then None else Some t.

Definition start_reading_body : RB unit :=
  _ ← modify (set_readingBody true);
  modify (set_bodyLength 0).

Definition parseHeader (line : string) : RB unit :=
  match readHeaderFromLine line with
  | Some h => _ ← addHeader h; emit (HeaderEvent h)
  | None =>
      if decide (line = CRLF) then
        method ← gets httpMethod;
        match string_map upper_ascii <$> method with
        | None | Some EmptyString => throw MethodNotSet
        | Some httpMethod =>
            if negb (expectsRequestBody httpMethod) then completeRequest else
            chunked ← gets isChunkedEncoding;
            _ ← start_reading_body;
            if chunked : bool then initializeChunkedBody else
            contentType ← gets (getHeader "content-type");
            match contentType ≫= fun h => multipart_boundary (h_value h) with
            | Some b =>
                _ ← modify (set_boundary (Some b));
                _ ← modify (set_multiPartyFormData true);
                setState MultiPartFormData
            | None =>
                l ← gets contentLength;
                match l with
                | Unset | Length 0 => completeRequest
                | NotANumber => throw InvalidContentLength
                | Length _ =>
                    _ ← modify (set_postBodyBuffers (Some ""));
                    setState PostBody
                end
            end
        end
      else mret tt
  end.

(** [trimmed.split(";")[0]?.trim()] *)
Definition chunk_size_token (trimmed : string) : string :=
  js_trim (match break_at ";" trimmed with Some (t, _) => t | None => trimmed end).

Definition parseChunkSizeLine (line : string) : RB unit :=
  match js_trim line with
  | EmptyString => mret tt
  | trimmed =>
      match chunk_size_token trimmed with
      | EmptyString => throw (InvalidChunkSizeLine line)
      | sizeToken =>
          match parse_int (Some 16) sizeToken with
          | None => throw (InvalidChunkSize sizeToken)
          | Some size =>
              if negb (is_finite (round_double (inject_Z size))) then throw (InvalidChunkSize sizeToken)
              else if size =? 0 then setState ChunkedTrailer else
              _ ← modify (set_currentChunkSize (Some size));
              _ ← modify (set_currentChunkBytesRead 0);
              setState ChunkedData
          end
      end
  end.

Definition parse (line : string) : RB unit :=
  s ← gets state;
  match s with
  | Status => parseStatusLine line
  | Headers => parseHeader line
  | ChunkedSize => parseChunkSizeLine line
  | ChunkedTrailer =>
      if decide (line = CRLF) then _ ← finishChunkedBody; completeRequest else mret tt
  | MultiPartFormData =>
      b ← gets boundary;
      if decide (Some line = boundaryLine <$> b) then newFormDataPart
      else if decide (line = CRLF) then setState StateDone
      else throw (ExpectedBoundary line)
  | MultiPartFormDataHeader =>
      match readHeaderFromLine line with
      | Some h =>
          part ← gets formDataPart;
          match part with
          | None => throw NotInitialized
          | Some p => modify (set_formDataPart (Some (part_addHeader h p)))
          end
      | None => if decide (line = CRLF) then setState MultiPartFormDataBody else mret tt
      end
  | _ => throw UnknownLineState
  end.

(** ** Bytes

    A position in a chunk is the string that remains from it. *)

Definition count_body (n : Z) : RB unit :=
  modify (fun b => if readingBody b then set_bodyLength (bodyLength b + n) b else b).

Definition feedLine (chunk : string) : RB string :=
  match break_at LF chunk with
  | None =>
      _ ← count_body (Z.of_nat (length chunk));
      _ ← modify (fun b => set_data (data b +:+ chunk) b);
      mret ""
  | Some (before, rest) =>
      _ ← count_body (Z.of_nat (length before) + 1);
      line ← gets (fun b => data b +:+ before +:+ String LF "");
      _ ← modify (set_data "");
      _ ← parse line;
      mret rest
  end.

(** The state [PostBody] is entered only with an integer length. *)
Definition feedPostBody (chunk : string) : RB string :=
  buffers ← gets postBodyBuffers;
  l ← gets contentLength;
  bodyLength ← gets bodyLength;
  match buffers, l with
  | Some bytes, Length contentLength =>
      let remainingBodyBytes := Z.max 1 (contentLength - bodyLength) in
      let taken := Z.min (Z.of_nat (length chunk)) remainingBodyBytes in
      let n := Z.to_nat taken in
      _ ← modify (set_postBodyBuffers (Some (bytes +:+ String.substring 0 n chunk)));
      _ ← modify (set_bodyLength (bodyLength + taken));
      _ ← (if reached l (bodyLength + taken) then postRequestDone else mret tt);
      mret (String.substring n (length chunk - n) chunk)
  | _, _ => throw NotInitialized
  end.

Definition feedChunkedData (char : ascii) : RB unit :=
  size ← gets currentChunkSize;
  chars ← gets chunkedBodyChars;
  match size, chars with
  | Some currentChunkSize, Some chunkedBodyChars =>
      _ ← modify (set_chunkedBodyChars (Some (chunkedBodyChars +:+ String char "")));
      read ← gets (fun b => currentChunkBytesRead b + 1);
      _ ← modify (set_currentChunkBytesRead read);
      if currentChunkSize <=? read
      then _ ← modify (set_currentChunkCrlfRead 0); setState ChunkedDataCrlf
      else mret tt
  | _, _ => throw NotInitialized
  end.

Definition feedChunkedDataCrlf : RB unit :=
  read ← gets (fun b => currentChunkCrlfRead b + 1);
  _ ← modify (set_currentChunkCrlfRead read);
  if 2 <=? read
  then _ ← modify (set_currentChunkBytesRead 0); setState ChunkedSize
  else mret tt.

(** The body of a part after a byte, and which boundary it ends with. *)
Definition ends_with_boundary (body : string) (line : string) : bool :=
  bool_decide (last_bytes (length line) body = line).

Definition feedPartBody (char : ascii) : RB unit :=
  part ← gets formDataPart;
  boundary ← gets boundary;
  match part, boundary with
  | Some p, Some boundary =>
      let p := set_body (fp_body p +:+ String char "") p in
      _ ← modify (set_formDataPart (Some p));
      bodyLength ← gets bodyLength;
      contentLength ← gets contentLength;
      if ends_with_boundary (fp_body p) (boundaryLineEnd boundary) then
        _ ← modify (set_formDataPart (Some (removeFromBody (boundaryLineEnd boundary) p)));
        _ ← formDataPartDone;
        completeRequest
      else if ends_with_boundary (fp_body p) (boundaryLineNext boundary) then
        _ ← modify (set_formDataPart (Some (removeFromBody (boundaryLineNext boundary) p)));
        _ ← formDataPartDone;
        newFormDataPart
      else if reached contentLength bodyLength then
        _ ← formDataPartDone;
        completeRequest
      else if reached (fp_contentLength p) bodyLength then
        _ ← formDataPartDone;
        throw PartContentLengthStub
      else mret tt
  | _, _ => throw NotInitialized
  end.

Definition feedByte (char : ascii) : RB unit :=
  _ ← count_body 1;
  s ← gets state;
  match s with
  | ChunkedData => feedChunkedData char
  | ChunkedDataCrlf => feedChunkedDataCrlf
  | MultiPartFormDataBody => feedPartBody char
  | _ => mret tt (* logged as an unknown state *)
  end.

Definition line_state (s : parser_state) : bool :=
  match s with
  | Status | Headers | MultiPartFormData | MultiPartFormDataHeader | ChunkedSize | ChunkedTrailer => true
  | _ => false
  end.

(** One turn of the loop, on a chunk that is not exhausted. *)
Definition feed_step (chunk : string) : RB string :=
  s ← gets state;
  if line_state s then feedLine chunk
  else if decide (s = PostBody) then feedPostBody chunk
  else match chunk with
       | String char rest => _ ← feedByte char; mret rest
       | EmptyString => mret ""
       end.

(** Every turn consumes a byte, so that the length of the chunk bounds them. *)
Fixpoint feed_loop (fuel : nat) (chunk : string) : RB (option string) :=
  match fuel, chunk with
  | _, EmptyString => mret None
  | O, _ => mret None
  | S fuel, _ =>
      rest ← feed_step chunk;
      done ← gets completed;
      if done : bool then mret (Some rest) else feed_loop fuel rest
  end.

(** [None] is the [undefined] of a request that is not complete yet. *)
Definition feed (chunk : string) : RB (option string) := feed_loop (length chunk) chunk.

End request_buffer.
