(* ===== verification/RequestBufferTheorems.v ===== *)
(** * Theorems of the HTTP request parser

    The bulk loops of [feed] do what a byte-at-a-time machine does, so that the
    way the network splits a request into chunks never shows; the guards of the
    methods never fire; what a well-formed request parses to. *)

From stdpp Require Import base strings list.
From Stdlib Require Import ZArith QArith Ascii Lia.
From S2P Require Import Prelude Numbers Json Cron RequestBuffer.
Open Scope Z_scope.

(** ** Strings *)

Lemma app_cons_str (s t : string) c : (s +:+ String c "") +:+ t = s +:+ String c t.
Proof. by rewrite append_assoc. Qed.

Lemma substring_0_nil s m : String.substring m 0 s = "".
Proof. revert m. induction s as [|c s IH]; intros [|m]; try done. cbn. apply IH. Qed.

Lemma substring_all s : String.substring 0 (length s) s = s.
Proof. induction s as [|c s IH]; [done | exact (f_equal (String c) IH)]. Qed.

Lemma substring_rest s t n :
  n = length t -> String.substring (length s) n (s +:+ t) = t.
Proof. intros ->. induction s as [|c s IH]; [apply substring_all | apply IH]. Qed.

Lemma substring_first s t : String.substring 0 (length s) (s +:+ t) = s.
Proof. induction s as [|c s IH]; [by destruct t | exact (f_equal (String c) IH)]. Qed.

(** ** A byte at a time *)

Section bytewise.
Context {P : Type} (json_params query_params : string -> P -> option P).
Context (basename : string -> string).

Abbreviation RB := (RB (P := P)).
Abbreviation feed_step := (feed_step json_params query_params basename).
Abbreviation feed_loop := (feed_loop json_params query_params basename).
Abbreviation feed := (feed json_params query_params basename).
Abbreviation feedLine := (feedLine json_params query_params).
Abbreviation feedPostBody := (feedPostBody json_params query_params).

(** The reference: every byte is a chunk of its own. *)
Fixpoint feed_bytes (chunk : string) : RB (option string) :=
  match chunk with
  | EmptyString => mret None
  | String c rest =>
      _ ← feed_step (String c "");
      done ← gets completed;
      if done : bool then mret (Some rest) else feed_bytes rest
  end.

(** How a turn on a longer chunk relates to the turn on its first byte. *)
Definition peels (c : ascii) (rest : string) (b : buffer P) : Prop :=
  match feed_step (String c "") b with
  | (Throw e, b') => feed_step (String c rest) b = (Throw e, b')
  | (Ok r, b') =>
      r = "" /\
      (feed_step (String c rest) b = (Ok rest, b') \/
       completed b' = completed b /\ feed_step (String c rest) b = feed_step rest b')
  end.

Lemma feed_step_line (chunk : string) b :
  line_state (state b) = true -> feed_step chunk b = feedLine chunk b.
Proof. intros H. unfold RequestBuffer.feed_step, mbind, ST_bind, gets. by rewrite H. Qed.

(** The bytes counted by a turn. *)
Definition counted (n : Z) (b : buffer P) : buffer P :=
  if readingBody b then set_bodyLength (bodyLength b + n) b else b.

Lemma counted_counted d1 d2 n m b :
  set_data d2 (counted m (set_data d1 (counted n b))) = set_data d2 (counted (n + m) b).
Proof. unfold counted. destruct b as [????????[]????????????]; cbn; by rewrite ?Z.add_assoc. Qed.

Lemma line_state_counted d n b :
  line_state (state (set_data d (counted n b))) = line_state (state b).
Proof. unfold counted. by destruct (readingBody b). Qed.

Lemma completed_counted d n b : completed (set_data d (counted n b)) = completed b.
Proof. unfold counted. by destruct (readingBody b). Qed.

Lemma data_set_data d (b : buffer P) : data (set_data d b) = d.
Proof. done. Qed.

Lemma feedLine_none chunk b :
  break_at LF chunk = None ->
  feedLine chunk b = (Ok "", set_data (data b +:+ chunk) (counted (Z.of_nat (length chunk)) b)).
Proof.
  intros H. unfold RequestBuffer.feedLine. rewrite H. unfold count_body, counted. st_run.
  by destruct (readingBody b).
Qed.

Lemma feedLine_some chunk before rest b :
  break_at LF chunk = Some (before, rest) ->
  feedLine chunk b =
    (_ ← parse json_params query_params (data b +:+ before +:+ String LF ""); mret rest)
      (set_data "" (counted (Z.of_nat (length before) + 1) b)).
Proof.
  intros H. unfold RequestBuffer.feedLine. rewrite H. unfold count_body, counted. st_run.
  by destruct (readingBody b).
Qed.

Lemma peels_line c rest b : line_state (state b) = true -> rest <> "" -> peels c rest b.
Proof.
  intros Hs Hr. unfold peels. rewrite !(feed_step_line _ b) by done.
  destruct (decide (c = LF)) as [->|Hc].
  - rewrite (feedLine_some (String LF "") "" ""), (feedLine_some (String LF rest) "" rest) by done.
    st_run. destruct (parse json_params query_params _ _) as [[[]|e] b'] eqn:Hp; [|done].
    split; [done|by left].
  - assert (forall t, break_at LF (String c t) = (fun p => (String c p.1, p.2)) <$> break_at LF t)
      as Hbreak by (intros t; cbn; by rewrite decide_False).
    rewrite (feedLine_none _ b) by by rewrite Hbreak. split; [done|right].
    split; [apply completed_counted|].
    rewrite feed_step_line by by rewrite line_state_counted.
    destruct (break_at LF rest) as [[before after]|] eqn:Hb.
    + rewrite (feedLine_some (String c rest) (String c before) after) by by rewrite Hbreak, Hb.
      rewrite (feedLine_some rest before after), counted_counted by done.
      rewrite data_set_data, app_cons_str.
      by replace (Z.of_nat (length (String c before)) + 1)
        with (Z.of_nat (length (String c "")) + (Z.of_nat (length before) + 1)) by (cbn; lia).
    + rewrite (feedLine_none rest) by done.
      rewrite (feedLine_none (String c rest)) by by rewrite Hbreak, Hb.
      rewrite data_set_data, counted_counted, app_cons_str.
      by replace (Z.of_nat (length (String c rest)))
        with (Z.of_nat (length (String c "")) + Z.of_nat (length rest)) by (cbn; lia).
Qed.

(** [taken] bytes of a fixed-length body are read. *)
Definition body_read (bytes : string) (taken : Z) (chunk : string) (b : buffer P) : buffer P :=
  set_bodyLength (bodyLength b + taken)
    (set_postBodyBuffers (Some (bytes +:+ String.substring 0 (Z.to_nat taken) chunk)) b).

Lemma feedPostBody_eq chunk bytes l b taken :
  postBodyBuffers b = Some bytes -> contentLength b = Length l ->
  taken = Z.min (Z.of_nat (length chunk)) (Z.max 1 (l - bodyLength b)) ->
  feedPostBody chunk b =
    (_ ← (if reached (Length l) (bodyLength b + taken)
          then postRequestDone json_params query_params else mret tt);
     mret (String.substring (Z.to_nat taken) (length chunk - Z.to_nat taken) chunk))
      (body_read bytes taken chunk b).
Proof.
  intros Hb Hl ->. unfold RequestBuffer.feedPostBody, body_read. st_run. rewrite Hb, Hl.
  cbn zeta. st_run. done.
Qed.

Lemma feed_step_post_body chunk b :
  state b = PostBody -> feed_step chunk b = feedPostBody chunk b.
Proof. intros H. unfold RequestBuffer.feed_step. st_run. by rewrite H. Qed.

Lemma peels_post_body c rest b : state b = PostBody -> rest <> "" -> peels c rest b.
Proof.
  intros Hs Hr. unfold peels. rewrite !(feed_step_post_body _ b) by done.
  destruct (postBodyBuffers b) as [bytes|] eqn:Hb; last first.
  { unfold RequestBuffer.feedPostBody. st_run. by rewrite Hb. }
  destruct (contentLength b) as [| |l] eqn:Hl;
    [unfold RequestBuffer.feedPostBody; st_run; by rewrite Hb, Hl..|].
  rewrite (feedPostBody_eq (String c "") bytes l b 1) by (done || cbn; lia).
  destruct (decide (1 < l - bodyLength b)) as [Hmore|Hlast].
  - replace (reached (Length l) (bodyLength b + 1)) with false; last first.
    { symmetry. cbn. apply andb_false_intro2, Z.leb_gt. lia. }
    st_run. split; [done|right]. split; [done|].
    set (b1 := body_read bytes 1 (String c "") b).
    rewrite feed_step_post_body by done.
    set (taken := Z.min (Z.of_nat (length rest)) (Z.max 1 (l - bodyLength b1))).
    assert (Z.of_nat (length rest) > 0) as Hpos by (destruct rest; [done|cbn; lia]).
    assert (0 < taken) by (unfold taken; lia).
    rewrite (feedPostBody_eq rest (bytes +:+ String c "") l b1 taken) by done.
    rewrite (feedPostBody_eq (String c rest) bytes l b (1 + taken)); [|done..|]; last first.
    { unfold taken, b1. cbn [length]. cbn [body_read set_bodyLength RequestBuffer.bodyLength].
      unfold body_read. cbn. lia. }
    replace (bodyLength b1 + taken) with (bodyLength b + (1 + taken)) by (cbn; lia).
    replace (Z.to_nat (1 + taken)) with (S (Z.to_nat taken)) by lia.
    unfold body_read at 1. replace (Z.to_nat (1 + taken)) with (S (Z.to_nat taken)) by lia.
    cbn [String.substring length]. rewrite Nat.sub_succ.
    unfold b1, body_read. cbn [set_bodyLength set_postBodyBuffers].
    rewrite app_cons_str. unfold set_bodyLength, set_postBodyBuffers. cbn. 
    by rewrite <-Z.add_assoc.
  - rewrite (feedPostBody_eq (String c rest) bytes l b 1) by (done || cbn [length]; lia).
    replace (body_read bytes 1 (String c rest) b) with (body_read bytes 1 (String c "") b)
      by (unfold body_read; cbn; by destruct rest).
    replace (String.substring (Z.to_nat 1) (length (String c rest) - Z.to_nat 1) (String c rest))
      with rest
      by (change (Z.to_nat 1) with 1%nat; cbn [length String.substring];
          by rewrite Nat.sub_succ, Nat.sub_0_r, substring_all).
    st_run. destruct (if reached _ _ then _ else _) as [[[]|e] b']; [|done]. split; [done|by left].
Qed.

Lemma peels_byte c rest b : line_state (state b) = false -> state b <> PostBody -> peels c rest b.
Proof.
  intros Hs Hp. unfold peels, RequestBuffer.feed_step. st_run. rewrite Hs.
  destruct (decide (state b = PostBody)); [done|]. destruct (feedByte _ _ _ c b) as [[[]|e] b']; [|done].
  split; [done|by left].
Qed.

Lemma peels_all c rest b : rest <> "" -> peels c rest b.
Proof.
  intros Hr. destruct (line_state (state b)) eqn:Hl; [by apply peels_line|].
  destruct (decide (state b = PostBody)); [by apply peels_post_body | by apply peels_byte].
Qed.

Lemma feed_step_byte c b r b' : feed_step (String c "") b = (Ok r, b') -> r = "".
Proof.
  intros H. assert (peels c "x" b) as Hp by by apply peels_all. unfold peels in Hp.
  rewrite H in Hp. by destruct Hp.
Qed.

Lemma feed_loop_bytes fuel chunk b :
  (length chunk <= fuel)%nat -> completed b = false -> feed_loop fuel chunk b = feed_bytes chunk b.
Proof.
  revert fuel b. induction chunk as [|c rest IH]; intros fuel b Hf Hc; [by destruct fuel|].
  cbn in Hf. destruct fuel as [|fuel]; [lia|].
  cbn [RequestBuffer.feed_loop feed_bytes]. st_run.
  destruct (decide (rest = "")) as [->|Hr].
  - destruct (feed_step (String c "") b) as [[r|e] b'] eqn:Hstep; [|done].
    rewrite (feed_step_byte _ _ _ _ Hstep). destruct (completed b') eqn:Hc'; [done|].
    rewrite IH by done || (cbn; lia). done.
  - pose proof (peels_all c rest b Hr) as Hp. unfold peels in Hp.
    destruct (feed_step (String c "") b) as [[r|e] b'] eqn:Hstep; [|by rewrite Hp].
    destruct Hp as [-> [Hp|[Hc' Hp]]].
    + rewrite Hp. destruct (completed b') eqn:Hc'; [done|]. apply IH; [lia|done].
    + rewrite Hc in Hc'. rewrite Hp, Hc', <-(IH (S fuel) b') by (done || lia).
      destruct rest; [done|]. done.
Qed.

(** The bulk reads of [feed] (whole lines, whole spans of a fixed-length
    body) leave the buffer in the state, with the result and the exception,
    that one turn of the loop per byte leaves it in. *)
Lemma feed_is_bytewise chunk b :
  completed b = false -> feed chunk b = feed_bytes chunk b.
Proof. intros Hc. by apply feed_loop_bytes. Qed.

Lemma feed_bytes_app d1 d2 b :
  feed_bytes (d1 +:+ d2) b =
  match feed_bytes d1 b with
  | (Ok None, b1) => feed_bytes d2 b1
  | (Ok (Some rest), b1) => (Ok (Some (rest +:+ d2)), b1)
  | (Throw e, b1) => (Throw e, b1)
  end.
Proof.
  revert b. induction d1 as [|c d1 IH]; intros b; [done|].
  change (String c d1 +:+ d2) with (String c (d1 +:+ d2)). cbn [feed_bytes]. st_run.
  destruct (feed_step (String c "") b) as [[r|e] b']; [|done].
  destruct (completed b'); [done|apply IH].
Qed.

Lemma feed_bytes_incomplete chunk b b' :
  completed b = false -> feed_bytes chunk b = (Ok None, b') -> completed b' = false.
Proof.
  revert b. induction chunk as [|c rest IH]; intros b Hc.
  - by intros [= <-].
  - cbn [feed_bytes]. st_run. destruct (feed_step (String c "") b) as [[r|e] b1]; [|done].
    destruct (completed b1) eqn:Hc1; [done|]. by apply IH.
Qed.

Lemma feed_eq_bytes chunk b : completed b = false -> feed chunk b = feed_bytes chunk b.
Proof. intros Hc. by apply feed_loop_bytes. Qed.

(** [feed] on each of the chunks of a connection until the request is complete:
    the bytes that follow it. *)
Fixpoint feed_chunks (chunks : list string) : RB (option string) :=
  match chunks with
  | [] => mret None
  | chunk :: chunks' =>
      r ← feed chunk;
      match r with
      | Some rest => mret (Some (rest +:+ String.concat "" chunks'))
      | None => feed_chunks chunks'
      end
  end.

Lemma concat_cons_str chunk chunks :
  String.concat "" (chunk :: chunks) = chunk +:+ String.concat "" chunks.
Proof. destruct chunks as [|c cs]; [by rewrite append_nil_r|done]. Qed.

Lemma feed_chunks_bytes chunks b :
  completed b = false -> feed_chunks chunks b = feed_bytes (String.concat "" chunks) b.
Proof.
  revert b. induction chunks as [|chunk chunks IH]; intros b Hc; [done|].
  rewrite concat_cons_str, feed_bytes_app. cbn [feed_chunks]. st_run.
  rewrite feed_eq_bytes by done.
  destruct (feed_bytes chunk b) as [[[rest|]|e] b1] eqn:H1; [done| |done].
  apply IH. by eapply feed_bytes_incomplete.
Qed.

(** C8: what a connection's bytes parse to (the state of the buffer with its
    events, the remaining bytes, the exception) does not depend on how the
    network splits them into chunks. *)
Theorem feed_any_chunking chunks1 chunks2 b :
  completed b = false -> String.concat "" chunks1 = String.concat "" chunks2 ->
  feed_chunks chunks1 b = feed_chunks chunks2 b.
Proof. intros Hc Heq. rewrite !feed_chunks_bytes by done. by rewrite Heq. Qed.

(** ** The guards *)

(** A part with a file name has a name. *)
Definition part_ok (p : form_data_part) : Prop :=
  match fp_filename p with
  | None => True
  | Some _ => exists c n, fp_name p = Some (String c n)
  end.

(** What each state has set. *)
Definition buffer_ok (b : buffer P) : Prop :=
  match state b with
  | Status | StateDone => True
  | Headers => exists c m, httpMethod b = Some (String c m)
  | PostBody => is_Some (postBodyBuffers b) /\ exists n, n <> 0 /\ contentLength b = Length n
  | ChunkedSize | ChunkedTrailer | ChunkedDataCrlf => is_Some (chunkedBodyChars b)
  | ChunkedData => is_Some (currentChunkSize b) /\ is_Some (chunkedBodyChars b)
  | MultiPartFormData => is_Some (boundary b)
  | MultiPartFormDataHeader | MultiPartFormDataBody =>
      is_Some (boundary b) /\ exists p, formDataPart b = Some p /\ part_ok p
  end.

(** The exceptions a request can cause. *)
Definition request_error (e : parse_error) : Prop :=
  match e with
  | MethodNotSet | PartNameNotSet | NotInitialized | UnknownLineState => False
  | _ => True
  end.

Definition outcome {A} (r : result parse_error A * buffer P) : Prop :=
  match r with (Ok _, b') => buffer_ok b' | (Throw e, _) => request_error e end.

Lemma outcome_bind {A B} (m : RB A) (k : A -> RB B) b :
  outcome (m b) -> (forall a b', m b = (Ok a, b') -> buffer_ok b' -> outcome (k a b')) ->
  outcome ((m ≫= k) b).
Proof.
  intros Hm Hk. st_run. destruct (m b) as [[a|e] b'] eqn:H; [|exact Hm]. by apply Hk.
Qed.

Lemma completeRequest_outcome b : outcome (completeRequest json_params query_params b).
Proof.
  unfold completeRequest. st_run.
  destruct (has_json_body _); [|destruct (multiPartyFormData _)].
  - unfold parseApplicationJsonParams. cbn.
    destruct (postBody b) as [[|c body]|]; [done| |done]. by destruct (json_params _ _).
  - done.
  - unfold parseQueryStringPostParams. cbn.
    destruct (postBody b) as [[|c body]|]; [done| |done]. by destruct (query_params _ _).
Qed.

Lemma parseStatusLine_outcome line b : outcome (parseStatusLine line b).
Proof.
  unfold parseStatusLine, match_status_line.
  destruct (line_text line) as [text|]; [|done]. cbn.
  destruct (span_method text) as [[|c m] [|s rest]]; [done..|].
  destruct (decide (s = " "%char)) as [->|Hs].
  - cbn. destruct (first_split _ rest) as [[t v]|]; [|done].
    unfold outcome, buffer_ok. cbn. st_run. cbn. eauto.
  - by destruct s as [[][][][][][][][]].
Qed.

Lemma buffer_ok_frame (b b' : buffer P) :
  state b' = state b -> postBodyBuffers b' = postBodyBuffers b ->
  contentLength b' = contentLength b -> chunkedBodyChars b' = chunkedBodyChars b ->
  currentChunkSize b' = currentChunkSize b -> boundary b' = boundary b ->
  formDataPart b' = formDataPart b -> httpMethod b' = httpMethod b ->
  buffer_ok b -> buffer_ok b'.
Proof. unfold buffer_ok. by intros -> -> -> -> -> -> -> ->. Qed.

Ltac settle :=
  unfold initializeChunkedBody, start_reading_body, setState, emit, outcome, buffer_ok in *;
  st_run; cbn; repeat match goal with H : state _ = _ |- _ => rewrite H in *; clear H end;
  naive_solver eauto.

Lemma parseHeader_outcome line b :
  state b = Headers -> buffer_ok b -> outcome (parseHeader json_params query_params line b).
Proof.
  intros Hs Hok. assert (exists c m, httpMethod b = Some (String c m)) as (c & m & Hm)
    by (unfold buffer_ok in Hok; by rewrite Hs in Hok).
  unfold parseHeader. destruct (readHeaderFromLine line) as [h|].
  - unfold addHeader. st_run. destruct (decide _); settle.
  - destruct (decide (line = CRLF)); [|settle].
    st_run. rewrite Hm. cbn [fmap option_fmap option_map string_map].
    destruct (negb _); [apply completeRequest_outcome|].
    destruct (isChunkedEncoding b) eqn:Hch; [settle|].
    unfold start_reading_body. st_run.
    case_match; [settle|]. destruct (contentLength _) as [| |n] eqn:Hl;
      [apply completeRequest_outcome|done|].
    destruct n; [apply completeRequest_outcome|settle..].
Qed.

Lemma parseChunkSizeLine_outcome line b :
  state b = ChunkedSize -> buffer_ok b -> outcome (parseChunkSizeLine line b).
Proof.
  intros Hs Hok. unfold parseChunkSizeLine.
  assert (is_Some (chunkedBodyChars b)) by (unfold buffer_ok in Hok; by rewrite Hs in Hok).
  destruct (js_trim line) as [|c s]; [settle|].
  destruct (chunk_size_token _) as [|c' s']; [settle|].
  destruct (parse_int _ _) as [size|]; [|settle].
  destruct (negb _); [settle|]. destruct (size =? 0); settle.
Qed.

Lemma quoted_name_nonempty s n f : quoted_name s = Some (n, f) -> exists c n', n = String c n'.
Proof.
  destruct s as [|c s]; [done|]. cbn. case_match.
  - intros [= <- <-]. eauto.
  - destruct (quoted_name s) as [[n' f']|]; [|done]. intros [= <- <-]. eauto.
Qed.

Lemma content_disposition_nonempty v n f :
  content_disposition v = Some (n, f) -> exists c n', n = String c n'.
Proof.
  unfold content_disposition. intros H. repeat apply bind_Some in H as (? & _ & H).
  by eapply quoted_name_nonempty.
Qed.

Lemma part_addHeader_ok h p : part_ok p -> part_ok (part_addHeader h p).
Proof.
  unfold part_addHeader. intros Hp. destruct (decide _).
  - destruct (content_disposition (h_value h)) as [[n f]|] eqn:H; [|done].
    apply content_disposition_nonempty in H as (c & n' & ->). unfold part_ok. cbn. destruct f; eauto.
  - destruct (decide _); [done|]. by destruct (decide _).
Qed.

Lemma part_finish_ok p : part_ok p -> exists v, part_finish basename p = Ok v.
Proof.
  unfold part_ok, part_finish. destruct (fp_filename p) as [[|c f]|]; [eauto| |eauto].
  intros (c' & n & ->). destruct (_ <=? _); eauto.
Qed.

Lemma formDataPartDone_Ok (b : buffer P) p :
  formDataPart b = Some p -> part_ok p ->
  exists v, part_finish basename p = Ok v /\
    formDataPartDone basename b =
      (Ok tt, set_events (events b ++ [FormDataPartEvent (set_body "" p) v]) (set_formDataPart None b)).
Proof.
  intros Hp Hok. destruct (part_finish_ok p Hok) as [v Hv]. exists v. split; [done|].
  unfold formDataPartDone. st_run. rewrite Hp. by rewrite Hv.
Qed.

Lemma parse_outcome line b :
  line_state (state b) = true -> buffer_ok b ->
  outcome (parse json_params query_params line b).
Proof.
  intros Hs Hok. unfold parse. st_run. destruct (state b) eqn:Hst; try done.
  - apply parseStatusLine_outcome.
  - by apply parseHeader_outcome.
  - unfold newFormDataPart.
    assert (is_Some (boundary b)) by (unfold buffer_ok in Hok; by rewrite Hst in Hok).
    destruct (decide _); [|destruct (decide _); settle].
    unfold outcome, buffer_ok; cbn. split; [done|]. by eexists.
  - unfold buffer_ok in Hok. rewrite Hst in Hok. destruct Hok as (Hb & p & Hp & Hpok).
    destruct (readHeaderFromLine line) as [h|]; [|destruct (decide _); settle].
    rewrite Hp. unfold outcome, buffer_ok. cbn. rewrite Hst. split; [done|].
    eexists. split; [done|]. by apply part_addHeader_ok.
  - by apply parseChunkSizeLine_outcome.
  - destruct (decide _); [|settle]. unfold finishChunkedBody. st_run. apply completeRequest_outcome.
Qed.

Lemma feedLine_outcome chunk b :
  line_state (state b) = true -> buffer_ok b -> outcome (feedLine chunk b).
Proof.
  intros Hs Hok. assert (forall d n, buffer_ok (set_data d (counted n b))) as Hframe.
  { intros d n. eapply buffer_ok_frame, Hok; unfold counted; by destruct (readingBody b). }
  destruct (break_at LF chunk) as [[before rest]|] eqn:Hb.
  - rewrite (feedLine_some _ _ _ _ Hb). apply outcome_bind; [|done].
    apply parse_outcome; [by rewrite line_state_counted|apply Hframe].
  - rewrite (feedLine_none _ _ Hb). apply Hframe.
Qed.

Lemma feedPostBody_outcome chunk b :
  state b = PostBody -> buffer_ok b -> outcome (feedPostBody chunk b).
Proof.
  intros Hs Hok. assert (is_Some (postBodyBuffers b) /\ exists n, n <> 0 /\ contentLength b = Length n)
    as ([bytes Hb] & n & Hn & Hl) by (unfold buffer_ok in Hok; by rewrite Hs in Hok).
  rewrite (feedPostBody_eq _ bytes n b _ Hb Hl eq_refl). apply outcome_bind; [|done].
  destruct (reached _ _).
  - unfold postRequestDone. st_run. apply completeRequest_outcome.
  - unfold outcome, buffer_ok, mret, ST_ret, body_read. cbn. rewrite Hs. eauto.
Qed.

Lemma feedPartBody_outcome c b :
  state b = MultiPartFormDataBody -> buffer_ok b ->
  outcome (feedPartBody json_params query_params basename c b).
Proof.
  intros Hs Hok. assert (is_Some (boundary b) /\ exists p, formDataPart b = Some p /\ part_ok p)
    as ([bd Hbd] & p & Hp & Hpok) by (unfold buffer_ok in Hok; by rewrite Hs in Hok).
  assert (forall p' (b' : buffer P), formDataPart b' = Some p' -> part_ok p' -> boundary b' = Some bd ->
    exists b'', formDataPartDone basename b' = (Ok tt, b'') /\ boundary b'' = Some bd) as Hdone.
  { intros p' b' H1 H2 H3. destruct (formDataPartDone_Ok b' p' H1 H2) as (v & _ & ->). eauto. }
  unfold feedPartBody. st_run. rewrite Hp, Hbd. cbv zeta.
  repeat match goal with |- outcome ((if ?x then _ else _) _) => destruct x end;
    [edestruct Hdone as (b'' & -> & Hb''); [reflexivity|done|done|]..|].
  - apply completeRequest_outcome.
  - unfold newFormDataPart, setState, outcome, buffer_ok. st_run. cbn. rewrite Hb''. split; [done|by eexists].
  - apply completeRequest_outcome.
  - done.
  - unfold outcome, buffer_ok. cbn. rewrite Hs, Hbd. split; [done|by eexists].
Qed.

Lemma feedByte_outcome c b :
  line_state (state b) = false -> state b <> PostBody -> buffer_ok b ->
  outcome (feedByte json_params query_params basename c b).
Proof.
  intros Hl Hpb Hok. unfold feedByte, count_body. st_run.
  set (b1 := if readingBody b then _ else b).
  assert (buffer_ok b1) as Hok1 by (eapply buffer_ok_frame, Hok; unfold b1; by destruct (readingBody b)).
  assert (state b1 = state b) as Hs1 by (unfold b1; by destruct (readingBody b)).
  rewrite <-Hs1 in Hl, Hpb. clear Hs1 Hok. clearbody b1. destruct (state b1) eqn:Hs; try done;
    clear Hl Hpb.
  - by apply feedPartBody_outcome.
  - unfold feedChunkedData. st_run. unfold buffer_ok in Hok1. rewrite Hs in Hok1.
    destruct Hok1 as [[n Hn] [cs Hcs]]. rewrite Hn, Hcs. st_run.
    destruct (n <=? _); unfold setState, outcome, buffer_ok; st_run; cbn; rewrite ?Hs, ?Hn; eauto.
  - unfold buffer_ok in Hok1. rewrite Hs in Hok1. unfold feedChunkedDataCrlf. st_run.
    destruct (2 <=? _); unfold setState, outcome, buffer_ok; st_run; cbn; by rewrite ?Hs.
Qed.

Lemma feed_step_outcome c b : buffer_ok b -> outcome (feed_step (String c "") b).
Proof.
  intros Hok. destruct (line_state (state b)) eqn:Hl.
  - rewrite feed_step_line by done. by apply feedLine_outcome.
  - destruct (decide (state b = PostBody)) as [Hp|Hp].
    + rewrite feed_step_post_body by done. by apply feedPostBody_outcome.
    + unfold RequestBuffer.feed_step. st_run. rewrite Hl.
      destruct (decide (state b = PostBody)) as [|_]; [done|].
      pose proof (feedByte_outcome c b Hl Hp Hok) as H.
      by destruct (feedByte _ _ _ c b) as [[[]|e] b'].
Qed.

Lemma feed_bytes_outcome chunk b : buffer_ok b -> outcome (feed_bytes chunk b).
Proof.
  revert b. induction chunk as [|c rest IH]; intros b Hok; [done|].
  cbn [feed_bytes]. apply outcome_bind; [by apply feed_step_outcome|].
  intros r b' _ Hok'. st_run. destruct (completed b'); [done|by apply IH].
Qed.

(** whatever bytes a client sends, in whatever chunks, the guards that the
    methods test on entry (an uninitialised body, chunk size, part, boundary,
    method or part name, a state without a line parser) never fire: an exception
    is always about the request's own syntax, its parameters or the part length
    that is not implemented. *)
Lemma feed_guards_never_fire chunks (no_params : P) e b' :
  feed_chunks chunks (initial_buffer no_params) = (Throw e, b') -> request_error e.
Proof.
  rewrite feed_chunks_bytes by done. intros H.
  pose proof (feed_bytes_outcome (String.concat "" chunks) (initial_buffer no_params) I) as Ho.
  by rewrite H in Ho.
Qed.

End bytewise.

(** ** Examples *)

Definition sample_params (text _ : string) : option string := Some text.

Definition sample_text : string :=
  "POST / HTTP/1.1" +:+ CRLF +:+ "Content-Length: 4" +:+ CRLF +:+ CRLF +:+ "a=1&rest".

Lemma feed_is_bytewise_witness :
  feed sample_params sample_params (fun f => f) sample_text (initial_buffer "") =
  feed_bytes sample_params sample_params (fun f => f) sample_text (initial_buffer "").
Proof. apply feed_is_bytewise. reflexivity. Defined.

Lemma feed_any_chunking_witness :
  feed_chunks sample_params sample_params (fun f => f)
    [String.substring 0 21 sample_text; String.substring 21 19 sample_text; String.substring 40 6 sample_text]
    (initial_buffer "") =
  feed_chunks sample_params sample_params (fun f => f) [sample_text] (initial_buffer "").
Proof. apply feed_any_chunking; vm_compute; reflexivity. Defined.

Lemma feed_guards_never_fire_witness : request_error (BadStatusLine (CRLF)).
Proof.
  apply (feed_guards_never_fire sample_params sample_params (fun f => f) [CRLF] "" _ (initial_buffer "")).
  vm_compute. reflexivity.
Defined.
