(* ===== verification/HttpRequests.v ===== *)
(** * Well-formed HTTP requests

    What the parser of RequestBuffer does on the bytes of a well-formed request,
    for each of the ways a body is delimited, and what it leaves of the bytes
    that follow it on the connection. *)

From stdpp Require Import base strings list.
From Stdlib Require Import ZArith QArith Ascii Lia.
From S2P Require Import Prelude Numbers Json Cron RequestBuffer RequestBufferTheorems.
Open Scope Z_scope.

(** ** Lines *)

Definition no_eol (s : string) : Prop := has_char CR s = false /\ has_char LF s = false.

Lemma strip_suffix_cons t c s :
  strip_suffix t (String c s) =
  if decide (String c s = t) then Some "" else String c <$> strip_suffix t s.
Proof. by destruct t. Qed.

Lemma strip_suffix_app s t : strip_suffix t (s +:+ t) = Some s.
Proof.
  induction s as [|c s IH].
  - change ("" +:+ t) with t. destruct t; [done|]. rewrite strip_suffix_cons. by destruct (decide _).
  - rewrite append_cons, strip_suffix_cons. destruct (decide _) as [He|_].
    + apply (f_equal String.length) in He. cbn in He. rewrite length_append in He. lia.
    + by rewrite IH.
Qed.

Lemma line_text_app s : no_eol s -> line_text (s +:+ CRLF) = Some s.
Proof. intros [Hc Hl]. unfold line_text. by rewrite strip_suffix_app, Hc, Hl. Qed.

Lemma strip_prefix p s t : strip p s = Some t -> s = p +:+ t.
Proof.
  revert s. induction p as [|c p IH]; intros s; [by intros [= ->]|].
  destruct s as [|d s]; [done|]. cbn [strip]. destruct (decide (c = d)) as [->|]; [|done].
  intros H. by rewrite (IH s H).
Qed.

Lemma starts_with_app p s : starts_with p (p +:+ s) = true.
Proof.
  induction p as [|c p IH]; [by destruct s|]. unfold starts_with in *. rewrite append_cons.
  cbn [String.prefix]. by destruct (Ascii.ascii_dec c c).
Qed.

Lemma includes_prefix p s : includes p (p +:+ s) = true.
Proof. pose proof (starts_with_app p s) as H. destruct (p +:+ s); cbn [includes]; by rewrite H. Qed.

(** *** Header lines *)

Lemma last_colon_split_cons c rest :
  last_colon_split (String c rest) =
  match last_colon_split rest with
  | Some (name, value) => Some (String c name, value)
  | None =>
      match strip ": " rest with
      | Some (String _ _ as value) => Some (String c "", value)
      | _ => None
      end
  end.
Proof. done. Qed.

Lemma last_colon_split_None v : includes ": " v = false -> last_colon_split v = None.
Proof.
  induction v as [|c v IH]; [done|].
  intros [_ H2]%orb_false_iff. cbn [last_colon_split]. rewrite IH by done.
  destruct (strip ": " v) as [[|d t]|] eqn:Hs; [done| |done].
  apply strip_prefix in Hs as ->. by rewrite includes_prefix in H2.
Qed.

Lemma last_colon_split_app n v :
  n <> "" -> v <> "" -> includes ": " v = false ->
  last_colon_split (n +:+ ": " +:+ v) = Some (n, v).
Proof.
  intros Hn Hv Hi. assert (last_colon_split (": " +:+ v) = None) as Hnone.
  { change (": " +:+ v) with (String ":" (String " " v)).
    rewrite !last_colon_split_cons, last_colon_split_None by done.
    destruct (strip ": " v) as [[|d t]|] eqn:Hs; [done| |done].
    apply strip_prefix in Hs as ->. by rewrite includes_prefix in Hi. }
  induction n as [|c n IH]; [done|]. rewrite append_cons. cbn [last_colon_split].
  destruct (decide (n = "")) as [->|Hn'].
  - change ("" +:+ ": " +:+ v) with (": " +:+ v). rewrite Hnone, strip_append. by destruct v.
  - by rewrite IH.
Qed.

(** *** The status line *)

Lemma first_split_cons sep c rest :
  first_split sep (String c rest) =
  match strip sep rest with
  | Some (String _ _ as after) => Some (String c "", after)
  | _ => (fun p => (String c p.1, p.2)) <$> first_split sep rest
  end.
Proof. done. Qed.

Lemma first_split_app sep_tail target version :
  target <> "" -> version <> "" -> has_char " " target = false ->
  first_split (String " " sep_tail) (target +:+ String " " sep_tail +:+ version) = Some (target, version).
Proof.
  intros Ht Hv Hsp. induction target as [|c target IH]; [done|].
  rewrite append_cons, first_split_cons. rewrite has_char_cons in Hsp.
  apply orb_false_iff in Hsp as [_ Hsp].
  destruct target as [|d target].
  - rewrite append_nil_l, strip_append. by destruct version.
  - rewrite has_char_cons in Hsp. apply orb_false_iff in Hsp as [Hd Hsp].
    apply bool_decide_eq_false in Hd. rewrite IH; [|done|].
    + rewrite append_cons. cbn [strip]. by destruct (decide (" "%char = d)).
    + rewrite has_char_cons, Hsp. by rewrite bool_decide_eq_false_2.
Qed.

Lemma span_method_app m s :
  all_chars is_method_char m = true -> (forall c s', s = String c s' -> is_method_char c = false) ->
  span_method (m +:+ s) = (m, s).
Proof.
  intros Hm Hs. induction m as [|c m IH].
  - rewrite append_nil_l. destruct s as [|c s]; [done|]. cbn [span_method]. by rewrite (Hs c s).
  - cbn [all_chars] in Hm. apply andb_true_iff in Hm as [Hc Hm]. rewrite append_cons.
    cbn [span_method]. by rewrite Hc, IH.
Qed.

Definition status_line (method target version : string) : string :=
  method +:+ " " +:+ target +:+ " HTTP/" +:+ version.

(** A status line [match_status_line] reads back. *)
Definition wf_status (method target version : string) : Prop :=
  method <> "" /\ all_chars is_method_char method = true /\
  target <> "" /\ has_char " " target = false /\ version <> "" /\
  no_eol (status_line method target version).

Lemma match_status_line_app m t v :
  wf_status m t v -> match_status_line (status_line m t v +:+ CRLF) = Some (m, t, v).
Proof.
  intros (Hm & Hmc & Ht & Hsp & Hv & Heol). unfold match_status_line.
  rewrite line_text_app by done. cbn [mbind option_bind]. unfold status_line.
  rewrite span_method_app; [|done|by intros c s [= <- <-]].
  destruct m as [|c m]; [done|]. change (" " +:+ t +:+ " HTTP/" +:+ v) with
    (String " " (t +:+ String " " "HTTP/" +:+ v)). cbn [mbind option_bind].
  by rewrite first_split_app.
Qed.

(** *** The header lines *)

Definition header_line (h : header) : string := h_name h +:+ ": " +:+ h_value h.

(** A header [readHeaderFromLine] reads back. *)
Definition wf_header (h : header) : Prop :=
  h = new_header (h_name h) (h_value h) /\ h_name h <> "" /\ h_value h <> "" /\
  includes ": " (h_value h) = false /\ no_eol (header_line h).

Lemma readHeaderFromLine_app h : wf_header h -> readHeaderFromLine (header_line h +:+ CRLF) = Some h.
Proof.
  intros (Hh & Hn & Hv & Hi & Heol). unfold readHeaderFromLine.
  rewrite line_text_app by done. cbn [mbind option_bind]. unfold header_line.
  rewrite last_colon_split_app by done. cbn [mbind option_bind fst snd]. by rewrite <-Hh.
Qed.

(** ** The head of a request *)

Section requests.
Context {P : Type} (json_params query_params : string -> P -> option P).
Context (basename : string -> string).

Abbreviation feed := (feed json_params query_params basename).
Abbreviation feed_bytes := (feed_bytes json_params query_params basename).
Abbreviation feed_step := (feed_step json_params query_params basename).
Abbreviation feed_loop := (feed_loop json_params query_params basename).
Abbreviation parse := (parse json_params query_params).
Abbreviation completeRequest := (completeRequest json_params query_params).

(** A line that arrives on an empty line buffer is parsed as a whole. *)
Lemma feed_bytes_line text rest b :
  line_state (state b) = true -> data b = "" -> completed b = false -> has_char LF text = false ->
  feed_bytes (text +:+ CRLF +:+ rest) b =
    (_ ← parse (text +:+ CRLF); done ← gets completed;
     if done : bool then mret (Some rest) else feed_bytes rest)
      (counted (Z.of_nat (length text) + 2) b).
Proof.
  intros Hs Hd Hc Hlf. set (chunk := text +:+ CRLF +:+ rest).
  assert (chunk = (text +:+ String CR "") +:+ String LF rest) as Hchunk.
  { unfold chunk. by rewrite append_assoc. }
  assert (length rest <= length chunk)%nat by (unfold chunk; rewrite !length_append; lia).
  assert (break_at LF chunk = Some (text +:+ String CR "", rest)) as Hb.
  { rewrite Hchunk. apply break_at_app. by rewrite has_char_app, Hlf. }
  rewrite <-(feed_loop_bytes _ _ _ (S (length chunk))) by (done || lia).
  assert (exists c s, chunk = String c s) as (c & s & Hcs) by (unfold chunk; destruct text; eauto).
  rewrite Hcs at 2. cbn [RequestBuffer.feed_loop]. rewrite <-Hcs. unfold mbind at 1, ST_bind at 1.
  rewrite feed_step_line, (feedLine_some _ _ _ _ _ _ Hb) by done.
  replace (set_data "" (counted (Z.of_nat (length (text +:+ String CR "")) + 1) b))
    with (counted (Z.of_nat (length text) + 2) b); last first.
  { rewrite length_append. replace (Z.of_nat (length text + _) + 1) with (Z.of_nat (length text) + 2)
      by (cbn; lia). unfold counted. destruct b as [????????[]????????????]; cbn in *; by subst. }
  rewrite Hd, append_nil_l, append_assoc. change (String CR "" +:+ String LF "") with CRLF.
  st_run. destruct (parse _ _) as [[[]|e] b'] eqn:Hp; [|done].
  destruct (completed b') eqn:Hc'; [done|]. by apply feed_loop_bytes.
Qed.

(** A header is recorded and announced. *)
Definition receive (b : buffer P) (h : header) : buffer P :=
  ((_ ← addHeader h; emit (HeaderEvent h)) b).2.

Lemma parse_header_line h b :
  state b = Headers -> wf_header h -> parse (header_line h +:+ CRLF) b = (Ok tt, receive b h).
Proof.
  intros Hs Hh. unfold RequestBuffer.parse. st_run. rewrite Hs. unfold parseHeader.
  rewrite readHeaderFromLine_app by done. unfold receive, addHeader, emit. st_run.
  by destruct (decide _).
Qed.

(** The buffer when the status line and the headers are read. *)
Definition received (m t v : string) (hdrs : list header) (no_params : P) : buffer P :=
  fold_left receive hdrs (set_state Headers (set_statusLine m v t (initial_buffer no_params))).

Definition headers_of (hdrs : list header) : headers :=
  fold_left (fun hs h => headers_set (h_formattedName h) h hs) hdrs [].

(** What [receive] leaves alone. *)
Record same_but_headers (b b' : buffer P) : Prop := {
  sh_state : state b' = state b;
  sh_data : data b' = data b;
  sh_completed : completed b' = completed b;
  sh_readingBody : readingBody b' = readingBody b;
  sh_httpMethod : httpMethod b' = httpMethod b;
  sh_httpVersion : httpVersion b' = httpVersion b;
  sh_path : path b' = path b;
  sh_params : params b' = params b;
  sh_multiPartyFormData : multiPartyFormData b' = multiPartyFormData b;
  sh_postBody : postBody b' = postBody b
}.

Lemma receive_same b h : same_but_headers b (receive b h).
Proof. unfold receive, addHeader, emit. st_run. by destruct (decide _). Qed.

Lemma receive_headersByName b h :
  headersByName (receive b h) = headers_set (h_formattedName h) h (headersByName b).
Proof. unfold receive, addHeader, emit. st_run. by destruct (decide _). Qed.

Lemma receive_events b h : events (receive b h) = events b ++ [HeaderEvent h].
Proof. unfold receive, addHeader, emit. st_run. by destruct (decide _). Qed.

Lemma fold_receive_same hdrs b : same_but_headers b (fold_left receive hdrs b).
Proof.
  revert b. induction hdrs as [|h hdrs IH]; intros b; [done|].
  cbn [fold_left]. destruct (IH (receive b h)), (receive_same b h). split; congruence.
Qed.

Lemma fold_receive_headersByName hdrs b :
  headersByName (fold_left receive hdrs b) =
  fold_left (fun hs h => headers_set (h_formattedName h) h hs) hdrs (headersByName b).
Proof.
  revert b. induction hdrs as [|h hdrs IH]; intros b; [done|]. cbn [fold_left].
  by rewrite IH, receive_headersByName.
Qed.

Lemma fold_receive_events hdrs b :
  events (fold_left receive hdrs b) = events b ++ map HeaderEvent hdrs.
Proof.
  revert b. induction hdrs as [|h hdrs IH]; intros b; cbn [fold_left map]; [by rewrite app_nil_r|].
  by rewrite IH, receive_events, <-app_assoc.
Qed.

Fixpoint header_lines (hdrs : list header) : string :=
  match hdrs with
  | [] => ""
  | h :: hdrs' => header_line h +:+ CRLF +:+ header_lines hdrs'
  end.

(** The bytes of the head of a request. *)
Definition request_head (m t v : string) (hdrs : list header) : string :=
  status_line m t v +:+ CRLF +:+ header_lines hdrs +:+ CRLF.

Lemma counted_idle n (b : buffer P) : readingBody b = false -> counted n b = b.
Proof. unfold counted. by intros ->. Qed.

Lemma feed_bytes_header_lines hdrs rest b :
  Forall wf_header hdrs -> state b = Headers -> data b = "" -> completed b = false ->
  readingBody b = false ->
  feed_bytes (header_lines hdrs +:+ rest) b = feed_bytes rest (fold_left receive hdrs b).
Proof.
  intros Hwf. revert b. induction Hwf as [|h hdrs Hh _ IH]; intros b Hs Hd Hc Hr; [done|].
  cbn [header_lines fold_left]. rewrite !append_assoc.
  rewrite feed_bytes_line; [|by rewrite Hs|done|done|by apply Hh].
  rewrite counted_idle by done. st_run. rewrite parse_header_line by done. destruct (receive_same b h).
  replace (completed (receive b h)) with false by congruence. apply IH; congruence.
Qed.

(** A run on the head reaches the blank line with the headers recorded. *)
Lemma feed_bytes_head m t v hdrs rest no_params :
  wf_status m t v -> Forall wf_header hdrs ->
  feed_bytes (request_head m t v hdrs +:+ rest) (initial_buffer no_params) =
    (_ ← parseHeader json_params query_params CRLF; done ← gets completed;
     if done : bool then mret (Some rest) else feed_bytes rest) (received m t v hdrs no_params).
Proof.
  intros Hst Hh. unfold request_head. rewrite !append_assoc.
  rewrite feed_bytes_line; [|done..|by apply Hst]. rewrite counted_idle by done. st_run.
  unfold RequestBuffer.parse at 1. st_run. cbn [state initial_buffer].
  unfold parseStatusLine. rewrite match_status_line_app by done. unfold setState. st_run.
  cbn [completed set_state set_statusLine initial_buffer].
  fold (set_statusLine m v t (initial_buffer no_params)).
  rewrite feed_bytes_header_lines by done. fold (received m t v hdrs no_params).
  destruct (fold_receive_same hdrs (set_state Headers (set_statusLine m v t (initial_buffer no_params)))).
  rewrite <-(append_nil_l (CRLF +:+ rest)).
  rewrite feed_bytes_line; [|unfold received; by rewrite ?sh_state0|done..|done].
  rewrite counted_idle by done. rewrite append_nil_l. unfold RequestBuffer.parse at 1. st_run.
  unfold received at 1. rewrite sh_state0. done.
Qed.

(** The parameters [completeRequest] parses, when that does not throw. *)
Definition parsed_params (b : buffer P) : option P :=
  match postBody b with
  | Some (String _ _ as body) =>
      if has_json_body b then json_params body (params b)
      else if multiPartyFormData b then Some (params b)
      else query_params body (params b)
  | _ => Some (params b)
  end.

Definition completed_buffer (p : P) (b : buffer P) : buffer P :=
  set_events (events b ++ [CompletedEvent]) (set_params p (set_completed true (set_state Status b))).

Lemma completeRequest_Ok b p :
  parsed_params b = Some p -> completeRequest b = (Ok tt, completed_buffer p b).
Proof.
  unfold parsed_params, RequestBuffer.completeRequest, emit, completed_buffer. st_run.
  unfold parseApplicationJsonParams, parseQueryStringPostParams. st_run.
  change (has_json_body (set_completed true (set_state Status b))) with (has_json_body b).
  change (multiPartyFormData (set_completed _ _)) with (multiPartyFormData b).
  destruct (has_json_body b), (multiPartyFormData b); cbn; destruct (postBody b) as [[|c body]|] eqn:Hp;
    try (intros ->; reflexivity); intros [= <-]; by destruct b.
Qed.

(** What a completed request exposes. *)
Definition request_is (b : buffer P) (m t v : string) (hdrs : list header) (body : option string) (p : P)
    : Prop :=
  completed b = true /\ httpMethod b = Some m /\ path b = Some t /\ httpVersion b = Some v /\
  headersByName b = headers_of hdrs /\ postBody b = body /\ params b = p /\
  events b = map HeaderEvent hdrs ++ [CompletedEvent].

Definition multipart_type (b : buffer P) : option string :=
  getHeader "content-type" b ≫= fun h => multipart_boundary (h_value h).

(** What reading a body leaves alone. *)
Record same_head (b b' : buffer P) : Prop := {
  sb_httpMethod : httpMethod b' = httpMethod b;
  sb_httpVersion : httpVersion b' = httpVersion b;
  sb_path : path b' = path b;
  sb_params : params b' = params b;
  sb_multiPartyFormData : multiPartyFormData b' = multiPartyFormData b;
  sb_headersByName : headersByName b' = headersByName b;
  sb_events : events b' = events b;
  sb_data : data b' = data b;
  sb_completed : completed b' = completed b
}.

Lemma same_head_trans b1 b2 b3 : same_head b1 b2 -> same_head b2 b3 -> same_head b1 b3.
Proof. intros [] []. split; congruence. Qed.

Lemma received_is m t v hdrs no_params b' body p :
  same_head (received m t v hdrs no_params) b' ->
  request_is (completed_buffer p (set_postBody body b')) m t v hdrs body p.
Proof.
  intros []. destruct (fold_receive_same hdrs (set_state Headers (set_statusLine m v t (initial_buffer no_params)))).
  unfold received in *. unfold request_is, completed_buffer. cbn in *.
  rewrite sb_events0, sb_headersByName0, fold_receive_events, fold_receive_headersByName.
  repeat split; congruence.
Qed.

(** The blank line after the headers of a request without a body. *)
Definition no_body (b : buffer P) (m : string) : Prop :=
  expectsRequestBody (string_map upper_ascii m) = false \/
  isChunkedEncoding b = false /\ multipart_type b = None /\
    (contentLength b = Unset \/ contentLength b = Length 0).

Lemma received_same m t v hdrs no_params :
  same_but_headers (set_state Headers (set_statusLine m v t (initial_buffer no_params)))
    (received m t v hdrs no_params).
Proof. apply fold_receive_same. Qed.

Definition body_started (b : buffer P) : buffer P := set_bodyLength 0 (set_readingBody true b).

Lemma parse_blank_line c m b :
  httpMethod b = Some (String c m) ->
  parseHeader json_params query_params CRLF b =
    if negb (expectsRequestBody (string_map upper_ascii (String c m))) then completeRequest b
    else if isChunkedEncoding b then initializeChunkedBody (body_started b)
    else match multipart_type b with
         | Some bd => (Ok tt, set_state MultiPartFormData (set_multiPartyFormData true
                                (set_boundary (Some bd) (body_started b))))
         | None =>
             match contentLength b with
             | Unset | Length 0 => completeRequest (body_started b)
             | NotANumber => (Throw InvalidContentLength, body_started b)
             | Length _ => (Ok tt, set_state PostBody (set_postBodyBuffers (Some "") (body_started b)))
             end
         end.
Proof.
  intros Hm. unfold parseHeader. change (readHeaderFromLine CRLF) with (@None header).
  destruct (decide (CRLF = CRLF)); [|done]. unfold start_reading_body, setState. st_run.
  rewrite Hm. cbn [fmap option_fmap option_map string_map].
  destruct (negb _); [done|]. destruct (isChunkedEncoding b); [done|].
  match goal with |- context [option_bind ?A ?B ?f ?x] =>
    change (option_bind A B f x) with (multipart_type b) end.
  destruct (multipart_type b); [done|].
  change (contentLength (set_bodyLength 0 (set_readingBody true b))) with (contentLength b).
  by destruct (contentLength b) as [| |[]].
Qed.

(** A request without a body (a GET, OPTIONS or HEAD, or no content length)
    completes with its blank line: the method, target, version and headers are
    those of its bytes, each header is announced once in order, and the bytes of
    the next request stay on the connection. *)
Lemma bodyless_request_is_read m t v hdrs rest no_params :
  wf_status m t v -> Forall wf_header hdrs -> no_body (received m t v hdrs no_params) m ->
  exists b', feed (request_head m t v hdrs +:+ rest) (initial_buffer no_params) = (Ok (Some rest), b') /\
    request_is b' m t v hdrs None no_params.
Proof.
  intros Hst Hh Hno. rewrite feed_eq_bytes, feed_bytes_head by done.
  set (b := received m t v hdrs no_params) in *.
  pose proof (received_same m t v hdrs no_params) as Hsame. fold b in Hsame.
  destruct m as [|c m]; [by destruct Hst|].
  assert (forall b1, same_head b b1 -> postBody b1 = None ->
    exists b', (_ ← completeRequest; done ← gets completed;
       if done : bool then mret (Some rest) else feed_bytes rest) b1 = (Ok (Some rest), b') /\
       request_is b' (String c m) t v hdrs None no_params) as Hcomplete.
  { intros b1 Hb1 Hp. st_run. exists (completed_buffer no_params b1).
    assert (params b1 = no_params) as Hp2 by (destruct Hb1, Hsame; cbn in *; congruence).
    rewrite (completeRequest_Ok b1 no_params) by (unfold parsed_params; by rewrite Hp, Hp2).
    split; [done|]. replace b1 with (set_postBody None b1).
    - by apply (received_is _ _ _ _ no_params).
    - rewrite <-Hp. by destruct b1. }
  assert (postBody b = None) as Hp by by destruct Hsame.
  st_run. rewrite (parse_blank_line c m) by by destruct Hsame.
  destruct Hno as [->|(Hch & Hmp & Hl)]; [by apply Hcomplete|].
  rewrite Hch, Hmp. destruct (negb _); [by apply Hcomplete|].
  destruct Hl as [-> | ->]; by apply Hcomplete.
Qed.

(** *** Bodies of a fixed length *)

Lemma feed_bytes_post_body body rest bytes l b :
  state b = PostBody -> postBodyBuffers b = Some bytes -> contentLength b = Length l ->
  completed b = false -> body <> "" -> 0 <= bodyLength b -> l = bodyLength b + Z.of_nat (length body) ->
  feed_bytes (body +:+ rest) b =
    (_ ← postRequestDone json_params query_params; done ← gets completed;
     if done : bool then mret (Some rest) else feed_bytes rest)
      (body_read bytes (Z.of_nat (length body)) body b).
Proof.
  intros Hs Hb Hl Hc Hne Hbl ->. assert (0 < length body)%nat by (destruct body; [done|cbn; lia]).
  assert (length rest <= length (body +:+ rest))%nat by (rewrite length_append; lia).
  rewrite <-(feed_loop_bytes _ _ _ (S (length (body +:+ rest)))) by (done || lia).
  assert (exists c s, body +:+ rest = String c s) as (c & s & Hcs) by (destruct body; [done|eauto]).
  rewrite Hcs at 2. cbn [RequestBuffer.feed_loop]. rewrite <-Hcs. unfold mbind at 1, ST_bind at 1.
  rewrite feed_step_post_body by done.
  rewrite (feedPostBody_eq _ _ (body +:+ rest) bytes _ b (Z.of_nat (length body)) Hb Hl);
    [|rewrite length_append; lia].
  replace (reached _ _) with true; last first.
  { symmetry. unfold reached. apply andb_true_iff. split; [apply negb_true_iff, Z.eqb_neq|apply Z.leb_le]; lia. }
  replace (String.substring _ _ (body +:+ rest)) with rest; last first.
  { symmetry. rewrite Nat2Z.id. apply substring_rest. rewrite length_append. lia. }
  replace (body_read bytes _ (body +:+ rest) b) with (body_read bytes (Z.of_nat (length body)) body b); last first.
  { unfold body_read. by rewrite Nat2Z.id, substring_first, substring_all. }
  st_run. destruct (postRequestDone _ _ _) as [[[]|e] b']; [|done].
  destruct (completed b') eqn:Hc'; [done|]. by apply feed_loop_bytes.
Qed.

(** A request whose [Content-Length] is the length of its body completes
    with the body's last byte: the body is exactly those bytes, its parameters
    are parsed from it, and the bytes of the next request stay on the
    connection. *)
Lemma fixed_length_request_is_read m t v hdrs body rest no_params p :
  wf_status m t v -> Forall wf_header hdrs ->
  expectsRequestBody (string_map upper_ascii m) = true ->
  isChunkedEncoding (received m t v hdrs no_params) = false ->
  multipart_type (received m t v hdrs no_params) = None ->
  contentLength (received m t v hdrs no_params) = Length (Z.of_nat (length body)) -> body <> "" ->
  parsed_params (set_postBody (Some body) (received m t v hdrs no_params)) = Some p ->
  exists b', feed (request_head m t v hdrs +:+ body +:+ rest) (initial_buffer no_params) =
      (Ok (Some rest), b') /\
    request_is b' m t v hdrs (Some body) p.
Proof.
  intros Hst Hh Hex Hch Hmp Hl Hne Hp. rewrite feed_eq_bytes, feed_bytes_head by done.
  set (b := received m t v hdrs no_params) in *.
  pose proof (received_same m t v hdrs no_params) as Hsame. fold b in Hsame.
  destruct m as [|c m]; [by destruct Hst|].
  st_run. rewrite (parse_blank_line c m) by by destruct Hsame. rewrite Hex, Hch, Hmp, Hl.
  cbn [negb]. destruct (Z.of_nat (length body)) as [|n|n] eqn:Hlen; [by destruct body| |lia].
  change (completed (set_state PostBody _)) with (completed b).
  replace (completed b) with false by by destruct Hsame.
  rewrite (feed_bytes_post_body body rest "" (Z.of_nat (length body)));
    [|done|done|by rewrite Hlen|by destruct Hsame|done..].
  unfold postRequestDone. st_run. unfold body_read. rewrite Nat2Z.id, substring_all, append_nil_l.
  cbn [postBodyBuffers set_bodyLength set_postBodyBuffers].
  rewrite (completeRequest_Ok _ p) by done. eexists. split; [done|].
  by apply (received_is _ _ _ _ no_params (set_postBodyBuffers None
    (set_bodyLength (Z.of_nat (length body)) (set_state PostBody (body_started b))))).
Qed.

(** *** Chunked bodies *)

Lemma same_head_counted b n : same_head b (counted n b).
Proof. unfold counted. by destruct (readingBody b). Qed.

Lemma same_head_completed b b' : same_head b b' -> completed b = false -> completed b' = false.
Proof. intros [] Hc. congruence. Qed.

(** A turn on a byte of a byte state. *)
Lemma feed_bytes_byte c rest b b' :
  line_state (state b) = false -> state b <> PostBody -> completed b' = false ->
  feedByte json_params query_params basename c b = (Ok tt, b') ->
  feed_bytes (String c rest) b = feed_bytes rest b'.
Proof.
  intros Hl Hp Hc Hb. cbn [RequestBufferTheorems.feed_bytes]. unfold RequestBuffer.feed_step. st_run.
  rewrite Hl. destruct (decide _); [done|]. by rewrite Hb, Hc.
Qed.

Lemma feedByte_counted c b :
  feedByte json_params query_params basename c b =
  match state b with
  | ChunkedData => feedChunkedData c
  | ChunkedDataCrlf => feedChunkedDataCrlf
  | MultiPartFormDataBody => feedPartBody json_params query_params basename c
  | _ => mret tt
  end (counted 1 b).
Proof.
  unfold feedByte, count_body, counted. st_run. by destruct b as [????????[]?[]??????????].
Qed.

Lemma feed_bytes_chunk_data d rest chars size b :
  state b = ChunkedData -> currentChunkSize b = Some size -> chunkedBodyChars b = Some chars ->
  currentChunkBytesRead b + Z.of_nat (length d) = size -> d <> "" -> completed b = false ->
  exists b', feed_bytes (d +:+ rest) b = feed_bytes rest b' /\ state b' = ChunkedDataCrlf /\
    chunkedBodyChars b' = Some (chars +:+ d) /\ currentChunkCrlfRead b' = 0 /\ same_head b b'.
Proof.
  revert chars b. induction d as [|c d IH]; intros chars b Hs Hz Hch Hr Hne Hc; [done|].
  set (b1 := set_currentChunkBytesRead (currentChunkBytesRead b + 1)
    (set_chunkedBodyChars (Some (chars +:+ String c "")) (counted 1 b))).
  assert (same_head b b1) as Hb1 by (unfold b1, counted; by destruct (readingBody b)).
  assert (feedByte json_params query_params basename c b =
    (if size <=? currentChunkBytesRead b + 1
     then _ ← modify (set_currentChunkCrlfRead 0); setState ChunkedDataCrlf else mret tt) b1) as Hbyte.
  { rewrite feedByte_counted, Hs. unfold feedChunkedData, b1, counted. st_run.
    destruct b as [????????[]????????????]; cbn in *; subst; st_run; done. }
  rewrite append_cons. destruct (decide (d = "")) as [->|Hd].
  - cbn in Hr. replace (size <=? _) with true in Hbyte by (symmetry; apply Z.leb_le; lia).
    exists (set_state ChunkedDataCrlf (set_currentChunkCrlfRead 0 b1)). rewrite append_nil_l.
    split; [|by destruct Hb1].
    apply feed_bytes_byte; [by rewrite Hs|by rewrite Hs|by apply (same_head_completed b b1)|exact Hbyte].
  - cbn [length] in Hr. assert (0 < length d)%nat by (destruct d; [done|cbn; lia]).
    replace (size <=? _) with false in Hbyte by (symmetry; apply Z.leb_gt; lia).
    rewrite (feed_bytes_byte c _ b b1); [|by rewrite Hs|by rewrite Hs|by apply (same_head_completed b b1)|done].
    destruct (IH (chars +:+ String c "") b1) as (b' & He & Hs' & Hch' & Hcr & Hh).
    + unfold b1, counted. by destruct (readingBody b).
    + unfold b1, counted. by destruct (readingBody b).
    + done.
    + unfold b1. cbn. lia.
    + done.
    + by apply (same_head_completed b b1).
    + exists b'. rewrite append_assoc in Hch'. split_and!; try done. by eapply same_head_trans.
Qed.

Lemma feed_bytes_chunk_crlf rest chars b :
  state b = ChunkedDataCrlf -> chunkedBodyChars b = Some chars -> currentChunkCrlfRead b = 0 ->
  completed b = false ->
  exists b', feed_bytes (CRLF +:+ rest) b = feed_bytes rest b' /\ state b' = ChunkedSize /\
    chunkedBodyChars b' = Some chars /\ same_head b b'.
Proof.
  intros Hs Hch Hr Hc. change (CRLF +:+ rest) with (String CR (String LF rest)).
  set (b1 := set_currentChunkCrlfRead 1 (counted 1 b)).
  assert (same_head b b1 /\ state b1 = ChunkedDataCrlf /\ chunkedBodyChars b1 = Some chars) as (Hb1 & Hs1 & Hch1)
    by (unfold b1, counted; destruct b as [????????[]????????????]; cbn in *; by subst).
  rewrite (feed_bytes_byte CR _ b b1); [|by rewrite Hs|by rewrite Hs|by apply (same_head_completed b b1)|].
  2: { rewrite feedByte_counted, Hs. unfold feedChunkedDataCrlf, b1, counted. st_run.
       destruct b as [????????[]????????????]; cbn in *; by subst. }
  set (b2 := set_state ChunkedSize (set_currentChunkBytesRead 0 (set_currentChunkCrlfRead 2 (counted 1 b1)))).
  assert (same_head b1 b2 /\ chunkedBodyChars b2 = Some chars) as (Hb2 & Hch2)
    by (unfold b2, counted; destruct (readingBody b1); by destruct b1).
  exists b2. split; [|split; [done|]; split; [done|]; by eapply same_head_trans].
  apply feed_bytes_byte; [by rewrite Hs1|by rewrite Hs1|by eapply same_head_completed, same_head_completed|].
  rewrite feedByte_counted, Hs1. unfold feedChunkedDataCrlf, b2, setState. st_run.
  replace (currentChunkCrlfRead (counted 1 b1)) with 1
    by (unfold b1, counted; destruct b as [????????[]????????????]; done).
  done.
Qed.

(** The size a chunk-size line announces. *)
Definition chunk_line_size (line : string) : option Z :=
  match chunk_size_token (js_trim (line +:+ CRLF)) with
  | EmptyString => None
  | token => n ← parse_int (Some 16) token;
             if is_finite (round_double (inject_Z n)) then Some n else None
  end.

Lemma parseChunkSizeLine_size line n :
  chunk_line_size line = Some n ->
  parseChunkSizeLine (P := P) (line +:+ CRLF) =
    if n =? 0 then setState ChunkedTrailer else
    _ ← modify (set_currentChunkSize (Some n));
    _ ← modify (set_currentChunkBytesRead 0);
    setState ChunkedData.
Proof.
  unfold chunk_line_size, parseChunkSizeLine. destruct (js_trim (line +:+ CRLF)) as [|c s]; [done|].
  destruct (chunk_size_token _) as [|c' s']; [done|]. destruct (parse_int _ _) as [size|]; [|done].
  cbn [mbind option_bind]. destruct (is_finite _); [|done]. by intros [= ->].
Qed.

Lemma feed_bytes_size_line line n rest chars b :
  state b = ChunkedSize -> chunkedBodyChars b = Some chars -> data b = "" -> completed b = false ->
  has_char LF line = false -> chunk_line_size line = Some n ->
  exists b', feed_bytes (line +:+ CRLF +:+ rest) b = feed_bytes rest b' /\
    state b' = (if n =? 0 then ChunkedTrailer else ChunkedData) /\
    (n <> 0 -> currentChunkSize b' = Some n /\ currentChunkBytesRead b' = 0) /\
    chunkedBodyChars b' = Some chars /\ same_head b b'.
Proof.
  intros Hs Hch Hd Hc Hlf Hn. rewrite feed_bytes_line; [|by rewrite Hs|done..].
  set (b1 := counted _ b). assert (same_head b b1) as Hb1 by apply same_head_counted.
  assert (state b1 = ChunkedSize /\ chunkedBodyChars b1 = Some chars) as [Hs1 Hch1]
    by (unfold b1, counted; by destruct (readingBody b)).
  pose proof (same_head_completed _ _ Hb1 Hc) as Hc1.
  unfold RequestBuffer.parse. st_run. rewrite Hs1, (parseChunkSizeLine_size _ n) by done.
  clearbody b1. destruct (n =? 0) eqn:Hn0; unfold setState; st_run; cbn; rewrite Hc1; eexists;
    (split; [done|]); (split; [done|]); (split; [|split; [done|by destruct Hb1]]); [lia|done].
Qed.

(** A chunk: the text of its size line (with any extension) and its data. *)
Definition wf_chunk (c : string * string) : Prop :=
  has_char LF c.1 = false /\ chunk_line_size c.1 = Some (Z.of_nat (length c.2)) /\ c.2 <> "".

Fixpoint chunk_lines (cs : list (string * string)) : string :=
  match cs with
  | [] => ""
  | (line, d) :: cs' => line +:+ CRLF +:+ d +:+ CRLF +:+ chunk_lines cs'
  end.

Lemma feed_bytes_chunk_lines cs rest chars b :
  Forall wf_chunk cs -> state b = ChunkedSize -> chunkedBodyChars b = Some chars -> data b = "" ->
  completed b = false ->
  exists b', feed_bytes (chunk_lines cs +:+ rest) b = feed_bytes rest b' /\ state b' = ChunkedSize /\
    chunkedBodyChars b' = Some (chars +:+ String.concat "" (map snd cs)) /\ same_head b b'.
Proof.
  intros Hwf. revert chars b. induction Hwf as [|[line d] cs (Hlf & Hn & Hne) _ IH]; intros chars b Hs Hch Hd Hc.
  { exists b. rewrite append_nil_l, append_nil_r. done. }
  cbn [fst snd] in *. cbn [chunk_lines]. rewrite !append_assoc.
  assert (Z.of_nat (length d) <> 0) by (destruct d; [done|cbn; lia]).
  destruct (feed_bytes_size_line line (Z.of_nat (length d)) (d +:+ CRLF +:+ chunk_lines cs +:+ rest) chars b)
    as (b1 & -> & Hs1 & Hsz & Hch1 & Hb1); [done..|].
  destruct Hsz as [Hsz Hr]; [done|]. replace (_ =? 0) with false in Hs1 by (symmetry; by apply Z.eqb_neq).
  destruct (feed_bytes_chunk_data d (CRLF +:+ chunk_lines cs +:+ rest) chars (Z.of_nat (length d)) b1)
    as (b2 & -> & Hs2 & Hch2 & Hr2 & Hb2); [done..|by rewrite Hr|done|by eapply same_head_completed|].
  assert (same_head b b2) as Hb02 by by eapply same_head_trans.
  destruct (feed_bytes_chunk_crlf (chunk_lines cs +:+ rest) (chars +:+ d) b2)
    as (b3 & -> & Hs3 & Hch3 & Hb3); [done..|by eapply same_head_completed|].
  assert (same_head b b3) as Hb03 by by eapply same_head_trans.
  destruct (IH (chars +:+ d) b3) as (b4 & -> & Hs4 & Hch4 & Hb4);
    [done|done|destruct Hb03; congruence|by eapply same_head_completed|].
  exists b4. rewrite append_assoc in Hch4. cbn [map snd]. rewrite concat_cons_str.
  split_and!; [done..|by eapply same_head_trans].
Qed.

(** Trailer lines are skipped. *)
Fixpoint trailer_lines (ts : list string) : string :=
  match ts with [] => "" | t :: ts' => t +:+ CRLF +:+ trailer_lines ts' end.

Definition wf_trailer (t : string) : Prop := t <> "" /\ has_char LF t = false.

Lemma feed_bytes_trailer_lines ts rest chars b :
  Forall wf_trailer ts -> state b = ChunkedTrailer -> chunkedBodyChars b = Some chars ->
  data b = "" -> completed b = false ->
  exists b', feed_bytes (trailer_lines ts +:+ rest) b = feed_bytes rest b' /\ state b' = ChunkedTrailer /\
    chunkedBodyChars b' = Some chars /\ same_head b b'.
Proof.
  intros Hwf. revert b. induction Hwf as [|t ts [Hne Hlf] _ IH]; intros b Hs Hch Hd Hc; [by exists b|].
  cbn [trailer_lines]. rewrite !append_assoc. rewrite feed_bytes_line; [|by rewrite Hs|done..].
  set (b1 := counted _ b). assert (same_head b b1) as Hb1 by apply same_head_counted.
  assert (state b1 = ChunkedTrailer /\ chunkedBodyChars b1 = Some chars) as [Hs1 Hch1]
    by (unfold b1, counted; by destruct (readingBody b)).
  pose proof (same_head_completed _ _ Hb1 Hc) as Hc1.
  unfold RequestBuffer.parse. st_run. rewrite Hs1. destruct (decide (t +:+ CRLF = CRLF)) as [He|_].
  { apply (f_equal String.length) in He. rewrite length_append in He. destruct t; [done|cbn in He; lia]. }
  rewrite Hc1. destruct (IH b1) as (b2 & -> & Hs2 & Hch2 & Hb2); [done|done|destruct Hb1; congruence|done|].
  exists b2. split_and!; [done..|by eapply same_head_trans].
Qed.

(** A chunked request completes with the blank line after its trailers: its
    body is the concatenation of its chunks (whatever extensions their size lines
    carry), its parameters are parsed from it, and the bytes of the next request
    stay on the connection. *)
Lemma chunked_request_is_read m t v hdrs cs last ts rest no_params p :
  wf_status m t v -> Forall wf_header hdrs ->
  expectsRequestBody (string_map upper_ascii m) = true ->
  isChunkedEncoding (received m t v hdrs no_params) = true ->
  Forall wf_chunk cs -> has_char LF last = false -> chunk_line_size last = Some 0 ->
  Forall wf_trailer ts ->
  let body := String.concat "" (map snd cs) in
  parsed_params (set_postBody (Some body) (received m t v hdrs no_params)) = Some p ->
  exists b',
    feed (request_head m t v hdrs +:+
          chunk_lines cs +:+ (last +:+ CRLF +:+ trailer_lines ts +:+ CRLF) +:+ rest)
         (initial_buffer no_params) = (Ok (Some rest), b') /\
    request_is b' m t v hdrs (Some body) p.
Proof.
  intros Hst Hh Hex Hch Hcs Hlf Hlast Hts body Hp. rewrite feed_eq_bytes, feed_bytes_head by done.
  set (b := received m t v hdrs no_params) in *.
  pose proof (received_same m t v hdrs no_params) as Hsame. fold b in Hsame.
  destruct m as [|c m]; [by destruct Hst|].
  st_run. rewrite (parse_blank_line c m) by by destruct Hsame. rewrite Hex, Hch. cbn [negb].
  unfold initializeChunkedBody, setState. st_run. set (b0 := set_state ChunkedSize _).
  assert (same_head b b0) as Hb0 by done. assert (completed b0 = false) as Hc0 by by destruct Hsame.
  rewrite Hc0. assert (data b = "") as Hd by by destruct Hsame.
  destruct (feed_bytes_chunk_lines cs ((last +:+ CRLF +:+ trailer_lines ts +:+ CRLF) +:+ rest) "" b0)
    as (b1 & -> & Hs1 & Hch1 & Hb1); [done..|]. rewrite append_nil_l in Hch1. fold body in Hch1.
  rewrite !append_assoc.
  pose proof (same_head_trans _ _ _ Hb0 Hb1) as Hb01.
  destruct (feed_bytes_size_line last 0 (trailer_lines ts +:+ CRLF +:+ rest) body b1)
    as (b2 & -> & Hs2 & _ & Hch2 & Hb2); [done|done|destruct Hb01; congruence| |done..|].
  { by apply (same_head_completed b0). }
  pose proof (same_head_trans _ _ _ Hb01 Hb2) as Hb02.
  assert (completed b = false) as Hc by done.
  destruct (feed_bytes_trailer_lines ts (CRLF +:+ rest) body b2)
    as (b3 & -> & Hs3 & Hch3 & Hb3); [done..|destruct Hb02; congruence|by eapply same_head_completed|].
  pose proof (same_head_trans _ _ _ Hb02 Hb3) as Hb03.
  rewrite <-(append_nil_l (CRLF +:+ rest)).
  rewrite feed_bytes_line; [|by rewrite Hs3|destruct Hb03; congruence|by eapply same_head_completed|done].
  set (b4 := counted _ b3). assert (same_head b b4) as Hb04.
  { eapply same_head_trans; [exact Hb03|apply same_head_counted]. }
  assert (state b4 = ChunkedTrailer /\ chunkedBodyChars b4 = Some body) as [Hs4 Hch4]
    by (unfold b4, counted; by destruct (readingBody b3)).
  clearbody b4. unfold RequestBuffer.parse. st_run. rewrite Hs4.
  destruct (decide _) as [_|]; [|done]. unfold finishChunkedBody. st_run. rewrite Hch4.
  rewrite (completeRequest_Ok _ p).
  - eexists. split; [done|].
    by apply (received_is _ _ _ _ no_params (set_chunkedBodyChars None b4)); destruct Hb04.
  - rewrite <-Hp. destruct Hb04. unfold parsed_params, has_json_body, getHeader. cbn.
    by rewrite sb_headersByName0, sb_params0, sb_multiPartyFormData0.
Qed.

End requests.

(** ** Examples *)

Definition example_get : list header :=
  [new_header "Host" "localhost:3000"; new_header "Accept" "text/html"].

Definition example_post : list header :=
  [new_header "Host" "localhost:3000"; new_header "Content-Type" "application/json";
   new_header "Content-Length" "13"].

Definition example_chunked : list header :=
  [new_header "Host" "localhost:3000"; new_header "Transfer-Encoding" "chunked"].

(** The parameters of the examples are the text they are parsed from. *)
Definition example_params (text _ : string) : option string := Some text.

Ltac well_formed :=
  repeat (apply List.Forall_cons || apply List.Forall_nil);
  unfold wf_header, wf_status, wf_chunk, wf_trailer, no_eol; split_and?; (discriminate || reflexivity).

(** Two requests on one connection: the bytes of the second are left. *)
Lemma bodyless_request_is_read_witness :
  exists b', feed example_params example_params (fun f => f)
      (request_head "GET" "/posts?id=1" "1.1" example_get +:+ "GET /second HTTP/1.1")
      (initial_buffer "") = (Ok (Some "GET /second HTTP/1.1"), b') /\
    request_is b' "GET" "/posts?id=1" "1.1" example_get None "".
Proof.
  apply (bodyless_request_is_read example_params example_params (fun f => f)).
  - well_formed.
  - well_formed.
  - left. reflexivity.
Defined.

Lemma fixed_length_request_is_read_witness :
  exists b', feed example_params example_params (fun f => f)
      (request_head "POST" "/posts" "1.1" example_post +:+ "[1,22,333,44]" +:+ "GET")
      (initial_buffer "") = (Ok (Some "GET"), b') /\
    request_is b' "POST" "/posts" "1.1" example_post (Some "[1,22,333,44]") "[1,22,333,44]".
Proof.
  apply (fixed_length_request_is_read example_params example_params (fun f => f));
    [well_formed|well_formed|reflexivity|reflexivity|reflexivity|reflexivity|discriminate|reflexivity].
Defined.

Lemma chunked_request_is_read_witness :
  exists b', feed example_params example_params (fun f => f)
      (request_head "PUT" "/notes" "1.1" example_chunked +:+
       chunk_lines [("3;name=x", "a=1"); (" A ", "&b=234567&")] +:+
       ("0" +:+ CRLF +:+ trailer_lines ["Checksum: 12"] +:+ CRLF) +:+ "GET")
      (initial_buffer "") = (Ok (Some "GET"), b') /\
    request_is b' "PUT" "/notes" "1.1" example_chunked (Some "a=1&b=234567&") "a=1&b=234567&".
Proof.
  apply (chunked_request_is_read example_params example_params (fun f => f) "PUT" "/notes" "1.1"
    example_chunked [("3;name=x", "a=1"); (" A ", "&b=234567&")] "0" ["Checksum: 12"] "GET" "");
    [well_formed|well_formed|reflexivity|reflexivity|well_formed|reflexivity|reflexivity|well_formed|reflexivity].
Defined.
