(* ===== verification/HttpMultipart.v ===== *)
(** * Multipart requests

    A [multipart/form-data] body: the parts between boundary lines, each with its
    headers and its bytes, are announced in order with their exact bytes. *)

From stdpp Require Import base strings list.
From Stdlib Require Import ZArith QArith Ascii Lia.
From S2P Require Import Prelude Numbers Json Cron RequestBuffer RequestBufferTheorems HttpRequests.
Open Scope Z_scope.

(** No boundary line ends at the end of [body]. *)
Definition quiet (bd body : string) : bool :=
  negb (ends_with_boundary body (boundaryLineEnd bd)) &&
  negb (ends_with_boundary body (boundaryLineNext bd)).

(** Nor at the end of what [s] adds to it byte by byte. *)
Fixpoint quiet_prefixes (bd body s : string) : bool :=
  match s with
  | EmptyString => true
  | String c s' => quiet bd (body +:+ String c "") && quiet_prefixes bd (body +:+ String c "") s'
  end.

Lemma boundaryLineEnd_last bd :
  boundaryLineEnd bd = (CRLF +:+ "--" +:+ bd +:+ "-") +:+ String "-" "".
Proof. unfold boundaryLineEnd. by rewrite !append_assoc. Qed.

Lemma boundaryLineNext_last bd :
  boundaryLineNext bd = (CRLF +:+ "--" +:+ bd +:+ String CR "") +:+ String LF "".
Proof. unfold boundaryLineNext. by rewrite !append_assoc. Qed.

(** The bytes of a part that hold no boundary line, and none with what follows
    them: the line before the next part, or the one that ends the body. *)
Definition clear_part (bd d : string) (is_last : bool) : bool :=
  if is_last then quiet_prefixes bd "" (d +:+ CRLF +:+ "--" +:+ bd +:+ "-")
  else quiet_prefixes bd "" (d +:+ CRLF +:+ "--" +:+ bd +:+ String CR "") &&
       negb (ends_with_boundary (d +:+ boundaryLineNext bd) (boundaryLineEnd bd)).

Lemma last_bytes_app d l : last_bytes (length l) (d +:+ l) = l.
Proof.
  unfold last_bytes. rewrite length_append.
  destruct (_ <? _)%nat eqn:H; [apply Nat.ltb_lt in H; lia|].
  replace (length d + length l - length l)%nat with (length d) by lia. by apply substring_rest.
Qed.

Lemma ends_with_boundary_app d l : ends_with_boundary (d +:+ l) l = true.
Proof. unfold ends_with_boundary. rewrite last_bytes_app. by apply bool_decide_eq_true_2. Qed.

Lemma drop_end_app d l : drop_end (length l) (d +:+ l) = d.
Proof.
  unfold drop_end. rewrite length_append, Nat.add_sub. apply substring_first.
Qed.

Lemma fp_body_set_body s p : fp_body (set_body s p) = s.
Proof. done. Qed.

Section multipart.
Context {P : Type} (json_params query_params : string -> P -> option P).
Context (basename : string -> string).

Abbreviation feed := (feed json_params query_params basename).
Abbreviation feed_bytes := (feed_bytes json_params query_params basename).
Abbreviation feedByte := (feedByte json_params query_params basename).

(** [k] more bytes do not exceed the announced length. *)
Definition fits (b : buffer P) (k : Z) : Prop :=
  match contentLength b with Length n => bodyLength b + k <= n | _ => True end.

Lemma reached_fits b k : fits b k -> 0 < k -> reached (contentLength b) (bodyLength b + k) = true ->
  exists n, contentLength b = Length n /\ n = bodyLength b + k.
Proof.
  unfold fits, reached. destruct (contentLength b) as [| |n]; [done|done|].
  intros Hf Hk [_ Hr]%andb_true_iff. apply Z.leb_le in Hr. eexists. split; [done|lia].
Qed.

(** The buffer after bytes of a part that end no boundary line. *)
Definition part_read (p : form_data_part) (s : string) (b : buffer P) : buffer P :=
  set_formDataPart (Some (set_body (fp_body p +:+ s) p))
    (set_bodyLength (bodyLength b + Z.of_nat (length s)) b).

Lemma counted_reading n (b : buffer P) :
  readingBody b = true -> counted n b = set_bodyLength (bodyLength b + n) b.
Proof. unfold counted. by intros ->. Qed.

Lemma feedPartBody_quiet c p bd b :
  formDataPart b = Some p -> boundary b = Some bd -> fp_contentLength p = Unset ->
  quiet bd (fp_body p +:+ String c "") = true ->
  reached (contentLength b) (bodyLength b) = false ->
  feedPartBody json_params query_params basename c b =
    (Ok tt, set_formDataPart (Some (set_body (fp_body p +:+ String c "") p)) b).
Proof.
  intros Hp Hb Hl [He Hn]%andb_true_iff Hr. apply negb_true_iff in He, Hn.
  unfold feedPartBody. st_run. rewrite Hp, Hb. cbv zeta.
  change (fp_body (set_body ?x p)) with x. rewrite He, Hn.
  change (contentLength (set_formDataPart _ b)) with (contentLength b).
  change (bodyLength (set_formDataPart _ b)) with (bodyLength b).
  rewrite Hr. change (fp_contentLength (set_body _ p)) with (fp_contentLength p). by rewrite Hl.
Qed.

Lemma part_read_app p s t b :
  part_read (set_body (fp_body p +:+ s) p) t (part_read p s b) = part_read p (s +:+ t) b.
Proof.
  unfold part_read. rewrite length_append, Nat2Z.inj_add, Z.add_assoc, <-append_assoc. by destruct b.
Qed.

Lemma feed_bytes_part s rest p bd b :
  state b = MultiPartFormDataBody -> formDataPart b = Some p -> boundary b = Some bd ->
  readingBody b = true -> completed b = false -> fp_contentLength p = Unset ->
  quiet_prefixes bd (fp_body p) s = true -> fits b (Z.of_nat (length s) + 1) ->
  feed_bytes (s +:+ rest) b = feed_bytes rest (if decide (s = "") then b else part_read p s b).
Proof.
  revert p b. induction s as [|c s IH]; intros p b Hs Hp Hb Hr Hc Hl Hq Hf; [done|].
  cbn [quiet_prefixes] in Hq. apply andb_true_iff in Hq as [Hq Hqs].
  rewrite append_cons. set (b1 := part_read p (String c "") b).
  assert (feedByte c b = (Ok tt, b1)) as Hbyte.
  { rewrite feedByte_counted, Hs, counted_reading by done.
    apply (feedPartBody_quiet c p bd); [done..|].
    change (reached (contentLength b) (bodyLength b + 1) = false).
    apply not_true_iff_false. intros Hreach. unfold fits in Hf. unfold reached in Hreach.
    destruct (contentLength b); [done|done|]. apply andb_true_iff in Hreach as [_ Hn].
    apply Z.leb_le in Hn. cbn [String.length] in Hf. lia. }
  rewrite (feed_bytes_byte _ _ _ c _ b b1); [|by rewrite Hs|by rewrite Hs|done|done].
  rewrite (IH (set_body (fp_body p +:+ String c "") p) b1); [|done..|].
  - f_equal. destruct (decide (String c s = "")); [done|]. destruct (decide (s = "")) as [->|]; [done|].
    unfold b1. by rewrite part_read_app.
  - change (fits b1 ?k) with
      (match contentLength b with Length n => bodyLength b + 1 + k <= n | _ => True end).
    unfold fits in Hf. destruct (contentLength b); [done|done|]. cbn [String.length] in Hf. lia.
Qed.

(** What reading parts leaves alone. *)
Record same_upload (b b' : buffer P) : Prop := {
  su_httpMethod : httpMethod b' = httpMethod b;
  su_httpVersion : httpVersion b' = httpVersion b;
  su_path : path b' = path b;
  su_params : params b' = params b;
  su_multiPartyFormData : multiPartyFormData b' = multiPartyFormData b;
  su_headersByName : headersByName b' = headersByName b;
  su_data : data b' = data b;
  su_completed : completed b' = completed b;
  su_boundary : boundary b' = boundary b;
  su_contentLength : contentLength b' = contentLength b;
  su_readingBody : readingBody b' = readingBody b;
  su_postBody : postBody b' = postBody b
}.

Lemma same_upload_refl b : same_upload b b.
Proof. done. Qed.

Lemma same_upload_trans b1 b2 b3 : same_upload b1 b2 -> same_upload b2 b3 -> same_upload b1 b3.
Proof. intros [] []. split; congruence. Qed.

Lemma fits_later b b' n k :
  same_upload b b' -> bodyLength b' = bodyLength b + n -> fits b (n + k) -> fits b' k.
Proof.
  intros [] Hl. unfold fits. rewrite su_contentLength0, Hl. destruct (contentLength b); [done|done|lia].
Qed.

(** The event of a part with its bytes. *)
Definition part_event (p : form_data_part) (d : string) : option event :=
  match part_finish basename (set_body d p) with
  | Ok v => Some (FormDataPartEvent (set_body "" p) v)
  | Throw _ => None
  end.

Lemma part_done p d (b : buffer P) :
  part_ok p -> formDataPart b = Some (set_body d p) ->
  exists e, part_event p d = Some e /\
    formDataPartDone basename b = (Ok tt, set_events (events b ++ [e]) (set_formDataPart None b)).
Proof.
  intros Hok Hp. destruct (formDataPartDone_Ok basename b _ Hp) as (v & Hv & Hdone); [done|].
  unfold part_event. rewrite Hv. eauto.
Qed.

(** The buffer just before the last byte of the line after a part. *)
Definition at_boundary (p : form_data_part) (body : string) (n : Z) (b : buffer P) : buffer P :=
  set_formDataPart (Some (set_body body p)) (set_bodyLength (bodyLength b + n) b).

Lemma feed_bytes_to_boundary d init c rest p bd b :
  state b = MultiPartFormDataBody -> formDataPart b = Some p -> boundary b = Some bd ->
  readingBody b = true -> completed b = false -> fp_contentLength p = Unset -> fp_body p = "" ->
  quiet_prefixes bd "" (d +:+ init) = true -> init <> "" ->
  fits b (Z.of_nat (length (d +:+ init)) + 1) ->
  feed_bytes (d +:+ (init +:+ String c "") +:+ rest) b =
  feed_bytes (String c rest) (at_boundary p (d +:+ init) (Z.of_nat (length (d +:+ init))) b).
Proof.
  intros Hs Hp Hb Hr Hc Hl He Hq Hi Hf.
  replace (d +:+ (init +:+ String c "") +:+ rest) with ((d +:+ init) +:+ String c rest)
    by by rewrite !append_assoc.
  rewrite (feed_bytes_part _ _ p bd b) by (done || by rewrite He).
  destruct (decide (d +:+ init = "")) as [Hnil|_].
  - by destruct d, init.
  - unfold part_read, at_boundary. by rewrite He, append_nil_l.
Qed.
(** The last byte of the line that ends the body. *)
Lemma feed_bytes_last_part d rest p bd b :
  state b = MultiPartFormDataBody -> formDataPart b = Some p -> boundary b = Some bd ->
  readingBody b = true -> completed b = false -> fp_contentLength p = Unset -> fp_body p = "" ->
  part_ok p -> postBody b = None -> clear_part bd d true = true ->
  fits b (Z.of_nat (length (d +:+ boundaryLineEnd bd))) ->
  exists e b', part_event p d = Some e /\
    feed_bytes (d +:+ boundaryLineEnd bd +:+ rest) b =
      (Ok (Some rest), completed_buffer (params b) b') /\
    same_upload b b' /\ events b' = events b ++ [e].
Proof.
  intros Hs Hp Hb Hr Hc Hl He Hok Hpb Hq Hf. set (init := CRLF +:+ "--" +:+ bd +:+ "-").
  assert (length (d +:+ boundaryLineEnd bd) = S (length (d +:+ init))) as Hlen.
  { rewrite boundaryLineEnd_last. fold init. rewrite !length_append. cbn. lia. }
  rewrite boundaryLineEnd_last. fold init.
  rewrite (feed_bytes_to_boundary d init "-" rest p bd b); [|done..|rewrite Hlen in Hf;
    replace (Z.of_nat (length (d +:+ init)) + 1) with (Z.of_nat (S (length (d +:+ init)))) by lia; exact Hf].
  set (b0 := at_boundary p (d +:+ init) _ b).
  set (b1 := set_formDataPart (Some (set_body d p)) (set_bodyLength (bodyLength b0 + 1) b0)).
  destruct (part_done p d b1 Hok eq_refl) as (e & Hev & Hdone).
  set (b2 := set_events (events b1 ++ [e]) (set_formDataPart None b1)) in *.
  exists e, b2. split; [done|]. split; [|done].
  assert (feedByte "-" b0 = (Ok tt, completed_buffer (params b) b2)) as Hbyte.
  { rewrite feedByte_counted, counted_reading by done. change (state b0) with (state b). rewrite Hs.
    unfold feedPartBody. st_run. change (boundary (set_bodyLength _ b0)) with (boundary b). rewrite Hb.
    change (formDataPart (set_bodyLength _ b0)) with (Some (set_body (d +:+ init) p)).
    cbv beta iota zeta.
    rewrite !fp_body_set_body.
    replace ((d +:+ init) +:+ String "-" "") with (d +:+ boundaryLineEnd bd)
      by (rewrite boundaryLineEnd_last; symmetry; apply append_assoc).
    rewrite ends_with_boundary_app. unfold removeFromBody. rewrite !fp_body_set_body.
    rewrite drop_end_app.
    match goal with |- context [formDataPartDone basename ?x] => change x with b1 end.
    rewrite Hdone. rewrite (completeRequest_Ok _ _ _ (params b)); [done|].
    unfold parsed_params. change (postBody b2) with (postBody b). by rewrite Hpb. }
  cbn [RequestBufferTheorems.feed_bytes]. unfold RequestBuffer.feed_step. st_run.
  change (state b0) with (state b). rewrite Hs. cbn [line_state].
  destruct (decide _); [done|]. by rewrite Hbyte.
Qed.

(** The last byte of the line before another part. *)
Lemma feed_bytes_next_part d rest p bd b :
  state b = MultiPartFormDataBody -> formDataPart b = Some p -> boundary b = Some bd ->
  readingBody b = true -> completed b = false -> fp_contentLength p = Unset -> fp_body p = "" ->
  part_ok p -> clear_part bd d false = true ->
  fits b (Z.of_nat (length (d +:+ boundaryLineNext bd))) ->
  exists e b', part_event p d = Some e /\
    feed_bytes (d +:+ boundaryLineNext bd +:+ rest) b = feed_bytes rest b' /\
    state b' = MultiPartFormDataHeader /\ formDataPart b' = Some new_form_data_part /\
    bodyLength b' = bodyLength b + Z.of_nat (length (d +:+ boundaryLineNext bd)) /\
    same_upload b b' /\ events b' = events b ++ [e].
Proof.
  intros Hs Hp Hb Hr Hc Hl He Hok [Hq Hend]%andb_true_iff Hf. apply negb_true_iff in Hend.
  set (init := CRLF +:+ "--" +:+ bd +:+ String CR "").
  assert (length (d +:+ boundaryLineNext bd) = S (length (d +:+ init))) as Hlen.
  { rewrite boundaryLineNext_last. fold init. rewrite !length_append. cbn. lia. }
  rewrite Hlen in *. rewrite boundaryLineNext_last. fold init.
  rewrite (feed_bytes_to_boundary d init LF rest p bd b); [|done..|
    replace (Z.of_nat (length (d +:+ init)) + 1) with (Z.of_nat (S (length (d +:+ init)))) by lia; exact Hf].
  set (b0 := at_boundary p (d +:+ init) _ b).
  set (b1 := set_formDataPart (Some (set_body d p)) (set_bodyLength (bodyLength b0 + 1) b0)).
  destruct (part_done p d b1 Hok eq_refl) as (e & Hev & Hdone).
  set (b2 := set_events (events b1 ++ [e]) (set_formDataPart None b1)) in *.
  set (b3 := set_state MultiPartFormDataHeader (set_formDataPart (Some new_form_data_part) b2)).
  exists e, b3. split; [done|]. split.
  - apply feed_bytes_byte; [by change (state b0) with (state b); rewrite Hs|
      by change (state b0) with (state b); rewrite Hs|done|].
    rewrite feedByte_counted, counted_reading by done. change (state b0) with (state b). rewrite Hs.
    unfold feedPartBody. st_run. change (boundary (set_bodyLength _ b0)) with (boundary b). rewrite Hb.
    change (formDataPart (set_bodyLength _ b0)) with (Some (set_body (d +:+ init) p)).
    cbv beta iota zeta.
    rewrite !fp_body_set_body.
    replace ((d +:+ init) +:+ String LF "") with (d +:+ boundaryLineNext bd)
      by (rewrite boundaryLineNext_last; symmetry; apply append_assoc).
    rewrite Hend, ends_with_boundary_app. unfold removeFromBody. rewrite !fp_body_set_body.
    rewrite drop_end_app.
    match goal with |- context [formDataPartDone basename ?x] => change x with b1 end.
    by rewrite Hdone.
  - split; [done|]. split; [done|]. split; [|done].
    change (bodyLength b3) with (bodyLength b + Z.of_nat (length (d +:+ init)) + 1). lia.
Qed.
(** *** The lines of a body *)

Lemma same_upload_counted n b : same_upload b (counted n b).
Proof. unfold counted. by destruct (readingBody b). Qed.

(** The part its header lines describe. *)
Definition described (hdrs : list header) : form_data_part :=
  fold_left (fun p h => part_addHeader h p) hdrs new_form_data_part.

Lemma part_addHeader_body h p : fp_body (part_addHeader h p) = fp_body p.
Proof.
  unfold part_addHeader. destruct (decide _); [by destruct (content_disposition _) as [[]|]|].
  destruct (decide _); [done|]. by destruct (decide _).
Qed.

Lemma described_ok hdrs : fp_body (described hdrs) = "" /\ part_ok (described hdrs).
Proof.
  unfold described. assert (fp_body new_form_data_part = "" /\ part_ok new_form_data_part) as H by done.
  revert H. generalize new_form_data_part. induction hdrs as [|h hdrs IH]; [done|].
  intros p [Hp Hok]. cbn [fold_left]. apply IH. by rewrite part_addHeader_body; auto using part_addHeader_ok.
Qed.

Lemma feed_bytes_part_headers hdrs rest p b :
  Forall wf_header hdrs -> state b = MultiPartFormDataHeader -> formDataPart b = Some p ->
  readingBody b = true -> completed b = false -> data b = "" ->
  exists b', feed_bytes ((header_lines hdrs +:+ CRLF) +:+ rest) b = feed_bytes rest b' /\
    state b' = MultiPartFormDataBody /\
    formDataPart b' = Some (fold_left (fun p h => part_addHeader h p) hdrs p) /\
    bodyLength b' = bodyLength b + Z.of_nat (length (header_lines hdrs +:+ CRLF)) /\
    same_upload b b' /\ events b' = events b.
Proof.
  intros Hwf. revert p b. induction Hwf as [|h hdrs Hh _ IH]; intros p b Hs Hp Hr Hc Hd.
  - cbn [header_lines fold_left]. rewrite !append_nil_l. rewrite <-(append_nil_l (CRLF +:+ rest)).
    rewrite feed_bytes_line; [|by rewrite Hs|done..]. rewrite append_nil_l, counted_reading by done.
    unfold parse. st_run. change (state (set_bodyLength _ b)) with (state b). rewrite Hs.
    change (readHeaderFromLine CRLF) with (@None header). destruct (decide _); [|done].
    unfold setState. st_run. change (completed (set_state _ _)) with (completed b). rewrite Hc.
    eexists. split; [done|]. done.
  - cbn [header_lines fold_left]. rewrite !append_assoc.
    rewrite feed_bytes_line; [|by rewrite Hs|done..|by apply Hh]. rewrite counted_reading by done.
    set (b1 := set_bodyLength _ b). unfold parse. st_run. change (state b1) with (state b). rewrite Hs.
    rewrite readHeaderFromLine_app by done. st_run. change (formDataPart b1) with (formDataPart b).
    rewrite Hp. st_run. set (b2 := set_formDataPart _ b1). change (completed b2) with (completed b).
    rewrite Hc. destruct (IH (part_addHeader h p) b2) as (b3 & Heq & Hs3 & Hp3 & Hl3 & Hsame & Hev); [done..|].
    exists b3. rewrite append_assoc in Heq. rewrite Heq. split_and!; [done..| | |done].
    + rewrite Hl3. change (bodyLength b2) with (bodyLength b + (Z.of_nat (length (header_line h)) + 2)).
      rewrite !length_append. cbn. lia.
    + by apply (same_upload_trans b b2 b3).
Qed.

(** The parts of a body, the first given apart. *)
Fixpoint part_lines (bd : string) (part : list header * string) (parts : list (list header * string)) :
    string :=
  (header_lines part.1 +:+ CRLF) +:+ part.2 +:+
  match parts with
  | [] => boundaryLineEnd bd
  | part' :: parts' => boundaryLineNext bd +:+ part_lines bd part' parts'
  end.

Definition wf_part (bd : string) (is_last : bool) (part : list header * string) : Prop :=
  Forall wf_header part.1 /\ fp_contentLength (described part.1) = Unset /\
  clear_part bd part.2 is_last = true.

Fixpoint wf_parts (bd : string) (part : list header * string) (parts : list (list header * string)) :
    Prop :=
  match parts with
  | [] => wf_part bd true part
  | part' :: parts' => wf_part bd false part /\ wf_parts bd part' parts'
  end.

Definition parts_events (parts : list (list header * string)) : list (option event) :=
  map (fun part => part_event (described part.1) part.2) parts.

Lemma feed_bytes_part_lines bd part parts rest b :
  wf_parts bd part parts -> state b = MultiPartFormDataHeader ->
  formDataPart b = Some new_form_data_part -> boundary b = Some bd -> readingBody b = true ->
  completed b = false -> data b = "" -> postBody b = None ->
  fits b (Z.of_nat (length (part_lines bd part parts))) ->
  exists es b', map Some es = parts_events (part :: parts) /\
    feed_bytes (part_lines bd part parts +:+ rest) b =
      (Ok (Some rest), completed_buffer (params b) b') /\
    same_upload b b' /\ events b' = events b ++ es.
Proof.
  revert part b. induction parts as [|part' parts IH]; intros [hdrs d] b Hwf Hs Hp Hb Hr Hc Hd Hpb Hf;
    cbn [part_lines fst snd] in *.
  - destruct Hwf as (Hh & Hl & Hq). destruct (described_ok hdrs) as [He Hok].
    rewrite !(append_assoc (header_lines hdrs +:+ CRLF)), !(append_assoc d).
    destruct (feed_bytes_part_headers hdrs (d +:+ boundaryLineEnd bd +:+ rest) new_form_data_part b)
      as (b1 & -> & Hs1 & Hp1 & Hl1 & Hsame & Hev); [done..|].
    assert (fits b1 (Z.of_nat (length (d +:+ boundaryLineEnd bd)))) as Hf1.
    { eapply fits_later; [done|exact Hl1|]. rewrite <-Nat2Z.inj_add, <-length_append. done. }
    pose proof Hsame as [].
    destruct (feed_bytes_last_part d rest (described hdrs) bd b1) as (e & b2 & He2 & -> & Hsame2 & Hev2);
      [done|done|congruence|congruence|congruence|done|done|done|congruence|done|done|].
    exists [e], b2. split_and!; [unfold parts_events; cbn; by rewrite <-He2|by rewrite su_params0|
      by eapply same_upload_trans|by rewrite Hev2, Hev].
  - destruct Hwf as [(Hh & Hl & Hq) Hwf]. destruct (described_ok hdrs) as [He Hok].
    rewrite !(append_assoc (header_lines hdrs +:+ CRLF)), !(append_assoc d), !(append_assoc (boundaryLineNext bd)).
    destruct (feed_bytes_part_headers hdrs
      (d +:+ boundaryLineNext bd +:+ part_lines bd part' parts +:+ rest) new_form_data_part b)
      as (b1 & -> & Hs1 & Hp1 & Hl1 & Hsame & Hev); [done..|].
    assert (fits b1 (Z.of_nat (length (d +:+ boundaryLineNext bd)) + Z.of_nat (length (part_lines bd part' parts)))) as Hf1.
    { eapply fits_later; [done|exact Hl1|]. rewrite <-!Nat2Z.inj_add, <-!length_append.
      by rewrite (append_assoc d). }
    pose proof Hsame as [].
    destruct (feed_bytes_next_part d (part_lines bd part' parts +:+ rest) (described hdrs) bd b1)
      as (e & b2 & He2 & -> & Hs2 & Hp2 & Hl2 & Hsame2 & Hev2);
      [done|done|congruence|congruence|congruence|done|done|done|done| |].
    { unfold fits in *. destruct (contentLength b1); [done|done|lia]. }
    assert (same_upload b b2) as Hsame02 by by eapply same_upload_trans.
    pose proof Hsame02 as [].
    destruct (IH part' b2) as (es & b3 & Hes & -> & Hsame3 & Hev3);
      [done|done|done|congruence|congruence|congruence|congruence|congruence|exact (fits_later _ _ _ _ Hsame2 Hl2 Hf1)|].
    exists (e :: es), b3. split_and!; [|by rewrite su_params1|by eapply same_upload_trans|].
    + unfold parts_events in *. cbn [map fst snd] in *. by rewrite He2, Hes.
    + by rewrite Hev3, Hev2, Hev, <-app_assoc.
Qed.

(** C9: a multipart request announces its parts in order, each with the name, the
    file name and the type its headers give and with exactly the bytes between
    its headers and the next boundary line; it completes with the last dash of
    the closing boundary, and what follows that dash stays on the connection. *)
Theorem multipart_request_is_read m t v hdrs bd part parts rest no_params :
  let b := received m t v hdrs no_params in
  let body := boundaryLine bd +:+ part_lines bd part parts in
  wf_status m t v -> Forall wf_header hdrs ->
  expectsRequestBody (string_map upper_ascii m) = true ->
  isChunkedEncoding b = false -> multipart_type b = Some bd -> has_char LF bd = false ->
  match contentLength b with Length n => Z.of_nat (length body) <= n | _ => True end ->
  wf_parts bd part parts ->
  exists es b', feed (request_head m t v hdrs +:+ body +:+ rest) (initial_buffer no_params) =
      (Ok (Some rest), b') /\
    map Some es = parts_events (part :: parts) /\
    completed b' = true /\ httpMethod b' = Some m /\ path b' = Some t /\ httpVersion b' = Some v /\
    headersByName b' = headers_of hdrs /\ params b' = no_params /\
    events b' = map HeaderEvent hdrs ++ es ++ [CompletedEvent].
Proof.
  intros b body Hst Hh Hex Hch Hmp Hlf Hfit Hwf. rewrite feed_eq_bytes, feed_bytes_head by done.
  fold b. pose proof (received_same m t v hdrs no_params) as Hsame. fold b in Hsame.
  destruct m as [|c m]; [by destruct Hst|].
  st_run. rewrite (parse_blank_line _ _ c m) by by destruct Hsame. rewrite Hex, Hch, Hmp. cbn [negb].
  change (completed (set_state MultiPartFormData _)) with (completed b).
  replace (completed b) with false by by destruct Hsame.
  unfold body, boundaryLine. rewrite !append_assoc.
  rewrite <-(append_assoc "--" bd). rewrite feed_bytes_line; [|done|by destruct Hsame|by destruct Hsame|
    by rewrite has_char_app, Hlf].
  rewrite counted_reading by done. unfold parse. st_run. cbn [state set_bodyLength set_state].
  cbn [boundary set_bodyLength set_state set_multiPartyFormData set_boundary fmap option_fmap option_map].
  destruct (decide _) as [_|Hn]; [|destruct Hn; unfold boundaryLine; by rewrite append_assoc].
  unfold newFormDataPart, setState. st_run.
  set (b0 := set_state MultiPartFormDataHeader _). change (completed b0) with (completed b).
  replace (completed b) with false by by destruct Hsame.
  destruct (feed_bytes_part_lines bd part parts rest b0) as (es & b1 & Hes & -> & Hu & Hev);
    [done|done|done|done|done|by destruct Hsame|by destruct Hsame|by destruct Hsame| |].
  { unfold fits. change (contentLength b0) with (contentLength b). destruct (contentLength b); [done|done|].
    change (bodyLength b0) with (0 + (Z.of_nat (length ("--" +:+ bd)) + 2)).
    unfold body, boundaryLine in Hfit. rewrite !length_append in *. cbn in *. lia. }
  exists es, (completed_buffer (params b0) b1). split; [done|]. split; [done|].
  destruct Hu, Hsame as [_ _ _ _ sh_httpMethod0 sh_httpVersion0 sh_path0 sh_params0 _ _]. split_and!; [done|exact (eq_trans su_httpMethod0 sh_httpMethod0)|
    exact (eq_trans su_path0 sh_path0)|exact (eq_trans su_httpVersion0 sh_httpVersion0)| |
    exact sh_params0|].
  - refine (eq_trans su_headersByName0 _). change (headersByName b0) with (headersByName b).
    apply fold_receive_headersByName.
  - change (events b1 ++ [CompletedEvent] = map HeaderEvent hdrs ++ es ++ [CompletedEvent]).
    rewrite Hev. change (events b0) with (events b). unfold b, received.
    rewrite fold_receive_events. cbn. by rewrite <-app_assoc.
Qed.
End multipart.

(** ** Examples *)

Definition example_upload : list header :=
  [new_header "Content-Type" "multipart/form-data; boundary=xYz"; new_header "Content-Length" "182"].

Definition quoted (s : string) : string := String "034" (s +:+ String "034" "").

Definition example_title : list header * string :=
  ([new_header "Content-Disposition" ("form-data; name=" +:+ quoted "title")],
   "Two" +:+ CRLF +:+ "--lines").

Definition example_file : list header * string :=
  ([new_header "Content-Disposition"
      ("form-data; name=" +:+ quoted "file" +:+ "; filename=" +:+ quoted "a.txt");
    new_header "Content-Type" "text/plain"],
   "--xYz").

Lemma multipart_request_is_read_witness :
  exists es b', feed example_params example_params (fun f => f)
      (request_head "POST" "/upload" "1.1" example_upload +:+
       (boundaryLine "xYz" +:+ part_lines "xYz" example_title [example_file]) +:+ CRLF)
      (initial_buffer "") = (Ok (Some CRLF), b') /\
    map Some es = parts_events (fun f => f) [example_title; example_file] /\
    completed b' = true /\ httpMethod b' = Some "POST" /\ path b' = Some "/upload" /\
    httpVersion b' = Some "1.1" /\ headersByName b' = headers_of example_upload /\ params b' = "" /\
    events b' = map HeaderEvent example_upload ++ es ++ [CompletedEvent].
Proof.
  apply (multipart_request_is_read example_params example_params (fun f => f));
    [well_formed|well_formed|reflexivity|reflexivity|reflexivity|reflexivity| |].
  - vm_compute. discriminate.
  - split; (split; [well_formed|split; reflexivity]).
Defined.
