(* ===== verification/HttpClient.v ===== *)
(** * A client connection ([src/src/http-server/client/index.js])

    Two parts of the class that serves one socket. [Connection]: [onWrite] feeds
    the bytes of the socket to the request parser (RequestBuffer), starts the
    next request on the bytes that remain, and answers what it cannot parse.
    [Drain]: requests run concurrently and their responses are sent one at a
    time, in the order of the requests, by [_drainDoneRequests]. *)

From stdpp Require Import base strings list sets.
From Stdlib Require Import ZArith QArith Ascii Lia.
From S2P Require Import Prelude Numbers Json Cron RequestBuffer RequestBufferTheorems HttpRequests HttpMultipart.
Open Scope Z_scope.

Module Connection.

Inductive client_state := Initial | RequestStarted | Websocket.

(** What the client does outside: [Execute] starts a [RequestRunner], the two
    refusals write a response with status 400 and emit [close]. *)
Inductive client_event (P : Type) :=
| Execute (request : buffer P)
| UpgradeToWebsocket (request : buffer P)
| BadUpgradeResponse
| BadRequestResponse
| SessionData (data : string).
Arguments Execute {P}.
Arguments UpgradeToWebsocket {P}.
Arguments BadUpgradeResponse {P}.
Arguments BadRequestResponse {P}.
Arguments SessionData {P}.

Record client (P : Type) := {
  c_state : client_state;
  currentRequest : option (buffer P);
  websocketSession : bool;
  outputs : list (client_event P)
}.
Arguments c_state {P}.
Arguments currentRequest {P}.
Arguments websocketSession {P}.
Arguments outputs {P}.

Definition new_client {P} : client P :=
  {| c_state := Initial; currentRequest := None; websocketSession := false; outputs := [] |}.

(** [request.header(name)] *)
Definition header_value {P} (name : string) (b : buffer P) : option string :=
  h_value <$> getHeader name b.

Definition _isWebsocketUpgrade {P} (b : buffer P) : bool :=
  match header_value "upgrade" b, header_value "connection" b with
  | Some u, Some c =>
      bool_decide (to_lower u = "websocket") && includes "upgrade" (to_lower c)
  | _, _ => false
  end.

Definition _upgradeToWebsocket {P} (b : buffer P) (c : client P) : client P :=
  match header_value "sec-websocket-key" b with
  | Some (String _ _) =>
      {| c_state := Websocket; currentRequest := Some b; websocketSession := true;
         outputs := outputs c ++ [UpgradeToWebsocket b] |}
  | _ =>
      {| c_state := c_state c; currentRequest := Some b; websocketSession := websocketSession c;
         outputs := outputs c ++ [BadUpgradeResponse] |}
  end.

(** Runs when the parser of the current request is done. *)
Definition executeCurrentRequest {P} (b : buffer P) (c : client P) : client P :=
  if _isWebsocketUpgrade b then _upgradeToWebsocket b c
  else {| c_state := Initial; currentRequest := Some b; websocketSession := websocketSession c;
          outputs := outputs c ++ [Execute b] |}.

Definition handleBadRequest {P} (c : client P) : client P :=
  {| c_state := Initial; currentRequest := None; websocketSession := websocketSession c;
     outputs := outputs c ++ [BadRequestResponse] |}.

Definition with_request {P} (s : client_state) (b : buffer P) (c : client P) : client P :=
  {| c_state := s; currentRequest := Some b; websocketSession := websocketSession c;
     outputs := outputs c |}.

Definition with_state {P} (s : client_state) (c : client P) : client P :=
  {| c_state := s; currentRequest := currentRequest c; websocketSession := websocketSession c;
     outputs := outputs c |}.

Section connection.
Context {P : Type} (json_params query_params : string -> P -> option P).
Context (basename : string -> string) (no_params : P).

Abbreviation feed := (feed json_params query_params basename).
Abbreviation feed_bytes := (feed_bytes json_params query_params basename).

(** [new Request], when the client is between requests; [None] is a throw. *)
Definition request_to_feed (c : client P) : option (buffer P) :=
  match c_state c with
  | Initial => Some (initial_buffer no_params)
  | RequestStarted => currentRequest c
  | Websocket => None
  end.

(** The loop of [onWrite]. The parser of a request that has completed throws. *)
Fixpoint onWrite_loop (fuel : nat) (remaining : string) (c : client P) : client P :=
  match fuel, remaining with
  | _, EmptyString | O, _ => c
  | S fuel, _ =>
      match request_to_feed c with
      | None => handleBadRequest c
      | Some b =>
          if completed b then handleBadRequest c else
          match feed remaining b with
          | (Throw _, _) => handleBadRequest c
          | (Ok None, b') => with_request RequestStarted b' c
          | (Ok (Some rest), b') =>
              let c' := executeCurrentRequest b' (with_request RequestStarted b' c) in
              if decide (rest = "") then c' else onWrite_loop fuel rest (with_state Initial c')
          end
      end
  end.

(** A turn consumes a byte, so that the length of the data bounds the turns. *)
Definition onWrite (data : string) (c : client P) : client P :=
  if websocketSession c
  then {| c_state := c_state c; currentRequest := currentRequest c; websocketSession := true;
          outputs := outputs c ++ [SessionData data] |}
  else onWrite_loop (length data) data c.

(** ** Pipelined requests *)

Lemma feed_rest_shorter chunk b rest b' :
  feed chunk b = (Ok (Some rest), b') -> completed b = false -> (length rest < length chunk)%nat.
Proof.
  intros H Hc. rewrite feed_eq_bytes in H by done. clear Hc. revert b H.
  induction chunk as [|c chunk IH]; intros b; [done|].
  cbn [RequestBufferTheorems.feed_bytes]. st_run.
  destruct (feed_step _ _ _ _ b) as [[r|e] b1]; [|done]. destruct (completed b1).
  - intros [= <- <-]. cbn. lia.
  - intros H. apply IH in H. cbn. lia.
Qed.

Lemma feed_complete_or_not chunk b r b' :
  feed chunk b = (Ok r, b') -> completed b = false ->
  completed b' = match r with Some _ => true | None => false end.
Proof.
  intros H Hc. rewrite feed_eq_bytes in H by done. destruct r as [rest|].
  - clear Hc. revert b H. induction chunk as [|c chunk IH]; intros b; [done|].
    cbn [RequestBufferTheorems.feed_bytes]. st_run.
    destruct (feed_step _ _ _ _ b) as [[r|e] b1]; [|done].
    destruct (completed b1) eqn:Hb1; [by intros [= <- <-]|apply IH].
  - by eapply feed_bytes_incomplete.
Qed.

(** What a stream of bytes holds: the requests it parses to, from a request in
    progress or from none. *)
Inductive holds : option (buffer P) -> string -> list (buffer P) -> Prop :=
| holds_nothing : holds None "" []
| holds_request b stream later b' bs :
    completed b = false -> feed_bytes stream b = (Ok (Some later), b') ->
    _isWebsocketUpgrade b' = false -> holds None later bs ->
    holds (Some b) stream (b' :: bs)
| holds_next stream bs :
    holds (Some (initial_buffer no_params)) stream bs -> holds None stream bs.

(** The state of a client that parses a request or waits for one. *)
Definition parsing (c : client P) (cur : option (buffer P)) : Prop :=
  websocketSession c = false /\
  match cur with
  | None => c_state c = Initial
  | Some b => request_to_feed c = Some b
  end.

Lemma onWrite_loop_holds fuel data more c cur bs :
  (length data <= fuel)%nat -> parsing c cur -> holds cur (data +:+ more) bs ->
  exists cur' bs1 bs2, bs = bs1 ++ bs2 /\
    let c' := onWrite_loop fuel data c in
    outputs c' = outputs c ++ map Execute bs1 /\ parsing c' cur' /\ holds cur' more bs2.
Proof.
  revert data c cur bs. induction fuel as [|fuel IH]; intros data c cur bs Hf Hc Hh;
    (destruct (decide (data = "")) as [->|Hne];
     [exists cur, [], bs; rewrite append_nil_l in Hh; cbn; by rewrite app_nil_r|]).
  { destruct data; [done|cbn in Hf; lia]. }
  assert (exists b, parsing c (Some b) /\ holds (Some b) (data +:+ more) bs) as (b & [Hws Hb] & Hhb).
  { destruct cur as [b|]; [by exists b|]. destruct Hc as [Hw Hi]. inversion Hh as [Hnil| |? ? Hh' ]; subst.
    - by destruct data.
    - exists (initial_buffer no_params). split; [|done]. split; [done|]. unfold request_to_feed. by rewrite Hi. }
  clear Hh Hc cur. inversion Hhb as [|? ? later b' bs' Hcomp Hfeed Hup Hlater|]; subst.
  rewrite feed_bytes_app in Hfeed.
  destruct data as [|ch data]; [done|]. cbn [onWrite_loop]. rewrite Hb, Hcomp.
  set (d := String ch data) in *.
  destruct (feed d b) as [[[rest|]|e] b1] eqn:Hd; pose proof Hd as Hd'; rewrite feed_eq_bytes in Hd' by done;
    rewrite Hd' in Hfeed; [| |done].
  - injection Hfeed as <- <-. unfold executeCurrentRequest. rewrite Hup.
    pose proof (feed_rest_shorter _ _ _ _ Hd Hcomp) as Hlen.
    destruct (decide (rest = "")) as [->|Hr].
    + exists None, [b1], bs'. by rewrite append_nil_l in Hlater.
    + destruct (IH rest (with_state Initial {| c_state := Initial; currentRequest := Some b1;
        websocketSession := websocketSession c; outputs := outputs c ++ [Execute b1] |}) None bs')
        as (cur' & bs1 & bs2 & -> & Ho & Hp & Hl); [unfold d in *; cbn in Hlen, Hf; lia|done|done|].
      exists cur', (b1 :: bs1), bs2. split; [done|]. split; [|done].
      cbn [outputs websocketSession with_request] in *. rewrite Ho. cbn. by rewrite <-app_assoc.
  - exists (Some b1), [], (b' :: bs'). split; [done|]. cbn. rewrite app_nil_r. split; [done|].
    split; [done|]. apply (holds_request _ _ later); [|done|done|done].
    by apply (feed_complete_or_not _ _ _ _ Hd Hcomp).
Qed.

Lemma onWrites_hold chunks c cur bs :
  parsing c cur -> holds cur (String.concat "" chunks) bs ->
  outputs (fold_left (fun c d => onWrite d c) chunks c) = outputs c ++ map Execute bs /\
  parsing (fold_left (fun c d => onWrite d c) chunks c) None.
Proof.
  revert c cur bs. induction chunks as [|d chunks IH]; intros c cur bs Hc Hh.
  - cbn in *. inversion Hh as [|? ? later ? ? ? Hf|? ? Hh']; subst; [by rewrite app_nil_r|done|].
    by inversion Hh'.
  - rewrite concat_cons_str in Hh. cbn [fold_left].
    destruct (onWrite_loop_holds (length d) d (String.concat "" chunks) c cur bs)
      as (cur' & bs1 & bs2 & -> & Ho & Hp & Hl); [done..|].
    replace (onWrite d c) with (onWrite_loop (length d) d c)
      by (unfold onWrite; by rewrite (proj1 Hc)).
    destruct (IH _ _ _ Hp Hl) as [Ho' Hp']. split; [|done].
    by rewrite Ho', Ho, map_app, app_assoc.
Qed.

(** C10: requests that a client sends one after the other on a connection are
    executed each once, in order, with the buffers each would have on a
    connection of its own, however the network splits or joins their bytes; the
    client is then between requests and has refused nothing. *)
Theorem pipelined_requests_execute_in_order (texts : list string) (bs : list (buffer P)) chunks :
  Forall2 (fun text b => _isWebsocketUpgrade b = false /\
    feed text (initial_buffer no_params) = (Ok (Some ""), b)) texts bs ->
  String.concat "" chunks = String.concat "" texts ->
  let c := fold_left (fun c data => onWrite data c) chunks new_client in
  outputs c = map Execute bs /\ c_state c = Initial.
Proof.
  intros Hall Hchunks.
  assert (holds None (String.concat "" chunks) bs) as Hh.
  { rewrite Hchunks. clear Hchunks. induction Hall as [|text b texts bs [Hup Hf] _ IH]; [constructor|].
    rewrite concat_cons_str. apply holds_next. apply (holds_request _ _ (String.concat "" texts)); [done| |done|done].
    rewrite feed_eq_bytes in Hf by done. by rewrite feed_bytes_app, Hf. }
  destruct (onWrites_hold chunks new_client None bs) as [Ho [_ Hp]]; done.
Qed.

(** An empty line after a complete request is refused as a bad request,
    although the closing boundary of a multipart body is followed by one: the
    client that sent a correct upload gets a response with status 400 and the
    connection is closed while the upload still runs. *)
Theorem line_break_after_request_is_refused text b :
  feed text (initial_buffer no_params) = (Ok (Some ""), b) -> _isWebsocketUpgrade b = false ->
  outputs (onWrite (text +:+ CRLF) new_client) = [Execute b; BadRequestResponse].
Proof.
  intros Hf Hup. unfold onWrite. cbn [websocketSession new_client].
  assert (feed (text +:+ CRLF) (initial_buffer no_params) = (Ok (Some CRLF), b)) as Hf'.
  { rewrite feed_eq_bytes in Hf |- * by done. by rewrite feed_bytes_app, Hf. }
  destruct text as [|ch text]; [done|]. set (d := String ch text) in *.
  assert (exists n, length (d +:+ CRLF) = S (S n)) as [n ->].
  { rewrite length_append. exists (length d). cbn. lia. }
  assert (forall c : client P, c_state c = Initial -> websocketSession c = false ->
    outputs (onWrite_loop (S n) CRLF c) = outputs c ++ [BadRequestResponse]) as Hcrlf.
  { intros c Hc Hw. unfold onWrite_loop. change CRLF with (String CR (String LF "")).
    unfold request_to_feed. rewrite Hc. cbn [completed initial_buffer].
    match goal with |- context [feed ?x ?y] => 
      replace (feed x y) with (@Throw parse_error (option string) (BadStatusLine CRLF), initial_buffer no_params) by reflexivity end.
    done. }
  assert (exists ch' t', d +:+ CRLF = String ch' t') as (ch' & t' & Hd) by (unfold d; eauto).
  rewrite Hd in *. cbn [onWrite_loop]. cbn [request_to_feed new_client c_state]. cbn [completed initial_buffer].
  rewrite Hf'. unfold executeCurrentRequest. rewrite Hup. destruct (decide _); [done|].
  etrans; [by apply Hcrlf|done].
Qed.
End connection.

Definition example_head (t : string) : string := request_head "GET" t "1.1" example_get.

Definition example_request (t : string) : buffer string :=
  (feed example_params example_params (fun f => f) (example_head t) (initial_buffer "")).2.

Lemma pipelined_requests_execute_in_order_witness :
  let c := fold_left (fun c data => onWrite example_params example_params (fun f => f) "" data c)
             (String.substring 0 20 (example_head "/a") ::
              (String.substring 20 50 (example_head "/a") +:+ "GE") ::
              ["T /b HTTP/1.1" +:+ CRLF +:+ header_lines example_get +:+ CRLF]) new_client in
  outputs c = map Execute [example_request "/a"; example_request "/b"] /\ c_state c = Initial.
Proof.
  apply (pipelined_requests_execute_in_order example_params example_params (fun f => f) ""
    [example_head "/a"; example_head "/b"]).
  - repeat (apply List.Forall2_cons; [split; vm_compute; reflexivity|]). apply List.Forall2_nil.
  - vm_compute. reflexivity.
Defined.

(** The upload of the multipart examples. *)
Definition example_upload_text : string :=
  request_head "POST" "/upload" "1.1" example_upload +:+
  boundaryLine "xYz" +:+ part_lines "xYz" example_title [example_file].

Definition example_upload_request : buffer string :=
  (feed example_params example_params (fun f => f) example_upload_text (initial_buffer "")).2.

Lemma line_break_after_request_is_refused_witness :
  outputs (onWrite example_params example_params (fun f => f) "" (example_upload_text +:+ CRLF) new_client) =
    [Execute example_upload_request; BadRequestResponse].
Proof.
  apply (line_break_after_request_is_refused example_params example_params (fun f => f) "");
    vm_compute; reflexivity.
Defined.

End Connection.

Module Drain.

(** A request runner, with the state [getState() == "done"]. *)
Record runner := { id : nat; done : bool }.

(** Where the drain is suspended: nowhere ([_doneRequestsDrainActive] is false),
    in the [await] of [sendResponse], or in the [await] of a [sendDoneRequests]
    that found nothing more to send. *)
Inductive phase := Idle | Sending (i : nat) | Returning.

Inductive log_event := Started (i : nat) | Sent (i : nat) | SendFailed (i : nat) | Closed.

Record drain := {
  requestRunners : list runner;
  drain_phase : phase;
  _doneRequestsDrainPending : bool;
  log : list log_event;
  arrived : list nat                    (* the requests executed so far *)
}.

Definition new_drain : drain := {| requestRunners := []; drain_phase := Idle;
  _doneRequestsDrainPending := false; log := []; arrived := [] |}.

Definition with_log (es : list log_event) (d : drain) : drain :=
  {| requestRunners := requestRunners d; drain_phase := drain_phase d;
     _doneRequestsDrainPending := _doneRequestsDrainPending d; log := log d ++ es; arrived := arrived d |}.

Definition with_phase (p : phase) (d : drain) : drain :=
  {| requestRunners := requestRunners d; drain_phase := p;
     _doneRequestsDrainPending := _doneRequestsDrainPending d; log := log d; arrived := arrived d |}.

Definition with_pending (b : bool) (d : drain) : drain :=
  {| requestRunners := requestRunners d; drain_phase := drain_phase d;
     _doneRequestsDrainPending := b; log := log d; arrived := arrived d |}.

Definition with_runners (rs : list runner) (d : drain) : drain :=
  {| requestRunners := rs; drain_phase := drain_phase d;
     _doneRequestsDrainPending := _doneRequestsDrainPending d; log := log d; arrived := arrived d |}.

(** [sendDoneRequests] up to its next [await]. *)
Definition sendDoneRequests (d : drain) : drain :=
  match requestRunners d with
  | r :: rs =>
      if done r then with_log [Started (id r)] (with_phase (Sending (id r)) (with_runners rs d))
      else with_phase Returning d
  | [] => with_phase Returning d
  end.

(** [_drainDoneRequests] up to its first [await]. *)
Definition _drainDoneRequests (d : drain) : drain :=
  match drain_phase d with
  | Idle => sendDoneRequests (with_pending false d)
  | _ => with_pending true d
  end.

(** The [while] test after [sendDoneRequests] has returned. *)
Definition drain_again (d : drain) : drain :=
  if _doneRequestsDrainPending d then sendDoneRequests (with_pending false d) else with_phase Idle d.

Definition mark_done (i : nat) (r : runner) : runner :=
  if decide (id r = i) then {| id := id r; done := true |} else r.

Definition executed (i : nat) (d : drain) : drain :=
  {| requestRunners := requestRunners d ++ [{| id := i; done := false |}]; drain_phase := drain_phase d;
     _doneRequestsDrainPending := _doneRequestsDrainPending d; log := log d; arrived := arrived d ++ [i] |}.

Section drain.
(** [shouldCloseConnection] of a request. *)
Context (shouldCloseConnection : nat -> bool).

(** The events the event loop can run next, in any order. *)
Inductive step : drain -> drain -> Prop :=
| execute_step i d : step d (executed i d)
| done_step i d :
    step d (_drainDoneRequests (with_runners (map (mark_done i) (requestRunners d)) d))
| sent_step i d :
    drain_phase d = Sending i ->
    step d (sendDoneRequests (with_log (Sent i :: if shouldCloseConnection i then [Closed] else []) d))
| failed_step i d :
    drain_phase d = Sending i -> step d (with_log [SendFailed i; Closed] (with_phase Idle d))
| again_step d :
    drain_phase d = Returning -> step d (drain_again d).

Inductive reachable : drain -> Prop :=
| reachable_new : reachable new_drain
| reachable_step d d' : reachable d -> step d d' -> reachable d'.

(** The responses started so far, and the event that must be next in the log. *)
Definition started (l : list log_event) : list nat :=
  omap (fun e => match e with Started i => Some i | _ => None end) l.

(** Responses do not overlap: a response starts when none is being sent, and the
    one that is being sent is the one that ends. *)
Fixpoint sending_after (l : list log_event) (cur : option nat) : option (option nat) :=
  match l with
  | [] => Some cur
  | Started i :: l' => match cur with None => sending_after l' (Some i) | Some _ => None end
  | Sent i :: l' | SendFailed i :: l' =>
      if decide (cur = Some i) then sending_after l' None else None
  | Closed :: l' => match cur with None => sending_after l' None | Some _ => None end
  end.

Definition phase_sending (p : phase) : option nat :=
  match p with Sending i => Some i | _ => None end.

Definition head_done (d : drain) : bool :=
  match requestRunners d with r :: _ => done r | [] => false end.

Definition drain_ok (d : drain) : Prop :=
  started (log d) ++ map id (requestRunners d) = arrived d /\
  sending_after (log d) None = Some (phase_sending (drain_phase d)) /\
  ((forall i, ~ SendFailed i ∈ log d) ->
   match drain_phase d with
   | Idle => head_done d = false
   | Returning => head_done d = true -> _doneRequestsDrainPending d = true
   | Sending _ => True
   end).

Lemma sending_after_app l1 l2 c1 c2 :
  sending_after l1 c1 = Some c2 -> sending_after (l1 ++ l2) c1 = sending_after l2 c2.
Proof.
  revert c1. induction l1 as [|[i|i|i|] l1 IH]; intros c1; cbn.
  - by intros [= ->].
  - destruct c1; [done|apply IH].
  - destruct (decide _); [apply IH|done].
  - destruct (decide _); [apply IH|done].
  - destruct c1; [done|apply IH].
Qed.

Lemma started_app l1 l2 : started (l1 ++ l2) = started l1 ++ started l2.
Proof. apply omap_app. Qed.

(** The invariant holds where [sendDoneRequests] suspends, whatever it was called in. *)
Lemma sendDoneRequests_ok d :
  started (log d) ++ map id (requestRunners d) = arrived d ->
  sending_after (log d) None = Some None -> drain_ok (sendDoneRequests d).
Proof.
  intros Ho Hs. unfold sendDoneRequests. destruct (requestRunners d) as [|[i []] rs] eqn:Hr.
  - split; [by cbn; rewrite Hr|]. split; [done|]. intros _. unfold head_done. cbn. by rewrite Hr.
  - split; [cbn; rewrite started_app, <-app_assoc; exact Ho|]. split; [|done].
    cbn. by rewrite (sending_after_app _ _ _ _ Hs).
  - split; [by cbn; rewrite Hr|]. split; [done|]. intros _. unfold head_done. cbn. by rewrite Hr.
Qed.

Lemma map_id_mark_done i rs : map id (map (mark_done i) rs) = map id rs.
Proof.
  rewrite map_map. apply map_ext. intros r. unfold mark_done. by destruct (decide _).
Qed.

Lemma step_ok d d' : drain_ok d -> step d d' -> drain_ok d'.
Proof.
  intros (Ho & Hs & Hw) Hstep. destruct Hstep as [i d|i d|i d Hp|i d Hp|d Hp].
  - split; [cbn [log requestRunners arrived executed]; by rewrite map_app, app_assoc, Ho|]. split; [done|]. intros Hf. specialize (Hw Hf).
    unfold executed, head_done in *. cbn. destruct (drain_phase d); [|done|];
      destruct (requestRunners d); cbn in *; done.
  - unfold _drainDoneRequests. cbn [drain_phase with_runners]. destruct (drain_phase d) eqn:Hp.
    + apply sendDoneRequests_ok; [cbn; by rewrite map_id_mark_done|done].
    + split; [cbn; by rewrite map_id_mark_done|]. cbn. by rewrite Hp.
    + split; [cbn; by rewrite map_id_mark_done|]. cbn. by rewrite Hp.
  - rewrite Hp in Hs. apply sendDoneRequests_ok.
    + cbn. rewrite started_app. destruct (shouldCloseConnection i); cbn; by rewrite app_nil_r.
    + cbn. rewrite (sending_after_app _ _ _ _ Hs). cbn. rewrite decide_True by done.
      by destruct (shouldCloseConnection i).
  - rewrite Hp in Hs. split; [cbn; rewrite started_app; cbn; by rewrite app_nil_r|]. split.
    + cbn. rewrite (sending_after_app _ _ _ _ Hs). cbn. by rewrite decide_True.
    + intros Hf. exfalso. apply (Hf i). cbn. set_solver.
  - rewrite Hp in Hs, Hw. unfold drain_again. destruct (_doneRequestsDrainPending d) eqn:Hpend.
    + by apply sendDoneRequests_ok.
    + split; [done|]. split; [done|]. intros Hf. specialize (Hw Hf). cbn. unfold head_done in *. cbn.
      destruct (requestRunners d); [done|]. by destruct (done r); [discriminate Hw|].
Qed.

Lemma drain_reachable_ok d : reachable d -> drain_ok d.
Proof.
  induction 1 as [|d d' _ IH Hstep]; [|by eapply step_ok].
  split; [done|]. split; [done|]. done.
Qed.

(** C11: however the completions of concurrent requests interleave with the
    responses being sent, the responses start in the order of the requests, each
    at most once and none skipped, and no two are ever on the socket at the same
    time. *)
Theorem responses_in_request_order d :
  reachable d ->
  started (log d) ++ map id (requestRunners d) = arrived d /\
  sending_after (log d) None = Some (phase_sending (drain_phase d)).
Proof. intros H. by destruct (drain_reachable_ok d H) as (? & ? & _). Qed.

(** No completion is lost: as long as no send has failed, a drain that is not
    active leaves no finished response at the head of the queue, although a
    completion that arrives while a drain is active only sets a flag. *)
Lemma no_lost_completion d :
  reachable d -> (forall i, ~ SendFailed i ∈ log d) -> drain_phase d = Idle -> head_done d = false.
Proof. intros H Hf Hp. destruct (drain_reachable_ok d H) as (_ & _ & Hw). specialize (Hw Hf). by rewrite Hp in Hw. Qed.
End drain.

(** Two requests that complete in the opposite order. *)
Definition example_run : drain :=
  let d := executed 2 (executed 1 new_drain) in
  let d := drain_again (_drainDoneRequests (with_runners (map (mark_done 2) (requestRunners d)) d)) in
  let d := _drainDoneRequests (with_runners (map (mark_done 1) (requestRunners d)) d) in
  let d := sendDoneRequests (with_log [Sent 1] d) in
  let d := sendDoneRequests (with_log [Sent 2; Closed] d) in
  drain_again d.

Lemma example_run_reachable : reachable (Nat.eqb 2) example_run.
Proof.
  unfold example_run. cbv zeta.
  eapply reachable_step; [|by apply again_step].
  eapply reachable_step; [|by apply (sent_step (Nat.eqb 2) 2)].
  eapply reachable_step; [|by apply (sent_step (Nat.eqb 2) 1)].
  eapply reachable_step; [|apply done_step].
  eapply reachable_step; [|by apply again_step].
  eapply reachable_step; [|apply done_step].
  eapply reachable_step; [|apply execute_step].
  eapply reachable_step; [|apply execute_step].
  apply reachable_new.
Qed.

Lemma responses_in_request_order_witness :
  started (log example_run) ++ map id (requestRunners example_run) = [1; 2]%nat /\
  sending_after (log example_run) None = Some None.
Proof.
  exact (responses_in_request_order _ example_run example_run_reachable).
Defined.

Lemma no_lost_completion_witness :
  drain_phase example_run = Idle /\ head_done example_run = false.
Proof.
  split; [reflexivity|].
  apply (no_lost_completion _ example_run example_run_reachable); [|reflexivity].
  intros i Hi. vm_compute in Hi. apply list_elem_of_In in Hi. cbn in Hi.
  repeat destruct Hi as [Hi|Hi]; discriminate || done.
Defined.

End Drain.
