(* ===== verification/ResponseCompression.v ===== *)
(** * Response compression ([src/src/http-server/client/response-compression.js])

    The negotiation of the content coding from [Accept-Encoding] and the decision
    to compress a buffered response. A body is a string of bytes; the brotli and
    gzip encoders of Node are parameters. *)

From stdpp Require Import base gmap strings list.
From Stdlib Require Import ZArith QArith Ascii Lia Lqa.
From S2P Require Import Prelude Sql Numbers Cron RequestBuffer.
Open Scope Z_scope.

(** ** [Accept-Encoding] *)

Definition is_digit (c : ascii) : bool :=
  let n := N_of_ascii c in ((48 <=? n) && (n <=? 57))%N.

Fixpoint all_satisfy (f : ascii -> bool) (s : string) : bool :=
  match s with EmptyString => true | String c s' => f c && all_satisfy f s' end.

(** At most three characters, and one at least. *)
Definition one_to_three (s : string) : bool :=
  ((1 <=? length s) && (length s <=? 3))%nat.

(** [/^(?:0(?:\.\d{1,3})?|1(?:\.0{1,3})?)$/u] *)
Definition QVALUE_PATTERN (s : string) : bool :=
  match s with
  | String "0" EmptyString | String "1" EmptyString => true
  | String "0" (String "." d) => one_to_three d && all_satisfy is_digit d
  | String "1" (String "." d) => one_to_three d && all_satisfy (fun c => bool_decide (c = "0"%char)) d
  | _ => false
  end.

(** [Number(qvalue)] *)
Definition qvalue_number (s : string) : Q :=
  match js_Number s with Fin q => q | _ => 0%Q end.

(** The parameters of a coding: the last [q] counts. *)
Fixpoint read_parameters (parameters : list string) (q : Q) : Q :=
  match parameters with
  | [] => q
  | parameter :: rest =>
      let pieces := split_char "=" parameter in
      if decide (to_lower (js_trim (default "" (head pieces))) = "q")
      then let qvalue := js_trim (default "" (pieces !! 1%nat)) in
           read_parameters rest (if QVALUE_PATTERN qvalue then qvalue_number qvalue else 0%Q)
      else read_parameters rest q
  end.

(** A part of the header: its coding and quality, when it names one. *)
Definition read_part (part : string) : option (string * Q) :=
  match split_char ";" part with
  | [] => None
  | codingToken :: parameters =>
      match to_lower (js_trim codingToken) with
      | EmptyString => None
      | coding => Some (coding, read_parameters parameters 1%Q)
      end
  end.

(** [codings.set(coding, q)] *)
Definition add_part (codings : gmap string Q) (part : string) : gmap string Q :=
  match read_part part with Some (coding, q) => <[coding := q]> codings | None => codings end.

Definition parseAcceptEncoding (headerValue : string) : gmap string Q :=
  fold_left add_part (split_char "," headerValue) ∅.

(** ** Negotiation *)

Inductive coding := Br | Gzip | Identity.

#[export] Instance coding_eq_dec : EqDecision coding.
Proof. solve_decision. Defined.

Definition coding_name (c : coding) : string :=
  match c with Br => "br" | Gzip => "gzip" | Identity => "identity" end.

Inductive negotiation :=
| Negotiated (encoding : coding) (identityAcceptable : bool)
| NotAcceptable.

(** [a ?? b] *)
Definition or_else {A} (a : option A) (b : A) : A := match a with Some x => x | None => b end.

Definition candidate_q (codings : gmap string Q) (c : coding) : Q :=
  let wildcardQ := codings !! "*" in
  match c with
  | Identity => or_else (codings !! "identity") (or_else wildcardQ 1%Q)
  | _ => or_else (codings !! coding_name c) (or_else wildcardQ 0%Q)
  end.

Definition positive (q : Q) : bool := negb (Qle_bool q 0).

(** [candidates.sort((a, b) => b.q - a.q)], stable. *)
Fixpoint insert_candidate (x : coding * Q) (l : list (coding * Q)) : list (coding * Q) :=
  match l with
  | [] => [x]
  | y :: l' => if Qle_bool y.2 x.2 then x :: l else y :: insert_candidate x l'
  end.

Fixpoint sort_candidates (l : list (coding * Q)) : list (coding * Q) :=
  match l with [] => [] | x :: l' => insert_candidate x (sort_candidates l') end.

Definition negotiateContentEncoding (acceptEncoding : option string) : negotiation :=
  match js_trim (or_else acceptEncoding "") with
  | EmptyString => Negotiated Identity true
  | _ =>
      let codings := parseAcceptEncoding (or_else acceptEncoding "") in
      let identityQ := candidate_q codings Identity in
      let candidates := map (fun c => (c, candidate_q codings c)) [Br; Gzip; Identity] in
      match sort_candidates (filter (fun x => positive x.2 = true) candidates) with
      | [] => NotAcceptable
      | selected :: _ => Negotiated selected.1 (positive identityQ)
      end
  end.

(** ** Media types *)

Definition COMPRESSIBLE_EXACT_MEDIA_TYPES : list string :=
  ["application/ecmascript"; "application/javascript"; "application/json";
   "application/x-javascript"; "application/xml"; "image/svg+xml"].

Definition ends_with (t s : string) : bool :=
  match strip_suffix t s with Some _ => true | None => false end.

Definition isCompressibleContentType (contentType : string) : bool :=
  match to_lower (js_trim (default "" (head (split_char ";" contentType)))) with
  | EmptyString => false
  | mediaType =>
      if decide (mediaType = "text/event-stream") then false
      else if starts_with "text/" mediaType then true
      else if ends_with "+json" mediaType || ends_with "+xml" mediaType then true
      else bool_decide (mediaType ∈ COMPRESSIBLE_EXACT_MEDIA_TYPES)
  end.

(** ** Responses *)

(** The headers of a response: the properties of an object, in order. *)
Record response := {
  r_headers : list (string * list string);
  statusCode : Z;
  compressionDisabled : bool
}.

Definition response_getHeader (key : string) (r : response) : list string :=
  concat (map snd (filter (fun kv => to_lower kv.1 = to_lower key) (r_headers r))).

Fixpoint put_header (key : string) (vs : list string) (hs : list (string * list string)) :
    list (string * list string) :=
  match hs with
  | [] => [(key, vs)]
  | (k, old) :: hs' => if decide (k = key) then (k, vs) :: hs' else (k, old) :: put_header key vs hs'
  end.

Definition setHeader (key value : string) (r : response) : response :=
  {| r_headers := put_header key [value] (r_headers r); statusCode := statusCode r;
     compressionDisabled := compressionDisabled r |}.

Definition header_tokens (values : list string) : list string :=
  map (fun t => to_lower (js_trim t)) (concat (map (split_char ",") values)).

(** The first header named Vary, in any case, gets the token. *)
Fixpoint add_to_vary (hs : list (string * list string)) : option (list (string * list string)) :=
  match hs with
  | [] => None
  | (k, values) :: hs' =>
      if decide (to_lower k = "vary") then
        let tokens := header_tokens values in
        if bool_decide ("*" ∈ tokens) || bool_decide ("accept-encoding" ∈ tokens) then Some hs else
        match values with
        | [] => Some hs
        | v :: vs => Some ((k, (v +:+ ", Accept-Encoding") :: vs) :: hs')
        end
      else (fun hs => (k, values) :: hs) <$> add_to_vary hs'
  end.

Definition addAcceptEncodingToVary (r : response) : response :=
  match add_to_vary (r_headers r) with
  | Some hs => {| r_headers := hs; statusCode := statusCode r; compressionDisabled := compressionDisabled r |}
  | None => setHeader "Vary" "Accept-Encoding" r
  end.

(** ** The decision *)

Record compression_configuration := { enabled : bool; threshold : Z; brotliQuality : Z; gzipLevel : Z }.

Inductive outcome_of_compression :=
| IdentityOutcome
| CompressedOutcome (body : string)
| NotAcceptableOutcome.

Section compression.
Context (brotliCompress gzip : Z -> string -> string).

(** [header] is [request.header]; an empty header is falsy. *)
Definition has_header (header : string -> option string) (name : string) : bool :=
  match header name with Some (String _ _) => true | _ => false end.

Definition none_set (names : list string) (r : response) : bool :=
  forallb (fun name => match response_getHeader name r with [] => true | _ => false end) names.

Definition transformable (header : string -> option string) (r : response) : bool :=
  negb (compressionDisabled r) && negb (statusCode r =? 206) &&
  negb (has_header header "range") && negb (has_header header "authorization") &&
  negb (has_header header "cookie") &&
  none_set ["Content-Range"; "Set-Cookie"; "ETag"; "Digest"; "Content-Digest"] r &&
  negb (bool_decide ("no-transform" ∈ header_tokens (response_getHeader "Cache-Control" r))) &&
  match response_getHeader "Content-Type" r with
  | contentType :: _ => isCompressibleContentType contentType
  | [] => false
  end.

Definition applyResponseCompression (body : string) (compression : compression_configuration)
    (header : string -> option string) (r : response) : outcome_of_compression * response :=
  if negb (enabled compression) then (IdentityOutcome, r) else
  match response_getHeader "Content-Encoding" r with
  | _ :: _ => (IdentityOutcome, r)
  | [] =>
      match negotiateContentEncoding (header "accept-encoding") with
      | NotAcceptable => (NotAcceptableOutcome, r)
      | Negotiated encoding identityAcceptable =>
          if negb (transformable header r)
          then (if identityAcceptable then IdentityOutcome else NotAcceptableOutcome, r) else
          let r := addAcceptEncodingToVary r in
          match encoding with
          | Identity => (IdentityOutcome, r)
          | _ =>
              if (Z.of_nat (length body) <? threshold compression) && identityAcceptable
              then (IdentityOutcome, r) else
              let compressed := match encoding with
                                | Br => brotliCompress (brotliQuality compression) body
                                | _ => gzip (gzipLevel compression) body
                                end in
              (CompressedOutcome compressed, setHeader "Content-Encoding" (coding_name encoding) r)
          end
      end
  end.
End compression.

(** ** Preferences

    What a header says of a coding: its last entry that names it, else its last
    wildcard, else one for identity and nothing for the others. *)

Fixpoint last_entry (name : string) (entries : list (string * Q)) : option Q :=
  match entries with
  | [] => None
  | (n, q) :: entries' =>
      match last_entry name entries' with
      | Some q' => Some q'
      | None => if decide (n = name) then Some q else None
      end
  end.

Definition entries (acceptEncoding : string) : list (string * Q) :=
  omap read_part (split_char "," acceptEncoding).

Definition preference (acceptEncoding : option string) (c : coding) : Q :=
  let es := match js_trim (or_else acceptEncoding "") with
            | EmptyString => []
            | _ => entries (or_else acceptEncoding "")
            end in
  or_else (last_entry (coding_name c) es)
    (or_else (last_entry "*" es) (match c with Identity => 1%Q | _ => 0%Q end)).

(** The server's order of preference. *)
Definition rank (c : coding) : nat := match c with Br => 0 | Gzip => 1 | Identity => 2 end.

Definition best (q : coding -> Q) (c : coding) : Prop :=
  (0 < q c)%Q /\ (forall c', (q c' <= q c)%Q) /\ (forall c', (rank c' < rank c)%nat -> (q c' < q c)%Q).

Lemma fold_entries parts acc name :
  fold_left add_part parts acc !! name =
  match last_entry name (omap read_part parts) with Some q => Some q | None => acc !! name end.
Proof.
  revert acc. induction parts as [|part parts IH]; intros acc; [done|].
  cbn [fold_left]. rewrite IH. unfold add_part.
  change (omap read_part (part :: parts)) with
    (match read_part part with Some e => e :: omap read_part parts | None => omap read_part parts end).
  destruct (read_part part) as [[n q]|]; [|done]. cbn [last_entry].
  destruct (last_entry name (omap read_part parts)); [done|].
  destruct (decide (n = name)) as [->|Hn]; [by rewrite lookup_insert_eq|by rewrite lookup_insert_ne].
Qed.

Lemma parseAcceptEncoding_lookup header name :
  parseAcceptEncoding header !! name = last_entry name (entries header).
Proof.
  unfold parseAcceptEncoding. rewrite fold_entries. unfold entries. by destruct (last_entry _ _).
Qed.

Lemma candidate_preference header c :
  js_trim header <> "" -> candidate_q (parseAcceptEncoding header) c = preference (Some header) c.
Proof.
  intros Hh. unfold candidate_q, preference. cbn [or_else]. destruct (js_trim header); [done|].
  destruct c; by rewrite !parseAcceptEncoding_lookup.
Qed.

Lemma positive_spec q : positive q = true <-> (0 < q)%Q.
Proof.
  unfold positive. rewrite negb_true_iff, <-not_true_iff_false, Qle_bool_iff. split.
  - apply Qnot_le_lt.
  - apply Qlt_not_le.
Qed.

(** The first of the sorted acceptable candidates is the best one. *)
Lemma selected_best (q : coding -> Q) :
  match sort_candidates (filter (fun x => positive x.2 = true) (map (fun c => (c, q c)) [Br; Gzip; Identity])) with
  | [] => forall c, (q c <= 0)%Q
  | selected :: _ => best q selected.1
  end.
Proof.
  assert (forall c, positive (q c) = true /\ (0 < q c)%Q \/ positive (q c) = false /\ (q c <= 0)%Q) as Hpos.
  { intros c. destruct (positive (q c)) eqn:H; [left; split; [done|by apply positive_spec]|right].
    split; [done|]. apply Qnot_lt_le. rewrite <-positive_spec, H. done. }
  assert (forall a b, Qle_bool a b = true /\ (a <= b)%Q \/ Qle_bool a b = false /\ (b < a)%Q) as Hle.
  { intros a b. destruct (Qle_bool a b) eqn:H; [left; split; [done|by apply Qle_bool_iff]|right].
    split; [done|]. apply Qnot_le_lt. rewrite <-Qle_bool_iff, H. done. }
  unfold best. cbn [map].
  destruct (Hpos Br) as [[E1 H1]|[E1 H1]], (Hpos Gzip) as [[E2 H2]|[E2 H2]],
    (Hpos Identity) as [[E3 H3]|[E3 H3]];
    repeat first [rewrite filter_cons_True by (cbn [snd]; congruence)
                 |rewrite filter_cons_False by (cbn [snd]; congruence)];
    rewrite filter_nil; cbn [sort_candidates insert_candidate snd fst];
    repeat match goal with |- context [Qle_bool ?a ?b] =>
      let E := fresh "E" in let H := fresh "H" in destruct (Hle a b) as [[E H]|[E H]]; rewrite ?E in *;
      cbn [sort_candidates insert_candidate snd fst] end;
    cbn [fst snd]; repeat split; (done || intros c; destruct c; cbn; intros; (lia || lra)).
Qed.

Lemma negotiation_best acceptEncoding :
  match negotiateContentEncoding acceptEncoding with
  | Negotiated c ok =>
      best (preference acceptEncoding) c /\ (ok = true <-> (0 < preference acceptEncoding Identity)%Q)
  | NotAcceptable => forall c, (preference acceptEncoding c <= 0)%Q
  end.
Proof.
  unfold negotiateContentEncoding. set (header := or_else acceptEncoding "").
  destruct (js_trim header) as [|ch s] eqn:Htrim.
  - unfold preference. fold header. rewrite Htrim. cbn. split; [|done].
    split; [done|]. split; [by intros []|]. intros []; cbn; [done|done|lia].
  - assert (js_trim header <> "") as Hne by by rewrite Htrim.
    assert (forall c, candidate_q (parseAcceptEncoding header) c = preference acceptEncoding c) as Hq.
    { intros c. rewrite candidate_preference by done. unfold preference. by fold header. }
    pose proof (selected_best (candidate_q (parseAcceptEncoding header))) as Hb.
    destruct (sort_candidates _) as [|selected l].
    + intros c. rewrite <-Hq. apply Hb.
    + rewrite <-Hq, positive_spec. split; [|done].
      destruct Hb as (H1 & H2 & H3). unfold best. split_and!; intros *; rewrite <-!Hq; auto.
Qed.

(** ** Headers *)

Lemma getHeader_cons key kv hs n b :
  response_getHeader key {| r_headers := kv :: hs; statusCode := n; compressionDisabled := b |} =
  (if decide (to_lower kv.1 = to_lower key) then kv.2 else []) ++
  response_getHeader key {| r_headers := hs; statusCode := n; compressionDisabled := b |}.
Proof.
  unfold response_getHeader. cbn [r_headers]. destruct (decide _) as [H|H].
  - rewrite filter_cons_True by done. done.
  - rewrite filter_cons_False by done. done.
Qed.

Lemma getHeader_setHeader key v r :
  response_getHeader key r = [] -> response_getHeader key (setHeader key v r) = [v].
Proof.
  destruct r as [hs n b]. unfold setHeader. cbn [r_headers statusCode compressionDisabled].
  induction hs as [|[k vs] hs IH]; intros H.
  - cbn [put_header]. rewrite getHeader_cons. cbn [fst snd]. by destruct (decide _).
  - rewrite getHeader_cons in H. apply app_nil in H as [Hk Hhs]. cbn [fst snd] in Hk.
    cbn [put_header]. destruct (decide (k = key)) as [->|Hne].
    + rewrite getHeader_cons. cbn [fst snd]. destruct (decide _); [|done]. by rewrite Hhs.
    + rewrite getHeader_cons. cbn [fst snd]. rewrite IH by done.
      destruct (decide (to_lower k = to_lower key)); [by rewrite Hk|done].
Qed.

Lemma getHeader_setHeader_other key key' v r :
  to_lower key <> to_lower key' -> response_getHeader key (setHeader key' v r) = response_getHeader key r.
Proof.
  destruct r as [hs n b]. unfold setHeader. cbn [r_headers statusCode compressionDisabled].
  intros Hne. induction hs as [|[k vs] hs IH]; cbn [put_header].
  - rewrite getHeader_cons. cbn [fst snd]. by destruct (decide _).
  - destruct (decide (k = key')) as [->|Hk].
    + rewrite !getHeader_cons. cbn [fst snd]. by destruct (decide _).
    + rewrite !getHeader_cons. by rewrite IH.
Qed.

(** The Vary header is the only one the negotiation changes. *)
Lemma getHeader_vary key r :
  to_lower key <> "vary" -> response_getHeader key (addAcceptEncodingToVary r) = response_getHeader key r.
Proof.
  intros Hne. unfold addAcceptEncodingToVary. destruct (add_to_vary (r_headers r)) as [hs'|] eqn:Hv.
  - destruct r as [hs n b]. cbn [r_headers statusCode compressionDisabled] in *. revert hs' Hv.
    induction hs as [|[k vs] hs IH]; intros hs'; cbn [add_to_vary]; [done|].
    destruct (decide (to_lower k = "vary")) as [Hk|Hk].
    + destruct (_ || _); [by intros [= <-]|]. destruct vs as [|v vs]; intros [= <-]; [done|].
      rewrite !getHeader_cons. cbn [fst snd]. destruct (decide _); [congruence|done].
    + destruct (add_to_vary hs) as [hs2|] eqn:Hhs; [|done]. intros [= <-].
      rewrite !getHeader_cons. by rewrite (IH hs2).
  - apply getHeader_setHeader_other. exact Hne.
Qed.

Section outcome.
Context (brotliCompress gzip : Z -> string -> string).

(** The body a coding stands for. *)
Definition encode (compression : compression_configuration) (c : coding) (body : string) : string :=
  match c with
  | Br => brotliCompress (brotliQuality compression) body
  | Gzip => gzip (gzipLevel compression) body
  | Identity => body
  end.

(** C12: what an enabled compression answers is acceptable to the client. A body
    sent as it is has an acceptable identity; a compressed one is encoded with
    the client's best coding (the server's order breaking ties), is announced in
    [Content-Encoding], and is not one that had to be left alone or was small
    enough to be sent as it is; a refusal means that identity is refused and that
    no coding could be used. *)
Theorem response_is_acceptable body compression header r :
  enabled compression = true -> response_getHeader "Content-Encoding" r = [] ->
  let q := preference (header "accept-encoding") in
  let '(out, r') := applyResponseCompression brotliCompress gzip body compression header r in
  match out with
  | IdentityOutcome => (0 < q Identity)%Q /\ response_getHeader "Content-Encoding" r' = []
  | CompressedOutcome body' =>
      transformable header r = true /\
      exists c, c <> Identity /\ best q c /\ body' = encode compression c body /\
        response_getHeader "Content-Encoding" r' = [coding_name c] /\
        (threshold compression <= Z.of_nat (length body) \/ (q Identity <= 0)%Q)
  | NotAcceptableOutcome =>
      (q Identity <= 0)%Q /\ r' = r /\ (transformable header r = false \/ forall c, (q c <= 0)%Q)
  end.
Proof.
  intros Hen Hce q. unfold applyResponseCompression. rewrite Hen, Hce. cbn [negb].
  pose proof (negotiation_best (header "accept-encoding")) as Hn. fold q in Hn.
  destruct (negotiateContentEncoding _) as [c ok|]; [|split_and!; auto].
  destruct Hn as [Hbest Hok].
  assert (response_getHeader "Content-Encoding" (addAcceptEncodingToVary r) = []) as Hvary
    by (rewrite getHeader_vary; done).
  destruct (transformable header r) eqn:Ht; cbn [negb]; last first.
  { destruct ok; [split; [by apply Hok|done]|]. split_and!; [|done|by left].
    apply Qnot_lt_le. intros H. apply Hok in H. done. }
  destruct (decide (c = Identity)) as [->|Hc]; [split; [apply Hbest|done]|].
  destruct ((Z.of_nat (length body) <? threshold compression) && ok) eqn:Hsmall.
  - apply andb_true_iff in Hsmall as [_ ->]. destruct c; [| |done]; (split; [by apply Hok|done]).
  - assert (threshold compression <= Z.of_nat (length body) \/ (q Identity <= 0)%Q) as Hsize.
    { apply andb_false_iff in Hsmall as [H|H]; [left; by apply Z.ltb_ge|right].
      apply Qnot_lt_le. intros Hi. apply Hok in Hi. congruence. }
    destruct c; [| |done]; (split; [done|]); [exists Br|exists Gzip];
      split_and!; try done; by apply getHeader_setHeader.
Qed.
End outcome.

(** ** Examples *)

Definition example_response : response :=
  {| r_headers := [("Content-Type", ["text/html; charset=UTF-8"]); ("vary", ["Origin"])];
     statusCode := 200; compressionDisabled := false |}.

Definition example_configuration : compression_configuration :=
  {| enabled := true; threshold := 4; brotliQuality := 5; gzipLevel := 6 |}.

Definition example_accept (name : string) : option string :=
  if decide (name = "accept-encoding") then Some "br;q=0.5, GZIP; q=0.8, *;q=0.1" else None.

Lemma response_is_acceptable_witness :
  applyResponseCompression (fun _ b => "br:" +:+ b) (fun _ b => "gz:" +:+ b) "<html>" example_configuration
    example_accept example_response =
    (CompressedOutcome "gz:<html>",
     {| r_headers := [("Content-Type", ["text/html; charset=UTF-8"]); ("vary", ["Origin, Accept-Encoding"]);
                      ("Content-Encoding", ["gzip"])];
        statusCode := 200; compressionDisabled := false |}) /\
  let q := preference (example_accept "accept-encoding") in
  exists c, c <> Identity /\ best q c /\
    "gz:<html>" = encode (fun _ b => "br:" +:+ b) (fun _ b => "gz:" +:+ b) example_configuration c "<html>".
Proof.
  assert (applyResponseCompression (fun _ b => "br:" +:+ b) (fun _ b => "gz:" +:+ b) "<html>" example_configuration
    example_accept example_response =
    (CompressedOutcome "gz:<html>",
     {| r_headers := [("Content-Type", ["text/html; charset=UTF-8"]); ("vary", ["Origin, Accept-Encoding"]);
                      ("Content-Encoding", ["gzip"])];
        statusCode := 200; compressionDisabled := false |})) as Hrun by (vm_compute; reflexivity).
  split; [exact Hrun|].
  pose proof (response_is_acceptable (fun _ b => "br:" +:+ b) (fun _ b => "gz:" +:+ b) "<html>"
    example_configuration example_accept example_response eq_refl eq_refl) as H.
  cbv zeta in H. rewrite Hrun in H. destruct H as (_ & c & Hc & Hb & He & _). exists c. auto.
Defined.
