(* ===== verification/ClientDeliveryQueue.v ===== *)
(** * The delivery queue of a client ([src/src/http-server/client-delivery-queue.js])

    Both worker handlers deliver the output of a connection through one queue per
    client: one delivery at a time, in the order of the calls, with a limit on the
    frames and bytes it retains. A call returns a promise, settled when its delivery
    ends or the queue is destroyed.

    A task is told apart from others by its number, the order in which it was
    accepted. A delivery is asynchronous code ([client.send] and the like): it returns
    its promise, and what it does later are further steps. The overflow handler of the
    application runs inside [enqueueFrame] and may call the queue: it is a parameter,
    a list of such calls. *)

From stdpp Require Import base list relations.
From Stdlib Require Import ZArith Lia.
From S2P Require Import Prelude.

Inductive outcome := Resolved | Rejected (error : nat).

Record DeliveryTask := {
  task_number : nat;
  byteLength : Z;
  countedFrame : bool
}.

(** [settled] are the promises settled so far, [started] the deliveries called. *)
Record queue := {
  tasks : list DeliveryTask;
  activeTask : option DeliveryTask;
  pendingBytes : Z;
  pendingFrames : Z;
  destroyed : bool;
  accepted : list DeliveryTask;
  started : list DeliveryTask;
  settled : list (DeliveryTask * outcome)
}.

Definition new_queue : queue := {|
  tasks := []; activeTask := None; pendingBytes := 0; pendingFrames := 0; destroyed := false;
  accepted := []; started := []; settled := [] |}.

(** What a call of [enqueueFrame] or [enqueueControl] returns: a promise that is
    resolved already, the promise of a task, or one rejected with the overflow. *)
Inductive enqueued :=
| ResolvedAtOnce
| PromiseOf (number : nat)
| Overflow (pending_bytes pending_frames rejected_bytes : Z).

Section queue.
Context (maxBytes maxFrames : Z).

Definition settle (ts : list (DeliveryTask * outcome)) (q : queue) : queue := {|
  tasks := tasks q; activeTask := activeTask q; pendingBytes := pendingBytes q;
  pendingFrames := pendingFrames q; destroyed := destroyed q; accepted := accepted q;
  started := started q; settled := settled q ++ ts |}.

Definition _drain (q : queue) : queue :=
  if destroyed q then q else
  match activeTask q, tasks q with
  | Some _, _ | None, [] => q
  | None, task :: rest => {|
      tasks := rest; activeTask := Some task; pendingBytes := pendingBytes q;
      pendingFrames := pendingFrames q; destroyed := destroyed q; accepted := accepted q;
      started := started q ++ [task]; settled := settled q |}
  end.

Definition _enqueue (bytes : Z) (counted : bool) (q : queue) : queue * enqueued :=
  let task := {| task_number := length (accepted q); byteLength := bytes; countedFrame := counted |} in
  (_drain {| tasks := tasks q ++ [task]; activeTask := activeTask q; pendingBytes := pendingBytes q;
     pendingFrames := pendingFrames q; destroyed := destroyed q; accepted := accepted q ++ [task];
     started := started q; settled := settled q |},
   PromiseOf (task_number task)).

(** [this.activeTask ? [this.activeTask, ...this.tasks] : this.tasks] *)
Definition retained (q : queue) : list DeliveryTask :=
  match activeTask q with Some task => task :: tasks q | None => tasks q end.

Definition destroy (q : queue) : queue :=
  if destroyed q then q else
  settle (map (fun task => (task, Resolved)) (retained q)) {|
    tasks := []; activeTask := None; pendingBytes := 0; pendingFrames := 0; destroyed := true;
    accepted := accepted q; started := started q; settled := settled q |}.

Definition enqueueControl (q : queue) : queue * enqueued :=
  if destroyed q then (q, ResolvedAtOnce) else _enqueue 0 false q.

Definition overflows (bytes : Z) (q : queue) : bool :=
  (maxFrames <? pendingFrames q + 1) || (maxBytes <? pendingBytes q + bytes).

Definition count_frame (bytes : Z) (q : queue) : queue := {|
  tasks := tasks q; activeTask := activeTask q; pendingBytes := pendingBytes q + bytes;
  pendingFrames := pendingFrames q + 1; destroyed := destroyed q; accepted := accepted q;
  started := started q; settled := settled q |}.

Definition enqueueFrame (onOverflow : queue -> queue) (bytes : Z) (q : queue) : queue * enqueued :=
  if destroyed q then (q, ResolvedAtOnce) else
  if overflows bytes q then
    (onOverflow q, Overflow (pendingBytes q) (pendingFrames q) bytes)
  else _enqueue bytes true (count_frame bytes q).

Definition uncount (task : DeliveryTask) (q : queue) : queue := {|
  tasks := tasks q; activeTask := None;
  pendingBytes := if countedFrame task then pendingBytes q - byteLength task else pendingBytes q;
  pendingFrames := if countedFrame task then pendingFrames q - 1 else pendingFrames q;
  destroyed := destroyed q; accepted := accepted q; started := started q; settled := settled q |}.

(** The delivery of the task with this number has ended. *)
Definition _finish (number : nat) (o : outcome) (q : queue) : queue :=
  if destroyed q then q else
  match activeTask q with
  | Some task =>
      if decide (task_number task = number) then _drain (settle [(task, o)] (uncount task q)) else q
  | None => q
  end.

(** The handler of both worker handlers destroys the queue (and the socket). *)
Definition overflow_of_handlers (q : queue) : queue := destroy q.

(** The calls of the application and the ends of deliveries, in any order. An overflow
    changes nothing itself: what its handler calls are further steps. *)
Inductive step : queue -> queue -> Prop :=
| step_frame bytes q : 0 <= bytes -> step q (enqueueFrame (fun q => q) bytes q).1
| step_control q : step q (enqueueControl q).1
| step_destroy q : step q (destroy q)
| step_finish number o q : step q (_finish number o q).

Lemma handlers_steps bytes q : 0 <= bytes ->
  rtc step q (enqueueFrame overflow_of_handlers bytes q).1.
Proof.
  intros Hb. pose proof (step_frame bytes q Hb) as Hs. unfold enqueueFrame in *.
  destruct (destroyed q); [done|]. destruct (overflows bytes q).
  - apply rtc_once, step_destroy.
  - by apply rtc_once.
Qed.

(** ** The invariant *)

Definition frame_bytes (task : DeliveryTask) : Z := if countedFrame task then byteLength task else 0.
Definition frame_count (task : DeliveryTask) : Z := if countedFrame task then 1 else 0.
Definition sum_of (f : DeliveryTask -> Z) (l : list DeliveryTask) : Z := foldr (fun t n => f t + n) 0 l.

Lemma sum_of_app f l l' : sum_of f (l ++ l') = sum_of f l + sum_of f l'.
Proof. unfold sum_of. induction l as [|x l IH]; cbn; lia. Qed.

Definition as_list (o : option DeliveryTask) : list DeliveryTask :=
  match o with Some t => [t] | None => [] end.

Lemma retained_split q : retained q = as_list (activeTask q) ++ tasks q.
Proof. unfold retained. by destruct (activeTask q). Qed.

(** Everything accepted is settled or retained, in that order; until the queue is
    destroyed, everything started is settled or active. *)
Record sound (q : queue) : Prop := {
  numbers : map task_number (accepted q) = seq 0 (length (accepted q));
  in_order : accepted q = map fst (settled q) ++ retained q;
  serial : destroyed q = false -> started q = map fst (settled q) ++ as_list (activeTask q);
  starts_prefix : started q `prefix_of` accepted q;
  bytes_nonneg : Forall (fun t => 0 <= byteLength t) (accepted q);
  bytes_exact : pendingBytes q = sum_of frame_bytes (retained q);
  frames_exact : pendingFrames q = sum_of frame_count (retained q);
  bytes_bounded : pendingBytes q <= Z.max 0 maxBytes;
  frames_bounded : pendingFrames q <= Z.max 0 maxFrames;
  nothing_left : destroyed q = true -> retained q = []
}.

(** Nothing waits while no delivery runs. *)
Definition busy (q : queue) : Prop := activeTask q = None -> tasks q = [].

Lemma drain_sound q : sound q -> sound (_drain q) /\ busy (_drain q).
Proof.
  intros Hq. unfold _drain, busy. destruct (destroyed q) eqn:Hd.
  - split; [done|]. pose proof (nothing_left q Hq Hd) as Hl. rewrite retained_split in Hl.
    by apply app_eq_nil in Hl as [_ ?].
  - destruct (activeTask q) as [t|] eqn:Ha; [split; [done|by rewrite Ha]|].
    destruct (tasks q) as [|t rest] eqn:Ht; [by split|]. split; [|done].
    destruct Hq as [Hn Ho Hs Hp Hb He Hf Hbb Hfb Hl]. specialize (Hs Hd).
    unfold retained in *. rewrite Ha, Ht in *. cbn in Hs. rewrite app_nil_r in Hs.
    constructor; cbn; try done.
    + by rewrite Hs.
    + rewrite Hs, Ho. by exists rest; rewrite <- app_assoc.
Qed.

Lemma enqueue_sound bytes counted q : sound q -> destroyed q = false -> 0 <= bytes ->
  (counted = false -> bytes = 0) ->
  pendingFrames q + (if counted then 1 else 0) <= Z.max 0 maxFrames ->
  pendingBytes q + bytes <= Z.max 0 maxBytes ->
  let q' := (_enqueue bytes counted (if counted then count_frame bytes q else q)).1 in
  sound q' /\ busy q'.
Proof.
  intros [Hn Ho Hs Hp Hb He Hf Hbb Hfb Hl] Hd Hb0 Hc Hframes Hbytes. unfold _enqueue. cbn zeta. apply drain_sound.
  set (q1 := if counted then count_frame bytes q else q).
  assert (activeTask q1 = activeTask q /\ tasks q1 = tasks q /\ accepted q1 = accepted q /\
    started q1 = started q /\ settled q1 = settled q /\ destroyed q1 = false /\
    pendingBytes q1 = pendingBytes q + bytes /\
    pendingFrames q1 = pendingFrames q + (if counted then 1 else 0)) as (Ea & Et & Eac & Es & Ese & Ed & Eb & Ef).
  { unfold q1. destruct counted; cbn; [by rewrite Hd|]. rewrite Hc by done. split_and!; try done; lia. }
  set (task := {| task_number := length (accepted q1); byteLength := bytes; countedFrame := counted |}).
  constructor; rewrite ?retained_split; cbn; rewrite ?Ea, ?Et, ?Eac, ?Es, ?Ese, ?Ed, ?Eb, ?Ef; try done.
  - rewrite map_app, length_app, seq_app, Hn. by unfold task; rewrite Eac.
  - by rewrite Ho, retained_split, <- !app_assoc.
  - intros _. by apply Hs.
  - etrans; [exact Hp|]. by eexists.
  - apply Forall_app. split; [done|]. by repeat constructor.
  - rewrite app_assoc, sum_of_app, <- retained_split, He. unfold task, frame_bytes at 3. cbn.
    destruct counted; [lia|]. rewrite Hc by done. lia.
  - rewrite app_assoc, sum_of_app, <- retained_split, Hf. unfold task, frame_count at 3. cbn.
    destruct counted; lia.
Qed.

Lemma finish_sound number o q : sound q -> busy q -> sound (_finish number o q) /\ busy (_finish number o q).
Proof.
  intros Hq Hbusy. unfold _finish. destruct (destroyed q) eqn:Hd; [done|].
  destruct (activeTask q) as [t|] eqn:Ha; [|by split]. case_decide; [|by split].
  apply drain_sound. destruct Hq as [Hn Ho Hs Hp Hb He Hf Hbb Hfb Hl]. specialize (Hs Hd).
  rewrite retained_split, Ha in *. cbn in Ho, He, Hf, Hs.
  assert (0 <= byteLength t) as Ht.
  { rewrite Ho in Hb. rewrite Forall_forall in Hb. apply Hb. apply elem_of_app. right. by left. }
  constructor; rewrite ?retained_split; cbn; try done.
  - by rewrite map_app, Ho, <- app_assoc.
  - intros _. by rewrite map_app, app_nil_r.
  - unfold frame_bytes in He at 1. destruct (countedFrame t); lia.
  - unfold frame_count in Hf at 1. destruct (countedFrame t); lia.
  - destruct (countedFrame t); lia.
  - destruct (countedFrame t); lia.
  - by rewrite Hd.
Qed.

Lemma destroy_sound q : sound q -> busy q -> sound (destroy q) /\ busy (destroy q).
Proof.
  intros Hq Hbusy. unfold destroy. destruct (destroyed q) eqn:Hd; [done|]. split; [|done].
  destruct Hq as [Hn Ho Hs Hp Hb He Hf Hbb Hfb Hl]. constructor; cbn; try done; try lia.
  by rewrite map_app, map_map, map_id, app_nil_r.
Qed.

Lemma step_sound q q' : step q q' -> sound q /\ busy q -> sound q' /\ busy q'.
Proof.
  intros Hstep [Hq Hb]. destruct Hstep as [bytes q Hbytes|q|q|number o q].
  - unfold enqueueFrame. destruct (destroyed q) eqn:Hd; [done|]. destruct (overflows bytes q) eqn:Ho; [done|].
    apply orb_false_iff in Ho as [Hf Hby]. apply (enqueue_sound bytes true); try done; lia.
  - unfold enqueueControl. destruct (destroyed q) eqn:Hd; [done|].
    apply (enqueue_sound 0 false); try done; [pose proof (frames_bounded q Hq)|pose proof (bytes_bounded q Hq)]; lia.
  - by apply destroy_sound.
  - by apply finish_sound.
Qed.

Lemma reachable_sound q : rtc step new_queue q -> sound q /\ busy q.
Proof.
  intros Hr. assert (sound new_queue /\ busy new_queue) as Hinit.
  { split; [|done]. constructor; cbn; try done; lia. }
  revert Hinit. induction Hr; [done|]. intros H1. by apply IHHr, (step_sound x).
Qed.
Lemma destroyed_stays q q' : destroyed q = true -> step q q' -> q' = q.
Proof.
  intros Hd Hs. destruct Hs; unfold enqueueFrame, enqueueControl, destroy, _finish; by rewrite Hd.
Qed.

(** The delivery that runs ends. *)
Definition finish_active (q : queue) (o : outcome) : queue :=
  match activeTask q with Some task => _finish (task_number task) o q | None => q end.

Lemma finish_active_settles q o t rest : sound q -> busy q -> destroyed q = false ->
  retained q = t :: rest ->
  retained (finish_active q o) = rest /\ settled (finish_active q o) = settled q ++ [(t, o)] /\
  destroyed (finish_active q o) = false.
Proof.
  intros Hq Hbusy Hd. rewrite retained_split. unfold finish_active.
  destruct (activeTask q) as [a|] eqn:Ha; cbn.
  - intros [= -> Ht]. unfold _finish. rewrite Hd, Ha, decide_True by done.
    unfold _drain. cbn. rewrite Hd, Ht. by destruct rest.
  - rewrite Hbusy; done.
Qed.

Lemma finish_all q os : sound q -> busy q -> destroyed q = false ->
  length os = length (retained q) ->
  let q' := fold_left finish_active os q in
  retained q' = [] /\ settled q' = settled q ++ zip (retained q) os.
Proof.
  revert q. induction os as [|o os IH]; intros q Hq Hb Hd Hlen.
  - destruct (retained q) eqn:Hr; [|done]. cbn. by rewrite app_nil_r.
  - destruct (retained q) as [|t rest] eqn:Hr; [done|].
    destruct (finish_active_settles q o t rest Hq Hb Hd Hr) as (H1 & H2 & H3).
    assert (sound (finish_active q o) /\ busy (finish_active q o)) as [Hq' Hb'].
    { unfold finish_active. destruct (activeTask q); [by apply finish_sound|done]. }
    cbn [fold_left]. destruct (IH _ Hq' Hb' H3) as [H4 H5]; [rewrite H1; cbn in Hlen; lia|].
    split; [done|]. by rewrite H5, H2, H1, <- app_assoc.
Qed.

Lemma sum_of_nonneg f l : (forall t, t ∈ l -> 0 <= f t) -> 0 <= sum_of f l.
Proof.
  induction l as [|t l IH]; intros H; cbn; [lia|].
  assert (0 <= f t) by (apply H; left). assert (0 <= sum_of f l) by (apply IH; intros; apply H; by right).
  unfold sum_of in *. lia.
Qed.
End queue.

(** C24: whatever is enqueued, whichever deliveries end and in whatever order the calls
    come: deliveries start in the order of the calls, each after those before it have
    ended; every promise is settled at most once and in order; the accounting is that
    of the frames retained and stays within the limits; nothing waits while no delivery
    runs, and when the retained deliveries end their promises are settled with their
    outcomes. A destroyed queue has settled every promise and never changes again. *)
Theorem deliveries_are_serial maxBytes maxFrames q :
  0 <= maxBytes -> 0 <= maxFrames -> rtc (step maxBytes maxFrames) new_queue q ->
  map task_number (accepted q) = seq 0 (length (accepted q)) /\
  accepted q = map fst (settled q) ++ retained q /\
  started q `prefix_of` accepted q /\
  0 <= pendingBytes q <= maxBytes /\ pendingBytes q = sum_of frame_bytes (retained q) /\
  0 <= pendingFrames q <= maxFrames /\ pendingFrames q = sum_of frame_count (retained q) /\
  (destroyed q = false ->
    started q = map fst (settled q) ++ as_list (activeTask q) /\
    (activeTask q = None -> tasks q = []) /\
    forall os, length os = length (retained q) ->
      let q' := fold_left finish_active os q in
      retained q' = [] /\ settled q' = settled q ++ zip (retained q) os) /\
  (destroyed q = true ->
    map fst (settled q) = accepted q /\ forall q', rtc (step maxBytes maxFrames) q q' -> q' = q).
Proof.
  intros Hmb Hmf Hr. destruct (reachable_sound _ _ q Hr) as [Hq Hb].
  pose proof Hq as [Hn Ho Hs Hp Hnn He Hf Hbb Hfb Hl].
  assert (forall t, t ∈ retained q -> 0 <= byteLength t) as Hret.
  { intros t Ht. rewrite Forall_forall in Hnn. apply Hnn. rewrite Ho. apply elem_of_app. by right. }
  assert (0 <= pendingBytes q) by (rewrite He; apply sum_of_nonneg; intros t Ht; unfold frame_bytes;
    specialize (Hret t Ht); destruct (countedFrame t); lia).
  assert (0 <= pendingFrames q) by (rewrite Hf; apply sum_of_nonneg; intros t _; unfold frame_count;
    destruct (countedFrame t); lia).
  split_and!; try done; try lia.
  - intros Hd. split; [auto|]. split; [done|]. intros os Hos. by apply (finish_all maxBytes maxFrames).
  - intros Hd. split; [by rewrite Ho, Hl, app_nil_r|]. intros q' Hq'.
    induction Hq' as [|x y z Hxy _ IH]; [done|]. apply destroyed_stays in Hxy as ->; auto.
Qed.

(** Two frames and a control message, the second frame over the limit; then the first
    delivery fails. *)
Definition demo_queue : queue :=
  let q := (enqueueFrame 10 2 overflow_of_handlers 6 new_queue).1 in
  let q := (enqueueControl q).1 in
  let q := (enqueueFrame 10 2 (fun q => q) 5 q).1 in
  _finish 0 (Rejected 7) q.

Lemma deliveries_are_serial_witness :
  rtc (step 10 2) new_queue demo_queue /\ pendingFrames demo_queue = 0 /\
  map task_number (started demo_queue) = [0; 1]%nat /\
  settled (fold_left finish_active [Resolved] demo_queue) =
    settled demo_queue ++ zip (retained demo_queue) [Resolved].
Proof.
  assert (rtc (step 10 2) new_queue demo_queue) as Hr.
  { etrans; [apply (handlers_steps 10 2 6); lia|].
    eapply rtc_l; [apply step_control|]. eapply rtc_l; [apply (step_frame 10 2 5); lia|].
    apply rtc_once, step_finish. }
  split; [exact Hr|]. split; [reflexivity|]. split; [reflexivity|].
  destruct (deliveries_are_serial 10 2 demo_queue) as (_ & _ & _ & _ & _ & _ & _ & Hlive & _); [lia|lia|exact Hr|].
  destruct (Hlive eq_refl) as (_ & _ & Hall). by apply (Hall [Resolved]).
Defined.

(** The frame that does not fit: the handlers destroy the queue, and the promises of the
    frames that were never sent are resolved. *)
Example overflow_resolves_retained :
  let q := (enqueueFrame 10 2 overflow_of_handlers 6 new_queue).1 in
  let r := enqueueFrame 10 2 overflow_of_handlers 5 q in
  r.2 = Overflow 6 1 5 /\ map snd (settled r.1) = [Resolved] /\ destroyed r.1 = true.
Proof. done. Qed.
