(* ===== verification/WebsocketFrames.v ===== *)
(** * WebSocket frames ([src/src/http-server/client/websocket-session.js])

    The byte level of a session: [onData] takes the chunks a socket delivers,
    [_processBuffer] reads frames (RFC 6455) from a queue of chunks, answers control
    frames, puts fragments together, and admits each complete text message within the
    limits of the inbound backlog. [WebsocketDispatch.v] is what becomes of the messages.

    A byte is an integer. [ByteQueue] is what the parser needs of its buffer: [ChunkQueue]
    is the buffer of the code, a list of chunks with a read position; a list of bytes is
    its specification. Parameters: UTF-8 (Node's [Buffer]), the limits of the
    configuration, and whether the session has something to resume. What is written,
    dispatched and closed is the [trace]. *)

From stdpp Require Import base strings list.
From Stdlib Require Import ZArith Ascii Lia.
From S2P Require Import Prelude Json.
Open Scope Z_scope.

Abbreviation bytes := (list Z).

Definition WEBSOCKET_FINAL_FRAME : Z := 0x80.
Definition WEBSOCKET_OPCODE_CONTINUATION : Z := 0x0.
Definition WEBSOCKET_OPCODE_TEXT : Z := 0x1.
Definition WEBSOCKET_OPCODE_BINARY : Z := 0x2.
Definition WEBSOCKET_OPCODE_CLOSE : Z := 0x8.
Definition WEBSOCKET_OPCODE_PING : Z := 0x9.
Definition WEBSOCKET_OPCODE_PONG : Z := 0xA.
Definition WEBSOCKET_CLOSE_POLICY_VIOLATION : Z := 1008.
Definition WEBSOCKET_PAUSED_QUEUE_CAP : nat := 1000.
Definition WEBSOCKET_MAX_FRAGMENTED_MESSAGE_BYTES : Z := 16 * 1024 * 1024.
Definition WEBSOCKET_MAX_FINAL_FRAME_BYTES : Z := WEBSOCKET_MAX_FRAGMENTED_MESSAGE_BYTES.
Definition WEBSOCKET_MAX_FRAGMENTED_MESSAGE_FRAGMENTS : nat := 1024.

(** ** The buffer *)

Class ByteQueue (Q : Type) := {
  buffered : Q -> nat;                     (* _bufferedBytes *)
  peek : nat -> Q -> bytes;                (* _peekBufferedBytes *)
  consume : nat -> Q -> bytes * Q;         (* _consumeBufferedBytes *)
  push : bytes -> Q -> Q;
  cleared : Q -> Q                         (* _clearBufferedFrameChunks *)
}.

Record chunk_queue := {
  bufferChunks : list bytes;
  bufferChunkIndex : nat;
  bufferChunkOffset : nat;
  bufferedBytes : nat
}.

Fixpoint peek_chunks (byteCount chunkOffset : nat) (chunks : list bytes) : bytes :=
  match chunks with
  | [] => []
  | chunk :: chunks =>
      let bytesFromChunk := Nat.min (length chunk - chunkOffset) byteCount in
      take bytesFromChunk (drop chunkOffset chunk) ++
      (if decide (bytesFromChunk = byteCount) then [] else peek_chunks (byteCount - bytesFromChunk) 0 chunks)
  end.

Definition _peekBufferedBytes (byteCount : nat) (q : chunk_queue) : bytes :=
  peek_chunks byteCount (bufferChunkOffset q) (drop (bufferChunkIndex q) (bufferChunks q)).

(** The loop of [_consumeBufferedBytes]: the copied bytes, the new index and offset. *)
Fixpoint consume_chunks (byteCount index chunkOffset : nat) (chunks : list bytes) : bytes * (nat * nat) :=
  if decide (byteCount = 0%nat) then ([], (index, chunkOffset)) else
  match chunks with
  | [] => ([], (index, chunkOffset))
  | chunk :: chunks =>
      let bytesFromChunk := Nat.min (length chunk - chunkOffset) byteCount in
      let '(index', offset') :=
        if decide (chunkOffset + bytesFromChunk = length chunk)%nat then (S index, 0%nat)
        else (index, (chunkOffset + bytesFromChunk)%nat) in
      let rest :=
        if decide (chunkOffset + bytesFromChunk = length chunk)%nat
        then consume_chunks (byteCount - bytesFromChunk) index' offset' chunks
        else ([], (index', offset')) in
      (take bytesFromChunk (drop chunkOffset chunk) ++ rest.1, rest.2)
  end.

Definition _consumeBufferedBytes (byteCount : nat) (q : chunk_queue) : bytes * chunk_queue :=
  let '(result, (index, offset)) :=
    consume_chunks byteCount (bufferChunkIndex q) (bufferChunkOffset q) (drop (bufferChunkIndex q) (bufferChunks q)) in
  let '(chunks, index) :=
    if decide (index = length (bufferChunks q)) then ([], 0%nat)
    else if decide (64 <= index /\ length (bufferChunks q) <= index * 2)%nat
    then (drop index (bufferChunks q), 0%nat)
    else (bufferChunks q, index) in
  (result, {| bufferChunks := chunks; bufferChunkIndex := index; bufferChunkOffset := offset;
              bufferedBytes := bufferedBytes q - byteCount |}).

#[export] Instance ChunkQueue : ByteQueue chunk_queue := {|
  buffered := bufferedBytes;
  peek := _peekBufferedBytes;
  consume := _consumeBufferedBytes;
  push data q := {| bufferChunks := bufferChunks q ++ [data]; bufferChunkIndex := bufferChunkIndex q;
    bufferChunkOffset := bufferChunkOffset q; bufferedBytes := bufferedBytes q + length data |};
  cleared _ := {| bufferChunks := []; bufferChunkIndex := 0; bufferChunkOffset := 0; bufferedBytes := 0 |}
|}.

(** The specification of the buffer. *)
#[export] Instance FlatQueue : ByteQueue bytes := {|
  buffered := length; peek := take; consume n b := (take n b, drop n b);
  push data b := b ++ data; cleared _ := []
|}.

(** ** Frames *)

(** [readUInt16BE], [readBigUInt64BE] *)
Definition read_big_endian (b : bytes) : Z := fold_left (fun n x => n * 256 + x) b 0.

Definition byte_at (i : nat) (b : bytes) : Z := nth i b 0.

Inductive header :=
| HeaderIncomplete
| HeaderTooLarge
| Header (isFinal : bool) (opcode : Z) (isMasked : bool) (offset payloadLength : nat).

(** [_unmaskPayload] *)
Definition _unmaskPayload (payload mask : bytes) : bytes :=
  imap (fun i x => Z.lxor x (byte_at (i mod 4)%nat mask)) payload.

Inductive frame Q :=
| FrameIncomplete
| FrameTooLarge
| Frame (isFinal : bool) (opcode : Z) (payload : bytes) (rest : Q).
Arguments FrameIncomplete {Q}.
Arguments FrameTooLarge {Q}.
Arguments Frame {Q} isFinal opcode payload rest.

Section read.
Context {Q : Type} `{!ByteQueue Q}.

Definition read_header (q : Q) : header :=
  if decide (buffered q < 2)%nat then HeaderIncomplete else
  let firstByte := byte_at 0 (peek 2 q) in
  let secondByte := byte_at 1 (peek 2 q) in
  let isFinal := Z.land firstByte WEBSOCKET_FINAL_FRAME =? WEBSOCKET_FINAL_FRAME in
  let opcode := Z.land firstByte 0x0F in
  let isMasked := Z.land secondByte 0x80 =? 0x80 in
  let payloadLength := Z.land secondByte 0x7F in
  if payloadLength =? 126 then
    if decide (buffered q < 4)%nat then HeaderIncomplete else
    Header isFinal opcode isMasked 4 (Z.to_nat (read_big_endian (drop 2 (peek 4 q))))
  else if payloadLength =? 127 then
    if decide (buffered q < 10)%nat then HeaderIncomplete else
    let bigLength := read_big_endian (drop 2 (peek 10 q)) in
    if WEBSOCKET_MAX_FINAL_FRAME_BYTES <? bigLength then HeaderTooLarge else
    Header isFinal opcode isMasked 10 (Z.to_nat bigLength)
  else Header isFinal opcode isMasked 2 (Z.to_nat payloadLength).

(** The part of an iteration of [_processBuffer] that takes a frame off the buffer. *)
Definition read_frame (q : Q) : frame Q :=
  match read_header q with
  | HeaderIncomplete => FrameIncomplete
  | HeaderTooLarge => FrameTooLarge
  | Header isFinal opcode isMasked offset payloadLength =>
      let maskLength := if isMasked then 4%nat else 0%nat in
      let frameLength := (offset + maskLength + payloadLength)%nat in
      if decide (buffered q < frameLength)%nat then FrameIncomplete else
      let '(frame, rest) := consume frameLength q in
      let payload := drop (offset + maskLength) frame in
      Frame isFinal opcode
        (if isMasked then _unmaskPayload payload (take 4 (drop offset frame)) else payload) rest
  end.
End read.

(** ** The session *)

Record InboundMessageAdmission := { byteLength : Z; admitted_in : nat }.

Inductive event :=
| Output (frame : bytes)
| Received (admission : InboundMessageAdmission) (message : json)
| SessionPaused
| SessionClosed.

Record session (Q : Type) := {
  queue : Q;
  fragmentedPayloads : option (list bytes);
  fragmentedOpcode : option Z;
  fragmentedBytes : Z;
  heartbeatAlive : bool;
  inboundClosed : bool;
  inboundBacklogOverloaded : bool;
  inboundPendingMessages : Z;
  inboundPendingBytes : Z;
  inboundAccountingGeneration : nat;
  paused : bool;
  outboundQueue : list json;
  resumable : bool;                        (* it has connections or channel subscriptions *)
  trace : list event
}.
Arguments queue {Q} s.
Arguments fragmentedPayloads {Q} s.
Arguments fragmentedOpcode {Q} s.
Arguments fragmentedBytes {Q} s.
Arguments heartbeatAlive {Q} s.
Arguments inboundClosed {Q} s.
Arguments inboundBacklogOverloaded {Q} s.
Arguments inboundPendingMessages {Q} s.
Arguments inboundPendingBytes {Q} s.
Arguments inboundAccountingGeneration {Q} s.
Arguments paused {Q} s.
Arguments outboundQueue {Q} s.
Arguments resumable {Q} s.
Arguments trace {Q} s.

Section session.
Context {Q : Type} `{!ByteQueue Q}.
Context (encode_utf8 : string -> bytes) (decode_utf8 : bytes -> string).
Context (inboundMaxPendingMessages inboundMaxPendingBytes : Z).

Implicit Types s : session Q.

(** Assignments of the fields that change together. *)
Definition emit (e : event) s : session Q := {|
  queue := queue s; fragmentedPayloads := fragmentedPayloads s; fragmentedOpcode := fragmentedOpcode s;
  fragmentedBytes := fragmentedBytes s; heartbeatAlive := heartbeatAlive s; inboundClosed := inboundClosed s;
  inboundBacklogOverloaded := inboundBacklogOverloaded s; inboundPendingMessages := inboundPendingMessages s;
  inboundPendingBytes := inboundPendingBytes s; inboundAccountingGeneration := inboundAccountingGeneration s;
  paused := paused s; outboundQueue := outboundQueue s; resumable := resumable s; trace := trace s ++ [e] |}.

Definition set_queue (q : Q) s : session Q := {|
  queue := q; fragmentedPayloads := fragmentedPayloads s; fragmentedOpcode := fragmentedOpcode s;
  fragmentedBytes := fragmentedBytes s; heartbeatAlive := heartbeatAlive s; inboundClosed := inboundClosed s;
  inboundBacklogOverloaded := inboundBacklogOverloaded s; inboundPendingMessages := inboundPendingMessages s;
  inboundPendingBytes := inboundPendingBytes s; inboundAccountingGeneration := inboundAccountingGeneration s;
  paused := paused s; outboundQueue := outboundQueue s; resumable := resumable s; trace := trace s |}.

Definition set_fragments (payloads : option (list bytes)) (opcode : option Z) (size : Z) s : session Q := {|
  queue := queue s; fragmentedPayloads := payloads; fragmentedOpcode := opcode; fragmentedBytes := size;
  heartbeatAlive := heartbeatAlive s; inboundClosed := inboundClosed s;
  inboundBacklogOverloaded := inboundBacklogOverloaded s; inboundPendingMessages := inboundPendingMessages s;
  inboundPendingBytes := inboundPendingBytes s; inboundAccountingGeneration := inboundAccountingGeneration s;
  paused := paused s; outboundQueue := outboundQueue s; resumable := resumable s; trace := trace s |}.

Definition set_alive (alive : bool) s : session Q := {|
  queue := queue s; fragmentedPayloads := fragmentedPayloads s; fragmentedOpcode := fragmentedOpcode s;
  fragmentedBytes := fragmentedBytes s; heartbeatAlive := alive; inboundClosed := inboundClosed s;
  inboundBacklogOverloaded := inboundBacklogOverloaded s; inboundPendingMessages := inboundPendingMessages s;
  inboundPendingBytes := inboundPendingBytes s; inboundAccountingGeneration := inboundAccountingGeneration s;
  paused := paused s; outboundQueue := outboundQueue s; resumable := resumable s; trace := trace s |}.

Definition set_inbound (closed overloaded : bool) (messages size : Z) (generation : nat) s : session Q := {|
  queue := queue s; fragmentedPayloads := fragmentedPayloads s; fragmentedOpcode := fragmentedOpcode s;
  fragmentedBytes := fragmentedBytes s; heartbeatAlive := heartbeatAlive s; inboundClosed := closed;
  inboundBacklogOverloaded := overloaded; inboundPendingMessages := messages;
  inboundPendingBytes := size; inboundAccountingGeneration := generation;
  paused := paused s; outboundQueue := outboundQueue s; resumable := resumable s; trace := trace s |}.

Definition set_paused (p : bool) (outbound : list json) s : session Q := {|
  queue := queue s; fragmentedPayloads := fragmentedPayloads s; fragmentedOpcode := fragmentedOpcode s;
  fragmentedBytes := fragmentedBytes s; heartbeatAlive := heartbeatAlive s; inboundClosed := inboundClosed s;
  inboundBacklogOverloaded := inboundBacklogOverloaded s; inboundPendingMessages := inboundPendingMessages s;
  inboundPendingBytes := inboundPendingBytes s; inboundAccountingGeneration := inboundAccountingGeneration s;
  paused := p; outboundQueue := outbound; resumable := resumable s; trace := trace s |}.

(** ** Writing *)

(** [_sendControlFrame]: the length is written to a byte of a [Buffer]. *)
Definition _sendControlFrame (opcode : Z) (payload : bytes) s : session Q :=
  emit (Output (Z.lor WEBSOCKET_FINAL_FRAME opcode :: Z.of_nat (length payload) mod 256 :: payload)) s.

(** [sendGoodbye], with a status code or none. *)
Definition sendGoodbye (status : option (Z * string)) s : session Q :=
  let payload := match status with
    | None => []
    | Some (code, reason) => (code / 256) :: (code mod 256) :: encode_utf8 reason
    end in
  emit (Output (Z.lor WEBSOCKET_FINAL_FRAME WEBSOCKET_OPCODE_CLOSE :: Z.of_nat (length payload) mod 256 :: payload)) s.

(** [writeUInt16BE], [writeBigUInt64BE] *)
Fixpoint write_big_endian (size : nat) (n : Z) : bytes :=
  match size with O => [] | S size => (n / 256 ^ Z.of_nat size) mod 256 :: write_big_endian size n end.

(** The frame [sendJson] writes. *)
Definition text_frame (payload : bytes) : bytes :=
  let size := Z.of_nat (length payload) in
  Z.lor WEBSOCKET_FINAL_FRAME WEBSOCKET_OPCODE_TEXT ::
  (if size <? 126 then [size]
   else if size <? 65536 then 126 :: write_big_endian 2 size
   else 127 :: write_big_endian 8 size) ++ payload.

Definition sendJson (body : json) s : session Q :=
  if paused s then
    let queued := if decide (WEBSOCKET_PAUSED_QUEUE_CAP <= length (outboundQueue s))%nat
                  then drop 1 (outboundQueue s) else outboundQueue s in
    set_paused true (queued ++ [body]) s
  else emit (Output (text_frame (encode_utf8 (stringify body)))) s.

(** ** Closing and accounting *)

Definition _resetFragmentBuffer s : session Q := set_fragments None None 0 s.
Definition _clearBufferedFrameChunks s : session Q := set_queue (cleared (queue s)) s.

Definition _abandonInboundMessages s : session Q :=
  set_inbound true (inboundBacklogOverloaded s) 0 0 (S (inboundAccountingGeneration s)) s.

Definition _handleClose (allowResume : bool) s : session Q :=
  let s := _abandonInboundMessages (_clearBufferedFrameChunks (_resetFragmentBuffer s)) in
  if allowResume && resumable s && negb (paused s)
  then emit SessionPaused (set_paused true (outboundQueue s) s)
  else emit SessionClosed s.

Definition _closeForInboundBacklog s : session Q :=
  if inboundBacklogOverloaded s || inboundClosed s then s else
  let s := set_inbound (inboundClosed s) true (inboundPendingMessages s) (inboundPendingBytes s)
             (inboundAccountingGeneration s) s in
  _handleClose false
    (sendGoodbye (Some (WEBSOCKET_CLOSE_POLICY_VIOLATION, "Inbound message backlog exceeded"%string)) s).

Definition _closeForInboundLimit s : session Q :=
  _handleClose true (sendGoodbye None (_clearBufferedFrameChunks (_resetFragmentBuffer s))).

Definition _admitInboundMessage (size : Z) s : session Q * option InboundMessageAdmission :=
  if inboundClosed s then (s, None) else
  if (inboundMaxPendingMessages <? inboundPendingMessages s + 1) ||
     (inboundMaxPendingBytes <? inboundPendingBytes s + size)
  then (_closeForInboundBacklog s, None)
  else (set_inbound (inboundClosed s) (inboundBacklogOverloaded s) (inboundPendingMessages s + 1)
          (inboundPendingBytes s + size) (inboundAccountingGeneration s) s,
        Some {| byteLength := size; admitted_in := inboundAccountingGeneration s |}).

(** [_releaseInboundAdmission], of an admission that is not released yet. *)
Definition _releaseInboundAdmission (a : InboundMessageAdmission) s : session Q :=
  if decide (admitted_in a = inboundAccountingGeneration s)
  then set_inbound (inboundClosed s) (inboundBacklogOverloaded s) (inboundPendingMessages s - 1)
         (inboundPendingBytes s - byteLength a) (inboundAccountingGeneration s) s
  else s.

(** ** Reading *)

Definition _enforceFragmentLimits s : session Q * bool :=
  match fragmentedPayloads s with
  | None => (s, true)
  | Some payloads =>
      if (WEBSOCKET_MAX_FRAGMENTED_MESSAGE_BYTES <? fragmentedBytes s) ||
         bool_decide (WEBSOCKET_MAX_FRAGMENTED_MESSAGE_FRAGMENTS < length payloads)%nat
      then (_closeForInboundLimit s, false)
      else (s, true)
  end.

Definition _appendFragment (payload : bytes) s : session Q * bool :=
  _enforceFragmentLimits
    (set_fragments ((fun payloads => payloads ++ [payload]) <$> fragmentedPayloads s) (fragmentedOpcode s)
       (fragmentedBytes s + Z.of_nat (length payload)) s).

(** A complete message: the end of an iteration. The boolean says whether the loop goes on. *)
Definition deliver (opcode : Z) (payload : bytes) s : session Q * bool :=
  let s := match fragmentedPayloads s with Some _ => _resetFragmentBuffer s | None => s end in
  if negb (opcode =? WEBSOCKET_OPCODE_TEXT) then (s, true) else
  let '(s, admission) := _admitInboundMessage (Z.of_nat (length payload)) s in
  match admission with
  | None => (s, false)
  | Some admission =>
      match parse (decode_utf8 payload) with
      | Some message => (emit (Received admission message) s, true)
      | None =>
          (sendJson (JObj [("error", JStr "Invalid websocket message"); ("type", JStr "error")])
             (_releaseInboundAdmission admission s), true)
      end
  end.

Definition handle_frame (isFinal : bool) (opcode : Z) (payload : bytes) s : session Q * bool :=
  if opcode =? WEBSOCKET_OPCODE_PING then (_sendControlFrame WEBSOCKET_OPCODE_PONG payload s, true)
  else if opcode =? WEBSOCKET_OPCODE_CLOSE then (_handleClose true (sendGoodbye None s), true)
  else if 8 <=? opcode then (s, true)
  else if opcode =? WEBSOCKET_OPCODE_CONTINUATION then
    match fragmentedPayloads s with
    | None => (s, true)
    | Some _ =>
        let '(s, accepted) := _appendFragment payload s in
        if negb accepted then (s, false)
        else if negb isFinal then (s, true)
        else deliver (default WEBSOCKET_OPCODE_TEXT (fragmentedOpcode s))
               (concat (default [] (fragmentedPayloads s))) s
    end
  else if (opcode =? WEBSOCKET_OPCODE_TEXT) || (opcode =? WEBSOCKET_OPCODE_BINARY) then
    let s := match fragmentedPayloads s with Some _ => _resetFragmentBuffer s | None => s end in
    if isFinal then deliver opcode payload s
    else _enforceFragmentLimits (set_fragments (Some [payload]) (Some opcode) (Z.of_nat (length payload)) s)
  else (s, true).

(** The loop; a frame has two bytes at least. *)
Fixpoint process_frames (fuel : nat) s : session Q :=
  match fuel with
  | O => s
  | S fuel =>
      match read_frame (queue s) with
      | FrameIncomplete => s
      | FrameTooLarge => _closeForInboundLimit s
      | Frame isFinal opcode payload rest =>
          let '(s, continue) := handle_frame isFinal opcode payload (set_queue rest s) in
          if continue then process_frames fuel s else s
      end
  end.

Definition _processBuffer s : session Q := process_frames (buffered (queue s)) s.

Definition onData (data : bytes) s : session Q :=
  let s := set_alive true s in
  if inboundClosed s || bool_decide (data = []) then s else
  _processBuffer (set_queue (push data (queue s)) s).
End session.

Section heartbeat.
Context {Q : Type} `{!ByteQueue Q}.

(** [_heartbeatTick]; the timer is a step of [WebsocketDispatch.v]. *)
Definition _heartbeatTick (s : session Q) : session Q :=
  if paused s then s else
  if negb (heartbeatAlive s) then _handleClose true s
  else _sendControlFrame WEBSOCKET_OPCODE_PING [] (set_alive false s).
End heartbeat.
