(* ===== verification/WebsocketFramesCorrect.v ===== *)
(** * WebSocket frames: correctness

    The queue of chunks is the list of its bytes; what the parser does with a stream does
    not depend on how it is cut; and it reads what RFC 6455 says a client writes. *)

From stdpp Require Import base strings list.
From Stdlib Require Import ZArith Ascii Lia.
From S2P Require Import Prelude Json WebsocketFrames.
Open Scope Z_scope.

(** ** The chunk queue implements the list of bytes *)

(** What is left to read of chunks from an offset in the first one. *)
Definition unread (offset : nat) (chunks : list bytes) : bytes := drop offset (concat chunks).

Definition flat (q : chunk_queue) : bytes :=
  unread (bufferChunkOffset q) (drop (bufferChunkIndex q) (bufferChunks q)).

(** The read position is inside of a chunk, or at the end. *)
Definition position_ok (offset : nat) (chunks : list bytes) : Prop :=
  Forall (fun c => c <> []) chunks /\
  match chunks with [] => offset = 0%nat | chunk :: _ => (offset < length chunk)%nat end.

Record queue_ok (q : chunk_queue) : Prop := {
  bytes_counted : bufferedBytes q = length (flat q);
  position_valid : position_ok (bufferChunkOffset q) (drop (bufferChunkIndex q) (bufferChunks q));
  index_valid : (bufferChunkIndex q <= length (bufferChunks q))%nat
}.

Lemma unread_cons offset chunk chunks : (offset <= length chunk)%nat ->
  unread offset (chunk :: chunks) = drop offset chunk ++ unread 0 chunks.
Proof.
  intros H. unfold unread. cbn [concat]. rewrite drop_app_le by done. by rewrite drop_0.
Qed.

Lemma position_start chunks : Forall (fun c => c <> []) chunks -> position_ok 0 chunks.
Proof.
  intros H. split; [done|]. destruct H as [|[|x c] l Hc _]; [done..|]. cbn. lia.
Qed.

Lemma peek_chunks_flat n offset chunks : position_ok offset chunks ->
  peek_chunks n offset chunks = take n (unread offset chunks).
Proof.
  revert n offset. induction chunks as [|chunk chunks IH]; intros n offset [Hall Hp]; cbn [peek_chunks].
  { subst offset. unfold unread. cbn. by rewrite take_nil. }
  apply Forall_cons in Hall as [_ Hall]. rewrite unread_cons by lia. rewrite take_app, length_drop.
  set (k := Nat.min (length chunk - offset) n).
  assert (take k (drop offset chunk) = take n (drop offset chunk)) as Hk.
  { destruct (Nat.le_gt_cases n (length chunk - offset)).
    - unfold k. by rewrite Nat.min_r by lia.
    - unfold k. rewrite Nat.min_l by lia. rewrite !take_ge; rewrite ?length_drop; [done|lia..]. }
  rewrite Hk. f_equal. case_decide as Hd.
  - replace (n - (length chunk - offset))%nat with 0%nat by lia. by rewrite take_0.
  - rewrite IH by by apply position_start. f_equal. lia.
Qed.

Lemma consume_chunks_flat n index offset chunks : position_ok offset chunks ->
  (n <= length (unread offset chunks))%nat ->
  exists j offset', consume_chunks n index offset chunks = (take n (unread offset chunks), (index + j, offset')%nat) /\
    (j <= length chunks)%nat /\ position_ok offset' (drop j chunks) /\
    unread offset' (drop j chunks) = drop n (unread offset chunks).
Proof.
  revert n index offset. induction chunks as [|chunk chunks IH]; intros n index offset Hpos Hn; cbn [consume_chunks].
  { assert (n = 0%nat) as -> by (destruct Hpos as [_ ->]; cbn in Hn; lia). exists 0%nat, offset.
    rewrite decide_True by done. rewrite Nat.add_0_r. split_and!; [done|lia|done|done]. }
  case_decide as H0.
  { subst n. exists 0%nat, offset. rewrite Nat.add_0_r, drop_0. split_and!; [by rewrite take_0|lia|done|by rewrite drop_0]. }
  destruct Hpos as [Hall Hp]. pose proof Hall as Hall0. apply Forall_cons in Hall as [_ Hall].
  rewrite unread_cons in Hn |- * by lia. rewrite length_app, length_drop in Hn.
  destruct (Nat.le_gt_cases (length chunk - offset) n) as [Hle|Hgt].
  - rewrite Nat.min_l by lia. rewrite !decide_True by lia.
    destruct (IH (n - (length chunk - offset))%nat (S index) 0%nat) as (j & offset' & Hc & Hj & Hpos' & Hrest);
      [by apply position_start|lia|].
    exists (S j), offset'. rewrite Hc. cbn [fst snd drop length]. rewrite Nat.add_succ_r. split_and!; [|lia|done|].
    + rewrite take_app, length_drop. rewrite !(take_ge (drop offset chunk)) by (rewrite length_drop; lia). done.
    + rewrite drop_app, length_drop, Hrest. by rewrite (drop_ge (drop offset chunk)) by (rewrite length_drop; lia).
  - rewrite Nat.min_r by lia. rewrite !decide_False by lia.
    exists 0%nat, (offset + n)%nat. cbn [fst snd drop length]. rewrite Nat.add_0_r, app_nil_r. split_and!; [|lia| |].
    + by rewrite take_app_le by (rewrite length_drop; lia).
    + split; [done|lia].
    + rewrite unread_cons by lia. rewrite drop_app_le by (rewrite length_drop; lia). by rewrite drop_drop.
Qed.

Lemma flat_peek n q : queue_ok q -> peek n q = take n (flat q).
Proof. intros [_ Hp _]. by apply peek_chunks_flat. Qed.

Lemma flat_consume n q : queue_ok q -> (n <= buffered q)%nat ->
  (consume n q).1 = take n (flat q) /\ flat (consume n q).2 = drop n (flat q) /\ queue_ok (consume n q).2.
Proof.
  intros [Hb Hp Hi] Hn. cbn [buffered ChunkQueue] in Hn. cbn [consume ChunkQueue]. unfold _consumeBufferedBytes.
  destruct (consume_chunks_flat n (bufferChunkIndex q) _ _ Hp) as (j & offset' & Hc & Hj & Hp' & Hrest).
  { fold (flat q). lia. }
  rewrite Hc. rewrite length_drop in Hj. rewrite drop_drop in Hp', Hrest. fold (flat q) in Hrest |- *.
  assert (length (drop n (flat q)) = (bufferedBytes q - n)%nat) as Hlen by (rewrite length_drop; lia).
  case_decide as Hend; [|case_decide as Hcompact]; cbn [fst snd].
  - rewrite drop_ge in Hp', Hrest by lia. destruct Hp' as [_ ->]. split; [done|]. split; [exact Hrest|].
    split; cbn; [|by split|lia]. rewrite <- Hlen, <- Hrest. done.
  - split; [done|]. assert (flat {| bufferChunks := drop (bufferChunkIndex q + j) (bufferChunks q); bufferChunkIndex := 0;
      bufferChunkOffset := offset'; bufferedBytes := bufferedBytes q - n |} = drop n (flat q)) as Hf.
    { unfold flat at 1. cbn. by rewrite drop_0. }
    split; [exact Hf|]. split; [by rewrite Hf|cbn; by rewrite drop_0|cbn; lia].
  - split; [done|]. split; [exact Hrest|]. split; [|exact Hp'|cbn; lia]. unfold flat. cbn [bufferedBytes bufferChunks bufferChunkIndex bufferChunkOffset].
    by rewrite Hrest, Hlen.
Qed.

Lemma flat_push data q : data <> [] -> queue_ok q -> flat (push data q) = flat q ++ data /\ queue_ok (push data q).
Proof.
  intros Hd [Hb [Hall Hp] Hi]. assert (flat (push data q) = flat q ++ data) as Hf.
  { unfold flat, unread. cbn. rewrite drop_app_le, concat_app by lia. cbn. rewrite app_nil_r.
    destruct (drop (bufferChunkIndex q) (bufferChunks q)) as [|chunk chunks] eqn:Hc; [by rewrite Hp|].
    rewrite drop_app_le; [done|]. cbn. rewrite length_app. lia. }
  split; [done|]. split; [rewrite Hf, length_app; cbn; lia| |cbn; rewrite length_app; lia].
  cbn. rewrite drop_app_le by lia. split; [apply Forall_app; split; [done|by constructor]|].
  destruct (drop (bufferChunkIndex q) (bufferChunks q)) as [|chunk chunks]; cbn; [|done].
  rewrite Hp. destruct data; [done|cbn; lia].
Qed.

Lemma flat_cleared q : flat (cleared q) = [] /\ queue_ok (cleared q).
Proof. split; [done|]. split; [done|by split|cbn; lia]. Qed.

(** ** The session over the chunk queue implements the session over the bytes *)

Definition flatten (s : session chunk_queue) : session bytes := {|
  queue := flat (queue s); fragmentedPayloads := fragmentedPayloads s; fragmentedOpcode := fragmentedOpcode s;
  fragmentedBytes := fragmentedBytes s; heartbeatAlive := heartbeatAlive s; inboundClosed := inboundClosed s;
  inboundBacklogOverloaded := inboundBacklogOverloaded s; inboundPendingMessages := inboundPendingMessages s;
  inboundPendingBytes := inboundPendingBytes s; inboundAccountingGeneration := inboundAccountingGeneration s;
  paused := paused s; outboundQueue := outboundQueue s; resumable := resumable s; trace := trace s |}.

Lemma read_header_flat q : queue_ok q -> read_header q = read_header (flat q).
Proof.
  intros Hq. unfold read_header. rewrite !(flat_peek _ q Hq). cbn [buffered ChunkQueue FlatQueue].
  by rewrite (bytes_counted q Hq).
Qed.

Lemma read_frame_flat q : queue_ok q ->
  match read_frame q with
  | FrameIncomplete => read_frame (flat q) = FrameIncomplete
  | FrameTooLarge => read_frame (flat q) = FrameTooLarge
  | Frame f o p rest => read_frame (flat q) = Frame f o p (flat rest) /\ queue_ok rest
  end.
Proof.
  intros Hq. unfold read_frame. rewrite <- (read_header_flat q Hq).
  destruct (read_header q) as [| |isFinal opcode isMasked offset payloadLength]; [done..|].
  change (buffered (flat q)) with (length (flat q)). rewrite <- (bytes_counted q Hq).
  change (buffered q) with (bufferedBytes q). case_decide; [done|].
  set (n := (offset + (if isMasked then 4 else 0) + payloadLength)%nat) in *.
  destruct (flat_consume n q Hq) as (H1 & H2 & H3); [cbn; lia|].
  destruct (consume n q) as [frame rest]. cbn [fst snd] in *. subst frame. cbn [consume FlatQueue]. by rewrite <- H2.
Qed.

Section simulation.
Context (encode_utf8 : string -> bytes) (decode_utf8 : bytes -> string) (maxMessages maxBytes : Z).

Abbreviation handle := (handle_frame encode_utf8 decode_utf8 maxMessages maxBytes).
Abbreviation process := (process_frames encode_utf8 decode_utf8 maxMessages maxBytes).
Abbreviation data_in := (onData encode_utf8 decode_utf8 maxMessages maxBytes).

(** What a frame does depends on the buffer only in that it may clear it. *)
Definition with_queue {Q Q'} (q : Q') (s : session Q) : session Q' := {|
  queue := q; fragmentedPayloads := fragmentedPayloads s; fragmentedOpcode := fragmentedOpcode s;
  fragmentedBytes := fragmentedBytes s; heartbeatAlive := heartbeatAlive s; inboundClosed := inboundClosed s;
  inboundBacklogOverloaded := inboundBacklogOverloaded s; inboundPendingMessages := inboundPendingMessages s;
  inboundPendingBytes := inboundPendingBytes s; inboundAccountingGeneration := inboundAccountingGeneration s;
  paused := paused s; outboundQueue := outboundQueue s; resumable := resumable s; trace := trace s |}.

(** Two buffers that are cleared together. *)
Inductive same_fate {Q Q'} `{!ByteQueue Q, !ByteQueue Q'} (q : Q) (q' : Q') : Q -> Q' -> Prop :=
| fate_kept : same_fate q q' q q'
| fate_cleared x x' : same_fate q q' x x' -> same_fate q q' (cleared x) (cleared x').

Section alike.
Context {Q Q' : Type} `{!ByteQueue Q, !ByteQueue Q'} (q : Q) (q' : Q').

(** A session over one buffer and over the other. *)
Definition alike (s : session Q) (s' : session Q') : Prop :=
  same_fate q q' (queue s) (queue s') /\ s' = with_queue (queue s') s.

Definition alike_result (r : session Q * bool) (r' : session Q' * bool) : Prop := alike r.1 r'.1 /\ r.2 = r'.2.

Ltac by_fields := intros [Hf Hs]; split; [exact Hf|rewrite Hs; reflexivity].

Lemma alike_emit e s s' : alike s s' -> alike (emit e s) (emit e s').
Proof. by_fields. Qed.
Lemma alike_set_fragments p o n s s' : alike s s' -> alike (set_fragments p o n s) (set_fragments p o n s').
Proof. by_fields. Qed.
Lemma alike_set_inbound c o m b g s s' : alike s s' -> alike (set_inbound c o m b g s) (set_inbound c o m b g s').
Proof. by_fields. Qed.
Lemma alike_set_paused p l s s' : alike s s' -> alike (set_paused p l s) (set_paused p l s').
Proof. by_fields. Qed.
Lemma alike_clear s s' : alike s s' -> alike (_clearBufferedFrameChunks s) (_clearBufferedFrameChunks s').
Proof. intros [Hf Hs]. split; [by constructor|rewrite Hs; reflexivity]. Qed.

(** Two sessions that are alike have the same fields. *)
Ltac fields H := let Hs := fresh in pose proof (proj2 H) as Hs;
  repeat match type of Hs with ?s' = with_queue _ ?s =>
    let field f := (let E := fresh "E" in assert (f Q' s' = f Q s) as E by (rewrite Hs; reflexivity); rewrite ?E; clear E) in
    field @fragmentedPayloads; field @fragmentedOpcode; field @fragmentedBytes; field @inboundClosed;
    field @inboundBacklogOverloaded; field @inboundPendingMessages; field @inboundPendingBytes;
    field @inboundAccountingGeneration; field @paused; field @outboundQueue; field @resumable; clear Hs end.

Hint Resolve alike_emit alike_set_fragments alike_set_inbound alike_set_paused alike_clear : core.

Lemma alike_sendJson body s s' : alike s s' -> alike (sendJson encode_utf8 body s) (sendJson encode_utf8 body s').
Proof. intros H. unfold sendJson. fields H. destruct (paused s); auto. Qed.

Lemma alike_handleClose b s s' : alike s s' -> alike (_handleClose b s) (_handleClose b s').
Proof.
  intros H. unfold _handleClose.
  assert (alike (_abandonInboundMessages (_clearBufferedFrameChunks (_resetFragmentBuffer s)))
    (_abandonInboundMessages (_clearBufferedFrameChunks (_resetFragmentBuffer s')))) as H'.
  { unfold _abandonInboundMessages, _resetFragmentBuffer. cbn [inboundBacklogOverloaded inboundAccountingGeneration
      _clearBufferedFrameChunks set_queue set_fragments]. fields H. auto. }
  fields H'. destruct (_ && _); auto.
Qed.

Lemma alike_closeForInboundLimit s s' : alike s s' -> alike (_closeForInboundLimit encode_utf8 s) (_closeForInboundLimit encode_utf8 s').
Proof. intros H. unfold _closeForInboundLimit, sendGoodbye, _resetFragmentBuffer. apply alike_handleClose. auto. Qed.

Lemma alike_closeForInboundBacklog s s' : alike s s' ->
  alike (_closeForInboundBacklog encode_utf8 s) (_closeForInboundBacklog encode_utf8 s').
Proof.
  intros H. unfold _closeForInboundBacklog. fields H. destruct (_ || _); [done|].
  apply alike_handleClose. unfold sendGoodbye. auto.
Qed.

Hint Resolve alike_sendJson alike_handleClose alike_closeForInboundLimit alike_closeForInboundBacklog : core.

Lemma alike_enforce s s' : alike s s' -> alike_result (_enforceFragmentLimits encode_utf8 s) (_enforceFragmentLimits encode_utf8 s').
Proof.
  intros H. unfold _enforceFragmentLimits, alike_result. fields H. destruct (fragmentedPayloads s); [|done].
  destruct (_ || _); cbn; auto.
Qed.

Lemma alike_deliver opcode payload s s' : alike s s' ->
  alike_result (deliver encode_utf8 decode_utf8 maxMessages maxBytes opcode payload s)
    (deliver encode_utf8 decode_utf8 maxMessages maxBytes opcode payload s').
Proof.
  intros H0. unfold deliver.
  set (r := match fragmentedPayloads s with Some _ => _ | None => s end).
  set (r' := match fragmentedPayloads s' with Some _ => _ | None => s' end).
  assert (alike r r') as H.
  { subst r r'. fields H0. destruct (fragmentedPayloads s); unfold _resetFragmentBuffer; auto. }
  clearbody r r'. clear H0 s s'. destruct (negb _); [done|]. unfold _admitInboundMessage. fields H.
  destruct (inboundClosed r); [done|]. destruct (_ || _); [by split; cbn; auto|].
  destruct (parse (decode_utf8 payload)); [by split; cbn; auto|].
  split; [|done]. cbn [fst]. apply alike_sendJson. unfold _releaseInboundAdmission. cbn [admitted_in byteLength
    inboundAccountingGeneration set_inbound inboundClosed inboundBacklogOverloaded inboundPendingMessages inboundPendingBytes].
  fields H. rewrite !decide_True by done. auto.
Qed.

Lemma handle_alike isFinal opcode payload s s' : alike s s' ->
  alike_result (handle isFinal opcode payload s) (handle isFinal opcode payload s').
Proof.
  intros H. unfold handle_frame.
  destruct (_ =? WEBSOCKET_OPCODE_PING); [by split; cbn; unfold _sendControlFrame; auto|].
  destruct (_ =? WEBSOCKET_OPCODE_CLOSE); [by split; cbn; unfold sendGoodbye; auto|].
  destruct (8 <=? opcode); [done|]. destruct (_ =? WEBSOCKET_OPCODE_CONTINUATION).
  - fields H. destruct (fragmentedPayloads s) as [payloads|] eqn:Hp; [|done].
    assert (alike_result (_appendFragment encode_utf8 payload s) (_appendFragment encode_utf8 payload s')) as Ha.
    { unfold _appendFragment. fields H. apply alike_enforce. auto. }
    destruct (_appendFragment encode_utf8 payload s) as [s1 b], (_appendFragment encode_utf8 payload s') as [s1' b'].
    destruct Ha as [H1 Hb]. cbn in H1, Hb. subst b'. destruct b; [|done]. destruct isFinal; [|done]. cbn [negb].
    fields H1. by apply alike_deliver.
  - destruct (_ || _); [|done].
    set (r := match fragmentedPayloads s with Some _ => _ | None => s end).
    set (r' := match fragmentedPayloads s' with Some _ => _ | None => s' end).
    assert (alike r r') as Hr.
    { subst r r'. fields H. destruct (fragmentedPayloads s); unfold _resetFragmentBuffer; auto. }
    destruct isFinal; [by apply alike_deliver|apply alike_enforce; auto].
Qed.
End alike.
Lemma fate_flat (q x : chunk_queue) (x' : bytes) : queue_ok q -> same_fate q (flat q) x x' -> flat x = x' /\ queue_ok x.
Proof.
  intros Hq H. remember (flat q) as q'. induction H as [|x x' _ _]; [by subst|]. apply flat_cleared.
Qed.

Lemma handle_flatten isFinal opcode payload s : queue_ok (queue s) ->
  flatten (handle isFinal opcode payload s).1 = (handle isFinal opcode payload (flatten s)).1 /\
  (handle isFinal opcode payload s).2 = (handle isFinal opcode payload (flatten s)).2 /\
  queue_ok (queue (handle isFinal opcode payload s).1).
Proof.
  intros Hq. destruct (handle_alike (queue s) (flat (queue s)) isFinal opcode payload s (flatten s)) as [[Hf Hs] Hb].
  { split; [constructor|reflexivity]. }
  destruct (fate_flat _ _ _ Hq Hf) as [H1 H2]. split_and!; [|done|done]. rewrite Hs, <- H1. reflexivity.
Qed.

Lemma process_flatten fuel s : queue_ok (queue s) ->
  flatten (process fuel s) = process fuel (flatten s) /\ queue_ok (queue (process fuel s)).
Proof.
  revert s. induction fuel as [|fuel IH]; intros s Hq; [done|]. cbn [process_frames].
  pose proof (read_frame_flat _ Hq) as Hr. change (queue (flatten s)) with (flat (queue s)).
  destruct (read_frame (queue s)) as [| |isFinal opcode payload rest].
  - by rewrite Hr.
  - rewrite Hr. destruct (alike_closeForInboundLimit (queue s) (flat (queue s)) s (flatten s)) as [Hf Hs].
    { split; [constructor|reflexivity]. }
    destruct (fate_flat _ _ _ Hq Hf) as [H1 H2]. split; [|done]. rewrite Hs, <- H1. reflexivity.
  - destruct Hr as [-> Hrest]. change (set_queue (flat rest) (flatten s)) with (flatten (set_queue rest s)).
    destruct (handle_flatten isFinal opcode payload (set_queue rest s) Hrest) as (H1 & H2 & H3).
    destruct (handle isFinal opcode payload (set_queue rest s)) as [s1 b],
      (handle isFinal opcode payload (flatten (set_queue rest s))) as [s1' b'].
    cbn [fst snd] in *. subst s1' b'. destruct b; [by apply IH|done].
Qed.

Lemma onData_flatten data s : queue_ok (queue s) ->
  flatten (data_in data s) = data_in data (flatten s) /\ queue_ok (queue (data_in data s)).
Proof.
  intros Hq. unfold onData. change (inboundClosed (set_alive true (flatten s))) with (inboundClosed (set_alive true s)).
  destruct (inboundClosed (set_alive true s)); [done|]. cbn [orb]. case_bool_decide as Hd; [done|].
  destruct (flat_push data (queue s) Hd Hq) as [H1 H2]. unfold _processBuffer.
  destruct (process_flatten (buffered (push data (queue s))) (set_queue (push data (queue s)) (set_alive true s)) H2) as [H3 H4].
  split; [|exact H4]. cbn [queue set_queue set_alive]. rewrite H3.
  change (flatten (set_queue (push data (queue s)) (set_alive true s))) with
    (set_queue (flat (push data (queue s))) (set_alive true (flatten s))). rewrite H1.
  change (queue (set_alive true (flatten s))) with (flat (queue s)). f_equal.
  pose proof (bytes_counted _ H2) as Hn. rewrite H1 in Hn. exact Hn.
Qed.
End simulation.

(** ** The bytes may be cut anywhere *)

Lemma read_header_app (b c : bytes) : read_header b <> HeaderIncomplete -> read_header (b ++ c) = read_header b.
Proof.
  unfold read_header. cbn [buffered FlatQueue peek]. rewrite length_app. intros Hne.
  destruct (decide (length b < 2)%nat); [done|]. rewrite decide_False by lia.
  assert (take 2 (b ++ c) = take 2 b) as -> by (rewrite take_app_le by lia; done).
  destruct (_ =? 126).
  - destruct (decide (length b < 4)%nat); [done|]. rewrite decide_False by lia. by rewrite take_app_le by lia.
  - destruct (_ =? 127); [|done].
    destruct (decide (length b < 10)%nat); [done|]. rewrite decide_False by lia. by rewrite take_app_le by lia.
Qed.

Lemma read_header_offset (b : bytes) f o m offset n : read_header b = Header f o m offset n -> (2 <= offset)%nat.
Proof.
  unfold read_header. repeat case_decide; try done; repeat case_match; intros [=]; subst; lia.
Qed.

Lemma read_frame_app (b c : bytes) : match read_frame b with
  | FrameIncomplete => True
  | FrameTooLarge => read_frame (b ++ c) = FrameTooLarge
  | Frame f o p rest => read_frame (b ++ c) = Frame f o p (rest ++ c) /\ (length rest + 2 <= length b)%nat
  end.
Proof.
  unfold read_frame. pose proof (read_header_app b c) as Hh.
  destruct (read_header b) as [| |f o m offset n] eqn:Hr; [done|by rewrite Hh|]. rewrite Hh by done.
  apply read_header_offset in Hr. cbn [buffered FlatQueue consume].
  set (k := (offset + (if m then 4 else 0) + n)%nat). assert (2 <= k)%nat by lia. clearbody k.
  destruct (decide (length b < k)%nat); [done|]. rewrite length_app, decide_False by lia.
  rewrite take_app_le, drop_app_le by lia. rewrite length_drop. split; [done|lia].
Qed.

Section cut.
Context (encode_utf8 : string -> bytes) (decode_utf8 : bytes -> string) (maxMessages maxBytes : Z).

Abbreviation handle := (handle_frame encode_utf8 decode_utf8 maxMessages maxBytes).
Abbreviation process := (process_frames encode_utf8 decode_utf8 maxMessages maxBytes).
Abbreviation data_in := (onData encode_utf8 decode_utf8 maxMessages maxBytes).

Implicit Types s : session bytes.

(** A session that takes data. *)
Definition is_open s : Prop := inboundClosed s = false /\ inboundBacklogOverloaded s = false.

(** Closing clears the buffer. *)
Definition is_shut s : Prop := inboundClosed s = true /\ queue s = [].

(** What a frame leaves: an open session with the buffer as it is, or a closed one. *)
Definition outcome (q : bytes) (alive : bool) (r : session bytes * bool) : Prop :=
  heartbeatAlive r.1 = alive /\ ((is_open r.1 /\ queue r.1 = q /\ r.2 = true) \/ is_shut r.1).

Lemma close_shut b s : is_shut (_handleClose b s) /\ heartbeatAlive (_handleClose b s) = heartbeatAlive s.
Proof. unfold _handleClose. by destruct (_ && _). Qed.

Lemma limit_shut s : is_shut (_closeForInboundLimit encode_utf8 s) /\
  heartbeatAlive (_closeForInboundLimit encode_utf8 s) = heartbeatAlive s.
Proof.
  unfold _closeForInboundLimit.
  by destruct (close_shut true (sendGoodbye encode_utf8 None (_clearBufferedFrameChunks (_resetFragmentBuffer s)))).
Qed.

Lemma outcome_open q alive s : is_open s -> queue s = q -> heartbeatAlive s = alive -> outcome q alive (s, true).
Proof. intros H1 H2 H3. split; [done|left; by split_and!]. Qed.

Lemma outcome_shut q alive s b : is_shut s /\ heartbeatAlive s = alive -> outcome q alive (s, b).
Proof. intros [H1 H2]. split; [done|by right]. Qed.

Hint Resolve outcome_open outcome_shut close_shut limit_shut : core.

Lemma enforce_outcome s : is_open s ->
  outcome (queue s) (heartbeatAlive s) (_enforceFragmentLimits encode_utf8 s) /\
  ((_enforceFragmentLimits encode_utf8 s).2 = true -> (_enforceFragmentLimits encode_utf8 s).1 = s).
Proof.
  intros Ho. unfold _enforceFragmentLimits. destruct (fragmentedPayloads s); [|by split; [apply outcome_open|]].
  destruct (_ || _); [split; [apply outcome_shut, limit_shut|done]|by split; [apply outcome_open|]].
Qed.

Lemma deliver_outcome opcode payload s : is_open s ->
  outcome (queue s) (heartbeatAlive s) (deliver encode_utf8 decode_utf8 maxMessages maxBytes opcode payload s).
Proof.
  intros Ho0. unfold deliver. set (r := match fragmentedPayloads s with Some _ => _ | None => s end).
  assert (is_open r /\ queue r = queue s /\ heartbeatAlive r = heartbeatAlive s) as (Ho & <- & <-).
  { subst r. by destruct (fragmentedPayloads s). }
  clearbody r. clear Ho0 s. destruct (negb _); [auto|]. destruct Ho as [Hc Hv].
  unfold _admitInboundMessage. rewrite Hc. destruct (_ || _).
  - unfold _closeForInboundBacklog. rewrite Hc, Hv. cbn [orb]. apply outcome_shut.
    by match goal with |- context [_handleClose false ?x] => destruct (close_shut false x) as [H1 H2] end.
  - destruct (parse _); [by apply outcome_open|]. unfold sendJson, _releaseInboundAdmission.
    rewrite decide_True by done. destruct (paused _); by apply outcome_open.
Qed.

Lemma handle_outcome isFinal opcode payload s : is_open s ->
  outcome (queue s) (heartbeatAlive s) (handle isFinal opcode payload s).
Proof.
  intros Ho. unfold handle_frame. destruct (_ =? WEBSOCKET_OPCODE_PING); [by apply outcome_open|].
  destruct (_ =? WEBSOCKET_OPCODE_CLOSE).
  { apply outcome_shut. by destruct (close_shut true (sendGoodbye encode_utf8 None s)). }
  destruct (8 <=? opcode); [auto|]. destruct (_ =? WEBSOCKET_OPCODE_CONTINUATION).
  - destruct (fragmentedPayloads s) as [payloads|]; [|auto]. unfold _appendFragment.
    set (s1 := set_fragments _ _ _ s). destruct (enforce_outcome s1) as [H1 H2]; [done|].
    destruct (_enforceFragmentLimits encode_utf8 s1) as [s2 b]. cbn [fst snd] in H2.
    destruct b; [|exact H1]. rewrite H2 by done. cbn [negb].
    destruct isFinal; [apply (deliver_outcome _ _ s1); done|by apply outcome_open].
  - destruct (_ || _); [|auto].
    set (r := match fragmentedPayloads s with Some _ => _ | None => s end).
    assert (is_open r /\ queue r = queue s /\ heartbeatAlive r = heartbeatAlive s) as (Hr & <- & <-).
    { subst r. by destruct (fragmentedPayloads s). }
    destruct isFinal; [by apply deliver_outcome|]. by apply (enforce_outcome (set_fragments _ _ _ r)).
Qed.

(** A frame does the same with more bytes behind it. *)
Lemma handle_app isFinal opcode payload s c : is_open s ->
  let r := handle isFinal opcode payload s in
  let r' := handle isFinal opcode payload (set_queue (queue s ++ c) s) in
  (is_open r.1 /\ queue r.1 = queue s /\ r.2 = true /\ r'.2 = true /\ r'.1 = set_queue (queue s ++ c) r.1) \/
  (is_shut r.1 /\ r'.1 = r.1 /\ r'.2 = r.2).
Proof.
  intros Ho r r'. destruct (handle_alike encode_utf8 decode_utf8 maxMessages maxBytes (queue s) (queue s ++ c)
    isFinal opcode payload s (set_queue (queue s ++ c) s)) as [[_ Hs] Hb]; [by split; [constructor|]|].
  fold r r' in Hs, Hb. destruct (handle_outcome isFinal opcode payload s Ho) as [_ H1].
  destruct (handle_outcome isFinal opcode payload (set_queue (queue s ++ c) s) Ho) as [_ H2]. fold r in H1. fold r' in H2.
  assert (inboundClosed r'.1 = inboundClosed r.1) as Hc by (rewrite Hs; reflexivity).
  destruct H1 as [(Ho1 & Hq1 & Hb1)|Hs1].
  - left. destruct H2 as [(Ho2 & Hq2 & Hb2)|[Hs2 _]]; [|destruct Ho1; congruence].
    split_and!; try done. rewrite Hs, Hq2. reflexivity.
  - right. destruct Hs1 as [Hc1 Hq1]. destruct H2 as [([Ho2 _] & _)|[_ Hq2]]; [congruence|].
    split_and!; try done. rewrite Hs, Hq2, <- Hq1. by destruct r.1.
Qed.

Lemma process_shut fuel s : is_shut s -> process fuel s = s.
Proof. intros [_ Hq]. destruct fuel; [done|]. cbn [process_frames]. by rewrite Hq. Qed.

Lemma process_fuel f1 f2 s : is_open s -> (length (queue s) <= f1)%nat -> (length (queue s) <= f2)%nat ->
  process f1 s = process f2 s.
Proof.
  revert f2 s. induction f1 as [|f1 IH]; intros f2 s Ho H1 H2.
  { destruct f2; [done|]. cbn [process_frames]. destruct (queue s); [done|cbn in H1; lia]. }
  destruct f2 as [|f2]; [destruct (queue s) eqn:E; [cbn [process_frames]; by rewrite E|cbn in H2; lia]|].
  cbn [process_frames]. pose proof (read_frame_app (queue s) []) as Hr.
  destruct (read_frame (queue s)) as [| |isFinal opcode payload rest]; [done..|]. destruct Hr as [_ Hlen].
  destruct (handle_outcome isFinal opcode payload (set_queue rest s) Ho) as [_ Hout].
  destruct (handle isFinal opcode payload (set_queue rest s)) as [s1 [|]]; [|done].
  destruct Hout as [(Ho1 & Hq & _)|Hsh]; [|by rewrite !process_shut].
  cbn in Ho1, Hq. apply IH; [done|rewrite Hq; lia..].
Qed.

(** Bytes that come later are read as if they had come at once. *)
Lemma process_app fuel s c : is_open s -> (length (queue s) <= fuel)%nat ->
  let s1 := process fuel s in
  (is_open s1 /\ process (length (queue s ++ c)) (set_queue (queue s ++ c) s) =
     process (length (queue s1 ++ c)) (set_queue (queue s1 ++ c) s1)) \/
  (is_shut s1 /\ process (length (queue s ++ c)) (set_queue (queue s ++ c) s) = s1).
Proof.
  revert s. induction fuel as [|fuel IH]; intros s Ho Hfuel; [by left|]. cbn [process_frames].
  pose proof (read_frame_app (queue s) c) as Hr.
  destruct (read_frame (queue s)) as [| |isFinal opcode payload rest]; [by left| |].
  - right. destruct (length (queue s ++ c)) as [|n] eqn:Hn.
    { exfalso. apply length_zero_iff_nil, app_eq_nil in Hn as [Hn1 Hn2]. rewrite Hn1, Hn2 in Hr. done. }
    cbn [process_frames queue set_queue]. rewrite Hr. destruct (limit_shut s) as [Hs _]. split; [done|].
    unfold _closeForInboundLimit, _handleClose. done.
  - destruct Hr as [Hr Hlen]. destruct (length (queue s ++ c)) as [|n] eqn:Hn; [rewrite length_app in Hn; lia|].
    cbn [process_frames queue set_queue]. rewrite Hr.
    change (set_queue (rest ++ c) (set_queue (queue s ++ c) s)) with (set_queue (rest ++ c) (set_queue rest s)).
    destruct (handle_app isFinal opcode payload (set_queue rest s) c Ho) as [(Ho1 & Hq & Hb & Hb' & Hs')|(Hs1 & Hs' & Hb')];
      change (queue (set_queue rest s)) with rest in *; destruct (handle isFinal opcode payload (set_queue rest s)) as [s1 b],
      (handle isFinal opcode payload (set_queue (rest ++ c) (set_queue rest s))) as [s1' b']; cbn [fst snd] in *; subst.
    + destruct (IH s1) as [[H1 H2]|[H1 H2]]; [done|lia| |];
        [left|right]; (split; [done|]); rewrite <- H2; apply process_fuel; cbn [queue set_queue]; try done;
        rewrite length_app in *; lia.
    + right. destruct b; [rewrite !process_shut by done; done|done].
Qed.

Lemma process_alive fuel s : is_open s -> heartbeatAlive (process fuel s) = heartbeatAlive s /\
  (is_open (process fuel s) \/ is_shut (process fuel s)).
Proof.
  revert s. induction fuel as [|fuel IH]; intros s Ho; [auto|]. cbn [process_frames].
  destruct (read_frame (queue s)) as [| |isFinal opcode payload rest]; [auto|destruct (limit_shut s); auto|].
  destruct (handle_outcome isFinal opcode payload (set_queue rest s) Ho) as [Ha Hout]. cbn [heartbeatAlive set_queue] in Ha.
  destruct (handle isFinal opcode payload (set_queue rest s)) as [s1 [|]]; cbn [fst snd] in *.
  - destruct Hout as [(Ho1 & _)|Hsh]; [destruct (IH s1 Ho1); split; [congruence|done]|].
    rewrite process_shut by done. auto.
  - destruct Hout as [(_ & _ & H)|Hsh]; [done|auto].
Qed.
(** An overloaded session is closed. *)
Definition sound {Q} (s : session Q) : Prop := inboundBacklogOverloaded s = true -> inboundClosed s = true.

Lemma set_alive_same s : heartbeatAlive s = true -> set_alive true s = s.
Proof. destruct s. cbn. by intros ->. Qed.

Lemma sound_cases s : sound s -> inboundClosed s = true \/ is_open s.
Proof.
  intros H. destruct (inboundClosed s) eqn:Hc; [by left|right]. split; [done|].
  destruct (inboundBacklogOverloaded s) eqn:Hv; [|done]. by rewrite (H Hv) in Hc.
Qed.

Lemma data_sound b s : sound s -> sound (data_in b s) /\ heartbeatAlive (data_in b s) = true.
Proof.
  intros Hs. unfold onData. change (inboundClosed (set_alive true s)) with (inboundClosed s).
  destruct (sound_cases s Hs) as [-> |Ho]; [done|]. destruct (_ || _); [done|]. unfold _processBuffer.
  match goal with |- context [process ?n ?x] => destruct (process_alive n x)
    as [Ha [[_ H]|[H _]]]; [exact Ho|..] end; (split; [|exact Ha]); intros ?; congruence.
Qed.

Lemma data_app b c s : sound s -> data_in c (data_in b s) = data_in (b ++ c) s.
Proof.
  intros Hs. destruct (decide (c = [])) as [->|Hc].
  { rewrite app_nil_r. unfold onData at 1. rewrite bool_decide_eq_true_2, orb_true_r by done.
    apply set_alive_same, data_sound, Hs. }
  destruct (decide (b = [])) as [->|Hb].
  { assert (data_in [] s = set_alive true s) as ->; [|reflexivity].
    unfold onData. by rewrite bool_decide_eq_true_2, orb_true_r. }
  destruct (sound_cases s Hs) as [Hclosed|Ho].
  { unfold onData. cbn [inboundClosed set_alive]. by rewrite Hclosed; cbn [orb inboundClosed set_alive]; rewrite ?Hclosed. }
  assert (forall d x, is_open x -> heartbeatAlive x = true -> d <> [] ->
    data_in d x = process (length (queue x ++ d)) (set_queue (queue x ++ d) x)) as Hstep.
  { intros d x [Hx _] Hal Hd. unfold onData. rewrite set_alive_same by done. rewrite Hx, bool_decide_eq_false_2 by done. done. }
  assert (forall d, data_in d s = data_in d (set_alive true s)) as Halive by (intros d; unfold onData; by destruct s).
  rewrite (Halive b), (Halive (b ++ c)). set (s0 := set_alive true s). assert (is_open s0 /\ heartbeatAlive s0 = true) as [Ho0 Ha0] by done.
  clearbody s0. clear Halive Ho Hs s. rewrite (Hstep (b ++ c)) by (try done; by destruct b).
  rewrite (Hstep b) by done.
  destruct (process_app (length (queue s0 ++ b)) (set_queue (queue s0 ++ b) s0) c)
    as [[H1 H2]|[H1 H2]]; [exact Ho0|done| |]; cbn [queue set_queue] in H1, H2; rewrite <- app_assoc in H2;
    change (set_queue (queue s0 ++ b ++ c) (set_queue (queue s0 ++ b) s0)) with (set_queue (queue s0 ++ b ++ c) s0) in H2;
    rewrite H2;
    destruct (process_alive (length (queue s0 ++ b)) (set_queue (queue s0 ++ b) s0) Ho0) as [Ha1 _].
  - rewrite Hstep; [done|done|by rewrite Ha1|done].
  - unfold onData. rewrite set_alive_same by by rewrite Ha1. destruct H1 as [-> _]. done.
Qed.
End cut.

Lemma fold_flatten encode_utf8 decode_utf8 maxMessages maxBytes chunks (s : session chunk_queue) : queue_ok (queue s) ->
  flatten (fold_left (fun s data => onData encode_utf8 decode_utf8 maxMessages maxBytes data s) chunks s) =
  fold_left (fun s data => onData encode_utf8 decode_utf8 maxMessages maxBytes data s) chunks (flatten s).
Proof.
  revert s. induction chunks as [|data chunks IH]; intros s Hq; [done|]. cbn [fold_left].
  destruct (onData_flatten encode_utf8 decode_utf8 maxMessages maxBytes data s Hq) as [<- H]. by apply IH.
Qed.

Lemma fold_onData encode_utf8 decode_utf8 maxMessages maxBytes chunks (s : session bytes) : sound s -> chunks <> [] ->
  fold_left (fun s data => onData encode_utf8 decode_utf8 maxMessages maxBytes data s) chunks s =
  onData encode_utf8 decode_utf8 maxMessages maxBytes (concat chunks) s.
Proof.
  revert s. induction chunks as [|data chunks IH]; [done|]. intros s Hs _. cbn [fold_left concat].
  destruct chunks as [|data' chunks]; [cbn; by rewrite app_nil_r|].
  rewrite IH; [by rewrite data_app|by apply data_sound|done].
Qed.

(** C30: What a session does with the bytes of its socket does not depend on how they are cut
    into chunks: the events, the messages it has put together, the accounting and what is
    left to read are those of one chunk. *)
Theorem frames_any_chunking encode_utf8 decode_utf8 maxMessages maxBytes chunks (s : session chunk_queue) :
  queue_ok (queue s) -> sound s -> chunks <> [] ->
  flatten (fold_left (fun s data => onData encode_utf8 decode_utf8 maxMessages maxBytes data s) chunks s) =
  onData encode_utf8 decode_utf8 maxMessages maxBytes (concat chunks) (flatten s).
Proof.
  intros Hq Hs Hne. rewrite fold_flatten by done. by apply fold_onData.
Qed.

(** ** What a peer writes *)

(** The masking of RFC 6455, section 5.3: octet [i] is combined with octet [i] modulo 4 of the
    key. *)
Definition masked (payload key : bytes) : bytes := imap (fun i octet => Z.lxor octet (nth (i mod 4)%nat key 0)) payload.

(** A frame as RFC 6455 defines it, masked or not. *)
Definition length_bytes (mask : option bytes) (size : Z) : bytes :=
  let masked := match mask with Some _ => 0x80 | None => 0 end in
  if size <? 126 then [masked + size]
  else if size <? 65536 then (masked + 126) :: write_big_endian 2 size
  else (masked + 127) :: write_big_endian 8 size.

Definition frame_bytes (isFinal : bool) (opcode : Z) (mask : option bytes) (payload : bytes) : bytes :=
  Z.lor (if isFinal then 0x80 else 0) opcode :: length_bytes mask (Z.of_nat (length payload)) ++
  match mask with Some key => key ++ masked payload key | None => payload end.

Lemma text_frame_bytes payload : text_frame payload = frame_bytes true WEBSOCKET_OPCODE_TEXT None payload.
Proof. unfold text_frame, frame_bytes, length_bytes. by repeat case_match. Qed.

Lemma masked_length payload key : length (masked payload key) = length payload.
Proof. apply length_imap. Qed.

Lemma unmask_masked payload key : _unmaskPayload (masked payload key) key = payload.
Proof.
  apply list_eq. intros i. unfold _unmaskPayload, masked, byte_at. rewrite !list_lookup_imap. destruct (payload !! i); [|done].
  cbn. f_equal. by rewrite Z.lxor_assoc, Z.lxor_nilpotent, Z.lxor_0_r.
Qed.

Lemma write_big_endian_length size n : length (write_big_endian size n) = size.
Proof. induction size; cbn; auto. Qed.

Lemma read_write_big_endian size n : 0 <= n < 256 ^ Z.of_nat size -> read_big_endian (write_big_endian size n) = n.
Proof.
  assert (forall acc, 0 <= n -> fold_left (fun n x => n * 256 + x) (write_big_endian size n) acc =
    acc * 256 ^ Z.of_nat size + n mod 256 ^ Z.of_nat size) as H.
  { intros acc Hn. revert acc. induction size as [|size IH]; intros acc; cbn [write_big_endian fold_left].
    - rewrite Z.mod_1_r. lia.
    - rewrite IH, Nat2Z.inj_succ, Z.pow_succ_r by lia. set (p := 256 ^ Z.of_nat size).
      assert (0 < p) by (apply Z.pow_pos_nonneg; lia).
      rewrite (Z.mul_comm 256 p), Z.rem_mul_r by lia. lia. }
  intros Hn. unfold read_big_endian. rewrite H by lia. rewrite Z.mod_small by lia. lia.
Qed.

Lemma first_byte (isFinal : bool) opcode : 0 <= opcode < 16 ->
  (Z.land (Z.lor (if isFinal then 0x80 else 0) opcode) WEBSOCKET_FINAL_FRAME =? WEBSOCKET_FINAL_FRAME) = isFinal /\
  Z.land (Z.lor (if isFinal then 0x80 else 0) opcode) 0x0F = opcode.
Proof.
  intros H. assert (forallb (fun o => (Z.land (Z.lor 0x80 o) 0x80 =? 0x80) && (Z.land (Z.lor 0x80 o) 15 =? o) &&
    negb (Z.land o 0x80 =? 0x80) && (Z.land o 15 =? o)) (seqZ 0 16) = true) as Hall by reflexivity.
  rewrite forallb_forall in Hall. specialize (Hall opcode). rewrite <- list_elem_of_In, elem_of_seqZ in Hall.
  specialize (Hall ltac:(lia)). rewrite !andb_true_iff, !Z.eqb_eq, negb_true_iff in Hall. destruct Hall as [[[H1 H2] H3] H4].
  unfold WEBSOCKET_FINAL_FRAME. destruct isFinal; [by rewrite H1, H2|]. by rewrite Z.lor_0_l, H3, H4.
Qed.

Lemma second_byte (masked : bool) l : 0 <= l < 128 ->
  Z.land ((if masked then 0x80 else 0) + l) 0x7F = l /\
  (Z.land ((if masked then 0x80 else 0) + l) 0x80 =? 0x80) = masked.
Proof.
  intros H. assert (forallb (fun l => (Z.land (0x80 + l) 0x80 =? 0x80) && (Z.land (0x80 + l) 0x7F =? l) &&
    negb (Z.land l 0x80 =? 0x80) && (Z.land l 0x7F =? l)) (seqZ 0 128) = true) as Hall by reflexivity.
  rewrite forallb_forall in Hall. specialize (Hall l). rewrite <- list_elem_of_In, elem_of_seqZ in Hall.
  specialize (Hall ltac:(lia)). rewrite !andb_true_iff, !Z.eqb_eq, negb_true_iff in Hall. destruct Hall as [[[H1 H2] H3] H4].
  destruct masked; [by rewrite H1, H2|]. by rewrite Z.add_0_l, H3, H4.
Qed.

Definition mask_ok (mask : option bytes) : Prop := match mask with Some key => length key = 4%nat | None => True end.

Definition is_masked (mask : option bytes) : bool := match mask with Some _ => true | None => false end.

(** The head of a frame: the first two bytes and the extended length. *)
Lemma read_head isFinal opcode (mask : option bytes) size (rest : bytes) :
  0 <= opcode < 16 -> 0 <= size <= WEBSOCKET_MAX_FINAL_FRAME_BYTES ->
  read_header (Z.lor (if isFinal : bool then 0x80 else 0) opcode :: length_bytes mask size ++ rest) =
  Header isFinal opcode (is_masked mask) (S (length (length_bytes mask size))) (Z.to_nat size).
Proof.
  intros Ho Hs. destruct (first_byte isFinal opcode Ho) as [F1 F2]. unfold length_bytes.
  set (masked := match mask with Some _ => 0x80 | None => 0 end). assert (masked = if is_masked mask then 0x80 else 0) as Hm by by destruct mask.
  unfold read_header. cbn [buffered FlatQueue peek].
  destruct (Z.ltb_spec size 126); [|destruct (Z.ltb_spec size 65536)];
    cbn [app length take]; unfold byte_at; cbn [nth]; rewrite decide_False by lia; rewrite F1, F2, Hm.
  - destruct (second_byte (is_masked mask) size) as [-> ->]; [lia|].
    destruct (Z.eqb_spec size 126); [lia|]. destruct (Z.eqb_spec size 127); [lia|]. done.
  - destruct (second_byte (is_masked mask) 126) as [-> ->]; [lia|]. cbn [Z.eqb Pos.eqb].
    cbn [write_big_endian app length take drop]. rewrite decide_False by lia.
    match goal with |- context [read_big_endian ?l] => assert (read_big_endian l = size) as ->
      by (apply (read_write_big_endian 2); lia) end. done.
  - destruct (second_byte (is_masked mask) 127) as [-> ->]; [lia|]. cbn [Z.eqb Pos.eqb].
    cbn [write_big_endian app length take drop]. rewrite decide_False by lia.
    unfold WEBSOCKET_MAX_FINAL_FRAME_BYTES, WEBSOCKET_MAX_FRAGMENTED_MESSAGE_BYTES in *.
    match goal with |- context [read_big_endian ?l] => assert (read_big_endian l = size) as ->
      by (apply (read_write_big_endian 8); lia) end. destruct (Z.ltb_spec (16 * 1024 * 1024) size); [lia|]. done.
Qed.

(** A frame is read as it was meant, and what follows it is left. *)
Lemma read_frame_bytes isFinal opcode mask payload (rest : bytes) : 0 <= opcode < 16 -> mask_ok mask ->
  Z.of_nat (length payload) <= WEBSOCKET_MAX_FINAL_FRAME_BYTES ->
  read_frame (frame_bytes isFinal opcode mask payload ++ rest) = Frame isFinal opcode payload rest.
Proof.
  intros Ho Hmask Hsize. unfold read_frame, frame_bytes. set (size := Z.of_nat (length payload)) in *.
  set (body := match mask with Some key => key ++ masked payload key | None => payload end).
  cbn [app]. rewrite <- app_assoc. rewrite (read_head isFinal opcode mask size (body ++ rest)) by (unfold size in *; lia).
  set (tail := length_bytes mask size). unfold size. rewrite Nat2Z.id. cbn [buffered FlatQueue consume].
  assert (length body = ((if is_masked mask then 4 else 0) + length payload)%nat) as Hbody.
  { subst body. destruct mask as [key|]; cbn in *; [|done]. rewrite length_app, masked_length. lia. }
  assert (length (Z.lor (if isFinal then 128 else 0) opcode :: tail) = S (length tail)) as Hhd by done.
  change (Z.lor (if isFinal then 128 else 0) opcode :: tail ++ body ++ rest) with
    ((Z.lor (if isFinal then 128 else 0) opcode :: tail) ++ body ++ rest).
  set (hd := Z.lor (if isFinal then 128 else 0) opcode :: tail) in *. clearbody hd. rewrite <- Hhd.
  rewrite decide_False by (rewrite !length_app, Hbody; lia).
  rewrite <- Nat.add_assoc, <- Hbody.
  rewrite take_app_add, drop_app_add, take_app_length, drop_app_length.
  f_equal; [|by rewrite drop_app_add, drop_app_length].
  destruct mask as [key|]; cbn [is_masked]; subst body; cbn in Hmask; [|by rewrite drop_0].
  rewrite <- Hmask, drop_app_length, take_app_length. apply unmask_masked.
Qed.

(** ** Messages *)

Record control := { is_ping : bool; control_mask : option bytes; control_payload : bytes }.
Record fragment := { fragment_mask : option bytes; fragment_payload : bytes }.

(** A text message in fragments, with the control frames that come before each of the later
    ones. *)
Record client_message := { first_fragment : fragment; more_fragments : list (list control * fragment) }.

Definition control_bytes (c : control) : bytes :=
  frame_bytes true (if is_ping c then WEBSOCKET_OPCODE_PING else WEBSOCKET_OPCODE_PONG) (control_mask c) (control_payload c).

Definition fragment_bytes (isFinal : bool) (opcode : Z) (f : fragment) : bytes :=
  frame_bytes isFinal opcode (fragment_mask f) (fragment_payload f).

Definition is_nil {A} (l : list A) : bool := match l with [] => true | _ => false end.

Fixpoint continuation_bytes (more : list (list control * fragment)) : bytes :=
  match more with
  | [] => []
  | (controls, f) :: more =>
      concat (map control_bytes controls) ++ fragment_bytes (is_nil more) WEBSOCKET_OPCODE_CONTINUATION f ++
      continuation_bytes more
  end.

Definition message_bytes (m : client_message) : bytes :=
  fragment_bytes (is_nil (more_fragments m)) WEBSOCKET_OPCODE_TEXT (first_fragment m) ++
  continuation_bytes (more_fragments m).

Definition more_payload (more : list (list control * fragment)) : bytes :=
  concat (map (fun x => fragment_payload x.2) more).

Definition message_payload (m : client_message) : bytes :=
  fragment_payload (first_fragment m) ++ more_payload (more_fragments m).

(** A ping is answered with its payload. *)
Definition control_events (c : control) : list event :=
  if is_ping c then [Output (frame_bytes true WEBSOCKET_OPCODE_PONG None (control_payload c))] else [].

Definition more_events (more : list (list control * fragment)) : list event :=
  concat (map (fun x => concat (map control_events x.1)) more).

Definition message_events (generation : nat) (m : client_message * json) : list event :=
  more_events (more_fragments m.1) ++
  [Received {| byteLength := Z.of_nat (length (message_payload m.1)); admitted_in := generation |} m.2].

Definition control_ok (c : control) : Prop := mask_ok (control_mask c) /\ (length (control_payload c) <= 125)%nat.
Definition fragment_ok (f : fragment) : Prop := mask_ok (fragment_mask f).

Record message_ok (decode_utf8 : bytes -> string) (m : client_message * json) : Prop := {
  masks_ok : Forall fragment_ok (first_fragment m.1 :: map snd (more_fragments m.1));
  controls_ok : Forall (fun x => Forall control_ok x.1) (more_fragments m.1);
  size_ok : Z.of_nat (length (message_payload m.1)) <= WEBSOCKET_MAX_FRAGMENTED_MESSAGE_BYTES;
  count_ok : (S (length (more_fragments m.1)) <= WEBSOCKET_MAX_FRAGMENTED_MESSAGE_FRAGMENTS)%nat;
  text_ok : parse (decode_utf8 (message_payload m.1)) = Some m.2
}.

Section received.
Context (encode_utf8 : string -> bytes) (decode_utf8 : bytes -> string) (maxMessages maxBytes : Z).

Abbreviation handle := (handle_frame encode_utf8 decode_utf8 maxMessages maxBytes).
Abbreviation process := (process_frames encode_utf8 decode_utf8 maxMessages maxBytes).

Implicit Types s : session bytes.

(** The loop, to its end. *)
Definition run s : session bytes := process (length (queue s)) s.

Definition log (events : list event) s : session bytes := {|
  queue := queue s; fragmentedPayloads := fragmentedPayloads s; fragmentedOpcode := fragmentedOpcode s;
  fragmentedBytes := fragmentedBytes s; heartbeatAlive := heartbeatAlive s; inboundClosed := inboundClosed s;
  inboundBacklogOverloaded := inboundBacklogOverloaded s; inboundPendingMessages := inboundPendingMessages s;
  inboundPendingBytes := inboundPendingBytes s; inboundAccountingGeneration := inboundAccountingGeneration s;
  paused := paused s; outboundQueue := outboundQueue s; resumable := resumable s; trace := trace s ++ events |}.

Lemma log_nil s : log [] s = s.
Proof. unfold log. rewrite app_nil_r. by destruct s. Qed.

Lemma log_log e1 e2 s : log e2 (log e1 s) = log (e1 ++ e2) s.
Proof. unfold log. cbn. by rewrite app_assoc. Qed.

Lemma run_frame isFinal opcode mask payload (rest : bytes) s s' : is_open s ->
  0 <= opcode < 16 -> mask_ok mask -> Z.of_nat (length payload) <= WEBSOCKET_MAX_FINAL_FRAME_BYTES ->
  is_open s' -> queue s' = rest -> handle isFinal opcode payload (set_queue rest s) = (s', true) ->
  run (set_queue (frame_bytes isFinal opcode mask payload ++ rest) s) = run s'.
Proof.
  intros Ho H1 H2 H3 Ho' Hq Hh. unfold run. cbn [queue set_queue].
  set (b := frame_bytes isFinal opcode mask payload ++ rest).
  assert (read_frame b = Frame isFinal opcode payload rest) as Hr by by apply read_frame_bytes.
  pose proof (read_frame_app b []) as Hlen. rewrite Hr in Hlen. destruct Hlen as [_ Hlen].
  destruct (length b) as [|n] eqn:Hb; [lia|]. cbn [process_frames queue set_queue]. rewrite Hr.
  change (set_queue rest (set_queue b s)) with (set_queue rest s). rewrite Hh.
  apply process_fuel; rewrite ?Hq; try done; lia.
Qed.

Lemma run_control c (rest : bytes) s : is_open s -> control_ok c ->
  run (set_queue (control_bytes c ++ rest) s) = run (set_queue rest (log (control_events c) s)).
Proof.
  intros Ho [Hm Hl].
  apply run_frame; try done; try (by destruct (is_ping c)); try (unfold WEBSOCKET_MAX_FINAL_FRAME_BYTES,
    WEBSOCKET_MAX_FRAGMENTED_MESSAGE_BYTES; lia).
  unfold control_events. destruct (is_ping c); unfold handle_frame; cbn [Z.eqb Pos.eqb].
  - unfold WEBSOCKET_OPCODE_PING. cbn. unfold _sendControlFrame, emit, log, set_queue. cbn. f_equal. f_equal. f_equal. f_equal.
    unfold frame_bytes, length_bytes. destruct (Z.ltb_spec (Z.of_nat (length (control_payload c))) 126); [|lia].
    rewrite Z.mod_small by lia. done.
  - cbn. by rewrite log_nil.
Qed.

Lemma run_controls controls (rest : bytes) s : is_open s -> Forall control_ok controls ->
  run (set_queue (concat (map control_bytes controls) ++ rest) s) =
  run (set_queue rest (log (concat (map control_events controls)) s)).
Proof.
  intros Ho Hall. revert s Ho. induction Hall as [|c controls Hc _ IH]; intros s Ho; cbn [map concat app].
  - by rewrite log_nil.
  - rewrite <- app_assoc, run_control by done. rewrite IH by done. by rewrite log_log.
Qed.

(** Between two messages. *)
Definition is_idle s : Prop :=
  is_open s /\ fragmentedPayloads s = None /\ fragmentedOpcode s = None /\ fragmentedBytes s = 0.

Lemma idle_fragments s : is_idle s -> set_fragments None None 0 s = s.
Proof. intros (_ & H1 & H2 & H3). destruct s. cbn in *. by subst. Qed.

(** A message of a size is taken. *)
Definition admit_size (size : Z) s : session bytes :=
  set_inbound (inboundClosed s) (inboundBacklogOverloaded s) (inboundPendingMessages s + 1)
    (inboundPendingBytes s + size) (inboundAccountingGeneration s) s.

Definition take_message (size : Z) (message : json) s : session bytes :=
  log [Received {| byteLength := size; admitted_in := inboundAccountingGeneration s |} message] (admit_size size s).

Definition has_room (size : Z) s : Prop :=
  inboundPendingMessages s + 1 <= maxMessages /\ inboundPendingBytes s + size <= maxBytes.

Lemma deliver_message payload message s : is_open s -> has_room (Z.of_nat (length payload)) s ->
  parse (decode_utf8 payload) = Some message ->
  deliver encode_utf8 decode_utf8 maxMessages maxBytes WEBSOCKET_OPCODE_TEXT payload s =
  (take_message (Z.of_nat (length payload)) message
     (match fragmentedPayloads s with Some _ => _resetFragmentBuffer s | None => s end), true).
Proof.
  intros [Hc Hv] [Hm Hb] Hp. unfold deliver. cbn [negb Z.eqb Pos.eqb WEBSOCKET_OPCODE_TEXT].
  set (r := match fragmentedPayloads s with Some _ => _ | None => s end).
  assert (inboundClosed r = false /\ inboundPendingMessages r = inboundPendingMessages s /\
    inboundPendingBytes r = inboundPendingBytes s) as (Hc' & Hm' & Hb') by (subst r; by destruct (fragmentedPayloads s)).
  clearbody r. unfold _admitInboundMessage. rewrite Hc', Hm', Hb'.
  destruct (Z.ltb_spec maxMessages (inboundPendingMessages s + 1)); [lia|].
  destruct (Z.ltb_spec maxBytes (inboundPendingBytes s + Z.of_nat (length payload))); [lia|]. cbn [orb].
  rewrite Hp. unfold take_message, admit_size. by rewrite Hc', Hm', Hb'.
Qed.

Lemma more_payload_cons x more : more_payload (x :: more) = fragment_payload x.2 ++ more_payload more.
Proof. done. Qed.

(** The fragments after the first one, with what is between them. *)
Lemma run_continue more ps message (rest : bytes) s : is_open s -> more <> [] ->
  Forall fragment_ok (map snd more) -> Forall (fun x => Forall control_ok x.1) more ->
  Z.of_nat (length (concat ps ++ more_payload more)) <= WEBSOCKET_MAX_FRAGMENTED_MESSAGE_BYTES ->
  (length ps + length more <= WEBSOCKET_MAX_FRAGMENTED_MESSAGE_FRAGMENTS)%nat ->
  has_room (Z.of_nat (length (concat ps ++ more_payload more))) s ->
  parse (decode_utf8 (concat ps ++ more_payload more)) = Some message ->
  run (set_queue (continuation_bytes more ++ rest)
    (set_fragments (Some ps) (Some WEBSOCKET_OPCODE_TEXT) (Z.of_nat (length (concat ps))) s)) =
  run (set_queue rest (take_message (Z.of_nat (length (concat ps ++ more_payload more))) message
    (log (more_events more) (set_fragments None None 0 s)))).
Proof.
  revert ps s. induction more as [|[controls f] more IH]; intros ps s Ho Hne Hf Hc Hsize Hcount Hroom Hp; [done|].
  apply Forall_cons in Hf as [Hf Hfs]. apply Forall_cons in Hc as [Hc Hcs]. cbn [fst snd] in *.
  rewrite more_payload_cons in *. cbn [snd] in *. cbn [continuation_bytes]. rewrite <- !app_assoc, run_controls by done.
  set (L := concat (map control_events controls)). set (p := fragment_payload f) in *.
  assert (concat (ps ++ [p]) = concat ps ++ p) as Hps by (rewrite concat_app; cbn; by rewrite app_nil_r).
  set (s1 := set_fragments (Some (ps ++ [p])) (Some WEBSOCKET_OPCODE_TEXT) (Z.of_nat (length (concat (ps ++ [p])))) (log L s)).
  assert (_appendFragment encode_utf8 p (set_queue (continuation_bytes more ++ rest)
    (log L (set_fragments (Some ps) (Some WEBSOCKET_OPCODE_TEXT) (Z.of_nat (length (concat ps))) s))) =
    (set_queue (continuation_bytes more ++ rest) s1, true)) as Happ.
  { unfold _appendFragment, _enforceFragmentLimits. cbn [fragmentedPayloads fragmentedBytes set_fragments set_queue log fmap option_fmap option_map].
    rewrite <- Nat2Z.inj_add, <- length_app, <- Hps.
    destruct (Z.ltb_spec WEBSOCKET_MAX_FRAGMENTED_MESSAGE_BYTES (Z.of_nat (length (concat (ps ++ [p]))))) as [Hlt|_].
    { rewrite Hps in Hlt. rewrite !length_app in *. lia. }
    rewrite bool_decide_eq_false_2; [reflexivity|]. rewrite length_app. cbn [length] in *. lia. }
  destruct more as [|x more].
  - cbn [continuation_bytes app more_payload map concat is_nil length] in *. rewrite app_nil_r in *.
    apply run_frame; try done; [unfold WEBSOCKET_MAX_FINAL_FRAME_BYTES; fold p; rewrite length_app in Hsize; lia|].
    fold p. unfold handle_frame. cbn [Z.eqb Pos.eqb WEBSOCKET_OPCODE_PING WEBSOCKET_OPCODE_CLOSE WEBSOCKET_OPCODE_CONTINUATION
      Z.leb Z.compare Pos.compare Pos.compare_cont].
    change (set_queue rest (set_queue (fragment_bytes true 0 f ++ rest) ?x)) with (set_queue rest x).
    cbn [fragmentedPayloads set_fragments set_queue log]. rewrite Happ. cbn [negb].
    change (default WEBSOCKET_OPCODE_TEXT (fragmentedOpcode (set_queue rest s1))) with WEBSOCKET_OPCODE_TEXT.
    change (default [] (fragmentedPayloads (set_queue rest s1))) with (ps ++ [p]). rewrite Hps.
    etransitivity; [apply deliver_message; done|]. unfold more_events. cbn. by rewrite app_nil_r.
  - etransitivity; [apply (run_frame _ _ _ _ _ _ (set_queue (continuation_bytes (x :: more) ++ rest) s1)); try done|].
    + fold p. unfold WEBSOCKET_MAX_FINAL_FRAME_BYTES. rewrite !length_app in Hsize. lia.
    + fold p. unfold handle_frame. cbn [Z.eqb Pos.eqb WEBSOCKET_OPCODE_PING WEBSOCKET_OPCODE_CLOSE WEBSOCKET_OPCODE_CONTINUATION
        Z.leb Z.compare Pos.compare Pos.compare_cont].
      cbn [fragmentedPayloads set_fragments set_queue log]. rewrite Happ. done.
    + refine (eq_trans (IH (ps ++ [p]) (log L s) _ _ _ _ _ _ _ _) _); rewrite ?Hps, <- ?app_assoc; try done.
      * rewrite length_app. cbn [length] in *. lia.
      * change (more_events ((controls, f) :: x :: more)) with (L ++ more_events (x :: more)). by rewrite <- log_log.
Qed.

(** The session after a message. *)
Definition after_message (m : client_message * json) s : session bytes :=
  take_message (Z.of_nat (length (message_payload m.1))) m.2 (log (more_events (more_fragments m.1)) s).

Lemma run_message m (rest : bytes) s : is_idle s -> message_ok decode_utf8 m ->
  has_room (Z.of_nat (length (message_payload m.1))) s ->
  run (set_queue (message_bytes m.1 ++ rest) s) = run (set_queue rest (after_message m s)).
Proof.
  intros Hi [Hm Hc Hsize Hcount Hp] Hroom. destruct m as [[f more] message]. unfold message_bytes, after_message, message_payload in *.
  cbn [fst snd first_fragment more_fragments] in *. apply Forall_cons in Hm as [Hf Hfs]. rewrite <- app_assoc.
  pose proof Hi as (Ho & Hn & _). set (p := fragment_payload f) in *.
  assert (Z.of_nat (length p) <= WEBSOCKET_MAX_FINAL_FRAME_BYTES) as Hps.
  { unfold WEBSOCKET_MAX_FINAL_FRAME_BYTES. rewrite length_app in Hsize. lia. }
  destruct more as [|x more]; cbn [is_nil].
  - cbn [continuation_bytes app]. unfold more_payload, more_events in *. cbn [map concat] in *. rewrite app_nil_r in *.
    rewrite log_nil. apply run_frame; try done. fold p. unfold handle_frame.
    cbn [Z.eqb Pos.eqb Z.leb Z.compare Pos.compare Pos.compare_cont orb]. cbn [fragmentedPayloads set_queue]. rewrite Hn.
    etransitivity; [by apply deliver_message|]. cbn [fragmentedPayloads set_queue]. by rewrite Hn.
  - etransitivity; [apply (run_frame _ _ _ _ _ _ (set_queue (continuation_bytes (x :: more) ++ rest)
      (set_fragments (Some [p]) (Some WEBSOCKET_OPCODE_TEXT) (Z.of_nat (length p)) s))); try done|].
    + fold p. unfold handle_frame.
      cbn [Z.eqb Pos.eqb Z.leb Z.compare Pos.compare Pos.compare_cont orb]. cbn [fragmentedPayloads set_queue]. rewrite Hn.
      unfold _enforceFragmentLimits. cbn [fragmentedPayloads fragmentedBytes set_fragments set_queue length].
      destruct (Z.ltb_spec WEBSOCKET_MAX_FRAGMENTED_MESSAGE_BYTES (Z.of_nat (length p))); [rewrite length_app in Hsize; lia|].
      rewrite bool_decide_eq_false_2 by (cbn in Hcount; lia). done.
    + pose proof (run_continue (x :: more) [p] message rest s) as Hrun.
      assert (concat [p] = p) as Hcp by (cbn; by rewrite app_nil_r). rewrite Hcp, (idle_fragments s) in Hrun by done.
      by apply Hrun.
Qed.

Definition sizes (ms : list (client_message * json)) : Z :=
  foldr (fun m n => Z.of_nat (length (message_payload m.1)) + n) 0 ms.

Lemma sizes_cons m ms : sizes (m :: ms) = Z.of_nat (length (message_payload m.1)) + sizes ms.
Proof. done. Qed.

Lemma sizes_nonneg ms : 0 <= sizes ms.
Proof. induction ms; [done|rewrite sizes_cons; lia]. Qed.

(** What a session is after messages. *)
Record received (ms : list (client_message * json)) s s' : Prop := {
  received_all : trace s' = trace s ++ concat (map (message_events (inboundAccountingGeneration s)) ms);
  messages_counted : inboundPendingMessages s' = inboundPendingMessages s + Z.of_nat (length ms);
  bytes_accounted : inboundPendingBytes s' = inboundPendingBytes s + sizes ms;
  still_idle : is_idle s';
  nothing_left : queue s' = []
}.

Lemma run_messages ms s : is_idle s -> queue s = [] -> Forall (message_ok decode_utf8) ms ->
  inboundPendingMessages s + Z.of_nat (length ms) <= maxMessages -> inboundPendingBytes s + sizes ms <= maxBytes ->
  received ms s (run (set_queue (concat (map (fun m => message_bytes m.1) ms)) s)).
Proof.
  intros Hi Hq Hall. revert s Hi Hq. induction Hall as [|m ms Hm _ IH]; intros s Hi Hq H1 H2.
  { change (run _) with (set_queue [] s). split; cbn; try lia; [by rewrite app_nil_r|exact Hi|done]. }
  rewrite sizes_cons in H2. pose proof (sizes_nonneg ms). cbn [map concat length] in *.
  rewrite run_message by (try done; split; lia).
  destruct (IH (after_message m s)) as [R1 R2 R3 R4 R5]; [exact Hi|exact Hq|cbn; lia|cbn; lia|].
  split; [|rewrite R2; cbn; lia|rewrite R3, sizes_cons; cbn; lia|done|done].
  rewrite R1. unfold message_events. cbn. by rewrite <- !app_assoc.
Qed.

Lemma onData_run data s : is_open s -> queue s = [] ->
  onData encode_utf8 decode_utf8 maxMessages maxBytes data s = run (set_queue data (set_alive true s)).
Proof.
  intros [Hc _] Hq. unfold onData. cbn [inboundClosed set_alive]. rewrite Hc. cbn [orb].
  case_bool_decide as Hd; [subst data|].
  - unfold run. cbn. rewrite <- Hq. by destruct s.
  - unfold _processBuffer, run. cbn [push FlatQueue buffered queue set_queue set_alive]. by rewrite Hq.
Qed.
End received.

(** C31: The text messages a client writes reach the session. A session between two messages,
    with room for them, that is fed their bytes in any cut - masked or not, in one frame or in
    fragments with pings and pongs between these, within the limits on fragments - takes
    exactly these messages, in their order, each with the size of its text; it answers every
    ping with its payload, stays open, and counts every message and byte as pending. *)
Theorem messages_are_received encode_utf8 decode_utf8 maxMessages maxBytes ms chunks (s : session chunk_queue) :
  queue_ok (queue s) -> flat (queue s) = [] -> is_idle (flatten s) -> Forall (message_ok decode_utf8) ms ->
  inboundPendingMessages s + Z.of_nat (length ms) <= maxMessages -> inboundPendingBytes s + sizes ms <= maxBytes ->
  chunks <> [] -> concat chunks = concat (map (fun m => message_bytes m.1) ms) ->
  received ms (flatten s)
    (flatten (fold_left (fun s data => onData encode_utf8 decode_utf8 maxMessages maxBytes data s) chunks s)).
Proof.
  intros Hq He Hi Hms H1 H2 Hne Hc. rewrite fold_flatten by done.
  rewrite fold_onData by (try done; intros Hv; by destruct Hi as ([_ Hv'] & _); rewrite Hv' in Hv).
  rewrite onData_run by (done || apply Hi). rewrite Hc.
  destruct (run_messages encode_utf8 decode_utf8 maxMessages maxBytes ms (set_alive true (flatten s)))
    as [R1 R2 R3 R4 R5]; done || by split.
Qed.

(** ** Concrete sessions *)

(** ASCII. *)
Definition ascii_bytes (s : string) : bytes := map (fun c => Z.of_N (N_of_ascii c)) (String.list_ascii_of_string s).
Definition ascii_text (b : bytes) : string := String.string_of_list_ascii (map (fun x => ascii_of_N (Z.to_N x)) b).

Definition new_session {Q} (q : Q) : session Q := {|
  queue := q; fragmentedPayloads := None; fragmentedOpcode := None; fragmentedBytes := 0; heartbeatAlive := true;
  inboundClosed := false; inboundBacklogOverloaded := false; inboundPendingMessages := 0; inboundPendingBytes := 0;
  inboundAccountingGeneration := 0; paused := false; outboundQueue := []; resumable := false; trace := [] |}.

Definition empty_queue : chunk_queue := cleared {| bufferChunks := []; bufferChunkIndex := 0; bufferChunkOffset := 0; bufferedBytes := 0 |}.

Definition key : bytes := [1; 2; 3; 4].

Definition object : json := JObj [("a"%string, JNum "1")].

(** An object in two masked fragments with a ping between them, then [2] in one frame. *)
Definition split_message : client_message := {|
  first_fragment := {| fragment_mask := Some key; fragment_payload := take 3 (ascii_bytes (stringify object)) |};
  more_fragments := [([{| is_ping := true; control_mask := Some key; control_payload := [7; 8] |}],
    {| fragment_mask := Some key; fragment_payload := drop 3 (ascii_bytes (stringify object)) |})] |}.

Definition short_message : client_message := {|
  first_fragment := {| fragment_mask := None; fragment_payload := ascii_bytes (stringify (JNum "2")) |}; more_fragments := [] |}.

Definition two_messages : list (client_message * json) :=
  [(split_message, object); (short_message, JNum "2")].

Definition two_messages_bytes : bytes := concat (map (fun m => message_bytes m.1) two_messages).

(** A byte at a time. *)
Definition by_byte (b : bytes) : list bytes := map (fun x => [x]) b.

Definition feed (chunks : list bytes) : session chunk_queue :=
  fold_left (fun s data => onData ascii_bytes ascii_text 1000 1000000 data s) chunks (new_session empty_queue).

Example two_messages_of_bytes : trace (feed (by_byte two_messages_bytes)) =
  [Output [138; 2; 7; 8]; Received {| byteLength := 7; admitted_in := 0 |} object;
   Received {| byteLength := 1; admitted_in := 0 |} (JNum "2")].
Proof. vm_compute. reflexivity. Qed.

(** A ping whose payload is longer than RFC 6455 lets it be is answered all the same, and its
    length does not fit the byte it is written to: the peer reads an empty pong, and the
    payload as further frames. *)
Example long_ping_breaks_stream :
  let ping := frame_bytes true WEBSOCKET_OPCODE_PING (Some key) (replicate 255 0) in
  exists pong rest, trace (feed [ping]) = [Output pong] /\
    read_frame pong = Frame true WEBSOCKET_OPCODE_PONG [] rest /\ length rest = 243%nat.
Proof. do 2 eexists. split_and!; vm_compute; reflexivity. Qed.

Lemma frames_any_chunking_witness :
  flatten (feed (by_byte two_messages_bytes)) =
  onData ascii_bytes ascii_text 1000 1000000 (concat (by_byte two_messages_bytes)) (flatten (new_session empty_queue)).
Proof.
  apply (frames_any_chunking ascii_bytes ascii_text 1000 1000000 (by_byte two_messages_bytes) (new_session empty_queue));
    [apply flat_cleared|done|vm_compute; discriminate].
Defined.

Lemma messages_are_received_witness :
  received two_messages (flatten (new_session empty_queue)) (flatten (feed (by_byte two_messages_bytes))).
Proof.
  apply (messages_are_received ascii_bytes ascii_text 1000 1000000 two_messages (by_byte two_messages_bytes) (new_session empty_queue));
    [apply flat_cleared|done|repeat split| |vm_compute; discriminate..|vm_compute; reflexivity].
  repeat constructor; vm_compute; (reflexivity || discriminate || lia).
Defined.
