(* ===== verification/WebsocketDispatch.v ===== *)
(** * WebSocket messages in order ([src/src/http-server/client/websocket-session.js])

    What becomes of the messages that the parser of [WebsocketFrames.v] admits.
    [_handleMessageWork] appends each to [_messageChain], a chain of promises: a task of the
    chain runs when the ones before it have settled. While the handler of the application
    is being resolved, a message that runs is set aside in [messageQueue];
    [_finishMessageHandlerResolution] puts a task that drains it into the chain. An admitted
    message counts against the limits of the backlog until its dispatch settles.

    A step is what happens without another callback between: data or a tick of the heartbeat
    comes, the session is destroyed, a task starts, a dispatch settles, or the resolver goes
    on. What a dispatch does is a parameter; it is recorded in [delivered] when it starts. *)

From stdpp Require Import base strings list relations.
From Stdlib Require Import ZArith Lia.
From S2P Require Import Prelude Json WebsocketFrames.
Open Scope Z_scope.

Record InboundMessageWork := { admission : InboundMessageAdmission; message : json }.

(** An entry of [_messageChain]. *)
Inductive task :=
| RunWork (work : InboundMessageWork)
| DrainQueue (useHandler : bool).

(** The task that runs: none, the dispatch of a message, or a drain that dispatches one and
    has others left. *)
Inductive running :=
| Idle
| Dispatching (work : InboundMessageWork)
| Draining (useHandler : bool) (work : InboundMessageWork) (rest : list InboundMessageWork).

(** The state of [_resolveMessageHandlerPromise]. *)
Inductive resolution := Resolving | Opening (hasOnMessage : bool) | Resolved.

Record dispatcher (Q : Type) := {
  inbound : session Q;
  messageChain : list task;
  current : running;
  messageQueue : list InboundMessageWork;
  pendingMessageHandler : bool;
  messageHandler : option bool;            (* and whether it has [onMessage] *)
  resolving : resolution;
  delivered : list (bool * InboundMessageWork)   (* to the handler, or to the routing *)
}.
Arguments inbound {Q} d.
Arguments messageChain {Q} d.
Arguments current {Q} d.
Arguments messageQueue {Q} d.
Arguments pendingMessageHandler {Q} d.
Arguments messageHandler {Q} d.
Arguments resolving {Q} d.
Arguments delivered {Q} d.

(** The works among the events of the parser. *)
Definition works (events : list event) : list InboundMessageWork :=
  omap (fun e => match e with Received a m => Some {| admission := a; message := m |} | _ => None end) events.

(** Closing calls [_abandonInboundMessages]. *)
Definition is_closing (e : event) : bool := match e with SessionPaused | SessionClosed => true | _ => false end.

Section dispatch.
Context {Q : Type} `{!ByteQueue Q}.
Context (encode_utf8 : string -> bytes) (decode_utf8 : bytes -> string).
Context (inboundMaxPendingMessages inboundMaxPendingBytes : Z).

Implicit Types d : dispatcher Q.

Definition set_current (r : running) d : dispatcher Q := {|
  inbound := inbound d; messageChain := messageChain d; current := r; messageQueue := messageQueue d;
  pendingMessageHandler := pendingMessageHandler d; messageHandler := messageHandler d;
  resolving := resolving d; delivered := delivered d |}.

Definition set_session (s : session Q) d : dispatcher Q := {|
  inbound := s; messageChain := messageChain d; current := current d; messageQueue := messageQueue d;
  pendingMessageHandler := pendingMessageHandler d; messageHandler := messageHandler d;
  resolving := resolving d; delivered := delivered d |}.

Definition set_chain (tasks : list task) d : dispatcher Q := {|
  inbound := inbound d; messageChain := tasks; current := current d; messageQueue := messageQueue d;
  pendingMessageHandler := pendingMessageHandler d; messageHandler := messageHandler d;
  resolving := resolving d; delivered := delivered d |}.

Definition set_messages (queued : list InboundMessageWork) (pending : bool) d : dispatcher Q := {|
  inbound := inbound d; messageChain := messageChain d; current := current d; messageQueue := queued;
  pendingMessageHandler := pending; messageHandler := messageHandler d;
  resolving := resolving d; delivered := delivered d |}.

Definition set_handler (handler : option bool) (r : resolution) d : dispatcher Q := {|
  inbound := inbound d; messageChain := messageChain d; current := current d; messageQueue := messageQueue d;
  pendingMessageHandler := pendingMessageHandler d; messageHandler := handler;
  resolving := r; delivered := delivered d |}.

Definition dispatched (handled : bool) (work : InboundMessageWork) d : dispatcher Q := {|
  inbound := inbound d; messageChain := messageChain d; current := current d; messageQueue := messageQueue d;
  pendingMessageHandler := pendingMessageHandler d; messageHandler := messageHandler d;
  resolving := resolving d; delivered := delivered d ++ [(handled, work)] |}.

Definition release (work : InboundMessageWork) d : dispatcher Q :=
  set_session (_releaseInboundAdmission (admission work) (inbound d)) d.

(** The parser ran, synchronously: the messages it has read are chained, one after the other;
    what was set aside is dropped when it closed the session. *)
Definition _handleMessageWork (s : session Q) d : dispatcher Q :=
  let events := drop (length (trace (inbound d))) (trace s) in
  let d := set_session s (set_chain (messageChain d ++ map RunWork (works events)) d) in
  if existsb is_closing events then set_messages [] (pendingMessageHandler d) d else d.

(** [destroy] *)
Definition destroy d : dispatcher Q :=
  set_session (_abandonInboundMessages (_clearBufferedFrameChunks (_resetFragmentBuffer (inbound d))))
    (set_messages [] (pendingMessageHandler d) d).

(** [_handleMessageInner] routes a message to the handler when that has [onMessage]. *)
Definition _dispatchMessage (work : InboundMessageWork) d : dispatcher Q :=
  dispatched (default false (messageHandler d)) work d.

Definition _runMessageWork (work : InboundMessageWork) d : dispatcher Q :=
  if inboundClosed (inbound d) then release work d else
  if pendingMessageHandler d then set_messages (messageQueue d ++ [work]) (pendingMessageHandler d) d else
  set_current (Dispatching work) (_dispatchMessage work d).

(** The loop of [_flushQueuedMessages], up to its next [await]. *)
Fixpoint flush_loop (useHandler : bool) (queued : list InboundMessageWork) d : dispatcher Q :=
  match queued with
  | [] => set_current Idle d
  | work :: queued =>
      if inboundClosed (inbound d) then flush_loop useHandler queued (release work d) else
      set_current (Draining useHandler work queued)
        (if useHandler && bool_decide (is_Some (messageHandler d)) then dispatched true work d
         else _dispatchMessage work d)
  end.

Definition _flushQueuedMessages (useHandler : bool) d : dispatcher Q :=
  flush_loop useHandler (messageQueue d) (set_messages [] (pendingMessageHandler d) d).

(** The callback that [_finishMessageHandlerResolution] chains. *)
Definition drain_queue (useHandler : bool) d : dispatcher Q :=
  let d := set_messages (messageQueue d) false d in
  if inboundClosed (inbound d) then set_messages [] false d else _flushQueuedMessages useHandler d.

Definition run_task (t : task) d : dispatcher Q :=
  match t with RunWork work => _runMessageWork work d | DrainQueue useHandler => drain_queue useHandler d end.

Definition _finishMessageHandlerResolution (useHandler : bool) d : dispatcher Q :=
  set_handler (messageHandler d) Resolved (set_chain (messageChain d ++ [DrainQueue useHandler]) d).

Definition send_error (error : option string) d : dispatcher Q :=
  match error with
  | Some text => set_session (sendJson encode_utf8 (JObj [("error"%string, JStr text); ("type"%string, JStr "error")]) (inbound d)) d
  | None => d
  end.

(** A dispatch settles, perhaps with an error: in the chain the message is released before the
    error is written, in a drain after. *)
Definition settle (error : option string) d : dispatcher Q :=
  match current d with
  | Idle => d
  | Dispatching work => send_error error (release work (set_current Idle d))
  | Draining useHandler work rest => flush_loop useHandler rest (release work (send_error error d))
  end.

(** [_resolveMessageHandlerPromise], when the promise settles with a handler or without. *)
Definition handler_resolved (handler : option bool) d : dispatcher Q :=
  match handler with
  | None => _finishMessageHandlerResolution false d
  | Some hasOnMessage =>
      if inboundClosed (inbound d) then set_handler (messageHandler d) Resolved (set_messages (messageQueue d) false d)
      else set_handler handler (Opening hasOnMessage) d
  end.

(** A connection or subscription came or went. *)
Definition set_resumable (b : bool) (s : session Q) : session Q := {|
  queue := queue s; fragmentedPayloads := fragmentedPayloads s; fragmentedOpcode := fragmentedOpcode s;
  fragmentedBytes := fragmentedBytes s; heartbeatAlive := heartbeatAlive s; inboundClosed := inboundClosed s;
  inboundBacklogOverloaded := inboundBacklogOverloaded s; inboundPendingMessages := inboundPendingMessages s;
  inboundPendingBytes := inboundPendingBytes s; inboundAccountingGeneration := inboundAccountingGeneration s;
  paused := paused s; outboundQueue := outboundQueue s; resumable := b; trace := trace s |}.

Inductive step : dispatcher Q -> dispatcher Q -> Prop :=
| step_data data d :
    step d (_handleMessageWork (onData encode_utf8 decode_utf8 inboundMaxPendingMessages inboundMaxPendingBytes data (inbound d)) d)
| step_heartbeat d : step d (_handleMessageWork (_heartbeatTick (inbound d)) d)
| step_destroy d : step d (destroy d)
| step_send body d : step d (set_session (sendJson encode_utf8 body (inbound d)) d)
| step_resumable b d : step d (set_session (set_resumable b (inbound d)) d)
| step_start t tasks d : current d = Idle -> messageChain d = t :: tasks -> step d (run_task t (set_chain tasks d))
| step_settle error d : current d <> Idle -> step d (settle error d)
| step_resolved handler d : resolving d = Resolving -> step d (handler_resolved handler d)
| step_opened hasOnMessage d : resolving d = Opening hasOnMessage -> step d (_finishMessageHandlerResolution hasOnMessage d).

(** A session with a handler, or with one to be resolved. *)
Definition new_dispatcher (q : Q) (handler : option bool) (resolver : bool) : dispatcher Q := {|
  inbound := {| queue := q; fragmentedPayloads := None; fragmentedOpcode := None; fragmentedBytes := 0;
    heartbeatAlive := true; inboundClosed := false; inboundBacklogOverloaded := false; inboundPendingMessages := 0;
    inboundPendingBytes := 0; inboundAccountingGeneration := 0; paused := false; outboundQueue := [];
    resumable := false; trace := [] |};
  messageChain := []; current := Idle; messageQueue := []; pendingMessageHandler := resolver;
  messageHandler := handler; resolving := if resolver then Resolving else Resolved; delivered := [] |}.
End dispatch.
