(* ===== verification/WebsocketDispatchCorrect.v ===== *)
(** * WebSocket messages in order: correctness

    Every admitted message is dispatched once, in the order of the bytes that carried it,
    whenever the handler is resolved; and the backlog counts what is admitted and has not
    settled, so that a session at rest has its whole budget. *)

From stdpp Require Import base strings list relations.
From Stdlib Require Import ZArith Lia.
From S2P Require Import Prelude Json WebsocketFrames WebsocketFramesCorrect WebsocketDispatch.
Open Scope Z_scope.

(** ** What the parser does to the accounting *)

Definition total (ws : list InboundMessageWork) : Z := foldr (fun w n => byteLength (admission w) + n) 0 ws.

Lemma total_app l1 l2 : total (l1 ++ l2) = total l1 + total l2.
Proof. unfold total. induction l1 as [|w l1 IH]; cbn [app foldr]; lia. Qed.

Lemma works_app e1 e2 : works (e1 ++ e2) = works e1 ++ works e2.
Proof. apply omap_app. Qed.

Definition admitted_at (generation : nat) (w : InboundMessageWork) : Prop := admitted_in (admission w) = generation.
Definition admitted_before (generation : nat) (w : InboundMessageWork) : Prop := (admitted_in (admission w) < generation)%nat.

(** The counters of a session, with works that are outstanding. *)
Record accounts {Q} (s : session Q) (ws : list InboundMessageWork) : Prop := {
  open_counted : inboundClosed s = false -> Forall (admitted_at (inboundAccountingGeneration s)) ws /\
    inboundPendingMessages s = Z.of_nat (length ws) /\ inboundPendingBytes s = total ws;
  closed_counted : inboundClosed s = true -> Forall (admitted_before (inboundAccountingGeneration s)) ws /\
    inboundPendingMessages s = 0 /\ inboundPendingBytes s = 0;
  sizes_counted : Forall (fun w => 0 <= byteLength (admission w)) ws
}.

Lemma accounts_same {Q Q'} (s : session Q) (s' : session Q') ws : accounts s ws ->
  inboundClosed s' = inboundClosed s -> inboundAccountingGeneration s' = inboundAccountingGeneration s ->
  inboundPendingMessages s' = inboundPendingMessages s -> inboundPendingBytes s' = inboundPendingBytes s -> accounts s' ws.
Proof. intros [H1 H2 H3] E1 E2 E3 E4. split; by rewrite ?E1, ?E2, ?E3, ?E4. Qed.

(** The limits of the backlog. *)
Definition within {Q} (maxMessages maxBytes : Z) (s : session Q) : Prop :=
  inboundPendingMessages s <= maxMessages /\ inboundPendingBytes s <= maxBytes.

Section grows.
Context {Q : Type} (maxMessages maxBytes : Z) (limits_ok : 0 <= maxMessages /\ 0 <= maxBytes).

(** From a session to a later one: events are added, works of them are accounted, and a
    session that is closed was so or has been closed. *)
Record grows (s s' : session Q) (events : list event) : Prop := {
  trace_grows : trace s' = trace s ++ events;
  closed_grows : inboundClosed s' = inboundClosed s || existsb is_closing events;
  accounts_grow : forall ws, accounts s ws -> accounts s' (ws ++ works events);
  closed_is_silent : inboundClosed s = true -> works events = [];
  stays_within : within maxMessages maxBytes s -> within maxMessages maxBytes s'
}.

Lemma grows_trans (s1 s2 s3 : session Q) e1 e2 : grows s1 s2 e1 -> grows s2 s3 e2 -> grows s1 s3 (e1 ++ e2).
Proof.
  intros [T1 C1 A1 S1 L1] [T2 C2 A2 S2 L2]. split.
  - by rewrite T2, T1, app_assoc.
  - by rewrite C2, C1, existsb_app, orb_assoc.
  - intros ws H. rewrite works_app, app_assoc. auto.
  - intros H. rewrite works_app, S1, S2; [done| |done]. by rewrite C1, H.
  - auto.
Qed.


(** Fields that are not counted. *)
Lemma grows_quiet (s s' : session Q) events : trace s' = trace s ++ events -> works events = [] ->
  existsb is_closing events = false -> inboundClosed s' = inboundClosed s ->
  inboundAccountingGeneration s' = inboundAccountingGeneration s ->
  inboundPendingMessages s' = inboundPendingMessages s -> inboundPendingBytes s' = inboundPendingBytes s ->
  grows s s' events.
Proof.
  intros Ht Hw He Hc Hg Hm Hb. split; [done|by rewrite He, orb_false_r| |done|unfold within; by rewrite Hm, Hb].
  intros ws H. rewrite Hw, app_nil_r. by apply (accounts_same s).
Qed.
End grows.

Ltac quiet := apply grows_quiet; cbn; rewrite ?app_nil_r; done.

Section parser.
Context {Q : Type} `{!ByteQueue Q}.
Context (encode_utf8 : string -> bytes) (decode_utf8 : bytes -> string) (maxMessages maxBytes : Z).
Context (limits_ok : 0 <= maxMessages /\ 0 <= maxBytes).
Implicit Types s : session Q.

Definition grows_to (s s' : session Q) : Prop := exists events, grows maxMessages maxBytes s s' events.

Lemma to_trans s1 s2 s3 : grows_to s1 s2 -> grows_to s2 s3 -> grows_to s1 s3.
Proof. intros [e1 H1] [e2 H2]. exists (e1 ++ e2). by eapply grows_trans. Qed.

Lemma to_refl s : grows_to s s.
Proof. exists []. quiet. Qed.

Lemma to_set_queue q s : grows_to s (set_queue q s).
Proof. exists []. quiet. Qed.
Lemma to_set_fragments p o n s : grows_to s (set_fragments p o n s).
Proof. exists []. quiet. Qed.
Lemma to_output b s : grows_to s (emit (Output b) s).
Proof. exists [Output b]. quiet. Qed.
Lemma to_goodbye status s : grows_to s (sendGoodbye encode_utf8 status s).
Proof. apply to_output. Qed.
Lemma to_control opcode payload s : grows_to s (_sendControlFrame opcode payload s).
Proof. apply to_output. Qed.
Lemma to_alive b s : grows_to s (set_alive b s).
Proof. exists []. quiet. Qed.

Lemma to_sendJson body s : grows_to s (sendJson encode_utf8 body s).
Proof. unfold sendJson. destruct (paused s); [exists []; quiet|apply to_output]. Qed.

Lemma to_overloaded b s : grows_to s (set_inbound (inboundClosed s) b (inboundPendingMessages s) (inboundPendingBytes s)
  (inboundAccountingGeneration s) s).
Proof. exists []. quiet. Qed.

Lemma to_handleClose b s : grows_to s (_handleClose b s).
Proof.
  set (e := if b && resumable s && negb (paused s) then SessionPaused else SessionClosed).
  exists [e]. assert (is_closing e = true /\ works [e] = []) as [He Hw] by (subst e; by destruct (_ && _)).
  assert (trace (_handleClose b s) = trace s ++ [e] /\ inboundClosed (_handleClose b s) = true /\
    inboundAccountingGeneration (_handleClose b s) = S (inboundAccountingGeneration s) /\
    inboundPendingMessages (_handleClose b s) = 0 /\ inboundPendingBytes (_handleClose b s) = 0) as (Ht & Hc & Hg & Hm & Hb).
  { subst e. unfold _handleClose. cbn [resumable paused _abandonInboundMessages _clearBufferedFrameChunks _resetFragmentBuffer
      set_inbound set_queue set_fragments]. by destruct (b && resumable s && negb (paused s)). }
  split; [done|by rewrite Hc; cbn; rewrite He, orb_true_r| |done|unfold within; by rewrite Hm, Hb].
  intros ws [Ho Hcl Hn]. rewrite Hw, app_nil_r.
  split; [by rewrite Hc|intros _|done]. rewrite Hg, Hm, Hb. split_and!; try done.
  destruct (inboundClosed s) eqn:Hs; [destruct (Hcl eq_refl) as [H _]|destruct (Ho eq_refl) as [H _]];
    (eapply Forall_impl; [exact H|]); unfold admitted_before, admitted_at; lia.
Qed.

Hint Resolve to_refl to_set_queue to_set_fragments to_output to_goodbye to_control to_alive to_sendJson to_overloaded
  to_handleClose : core.

Lemma to_closeForInboundLimit s : grows_to s (_closeForInboundLimit encode_utf8 s).
Proof.
  eapply to_trans; [|apply to_handleClose]. eapply to_trans; [|apply to_goodbye].
  eapply to_trans; [|apply to_set_queue]. apply to_set_fragments.
Qed.

Lemma to_closeForInboundBacklog s : grows_to s (_closeForInboundBacklog encode_utf8 s).
Proof.
  unfold _closeForInboundBacklog. destruct (_ || _); [auto|].
  eapply to_trans; [|apply to_handleClose]. eapply to_trans; [|apply to_goodbye]. auto.
Qed.

Hint Resolve to_closeForInboundLimit to_closeForInboundBacklog : core.

Lemma to_enforce s : grows_to s (_enforceFragmentLimits encode_utf8 s).1.
Proof. unfold _enforceFragmentLimits. destruct (fragmentedPayloads s); [|auto]. destruct (_ || _); cbn; auto. Qed.

(** A message is admitted, and counted as a work of the generation. *)
Lemma to_received a m s : inboundClosed s = false ->
  a = {| byteLength := byteLength a; admitted_in := inboundAccountingGeneration s |} -> 0 <= byteLength a ->
  inboundPendingMessages s + 1 <= maxMessages -> inboundPendingBytes s + byteLength a <= maxBytes ->
  grows_to s (emit (Received a m) (set_inbound (inboundClosed s) (inboundBacklogOverloaded s) (inboundPendingMessages s + 1)
    (inboundPendingBytes s + byteLength a) (inboundAccountingGeneration s) s)).
Proof.
  intros Hc Ha Hn L1 L2. exists [Received a m]. split; [done|cbn; by rewrite orb_false_r| |by rewrite Hc|done].
  intros ws [Ho _ Hs]. destruct (Ho Hc) as (H1 & H2 & H3).
  split; [|by cbn; rewrite Hc|apply Forall_app; split; [done|by constructor]]. intros _. cbn. split_and!.
  - apply Forall_app. split; [done|]. constructor; [by rewrite Ha|constructor].
  - rewrite length_app. cbn. lia.
  - rewrite total_app. cbn. lia.
Qed.

Lemma to_deliver opcode payload s : grows_to s (deliver encode_utf8 decode_utf8 maxMessages maxBytes opcode payload s).1.
Proof.
  unfold deliver. set (r := match fragmentedPayloads s with Some _ => _ | None => s end).
  eapply (to_trans _ r); [subst r; destruct (fragmentedPayloads s); [apply to_set_fragments|auto]|]. clearbody r. clear s.
  destruct (negb _); [auto|]. unfold _admitInboundMessage. destruct (inboundClosed r) eqn:Hc; [auto|].
  destruct (_ || _) eqn:Hlimit; [cbn; auto|]. apply orb_false_iff in Hlimit as [L1%Z.ltb_ge L2%Z.ltb_ge].
  destruct (parse (decode_utf8 payload)) as [m|].
  - cbn [fst]. rewrite <- Hc at 1.
    exact (to_received {| byteLength := Z.of_nat (length payload); admitted_in := inboundAccountingGeneration r |} m r Hc eq_refl (Nat2Z.is_nonneg _) L1 L2).
  - cbn [fst]. eapply to_trans; [|apply to_sendJson]. unfold _releaseInboundAdmission. rewrite decide_True by done.
    exists []. apply grows_quiet; cbn; rewrite ?app_nil_r; try done; lia.
Qed.

Hint Resolve to_enforce to_deliver : core.

Lemma to_handle_frame isFinal opcode payload s :
  grows_to s (handle_frame encode_utf8 decode_utf8 maxMessages maxBytes isFinal opcode payload s).1.
Proof.
  unfold handle_frame. destruct (_ =? WEBSOCKET_OPCODE_PING); [cbn; auto|].
  destruct (_ =? WEBSOCKET_OPCODE_CLOSE); [eapply to_trans; [apply to_goodbye|cbn; auto]|].
  destruct (8 <=? opcode); [cbn; auto|]. destruct (_ =? WEBSOCKET_OPCODE_CONTINUATION).
  - destruct (fragmentedPayloads s); [|cbn; auto].
    assert (grows_to s (_appendFragment encode_utf8 payload s).1) as H.
    { unfold _appendFragment. eapply to_trans; [apply to_set_fragments|auto]. }
    destruct (_appendFragment encode_utf8 payload s) as [s1 [|]]; [|done]. cbn [fst negb] in *.
    destruct (negb isFinal); [done|]. eapply to_trans; [exact H|auto].
  - destruct (_ || _); [|cbn; auto]. set (r := match fragmentedPayloads s with Some _ => _ | None => s end).
    eapply (to_trans _ r); [subst r; destruct (fragmentedPayloads s); [apply to_set_fragments|auto]|].
    destruct isFinal; [auto|]. eapply to_trans; [apply to_set_fragments|auto].
Qed.

Lemma to_process fuel s : grows_to s (process_frames encode_utf8 decode_utf8 maxMessages maxBytes fuel s).
Proof.
  revert s. induction fuel as [|fuel IH]; intros s; [auto|]. cbn [process_frames].
  destruct (read_frame (queue s)) as [| |isFinal opcode payload rest]; [auto..|].
  pose proof (to_handle_frame isFinal opcode payload (set_queue rest s)) as H.
  destruct (handle_frame _ _ _ _ isFinal opcode payload (set_queue rest s)) as [s1 b]. cbn [fst] in H.
  apply (to_trans _ (set_queue rest s)); [auto|]. apply (to_trans _ s1); [exact H|]. destruct b; auto.
Qed.

Lemma to_onData data s : grows_to s (onData encode_utf8 decode_utf8 maxMessages maxBytes data s).
Proof.
  unfold onData. eapply (to_trans _ (set_alive true s)); [auto|]. destruct (_ || _); [auto|].
  eapply to_trans; [apply to_set_queue|apply to_process].
Qed.

Lemma to_heartbeatTick s : grows_to s (_heartbeatTick s).
Proof.
  unfold _heartbeatTick. destruct (paused s); [auto|]. destruct (negb _); [auto|].
  eapply to_trans; [apply to_alive|apply to_control].
Qed.
End parser.

Lemma Forall_sublist {A} (P : A -> Prop) l l' : l' `sublist_of` l -> Forall P l -> Forall P l'.
Proof. intros H. induction H; intros Hf; [done|apply Forall_cons in Hf as [? ?]; auto..]. Qed.

(** A closed session accounts for any of the works. *)
Lemma accounts_sublist {Q} (s : session Q) ws ws' : inboundClosed s = true -> accounts s ws -> ws' `sublist_of` ws ->
  accounts s ws'.
Proof.
  intros Hc [_ H Hn] Hsub. destruct (H Hc) as (H1 & H2 & H3).
  split; [by rewrite Hc|intros _; split_and!; try done|]; by eapply Forall_sublist.
Qed.

(** Releasing the first of the outstanding works. *)
Lemma release_accounts {Q} (s : session Q) w ws maxMessages maxBytes : accounts s (w :: ws) ->
  accounts (_releaseInboundAdmission (admission w) s) ws /\ trace (_releaseInboundAdmission (admission w) s) = trace s /\
  inboundClosed (_releaseInboundAdmission (admission w) s) = inboundClosed s /\
  (within maxMessages maxBytes s -> within maxMessages maxBytes (_releaseInboundAdmission (admission w) s)).
Proof.
  intros [Ho Hc Hn]. apply Forall_cons in Hn as [Hw Hn]. unfold _releaseInboundAdmission. case_decide as Hg.
  - cbn. split_and!; try done; [|unfold within; cbn; lia]. destruct (inboundClosed s) eqn:Hs.
    + destruct (Hc eq_refl) as ([H _]%Forall_cons & _). unfold admitted_before in H. lia.
    + destruct (Ho eq_refl) as ([_ H]%Forall_cons & Hm & Hb). cbn in Hm, Hb.
      split; cbn; [|done|done]. intros _. split_and!; [done|lia|unfold total in *; lia].
  - split_and!; try done. destruct (inboundClosed s) eqn:Hs.
    + destruct (Hc eq_refl) as ([_ H]%Forall_cons & Hm & Hb). by split; rewrite ?Hs.
    + by destruct (Ho eq_refl) as ([H _]%Forall_cons & _).
Qed.

(** ** The invariant of the dispatcher *)

Definition work_of (t : task) : option InboundMessageWork := match t with RunWork w => Some w | DrainQueue _ => None end.

Section invariant.
Context {Q : Type} `{!ByteQueue Q}.
Context (encode_utf8 : string -> bytes) (decode_utf8 : bytes -> string) (maxMessages maxBytes : Z).
Context (limits_ok : 0 <= maxMessages /\ 0 <= maxBytes).
Implicit Types d : dispatcher Q.

(** The dispatch that has started, and the works that have not, in their order. *)
Definition in_flight d : list InboundMessageWork :=
  match current d with Idle => [] | Dispatching w => [w] | Draining _ w _ => [w] end.

Definition waiting d : list InboundMessageWork :=
  match current d with Draining _ _ rest => rest | _ => [] end ++ messageQueue d ++ omap work_of (messageChain d).

Definition outstanding d : list InboundMessageWork := in_flight d ++ waiting d.

#[local] Arguments waiting : simpl never.
#[local] Arguments outstanding : simpl never.

Record dispatch_ok d : Prop := {
  accounted : accounts (inbound d) (outstanding d);
  in_limits : within maxMessages maxBytes (inbound d);
  in_order : inboundClosed (inbound d) = false -> works (trace (inbound d)) = map snd (delivered d) ++ waiting d;
  a_prefix : exists rest, works (trace (inbound d)) = map snd (delivered d) ++ rest;
  closed_drops : inboundClosed (inbound d) = true -> messageQueue d = [];
  set_aside : pendingMessageHandler d = false -> messageQueue d = [];
  drain_comes : pendingMessageHandler d = true -> resolving d <> Resolved \/ exists h, DrainQueue h ∈ messageChain d;
  drain_runs : match current d with Draining _ _ _ => messageQueue d = [] /\ pendingMessageHandler d = false | _ => True end
}.

(** A session that accounts for the same works. *)
Lemma ok_session s d : accounts s (outstanding d) -> within maxMessages maxBytes s ->
  works (trace s) = works (trace (inbound d)) -> inboundClosed s = inboundClosed (inbound d) ->
  dispatch_ok d -> dispatch_ok (set_session s d).
Proof.
  intros Ha Hw Ht Hc [H1 H2 H3 H4 H5 H6 H7 H8]. split; cbn [inbound delivered messageQueue pendingMessageHandler resolving
    messageChain current set_session]; rewrite ?Ht, ?Hc; done.
Qed.

Lemma ok_send body d : dispatch_ok d -> dispatch_ok (set_session (sendJson encode_utf8 body (inbound d)) d).
Proof.
  intros H. destruct (to_sendJson encode_utf8 maxMessages maxBytes body (inbound d)) as [events [Ht Hc Ha Hs Hw]].
  assert (works events = [] /\ existsb is_closing events = false) as [He1 He2].
  { unfold sendJson in Ht. destruct (paused (inbound d)); cbn in Ht.
    - destruct events; [done|]. apply (f_equal length) in Ht. rewrite length_app in Ht. cbn in Ht. lia.
    - apply app_inv_head in Ht. by subst. }
  apply ok_session; [|apply Hw, H|by rewrite Ht, works_app, He1, app_nil_r|by rewrite Hc, He2, orb_false_r|done].
  rewrite <- (app_nil_r (outstanding d)), <- He1. apply Ha, H.
Qed.

Lemma ok_send_error error d : dispatch_ok d -> dispatch_ok (send_error encode_utf8 error d).
Proof. intros H. destruct error; [by apply ok_send|done]. Qed.

Lemma omap_run ws : omap work_of (map RunWork ws) = ws.
Proof. induction ws; cbn; congruence. Qed.

(** What the parser has read is chained. *)
Lemma ok_handle s d : grows_to maxMessages maxBytes (inbound d) s -> dispatch_ok d -> dispatch_ok (_handleMessageWork s d).
Proof.
  intros [events [Ht Hc Ha Hs Hw]] [H1 H2 H3 H4 H5 H6 H7 H8]. unfold _handleMessageWork.
  rewrite Ht, drop_app_length. set (d1 := set_session s _).
  assert (outstanding d1 = outstanding d ++ works events /\ waiting d1 = waiting d ++ works events) as [Ho Hwait].
  { unfold outstanding, waiting, in_flight. cbn. rewrite omap_app, omap_run, !app_assoc. done. }
  assert (accounts s (outstanding d1)) as Ha1 by (rewrite Ho; auto).
  assert (exists rest, works (trace s) = map snd (delivered d) ++ rest) as Hp.
  { destruct H4 as [rest H4]. exists (rest ++ works events). by rewrite Ht, works_app, H4, app_assoc. }
  destruct (existsb is_closing events) eqn:He; rewrite ?orb_true_r, ?orb_false_r in Hc.
  - split; cbn; [|auto|by rewrite Hc|done|done..|intros Hpend|].
    + apply (accounts_sublist s (outstanding d1)); [done|done|]. subst d1. unfold outstanding, waiting, in_flight. cbn.
      apply sublist_app; [done|]. apply sublist_app; [done|]. by apply sublist_inserts_l.
    + destruct (H7 Hpend) as [?|[h Hh]]; [by left|right]. exists h. apply elem_of_app. by left.
    + destruct (current d); [done..|]. by destruct H8.
  - split; cbn; [done|auto|intros Hopen|done|rewrite Hc; auto|auto|intros Hpend|done].
    + rewrite Hc in Hopen. change (works (trace s) = map snd (delivered d) ++ waiting d1). rewrite Hwait, Ht, works_app, app_assoc. f_equal. auto.
    + destruct (H7 Hpend) as [?|[h Hh]]; [by left|right]. exists h. apply elem_of_app. by left.
Qed.

(** A step of the dispatcher over a session that has read nothing. *)
Lemma ok_moved d d' : dispatch_ok d ->
  works (trace (inbound d')) = works (trace (inbound d)) -> inboundClosed (inbound d') = inboundClosed (inbound d) ->
  accounts (inbound d') (outstanding d') -> within maxMessages maxBytes (inbound d') ->
  (inboundClosed (inbound d) = false -> map snd (delivered d') ++ waiting d' = map snd (delivered d) ++ waiting d) ->
  (inboundClosed (inbound d) = true -> delivered d' = delivered d /\ messageQueue d' = []) ->
  (pendingMessageHandler d' = false -> messageQueue d' = []) ->
  (pendingMessageHandler d' = true -> resolving d' <> Resolved \/ exists h, DrainQueue h ∈ messageChain d') ->
  match current d' with Draining _ _ _ => messageQueue d' = [] /\ pendingMessageHandler d' = false | _ => True end ->
  dispatch_ok d'.
Proof.
  intros [H1 H2 H3 H4 H5 H6 H7 H8] Ht Hc Ha Hw Hopen Hclosed Hs Hd Hr. split; rewrite ?Ht, ?Hc; try done.
  - intros Ho. rewrite Hopen by done. auto.
  - destruct (inboundClosed (inbound d)) eqn:E; [by destruct (Hclosed eq_refl) as [-> _]|].
    exists (waiting d'). rewrite Hopen by done. auto.
  - by intros Ho; apply Hclosed.
Qed.

Lemma ok_destroy d : dispatch_ok d -> dispatch_ok (destroy d).
Proof.
  intros [H1 H2 H3 H4 H5 H6 H7 H8]. split; cbn; try done; [|destruct (current d); [done..|]; by destruct H8].
  split; cbn; try done.
  - intros _. split_and!; try done. apply (Forall_sublist _ (outstanding d)).
    { unfold outstanding, waiting, in_flight. cbn. do 2 (apply sublist_app; [done|]). by apply sublist_inserts_l. }
    destruct H1 as [Ho Hc _]. destruct (inboundClosed (inbound d)); [destruct (Hc eq_refl) as [H _]|destruct (Ho eq_refl) as [H _]];
      (eapply Forall_impl; [exact H|]); unfold admitted_before, admitted_at; lia.
  - destruct H1 as [_ _ Hn]. eapply Forall_sublist; [|exact Hn]. unfold outstanding, waiting, in_flight. cbn.
    do 2 (apply sublist_app; [done|]). by apply sublist_inserts_l.
Qed.

(** A work that waits first in the chain. *)
Lemma ok_release_head w tasks d : inboundClosed (inbound d) = true -> current d = Idle ->
  dispatch_ok (set_chain (RunWork w :: tasks) d) -> dispatch_ok (set_chain tasks (release w d)).
Proof.
  intros Hc Hi H. pose proof H as [H1 H2 H3 H4 H5 H6 H7 H8]. cbn in H5, H6, H7.
  unfold outstanding, waiting, in_flight in H1. cbn in H1. rewrite Hi, H5 in H1 by done. cbn in H1.
  destruct (release_accounts _ _ _ maxMessages maxBytes H1) as (R1 & R2 & R3 & R4).
  apply (ok_moved _ _ H); cbn; rewrite ?Hi; try done; rewrite ?R2, ?R3; auto.
  - unfold outstanding, waiting, in_flight. cbn. rewrite Hi, H5 by done. done.
  - by rewrite Hc.
  - intros Hp. destruct (H7 Hp) as [?|[h Hh]]; [by left|right]. exists h. by apply elem_of_cons in Hh as [?|?].
Qed.

Lemma ok_start_head w tasks handled r d : inboundClosed (inbound d) = false -> current d = Idle -> messageQueue d = [] ->
  pendingMessageHandler d = false -> (r = Dispatching w /\ tasks = messageChain d \/
    exists h rest, r = Draining h w rest /\ tasks = map RunWork rest ++ messageChain d) ->
  dispatch_ok (set_chain (RunWork w :: tasks) d) -> dispatch_ok (set_current r (dispatched handled w d)).
Proof.
  intros Hc Hi Hm Hp Hr H. pose proof H as [H1 H2 H3 H4 H5 H6 H7 H8].
  assert (outstanding (set_current r (dispatched handled w d)) = outstanding (set_chain (RunWork w :: tasks) d) /\
    outstanding (set_current r (dispatched handled w d)) = w :: waiting (set_current r (dispatched handled w d))) as [Ho Hw].
  { unfold outstanding, waiting, in_flight. cbn. rewrite Hi, Hm.
    destruct Hr as [[-> ->]|(h & rest & -> & ->)]; cbn; [done|]. by rewrite omap_app, omap_run. }
  apply (ok_moved _ _ H); cbn; rewrite ?Hp; try done.
  - by rewrite Ho.
  - intros _. rewrite map_app, <- app_assoc. f_equal. cbn [map snd app].
    change (w :: waiting (set_current r (dispatched handled w d)) = waiting (set_chain (RunWork w :: tasks) d)).
    rewrite <- Hw, Ho. unfold outstanding, in_flight. cbn. by rewrite Hi.
  - by rewrite Hc.
  - by destruct Hr as [[-> _]|(h & rest & -> & _)].
Qed.

Lemma ok_flush useHandler queued d : messageQueue d = [] -> pendingMessageHandler d = false ->
  dispatch_ok (set_chain (map RunWork queued ++ messageChain d) (set_current Idle d)) ->
  dispatch_ok (flush_loop useHandler queued d).
Proof.
  revert d. induction queued as [|w queued IH]; intros d Hm Hp H; cbn [flush_loop].
  { exact H. }
  cbn [map app] in H. destruct (inboundClosed (inbound d)) eqn:Hc.
  - apply IH; [done..|]. by apply (ok_release_head w _ (set_current Idle d)).
  - assert (forall handled, dispatch_ok (set_current (Draining useHandler w queued) (dispatched handled w d))) as Hd.
    { intros handled. apply (ok_start_head w _ handled (Draining useHandler w queued) (set_current Idle d)) in H;
        [exact H|done..|]. right. by exists useHandler, queued. }
    destruct (_ && _); apply Hd.
Qed.

Lemma ok_run_task t tasks d : current d = Idle -> messageChain d = t :: tasks -> dispatch_ok d ->
  dispatch_ok (run_task t (set_chain tasks d)).
Proof.
  intros Hi Ht H. assert (set_chain (t :: tasks) d = d) as Hd by (rewrite <- Ht; by destruct d).
  pose proof H as [H1 H2 H3 H4 H5 H6 H7 H8]. destruct t as [w|useHandler]; cbn [run_task].
  - unfold _runMessageWork. cbn [inbound set_chain pendingMessageHandler messageQueue].
    destruct (inboundClosed (inbound d)) eqn:Hc; [apply (ok_release_head w tasks d); [done..|by rewrite Hd]|].
    destruct (pendingMessageHandler d) eqn:Hp.
    + assert (outstanding (set_messages (messageQueue d ++ [w]) true (set_chain tasks d)) = outstanding d /\
        waiting (set_messages (messageQueue d ++ [w]) true (set_chain tasks d)) = waiting d) as [Ho Hw].
      { unfold outstanding, waiting, in_flight. cbn. rewrite Ht, Hi. cbn. by rewrite <- app_assoc. }
      apply (ok_moved _ _ H); cbn; rewrite ?Hi, ?Hc; try done; [by rewrite Ho|intros _; by rewrite Hw|].
      intros _. destruct (H7 eq_refl) as [?|[h Hh]]; [by left|right]. exists h. rewrite Ht in Hh.
      by apply elem_of_cons in Hh as [?|?].
    + apply (ok_start_head w tasks (default false (messageHandler d)) (Dispatching w) (set_chain tasks d));
        try done; [by apply H6|by left|]. change (set_chain (RunWork w :: tasks) (set_chain tasks d)) with (set_chain (RunWork w :: tasks) d).
      by rewrite Hd.
  - unfold drain_queue, _flushQueuedMessages. cbn [inbound set_messages set_chain messageQueue pendingMessageHandler].
    destruct (inboundClosed (inbound d)) eqn:Hc.
    + apply (ok_moved _ _ H); cbn; rewrite ?Hi, ?Hc; try done.
      unfold outstanding, waiting, in_flight in *. cbn. rewrite Ht, Hi, H5 in H1 by done. by rewrite Hi.
    + apply ok_flush; [done..|]. apply (ok_moved _ _ H); cbn; rewrite ?Hc; try done.
      * unfold outstanding, waiting, in_flight in *. cbn. rewrite Ht, Hi in H1. by rewrite omap_app, omap_run.
      * intros _. f_equal. unfold waiting. cbn. rewrite Ht, Hi. by rewrite omap_app, omap_run.
Qed.

(** The work in flight settles. *)
Lemma ok_settle error d : dispatch_ok d -> dispatch_ok (settle encode_utf8 error d).
Proof.
  intros H. unfold settle. destruct (current d) as [|w|useHandler w rest] eqn:Hr; [done| |].
  - apply ok_send_error. pose proof H as [H1 H2 H3 H4 H5 H6 H7 H8].
    assert (outstanding d = w :: outstanding (release w (set_current Idle d))) as Ho.
    { unfold outstanding, waiting, in_flight. cbn. by rewrite Hr. }
    rewrite Ho in H1. destruct (release_accounts _ _ _ maxMessages maxBytes H1) as (R1 & R2 & R3 & R4).
    apply (ok_moved _ _ H); cbn; rewrite ?R2, ?R3; auto. intros _. f_equal. unfold waiting. cbn. by rewrite Hr.
  - apply ok_send_error with (error := error) in H. set (d1 := send_error encode_utf8 error d) in *.
    assert (current d1 = Draining useHandler w rest) as Hr1 by (subst d1; by destruct error).
    clearbody d1. clear d Hr. pose proof H as [H1 H2 H3 H4 H5 H6 H7 H8]. rewrite Hr1 in H8. destruct H8 as [Hm Hp].
    apply ok_flush; [done..|].
    set (d2 := set_chain _ _).
    assert (outstanding d1 = w :: outstanding d2 /\ waiting d2 = waiting d1) as [Ho Hw].
    { subst d2. unfold outstanding, waiting, in_flight. cbn. by rewrite Hr1, Hm, omap_app, omap_run. }
    rewrite Ho in H1. destruct (release_accounts _ _ _ maxMessages maxBytes H1) as (R1 & R2 & R3 & R4).
    apply (ok_moved _ _ H); cbn; rewrite ?R2, ?R3, ?Hp; auto. intros _. by f_equal.
Qed.

Lemma ok_finish hasOnMessage d : dispatch_ok d -> dispatch_ok (_finishMessageHandlerResolution hasOnMessage d).
Proof.
  intros H. pose proof H as [H1 H2 H3 H4 H5 H6 H7 H8].
  assert (waiting (_finishMessageHandlerResolution hasOnMessage d) = waiting d) as Hw.
  { unfold waiting. cbn. rewrite omap_app. cbn. by rewrite app_nil_r. }
  apply (ok_moved _ _ H); cbn; try done; auto.
  - unfold outstanding. by rewrite Hw.
  - intros _. by f_equal.
  - intros _. right. exists hasOnMessage. apply elem_of_app. right. by constructor.
Qed.

Lemma ok_resolved handler d : dispatch_ok d -> dispatch_ok (handler_resolved handler d).
Proof.
  intros H. destruct handler as [hasOnMessage|]; cbn [handler_resolved]; [|by apply ok_finish].
  pose proof H as [H1 H2 H3 H4 H5 H6 H7 H8]. destruct (inboundClosed (inbound d)) eqn:Hc.
  - apply (ok_moved _ _ H); cbn; try done; auto. destruct (current d); [done..|]. by destruct H8.
  - apply (ok_moved _ _ H); cbn; try done; auto. by rewrite Hc.
Qed.

(** ** The handler *)

(** While the handler is resolved nothing is dispatched; then the drain, and what comes after
    it, agree with the handler. *)
Record routed d : Prop := {
  handled : Forall (fun x => x.1 = default false (messageHandler d)) (delivered d);
  unresolved : resolving d <> Resolved ->
    delivered d = [] /\ pendingMessageHandler d = true /\ current d = Idle /\ forall h, DrainQueue h ∉ messageChain d;
  opening : forall h, resolving d = Opening h -> messageHandler d = Some h;
  drained : DrainQueue true ∈ messageChain d -> messageHandler d = Some true;
  draining : forall w rest, current d = Draining true w rest -> messageHandler d = Some true
}.

(** Dispatches may be added, and tasks that drain nothing; a drain may start. *)
Lemma routed_moved d d' : routed d -> messageHandler d' = messageHandler d -> resolving d' = resolving d ->
  (exists l, delivered d' = delivered d ++ l /\ Forall (fun x => x.1 = default false (messageHandler d)) l /\
     (resolving d <> Resolved -> l = [])) ->
  (resolving d <> Resolved -> pendingMessageHandler d' = true /\ current d' = Idle) ->
  (forall h, DrainQueue h ∈ messageChain d' -> DrainQueue h ∈ messageChain d) ->
  (forall w rest, current d' = Draining true w rest -> messageHandler d = Some true) -> routed d'.
Proof.
  intros [R1 R2 R3 R4 R5] Hh Hr (l & Hl & Hf & Hn) Hp Hc Hd. split; rewrite ?Hh, ?Hr; auto.
  - rewrite Hl. by apply Forall_app.
  - intros Hu. destruct (R2 Hu) as (E & _ & _ & H4). rewrite Hl, E, Hn by done. destruct (Hp Hu) as [-> ->].
    split_and!; try done. intros h H. by apply (H4 h), Hc.
Qed.

Lemma routed_same d d' : routed d -> messageHandler d' = messageHandler d -> resolving d' = resolving d ->
  delivered d' = delivered d -> pendingMessageHandler d' = pendingMessageHandler d -> current d' = current d ->
  (forall h, DrainQueue h ∈ messageChain d' -> DrainQueue h ∈ messageChain d) -> routed d'.
Proof.
  intros H Hh Hr Hl Hp Hc Hd. pose proof H as [R1 R2 R3 R4 R5]. apply (routed_moved d); try done.
  - exists []. by rewrite app_nil_r.
  - intros Hu. rewrite Hp, Hc. by destruct (R2 Hu) as (_ & ? & ? & _).
  - intros w rest. rewrite Hc. apply R5.
Qed.

Lemma drain_of_works h tasks ws : DrainQueue h ∈ tasks ++ map RunWork ws -> DrainQueue h ∈ tasks.
Proof. rewrite elem_of_app, list_elem_of_fmap. by intros [?|(w & [=] & _)]. Qed.

Lemma routed_handle s d : routed d -> routed (_handleMessageWork s d).
Proof.
  intros H. unfold _handleMessageWork. destruct (existsb _ _); apply (routed_same d); try done;
    cbn; intros h; apply drain_of_works.
Qed.

Lemma routed_flush useHandler queued d : resolving d = Resolved -> (useHandler = true -> messageHandler d = Some true) ->
  routed d -> routed (flush_loop useHandler queued d).
Proof.
  revert d. induction queued as [|w queued IH]; intros d Hr Hu H; cbn [flush_loop].
  { apply (routed_moved d); cbn; try done. exists []. by rewrite app_nil_r. }
  destruct (inboundClosed (inbound d)); [apply IH; [done..|]; by apply (routed_same d)|].
  destruct useHandler; [specialize (Hu eq_refl); rewrite Hu, bool_decide_eq_true_2 by done|]; cbn [andb];
    (apply (routed_moved d); cbn; try done; [eexists; split_and!; [done| |done]]).
  - constructor; [by rewrite Hu|constructor].
  - by constructor.
Qed.

Lemma routed_run_task t tasks d : messageChain d = t :: tasks -> routed d -> routed (run_task t (set_chain tasks d)).
Proof.
  intros Ht H. pose proof H as [R1 R2 R3 R4 R5].
  assert (forall h, DrainQueue h ∈ tasks -> DrainQueue h ∈ messageChain d) as Hsub by (intros h ?; rewrite Ht; by constructor).
  destruct t as [w|useHandler]; cbn [run_task].
  - unfold _runMessageWork. cbn [inbound set_chain pendingMessageHandler messageQueue].
    destruct (inboundClosed (inbound d)); [by apply (routed_same d)|].
    destruct (pendingMessageHandler d) eqn:Hp; [by apply (routed_same d)|].
    apply (routed_moved d); cbn; try done.
    + eexists. split_and!; [done|by constructor|]. intros Hu. destruct (R2 Hu) as (_ & Hp' & _). congruence.
    + intros Hu. destruct (R2 Hu) as (_ & Hp' & _). congruence.
  - assert (resolving d = Resolved) as Hr.
    { destruct (resolving d) eqn:E; [| |done]; destruct R2 as (_ & _ & _ & H4); try done;
        exfalso; apply (H4 useHandler); rewrite Ht; constructor. }
    assert (forall q, routed (set_messages q false (set_chain tasks d))) as Hq.
    { intros q. apply (routed_moved d); cbn; try done. exists []. by rewrite app_nil_r. }
    unfold drain_queue, _flushQueuedMessages. cbn [inbound set_messages set_chain messageQueue pendingMessageHandler].
    destruct (inboundClosed (inbound d)); [apply Hq|]. apply routed_flush; [done| |apply Hq].
    intros ->. apply R4. rewrite Ht. constructor.
Qed.

Lemma routed_settle error d : routed d -> routed (settle encode_utf8 error d).
Proof.
  intros H. pose proof H as [R1 R2 R3 R4 R5]. unfold settle. destruct (current d) as [|w|useHandler w rest] eqn:Hc; [done| |].
  - assert (routed (set_current Idle d)) as H0.
    { apply (routed_moved d); cbn; try done; [exists []; by rewrite app_nil_r|].
      intros Hu. by destruct (R2 Hu) as (_ & _ & ? & _). }
    destruct error; by apply (routed_same (set_current Idle d)).
  - assert (resolving d = Resolved) as Hr.
    { destruct (resolving d) eqn:E; [| |done]; by destruct R2 as (_ & _ & Hi & _). }
    apply routed_flush; [by destruct error|intros ->; destruct error; by apply (R5 w rest)|].
    destruct error; by apply (routed_same d).
Qed.

Lemma routed_finish hasOnMessage d : (hasOnMessage = true -> messageHandler d = Some true) -> routed d ->
  routed (_finishMessageHandlerResolution hasOnMessage d).
Proof.
  intros Hh [R1 R2 R3 R4 R5]. split; cbn; try done. rewrite elem_of_app. intros [?|Hd]; [auto|].
  apply list_elem_of_singleton in Hd. injection Hd as <-. auto.
Qed.

Lemma routed_resolved handler d : resolving d = Resolving -> dispatch_ok d -> routed d -> routed (handler_resolved handler d).
Proof.
  intros Hr Hok H. pose proof H as [R1 R2 R3 R4 R5]. destruct R2 as (D1 & D2 & D3 & D4); [by rewrite Hr|].
  destruct handler as [hasOnMessage|]; cbn [handler_resolved]; [|by apply routed_finish].
  destruct (inboundClosed (inbound d)).
  - by split; cbn.
  - split; cbn; rewrite ?D1, ?D2, ?D3; try done; [congruence|]. intros Hd. by destruct (D4 true).
Qed.

(** ** Every reachable state *)

Abbreviation run_step := (step encode_utf8 decode_utf8 maxMessages maxBytes).

Lemma ok_step d d' : run_step d d' -> dispatch_ok d /\ routed d -> dispatch_ok d' /\ routed d'.
Proof.
  intros Hs [H R]. destruct Hs as [data d|d|d|body d|b d|t tasks d Hi Ht|error d Hc|handler d Hr|hasOnMessage d Hr].
  - split; [apply ok_handle; [by apply to_onData|done]|by apply routed_handle].
  - split; [apply ok_handle; [by apply to_heartbeatTick|done]|by apply routed_handle].
  - split; [by apply ok_destroy|by apply (routed_same d)].
  - split; [by apply ok_send|by apply (routed_same d)].
  - split; [|by apply (routed_same d)]. apply ok_session; try done; destruct H; try done.
    by eapply accounts_same.
  - split; [by apply ok_run_task|by apply routed_run_task].
  - split; [by apply ok_settle|by apply routed_settle].
  - split; [by apply ok_resolved|by apply routed_resolved].
  - split; [by apply ok_finish|]. apply routed_finish; [|done]. intros ->. by apply R.
Qed.

Lemma ok_new q handler resolver : dispatch_ok (new_dispatcher q handler resolver) /\ routed (new_dispatcher q handler resolver).
Proof.
  split; split; cbn; try done; try (by exists []); try (by destruct resolver; auto); try (unfold within; cbn; lia).
  all: try (intros ?; inversion 1; fail). all: try (by intros ?%elem_of_nil).
  - intros Hr. split_and!; [done|by destruct resolver|done|]. by intros h ?%elem_of_nil.
Qed.

Lemma ok_reachable q handler resolver d : rtc run_step (new_dispatcher q handler resolver) d -> dispatch_ok d /\ routed d.
Proof.
  generalize (ok_new q handler resolver). generalize (new_dispatcher q handler resolver) as d0.
  intros d0 H0 H. induction H as [|d0 d1 d2 Hs _ IH]; [done|]. apply IH. by eapply ok_step.
Qed.
End invariant.

(** Nothing is left to run. *)
Definition at_rest {Q} (d : dispatcher Q) : Prop := current d = Idle /\ messageChain d = [] /\ resolving d = Resolved.

(** What becomes of the messages a session takes. *)
Record delivers_in_order {Q} (d : dispatcher Q) : Prop := {
  dispatched_in_order : exists rest, works (trace (inbound d)) = map snd (delivered d) ++ rest;
  routed_by_handler : Forall (fun x => x.1 = default false (messageHandler d)) (delivered d);
  nothing_is_lost : at_rest d -> inboundClosed (inbound d) = false -> map snd (delivered d) = works (trace (inbound d))
}.

(** C32: The messages a session takes from its bytes are dispatched in their order, each once,
    however data, ticks, settling dispatches, errors and the resolution of the handler
    interleave. None is routed before the handler is resolved, and all go where the handler
    says. In an open session at rest every message has been dispatched. *)
Theorem messages_dispatched_in_order {Q} `{!ByteQueue Q} encode_utf8 decode_utf8 maxMessages maxBytes (q : Q) handler resolver d :
  0 <= maxMessages -> 0 <= maxBytes ->
  rtc (step encode_utf8 decode_utf8 maxMessages maxBytes) (new_dispatcher q handler resolver) d -> delivers_in_order d.
Proof.
  intros L1 L2 H. destruct (ok_reachable encode_utf8 decode_utf8 maxMessages maxBytes (conj L1 L2) _ _ _ _ H) as [[] []].
  split; [done..|]. intros (Hi & Hc & Hr) Ho. rewrite in_order0 by done. unfold waiting. rewrite Hi, Hc, set_aside0.
  - cbn. by rewrite app_nil_r.
  - destruct (pendingMessageHandler d); [|done]. destruct (drain_comes0 eq_refl) as [?|[h Hh]]; [done|].
    rewrite Hc in Hh. by apply elem_of_nil in Hh.
Qed.

(** The backlog of an open session counts exactly the messages that are admitted and have
    not settled, with their bytes, and stays within the limits; that of a closed one is
    empty. So a session at rest has its whole budget. *)
Lemma backlog_counts_outstanding {Q} `{!ByteQueue Q} encode_utf8 decode_utf8 maxMessages maxBytes (q : Q) handler resolver d :
  0 <= maxMessages -> 0 <= maxBytes ->
  rtc (step encode_utf8 decode_utf8 maxMessages maxBytes) (new_dispatcher q handler resolver) d ->
  let counted := if inboundClosed (inbound d) then [] else outstanding d in
  inboundPendingMessages (inbound d) = Z.of_nat (length counted) /\ inboundPendingBytes (inbound d) = total counted /\
  0 <= inboundPendingMessages (inbound d) <= maxMessages /\ 0 <= inboundPendingBytes (inbound d) <= maxBytes /\
  (at_rest d -> inboundPendingMessages (inbound d) = 0 /\ inboundPendingBytes (inbound d) = 0).
Proof.
  intros L1 L2 H. destruct (ok_reachable encode_utf8 decode_utf8 maxMessages maxBytes (conj L1 L2) _ _ _ _ H) as [[] _].
  destruct accounted0 as [Ho Hc Hn], in_limits0 as [W1 W2]. cbn. assert (0 <= total (outstanding d)) as Ht.
  { clear -Hn. induction Hn as [|w ws Hw _ IH]; [done|]. unfold total in *. cbn [foldr]. lia. }
  destruct (inboundClosed (inbound d)).
  - destruct (Hc eq_refl) as (_ & -> & ->). by repeat split.
  - destruct (Ho eq_refl) as (_ & H1 & H2). rewrite H1, H2 in *. split_and!; try lia. intros (Hi & Hch & Hr).
    assert (outstanding d = []) as Hnil; [|by rewrite Hnil].
    unfold outstanding, in_flight, waiting. rewrite Hi, Hch, set_aside0; [done|].
    destruct (pendingMessageHandler d); [|done]. destruct (drain_comes0 eq_refl) as [?|[h Hh]]; [done|].
    rewrite Hch in Hh. by apply elem_of_nil in Hh.
Qed.

(** ** A concrete run *)

(** Two messages, [1] and [2], each a byte of text; the handler is resolved between them. *)
Definition demo_data (digit : Z) : bytes := text_frame [48 + digit].

Abbreviation demo_step := (step ascii_bytes ascii_text 1000 1000000).
Abbreviation demo_in data d :=
  (_handleMessageWork (onData ascii_bytes ascii_text 1000 1000000 data (inbound d)) d).

Definition demo_first : dispatcher bytes := demo_in (demo_data 1) (new_dispatcher [] None true).
Definition demo_work : InboundMessageWork :=
  {| admission := {| byteLength := 1; admitted_in := 0 |}; message := JNum "1" |}.
Definition demo_started : dispatcher bytes := run_task (RunWork demo_work) (set_chain [] demo_first).
Definition demo_resolved : dispatcher bytes := handler_resolved (Some true) demo_started.
Definition demo_opened : dispatcher bytes := _finishMessageHandlerResolution true demo_resolved.
Definition demo_second : dispatcher bytes := demo_in (demo_data 2) demo_opened.

Fixpoint demo_settle (fuel : nat) (d : dispatcher bytes) : dispatcher bytes :=
  match fuel with
  | O => d
  | S fuel =>
      match current d, messageChain d with
      | Idle, t :: tasks => demo_settle fuel (run_task t (set_chain tasks d))
      | Idle, [] => d
      | _, _ => demo_settle fuel (settle ascii_bytes (Some "failed") d)
      end
  end.

Definition demo_end : dispatcher bytes := demo_settle 10 demo_second.

Lemma demo_settle_reachable fuel d : rtc demo_step d (demo_settle fuel d).
Proof.
  revert d. induction fuel as [|fuel IH]; intros d; [done|]. cbn [demo_settle].
  destruct (current d) eqn:Hc; [destruct (messageChain d) eqn:Ht; [done|]| |]; (eapply rtc_l; [|apply IH]);
    [by apply step_start|apply step_settle; congruence..].
Qed.

Lemma demo_reachable : rtc demo_step (new_dispatcher [] None true) demo_end.
Proof.
  transitivity demo_second; [|apply demo_settle_reachable].
  assert (demo_step (new_dispatcher [] None true) demo_first) as H1 by apply step_data.
  assert (demo_step demo_first demo_started) as H2 by (apply step_start; vm_compute; reflexivity).
  assert (demo_step demo_started demo_resolved) as H3 by (apply step_resolved; vm_compute; reflexivity).
  assert (demo_step demo_resolved demo_opened) as H4 by (apply step_opened; vm_compute; reflexivity).
  assert (demo_step demo_opened demo_second) as H5 by apply step_data.
  exact (rtc_l _ _ _ _ H1 (rtc_l _ _ _ _ H2 (rtc_l _ _ _ _ H3 (rtc_l _ _ _ _ H4 (rtc_once _ _ H5))))).
Qed.

Lemma messages_dispatched_in_order_witness :
  delivers_in_order demo_end /\
  map (fun x => (x.1, message x.2)) (delivered demo_end) = [(true, JNum "1"); (true, JNum "2")] /\
  at_rest demo_end /\ inboundClosed (inbound demo_end) = false.
Proof.
  split; [|by repeat split]. eapply (messages_dispatched_in_order ascii_bytes ascii_text 1000 1000000 ([] : bytes) None true); [lia..|].
  apply demo_reachable.
Defined.

Lemma backlog_counts_outstanding_witness :
  inboundPendingMessages (inbound demo_second) = 2 /\ inboundPendingMessages (inbound demo_end) = 0.
Proof.
  split; [reflexivity|].
  destruct (backlog_counts_outstanding ascii_bytes ascii_text 1000 1000000 ([] : bytes) None true demo_end
    ltac:(lia) ltac:(lia) demo_reachable) as (_ & _ & _ & _ & H).
  apply H. by repeat split.
Defined.
