(* ===== verification/WebsocketSessions.v ===== *)
(** * WebSocket sessions that pause and resume
    ([src/src/http-server/client/websocket-session.js], [src/src/configuration.js],
    [src/src/http-server/websocket-connection.js])

    The connections an application has over a session outlive its socket: closing moves a
    session that has any into the registry of paused ones, what they write is queued, and a
    new session that names it takes both over within the grace period.

    The state is that of the server: sessions and connections are objects, so they have
    handles. A step is what the code does between two waits; what waits is in [pending].
    Parameters: whether an identity resolver is configured and which connection types are.
    The identities, and what the callbacks of a connection do and throw, are choices of the
    step. [wire] and [lost] record what is written, and what reaches nobody: frames for a
    socket that is closed and frames dropped from a full queue. Channel subscriptions,
    metadata and the [onDisconnect] and [onResume] notifications are left out. *)

From stdpp Require Import base strings gmap list relations.
From S2P Require Import Prelude Json WebsocketFrames.

Inductive reason := client_close | server_close | session_destroyed | grace_expired | error_reason.

(** The calls of an application's methods; [connected] is the end of [onConnect]. *)
Inductive callback := onConnect | connected | onMessage (body : json) | onClose (r : reason).

Inductive reply :=
| ErrorReply (text : string)
| ConnectionOpened (connectionId : string)
| ConnectionError (connectionId text : string)
| ConnectionMessage (connection : nat) (connectionId : string) (body : json)
| ConnectionClosed (connectionId : string) (r : reason)
| SessionGone
| SessionResumed (sessionId : nat).

Record connection := {
  connectionId : string;
  owner : nat;                             (* .session *)
  _closed : bool;
  called : list callback
}.

Record ws_session := {
  sessionId : nat;
  _connections : list (string * nat);      (* a Map, in insertion order *)
  _paused : bool;
  _inboundClosed : bool;
  _outboundQueue : list reply;
  socket_open : bool
}.

(** What waits: for [onConnect], [onMessage] or [onClose] of a connection, or for the
    identity of a caller. *)
Inductive waiting :=
| Opening (session connection : nat)
| Handling (session : nat) (connectionId : string)
| ClosingByClient (session : nat) (connectionId : string)
| ClosingByServer (connection : nat) (r : reason)
| TearingDown (r : reason) (rest : list nat)
| Resuming (session sessionId paused : nat).

Record server := {
  sessions : gmap nat ws_session;
  connections : gmap nat connection;
  _pausedWebsocketSessions : gmap nat nat; (* by session id *)
  pending : list waiting;
  next_handle : nat;
  said : list (nat * json);                (* the messages connections have sent *)
  wire : list (nat * reply);
  lost : list (nat * reply)
}.

(** ** Maps *)

Fixpoint map_set (key : string) (value : nat) (entries : list (string * nat)) : list (string * nat) :=
  match entries with
  | [] => [(key, value)]
  | (k, v) :: entries => if decide (k = key) then (k, value) :: entries else (k, v) :: map_set key value entries
  end.

Fixpoint map_get (key : string) (entries : list (string * nat)) : option nat :=
  match entries with
  | [] => None
  | (k, v) :: entries => if decide (k = key) then Some v else map_get key entries
  end.

Definition map_delete (key : string) (entries : list (string * nat)) : list (string * nat) :=
  filter (fun x => x.1 <> key) entries.

(** ** Assignments *)

Definition set_map (entries : list (string * nat)) (x : ws_session) : ws_session := {|
  sessionId := sessionId x; _connections := entries; _paused := _paused x; _inboundClosed := _inboundClosed x;
  _outboundQueue := _outboundQueue x; socket_open := socket_open x |}.

Definition set_outbound (queued : list reply) (x : ws_session) : ws_session := {|
  sessionId := sessionId x; _connections := _connections x; _paused := _paused x; _inboundClosed := _inboundClosed x;
  _outboundQueue := queued; socket_open := socket_open x |}.

Definition set_state (p c : bool) (x : ws_session) : ws_session := {|
  sessionId := sessionId x; _connections := _connections x; _paused := p; _inboundClosed := c;
  _outboundQueue := _outboundQueue x; socket_open := socket_open x |}.

Definition set_socket (b : bool) (x : ws_session) : ws_session := {|
  sessionId := sessionId x; _connections := _connections x; _paused := _paused x; _inboundClosed := _inboundClosed x;
  _outboundQueue := _outboundQueue x; socket_open := b |}.

Definition set_sessionId (id : nat) (x : ws_session) : ws_session := {|
  sessionId := id; _connections := _connections x; _paused := _paused x; _inboundClosed := _inboundClosed x;
  _outboundQueue := _outboundQueue x; socket_open := socket_open x |}.

Definition call (e : callback) (k : connection) : connection := {|
  connectionId := connectionId k; owner := owner k; _closed := _closed k; called := called k ++ [e] |}.

Definition mark_closed (k : connection) : connection := {|
  connectionId := connectionId k; owner := owner k; _closed := true; called := called k |}.

Definition set_owner (s : nat) (k : connection) : connection := {|
  connectionId := connectionId k; owner := s; _closed := _closed k; called := called k |}.

Definition on_session (s : nat) (f : ws_session -> ws_session) (w : server) : server := {|
  sessions := alter f s (sessions w); connections := connections w; _pausedWebsocketSessions := _pausedWebsocketSessions w;
  pending := pending w; next_handle := next_handle w; said := said w; wire := wire w; lost := lost w |}.

Definition on_connection (c : nat) (f : connection -> connection) (w : server) : server := {|
  sessions := sessions w; connections := alter f c (connections w); _pausedWebsocketSessions := _pausedWebsocketSessions w;
  pending := pending w; next_handle := next_handle w; said := said w; wire := wire w; lost := lost w |}.

Definition set_registry (m : gmap nat nat) (w : server) : server := {|
  sessions := sessions w; connections := connections w; _pausedWebsocketSessions := m;
  pending := pending w; next_handle := next_handle w; said := said w; wire := wire w; lost := lost w |}.

Definition set_pending (l : list waiting) (w : server) : server := {|
  sessions := sessions w; connections := connections w; _pausedWebsocketSessions := _pausedWebsocketSessions w;
  pending := l; next_handle := next_handle w; said := said w; wire := wire w; lost := lost w |}.

Definition await (k : waiting) (w : server) : server := set_pending (pending w ++ [k]) w.

Definition write (written dropped : list (nat * reply)) (w : server) : server := {|
  sessions := sessions w; connections := connections w; _pausedWebsocketSessions := _pausedWebsocketSessions w;
  pending := pending w; next_handle := next_handle w; said := said w;
  wire := wire w ++ written; lost := lost w ++ dropped |}.

(** ** Operations *)

(** [sendJson]; a handle that is not that of a session does not occur. *)
Definition sendJson (s : nat) (r : reply) (w : server) : server :=
  match sessions w !! s with
  | None => write [] [(s, r)] w
  | Some x =>
      if _paused x then
        let full := bool_decide (WEBSOCKET_PAUSED_QUEUE_CAP <= length (_outboundQueue x))%nat in
        let kept := if full then drop 1 (_outboundQueue x) else _outboundQueue x in
        write [] (if full then map (pair s) (take 1 (_outboundQueue x)) else [])
          (on_session s (set_outbound (kept ++ [r])) w)
      else if socket_open x then write [(s, r)] [] w
      else write [] [(s, r)] w
  end.

Definition fire_onClose (r : reason) (c : nat) (w : server) : server :=
  on_connection c (fun k => call (onClose r) (mark_closed k)) w.

(** The loop of [_teardownConnections], up to its next [await]. *)
Definition teardown_next (r : reason) (connections : list nat) (w : server) : server :=
  match connections with
  | [] => w
  | c :: rest => await (TearingDown r rest) (fire_onClose r c w)
  end.

Definition _teardownConnections (r : reason) (s : nat) (w : server) : server :=
  match sessions w !! s with
  | None => w
  | Some x => teardown_next r (map snd (_connections x)) (on_session s (set_map []) w)
  end.

(** [destroy], called for a session that closes without pausing. *)
Definition destroy (s : nat) (w : server) : server :=
  _teardownConnections session_destroyed s (on_session s (set_state false true) w).

(** [_pauseWebsocketSession] *)
Definition _pauseWebsocketSession (id s : nat) (w : server) : server :=
  match _pausedWebsocketSessions w !! id with
  | Some _ => w
  | None => set_registry (<[id := s]> (_pausedWebsocketSessions w)) w
  end.

(** The server ends the socket when the session emits [close]. *)
Definition _handleClose (allowResume : bool) (s : nat) (w : server) : server :=
  match sessions w !! s with
  | None => w
  | Some x =>
      let w := on_session s (fun x => set_socket false (set_state (_paused x) true x)) w in
      if allowResume && negb (bool_decide (_connections x = [])) && negb (_paused x)
      then _pauseWebsocketSession (sessionId x) s (on_session s (set_state true true) w)
      else destroy s (_teardownConnections session_destroyed s w)
  end.

Definition _finalizeGraceExpiry (s : nat) (w : server) : server :=
  _teardownConnections grace_expired s (on_session s (fun x => set_state (_paused x) true x) w).

Definition _clearPausedWebsocketSession (id : nat) (w : server) : server :=
  set_registry (delete id (_pausedWebsocketSessions w)) w.

Definition _expireWebsocketSession (id : nat) (w : server) : server :=
  match _pausedWebsocketSessions w !! id with
  | None => w
  | Some s => _finalizeGraceExpiry s (_clearPausedWebsocketSession id w)
  end.

(** The connections of a paused session go to another one. *)
Fixpoint transfer (s : nat) (entries : list (string * nat)) (w : server) : server :=
  match entries with
  | [] => w
  | (id, c) :: entries =>
      transfer s entries (on_session s (fun x => set_map (map_set id c (_connections x)) x) (on_connection c (set_owner s) w))
  end.

(** [_handleSessionResume] after the identities are known. *)
Definition finish_resume (identitiesMatch : bool) (s id p : nat) (w : server) : server :=
  let w := _clearPausedWebsocketSession id w in
  if negb identitiesMatch then sendJson s SessionGone (_finalizeGraceExpiry p w) else
  match sessions w !! p with
  | None => w
  | Some paused =>
      let w := on_session s (set_sessionId id) (transfer s (_connections paused) w) in
      let w := destroy p (on_session p (fun x => set_map [] (set_outbound [] x)) w) in
      foldl (fun w r => sendJson s r w) w (SessionResumed id :: _outboundQueue paused)
  end.

Section server.
Context (identityResolver : bool) (connectionTypes : string -> bool).

Definition _handleSessionResume (id : option nat) (s : nat) (w : server) : server :=
  match id with
  | None => sendJson s SessionGone w
  | Some id =>
      match _pausedWebsocketSessions w !! id with
      | None => sendJson s SessionGone w
      | Some p => if identityResolver then await (Resuming s id p) w else finish_resume true s id p w
      end
  end.

Definition new_connection (id : string) (s : nat) (w : server) : server := {|
  sessions := sessions w;
  connections := <[next_handle w := {| connectionId := id; owner := s; _closed := false; called := [onConnect] |}]> (connections w);
  _pausedWebsocketSessions := _pausedWebsocketSessions w; pending := pending w; next_handle := S (next_handle w);
  said := said w; wire := wire w; lost := lost w |}.

Definition connections_of (s : nat) (w : server) : list (string * nat) :=
  from_option _connections [] (sessions w !! s).

Definition _handleConnectionOpen (id type : string) (s : nat) (w : server) : server :=
  if decide (id = ""%string) then sendJson s (ErrorReply "connection-open requires connectionId") w else
  if decide (type = ""%string) then sendJson s (ConnectionError id "connectionType is required") w else
  match map_get id (connections_of s w) with
  | Some _ => sendJson s (ConnectionError id "Connection id already in use") w
  | None =>
      if negb (connectionTypes type) then sendJson s (ConnectionError id ("Unknown connection type: " +:+ type)) w
      else await (Opening s (next_handle w)) (new_connection id s w)
  end.

Definition _handleConnectionMessage (id : string) (body : json) (s : nat) (w : server) : server :=
  match map_get id (connections_of s w) with
  | None => sendJson s (ConnectionError id "Unknown connection id") w
  | Some c => await (Handling s id) (on_connection c (call (onMessage body)) w)
  end.

Definition _handleConnectionClose (id : string) (s : nat) (w : server) : server :=
  match map_get id (connections_of s w) with
  | None => w
  | Some c =>
      await (ClosingByClient s id)
        (fire_onClose client_close c (on_session s (fun x => set_map (map_delete id (_connections x)) x) w))
  end.

(** [sendMessage] of a connection: the new state, or the error it throws. *)
Definition sendMessage (c : nat) (body : json) (w : server) : string + server :=
  match connections w !! c with
  | None => inr w
  | Some k =>
      if _closed k then inl ("Cannot sendMessage on closed connection " +:+ connectionId k)
      else inr (sendJson (owner k) (ConnectionMessage c (connectionId k) body)
        {| sessions := sessions w; connections := connections w; _pausedWebsocketSessions := _pausedWebsocketSessions w;
           pending := pending w; next_handle := next_handle w; said := said w ++ [(c, body)]; wire := wire w; lost := lost w |})
  end.

(** [close] of a connection *)
Definition close (r : reason) (c : nat) (w : server) : server :=
  match connections w !! c with
  | None => w
  | Some k => if _closed k then w else await (ClosingByServer c r) (fire_onClose r c w)
  end.

(** A wait is over, with an error or not. *)
Definition proceed (error : option string) (k : waiting) (w : server) : server :=
  match k with
  | Opening s c =>
      match connections w !! c, error with
      | Some k, None =>
          sendJson s (ConnectionOpened (connectionId k))
            (on_session s (fun x => set_map (map_set (connectionId k) c (_connections x)) x) (on_connection c (call connected) w))
      | Some k, Some text =>
          sendJson s (ConnectionError (connectionId k)
            (if decide (text = ""%string) then "Failed to open connection"%string else text)) w
      | None, _ => w
      end
  | Handling s id =>
      match error with
      | None => w
      | Some text => sendJson s (ConnectionError id (if decide (text = ""%string) then "Failed to handle message"%string else text)) w
      end
  | ClosingByClient s id => sendJson s (ConnectionClosed id client_close) w
  | ClosingByServer c r =>
      match connections w !! c with
      | None => w
      | Some k =>
          on_session (owner k) (fun x => set_map (map_delete (connectionId k) (_connections x)) x)
            (sendJson (owner k) (ConnectionClosed (connectionId k) r) w)
      end
  | TearingDown r rest => teardown_next r rest w
  | Resuming s id p => finish_resume (match error with None => true | Some _ => false end) s id p w
  end.

(** ** Steps *)

(** The message chain of a session runs one message at a time. *)
Definition handles (s : nat) (k : waiting) : bool :=
  match k with
  | Opening s' _ | Handling s' _ | ClosingByClient s' _ | Resuming s' _ _ => bool_decide (s' = s)
  | _ => false
  end.

Definition dispatches (s : nat) (w : server) : bool :=
  match sessions w !! s with
  | Some x => negb (_inboundClosed x) && negb (existsb (handles s) (pending w))
  | None => false
  end.

Definition accept (w : server) : server := {|
  sessions := <[next_handle w := {| sessionId := next_handle w; _connections := []; _paused := false;
    _inboundClosed := false; _outboundQueue := []; socket_open := true |}]> (sessions w);
  connections := connections w; _pausedWebsocketSessions := _pausedWebsocketSessions w; pending := pending w;
  next_handle := S (next_handle w); said := said w; wire := wire w; lost := lost w |}.

Inductive action :=
| Accept
| Open (id type : string) (s : nat)
| Message (id : string) (body : json) (s : nat)
| Close (id : string) (s : nat)
| Resume (id : option nat) (s : nat)
| Send (c : nat) (body : json)
| ServerClose (r : reason) (c : nat)
| Proceed (error : option string) (i : nat)          (* what waits in that place *)
| CloseSession (allowResume : bool) (s : nat)        (* a close frame, a limit, a silent heartbeat *)
| Expire (id : nat)
| SocketCloses (s : nat).                            (* without a close frame *)

Definition perform (a : action) (w : server) : option server :=
  match a with
  | Accept => Some (accept w)
  | Open id type s => if dispatches s w then Some (_handleConnectionOpen id type s w) else None
  | Message id body s => if dispatches s w then Some (_handleConnectionMessage id body s w) else None
  | Close id s => if dispatches s w then Some (_handleConnectionClose id s w) else None
  | Resume id s => if dispatches s w then Some (_handleSessionResume id s w) else None
  | Send c body => match sendMessage c body w with inl _ => None | inr w' => Some w' end
  | ServerClose r c => Some (close r c w)
  | Proceed error i =>
      match pending w !! i with
      | None => None
      | Some k => Some (proceed error k (set_pending (delete i (pending w)) w))
      end
  | CloseSession allowResume s =>
      match sessions w !! s with
      | Some x => if _inboundClosed x then None else Some (_handleClose allowResume s w)
      | None => None
      end
  | Expire id => Some (_expireWebsocketSession id w)
  | SocketCloses s => Some (on_session s (set_socket false) w)
  end.

Definition step (w w' : server) : Prop := exists a, perform a w = Some w'.

Fixpoint run (actions : list action) (w : server) : option server :=
  match actions with
  | [] => Some w
  | a :: actions => match perform a w with Some w => run actions w | None => None end
  end.

Definition new_server : server := {|
  sessions := ∅; connections := ∅; _pausedWebsocketSessions := ∅; pending := []; next_handle := 0;
  said := []; wire := []; lost := [] |}.
End server.
