(* ===== verification/WebsocketSessionsCorrect.v ===== *)
(** * WebSocket sessions that pause and resume: correctness

    Every connection belongs to one session, through any number of pauses; its callbacks
    start with one [onConnect] and, unless the server closes it, end with at most one
    [onClose]; and its messages on the wire and in the queue of its session are in the order
    in which it sent them, with every other one counted as lost to a closed socket or a full
    queue. The examples show what the code does not guarantee. *)

From stdpp Require Import base strings gmap list relations.
From S2P Require Import Prelude Json WebsocketFrames WebsocketSessions.
Open Scope nat_scope.

(** ** Runs *)

Section runs.
Context (identityResolver : bool).

Abbreviation run_from := (run identityResolver (fun _ => true)).

(** A run from the start, and what it shows. *)
Definition after (actions : list action) : server := default new_server (run_from actions new_server).

Definition calls (c : nat) (w : server) : list callback := from_option called [] (connections w !! c).
Definition queued (s : nat) (w : server) : list reply := from_option _outboundQueue [] (sessions w !! s).
End runs.

(** Two sessions 0 and 2; the first has the connection 1, which is closed by a network
    failure, paused by a close frame, or resumed by the second. *)
Definition opened_connection : list action := [Accept; Open "a" "Chat" 0; Proceed None 0; Accept].

Example resumed : let w := after true (opened_connection ++
    [Send 1 (JNum "1"); CloseSession true 0; Send 1 (JNum "2"); Resume (Some 0) 2; Send 1 (JNum "3"); Proceed None 0; Send 1 (JNum "4")]) in
  wire w = [(0, ConnectionOpened "a"); (0, ConnectionMessage 1 "a" (JNum "1")); (2, SessionResumed 0);
    (2, ConnectionMessage 1 "a" (JNum "2")); (2, ConnectionMessage 1 "a" (JNum "3")); (2, ConnectionMessage 1 "a" (JNum "4"))] /\
  lost w = [] /\ connections_of 2 w = [("a"%string, 1)] /\ calls 1 w = [onConnect; connected].
Proof. repeat split. Qed.

(** A socket that closes without a close frame does not pause the session: what is written is
    lost, and a client that comes back before the heartbeat has noticed is told that its
    session is gone. *)
Example socket_failure_is_not_noticed : let w := after true (opened_connection ++
    [SocketCloses 0; Send 1 (JNum "1"); Resume (Some 0) 2]) in
  wire w = [(0, ConnectionOpened "a"); (2, SessionGone)] /\ lost w = [(0, ConnectionMessage 1 "a" (JNum "1"))].
Proof. repeat split. Qed.

(** A session that expires while the identity of the caller is resolved is resumed all the
    same, without its connections. *)
Example expired_session_is_resumed : let w := after true (opened_connection ++
    [CloseSession true 0; Resume (Some 0) 2; Expire 0; Proceed None 0]) in
  calls 1 w = [onConnect; connected; onClose grace_expired] /\ connections_of 2 w = [] /\
  wire w = [(0, ConnectionOpened "a"); (2, SessionResumed 0)].
Proof. repeat split. Qed.

(** A session that closes while it resumes another takes the connections with it: they belong
    to no socket and no grace period, and [onClose] is never called. *)
Example resumed_into_closed_session : let w := after true (opened_connection ++
    [CloseSession true 0; Resume (Some 0) 2; CloseSession true 2; Proceed None 0]) in
  calls 1 w = [onConnect; connected] /\ connections_of 2 w = [("a"%string, 1)] /\
  _pausedWebsocketSessions w = ∅ /\ (_paused <$> sessions w !! 2) = Some false /\ (socket_open <$> sessions w !! 2) = Some false /\
  pending w = [].
Proof. repeat split. Qed.

(** While the [onClose] of a connection that the server closes is awaited, the connection is
    still registered: it gets messages, and it is closed a second time. *)
Example closed_twice : calls 1 (after true (opened_connection ++
    [ServerClose server_close 1; Message "a" (JNum "1") 0; CloseSession false 0])) =
  [onConnect; connected; onClose server_close; onMessage (JNum "1"); onClose session_destroyed].
Proof. reflexivity. Qed.

(** A connection that closes itself in [onConnect] is registered when that is over: the client
    is told that it is opened after it was told that it is closed. *)
Example closed_in_onConnect : let w := after true [Accept; Open "a" "Chat" 0; ServerClose server_close 1; Proceed None 1; Proceed None 0] in
  wire w = [(0, ConnectionClosed "a" server_close); (0, ConnectionOpened "a")] /\ connections_of 0 w = [("a"%string, 1)].
Proof. repeat split. Qed.

(** A connection whose [onConnect] ends after the session has closed is registered with it,
    and never closed. *)
Example opened_after_close : let w := after true [Accept; Open "a" "Chat" 0; CloseSession true 0; Proceed None 0] in
  calls 1 w = [onConnect; connected] /\ connections_of 0 w = [("a"%string, 1)] /\ pending w = [] /\
  _pausedWebsocketSessions w = ∅.
Proof. repeat split. Qed.

(** A session that has a connection under the same id loses it when it resumes another: it
    is in no map any more, and [onClose] is never called. *)
Example resumed_over_a_connection : let w := after true (opened_connection ++
    [Open "a" "Chat" 2; Proceed None 0; CloseSession true 0; Resume (Some 0) 2; Proceed None 0; CloseSession false 2]) in
  calls 3 w = [onConnect; connected] /\ calls 1 w = [onConnect; connected; onClose session_destroyed] /\
  connections_of 2 w = [] /\ lost w = [].
Proof. repeat split. Qed.

(** ** Owners *)

(** The calls a connection may get: [onConnect] first and once, messages only after it has
    ended. *)
Inductive orderly : list callback -> Prop :=
| orderly_start : orderly [onConnect]
| orderly_connected l : connected ∉ l -> orderly l -> orderly (l ++ [connected])
| orderly_message l body : connected ∈ l -> orderly l -> orderly (l ++ [onMessage body])
| orderly_close l r : orderly l -> orderly (l ++ [onClose r]).

Definition opening_of (k : waiting) : option nat := match k with Opening _ c => Some c | _ => None end.

Record owned (w : server) : Prop := {
  registered : forall s id c, (id, c) ∈ connections_of s w ->
    exists k, connections w !! c = Some k /\ owner k = s /\ connectionId k = id /\ connected ∈ called k;
  one_per_id : forall s, NoDup (map fst (connections_of s w));
  not_yet : forall s c, Opening s c ∈ pending w ->
    exists k, connections w !! c = Some k /\ owner k = s /\ connected ∉ called k;
  opened_once : NoDup (omap opening_of (pending w));
  in_turn : forall c k, connections w !! c = Some k -> orderly (called k);
  closed_called : forall c k, connections w !! c = Some k -> _closed k = false -> forall r, onClose r ∉ called k;
  fresh : forall c, next_handle w <= c -> connections w !! c = None
}.

Lemma connections_of_on_session s s' f w :
  connections_of s' (on_session s f w) =
  if decide (s' = s) then from_option (fun x => _connections (f x)) [] (sessions w !! s) else connections_of s' w.
Proof.
  unfold connections_of. cbn. destruct (decide (s' = s)) as [->|].
  - rewrite lookup_alter. rewrite decide_True by done. by destruct (sessions w !! s).
  - by rewrite lookup_alter_ne by done.
Qed.

Lemma sublist_elem {A} (x : A) l l' : l `sublist_of` l' -> x ∈ l -> x ∈ l'.
Proof. intros H. induction H; rewrite ?elem_of_cons; naive_solver. Qed.

Lemma sublist_map {A B} (f : A -> B) l l' : l `sublist_of` l' -> map f l `sublist_of` map f l'.
Proof. intros H. induction H; cbn; by constructor. Qed.

Lemma sublist_NoDup {A} (l l' : list A) : l `sublist_of` l' -> NoDup l' -> NoDup l.
Proof.
  intros H. induction H as [|x l l' Hs IH|x l l' Hs IH]; rewrite ?NoDup_cons; [done| |naive_solver].
  intros [Hx Hn]. split; [|auto]. intros Hin. by apply Hx, (sublist_elem x l l').
Qed.

(** Nothing of what the owners are about. *)
Record same_core (w w' : server) : Prop := {
  core_maps : forall s, connections_of s w' = connections_of s w;
  core_connections : connections w' = connections w;
  core_pending : pending w' = pending w;
  core_next : next_handle w' = next_handle w
}.

Lemma core_refl w : same_core w w.
Proof. by split. Qed.

Lemma core_trans w1 w2 w3 : same_core w1 w2 -> same_core w2 w3 -> same_core w1 w3.
Proof. intros [A1 B1 C1 D1] [A2 B2 C2 D2]. split; [|congruence..]. intros s. by rewrite A2. Qed.

Lemma core_owned w w' : same_core w w' -> owned w -> owned w'.
Proof.
  intros [A B C D] [H1 H2 H3 H4 H5 H6 H7]. split; rewrite ?B, ?C, ?D; try done.
  - intros s id c. rewrite A. apply H1.
  - intros s. by rewrite A.
Qed.

Lemma core_on_session s f w : (forall x, _connections (f x) = _connections x) -> same_core w (on_session s f w).
Proof.
  intros Hf. split; try done. intros s'. rewrite connections_of_on_session. destruct (decide (s' = s)) as [->|]; [|done].
  unfold connections_of. destruct (sessions w !! s); cbn; auto.
Qed.

Lemma core_sendJson s r w : same_core w (sendJson s r w).
Proof.
  unfold sendJson. destruct (sessions w !! s) as [x|] eqn:Hx; [|by split].
  destruct (_paused x); [|by destruct (socket_open x)].
  match goal with |- same_core _ (write _ _ ?w') => apply (core_trans _ w'); [by apply core_on_session|by split] end.
Qed.

Lemma core_sends s rs w : same_core w (foldl (fun w r => sendJson s r w) w rs).
Proof.
  revert w. induction rs as [|r rs IH]; intros w; cbn [foldl]; [apply core_refl|].
  eapply core_trans; [apply core_sendJson|apply IH].
Qed.

#[local] Hint Resolve core_refl core_sendJson core_sends : core.

Lemma core_registry m w : same_core w (set_registry m w).
Proof. by split. Qed.
#[local] Hint Resolve core_registry : core.

(** The sessions keep a part of their connections, and the connections keep what is required
    of them. *)
Lemma owned_shrinks w w' : owned w ->
  (forall s, connections_of s w' `sublist_of` connections_of s w) ->
  (forall c, connections w' !! c = None <-> connections w !! c = None) ->
  (forall c k', connections w' !! c = Some k' -> exists k, connections w !! c = Some k /\ owner k' = owner k /\
    connectionId k' = connectionId k /\ (connected ∈ called k' <-> connected ∈ called k) /\
    (orderly (called k) -> orderly (called k')) /\
    (_closed k' = false -> _closed k = false /\ forall r, onClose r ∈ called k' -> onClose r ∈ called k)) ->
  (forall s c, Opening s c ∈ pending w' -> Opening s c ∈ pending w) -> NoDup (omap opening_of (pending w')) ->
  next_handle w' = next_handle w -> owned w'.
Proof.
  intros [H1 H2 H3 H4 H5 H6 H7] Hm Hn Hk Hp Hd Hnext.
  assert (forall c k, connections w !! c = Some k -> exists k', connections w' !! c = Some k') as Hex.
  { intros c k Hc. destruct (connections w' !! c) eqn:E; [by eexists|]. apply Hn in E. congruence. }
  split; try done.
  - intros s id c Hin. apply (sublist_elem _ _ _ (Hm s)) in Hin. apply H1 in Hin as (k & Hc & Ho & Hi & Hcon).
    destruct (Hex c k Hc) as [k' Hc']. destruct (Hk c k' Hc') as (k0 & Hc0 & E1 & E2 & E3 & _). simplify_eq.
    exists k'. rewrite E1, E2. split_and!; try done. by apply E3.
  - intros s. eapply sublist_NoDup; [|apply H2]. by apply sublist_map.
  - intros s c Hin. apply Hp, H3 in Hin as (k & Hc & Ho & Hcon).
    destruct (Hex c k Hc) as [k' Hc']. destruct (Hk c k' Hc') as (k0 & Hc0 & E1 & E2 & E3 & _). simplify_eq.
    exists k'. rewrite E1. split_and!; try done. by rewrite E3.
  - intros c k' Hc'. destruct (Hk c k' Hc') as (k & Hc & _ & _ & _ & Ho & _). eauto.
  - intros c k' Hc' Hcl r Hin. destruct (Hk c k' Hc') as (k & Hc & _ & _ & _ & _ & Hr). destruct (Hr Hcl) as [Hcl0 Hr0].
    by apply (H6 c k Hc Hcl0 r), Hr0.
  - intros c Hle. apply Hn, H7. by rewrite <- Hnext.
Qed.

(** ** What an operation does to owners *)

Lemma sublist_omap {A B} (f : A -> option B) l l' : l `sublist_of` l' -> omap f l `sublist_of` omap f l'.
Proof. intros H. induction H; cbn; [done|by destruct (f _); [constructor|]|by destruct (f _); [constructor|]]. Qed.

(** What was once in a list is not in it any more. *)
Lemma NoDup_delete_omap {A B} (f : A -> option B) l i x y : NoDup (omap f l) -> l !! i = Some x -> f x = Some y ->
  y ∉ omap f (delete i l).
Proof.
  intros Hn Hi Hf. apply list_elem_of_split_length in Hi as (l1 & l2 & -> & ->). rewrite delete_middle.
  rewrite !omap_app in *. cbn in Hn. rewrite Hf in Hn. apply NoDup_app in Hn as (_ & H1 & H2).
  apply NoDup_cons in H2 as [H2 _]. rewrite elem_of_app. intros [Hin|Hin]; [|done]. apply (H1 y Hin). by constructor.
Qed.

Lemma elem_map_set id c key value l : (id, c) ∈ map_set key value l -> (id, c) ∈ l \/ (id = key /\ c = value).
Proof.
  induction l as [|[k v] l IH]; cbn; [rewrite list_elem_of_singleton; intros [= -> ->]; by right|].
  destruct (decide (k = key)) as [->|]; rewrite !elem_of_cons; intros [[= -> ->]|Hin]; auto.
  destruct (IH Hin); auto.
Qed.

Lemma keys_map_set key value l : NoDup (map fst l) -> NoDup (map fst (map_set key value l)).
Proof.
  induction l as [|[k v] l IH]; cbn; intros Hn; [repeat constructor; by intros ?%elem_of_nil|].
  apply NoDup_cons in Hn as [Hk Hn]. destruct (decide (k = key)) as [->|Hne]; cbn; apply NoDup_cons; split; auto.
  intros Hin. apply list_elem_of_fmap in Hin as ([k' v'] & -> & Hin). cbn in Hk. apply elem_map_set in Hin as [Hin|[-> _]]; [|done].
  apply Hk, list_elem_of_fmap. by exists (k', v').
Qed.

Lemma map_get_elem id c l : map_get id l = Some c -> (id, c) ∈ l.
Proof.
  induction l as [|[k v] l IH]; cbn; [done|]. destruct (decide (k = id)) as [->|]; intros H; apply elem_of_cons; [left; congruence|auto].
Qed.

Lemma map_delete_sublist key l : map_delete key l `sublist_of` l.
Proof. apply sublist_filter. Qed.

(** One connection changes. *)
Lemma owned_on_connection c f w : owned w ->
  (forall k, connections w !! c = Some k -> owner (f k) = owner k /\ connectionId (f k) = connectionId k /\
    (connected ∈ called (f k) <-> connected ∈ called k) /\ (orderly (called k) -> orderly (called (f k))) /\
    (_closed (f k) = false -> _closed k = false /\ forall r, onClose r ∈ called (f k) -> onClose r ∈ called k)) ->
  owned (on_connection c f w).
Proof.
  intros H Hf. apply (owned_shrinks w); try done.
  - intros c'. cbn. rewrite lookup_alter_None. done.
  - intros c' k'. cbn. destruct (decide (c = c')) as [<-|Hne].
    + rewrite lookup_alter_Some. intros [(_ & k & Hk & ->)|[? _]]; [|done]. exists k. split; [done|]. by apply Hf.
    + rewrite lookup_alter_ne by done. intros Hk. exists k'. by split_and!.
  - apply H.
Qed.

Lemma owned_maps_shrink s f w : owned w -> (forall x, _connections (f x) `sublist_of` _connections x) -> owned (on_session s f w).
Proof.
  intros H Hf. apply (owned_shrinks w); try done; [|intros c k Hk; exists k; by split_and!|apply H].
  intros s'. rewrite connections_of_on_session. destruct (decide (s' = s)) as [->|]; [|done].
  unfold connections_of. destruct (sessions w !! s); cbn; auto.
Qed.

Lemma owned_pending l w : owned w -> (forall s c, Opening s c ∈ l -> Opening s c ∈ pending w) -> NoDup (omap opening_of l) ->
  owned (set_pending l w).
Proof. intros H Hl Hn. apply (owned_shrinks w); try done. intros c k Hk. exists k. by split_and!. Qed.

Lemma owned_await k w : opening_of k = None -> owned w -> owned (await k w).
Proof.
  intros Hk H. apply owned_pending; [done| |].
  - intros s c [?|Hin%list_elem_of_singleton]%elem_of_app; [done|by subst].
  - rewrite omap_app. cbn. rewrite Hk, app_nil_r. apply H.
Qed.

Lemma owned_delete i w : owned w -> owned (set_pending (delete i (pending w)) w).
Proof.
  intros H. apply owned_pending; [done| |].
  - intros s c. apply sublist_elem, sublist_delete.
  - eapply sublist_NoDup; [apply sublist_omap, sublist_delete|apply H].
Qed.

Lemma elem_snoc {A} (x e : A) l : x ∈ l ++ [e] <-> x ∈ l \/ x = e.
Proof. by rewrite elem_of_app, list_elem_of_singleton. Qed.

Lemma owned_fire r c w : owned w -> owned (fire_onClose r c w).
Proof.
  intros H. apply owned_on_connection; [done|]. intros k _. cbn. rewrite elem_snoc. split_and!; try done.
  - split; [by intros [?|?]|by left].
  - by constructor.
Qed.

Lemma owned_teardown_next r cs w : owned w -> owned (teardown_next r cs w).
Proof. intros H. destruct cs; [done|]. by apply owned_await, owned_fire. Qed.

Lemma owned_teardown r s w : owned w -> owned (_teardownConnections r s w).
Proof.
  intros H. unfold _teardownConnections. destruct (sessions w !! s); [|done]. apply owned_teardown_next, owned_maps_shrink; [done|].
  intros x. apply sublist_nil_l.
Qed.

Lemma owned_flags s f w : (forall x, _connections (f x) = _connections x) -> owned w -> owned (on_session s f w).
Proof. intros Hf. by apply core_owned, core_on_session. Qed.

Lemma owned_destroy s w : owned w -> owned (destroy s w).
Proof. intros H. by apply owned_teardown, owned_flags. Qed.

Lemma owned_registry m w : owned w -> owned (set_registry m w).
Proof. by apply core_owned. Qed.

Lemma owned_sendJson s r w : owned w -> owned (sendJson s r w).
Proof. by apply core_owned, core_sendJson. Qed.

Lemma owned_finalize s w : owned w -> owned (_finalizeGraceExpiry s w).
Proof. intros H. by apply owned_teardown, owned_flags. Qed.

Lemma owned_expire id w : owned w -> owned (_expireWebsocketSession id w).
Proof.
  intros H. unfold _expireWebsocketSession. destruct (_ !! id); [|done]. by apply owned_finalize, owned_registry.
Qed.

Lemma owned_handleClose b s w : owned w -> owned (_handleClose b s w).
Proof.
  intros H. unfold _handleClose. destruct (sessions w !! s) as [x|]; [|done]. destruct (_ && _).
  - unfold _pauseWebsocketSession. destruct (_ !! sessionId x); [|apply owned_registry]; (apply owned_flags; [done|]; by apply owned_flags).
  - by apply owned_destroy, owned_teardown, owned_flags.
Qed.

#[local] Hint Resolve owned_await owned_fire owned_teardown_next owned_destroy owned_registry owned_sendJson
  owned_finalize owned_expire owned_handleClose : core.

Lemma owned_close_by r c w : owned w -> owned (close r c w).
Proof. intros H. unfold close. destruct (connections w !! c) as [k|]; [|done]. destruct (_closed k); auto. Qed.

Lemma owned_send c body w w' : owned w -> sendMessage c body w = inr w' -> owned w'.
Proof.
  intros H. unfold sendMessage. destruct (connections w !! c) as [k|]; [|by intros [= <-]].
  destruct (_closed k); [done|]. intros [= <-]. apply owned_sendJson. by apply (core_owned w).
Qed.

(** Handing the connections over. *)
Lemma transfer_spec s entries w : let w' := transfer s entries w in
  (forall s', s' <> s -> connections_of s' w' = connections_of s' w) /\
  (forall id c, (id, c) ∈ connections_of s w' -> (id, c) ∈ connections_of s w \/ (id, c) ∈ entries) /\
  (NoDup (map fst (connections_of s w)) -> NoDup (map fst (connections_of s w'))) /\
  (forall c, connections w' !! c = (if decide (c ∈ map snd entries) then set_owner s else id) <$> connections w !! c) /\
  pending w' = pending w /\ next_handle w' = next_handle w.
Proof.
  revert w. induction entries as [|[i c0] entries IH]; intros w; cbn [transfer].
  { split_and!; try done; [by left|]. intros c. rewrite decide_False by apply not_elem_of_nil. by rewrite option_fmap_id. }
  set (w1 := on_session s _ _). destruct (IH w1) as (A & B & C & D & E & F).
  assert (forall s', connections_of s' w1 =
    if decide (s' = s) then from_option (fun x => map_set i c0 (_connections x)) [] (sessions w !! s) else connections_of s' w) as Hm.
  { intros s'. subst w1. by rewrite connections_of_on_session. }
  split_and!.
  - intros s' Hne. rewrite A, Hm by done. by rewrite decide_False.
  - intros id c Hin. apply B in Hin. rewrite elem_of_cons. rewrite Hm, decide_True in Hin by done.
    unfold connections_of. destruct (sessions w !! s) as [x|]; cbn in Hin |- *;
      destruct Hin as [Hin|Hin]; [|by auto|by apply elem_of_nil in Hin|by auto]. apply elem_map_set in Hin as [?|[-> ->]]; auto.
  - intros Hn. apply C. rewrite Hm, decide_True by done. unfold connections_of in Hn.
    destruct (sessions w !! s); [by apply keys_map_set|constructor].
  - intros c. rewrite D. subst w1. cbn. destruct (decide (c = c0)) as [->|Hne].
    + rewrite lookup_alter_eq. rewrite (decide_True (P := c0 ∈ c0 :: map snd entries)) by by constructor.
      destruct (connections w !! c0); [|done]. cbn. f_equal. by destruct (decide _).
    + rewrite lookup_alter_ne by done. f_equal.
      destruct (decide (c ∈ map snd entries)) as [Hin|Hin], (decide (c ∈ c0 :: map snd entries)) as [Hin'|Hin']; try done;
        rewrite elem_of_cons in Hin'; naive_solver.
  - by rewrite E.
  - by rewrite F.
Qed.

Lemma transferred_owned s p n w x : owned w -> sessions w !! p = Some x ->
  owned (on_session p (fun x => set_map [] (set_outbound [] x)) (on_session s (set_sessionId n) (transfer s (_connections x) w))).
Proof.
  intros [H1 H2 H3 H4 H5 H6 H7] Hx. destruct (transfer_spec s (_connections x) w) as (A & B & C & D & E & F).
  set (w1 := transfer s (_connections x) w) in *. set (w3 := on_session p _ _).
  assert (connections_of p w = _connections x) as Hp by (unfold connections_of; by rewrite Hx).
  assert (forall s', connections_of s' w3 = if decide (s' = p) then [] else connections_of s' w1) as Hm.
  { intros s'. subst w3. rewrite connections_of_on_session. destruct (decide (s' = p)) as [->|].
    - destruct (sessions (on_session s (set_sessionId n) w1) !! p); reflexivity.
    - by rewrite (core_maps w1) by by apply core_on_session. }
  assert (forall id c k, (id, c) ∈ _connections x -> connections w !! c = Some k -> owner k = p /\ connected ∈ called k) as Hmine.
  { intros id c k Hin Hk. rewrite <- Hp in Hin. apply H1 in Hin as (k' & Hk' & Ho & _ & Hcon). by simplify_eq. }
  assert (forall c k', connections w1 !! c = Some k' -> exists k, connections w !! c = Some k /\
    connectionId k' = connectionId k /\ called k' = called k /\ _closed k' = _closed k) as Hk.
  { intros c k'. rewrite D, fmap_Some. intros (k & Hk & ->). exists k. split; [done|]. by destruct (decide _). }
  split; cbn; rewrite ?E, ?F; try done.
  - intros s' id c. rewrite Hm. destruct (decide (s' = p)) as [->|Hne]; [by intros ?%elem_of_nil|]. intros Hin.
    change (connections w3) with (connections w1). rewrite D.
    destruct (decide (s' = s)) as [->|Hs].
    + assert (exists k, connections w !! c = Some k /\ connectionId k = id /\ connected ∈ called k /\
        (c ∈ map snd (_connections x) \/ owner k = s)) as (k & Hc & Hi & Hcon & Ho).
      { apply B in Hin as [Hin|Hin]; [|rewrite <- Hp in Hin; pose proof Hin as Hin'];
          apply H1 in Hin as (k & ? & ? & ? & ?); exists k; split_and!; auto.
        left. apply list_elem_of_fmap. exists (id, c). by rewrite Hp in Hin'. }
      rewrite Hc. destruct (decide _); eexists; split_and!; try done. by destruct Ho.
    + rewrite A in Hin by done. apply H1 in Hin as (k & Hc & Ho & Hi & Hcon). rewrite Hc.
      rewrite decide_False; [by exists k|]. intros ([i c'] & -> & Hin)%list_elem_of_fmap.
      destruct (Hmine _ _ _ Hin Hc) as [Ho' _]. cbn in *. congruence.
  - intros s'. rewrite Hm. destruct (decide (s' = p)); [constructor|]. destruct (decide (s' = s)) as [->|]; [by apply C|by rewrite A].
  - intros s' c Hin. apply H3 in Hin as (k & Hc & Ho & Hcon). change (connections w3) with (connections w1). rewrite D, Hc.
    rewrite decide_False; [by exists k|]. intros ([i c'] & -> & Hin)%list_elem_of_fmap. by destruct (Hmine _ _ _ Hin Hc).
  - intros c k' Hc'. apply Hk in Hc' as (k & Hc & _ & -> & _). eauto.
  - intros c k' Hc'. apply Hk in Hc' as (k & Hc & _ & -> & ->). eauto.
  - intros c Hle. change (connections w3) with (connections w1). rewrite D, H7; done.
Qed.

Lemma owned_finish_resume m s id p w : owned w -> owned (finish_resume m s id p w).
Proof.
  intros H. unfold finish_resume. destruct (negb m); [unfold _clearPausedWebsocketSession; auto|].
  destruct (sessions _ !! p) as [x|] eqn:Hx; [|unfold _clearPausedWebsocketSession; auto].
  apply (core_owned _ _ (core_sends _ _ _)), owned_destroy, transferred_owned; [|done]. unfold _clearPausedWebsocketSession. auto.
Qed.

Section steps.
Context (identityResolver : bool) (connectionTypes : string -> bool).

Lemma owned_resume id s w : owned w -> owned (_handleSessionResume identityResolver id s w).
Proof.
  intros H. unfold _handleSessionResume. destruct id as [id|]; [|auto]. destruct (_ !! id); [|auto].
  destruct identityResolver; [by apply owned_await|by apply owned_finish_resume].
Qed.

Lemma owned_open id type s w : owned w -> owned (_handleConnectionOpen connectionTypes id type s w).
Proof.
  intros H. unfold _handleConnectionOpen. destruct (decide _); [auto|]. destruct (decide _); [auto|].
  destruct (map_get _ _); [auto|]. destruct (negb _); [auto|]. pose proof H as [H1 H2 H3 H4 H5 H6 H7].
  assert (forall c k, connections w !! c = Some k -> c <> next_handle w) as Hfresh.
  { intros c k Hc ->. rewrite H7 in Hc; done. }
  split; cbn.
  - intros s' id' c Hin. apply H1 in Hin as (k & Hc & Hk). exists k. by rewrite lookup_insert_ne by (symmetry; eauto).
  - done.
  - intros s' c [Hin|[= -> ->]]%elem_snoc.
    + apply H3 in Hin as (k & Hc & Hk). exists k. by rewrite lookup_insert_ne by (symmetry; eauto).
    + eexists. rewrite lookup_insert_eq. split_and!; [done..|]. cbn. rewrite list_elem_of_singleton. done.
  - rewrite omap_app. cbn. apply NoDup_app. split_and!; [done| |apply NoDup_singleton].
    intros c (k & Hin & Hk)%list_elem_of_omap ->%list_elem_of_singleton. destruct k; try done. cbn in Hk. injection Hk as ->.
    apply H3 in Hin as (k & Hc & _). by apply (Hfresh _ _ Hc).
  - intros c k. rewrite lookup_insert_Some. intros [[<- <-]|[_ Hc]]; [constructor|eauto].
  - intros c k. rewrite lookup_insert_Some. intros [[<- <-]|[_ Hc]]; [|eauto]. cbn. intros _ r. by rewrite list_elem_of_singleton.
  - intros c Hle. rewrite lookup_insert_ne by lia. apply H7. lia.
Qed.

Lemma owned_message id body s w : owned w -> owned (_handleConnectionMessage id body s w).
Proof.
  intros H. unfold _handleConnectionMessage. destruct (map_get _ _) as [c|] eqn:Hg; [|auto]. apply owned_await; [done|].
  apply map_get_elem in Hg. apply (registered _ H) in Hg as (k0 & Hc0 & _ & _ & Hcon).
  apply owned_on_connection; [done|]. intros k Hc. simplify_eq. cbn. rewrite elem_snoc. split_and!; try done.
  - split; [by intros [?|?]|by left].
  - by constructor.
  - intros Hcl. split; [done|]. intros r. rewrite elem_snoc. by intros [?|?].
Qed.

Lemma owned_client_close id s w : owned w -> owned (_handleConnectionClose id s w).
Proof.
  intros H. unfold _handleConnectionClose. destruct (map_get _ _); [|done]. apply owned_await; [done|].
  apply owned_fire, owned_maps_shrink; [done|]. intros x. apply map_delete_sublist.
Qed.

(** [onConnect] has ended. *)
Lemma owned_opened s c i w k : owned w -> pending w !! i = Some (Opening s c) -> connections w !! c = Some k ->
  owned (on_session s (fun x => set_map (map_set (connectionId k) c (_connections x)) x)
    (on_connection c (call connected) (set_pending (delete i (pending w)) w))).
Proof.
  intros H Hi Hc. pose proof H as [H1 H2 H3 H4 H5 H6 H7].
  destruct (H3 s c) as (k' & Hk' & Ho & Hcon); [by eapply list_elem_of_lookup_2|]. simplify_eq.
  set (w0 := on_connection c _ _). set (w' := on_session (owner k) _ w0).
  assert (connections w' = alter (call connected) c (connections w)) as Hcs by done.
  assert (forall c', c' <> c -> connections w' !! c' = connections w !! c') as Hother.
  { intros c' Hne. rewrite Hcs. by rewrite lookup_alter_ne by done. }
  assert (connections w' !! c = Some (call connected k)) as Hself by (rewrite Hcs, lookup_alter_eq; by rewrite Hc).
  assert (forall s', connections_of s' w' = if decide (s' = owner k)
    then from_option (fun x => map_set (connectionId k) c (_connections x)) [] (sessions w !! owner k) else connections_of s' w) as Hm.
  { intros s'. subst w'. by rewrite connections_of_on_session. }
  assert (forall s' id c', (id, c') ∈ connections_of s' w -> c' <> c) as Hreg.
  { intros s' id c' Hin ->. apply H1 in Hin as (k' & ? & _ & _ & ?). by simplify_eq. }
  assert (forall s' c', Opening s' c' ∈ delete i (pending w) -> Opening s' c' ∈ pending w /\ c' <> c) as Hdel.
  { intros s' c' Hin. split; [by eapply sublist_elem; [apply sublist_delete|]|]. intros ->.
    apply (NoDup_delete_omap opening_of (pending w) i (Opening (owner k) c) c); try done.
    apply list_elem_of_omap. by exists (Opening s' c). }
  split.
  - intros s' id c'. rewrite Hm. destruct (decide (s' = owner k)) as [->|].
    + intros Hin. assert ((id, c') ∈ connections_of (owner k) w \/ (id = connectionId k /\ c' = c)) as [Hin'|[-> ->]].
      { unfold connections_of. destruct (sessions w !! owner k); cbn in Hin |- *; [by apply elem_map_set in Hin|by apply elem_of_nil in Hin]. }
      * rewrite Hother by eauto. by apply H1.
      * exists (call connected k). split_and!; try done. cbn. apply elem_snoc. by right.
    + intros Hin. rewrite Hother by eauto. by apply H1.
  - intros s'. rewrite Hm. destruct (decide (s' = owner k)) as [->|]; [|done]. pose proof (H2 (owner k)) as Hn.
    unfold connections_of in Hn. destruct (sessions w !! owner k); [by apply keys_map_set|constructor].
  - intros s' c' [Hin Hne]%Hdel. rewrite Hother by done. by apply H3.
  - change (pending w') with (delete i (pending w)). eapply sublist_NoDup; [apply sublist_omap, sublist_delete|done].
  - intros c' k'. destruct (decide (c' = c)) as [->|]; [rewrite Hself; intros [= <-]; constructor; eauto|rewrite Hother by done; eauto].
  - intros c' k'. destruct (decide (c' = c)) as [->|]; [rewrite Hself; intros [= <-]|rewrite Hother by done; eauto].
    intros Hcl r. cbn. rewrite elem_snoc. intros [Hin|?]; [|done]. by apply (H6 _ _ Hc Hcl r).
  - intros c' Hle. rewrite Hother; [by apply H7|]. intros ->. by rewrite H7 in Hc.
Qed.

Lemma owned_proceed error i k w : owned w -> pending w !! i = Some k ->
  owned (proceed error k (set_pending (delete i (pending w)) w)).
Proof.
  intros H Hi. pose proof (owned_delete i w H) as Hd. destruct k as [s c|s id|s id|c r|r rest|s id p]; cbn [proceed].
  - change (connections (set_pending _ w)) with (connections w). destruct (connections w !! c) as [k|] eqn:Hc; [|by destruct error].
    destruct error; [auto|]. apply owned_sendJson. by apply owned_opened.
  - destruct error; auto.
  - auto.
  - change (connections (set_pending _ w)) with (connections w). destruct (connections w !! c); [|done].
    apply owned_maps_shrink; [auto|]. intros x. apply map_delete_sublist.
  - auto.
  - by apply owned_finish_resume.
Qed.

Lemma owned_accept w : owned w -> owned (accept w).
Proof.
  intros [H1 H2 H3 H4 H5 H6 H7].
  assert (forall s, connections_of s (accept w) `sublist_of` connections_of s w) as Hm.
  { intros s. unfold connections_of. cbn. destruct (decide (s = next_handle w)) as [->|]; [rewrite lookup_insert_eq; apply sublist_nil_l|].
    by rewrite lookup_insert_ne by done. }
  split; cbn; try done.
  - intros s id c Hin. apply (sublist_elem _ _ _ (Hm s)) in Hin. by apply H1.
  - intros s. eapply sublist_NoDup; [apply sublist_map, Hm|apply H2].
  - intros c Hle. apply H7. cbn. lia.
Qed.

Lemma owned_step w w' : step identityResolver connectionTypes w w' -> owned w -> owned w'.
Proof.
  intros [a Ha] H. destruct a as [|id type s|id body s|id s|id s|c body|r c|error i|b s|id|s]; cbn in Ha.
  - simplify_eq. by apply owned_accept.
  - destruct (dispatches s w); simplify_eq. by apply owned_open.
  - destruct (dispatches s w); simplify_eq. by apply owned_message.
  - destruct (dispatches s w); simplify_eq. by apply owned_client_close.
  - destruct (dispatches s w); simplify_eq. by apply owned_resume.
  - destruct (sendMessage c body w) eqn:Hs; simplify_eq. by eapply owned_send.
  - simplify_eq. by apply owned_close_by.
  - destruct (pending w !! i) as [k|] eqn:Hi; simplify_eq. by apply owned_proceed.
  - destruct (sessions w !! s) as [x|]; [|done]. destruct (_inboundClosed x); simplify_eq. auto.
  - simplify_eq. auto.
  - simplify_eq. by apply owned_flags.
Qed.

Lemma owned_new : owned new_server.
Proof. by split; cbn; try done; try (intros *; try rewrite lookup_empty; done || by intros ?%elem_of_nil || constructor). Qed.

Lemma owned_reachable w : rtc (step identityResolver connectionTypes) new_server w -> owned w.
Proof.
  generalize owned_new. generalize new_server as w0. intros w0 H0 H. induction H as [|w0 w1 w2 Hs _ IH]; [done|].
  apply IH. by eapply owned_step.
Qed.
End steps.

(** ** At most one [onClose] *)

(** Nothing is called after [onClose]. *)
Definition closes_last (l : list callback) : Prop := forall l1 r l2, l = l1 ++ onClose r :: l2 -> l2 = [].

Lemma closes_last_snoc l e : (forall r, onClose r ∉ l) -> closes_last (l ++ [e]).
Proof.
  intros Hl l1 r l2. destruct l2 as [|y l2 _] using rev_ind; [done|]. rewrite app_comm_cons, app_assoc.
  intros [-> _]%app_inj_tail. destruct (Hl r). rewrite elem_of_app. right. by constructor.
Qed.

Definition rest_of (k : waiting) : list nat := match k with TearingDown _ rest => rest | _ => [] end.

(** The connections whose [onClose] is due. *)
Definition rests (w : server) : list nat := flat_map rest_of (pending w).

Definition is_registered (c : nat) (w : server) : Prop := exists s id, (id, c) ∈ connections_of s w.
Definition is_opening (c : nat) (w : server) : Prop := exists s, Opening s c ∈ pending w.

Definition times (c : nat) (l : list nat) : nat := length (filter (eq c) l).

Lemma times_app c l l' : times c (l ++ l') = times c l + times c l'.
Proof. unfold times. by rewrite filter_app, length_app. Qed.

Lemma times_elem c l : c ∈ l <-> 1 <= times c l.
Proof.
  unfold times. split.
  - intros H. assert (c ∈ filter (eq c) l) as Hin by by apply list_elem_of_filter.
    destruct (filter _ l); [by apply elem_of_nil in Hin|cbn; lia].
  - destruct (filter (eq c) l) as [|x l'] eqn:E; cbn; [lia|]. intros _.
    assert (x ∈ filter (eq c) l) as Hin by (rewrite E; by constructor). by apply list_elem_of_filter in Hin as [<- Hin].
Qed.

Section single.
Context (c : nat).

(** The connection is closed at most once: it is still registered or due in one place only,
    and until [onClose] is called it is called nowhere. [due] are connections that are about
    to be closed. *)
Record single_with (due : list nat) (w : server) : Prop := {
  due_once : times c (due ++ rests w) <= 1;
  due_gone : c ∈ due ++ rests w -> ~ is_registered c w /\ exists k, connections w !! c = Some k /\ connected ∈ called k;
  not_closed_yet : forall k, connections w !! c = Some k -> is_registered c w \/ is_opening c w \/ c ∈ due ++ rests w ->
    forall r, onClose r ∉ called k;
  closed_last : forall k, connections w !! c = Some k -> closes_last (called k)
}.

Abbreviation single := (single_with []).

(** The connection is in no place where it was not. *)
Record withdrawn (w w' : server) : Prop := {
  withdrawn_map : is_registered c w' -> is_registered c w;
  withdrawn_called : called <$> connections w' !! c = called <$> connections w !! c;
  withdrawn_due : times c (rests w') <= times c (rests w);
  withdrawn_opening : is_opening c w' -> is_opening c w
}.

Lemma withdrawn_refl w : withdrawn w w.
Proof. by split. Qed.

Lemma withdrawn_trans w1 w2 w3 : withdrawn w1 w2 -> withdrawn w2 w3 -> withdrawn w1 w3.
Proof. intros [A1 B1 C1 D1] [A2 B2 C2 D2]. split; [auto|congruence|lia|auto]. Qed.

Lemma withdrawn_single due w w' : withdrawn w w' -> single_with due w -> single_with due w'.
Proof.
  intros [A B C D] [H1 H2 H3 H4]. rewrite times_app in H1.
  assert (c ∈ due ++ rests w' -> c ∈ due ++ rests w) as Hin.
  { rewrite !times_elem, !times_app. lia. }
  assert (forall k', connections w' !! c = Some k' -> exists k, connections w !! c = Some k /\ called k' = called k) as Hk.
  { intros k' E. rewrite E in B. cbn in B. destruct (connections w !! c); [|done]. injection B as ->. eauto. }
  split.
  - rewrite times_app. lia.
  - intros [Hr (k & Hc & Hcon)]%Hin%H2. split; [auto|]. rewrite Hc in B. destruct (connections w' !! c) as [k'|]; [|done].
    exists k'. split; [done|]. by injection B as ->.
  - intros k' (k & Hc & ->)%Hk Hw. apply (H3 k Hc). naive_solver.
  - intros k' (k & Hc & ->)%Hk. by apply H4.
Qed.

Lemma withdrawn_core w w' : same_core w w' -> withdrawn w w'.
Proof.
  intros [A B C D]. split; unfold is_registered, is_opening, rests; rewrite ?B, ?C; try done.
  intros (s & id & Hin). exists s, id. by rewrite <- A.
Qed.

Lemma withdrawn_maps s f w : (forall x, _connections (f x) `sublist_of` _connections x) -> withdrawn w (on_session s f w).
Proof.
  intros Hf. split; try done. intros (s' & id & Hin). exists s', id. rewrite connections_of_on_session in Hin.
  destruct (decide (s' = s)) as [->|]; [|done]. unfold connections_of. destruct (sessions w !! s); [|done].
  by eapply sublist_elem; [apply Hf|].
Qed.

Lemma withdrawn_other c' f w : c' <> c -> withdrawn w (on_connection c' f w).
Proof. intros Hne. split; try done. cbn. by rewrite lookup_alter_ne. Qed.

Lemma withdrawn_owner s w c' : withdrawn w (on_connection c' (set_owner s) w).
Proof.
  split; try done. cbn. destruct (decide (c' = c)) as [->|]; [|by rewrite lookup_alter_ne].
  rewrite lookup_alter_eq. by destruct (connections w !! c).
Qed.

Lemma rests_await k w : rests (await k w) = rests w ++ rest_of k.
Proof. unfold rests. cbn. rewrite flat_map_app. cbn. by rewrite app_nil_r. Qed.

Lemma withdrawn_await k w : rest_of k = [] -> opening_of k <> Some c -> withdrawn w (await k w).
Proof.
  intros Hr Hk. split; try done; [by rewrite rests_await, Hr, app_nil_r|].
  intros [s [Hin|<-]%elem_snoc]; [by exists s|by destruct Hk].
Qed.

(** What waited is taken out. *)
Lemma rests_delete i k w : pending w !! i = Some k -> times c (rests w) = times c (rest_of k) + times c (rests (set_pending (delete i (pending w)) w)).
Proof.
  intros (l1 & l2 & E & ->)%list_elem_of_split_length. unfold rests. cbn [pending set_pending].
  rewrite E, delete_middle, !flat_map_app. cbn [flat_map]. rewrite !times_app. lia.
Qed.

Lemma withdrawn_delete i k w : pending w !! i = Some k -> withdrawn w (set_pending (delete i (pending w)) w).
Proof.
  intros E. split; try done; [rewrite (rests_delete i k w E); lia|]. intros [s Hin]. exists s.
  exact (sublist_elem _ _ _ (sublist_delete _ i) Hin).
Qed.

Lemma single_teardown_next r due w : owned w -> single_with due w -> single (teardown_next r due w).
Proof.
  intros Ho H. destruct due as [|c' due]; [done|]. cbn [teardown_next]. set (w1 := fire_onClose r c' w).
  assert (rests (await (TearingDown r due) w1) = rests w ++ due) as Hrest by by rewrite rests_await.
  assert (forall P, is_opening c (await (TearingDown r due) w1) \/ P -> is_opening c w \/ P) as Hopen.
  { intros P [[s [Hin|?]%elem_snoc]|?]; [left; by exists s|done|by right]. }
  destruct H as [H1 H2 H3 H4]. change ((c' :: due) ++ rests w) with ([c'] ++ due ++ rests w) in *. rewrite !times_app in H1.
  assert (c ∈ rests w ++ due -> c ∈ [c'] ++ due ++ rests w) as Hdue by (rewrite !elem_of_app; tauto).
  split; cbn [app]; rewrite ?Hrest; rewrite ?times_app; [lia|..].
  - intros Hin. destruct (H2 (Hdue Hin)) as [Hr (k & Hk & Hcon)]. split; [done|].
    assert (c' <> c) as Hne; [|exists k; cbn; by rewrite lookup_alter_ne].
    intros ->. rewrite times_elem, times_app in Hin. assert (1 <= times c [c]) by by apply times_elem, list_elem_of_singleton. lia.
  - intros k. cbn. destruct (decide (c' = c)) as [->|Hne].
    + intros _ Hw. exfalso. assert (1 <= times c [c]) by by apply times_elem, list_elem_of_singleton.
      destruct (H2 ltac:(by constructor)) as [Hr (k0 & Hk0 & Hcon)]. destruct Hw as [Hw|[[s Hw]|Hw]%Hopen]; [by apply Hr| |].
      * apply (not_yet _ Ho) in Hw as (k1 & Hk1 & _ & Hno). by simplify_eq.
      * rewrite times_elem, times_app in Hw. lia.
    + rewrite lookup_alter_ne by done. intros Hk Hw. apply (H3 k Hk). destruct Hw as [Hw|Hw]; [by left|right]. naive_solver.
  - intros k. cbn. destruct (decide (c' = c)) as [->|Hne]; [|rewrite lookup_alter_ne by done; apply H4].
    rewrite lookup_alter_Some. intros [(_ & k0 & Hk0 & ->)|[? _]]; [|done]. cbn. apply closes_last_snoc.
    apply (H3 k0 Hk0). right. right. by constructor.
Qed.

Lemma times_NoDup l : NoDup l -> times c l <= 1.
Proof.
  unfold times. induction 1 as [|x l Hx _ IH]; cbn; [lia|]. destruct (decide (c = x)) as [->|]; [|done]. cbn.
  destruct (decide (x ∈ filter (eq x) l)) as [Hin|Hin]; [by apply list_elem_of_filter in Hin as [_ ?]|].
  destruct (filter (eq x) l) as [|y l'] eqn:E; cbn; [lia|]. assert (y ∈ filter (eq x) l) as Hy by (rewrite E; by constructor).
  apply list_elem_of_filter in Hy as Hy'. destruct Hy' as [<- _]. by rewrite <- E in Hin.
Qed.

(** A connection is in a map once. *)
Lemma registered_once s w : owned w -> times c (map snd (connections_of s w)) <= 1.
Proof.
  intros Ho. pose proof (one_per_id _ Ho s) as Hn. apply times_NoDup, NoDup_alt. intros i j y Hi Hj.
  rewrite list_lookup_fmap in Hi, Hj. apply fmap_Some in Hi as ([a b] & Hi & ->), Hj as ([a' b'] & Hj & E). cbn in E. subst b'.
  pose proof (list_elem_of_lookup_2 _ _ _ Hi) as Ei. pose proof (list_elem_of_lookup_2 _ _ _ Hj) as Ej.
  apply (registered _ Ho) in Ei as (k & ? & _ & Ei & _), Ej as (k' & ? & _ & Ej & _). simplify_eq.
  apply (NoDup_lookup _ _ _ (connectionId k) Hn); by rewrite list_lookup_fmap, ?Hi, ?Hj.
Qed.

Lemma single_teardown r s w : owned w -> single w -> single (_teardownConnections r s w).
Proof.
  intros Ho H. unfold _teardownConnections. destruct (sessions w !! s) as [x|] eqn:Hx; [|done].
  assert (connections_of s w = _connections x) as Hs by (unfold connections_of; by rewrite Hx).
  apply single_teardown_next; [apply owned_maps_shrink; [done|]; intros; apply sublist_nil_l|].
  set (w1 := on_session s (set_map []) w). set (due := map snd (_connections x)).
  assert (withdrawn w w1) as Hw by (apply withdrawn_maps; intros; apply sublist_nil_l).
  assert (c ∈ due -> is_registered c w) as Hreg.
  { intros ([id c'] & -> & Hin)%list_elem_of_fmap. exists s, id. by rewrite Hs. }
  assert (c ∈ due -> ~ is_registered c w1) as Hout.
  { intros ([id c'] & -> & Hin)%list_elem_of_fmap (s' & id' & Hin'). unfold w1 in Hin'. rewrite connections_of_on_session in Hin'.
    rewrite <- Hs in Hin. destruct (decide (s' = s)) as [->|Hne]; [rewrite Hx in Hin'; by apply elem_of_nil in Hin'|].
    apply (registered _ Ho) in Hin as (k & ? & ? & _), Hin' as (k' & ? & ? & _). cbn in *. congruence. }
  assert (times c due <= 1) as Hone by (pose proof (registered_once s w Ho) as Hn; by rewrite Hs in Hn).
  destruct H as [H1 H2 H3 H4]. cbn [app] in H1, H2, H3. split; change (rests w1) with (rests w); change (connections w1) with (connections w).
  - rewrite times_app. destruct (decide (c ∈ due)) as [Hin|Hin]; rewrite times_elem in Hin; [|lia].
    destruct (decide (c ∈ rests w)) as [Hr|Hr]; [|rewrite times_elem in Hr; lia]. destruct (H2 Hr) as [Hno _]. destruct Hno.
    apply Hreg. by apply times_elem.
  - intros [Hin|Hin]%elem_of_app; [split; [by apply Hout|]|by destruct (H2 Hin) as [? ?]; split; [intros ?%(withdrawn_map _ _ Hw)|]].
    destruct (Hreg Hin) as (s' & id & (k & Hk & _ & _ & Hcon)%(registered _ Ho)). eauto.
  - intros k Hk Hcase. apply (H3 k Hk). rewrite elem_of_app in Hcase. destruct Hcase as [?|[?|[?|?]]].
    + left. by apply (withdrawn_map _ _ Hw).
    + right. by left.
    + left. auto.
    + by do 2 right.
  - apply H4.
Qed.
Lemma single_flags s f w : (forall x, _connections (f x) = _connections x) -> single w -> single (on_session s f w).
Proof. intros Hf. by apply withdrawn_single, withdrawn_core, core_on_session. Qed.

Lemma single_sendJson s r w : single w -> single (sendJson s r w).
Proof. by apply withdrawn_single, withdrawn_core, core_sendJson. Qed.

Lemma single_destroy s w : owned w -> single w -> single (destroy s w).
Proof. intros Ho H. apply single_teardown; [by apply owned_flags|by apply single_flags]. Qed.

Lemma single_finalize s w : owned w -> single w -> single (_finalizeGraceExpiry s w).
Proof. intros Ho H. apply single_teardown; [by apply owned_flags|by apply single_flags]. Qed.

Lemma single_registry m w : single w -> single (set_registry m w).
Proof. by apply withdrawn_single, withdrawn_core. Qed.

#[local] Hint Resolve single_sendJson single_destroy single_finalize single_registry : core.

Lemma single_handleClose b s w : owned w -> single w -> single (_handleClose b s w).
Proof.
  intros Ho H. unfold _handleClose. destruct (sessions w !! s) as [x|]; [|done].
  set (w1 := on_session s _ w). assert (owned w1 /\ single w1) as [Ho1 H1] by (split; [by apply owned_flags|by apply single_flags]).
  destruct (_ && _).
  - unfold _pauseWebsocketSession. destruct (_ !! sessionId x); [|apply single_registry]; by apply single_flags.
  - apply single_destroy; [by apply owned_teardown|by apply single_teardown].
Qed.

Lemma withdrawn_transfer s p n w x : owned w -> sessions w !! p = Some x ->
  withdrawn w (on_session p (fun x => set_map [] (set_outbound [] x)) (on_session s (set_sessionId n) (transfer s (_connections x) w))).
Proof.
  intros Ho Hx. destruct (transfer_spec s (_connections x) w) as (A & B & C & D & E & F). split.
  - intros (s' & id & Hin). rewrite connections_of_on_session in Hin. destruct (decide (s' = p)).
    { match type of Hin with context [from_option _ _ ?o] => destruct o end; by apply elem_of_nil in Hin. }
    rewrite (core_maps (transfer s (_connections x) w)) in Hin by by apply core_on_session.
    destruct (decide (s' = s)) as [->|]; [|rewrite A in Hin by done; by exists s', id].
    apply B in Hin as [Hin|Hin]; [by exists s, id|]. exists p, id. unfold connections_of. by rewrite Hx.
  - cbn. rewrite D. destruct (connections w !! c); [|done]. cbn. by destruct (decide _).
  - unfold rests. cbn. by rewrite E.
  - intros [s' Hin]. exists s'. cbn in Hin. by rewrite E in Hin.
Qed.

Lemma single_finish_resume m s id p w : owned w -> single w -> single (finish_resume m s id p w).
Proof.
  intros Ho H. unfold finish_resume, _clearPausedWebsocketSession. assert (owned (set_registry (delete id (_pausedWebsocketSessions w)) w)) by auto.
  destruct (negb m); [auto|]. destruct (sessions _ !! p) as [x|] eqn:Hx; [|auto].
  apply (withdrawn_single _ _ _ (withdrawn_core _ _ (core_sends _ _ _))), single_destroy; [by apply transferred_owned|].
  eapply withdrawn_single; [by apply withdrawn_transfer|auto].
Qed.

(** A connection that is registered is called. *)
Lemma single_message body c' w : is_registered c' w -> single w -> single (on_connection c' (call (onMessage body)) w).
Proof.
  intros Hr H. destruct (decide (c' = c)) as [->|Hne]; [|eapply withdrawn_single; [by apply withdrawn_other|done]].
  destruct H as [H1 H2 H3 H4]. set (w1 := on_connection c _ w).
  assert (forall k, connections w1 !! c = Some k -> exists k0, connections w !! c = Some k0 /\ called k = called k0 ++ [onMessage body]) as Hk.
  { intros k. cbn. rewrite lookup_alter_Some. intros [(_ & k0 & Hk0 & ->)|[? _]]; [|done]. by exists k0. }
  split; [done|..].
  - intros Hin. by destruct (H2 Hin).
  - intros k (k0 & Hk0 & ->)%Hk _ r. rewrite elem_snoc. intros [Hin|?]; [|done]. by apply (H3 k0 Hk0 (or_introl Hr) r).
  - intros k (k0 & Hk0 & ->)%Hk. apply closes_last_snoc. apply (H3 k0 Hk0). by left.
Qed.

(** A registered connection is closed by its client. *)
Lemma single_client_close id s w : owned w -> single w -> single (_handleConnectionClose id s w).
Proof.
  intros Ho H. unfold _handleConnectionClose. destruct (map_get _ _) as [c'|] eqn:Hg; [|done]. apply map_get_elem in Hg.
  eapply withdrawn_single; [by apply withdrawn_await|]. set (f := fun x => _). set (w1 := on_session s f w).
  assert (withdrawn w w1) as Hw by (apply withdrawn_maps; intros x; apply map_delete_sublist).
  assert (owned w1) as Ho1 by (apply owned_maps_shrink; [done|]; intros x; apply map_delete_sublist).
  apply (withdrawn_single _ _ _ Hw) in H as H1'. destruct (decide (c' = c)) as [->|Hne].
  2:{ eapply withdrawn_single; [by apply withdrawn_other|done]. }
  assert (~ is_registered c w1) as Hno.
  { intros (s' & id' & Hin). pose proof Hin as Hin'. unfold w1 in Hin. rewrite connections_of_on_session in Hin.
    destruct (registered _ Ho _ _ _ Hg) as (k & Hk & Hs & Hid & _). destruct (registered _ Ho1 _ _ _ Hin') as (k' & Hk' & Hs' & Hid' & _).
    change (connections w1) with (connections w) in Hk'. simplify_eq. rewrite decide_True in Hin by done.
    destruct (sessions w !! owner k); [|by apply elem_of_nil in Hin]. apply list_elem_of_filter in Hin as [? _]. by destruct k. }
  assert (forall k, connections w !! c = Some k -> forall r, onClose r ∉ called k) as Hopen.
  { intros k Hk. apply (not_closed_yet _ _ H k Hk). left. by exists s, id. }
  assert (c ∉ rests w) as Hdue.
  { intros Hin. destruct (due_gone _ _ H Hin) as [Hn _]. apply Hn. by exists s, id. }
  destruct H as [H1 H2 H3 H4]. split; change (rests (fire_onClose client_close c w1)) with (rests w); cbn [app]; [done|done|..].
  - intros k _ [Hr|[[s' Hr]|?]]; [by destruct Hno|..]; [|done]. apply (not_yet _ Ho1) in Hr as (k' & Hk' & _ & Hcon).
    destruct (registered _ Ho _ _ _ Hg) as (k0 & Hk0 & _ & _ & Hcon0). change (connections w1) with (connections w) in Hk'. by simplify_eq.
  - intros k. cbn. rewrite lookup_alter_Some. intros [(_ & k0 & Hk0 & ->)|[? _]]; [|done]. cbn. by apply closes_last_snoc, Hopen.
Qed.

(** [onConnect] has ended. *)
Lemma single_opened s c' i w k : owned w -> pending w !! i = Some (Opening s c') -> connections w !! c' = Some k -> single w ->
  single (on_session s (fun x => set_map (map_set (connectionId k) c' (_connections x)) x)
    (on_connection c' (call connected) (set_pending (delete i (pending w)) w))).
Proof.
  intros Ho Hi Hc H. set (w1 := on_session s _ _). assert (Opening s c' ∈ pending w) as Hin by by eapply list_elem_of_lookup_2.
  assert (forall c0, is_registered c0 w1 -> is_registered c0 w \/ c0 = c') as Hreg.
  { intros c0 (s' & id & Hr). unfold w1 in Hr. rewrite connections_of_on_session in Hr. destruct (decide (s' = s)) as [->|]; [|left; by exists s', id].
    cbn in Hr. destruct (sessions w !! s) as [x|] eqn:Hx; [|by apply elem_of_nil in Hr]. cbn in Hr.
    apply elem_map_set in Hr as [Hr|[_ ->]]; [left|by right]. exists s, id. unfold connections_of. by rewrite Hx. }
  assert (times c (rests w1) <= times c (rests w)) as Hrest by (rewrite (rests_delete i _ w Hi); cbn; lia).
  assert (is_opening c w1 -> is_opening c w) as Hop.
  { intros [s' Hin']. exists s'. exact (sublist_elem _ _ _ (sublist_delete _ i) Hin'). }
  destruct (decide (c' = c)) as [->|Hne].
  - assert (forall r, onClose r ∉ called k) as Hopen.
    { apply (not_closed_yet _ _ H k Hc). right. left. by exists s. }
    assert (connections w1 !! c = Some (call connected k)) as Hself by (cbn; by rewrite lookup_alter_eq, Hc).
    assert (c ∉ rests w) as Hdue.
    { intros Hd. destruct (due_gone _ _ H Hd) as [_ (k' & Hk' & Hcon)]. apply (not_yet _ Ho) in Hin as (k'' & Hk'' & _ & Hno). by simplify_eq. }
    assert (c ∉ rests w1) as Hdue' by (rewrite times_elem in Hdue |- *; lia).
    split; cbn [app]; [rewrite times_elem in Hdue'; lia|done|..]; rewrite Hself.
    + intros k' [= <-] _ r. cbn. rewrite elem_snoc. intros [?|?]; [|done]. by apply (Hopen r).
    + intros k' [= <-]. by apply closes_last_snoc.
  - eapply withdrawn_single; [|done]. split; [|cbn; by rewrite lookup_alter_ne|done|done]. intros [?| ->]%Hreg; done.
Qed.

Section single_steps.
Context (identityResolver : bool) (connectionTypes : string -> bool).

Lemma single_open id type s w : owned w -> single w -> single (_handleConnectionOpen connectionTypes id type s w).
Proof.
  intros Ho H. unfold _handleConnectionOpen. destruct (decide _); [auto|]. destruct (decide _); [auto|].
  destruct (map_get _ _); [auto|]. destruct (negb _); [auto|]. set (w1 := await _ _).
  pose proof (fresh _ Ho (next_handle w) (le_n _)) as Hnew.
  assert (rests w1 = rests w) as Hr by (unfold w1; rewrite rests_await; by rewrite app_nil_r).
  assert (forall c', is_opening c' w1 -> is_opening c' w \/ c' = next_handle w) as Hop.
  { intros c' [s' [Hin|[= _ ->]]%elem_snoc]; [left; by exists s'|by right]. }
  destruct (decide (c = next_handle w)) as [Heq|Hne].
  - assert (connections w1 !! c = Some {| connectionId := id; owner := s; _closed := false; called := [onConnect] |}) as Hself
      by (cbn; by rewrite Heq, lookup_insert_eq).
    assert (c ∉ rests w) as Hdue by (intros [_ (k & Hk & _)]%(due_gone _ _ H); congruence).
    split; cbn [app]; rewrite ?Hr; [rewrite times_elem in Hdue; lia|done|..]; rewrite Hself; intros k [= <-]; cbn.
    + intros _ r. by rewrite list_elem_of_singleton.
    + apply (closes_last_snoc [] onConnect). intros r. apply not_elem_of_nil.
  - eapply withdrawn_single; [|done]. split; [done|cbn; by rewrite lookup_insert_ne|by rewrite Hr|]. intros [?| ->]%Hop; done.
Qed.

Lemma single_proceed error i k w : owned w -> pending w !! i = Some k -> single w ->
  single (proceed error k (set_pending (delete i (pending w)) w)).
Proof.
  intros Ho Hi H. pose proof (owned_delete i w Ho) as Hd.
  assert (single (set_pending (delete i (pending w)) w)) as H0 by (eapply withdrawn_single; [by eapply withdrawn_delete|done]).
  destruct k as [s c'|s id|s id|c' r|r rest|s id p]; cbn [proceed].
  - change (connections (set_pending _ w)) with (connections w). destruct (connections w !! c') as [k|] eqn:Hc; [|by destruct error].
    destruct error; [auto|]. apply single_sendJson. by apply single_opened.
  - destruct error; auto.
  - auto.
  - change (connections (set_pending _ w)) with (connections w). destruct (connections w !! c'); [|done].
    eapply withdrawn_single; [apply withdrawn_maps; intros x; apply map_delete_sublist|auto].
  - apply single_teardown_next; [done|]. destruct H as [H1 H2 H3 H4]. cbn [app] in H1, H2, H3.
    pose proof (rests_delete i _ w Hi) as E. cbn [rest_of] in E. set (w0 := set_pending _ w) in *.
    assert (c ∈ rest ++ rests w0 -> c ∈ rests w) as Hin by (rewrite !times_elem, !times_app; lia).
    assert (is_opening c w0 -> is_opening c w) as Hop.
    { intros [s' Hin']. exists s'. exact (sublist_elem _ _ _ (sublist_delete _ i) Hin'). }
    split; [rewrite times_app; lia|by intros ?%Hin%H2| |done]. intros k Hk Hw. apply (H3 k Hk). naive_solver.
  - by apply single_finish_resume.
Qed.

(** A step in which the server does not close the connection. *)
Definition step_sparing (w w' : server) : Prop :=
  exists a, (forall r, a <> ServerClose r c) /\ perform identityResolver connectionTypes a w = Some w'.

Lemma single_step w w' : step_sparing w w' -> owned w -> single w -> single w'.
Proof.
  intros (a & Hspare & Ha) Ho H. destruct a as [|id type s|id body s|id s|id s|c' body|r c'|error i|b s|id|s]; cbn in Ha.
  - simplify_eq. eapply withdrawn_single; [|done]. split; try done. intros (s & id & Hin). unfold connections_of in Hin. cbn in Hin.
    destruct (decide (s = next_handle w)) as [->|]; [rewrite lookup_insert_eq in Hin; by apply elem_of_nil in Hin|].
    rewrite lookup_insert_ne in Hin by done. by exists s, id.
  - destruct (dispatches s w); simplify_eq. by apply single_open.
  - destruct (dispatches s w); simplify_eq. unfold _handleConnectionMessage. destruct (map_get _ _) as [c'|] eqn:Hg; [|auto].
    eapply withdrawn_single; [by apply withdrawn_await|]. apply single_message; [|done]. exists s, id. by apply map_get_elem.
  - destruct (dispatches s w); simplify_eq. by apply single_client_close.
  - destruct (dispatches s w); simplify_eq. unfold _handleSessionResume. destruct id as [id|]; [|auto]. destruct (_ !! id); [|auto].
    destruct identityResolver; [eapply withdrawn_single; [by apply withdrawn_await|done]|by apply single_finish_resume].
  - unfold sendMessage in Ha. destruct (connections w !! c') as [k|]; [|by simplify_eq]. destruct (_closed k); simplify_eq.
    apply single_sendJson. eapply withdrawn_single; [|done]. by split.
  - simplify_eq. unfold close. destruct (connections w !! c') as [k|]; [|done]. destruct (_closed k); [done|].
    eapply withdrawn_single; [by apply withdrawn_await|]. eapply withdrawn_single; [|done]. apply withdrawn_other. intros ->. by apply (Hspare r).
  - destruct (pending w !! i) as [k|] eqn:Hi; simplify_eq. by apply single_proceed.
  - destruct (sessions w !! s) as [x|]; [|done]. destruct (_inboundClosed x); simplify_eq. by apply single_handleClose.
  - simplify_eq. unfold _expireWebsocketSession. destruct (_ !! id); [|done]. unfold _clearPausedWebsocketSession. auto.
  - simplify_eq. by apply single_flags.
Qed.

Lemma single_reachable w : rtc step_sparing new_server w -> single w.
Proof.
  assert (owned new_server /\ single new_server) as H0.
  { split; [apply owned_new|]. split; cbn; [lia|by intros ?%elem_of_nil|done..]. }
  revert H0. generalize new_server as w0. intros w0 H0 H. induction H as [|w0 w1 w2 Hs _ IH]; [by destruct H0|].
  destruct H0 as [Ho H0]. apply IH. split; [|by eapply single_step].
  destruct Hs as (a & _ & Ha). eapply owned_step; [by exists a|done].
Qed.
End single_steps.
End single.

(** ** What is paused *)

Definition sess_ok (x : ws_session) : Prop :=
  (_paused x = false -> _outboundQueue x = []) /\ (_paused x = true -> _inboundClosed x = true).

Definition is_closed (p : nat) (w : server) : Prop := exists x, sessions w !! p = Some x /\ _inboundClosed x = true.

Record guarded (w : server) : Prop := {
  sessions_ok : forall s x, sessions w !! s = Some x -> sess_ok x;
  paused_closed : forall id p, _pausedWebsocketSessions w !! id = Some p -> is_closed p w;
  resumed_closed : forall s id p, Resuming s id p ∈ pending w -> is_closed p w /\ s <> p;
  new_handle : forall s, next_handle w <= s -> sessions w !! s = None
}.

Lemma guarded_on_session s f w : guarded w ->
  (forall x, sessions w !! s = Some x -> sess_ok x -> sess_ok (f x) /\ (_inboundClosed x = true -> _inboundClosed (f x) = true)) ->
  guarded (on_session s f w).
Proof.
  intros [H1 H2 H3 H4] Hf. assert (forall p, is_closed p w -> is_closed p (on_session s f w)) as Hcl.
  { intros p (x & Hx & Hc). unfold is_closed. cbn. destruct (decide (s = p)) as [->|Hne].
    - rewrite lookup_alter_eq, Hx. cbn. eexists. split; [done|]. by apply Hf; eauto.
    - rewrite lookup_alter_ne by done. eauto. }
  split; cbn; eauto.
  - intros s' x'. rewrite lookup_alter_Some. intros [(-> & x & Hx & ->)|[_ Hx]]; [|eauto]. apply Hf; eauto.
  - intros s' id p Hin. destruct (H3 s' id p Hin). auto.
  - intros s' Hle. apply lookup_alter_None. auto.
Qed.

Lemma guarded_same w w' : guarded w -> sessions w' = sessions w -> next_handle w <= next_handle w' ->
  (forall id p, _pausedWebsocketSessions w' !! id = Some p -> _pausedWebsocketSessions w !! id = Some p \/ is_closed p w) ->
  (forall s id p, Resuming s id p ∈ pending w' -> Resuming s id p ∈ pending w \/ (is_closed p w /\ s <> p)) -> guarded w'.
Proof.
  intros [H1 H2 H3 H4] Hs Hn Hr Hp. unfold is_closed in *. split; rewrite ?Hs; try done; unfold is_closed; try rewrite Hs.
  - intros id p [?|?]%Hr; eauto.
  - intros s id p [?|?]%Hp; [by eapply H3|done].
  - intros s Hle. apply H4. lia.
Qed.

Lemma guarded_sendJson s r w : guarded w -> guarded (sendJson s r w).
Proof.
  intros H. unfold sendJson. destruct (sessions w !! s) as [x|] eqn:Hx; [|apply (guarded_same w); try done; by left].
  destruct (_paused x) eqn:Hp; [|destruct (socket_open x); apply (guarded_same w); try done; by left].
  match goal with |- guarded (write _ _ ?w') => apply (guarded_same w'); try done; try by left end.
  apply guarded_on_session; [done|]. intros x' Hx' [? ?]. simplify_eq. split; [split; cbn; [congruence|done]|done].
Qed.

Lemma guarded_sends s rs w : guarded w -> guarded (foldl (fun w r => sendJson s r w) w rs).
Proof. revert w. induction rs as [|r rs IH]; intros w H; [done|]. by apply IH, guarded_sendJson. Qed.

Lemma guarded_await k w : (forall s id p, k = Resuming s id p -> is_closed p w /\ s <> p) -> guarded w -> guarded (await k w).
Proof.
  intros Hk H. apply (guarded_same w); try done; [by left|]. intros s id p [?| <-]%elem_snoc; [by left|right]. by eapply Hk.
Qed.

Lemma guarded_on_connection c f w : guarded w -> guarded (on_connection c f w).
Proof. intros H. apply (guarded_same w); try done; by left. Qed.

Lemma guarded_teardown_next r cs w : guarded w -> guarded (teardown_next r cs w).
Proof. intros H. destruct cs; [done|]. apply guarded_await; [done|]. by apply guarded_on_connection. Qed.

Lemma guarded_teardown r s w : guarded w -> guarded (_teardownConnections r s w).
Proof. intros H. unfold _teardownConnections. destruct (sessions w !! s); [|done]. by apply guarded_teardown_next, guarded_on_session. Qed.

Lemma guarded_destroy s w : guarded w -> (forall x, sessions w !! s = Some x -> _outboundQueue x = []) -> guarded (destroy s w).
Proof. intros H Hq. apply guarded_teardown, guarded_on_session; [done|]. intros x Hx _. split; [|done]. split; cbn; auto. Qed.

Lemma guarded_delete_registry id w : guarded w -> guarded (_clearPausedWebsocketSession id w).
Proof. intros H. apply (guarded_same w); try done; [|by left]. intros i p. cbn. rewrite lookup_delete_Some. naive_solver. Qed.

Lemma guarded_finalize s w : guarded w -> guarded (_finalizeGraceExpiry s w).
Proof. intros H. apply guarded_teardown, guarded_on_session; [done|]. intros x _ [? ?]. split; [by split|done]. Qed.

#[local] Hint Resolve guarded_sendJson guarded_on_connection guarded_teardown_next guarded_teardown guarded_delete_registry
  guarded_finalize : core.

Lemma guarded_expire id w : guarded w -> guarded (_expireWebsocketSession id w).
Proof. intros H. unfold _expireWebsocketSession. destruct (_ !! id); auto. Qed.

Lemma sessions_teardown r s w s' : (fun x => (_paused x, _inboundClosed x, _outboundQueue x, sessionId x)) <$> sessions (_teardownConnections r s w) !! s' =
  (fun x => (_paused x, _inboundClosed x, _outboundQueue x, sessionId x)) <$> sessions w !! s'.
Proof.
  unfold _teardownConnections. destruct (sessions w !! s) as [x|] eqn:Hx; [|done].
  assert (sessions (teardown_next r (map snd (_connections x)) (on_session s (set_map []) w)) = alter (set_map []) s (sessions w)) as ->
    by (by destruct (map snd (_connections x))).
  destruct (decide (s' = s)) as [->|]; [by rewrite lookup_alter_eq, Hx|by rewrite lookup_alter_ne].
Qed.

Lemma guarded_handleClose b s x w : guarded w -> sessions w !! s = Some x -> _inboundClosed x = false -> guarded (_handleClose b s w).
Proof.
  intros H Hx Hc. unfold _handleClose. rewrite Hx. set (w1 := on_session s _ w).
  assert (_paused x = false /\ _outboundQueue x = []) as [Hp Hq].
  { destruct (sessions_ok _ H s x Hx) as [Hq Hp]. destruct (_paused x); [by rewrite Hp in Hc|auto]. }
  assert (guarded w1) as H1.
  { apply guarded_on_session; [done|]. intros y Hy _. simplify_eq. by split. }
  assert (sessions w1 !! s = Some (set_socket false (set_state (_paused x) true x))) as Hx1 by (cbn; by rewrite lookup_alter_eq, Hx).
  destruct (_ && _).
  - assert (guarded (on_session s (set_state true true) w1)) as H2.
    { apply guarded_on_session; [done|]. intros y Hy _. by split. }
    unfold _pauseWebsocketSession. destruct (_ !! sessionId x); [done|]. apply (guarded_same _ _ H2); try done; [|by left].
    intros id p. cbn. rewrite lookup_insert_Some. intros [[_ <-]|[_ Hi]]; [right|by left].
    eexists. split; [cbn; rewrite lookup_alter_eq, lookup_alter_eq, Hx; done|done].
  - apply guarded_destroy; [auto|]. intros y Hy. pose proof (sessions_teardown session_destroyed s w1 s) as E.
    rewrite Hy, Hx1 in E. cbn in E. congruence.
Qed.

Lemma guarded_transfer s entries w : guarded w -> guarded (transfer s entries w).
Proof.
  revert w. induction entries as [|[i c] entries IH]; intros w H; [done|]. cbn [transfer]. apply IH.
  apply guarded_on_session; [auto|]. intros x _ [? ?]. split; [by split|done].
Qed.

Lemma outbound_destroyed p w : guarded w ->
  guarded (destroy p (on_session p (fun x => set_map [] (set_outbound [] x)) w)).
Proof.
  intros H. apply guarded_destroy.
  - apply guarded_on_session; [done|]. intros x _ [? ?]. split; [by split|done].
  - intros x. cbn. rewrite lookup_alter_Some. intros [(_ & y & _ & ->)|[? _]]; done.
Qed.

Lemma guarded_finish_resume m s id p w : guarded w -> guarded (finish_resume m s id p w).
Proof.
  intros H. unfold finish_resume. destruct (negb m); [auto|]. destruct (sessions _ !! p) as [x|]; [|auto].
  apply guarded_sends, outbound_destroyed, guarded_on_session; [by apply guarded_transfer, guarded_delete_registry|].
  intros y _ [? ?]. split; [by split|done].
Qed.

(** A session that handles messages is not paused. *)
Lemma dispatches_other s p w : dispatches s w = true -> is_closed p w -> s <> p.
Proof. unfold dispatches. intros Hd (x & Hx & Hc) ->. by rewrite Hx, Hc in Hd. Qed.

Section guarded_steps.
Context (identityResolver : bool) (connectionTypes : string -> bool).

Lemma guarded_proceed error i k w : guarded w -> pending w !! i = Some k ->
  guarded (proceed error k (set_pending (delete i (pending w)) w)).
Proof.
  intros H Hi. assert (guarded (set_pending (delete i (pending w)) w)) as Hd.
  { apply (guarded_same w); try done; [by left|]. intros s id p Hin. left. exact (sublist_elem _ _ _ (sublist_delete _ i) Hin). }
  assert (forall s f w, guarded w -> guarded (on_session s (fun x => set_map (f x) x) w)) as Hset.
  { clear. intros s f w H. apply guarded_on_session; [done|]. intros x _ [? ?]. split; [by split|done]. }
  destruct k as [s c|s id|s id|c r|r rest|s id p]; cbn [proceed].
  - destruct (connections _ !! c); [|by destruct error]. destruct error; auto.
  - destruct error; auto.
  - auto.
  - destruct (connections _ !! c); auto.
  - auto.
  - by apply guarded_finish_resume.
Qed.

Lemma guarded_step w w' : step identityResolver connectionTypes w w' -> guarded w -> guarded w'.
Proof.
  intros [a Ha] H. destruct a as [|id type s|id body s|id s|id s|c body|r c|error i|b s|id|s]; cbn in Ha.
  - simplify_eq. destruct H as [H1 H2 H3 H4]. assert (forall p, is_closed p w -> is_closed p (accept w)) as Hcl.
    { intros p (x & Hx & Hc). exists x. cbn. rewrite lookup_insert_ne; [done|]. intros <-. by rewrite H4 in Hx. }
    split; cbn; eauto.
    + intros s x. rewrite lookup_insert_Some. intros [[_ <-]|[_ Hx]]; [done|eauto].
    + intros s id p Hin. destruct (H3 s id p Hin). auto.
    + intros s Hle. rewrite lookup_insert_ne by lia. apply H4. lia.
  - destruct (dispatches s w); simplify_eq. unfold _handleConnectionOpen.
    do 2 (destruct (decide _); [auto|]). destruct (map_get _ _); [auto|]. destruct (negb _); [auto|].
    apply guarded_await; [done|]. apply (guarded_same w); try done; try (by left); cbn; lia.
  - destruct (dispatches s w); simplify_eq. unfold _handleConnectionMessage. destruct (map_get _ _); [|auto].
    apply guarded_await; [done|auto].
  - destruct (dispatches s w); simplify_eq. unfold _handleConnectionClose. destruct (map_get _ _); [|auto].
    apply guarded_await; [done|]. apply guarded_on_connection, guarded_on_session; [done|].
    intros x _ [? ?]. split; [by split|done].
  - destruct (dispatches s w) eqn:Hd; simplify_eq. unfold _handleSessionResume. destruct id as [id|]; [|auto].
    destruct (_ !! id) as [p|] eqn:Hp; [|auto]. destruct identityResolver; [|by apply guarded_finish_resume].
    apply guarded_await; [|done]. intros s' id' p' [= <- <- <-]. apply (paused_closed _ H) in Hp. split; [done|].
    by eapply dispatches_other.
  - destruct (sendMessage c body w) as [|w1] eqn:Hs; simplify_eq. unfold sendMessage in Hs.
    destruct (connections w !! c) as [k|]; [|by simplify_eq]. destruct (_closed k); [done|]. simplify_eq.
    apply guarded_sendJson, (guarded_same w); try done; by left.
  - simplify_eq. unfold close. destruct (connections w !! c) as [k|]; [|done]. destruct (_closed k); [done|].
    apply guarded_await; [done|]. by apply guarded_on_connection.
  - destruct (pending w !! i) as [k|] eqn:Hi; simplify_eq. by apply guarded_proceed.
  - destruct (sessions w !! s) as [x|] eqn:Hx; [|done]. destruct (_inboundClosed x) eqn:Hc; simplify_eq.
    by eapply guarded_handleClose.
  - simplify_eq. by apply guarded_expire.
  - simplify_eq. apply guarded_on_session; [done|]. intros x _ [? ?]. split; [by split|done].
Qed.
End guarded_steps.

(** ** What is sent arrives *)

(** The bodies a connection has sent, and those of its messages among replies. *)
Definition bodies (c : nat) (l : list (nat * json)) : list json :=
  omap (fun x => if decide (x.1 = c) then Some x.2 else None) l.

Definition message_of (c : nat) (r : reply) : option json :=
  match r with ConnectionMessage c' _ body => if decide (c' = c) then Some body else None | _ => None end.

Definition messages (c : nat) (rs : list reply) : list json := omap (message_of c) rs.

Definition owner_of (c : nat) (w : server) : nat := from_option owner 0 (connections w !! c).

(** What is on the wire, what waits in the queue of the owner and what is about to be written,
    in this order, is in the order in which it was sent; and nothing is missing but what is
    lost. *)
Record mailed (rs : list reply) (w : server) (c : nat) : Prop := {
  in_sequence : (messages c (map snd (wire w)) ++ messages c (queued (owner_of c w) w) ++ messages c rs)
    `sublist_of` bodies c (said w);
  accounted : bodies c (said w) ≡ₚ
    messages c (map snd (wire w)) ++ messages c (queued (owner_of c w) w) ++ messages c rs ++ messages c (map snd (lost w));
  one_queue : forall s, s <> owner_of c w -> messages c (queued s w) = [];
  unknown : connections w !! c = None -> bodies c (said w) = []
}.

Abbreviation mail c w := (mailed [] w c).

Record same_mail (w w' : server) : Prop := {
  mail_said : said w' = said w;
  mail_wire : wire w' = wire w;
  mail_lost : lost w' = lost w;
  mail_queued : forall s, queued s w' = queued s w;
  mail_owner : forall c, owner_of c w' = owner_of c w;
  mail_unknown : forall c, connections w' !! c = None <-> connections w !! c = None
}.

Lemma mail_refl w : same_mail w w.
Proof. by split. Qed.

Lemma mail_trans w1 w2 w3 : same_mail w1 w2 -> same_mail w2 w3 -> same_mail w1 w3.
Proof. intros [A B C D E F] [A' B' C' D' E' F']. split; [congruence..| | |]; intros s; [by rewrite D'|by rewrite E'|by rewrite F']. Qed.

Lemma same_mailed rs w w' c : same_mail w w' -> mailed rs w c -> mailed rs w' c.
Proof.
  intros [A B L D E F] [H1 H2 H3 H4]. split.
  - by rewrite A, B, E, D.
  - by rewrite A, B, L, E, D.
  - intros s. rewrite D, E. apply H3.
  - rewrite A, F. apply H4.
Qed.

Lemma mail_on_session s f w : (forall x, sessions w !! s = Some x -> _outboundQueue (f x) = _outboundQueue x) -> same_mail w (on_session s f w).
Proof.
  intros Hf. split; try done. intros s'. unfold queued. cbn. destruct (decide (s = s')) as [->|].
  - rewrite lookup_alter_eq. destruct (sessions w !! s') eqn:E; cbn; auto.
  - by rewrite lookup_alter_ne.
Qed.

Lemma mail_on_connection c f w : (forall k, owner (f k) = owner k) -> same_mail w (on_connection c f w).
Proof.
  intros Hf. split; try done; intros c'; unfold owner_of; cbn.
  - destruct (decide (c = c')) as [->|]; [rewrite lookup_alter_eq; destruct (connections w !! c'); cbn; auto|by rewrite lookup_alter_ne].
  - by rewrite lookup_alter_None.
Qed.

Lemma mail_teardown_next r cs w : same_mail w (teardown_next r cs w).
Proof. destruct cs as [|c cs]; [by split|]. apply (mail_trans _ (fire_onClose r c w)); [by apply mail_on_connection|by split]. Qed.

Lemma mail_teardown r s w : same_mail w (_teardownConnections r s w).
Proof.
  unfold _teardownConnections. destruct (sessions w !! s); [|by split].
  eapply mail_trans; [|apply mail_teardown_next]. by apply mail_on_session.
Qed.

Lemma mail_destroy s w : same_mail w (destroy s w).
Proof. unfold destroy. eapply mail_trans; [|apply mail_teardown]. by apply mail_on_session. Qed.

Lemma mail_finalize s w : same_mail w (_finalizeGraceExpiry s w).
Proof. unfold _finalizeGraceExpiry. eapply mail_trans; [|apply mail_teardown]. by apply mail_on_session. Qed.

Lemma mail_handleClose b s w : same_mail w (_handleClose b s w).
Proof.
  unfold _handleClose. destruct (sessions w !! s); [|by split]. set (w1 := on_session s _ w).
  apply (mail_trans _ w1); [by apply mail_on_session|]. destruct (_ && _).
  - apply (mail_trans _ (on_session s (set_state true true) w1)); [by apply mail_on_session|].
    unfold _pauseWebsocketSession. destruct (_ !! _); by split.
  - eapply mail_trans; [apply mail_teardown|apply mail_destroy].
Qed.

(** ** Writing *)

Lemma messages_app c l1 l2 : messages c (l1 ++ l2) = messages c l1 ++ messages c l2.
Proof. apply omap_app. Qed.

Definition is_paused (s : nat) (w : server) : Prop := exists x, sessions w !! s = Some x /\ _paused x = true.

Lemma queue_of_open s w : guarded w -> ~ is_paused s w -> queued s w = [].
Proof.
  intros Hg Hp. unfold queued. destruct (sessions w !! s) as [x|] eqn:Hx; [|done]. apply (sessions_ok _ Hg s x Hx).
  destruct (_paused x) eqn:E; [|done]. destruct Hp. by exists x.
Qed.

(** What a write does: the reply goes to the end of the queue, which may lose its head, or,
    when there is no queue, to the wire or nowhere. *)
Record sent (s : nat) (r : reply) (w w' : server) (written dropped : list reply) : Prop := {
  sent_wire : wire w' = wire w ++ map (pair s) written;
  sent_lost : lost w' = lost w ++ map (pair s) dropped;
  sent_order : (written ++ queued s w') `sublist_of` (queued s w ++ [r]);
  sent_all : queued s w ++ [r] ≡ₚ written ++ queued s w' ++ dropped;
  sent_queues : forall s', s' <> s -> queued s' w' = queued s' w;
  sent_said : said w' = said w;
  sent_connections : connections w' = connections w;
  sent_paused : forall s', is_paused s' w' <-> is_paused s' w
}.

Lemma sendJson_sent s r w : guarded w -> exists written dropped, sent s r w (sendJson s r w) written dropped.
Proof.
  intros Hg. unfold sendJson. destruct (sessions w !! s) as [x|] eqn:Hx.
  2:{ exists [], [r]. assert (queued s w = []) as Hq by (unfold queued; by rewrite Hx).
      split; cbn; rewrite ?app_nil_r; try done; change (queued s (write _ _ w)) with (queued s w); rewrite Hq; apply sublist_nil_l. }
  destruct (_paused x) eqn:Hp.
  - set (full := bool_decide _). set (kept := if full then drop 1 _ else _). set (w1 := on_session s _ w).
    set (dropped := if full then take 1 (_outboundQueue x) else []).
    assert (_outboundQueue x = dropped ++ kept) as Hkept by (unfold dropped, kept; destruct full; [by rewrite take_drop|done]).
    assert (queued s w = _outboundQueue x) as Hq by (unfold queued; by rewrite Hx).
    assert (queued s w1 = kept ++ [r]) as Hq1 by (unfold queued; cbn; by rewrite lookup_alter_eq, Hx).
    assert (forall s' y, sessions w1 !! s' = Some y -> exists y', sessions w !! s' = Some y' /\ _paused y' = _paused y) as Hs1.
    { intros s' y. cbn. rewrite lookup_alter_Some. intros [(-> & y' & Hy & ->)|[_ Hy]]; eauto. }
    exists [], dropped. split; cbn [wire lost said connections write]; rewrite ?app_nil_r; try done.
    + unfold dropped. by destruct full.
    + change (queued s (write _ _ w1)) with (queued s w1). rewrite Hq1, Hq, Hkept, <- app_assoc. by apply sublist_inserts_l.
    + change (queued s (write _ _ w1)) with (queued s w1). rewrite Hq1, Hq, Hkept. cbn [app]. solve_Permutation.
    + intros s' Hne. unfold queued. cbn. by rewrite lookup_alter_ne.
    + intros s'. unfold is_paused. change (sessions (write _ _ w1)) with (sessions w1). split.
      * intros (y & (y' & Hy & E)%Hs1 & Hy'). exists y'. by rewrite E.
      * intros (y & Hy & Hy'). cbn. destruct (decide (s' = s)) as [->|]; [|exists y; by rewrite lookup_alter_ne].
        rewrite lookup_alter_eq, Hy. by eexists.
  - assert (queued s w = []) as Hq.
    { apply queue_of_open; [done|]. intros (y & Hy & ?). simplify_eq. congruence. }
    destruct (socket_open x); [exists [r], []|exists [], [r]]; split; cbn [wire lost said connections write map]; rewrite ?app_nil_r; try done;
      change (queued s (write _ _ w)) with (queued s w); rewrite Hq; try done. apply sublist_nil_l.
Qed.

(** The replies that wait are for the owner of the connection, or there is no queue for them
    to stay in. *)
Definition directed (c s : nat) (rs : list reply) (w : server) : Prop :=
  messages c rs = [] \/ owner_of c w = s \/ (messages c (queued (owner_of c w) w) = [] /\ ~ is_paused s w).

Lemma messages_Permutation c l l' : l ≡ₚ l' -> messages c l ≡ₚ messages c l'.
Proof. intros H. by apply omap_Permutation. Qed.

Lemma messages_sublist c l l' : l `sublist_of` l' -> messages c l `sublist_of` messages c l'.
Proof. apply sublist_omap. Qed.

Lemma messages_tagged c (s : nat) (l : list reply) : messages c (map snd (map (pair s) l)) = messages c l.
Proof. f_equal. rewrite map_map. apply map_id. Qed.

Lemma mailed_write c s r rs w : guarded w -> directed c s [r] w -> mailed (r :: rs) w c -> mailed rs (sendJson s r w) c.
Proof.
  intros Hg Hd [H1 H2 H3 H4]. pose proof (guarded_sendJson s r w Hg) as Hg'. destruct (sendJson_sent s r w Hg) as (written & dropped & [E1 E2 E3 E4 E5 E6 E7 E8]).
  set (w' := sendJson s r w) in *. apply (messages_sublist c) in E3. apply (messages_Permutation c) in E4.
  rewrite !messages_app in E3. rewrite !messages_app in E4.
  assert (owner_of c w' = owner_of c w) as Ho by (unfold owner_of; by rewrite E7).
  change (r :: rs) with ([r] ++ rs) in H1, H2. rewrite messages_app in H1, H2.
  set (R := messages c [r]) in *. set (W := messages c (map snd (wire w))) in *.
  destruct (decide (owner_of c w = s)) as [Hs|Hs].
  - split; rewrite ?E1, ?E2, ?E6, ?E7, ?Ho, ?map_app, ?messages_app, ?messages_tagged, ?Hs; fold W; [..|done].
    + rewrite Hs in H1. etrans; [|exact H1]. rewrite <- !app_assoc. apply sublist_app; [done|]. rewrite !app_assoc.
      by apply sublist_app.
    + rewrite Hs in H2. rewrite H2. trans (W ++ (messages c (queued s w) ++ R) ++ messages c rs ++ messages c (map snd (lost w)));
        [solve_Permutation|rewrite E4; solve_Permutation].
    + intros s' Hne. rewrite E5 by done. apply H3. by rewrite Hs.
  - assert (messages c (queued s w) = []) as Hn by auto. rewrite Hn in E3, E4. cbn [app] in E3, E4.
    assert (messages c (queued (owner_of c w) w') = messages c (queued (owner_of c w) w)) as Hq by by rewrite E5.
    assert (messages c (queued s w') = [] /\ (R = [] \/ messages c (queued (owner_of c w) w) = [])) as [Hn' Hor].
    { destruct Hd as [Hd|[?|[Hd Hp]]]; [|done|].
      - fold R in Hd. rewrite Hd in E3. apply sublist_nil_r, app_nil in E3 as [_ ?]. auto.
      - split; [|by right]. rewrite (queue_of_open s w' Hg'); [done|]. by rewrite E8. }
    rewrite Hn', ?app_nil_r in E3. rewrite Hn' in E4. cbn [app] in E4.
    split; rewrite ?E1, ?E2, ?E6, ?E7, ?Ho, ?Hq, ?map_app, ?messages_app, ?messages_tagged; fold W; [..|done].
    + etrans; [|exact H1]. rewrite <- app_assoc. apply sublist_app; [done|]. destruct Hor as [HR|HQ].
      * rewrite HR in E3 |- *. apply sublist_nil_r in E3 as ->. done.
      * rewrite HQ. cbn [app]. by apply sublist_app.
    + rewrite H2, E4. solve_Permutation.
    + intros s' Hne. destruct (decide (s' = s)) as [->|]; [done|]. rewrite E5 by done. by apply H3.
Qed.

(** A reply that is not a message of a connection. *)
Lemma mail_control c s r w : guarded w -> message_of c r = None -> mail c w -> mail c (sendJson s r w).
Proof.
  intros Hg Hr [H1 H2 H3 H4]. assert (messages c [r] = []) as Hn by (unfold messages; cbn; by rewrite Hr).
  apply mailed_write; [done|by left|]. split; [by rewrite Hn|by rewrite Hn|done..].
Qed.

(** What is flushed to a session. *)
Lemma mail_flush c s rs w : guarded w -> directed c s rs w -> mailed rs w c -> mail c (foldl (fun w r => sendJson s r w) w rs).
Proof.
  revert w. induction rs as [|r rs IH]; intros w Hg Hd Hm; [done|]. cbn [foldl]. change (r :: rs) with ([r] ++ rs) in Hd.
  unfold directed in Hd. rewrite messages_app in Hd. apply IH; [by apply guarded_sendJson| |apply mailed_write; [done| |done]].
  - destruct (sendJson_sent s r w Hg) as (written & dropped & [_ _ _ _ E5 _ E7 E8]).
    assert (owner_of c (sendJson s r w) = owner_of c w) as Ho by (unfold owner_of; by rewrite E7). unfold directed. rewrite Ho, E8.
    destruct Hd as [[_ ?]%app_nil|[?|[Hq Hp]]]; [by left|by right; left|]. destruct (decide (owner_of c w = s)); [by right; left|].
    right. right. by rewrite E5.
  - destruct Hd as [[? _]%app_nil|Hd]; [by left|by right].
Qed.

(** A message of a connection. *)
Lemma mail_send c c' body w w' : guarded w -> sendMessage c' body w = inr w' -> mail c w -> mail c w'.
Proof.
  intros Hg Hs [H1 H2 H3 H4]. unfold sendMessage in Hs. destruct (connections w !! c') as [k|] eqn:Hk; [|by simplify_eq].
  destruct (_closed k); [done|]. simplify_eq. set (r := ConnectionMessage c' (connectionId k) body). set (w1 := Build_server _ _ _ _ _ _ _ _).
  assert (bodies c (said w1) = bodies c (said w) ++ messages c [r]) as Hb.
  { unfold bodies, messages. cbn. rewrite omap_app. cbn. by destruct (decide (c' = c)). }
  assert (c' <> c -> messages c [r] = []) as Hother by (intros Hne; cbn; by rewrite decide_False).
  assert (directed c (owner k) [r] w1) as Hd.
  { destruct (decide (c' = c)) as [->|]; [|left; auto]. right. left. unfold owner_of. cbn. by rewrite Hk. }
  apply mailed_write; [apply (guarded_same w); try done; by left|done|].
  change (messages c []) with (@nil json) in H1, H2. rewrite app_nil_r in H1.
  split; rewrite ?Hb; [..|done|].
  - change (wire w1) with (wire w). change (queued (owner_of c w1) w1) with (queued (owner_of c w) w). rewrite app_assoc. by apply sublist_app.
  - rewrite H2. change (wire w1) with (wire w). change (queued (owner_of c w1) w1) with (queued (owner_of c w) w).
    change (lost w1) with (lost w). solve_Permutation.
  - intros Hn. rewrite (H4 Hn), Hother; [done|]. intros ->. change (connections w !! c = None) in Hn. congruence.
Qed.

Lemma transfer_sessions s entries w s' :
  (fun x => (_paused x, _inboundClosed x, _outboundQueue x)) <$> sessions (transfer s entries w) !! s' =
  (fun x => (_paused x, _inboundClosed x, _outboundQueue x)) <$> sessions w !! s'.
Proof.
  revert w. induction entries as [|[i c] entries IH]; intros w; [done|]. cbn [transfer]. rewrite IH. cbn.
  destruct (decide (s' = s)) as [->|]; [rewrite lookup_alter_eq; by destruct (sessions w !! s)|by rewrite lookup_alter_ne].
Qed.

Lemma transfer_trace s entries w : said (transfer s entries w) = said w /\ wire (transfer s entries w) = wire w /\
  lost (transfer s entries w) = lost w.
Proof. revert w. induction entries as [|[i c] entries IH]; intros w; [done|]. cbn [transfer]. by edestruct IH as (-> & -> & ->). Qed.

(** The queues when a paused session's connections and replies go to another one. *)
Lemma transfer_queued s p n x w s' :
  queued s' (on_session p (fun x => set_map [] (set_outbound [] x)) (on_session s (set_sessionId n) (transfer s (_connections x) w))) =
  if decide (s' = p) then [] else queued s' w.
Proof.
  pose proof (transfer_sessions s (_connections x) w) as E. set (w1 := transfer _ _ _) in *. unfold queued. cbn.
  destruct (decide (s' = p)) as [->|Hp].
  - rewrite lookup_alter_eq. by destruct (alter (set_sessionId n) s (sessions w1) !! p).
  - rewrite lookup_alter_ne by done. specialize (E s'). destruct (decide (s' = s)) as [->|].
    + rewrite lookup_alter_eq. destruct (sessions w1 !! s), (sessions w !! s); cbn in *; congruence.
    + rewrite lookup_alter_ne by done. destruct (sessions w1 !! s'), (sessions w !! s'); cbn in *; congruence.
Qed.

(** What is queued for the connection is written at once, or goes where the connection goes. *)
Definition goes_along (c s p : nat) (w : server) : Prop :=
  ~ is_paused s w \/ messages c (queued p w) = [] \/ c ∈ map snd (connections_of p w).

Lemma mailed_transfer s p n x w c : owned w -> sessions w !! p = Some x -> s <> p -> goes_along c s p w -> mail c w ->
  let w' := on_session p (fun x => set_map [] (set_outbound [] x)) (on_session s (set_sessionId n) (transfer s (_connections x) w)) in
  mailed (_outboundQueue x) w' c /\ (is_paused s w' <-> is_paused s w) /\ directed c s (_outboundQueue x) w'.
Proof.
  intros Ho Hx Hne Hgo [H1 H2 H3 H4] w'. destruct (transfer_spec s (_connections x) w) as (_ & _ & _ & D & _ & _).
  destruct (transfer_trace s (_connections x) w) as (E1 & E2 & E3). pose proof (transfer_sessions s (_connections x) w s) as E4.
  pose proof (transfer_queued s p n x w) as Hq. fold w' in Hq. set (w1 := transfer s (_connections x) w) in *.
  assert (queued p w = _outboundQueue x) as Hpx by (unfold queued; by rewrite Hx).
  assert (connections_of p w = _connections x) as Hcx by (unfold connections_of; by rewrite Hx).
  assert (c ∈ map snd (_connections x) -> owner_of c w = p /\ owner_of c w' = s) as Hin.
  { intros Hin. pose proof Hin as ([i c'] & Hc & Hin')%list_elem_of_fmap. cbn in Hc. subst c'.
    destruct (registered _ Ho p i c) as (k & Hk & Hk' & _); [by rewrite Hcx|].
    unfold owner_of. change (connections w') with (connections w1). rewrite D, decide_True by done. by rewrite Hk. }
  assert (c ∉ map snd (_connections x) -> owner_of c w' = owner_of c w) as Hout.
  { intros Hin'. unfold owner_of. change (connections w') with (connections w1). rewrite D, decide_False by done. by destruct (connections w !! c). }
  assert (messages c (queued (owner_of c w') w') ++ messages c (_outboundQueue x) = messages c (queued (owner_of c w) w)) as Hown.
  { rewrite Hq, <- Hpx. destruct (decide (c ∈ map snd (_connections x))) as [Hi|Hi].
    - destruct (Hin Hi) as [Hop ->]. rewrite decide_False by done. rewrite H3 by congruence. by rewrite Hop.
    - rewrite Hout by done. destruct (decide _) as [->|Hp]; [done|]. rewrite (H3 p) by congruence. by rewrite app_nil_r. }
  assert (is_paused s w' <-> is_paused s w) as Hpaused.
  { unfold is_paused. cbn. rewrite lookup_alter_ne, lookup_alter_eq by done.
    destruct (sessions w1 !! s), (sessions w !! s); cbn in E4; try done; injection E4 as E _ _; split; intros (y & [= <-] & ?); eexists; split; try done;
      cbn in *; congruence. }
  change (messages c []) with (@nil json) in H1, H2. rewrite app_nil_r in H1. cbn [app] in H2.
  split_and!; [split|done..|].
  - change (said w') with (said w1). change (wire w') with (wire w1). by rewrite E1, E2, Hown.
  - change (said w') with (said w1). change (wire w') with (wire w1). change (lost w') with (lost w1).
    rewrite E1, E2, E3, H2, <- Hown. solve_Permutation.
  - intros s' Hs'. rewrite Hq. destruct (decide (s' = p)) as [->|Hp]; [done|]. apply H3. intros ->.
    destruct (decide (c ∈ map snd (_connections x))) as [Hi|Hi]; [by destruct (Hin Hi)|by rewrite Hout in Hs'].
  - change (connections w') with (connections w1). rewrite D. change (said w') with (said w1). rewrite E1.
    destruct (connections w !! c); [done|auto].
  - unfold directed. rewrite Hpaused. destruct Hgo as [Hgo|[Hgo|Hgo]].
    + destruct (decide (c ∈ map snd (_connections x))) as [Hi|Hi]; [right; left; by apply Hin|].
      destruct (decide (owner_of c w = p)) as [Hop|Hop]; [right; right|left; rewrite <- Hpx; by apply H3].
      split; [|done]. rewrite Hq, Hout, decide_True by done. done.
    + left. by rewrite <- Hpx.
    + right. left. apply Hin. by rewrite <- Hcx.
Qed.

Lemma paused_destroy p s w : s <> p -> is_paused s (destroy p w) <-> is_paused s w.
Proof.
  intros Hne. pose proof (sessions_teardown session_destroyed p (on_session p (set_state false true) w) s) as E.
  fold (destroy p w) in E. cbn in E. rewrite lookup_alter_ne in E by done. unfold is_paused.
  destruct (sessions (destroy p w) !! s), (sessions w !! s); cbn in E; try done; injection E as E _ _ _; split;
    intros (y & [= <-] & ?); eexists; (split; [done|congruence]).
Qed.

Lemma mail_finish_resume c m s id p w : owned w -> guarded w -> is_closed p w -> s <> p ->
  (m = true -> goes_along c s p w) -> mail c w -> mail c (finish_resume m s id p w).
Proof.
  intros Ho Hg (x & Hx & Hc) Hne Hs Hm. unfold finish_resume. set (w0 := _clearPausedWebsocketSession id w).
  assert (mail c w0) as Hm0 by by apply (same_mailed _ w). assert (guarded w0) as Hg0 by by apply guarded_delete_registry.
  assert (owned w0) as Ho0 by by apply owned_registry. destruct m; cbn [negb].
  - change (sessions w0) with (sessions w). rewrite Hx.
    destruct (mailed_transfer s p id x w0 c Ho0 Hx Hne (Hs eq_refl) Hm0) as (M & Hp & Hd). set (w3 := on_session p _ _) in *.
    assert (guarded (destroy p w3)) as Hg3.
    { apply outbound_destroyed, guarded_on_session; [by apply guarded_transfer|]. intros y _ [? ?]. split; [by split|done]. }
    apply (same_mailed _ _ _ _ (mail_destroy p w3)) in M as M'. apply mail_flush; [done| |].
    + unfold directed in *. rewrite (mail_owner _ _ (mail_destroy p w3)), (mail_queued _ _ (mail_destroy p w3)), paused_destroy by done. exact Hd.
    + destruct M' as [M1 M2 M3 M4]. by split.
  - apply mail_control; [by apply guarded_finalize|done|]. apply (same_mailed _ w0); [apply mail_finalize|done].
Qed.

Section mail_steps.
Context (identityResolver : bool) (connectionTypes : string -> bool).

(** What is queued for the connection goes along with it when its session is resumed. *)
Definition settled (c : nat) (a : action) (w : server) : Prop :=
  match a with
  | Proceed None i => match pending w !! i with Some (Resuming s _ p) => goes_along c s p w | _ => True end
  | _ => True
  end.

Definition settled_step (c : nat) (w w' : server) : Prop :=
  exists a, settled c a w /\ perform identityResolver connectionTypes a w = Some w'.

Section one.
Context (c : nat).

Lemma mail_open id type s w : guarded w -> owned w -> mail c w -> mail c (_handleConnectionOpen connectionTypes id type s w).
Proof.
  intros Hg Ho Hm. unfold _handleConnectionOpen. do 2 (destruct (decide _); [by apply mail_control|]).
  destruct (map_get _ _); [by apply mail_control|]. destruct (negb _); [by apply mail_control|].
  destruct Hm as [H1 H2 H3 H4]. set (c0 := next_handle w) in *.
  assert (connections w !! c0 = None) as Hn by by apply (fresh _ Ho).
  set (w1 := await _ _). change (messages c []) with (@nil json) in *. destruct (decide (c = c0)) as [->|Hne].
  - specialize (H4 Hn). rewrite H4 in H1, H2. apply sublist_nil_r, app_nil in H1 as [Hw [Hq _]%app_nil].
    assert (forall s', messages c0 (queued s' w) = []) as Hall.
    { intros s'. destruct (decide (s' = owner_of c0 w)) as [->|]; [done|by apply H3]. }
    rewrite Hw, Hq in H2. assert (forall s', messages c0 (queued s' w1) = []) as Hall' by exact Hall.
    split; [| |intros; apply Hall'|cbn; by rewrite lookup_insert_eq]; rewrite Hall'; change (said w1) with (said w);
      change (wire w1) with (wire w); change (lost w1) with (lost w); by rewrite H4, Hw.
  - assert (owner_of c w1 = owner_of c w) as E by (unfold owner_of; cbn; by rewrite lookup_insert_ne).
    split; [by rewrite E|by rewrite E|by rewrite E|]. cbn. by rewrite lookup_insert_ne.
Qed.

Lemma mail_proceed error i k w : owned w -> guarded w -> pending w !! i = Some k -> settled c (Proceed error i) w -> mail c w ->
  mail c (proceed error k (set_pending (delete i (pending w)) w)).
Proof.
  intros Ho Hg Hi Hsettled Hm. set (w0 := set_pending _ w). assert (mail c w0) as Hm0 by by apply (same_mailed _ w).
  assert (guarded w0) as Hg0.
  { apply (guarded_same w); try done; [by left|]. intros s' id' p' Hin. left. exact (sublist_elem _ _ _ (sublist_delete _ i) Hin). }
  destruct k as [s c'|s id|s id|c' r|r rest|s id p]; cbn [proceed].
  - destruct (connections w0 !! c') as [k|]; [|by destruct error]. destruct error; [by apply mail_control|].
    set (w1 := on_connection c' (call connected) w0). apply mail_control; [|done|].
    + apply guarded_on_session; [by apply guarded_on_connection|]. intros x _ [? ?]. split; [by split|done].
    + eapply same_mailed; [|exact Hm0]. apply (mail_trans _ w1); [by apply mail_on_connection|by apply mail_on_session].
  - destruct error; [by apply mail_control|done].
  - by apply mail_control.
  - destruct (connections w0 !! c') as [k|]; [|done]. eapply same_mailed; [by apply mail_on_session|]. by apply mail_control.
  - eapply same_mailed; [apply mail_teardown_next|done].
  - destruct (resumed_closed _ Hg s id p) as [Hcl Hne]; [by eapply list_elem_of_lookup_2|].
    apply mail_finish_resume; [by apply owned_delete|done..| |done]. destruct error; [done|]. intros _. cbn in Hsettled. by rewrite Hi in Hsettled.
Qed.

Lemma mail_step a w w' : owned w -> guarded w -> settled c a w -> perform identityResolver connectionTypes a w = Some w' -> mail c w -> mail c w'.
Proof.
  intros Ho Hg Hsettled Ha Hm. destruct a as [|id type s|id body s|id s|id s|c' body|r c'|error i|b s|id|s]; cbn in Ha.
  - simplify_eq. eapply same_mailed; [|exact Hm]. split; try done. intros s. unfold queued. cbn.
    destruct (decide (s = next_handle w)) as [->|]; [rewrite lookup_insert_eq; by rewrite (new_handle _ Hg)|by rewrite lookup_insert_ne].
  - destruct (dispatches s w); simplify_eq. by apply mail_open.
  - destruct (dispatches s w); simplify_eq. unfold _handleConnectionMessage. destruct (map_get _ _) as [c'|]; [|by apply mail_control].
    eapply same_mailed; [|exact Hm]. apply (mail_trans _ (on_connection c' (call (onMessage body)) w)); [by apply mail_on_connection|by split].
  - destruct (dispatches s w); simplify_eq. unfold _handleConnectionClose. destruct (map_get _ _) as [c'|]; [|done].
    eapply same_mailed; [|exact Hm]. set (w1 := on_session s _ w). apply (mail_trans _ w1); [by apply mail_on_session|].
    apply (mail_trans _ (fire_onClose client_close c' w1)); [by apply mail_on_connection|by split].
  - destruct (dispatches s w) eqn:Hd; simplify_eq. unfold _handleSessionResume. destruct id as [id|]; [|by apply mail_control].
    destruct (_ !! id) as [p|] eqn:Hp; [|by apply mail_control]. destruct identityResolver; [by apply (same_mailed _ w)|].
    apply (paused_closed _ Hg) in Hp. apply mail_finish_resume; try done; [by eapply dispatches_other|]. intros _. left.
    intros (x & Hx & Hpaused). unfold dispatches in Hd. rewrite Hx in Hd. apply (sessions_ok _ Hg s x Hx) in Hpaused. by rewrite Hpaused in Hd.
  - destruct (sendMessage c' body w) eqn:Hs; simplify_eq. by eapply mail_send.
  - simplify_eq. unfold close. destruct (connections w !! c') as [k|]; [|done]. destruct (_closed k); [done|].
    eapply same_mailed; [|exact Hm]. apply (mail_trans _ (fire_onClose r c' w)); [by apply mail_on_connection|by split].
  - destruct (pending w !! i) as [k|] eqn:Hi; simplify_eq. by apply mail_proceed.
  - destruct (sessions w !! s) as [x|]; [|done]. destruct (_inboundClosed x); simplify_eq.
    eapply same_mailed; [apply mail_handleClose|done].
  - simplify_eq. unfold _expireWebsocketSession. destruct (_ !! id); [|done].
    eapply same_mailed; [apply mail_finalize|]. by apply (same_mailed _ w).
  - simplify_eq. eapply same_mailed; [by apply mail_on_session|done].
Qed.

Lemma guarded_new : guarded new_server.
Proof. split; cbn; try done. by intros s id p ?%elem_of_nil. Qed.

Lemma settled_reachable w : rtc (settled_step c) new_server w -> owned w /\ guarded w /\ mail c w.
Proof.
  assert (owned new_server /\ guarded new_server /\ mail c new_server) as H0.
  { split_and!; [apply owned_new|apply guarded_new|by split]. }
  revert H0. generalize new_server as w0. intros w0 H0 H. induction H as [|w0 w1 w2 (a & Hl & Ha) _ IH]; [done|].
  apply IH. destruct H0 as (H1 & H2 & H3). split_and!.
  - eapply owned_step; [by exists a|done].
  - eapply guarded_step; [by exists a|done].
  - by eapply mail_step.
Qed.
End one.
End mail_steps.

(** ** What is written and what is lost *)

(** The frame reaches the socket of the session. *)
Definition deliverable (s : nat) (w : server) : Prop :=
  exists x, sessions w !! s = Some x /\ _paused x = false /\ socket_open x = true.

(** Its socket is closed, or it is paused and its queue is full. *)
Definition undeliverable (s : nat) (w : server) : Prop :=
  forall x, sessions w !! s = Some x ->
    if _paused x then WEBSOCKET_PAUSED_QUEUE_CAP <= length (_outboundQueue x) else socket_open x = false.

Definition traced (w w' : server) : Prop := exists written dropped,
  wire w' = wire w ++ written /\ lost w' = lost w ++ dropped /\
  (forall s r, (s, r) ∈ written -> deliverable s w') /\ (forall s r, (s, r) ∈ dropped -> undeliverable s w').

Lemma traced_quiet w w' : wire w' = wire w -> lost w' = lost w -> traced w w'.
Proof. intros Hw Hl. exists [], []. rewrite !app_nil_r. split_and!; try done; by intros ?? ?%elem_of_nil. Qed.

Lemma traced_mail w w' : same_mail w w' -> traced w w'.
Proof. intros H. apply traced_quiet; apply H. Qed.

Lemma traced_then w1 w2 w3 : traced w1 w2 -> traced w2 w3 -> (forall s, deliverable s w2 -> deliverable s w3) ->
  (forall s, undeliverable s w2 -> undeliverable s w3) -> traced w1 w3.
Proof.
  intros (l1 & d1 & E1 & F1 & L1 & D1) (l2 & d2 & E2 & F2 & L2 & D2) Hd Hu. exists (l1 ++ l2), (d1 ++ d2).
  rewrite E2, E1, F2, F1, !app_assoc. split_and!; try done; intros s r [?|?]%elem_of_app; eauto.
Qed.

Lemma traced_after w1 w2 w3 : wire w2 = wire w1 -> lost w2 = lost w1 -> traced w2 w3 -> traced w1 w3.
Proof. unfold traced. by intros -> ->. Qed.

Lemma sendJson_paused s s' r w x : sessions (sendJson s r w) !! s' = Some x -> exists x0, sessions w !! s' = Some x0 /\
  _paused x = _paused x0 /\ socket_open x = socket_open x0 /\
  (s' <> s \/ _paused x = false -> _outboundQueue x = _outboundQueue x0) /\
  (WEBSOCKET_PAUSED_QUEUE_CAP <= length (_outboundQueue x0) -> WEBSOCKET_PAUSED_QUEUE_CAP <= length (_outboundQueue x)).
Proof.
  unfold sendJson. destruct (sessions w !! s) as [y|] eqn:Hy; [|cbn; eauto 10].
  destruct (_paused y) eqn:Hp; [|destruct (socket_open y); cbn; eauto 10]. cbn [sessions write on_session].
  rewrite lookup_alter_Some. intros [(-> & x0 & Hx0 & ->)|[Hne Hx]]; [|exists x; eauto 10]. simplify_eq. eexists. split; [done|]. cbn. split_and!; try done.
  - intros [?|?]; congruence.
  - destruct (bool_decide _); rewrite length_app; cbn; rewrite ?length_drop; lia.
Qed.

Lemma traced_sendJson s r w : traced w (sendJson s r w) /\
  (forall s', deliverable s' w -> deliverable s' (sendJson s r w)) /\ (forall s', undeliverable s' w -> undeliverable s' (sendJson s r w)).
Proof.
  split_and!.
  - unfold sendJson. destruct (sessions w !! s) as [x|] eqn:Hx.
    2:{ exists [], [(s, r)]. split_and!; try done; [by intros ?? ?%elem_of_nil|].
        intros s' r' [= -> ->]%list_elem_of_singleton y Hy. cbn in Hy. congruence. }
    destruct (_paused x) eqn:Hp.
    + match goal with |- traced _ (write [] ?d ?w1) => exists [], d end. split_and!; try done; [by intros ?? ?%elem_of_nil|].
      intros s' r' Hin y Hy. destruct (bool_decide _) eqn:Hfull; [|by apply elem_of_nil in Hin].
      apply bool_decide_eq_true in Hfull. apply list_elem_of_fmap in Hin as (r0 & [= -> ->] & _). cbn in Hy.
      rewrite lookup_alter_eq, Hx in Hy. cbn in Hy. injection Hy as <-. cbn. rewrite Hp, length_app, length_drop. cbn. lia.
    + destruct (socket_open x) eqn:Ho; [exists [(s, r)], []|exists [], [(s, r)]]; split_and!; try done;
        try (by intros ?? ?%elem_of_nil); intros s' r' [= -> ->]%list_elem_of_singleton; [by exists x|].
      intros y Hy. cbn in Hy. simplify_eq. by rewrite Hp.
  - intros s' (x & Hx & Hp & Ho). unfold deliverable, sendJson. destruct (sessions w !! s) as [y|] eqn:Hy; [|by exists x].
    destruct (_paused y) eqn:Hpy; [|destruct (socket_open y); by exists x]. cbn. exists x. rewrite lookup_alter_ne; [done|congruence].
  - intros s' Hu x Hx. apply sendJson_paused in Hx as (x0 & Hx0 & Hp & Ho & _ & Hq). specialize (Hu x0 Hx0). rewrite Hp, Ho.
    destruct (_paused x0); auto.
Qed.

Lemma traced_sends s rs w : traced w (foldl (fun w r => sendJson s r w) w rs).
Proof.
  assert (forall rs w, (forall s', deliverable s' w -> deliverable s' (foldl (fun w r => sendJson s r w) w rs)) /\
    (forall s', undeliverable s' w -> undeliverable s' (foldl (fun w r => sendJson s r w) w rs))) as Hkeep.
  { clear. induction rs as [|r rs IH]; intros w; [done|]. destruct (traced_sendJson s r w) as (_ & Hd & Hu), (IH (sendJson s r w)) as [Hd' Hu'].
    cbn [foldl]. split; auto. }
  revert w. induction rs as [|r rs IH]; intros w; [by apply traced_quiet|]. cbn [foldl].
  eapply traced_then; [apply traced_sendJson|apply IH|..]; apply Hkeep.
Qed.

Lemma traced_reply s r w : traced w (sendJson s r w).
Proof. apply traced_sendJson. Qed.

#[local] Hint Resolve traced_reply : core.

Lemma traced_finish_resume m s id p w : traced w (finish_resume m s id p w).
Proof.
  unfold finish_resume. set (w0 := _clearPausedWebsocketSession id w). destruct (negb m).
  - eapply (traced_after _ (_finalizeGraceExpiry p w0)); [| |auto]; by rewrite ?(mail_wire _ _ (mail_finalize p w0)), ?(mail_lost _ _ (mail_finalize p w0)).
  - destruct (sessions w0 !! p) as [x|]; [|by apply traced_quiet]. set (w3 := on_session p _ _).
    destruct (transfer_trace s (_connections x) w0) as (_ & E2 & E3). apply (traced_after _ (destroy p w3)); [..|apply traced_sends].
    + rewrite (mail_wire _ _ (mail_destroy p w3)). exact E2.
    + rewrite (mail_lost _ _ (mail_destroy p w3)). exact E3.
Qed.

(** A step that changes nothing but the maps of sessions. *)
Lemma traced_maps s f w w' : traced w w' -> traced w (on_session s (fun x => set_map (f x) x) w').
Proof.
  intros H. assert (forall s' x, sessions (on_session s (fun x => set_map (f x) x) w') !! s' = Some x ->
    exists x0, sessions w' !! s' = Some x0 /\ _paused x = _paused x0 /\ socket_open x = socket_open x0 /\ _outboundQueue x = _outboundQueue x0) as Hs.
  { intros s' x. cbn. rewrite lookup_alter_Some. intros [(-> & y & Hy & ->)|[_ Hy]]; eauto. }
  eapply traced_then; [done|by apply traced_quiet|..].
  - intros s' (x & Hx & Hp & Ho). unfold deliverable. cbn. destruct (decide (s' = s)) as [->|]; [|exists x; by rewrite lookup_alter_ne].
    rewrite lookup_alter_eq, Hx. by eexists.
  - intros s' Hu x (x0 & Hx0 & -> & -> & ->)%Hs. by apply Hu.
Qed.

Lemma traced_step identityResolver connectionTypes a w w' : perform identityResolver connectionTypes a w = Some w' -> traced w w'.
Proof.
  intros Ha. destruct a as [|id type s|id body s|id s|id s|c' body|r c'|error i|b s|id|s]; cbn in Ha.
  - simplify_eq. by apply traced_quiet.
  - destruct (dispatches s w); simplify_eq. unfold _handleConnectionOpen. do 2 (destruct (decide _); [auto|]).
    destruct (map_get _ _); [auto|]. destruct (negb _); [auto|]. by apply traced_quiet.
  - destruct (dispatches s w); simplify_eq. unfold _handleConnectionMessage. destruct (map_get _ _); [|auto]. by apply traced_quiet.
  - destruct (dispatches s w); simplify_eq. unfold _handleConnectionClose. destruct (map_get _ _); by apply traced_quiet.
  - destruct (dispatches s w); simplify_eq. unfold _handleSessionResume. destruct id as [id|]; [|auto]. destruct (_ !! id); [|auto].
    destruct identityResolver; [by apply traced_quiet|apply traced_finish_resume].
  - destruct (sendMessage c' body w) eqn:Hs; simplify_eq. unfold sendMessage in Hs. destruct (connections w !! c') as [k|]; [|simplify_eq; by apply traced_quiet].
    destruct (_closed k); [done|]. injection Hs as <-. by eapply traced_after; [| |apply traced_reply].
  - simplify_eq. unfold close. destruct (connections w !! c') as [k|]; [|by apply traced_quiet]. destruct (_closed k); by apply traced_quiet.
  - destruct (pending w !! i) as [k|]; simplify_eq. apply (traced_after _ (set_pending (delete i (pending w)) w)); [done..|].
    set (w0 := set_pending _ w). destruct k as [s c'|s id|s id|c' r|r rest|s id p]; cbn [proceed].
    + destruct (connections w0 !! c'); [|destruct error; by apply traced_quiet]. destruct error; [auto|].
      by eapply traced_after; [| |apply traced_reply].
    + destruct error; [auto|by apply traced_quiet].
    + auto.
    + destruct (connections w0 !! c'); [|by apply traced_quiet]. by apply traced_maps.
    + apply traced_mail, mail_teardown_next.
    + apply traced_finish_resume.
  - destruct (sessions w !! s) as [x|]; [|done]. destruct (_inboundClosed x); simplify_eq. apply traced_mail, mail_handleClose.
  - simplify_eq. unfold _expireWebsocketSession. destruct (_ !! id); [|by apply traced_quiet].
    eapply traced_after; [| |apply traced_mail, mail_finalize]; done.
  - simplify_eq. by apply traced_quiet.
Qed.


(** C34: What a connection sends arrives in order. Its messages on the wire, followed by those
    in the queue of its session, are in the order in which it sent them, through any number
    of sockets, pauses and resumes, and whatever else happens on the server; every message
    it sent is one of these or was lost, each once. And a step puts a frame on the wire of an
    open socket only, and loses one only when the socket of its session is closed without
    the session being paused, or when the queue of the paused session is full. The one thing
    excluded ([settled_step]): messages queued for a connection that is not registered with
    the paused session, which go to a session that was itself paused while it resumed that
    one; [overtaken] shows how they are overtaken. *)
Theorem messages_survive_pauses identityResolver connectionTypes w c :
  rtc (settled_step identityResolver connectionTypes c) new_server w ->
  (messages c (map snd (wire w)) ++ messages c (queued (owner_of c w) w)) `sublist_of` bodies c (said w) /\
  bodies c (said w) ≡ₚ messages c (map snd (wire w)) ++ messages c (queued (owner_of c w) w) ++ messages c (map snd (lost w)) /\
  (forall s, s <> owner_of c w -> messages c (queued s w) = []) /\
  (forall a w', perform identityResolver connectionTypes a w = Some w' -> exists written dropped,
    wire w' = wire w ++ written /\ lost w' = lost w ++ dropped /\
    (forall s r, (s, r) ∈ written -> deliverable s w') /\ (forall s r, (s, r) ∈ dropped -> undeliverable s w')).
Proof.
  intros (_ & _ & [H1 H2 H3 _])%settled_reachable. change (messages c []) with (@nil json) in *. rewrite app_nil_r in H1.
  split_and!; try done. intros a w'. apply traced_step.
Qed.

(** ** A concrete run *)

(** No session is paused when it resumes another one. *)
Definition resumes_open (a : action) (w : server) : bool :=
  match a with
  | Proceed None i =>
      match pending w !! i with
      | Some (Resuming s _ _) => match sessions w !! s with Some x => negb (_paused x) | None => true end
      | _ => true
      end
  | _ => true
  end.

Lemma resumes_open_settled c a w : resumes_open a w = true -> settled c a w.
Proof.
  destruct a as [| | | | | | |[] i| | |]; try done. cbn. destruct (pending w !! i) as [[]|]; try done.
  intros H. left. intros (x & Hx & Hp). by rewrite Hx, Hp in H.
Qed.

Fixpoint open_run (actions : list action) (w : server) : bool :=
  match actions with
  | [] => true
  | a :: actions => resumes_open a w && match perform true (fun _ => true) a w with Some w => open_run actions w | None => false end
  end.

Lemma run_settled c actions w w' : open_run actions w = true -> run true (fun _ => true) actions w = Some w' ->
  rtc (settled_step true (fun _ => true) c) w w'.
Proof.
  revert w. induction actions as [|a actions IH]; cbn; intros w; [by intros _ [= ->]|].
  intros [Hl Hc]%andb_true_iff Hr. destruct (perform _ _ a w) as [w1|] eqn:Ha; [|done].
  eapply rtc_l; [|by apply IH]. exists a. split; [by apply resumes_open_settled|done].
Qed.

Lemma run_steps actions w w' : run true (fun _ => true) actions w = Some w' -> rtc (step true (fun _ => true)) w w'.
Proof.
  revert w. induction actions as [|a actions IH]; cbn; intros w; [by intros [= ->]|].
  destruct (perform _ _ a w) as [w1|] eqn:Ha; [|done]. intros Hr. eapply rtc_l; [by exists a|]. by apply IH.
Qed.

Fixpoint spares (c : nat) (actions : list action) : bool :=
  match actions with
  | [] => true
  | ServerClose _ c' :: actions => negb (bool_decide (c' = c)) && spares c actions
  | _ :: actions => spares c actions
  end.

Lemma run_sparing c actions w w' : spares c actions = true -> run true (fun _ => true) actions w = Some w' ->
  rtc (step_sparing c true (fun _ => true)) w w'.
Proof.
  revert w. induction actions as [|a actions IH]; cbn; intros w; [by intros _ [= ->]|].
  intros Hs. destruct (perform _ _ a w) as [w1|] eqn:Ha; [|done]. intros Hr.
  assert ((forall r, a <> ServerClose r c) /\ spares c actions = true) as [Ha' Hs'].
  { destruct a; try by split. apply andb_true_iff in Hs as [Hs ?]. split; [|done]. intros r' [= _ ->]. by rewrite bool_decide_true in Hs. }
  eapply rtc_l; [by exists a|]. by apply IH.
Qed.

(** The connection is resumed once, and its second session expires. *)
Definition resumed_and_expired : list action := opened_connection ++
  [CloseSession true 0; Resume (Some 0) 2; Proceed None 0; Message "a" (JNum "1") 2; Proceed None 0; CloseSession true 2; Expire 0].

(** The socket of the first session fails: one message is lost before the session is paused. *)
Definition resumed_after_loss : list action := opened_connection ++
  [Send 1 (JNum "1"); SocketCloses 0; Send 1 (JNum "2"); CloseSession true 0; Send 1 (JNum "3"); Resume (Some 0) 2; Proceed None 0;
   Send 1 (JNum "4"); CloseSession true 2; Send 1 (JNum "5")].

(** A session is paused while [onConnect] of its connection 2 runs, and two others resume it.
    The first is paused before that, and takes the message that is queued; then [onConnect]
    ends, and the second takes the connection, which writes at once: the messages arrive in
    the wrong order. *)
Example overtaken : let w := after true
    [Accept; Open "a" "Chat" 0; Proceed None 0; Open "b" "Chat" 0; CloseSession true 0; Send 2 (JNum "1");
     Accept; Open "c" "Chat" 3; Proceed None 1; Accept; Accept; Resume (Some 0) 3; Resume (Some 0) 5; CloseSession true 3; Proceed None 1;
     Proceed None 0; Proceed None 0; Send 2 (JNum "2"); Resume (Some 3) 6; Proceed None 0] in
  messages 2 (map snd (wire w)) = [JNum "2"; JNum "1"] /\ messages 2 (map snd (lost w)) = [].
Proof. vm_compute. repeat split. Qed.


Lemma messages_survive_pauses_witness :
  let w := after true resumed_after_loss in
  [JNum "1"; JNum "2"; JNum "3"; JNum "4"; JNum "5"] ≡ₚ
    messages 1 (map snd (wire w)) ++ messages 1 (queued (owner_of 1 w) w) ++ messages 1 (map snd (lost w)) /\
  messages 1 (map snd (wire w)) = [JNum "1"; JNum "3"; JNum "4"] /\
  messages 1 (queued (owner_of 1 w) w) = [JNum "5"] /\ messages 1 (map snd (lost w)) = [JNum "2"].
Proof.
  intros w. split; [|split_and!; vm_compute; reflexivity].
  apply (messages_survive_pauses true (fun _ => true) w 1).
  apply (run_settled 1 resumed_after_loss); vm_compute; reflexivity.
Defined.
