(* ===== verification/Sha256.v ===== *)
(** * SHA-256 in JavaScript's 32-bit integers ([src/src/utils/sha256-hex.js])

    [sha256Hex] computes with the bitwise operators of JavaScript, which read
    their operands as signed 32-bit integers and return signed results, except
    [>>>]. The [JS] section writes those operators out on [Z]; [FIPS] is the
    hash as FIPS 180-4 states it, on unsigned words; the theorems show that the
    first computes the second. *)

From stdpp Require Import base gmap strings list.
From Stdlib Require Import ZArith Ascii Lia.
From S2P Require Import Prelude.
Open Scope Z_scope.

(** ** The 32-bit operators of JavaScript *)

Definition to_uint32 (x : Z) : Z := x mod 2 ^ 32.

Definition to_int32 (x : Z) : Z :=
  let y := x mod 2 ^ 32 in if 2 ^ 31 <=? y then y - 2 ^ 32 else y.

Definition js_ushr (x n : Z) : Z := Z.shiftr (to_uint32 x) (n mod 32).
Definition js_shl (x n : Z) : Z := to_int32 (Z.shiftl (to_int32 x) (n mod 32)).
Definition js_and (x y : Z) : Z := Z.land (to_int32 x) (to_int32 y).
Definition js_or (x y : Z) : Z := Z.lor (to_int32 x) (to_int32 y).
Definition js_xor (x y : Z) : Z := Z.lxor (to_int32 x) (to_int32 y).
Definition js_not (x : Z) : Z := Z.lnot (to_int32 x).

(** ** The program *)

(** The constants, in the rows of the source. *)

Definition SHA256_INITIAL_HASH : list Z := concat [
   [0x6a09e667; 0xbb67ae85; 0x3c6ef372; 0xa54ff53a];
   [0x510e527f; 0x9b05688c; 0x1f83d9ab; 0x5be0cd19] ].

Definition SHA256_K : list Z := concat [
   [0x428a2f98; 0x71374491; 0xb5c0fbcf; 0xe9b5dba5];
   [0x3956c25b; 0x59f111f1; 0x923f82a4; 0xab1c5ed5];
   [0xd807aa98; 0x12835b01; 0x243185be; 0x550c7dc3];
   [0x72be5d74; 0x80deb1fe; 0x9bdc06a7; 0xc19bf174];
   [0xe49b69c1; 0xefbe4786; 0x0fc19dc6; 0x240ca1cc];
   [0x2de92c6f; 0x4a7484aa; 0x5cb0a9dc; 0x76f988da];
   [0x983e5152; 0xa831c66d; 0xb00327c8; 0xbf597fc7];
   [0xc6e00bf3; 0xd5a79147; 0x06ca6351; 0x14292967];
   [0x27b70a85; 0x2e1b2138; 0x4d2c6dfc; 0x53380d13];
   [0x650a7354; 0x766a0abb; 0x81c2c92e; 0x92722c85];
   [0xa2bfe8a1; 0xa81a664b; 0xc24b8b70; 0xc76c51a3];
   [0xd192e819; 0xd6990624; 0xf40e3585; 0x106aa070];
   [0x19a4c116; 0x1e376c08; 0x2748774c; 0x34b0bcb5];
   [0x391c0cb3; 0x4ed8aa4a; 0x5b9cca4f; 0x682e6ff3];
   [0x748f82ee; 0x78a5636f; 0x84c87814; 0x8cc70208];
   [0x90befffa; 0xa4506ceb; 0xbef9a3f7; 0xc67178f2] ].

(** [values.reduce((sum, value) => (sum + value) >>> 0, 0)] *)
Definition add32 (values : list Z) : Z :=
  fold_left (fun sum value => js_ushr (sum + value) 0) values 0.

Definition rotateRight (value bits : Z) : Z :=
  js_or (js_ushr value bits) (js_shl value (32 - bits)).

(** The code points the iteration [for (const character of value)] yields: a
    surrogate pair is one character, a lone surrogate is itself. *)
Fixpoint code_points (units : list Z) : list Z :=
  match units with
  | [] => []
  | u :: rest =>
      match rest with
      | v :: rest' =>
          if (0xd800 <=? u) && (u <=? 0xdbff) && (0xdc00 <=? v) && (v <=? 0xdfff)
          then (0x10000 + (u - 0xd800) * 0x400 + (v - 0xdc00)) :: code_points rest'
          else u :: code_points rest
      | [] => [u]
      end
  end.

Definition utf8_code_point (codePoint : Z) : list Z :=
  if codePoint <=? 0x7f then [codePoint]
  else if codePoint <=? 0x7ff then
    [js_or 0xc0 (js_ushr codePoint 6); js_or 0x80 (js_and codePoint 0x3f)]
  else if codePoint <=? 0xffff then
    [js_or 0xe0 (js_ushr codePoint 12); js_or 0x80 (js_and (js_ushr codePoint 6) 0x3f);
     js_or 0x80 (js_and codePoint 0x3f)]
  else
    [js_or 0xf0 (js_ushr codePoint 18); js_or 0x80 (js_and (js_ushr codePoint 12) 0x3f);
     js_or 0x80 (js_and (js_ushr codePoint 6) 0x3f); js_or 0x80 (js_and codePoint 0x3f)].

Definition utf8Bytes (value : list Z) : list Z := concat (map utf8_code_point (code_points value)).

(** [while (padded.length % 64 !== 56) padded.push(0)]; at most 63 bytes are
    pushed. *)
Fixpoint pad_zeros (fuel : nat) (padded : list Z) : list Z :=
  match fuel with
  | O => padded
  | S fuel =>
      if Z.of_nat (length padded) mod 64 =? 56 then padded
      else pad_zeros fuel (padded ++ [0])
  end.

Definition length_bytes (value : Z) : list Z :=
  [js_and (js_ushr value 24) 0xff; js_and (js_ushr value 16) 0xff;
   js_and (js_ushr value 8) 0xff; js_and value 0xff].

Definition pad_message (bytes : list Z) : list Z :=
  let bitLength := Z.of_nat (length bytes) * 8 in
  let padded := pad_zeros 64 (bytes ++ [0x80]) in
  let highLength := bitLength / 0x100000000 in
  let lowLength := js_ushr bitLength 0 in
  padded ++ length_bytes highLength ++ length_bytes lowLength.

(** [padded[index] || 0]: reading past the end gives [undefined]. *)
Definition byte_at (padded : list Z) (index : nat) : Z := nth index padded 0.

Definition block_word (padded : list Z) (offset i : nat) : Z :=
  let index := (offset + i * 4)%nat in
  js_ushr (js_or (js_or (js_or
    (js_shl (byte_at padded index) 24)
    (js_shl (byte_at padded (index + 1)) 16))
    (js_shl (byte_at padded (index + 2)) 8))
    (byte_at padded (index + 3))) 0.

(** One iteration of the schedule loop: [words] holds the words below [i]. *)
Definition schedule_word (words : list Z) : Z :=
  let i := length words in
  let w j := nth (i - j) words 0 in
  let s0 := js_xor (js_xor (rotateRight (w 15%nat) 7) (rotateRight (w 15%nat) 18))
                   (js_ushr (w 15%nat) 3) in
  let s1 := js_xor (js_xor (rotateRight (w 2%nat) 17) (rotateRight (w 2%nat) 19))
                   (js_ushr (w 2%nat) 10) in
  add32 [w 16%nat; s0; w 7%nat; s1].

Fixpoint extend_schedule (n : nat) (words : list Z) : list Z :=
  match n with
  | O => words
  | S n => extend_schedule n (words ++ [schedule_word words])
  end.

Definition message_schedule (padded : list Z) (offset : nat) : list Z :=
  extend_schedule 48 (map (block_word padded offset) (seq 0 16)).

(** The eight working variables. *)
Record working := { wa : Z; wb : Z; wc : Z; wd : Z; we : Z; wf : Z; wg : Z; wh : Z }.

Definition round (v : working) (k w : Z) : working :=
  let s1 := js_xor (js_xor (rotateRight (we v) 6) (rotateRight (we v) 11)) (rotateRight (we v) 25) in
  let ch := js_xor (js_and (we v) (wf v)) (js_and (js_not (we v)) (wg v)) in
  let temp1 := add32 [wh v; s1; ch; k; w] in
  let s0 := js_xor (js_xor (rotateRight (wa v) 2) (rotateRight (wa v) 13)) (rotateRight (wa v) 22) in
  let maj := js_xor (js_xor (js_and (wa v) (wb v)) (js_and (wa v) (wc v))) (js_and (wb v) (wc v)) in
  let temp2 := add32 [s0; maj] in
  {| wh := wg v; wg := wf v; wf := we v; we := add32 [wd v; temp1];
     wd := wc v; wc := wb v; wb := wa v; wa := add32 [temp1; temp2] |}.

Definition rounds (v : working) (words : list Z) : working :=
  fold_left (fun v i => round v (nth i SHA256_K 0) (nth i words 0)) (seq 0 64) v.

Definition of_hash (hash : list Z) : working :=
  {| wa := nth 0 hash 0; wb := nth 1 hash 0; wc := nth 2 hash 0; wd := nth 3 hash 0;
     we := nth 4 hash 0; wf := nth 5 hash 0; wg := nth 6 hash 0; wh := nth 7 hash 0 |}.

Definition to_hash (v : working) : list Z :=
  [wa v; wb v; wc v; wd v; we v; wf v; wg v; wh v].

Definition compress (padded : list Z) (hash : list Z) (offset : nat) : list Z :=
  let v := rounds (of_hash hash) (message_schedule padded offset) in
  zip_with (fun x y => add32 [x; y]) hash (to_hash v).

(** [for (let offset = 0; offset < padded.length; offset += 64)] *)
Definition block_offsets (padded : list Z) : list nat :=
  map (fun i => 64 * i)%nat (seq 0 ((length padded + 63) / 64)).

Definition sha256_words (bytes : list Z) : list Z :=
  let padded := pad_message bytes in
  fold_left (compress padded) (block_offsets padded) SHA256_INITIAL_HASH.

Definition hex_char (n : Z) : ascii :=
  ascii_of_N (Z.to_N (if n <? 10 then 48 + n else 87 + n)).

(** [value.toString(16).padStart(8, "0")] of an unsigned 32-bit value: eight
    hexadecimal digits, most significant first. *)
Definition hex8 (value : Z) : string :=
  fold_right (fun i s => String (hex_char (Z.shiftr value (4 * i) mod 16)) s) ""
    [7; 6; 5; 4; 3; 2; 1; 0].

Definition sha256Hex_units (message : list Z) : string :=
  fold_right (fun value s => hex8 value +:+ s) "" (sha256_words (utf8Bytes message)).

(** The code units of a string of the development. *)
Fixpoint code_units (s : string) : list Z :=
  match s with
  | EmptyString => []
  | String c s' => Z.of_N (N_of_ascii c) :: code_units s'
  end.

Definition sha256Hex (message : string) : string := sha256Hex_units (code_units message).

(** ** FIPS 180-4

    The hash as the standard states it: words are the integers below [2^32]. *)
Module FIPS.
Definition word (x : Z) : Prop := 0 <= x < 2 ^ 32.

Definition ROTR (n x : Z) : Z := Z.lor (Z.shiftr x n) (Z.shiftl x (32 - n) mod 2 ^ 32).
Definition SHR (n x : Z) : Z := Z.shiftr x n.
Definition complement (x : Z) : Z := 2 ^ 32 - 1 - x.
Definition Ch (x y z : Z) : Z := Z.lxor (Z.land x y) (Z.land (complement x) z).
Definition Maj (x y z : Z) : Z := Z.lxor (Z.lxor (Z.land x y) (Z.land x z)) (Z.land y z).
Definition Sigma0 (x : Z) : Z := Z.lxor (Z.lxor (ROTR 2 x) (ROTR 13 x)) (ROTR 22 x).
Definition Sigma1 (x : Z) : Z := Z.lxor (Z.lxor (ROTR 6 x) (ROTR 11 x)) (ROTR 25 x).
Definition sigma0 (x : Z) : Z := Z.lxor (Z.lxor (ROTR 7 x) (ROTR 18 x)) (SHR 3 x).
Definition sigma1 (x : Z) : Z := Z.lxor (Z.lxor (ROTR 17 x) (ROTR 19 x)) (SHR 10 x).

(** Section 6.2.2, step 1: the message schedule of a block [M]. *)
Fixpoint W (fuel : nat) (M : nat -> Z) (t : nat) : Z :=
  match fuel with
  | O => 0
  | S fuel =>
      if decide (t < 16)%nat then M t
      else (sigma1 (W fuel M (t - 2)) + W fuel M (t - 7) +
            sigma0 (W fuel M (t - 15)) + W fuel M (t - 16)) mod 2 ^ 32
  end.
Definition schedule (M : nat -> Z) (t : nat) : Z := W (S t) M t.

(** Step 3: one round. *)
Definition step (M : nat -> Z) (v : working) (t : nat) : working :=
  let T1 := (wh v + Sigma1 (we v) + Ch (we v) (wf v) (wg v) +
             nth t SHA256_K 0 + schedule M t) mod 2 ^ 32 in
  let T2 := (Sigma0 (wa v) + Maj (wa v) (wb v) (wc v)) mod 2 ^ 32 in
  {| wa := (T1 + T2) mod 2 ^ 32; wb := wa v; wc := wb v; wd := wc v;
     we := (wd v + T1) mod 2 ^ 32; wf := we v; wg := wf v; wh := wg v |}.

(** Steps 2 to 4: the next intermediate hash value. *)
Definition next_hash (H : list Z) (M : nat -> Z) : list Z :=
  zip_with (fun x y => (x + y) mod 2 ^ 32) H
    (to_hash (fold_left (step M) (seq 0 64) (of_hash H))).

(** Section 5.1.1: the bit 1, the fewest zeros that complete the block, and the
    length in bits as a 64-bit number, in bytes. *)
Definition be64 (n : Z) : list Z :=
  map (fun i => Z.shiftr n (8 * i) mod 256) [7; 6; 5; 4; 3; 2; 1; 0].
Definition pad (bytes : list Z) : list Z :=
  bytes ++ [0x80] ++ replicate (Z.to_nat ((55 - Z.of_nat (length bytes)) mod 64)) 0 ++
  be64 (8 * Z.of_nat (length bytes)).

(** Section 5.2.1: the [t]-th word of the [i]-th block, big-endian. *)
Definition block (padded : list Z) (i t : nat) : Z :=
  let b j := nth (64 * i + 4 * t + j) padded 0 in
  b 0%nat * 2 ^ 24 + b 1%nat * 2 ^ 16 + b 2%nat * 2 ^ 8 + b 3%nat.

Definition hash (bytes : list Z) : list Z :=
  let padded := pad bytes in
  fold_left (fun H i => next_hash H (block padded i)) (seq 0 (length padded / 64))
    SHA256_INITIAL_HASH.
End FIPS.

(** ** The JavaScript operators compute the word operators *)

Lemma to_uint32_word x : FIPS.word (to_uint32 x).
Proof. apply Z.mod_pos_bound. lia. Qed.

Lemma to_uint32_small x : FIPS.word x -> to_uint32 x = x.
Proof. apply Z.mod_small. Qed.

Lemma to_uint32_idemp x : to_uint32 (to_uint32 x) = to_uint32 x.
Proof. apply to_uint32_small, to_uint32_word. Qed.

Lemma to_uint32_int32 x : to_uint32 (to_int32 x) = to_uint32 x.
Proof.
  unfold to_uint32, to_int32. destruct (_ <=? _).
  - rewrite Zminus_mod, Z.mod_mod by lia. rewrite Z_mod_same_full, Z.sub_0_r.
    by rewrite Z.mod_mod.
  - by rewrite Z.mod_mod.
Qed.

Lemma to_uint32_land x y : to_uint32 (Z.land x y) = Z.land (to_uint32 x) (to_uint32 y).
Proof.
  unfold to_uint32. rewrite <- !Z.land_ones by lia.
  apply Z.bits_inj'. intros n Hn. rewrite !Z.land_spec.
  by destruct (Z.testbit x n), (Z.testbit y n), (Z.testbit (Z.ones 32) n).
Qed.

Lemma to_uint32_lor x y : to_uint32 (Z.lor x y) = Z.lor (to_uint32 x) (to_uint32 y).
Proof.
  unfold to_uint32. rewrite <- !Z.land_ones by lia.
  apply Z.bits_inj'. intros n Hn. rewrite !Z.land_spec, !Z.lor_spec, !Z.land_spec.
  by destruct (Z.testbit x n), (Z.testbit y n), (Z.testbit (Z.ones 32) n).
Qed.

Lemma to_uint32_lxor x y : to_uint32 (Z.lxor x y) = Z.lxor (to_uint32 x) (to_uint32 y).
Proof.
  unfold to_uint32. rewrite <- !Z.land_ones by lia.
  apply Z.bits_inj'. intros n Hn. rewrite !Z.land_spec, !Z.lxor_spec, !Z.land_spec.
  by destruct (Z.testbit x n), (Z.testbit y n), (Z.testbit (Z.ones 32) n).
Qed.

Lemma to_uint32_and x y : to_uint32 (js_and x y) = Z.land (to_uint32 x) (to_uint32 y).
Proof. unfold js_and. by rewrite to_uint32_land, !to_uint32_int32. Qed.

Lemma to_uint32_or x y : to_uint32 (js_or x y) = Z.lor (to_uint32 x) (to_uint32 y).
Proof. unfold js_or. by rewrite to_uint32_lor, !to_uint32_int32. Qed.

Lemma to_uint32_xor x y : to_uint32 (js_xor x y) = Z.lxor (to_uint32 x) (to_uint32 y).
Proof. unfold js_xor. by rewrite to_uint32_lxor, !to_uint32_int32. Qed.

Lemma to_uint32_not x : to_uint32 (js_not x) = FIPS.complement (to_uint32 x).
Proof.
  unfold js_not, FIPS.complement. rewrite <- (to_uint32_int32 x).
  generalize (to_int32 x). intros y. unfold to_uint32, Z.lnot.
  pose proof (Z.mod_pos_bound y (2 ^ 32)).
  symmetry. apply (Z.mod_unique _ _ (- (y / 2 ^ 32) - 1)); [lia|].
  pose proof (Z.div_mod y (2 ^ 32)). lia.
Qed.

Lemma to_uint32_ushr x n : 0 <= n < 32 -> to_uint32 (js_ushr x n) = Z.shiftr (to_uint32 x) n.
Proof.
  intros Hn. unfold js_ushr. rewrite (Z.mod_small n) by done. apply to_uint32_small.
  pose proof (to_uint32_word x) as Hx. unfold FIPS.word in *.
  rewrite Z.shiftr_div_pow2 by lia. assert (0 < 2 ^ n) by lia. split.
  - apply Z.div_pos; lia.
  - apply Z.div_lt_upper_bound; [lia|]. nia.
Qed.

Lemma to_uint32_shl x n : 0 <= n < 32 ->
  to_uint32 (js_shl x n) = Z.shiftl (to_uint32 x) n mod 2 ^ 32.
Proof.
  intros Hn. unfold js_shl. rewrite (Z.mod_small n), to_uint32_int32 by done.
  rewrite <- (to_uint32_int32 x). generalize (to_int32 x). intros y.
  unfold to_uint32. rewrite !Z.shiftl_mul_pow2 by lia. by rewrite Z.mul_mod_idemp_l by lia.
Qed.

Lemma to_uint32_rotr x n : 0 < n < 32 ->
  to_uint32 (rotateRight x n) = FIPS.ROTR n (to_uint32 x).
Proof.
  intros Hn. unfold rotateRight, FIPS.ROTR.
  by rewrite to_uint32_or, to_uint32_ushr, to_uint32_shl by lia.
Qed.

Lemma js_ushr_0 x : js_ushr x 0 = to_uint32 x.
Proof. unfold js_ushr. apply Z.shiftr_0_r. Qed.

Lemma add32_sum values : add32 values = to_uint32 (foldr Z.add 0 (map to_uint32 values)).
Proof.
  unfold add32.
  assert (forall acc, FIPS.word acc ->
    fold_left (fun sum value => js_ushr (sum + value) 0) values acc =
    to_uint32 (acc + foldr Z.add 0 (map to_uint32 values))) as H.
  { induction values as [|v vs IH]; intros acc Hacc; cbn.
    - rewrite Z.add_0_r. by rewrite to_uint32_small.
    - rewrite js_ushr_0, IH by apply to_uint32_word. unfold to_uint32.
      rewrite Z.add_mod_idemp_l by lia.
      rewrite <- (Z.add_mod_idemp_r (acc + v)), <- (Z.add_mod_idemp_r acc (_ + _)) by lia.
      rewrite Z.add_mod_idemp_l by lia.
      rewrite !Z.add_mod_idemp_r by lia. f_equal. lia. }
  apply (H 0). unfold FIPS.word. lia.
Qed.

#[export] Hint Rewrite to_uint32_and to_uint32_or to_uint32_xor to_uint32_not
  js_ushr_0 to_uint32_idemp : word32.

(** ** Words stay words *)

Lemma add32_word values : FIPS.word (add32 values).
Proof. rewrite add32_sum. apply to_uint32_word. Qed.

(** A sum of words the two sides compute modulo [2^32], whatever the bracketing. *)
Ltac mod_sum :=
  unfold to_uint32;
  repeat first [rewrite Z.add_mod_idemp_l by lia | rewrite Z.add_mod_idemp_r by lia];
  try (f_equal; lia).

Lemma schedule_word_spec words : Forall FIPS.word words -> (16 <= length words)%nat ->
  let w j := nth (length words - j) words 0 in
  schedule_word words =
    (FIPS.sigma1 (w 2%nat) + w 7%nat + FIPS.sigma0 (w 15%nat) + w 16%nat) mod 2 ^ 32.
Proof.
  intros Hw Hl w. unfold schedule_word. fold (w 15%nat) (w 2%nat) (w 16%nat) (w 7%nat).
  assert (forall j, (1 <= j <= 16)%nat -> to_uint32 (w j) = w j) as Hu.
  { intros j Hj. apply to_uint32_small. unfold w. rewrite Forall_forall in Hw. apply Hw.
    apply list_elem_of_In, nth_In. lia. }
  rewrite add32_sum. cbn [map foldr]. autorewrite with word32.
  rewrite !to_uint32_rotr, !to_uint32_ushr, !Hu by lia.
  unfold FIPS.sigma0, FIPS.sigma1, FIPS.SHR, to_uint32. f_equal. lia.
Qed.

Lemma FIPS_W_fuel M t f1 f2 : (t < f1)%nat -> (t < f2)%nat -> FIPS.W f1 M t = FIPS.W f2 M t.
Proof.
  revert t f2. induction f1 as [|f1 IH]; intros t f2 H1 H2; [lia|].
  destruct f2 as [|f2]; [lia|]. cbn. case_decide; [done|].
  rewrite !(IH _ f2) by lia. done.
Qed.

Lemma FIPS_schedule_unfold M t : (16 <= t)%nat -> FIPS.schedule M t =
  (FIPS.sigma1 (FIPS.schedule M (t - 2)) + FIPS.schedule M (t - 7) +
   FIPS.sigma0 (FIPS.schedule M (t - 15)) + FIPS.schedule M (t - 16)) mod 2 ^ 32.
Proof.
  intros Ht. unfold FIPS.schedule at 1. cbn [FIPS.W]. rewrite decide_False by lia.
  unfold FIPS.schedule.
  by rewrite (FIPS_W_fuel M (t - 2) t (S (t - 2))), (FIPS_W_fuel M (t - 7) t (S (t - 7))),
    (FIPS_W_fuel M (t - 15) t (S (t - 15))), (FIPS_W_fuel M (t - 16) t (S (t - 16))) by lia.
Qed.

Lemma extend_schedule_spec M n words :
  Forall FIPS.word words -> (16 <= length words)%nat ->
  (forall t, (t < length words)%nat -> nth t words 0 = FIPS.schedule M t) ->
  let words' := extend_schedule n words in
  Forall FIPS.word words' /\ length words' = (length words + n)%nat /\
  forall t, (t < length words')%nat -> nth t words' 0 = FIPS.schedule M t.
Proof.
  revert words. induction n as [|n IH]; intros words Hw Hl Hs; cbn [extend_schedule].
  - split; [done|]. split; [cbn; lia|done].
  - destruct (IH (words ++ [schedule_word words])) as (Hw' & Hl' & Hs').
    + apply Forall_app. split; [done|]. constructor; [apply add32_word|constructor].
    + rewrite length_app. lia.
    + intros t Ht. rewrite length_app in Ht. cbn in Ht.
      destruct (decide (t < length words)%nat).
      * rewrite app_nth1 by done. auto.
      * assert (t = length words) as -> by lia.
        rewrite app_nth2, Nat.sub_diag by lia. cbn [nth].
        rewrite schedule_word_spec, FIPS_schedule_unfold by done.
        by rewrite !Hs by lia.
    + split; [done|]. rewrite Hl', length_app. cbn. split; [lia|].
      intros t Ht. apply Hs'. rewrite Hl', length_app. cbn. lia.
Qed.

(** The working variables as words. *)
Definition words_of (v : working) : Prop := Forall FIPS.word (to_hash v).

Lemma round_spec M v t : (t < 64)%nat -> words_of v -> FIPS.word (FIPS.schedule M t) ->
  round v (nth t SHA256_K 0) (FIPS.schedule M t) = FIPS.step M v t.
Proof.
  intros Ht Hv HW. unfold words_of, to_hash in Hv.
  rewrite !Forall_cons in Hv. destruct Hv as (Ha & Hb & Hc & Hd & He & Hf & Hg & Hh & _).
  assert (to_uint32 (nth t SHA256_K 0) = nth t SHA256_K 0) as HK.
  { apply to_uint32_small. assert (Forall FIPS.word SHA256_K) as H.
    { apply Forall_forall. intros x Hx. unfold FIPS.word.
      assert (forallb (fun x => (0 <=? x) && (x <? 2 ^ 32)) SHA256_K = true) as H by done.
      rewrite forallb_forall in H. apply list_elem_of_In, H in Hx. lia. }
    rewrite Forall_forall in H. apply H, list_elem_of_In, nth_In. done. }
  unfold round, FIPS.step. rewrite !add32_sum. cbn [map foldr].
  autorewrite with word32. rewrite !to_uint32_rotr by lia.
  rewrite HK, (to_uint32_small (FIPS.schedule M t)), (to_uint32_small (wa v)),
    (to_uint32_small (wb v)), (to_uint32_small (wc v)), (to_uint32_small (wd v)),
    (to_uint32_small (we v)), (to_uint32_small (wf v)), (to_uint32_small (wg v)),
    (to_uint32_small (wh v)) by done.
  unfold FIPS.Sigma0, FIPS.Sigma1, FIPS.Ch, FIPS.Maj.
  rewrite ?Z.add_0_r. f_equal; mod_sum.
Qed.

Lemma step_words M v t : words_of v -> words_of (FIPS.step M v t).
Proof.
  unfold words_of, FIPS.step, to_hash. cbn [wa wb wc wd we wf wg wh].
  rewrite !Forall_cons. intros (?&?&?&?&?&?&?&?&_).
  split_and!; try done; apply Z.mod_pos_bound; lia.
Qed.

Lemma rounds_spec M words v ts :
  Forall (fun t => (t < 64)%nat) ts -> words_of v ->
  (forall t, (t < 64)%nat -> nth t words 0 = FIPS.schedule M t /\ FIPS.word (nth t words 0)) ->
  fold_left (fun v i => round v (nth i SHA256_K 0) (nth i words 0)) ts v =
    fold_left (FIPS.step M) ts v /\ words_of (fold_left (FIPS.step M) ts v).
Proof.
  intros Hts. revert v. induction Hts as [|t ts Ht Hts IH]; intros v Hv Hw; [done|].
  cbn [fold_left]. destruct (Hw t Ht) as [HW Hword]. rewrite HW in Hword |- *.
  rewrite round_spec by done. apply IH; [by apply step_words|done].
Qed.

(** ** Blocks and padding *)

Definition byte (x : Z) : Prop := 0 <= x < 256.

Lemma lor_shiftl_add a b n : 0 <= n -> 0 <= b < 2 ^ n -> Z.lor (Z.shiftl a n) b = a * 2 ^ n + b.
Proof.
  intros Hn Hb.
  assert (Z.land (Z.shiftl a n) b = 0) as Hl.
  { apply Z.bits_inj'. intros i Hi. rewrite Z.land_spec, Z.bits_0, Z.shiftl_spec by done.
    destruct (Z.ltb_spec i n).
    - by rewrite Z.testbit_neg_r by lia.
    - replace b with (b mod 2 ^ n) by (by apply Z.mod_small).
      rewrite Z.mod_pow2_bits_high by lia. by rewrite andb_false_r. }
  pose proof (Z.add_lor_land (Z.shiftl a n) b) as Ha. rewrite Hl, Z.add_0_r in Ha.
  by rewrite Ha, Z.shiftl_mul_pow2.
Qed.

Lemma to_int32_small x : 0 <= x < 2 ^ 31 -> to_int32 x = x.
Proof. intros H. unfold to_int32. rewrite Z.mod_small by lia. destruct (Z.leb_spec (2 ^ 31) x); lia. Qed.

Lemma js_and_ones x n : 0 <= n <= 31 -> js_and x (Z.ones n) = x mod 2 ^ n.
Proof.
  intros Hn. unfold js_and.
  assert (0 < 2 ^ n <= 2 ^ 31) as Hp.
  { split; [lia|]. apply Z.pow_le_mono_r; lia. }
  rewrite (to_int32_small (Z.ones n)) by (rewrite Z.ones_equiv; lia).
  rewrite Z.land_ones by lia.
  assert (forall y, (y mod 2 ^ 32) mod 2 ^ n = y mod 2 ^ n) as Hm.
  { intros y. rewrite <- !Z.land_ones by lia. rewrite <- Z.land_assoc. f_equal.
    apply Z.bits_inj'. intros i Hi. rewrite Z.land_spec, !Z.testbit_ones_nonneg by lia.
    destruct (Z.ltb_spec i 32), (Z.ltb_spec i n); try done; lia. }
  rewrite <- Hm. rewrite <- (Hm x). f_equal. apply to_uint32_int32.
Qed.

Lemma block_word_spec padded i t : Forall byte padded ->
  block_word padded (64 * i) t = FIPS.block padded i t.
Proof.
  intros Hb. unfold block_word, FIPS.block, byte_at.
  assert (forall j, byte (nth j padded 0)) as Hn.
  { intros j. destruct (nth_in_or_default j padded 0) as [H|H].
    - rewrite Forall_forall in Hb. by apply Hb, list_elem_of_In.
    - rewrite H. unfold byte. lia. }
  replace (64 * i + t * 4)%nat with (64 * i + 4 * t + 0)%nat by lia.
  replace (64 * i + 4 * t + 0 + 1)%nat with (64 * i + 4 * t + 1)%nat by lia.
  replace (64 * i + 4 * t + 0 + 2)%nat with (64 * i + 4 * t + 2)%nat by lia.
  replace (64 * i + 4 * t + 0 + 3)%nat with (64 * i + 4 * t + 3)%nat by lia.
  generalize (Hn (64 * i + 4 * t + 0)%nat), (Hn (64 * i + 4 * t + 1)%nat),
    (Hn (64 * i + 4 * t + 2)%nat), (Hn (64 * i + 4 * t + 3)%nat).
  generalize (nth (64 * i + 4 * t + 0) padded 0), (nth (64 * i + 4 * t + 1) padded 0),
    (nth (64 * i + 4 * t + 2) padded 0), (nth (64 * i + 4 * t + 3) padded 0).
  unfold byte. intros b0 b1 b2 b3 H0 H1 H2 H3.
  autorewrite with word32. rewrite !to_uint32_shl by lia.
  rewrite !to_uint32_small by (unfold FIPS.word; lia).
  rewrite !Z.shiftl_mul_pow2 by lia. rewrite !Z.mod_small by lia.
  rewrite <- !(Z.shiftl_mul_pow2 _ 24), <- !(Z.shiftl_mul_pow2 _ 16), <- !(Z.shiftl_mul_pow2 _ 8) by lia.
  rewrite <- !Z.lor_assoc.
  rewrite (lor_shiftl_add b2 b3 8), (lor_shiftl_add b1 _ 16), (lor_shiftl_add b0 _ 24) by lia.
  rewrite !Z.shiftl_mul_pow2 by lia. lia.
Qed.

Lemma pad_zeros_spec fuel padded :
  (56 - Z.of_nat (length padded)) mod 64 < Z.of_nat fuel ->
  pad_zeros fuel padded =
    padded ++ replicate (Z.to_nat ((56 - Z.of_nat (length padded)) mod 64)) 0.
Proof.
  revert padded. induction fuel as [|fuel IH]; intros padded Hf.
  { pose proof (Z.mod_pos_bound (56 - Z.of_nat (length padded)) 64). lia. }
  cbn [pad_zeros]. destruct (Z.eqb_spec (Z.of_nat (length padded) mod 64) 56) as [He|He].
  - replace ((56 - Z.of_nat (length padded)) mod 64) with 0 by (Z.to_euclidean_division_equations; lia).
    cbn. by rewrite app_nil_r.
  - rewrite IH; rewrite length_app; cbn [length].
    + rewrite <- app_assoc. f_equal.
      replace (Z.to_nat ((56 - Z.of_nat (length padded)) mod 64))
        with (S (Z.to_nat ((56 - Z.of_nat (length padded + 1)) mod 64)))
        by (Z.to_euclidean_division_equations; lia).
      done.
    + Z.to_euclidean_division_equations; lia.
Qed.

Lemma length_bytes_spec v : length_bytes v =
  [Z.shiftr (to_uint32 v) 24 mod 256; Z.shiftr (to_uint32 v) 16 mod 256;
   Z.shiftr (to_uint32 v) 8 mod 256; v mod 256].
Proof.
  unfold length_bytes. change 0xff with (Z.ones 8). rewrite !js_and_ones by lia. done.
Qed.

Lemma shiftr_mod_pow2 n k m : 0 <= k -> 0 <= m -> k + 8 <= m ->
  Z.shiftr (n mod 2 ^ m) k mod 256 = Z.shiftr n k mod 256.
Proof.
  intros Hk Hm Hkm. change 256 with (2 ^ 8). rewrite <- !Z.land_ones by lia.
  apply Z.bits_inj'. intros i Hi. rewrite !Z.land_spec, !Z.shiftr_spec by done.
  rewrite Z.land_spec, !Z.testbit_ones_nonneg by lia.
  destruct (Z.ltb_spec i 8); [|by rewrite !andb_false_r].
  destruct (Z.ltb_spec (i + k) m); [|lia]. by rewrite andb_true_r.
Qed.

Lemma pad_message_spec bytes : Z.of_nat (length bytes) * 8 < 2 ^ 64 ->
  pad_message bytes = FIPS.pad bytes.
Proof.
  intros Hl. unfold pad_message, FIPS.pad.
  pose proof (Z.mod_pos_bound (56 - Z.of_nat (length (bytes ++ [0x80]))) 64).
  rewrite pad_zeros_spec by lia. rewrite <- !app_assoc, length_app. cbn [length].
  replace (56 - Z.of_nat (length bytes + 1)) with (55 - Z.of_nat (length bytes)) by lia.
  apply (f_equal (fun l => bytes ++ [0x80] ++ replicate _ 0 ++ l)).
  rewrite !length_bytes_spec. set (n := Z.of_nat (length bytes) * 8).
  rewrite js_ushr_0, to_uint32_idemp. cbn [app FIPS.be64 map].
  rewrite (to_uint32_small (n / 0x100000000)).
  2: { unfold FIPS.word, n. split; [apply Z.div_pos; lia|]. apply Z.div_lt_upper_bound; lia. }
  change 0x100000000 with (2 ^ 32). rewrite <- Z.shiftr_div_pow2, !Z.shiftr_shiftr by lia.
  unfold to_uint32. rewrite !shiftr_mod_pow2 by lia.
  replace (8 * Z.of_nat (length bytes)) with n by lia.
  pose proof (shiftr_mod_pow2 n 0 32 ltac:(lia) ltac:(lia) ltac:(lia)) as Hz.
  rewrite !Z.shiftr_0_r in Hz. rewrite Hz. done.
Qed.

Lemma be64_bytes n : Forall byte (FIPS.be64 n).
Proof. repeat (constructor; [apply Z.mod_pos_bound; lia|]). constructor. Qed.

Lemma pad_bytes bytes : Forall byte bytes -> Forall byte (FIPS.pad bytes).
Proof.
  intros Hb. unfold FIPS.pad. rewrite !Forall_app. split_and!; [done| | |apply be64_bytes].
  - constructor; [unfold byte; lia|constructor].
  - apply Forall_replicate. unfold byte. lia.
Qed.

(** Padding completes a whole number of blocks. *)
Lemma pad_length bytes : exists n, length (FIPS.pad bytes) = (64 * n)%nat.
Proof.
  exists (length (FIPS.pad bytes) / 64)%nat.
  apply Nat.Div0.div_exact, Nat2Z.inj. rewrite Nat2Z.inj_mod. unfold FIPS.pad.
  rewrite !length_app, length_replicate. cbn [length].
  change (length (FIPS.be64 (8 * Z.of_nat (length bytes)))) with 8%nat.
  Z.to_euclidean_division_equations. lia.
Qed.

Lemma message_schedule_spec padded i : Forall byte padded ->
  forall t, (t < 64)%nat ->
    nth t (message_schedule padded (64 * i)) 0 = FIPS.schedule (FIPS.block padded i) t /\
    FIPS.word (nth t (message_schedule padded (64 * i)) 0).
Proof.
  intros Hb t Ht. unfold message_schedule.
  destruct (extend_schedule_spec (FIPS.block padded i) 48
    (map (block_word padded (64 * i)) (seq 0 16))) as (Hw & Hl & Hs).
  - apply Forall_forall. intros w. rewrite list_elem_of_In, in_map_iff.
    intros (j & <- & _). unfold block_word. rewrite js_ushr_0. apply to_uint32_word.
  - rewrite length_map, length_seq. lia.
  - intros j Hj. rewrite length_map, length_seq in Hj.
    rewrite (nth_indep _ _ (block_word padded (64 * i) 0))
      by (rewrite length_map, length_seq; done).
    rewrite map_nth, seq_nth, block_word_spec by done.
    unfold FIPS.schedule. cbn [FIPS.W]. by rewrite decide_True.
  - rewrite length_map, length_seq in Hl. split; [apply Hs; lia|].
    rewrite Forall_forall in Hw. apply Hw, list_elem_of_In, nth_In. lia.
Qed.

Lemma compress_spec padded H i : Forall byte padded -> length H = 8%nat -> Forall FIPS.word H ->
  compress padded H (64 * i) = FIPS.next_hash H (FIPS.block padded i).
Proof.
  intros Hb Hl HH. unfold compress, FIPS.next_hash, rounds.
  assert (words_of (of_hash H)) as Hv.
  { do 9 (destruct H as [|? H]; try done). }
  destruct (rounds_spec (FIPS.block padded i) (message_schedule padded (64 * i))
    (of_hash H) (seq 0 64)) as [-> Hw]; [|done|by apply message_schedule_spec|].
  - apply Forall_forall. intros t Ht%list_elem_of_In. apply in_seq in Ht. lia.
  - revert Hw HH. unfold words_of. generalize (to_hash (fold_left (FIPS.step (FIPS.block padded i)) (seq 0 64) (of_hash H))).
    clear Hl Hv. induction H as [|x H IH]; intros ys Hw HH; [done|].
    destruct ys as [|y ys]; [done|]. apply Forall_cons in Hw as [Hy Hw], HH as [Hx HH].
    cbn [zip_with]. rewrite IH by done. f_equal.
    rewrite add32_sum. cbn [map foldr]. rewrite (to_uint32_small x), (to_uint32_small y) by done.
    unfold to_uint32. by rewrite Z.add_0_r.
Qed.

Lemma next_hash_words H M : Forall FIPS.word (FIPS.next_hash H M).
Proof.
  unfold FIPS.next_hash. generalize (to_hash (fold_left (FIPS.step M) (seq 0 64) (of_hash H))).
  induction H as [|x H IH]; intros [|y ys]; cbn; constructor; [|apply IH].
  apply Z.mod_pos_bound. lia.
Qed.

Lemma sha256_words_spec bytes : Forall byte bytes -> Z.of_nat (length bytes) * 8 < 2 ^ 64 ->
  sha256_words bytes = FIPS.hash bytes.
Proof.
  intros Hb Hl. unfold sha256_words, FIPS.hash, block_offsets. rewrite pad_message_spec by done.
  pose proof (pad_bytes bytes Hb) as Hp. destruct (pad_length bytes) as [n Hn]. rewrite Hn.
  replace ((64 * n + 63) / 64)%nat with n.
  2: { apply Nat2Z.inj. rewrite Nat2Z.inj_div. Z.to_euclidean_division_equations. lia. }
  rewrite Nat.mul_comm, Nat.div_mul by done.
  assert (length SHA256_INITIAL_HASH = 8%nat /\ Forall FIPS.word SHA256_INITIAL_HASH) as HI.
  { split; [done|]. repeat (constructor; [unfold FIPS.word; lia|]). constructor. }
  revert HI. generalize SHA256_INITIAL_HASH. generalize (FIPS.pad bytes) Hp. clear.
  intros padded Hp. induction (seq 0 n) as [|i l IH]; intros H [Hl HH]; [done|].
  cbn [map fold_left]. rewrite compress_spec by done. apply IH. split.
  - unfold FIPS.next_hash. rewrite length_zip_with, Hl. done.
  - apply next_hash_words.
Qed.

(** ** UTF-8 *)

Lemma js_or_add a b n : 0 <= n -> 0 <= b < 2 ^ n -> 0 <= a * 2 ^ n -> a * 2 ^ n + b < 2 ^ 31 ->
  js_or (a * 2 ^ n) b = a * 2 ^ n + b.
Proof.
  intros Hn Hb Ha Hs. unfold js_or. rewrite !to_int32_small by lia.
  rewrite <- Z.shiftl_mul_pow2 by done. rewrite lor_shiftl_add by done. by rewrite Z.shiftl_mul_pow2.
Qed.

(** The bytes of a code point, by division. *)
Lemma utf8_code_point_spec c : 0 <= c <= 0x10ffff ->
  utf8_code_point c =
    if c <=? 0x7f then [c]
    else if c <=? 0x7ff then [0xc0 + c / 64; 0x80 + c mod 64]
    else if c <=? 0xffff then [0xe0 + c / 4096; 0x80 + c / 64 mod 64; 0x80 + c mod 64]
    else [0xf0 + c / 262144; 0x80 + c / 4096 mod 64; 0x80 + c / 64 mod 64; 0x80 + c mod 64].
Proof.
  intros Hc.
  assert (forall n, 0 <= n < 32 -> js_ushr c n = c / 2 ^ n) as Hs.
  { intros n Hn. unfold js_ushr. rewrite (Z.mod_small n), to_uint32_small by (unfold FIPS.word; lia).
    apply Z.shiftr_div_pow2. lia. }
  assert (forall x, js_or 0x80 (js_and x 0x3f) = 0x80 + x mod 64) as H80.
  { intros x. change 0x3f with (Z.ones 6). rewrite js_and_ones by lia.
    pose proof (Z.mod_pos_bound x (2 ^ 6)). change 64 with (2 ^ 6).
    apply (js_or_add 2 _ 6); lia. }
  unfold utf8_code_point. rewrite !H80, !Hs by lia.
  destruct (Z.leb_spec c 0x7f); [done|].
  destruct (Z.leb_spec c 0x7ff); [f_equal; apply (js_or_add 3 _ 6); try lia; Z.to_euclidean_division_equations; lia|].
  destruct (Z.leb_spec c 0xffff); [f_equal; apply (js_or_add 14 _ 4); try lia; Z.to_euclidean_division_equations; lia|].
  f_equal; apply (js_or_add 30 _ 3); try lia; Z.to_euclidean_division_equations; lia.
Qed.

Definition code_unit (u : Z) : Prop := 0 <= u < 65536.

Definition surrogate_pair (u v : Z) : bool :=
  (0xd800 <=? u) && (u <=? 0xdbff) && (0xdc00 <=? v) && (v <=? 0xdfff).

(** Induction along the iteration of a string. *)
Lemma code_units_ind (P : list Z -> Prop) :
  P [] -> (forall u, P [u]) ->
  (forall u v rest, surrogate_pair u v = true -> P rest -> P (u :: v :: rest)) ->
  (forall u v rest, surrogate_pair u v = false -> P (v :: rest) -> P (u :: v :: rest)) ->
  forall l, P l.
Proof.
  intros H0 H1 H2 H3 l. remember (length l) as n eqn:Hn. revert l Hn.
  induction (lt_wf n) as [n _ IH]. intros [|u [|v rest]] Hn; [done|done|]. cbn [length] in Hn.
  destruct (surrogate_pair u v) eqn:Hp.
  - apply H2; [done|]. apply (IH (length rest)); [lia|done].
  - apply H3; [done|]. apply (IH (S (length rest))); [lia|done].
Qed.

Lemma code_points_cons2 u v rest : code_points (u :: v :: rest) =
  if surrogate_pair u v
  then (0x10000 + (u - 0xd800) * 0x400 + (v - 0xdc00)) :: code_points rest
  else u :: code_points (v :: rest).
Proof. done. Qed.

Lemma code_points_range units : Forall code_unit units ->
  Forall (fun c => 0 <= c <= 0x10ffff) (code_points units).
Proof.
  induction units as [|u|u v rest Hp IH|u v rest Hp IH] using code_units_ind; intros Hu.
  - constructor.
  - apply Forall_cons in Hu as [Hu _]. unfold code_unit in Hu. cbn. constructor; [lia|constructor].
  - apply Forall_cons in Hu as [Hu Hr]. apply Forall_cons in Hr as [Hv Hr].
    unfold code_unit in Hu, Hv. rewrite code_points_cons2, Hp. unfold surrogate_pair in Hp.
    apply Forall_cons. split; [lia|]. by apply IH.
  - apply Forall_cons in Hu as [Hu Hr]. unfold code_unit in Hu.
    rewrite code_points_cons2, Hp. apply Forall_cons. split; [lia|]. by apply IH.
Qed.

Lemma utf8Bytes_bytes units : Forall code_unit units -> Forall byte (utf8Bytes units).
Proof.
  intros Hu%code_points_range. unfold utf8Bytes.
  induction Hu as [|c cs Hc Hcs IH]; [constructor|]. cbn. apply Forall_app. split; [|done].
  rewrite utf8_code_point_spec by done. unfold byte.
  destruct (Z.leb_spec c 0x7f); [|destruct (Z.leb_spec c 0x7ff); [|destruct (Z.leb_spec c 0xffff)]];
    repeat (constructor; [Z.to_euclidean_division_equations; lia|]); constructor.
Qed.

(** The decoder of the standard, on one character at a time. *)
Definition utf8_decode_char (bytes : list Z) : option (Z * list Z) :=
  match bytes with
  | b0 :: rest =>
      if b0 <? 0x80 then Some (b0, rest)
      else if b0 <? 0xe0 then
        match rest with b1 :: rest => Some ((b0 - 0xc0) * 64 + (b1 - 0x80), rest) | _ => None end
      else if b0 <? 0xf0 then
        match rest with
        | b1 :: b2 :: rest => Some ((b0 - 0xe0) * 4096 + (b1 - 0x80) * 64 + (b2 - 0x80), rest)
        | _ => None
        end
      else
        match rest with
        | b1 :: b2 :: b3 :: rest =>
            Some ((b0 - 0xf0) * 262144 + (b1 - 0x80) * 4096 + (b2 - 0x80) * 64 + (b3 - 0x80), rest)
        | _ => None
        end
  | [] => None
  end.

Fixpoint utf8_decode (fuel : nat) (bytes : list Z) : option (list Z) :=
  match bytes, fuel with
  | [], _ => Some []
  | _, O => None
  | _, S fuel => p ← utf8_decode_char bytes; cs ← utf8_decode fuel p.2; Some (p.1 :: cs)
  end.

Lemma utf8_decode_char_spec c rest : 0 <= c <= 0x10ffff ->
  utf8_decode_char (utf8_code_point c ++ rest) = Some (c, rest).
Proof.
  intros Hc. rewrite utf8_code_point_spec by done. unfold utf8_decode_char.
  destruct (Z.leb_spec c 0x7f); [|destruct (Z.leb_spec c 0x7ff); [|destruct (Z.leb_spec c 0xffff)]];
    cbn [app].
  - destruct (Z.ltb_spec c 0x80); [done|lia].
  - destruct (Z.ltb_spec (0xc0 + c / 64) 0x80); [Z.to_euclidean_division_equations; lia|].
    destruct (Z.ltb_spec (0xc0 + c / 64) 0xe0); [|Z.to_euclidean_division_equations; lia].
    do 2 f_equal. Z.to_euclidean_division_equations; lia.
  - destruct (Z.ltb_spec (0xe0 + c / 4096) 0x80); [Z.to_euclidean_division_equations; lia|].
    destruct (Z.ltb_spec (0xe0 + c / 4096) 0xe0); [Z.to_euclidean_division_equations; lia|].
    destruct (Z.ltb_spec (0xe0 + c / 4096) 0xf0); [|Z.to_euclidean_division_equations; lia].
    do 2 f_equal. Z.to_euclidean_division_equations; lia.
  - destruct (Z.ltb_spec (0xf0 + c / 262144) 0x80); [Z.to_euclidean_division_equations; lia|].
    destruct (Z.ltb_spec (0xf0 + c / 262144) 0xe0); [Z.to_euclidean_division_equations; lia|].
    destruct (Z.ltb_spec (0xf0 + c / 262144) 0xf0); [Z.to_euclidean_division_equations; lia|].
    do 2 f_equal. Z.to_euclidean_division_equations; lia.
Qed.

Lemma utf8_decode_utf8Bytes units fuel : Forall code_unit units ->
  (length (code_points units) <= fuel)%nat ->
  utf8_decode fuel (utf8Bytes units) = Some (code_points units).
Proof.
  intros Hu%code_points_range. unfold utf8Bytes. revert fuel.
  induction Hu as [|c cs Hc Hcs IH]; intros fuel Hf; [by destruct fuel|].
  destruct fuel as [|fuel]; [cbn in Hf; lia|].
  cbn [map concat]. pose proof (utf8_decode_char_spec c (concat (map utf8_code_point cs)) Hc) as Hd.
  destruct (utf8_code_point c ++ concat (map utf8_code_point cs)) as [|b rest] eqn:He; [done|].
  cbn [utf8_decode]. rewrite Hd. cbn [mbind option_bind snd fst].
  rewrite IH by (cbn in Hf; lia). done.
Qed.

(** The code units of a code point, as UTF-16 writes it. *)
Definition utf16_code_point (c : Z) : list Z :=
  if c <? 0x10000 then [c]
  else [0xd800 + (c - 0x10000) / 0x400; 0xdc00 + (c - 0x10000) mod 0x400].

Lemma utf16_code_points units : Forall code_unit units ->
  concat (map utf16_code_point (code_points units)) = units.
Proof.
  induction units as [|u|u v rest Hp IH|u v rest Hp IH] using code_units_ind; intros Hu.
  - done.
  - apply Forall_cons in Hu as [Hu _]. unfold code_unit in Hu. cbn. unfold utf16_code_point.
    destruct (Z.ltb_spec u 0x10000); [done|lia].
  - apply Forall_cons in Hu as [Hu Hr]. apply Forall_cons in Hr as [Hv Hr].
    rewrite code_points_cons2, Hp. cbn [map concat]. rewrite IH by done.
    unfold surrogate_pair in Hp. unfold utf16_code_point, code_unit in *.
    destruct (Z.ltb_spec (0x10000 + (u - 0xd800) * 0x400 + (v - 0xdc00)) 0x10000); [lia|].
    cbn [app]. do 2 f_equal; [|f_equal]; Z.to_euclidean_division_equations; lia.
  - apply Forall_cons in Hu as [Hu Hr]. unfold code_unit in Hu.
    rewrite code_points_cons2, Hp. cbn [map concat]. rewrite IH by done. unfold utf16_code_point.
    destruct (Z.ltb_spec u 0x10000); [done|lia].
Qed.

(** ** What the digest is *)

(** C6: [sha256Hex] is SHA-256: for every string, lone surrogates included, whose
    encoding fits a JavaScript array, the hexadecimal digits it returns are
    those of the FIPS 180-4 hash of the string's UTF-8 bytes, although every
    intermediate value goes through signed 32-bit operators. *)
Theorem sha256Hex_is_sha256 message :
  Forall code_unit message -> Z.of_nat (length (utf8Bytes message)) < 2 ^ 32 ->
  sha256Hex_units message = String.concat "" (map hex8 (FIPS.hash (utf8Bytes message))).
Proof.
  intros Hu Hl. unfold sha256Hex_units.
  rewrite sha256_words_spec; [|by apply utf8Bytes_bytes|lia].
  induction (FIPS.hash (utf8Bytes message)) as [|w ws IH]; [done|].
  cbn [fold_right map String.concat]. rewrite IH. destruct ws; [|done].
  cbn [map String.concat]. generalize (hex8 w). intros s.
  induction s as [|c s IHs]; [done|].
  change (String c (s +:+ "") = String c s). by rewrite IHs.
Qed.

Lemma sha256Hex_is_sha256_witness :
  sha256Hex "abc" = "ba7816bf8f01cfea414140de5dae2223b00361a396177a9cb410ff61f20015ad" /\
  sha256Hex_units (code_units "abc") = String.concat "" (map hex8 (FIPS.hash (utf8Bytes (code_units "abc")))).
Proof.
  split; [vm_compute; reflexivity|].
  apply sha256Hex_is_sha256; [|vm_compute; reflexivity].
  repeat (constructor; [split; [discriminate | reflexivity]|]); constructor.
Defined.

(** [utf8Bytes] loses nothing: a UTF-8 decoder reads its output back to the
    code points of the string, and two strings with the same bytes are equal,
    so that distinct inputs are never hashed as the same byte sequence. *)
Lemma utf8Bytes_roundtrip units : Forall code_unit units ->
  utf8_decode (length (utf8Bytes units)) (utf8Bytes units) = Some (code_points units) /\
  forall units', Forall code_unit units' -> utf8Bytes units = utf8Bytes units' -> units = units'.
Proof.
  assert (forall l, Forall code_unit l ->
    utf8_decode (length (utf8Bytes l)) (utf8Bytes l) = Some (code_points l)) as Hd.
  { intros l Hl. apply utf8_decode_utf8Bytes; [done|]. unfold utf8Bytes.
    pose proof (code_points_range l Hl) as Hr. induction Hr as [|c cs Hc Hcs IH]; [done|].
    cbn [map concat length]. rewrite length_app. rewrite utf8_code_point_spec by done.
    repeat case_match; cbn [length]; lia. }
  intros Hu. split; [by apply Hd|]. intros units' Hu' He.
  pose proof (Hd units Hu) as H1. rewrite He, (Hd units' Hu') in H1. injection H1 as H1.
  rewrite <- (utf16_code_points units), <- (utf16_code_points units') by done. by rewrite H1.
Qed.

Lemma utf8Bytes_roundtrip_witness :
  utf8Bytes [0x61; 0xe6; 0x20ac; 0xd83d; 0xde00; 0xd800] =
    [0x61; 0xc3; 0xa6; 0xe2; 0x82; 0xac; 0xf0; 0x9f; 0x98; 0x80; 0xed; 0xa0; 0x80] /\
  [0xd83d; 0xde00] = [0xd83d; 0xde00].
Proof.
  split; [reflexivity|].
  apply utf8Bytes_roundtrip; [| |reflexivity];
    repeat (constructor; [split; [discriminate | reflexivity]|]); constructor.
Defined.
