(* ===== verification/JobSemantics.v ===== *)
(** * Shared background-job semantics ([src/src/background-jobs/job-semantics.js])

    Normalization of the enqueue options, the retry backoff and the resolution
    of the concurrency contract, as pure functions that return or throw. *)

From stdpp Require Import base gmap strings list.
From Stdlib Require Import ZArith QArith Qround Lia.
From S2P Require Import Prelude.
Open Scope Z_scope.

(** The errors thrown by this module, one constructor per [throw]. *)
Inductive semantics_error :=
| ForkedOptionRemoved
| InvalidExecutionMode (requested : string)
| UnsupportedExecutionMode (mode : string)
| InvalidScheduledAtMs
| InvalidRescheduleDelayMs
| UnsafeRescheduledAtMs
| UnpairedConcurrency
| ReservedConcurrencyKey.

#[export] Instance semantics_error_eq_dec : EqDecision semantics_error.
Proof. solve_decision. Defined.

Inductive execution_mode := Inline | Forked | Pooled | Spawned.

#[export] Instance execution_mode_eq_dec : EqDecision execution_mode.
Proof. solve_decision. Defined.

Definition execution_mode_name (m : execution_mode) : string :=
  match m with
  | Inline => "inline" | Forked => "forked" | Pooled => "pooled" | Spawned => "spawned"
  end.

Definition DEFAULT_BACKGROUND_JOB_EXECUTION_MODE : execution_mode := Pooled.
Definition DEFAULT_BACKGROUND_JOB_MAX_RETRIES : Z := 10.
Definition DEFAULT_BACKGROUND_JOB_QUEUE : string := "default".
Definition QUEUE_CONCURRENCY_KEY_PREFIX : string := "queue:".
Definition BACKGROUND_JOB_EXECUTION_MODES : list execution_mode :=
  [Inline; Forked; Pooled; Spawned].

(** The job options object. An absent property reads as [JsUndefined];
    [opt_has_forked] is the test ["forked" in options]. *)
Record job_options := {
  opt_queue : scalar;
  opt_has_forked : bool;
  opt_executionMode : option string;
  opt_maxRetries : scalar;
  opt_scheduledAtMs : scalar;
  opt_concurrencyKey : scalar;
  opt_maxConcurrency : scalar;
  opt_deduplicateWhileQueued : bool;
  opt_idempotencyKey : scalar
}.

Definition empty_options : job_options := {|
  opt_queue := JsUndefined; opt_has_forked := false; opt_executionMode := None;
  opt_maxRetries := JsUndefined; opt_scheduledAtMs := JsUndefined;
  opt_concurrencyKey := JsUndefined; opt_maxConcurrency := JsUndefined;
  opt_deduplicateWhileQueued := false; opt_idempotencyKey := JsUndefined |}.

Definition normalizeBackgroundJobQueue (options : option job_options) : string :=
  match opt_queue <$> options with
  | Some (JsString queue) =>
      if (0 <? Z.of_nat (String.length (js_trim queue)))
      then js_trim queue
      else DEFAULT_BACKGROUND_JOB_QUEUE
  | _ => DEFAULT_BACKGROUND_JOB_QUEUE
  end.

(** [options.executionMode || defaultExecutionMode]: the empty string is falsy. *)
Definition requested_execution_mode (o : job_options) (default : execution_mode) : string :=
  match opt_executionMode o with
  | Some (String _ _ as m) => m
  | _ => execution_mode_name default
  end.

Definition normalizeBackgroundJobExecutionMode (o : job_options)
    (default : execution_mode) (supported : list execution_mode) :
    result semantics_error execution_mode :=
  if opt_has_forked o then Throw ForkedOptionRemoved else
  let requested := requested_execution_mode o default in
  (* the loop keeps the last candidate equal to the requested mode *)
  let executionMode := fold_left (fun found candidate =>
    if decide (execution_mode_name candidate = requested) then Some candidate else found)
    BACKGROUND_JOB_EXECUTION_MODES None in
  match executionMode with
  | None => Throw (InvalidExecutionMode requested)
  | Some mode =>
      if decide (mode ∈ supported) then Ok mode
      else Throw (UnsupportedExecutionMode (execution_mode_name mode))
  end.

Definition normalizeBackgroundJobMaxRetries (maxRetries : scalar) : Z :=
  match maxRetries with
  | JsNumber (Fin q) => if Qle_bool 0 q then Qfloor q else DEFAULT_BACKGROUND_JOB_MAX_RETRIES
  | _ => DEFAULT_BACKGROUND_JOB_MAX_RETRIES
  end.

Definition normalizeBackgroundJobScheduledAtMs (scheduledAtMs : scalar)
    (defaultScheduledAtMs : Z) : result semantics_error Z :=
  match scheduledAtMs with
  | JsUndefined => Ok defaultScheduledAtMs
  | v =>
      match as_safe_integer v with
      | Some z => if 0 <=? z then Ok z else Throw InvalidScheduledAtMs
      | None => Throw InvalidScheduledAtMs
      end
  end.

(** The sum of two safe integers is below 2^54 in absolute value; when it is
    not a safe integer its double rounding is not one either, so the test on the
    exact sum is the test the code makes. *)
Definition rescheduledBackgroundJobAtMs (delayMs : scalar) (nowMs : Z) :
    result semantics_error Z :=
  match as_safe_integer delayMs with
  | Some d =>
      if d <? 0 then Throw InvalidRescheduleDelayMs else
      let scheduledAtMs := nowMs + d in
      if is_safe_Z scheduledAtMs then Ok scheduledAtMs else Throw UnsafeRescheduledAtMs
  | None => Throw InvalidRescheduleDelayMs
  end.

(** [None] is the NaN of an out-of-range index of the schedule. *)
Definition retryDelayMs (retryCount : Z) : option Z :=
  let scheduleSeconds := [10; 60; 600; 3600] in
  if retryCount <=? Z.of_nat (length scheduleSeconds) then
    if retryCount <? 1 then None
    else (fun seconds => seconds * 1000) <$> scheduleSeconds !! Z.to_nat (retryCount - 1)
  else Some ((retryCount - 3) * 60 * 60 * 1000).

Record queue_config := { maxConcurrent : scalar; priority : scalar }.

Record resolved_concurrency := {
  concurrencyKey : string;
  maxConcurrency : Z;
  queueDerived : bool
}.

Definition is_undefined (v : scalar) : bool :=
  match v with JsUndefined => true | _ => false end.

(** [Number.isInteger(v) && Number(v) > 0], with the integer. *)
Definition as_positive_integer (v : scalar) : option Z :=
  match as_integer v with
  | Some z => if 0 <? z then Some z else None
  | None => None
  end.

Definition queue_concurrency_key (queue : string) : string :=
  QUEUE_CONCURRENCY_KEY_PREFIX +:+ queue.

Definition normalizeBackgroundJobConcurrency (o : job_options) (queue : string)
    (queues : gmap string queue_config) :
    result semantics_error (option resolved_concurrency) :=
  let key := opt_concurrencyKey o in
  let cap := opt_maxConcurrency o in
  if negb (is_undefined key) || negb (is_undefined cap) then
    match key, as_positive_integer cap with
    | JsString (String _ _ as k), Some c =>
        if starts_with QUEUE_CONCURRENCY_KEY_PREFIX k then Throw ReservedConcurrencyKey
        else Ok (Some {| concurrencyKey := k; maxConcurrency := c; queueDerived := false |})
    | _, _ => Throw UnpairedConcurrency
    end
  else
    match queues !! queue ≫= (fun q => as_positive_integer (maxConcurrent q)) with
    | None => Ok None
    | Some c => Ok (Some {| concurrencyKey := queue_concurrency_key queue;
                            maxConcurrency := c; queueDerived := true |})
    end.

(** ** Properties *)

Lemma as_positive_integer_pos v z : as_positive_integer v = Some z -> 0 < z.
Proof.
  unfold as_positive_integer. destruct (as_integer v); [|done].
  destruct (Z.ltb_spec 0 z0); [|done]. by intros [= <-].
Qed.

Lemma starts_with_queue_key queue :
  starts_with QUEUE_CONCURRENCY_KEY_PREFIX (queue_concurrency_key queue) = true.
Proof. by destruct queue. Qed.

(** What a resolved contract guarantees, whichever branch produced it. *)
Definition valid_concurrency (c : resolved_concurrency) : Prop :=
  0 < maxConcurrency c /\
  concurrencyKey c <> "" /\
  queueDerived c = starts_with QUEUE_CONCURRENCY_KEY_PREFIX (concurrencyKey c).

Lemma normalize_concurrency_valid o queue queues c :
  normalizeBackgroundJobConcurrency o queue queues = Ok (Some c) -> valid_concurrency c.
Proof.
  unfold normalizeBackgroundJobConcurrency, valid_concurrency. intros H.
  destruct (negb _ || negb _).
  - destruct (opt_concurrencyKey o) as [| | | |[|a k]]; try done;
      destruct (as_positive_integer _) as [z|] eqn:Hz; try done.
    destruct (starts_with _ _) eqn:Hp; [done|]. simplify_eq. cbn.
    eauto using as_positive_integer_pos.
  - destruct (_ ≫= _) as [z|] eqn:Hz; simplify_eq. cbn.
    split; [|split; [done|]].
    + destruct (queues !! queue); cbn in Hz; [|done]. eauto using as_positive_integer_pos.
    + symmetry. apply starts_with_queue_key.
Qed.

Lemma retryDelayMs_pos n : 1 <= n -> exists d, retryDelayMs n = Some d /\ 0 < d.
Proof.
  intros Hn. unfold retryDelayMs. cbn [length].
  destruct (Z.leb_spec n (Z.of_nat 4)).
  - destruct (Z.ltb_spec n 1); [lia|].
    assert (n = 1 \/ n = 2 \/ n = 3 \/ n = 4) as [->|[->|[->| ->]]] by lia; cbn; eauto with lia.
  - eexists; split; [done|]. lia.
Qed.

Lemma normalize_max_retries_nonneg v : 0 <= normalizeBackgroundJobMaxRetries v.
Proof.
  unfold normalizeBackgroundJobMaxRetries, DEFAULT_BACKGROUND_JOB_MAX_RETRIES.
  destruct v as [| | |[q| | |]|]; try lia.
  destruct (Qle_bool 0 q) eqn:Hq; [|lia].
  apply Qle_bool_iff in Hq. rewrite <- (Qfloor_Z 0). by apply Qfloor_resp_le.
Qed.

Lemma normalize_max_retries_id z :
  0 <= z -> normalizeBackgroundJobMaxRetries (of_Z z) = z.
Proof.
  intros Hz. unfold normalizeBackgroundJobMaxRetries, of_Z.
  assert (Qle_bool 0 (inject_Z z) = true) as ->.
  { apply Qle_bool_iff. change 0%Q with (inject_Z 0). by rewrite <- Zle_Qle. }
  apply Qfloor_Z.
Qed.

Lemma normalize_scheduled_safe v d z :
  normalizeBackgroundJobScheduledAtMs v d = Ok z -> v <> JsUndefined ->
  0 <= z <= MAX_SAFE_INTEGER.
Proof.
  unfold normalizeBackgroundJobScheduledAtMs, as_safe_integer, is_safe_Z. intros H Hv.
  destruct v; try done;
    destruct (as_integer _) as [y|]; try done;
    destruct (Z.leb_spec (Z.abs y) MAX_SAFE_INTEGER); try done;
    destruct (Z.leb_spec 0 y); try done; simplify_eq; lia.
Qed.

Lemma normalize_queue_nonempty o : normalizeBackgroundJobQueue o <> "".
Proof.
  unfold normalizeBackgroundJobQueue. destruct (opt_queue <$> o) as [[| | | |s]|]; try done.
  destruct (Z.ltb_spec 0 (Z.of_nat (String.length (js_trim s)))); [|done].
  intros Hs. rewrite Hs in H. cbn in H. lia.
Qed.

(** The retry backoff: every attempt number has a positive delay and a later
    attempt waits strictly longer. *)
Lemma retryDelayMs_increasing m n : 1 <= m < n ->
  exists a b, retryDelayMs m = Some a /\ retryDelayMs n = Some b /\ 0 < a < b.
Proof.
  intros [Hm Hmn]. unfold retryDelayMs. cbn [length].
  destruct (Z.leb_spec m (Z.of_nat 4)), (Z.leb_spec n (Z.of_nat 4)); try lia.
  - destruct (Z.ltb_spec m 1), (Z.ltb_spec n 1); try lia.
    assert (m = 1 \/ m = 2 \/ m = 3) as [->|[->| ->]] by lia;
      assert (n = 2 \/ n = 3 \/ n = 4) as [->|[->| ->]] by lia; try lia;
      cbn; do 2 eexists; split_and!; done.
  - destruct (Z.ltb_spec m 1); [lia|].
    assert (m = 1 \/ m = 2 \/ m = 3 \/ m = 4) as [->|[->|[->| ->]]] by lia;
      cbn -[Z.mul]; do 2 eexists; split_and!; try done; lia.
  - do 2 eexists. split_and!; done || lia.
Qed.

Lemma retryDelayMs_increasing_witness :
  exists a b, retryDelayMs 4 = Some a /\ retryDelayMs 5 = Some b /\ 0 < a < b.
Proof. apply (retryDelayMs_increasing 4 5). lia. Defined.
