(* ===== verification/JsonSocket.v ===== *)
(** * Messages over a byte stream ([src/src/background-jobs/json-socket.js])

    The background-jobs processes and the beacon talk in JSON texts, one per line,
    over sockets that deliver their bytes in chunks of any size. [_onData] keeps what
    follows the last line break; [send] writes one line. A message is a JSON value,
    a chunk its decoded text. A listener is a parameter: it may throw, and what it
    throws is emitted as an error, as is a line that does not parse. *)

From stdpp Require Import base strings list.
From Stdlib Require Import ZArith Ascii Lia.
From S2P Require Import Prelude Json.

Section socket.
Context {E : Type} (onMessage : json -> option E).    (* what a listener throws *)

Inductive socket_event :=
| Message (message : json)
| SyntaxError (line : string)
| ListenerError (error : E).

Record json_socket := { buffer : string; emitted : list socket_event }.

(** The [try] of [_onData]. *)
Definition emit_line (line : string) : list socket_event :=
  match parse line with
  | Some message =>
      Message message :: match onMessage message with Some e => [ListenerError e] | None => [] end
  | None => [SyntaxError line]
  end.

(** The loop of [_onData]; every round takes a line break off the buffer. *)
Fixpoint read_lines (fuel : nat) (s : json_socket) : json_socket :=
  match fuel with
  | O => s
  | S fuel =>
      match break_at LF (buffer s) with
      | None => s
      | Some (before, rest) =>
          let line := js_trim before in
          read_lines fuel {|
            buffer := rest;
            emitted := emitted s ++ (if decide (line = "") then [] else emit_line line) |}
      end
  end.

Definition _onData (s : json_socket) (chunk : string) : json_socket :=
  let text := buffer s +:+ chunk in
  read_lines (String.length text) {| buffer := text; emitted := emitted s |}.

(** The text [send] writes. *)
Definition send (message : json) : string := stringify message +:+ String LF "".

(** ** The buffer is the text after the last line break *)

(** A line at a time, for the proofs: the events of complete lines, and the rest. *)
Fixpoint scan (line text : string) : list socket_event * string :=
  match text with
  | EmptyString => ([], line)
  | String c text =>
      if decide (c = LF) then
        let r := scan "" text in
        ((if decide (js_trim line = "") then [] else emit_line (js_trim line)) ++ r.1, r.2)
      else scan (line +:+ String c "") text
  end.

Lemma scan_app line t u :
  scan line (t +:+ u) = ((scan line t).1 ++ (scan (scan line t).2 u).1, (scan (scan line t).2 u).2).
Proof.
  revert line. induction t as [|c t IH]; intros line.
  - rewrite append_nil_l. cbn. by destruct (scan line u).
  - rewrite append_cons. cbn. case_decide; rewrite IH; cbn; [|done]. by rewrite app_assoc.
Qed.

Lemma scan_line line t rest : has_char LF t = false ->
  scan line (t +:+ String LF rest) =
  ((if decide (js_trim (line +:+ t) = "") then [] else emit_line (js_trim (line +:+ t))) ++
   (scan "" rest).1, (scan "" rest).2).
Proof.
  revert line. induction t as [|c t IH]; intros line.
  - intros _. rewrite append_nil_l, append_nil_r. cbn. by rewrite decide_True.
  - rewrite has_char_cons, append_cons. intros [Hc Ht]%orb_false_iff.
    apply bool_decide_eq_false in Hc. cbn. rewrite decide_False by done.
    by rewrite IH, append_assoc, append_cons, append_nil_l.
Qed.

Lemma scan_no_line line t : has_char LF t = false -> scan line t = ([], line +:+ t).
Proof.
  revert line. induction t as [|c t IH]; intros line; [by rewrite append_nil_r|].
  rewrite has_char_cons. intros [Hc Ht]%orb_false_iff. apply bool_decide_eq_false in Hc.
  cbn. rewrite decide_False by done. by rewrite IH, append_assoc, append_cons, append_nil_l.
Qed.

Lemma read_lines_scan fuel s : (String.length (buffer s) <= fuel)%nat ->
  read_lines fuel s = {| buffer := (scan "" (buffer s)).2;
                         emitted := emitted s ++ (scan "" (buffer s)).1 |}.
Proof.
  revert s. induction fuel as [|fuel IH]; intros s Hf.
  - destruct s as [[|c b] out]; cbn in *; [by rewrite app_nil_r|lia].
  - cbn [read_lines]. destruct (break_at LF (buffer s)) as [[before rest]|] eqn:Hb.
    + apply break_at_split in Hb as [Hb Hno]. rewrite IH; cbn [buffer emitted].
      * rewrite Hb, scan_line by done. rewrite append_nil_l. cbn. by rewrite <- app_assoc.
      * rewrite Hb, length_append in Hf. cbn in Hf. lia.
    + assert (has_char LF (buffer s) = false) as Hno by (unfold has_char; by rewrite Hb).
      rewrite scan_no_line by done. destruct s as [b out]. cbn. by rewrite app_nil_r.
Qed.

Lemma scan_rest line t : has_char LF line = false -> has_char LF (scan line t).2 = false.
Proof.
  revert line. induction t as [|c t IH]; intros line Hline; [done|]. cbn. case_decide as Hc.
  - by apply IH.
  - apply IH. by rewrite has_char_app, Hline, has_char_cons, bool_decide_eq_false_2.
Qed.

Lemma onData_scan s chunk : has_char LF (buffer s) = false ->
  _onData s chunk = {| buffer := (scan (buffer s) chunk).2;
                       emitted := emitted s ++ (scan (buffer s) chunk).1 |}.
Proof.
  intros Hs. unfold _onData. rewrite read_lines_scan by done. cbn [buffer emitted].
  by rewrite scan_app, (scan_no_line "" (buffer s)).
Qed.

Definition concat_text (l : list string) : string := foldr (fun t r => t +:+ r) "" l.

Lemma onData_chunks chunks s : has_char LF (buffer s) = false ->
  fold_left _onData chunks s = {| buffer := (scan (buffer s) (concat_text chunks)).2;
    emitted := emitted s ++ (scan (buffer s) (concat_text chunks)).1 |}.
Proof.
  revert s. induction chunks as [|chunk chunks IH]; intros s Hs; cbn [fold_left].
  - destruct s. cbn. by rewrite app_nil_r.
  - rewrite onData_scan by done. rewrite IH by (by apply scan_rest). cbn [buffer emitted].
    change (concat_text (chunk :: chunks)) with (chunk +:+ concat_text chunks).
    by rewrite scan_app, <- app_assoc.
Qed.

(** ** What is sent arrives *)

Lemma scan_sent messages tail :
  Forall (fun m => valid_json m /\ ordinary m) messages -> has_char LF tail = false ->
  scan "" (concat_text (map send messages) +:+ tail) =
  (concat (map (fun m => Message m :: match onMessage m with Some e => [ListenerError e] | None => [] end)
    messages), tail).
Proof.
  intros Hm Htail. induction Hm as [|m messages [Hv Ho] Hm IH].
  - by rewrite append_nil_l, scan_no_line, append_nil_l.
  - cbn [map concat_text foldr]. unfold send at 1. rewrite !append_assoc.
    change (String LF "" +:+ ?x) with (String LF x).
    rewrite scan_line by (by apply stringify_no_line). fold (concat_text (map send messages)).
    rewrite IH, append_nil_l, stringify_trim by done. cbn [fst snd concat].
    destruct (stringify_head m Hv) as (c & t & Hc & _). rewrite decide_False by (by rewrite Hc).
    unfold emit_line. by rewrite parse_stringify.
Qed.
End socket.
Arguments SyntaxError {E} line.
Arguments Message {E} message.
Arguments buffer {E} j.
Arguments emitted {E} j.

Definition open_socket {E} : @json_socket E := {| buffer := ""; emitted := [] |}.

(** What one side sends the other receives, in order, however the bytes are
    split into chunks: each message is emitted once, followed by the error of a
    listener that throws, and nothing else is; what remains buffered is the line
    that is not complete yet. *)
Lemma messages_arrive {E} (onMessage : json -> option E) messages chunks tail :
  Forall (fun m => valid_json m /\ ordinary m) messages -> has_char LF tail = false ->
  concat_text chunks = concat_text (map send messages) +:+ tail ->
  fold_left (_onData onMessage) chunks open_socket = {|
    buffer := tail;
    emitted := concat (map (fun m =>
      Message m :: match onMessage m with Some e => [ListenerError e] | None => [] end) messages) |}.
Proof.
  intros Hm Htail Hchunks. rewrite onData_chunks by done. rewrite Hchunks. cbn [buffer emitted open_socket].
  by rewrite scan_sent.
Qed.

(** A request and its answer, cut inside the first text and before its line break. *)
Definition hello : json := JObj [("type", JStr "hello"); ("role", JStr "client")].
Definition enqueue : json := JObj [("type", JStr "enqueue"); ("args", JArr [JNum "1"; JStr (String LF "x")])].

Lemma messages_arrive_witness :
  let sent := send hello +:+ send enqueue in
  fold_left (_onData (fun _ => @None unit))
    [String.substring 0 7 sent; String.substring 7 25 sent; String.substring 32 100 sent; "{"] open_socket =
  {| buffer := "{"; emitted := [Message hello; Message enqueue] |}.
Proof.
  apply (messages_arrive (fun _ => @None unit) [hello; enqueue]).
  - repeat constructor; intros; repeat match goal with H : _ ∈ _ |- _ => inversion H; clear H; subst end; done.
  - reflexivity.
  - reflexivity.
Defined.

(** A line that is no JSON text is reported, and the next one is read. *)
Example bad_line_is_skipped :
  emitted (_onData (fun _ => @None unit) open_socket ("{x" +:+ String LF (String LF (send hello)))) =
  [SyntaxError "{x"; Message hello].
Proof. reflexivity. Qed.
