(* ===== verification/LocalProtocol.v ===== *)
(** * The abstract protocol of a background-job queue

    What a queue of jobs with concurrency keys promises, without tables,
    counters or transactions: a job waits, runs under a handoff, and ends done
    or dead; a key has a cap, and the number of running jobs of a key is counted
    from the jobs themselves. [LocalStoreCorrect] shows that every method of
    [src/src/background-jobs/local-store.js] takes a store along the steps of
    this relation. *)

From stdpp Require Import base gmap strings list relations.
From Stdlib Require Import ZArith Lia.
From S2P Require Import Prelude Sql JobSemantics.
Open Scope Z_scope.

Inductive phase := Waiting | Running (fence : option string) | Done | Dead.

#[export] Instance phase_eq_dec : EqDecision phase.
Proof. solve_decision. Defined.

Record ajob := {
  phase_of : phase;
  key_of : option string;
  attempts_of : Z;
  limit_of : Z
}.

#[export] Instance ajob_eq_dec : EqDecision ajob.
Proof. solve_decision. Defined.

Record queue_state := { ajobs : gmap string ajob; caps : gmap string Z }.

Definition empty_queue : queue_state := {| ajobs := ∅; caps := ∅ |}.

Definition is_running (j : ajob) : bool :=
  match phase_of j with Running _ => true | _ => false end.

Definition terminal (j : ajob) : bool :=
  match phase_of j with Done | Dead => true | _ => false end.

Definition runs_under (key : string) (j : ajob) : bool :=
  is_running j && bool_decide (key_of j = Some key).

Definition running_count (s : queue_state) (key : string) : Z :=
  count_where (runs_under key) (ajobs s).

(** A key the configuration of a queue may re-cap. *)
Definition policy_key (key : string) : bool := starts_with QUEUE_CONCURRENCY_KEY_PREFIX key.

Definition policy_owned (key : option string) : Prop :=
  match key with Some k => policy_key k = true | None => True end.

Definition declared (s : queue_state) (key : option string) : Prop :=
  match key with Some k => is_Some (caps s !! k) | None => True end.

Definition has_slot (s : queue_state) (key : option string) : Prop :=
  match key with
  | Some k => exists cap, caps s !! k = Some cap /\ running_count s k < cap
  | None => True
  end.

Definition put (s : queue_state) (i : string) (j : ajob) : queue_state :=
  {| ajobs := <[i := j]> (ajobs s); caps := caps s |}.

Definition move (j : ajob) (p : phase) : ajob :=
  {| phase_of := p; key_of := key_of j; attempts_of := attempts_of j; limit_of := limit_of j |}.

Definition move_failed (j : ajob) (p : phase) : ajob :=
  {| phase_of := p; key_of := key_of j; attempts_of := attempts_of j + 1; limit_of := limit_of j |}.

Definition rekeyed (j : ajob) (key : option string) : ajob :=
  {| phase_of := phase_of j; key_of := key; attempts_of := attempts_of j; limit_of := limit_of j |}.

Inductive astep (s : queue_state) : queue_state -> Prop :=
| step_declare key cap :
    0 < cap -> caps s !! key = None \/ policy_key key = true ->
    astep s {| ajobs := ajobs s; caps := <[key := cap]> (caps s) |}
| step_submit i j :
    ajobs s !! i = None -> phase_of j = Waiting -> attempts_of j = 0 -> 0 <= limit_of j ->
    declared s (key_of j) -> astep s (put s i j)
| step_rekey i j key :
    ajobs s !! i = Some j -> phase_of j = Waiting ->
    policy_owned (key_of j) -> policy_owned key -> declared s key ->
    astep s (put s i (rekeyed j key))
| step_claim i j h :
    ajobs s !! i = Some j -> phase_of j = Waiting -> has_slot s (key_of j) ->
    astep s (put s i (move j (Running h)))
| step_requeue i j :
    ajobs s !! i = Some j -> is_running j = true -> astep s (put s i (move j Waiting))
| step_done i j :
    ajobs s !! i = Some j -> is_running j = true -> astep s (put s i (move j Done))
| step_retry i j :
    ajobs s !! i = Some j -> is_running j = true -> attempts_of j + 1 <= limit_of j ->
    astep s (put s i (move_failed j Waiting))
| step_dead i j :
    ajobs s !! i = Some j -> is_running j = true -> limit_of j < attempts_of j + 1 ->
    astep s (put s i (move_failed j Dead)).

(** ** Invariants *)

(** The attempts of a job never exceed its limit by more than the last one. *)
Definition job_ok (j : ajob) : Prop :=
  0 <= attempts_of j /\ 0 <= limit_of j /\
  match phase_of j with
  | Dead => attempts_of j = limit_of j + 1
  | _ => attempts_of j <= limit_of j
  end.

Record queue_ok (s : queue_state) : Prop := {
  jobs_ok : forall i j, ajobs s !! i = Some j -> job_ok j /\ declared s (key_of j);
  caps_ok : forall key cap, caps s !! key = Some cap -> 0 < cap;
  (** a key the configuration does not own never has more running jobs than its cap *)
  within_cap : forall key cap, caps s !! key = Some cap -> policy_key key = false ->
    running_count s key <= cap
}.

Lemma running_count_put s i j key :
  running_count (put s i j) key =
    running_count s key + Z.b2z (runs_under key j) - from_option (Z.b2z ∘ runs_under key) 0 (ajobs s !! i).
Proof. apply count_where_insert. Qed.

Lemma declared_put s i j key : declared (put s i j) key <-> declared s key.
Proof. done. Qed.

(** A step that puts a job keeps the invariant when the job is well formed and
    does not take a slot that is not there. *)
Lemma queue_ok_put s i j :
  queue_ok s -> job_ok j -> declared s (key_of j) ->
  (is_running j = true -> has_slot s (key_of j)) -> queue_ok (put s i j).
Proof.
  intros [Hj Hc Hw] Hok Hd Hslot. split.
  - intros i' j'. cbn. destruct (decide (i = i')) as [->|Hne].
    + rewrite lookup_insert_eq. by intros [= <-].
    + rewrite lookup_insert_ne by done. apply Hj.
  - exact Hc.
  - intros key cap Hcap Hp. cbn in Hcap. rewrite running_count_put.
    assert (0 <= from_option (Z.b2z ∘ runs_under key) 0 (ajobs s !! i)) as Hn.
    { destruct (ajobs s !! i) as [j0|]; cbn; [destruct (runs_under key j0); cbn|]; lia. }
    specialize (Hw key cap Hcap Hp). unfold runs_under at 1.
    destruct (is_running j); cbn; [|lia]. case_bool_decide as Hk; cbn; [|lia].
    specialize (Hslot eq_refl). rewrite Hk in Hslot. destruct Hslot as (cap' & Hcap' & Hlt).
    simplify_eq. lia.
Qed.

Lemma astep_queue_ok s s' : queue_ok s -> astep s s' -> queue_ok s'.
Proof.
  intros Hs Hst. pose proof Hs as [Hj Hc Hw]. destruct Hst.
  - split; cbn.
    + intros i j Hi. destruct (Hj i j Hi) as [Hok Hd]. split; [done|].
      destruct (key_of j) as [k|]; cbn in *; [|done].
      destruct (decide (key = k)) as [->|]; simplify_map_eq; eauto.
    + intros k c Hk. destruct (decide (key = k)) as [->|]; simplify_map_eq; eauto.
    + intros k c Hk Hp. unfold running_count in *. cbn.
      destruct (decide (key = k)) as [->|]; simplify_map_eq; [|by apply (Hw k)].
      destruct H0; [|congruence].
      rewrite count_where_zero; [lia|]. intros i j Hi. unfold runs_under.
      case_bool_decide as Hk; [|apply andb_false_r].
      destruct (Hj i j Hi) as [_ Hd]. rewrite Hk in Hd. destruct Hd. congruence.
  - apply queue_ok_put; [done| |done|].
    + unfold job_ok. rewrite H0, H1. lia.
    + unfold is_running. by rewrite H0.
  - apply queue_ok_put; [done| |done|].
    + by destruct (Hj i j H) as [Hok _].
    + cbn. unfold is_running. cbn. by rewrite H0.
  - destruct (Hj i j H) as [Hok Hd]. apply queue_ok_put; [done| |done|done].
    unfold job_ok in *. cbn. rewrite H0 in Hok. lia.
  - destruct (Hj i j H) as [Hok Hd]. apply queue_ok_put; [done| |done|done].
    unfold job_ok, is_running in *. cbn. destruct (phase_of j); done || lia.
  - destruct (Hj i j H) as [Hok Hd]. apply queue_ok_put; [done| |done|done].
    unfold job_ok, is_running in *. cbn. destruct (phase_of j); done || lia.
  - destruct (Hj i j H) as [Hok Hd]. apply queue_ok_put; [done| |done|done].
    unfold job_ok, is_running in *. cbn. destruct (phase_of j); done || lia.
  - destruct (Hj i j H) as [Hok Hd]. apply queue_ok_put; [done| |done|done].
    unfold job_ok, is_running in *. cbn. destruct (phase_of j); done || lia.
Qed.

Lemma asteps_queue_ok s s' : queue_ok s -> rtc astep s s' -> queue_ok s'.
Proof. intros Hs. induction 1; eauto using astep_queue_ok. Qed.

Lemma empty_queue_ok : queue_ok empty_queue.
Proof. split; cbn; intros; simplify_map_eq. Qed.

(** ** Life of one job *)

(** What happens to one job over a step: nothing, or one of the transitions. *)
Inductive jstep : ajob -> ajob -> Prop :=
| jstep_rekey j key : phase_of j = Waiting -> jstep j (rekeyed j key)
| jstep_claim j h : phase_of j = Waiting -> jstep j (move j (Running h))
| jstep_requeue j : is_running j = true -> jstep j (move j Waiting)
| jstep_done j : is_running j = true -> jstep j (move j Done)
| jstep_retry j : is_running j = true -> attempts_of j + 1 <= limit_of j ->
    jstep j (move_failed j Waiting)
| jstep_dead j : is_running j = true -> limit_of j < attempts_of j + 1 ->
    jstep j (move_failed j Dead).

Lemma put_jobs (R : ajob -> ajob -> Prop) s i j0 j' : ajobs s !! i = Some j0 -> R j0 j' ->
  forall k j, ajobs s !! k = Some j -> exists j1, ajobs (put s i j') !! k = Some j1 /\ (j = j1 \/ R j j1).
Proof.
  intros Hi HR k j Hk. cbn. destruct (decide (i = k)) as [->|Hne]; simplify_map_eq.
  - eexists; split; [done|]. by right.
  - exists j. split; [done|]. by left.
Qed.

Lemma astep_jobs s s' i j : astep s s' -> ajobs s !! i = Some j ->
  exists j', ajobs s' !! i = Some j' /\ (j = j' \/ jstep j j').
Proof.
  destruct 1; intros Hi;
    try (eapply (put_jobs jstep); [eassumption|constructor; assumption|assumption]).
  - exists j. split; [done|by left].
  - exists j. cbn. rewrite lookup_insert_ne by congruence. split; [done|by left].
Qed.

Lemma asteps_jobs s s' i j : rtc astep s s' -> ajobs s !! i = Some j ->
  exists j', ajobs s' !! i = Some j' /\ rtc jstep j j'.
Proof.
  intros Hst. revert j. induction Hst as [|s1 s2 s3 H12 _ IH]; intros j Hj; [by eauto using rtc_refl|].
  destruct (astep_jobs _ _ _ _ H12 Hj) as (j2 & Hj2 & Hr).
  destruct (IH _ Hj2) as (j3 & Hj3 & Hr3). exists j3. split; [done|].
  destruct Hr as [->|Hr]; [done|by eapply rtc_l].
Qed.

(** A terminal job stays as it is, and attempts never decrease. *)
Lemma jsteps_terminal j j' : rtc jstep j j' -> terminal j = true -> j' = j.
Proof.
  induction 1 as [|x y z Hxy Hyz IH]; [done|]. intros Ht. exfalso. clear IH Hyz.
  destruct Hxy; unfold terminal, is_running in *; destruct (phase_of j); done.
Qed.

Lemma jsteps_attempts j j' : rtc jstep j j' ->
  attempts_of j <= attempts_of j' /\ limit_of j' = limit_of j.
Proof.
  induction 1 as [|x y z Hxy Hyz [IH1 IH2]]; [lia|]. destruct Hxy; cbn in *; lia.
Qed.
