(* ===== verification/EnvelopeReplay.v ===== *)
(** * Replaying mutations on the server
      ([src/src/sync/sync-envelope-replay-service.js], [sync-replay-persisted-data.js],
      [sync-change-fanout.js])

    [SyncEnvelopeReplayService] takes a batch of mutations from a client: it normalizes
    each, authorizes it, compares it with the sync row of its resource, applies it, and
    stores the row, from which the change feed serves other clients. The model has the
    defaults over a sync model; what applications supply is a parameter: the tokens,
    the authorization, the apply handlers, routing to resources, and
    what is stored and broadcast with a row.

    The sync rows are a table in the order the engine scans it; [last_sequence] is the
    last sequence the allocator has given. A row keeps its [data] as text (a string is
    read back as it was written) or as JSON. An exception leaves what was written: there
    is no transaction around a batch. Every query and every write is awaited, and other
    requests, batches of other clients among them, may have written when it runs
    ([interfere], with the parameter [others]); an apply handler, which does not touch the
    sync rows, is one step. *)

From stdpp Require Import base gmap strings list.
From Stdlib Require Import ZArith Ascii Lia.
From S2P Require Import Prelude Json Numbers ConflictStrategy Sha256.
Open Scope Z_scope.

Inductive replay_error :=
| SafeError (code : option string) (message : string)   (* [VelociousError], safe to expose *)
| BadPersistedData                       (* [JSON.parse] throws on the data of a row *)
| NoStringValue                          (* [String(value)] throws *)
| NoApplyHandler (resourceType : string)
| Unexpected (message : string).

Abbreviation replayed A := (result replay_error A).

(** [String(a || b)] *)
Definition string_or (a b : option json) : replayed string :=
  match (match a with Some v => if is_falsy v then b else a | None => b end) with
  | None => Ok "undefined"
  | Some v => match js_string v with Ok s => Ok s | Throw _ => Throw NoStringValue end
  end.

(** ** Persisted acknowledgements *)

Definition METADATA_KEY : string := "$velociousReplay".
Definition PAYLOAD_KEY : string := "payload".

Record replay_metadata := {
  acknowledgementVersion : option json;
  metadata_client : string;               (* clientMutationId *)
  payloadFingerprint : string
}.

(** A property that is left out when its value is undefined. *)
Definition field (name : string) (v : option json) : properties :=
  match v with Some v => [(name, v)] | None => [] end.

Definition serializeReplayPersistedData (m : replay_metadata) (payload : json) : string :=
  stringify (JObj [
    (METADATA_KEY, JObj (field "acknowledgementVersion" (acknowledgementVersion m) ++
       [("clientMutationId", JStr (metadata_client m)); ("payloadFingerprint", JStr (payloadFingerprint m))]));
    (PAYLOAD_KEY, payload)]).

(** The metadata of a parsed value. *)
Definition decode_parsed (parsed : json) : option replay_metadata * json :=
  match parsed with
  | JObj record =>
      match obj_get METADATA_KEY record, obj_get PAYLOAD_KEY record with
      | Some (JObj metadata), Some payload =>
          match obj_get "clientMutationId" metadata, obj_get "payloadFingerprint" metadata with
          | Some (JStr c), Some (JStr f) =>
              (Some {| acknowledgementVersion := obj_get "acknowledgementVersion" metadata;
                       metadata_client := c; payloadFingerprint := f |}, payload)
          | _, _ => (None, parsed)
          end
      | _, _ => (None, parsed)
      end
  | _ => (None, parsed)
  end.

Definition decodeReplayPersistedData (value : json) : replayed (option replay_metadata * json) :=
  match value with
  | JStr text => match parse text with Some v => Ok (decode_parsed v) | None => Throw BadPersistedData end
  | v => Ok (decode_parsed v)
  end.

(** ** Mutations *)

Record SyncReplayMutation := {
  baseVersion : option json;
  clientMutationId : option json;
  clientUpdatedAt : Z;
  data : properties;
  mutation_id : option json;              (* id *)
  resourceId : string;
  resourceType : string;
  serializedData : string;
  syncType : string
}.

Definition failed (id : option json) (reason : string) : properties :=
  field "id" id ++ [("syncState", JStr "failed"); ("reason", JStr reason)].

(** [normalizeReplaySyncData] *)
Definition normalizeReplaySyncData (d id : option json) : properties + properties :=
  match d with
  | None | Some JNull => inl []
  | Some (JStr text) =>
      match parse text with
      | None => inr (failed id "invalid-data")
      | Some (JObj l) => inl l
      | Some _ => inl []
      end
  | Some (JObj l) => match parse (stringify (JObj l)) with Some (JObj l') => inl l' | _ => inl [] end
  | Some _ => inl []
  end.

(** A non-empty string. *)
Definition nonempty_string (v : option json) : option string :=
  match v with Some (JStr (String _ _ as s)) => Some s | _ => None end.

Section normalize.
Context (parse_date : string -> option Z).     (* [new Date(text)], [None] when invalid *)

(** [normalizeReplaySync]: a mutation, or a failed response. *)
Definition normalizeReplaySync (now : Z) (rawSync : json) :
    replayed (SyncReplayMutation + properties) :=
  match rawSync with
  | JObj sync =>
      let id := obj_get "id" sync in
      match nonempty_string (obj_get "resourceType" sync), obj_get "resourceId" sync,
            nonempty_string (obj_get "syncType" sync) with
      | Some resourceType, Some resource, Some syncType =>
          if decide (resource = JNull) then Ok (inr (failed id "invalid-resource-id")) else
          resourceId ← (match js_string resource with Ok s => Ok s | Throw _ => Throw NoStringValue end);
          let clientUpdatedAt := match obj_get "clientUpdatedAt" sync with
            | Some (JStr text) => default now (parse_date text)
            | _ => now
            end in
          match normalizeReplaySyncData (obj_get "data" sync) id with
          | inr response => Ok (inr response)
          | inl d => Ok (inl {|
              baseVersion := obj_get "baseVersion" sync;
              clientMutationId := obj_get "clientMutationId" sync;
              clientUpdatedAt := clientUpdatedAt; data := d; mutation_id := id;
              resourceId := resourceId; resourceType := resourceType;
              serializedData := stringify (JObj d); syncType := syncType |})
          end
      | _, _, _ => Ok (inr (failed id "invalid-resource-id"))
      end
  | _ => Ok (inr (failed None "invalid-sync"))
  end.
End normalize.

(** ** Sync rows *)

Inductive stored_time := StoredDate (t : Z) | StoredText (s : string) | StoredNothing.

Record row_attributes := {
  row_actor : json;
  row_client_updated_at : stored_time;
  row_data : json;
  row_resource_id : string;
  row_resource_type : string;
  row_sync_type : string;
  row_extra : properties                  (* columns of the application *)
}.

Record sync_row := { row_key : Z; row_sequence : Z; row_values : row_attributes }.

(** What an apply handler returns: whether it is a conflict, and the version attribute
    of the record it names. *)
Record apply_result := {
  result_conflict : option json;
  record_version : option json;
  result_extras : properties
}.

(** [pending] is a sequence the request has been given and has not written yet, [awaits]
    counts what it has awaited. *)
Record replay_state (D : Type) := {
  domain : D;
  sync_rows : list sync_row;
  last_key : Z;
  last_sequence : Z;
  broadcasted : list json;
  pending : option Z;
  awaits : nat
}.
Arguments domain {D} r.
Arguments sync_rows {D} r.
Arguments last_key {D} r.
Arguments last_sequence {D} r.
Arguments broadcasted {D} r.
Arguments pending {D} r.
Arguments awaits {D} r.

Section service.
Context {D : Type}.

Abbreviation M := (ST (replay_state D) replay_error).

Definition handler : Type :=
  json -> option sync_row -> SyncReplayMutation -> ST D replay_error (option apply_result).

(** The resource routing: applying a mutation, and finding the record of a mutation that
    is not applied again ([None]: the resource type is not routed). *)
Record router := {
  apply_routed : handler;
  find_routed : SyncReplayMutation -> ST D replay_error (option (option json))
}.

Record declared_broadcast := {
  broadcast_when : json -> option sync_row -> option apply_result -> SyncReplayMutation -> bool;
  broadcast_body : json -> option sync_row -> option apply_result -> SyncReplayMutation -> json
}.

Record replay_service := {
  parse_date : string -> option Z;
  now : nat -> Z;                                    (* [new Date()] at the n-th entry *)
  find_token : json -> option json;                  (* the id of the actor of a token *)
  authenticationTokenParam : string;
  authorizeReplayMutation : json -> SyncReplayMutation -> D -> bool * option string;
  applyHandlers : option (string -> option handler);
  routing : option router;
  conflictStrategy : bool;
  persistExtraAttributes : json -> option apply_result -> SyncReplayMutation -> properties;
  persistSerializedData : option apply_result -> SyncReplayMutation -> option json;
  broadcasts : list declared_broadcast;
  others : nat -> replay_state D -> replay_state D    (* other requests, during the n-th await *)
}.

Context (s : replay_service).

Definition on_domain {A} (m : ST D replay_error A) : M A := fun st =>
  let '(r, d) := m (domain st) in
  (r, {| domain := d; sync_rows := sync_rows st; last_key := last_key st;
         last_sequence := last_sequence st; broadcasted := broadcasted st;
         pending := pending st; awaits := awaits st |}).

(** What the state is after an [await]. *)
Definition disturbed (st : replay_state D) : replay_state D :=
  let st' := others s (awaits st) st in {|
    domain := domain st'; sync_rows := sync_rows st'; last_key := last_key st';
    last_sequence := last_sequence st'; broadcasted := broadcasted st';
    pending := pending st; awaits := S (awaits st) |}.

Definition interfere : M unit := modify disturbed.

(** [findExistingReplaySync] *)
Definition same_resource (actor : json) (m : SyncReplayMutation) (row : sync_row) : bool :=
  bool_decide (row_actor (row_values row) = actor) &&
  bool_decide (row_resource_id (row_values row) = resourceId m) &&
  bool_decide (row_resource_type (row_values row) = resourceType m).

Definition findExistingReplaySync (actor : json) (m : SyncReplayMutation) : M (option sync_row) :=
  gets (fun st => List.find (same_resource actor m) (sync_rows st)).

Definition existingReplaySyncClientUpdatedAt (existing : option sync_row) : option Z :=
  match existing with
  | Some row =>
      match row_client_updated_at (row_values row) with
      | StoredDate t => Some t
      | StoredText text => parse_date s text
      | StoredNothing => None
      end
  | None => None
  end.

Definition shouldApplyReplayMutation (existing : option sync_row) (m : SyncReplayMutation) : bool :=
  match existingReplaySyncClientUpdatedAt existing with
  | None => true
  | Some t => t <? clientUpdatedAt m
  end.

Definition replayPersistedMetadata (existing : option sync_row) : replayed (option replay_metadata) :=
  match existing with
  | Some row => d ← decodeReplayPersistedData (row_data (row_values row)); Ok d.1
  | None => Ok None
  end.

Definition data_text (v : json) : string := match v with JStr t => t | v => stringify v end.

Definition isDuplicateReplayMutation (existing : option sync_row) (m : SyncReplayMutation) :
    replayed bool :=
  match existing with
  | None => Ok false
  | Some row =>
      metadata ← replayPersistedMetadata existing;
      match metadata with
      | Some md =>
          client ← string_or (clientMutationId m) (mutation_id m);
          Ok (bool_decide (metadata_client md = client) &&
              bool_decide (payloadFingerprint md = sha256Hex (serializedData m)))
      | None =>
          Ok (bool_decide (existingReplaySyncClientUpdatedAt existing = Some (clientUpdatedAt m)) &&
              bool_decide (data_text (row_data (row_values row)) = serializedData m) &&
              bool_decide (row_sync_type (row_values row) = syncType m))
      end
  end.

Definition applyReplayMutation : handler := fun actor existing m =>
  match (match applyHandlers s with Some handlers => handlers (resourceType m) | None => None end) with
  | Some applyHandler => applyHandler actor existing m
  | None =>
      match routing s with
      | Some r => apply_routed r actor existing m
      | None =>
          match applyHandlers s with
          | Some _ => throw (NoApplyHandler (resourceType m))
          | None => mret None
          end
      end
  end.

Definition skippedReplayMutation (existing : option sync_row) (m : SyncReplayMutation) :
    ST D replay_error (option apply_result) :=
  duplicate ← lift_result (isDuplicateReplayMutation existing m);
  match routing s with
  | Some r =>
      if (duplicate : bool) then
        found ← find_routed r m;
        mret (match found with
              | Some version => Some {| result_conflict := None; record_version := version; result_extras := [] |}
              | None => None
              end)
      else mret None
  | None => mret None
  end.

(** [replayPersistAttributes] *)
Definition replayPersistAttributes (actor : json) (m : SyncReplayMutation) : row_attributes := {|
  row_actor := actor; row_client_updated_at := StoredDate (clientUpdatedAt m);
  row_data := JStr (serializedData m); row_resource_id := resourceId m;
  row_resource_type := resourceType m; row_sync_type := syncType m; row_extra := [] |}.

Definition with_data (v : json) (extra : properties) (a : row_attributes) : row_attributes := {|
  row_actor := row_actor a; row_client_updated_at := row_client_updated_at a; row_data := v;
  row_resource_id := row_resource_id a; row_resource_type := row_resource_type a;
  row_sync_type := row_sync_type a; row_extra := extra |}.

(** [assign] takes a column for changed when its value is not the one that was loaded, and
    [save] writes the changed columns only: the others keep what the table holds by now. *)
Definition written {A} `{EqDecision A} (value loaded current : A) : A :=
  if decide (value = loaded) then current else value.

(** Scalars are compared by their values, objects by their identity. *)
Definition column_same (loaded : option json) (value : json) : bool :=
  match value with JArr _ | JObj _ => false | _ => bool_decide (loaded = Some value) end.

Definition assigned (a loaded current : row_attributes) : row_attributes := {|
  row_actor := written (row_actor a) (row_actor loaded) (row_actor current);
  row_client_updated_at := row_client_updated_at a;       (* a new [Date] object *)
  row_data := if column_same (Some (row_data loaded)) (row_data a) then row_data current else row_data a;
  row_resource_id := written (row_resource_id a) (row_resource_id loaded) (row_resource_id current);
  row_resource_type := written (row_resource_type a) (row_resource_type loaded) (row_resource_type current);
  row_sync_type := written (row_sync_type a) (row_sync_type loaded) (row_sync_type current);
  row_extra := fold_left (fun acc kv =>
    if column_same (obj_get kv.1 (row_extra loaded)) kv.2 then acc else obj_define kv.1 kv.2 acc)
    (row_extra a) (row_extra current) |}.

(** [advanceServerSequence]; [create] takes its sequence in the same way. *)
Definition advanceServerSequence : M Z := fun st =>
  let sequence := last_sequence st + 1 in
  (Ok sequence, {| domain := domain st; sync_rows := sync_rows st; last_key := last_key st;
                   last_sequence := sequence; broadcasted := broadcasted st;
                   pending := Some sequence; awaits := awaits st |}).

Definition with_rows (rows : list sync_row) (key : Z) (st : replay_state D) : replay_state D := {|
  domain := domain st; sync_rows := rows; last_key := key; last_sequence := last_sequence st;
  broadcasted := broadcasted st; pending := None; awaits := awaits st |}.

(** [existingSync.save()]: an [UPDATE] by the primary key; the row is read again, and when
    it is gone this throws. *)
Definition save_row (a : row_attributes) (row : sync_row) (sequence : Z) : M unit := fun st =>
  (if existsb (fun r => bool_decide (row_key r = row_key row)) (sync_rows st)
   then Ok tt else Throw (Unexpected "couldn't be reloaded - record didn't exist"),
   with_rows (map (fun r => if decide (row_key r = row_key row)
     then {| row_key := row_key r; row_sequence := sequence;
             row_values := assigned a (row_values row) (row_values r) |}
     else r) (sync_rows st)) (last_key st) st).

(** [syncModel.create(attributes)] *)
Definition create_row (a : row_attributes) (sequence : Z) : M unit := modify (fun st =>
  with_rows (sync_rows st ++ [{| row_key := last_key st + 1; row_sequence := sequence; row_values := a |}])
    (last_key st + 1) st).

Definition upsertSyncRow (a : row_attributes) (existing : option sync_row) : M unit :=
  _ ← interfere;
  sequence ← advanceServerSequence;
  _ ← interfere;
  match existing with
  | Some row => save_row a row sequence
  | None => create_row a sequence
  end.

(** The data column: what [persistSerializedData] gives, and the acknowledgement that a
    conflict-tracked mutation is stored with. *)
Definition persisted_data (result : option apply_result) (m : SyncReplayMutation) (shouldApply : bool) :
    replayed json :=
  let serialized := match persistSerializedData s result m with
    | Some JNull | None => JStr (serializedData m)
    | Some v => JStr (data_text v)
    end in
  let stored := if shouldApply then serialized else JStr (serializedData m) in
  match conflictStrategy s && shouldApply, baseVersion m, result ≫= record_version with
  | true, Some _, Some version =>
      publicPayload ← decodeReplayPersistedData stored;
      client ← string_or (clientMutationId m) (mutation_id m);
      Ok (JStr (serializeReplayPersistedData {|
        acknowledgementVersion := Some version; metadata_client := client;
        payloadFingerprint := sha256Hex (serializedData m) |} publicPayload.2))
  | _, _, _ => Ok stored
  end.

Definition persistReplayMutation (actor : json) (result : option apply_result)
    (existing : option sync_row) (m : SyncReplayMutation) (shouldApply : bool) : M unit :=
  stored ← lift_result (persisted_data result m shouldApply);
  let extra := if shouldApply then persistExtraAttributes s actor result m else [] in
  let attributes := with_data stored extra (replayPersistAttributes actor m) in
  match existingReplaySyncClientUpdatedAt existing with
  | Some t => if clientUpdatedAt m <=? t then mret tt else upsertSyncRow attributes existing
  | None => upsertSyncRow attributes existing
  end.

(** [afterReplayMutation], [deliverDeclaredBroadcasts] *)
Definition afterReplayMutation (actor : json) (result : option apply_result)
    (existing : option sync_row) (m : SyncReplayMutation) (shouldApply : bool) : M unit :=
  if shouldApply then
    _ ← interfere;
    modify (fun st => {|
      domain := domain st; sync_rows := sync_rows st; last_key := last_key st;
      last_sequence := last_sequence st;
      broadcasted := broadcasted st ++
        map (fun b => broadcast_body b actor existing result m)
          (List.filter (fun b => broadcast_when b actor existing result m) (broadcasts s));
      pending := pending st; awaits := awaits st |})
  else mret tt.

(** The [catch] around the application of a mutation: client-safe errors fail their own
    entry, others the batch. *)
Definition safe_failure {A} (m : ST D replay_error A) : M (A + (option string * string)) := fun st =>
  match on_domain m st with
  | (Ok a, st) => (Ok (inl a), st)
  | (Throw (SafeError code message), st) => (Ok (inr (code, message)), st)
  | (Throw e, st) => (Throw e, st)
  end.

Definition or_else (o : option string) (d : string) : string :=
  match o with Some (String _ _ as t) => t | _ => d end.

(** The rest of the loop body once the mutation is applied or skipped. *)
Definition acknowledge (actor : json) (existing : option sync_row) (m : SyncReplayMutation)
    (shouldApply duplicate : bool) (result : option apply_result) : M properties :=
  match result ≫= result_conflict with
  | Some details => mret (("conflict", details) :: field "id" (mutation_id m) ++ [("syncState", JStr "conflict")])
  | None =>
      _ ← persistReplayMutation actor result existing m shouldApply;
      _ ← afterReplayMutation actor result existing m shouldApply;
      metadata ← (if duplicate then lift_result (replayPersistedMetadata existing) else mret None);
      let serverVersion :=
        match metadata with
        | Some md => acknowledgementVersion md
        | None =>
            match conflictStrategy s, baseVersion m with
            | true, Some _ => result ≫= record_version
            | _, _ => None
            end
        end in
      mret (field "id" (mutation_id m) ++
            [("syncState", JStr (if duplicate then "duplicate" else "successful"))] ++
            field "serverVersion" serverVersion)
  end.

(** One entry of the loop of [replay]. *)
Definition replay_entry (actor : json) (n : nat) (rawSync : json) : M properties :=
  normalized ← lift_result (normalizeReplaySync (parse_date s) (now s n) rawSync);
  match normalized with
  | inr response => mret response
  | inl m =>
      _ ← interfere;
      access ← gets (fun st => authorizeReplayMutation s actor m (domain st));
      if negb access.1 then mret (failed (mutation_id m) (or_else access.2 "access-denied")) else
      _ ← interfere;
      existing ← findExistingReplaySync actor m;
      let shouldApply := shouldApplyReplayMutation existing m in
      duplicate ← (if shouldApply then mret false else lift_result (isDuplicateReplayMutation existing m));
      _ ← interfere;
      outcome ← safe_failure (if shouldApply then applyReplayMutation actor existing m
                              else skippedReplayMutation existing m);
      match outcome with
      | inr (code, message) =>
          mret (failed (mutation_id m) (or_else code "apply-failed") ++ [("message", JStr message)])
      | inl result => acknowledge actor existing m shouldApply duplicate result
      end
  end.

Fixpoint replay_entries (actor : json) (n : nat) (syncs : list json) : M (list properties) :=
  match syncs with
  | [] => mret []
  | rawSync :: syncs =>
      response ← replay_entry actor n rawSync;
      responses ← replay_entries actor (S n) syncs;
      mret (response :: responses)
  end.

(** [authenticateReplay] with a token model. *)
Definition authenticateReplay (params : properties) : json + (string * string) :=
  match obj_get (authenticationTokenParam s) params with
  | None => inr ("missing-authentication-token", "Missing authentication token")
  | Some token =>
      if is_falsy token then inr ("missing-authentication-token", "Missing authentication token") else
      match find_token s token with
      | Some actor => inl actor
      | None => inr ("invalid-authentication-token", "Invalid authentication token")
      end
  end.

Definition replaySyncs (params : properties) : list json :=
  match obj_get "syncs" params with Some (JArr syncs) => syncs | _ => [] end.

(** [replay], as [SyncResourceBase.replay] answers it. *)
Definition replay (params : properties) : M properties :=
  match authenticateReplay params with
  | inr (errorCode, errorMessage) =>
      mret [("syncs", JArr []); ("status", JStr "error"); ("errorCode", JStr errorCode);
            ("errorMessage", JStr errorMessage)]
  | inl actor =>
      _ ← interfere;
      responses ← replay_entries actor 0 (replaySyncs params);
      mret [("status", JStr "success"); ("syncs", JArr (map JObj responses))]
  end.
End service.
