(* ===== verification/EnvelopeReplayCorrect.v ===== *)
(** * Replaying mutations on the server: correctness

    Every write of a replay gives its row a sequence of its own, beyond those before,
    which is what the change feed needs; a mutation that was applied and acknowledged is
    recognized when the client sends it again, and has no second effect. Between any two
    database calls other requests write what they like, as long as keys and sequences
    stay unique ([others_respect]) and, for the second, they leave the resource of the
    mutation alone ([leaves_alone]). *)

From stdpp Require Import base gmap strings list.
From Stdlib Require Import ZArith Ascii Lia.
From S2P Require Import Prelude Json Numbers StableJson ConflictStrategy Sha256 EnvelopeReplay.
Open Scope Z_scope.

#[local] Arguments disturbed : simpl never.

(** ** The table of sync rows *)

Record rows_ok {D} (st : replay_state D) : Prop := {
  keys_unique : NoDup (map row_key (sync_rows st));
  keys_given : forall r, r ∈ sync_rows st -> row_key r <= last_key st;
  row_sequences_unique : NoDup (map row_sequence (sync_rows st));
  row_sequences_given : forall r, r ∈ sync_rows st -> 0 < row_sequence r <= last_sequence st;
  sequence_nonneg : 0 <= last_sequence st;
  pending_free : forall q, pending st = Some q -> 0 < q <= last_sequence st /\
    forall r, r ∈ sync_rows st -> row_sequence r <> q
}.

(** What a request relies on: others keep keys and sequences unique, take new sequences
    only, and do not write a row with the sequence this request has been given. *)
Definition others_respect {D} (s : @replay_service D) : Prop := forall st, rows_ok st ->
  rows_ok (disturbed s st) /\ last_sequence st <= last_sequence (disturbed s st).

Section rows.
Context {D : Type}.
Implicit Types st : replay_state D.

Definition write_row (a : row_attributes) (existing : option sync_row) (sequence : Z) : ST (replay_state D) replay_error unit :=
  match existing with Some row => save_row a row sequence | None => create_row a sequence end.

Lemma upsert_map_in (key sequence : Z) (f : row_attributes -> row_attributes) (rows : list sync_row) r :
  r ∈ map (fun r => if decide (row_key r = key)
    then {| row_key := row_key r; row_sequence := sequence; row_values := f (row_values r) |} else r) rows ->
  (r ∈ rows /\ row_key r <> key) \/
  (row_sequence r = sequence /\ exists r0, r0 ∈ rows /\ row_key r = row_key r0 /\ row_key r0 = key /\
     row_values r = f (row_values r0)).
Proof.
  intros (r0 & Hr & Hin)%list_elem_of_fmap. case_decide; subst; [right|by left].
  cbn. split; [done|]. by exists r0.
Qed.

Lemma write_row_ok a existing q st : rows_ok st -> pending st = Some q ->
  rows_ok (write_row a existing q st).2 /\ last_sequence (write_row a existing q st).2 = last_sequence st.
Proof.
  intros [Hk Hkg Hs Hsg Hn Hp] Hq. destruct (Hp q Hq) as [Hqb Hfree].
  split; [|by destruct existing]. destruct existing as [row|]; cbn.
  - set (f := fun r => if decide (row_key r = row_key row) then _ else r).
    assert (forall rows, map row_key (map f rows) = map row_key rows) as Hkeys.
    { intros rows. rewrite map_map. apply map_ext. intros r. unfold f. by case_decide. }
    split; cbn; try done.
    + by rewrite Hkeys.
    + intros r [[Hr _]|(_ & r0 & Hr & -> & _)]%upsert_map_in; by apply Hkg.
    + clear Hkg Hkeys Hsg. revert Hk Hs Hfree. generalize (sync_rows st). intros rows.
      induction rows as [|r rows IH]; intros Hk Hs Hfree; cbn; [constructor|].
      cbn in Hk, Hs. apply NoDup_cons in Hk as [Hkr Hk], Hs as [Hsr Hs].
      assert (forall r', r' ∈ rows -> row_sequence r' <> q) as Hfree' by (intros; apply Hfree; by right).
      constructor; [|by apply IH]. intros (r' & Heq & Hin)%list_elem_of_fmap.
      apply upsert_map_in in Hin as [[Hin Hne]|(Hseq & r0 & Hin & Hk0 & Hkr0 & _)].
      * unfold f in Heq. case_decide; cbn in Heq; [by apply (Hfree' r' Hin)|].
        apply Hsr. rewrite Heq. apply list_elem_of_fmap. eauto.
      * unfold f in Heq. case_decide as Hd; cbn in Heq.
        -- apply Hkr. rewrite Hd, <- Hkr0. apply list_elem_of_fmap. eauto.
        -- apply (Hfree r); [by left|]. by rewrite Heq.
    + intros r [[Hr _]|(-> & _)]%upsert_map_in; [by apply Hsg|done].
  - split; cbn; try done.
    + rewrite map_app. apply NoDup_app. split; [done|]. split; [|apply NoDup_singleton].
      intros k (r & -> & Hr)%list_elem_of_fmap. cbn. rewrite list_elem_of_singleton.
      specialize (Hkg r Hr). lia.
    + intros r [Hr| ->%list_elem_of_singleton]%elem_of_app; cbn; [specialize (Hkg r Hr)|]; lia.
    + rewrite map_app. apply NoDup_app. split; [done|]. split; [|apply NoDup_singleton].
      intros k (r & -> & Hr)%list_elem_of_fmap. cbn. rewrite list_elem_of_singleton. by apply Hfree.
    + intros r [Hr| ->%list_elem_of_singleton]%elem_of_app; cbn; [by apply Hsg|done].
Qed.

(** The sequence a request is given is not in the table. *)
Lemma advance_ok st : rows_ok st -> rows_ok (advanceServerSequence st).2.
Proof.
  intros [Hk Hkg Hs Hsg Hn Hp]. split; cbn; try done; [|lia|].
  - intros r Hr. specialize (Hsg r Hr). lia.
  - intros q [= <-]. split; [lia|]. intros r Hr. specialize (Hsg r Hr). lia.
Qed.

Lemma same_table_ok st st' : rows_ok st -> sync_rows st' = sync_rows st ->
  last_key st' = last_key st -> last_sequence st' = last_sequence st -> pending st' = pending st -> rows_ok st'.
Proof. intros [H1 H2 H3 H4 H5 H6] Hr Hk Hl Hp. split; rewrite ?Hr, ?Hk, ?Hl, ?Hp; done. Qed.
End rows.

(** ** A whole batch *)

Section batch.
Context {D : Type} (s : @replay_service D) (respect : others_respect s).

(** The table is well formed and sequences grow. *)
Definition keeps {A} (m : ST (replay_state D) replay_error A) : Prop :=
  forall n, preserves (fun st => rows_ok st /\ n <= last_sequence st) m.

Lemma interfere_keeps : keeps (interfere s).
Proof. intros n st [Hok Hn]. cbn. destruct (respect st Hok). split; [done|lia]. Qed.

Lemma on_domain_keeps {A} (m : ST D replay_error A) : keeps (on_domain m).
Proof.
  intros n st [Hok Hn]. unfold on_domain. destruct (m (domain st)) as [r d]. split; [|done].
  by eapply same_table_ok.
Qed.

(** What an upsert does when it returns or throws: the row is written with a new sequence. *)
Lemma upsert_run a existing st : rows_ok st -> exists q st1,
  upsertSyncRow s a existing st = write_row a existing q st1 /\
  rows_ok st1 /\ pending st1 = Some q /\ last_sequence st < q <= last_sequence st1 /\
  st1 = disturbed s (advanceServerSequence (disturbed s st)).2.
Proof.
  intros Hok. destruct (respect st Hok) as [Hok1 H1].
  pose proof (advance_ok _ Hok1) as Hok2. destruct (respect _ Hok2) as [Hok3 H3].
  eexists _, _. split_and!; [|exact Hok3|done| | |done].
  - unfold upsertSyncRow, mbind, ST_bind, interfere, modify. cbn. by destruct existing.
  - cbn. lia.
  - cbn in H3 |- *. lia.
Qed.

Lemma upsert_keeps a existing : keeps (upsertSyncRow s a existing).
Proof.
  intros n st [Hok Hn]. destruct (upsert_run a existing st Hok) as (q & st1 & -> & Hok1 & Hq & Hb & _).
  destruct (write_row_ok a existing q st1 Hok1 Hq) as [Hok2 ->]. split; [done|lia].
Qed.

Lemma acknowledge_keeps actor existing m b duplicate result :
  keeps (acknowledge s actor existing m b duplicate result).
Proof.
  intros n. unfold acknowledge. destruct (result ≫= result_conflict); [apply preserves_ret|].
  apply preserves_bind.
  - unfold persistReplayMutation. apply preserves_bind; [apply preserves_lift|]. intros stored.
    pose proof (fun a => upsert_keeps a existing n).
    destruct (existingReplaySyncClientUpdatedAt s existing); [apply preserves_if|]; auto with preserves.
  - intros _. apply preserves_bind.
    + unfold afterReplayMutation. apply preserves_if; [|apply preserves_ret].
      apply preserves_bind; [apply interfere_keeps|]. intros _ st [Hok Hn]. split; [|done].
      by eapply same_table_ok.
    + intros _. apply preserves_bind; [apply preserves_if; auto with preserves|].
      intros md. apply preserves_ret.
Qed.

Lemma replay_entry_keeps actor k raw : keeps (replay_entry s actor k raw).
Proof.
  intros n. unfold replay_entry. apply preserves_bind; [apply preserves_lift|]. intros [m|response]; [|apply preserves_ret].
  apply preserves_bind; [apply interfere_keeps|]. intros _.
  apply preserves_bind; [apply preserves_gets|]. intros access. apply preserves_if; [apply preserves_ret|].
  apply preserves_bind; [apply interfere_keeps|]. intros _.
  apply preserves_bind; [apply preserves_gets|]. intros existing.
  apply preserves_bind; [apply preserves_if; auto with preserves|]. intros duplicate.
  apply preserves_bind; [apply interfere_keeps|]. intros _.
  apply preserves_bind.
  - intros st Hst. unfold safe_failure.
    match goal with |- context [on_domain ?x st] => pose proof (on_domain_keeps x n st Hst) as H;
      destruct (on_domain x st) as [[a|[]] st'] end; exact H.
  - intros [result|[code message]]; [apply acknowledge_keeps|apply preserves_ret].
Qed.

(** A replay keeps what other requests, and a pulling client, rely on. *)
Lemma replay_keeps params : keeps (replay s params).
Proof.
  intros n. unfold replay. destruct (authenticateReplay s params) as [actor|[code message]]; [|apply preserves_ret].
  apply preserves_bind; [apply interfere_keeps|]. intros _. apply preserves_bind; [|intros; apply preserves_ret].
  generalize 0%nat. induction (replaySyncs params) as [|raw syncs IH]; intros k; [apply preserves_ret|].
  cbn [replay_entries]. apply preserves_bind; [apply replay_entry_keeps|]. intros response.
  apply preserves_bind; [apply IH|]. intros responses. apply preserves_ret.
Qed.
End batch.

(** ** Sending a mutation again *)

Section again.
Context {D : Type} (s : @replay_service D).

(** The time of the mutation is the client's, not that of the server. *)
Definition explicit_time (raw : json) : Prop :=
  exists sync text t, raw = JObj sync /\ obj_get "clientUpdatedAt" sync = Some (JStr text) /\
    parse_date s text = Some t.

Lemma normalize_explicit raw n n' : explicit_time raw ->
  normalizeReplaySync (parse_date s) (now s n) raw = normalizeReplaySync (parse_date s) (now s n') raw.
Proof.
  intros (sync & text & t & -> & Ht & Hp). cbn [normalizeReplaySync]. rewrite Ht, Hp. done.
Qed.

(** The data of a mutation is what [JSON.parse] gives. *)
Lemma normalize_data parse_date n raw m : normalizeReplaySync parse_date n raw = Ok (inl m) ->
  parsed_json (JObj (data m)) /\ serializedData m = stringify (JObj (data m)).
Proof.
  destruct raw as [| | | | |sync]; try done. cbn [normalizeReplaySync].
  destruct (nonempty_string (obj_get "resourceType" sync)); [|done]. destruct (obj_get "resourceId" sync) as [r|]; [|done].
  destruct (nonempty_string (obj_get "syncType" sync)); [|done]. case_decide; [done|].
  intros (i & _ & Hrest)%result_bind_Ok.
  destruct (normalizeReplaySyncData _ _) as [d|response] eqn:Hd; [|done]. injection Hrest as <-. cbn. split; [|done].
  assert (parsed_json (JObj [])) as Hempty by (apply parsed_obj; by repeat constructor).
  unfold normalizeReplaySyncData in Hd. destruct (obj_get "data" sync) as [[| | |text| |l]|].
  all: try (injection Hd as <-; exact Hempty).
  - destruct (parse text) as [v|] eqn:Hp; [|done]. apply parse_parsed in Hp.
    destruct v; injection Hd as <-; done.
  - destruct (parse (stringify (JObj l))) as [v|] eqn:Hp; [|injection Hd as <-; done].
    apply parse_parsed in Hp. destruct v; injection Hd as <-; done.
Qed.

Lemma decode_serialized m : parsed_json (JObj (data m)) -> serializedData m = stringify (JObj (data m)) ->
  decodeReplayPersistedData (JStr (serializedData m)) = Ok (decode_parsed (JObj (data m))).
Proof. intros Hd ->. unfold decodeReplayPersistedData. by rewrite parse_stringify_parsed. Qed.

(** Metadata that was stored is read back. *)
Lemma decode_persisted md payload : parsed_json payload ->
  (forall v, acknowledgementVersion md = Some v -> parsed_json v) ->
  decodeReplayPersistedData (JStr (serializeReplayPersistedData md payload)) = Ok (Some md, payload).
Proof.
  intros Hp Hv. unfold decodeReplayPersistedData, serializeReplayPersistedData.
  rewrite parse_stringify_parsed.
  - destruct md as [v c f]. cbn -[obj_get]. by destruct v.
  - destruct md as [v c f]. cbn in *. apply parsed_obj. split.
    + cbn. split_and!; try done; intros kv; rewrite ?elem_of_cons, ?elem_of_nil; try tauto.
      intros [->|[]]. done.
    + repeat constructor; cbn; try apply Hp.
      * destruct v as [v|]; cbn; repeat constructor; cbn; try apply (Hv v); done.
      * destruct v as [v|]; cbn; (split_and!; try done; intros kv; rewrite ?elem_of_cons, ?elem_of_nil; try tauto;
          intros Hkv; destruct_or? Hkv; subst; done).
      * destruct v as [v|]; cbn; repeat constructor; cbn; try apply (Hv v); done.
Qed.

(** Nobody else writes the rows of the actor for the resource of the mutation. *)
Definition leaves_alone (actor : json) (m : SyncReplayMutation) : Prop := forall n st,
  List.filter (same_resource actor m) (sync_rows (others s n st)) = List.filter (same_resource actor m) (sync_rows st).

Lemma find_filter {A} (p : A -> bool) l : List.find p l = head (List.filter p l).
Proof. induction l as [|x l IH]; cbn; [done|]. by destruct (p x). Qed.

Lemma disturbed_find actor m st : leaves_alone actor m ->
  List.find (same_resource actor m) (sync_rows (disturbed s st)) = List.find (same_resource actor m) (sync_rows st).
Proof. intros H. by rewrite !find_filter, <- (H (awaits st) st). Qed.

Lemma written_same {A} `{EqDecision A} (a b : A) : written a b b = a.
Proof. unfold written. by case_decide. Qed.

Lemma assigned_same a old : let v := assigned a old old in
  row_actor v = row_actor a /\ row_client_updated_at v = row_client_updated_at a /\ row_data v = row_data a /\
  row_resource_id v = row_resource_id a /\ row_resource_type v = row_resource_type a /\
  row_sync_type v = row_sync_type a.
Proof.
  cbn. rewrite !written_same. split_and!; try done.
  unfold column_same. destruct (row_data a); try done; case_bool_decide as H; try done; by injection H.
Qed.

(** The row written for a mutation is the one found for it. *)
Lemma find_written actor m a existing q (st : replay_state D) :
  rows_ok st -> existing = List.find (same_resource actor m) (sync_rows st) ->
  row_actor a = actor -> row_resource_id a = resourceId m -> row_resource_type a = EnvelopeReplay.resourceType m ->
  exists row, List.find (same_resource actor m) (sync_rows (write_row a existing q st).2) = Some row /\
    row_sequence row = q /\
    row_client_updated_at (row_values row) = row_client_updated_at a /\
    row_data (row_values row) = row_data a /\ row_sync_type (row_values row) = row_sync_type a.
Proof.
  intros Hok -> Ha Hi Ht. destruct (List.find _ (sync_rows st)) as [row|] eqn:Hf; cbn.
  - set (values := assigned a (row_values row) (row_values row)).
    destruct (assigned_same a (row_values row)) as (Va & Vt & Vd & Vi & Vr & Vs). fold values in Va, Vt, Vd, Vi, Vr, Vs.
    set (new := {| row_key := row_key row; row_sequence := q; row_values := values |}).
    assert (same_resource actor m new = true) as Hnew.
    { unfold same_resource. cbn [new row_values]. rewrite Va, Vi, Vr. by rewrite !bool_decide_eq_true_2. }
    exists new. split; [|done].
    pose proof (keys_unique st Hok) as Hk. revert Hf Hk. generalize (sync_rows st). intros rows.
    induction rows as [|r rows IH]; [done|]. cbn [List.find map]. intros Hf [Hr Hk]%NoDup_cons.
    destruct (same_resource actor m r) eqn:Hm.
    + injection Hf as ->. rewrite decide_True by done. fold values. fold new. by rewrite Hnew.
    + assert (row_key r <> row_key row) as Hne.
      { intros Heq. apply Hr. rewrite Heq. apply list_elem_of_fmap. exists row. split; [done|].
        apply find_some in Hf as [Hin _]. by apply list_elem_of_In. }
      rewrite decide_False by done. rewrite Hm. by apply IH.
  - set (new := {| row_key := _; row_sequence := _; row_values := a |}).
    assert (same_resource actor m new = true) as Hnew.
    { unfold same_resource. cbn. by rewrite !bool_decide_eq_true_2. }
    exists new. split; [|done]. revert Hf. generalize (sync_rows st). intros rows.
    induction rows as [|r rows IH]; cbn [List.find app]; [by rewrite Hnew|].
    destruct (same_resource actor m r); [done|]. apply IH.
Qed.

(** What an entry has done that was applied and acknowledged. *)
Lemma applied_entry actor n raw m st response st' :
  others_respect s -> leaves_alone actor m -> rows_ok st ->
  normalizeReplaySync (parse_date s) (now s n) raw = Ok (inl m) ->
  shouldApplyReplayMutation s (List.find (same_resource actor m) (sync_rows st)) m = true ->
  replay_entry s actor n raw st = (Ok response, st') ->
  obj_get "syncState" response = Some (JStr "successful") ->
  let existing := List.find (same_resource actor m) (sync_rows st) in
  exists result d d' stored extra q (st1 : replay_state D), applyReplayMutation s actor existing m d = (Ok result, d') /\
    persisted_data s result m true = Ok stored /\ rows_ok st1 /\ last_sequence st < q /\
    existing = List.find (same_resource actor m) (sync_rows st1) /\
    List.find (same_resource actor m) (sync_rows st') = List.find (same_resource actor m)
      (sync_rows (write_row (with_data stored extra (replayPersistAttributes actor m)) existing q st1).2) /\
    response = field "id" (mutation_id m) ++ [("syncState", JStr "successful")] ++
      field "serverVersion" (match conflictStrategy s, baseVersion m with
                             | true, Some _ => result ≫= record_version | _, _ => None end).
Proof.
  intros Hrespect Halone Hok Hm Happ Hrun Hstate existing. unfold replay_entry in Hrun. rewrite Hm in Hrun.
  pose proof (fun st => disturbed_find actor m st Halone) as Hfind.
  apply ST_bind_Ok in Hrun as (norm & st0 & [[= <-] ->]%ST_lift_Ok & Hrun).
  apply ST_bind_Ok in Hrun as ([] & st0 & ->%ST_modify_Ok & Hrun).
  apply ST_bind_Ok in Hrun as (access & st0 & [-> ->]%ST_gets_Ok & Hrun).
  destruct (negb _).
  { apply ST_ret_Ok in Hrun as [-> _]. unfold failed in Hstate. by destruct (mutation_id m). }
  apply ST_bind_Ok in Hrun as ([] & st0 & ->%ST_modify_Ok & Hrun).
  apply ST_bind_Ok in Hrun as (ex & st0 & [-> ->]%ST_gets_Ok & Hrun).
  rewrite !Hfind in Hrun. fold existing in Hrun, Happ.
  rewrite Happ in Hrun. apply ST_bind_Ok in Hrun as (dup & st0 & [-> ->]%ST_ret_Ok & Hrun).
  apply ST_bind_Ok in Hrun as ([] & st0 & ->%ST_modify_Ok & Hrun).
  set (st0 := disturbed s (disturbed s (disturbed s st))) in Hrun.
  assert (rows_ok st0 /\ last_sequence st <= last_sequence st0) as [Hok0 Hseq0].
  { pose proof (interfere_keeps s Hrespect (last_sequence st)) as Hi.
    apply (Hi (disturbed s (disturbed s st))), (Hi (disturbed s st)), (Hi st). split; [done|lia]. }
  assert (existing = List.find (same_resource actor m) (sync_rows st0)) as Hex by by unfold st0; rewrite !Hfind.
  clearbody st0.
  apply ST_bind_Ok in Hrun as (outcome & st1 & Hsafe & Hrun).
  unfold safe_failure, on_domain in Hsafe.
  destruct (applyReplayMutation s actor existing m (domain st0)) as [[result|[code message| | | |]] d] eqn:Hd; try done;
    cbn in Hsafe; injection Hsafe as <- <-; cycle 1.
  { apply ST_ret_Ok in Hrun as [-> _]. unfold failed in Hstate. by destruct (mutation_id m). }
  unfold acknowledge in Hrun. destruct (result ≫= result_conflict) as [details|].
  { apply ST_ret_Ok in Hrun as [-> _]. cbn in Hstate. by destruct (mutation_id m). }
  apply ST_bind_Ok in Hrun as ([] & st2 & Hpersist & Hrun).
  apply ST_bind_Ok in Hrun as ([] & st3 & Hafter & Hrun).
  apply ST_bind_Ok in Hrun as (md & st4 & [-> ->]%ST_ret_Ok & Hrun). apply ST_ret_Ok in Hrun as [-> ->].
  unfold persistReplayMutation in Hpersist.
  apply ST_bind_Ok in Hpersist as (stored & st4 & [Hstored ->]%ST_lift_Ok & Hpersist).
  set (sta := Build_replay_state D d _ _ _ _ _ _) in Hpersist.
  assert (rows_ok sta) as Hoka by by eapply same_table_ok.
  set (values := with_data stored (persistExtraAttributes s actor result m) (replayPersistAttributes actor m)) in *.
  assert (upsertSyncRow s values existing sta = (Ok tt, st2)) as Hup.
  { unfold shouldApplyReplayMutation in Happ.
    destruct (existingReplaySyncClientUpdatedAt s existing) as [t|]; [|exact Hpersist].
    destruct (Z.leb_spec (clientUpdatedAt m) t); [lia|exact Hpersist]. }
  destruct (upsert_run s Hrespect values existing sta Hoka) as (q & st4 & Hw & Hok4 & _ & [Hq _] & Hst4).
  rewrite Hup in Hw.
  exists result, (domain st0), d, stored, (persistExtraAttributes s actor result m), q, st4.
  split_and!; [done|done|done|change (last_sequence sta) with (last_sequence st0) in Hq; lia| | |done].
  - rewrite Hst4, Hfind. cbn [advanceServerSequence snd sync_rows]. by rewrite Hfind.
  - fold values. rewrite <- Hw. cbn [snd]. unfold afterReplayMutation in Hafter.
    apply ST_bind_Ok in Hafter as ([] & st5 & ->%ST_modify_Ok & ->%ST_modify_Ok). cbn [sync_rows]. by rewrite Hfind.
Qed.

(** An application that stores the data of a mutation as it came, in which no stored
    value looks like an acknowledgement, and that reports versions JSON can carry. *)
Record plain_storage (m : SyncReplayMutation) : Prop := {
  stores_data : forall result, persistSerializedData s result m = None;
  data_is_payload : (decode_parsed (JObj (data m))).1 = None;
  versions_parsed : forall actor existing d result d' v,
    applyReplayMutation s actor existing m d = (Ok (Some result), d') ->
    record_version result = Some v -> parsed_json v;
  lookup_reads : forall r d, routing s = Some r -> exists found, find_routed r m d = (Ok found, d)
}.

Lemma recognized_plain row m : parsed_json (JObj (data m)) -> serializedData m = stringify (JObj (data m)) ->
  (decode_parsed (JObj (data m))).1 = None ->
  row_client_updated_at (row_values row) = StoredDate (clientUpdatedAt m) ->
  row_data (row_values row) = JStr (serializedData m) -> row_sync_type (row_values row) = syncType m ->
  isDuplicateReplayMutation s (Some row) m = Ok true /\ replayPersistedMetadata (Some row) = Ok None.
Proof.
  intros Hparsed Hser Hplain Htime Hdata Htype.
  pose proof (decode_serialized m Hparsed Hser) as Hdecode.
  assert (replayPersistedMetadata (Some row) = Ok None) as Hmd.
  { unfold replayPersistedMetadata. rewrite Hdata, Hdecode. cbn [mbind result_bind]. by rewrite Hplain. }
  split; [|done]. unfold isDuplicateReplayMutation. rewrite Hmd. cbn [mbind result_bind].
  cbn [existingReplaySyncClientUpdatedAt]. rewrite Htime, Hdata, Htype. cbn [data_text].
  by rewrite !bool_decide_eq_true_2.
Qed.

Lemma recognized_tracked row m md client payload : parsed_json payload ->
  (forall v, acknowledgementVersion md = Some v -> parsed_json v) ->
  string_or (clientMutationId m) (mutation_id m) = Ok client ->
  metadata_client md = client -> payloadFingerprint md = sha256Hex (serializedData m) ->
  row_data (row_values row) = JStr (serializeReplayPersistedData md payload) ->
  isDuplicateReplayMutation s (Some row) m = Ok true /\ replayPersistedMetadata (Some row) = Ok (Some md).
Proof.
  intros Hp Hv Hclient Hc Hf Hdata.
  assert (replayPersistedMetadata (Some row) = Ok (Some md)) as Hmd.
  { unfold replayPersistedMetadata. by rewrite Hdata, decode_persisted. }
  split; [|done]. unfold isDuplicateReplayMutation. rewrite Hmd. cbn [mbind result_bind]. rewrite Hclient. cbn.
  by rewrite !bool_decide_eq_true_2.
Qed.

(** The payload of what is stored is the data of the mutation. *)
Lemma stored_payload actor existing m d result d' stored :
  plain_storage m -> parsed_json (JObj (data m)) -> serializedData m = stringify (JObj (data m)) ->
  applyReplayMutation s actor existing m d = (Ok result, d') -> persisted_data s result m true = Ok stored ->
  exists text md, stored = JStr text /\ text <> "" /\ decodeReplayPersistedData stored = Ok (md, JObj (data m)).
Proof.
  intros [Hstore Hplain Hversion _] Hparsed Hser Happly Hstored.
  unfold persisted_data in Hstored. rewrite Hstore, andb_true_r in Hstored. cbv iota in Hstored.
  pose proof (decode_serialized m Hparsed Hser) as Hdecode.
  assert (decode_parsed (JObj (data m)) = (None, JObj (data m))) as Hpayload.
  { unfold decode_parsed in *. repeat case_match; done. }
  rewrite Hpayload in Hdecode.
  destruct (conflictStrategy s), (baseVersion m) as [base|], (result ≫= record_version) as [version|] eqn:Hv.
  2-8: injection Hstored as <-; eexists _, _; split; [done|]; split; [by rewrite Hser|exact Hdecode].
  rewrite Hdecode in Hstored. cbn [mbind result_bind snd] in Hstored.
  apply result_bind_Ok in Hstored as (client & _ & [= <-]).
  eexists _, _. split; [done|]. split; [done|]. apply decode_persisted; [done|].
  cbn. intros v [= <-]. destruct result as [result|]; [|done]. by eapply Hversion.
Qed.

(** What is stored is recognized, with the version that was acknowledged. *)
Lemma stored_is_recognized actor existing m d result d' stored row :
  plain_storage m -> parsed_json (JObj (data m)) -> serializedData m = stringify (JObj (data m)) ->
  applyReplayMutation s actor existing m d = (Ok result, d') ->
  persisted_data s result m true = Ok stored ->
  row_client_updated_at (row_values row) = StoredDate (clientUpdatedAt m) ->
  row_data (row_values row) = stored -> row_sync_type (row_values row) = syncType m ->
  exists md, isDuplicateReplayMutation s (Some row) m = Ok true /\ replayPersistedMetadata (Some row) = Ok md /\
    forall v, match conflictStrategy s, baseVersion m with
              | true, Some _ => result ≫= record_version | _, _ => None end = Some v ->
      md ≫= acknowledgementVersion = Some v.
Proof.
  intros [Hstore Hplain Hversion _] Hparsed Hser Happly Hstored Htime Hdata Htype.
  unfold persisted_data in Hstored. rewrite Hstore, andb_true_r in Hstored. cbv iota in Hstored.
  destruct (conflictStrategy s), (baseVersion m) as [base|], (result ≫= record_version) as [version|] eqn:Hv.
  2-8: injection Hstored as <-; destruct (recognized_plain row m) as [Hd Hm]; try done; by exists None.
  assert (decode_parsed (JObj (data m)) = (None, JObj (data m))) as Hpayload.
  { unfold decode_parsed in *. repeat case_match; done. }
  rewrite decode_serialized, Hpayload in Hstored by done. cbn [mbind result_bind snd] in Hstored.
  apply result_bind_Ok in Hstored as (client & Hclient & [= <-]). edestruct (recognized_tracked row m) as [Hd Hm]; [exact Hparsed| |exact Hclient|..|exact Hdata|].
  { cbn. intros v [= <-]. destruct result as [result|]; [|done]. by eapply Hversion. }
  1-2: done.
  eexists. split; [exact Hd|]. split; [exact Hm|]. done.
Qed.

(** The parts of a response. *)
Abbreviation response_of id state v :=
  (field "id" id ++ [("syncState", JStr state)] ++ field "serverVersion" v).

Lemma response_id id id' state v state' v' :
  id = id' -> obj_get "id" (response_of id state v) = obj_get "id" (response_of id' state' v').
Proof. intros <-. by destruct id, v, v'. Qed.
Lemma response_state id state v : obj_get "syncState" (response_of id state v) = Some (JStr state).
Proof. by destruct id. Qed.
Lemma response_version id state v : obj_get "serverVersion" (response_of id state v) = v.
Proof. by destruct id, v. Qed.

(** The state after three awaits. *)
Definition only_others (st : replay_state D) : replay_state D := disturbed s (disturbed s (disturbed s st)).

(** Sending the mutation again. *)
Lemma duplicate_entry actor n raw m row md (st : replay_state D) : leaves_alone actor m ->
  normalizeReplaySync (parse_date s) (now s n) raw = Ok (inl m) ->
  (authorizeReplayMutation s actor m (domain (disturbed s st))).1 = true ->
  List.find (same_resource actor m) (sync_rows st) = Some row ->
  row_client_updated_at (row_values row) = StoredDate (clientUpdatedAt m) ->
  isDuplicateReplayMutation s (Some row) m = Ok true -> replayPersistedMetadata (Some row) = Ok md ->
  (forall r d, routing s = Some r -> exists found, find_routed r m d = (Ok found, d)) ->
  exists version, replay_entry s actor n raw st =
    (Ok (field "id" (mutation_id m) ++ [("syncState", JStr "duplicate")] ++ field "serverVersion" version),
     only_others st) /\
    forall v, md ≫= acknowledgementVersion = Some v -> version = Some v.
Proof.
  intros Halone Hm Hauth Hfind Htime Hdup Hmd Hread.
  assert (shouldApplyReplayMutation s (Some row) m = false) as Happ.
  { unfold shouldApplyReplayMutation. cbn. rewrite Htime. apply Z.ltb_irrefl. }
  assert (exists result, safe_failure (skippedReplayMutation s (Some row) m) (only_others st) =
    (Ok (inl result), only_others st) /\ result ≫= result_conflict = None) as (result & Hskip & Hconflict).
  { generalize (only_others st). intros st'.
    unfold safe_failure, on_domain, skippedReplayMutation. rewrite Hdup. unfold mbind, ST_bind, lift_result. cbn.
    destruct (routing s) as [r|] eqn:Hr; [|exists None; by destruct st'].
    destruct (Hread r (domain st')) as [found Hfound]; [done|]. rewrite Hfound. cbn.
    eexists. split; [by destruct st'|]. by destruct found. }
  exists (match md with
          | Some md => acknowledgementVersion md
          | None => match conflictStrategy s, baseVersion m with
                    | true, Some _ => result ≫= record_version | _, _ => None end
          end).
  split; [|by destruct md].
  unfold replay_entry. rewrite Hm.
  apply ST_bind_Ok. eexists _, st. split; [done|]. cbv iota beta.
  apply ST_bind_Ok. exists tt, (disturbed s st). split; [done|].
  apply ST_bind_Ok. eexists _, (disturbed s st). split; [done|]. rewrite Hauth. cbn [negb].
  apply ST_bind_Ok. exists tt, (disturbed s (disturbed s st)). split; [done|].
  apply ST_bind_Ok. eexists _, (disturbed s (disturbed s st)). split; [done|].
  rewrite !disturbed_find, Hfind, Happ by done.
  apply ST_bind_Ok. eexists true, (disturbed s (disturbed s st)). split; [unfold lift_result; by rewrite Hdup|].
  apply ST_bind_Ok. exists tt, (only_others st). split; [done|].
  apply ST_bind_Ok. eexists _, (only_others st). split; [exact Hskip|]. cbv iota beta.
  unfold acknowledge. rewrite Hconflict.
  apply ST_bind_Ok. exists tt, (only_others st). split.
  { unfold persistReplayMutation. apply ST_bind_Ok. eexists _, (only_others st).
    split; [unfold persisted_data, lift_result; rewrite andb_false_r; reflexivity|].
    cbn [existingReplaySyncClientUpdatedAt]. rewrite Htime. by rewrite Z.leb_refl. }
  apply ST_bind_Ok. exists tt, (only_others st). split; [done|].
  apply ST_bind_Ok. exists md, (only_others st). split; [unfold lift_result; by rewrite Hmd|]. done.
Qed.

(** C26: Sending a mutation again. The application stores the data of a mutation as it
    came, and the data does not look like an acknowledgement ([plain_storage]; without it,
    [marked_data_is_not_recognized]); the client names the time of the mutation. The
    mutation was applied and answered as successful. It is sent again while its row has
    not been written since and the client is still authorized. Then it is answered as a
    duplicate, with the identifier and the version that were acknowledged, and the request
    changes nothing: what changes meanwhile is the work of others, who in both requests
    may write anything but the rows of this resource between any two database calls. *)
Theorem replayed_once actor n n' raw m st response st1 row st2 :
  others_respect s -> leaves_alone actor m ->
  rows_ok st -> explicit_time raw -> plain_storage m ->
  normalizeReplaySync (parse_date s) (now s n) raw = Ok (inl m) ->
  shouldApplyReplayMutation s (List.find (same_resource actor m) (sync_rows st)) m = true ->
  replay_entry s actor n raw st = (Ok response, st1) ->
  obj_get "syncState" response = Some (JStr "successful") ->
  List.find (same_resource actor m) (sync_rows st1) = Some row ->
  List.find (same_resource actor m) (sync_rows st2) = Some row ->
  (authorizeReplayMutation s actor m (domain (disturbed s st2))).1 = true ->
  exists response', replay_entry s actor n' raw st2 = (Ok response', only_others st2) /\
    obj_get "id" response' = obj_get "id" response /\
    obj_get "syncState" response' = Some (JStr "duplicate") /\
    forall v, obj_get "serverVersion" response = Some v -> obj_get "serverVersion" response' = Some v.
Proof.
  intros Hrespect Halone Hok Hraw Hplain Hm Happ Hrun Hstate Hrow1 Hrow2 Hauth.
  destruct (normalize_data _ _ _ _ Hm) as [Hparsed Hser].
  destruct (applied_entry _ _ _ _ _ _ _ Hrespect Halone Hok Hm Happ Hrun Hstate) as
    (result & d & d' & stored & extra & q & sw & Happly & Hstored & Hokw & _ & Hex & Hrows & ->).
  rewrite Hrows in Hrow1.
  destruct (find_written actor m (with_data stored extra (replayPersistAttributes actor m)) _ q sw Hokw Hex)
    as (row' & Hfound & _ & Htime & Hdata & Htype); [done..|]. rewrite Hfound in Hrow1. injection Hrow1 as ->.
  destruct (stored_is_recognized _ _ _ _ _ _ _ _ Hplain Hparsed Hser Happly Hstored Htime Hdata Htype) as
    (md & Hdup & Hmd & Hversion).
  rewrite (normalize_explicit _ _ n') in Hm by done.
  destruct (duplicate_entry _ _ _ _ _ md _ Halone Hm Hauth Hrow2 Htime Hdup Hmd) as (version & Hagain & Hsame);
    [apply Hplain|].
  eexists. split; [exact Hagain|].
  rewrite !response_state. split_and!; [by apply response_id|done|].
  intros v. rewrite !response_version. intros Hv. by apply Hsame, Hversion.
Qed.
End again.

(** ** A small application *)

(** Its records are a counter of the mutations applied; the version is always "v1". *)
Definition demo_service : @replay_service nat := {|
  parse_date := fun text => if bool_decide (text = "noon"%string) then Some 100 else None;
  now := fun _ => 500; find_token := fun t => Some t; authenticationTokenParam := "token";
  authorizeReplayMutation := fun _ _ _ => (true, None);
  applyHandlers := Some (fun type => if bool_decide (type = "Task"%string)
    then Some (fun _ _ _ d => (Ok (Some {| result_conflict := None; record_version := Some (JStr "v1"); result_extras := [] |}), S d))
    else None);
  routing := None; conflictStrategy := true;
  persistExtraAttributes := fun _ _ _ => [("eventId", JStr "e")]; persistSerializedData := fun _ _ => None;
  broadcasts := []; others := fun _ st => st |}.

(** The same while another client's rows are written in every await. *)
Definition with_others {D} (s : @replay_service D) f : @replay_service D := {|
  parse_date := parse_date s; now := now s; find_token := find_token s;
  authenticationTokenParam := authenticationTokenParam s;
  authorizeReplayMutation := authorizeReplayMutation s; applyHandlers := applyHandlers s;
  routing := routing s; conflictStrategy := conflictStrategy s;
  persistExtraAttributes := persistExtraAttributes s; persistSerializedData := persistSerializedData s;
  broadcasts := broadcasts s; others := f |}.

Definition other_attributes : row_attributes := {|
  row_actor := JStr "v"; row_client_updated_at := StoredDate 1; row_data := JStr "{}"; row_resource_id := "8";
  row_resource_type := "Task"; row_sync_type := "update"; row_extra := [("eventId", JStr "e")] |}.

Definition other_row {D} (st : replay_state D) : sync_row :=
  {| row_key := last_key st + 1; row_sequence := last_sequence st + 1; row_values := other_attributes |}.

Definition others_write {D} (n : nat) (st : replay_state D) : replay_state D := {|
  domain := domain st; sync_rows := sync_rows st ++ [other_row st];
  last_key := last_key st + 1; last_sequence := last_sequence st + 1; broadcasted := broadcasted st;
  pending := pending st; awaits := awaits st |}.

Definition busy_service : @replay_service nat := with_others demo_service others_write.

Lemma busy_respects {D} (s : @replay_service D) : others_respect (with_others s others_write).
Proof.
  intros st [Hk Hkg Hs Hsg Hn Hp]. unfold disturbed. cbn. split; [|lia].
  split; cbn; try lia.
  - rewrite map_app. apply NoDup_app. split; [done|]. split; [|apply NoDup_singleton].
    intros k (r & -> & Hr)%list_elem_of_fmap. cbn. rewrite list_elem_of_singleton. specialize (Hkg r Hr). lia.
  - intros r [Hr| ->%list_elem_of_singleton]%elem_of_app; cbn; [specialize (Hkg r Hr)|]; lia.
  - rewrite map_app. apply NoDup_app. split; [done|]. split; [|apply NoDup_singleton].
    intros k (r & -> & Hr)%list_elem_of_fmap. cbn. rewrite list_elem_of_singleton. specialize (Hsg r Hr). lia.
  - intros r [Hr| ->%list_elem_of_singleton]%elem_of_app; cbn; [specialize (Hsg r Hr)|]; lia.
  - intros q Hq. destruct (Hp q Hq) as [Hb Hf]. split; [lia|].
    intros r [Hr| ->%list_elem_of_singleton]%elem_of_app; cbn; [by apply Hf|lia].
Qed.

Definition demo_entry (time : string) : json := JObj
  [("id", JStr "m1"); ("resourceType", JStr "Task"); ("resourceId", JStr "7"); ("syncType", JStr "update");
   ("clientUpdatedAt", JStr time); ("baseVersion", JStr "v0"); ("data", JObj [("title", JStr "a")])].

Definition demo_start : replay_state nat :=
  {| domain := 0%nat; sync_rows := []; last_key := 0; last_sequence := 0; broadcasted := [];
     pending := None; awaits := 0 |}.

Definition demo_mutation : SyncReplayMutation := {|
  baseVersion := Some (JStr "v0"); clientMutationId := None; clientUpdatedAt := 100;
  data := [("title", JStr "a")]; mutation_id := Some (JStr "m1"); resourceId := "7"; resourceType := "Task";
  serializedData := stringify (JObj [("title", JStr "a")]); syncType := "update" |}.

Definition demo_response (state : string) : properties :=
  [("id", JStr "m1"); ("syncState", JStr state); ("serverVersion", JStr "v1")].

Lemma demo_plain : plain_storage busy_service demo_mutation.
Proof.
  split; [done|done| |done]. intros actor existing d result d' v [= <- _] [= <-]. by split; constructor.
Qed.

Lemma busy_leaves_alone : leaves_alone busy_service (JStr "u") demo_mutation.
Proof.
  intros n st. cbn. rewrite List.filter_app. cbn [List.filter]. unfold same_resource. cbn. by rewrite app_nil_r.
Qed.

Lemma demo_start_ok : rows_ok demo_start.
Proof. split; cbn; first [apply NoDup_nil_2 | lia | by intros ? ?%elem_of_nil | done]. Qed.

Lemma replayed_once_witness :
  let r := replay_entry busy_service (JStr "u") 0 (demo_entry "noon") demo_start in
  r.1 = Ok (demo_response "successful") /\ domain r.2 = 1%nat /\ length (sync_rows r.2) = 7%nat /\
  exists response', replay_entry busy_service (JStr "u") 3 (demo_entry "noon") r.2 =
      (Ok response', only_others busy_service r.2) /\
    obj_get "syncState" response' = Some (JStr "duplicate") /\
    obj_get "serverVersion" response' = Some (JStr "v1").
Proof.
  intros r. split; [vm_compute; reflexivity|]. split; [vm_compute; reflexivity|]. split; [vm_compute; reflexivity|].
  destruct (replayed_once busy_service (JStr "u") 0 3 (demo_entry "noon") demo_mutation demo_start
    (demo_response "successful") r.2 (default {| row_key := 0; row_sequence := 0;
      row_values := replayPersistAttributes JNull demo_mutation |} (sync_rows r.2 !! 5%nat)) r.2) as
    (response' & Hrun & _ & Hstate & Hversion).
  - apply busy_respects.
  - apply busy_leaves_alone.
  - apply demo_start_ok.
  - by eexists _, _, _.
  - apply demo_plain.
  - vm_compute. reflexivity.
  - vm_compute. reflexivity.
  - vm_compute. reflexivity.
  - reflexivity.
  - vm_compute. reflexivity.
  - vm_compute. reflexivity.
  - reflexivity.
  - exists response'. split; [exact Hrun|]. split; [exact Hstate|]. by apply Hversion.
Defined.

(** A mutation whose data has the shape of an acknowledgement is not recognized when it is
    sent again: it is answered as successful, and not as a duplicate. *)
Definition marked_entry : json := JObj
  [("id", JStr "m1"); ("resourceType", JStr "Task"); ("resourceId", JStr "7"); ("syncType", JStr "update");
   ("clientUpdatedAt", JStr "noon"); ("data", JObj
     [(METADATA_KEY, JObj [("clientMutationId", JStr "x"); ("payloadFingerprint", JStr "y")]);
      (PAYLOAD_KEY, JStr "shown")])].

Example marked_data_is_not_recognized :
  let r := replay_entry demo_service (JStr "u") 0 marked_entry demo_start in
  let r' := replay_entry demo_service (JStr "u") 1 marked_entry r.2 in
  r'.1 = Ok [("id", JStr "m1"); ("syncState", JStr "successful")] /\ domain r'.2 = 1%nat /\
  map (fun row => decodeReplayPersistedData (row_data (row_values row))) (sync_rows r'.2) =
    [Ok (Some {| acknowledgementVersion := None; metadata_client := "x"; payloadFingerprint := "y" |}, JStr "shown")].
Proof. vm_compute. done. Qed.

(** Two mutations of a record with the same time: the second is answered as successful,
    and is neither applied nor stored. *)
Definition other_entry : json := JObj
  [("id", JStr "m2"); ("resourceType", JStr "Task"); ("resourceId", JStr "7"); ("syncType", JStr "update");
   ("clientUpdatedAt", JStr "noon"); ("data", JObj [("title", JStr "b")])].

Example same_time_is_dropped :
  let r := replay_entry demo_service (JStr "u") 0 (demo_entry "noon") demo_start in
  let r' := replay_entry demo_service (JStr "u") 1 other_entry r.2 in
  r'.1 = Ok [("id", JStr "m2"); ("syncState", JStr "successful")] /\ domain r'.2 = domain r.2 /\
  sync_rows r'.2 = sync_rows r.2.
Proof. vm_compute. done. Qed.

(** A row whose data an application stores as text that is not JSON fails the whole batch
    of a client that sends the mutation again. *)
Definition text_service : @replay_service nat := {|
  parse_date := parse_date demo_service; now := now demo_service; find_token := find_token demo_service;
  authenticationTokenParam := "token"; authorizeReplayMutation := authorizeReplayMutation demo_service;
  applyHandlers := applyHandlers demo_service; routing := None; conflictStrategy := false;
  persistExtraAttributes := persistExtraAttributes demo_service;
  persistSerializedData := fun _ _ => Some (JStr "plain"); broadcasts := []; others := fun _ st => st |}.

Example text_row_fails_the_batch :
  let params := [("token", JStr "u"); ("syncs", JArr [demo_entry "noon"; other_entry])] in
  (replay text_service params (replay text_service params demo_start).2).1 = Throw BadPersistedData.
Proof. vm_compute. done. Qed.

(** Two devices of an actor write a record at the same time. The second one's data is what
    the row held when its batch loaded it, and is not written: the row ends with the data
    of the first device and the time of the second, whose mutation is acknowledged. *)
Definition plain_entry (time : properties) : json := JObj
  ([("resourceType", JStr "Task"); ("resourceId", JStr "7"); ("syncType", JStr "update");
    ("data", JObj [("title", JStr "a")])] ++ time).

Definition title_text (t : string) : json := JStr (stringify (JObj [("title", JStr t)])).

Definition first_device (n : nat) (st : replay_state nat) : replay_state nat :=
  if bool_decide (n = 10)%nat then {|
    domain := domain st; sync_rows := map (fun r => {| row_key := row_key r; row_sequence := last_sequence st + 1;
      row_values := with_data (title_text "b") [] (row_values r) |}) (sync_rows st);
    last_key := last_key st; last_sequence := last_sequence st + 1; broadcasted := broadcasted st;
    pending := pending st; awaits := awaits st |}
  else st.

Example columns_of_two_devices :
  let s := with_others demo_service first_device in
  let r := replay_entry s (JStr "u") 0 (plain_entry [("clientUpdatedAt", JStr "noon")]) demo_start in
  let r' := replay_entry s (JStr "u") 1 (plain_entry []) r.2 in
  awaits r.2 = 6%nat /\ is_Ok r'.1 = true /\
  map (fun row => (row_data (row_values row), row_client_updated_at (row_values row))) (sync_rows r.2) =
    [(title_text "a", StoredDate 100)] /\
  map (fun row => (row_data (row_values row), row_client_updated_at (row_values row))) (sync_rows r'.2) =
    [(title_text "b", StoredDate 500)].
Proof. vm_compute. done. Qed.
