(* ===== verification/ReplayFeed.v ===== *)
(** * From one client to another: replay, change feed and pull together

    [SyncModelChangeFeedService] serves the sync rows that [SyncEnvelopeReplayService]
    writes. Here the table of [ModelChangeFeed.v] is the one of [EnvelopeReplay.v], its
    rows are serialized by [defaultSerializeRecord]
    ([src/src/sync/sync-model-change-feed-service.js], with
    [src/src/sync/sync-scope-attributes.js]), and the client of [SyncPull.v] pulls
    them: what one client had acknowledged reaches every other.

    Parameters: [localeCompare], which orders the keys of a serialized row, and the
    time of the last update of a row, which the model of the rows does not keep. *)

From stdpp Require Import base functions gmap strings list sorting.
From Stdlib Require Import ZArith QArith Ascii Lia.
From S2P Require Import Prelude Json Dates StableJson Numbers ConflictStrategy SyncReplay ModelChangeFeed SyncPull SyncPullCorrect EnvelopeReplay EnvelopeReplayCorrect.
Open Scope Z_scope.

Section serialize.
Context (localeCompare : string -> string -> Z) (updated_at : sync_row -> Z).

(** [declaredSyncScopeAttributes], for a static attribute that is absent or an array. *)
Definition declaredSyncScopeAttributes (declared : option (list json)) : replayed (option (list string)) :=
  match declared with
  | None => Ok None
  | Some [] => Throw (Unexpected "syncScopeAttributes must be a non-empty array")
  | Some names =>
      match mapM (fun v => nonempty_string (Some v)) names with
      | Some attributes => Ok (Some attributes)
      | None => Throw (Unexpected "syncScopeAttributes must be a non-empty array")
      end
  end.

(** [recordData] *)
Definition recordData (row : sync_row) : replayed json :=
  match row_data (row_values row) with
  | JNull | JStr "" => Ok JNull
  | v => d ← decodeReplayPersistedData v; Ok d.2
  end.

(** [recordValue]: a column of a row. *)
Definition recordValue (row : sync_row) (name : string) : replayed json :=
  match obj_get name (
      [("data", row_data (row_values row)); ("id", JNum (decimal_text (row_key row)));
       ("resourceId", JStr (row_resource_id (row_values row)));
       ("resourceType", JStr (row_resource_type (row_values row)));
       ("serverSequence", JNum (decimal_text (EnvelopeReplay.row_sequence row)));
       ("syncType", JStr (row_sync_type (row_values row)));
       ("updatedAt", JStr (toISOString (updated_at row)))] ++ row_extra (row_values row)) with
  | Some v => Ok v
  | None => Throw (Unexpected ("Sync changes row is missing " +:+ name +:+ "."))
  end.

Definition key_order : relation (string * json) := fun a b => localeCompare a.1 b.1 <= 0.

#[export] Instance key_order_dec : RelDecision key_order.
Proof. unfold key_order. intros a b. apply _. Defined.

(** [Object.fromEntries(Object.entries(serialized).sort(...))] *)
Definition sorted_entries (l : properties) : properties :=
  fold_left (fun acc kv => obj_define kv.1 kv.2 acc) (merge_sort key_order l) [].

Fixpoint scope_members (scope : list string) (row : sync_row) (l : properties) : replayed properties :=
  match scope with
  | [] => Ok l
  | name :: scope => v ← recordValue row name; scope_members scope row (obj_define name v l)
  end.

Definition defaultSerializeRecord (declared : option (list json)) (row : sync_row) : replayed properties :=
  scope ← declaredSyncScopeAttributes declared;
  payload ← recordData row;
  serialized ← scope_members (default ["eventId"] scope) row
    [("data", payload); ("id", JNum (decimal_text (row_key row)));
     ("resourceId", JStr (row_resource_id (row_values row)));
     ("resourceType", JStr (row_resource_type (row_values row)));
     ("serverSequence", JNum (decimal_text (EnvelopeReplay.row_sequence row)));
     ("syncType", JStr (row_sync_type (row_values row)));
     ("updatedAt", JStr (toISOString (updated_at row)))];
  Ok (sorted_entries serialized).
End serialize.

(** ** The serialized row *)

Lemma obj_get_define_all {A} (l acc : list (string * A)) k : NoDup l.*1 ->
  obj_get k (fold_left (fun acc kv => obj_define kv.1 kv.2 acc) l acc) =
  match obj_get k l with Some v => Some v | None => obj_get k acc end.
Proof.
  revert acc. induction l as [|[k' v] l IH]; intros acc; cbn; [done|].
  intros [Hk Hd]%NoDup_cons. rewrite IH by done. rewrite obj_get_define. case_decide; [subst|done].
  destruct (obj_get k' l) eqn:Hg; [|done]. exfalso. apply Hk, obj_get_keys. eauto.
Qed.

Lemma obj_get_Permutation {A} (l l' : list (string * A)) k : NoDup l.*1 -> l ≡ₚ l' -> obj_get k l = obj_get k l'.
Proof.
  intros Hn Hp. induction Hp as [|[k' v] l l' Hp IH|[k1 v1] [k2 v2] l|l1 l2 l3 H12 IH12 H23 IH23]; cbn in *.
  - done.
  - apply NoDup_cons in Hn as [_ Hn]. by rewrite IH.
  - rewrite !NoDup_cons, elem_of_cons in Hn. case_decide; case_decide; subst; try done. naive_solver.
  - rewrite IH12 by done. apply IH23. by rewrite <- H12.
Qed.

Section serialized.
Context (localeCompare : string -> string -> Z) (updated_at : sync_row -> Z).

Lemma obj_get_sorted l k : NoDup l.*1 -> obj_get k (sorted_entries localeCompare l) = obj_get k l.
Proof.
  intros Hn. unfold sorted_entries.
  assert (merge_sort (key_order localeCompare) l ≡ₚ l) as Hp by apply merge_sort_Permutation.
  rewrite obj_get_define_all by by rewrite Hp. rewrite (obj_get_Permutation l _ k Hn (symmetry Hp)).
  by destruct (obj_get k _).
Qed.

Lemma scope_members_get scope row l l' : scope_members updated_at scope row l = Ok l' -> ordinary_order l ->
  ordinary_order l' /\ forall k, k ∉ scope -> obj_get k l' = obj_get k l.
Proof.
  revert l. induction scope as [|name scope IH]; intros l; cbn [scope_members].
  { intros [= <-]. done. }
  intros (v & _ & H)%result_bind_Ok Ho. destruct (IH _ H) as [Ho' Hget]; [by apply ordinary_order_define|].
  split; [done|]. intros k [Hk Hks]%not_elem_of_cons. rewrite Hget by done. rewrite obj_get_define.
  by rewrite decide_False.
Qed.

(** A serialized row carries its payload and names its resource. *)
Lemma serialized_members declared scope row l :
  declaredSyncScopeAttributes declared = Ok scope -> defaultSerializeRecord localeCompare updated_at declared row = Ok l ->
  (forall k, k ∈ ["data"; "resourceId"; "resourceType"; "syncType"] -> k ∉ default ["eventId"] scope) ->
  recordData row = Ok (default JNull (obj_get "data" l)) /\
  obj_get "resourceId" l = Some (JStr (row_resource_id (row_values row))) /\
  obj_get "resourceType" l = Some (JStr (row_resource_type (row_values row))) /\
  obj_get "syncType" l = Some (JStr (row_sync_type (row_values row))).
Proof.
  intros Hscope H Hnames. unfold defaultSerializeRecord in H. rewrite Hscope in H. cbn [mbind result_bind] in H.
  apply result_bind_Ok in H as (payload & -> & (l' & H & [= <-])%result_bind_Ok).
  apply scope_members_get in H as [Ho Hget]; [|by apply ordinary_order_names].
  rewrite !obj_get_sorted by by apply ordinary_order_NoDup.
  rewrite !Hget by (apply Hnames; set_solver). done.
Qed.
End serialized.

(** ** The feed over the rows of the replay service *)

(** What an application and its engine supply to the feed; [declared_scope] is the static
    attribute of the sync model. *)
Record feed_options := {
  default_limit : Z;
  max_limit : Z;
  visible : sync_row -> bool;
  declared_scope : option (list json);
  locale_compare : string -> string -> Z;
  updated_at : sync_row -> Z;
  newer_than : sync_row -> string -> bool;
  as_old_as : sync_row -> string -> bool;
  later_id : sync_row -> string -> bool
}.

Section feed.
Context (o : feed_options).

(** The row as it is served; [feed_history] rows are serializable ([serializable]), so
    that the empty envelope stands for no row of a page. *)
Definition feed_envelope (row : sync_row) : envelope :=
  match defaultSerializeRecord (locale_compare o) (updated_at o) (declared_scope o) row with
  | Ok l => l
  | Throw _ => []
  end.

Definition row_feed : service sync_row := {|
  defaultLimit := default_limit o; maxLimit := max_limit o;
  row_id row := decimal_text (row_key row); ModelChangeFeed.row_sequence := EnvelopeReplay.row_sequence;
  row_updatedAt := updated_at o; in_scope := visible o;
  serializeRecord row := JObj (feed_envelope row);
  updated_after := newer_than o; updated_equal := as_old_as o; id_after := later_id o |}.
End feed.

(** The tables that the queries of a pull read: the keys and sequences of their rows are
    unique, and their rows can be served. [replay_keeps] shows the first of any number of
    requests that overlap; nothing is said of what changes from one table to the next. *)
Record served_tables {D} (o : feed_options) (h : nat -> replay_state D) : Prop := {
  tables_ok : forall n, rows_ok (h n);
  sequences_safe : forall n, last_sequence (h n) < 2 ^ 53;
  few_rows : forall n, Z.of_nat (length (sync_rows (h n))) < 2 ^ 53;
  serializable : forall n row, row ∈ sync_rows (h n) ->
    exists l, defaultSerializeRecord (locale_compare o) (updated_at o) (declared_scope o) row = Ok l
}.

Section composed.
Context {D : Type} (s : @replay_service D) (o : feed_options).

Lemma served_feed_history (h : nat -> replay_state D) : served_tables o h ->
  feed_history (row_feed o) (fun n => sync_rows (h n)).
Proof.
  intros Hh. pose proof (tables_ok _ _ Hh) as Hok. split; cbn.
  - intros n. apply Hok.
  - intros n r Hr. pose proof (row_sequences_given _ (Hok n) r Hr). pose proof (sequences_safe _ _ Hh n). lia.
  - apply Hh.
Qed.

(** The row an acknowledged mutation was written to. *)
Lemma acknowledged_row actor n raw m st response st1 :
  others_respect s -> leaves_alone s actor m -> rows_ok st -> plain_storage s m ->
  normalizeReplaySync (parse_date s) (now s n) raw = Ok (inl m) ->
  shouldApplyReplayMutation s (List.find (same_resource actor m) (sync_rows st)) m = true ->
  replay_entry s actor n raw st = (Ok response, st1) ->
  obj_get "syncState" response = Some (JStr "successful") ->
  exists row, row ∈ sync_rows st1 /\ same_resource actor m row = true /\
    last_sequence st < EnvelopeReplay.row_sequence row /\ row_sync_type (row_values row) = syncType m /\
    recordData row = Ok (JObj (data m)).
Proof.
  intros Hrespect Halone Hok Hplain Hm Happ Hrun Hstate. destruct (normalize_data _ _ _ _ Hm) as [Hparsed Hser].
  destruct (applied_entry _ _ _ _ _ _ _ _ Hrespect Halone Hok Hm Happ Hrun Hstate) as
    (result & d & d' & stored & extra & q & sw & Happly & Hstored & Hokw & Hq & Hex & Hrows & _).
  destruct (find_written actor m (with_data stored extra (replayPersistAttributes actor m)) _ q sw Hokw Hex)
    as (row & Hfound & Hseq & _ & Hdata & Htype); [done..|]. rewrite <- Hrows in Hfound.
  apply find_some in Hfound as [Hin Hsame]. exists row. split; [by apply list_elem_of_In|].
  split_and!; [done|by rewrite Hseq|done|].
  destruct (stored_payload _ _ _ _ _ _ _ _ Hplain Hparsed Hser Happly Hstored) as (text & md & -> & Hne & Hdecode).
  unfold recordData. rewrite Hdata. cbn [row_data with_data]. destruct text; [done|]. by rewrite Hdecode.
Qed.
End composed.

(** The partition of the feed is not named as a column every row is served with. *)
Definition partition_apart (o : feed_options) : Prop := exists scope,
  declaredSyncScopeAttributes (declared_scope o) = Ok scope /\
  forall k, k ∈ ["data"; "resourceId"; "resourceType"; "syncType"] -> k ∉ default ["eventId"] scope.


(** ** Two clients

    One has a task updated, while rows of others are written in every await; the other had
    pulled nothing. Between the queries of its pull another batch is replayed. *)

Definition byte_order (a b : string) : Z :=
  match String.compare a b with Lt => -1 | Eq => 0 | Gt => 1 end.

Definition demo_options : feed_options := {|
  default_limit := 100; max_limit := 1000; visible _ := true; declared_scope := None;
  locale_compare := byte_order; updated_at _ := 0; newer_than _ _ := false; as_old_as _ _ := false;
  later_id _ _ := false |}.

Definition acknowledged_state : replay_state nat :=
  (replay_entry busy_service (JStr "u") 0 (demo_entry "noon") demo_start).2.

Definition other_batch : properties :=
  [("token", JStr "u"); ("syncs", JArr [JObj [("resourceType", JStr "Task"); ("resourceId", JStr "8");
     ("syncType", JStr "create"); ("clientUpdatedAt", JStr "noon")]])].

Definition demo_states (n : nat) : replay_state nat :=
  if decide (n < 2)%nat then acknowledged_state
  else (replay busy_service other_batch acknowledged_state).2.

Lemma demo_served_tables : served_tables demo_options demo_states.
Proof.
  assert (rows_ok acknowledged_state) as Hok.
  { apply (replay_entry_keeps busy_service (busy_respects _) _ _ _ 0 demo_start). split; [apply demo_start_ok|done]. }
  split.
  - intros n. unfold demo_states. case_decide; [done|].
    apply (replay_keeps busy_service (busy_respects _) _ 0 acknowledged_state). split; [done|apply Hok].
  - intros n. unfold demo_states. case_decide; vm_compute; reflexivity.
  - intros n. unfold demo_states. case_decide; vm_compute; reflexivity.
  - intros n row Hrow. assert (forallb (fun row => is_Ok (defaultSerializeRecord byte_order (fun _ => 0) None row))
      (sync_rows (demo_states n)) = true) as Hall.
    { unfold demo_states. case_decide; vm_compute; reflexivity. }
    rewrite forallb_forall in Hall. specialize (Hall row). rewrite <- list_elem_of_In in Hall. specialize (Hall Hrow).
    cbn [demo_options locale_compare updated_at declared_scope].
    destruct (defaultSerializeRecord _ _ _ row) as [l|]; [by eexists|done].
Qed.


(** While a batch has taken the sequence of a new row and has not written it, another row
    is written and a client pulls it: its cursor then stands beyond the row, and no later
    pull brings it, although the mutation is acknowledged. *)
Definition during_the_save (n : nat) (st : replay_state nat) : replay_state nat :=
  if bool_decide (n = 4)%nat then others_write n st else st.

Example cursor_stored_meanwhile :
  let pull (rows : list sync_row) (l : cursor_store nat) :=
    pullChangesWithCursor "t" "cursor" (of_Z 5) (served (row_feed demo_options) (fun _ => rows))
      demo_apply demo_integer 10 {| local := l; requests := 0; applied := []; progress := [] |} in
  let done := replay_entry (with_others EnvelopeReplayCorrect.demo_service during_the_save)
    (JStr "u") 0 (demo_entry "noon") demo_start in
  let first := pull (take 1 (sync_rows done.2)) demo_store in
  let later := pull (sync_rows done.2) (local first.2) in
  done.1 = Ok (demo_response "successful") /\
  map EnvelopeReplay.row_sequence (sync_rows done.2) = [2; 1] /\
  length (applied first.2) = 1%nat /\ is_Ok later.1 = true /\ applied later.2 = [].
Proof. vm_compute. done. Qed.
