(* ===== verification/SyncQueue.v ===== *)
(** * The queue of local changes ([src/src/sync/sync-api-client.js])

    [queueLocalSync] keeps one row per changed resource in a local table;
    [replayLocalSyncs] sends the pending rows in batches and marks those the server
    acknowledges. Changes may be queued while a batch is on its way: a row that differs
    from what was sent stays pending. [singleFlight] keeps two drains apart, and
    [applyResourceSync] writes a pulled row to a model.

    Rows are a map from their id; the engine lists them in any order. The calls of others
    are events that happen while the drain awaits ([others]); a call is one event.
    Parameters: the server, the resources of the application and their attributes, the
    clock, and [optionalBoolean] of the package typanic. A row that is updated gets a new
    [updatedAt], as [database/record/index.js] does. *)

From stdpp Require Import base functions gmap strings list sorting.
From Stdlib Require Import ZArith Ascii QArith Qround Lia.
From S2P Require Import Prelude Json Dates Numbers ConflictStrategy SyncReplay.
Open Scope Z_scope.

Inductive queue_error :=
| ReplayFailed (e : replay_error)
| NoModelName
| MissingResourceId
| NotABoolean (description : string)
| InvalidData.

Abbreviation queued A := (result queue_error A).

Definition of_answer {A} (r : answer A) : queued A :=
  match r with Ok a => Ok a | Throw e => Throw (ReplayFailed e) end.

(** ** The data of a queued change *)

(** The value of an attribute. *)
Inductive attribute := Value (v : json) | DateValue (t : Z).

Abbreviation attributes := (list (string * attribute)).

(** [optionalBooleanSyncValue] *)
Definition optionalBooleanSyncValue (optionalBoolean : attribute -> option json) (v : attribute)
    (description : string) : queued attribute :=
  let other := match optionalBoolean v with Some b => Ok (Value b) | None => Throw (NotABoolean description) end in
  match v with
  | Value JNull => Ok (Value JNull)
  | Value (JNum n) =>
      match Number_integer n with
      | Some 1 => Ok (Value (JBool true))
      | Some 0 => Ok (Value (JBool false))
      | _ => other
      end
  | _ => other
  end.

Definition sqliteBooleanSyncValue (value : option bool) : Z :=
  match value with Some true => 1 | _ => 0 end.

Record queue_args := {
  args_model : option string;              (* resource.constructor.getModelName() *)
  args_id : json;                          (* resource.id() *)
  args_attributes : attributes;            (* resource.attributes() *)
  args_data : option attributes;
  args_syncType : string;
  args_localOnly : list string;
  args_booleans : list string;
  args_normalize : option (attributes -> attributes);
  args_now : Z                             (* when the row is written *)
}.

Definition delete_property {A} (name : string) (l : list (string * A)) : list (string * A) :=
  List.filter (fun kv => negb (bool_decide (kv.1 = name))) l.

Fixpoint coerce_booleans (optionalBoolean : attribute -> option json) (names : list string)
    (l : attributes) : queued attributes :=
  match names with
  | [] => Ok l
  | name :: names =>
      match obj_get name l with
      | Some v =>
          b ← optionalBooleanSyncValue optionalBoolean v name;
          coerce_booleans optionalBoolean names (obj_define name b l)
      | None => coerce_booleans optionalBoolean names l
      end
  end.

(** A date is kept as its ISO text. *)
Definition stored_value (v : attribute) : json :=
  match v with Value v => v | DateValue t => JStr (toISOString t) end.

Definition queuedSyncData (optionalBoolean : attribute -> option json) (a : queue_args) : queued properties :=
  let inputData := default (args_attributes a) (args_data a) in
  let normalizedData := match args_normalize a with Some f => f inputData | None => inputData end in
  let kept := fold_left (fun l name => delete_property name l) (args_localOnly a) normalizedData in
  coerced ← coerce_booleans optionalBoolean (args_booleans a) kept;
  Ok (map (fun kv => (kv.1, stored_value kv.2)) coerced).

(** ** The rows *)

Inductive row_state := Pending | Success.

#[export] Instance row_state_eq_dec : EqDecision row_state.
Proof. solve_decision. Defined.

Record local_sync := {
  sync_id : Z;
  sync_data : json;
  sync_resourceId : string;
  sync_resourceType : string;
  sync_state : row_state;
  sync_syncType : string;
  sync_createdAt : Z;
  sync_updatedAt : option Z
}.

(** A row with the attributes of its preloaded resource; [None] when there is none. *)
Record loaded := { row : local_sync; resource_attributes : option properties }.

(** [Object.keys(data).length > 0]; [None] when it throws. *)
Definition has_keys (v : json) : option bool :=
  match v with
  | JNull => None
  | JBool _ | JNum _ => Some false
  | JStr s => Some (negb (bool_decide (s = "")))
  | JArr l => Some (negb (bool_decide (length l = 0%nat)))
  | JObj l => Some (negb (bool_decide (length l = 0%nat)))
  end.

Definition localSyncData (sync : loaded) : queued json :=
  let data := if is_falsy (sync_data (row sync)) then JObj [] else sync_data (row sync) in
  let syncData := match data with JStr text => default (JObj []) (parse text) | v => v end in
  match has_keys syncData with
  | None => Throw (ReplayFailed NotAnObject)
  | Some true => Ok syncData
  | Some false => Ok (JObj (default [] (resource_attributes sync)))
  end.

Definition snapshot_text (data : json) (syncType : string) : string :=
  stringify (JObj [("data", data); ("syncType", JStr syncType)]).

Definition localSyncReplaySnapshot (sync : loaded) : queued string :=
  data ← localSyncData sync; Ok (snapshot_text data (sync_syncType (row sync))).

Definition localSyncPayload (sync : loaded) : queued properties :=
  data ← localSyncData sync;
  Ok [("clientUpdatedAt", JStr (toISOString (default (sync_createdAt (row sync)) (sync_updatedAt (row sync)))));
      ("data", data); ("id", JNum (decimal_text (sync_id (row sync))));
      ("resourceId", JStr (sync_resourceId (row sync))); ("resourceType", JStr (sync_resourceType (row sync)));
      ("syncType", JStr (sync_syncType (row sync)))].

(** ** The local database and its users *)

Inductive await_point := WhilePosting | BeforeReload | BeforeMark.

Record queue_state (D : Type) := {
  rows : gmap Z local_sync;
  last_id : Z;
  resources : D;
  awaits : nat;
  requests : list (list properties);
  snapshots : gmap Z string                (* postedSnapshotsBySyncId *)
}.
Arguments rows {D} q.
Arguments last_id {D} q.
Arguments resources {D} q.
Arguments awaits {D} q.
Arguments requests {D} q.
Arguments snapshots {D} q.

Inductive local_event (D : Type) := Queue (a : queue_args) | Edit (f : D -> D).
Arguments Queue {D} a.
Arguments Edit {D} f.

Record queue_env (D : Type) := {
  optionalBoolean : attribute -> option json;
  attributes_of : D -> string -> string -> option properties;   (* by type and id *)
  others : await_point -> nat -> list (local_event D);
  postReplay : list (list properties) -> result string properties;  (* the answer to the last request *)
  mark_time : nat -> Z
}.
Arguments optionalBoolean {D} q.
Arguments attributes_of {D} q.
Arguments others {D} q.
Arguments postReplay {D} q.
Arguments mark_time {D} q.

Section queue.
Context {D : Type} (e : queue_env D).

Abbreviation M := (ST (queue_state D) queue_error).

Definition set_rows (m : gmap Z local_sync) (last : Z) (st : queue_state D) : queue_state D := {|
  rows := m; last_id := last; resources := resources st; awaits := awaits st;
  requests := requests st; snapshots := snapshots st |}.

Definition changed_row (data : json) (syncType : string) (now : Z) (r : local_sync) : local_sync := {|
  sync_id := sync_id r; sync_data := data; sync_resourceId := sync_resourceId r;
  sync_resourceType := sync_resourceType r; sync_state := Pending; sync_syncType := syncType;
  sync_createdAt := sync_createdAt r; sync_updatedAt := Some now |}.

Definition find_resource (resourceId resourceType : string) (m : gmap Z local_sync) : option local_sync :=
  List.find (fun r => bool_decide (sync_resourceId r = resourceId) && bool_decide (sync_resourceType r = resourceType))
    (map_to_list m).*2.

Definition queueLocalSync (a : queue_args) : M local_sync :=
  match args_model a with
  | None => throw NoModelName
  | Some resourceType =>
      syncData ← lift_result (queuedSyncData (optionalBoolean e) a);
      let syncType := if bool_decide (args_syncType a = "") then "update" else args_syncType a in
      if is_falsy (args_id a) then throw MissingResourceId else
      resourceId ← lift_result (of_answer (string_of (Some (args_id a))));
      existingSync ← gets (fun st => find_resource resourceId resourceType (rows st));
      match existingSync with
      | Some existing =>
          let updated := changed_row (JObj syncData) syncType (args_now a) existing in
          _ ← modify (fun st => set_rows (<[sync_id existing := updated]> (rows st)) (last_id st) st);
          mret updated
      | None =>
          id ← gets (fun st => last_id st + 1);
          let created := {| sync_id := id; sync_data := JObj syncData; sync_resourceId := resourceId;
            sync_resourceType := resourceType; sync_state := Pending; sync_syncType := syncType;
            sync_createdAt := args_now a; sync_updatedAt := Some (args_now a) |} in
          _ ← modify (fun st => set_rows (<[id := created]> (rows st)) id st);
          mret created
      end
  end.

(** What others do while the drain awaits; their errors are their own. *)
Definition happen (event : local_event D) (st : queue_state D) : queue_state D :=
  match event with
  | Queue a => (queueLocalSync a st).2
  | Edit f => {| rows := rows st; last_id := last_id st; resources := f (resources st); awaits := awaits st;
                 requests := requests st; snapshots := snapshots st |}
  end.

Definition await (at_point : await_point) : M unit := fun st =>
  let st' := fold_left (fun st event => happen event st) (others e at_point (awaits st)) st in
  (Ok tt, {| rows := rows st'; last_id := last_id st'; resources := resources st'; awaits := S (awaits st);
             requests := requests st'; snapshots := snapshots st' |}).

(** [preload({resource: true})] *)
Definition load (d : D) (r : local_sync) : loaded :=
  {| row := r; resource_attributes := attributes_of e d (sync_resourceType r) (sync_resourceId r) |}.

Definition by_creation : relation loaded := fun a b => sync_createdAt (row a) <= sync_createdAt (row b).

#[export] Instance by_creation_dec : RelDecision by_creation.
Proof. unfold by_creation. intros a b. apply _. Defined.

(** The [pendingSyncs] callback of [replayLocalSyncs]. *)
Definition pendingSyncs : M (list loaded) := gets (fun st =>
  merge_sort by_creation (map (load (resources st))
    (List.filter (fun r => bool_decide (sync_state r = Pending)) (map_to_list (rows st)).*2))).

(** The [syncPayload] callback. *)
Definition syncPayload (sync : loaded) : M properties :=
  snapshot ← lift_result (localSyncReplaySnapshot sync);
  _ ← modify (fun st => {|
    rows := rows st; last_id := last_id st; resources := resources st; awaits := awaits st;
    requests := requests st; snapshots := <[sync_id (row sync) := snapshot]> (snapshots st) |});
  lift_result (localSyncPayload sync).

Fixpoint payloads (syncs : list loaded) : M (list properties) :=
  match syncs with
  | [] => mret []
  | sync :: syncs => p ← syncPayload sync; rest ← payloads syncs; mret (p :: rest)
  end.

Definition post (syncs : list properties) : M properties :=
  _ ← modify (fun st => {|
    rows := rows st; last_id := last_id st; resources := resources st; awaits := awaits st;
    requests := requests st ++ [syncs]; snapshots := snapshots st |});
  _ ← await WhilePosting;
  response ← gets (fun st => postReplay e (requests st));
  match response with
  | Ok response => mret response
  | Throw message => throw (ReplayFailed (TransportFailed message))
  end.

Definition marked (now : Z) (r : local_sync) : local_sync := {|
  sync_id := sync_id r; sync_data := sync_data r; sync_resourceId := sync_resourceId r;
  sync_resourceType := sync_resourceType r; sync_state := Success; sync_syncType := sync_syncType r;
  sync_createdAt := sync_createdAt r; sync_updatedAt := Some now |}.

(** The [markSuccessful] callback: only the state and the time are written. *)
Definition markSuccessful (sync : loaded) : M unit :=
  let id := sync_id (row sync) in
  _ ← await BeforeReload;
  currentSync ← gets (fun st => load (resources st) <$> rows st !! id);
  match currentSync with
  | None => mret tt
  | Some current =>
      snapshot ← lift_result (localSyncReplaySnapshot current);
      sent ← gets (fun st => snapshots st !! id);
      if bool_decide (Some snapshot = sent) then
        _ ← await BeforeMark;
        modify (fun st => set_rows (alter (marked (mark_time e (awaits st))) id (rows st)) (last_id st) st)
      else mret tt
  end.

(** The loop over the responses of [replayBatch]. *)
Fixpoint acknowledge_all (pending : list loaded) (responses : list json) : M unit :=
  match responses with
  | [] => mret tt
  | syncResponse :: responses =>
      id ← lift_result (of_answer (result_id syncResponse));
      match List.find (fun sync => bool_decide (decimal_text (sync_id (row sync)) = id)) (rev pending) with
      | None => acknowledge_all pending responses
      | Some sync =>
          match syncResponse with
          | JObj res =>
              if is_string "syncState" "successful" res then
                _ ← markSuccessful sync; acknowledge_all pending responses
              else throw (ReplayFailed (InvalidSyncState id))
          | _ => throw (ReplayFailed (InvalidSyncState id))
          end
      end
  end.

Definition replayBatch (pending : list loaded) : M unit :=
  match pending with
  | [] => mret tt
  | _ =>
      syncs ← payloads pending;
      response ← post syncs;
      responses ← lift_result (of_answer (ensureSuccessfulResponse response));
      acknowledge_all pending responses
  end.

Fixpoint replay_batches (fuel : nat) (size : nat) (pending : list loaded) : M unit :=
  match pending with
  | [] => mret tt
  | _ =>
      match fuel with
      | O => throw (ReplayFailed OutOfFuel)
      | S fuel => _ ← replayBatch (firstn size pending); replay_batches fuel size (skipn size pending)
      end
  end.

(** [replayPending], with the callbacks of [replayLocalSyncs]. *)
Definition replayPending (batchSize : scalar) : M unit :=
  pending ← pendingSyncs;
  replay_batches (length pending) (Z.to_nat (normalizedBatchSize batchSize)) pending.

Definition replayLocalSyncs (batchSize : scalar) : M unit :=
  _ ← modify (fun st => {|
    rows := rows st; last_id := last_id st; resources := resources st; awaits := awaits st;
    requests := requests st; snapshots := ∅ |});
  replayPending batchSize.
End queue.
