(* ===== verification/SyncQueueCorrect.v ===== *)
(** * The queue of local changes: correctness

    No change that is queued, at any time, is lost by a drain: a row is marked as sent
    only when the server has acknowledged what it holds. *)

From stdpp Require Import base functions gmap strings list sorting.
From Stdlib Require Import ZArith Ascii QArith Qround Lia.
From S2P Require Import Prelude Json Dates Numbers ConflictStrategy SyncReplay SyncReplayCorrect SyncQueue.
Open Scope Z_scope.

(** Rows keep their id and their resource, and none is deleted. *)
Definition same_row (r r' : local_sync) : Prop :=
  sync_id r' = sync_id r /\ sync_resourceId r' = sync_resourceId r /\ sync_resourceType r' = sync_resourceType r.

Definition evolves (m m' : gmap Z local_sync) : Prop :=
  forall id r, m !! id = Some r -> exists r', m' !! id = Some r' /\ same_row r r'.

Record ids_ok {D} (st : queue_state D) : Prop := {
  keyed_by_id : forall id r, rows st !! id = Some r -> sync_id r = id;
  ids_given : forall id r, rows st !! id = Some r -> id <= last_id st
}.

(** The server has been sent what the row [r] holds, and has accepted it. *)
Record acknowledged {D} (e : queue_env D) (sent : list (list properties)) (r : local_sync) : Prop := {
  acknowledged_by : exists before request after response syncs entry payload data syncType resource,
    sent = before ++ request :: after /\ postReplay e (before ++ [request]) = Ok response /\
    ensureSuccessfulResponse response = Ok syncs /\ JObj entry ∈ syncs /\
    result_id (JObj entry) = Ok (decimal_text (sync_id r)) /\ is_string "syncState" "successful" entry = true /\
    payload ∈ request /\ obj_get "id" payload = Some (JNum (decimal_text (sync_id r))) /\
    obj_get "resourceId" payload = Some (JStr (sync_resourceId r)) /\
    obj_get "resourceType" payload = Some (JStr (sync_resourceType r)) /\
    obj_get "syncType" payload = Some (JStr syncType) /\ obj_get "data" payload = Some data /\
    localSyncReplaySnapshot {| row := r; resource_attributes := resource |} = Ok (snapshot_text data syncType)
}.

(** What the drain and everyone else keep, since the state [st0]. *)
Record kept {D} (e : queue_env D) (st0 st : queue_state D) : Prop := {
  kept_ids : ids_ok st;
  kept_rows : evolves (rows st0) (rows st);
  kept_marks : forall id r, rows st !! id = Some r -> sync_state r = Success ->
    rows st0 !! id = Some r \/ acknowledged e (requests st) r
}.

Lemma evolves_refl m : evolves m m.
Proof. intros id r Hr. by exists r. Qed.

Lemma evolves_trans m1 m2 m3 : evolves m1 m2 -> evolves m2 m3 -> evolves m1 m3.
Proof.
  intros H12 H23 id r Hr. destruct (H12 id r Hr) as (r' & Hr' & E1 & E2 & E3).
  destruct (H23 id r' Hr') as (r'' & Hr'' & E4 & E5 & E6). exists r''. split; [done|]. split_and!; congruence.
Qed.

Lemma evolves_insert m id r r' : m !! id = Some r -> same_row r r' -> evolves m (<[id := r']> m).
Proof.
  intros Hr Hs id' x Hx. destruct (decide (id' = id)) as [->|].
  - exists r'. rewrite lookup_insert_eq. split; [done|]. congruence.
  - exists x. by rewrite lookup_insert_ne.
Qed.

Lemma evolves_fresh m id r : m !! id = None -> evolves m (<[id := r]> m).
Proof.
  intros Hn id' x Hx. exists x. split; [|done]. rewrite lookup_insert_ne; [done|]. congruence.
Qed.

Section keep.
Context {D : Type} (e : queue_env D) (st0 : queue_state D).

Abbreviation keeps m := (preserves (kept e st0) m).

(** A row that is written as pending needs no acknowledgement. *)
Lemma kept_write st id r last : kept e st0 st -> sync_id r = id -> id <= last -> last_id st <= last ->
  sync_state r = Pending -> evolves (rows st) (<[id := r]> (rows st)) ->
  kept e st0 (set_rows (<[id := r]> (rows st)) last st).
Proof.
  intros [[Hk Hg] He Hm] Hid Hle Hlast Hp Hev. split; [split|..]; cbn.
  - intros id' x [[<- <-]|[_ Hx]]%lookup_insert_Some; [done|by apply Hk].
  - intros id' x [[<- <-]|[_ Hx]]%lookup_insert_Some; [done|]. specialize (Hg id' x Hx). lia.
  - by eapply evolves_trans.
  - intros id' x [[<- <-]|[_ Hx]]%lookup_insert_Some; [congruence|by apply Hm].
Qed.

Lemma queue_keeps a : keeps (queueLocalSync e a).
Proof.
  unfold queueLocalSync. destruct (args_model a) as [resourceType|]; [|apply preserves_throw].
  apply preserves_bind; [apply preserves_lift|]. intros syncData. apply preserves_if; [apply preserves_throw|].
  apply preserves_bind; [apply preserves_lift|]. intros resourceId st Hst.
  unfold mbind, ST_bind, gets, modify, mret, ST_ret. pose proof (kept_ids _ _ _ Hst) as [Hk Hg].
  destruct (find_resource _ _ _) as [existing|] eqn:Hf; cbn.
  - unfold find_resource in Hf. apply find_some in Hf as [Hin _].
    apply list_elem_of_In, list_elem_of_fmap in Hin as ([id r] & -> & Hin%elem_of_map_to_list). cbn in *.
    pose proof (Hk id r Hin) as <-. apply kept_write; try done; [by apply (Hg _ r)|].
    by eapply evolves_insert.
  - apply kept_write; cbn; try done; try lia. apply evolves_fresh.
    destruct (rows st !! (last_id st + 1)) as [r|] eqn:Hr; [|done]. specialize (Hg _ r Hr). lia.
Qed.

Lemma kept_same st st' : kept e st0 st -> rows st' = rows st -> last_id st' = last_id st ->
  requests st' = requests st -> kept e st0 st'.
Proof.
  intros [[H1 H2] H3 H4] Hr Hl Hq. split; [split|..]; rewrite ?Hr, ?Hl, ?Hq; done.
Qed.

Lemma happen_keeps event st : kept e st0 st -> kept e st0 (happen e event st).
Proof. intros Hst. destruct event as [a|f]; [by apply queue_keeps|by eapply kept_same]. Qed.

Lemma await_keeps p : keeps (await e p).
Proof.
  intros st Hst. unfold await. cbn [snd]. generalize (others e p (awaits st)). intros events.
  assert (kept e st0 (fold_left (fun st event => happen e event st) events st)) as H.
  { induction events as [|event events IH] using rev_ind; [done|]. rewrite fold_left_app. by apply happen_keeps. }
  by eapply kept_same.
Qed.

(** Calls of others leave the requests and what was posted as they are. *)
Lemma queue_sent a st : requests (queueLocalSync e a st).2 = requests st /\
  snapshots (queueLocalSync e a st).2 = snapshots st.
Proof.
  change ((fun st' => requests st' = requests st /\ snapshots st' = snapshots st) (queueLocalSync e a st).2).
  assert (preserves (fun st' => requests st' = requests st /\ snapshots st' = snapshots st) (queueLocalSync e a)) as H;
    [|by apply H].
  unfold queueLocalSync. destruct (args_model a); [|apply preserves_throw].
  apply preserves_bind; [apply preserves_lift|]. intros syncData. apply preserves_if; [apply preserves_throw|].
  apply preserves_bind; [apply preserves_lift|]. intros resourceId.
  apply preserves_bind; [apply preserves_gets|]. intros [existing|];
    repeat first [apply preserves_ret | apply preserves_bind; [by intros ? ?|intros ?]].
Qed.

Lemma await_sent p st : requests (await e p st).2 = requests st /\ snapshots (await e p st).2 = snapshots st.
Proof.
  unfold await. cbn [snd requests snapshots]. generalize (others e p (awaits st)). intros events.
  induction events as [|event events IH] using rev_ind; [done|]. rewrite fold_left_app. cbn [fold_left].
  destruct event as [a|f]; [|done]. cbn [happen]. destruct (queue_sent a (fold_left (fun st event => happen e event st) events st)).
  destruct IH. split; congruence.
Qed.
End keep.

(** ** One batch *)

Section drain.
Context {D : Type} (e : queue_env D) (st0 : queue_state D).

Lemma acknowledged_later sent request r : acknowledged e sent r -> acknowledged e (sent ++ [request]) r.
Proof.
  intros [(before & x & after & response & syncs & entry & payload & data & syncType & resource & -> & Hrest)].
  split. exists before, x, (after ++ [request]), response, syncs, entry, payload, data, syncType, resource.
  by rewrite <- app_assoc.
Qed.

(** The payload of a row that is sent. *)
Definition payload_of (sync : loaded) (data : json) : properties :=
  [("clientUpdatedAt", JStr (toISOString (default (sync_createdAt (row sync)) (sync_updatedAt (row sync)))));
   ("data", data); ("id", JNum (decimal_text (sync_id (row sync))));
   ("resourceId", JStr (sync_resourceId (row sync))); ("resourceType", JStr (sync_resourceType (row sync)));
   ("syncType", JStr (sync_syncType (row sync)))].

(** What is known of a row once its batch is sent: its snapshot was kept, and is that of a
    payload of the request. *)
Definition was_sent (request : list properties) (kept_snapshots : gmap Z string) (sync : loaded) : Prop :=
  exists sync' data, sync_id (row sync') = sync_id (row sync) /\
    rows st0 !! sync_id (row sync) = Some (row sync') /\ payload_of sync' data ∈ request /\
    kept_snapshots !! sync_id (row sync) = Some (snapshot_text data (sync_syncType (row sync'))).

Lemma was_sent_weaken request request' kept_snapshots sync :
  was_sent request kept_snapshots sync -> (forall p, p ∈ request -> p ∈ request') ->
  was_sent request' kept_snapshots sync.
Proof. intros (sync' & data & H1 & H2 & H3 & H4) H. exists sync', data. split_and!; auto. Qed.

Lemma payloads_sent syncs (st : queue_state D) ps st' :
  (forall sync, sync ∈ syncs -> rows st0 !! sync_id (row sync) = Some (row sync)) ->
  payloads syncs st = (Ok ps, st') ->
  rows st' = rows st /\ last_id st' = last_id st /\ requests st' = requests st /\
  (forall id, (forall sync, sync ∈ syncs -> sync_id (row sync) <> id) -> snapshots st' !! id = snapshots st !! id) /\
  forall sync, sync ∈ syncs -> was_sent ps (snapshots st') sync.
Proof.
  revert st ps. induction syncs as [|sync syncs IH]; intros st ps Hrows Hrun.
  { apply ST_ret_Ok in Hrun as [-> ->]. split_and!; try done. intros sync []%elem_of_nil. }
  cbn [payloads] in Hrun. apply ST_bind_Ok in Hrun as (p & st1 & Hp & Hrun).
  apply ST_bind_Ok in Hrun as (rest & st2 & Hrest & Hrun). apply ST_ret_Ok in Hrun as [-> ->].
  unfold syncPayload in Hp. apply ST_bind_Ok in Hp as (snapshot & st3 & [Hsnap ->]%ST_lift_Ok & Hp).
  apply ST_bind_Ok in Hp as ([] & st3 & ->%ST_modify_Ok & [Hpay ->]%ST_lift_Ok).
  apply IH in Hrest as (E1 & E2 & E3 & E4 & E5); [|intros x Hx; apply Hrows; by right]. cbn in E1, E2, E3, E4.
  split_and!; [done..| |].
  - intros id Hid. rewrite E4 by (intros x Hx; apply Hid; by right).
    rewrite lookup_insert_ne; [done|]. apply Hid. by left.
  - unfold localSyncReplaySnapshot, localSyncPayload in *.
    destruct (localSyncData sync) as [data|] eqn:Hdata; [|done]. cbn [mbind result_bind] in Hsnap, Hpay. injection Hsnap as <-. injection Hpay as <-.
    intros x [->|Hx]%elem_of_cons; [|eapply was_sent_weaken; [by apply E5|intros q Hq; by right]].
    destruct (decide (Exists (fun y => sync_id (row y) = sync_id (row sync)) syncs)) as
      [(y & Hy & Heq)%Exists_exists|Hnone].
    + destruct (E5 y Hy) as (s' & d & H1 & H2 & H3 & H4). exists s', d.
      rewrite <- Heq. split_and!; try done. by right.
    + exists sync, data. split; [done|]. split; [apply Hrows; by left|]. split; [by left|].
      rewrite E4; [by rewrite lookup_insert_eq|]. intros y Hy Heq. apply Hnone, Exists_exists. by exists y.
Qed.
Context (quiet : forall n, others e BeforeMark n = []).

Lemma await_quiet st : await e BeforeMark st = (Ok tt, {|
  rows := rows st; last_id := last_id st; resources := resources st; awaits := S (awaits st);
  requests := requests st; snapshots := snapshots st |}).
Proof. unfold await. by rewrite quiet. Qed.

Lemma kept_mark st id now r : kept e st0 st -> rows st !! id = Some r -> acknowledged e (requests st) (marked now r) ->
  kept e st0 (set_rows (alter (marked now) id (rows st)) (last_id st) st).
Proof.
  intros [[Hk Hg] He Hm] Hr Ha. pose proof (Hk id r Hr) as Hid.
  assert (alter (marked now) id (rows st) = <[id := marked now r]> (rows st)) as ->.
  { apply map_eq. intros i. destruct (decide (i = id)) as [->|].
    - by rewrite lookup_insert_eq, lookup_alter_eq, Hr.
    - by rewrite lookup_insert_ne, lookup_alter_ne. }
  split; [split|..]; cbn.
  - intros id' x [[<- <-]|[_ Hx]]%lookup_insert_Some; [done|by apply Hk].
  - intros id' x [[<- <-]|[_ Hx]]%lookup_insert_Some; by eapply Hg.
  - eapply evolves_trans; [exact He|]. by eapply evolves_insert.
  - intros id' x [[<- <-]|[_ Hx]]%lookup_insert_Some; [by right|by apply Hm].
Qed.

(** A batch whose response is being read. *)
Record in_flight (pending : list loaded) (syncs : list json) (st : queue_state D) : Prop := {
  flight_kept : kept e st0 st;
  flight_sent : exists before request response, requests st = before ++ [request] /\
    postReplay e (before ++ [request]) = Ok response /\ ensureSuccessfulResponse response = Ok syncs /\
    forall sync, sync ∈ pending -> was_sent request (snapshots st) sync
}.

Lemma in_flight_step pending syncs st st' : in_flight pending syncs st -> kept e st0 st' ->
  requests st' = requests st -> snapshots st' = snapshots st -> in_flight pending syncs st'.
Proof. intros [_ H] Hk Hr Hs. split; [done|]. by rewrite Hr, Hs. Qed.

Lemma mark_keeps pending syncs entry sync :
  sync ∈ pending -> JObj entry ∈ syncs ->
  result_id (JObj entry) = Ok (decimal_text (sync_id (row sync))) -> is_string "syncState" "successful" entry = true ->
  preserves (in_flight pending syncs) (markSuccessful e sync).
Proof.
  intros Hsync Hentry Hid Hstate. unfold markSuccessful. apply preserves_bind.
  { intros st Hst. destruct (await_sent e BeforeReload st). eapply in_flight_step; try done.
    apply await_keeps, Hst. }
  intros _ st Hst. unfold mbind, ST_bind, gets. cbn [fst snd]. cbv beta iota zeta.
  destruct (rows st !! sync_id (row sync)) as [r|] eqn:Hr; [|exact Hst]. cbn [fmap option_fmap option_map].
  unfold lift_result. destruct (localSyncReplaySnapshot (load e (resources st) r)) as [snapshot|err] eqn:Hsnap; [|exact Hst].
  case_bool_decide as Hsame; [|exact Hst]. rewrite await_quiet. unfold modify. cbn [snd].
  set (st' := {| rows := rows st; last_id := last_id st; resources := resources st; awaits := S (awaits st);
    requests := requests st; snapshots := snapshots st |}).
  assert (in_flight pending syncs st') as Hst' by (eapply in_flight_step; [exact Hst| |done..]; by eapply kept_same; [apply Hst|..]).
  eapply in_flight_step; [exact Hst'| |done..]. apply (kept_mark _ _ _ r); [apply Hst'|exact Hr|].
  destruct (flight_sent _ _ _ Hst) as (before & request & response & Hreq & Hpost & Hok & Hsent).
  destruct (Hsent sync Hsync) as (sync' & data & Heq & Hrow & Hin & Hkept).
  destruct (kept_rows _ _ _ (flight_kept _ _ _ Hst) _ _ Hrow) as (r' & Hr' & E1 & E2 & E3).
  rewrite Hr in Hr'. injection Hr' as <-. rewrite Hkept in Hsame. injection Hsame as ->.
  split. exists before, request, [], response, syncs, entry, (payload_of sync' data), data, (sync_syncType (row sync')),
    (resource_attributes (load e (resources st) r)).
  split_and!; try done; cbn; rewrite ?E1, ?E2, ?E3; try done. rewrite Heq. exact Hid.
Qed.

Lemma acknowledge_all_keeps pending syncs responses : (forall x, x ∈ responses -> x ∈ syncs) ->
  preserves (in_flight pending syncs) (acknowledge_all e pending responses).
Proof.
  induction responses as [|response responses IH]; intros Hsub; cbn [acknowledge_all]; [apply preserves_ret|].
  assert (preserves (in_flight pending syncs) (acknowledge_all e pending responses)) as IH' by (apply IH; intros; apply Hsub; by right).
  intros st Hst. unfold mbind at 1, ST_bind at 1, lift_result.
  destruct (result_id response) as [id|] eqn:Hid; cbn [of_answer]; [|exact Hst].
  destruct (List.find _ _) as [sync|] eqn:Hf; [|by apply IH']. apply find_some in Hf as [Hin Heq%bool_decide_eq_true].
  apply in_rev, list_elem_of_In in Hin. destruct response as [| | | | |entry]; try exact Hst.
  destruct (is_string _ _ entry) eqn:Hs; [|exact Hst].
  apply (preserves_bind (in_flight pending syncs)); [|intros; exact IH'|exact Hst].
  apply mark_keeps with entry; [done|apply Hsub; by left|by rewrite Hid, Heq|done].
Qed.

Lemma batch_keeps pending : (forall sync, sync ∈ pending -> rows st0 !! sync_id (row sync) = Some (row sync)) ->
  preserves (kept e st0) (replayBatch e pending).
Proof.
  intros Hrows st Hst. unfold replayBatch. destruct pending as [|sync pending]; [exact Hst|].
  set (all := sync :: pending) in *. unfold mbind at 1, ST_bind at 1.
  assert (kept e st0 (payloads all st).2) as Hp.
  { revert st Hst. change (preserves (kept e st0) (payloads all)). clearbody all. clear.
    induction all as [|sync all IH]; [apply preserves_ret|]. cbn [payloads]. apply preserves_bind; [|intros p].
    - unfold syncPayload. apply preserves_bind; [apply preserves_lift|]. intros snapshot.
      apply preserves_bind; [|intros; apply preserves_lift]. intros st Hst. by eapply kept_same.
    - apply preserves_bind; [exact IH|]. intros; apply preserves_ret. }
  destruct (payloads all st) as [[ps|err] st1] eqn:Hpay; [|exact Hp]. cbn [snd] in Hp.
  destruct (payloads_sent _ _ _ _ Hrows Hpay) as (_ & _ & _ & _ & Hsent).
  unfold mbind at 1, ST_bind at 1, post. unfold mbind at 1, ST_bind at 1, modify.
  set (st2 := {| rows := rows st1; last_id := last_id st1; resources := resources st1; awaits := awaits st1;
    requests := requests st1 ++ [ps]; snapshots := snapshots st1 |}).
  assert (kept e st0 st2) as H2.
  { destruct Hp as [[] ? Hm]. split; [by split|done|]. intros id r Hr Hs. destruct (Hm id r Hr Hs); [by left|right].
    by apply acknowledged_later. }
  unfold mbind at 1, ST_bind at 1. pose proof (await_keeps e st0 WhilePosting st2 H2) as H3.
  destruct (await_sent e WhilePosting st2) as [Hr Hs].
  destruct (await e WhilePosting st2) as [[[]|err] st3] eqn:Haw; cbn [snd] in H3, Hr, Hs; [|exact H3].
  unfold mbind at 1, ST_bind at 1, gets. destruct (postReplay e (requests st3)) as [response|message] eqn:Hpost; [|exact H3].
  cbn [mret ST_ret]. unfold mbind, ST_bind, lift_result.
  destruct (ensureSuccessfulResponse response) as [syncs|err] eqn:Hens; cbn [of_answer]; [|exact H3].
  eapply (acknowledge_all_keeps all syncs syncs); [done|]. split; [exact H3|].
  exists (requests st1), ps, response. rewrite Hr in Hpost |- *. split_and!; try done. rewrite Hs. exact Hsent.
Qed.
Lemma batches_keep fuel size pending :
  (forall sync, sync ∈ pending -> rows st0 !! sync_id (row sync) = Some (row sync)) ->
  preserves (kept e st0) (replay_batches e fuel size pending).
Proof.
  revert pending. induction fuel as [|fuel IH]; intros pending Hrows; cbn [replay_batches];
    destruct pending as [|sync pending]; try apply preserves_ret; [apply preserves_throw|].
  set (all := sync :: pending) in *. rewrite <- (take_drop size all) in Hrows.
  apply preserves_bind; [apply batch_keeps|intros _; apply IH]; intros x Hx; apply Hrows, elem_of_app; auto.
Qed.
End drain.

Lemma pending_rows {D} (e : queue_env D) (st : queue_state D) sync : ids_ok st ->
  sync ∈ merge_sort (by_creation) (map (load e (resources st))
    (List.filter (fun r => bool_decide (sync_state r = Pending)) (map_to_list (rows st)).*2)) ->
  rows st !! sync_id (row sync) = Some (row sync).
Proof.
  intros [Hk _]. rewrite merge_sort_Permutation. intros (r & -> & Hr)%list_elem_of_fmap.
  apply list_elem_of_In, filter_In in Hr as [Hr _]. apply list_elem_of_In, list_elem_of_fmap in Hr as ([id x] & -> & Hx%elem_of_map_to_list).
  cbn. by rewrite (Hk id x Hx).
Qed.

(** C28: A drain loses no change. Whatever is queued while requests are on their way, and
    however the drain ends: no row is gone or names another resource, and a row that is
    marked as sent was so before the drain, with the same content, or the server has
    answered "successful" for its id to a request with the resource, the data and the
    type the row holds. (Nothing is queued between the last read of a row and its mark:
    see [edit_before_mark_is_lost].) *)
Theorem drain_loses_no_change {D} (e : queue_env D) st size r st' :
  ids_ok st -> (forall n, others e BeforeMark n = []) ->
  replayLocalSyncs e size st = (r, st') ->
  ids_ok st' /\ evolves (rows st) (rows st') /\
  forall id x, rows st' !! id = Some x -> sync_state x = Success ->
    rows st !! id = Some x \/ acknowledged e (requests st') x.
Proof.
  intros Hok Hquiet Hrun.
  assert (kept e st (replayLocalSyncs e size st).2) as [H1 H2 H3]; [|rewrite Hrun in *; done]. clear Hrun.
  set (st1 := {| rows := rows st; last_id := last_id st; resources := resources st; awaits := awaits st;
    requests := requests st; snapshots := ∅ |}).
  assert (kept e st st1) as Hst1.
  { split; [by destruct Hok|apply evolves_refl|]. intros id x Hx _. by left. }
  change (kept e st (replayPending e size st1).2). unfold replayPending, mbind, ST_bind, pendingSyncs, gets. cbn [fst snd].
  apply batches_keep; [done| |exact Hst1]. intros sync Hsync. apply (pending_rows e st1); [by destruct Hok|exact Hsync].
Qed.

(** ** A drain that nobody disturbs *)

Section undisturbed.
Context {D : Type} (e : queue_env D).
Context (alone : forall p n, others e p n = []).

(** Rows are only marked. *)
Record progress (st st' : queue_state D) : Prop := {
  same_resources : resources st' = resources st;
  rows_marked : forall id r, rows st !! id = Some r ->
    rows st' !! id = Some r \/ exists now, rows st' !! id = Some (marked now r);
  rows_known : forall id r', rows st' !! id = Some r' -> exists r, rows st !! id = Some r
}.

Definition is_marked (st : queue_state D) (id : Z) : Prop :=
  exists r, rows st !! id = Some r /\ sync_state r = Success.

Lemma progress_refl st : progress st st.
Proof. split; [done|by left|eauto]. Qed.

Lemma progress_trans st1 st2 st3 : progress st1 st2 -> progress st2 st3 -> progress st1 st3.
Proof.
  intros [A1 B1 C1] [A2 B2 C2]. split; [congruence| |].
  - intros id r Hr. destruct (B1 id r Hr) as [H|[now H]]; destruct (B2 id _ H) as [H'|[now' H']]; eauto.
  - intros id r Hr. destruct (C2 id r Hr) as [r' Hr']. eauto.
Qed.

Lemma progress_marked st st' id : progress st st' -> is_marked st id -> is_marked st' id.
Proof.
  intros [_ H _] (r & Hr & Hs). destruct (H id r Hr) as [H'|[now H']]; eexists; split; try done.
Qed.

Lemma await_alone p st : await e p st = (Ok tt, {|
  rows := rows st; last_id := last_id st; resources := resources st; awaits := S (awaits st);
  requests := requests st; snapshots := snapshots st |}).
Proof. unfold await. by rewrite alone. Qed.

(** The row of [sync] is what was posted. *)
Definition still_posted (st : queue_state D) (sync : loaded) : Prop :=
  exists r snapshot, rows st !! sync_id (row sync) = Some r /\
    localSyncReplaySnapshot (load e (resources st) r) = Ok snapshot /\
    snapshots st !! sync_id (row sync) = Some snapshot.

Lemma still_posted_step st st' sync : progress st st' -> snapshots st' = snapshots st ->
  still_posted st sync -> still_posted st' sync.
Proof.
  intros [Hr Hm _] Hs (r & snapshot & Hrow & Hsnap & Hk). destruct (Hm _ _ Hrow) as [H|[now H]].
  - exists r, snapshot. by rewrite Hr, Hs.
  - exists (marked now r), snapshot. by rewrite Hr, Hs.
Qed.

Lemma mark_runs st sync : still_posted st sync -> exists st', markSuccessful e sync st = (Ok tt, st') /\
  progress st st' /\ snapshots st' = snapshots st /\ requests st' = requests st /\ is_marked st' (sync_id (row sync)).
Proof.
  intros (r & snapshot & Hrow & Hsnap & Hk). eexists. split.
  { unfold markSuccessful, mbind, ST_bind. rewrite await_alone. unfold gets. cbn [rows resources snapshots].
    rewrite Hrow. cbn [fmap option_fmap option_map]. unfold lift_result. rewrite Hsnap. cbn [snapshots]. rewrite Hk.
    rewrite bool_decide_eq_true_2 by done. rewrite await_alone. unfold modify. reflexivity. }
  split; [|split; [done|split; [done|]]].
  - split; [done| |]; cbn [rows set_rows].
    + intros id x Hx. destruct (decide (id = sync_id (row sync))) as [->|Hne].
      * right. rewrite lookup_alter_eq, Hx. eauto.
      * left. by rewrite lookup_alter_ne.
    + intros id x Hx. destruct (decide (id = sync_id (row sync))) as [->|Hne]; [eauto|].
      rewrite lookup_alter_ne in Hx by done. eauto.
  - exists (marked (mark_time e (S (S (awaits st)))) r). cbn [rows set_rows].
    by rewrite lookup_alter_eq, Hrow.
Qed.

Definition small_ids (pending : list loaded) : Prop :=
  forall sync, sync ∈ pending -> 0 <= sync_id (row sync) < 2 ^ 53.

Lemma decimal_text_inj a b : 0 <= a < 2 ^ 53 -> 0 <= b < 2 ^ 53 -> decimal_text a = decimal_text b -> a = b.
Proof.
  intros Ha Hb Hab. apply Number_integer_decimal in Ha, Hb. congruence.
Qed.

(** A response that accepts: every entry is successful. *)
Definition accepting (x : json) : Prop :=
  exists entry id, x = JObj entry /\ result_id x = Ok id /\ is_string "syncState" "successful" entry = true.

Lemma acknowledge_all_runs pending responses st : small_ids pending ->
  (forall x, x ∈ responses -> accepting x) -> (forall sync, sync ∈ pending -> still_posted st sync) ->
  exists st', acknowledge_all e pending responses st = (Ok tt, st') /\ progress st st' /\ requests st' = requests st /\
    forall sync x, sync ∈ pending -> x ∈ responses -> result_id x = Ok (decimal_text (sync_id (row sync))) ->
      is_marked st' (sync_id (row sync)).
Proof.
  intros Hids. revert st. induction responses as [|x responses IH]; intros st Hacc Hpost.
  { exists st. split_and!; [done|apply progress_refl|done|]. intros sync x _ []%elem_of_nil. }
  destruct (Hacc x) as (entry & id & -> & Hid & Hs); [by left|]. cbn [acknowledge_all].
  unfold mbind at 1, ST_bind at 1, lift_result. rewrite Hid. cbn [of_answer].
  destruct (List.find _ _) as [sync|] eqn:Hf.
  - apply find_some in Hf as [Hin Heq%bool_decide_eq_true]. apply in_rev, list_elem_of_In in Hin. rewrite Hs.
    destruct (mark_runs st sync) as (st1 & Hm & P1 & S1 & R1 & M1); [by apply Hpost|].
    unfold mbind, ST_bind. rewrite Hm.
    destruct (IH st1) as (st2 & Hrun & P2 & R2 & M2); [intros y Hy; apply Hacc; by right| |].
    { intros y Hy. eapply still_posted_step; [exact P1|exact S1|by apply Hpost]. }
    exists st2. split_and!; [done|by eapply progress_trans|congruence|].
    intros y z Hy [->|Hz]%elem_of_cons Hyz; [|by eapply M2].
    assert (sync_id (row y) = sync_id (row sync)) as ->.
    { apply decimal_text_inj; [by apply Hids..|]. congruence. }
    by eapply progress_marked.
  - destruct (IH st) as (st2 & Hrun & P2 & R2 & M2); [intros y Hy; apply Hacc; by right|done|].
    exists st2. split_and!; [done..|]. intros y z Hy [->|Hz]%elem_of_cons Hyz; [|by eapply M2].
    exfalso. eapply find_none in Hf; [|apply in_rev; rewrite rev_involutive; by apply list_elem_of_In].
    apply bool_decide_eq_false in Hf. congruence.
Qed.
(** The rows that are sent, as they were loaded from [st0]. *)
Definition from_rows (st0 : queue_state D) (pending : list loaded) : Prop := forall sync, sync ∈ pending ->
  sync = load e (resources st0) (row sync) /\ rows st0 !! sync_id (row sync) = Some (row sync) /\
  0 <= sync_id (row sync) < 2 ^ 53 /\ exists data, localSyncData sync = Ok data.

Lemma payloads_run st0 pending (st : queue_state D) : from_rows st0 pending ->
  exists ps kept_snapshots, payloads pending st = (Ok ps, {| rows := rows st; last_id := last_id st;
      resources := resources st; awaits := awaits st; requests := requests st; snapshots := kept_snapshots |}) /\
    (forall id, (forall sync, sync ∈ pending -> sync_id (row sync) <> id) -> kept_snapshots !! id = snapshots st !! id) /\
    forall sync, sync ∈ pending -> exists snapshot p, localSyncReplaySnapshot sync = Ok snapshot /\
      kept_snapshots !! sync_id (row sync) = Some snapshot /\ p ∈ ps /\
      obj_get "id" p = Some (JNum (decimal_text (sync_id (row sync)))).
Proof.
  revert st. induction pending as [|sync pending IH]; intros st Hfrom.
  { exists [], (snapshots st). split; [by destruct st|]. split; [done|]. intros sync []%elem_of_nil. }
  destruct (Hfrom sync ltac:(by left)) as (Hload & Hrow & _ & data & Hdata).
  edestruct IH as (ps & kept_snapshots & Hrun & Hother & Hall); [intros x Hx; apply Hfrom; by right|].
  do 2 eexists. split.
  { cbn [payloads]. unfold syncPayload, localSyncReplaySnapshot, localSyncPayload, mbind, ST_bind, lift_result. rewrite Hdata.
    cbn [result_bind mbind modify fst snd]. unfold modify. rewrite Hrun. reflexivity. }
  split.
  - intros id Hid. rewrite Hother by (intros x Hx; apply Hid; by right). cbn [snapshots].
    rewrite lookup_insert_ne; [done|]. apply Hid. by left.
  - intros x [->|Hx]%elem_of_cons.
    + unfold localSyncReplaySnapshot. rewrite Hdata. do 2 eexists. split; [done|]. split; [|split; [by left|done]].
      destruct (decide (Exists (fun y => sync_id (row y) = sync_id (row sync)) pending)) as
        [(y & Hy & Heq)%Exists_exists|Hnone].
      * destruct (Hall y Hy) as (snapshot & p & Hs & Hk & _). destruct (Hfrom y ltac:(by right)) as (Hly & Hry & _).
        assert (y = sync) as -> by (rewrite Heq, Hrow in Hry; injection Hry as Hry; congruence).
        unfold localSyncReplaySnapshot in Hs. rewrite Hdata in Hs. injection Hs as <-. exact Hk.
      * rewrite Hother; [cbn; by rewrite lookup_insert_eq|]. intros y Hy Heq. apply Hnone, Exists_exists. by exists y.
    + destruct (Hall x Hx) as (snapshot & p & H1 & H2 & H3 & H4). exists snapshot, p. split_and!; try done. by right.
Qed.

(** A server that accepts every row it is sent. *)
Definition accepts_all : Prop := forall before request, exists response syncs,
  postReplay e (before ++ [request]) = Ok response /\ ensureSuccessfulResponse response = Ok syncs /\
  (forall x, x ∈ syncs -> accepting x) /\
  forall p n, p ∈ request -> obj_get "id" p = Some (JNum n) -> exists x, x ∈ syncs /\ result_id x = Ok n.

Context (accepted : accepts_all) (st0 : queue_state D).

Lemma batch_runs pending st : from_rows st0 pending -> progress st0 st ->
  exists st', replayBatch e pending st = (Ok tt, st') /\ progress st st' /\
    forall sync, sync ∈ pending -> is_marked st' (sync_id (row sync)).
Proof.
  intros Hfrom Hst. destruct pending as [|first rest].
  { exists st. split; [done|]. split; [apply progress_refl|]. intros sync []%elem_of_nil. }
  set (pending := first :: rest) in *.
  destruct (payloads_run _ _ st Hfrom) as (ps & kept_snapshots & Hpay & _ & Hsent).
  destruct (accepted (requests st) ps) as (response & syncs & Hpost & Hens & Hacc & Hans).
  set (st2 := {| rows := rows st; last_id := last_id st; resources := resources st; awaits := S (awaits st);
    requests := requests st ++ [ps]; snapshots := kept_snapshots |}).
  destruct (acknowledge_all_runs pending syncs st2) as (st' & Hrun & Hp & _ & Hm).
  - intros sync Hsync. apply Hfrom, Hsync.
  - done.
  - intros sync Hsync. destruct (Hfrom sync Hsync) as (Hload & Hrow & _). destruct (Hsent sync Hsync) as (snapshot & _ & Hs & Hk & _).
    rewrite Hload in Hs. destruct Hst as [Hres Hmark _]. unfold still_posted. cbn [rows resources snapshots st2]. rewrite Hres.
    destruct (Hmark _ _ Hrow) as [H|[now H]]; eexists _, snapshot; (split; [exact H|]; split; [exact Hs|exact Hk]).
  - exists st'. split; [|split].
    + change (replayBatch e pending st) with ((ps ← payloads pending; response ← post e ps;
        responses ← lift_result (of_answer (ensureSuccessfulResponse response)); acknowledge_all e pending responses) st).
      unfold mbind, ST_bind. rewrite Hpay. unfold post, mbind, ST_bind, modify. rewrite await_alone. unfold gets.
      cbn [requests]. rewrite Hpost. cbn [mret ST_ret]. unfold lift_result. rewrite Hens. exact Hrun.
    + eapply progress_trans; [|exact Hp]. split; [done|by left|eauto].
    + intros sync Hsync. destruct (Hsent sync Hsync) as (_ & p & _ & _ & Hin & Hid).
      destruct (Hans p _ Hin Hid) as (x & Hx & Hxid). by eapply Hm.
Qed.

Lemma batches_run fuel size pending st : (1 <= size)%nat -> (length pending <= fuel)%nat ->
  from_rows st0 pending -> progress st0 st ->
  exists st', replay_batches e fuel size pending st = (Ok tt, st') /\ progress st st' /\
    forall sync, sync ∈ pending -> is_marked st' (sync_id (row sync)).
Proof.
  intros Hsize. revert pending st. induction fuel as [|fuel IH]; intros pending st Hlen Hfrom Hst;
    destruct pending as [|first rest]; try (cbn in Hlen; lia); cbn [replay_batches].
  1-2: exists st; split; [done|]; split; [apply progress_refl|]; intros sync []%elem_of_nil.
  set (pending := first :: rest) in *. pose proof (take_drop size pending) as Hsplit.
  assert (forall l, (forall x, x ∈ l -> x ∈ pending) -> from_rows st0 l) as Hsub by (intros l Hl x Hx; by apply Hfrom, Hl).
  destruct (batch_runs (take size pending) st) as (st1 & H1 & P1 & M1);
    [apply Hsub; intros x Hx; rewrite <- Hsplit; apply elem_of_app; by left|done|].
  destruct (IH (drop size pending) st1) as (st2 & H2 & P2 & M2).
  - rewrite length_drop. subst pending. cbn [length] in *. lia.
  - apply Hsub. intros x Hx. rewrite <- Hsplit. apply elem_of_app. by right.
  - by eapply progress_trans.
  - exists st2. unfold mbind, ST_bind. rewrite H1. split; [exact H2|]. split; [by eapply progress_trans|].
    intros sync Hin. rewrite <- Hsplit in Hin. apply elem_of_app in Hin as [Hin|Hin]; [|by apply M2].
    eapply progress_marked; [exact P2|by apply M1].
Qed.
End undisturbed.

(** C29: A drain that nobody disturbs ends, when the server accepts what it is sent: every
    row is then marked as sent, with the content it had. *)
Theorem drain_completes {D} (e : queue_env D) st size :
  ids_ok st -> (forall p n, others e p n = []) -> accepts_all e ->
  (forall id r, rows st !! id = Some r -> 0 <= id < 2 ^ 53 /\
    exists data, localSyncData (load e (resources st) r) = Ok data) ->
  exists st', replayLocalSyncs e size st = (Ok tt, st') /\
    forall id r, rows st !! id = Some r -> exists r', rows st' !! id = Some r' /\ sync_state r' = Success /\
      sync_data r' = sync_data r /\ sync_syncType r' = sync_syncType r /\ same_row r r'.
Proof.
  intros Hok Halone Hacc Hrows.
  set (st1 := {| rows := rows st; last_id := last_id st; resources := resources st; awaits := awaits st;
    requests := requests st; snapshots := ∅ |}).
  set (found := merge_sort by_creation (map (load e (resources st))
    (List.filter (fun r => bool_decide (sync_state r = Pending)) (map_to_list (rows st)).*2))).
  assert (from_rows e st1 found) as Hfrom.
  { intros sync Hsync. pose proof (pending_rows e st sync Hok Hsync) as Hrow.
    assert (sync = load e (resources st) (row sync)) as Hload.
    { unfold found in Hsync. rewrite merge_sort_Permutation in Hsync. by apply list_elem_of_fmap in Hsync as (r & -> & _). }
    destruct (Hrows _ _ Hrow) as [Hid [data Hdata]]. split_and!; try done; try lia. exists data. by rewrite Hload. }
  destruct (batches_run e Halone Hacc st1 (length found) (Z.to_nat (normalizedBatchSize size)) found st1) as (st' & Hrun & Hp & Hm).
  { pose proof (normalizedBatchSize_pos size). lia. }
  { done. }
  { exact Hfrom. }
  { apply progress_refl. }
  exists st'. split; [exact Hrun|]. intros id r Hr.
  assert (is_marked st1 id \/ exists sync, sync ∈ found /\ sync_id (row sync) = id) as Hcase.
  { destruct (sync_state r) eqn:Hs; [right|left; by exists r].
    exists (load e (resources st) r). split; [|by apply (keyed_by_id st Hok)]. unfold found. rewrite merge_sort_Permutation.
    apply list_elem_of_fmap. exists r. split; [done|]. apply list_elem_of_In, filter_In. rewrite bool_decide_eq_true.
    split; [|done]. apply list_elem_of_In, list_elem_of_fmap. exists (id, r). split; [done|]. by apply elem_of_map_to_list. }
  assert (is_marked st' id) as (r' & Hr' & Hs).
  { destruct Hcase as [Hc|(sync & Hin & <-)]; [by eapply progress_marked|by apply Hm]. }
  exists r'. split; [done|]. split; [done|].
  destruct (rows_marked _ _ Hp id r Hr) as [H|[now H]]; rewrite Hr' in H; injection H as ->; done.
Qed.

(** ** Two tasks and a server *)

(** Answers every row that has a number as its id. *)
Definition accept_request (request : list properties) : properties :=
  [("syncs", JArr (flat_map (fun p => match obj_get "id" p with
     | Some (JNum n) => [JObj [("id", JNum n); ("syncState", JStr "successful")]]
     | _ => []
     end) request))].

Definition accepting_server (sent : list (list properties)) : result string properties :=
  Ok (accept_request (default [] (last sent))).

Definition quiet_env : queue_env unit := {|
  optionalBoolean _ := None; attributes_of _ _ _ := None; others _ _ := [];
  postReplay := accepting_server; mark_time n := 1000 + Z.of_nat n |}.

Lemma accepting_server_accepts : accepts_all quiet_env.
Proof.
  intros before request. cbn [postReplay quiet_env]. unfold accepting_server. rewrite last_snoc. cbn [default].
  eexists _, _. split; [reflexivity|]. split; [reflexivity|]. split.
  - intros x Hx%list_elem_of_In. apply in_flat_map in Hx as (p & _ & Hx).
    destruct (obj_get "id" p) as [[| |n| | |]|]; try done. destruct Hx as [<-|[]]. eexists _, n. done.
  - intros p n Hp Hn. exists (JObj [("id", JNum n); ("syncState", JStr "successful")]). split; [|done].
    apply list_elem_of_In, in_flat_map. exists p. split; [by apply list_elem_of_In|]. rewrite Hn. by left.
Qed.

Definition task (id : Z) (resourceId title : string) (s : row_state) : local_sync := {|
  sync_id := id; sync_data := JObj [("title", JStr title)]; sync_resourceId := resourceId; sync_resourceType := "Task";
  sync_state := s; sync_syncType := "update"; sync_createdAt := id; sync_updatedAt := Some 100 |}.

Definition two_tasks : queue_state unit := {|
  rows := <[1 := task 1 "7" "a" Pending]> (<[2 := task 2 "8" "b" Pending]> ∅);
  last_id := 2; resources := tt; awaits := 0; requests := []; snapshots := ∅ |}.

Lemma two_tasks_ok : ids_ok two_tasks.
Proof.
  split; intros id r Hr; cbn in Hr |- *;
    apply lookup_insert_Some in Hr as [[<- <-]|[_ [[<- <-]|[_ Hr]]%lookup_insert_Some]]; try done; lia.
Qed.

Lemma drain_completes_witness : exists st', replayLocalSyncs quiet_env (of_Z 1) two_tasks = (Ok tt, st') /\
  forall id, id = 1 \/ id = 2 -> exists r, rows st' !! id = Some r /\ sync_state r = Success.
Proof.
  destruct (drain_completes quiet_env two_tasks (of_Z 1)) as (st' & Hrun & Hrows).
  - apply two_tasks_ok.
  - reflexivity.
  - apply accepting_server_accepts.
  - intros id r Hr. cbn in Hr.
    apply lookup_insert_Some in Hr as [[<- <-]|[_ [[<- <-]|[_ Hr]]%lookup_insert_Some]]; try done;
      (split; [lia|eexists; reflexivity]).
  - exists st'. split; [exact Hrun|]. intros id [-> | ->].
    + destruct (Hrows 1 (task 1 "7" "a" Pending)) as (r & H1 & H2 & _); [reflexivity|eauto].
    + destruct (Hrows 2 (task 2 "8" "b" Pending)) as (r & H1 & H2 & _); [reflexivity|eauto].
Defined.

(** A new title for task 7. *)
Definition edit_of_task : queue_args := {|
  args_model := Some "Task"; args_id := JNum "7"; args_attributes := [("title", Value (JStr "new"))]; args_data := None;
  args_syncType := ""; args_localOnly := []; args_booleans := []; args_normalize := None; args_now := 500 |}.

Definition busy_env (p : await_point) : queue_env unit := {|
  optionalBoolean _ := None; attributes_of _ _ _ := None;
  others q _ := match p, q with
    | WhilePosting, WhilePosting | BeforeMark, BeforeMark => [Queue edit_of_task] | _, _ => [] end;
  postReplay := accepting_server; mark_time n := 1000 |}.

Lemma drain_loses_no_change_witness :
  let st' := (replayLocalSyncs (busy_env WhilePosting) (of_Z 10) two_tasks).2 in
  option_map sync_state (rows st' !! 1) = Some Pending /\
  (exists r, rows st' !! 2 = Some r /\ acknowledged (busy_env WhilePosting) (requests st') r) /\
  evolves (rows two_tasks) (rows st').
Proof.
  destruct (replayLocalSyncs (busy_env WhilePosting) (of_Z 10) two_tasks) as [r st'] eqn:Hrun.
  destruct (drain_loses_no_change (busy_env WhilePosting) two_tasks (of_Z 10) r st') as (_ & Hev & Hall).
  - apply two_tasks_ok.
  - reflexivity.
  - exact Hrun.
  - cbn [snd]. assert (rows st' = rows (replayLocalSyncs (busy_env WhilePosting) (of_Z 10) two_tasks).2) as Hst
      by by rewrite Hrun.
    split; [rewrite Hst; vm_compute; reflexivity|]. split; [|exact Hev].
    exists {| sync_id := 2; sync_data := JObj [("title", JStr "b")]; sync_resourceId := "8"; sync_resourceType := "Task";
      sync_state := Success; sync_syncType := "update"; sync_createdAt := 2; sync_updatedAt := Some 1000 |}.
    assert (rows st' !! 2 = Some {| sync_id := 2; sync_data := JObj [("title", JStr "b")]; sync_resourceId := "8";
      sync_resourceType := "Task"; sync_state := Success; sync_syncType := "update"; sync_createdAt := 2;
      sync_updatedAt := Some 1000 |}) as H2 by (rewrite Hst; vm_compute; reflexivity).
    split; [exact H2|]. destruct (Hall _ _ H2 eq_refl) as [Hold|Hack]; [vm_compute in Hold; discriminate Hold|exact Hack].
Defined.

(** [markSuccessful] reads the row and writes its state in two awaited calls. A change that
    is queued between them is marked as sent, although nobody has sent it. *)
Example edit_before_mark_is_lost :
  let st' := (replayLocalSyncs (busy_env BeforeMark) (of_Z 10)
    {| rows := <[1 := task 1 "7" "a" Pending]> ∅; last_id := 1; resources := tt; awaits := 0; requests := []; snapshots := ∅ |}).2 in
  option_map (fun r => (sync_data r, sync_state r)) (rows st' !! 1) = Some (JObj [("title", JStr "new")], Success) /\
  map (map (fun p => obj_get "data" p)) (requests st') = [[Some (JObj [("title", JStr "a")])]].
Proof. vm_compute. done. Qed.
