(* ===== verification/QueueReplay.v ===== *)
(** * The queue of local changes against the replay service

    A drain of [SyncQueue.v] whose server is [EnvelopeReplay.v]. *)

From stdpp Require Import base gmap strings list.
From Stdlib Require Import ZArith Ascii Lia.
From S2P Require Import Prelude Json Dates Numbers ConflictStrategy SyncReplay SyncQueue SyncQueueCorrect EnvelopeReplay EnvelopeReplayCorrect.
Open Scope Z_scope.

(** A server that reads the times a client writes. *)
Definition task_service : @replay_service nat := {|
  parse_date text := List.find (fun t => bool_decide (text = toISOString t)) [100; 500; 1000];
  now _ := 0; find_token := find_token demo_service; authenticationTokenParam := "authenticationToken";
  authorizeReplayMutation := authorizeReplayMutation demo_service; applyHandlers := applyHandlers demo_service;
  routing := None; conflictStrategy := false; persistExtraAttributes _ _ _ := [];
  persistSerializedData _ _ := None; broadcasts := []; EnvelopeReplay.others _ st := st |}.

(** The server after the requests of a client. *)
Definition served_by (sent : list (list properties)) : replayed properties * replay_state nat :=
  fold_left (fun run request =>
    replay task_service [("authenticationToken", JStr "u"); ("syncs", JArr (map JObj request))] run.2)
    sent (Ok [], demo_start).

(** The response to the first request is lost on its way. *)
Definition lossy_env : queue_env unit := {|
  optionalBoolean _ := None; attributes_of _ _ _ := None; SyncQueue.others _ _ := [];
  SyncQueue.postReplay sent :=
    if decide (length sent = 1%nat) then Throw "connection lost"%string else
    match (served_by sent).1 with Ok response => Ok response | Throw _ => Throw "500"%string end;
  mark_time _ := 1000 |}.

Definition one_task : queue_state unit := {|
  rows := <[1 := task 1 "7" "a" Pending]> ∅; last_id := 1; resources := tt; SyncQueue.awaits := 0%nat; requests := [];
  snapshots := ∅ |}.

(** The server applies the change once and answers the second request, which repeats the
    first, with "duplicate". [replayBatch] takes only "successful": this drain throws, the
    row stays pending, and so it is with every later drain, for all the rows behind it. *)
Example lost_response_blocks_the_queue :
  let first := replayLocalSyncs lossy_env (of_Z 10) one_task in
  let second := replayLocalSyncs lossy_env (of_Z 10) first.2 in
  let third := replayLocalSyncs lossy_env (of_Z 10) second.2 in
  first.1 = Throw (ReplayFailed (TransportFailed "connection lost")) /\
  second.1 = Throw (ReplayFailed (InvalidSyncState "1")) /\ third.1 = second.1 /\
  option_map sync_state (rows third.2 !! 1) = Some Pending /\
  domain (served_by (requests third.2)).2 = 1%nat.
Proof. vm_compute. done. Qed.

(** A change that is queued in the millisecond in which the row was sent has the time of
    the change before. The server takes it for a stale one, answers "successful" and drops
    it; the client marks the row as sent. *)
Definition same_time_env : queue_env unit := {|
  optionalBoolean _ := None; attributes_of _ _ _ := None;
  SyncQueue.others q n := match q, n with WhilePosting, O => [Queue {|
      args_model := Some "Task"%string; args_id := JNum "7"; args_attributes := [("title"%string, Value (JStr "new"))]; args_data := None;
      args_syncType := ""; args_localOnly := []; args_booleans := []; args_normalize := None; args_now := 100 |}]
    | _, _ => [] end;
  SyncQueue.postReplay sent := match (served_by sent).1 with Ok response => Ok response | Throw _ => Throw "500"%string end;
  mark_time _ := 1000 |}.

Example change_of_the_same_millisecond_is_lost :
  let first := replayLocalSyncs same_time_env (of_Z 10) one_task in
  let second := replayLocalSyncs same_time_env (of_Z 10) first.2 in
  option_map sync_state (rows first.2 !! 1) = Some Pending /\ second.1 = Ok tt /\
  option_map (fun r => (sync_data r, sync_state r)) (rows second.2 !! 1) = Some (JObj [("title", JStr "new")], Success) /\
  domain (served_by (requests second.2)).2 = 1%nat /\
  map (fun r => row_data (row_values r)) (sync_rows (served_by (requests second.2)).2) =
    [JStr (stringify (JObj [("title", JStr "a")]))].
Proof. vm_compute. done. Qed.
