(* ===== verification/LocalStore.v ===== *)
(** * The local background-jobs store ([src/src/background-jobs/local-store.js])

    The durable queue of the in-process dispatcher: one table of jobs, one of
    concurrency counters. [database] holds the rows of the two tables;
    every method of [LocalBackgroundJobsStore] that reads or writes them is a
    step of the state-and-exception monad over [world]. [_mutate] is the
    transaction: what it wrote is undone when its callback throws.

    The clock, the identifier generator, the scan order of a query without
    [ORDER BY] and the queue configuration are the environment [env]; each
    reading of the clock or of the generator gives the next element of its
    stream, and nothing is assumed of either. [LocalProtocol.v] is the
    abstract specification: the steps a queue may take, which every method
    refines. *)

From stdpp Require Import base gmap strings list sorting.
From Stdlib Require Import ZArith QArith Lia.
From S2P Require Import Prelude Sql Json Sha256 JobSemantics.
Open Scope Z_scope.

(** ** Rows *)

Inductive job_status := Queued | HandedOff | Completed | Failed.

#[export] Instance job_status_eq_dec : EqDecision job_status.
Proof. solve_decision. Defined.

(** A row of [velocious_local_background_jobs]. *)
Record job_row := {
  id : string;
  job_name : string;
  args_json : string;
  args_digest : string;
  execution_mode_column : string;
  queue : string;
  max_retries : Z;
  attempts : Z;
  status : job_status;
  scheduled_at_ms : Z;
  created_at_ms : Z;
  handed_off_at_ms : option Z;
  handoff_id : option string;
  worker_id : option string;
  completed_at_ms : option Z;
  failed_at_ms : option Z;
  last_error : option string;
  concurrency_key : option string;
  max_concurrency : option Z
}.

(** A row of [velocious_local_background_job_concurrency]. *)
Record counter_row := { counter_cap : Z; active_count : Z }.

#[export] Instance job_row_eq_dec : EqDecision job_row.
Proof. solve_decision. Defined.
#[export] Instance counter_row_eq_dec : EqDecision counter_row.
Proof. solve_decision. Defined.

(** The two tables, by primary key. *)
Record database := {
  jobs : gmap string job_row;
  counters : gmap string counter_row
}.

Definition empty_database : database := {| jobs := ∅; counters := ∅ |}.

Record world := {
  db : database;
  ticks : nat;      (* readings of the clock *)
  uuids : nat;      (* identifiers generated *)
  wakes : nat       (* calls of onCommittedEnqueue after a commit *)
}.

Record env := {
  clock : nat -> Z;
  uuid : nat -> string;
  job_scan : scan_order string job_row;
  queues : gmap string queue_config;
  has_onCommittedEnqueue : bool
}.

Inductive store_error :=
| Semantics (e : semantics_error)
| IdempotencyKeyUnsupported
| ModeInvariantViolated
| DuplicateJobId (jobId : string)          (* primary-key violation of the insert *)
| ConflictingMaxConcurrency (key : string)
| MissingCounterRow (key : string)         (* rows[0] is undefined *)
| InvalidJson (text : string)              (* SyntaxError of JSON.parse *)
| InvalidArgsJson (jobId : string)
| NaNScheduledAt.                          (* an unquoted NaN in the UPDATE *)

Definition M := ST world store_error.

(** ** Statements *)

Definition set_db (f : database -> database) (w : world) : world :=
  {| db := f (db w); ticks := ticks w; uuids := uuids w; wakes := wakes w |}.

Definition set_jobs (f : gmap string job_row -> gmap string job_row) (d : database) : database :=
  {| jobs := f (jobs d); counters := counters d |}.
Definition set_counters (f : gmap string counter_row -> gmap string counter_row) (d : database) :
    database := {| jobs := jobs d; counters := f (counters d) |}.

(** [this.clock.now()] *)
Definition now (e : env) : M Z := fun w =>
  (Ok (clock e (ticks w)),
   {| db := db w; ticks := S (ticks w); uuids := uuids w; wakes := wakes w |}).

(** [new UUID(4).format()] *)
Definition new_uuid (e : env) : M string := fun w =>
  (Ok (uuid e (uuids w)),
   {| db := db w; ticks := ticks w; uuids := S (uuids w); wakes := wakes w |}).

(** [db.afterCommit(this.onCommittedEnqueue)]: run once the enclosing
    transaction commits; a roll back forgets it. *)
Definition after_commit_wake (e : env) : M unit := fun w =>
  if has_onCommittedEnqueue e
  then (Ok tt, {| db := db w; ticks := ticks w; uuids := uuids w; wakes := S (wakes w) |})
  else (Ok tt, w).

(** [SELECT * FROM jobs WHERE p] *)
Definition select_jobs (e : env) (p : job_row -> bool) : M (list job_row) :=
  gets (fun w => List.filter p (scan (job_scan e) (jobs (db w)))).

(** [UPDATE jobs SET … WHERE id = jobId AND p]; the number of affected rows. *)
Definition update_job (jobId : string) (p : job_row -> bool) (f : job_row -> job_row) : M Z :=
  fun w => match jobs (db w) !! jobId with
  | Some r =>
      if p r then (Ok 1, set_db (set_jobs (insert jobId (f r))) w) else (Ok 0, w)
  | None => (Ok 0, w)
  end.

(** [UPDATE counters SET active_count = … WHERE concurrency_key = key AND p] *)
Definition update_counter (key : string) (p : counter_row -> bool)
    (f : counter_row -> counter_row) : M Z :=
  fun w => match counters (db w) !! key with
  | Some c =>
      if p c then (Ok 1, set_db (set_counters (insert key (f c))) w) else (Ok 0, w)
  | None => (Ok 0, w)
  end.

(** Joins or opens a transaction: a throw undoes the writes and the callbacks
    registered for the commit, and is rethrown. *)
Definition _mutate {A} (callback : M A) : M A := fun w =>
  match callback w with
  | (Ok a, w') => (Ok a, w')
  | (Throw e, w') =>
      (Throw e, {| db := db w; ticks := ticks w'; uuids := uuids w'; wakes := wakes w |})
  end.

Definition has_status (s : job_status) (r : job_row) : bool := bool_decide (status r = s).

(** ** The normalized row *)

Record job := {
  j_args : list json;
  j_attempts : Z;
  j_completedAtMs : option Z;
  j_concurrencyKey : option string;
  j_createdAtMs : Z;
  j_failedAtMs : option Z;
  j_handedOffAtMs : option Z;
  j_handoffId : option string;
  j_id : string;
  j_jobName : string;
  j_lastError : option string;
  j_maxConcurrency : option Z;
  j_maxRetries : Z;
  j_queue : string;
  j_scheduledAtMs : Z;
  j_status : job_status;
  j_workerId : option string
}.

Definition mode_options (mode : string) : job_options := {|
  opt_queue := JsUndefined; opt_has_forked := false; opt_executionMode := Some mode;
  opt_maxRetries := JsUndefined; opt_scheduledAtMs := JsUndefined;
  opt_concurrencyKey := JsUndefined; opt_maxConcurrency := JsUndefined;
  opt_deduplicateWhileQueued := false; opt_idempotencyKey := JsUndefined |}.

Definition LOCAL_EXECUTION_MODES : list execution_mode := [Inline].

(** The numeric columns of a row are numbers or NULL, so [_numberOrNull] is
    the identity on them. *)
Definition _numberOrNull (value : option Z) : option Z := value.

Definition lift_semantics {A} (r : result semantics_error A) : result store_error A :=
  match r with Ok a => Ok a | Throw e => Throw (Semantics e) end.

Definition _normalizeRow (r : job_row) : result store_error job :=
  match parse (args_json r) with
  | None => Throw (InvalidJson (args_json r))
  | Some parsedArgs =>
      executionMode ← lift_semantics (normalizeBackgroundJobExecutionMode
        (mode_options (execution_mode_column r)) Inline LOCAL_EXECUTION_MODES);
      match parsedArgs with
      | JArr args =>
          if decide (executionMode = Inline) then
            Ok {| j_args := args;
                  j_attempts := attempts r;
                  j_completedAtMs := _numberOrNull (completed_at_ms r);
                  j_concurrencyKey := concurrency_key r;
                  j_createdAtMs := created_at_ms r;
                  j_failedAtMs := _numberOrNull (failed_at_ms r);
                  j_handedOffAtMs := _numberOrNull (handed_off_at_ms r);
                  j_handoffId := handoff_id r;
                  j_id := id r;
                  j_jobName := job_name r;
                  j_lastError := last_error r;
                  j_maxConcurrency := _numberOrNull (max_concurrency r);
                  j_maxRetries := max_retries r;
                  j_queue := if decide (queue r = "") then DEFAULT_BACKGROUND_JOB_QUEUE else queue r;
                  j_scheduledAtMs := scheduled_at_ms r;
                  j_status := status r;
                  j_workerId := worker_id r |}
          else Throw ModeInvariantViolated
      | _ => Throw (InvalidArgsJson (id r))
      end
  end.

Definition _getJob (jobId : string) : M (option job) := fun w =>
  match jobs (db w) !! jobId with
  | Some r => match _normalizeRow r with Ok j => (Ok (Some j), w) | Throw e => (Throw e, w) end
  | None => (Ok None, w)
  end.

(** Normalizes every row of a result. *)
Fixpoint normalize_rows (rows : list job_row) : result store_error (list job) :=
  match rows with
  | [] => Ok []
  | r :: rows' => j ← _normalizeRow r; js ← normalize_rows rows'; Ok (j :: js)
  end.

(** ** Concurrency counters *)

(** [key || null]: the empty key is no key. *)
Definition truthy (s : option string) : option string :=
  match s with Some (String _ _ as k) => Some k | _ => None end.

(** The insert of [db.upsert] keeps an existing row: its update column is the
    key itself. *)
Definition upsert_counter (key : string) (cap : Z) : M unit :=
  modify (set_db (set_counters (fun cs =>
    match cs !! key with
    | Some _ => cs
    | None => <[ key := {| counter_cap := cap; active_count := 0 |} ]> cs
    end))).

Definition _ensureConcurrency (c : resolved_concurrency) : M unit :=
  _ ← upsert_counter (concurrencyKey c) (maxConcurrency c);
  row ← gets (fun w => counters (db w) !! concurrencyKey c);
  match row with
  | None => throw (MissingCounterRow (concurrencyKey c))
  | Some existingRow =>
      if counter_cap existingRow =? maxConcurrency c then mret tt
      else if negb (queueDerived c) then throw (ConflictingMaxConcurrency (concurrencyKey c))
      else _ ← update_counter (concurrencyKey c) (fun _ => true) (fun row =>
                 {| counter_cap := maxConcurrency c; active_count := active_count row |});
           mret tt
  end.

Definition add_active (n : Z) (c : counter_row) : counter_row :=
  {| counter_cap := counter_cap c; active_count := active_count c + n |}.

Definition _reserveConcurrency (key : string) : M bool :=
  affectedRows ← update_counter key (fun c => active_count c <? counter_cap c) (add_active 1);
  mret (affectedRows =? 1).

Definition _releaseConcurrency (key : option string) : M unit :=
  match truthy key with
  | None => mret tt
  | Some k => _ ← update_counter k (fun c => 0 <? active_count c) (add_active (-1)); mret tt
  end.

(** [SET active_count = active_count]: takes the write lock. *)
Definition _lockConcurrencyRow (key : option string) : M unit :=
  match truthy key with
  | None => mret tt
  | Some k => _ ← update_counter k (fun _ => true) (fun c => c); mret tt
  end.

(** [SELECT COUNT( * )] of the handed-off jobs with a concurrency key. *)
Definition holds_key (key : string) (r : job_row) : bool :=
  has_status HandedOff r && bool_decide (concurrency_key r = Some key).

Definition handed_off_count (js : gmap string job_row) (key : string) : Z :=
  count_where (holds_key key) js.

Definition rebuild_counts (d : database) : database :=
  set_counters (map_imap (fun key c =>
    Some {| counter_cap := counter_cap c; active_count := handed_off_count (jobs d) key |})) d.

Definition _rebuildConcurrencyCounts : M unit := modify (set_db rebuild_counts).

(** ** Enqueueing *)

Record prepared_job := {
  p_argsDigest : string;
  p_argsJson : string;
  p_concurrency : option resolved_concurrency;
  p_createdAtMs : Z;
  p_executionMode : string;
  p_jobId : string;
  p_jobName : string;
  p_maxRetries : Z;
  p_queue : string;
  p_scheduledAtMs : Z
}.

Definition _prepareJob (e : env) (jobName : string) (args : list json) (options : job_options) :
    M prepared_job :=
  if negb (is_undefined (opt_idempotencyKey options)) then throw IdempotencyKeyUnsupported else
  createdAtMs ← now e;
  let queue := normalizeBackgroundJobQueue (Some options) in
  let argsJson := stringify (JArr args) in
  executionMode ← lift_result (lift_semantics
    (normalizeBackgroundJobExecutionMode options Inline LOCAL_EXECUTION_MODES));
  if negb (bool_decide (executionMode = Inline)) then throw ModeInvariantViolated else
  concurrency ← lift_result (lift_semantics
    (normalizeBackgroundJobConcurrency options queue (queues e)));
  jobId ← new_uuid e;
  scheduledAtMs ← lift_result (lift_semantics
    (normalizeBackgroundJobScheduledAtMs (opt_scheduledAtMs options) createdAtMs));
  mret {| p_argsDigest := sha256Hex argsJson;
          p_argsJson := argsJson;
          p_concurrency := concurrency;
          p_createdAtMs := createdAtMs;
          p_executionMode := execution_mode_name executionMode;
          p_jobId := jobId;
          p_jobName := jobName;
          p_maxRetries := normalizeBackgroundJobMaxRetries (opt_maxRetries options);
          p_queue := queue;
          p_scheduledAtMs := scheduledAtMs |}.

Definition prepared_row (p : prepared_job) : job_row := {|
  args_digest := p_argsDigest p;
  args_json := p_argsJson p;
  attempts := 0;
  completed_at_ms := None;
  concurrency_key := p_concurrency p ≫= fun c => truthy (Some (concurrencyKey c));
  created_at_ms := p_createdAtMs p;
  execution_mode_column := p_executionMode p;
  failed_at_ms := None;
  handed_off_at_ms := None;
  handoff_id := None;
  id := p_jobId p;
  job_name := p_jobName p;
  last_error := None;
  max_concurrency := p_concurrency p ≫= fun c =>
    if maxConcurrency c =? 0 then None else Some (maxConcurrency c);
  max_retries := p_maxRetries p;
  queue := p_queue p;
  scheduled_at_ms := p_scheduledAtMs p;
  status := Queued;
  worker_id := None
|}.

Definition _insertPreparedJob (p : prepared_job) : M unit := fun w =>
  match jobs (db w) !! p_jobId p with
  | Some _ => (Throw (DuplicateJobId (p_jobId p)), w)
  | None => (Ok tt, set_db (set_jobs (insert (p_jobId p) (prepared_row p))) w)
  end.

(** The queued jobs a deduplicated enqueue may return instead of inserting. *)
Definition same_queued_job (p : prepared_job) (r : job_row) : bool :=
  bool_decide (args_digest r = p_argsDigest p) && bool_decide (args_json r = p_argsJson p) &&
  bool_decide (job_name r = p_jobName p) && bool_decide (queue r = p_queue p) &&
  has_status Queued r && (scheduled_at_ms r <=? p_scheduledAtMs p).

Definition oldest_due : relation job_row :=
  then_by (by_key Z.le scheduled_at_ms) (by_key Z.le created_at_ms).

Definition enqueue_prepared (e : env) (deduplicateWhileQueued : bool) (p : prepared_job) :
    M string :=
  _ ← match p_concurrency p with Some c => _ensureConcurrency c | None => mret tt end;
  jobId ← (if deduplicateWhileQueued then
    existing ← select_jobs e (same_queued_job p);
    match first_by oldest_due existing with
    | Some existingRow => mret (id existingRow)
    | None => mret (p_jobId p)
    end
  else mret (p_jobId p));
  _ ← (if decide (jobId = p_jobId p) then _insertPreparedJob p else mret tt);
  _ ← after_commit_wake e;
  mret jobId.

Definition enqueue (e : env) (jobName : string) (args : list json) (options : job_options) :
    M string :=
  preparedJob ← _prepareJob e jobName args options;
  _mutate (enqueue_prepared e (opt_deduplicateWhileQueued options) preparedJob).

(** ** Reconciliation with the queue configuration *)

Definition set_concurrency (key : option string) (cap : option Z) (r : job_row) : job_row := {|
  id := id r; job_name := job_name r; args_json := args_json r; args_digest := args_digest r;
  execution_mode_column := execution_mode_column r; queue := queue r;
  max_retries := max_retries r; attempts := attempts r; status := status r;
  scheduled_at_ms := scheduled_at_ms r; created_at_ms := created_at_ms r;
  handed_off_at_ms := handed_off_at_ms r; handoff_id := handoff_id r; worker_id := worker_id r;
  completed_at_ms := completed_at_ms r; failed_at_ms := failed_at_ms r;
  last_error := last_error r; concurrency_key := key; max_concurrency := cap |}.

Definition with_concurrency (key : option string) (cap : option Z) (j : job) : job := {|
  j_args := j_args j; j_attempts := j_attempts j; j_completedAtMs := j_completedAtMs j;
  j_concurrencyKey := key; j_createdAtMs := j_createdAtMs j; j_failedAtMs := j_failedAtMs j;
  j_handedOffAtMs := j_handedOffAtMs j; j_handoffId := j_handoffId j; j_id := j_id j;
  j_jobName := j_jobName j; j_lastError := j_lastError j; j_maxConcurrency := cap;
  j_maxRetries := j_maxRetries j; j_queue := j_queue j; j_scheduledAtMs := j_scheduledAtMs j;
  j_status := j_status j; j_workerId := j_workerId j |}.

Definition queue_derived_key (key : option string) : bool :=
  match key with Some k => starts_with QUEUE_CONCURRENCY_KEY_PREFIX k | None => false end.

Definition _reconcileQueuedJobConcurrency (e : env) (j : job) : M job :=
  let currentIsQueueDerived := queue_derived_key (j_concurrencyKey j) in
  if bool_decide (truthy (j_concurrencyKey j) <> None) && negb currentIsQueueDerived
  then mret j else
  concurrency ← lift_result (lift_semantics
    (normalizeBackgroundJobConcurrency empty_options (j_queue j) (queues e)));
  match concurrency with
  | None =>
      _ ← (if currentIsQueueDerived
           then _ ← update_job (j_id j) (has_status Queued) (set_concurrency None None); mret tt
           else mret tt);
      mret (with_concurrency None None j)
  | Some c =>
      _ ← _ensureConcurrency c;
      let key := Some (concurrencyKey c) in
      let cap := Some (maxConcurrency c) in
      _ ← (if bool_decide (j_concurrencyKey j <> key) || bool_decide (j_maxConcurrency j <> cap)
           then _ ← update_job (j_id j) (has_status Queued) (set_concurrency key cap); mret tt
           else mret tt);
      mret (with_concurrency key cap j)
  end.

Definition reconcileQueueConcurrency (e : env) : M unit :=
  _mutate (
    rows ← select_jobs e (has_status Queued);
    _ ← for_each (fun rawRow =>
          j ← lift_result (_normalizeRow rawRow);
          _ ← _reconcileQueuedJobConcurrency e j;
          mret tt) rows;
    _rebuildConcurrencyCounts).

(** ** Queries *)

(** The configured priorities: finite and not zero. *)
Definition prioritized (qs : gmap string queue_config) : gmap string Q :=
  omap (fun c => match priority c with
                 | JsNumber (Fin p) => if Qeq_bool p 0 then None else Some p
                 | _ => None
                 end) qs.

(** [CASE queue WHEN … THEN … ELSE 0 END], or no ordering at all. *)
Definition _queuePriorityOrderSql (qs : gmap string queue_config) : option (job_row -> Q) :=
  if decide (prioritized qs = ∅) then None
  else Some (fun r => default 0%Q (prioritized qs !! queue r)).

Definition by_schedule : relation job_row :=
  then_by (by_key Z.le scheduled_at_ms)
    (then_by (by_key Z.le created_at_ms) (by_key String.le id)).

(** The two shapes of the [ORDER BY]. *)
Definition first_in_order (priorityOrder : option (job_row -> Q)) (rows : list job_row) :
    option job_row :=
  match priorityOrder with
  | Some p => first_by (then_by (by_key (flip Qle) p) by_schedule) rows
  | None => first_by by_schedule rows
  end.

(** [concurrency_key IS NULL OR EXISTS (SELECT 1 … active_count < max_concurrency)] *)
Definition has_capacity (d : database) (r : job_row) : bool :=
  match concurrency_key r with
  | None => true
  | Some key =>
      match counters d !! key with
      | Some c => active_count c <? counter_cap c
      | None => false
      end
  end.

Definition normalize_first (row : option job_row) : M (option job) :=
  match row with
  | Some r => j ← lift_result (_normalizeRow r); mret (Some j)
  | None => mret None
  end.

Definition nextAvailableJob (e : env) : M (option job) :=
  nowMs ← now e;
  d ← gets db;
  rows ← select_jobs e (fun r =>
    has_status Queued r && (scheduled_at_ms r <=? nowMs) && has_capacity d r);
  normalize_first (first_in_order (_queuePriorityOrderSql (queues e)) rows).

Definition nextScheduledJob (e : env) : M (option job) :=
  nowMs ← now e;
  rows ← select_jobs e (fun r => has_status Queued r && (nowMs <? scheduled_at_ms r));
  normalize_first (first_by by_schedule rows).

Definition getJob (jobId : string) : M (option job) := _getJob jobId.

Definition by_creation : relation job_row :=
  then_by (by_key Z.le created_at_ms) (by_key String.le id).

Definition listJobs (e : env) : M (list job) :=
  rows ← select_jobs e (fun _ => true);
  lift_result (normalize_rows (merge_sort by_creation rows)).

Definition handedOffJobsForWorker (e : env) (workerId : string) : M (list (string * string)) :=
  rows ← select_jobs e (fun r => has_status HandedOff r && bool_decide (worker_id r = Some workerId));
  js ← lift_result (normalize_rows rows);
  mret (omap (fun j => h ← truthy (j_handoffId j); Some (j_id j, h)) js).

(** ** Claims and acknowledgements *)

(** [SET handed_off_at_ms, handoff_id, status = 'handed_off', worker_id] *)
Definition hand_off (handedOffAtMs : Z) (handoffId workerId : string) (r : job_row) : job_row := {|
  id := id r; job_name := job_name r; args_json := args_json r; args_digest := args_digest r;
  execution_mode_column := execution_mode_column r; queue := queue r;
  max_retries := max_retries r; attempts := attempts r; status := HandedOff;
  scheduled_at_ms := scheduled_at_ms r; created_at_ms := created_at_ms r;
  handed_off_at_ms := Some handedOffAtMs; handoff_id := Some handoffId;
  worker_id := Some workerId; completed_at_ms := completed_at_ms r;
  failed_at_ms := failed_at_ms r; last_error := last_error r;
  concurrency_key := concurrency_key r; max_concurrency := max_concurrency r |}.

(** [SET handed_off_at_ms = NULL, handoff_id = NULL, scheduled_at_ms, status =
    'queued', worker_id = NULL] *)
Definition requeue (scheduledAtMs : Z) (r : job_row) : job_row := {|
  id := id r; job_name := job_name r; args_json := args_json r; args_digest := args_digest r;
  execution_mode_column := execution_mode_column r; queue := queue r;
  max_retries := max_retries r; attempts := attempts r; status := Queued;
  scheduled_at_ms := scheduledAtMs; created_at_ms := created_at_ms r;
  handed_off_at_ms := None; handoff_id := None; worker_id := None;
  completed_at_ms := completed_at_ms r; failed_at_ms := failed_at_ms r;
  last_error := last_error r;
  concurrency_key := concurrency_key r; max_concurrency := max_concurrency r |}.

(** [SET completed_at_ms, status = 'completed'] *)
Definition complete (completedAtMs : Z) (r : job_row) : job_row := {|
  id := id r; job_name := job_name r; args_json := args_json r; args_digest := args_digest r;
  execution_mode_column := execution_mode_column r; queue := queue r;
  max_retries := max_retries r; attempts := attempts r; status := Completed;
  scheduled_at_ms := scheduled_at_ms r; created_at_ms := created_at_ms r;
  handed_off_at_ms := handed_off_at_ms r; handoff_id := handoff_id r;
  worker_id := worker_id r; completed_at_ms := Some completedAtMs;
  failed_at_ms := failed_at_ms r; last_error := last_error r;
  concurrency_key := concurrency_key r; max_concurrency := max_concurrency r |}.

(** The data of [_applyFailure]: [outcome] is the new eligibility time of a
    retry, or the time of the terminal failure. *)
Inductive failure_outcome := RetryAt (scheduledAtMs : Z) | FailAt (failedAtMs : Z).

Definition fail_row (newAttempts : Z) (error : string) (outcome : failure_outcome) (r : job_row) :
    job_row := {|
  id := id r; job_name := job_name r; args_json := args_json r; args_digest := args_digest r;
  execution_mode_column := execution_mode_column r; queue := queue r;
  max_retries := max_retries r; attempts := newAttempts;
  status := match outcome with RetryAt _ => Queued | FailAt _ => Failed end;
  scheduled_at_ms := match outcome with RetryAt t => t | FailAt _ => scheduled_at_ms r end;
  created_at_ms := created_at_ms r;
  handed_off_at_ms := None; handoff_id := None; worker_id := None;
  completed_at_ms := completed_at_ms r;
  failed_at_ms := match outcome with RetryAt _ => failed_at_ms r | FailAt t => Some t end;
  last_error := Some error;
  concurrency_key := concurrency_key r; max_concurrency := max_concurrency r |}.

(** A performance error, as [normalizeBackgroundJobError] tells the cases apart. *)
Inductive job_error :=
| ErrorObject (stack message : string)
| ErrorString (text : string)
| ErrorValue (value : json).

Definition normalizeBackgroundJobError (error : job_error) : string :=
  match error with
  | ErrorObject stack message => if decide (stack = "") then message else stack
  | ErrorString text => text
  | ErrorValue value => stringify value
  end.

(** [Boolean(job && job.status === "handed_off" && job.handoffId && job.handoffId === handoffId)] *)
Definition _acceptsHandoff (j : option job) (handoffId : option string) : bool :=
  match j with
  | Some j =>
      bool_decide (j_status j = HandedOff) && bool_decide (truthy (j_handoffId j) <> None) &&
      bool_decide (j_handoffId j = handoffId)
  | None => false
  end.

(** [{handoff_id: handoffId, status: "handed_off"}] *)
Definition holds_handoff (handoffId : option string) (r : job_row) : bool :=
  bool_decide (handoff_id r = handoffId) && has_status HandedOff r.

(** The writes shared by the acknowledgements: fenced update, then release. *)
Definition fenced_update (j : job) (handoffId : option string) (f : job_row -> job_row) : M bool :=
  affectedRows ← update_job (j_id j) (holds_handoff handoffId) f;
  if negb (affectedRows =? 1) then mret false
  else _ ← _releaseConcurrency (j_concurrencyKey j); mret true.

Definition markHandedOff (e : env) (jobId : string) (handoffId workerId : option string) :
    M (option (Z * string)) :=
  handoffId ← match handoffId with Some h => mret h | None => new_uuid e end;
  _mutate (
    j ← _getJob jobId;
    match j with
    | None => mret None
    | Some j =>
        if negb (bool_decide (j_status j = Queued)) then mret None else
        nowMs ← now e;
        if nowMs <? j_scheduledAtMs j then mret None else
        reserved ← match truthy (j_concurrencyKey j) with
                   | Some key => _reserveConcurrency key
                   | None => mret true
                   end;
        if negb reserved then mret None else
        handedOffAtMs ← now e;
        affectedRows ← update_job jobId (has_status Queued)
          (hand_off handedOffAtMs handoffId (default "local" (truthy workerId)));
        if negb (affectedRows =? 1)
        then _ ← _releaseConcurrency (j_concurrencyKey j); mret None
        else mret (Some (handedOffAtMs, handoffId))
    end).

Definition markReturnedToQueue (e : env) (jobId handoffId : string) : M unit :=
  _mutate (
    j ← _getJob jobId;
    match j with
    | Some j' =>
        if negb (_acceptsHandoff j (Some handoffId)) then mret tt else
        _ ← _lockConcurrencyRow (j_concurrencyKey j');
        nowMs ← now e;
        _ ← fenced_update j' (Some handoffId) (requeue nowMs);
        mret tt
    | None => mret tt
    end).

Definition markCompleted (e : env) (jobId : string) (handoffId : option string) : M bool :=
  _mutate (
    j ← _getJob jobId;
    match j with
    | Some j' =>
        if negb (_acceptsHandoff j handoffId) then mret false else
        _ ← _lockConcurrencyRow (j_concurrencyKey j');
        nowMs ← now e;
        fenced_update j' handoffId (complete nowMs)
    | None => mret false
    end).

Definition markRescheduled (e : env) (jobId : string) (handoffId : option string)
    (delayMs : scalar) : M bool :=
  _mutate (
    j ← _getJob jobId;
    match j with
    | Some j' =>
        if negb (_acceptsHandoff j handoffId) then mret false else
        _ ← _lockConcurrencyRow (j_concurrencyKey j');
        nowMs ← now e;
        scheduledAtMs ← lift_result (lift_semantics (rescheduledBackgroundJobAtMs delayMs nowMs));
        fenced_update j' handoffId (requeue scheduledAtMs)
    | None => mret false
    end).

(** The snapshot [_applyFailure] returns. *)
Definition failed_snapshot (newAttempts : Z) (error : string) (outcome : failure_outcome) (j : job) :
    job := {|
  j_args := j_args j; j_attempts := newAttempts; j_completedAtMs := j_completedAtMs j;
  j_concurrencyKey := j_concurrencyKey j; j_createdAtMs := j_createdAtMs j;
  j_failedAtMs := match outcome with RetryAt _ => j_failedAtMs j | FailAt t => Some t end;
  j_handedOffAtMs := None; j_handoffId := None; j_id := j_id j; j_jobName := j_jobName j;
  j_lastError := Some error; j_maxConcurrency := j_maxConcurrency j;
  j_maxRetries := j_maxRetries j; j_queue := j_queue j;
  j_scheduledAtMs := match outcome with RetryAt t => t | FailAt _ => j_scheduledAtMs j end;
  j_status := match outcome with RetryAt _ => Queued | FailAt _ => Failed end;
  j_workerId := None |}.

Definition _applyFailure (e : env) (j : job) (error : job_error) : M (option job) :=
  let newAttempts := j_attempts j + 1 in
  let maxRetries := normalizeBackgroundJobMaxRetries (of_Z (j_maxRetries j)) in
  let willRetry := newAttempts <=? maxRetries in
  nowMs ← now e;
  let lastError := normalizeBackgroundJobError error in
  outcome ← (if willRetry then
               match retryDelayMs newAttempts with
               | Some delay => mret (RetryAt (nowMs + delay))
               | None => throw NaNScheduledAt
               end
             else mret (FailAt nowMs));
  _ ← _lockConcurrencyRow (j_concurrencyKey j);
  updated ← fenced_update j (j_handoffId j) (fail_row newAttempts lastError outcome);
  mret (if updated : bool then Some (failed_snapshot newAttempts lastError outcome j) else None).

Definition markFailed (e : env) (jobId : string) (handoffId : option string) (error : job_error) :
    M (option job) :=
  _mutate (
    j ← _getJob jobId;
    match j with
    | Some j' => if negb (_acceptsHandoff j handoffId) then mret None else _applyFailure e j' error
    | None => mret None
    end).

(** The error recovery records; its stack begins with this text. *)
Definition interrupted_error (stack : string) : job_error :=
  ErrorObject stack "Local background job recovered after an interrupted dispatcher".

(** One iteration of the recovery loop. *)
Definition recover_row (e : env) (stack : string) (rawRow : job_row) : M (option job) :=
  j ← lift_result (_normalizeRow rawRow);
  updated ← _applyFailure e j (interrupted_error stack);
  match updated with
  | None => mret None
  | Some updated =>
      reconciled ← (if decide (j_status updated = Queued)
                    then _reconcileQueuedJobConcurrency e updated else mret updated);
      mret (Some reconciled)
  end.

Fixpoint recover_rows (e : env) (stack : string) (rows : list job_row) : M (list job) :=
  match rows with
  | [] => mret []
  | rawRow :: rows' =>
      recovered ← recover_row e stack rawRow;
      rest ← recover_rows e stack rows';
      mret (match recovered with Some j => j :: rest | None => rest end)
  end.

Definition recoverHandedOffJobs (e : env) (stack : string) : M (list job) :=
  _mutate (
    rows ← select_jobs e (has_status HandedOff);
    recovered ← recover_rows e stack rows;
    _ ← _rebuildConcurrencyCounts;
    mret recovered).

Definition clearAll : M unit := _mutate (modify (set_db (fun _ => empty_database))).

(** ** The methods of the store as one type of requests *)

Inductive request :=
| Enqueue (jobName : string) (args : list json) (options : job_options)
| ReconcileQueueConcurrency
| NextAvailableJob
| NextScheduledJob
| GetJob (jobId : string)
| ListJobs
| MarkHandedOff (jobId : string) (handoffId workerId : option string)
| HandedOffJobsForWorker (workerId : string)
| MarkReturnedToQueue (jobId handoffId : string)
| MarkCompleted (jobId : string) (handoffId : option string)
| MarkRescheduled (jobId : string) (handoffId : option string) (delayMs : scalar)
| MarkFailed (jobId : string) (handoffId : option string) (error : job_error)
| RecoverHandedOffJobs (stack : string)
| ClearAll.

Definition ignoring {A} (m : M A) : M unit := _ ← m; mret tt.

(** The effect of a request on the store, whatever it returns. *)
Definition perform (e : env) (r : request) : M unit :=
  match r with
  | Enqueue jobName args options => ignoring (enqueue e jobName args options)
  | ReconcileQueueConcurrency => reconcileQueueConcurrency e
  | NextAvailableJob => ignoring (nextAvailableJob e)
  | NextScheduledJob => ignoring (nextScheduledJob e)
  | GetJob jobId => ignoring (getJob jobId)
  | ListJobs => ignoring (listJobs e)
  | MarkHandedOff jobId handoffId workerId => ignoring (markHandedOff e jobId handoffId workerId)
  | HandedOffJobsForWorker workerId => ignoring (handedOffJobsForWorker e workerId)
  | MarkReturnedToQueue jobId handoffId => markReturnedToQueue e jobId handoffId
  | MarkCompleted jobId handoffId => ignoring (markCompleted e jobId handoffId)
  | MarkRescheduled jobId handoffId delayMs => ignoring (markRescheduled e jobId handoffId delayMs)
  | MarkFailed jobId handoffId error => ignoring (markFailed e jobId handoffId error)
  | RecoverHandedOffJobs stack => ignoring (recoverHandedOffJobs e stack)
  | ClearAll => clearAll
  end.

Definition initial_world : world :=
  {| db := empty_database; ticks := 0; uuids := 0; wakes := 0 |}.

(** The numbers inside job arguments are JSON numbers. *)
Definition request_ok (r : request) : Prop :=
  match r with Enqueue _ args _ => Forall valid_json args | _ => True end.

(** The stores reachable by any sequence of requests. The environment of each
    may differ: the clock moves, the queue configuration is edited and the
    process restarts. *)
Inductive reachable : world -> Prop :=
| reachable_initial : reachable initial_world
| reachable_perform e r w : reachable w -> request_ok r -> reachable (perform e r w).2.
