(* ===== verification/LocalStoreCorrect.v ===== *)
(** * The local background-jobs store implements the queue protocol

    The abstraction [abs] forgets the counters of active jobs; [db_ok] says that
    they agree with the jobs. Each method is shown to keep [db_ok] and to move
    the abstraction along the steps of [LocalProtocol]; the invariants of the
    protocol then hold in every reachable store. *)

From stdpp Require Import base gmap strings list sorting relations.
From Stdlib Require Import ZArith QArith Lia.
From S2P Require Import Prelude Sql Json JobSemantics LocalStore LocalProtocol.
Open Scope Z_scope.

(** ** Abstraction and invariant *)

Definition abs_phase (r : job_row) : phase :=
  match status r with
  | Queued => Waiting
  | HandedOff => Running (handoff_id r)
  | Completed => Done
  | Failed => Dead
  end.

Definition abs_job (r : job_row) : ajob :=
  {| phase_of := abs_phase r; key_of := concurrency_key r;
     attempts_of := attempts r; limit_of := max_retries r |}.

Definition abs (d : database) : queue_state :=
  {| ajobs := abs_job <$> jobs d; caps := counter_cap <$> counters d |}.

(** The row was written by the store, so that [_normalizeRow] accepts it. *)
Record row_ok (i : string) (r : job_row) : Prop := {
  row_id : id r = i;
  row_args : exists args, parse (args_json r) = Some (JArr args);
  row_mode : execution_mode_column r = "inline";
  row_key : concurrency_key r <> Some ""
}.

Record db_ok (d : database) : Prop := {
  rows_ok : forall i r, jobs d !! i = Some r -> row_ok i r;
  counts_ok : forall key c, counters d !! key = Some c ->
    active_count c = running_count (abs d) key;
  abs_ok : queue_ok (abs d)
}.

(** From [d] the protocol leads to the well-formed database of [w]. *)
Definition sim (d d' : database) : Prop := db_ok d' /\ rtc astep (abs d) (abs d').

Lemma sim_refl d : db_ok d -> sim d d.
Proof. split; [done|constructor]. Qed.

Lemma sim_trans d1 d2 d3 : sim d1 d2 -> sim d2 d3 -> sim d1 d3.
Proof. intros [_ H1] [H H2]. split; [done|]. by etransitivity. Qed.

Lemma abs_lookup d i r : jobs d !! i = Some r -> ajobs (abs d) !! i = Some (abs_job r).
Proof. intros H. cbn. by rewrite lookup_fmap, H. Qed.

Lemma abs_put d i r : abs (set_jobs (insert i r) d) = put (abs d) i (abs_job r).
Proof. unfold abs, put. cbn. by rewrite fmap_insert. Qed.

Lemma running_handed_off r : is_running (abs_job r) = has_status HandedOff r.
Proof. unfold is_running, has_status. cbn. unfold abs_phase. by destruct (status r). Qed.

Lemma runs_under_holds key r : runs_under key (abs_job r) = holds_key key r.
Proof. unfold runs_under, holds_key. by rewrite running_handed_off. Qed.

Lemma running_count_abs d key : running_count (abs d) key = handed_off_count (jobs d) key.
Proof.
  unfold running_count, handed_off_count. cbn. rewrite count_where_fmap.
  apply count_where_ext. intros r. apply runs_under_holds.
Qed.

(** ** Rows read back *)

Record snapshot_of (r : job_row) (j : job) : Prop := {
  snap_id : j_id j = id r;
  snap_status : j_status j = status r;
  snap_key : j_concurrencyKey j = concurrency_key r;
  snap_attempts : j_attempts j = attempts r;
  snap_maxRetries : j_maxRetries j = max_retries r;
  snap_handoff : j_handoffId j = handoff_id r;
  snap_scheduled : j_scheduledAtMs j = scheduled_at_ms r;
  snap_args : parse (args_json r) = Some (JArr (j_args j))
}.

Lemma normalizeRow_snapshot r j : _normalizeRow r = Ok j -> snapshot_of r j.
Proof.
  unfold _normalizeRow. destruct (parse (args_json r)) as [v|] eqn:Hp; [|done].
  intros (m & Hm & H)%result_bind_Ok. destruct v; try done. case_decide; [|done].
  injection H as <-. by split.
Qed.

Lemma normalizeRow_ok i r : row_ok i r -> exists j, _normalizeRow r = Ok j /\ snapshot_of r j.
Proof.
  intros [Hid [args Hp] Hm Hk]. assert (exists j, _normalizeRow r = Ok j) as [j Hj].
  { unfold _normalizeRow. rewrite Hp, Hm. cbn. eauto. }
  eauto using normalizeRow_snapshot.
Qed.

Lemma getJob_Ok jobId j w w' : _getJob jobId w = (Ok j, w') ->
  w' = w /\
  match j with
  | Some j => exists r, jobs (db w) !! jobId = Some r /\ snapshot_of r j
  | None => jobs (db w) !! jobId = None
  end.
Proof.
  unfold _getJob. destruct (jobs (db w) !! jobId) as [r|].
  - destruct (_normalizeRow r) as [j'|] eqn:Hj; [|done]. intros [= <- <-].
    split; [done|]. eauto using normalizeRow_snapshot.
  - by intros [= <- <-].
Qed.

(** A key of a row is read as itself: it is never the empty string. *)
Lemma row_truthy i r : row_ok i r -> truthy (concurrency_key r) = concurrency_key r.
Proof. intros [_ _ _ Hk]. by destruct (concurrency_key r) as [[|? ?]|]. Qed.

(** ** Elementary writes *)

(** Shifts the counter of a key. *)
Definition shift (key : option string) (n : Z) (cs : gmap string counter_row) :
    gmap string counter_row :=
  match key with Some k => alter (add_active n) k cs | None => cs end.

Lemma shift_caps key n cs : counter_cap <$> shift key n cs = counter_cap <$> cs.
Proof.
  destruct key as [k|]; [|done]. cbn. apply map_eq. intros i. rewrite !lookup_fmap.
  destruct (decide (k = i)) as [->|]; simplify_map_eq; [|done]. by destruct (cs !! i).
Qed.

Definition slots (key : string) (j : ajob) : Z := Z.b2z (runs_under key j).

(** Replacing one row and shifting the counter of its key by the change in the
    number of running jobs. *)
Lemma sim_put d i r r' n :
  db_ok d -> jobs d !! i = Some r -> row_ok i r' ->
  concurrency_key r' = concurrency_key r \/
    (has_status HandedOff r' = false /\ has_status HandedOff r = false) ->
  n = Z.b2z (has_status HandedOff r') - Z.b2z (has_status HandedOff r) ->
  astep (abs d) (put (abs d) i (abs_job r')) ->
  sim d {| jobs := <[i := r']> (jobs d); counters := shift (concurrency_key r) n (counters d) |}.
Proof.
  intros Hd Hi Hr' Hk Hn Hst. set (d' := {| jobs := _; counters := _ |}).
  assert (abs d' = put (abs d) i (abs_job r')) as Habs.
  { unfold abs, put, d'. cbn. by rewrite fmap_insert, shift_caps. }
  split; [|rewrite Habs; by apply rtc_once]. split.
  - intros i' r''. cbn. destruct (decide (i = i')) as [->|Hne]; simplify_map_eq; [congruence|].
    apply (rows_ok _ Hd).
  - intros key c Hc. rewrite Habs, running_count_put, (abs_lookup _ _ _ Hi). cbn.
    rewrite !runs_under_holds. unfold holds_key.
    assert (exists c0, counters d !! key = Some c0 /\
      active_count c = active_count c0 + if decide (concurrency_key r = Some key) then n else 0)
      as (c0 & Hc0 & ->).
    { cbn in Hc. destruct (concurrency_key r) as [k|]; cbn in Hc.
      - destruct (decide (k = key)) as [->|Hne].
        + rewrite lookup_alter_eq in Hc. destruct (counters d !! key) as [c0|]; [|done].
          injection Hc as <-. exists c0. by rewrite decide_True.
        + rewrite lookup_alter_ne in Hc by done. exists c. rewrite decide_False by congruence.
          split; [done|lia].
      - exists c. rewrite decide_False by done. split; [done|lia]. }
    rewrite (counts_ok _ Hd key c0 Hc0). subst n.
    destruct Hk as [->|[-> ->]]; cbn; [|by case_decide; lia].
    case_decide as Hkey; case_bool_decide; try done;
      destruct (has_status HandedOff r'), (has_status HandedOff r); cbn; lia.
  - rewrite Habs. eapply astep_queue_ok; [apply Hd|done].
Qed.

Lemma update_job_Ok i p f w n w' : update_job i p f w = (Ok n, w') ->
  (n = 0 /\ w' = w /\ forall r, jobs (db w) !! i = Some r -> p r = false) \/
  (exists r, jobs (db w) !! i = Some r /\ p r = true /\ n = 1 /\
    w' = set_db (set_jobs (insert i (f r))) w).
Proof.
  unfold update_job. destruct (jobs (db w) !! i) as [r|].
  - destruct (p r) eqn:Hp; intros [= <- <-]; [right; eauto|left].
    split_and!; [done..|]. by intros r' [= <-].
  - intros [= <- <-]. by left.
Qed.

Lemma update_counter_Ok k p f w n w' : update_counter k p f w = (Ok n, w') ->
  (n = 0 /\ w' = w /\ forall c, counters (db w) !! k = Some c -> p c = false) \/
  (exists c, counters (db w) !! k = Some c /\ p c = true /\ n = 1 /\
    w' = set_db (set_counters (insert k (f c))) w).
Proof.
  unfold update_counter. destruct (counters (db w) !! k) as [c|].
  - destruct (p c) eqn:Hp; intros [= <- <-]; [right; eauto|left].
    split_and!; [done..|]. by intros c' [= <-].
  - intros [= <- <-]. by left.
Qed.

Lemma database_eta d : {| jobs := jobs d; counters := counters d |} = d.
Proof. by destruct d. Qed.

Lemma lock_Ok key w x w' : _lockConcurrencyRow key w = (Ok x, w') -> db w' = db w.
Proof.
  unfold _lockConcurrencyRow. destruct (truthy key) as [k|]; intros H; st_inv; [|done].
  apply update_counter_Ok in H as [(_ & -> & _)|(c & Hc & _ & _ & ->)]; [done|].
  cbn. unfold set_counters. rewrite insert_id by done. apply database_eta.
Qed.

Lemma now_Ok e w t w' : now e w = (Ok t, w') -> db w' = db w.
Proof. by intros [= <- <-]. Qed.

Lemma new_uuid_Ok e w t w' : new_uuid e w = (Ok t, w') -> db w' = db w.
Proof. by intros [= <- <-]. Qed.

Lemma shift_insert k n c cs : cs !! k = Some c -> <[k := add_active n c]> cs = shift (Some k) n cs.
Proof.
  intros Hc. cbn. apply map_eq. intros i. destruct (decide (k = i)) as [->|]; simplify_map_eq; done.
Qed.

(** Releasing the key of a row whose slot is counted. *)
Lemma release_Ok key w x w' :
  truthy key = key ->
  (forall k c, key = Some k -> counters (db w) !! k = Some c -> 0 < active_count c) ->
  _releaseConcurrency key w = (Ok x, w') ->
  db w' = set_counters (shift key (-1)) (db w).
Proof.
  intros Ht Hpos. unfold _releaseConcurrency. rewrite Ht. destruct key as [k|]; intros H; st_inv.
  - apply update_counter_Ok in H as [(_ & -> & Hc)|(c & Hc & _ & _ & ->)]; cbn.
    + unfold set_counters. destruct (counters (db w) !! k) as [c|] eqn:Hk.
      * specialize (Hc c eq_refl). specialize (Hpos k c eq_refl Hk). lia.
      * cbn [shift]; rewrite alter_id; [by rewrite database_eta|]. intros c. congruence.
    + unfold set_counters. by rewrite (shift_insert k (-1) c).
  - unfold set_counters. cbn. by rewrite database_eta.
Qed.

(** A running row has its slot counted. *)
Lemma slot_counted d i r k c : db_ok d -> jobs d !! i = Some r -> status r = HandedOff ->
  concurrency_key r = Some k -> counters d !! k = Some c -> 0 < active_count c.
Proof.
  intros Hd Hi Hs Hk Hc. rewrite (counts_ok _ Hd k c Hc).
  apply (count_where_pos _ _ i (abs_job r)); [by apply abs_lookup|].
  rewrite runs_under_holds. unfold holds_key, has_status.
  by rewrite Hs, Hk, !bool_decide_eq_true_2.
Qed.

(** ** Acknowledgements *)

Lemma holds_handoff_inv h r : holds_handoff h r = true -> handoff_id r = h /\ status r = HandedOff.
Proof.
  unfold holds_handoff, has_status. intros [H1%bool_decide_eq_true H2%bool_decide_eq_true]%andb_prop.
  done.
Qed.

Lemma fenced_update_sim j h f w b w' r :
  db_ok (db w) -> jobs (db w) !! j_id j = Some r -> snapshot_of r j ->
  row_ok (j_id j) (f r) -> concurrency_key (f r) = concurrency_key r ->
  has_status HandedOff (f r) = false ->
  (status r = HandedOff -> astep (abs (db w)) (put (abs (db w)) (j_id j) (abs_job (f r)))) ->
  fenced_update j h f w = (Ok b, w') ->
  sim (db w) (db w') /\
  (forall i, i <> j_id j -> jobs (db w') !! i = jobs (db w) !! i) /\
  if b then status r = HandedOff /\ handoff_id r = h /\ jobs (db w') !! j_id j = Some (f r)
  else db w' = db w.
Proof.
  intros Hd Hi Hsnap Hf Hkey Hstatus Hstep H. unfold fenced_update in H. st_inv.
  pose proof (rows_ok _ Hd _ _ Hi) as Hr.
  apply update_job_Ok in H as [(-> & -> & _)|(r' & Hi' & Hp & -> & ->)].
  - cbn in H0. st_inv. split; [by apply sim_refl|done].
  - simplify_eq. apply holds_handoff_inv in Hp as [Hh Hs]. cbn in H0. st_inv.
    rewrite (snap_key _ _ Hsnap) in H.
    apply release_Ok in H; [|by eapply row_truthy|].
    2: { cbn. intros k c Hk Hc. by eapply slot_counted. }
    rewrite H. unfold set_counters, set_db, set_jobs. cbn [db jobs counters].
    split; [|split; [|split_and!]].
    + apply sim_put; try done; [by left| |by apply Hstep].
      unfold has_status in *. rewrite Hs. rewrite Hstatus. done.
    + intros i Hne. cbn. by rewrite lookup_insert_ne.
    + done.
    + done.
    + cbn. by rewrite lookup_insert_eq.
Qed.

Lemma mutate_sim {A} (m : M A) w :
  db_ok (db w) -> returns m (fun _ w' => sim (db w) (db w')) w ->
  sim (db w) (db (_mutate m w).2).
Proof.
  intros Hd Hm. unfold _mutate. destruct (m w) as [[a|x] w'] eqn:He; cbn.
  - by apply (Hm a w').
  - by apply sim_refl.
Qed.

Lemma acceptsHandoff_inv j h : _acceptsHandoff (Some j) h = true ->
  j_status j = HandedOff /\ j_handoffId j = h.
Proof.
  cbn. intros [[H1%bool_decide_eq_true H2]%andb_prop H3%bool_decide_eq_true]%andb_prop. done.
Qed.

(** The rows the acknowledgements write are still rows of the store. *)
Lemma row_ok_requeue i r t : row_ok i r -> row_ok i (requeue t r).
Proof. by intros []. Qed.
Lemma row_ok_complete i r t : row_ok i r -> row_ok i (complete t r).
Proof. by intros []. Qed.
Lemma row_ok_fail i r a err o : row_ok i r -> row_ok i (fail_row a err o r).
Proof. by intros []. Qed.
Lemma row_ok_hand_off i r t h wk : row_ok i r -> row_ok i (hand_off t h wk r).
Proof. by intros []. Qed.
#[export] Hint Resolve row_ok_requeue row_ok_complete row_ok_fail row_ok_hand_off : core.

(** The protocol steps of the four writes. *)
Lemma step_of_requeue d i r t : jobs d !! i = Some r -> status r = HandedOff ->
  astep (abs d) (put (abs d) i (abs_job (requeue t r))).
Proof.
  intros Hi Hs. apply (step_requeue _ i (abs_job r)); [by apply abs_lookup|].
  rewrite running_handed_off. by apply bool_decide_eq_true_2.
Qed.

Lemma step_of_complete d i r t : jobs d !! i = Some r -> status r = HandedOff ->
  astep (abs d) (put (abs d) i (abs_job (complete t r))).
Proof.
  intros Hi Hs. apply (step_done _ i (abs_job r)); [by apply abs_lookup|].
  rewrite running_handed_off. by apply bool_decide_eq_true_2.
Qed.

(** The retry decision of [_applyFailure] is the guard of the protocol. *)
Definition outcome_agrees (r : job_row) (o : failure_outcome) : Prop :=
  match o with
  | RetryAt _ => attempts r + 1 <= max_retries r
  | FailAt _ => max_retries r < attempts r + 1
  end.

Lemma step_of_fail d i r err o : jobs d !! i = Some r -> status r = HandedOff ->
  outcome_agrees r o ->
  astep (abs d) (put (abs d) i (abs_job (fail_row (attempts r + 1) err o r))).
Proof.
  intros Hi Hs Ho. pose proof (abs_lookup _ _ _ Hi) as Ha.
  assert (is_running (abs_job r) = true) as Hr.
  { rewrite running_handed_off. by apply bool_decide_eq_true_2. }
  destruct o as [t|t]; cbn in Ho.
  - by apply (step_retry _ i (abs_job r)).
  - by apply (step_dead _ i (abs_job r)).
Qed.

(** Reads the lookup of the job and the handoff test off an acknowledgement
    that returned; what is left is the fenced update of the row [r]. *)
Ltac read_ack Hd lost :=
  st_inv;
  match goal with
  | H : _getJob ?i _ = (Ok ?oj, _) |- _ =>
      let j := fresh "j" in let r := fresh "r" in let Hi := fresh "Hi" in
      let Hsnap := fresh "Hsnap" in
      apply getJob_Ok in H as [-> H]; destruct oj as [j|]; [|st_inv; lost];
      destruct H as (r & Hi & Hsnap);
      assert (j_id j = i) by (rewrite (snap_id _ _ Hsnap); apply (rows_ok _ Hd _ _ Hi));
      pose proof (rows_ok _ Hd _ _ Hi); subst i;
      destruct (negb (_acceptsHandoff _ _)) eqn:?Hacc; st_inv; [lost|]
  end.

Ltac open_ack Hd :=
  apply mutate_sim; [exact Hd|]; intros ?b ?w' ?H; read_ack Hd ltac:(by apply sim_refl);
  repeat match goal with
  | H : _lockConcurrencyRow _ _ = (Ok _, _) |- _ => apply lock_Ok in H
  | H : now _ _ = (Ok _, ?w1), H' : db _ = db _ |- _ => apply now_Ok in H; rewrite H' in H
  end.

(** The fenced update is run in a store with the database of the start. *)
Ltac finish_ack :=
  match goal with
  | H : fenced_update _ _ _ ?w1 = (Ok _, _), He : db ?w1 = db ?w0, Hd : db_ok (db ?w0) |- _ =>
      rewrite <- He in *;
      eapply fenced_update_sim in H as [? _]; eauto using step_of_requeue, step_of_complete
  end.

Lemma markReturnedToQueue_sim e i h w :
  db_ok (db w) -> sim (db w) (db (markReturnedToQueue e i h w).2).
Proof. intros Hd. open_ack Hd. finish_ack. Qed.

Lemma markCompleted_sim e i h w :
  db_ok (db w) -> sim (db w) (db (markCompleted e i h w).2).
Proof. intros Hd. open_ack Hd. finish_ack. Qed.

Lemma markRescheduled_sim e i h delay w :
  db_ok (db w) -> sim (db w) (db (markRescheduled e i h delay w).2).
Proof. intros Hd. open_ack Hd. finish_ack. Qed.

Lemma normalize_own_max_retries i r d : db_ok d -> jobs d !! i = Some r ->
  normalizeBackgroundJobMaxRetries (of_Z (max_retries r)) = max_retries r /\
  0 <= attempts r.
Proof.
  intros Hd Hi. destruct (jobs_ok _ (abs_ok _ Hd) i _ (abs_lookup _ _ _ Hi)) as [(H1 & H2 & _) _].
  split; [by apply normalize_max_retries_id|done].
Qed.

Lemma snapshot_fail r j a err o : snapshot_of r j ->
  snapshot_of (fail_row a err o r) (failed_snapshot a err o j).
Proof. intros []. by destruct o; split. Qed.

(** The failure transition: what it writes, and what it reports. *)
Lemma applyFailure_sim e j err w u w' r :
  db_ok (db w) -> jobs (db w) !! j_id j = Some r -> snapshot_of r j ->
  _applyFailure e j err w = (Ok u, w') ->
  sim (db w) (db w') /\
  (forall i, i <> j_id j -> jobs (db w') !! i = jobs (db w) !! i) /\
  match u with
  | Some j' => exists o,
      outcome_agrees r o /\ status r = HandedOff /\
      jobs (db w') !! j_id j =
        Some (fail_row (attempts r + 1) (normalizeBackgroundJobError err) o r) /\
      snapshot_of (fail_row (attempts r + 1) (normalizeBackgroundJobError err) o r) j'
  | None => db w' = db w
  end.
Proof.
  intros Hd Hi Hsnap H. unfold _applyFailure in H.
  rewrite (snap_attempts _ _ Hsnap), (snap_maxRetries _ _ Hsnap), (snap_handoff _ _ Hsnap) in H.
  destruct (normalize_own_max_retries _ _ _ Hd Hi) as [Hmr Hat]. rewrite Hmr in H. st_inv.
  match goal with Ho : (if _ then _ else _) _ = (Ok ?o, _) |- _ =>
    assert (outcome_agrees r o /\ db x2 = db x0) as [Ho1 Ho2] end.
  { destruct (Z.leb_spec (attempts r + 1) (max_retries r)).
    - destruct (retryDelayMs _); st_inv. done.
    - st_inv. done. }
  apply now_Ok in H. apply lock_Ok in H1. rewrite Ho2, H in H1. rewrite <- H1 in *.
  eapply fenced_update_sim in H2 as (Hsim & Hframe & Hb); eauto using step_of_fail.
  2: { apply row_ok_fail. by eapply rows_ok. }
  2: { by destruct x1. }
  split; [done|]. split; [done|]. destruct x5; [|exact Hb]. destruct Hb as (Hs & _ & Hput).
  exists x1. split_and!; [done..|]. by apply snapshot_fail.
Qed.

Lemma markFailed_sim e i h err w :
  db_ok (db w) -> sim (db w) (db (markFailed e i h err w).2).
Proof.
  intros Hd. open_ack Hd. by eapply applyFailure_sim in H0 as [? _].
Qed.

(** ** Runs that return *)

Lemma update_counter_runs k p f w : exists n w', update_counter k p f w = (Ok n, w').
Proof. unfold update_counter. destruct (counters (db w) !! k) as [c|]; [destruct (p c)|]; eauto. Qed.

Lemma lock_runs key w : exists w', _lockConcurrencyRow key w = (Ok tt, w').
Proof.
  unfold _lockConcurrencyRow. destruct (truthy key) as [k|]; [|by eexists].
  unfold mbind, ST_bind.
  destruct (update_counter_runs k (fun _ => true) (fun c => c) w) as (n & w' & ->). by eexists.
Qed.

Lemma release_runs key w : exists w', _releaseConcurrency key w = (Ok tt, w').
Proof.
  unfold _releaseConcurrency. destruct (truthy key) as [k|]; [|by eexists].
  unfold mbind, ST_bind.
  destruct (update_counter_runs k (fun c => 0 <? active_count c) (add_active (-1)) w)
    as (n & w' & ->). by eexists.
Qed.

Lemma fenced_update_runs j f w r : jobs (db w) !! j_id j = Some r -> status r = HandedOff ->
  exists w', fenced_update j (handoff_id r) f w = (Ok true, w').
Proof.
  intros Hi Hs. unfold fenced_update, update_job, mbind, ST_bind. rewrite Hi.
  assert (holds_handoff (handoff_id r) r = true) as ->.
  { unfold holds_handoff, has_status. by rewrite Hs, !bool_decide_eq_true_2. }
  cbn. destruct (release_runs (j_concurrencyKey j) (set_db (set_jobs (insert (j_id j) (f r))) w))
    as [w' ->]. by eexists.
Qed.

(** The outcome [_applyFailure] chooses for a row, at the time of the failure. *)
Definition failure_of (r : job_row) (nowMs : Z) : option failure_outcome :=
  if attempts r + 1 <=? max_retries r
  then (fun delay => RetryAt (nowMs + delay)) <$> retryDelayMs (attempts r + 1)
  else Some (FailAt nowMs).

Lemma failure_of_total d i r nowMs : db_ok d -> jobs d !! i = Some r ->
  exists o, failure_of r nowMs = Some o.
Proof.
  intros Hd Hi. destruct (normalize_own_max_retries _ _ _ Hd Hi) as [_ Hat].
  unfold failure_of. destruct (_ <=? _); [|by eexists].
  destruct (retryDelayMs_pos (attempts r + 1)) as (delay & -> & _); [lia|by eexists].
Qed.

Lemma applyFailure_runs e j err w r :
  db_ok (db w) -> jobs (db w) !! j_id j = Some r -> snapshot_of r j -> status r = HandedOff ->
  exists o w', failure_of r (clock e (ticks w)) = Some o /\
    _applyFailure e j err w =
      (Ok (Some (failed_snapshot (attempts r + 1) (normalizeBackgroundJobError err) o j)), w') /\
    jobs (db w') !! j_id j =
      Some (fail_row (attempts r + 1) (normalizeBackgroundJobError err) o r).
Proof.
  intros Hd Hi Hsnap Hs.
  destruct (normalize_own_max_retries _ _ _ Hd Hi) as [Hmr _].
  destruct (failure_of_total _ _ _ (clock e (ticks w)) Hd Hi) as [o Ho]. exists o.
  set (f := fail_row (attempts r + 1) (normalizeBackgroundJobError err) o).
  assert (exists w2, db w2 = db w /\
    _applyFailure e j err w =
      (updated ← fenced_update j (handoff_id r) f;
       mret (if updated : bool then
         Some (failed_snapshot (attempts r + 1) (normalizeBackgroundJobError err) o j) else None))
      w2) as (w2 & Hw2 & ->).
  { unfold _applyFailure. rewrite (snap_attempts _ _ Hsnap), (snap_maxRetries _ _ Hsnap),
      (snap_handoff _ _ Hsnap), Hmr. unfold failure_of in Ho.
    unfold mbind at 1, ST_bind at 1, now at 1.
    set (w1 := {| db := db w; ticks := S (ticks w); uuids := uuids w; wakes := wakes w |}).
    destruct (lock_runs (j_concurrencyKey j) w1) as [w2 Hl]. exists w2.
    split; [by apply lock_Ok in Hl|].
    destruct (_ <=? _); [destruct (retryDelayMs _); [|done]|]; injection Ho as <-;
      unfold mbind at 1 2, ST_bind at 1 2, mret at 1, ST_ret at 1; by rewrite Hl. }
  assert (jobs (db w2) !! j_id j = Some r) as Hi2 by by rewrite Hw2.
  destruct (fenced_update_runs j f w2 r Hi2 Hs) as [w' Hf]. exists w'. split; [done|].
  unfold mbind, ST_bind. rewrite Hf. split; [done|].
  assert (outcome_agrees r o) as Hagree.
  { unfold failure_of in Ho. destruct (Z.leb_spec (attempts r + 1) (max_retries r)).
    - destruct (retryDelayMs _); [|done]. by injection Ho as <-.
    - by injection Ho as <-. }
  rewrite <- Hw2 in Hd.
  eapply fenced_update_sim in Hf as (_ & _ & _ & _ & Hput); eauto using step_of_fail.
  - apply row_ok_fail. by eapply rows_ok.
  - by destruct o.
Qed.

(** ** Claims *)

Lemma reserve_Ok k w b w' : _reserveConcurrency k w = (Ok b, w') ->
  if b then exists c, counters (db w) !! k = Some c /\ active_count c < counter_cap c /\
    db w' = set_counters (shift (Some k) 1) (db w)
  else w' = w /\
    forall c, counters (db w) !! k = Some c -> counter_cap c <= active_count c.
Proof.
  unfold _reserveConcurrency. intros H. st_inv.
  apply update_counter_Ok in H as [(-> & -> & Hc)|(c & Hc & Hp & -> & ->)]; cbn.
  - split; [done|]. intros c Hk. specialize (Hc c Hk). lia.
  - exists c. split_and!; [done|lia|]. unfold set_counters. by rewrite (shift_insert k 1 c).
Qed.

Lemma step_of_claim d i r t h wk : jobs d !! i = Some r -> status r = Queued ->
  has_slot (abs d) (concurrency_key r) ->
  astep (abs d) (put (abs d) i (abs_job (hand_off t h wk r))).
Proof.
  intros Hi Hs Hslot. apply (step_claim _ i (abs_job r) (Some h)); [by apply abs_lookup| |done].
  cbn. unfold abs_phase. by rewrite Hs.
Qed.

(** A claim, once its slot is reserved. *)
Lemma claim_sim d i r t h wk :
  db_ok d -> jobs d !! i = Some r -> status r = Queued ->
  has_slot (abs d) (concurrency_key r) ->
  sim d {| jobs := <[i := hand_off t h wk r]> (jobs d);
           counters := shift (concurrency_key r) 1 (counters d) |}.
Proof.
  intros Hd Hi Hs Hslot. apply sim_put; try done.
  - apply row_ok_hand_off. by eapply rows_ok.
  - by left.
  - unfold has_status. by rewrite Hs.
  - by apply step_of_claim.
Qed.

Lemma has_slot_counter d k c : db_ok d -> counters d !! k = Some c ->
  active_count c < counter_cap c -> has_slot (abs d) (Some k).
Proof.
  intros Hd Hc Hlt. exists (counter_cap c). cbn. rewrite lookup_fmap, Hc.
  split; [done|]. by rewrite <- (counts_ok _ Hd k c Hc).
Qed.

Lemma reserve_key_Ok key w b w' : db_ok (db w) ->
  match key with Some k => _reserveConcurrency k | None => mret true end w = (Ok b, w') ->
  if b then has_slot (abs (db w)) key /\ db w' = set_counters (shift key 1) (db w)
  else db w' = db w.
Proof.
  intros Hd H. destruct key as [k|].
  - apply reserve_Ok in H. destruct b; [|by destruct H as [-> _]].
    destruct H as (c & Hc & Hlt & ->). split; [by eapply has_slot_counter|done].
  - st_inv. cbn. split; [done|]. unfold set_counters. by rewrite database_eta.
Qed.

Lemma markHandedOff_sim e i h wk w :
  db_ok (db w) -> sim (db w) (db (markHandedOff e i h wk w).2).
Proof.
  intros Hd. unfold markHandedOff. unfold mbind at 1, ST_bind at 1.
  assert (exists h' w1, (match h with Some h => mret h | None => new_uuid e end) w = (Ok h', w1)
    /\ db w1 = db w) as (h' & w1 & -> & Hw1) by (destruct h; eauto).
  rewrite <- Hw1 in *. clear Hw1 w. rename w1 into w.
  apply mutate_sim; [done|]. intros b w' H. st_inv.
  apply getJob_Ok in H as [-> Hj]. destruct x as [j|]; [|st_inv; by apply sim_refl].
  destruct Hj as (r & Hi & Hsnap). pose proof (rows_ok _ Hd _ _ Hi) as Hr.
  rewrite (snap_status _ _ Hsnap), (snap_key _ _ Hsnap), (row_truthy _ _ Hr) in H0.
  case_bool_decide as Hq; cbn [negb] in H0; st_inv; [|by apply sim_refl].
  apply now_Ok in H. destruct (_ <? _); st_inv; [by rewrite H; apply sim_refl|].
  rewrite <- H in Hd, Hi |- *. apply reserve_key_Ok in H0; [|done].
  destruct x1; cbn [negb] in H1; st_inv; [|rewrite H0; by apply sim_refl].
  destruct H0 as [Hslot Hdb]. apply now_Ok in H1. rewrite Hdb in H1.
  apply update_job_Ok in H2 as [(-> & -> & Hno)|(r' & Hi' & _ & -> & ->)]; cbn in H3; st_inv.
  - rewrite H1 in Hno. specialize (Hno r Hi). unfold has_status in Hno.
    by rewrite bool_decide_eq_true_2 in Hno.
  - rewrite H1 in Hi'. cbn in Hi'. simplify_eq. unfold set_db, set_jobs. cbn [db].
    rewrite H1. cbn. by apply claim_sim.
Qed.

(** ** Counters and keys *)

(** Creating the counter of a key nobody uses, or moving the cap of a key the
    configuration owns. *)
Lemma sim_declare d key c :
  db_ok d -> 0 < counter_cap c ->
  active_count c = running_count (abs d) key ->
  counters d !! key = None \/ policy_key key = true ->
  sim d (set_counters (insert key c) d).
Proof.
  intros Hd Hpos Hact Hk.
  assert (abs (set_counters (insert key c) d)
    = {| ajobs := ajobs (abs d); caps := <[key := counter_cap c]> (caps (abs d)) |}) as Habs.
  { unfold abs. cbn. by rewrite fmap_insert. }
  assert (astep (abs d) (abs (set_counters (insert key c) d))) as Hst.
  { rewrite Habs. apply step_declare; [done|]. cbn. rewrite lookup_fmap.
    destruct Hk as [->|]; [by left|by right]. }
  split; [|by apply rtc_once]. split.
  - apply (rows_ok _ Hd).
  - intros k c'. rewrite Habs. cbn. unfold running_count at 1. cbn.
    destruct (decide (key = k)) as [->|]; simplify_map_eq.
    + by intros [= <-].
    + apply (counts_ok _ Hd).
  - eapply astep_queue_ok; [apply Hd|done].
Qed.

(** No job runs under a key without a counter. *)
Lemma no_counter_no_jobs d key : db_ok d -> counters d !! key = None ->
  running_count (abs d) key = 0.
Proof.
  intros Hd Hk. apply count_where_zero. intros i j Hi. unfold runs_under.
  case_bool_decide as Hkey; [|apply andb_false_r].
  destruct (jobs_ok _ (abs_ok _ Hd) i j Hi) as [_ Hdec]. rewrite Hkey in Hdec.
  destruct Hdec as [cap Hcap]. cbn in Hcap. by rewrite lookup_fmap, Hk in Hcap.
Qed.

Lemma upsert_counter_sim key cap w x w' : db_ok (db w) -> 0 < cap ->
  upsert_counter key cap w = (Ok x, w') ->
  sim (db w) (db w') /\ jobs (db w') = jobs (db w).
Proof.
  intros Hd Hpos H. unfold upsert_counter in H. st_inv. cbn.
  destruct (counters (db w) !! key) as [row|] eqn:Hk.
  - unfold set_counters. rewrite Hk, database_eta. split; [by apply sim_refl|done].
  - split; [|done]. unfold set_counters. rewrite Hk.
    change {| jobs := _; counters := _ |} with
      (set_counters (insert key {| counter_cap := cap; active_count := 0 |}) (db w)).
    apply sim_declare; [done|done| |by left]. cbn. by rewrite no_counter_no_jobs.
Qed.

(** After [_ensureConcurrency] the key has a counter with the wanted cap. *)
Lemma ensureConcurrency_sim c w x w' :
  db_ok (db w) -> valid_concurrency c -> _ensureConcurrency c w = (Ok x, w') ->
  sim (db w) (db w') /\ jobs (db w') = jobs (db w) /\
  exists row, counters (db w') !! concurrencyKey c = Some row /\ counter_cap row = maxConcurrency c.
Proof.
  intros Hd (Hpos & _ & Hqd) H. unfold _ensureConcurrency in H. st_inv.
  destruct (upsert_counter_sim _ _ _ _ _ Hd Hpos H) as (Hsim & Hjobs). clear H.
  destruct (counters _ !! _) as [row|] eqn:Hrow; st_inv.
  destruct (Z.eqb_spec (counter_cap row) (maxConcurrency c)); st_inv; [by eauto|].
  destruct (queueDerived c); cbn [negb] in H1; st_inv.
  apply update_counter_Ok in H as [(_ & _ & Hno)|(row' & Hrow' & _ & _ & ->)].
  { by specialize (Hno row Hrow). }
  simplify_eq. split_and!; [|done|].
  - eapply sim_trans; [done|]. destruct Hsim as [Hd1 _]. apply sim_declare; [done|done| |].
    + cbn. by apply (counts_ok _ Hd1).
    + right. unfold policy_key. by rewrite <- Hqd.
  - eexists. cbn. rewrite lookup_insert_eq. done.
Qed.

(** ** Reconciliation *)

Lemma shift_0 key cs : shift key 0 cs = cs.
Proof.
  destruct key as [k|]; [|done]. cbn. apply alter_id. intros [cap n] _. unfold add_active. cbn.
  by rewrite Z.add_0_r.
Qed.

Lemma rekey_sim d i r key cap :
  db_ok d -> jobs d !! i = Some r -> status r = Queued ->
  policy_owned (concurrency_key r) -> policy_owned key -> key <> Some "" ->
  declared (abs d) key ->
  sim d (set_jobs (insert i (set_concurrency key cap r)) d).
Proof.
  intros Hd Hi Hs Ho Ho' Hne Hdec. unfold set_jobs.
  rewrite <- (shift_0 (concurrency_key r) (counters d)). apply sim_put; try done.
  - destruct (rows_ok _ Hd _ _ Hi). by split.
  - right. unfold has_status. cbn. by rewrite Hs.
  - unfold has_status. cbn. by rewrite Hs.
  - apply (step_rekey _ i (abs_job r)); try done.
    + by apply abs_lookup.
    + cbn. unfold abs_phase. by rewrite Hs.
Qed.

(** What one reconciliation leaves of the row: the row itself, or the row under
    another key of the configuration. *)
Definition rekeyed_row (r r' : job_row) : Prop :=
  r' = r \/ exists key cap, r' = set_concurrency key cap r.

Lemma update_queued_sim j key cap w n w' r :
  db_ok (db w) -> jobs (db w) !! j_id j = Some r -> status r = Queued ->
  policy_owned (concurrency_key r) -> policy_owned key -> key <> Some "" ->
  declared (abs (db w)) key ->
  update_job (j_id j) (has_status Queued) (set_concurrency key cap) w = (Ok n, w') ->
  sim (db w) (db w') /\
  (forall i, i <> j_id j -> jobs (db w') !! i = jobs (db w) !! i) /\
  exists r', jobs (db w') !! j_id j = Some r' /\ rekeyed_row r r'.
Proof.
  intros Hd Hi Hs Ho Ho' Hne Hdec H.
  apply update_job_Ok in H as [(-> & -> & _)|(r' & Hi' & _ & -> & ->)].
  - split; [by apply sim_refl|]. split; [done|]. exists r. split; [done|by left].
  - simplify_eq. split; [by apply rekey_sim|]. split.
    + intros i Hne'. cbn. by rewrite lookup_insert_ne.
    + eexists. cbn. rewrite lookup_insert_eq. split; [done|]. right. eauto.
Qed.

Lemma policy_concurrency q qs c :
  normalizeBackgroundJobConcurrency empty_options q qs = Ok (Some c) ->
  valid_concurrency c /\ policy_key (concurrencyKey c) = true.
Proof.
  intros H. split; [by eapply normalize_concurrency_valid|].
  unfold normalizeBackgroundJobConcurrency in H. cbn [opt_concurrencyKey opt_maxConcurrency
    empty_options is_undefined negb orb] in H.
  destruct (_ ≫= _); simplify_eq. apply starts_with_queue_key.
Qed.

Lemma lift_semantics_Ok {A} (r : result semantics_error A) a : lift_semantics r = Ok a -> r = Ok a.
Proof. destruct r; [|done]. by intros [= ->]. Qed.

Lemma reconcile_sim e j w j' w' r :
  db_ok (db w) -> jobs (db w) !! j_id j = Some r -> snapshot_of r j -> status r = Queued ->
  _reconcileQueuedJobConcurrency e j w = (Ok j', w') ->
  sim (db w) (db w') /\
  (forall i, i <> j_id j -> jobs (db w') !! i = jobs (db w) !! i) /\
  exists r', jobs (db w') !! j_id j = Some r' /\ rekeyed_row r r'.
Proof.
  intros Hd Hi Hsnap Hs H. unfold _reconcileQueuedJobConcurrency in H.
  pose proof (rows_ok _ Hd _ _ Hi) as Hr.
  assert (sim (db w) (db w) /\ (forall i, i <> j_id j -> jobs (db w) !! i = jobs (db w) !! i) /\
    exists r', jobs (db w) !! j_id j = Some r' /\ rekeyed_row r r') as Hsame.
  { split; [by apply sim_refl|]. split; [done|]. exists r. split; [done|by left]. }
  rewrite (snap_key _ _ Hsnap), (row_truthy _ _ Hr) in H.
  destruct (bool_decide _ && negb _) eqn:Howned; st_inv; [done|].
  assert (policy_owned (concurrency_key r)) as Ho.
  { destruct (concurrency_key r) as [k|]; [|done].
    rewrite bool_decide_eq_true_2 in Howned by done. unfold policy_owned, policy_key.
    cbn in Howned. by destruct (starts_with _ _). }
  clear Howned. apply lift_semantics_Ok in H. destruct x as [c|]; st_inv.
  - destruct (policy_concurrency _ _ _ H) as [Hv Hp].
    destruct (ensureConcurrency_sim _ _ _ _ Hd Hv H0) as (Hsim & Hjobs & row & Hrow & Hcap).
    destruct (bool_decide _ || bool_decide _); st_inv; [|by rewrite Hjobs; destruct Hsame].
    eapply (update_queued_sim _ _ _ _ _ _ r) in H1 as (Hsim' & Hframe & Hr'); try done.
    + split; [by eapply sim_trans|]. rewrite Hjobs in Hframe. done.
    + apply Hsim.
    + by rewrite Hjobs.
    + intros [= Hk]. by destruct Hv as (_ & ? & _).
    + cbn. rewrite lookup_fmap, Hrow. by eexists.
  - destruct (queue_derived_key _); st_inv; [|done].
    eapply (update_queued_sim _ _ _ _ _ _ r) in H0; done.
Qed.

(** The rows of a scan, as long as the loop has not visited them. *)
Definition untouched (d : database) (rows : list job_row) : Prop :=
  NoDup (id <$> rows) /\ Forall (fun r => jobs d !! id r = Some r) rows.

Lemma untouched_tail d d' r rows : untouched d (r :: rows) ->
  (forall i, i <> id r -> jobs d' !! i = jobs d !! i) -> untouched d' rows.
Proof.
  intros [Hnd Hall] Hframe. apply NoDup_cons in Hnd as [Hnew Hnd].
  apply Forall_cons in Hall as [_ Hall]. split; [done|].
  rewrite Forall_forall in Hall |- *. intros r' Hr'. rewrite Hframe; [by apply Hall|].
  intros Heq. apply Hnew. rewrite <- Heq. by apply list_elem_of_fmap_2.
Qed.

Lemma untouched_scan d (o : scan_order string job_row) p :
  db_ok d -> untouched d (List.filter p (scan o (jobs d))).
Proof.
  intros Hd. assert (id <$> scan o (jobs d) ≡ₚ (map_to_list (jobs d)).*1) as Hids.
  { rewrite (scan_rows o (jobs d)), <- list_fmap_compose.
    rewrite (list_fmap_ext _ fst); [done|].
    intros k [i r] Hi. apply list_elem_of_lookup_2, elem_of_map_to_list in Hi. cbn.
    by apply (rows_ok _ Hd). }
  split.
  - assert (forall l : list job_row, NoDup (id <$> l) -> NoDup (id <$> List.filter p l)) as Hf.
    { induction l as [|r l IH]; cbn; [done|]. intros [Hr Hl]%NoDup_cons.
      destruct (p r); cbn; [|by apply IH]. apply NoDup_cons. split; [|by apply IH].
      intros Hin. apply Hr. apply list_elem_of_fmap in Hin as (r' & -> & Hr').
      apply list_elem_of_fmap_2. rewrite list_elem_of_In, filter_In in Hr'.
      apply list_elem_of_In, Hr'. }
    apply Hf. rewrite Hids. apply NoDup_fst_map_to_list.
  - apply Forall_forall. intros r Hr. rewrite list_elem_of_In, filter_In in Hr.
    destruct Hr as [Hr _]. rewrite <- list_elem_of_In in Hr. apply elem_of_scan in Hr as [k Hk].
    destruct (rows_ok _ Hd _ _ Hk) as [-> _ _ _]. done.
Qed.

(** The counters of a well-formed database are already what a rebuild gives. *)
Lemma rebuild_counts_id d : db_ok d -> rebuild_counts d = d.
Proof.
  intros Hd. unfold rebuild_counts, set_counters.
  assert (map_imap (fun key c => Some {| counter_cap := counter_cap c;
    active_count := handed_off_count (jobs d) key |}) (counters d) = counters d) as ->.
  { apply map_eq. intros k. rewrite map_lookup_imap. destruct (counters d !! k) as [c|] eqn:Hc; [|done].
    cbn. rewrite <- running_count_abs, <- (counts_ok _ Hd k c Hc). by destruct c. }
  apply database_eta.
Qed.

Lemma filter_Forall_status s rows :
  Forall (fun r => status r = s) (List.filter (has_status s) rows).
Proof.
  apply Forall_forall. intros r Hr. rewrite list_elem_of_In, filter_In in Hr.
  destruct Hr as [_ Hr]. by apply bool_decide_eq_true in Hr.
Qed.

Lemma reconcile_loop_sim e rows w x w' :
  db_ok (db w) -> untouched (db w) rows -> Forall (fun r => status r = Queued) rows ->
  for_each (fun rawRow =>
    j ← lift_result (_normalizeRow rawRow);
    _ ← _reconcileQueuedJobConcurrency e j;
    mret tt) rows w = (Ok x, w') ->
  sim (db w) (db w').
Proof.
  intros Hd Hu Hs. revert w Hd Hu. induction Hs as [|r rows Hr Hs IH]; intros w Hd Hu H.
  { cbn in H. st_inv. by apply sim_refl. }
  cbn [for_each] in H. st_inv. pose proof (normalizeRow_snapshot _ _ H) as Hsnap.
  pose proof (snap_id _ _ Hsnap) as Hid.
  pose proof Hu as [_ [Hi _]%Forall_cons].
  eapply reconcile_sim in H1 as (Hsim & Hframe & _); [|done|by rewrite Hid|done|done].
  eapply sim_trans; [done|]. apply IH; [by destruct Hsim| |done].
  eapply untouched_tail; [done|]. intros i Hne. apply Hframe. by rewrite Hid.
Qed.

Lemma reconcileQueueConcurrency_sim e w :
  db_ok (db w) -> sim (db w) (db (reconcileQueueConcurrency e w).2).
Proof.
  intros Hd. apply mutate_sim; [done|]. intros x w' H. unfold select_jobs in H. st_inv.
  unfold _rebuildConcurrencyCounts in H1. st_inv.
  apply reconcile_loop_sim in H0; [|done|by apply untouched_scan|apply filter_Forall_status].
  cbn. rewrite rebuild_counts_id by apply H0. done.
Qed.

Lemma recover_row_sim e stack r w x w' :
  db_ok (db w) -> jobs (db w) !! id r = Some r ->
  recover_row e stack r w = (Ok x, w') ->
  sim (db w) (db w') /\ (forall i, i <> id r -> jobs (db w') !! i = jobs (db w) !! i).
Proof.
  intros Hd Hi H. unfold recover_row in H. st_inv.
  pose proof (normalizeRow_snapshot _ _ H) as Hsnap. pose proof (snap_id _ _ Hsnap) as Hid.
  rewrite <- Hid in Hi. eapply applyFailure_sim in H0 as (Hsim & Hframe & Hu); [|done..].
  rewrite <- Hid. destruct x2 as [j'|]; st_inv; [|done].
  destruct Hu as (o & _ & _ & Hput & Hsnap').
  destruct (decide _) as [Hq|]; st_inv; [|done].
  assert (j_id j' = j_id x0) as Hid' by (rewrite (snap_id _ _ Hsnap'); cbn; by rewrite Hid).
  eapply reconcile_sim in H0 as (Hsim' & Hframe' & _); [|apply Hsim|by rewrite Hid'|done|].
  2: { by rewrite <- (snap_status _ _ Hsnap'). }
  split; [by eapply sim_trans|]. intros i Hne. rewrite Hframe' by (by rewrite Hid'). by apply Hframe.
Qed.

Lemma recover_rows_sim e stack rows w x w' :
  db_ok (db w) -> untouched (db w) rows ->
  recover_rows e stack rows w = (Ok x, w') -> sim (db w) (db w').
Proof.
  revert w x. induction rows as [|r rows IH]; intros w x Hd Hu H.
  { cbn in H. st_inv. by apply sim_refl. }
  cbn [recover_rows] in H. st_inv. pose proof Hu as [_ [Hi _]%Forall_cons].
  apply recover_row_sim in H as [Hsim Hframe]; [|done|done].
  eapply sim_trans; [done|]. eapply IH; [by destruct Hsim| |done].
  by eapply untouched_tail.
Qed.

Lemma recoverHandedOffJobs_sim e stack w :
  db_ok (db w) -> sim (db w) (db (recoverHandedOffJobs e stack w).2).
Proof.
  intros Hd. apply mutate_sim; [done|]. intros x w' H. unfold select_jobs in H. st_inv.
  unfold _rebuildConcurrencyCounts in H1. st_inv.
  apply recover_rows_sim in H0; [|done|by apply untouched_scan].
  cbn. rewrite rebuild_counts_id by apply H0. done.
Qed.

(** ** Recovery returns *)

Lemma ensure_policy_runs c w : queueDerived c = true -> exists w', _ensureConcurrency c w = (Ok tt, w').
Proof.
  intros Hq. unfold _ensureConcurrency, upsert_counter, mbind, ST_bind, modify, gets. cbn.
  assert (exists row, (match counters (db w) !! concurrencyKey c with
    | Some _ => counters (db w)
    | None => <[concurrencyKey c := {| counter_cap := maxConcurrency c; active_count := 0 |}]>
                (counters (db w)) end) !! concurrencyKey c = Some row) as [row Hrow].
  { destruct (counters (db w) !! concurrencyKey c) eqn:Hc; [by eexists|].
    rewrite lookup_insert_eq. by eexists. }
  rewrite Hrow. destruct (_ =? _); [by eexists|]. rewrite Hq. cbn.
  match goal with |- context [update_counter ?k ?p ?f ?w] =>
    destruct (update_counter_runs k p f w) as (n & w' & ->) end. by eexists.
Qed.

Lemma policy_concurrency_runs q qs :
  exists oc, normalizeBackgroundJobConcurrency empty_options q qs = Ok oc /\
    forall c, oc = Some c -> queueDerived c = true.
Proof.
  unfold normalizeBackgroundJobConcurrency. cbn [opt_concurrencyKey opt_maxConcurrency
    empty_options is_undefined negb orb].
  destruct (_ ≫= _); eexists; (split; [done|]); [|done]. by intros c [= <-].
Qed.

Lemma update_job_runs i p f w : exists n w', update_job i p f w = (Ok n, w').
Proof. unfold update_job. destruct (jobs (db w) !! i) as [r|]; [destruct (p r)|]; eauto. Qed.

Lemma reconcile_runs e j w : exists j' w', _reconcileQueuedJobConcurrency e j w = (Ok j', w').
Proof.
  unfold _reconcileQueuedJobConcurrency. destruct (_ && _); [by do 2 eexists|].
  destruct (policy_concurrency_runs (j_queue j) (queues e)) as (oc & -> & Hq).
  unfold mbind, ST_bind. cbn. destruct oc as [c|].
  - destruct (ensure_policy_runs c w (Hq c eq_refl)) as [w1 ->].
    destruct (_ || _); [|by do 2 eexists].
    match goal with |- context [update_job ?i ?p ?f ?w] =>
      destruct (update_job_runs i p f w) as (n & w2 & ->) end. by do 2 eexists.
  - destruct (queue_derived_key _); [|by do 2 eexists].
    match goal with |- context [update_job ?i ?p ?f ?w] =>
      destruct (update_job_runs i p f w) as (n & w2 & ->) end. by do 2 eexists.
Qed.

(** Recovering a handed-off row leaves it queued or failed, with one more attempt. *)
Definition recovered_from (r r' : job_row) : Prop :=
  attempts r' = attempts r + 1 /\
  if attempts r + 1 <=? max_retries r then status r' = Queued else status r' = Failed.

Lemma recover_row_runs e stack r w :
  db_ok (db w) -> jobs (db w) !! id r = Some r -> status r = HandedOff ->
  exists j' w', recover_row e stack r w = (Ok (Some j'), w') /\
    exists r', jobs (db w') !! id r = Some r' /\ recovered_from r r'.
Proof.
  intros Hd Hi Hs. pose proof (rows_ok _ Hd _ _ Hi) as Hr.
  destruct (normalizeRow_ok _ _ Hr) as (j & Hj & Hsnap). pose proof (snap_id _ _ Hsnap) as Hid.
  rewrite <- Hid in Hi.
  destruct (applyFailure_runs e j (interrupted_error stack) w r Hd Hi Hsnap Hs)
    as (o & w1 & Ho & Hrun & Hput).
  pose proof (applyFailure_sim _ _ _ _ _ _ _ Hd Hi Hsnap Hrun) as (Hsim & _).
  assert (status (fail_row (attempts r + 1) (normalizeBackgroundJobError (interrupted_error stack)) o r)
    = if attempts r + 1 <=? max_retries r then Queued else Failed) as Hst.
  { unfold failure_of in Ho. destruct (_ <=? _); [destruct (retryDelayMs _); [|done]|];
      by injection Ho as <-. }
  unfold recover_row, mbind, ST_bind, lift_result. rewrite Hj, Hrun.
  destruct (decide _) as [Hq|Hq].
  - destruct (reconcile_runs e (failed_snapshot (attempts r + 1)
      (normalizeBackgroundJobError (interrupted_error stack)) o j) w1) as (j' & w2 & Hrec).
    rewrite Hrec. do 2 eexists. split; [done|].
    eapply reconcile_sim in Hrec as (_ & _ & r' & Hr' & Hre); [|apply Hsim|exact Hput| |].
    + exists r'. rewrite <- Hid. split; [done|]. unfold recovered_from.
      destruct Hre as [->|(key & cap & ->)]; cbn [status attempts set_concurrency] in *;
        rewrite Hst; by destruct (_ <=? _).
    + by apply snapshot_fail.
    + rewrite Hst. cbn in Hq. destruct o; [|done].
      unfold failure_of in Ho. by destruct (_ <=? _).
  - do 2 eexists. split; [done|]. eexists. rewrite <- Hid. split; [done|].
    unfold recovered_from. rewrite Hst. by destruct (_ <=? _).
Qed.

(** ** Enqueueing *)

Lemma prepareJob_Ok e name args options w p w' :
  Forall valid_json args ->
  _prepareJob e name args options w = (Ok p, w') ->
  db w' = db w /\
  p_argsJson p = stringify (JArr args) /\ p_executionMode p = "inline" /\
  0 <= p_maxRetries p /\ (forall c, p_concurrency p = Some c -> valid_concurrency c).
Proof.
  intros Hv H. unfold _prepareJob in H. destruct (negb (is_undefined _)); [by st_inv|]. st_inv.
  destruct (negb (bool_decide _)) eqn:Hm; [by st_inv|]. st_inv.
  apply now_Ok in H. apply new_uuid_Ok in H2. cbn.
  split; [congruence|]. split; [done|]. split; [|split].
  - case_bool_decide; [by subst|done].
  - apply normalize_max_retries_nonneg.
  - intros c ->. apply lift_semantics_Ok in H1. by eapply normalize_concurrency_valid.
Qed.

Lemma sim_submit d p :
  db_ok d -> jobs d !! p_jobId p = None ->
  (exists args, parse (p_argsJson p) = Some (JArr args)) -> p_executionMode p = "inline" ->
  0 <= p_maxRetries p ->
  (forall c, p_concurrency p = Some c -> is_Some (counters d !! concurrencyKey c)) ->
  sim d (set_jobs (insert (p_jobId p) (prepared_row p)) d).
Proof.
  intros Hd Hi Hargs Hmode Hmr Hc.
  assert (concurrency_key (prepared_row p) = None \/
    exists c, p_concurrency p = Some c /\ concurrencyKey c <> "" /\
      concurrency_key (prepared_row p) = Some (concurrencyKey c)) as Hkey.
  { cbn. destruct (p_concurrency p) as [c|]; [|by left]. cbn.
    destruct (concurrencyKey c) as [|a k] eqn:Hk; [by left|]. right. exists c. by rewrite Hk. }
  assert (astep (abs d) (put (abs d) (p_jobId p) (abs_job (prepared_row p)))) as Hst.
  { apply step_submit; [|done|done|done|].
    - cbn. by rewrite lookup_fmap, Hi.
    - unfold declared. cbn [key_of abs_job]. revert Hkey.
      generalize (concurrency_key (prepared_row p)). intros [k|] Hkey; [|done].
      destruct Hkey as [|(c & Hp & _ & [= ->])]; [done|]. cbn. rewrite lookup_fmap. destruct (Hc c Hp) as [row ->]. by eexists. }
  assert (concurrency_key (prepared_row p) <> Some "") as Hne.
  { destruct Hkey as [->|(c & _ & Hne & ->)]; [done|]. intros [= Hk]. done. }
  clear Hkey. split; [|rewrite abs_put; by apply rtc_once]. split.
  - intros i r. cbn [jobs set_jobs]. destruct (decide (p_jobId p = i)) as [<-|]; simplify_map_eq.
    + intros [= <-]. by split.
    + apply (rows_ok _ Hd).
  - intros k c Hk. rewrite abs_put, running_count_put. cbn.
    rewrite lookup_fmap, Hi. cbn. rewrite (counts_ok _ Hd k c Hk). lia.
  - rewrite abs_put. eapply astep_queue_ok; [apply Hd|done].
Qed.

Lemma after_commit_wake_Ok e w x w' : after_commit_wake e w = (Ok x, w') -> db w' = db w.
Proof. unfold after_commit_wake. destruct (has_onCommittedEnqueue e); by intros [= <- <-]. Qed.

Lemma enqueue_prepared_sim e dedup p w x w' args :
  db_ok (db w) -> parse (p_argsJson p) = Some (JArr args) -> p_executionMode p = "inline" ->
  0 <= p_maxRetries p -> (forall c, p_concurrency p = Some c -> valid_concurrency c) ->
  enqueue_prepared e dedup p w = (Ok x, w') -> sim (db w) (db w').
Proof.
  intros Hd Hargs Hmode Hmr Hc H. unfold enqueue_prepared in H. st_inv.
  apply after_commit_wake_Ok in H2. rewrite H2. clear H2.
  assert (sim (db w) (db x1) /\
    (forall c, p_concurrency p = Some c -> is_Some (counters (db x1) !! concurrencyKey c)))
    as [Hsim Hcs].
  { destruct (p_concurrency p) as [c|]; st_inv; [|split; [by apply sim_refl|done]].
    apply ensureConcurrency_sim in H as (Hsim & _ & row & Hrow & _); [|done|by apply Hc].
    split; [done|]. intros c' [= <-]. by rewrite Hrow. }
  assert (db x3 = db x1) as Hx3.
  { destruct dedup; [|by st_inv]. unfold select_jobs in H0. st_inv.
    destruct (first_by _ _); by st_inv. }
  eapply sim_trans; [done|]. rewrite <- Hx3 in *.
  destruct (decide _); st_inv; [|by apply sim_refl; destruct Hsim].
  unfold _insertPreparedJob in H1. destruct (jobs (db x3) !! p_jobId p) eqn:Hi; [done|].
  simplify_eq. cbn. apply sim_submit; eauto. apply Hsim.
Qed.

(** ** Every request *)

(** The queries and the preparation of a job do not write. *)
Definition reads {A} (m : M A) : Prop := forall d, preserves (fun w => db w = d) m.

Lemma reads_db {A} (m : M A) w : reads m -> db (m w).2 = db w.
Proof. intros H. by apply (H (db w)). Qed.

Lemma reads_getJob i : reads (_getJob i).
Proof.
  intros d w Hw. unfold _getJob. destruct (jobs (db w) !! i); [|done]. by destruct (_normalizeRow _).
Qed.

Lemma reads_now e : reads (now e).
Proof. by intros d w Hw. Qed.

Lemma reads_new_uuid e : reads (new_uuid e).
Proof. by intros d w Hw. Qed.

Lemma reads_select e p : reads (select_jobs e p).
Proof. by intros d w Hw. Qed.

Lemma reads_normalize_first r : reads (normalize_first r).
Proof. intros d. destruct r; cbn; [|apply preserves_ret]. eauto with preserves. Qed.

#[export] Hint Resolve reads_getJob reads_now reads_new_uuid reads_select reads_normalize_first
  : preserves.

Ltac solve_reads :=
  intros ?d; repeat first
    [ apply preserves_bind; [|intros ?]
    | apply preserves_ret | apply preserves_throw | apply preserves_gets | apply preserves_lift
    | apply preserves_if | apply reads_now | apply reads_new_uuid | apply reads_select
    | apply reads_getJob | apply reads_normalize_first ].

Lemma reads_nextAvailableJob e : reads (nextAvailableJob e).
Proof. solve_reads. Qed.
Lemma reads_nextScheduledJob e : reads (nextScheduledJob e).
Proof. solve_reads. Qed.
Lemma reads_listJobs e : reads (listJobs e).
Proof. solve_reads. Qed.
Lemma reads_handedOffJobsForWorker e wk : reads (handedOffJobsForWorker e wk).
Proof. solve_reads. Qed.
Lemma reads_prepareJob e name args options : reads (_prepareJob e name args options).
Proof. solve_reads. Qed.

#[export] Hint Resolve reads_nextAvailableJob reads_nextScheduledJob reads_listJobs
  reads_handedOffJobsForWorker reads_prepareJob : preserves.

Lemma enqueue_sim e name args options w :
  db_ok (db w) -> Forall valid_json args -> sim (db w) (db (enqueue e name args options w).2).
Proof.
  intros Hd Hv. unfold enqueue, mbind, ST_bind.
  pose proof (reads_db _ w (reads_prepareJob e name args options)) as Hreads.
  destruct (_prepareJob e name args options w) as [[p|x] w1] eqn:Hp; cbn in Hreads;
    [|cbn; rewrite Hreads; by apply sim_refl].
  apply prepareJob_Ok in Hp as (_ & Hargs & Hmode & Hmr & Hc); [|done].
  rewrite <- Hreads in *. apply mutate_sim; [done|]. intros i w' H.
  eapply enqueue_prepared_sim in H; eauto. rewrite Hargs.
  by rewrite parse_stringify_rebuild by (by constructor).
Qed.

Lemma ignoring_snd {A} (m : M A) w : (ignoring m w).2 = (m w).2.
Proof. unfold ignoring, mbind, ST_bind. by destruct (m w) as [[]]. Qed.

Lemma perform_sim e r w : db_ok (db w) -> request_ok r -> r <> ClearAll ->
  sim (db w) (db (perform e r w).2).
Proof.
  intros Hd Hr Hne. destruct r; cbn [perform]; rewrite ?ignoring_snd; try done.
  all: first
    [ apply enqueue_sim | apply reconcileQueueConcurrency_sim | apply markHandedOff_sim
    | apply markReturnedToQueue_sim | apply markCompleted_sim | apply markRescheduled_sim
    | apply markFailed_sim | apply recoverHandedOffJobs_sim
    | rewrite reads_db by eauto with preserves; apply sim_refl ]; done.
Qed.

Lemma empty_database_ok : db_ok empty_database.
Proof.
  split.
  - intros i r H. cbn in H. by rewrite lookup_empty in H.
  - intros i r H. cbn in H. by rewrite lookup_empty in H.
  - split; cbn; intros; rewrite ?fmap_empty in *; simplify_map_eq.
Qed.

Lemma reachable_ok w : reachable w -> db_ok (db w).
Proof.
  induction 1 as [|e r w _ IH Hr]; [apply empty_database_ok|].
  assert (r = ClearAll \/ r <> ClearAll) as [->|Hne] by (destruct r; naive_solver).
  - apply empty_database_ok.
  - by apply perform_sim.
Qed.
