(* ===== verification/LocalStoreTheorems.v ===== *)
(** * What the local background-jobs store guarantees

    The theorems about [LocalStore]: the refinement of the queue protocol, the
    invariants that follow from it in every reachable store, and the behaviour
    of the single methods. *)

From stdpp Require Import base gmap strings list sorting relations.
From Stdlib Require Import ZArith QArith Lia.
From S2P Require Import Prelude Sql Json JobSemantics LocalStore LocalProtocol LocalStoreCorrect.
Open Scope Z_scope.

(** ** A store to apply the theorems to *)

Definition demo_env : env := {|
  clock := fun n => 1000 + Z.of_nat n;
  uuid := fun n => String (Ascii.ascii_of_nat (65 + n)) "";
  job_scan := key_order;
  queues := {[ "mail" := {| maxConcurrent := of_Z 1; priority := of_Z 5 |} ]};
  has_onCommittedEnqueue := true
|}.

Definition demo_options : job_options := {|
  opt_queue := JsString " mail "; opt_has_forked := false; opt_executionMode := None;
  opt_maxRetries := of_Z 1; opt_scheduledAtMs := JsUndefined;
  opt_concurrencyKey := JsString "account-7"; opt_maxConcurrency := of_Z 1;
  opt_deduplicateWhileQueued := true; opt_idempotencyKey := JsUndefined |}.

Definition demo_enqueue : request := Enqueue "SendMail" [JNum "7"; JStr "x"] demo_options.

(** One job queued under an explicit key. *)
Definition demo_queued : world := (perform demo_env demo_enqueue initial_world).2.

(** The job claimed under the handoff [h1]. *)
Definition demo_claimed : world :=
  (perform demo_env (MarkHandedOff "A" (Some "h1") None) demo_queued).2.

Lemma demo_queued_reachable : reachable demo_queued.
Proof.
  apply reachable_perform; [constructor|].
  constructor; [by constructor|constructor; [constructor|constructor]].
Defined.

Lemma demo_claimed_reachable : reachable demo_claimed.
Proof. apply reachable_perform; [apply demo_queued_reachable|done]. Defined.

(** ** Refinement *)

(** C1: every method of the store refines the queue protocol: from a reachable store,
    any request, whether it returns or throws, moves the abstract queue along a
    sequence of protocol steps; only [clearAll] empties it. *)
Theorem store_refines_protocol e r w : reachable w -> request_ok r ->
  (r = ClearAll /\ abs (db (perform e r w).2) = empty_queue) \/
  rtc astep (abs (db w)) (abs (db (perform e r w).2)).
Proof.
  intros Hw Hr. assert (r = ClearAll \/ r <> ClearAll) as [->|Hne] by (destruct r; naive_solver).
  - left. split; [done|]. unfold abs, empty_queue. cbn. by rewrite !fmap_empty.
  - right. by apply perform_sim; [apply reachable_ok|..].
Qed.

Lemma store_refines_protocol_witness :
  abs (db demo_claimed) <> abs (db demo_queued) /\
  rtc astep (abs (db demo_queued)) (abs (db demo_claimed)).
Proof.
  split.
  - intros H. apply (f_equal (fun q => phase_of <$> ajobs q !! "A")) in H.
    vm_compute in H. discriminate H.
  - destruct (store_refines_protocol demo_env (MarkHandedOff "A" (Some "h1") None) demo_queued)
      as [[H _]|H]; [apply demo_queued_reachable|exact I|discriminate H|exact H].
Defined.

(** C2: in every reachable store the [active_count] of a concurrency key is the
    number of handed-off jobs of that key; a key given by the caller, which
    the configuration may not re-cap, never has more of them than its cap; and
    the key of every job has a counter. *)
Theorem concurrency_caps w : reachable w ->
  (forall key c, counters (db w) !! key = Some c ->
    active_count c = handed_off_count (jobs (db w)) key /\ 0 < counter_cap c /\
    (starts_with QUEUE_CONCURRENCY_KEY_PREFIX key = false ->
      handed_off_count (jobs (db w)) key <= counter_cap c)) /\
  (forall i r key, jobs (db w) !! i = Some r -> concurrency_key r = Some key ->
    is_Some (counters (db w) !! key)).
Proof.
  intros Hw. pose proof (reachable_ok w Hw) as Hd. split.
  - intros key c Hc. assert (caps (abs (db w)) !! key = Some (counter_cap c)) as Hcap.
    { cbn. by rewrite lookup_fmap, Hc. }
    rewrite <- running_count_abs. split; [by apply (counts_ok _ Hd)|]. split.
    + by apply (caps_ok _ (abs_ok _ Hd) key).
    + by apply (within_cap _ (abs_ok _ Hd)).
  - intros i r key Hi Hkey.
    destruct (jobs_ok _ (abs_ok _ Hd) i _ (abs_lookup _ _ _ Hi)) as [_ Hdec].
    cbn [key_of abs_job] in Hdec. rewrite Hkey in Hdec. destruct Hdec as [cap Hcap].
    cbn in Hcap. rewrite lookup_fmap in Hcap. by destruct (counters (db w) !! key).
Qed.

Lemma concurrency_caps_witness :
  counters (db demo_claimed) !! "account-7" = Some {| counter_cap := 1; active_count := 1 |} /\
  handed_off_count (jobs (db demo_claimed)) "account-7" <= 1.
Proof.
  assert (counters (db demo_claimed) !! "account-7" = Some {| counter_cap := 1; active_count := 1 |})
    as Hc by (vm_compute; reflexivity).
  split; [exact Hc|].
  destruct (concurrency_caps demo_claimed demo_claimed_reachable) as [H _].
  destruct (H "account-7" _ Hc) as (_ & _ & Hle). apply Hle. reflexivity.
Defined.

(** ** The life of one job *)

(** C3: a job never disappears except by [clearAll]; once completed or failed its
    status, key and attempts stay; attempts never decrease, never exceed
    [max_retries + 1], and reach it exactly when the job has failed for good. *)
Theorem job_lifecycle e r w i row :
  reachable w -> request_ok r -> r <> ClearAll -> jobs (db w) !! i = Some row ->
  exists row', jobs (db (perform e r w).2) !! i = Some row' /\
    max_retries row' = max_retries row /\
    attempts row <= attempts row' <= max_retries row + 1 /\
    (attempts row' = max_retries row' + 1 <-> status row' = Failed) /\
    (status row = Completed \/ status row = Failed ->
      status row' = status row /\ attempts row' = attempts row /\
      concurrency_key row' = concurrency_key row).
Proof.
  intros Hw Hr Hne Hi. pose proof (reachable_ok w Hw) as Hd.
  destruct (perform_sim e r w Hd Hr Hne) as [Hd' Hst].
  destruct (asteps_jobs _ _ _ _ Hst (abs_lookup _ _ _ Hi)) as (j' & Hj' & Hsteps).
  cbn in Hj'. rewrite lookup_fmap in Hj'.
  destruct (jobs (db (perform e r w).2) !! i) as [row'|] eqn:Hi'; [|done].
  injection Hj' as <-. exists row'. split; [done|].
  destruct (jsteps_attempts _ _ Hsteps) as [Hat Hlim]. cbn in Hat, Hlim.
  destruct (jobs_ok _ (abs_ok _ Hd') i _ (abs_lookup _ _ _ Hi')) as [(H0 & H1 & H2) _].
  cbn in H0, H1, H2. unfold abs_phase in H2. split; [done|]. split; [|split].
  - destruct (status row'); lia.
  - destruct (status row'); split; (done || lia).
  - intros Hterm. assert (terminal (abs_job row) = true) as Ht.
    { unfold terminal. cbn. unfold abs_phase. by destruct Hterm as [-> | ->]. }
    pose proof (jsteps_terminal _ _ Hsteps Ht) as Heq.
    injection Heq as Hph Hk Ha _. unfold abs_phase in Hph. split; [|done].
    destruct Hterm as [Hs|Hs]; rewrite Hs in Hph |- *; by destruct (status row').
Qed.

Lemma job_lifecycle_witness :
  exists row', jobs (db (perform demo_env (MarkFailed "A" (Some "h1") (ErrorString "boom"))
    demo_claimed).2) !! "A" = Some row' /\ max_retries row' = 1.
Proof.
  destruct (jobs (db demo_claimed) !! "A") as [row|] eqn:Hi; [|vm_compute in Hi; discriminate Hi].
  destruct (job_lifecycle demo_env (MarkFailed "A" (Some "h1") (ErrorString "boom")) demo_claimed "A" row)
    as (row' & H1 & H2 & _); [apply demo_claimed_reachable|exact I|discriminate|exact Hi|].
  exists row'. split; [exact H1|].
  assert (max_retries <$> jobs (db demo_claimed) !! "A" = Some 1) as Hm by (vm_compute; reflexivity).
  rewrite Hi in Hm. cbn in Hm. congruence.
Defined.

(** ** Fencing *)

(** An acknowledgement whose handoff does not hold the job; an absent or empty
    handoff identifier holds none. *)
Definition stale (w : world) (i : string) (h : option string) : Prop :=
  forall r, jobs (db w) !! i = Some r -> status r = HandedOff -> handoff_id r = h ->
    truthy h = None.

Lemma getJob_total w i : db_ok (db w) ->
  exists oj, _getJob i w = (Ok oj, w) /\
    match oj with
    | Some j => exists r, jobs (db w) !! i = Some r /\ snapshot_of r j
    | None => jobs (db w) !! i = None
    end.
Proof.
  intros Hd. unfold _getJob. destruct (jobs (db w) !! i) as [r|] eqn:Hi; [|by exists None].
  destruct (normalizeRow_ok i r) as (j & -> & Hsnap); [by eapply rows_ok|].
  exists (Some j). split; [done|]. by exists r.
Qed.

Lemma stale_not_accepted w i h j r : stale w i h -> jobs (db w) !! i = Some r -> snapshot_of r j ->
  _acceptsHandoff (Some j) h = false.
Proof.
  intros Hst Hi Hsnap. destruct (_acceptsHandoff (Some j) h) eqn:Ha; [|done].
  pose proof Ha as [Hs Hh]%acceptsHandoff_inv.
  rewrite (snap_status _ _ Hsnap) in Hs. rewrite (snap_handoff _ _ Hsnap) in Hh.
  specialize (Hst r Hi Hs Hh). exfalso. unfold _acceptsHandoff in Ha.
  rewrite (snap_handoff _ _ Hsnap), Hh, Hst in Ha. cbn in Ha. by rewrite andb_false_r in Ha.
Qed.

(** Fencing: an acknowledgement whose handoff identifier does not hold the job,
    because the job is not handed off, was handed off again, or does not
    exist, changes nothing and reports that it lost. *)
Lemma stale_handoff_ignored e w i h :
  reachable w -> stale w i (Some h) ->
  markCompleted e i (Some h) w = (Ok false, w) /\
  (forall delayMs, markRescheduled e i (Some h) delayMs w = (Ok false, w)) /\
  (forall error, markFailed e i (Some h) error w = (Ok None, w)) /\
  markReturnedToQueue e i h w = (Ok tt, w).
Proof.
  intros Hw Hst. pose proof (reachable_ok w Hw) as Hd.
  destruct (getJob_total w i Hd) as (oj & Hj & Hoj).
  unfold markCompleted, markRescheduled, markFailed, markReturnedToQueue, _mutate, mbind, ST_bind.
  rewrite Hj. destruct oj as [j|]; [|done]. destruct Hoj as (r & Hi & Hsnap).
  by rewrite (stale_not_accepted w i (Some h) j r Hst Hi Hsnap).
Qed.

Lemma stale_handoff_ignored_witness :
  fst (markCompleted demo_env "A" (Some "h0") demo_claimed) = Ok false /\
  fst (markCompleted demo_env "A" (Some "h1") demo_claimed) = Ok true.
Proof.
  split; [|vm_compute; reflexivity].
  destruct (stale_handoff_ignored demo_env demo_claimed "A" "h0") as [H _];
    [apply demo_claimed_reachable| |by rewrite H].
  intros r Hi _ Hh.
  assert (handoff_id <$> jobs (db demo_claimed) !! "A" = Some (Some "h1")) as Hm
    by (vm_compute; reflexivity).
  rewrite Hi in Hm. cbn in Hm. congruence.
Defined.

(** ** Accepted acknowledgements *)

Lemma mutate_Ok {A} (m : M A) w a w' : _mutate m w = (Ok a, w') -> m w = (Ok a, w').
Proof. unfold _mutate. by destruct (m w) as [[]]. Qed.

Lemma lock_ticks key w x w' : _lockConcurrencyRow key w = (Ok x, w') -> ticks w' = ticks w.
Proof.
  unfold _lockConcurrencyRow. destruct (truthy key) as [k|]; intros H; st_inv; [|done].
  by apply update_counter_Ok in H as [(_ & -> & _)|(c & _ & _ & _ & ->)].
Qed.

(** The job is held by the handoff. *)
Definition held (w : world) (i : string) (h : option string) (r : job_row) : Prop :=
  jobs (db w) !! i = Some r /\ status r = HandedOff /\ handoff_id r = h /\ truthy h <> None.

Lemma accepted_held w j r h : jobs (db w) !! j_id j = Some r -> snapshot_of r j ->
  negb (_acceptsHandoff (Some j) h) = false -> held w (j_id j) h r.
Proof.
  intros Hi Hsnap Ha. apply negb_false_iff in Ha. pose proof Ha as [Hs Hh]%acceptsHandoff_inv.
  split; [done|]. rewrite <- (snap_status _ _ Hsnap), <- (snap_handoff _ _ Hsnap).
  split; [done|]. split; [done|]. subst h. unfold _acceptsHandoff in Ha.
  destruct (bool_decide (truthy _ <> _)) eqn:Ht; [by apply bool_decide_eq_true in Ht|].
  by rewrite andb_false_r in Ha.
Qed.

Lemma fenced_update_jobs j h f w w' r :
  db_ok (db w) -> jobs (db w) !! j_id j = Some r -> snapshot_of r j ->
  row_ok (j_id j) (f r) -> concurrency_key (f r) = concurrency_key r ->
  has_status HandedOff (f r) = false ->
  (status r = HandedOff -> astep (abs (db w)) (put (abs (db w)) (j_id j) (abs_job (f r)))) ->
  fenced_update j h f w = (Ok true, w') ->
  jobs (db w') = <[j_id j := f r]> (jobs (db w)).
Proof.
  intros Hd Hi Hsnap Hf Hk Hs Hst H.
  destruct (fenced_update_sim _ _ _ _ _ _ _ Hd Hi Hsnap Hf Hk Hs Hst H) as (_ & Hframe & _ & _ & Hput).
  apply map_eq. intros i. destruct (decide (j_id j = i)) as [<-|]; simplify_map_eq; [done|].
  by apply Hframe.
Qed.

(** The state the fenced update of an acknowledgement starts from. *)
Ltac ack_state :=
  match goal with
  | Hl : _lockConcurrencyRow _ ?w0 = (Ok _, ?w1), Hn : now _ ?w1 = (Ok ?t, ?w2) |- _ =>
      pose proof (lock_Ok _ _ _ _ Hl); pose proof (lock_ticks _ _ _ _ Hl);
      assert (db w2 = db w0) by (apply now_Ok in Hn; congruence);
      injection Hn as ? _; subst t; clear Hl
  end.

(** An accepted completion or reschedule was sent by the holder of the job, and
    rewrites the row of that job and no other: completed at the time of the
    clock, or queued again at that time plus the requested delay, a
    non-negative safe integer, with its attempts unchanged. The same
    acknowledgement sent again is stale. *)
Lemma acknowledgement_effect e i h w : reachable w ->
  (forall w1, markCompleted e i h w = (Ok true, w1) ->
    exists r, held w i h r /\
      jobs (db w1) = <[i := complete (clock e (ticks w)) r]> (jobs (db w)) /\ stale w1 i h) /\
  (forall delayMs w1, markRescheduled e i h delayMs w = (Ok true, w1) ->
    exists r delay, held w i h r /\ as_safe_integer delayMs = Some delay /\ 0 <= delay /\
      jobs (db w1) = <[i := requeue (clock e (ticks w) + delay) r]> (jobs (db w)) /\ stale w1 i h).
Proof.
  intros Hw. pose proof (reachable_ok w Hw) as Hd. split.
  - intros w1 H%mutate_Ok. read_ack Hd discriminate. ack_state.
    exists r. split; [by apply accepted_held|]. rename select (db _ = db w) into Hdb.
    rename select (fenced_update _ _ _ _ = _) into Hf.
    eapply fenced_update_jobs in Hf; rewrite ?Hdb; eauto using step_of_complete.
    rewrite Hdb in Hf. split; [congruence|].
    intros r' Hr' Hs. rewrite Hf, lookup_insert_eq in Hr'. by injection Hr' as <-.
  - intros delayMs w1 H%mutate_Ok. read_ack Hd discriminate. ack_state.
    rename select (db _ = db w) into Hdb.
    rename select (fenced_update _ _ _ _ = _) into Hf.
    rename select (lift_semantics _ = _) into Hres.
    apply lift_semantics_Ok in Hres. unfold rescheduledBackgroundJobAtMs in Hres.
    destruct (as_safe_integer delayMs) as [delay|] eqn:Hdelay; [|done].
    destruct (Z.ltb_spec delay 0); [done|]. destruct (is_safe_Z _); [|done]. injection Hres as <-.
    exists r, delay. split; [by apply accepted_held|]. split; [done|]. split; [lia|].
    eapply fenced_update_jobs in Hf; rewrite ?Hdb; eauto using step_of_requeue.
    rewrite Hdb in Hf. split; [congruence|].
    intros r' Hr' Hs. rewrite Hf, lookup_insert_eq in Hr'. by injection Hr' as <-.
Qed.

Lemma acknowledgement_effect_witness :
  exists w1, markCompleted demo_env "A" (Some "h1") demo_claimed = (Ok true, w1) /\
    stale w1 "A" (Some "h1").
Proof.
  destruct (markCompleted demo_env "A" (Some "h1") demo_claimed) as [[[]|] w1] eqn:Hm;
    try (apply (f_equal fst) in Hm; vm_compute in Hm; discriminate Hm).
  exists w1. split; [reflexivity|].
  destruct (acknowledgement_effect demo_env "A" (Some "h1") demo_claimed demo_claimed_reachable)
    as [H _]. destruct (H w1 Hm) as (_ & _ & _ & Hst). exact Hst.
Defined.

Lemma normalize_fail r j a err o :
  _normalizeRow r = Ok j -> _normalizeRow (fail_row a err o r) = Ok (failed_snapshot a err o j).
Proof.
  unfold _normalizeRow. cbn [args_json execution_mode_column fail_row].
  destruct (parse (args_json r)) as [v|]; [|done].
  destruct (lift_semantics _) as [m|x]; [|done]. destruct v; try done. cbn.
  case_decide; [|done]. intros [= <-]. by destruct o.
Qed.

(** A failure report by the holder of a job always succeeds: the attempt is
    counted; while attempts remain the job is queued again after the backoff of
    its attempt number, otherwise it fails for good at the current time; the
    error is recorded, the snapshot returned is the row written, and no other
    job changes. *)
Lemma markFailed_effect e i h error w r :
  reachable w -> held w i h r ->
  exists o j w1, failure_of r (clock e (ticks w)) = Some o /\
    markFailed e i h error w = (Ok (Some j), w1) /\
    jobs (db w1) = <[i := fail_row (attempts r + 1) (normalizeBackgroundJobError error) o r]>
                     (jobs (db w)) /\
    _normalizeRow (fail_row (attempts r + 1) (normalizeBackgroundJobError error) o r) = Ok j.
Proof.
  intros Hw (Hi & Hs & Hh & Ht). pose proof (reachable_ok w Hw) as Hd.
  pose proof (rows_ok _ Hd _ _ Hi) as Hr.
  destruct (normalizeRow_ok _ _ Hr) as (j & Hj & Hsnap).
  assert (j_id j = i) as <- by (rewrite (snap_id _ _ Hsnap); apply Hr).
  destruct (applyFailure_runs e j error w r Hd Hi Hsnap Hs) as (o & w1 & Ho & Hrun & Hput).
  exists o, (failed_snapshot (attempts r + 1) (normalizeBackgroundJobError error) o j), w1.
  split; [done|]. split; [|split; [|by apply normalize_fail]].
  - unfold markFailed, _mutate, _getJob, mbind, ST_bind. rewrite Hi, Hj.
    assert (_acceptsHandoff (Some j) h = true) as ->; [|cbn [negb]; by rewrite Hrun].
    unfold _acceptsHandoff. rewrite (snap_status _ _ Hsnap), (snap_handoff _ _ Hsnap), Hs, Hh.
    by rewrite !bool_decide_eq_true_2.
  - apply applyFailure_sim with (r := r) in Hrun as (_ & Hframe & _); [|done..].
    apply map_eq. intros k. destruct (decide (j_id j = k)) as [<-|]; simplify_map_eq; [done|].
    by apply Hframe.
Qed.

Lemma markFailed_effect_witness :
  exists j w1, markFailed demo_env "A" (Some "h1") (ErrorString "boom") demo_claimed = (Ok (Some j), w1).
Proof.
  destruct (jobs (db demo_claimed) !! "A") as [r|] eqn:Hi; [|vm_compute in Hi; discriminate Hi].
  assert ((fun r => (status r, handoff_id r)) <$> jobs (db demo_claimed) !! "A"
    = Some (HandedOff, Some "h1")) as Hm by (vm_compute; reflexivity).
  rewrite Hi in Hm. cbn in Hm.
  destruct (markFailed_effect demo_env "A" (Some "h1") (ErrorString "boom") demo_claimed r)
    as (_ & j & w1 & _ & H & _); [apply demo_claimed_reachable| |exact (ex_intro _ j (ex_intro _ w1 H))].
  split; [exact Hi|]. split; [congruence|]. split; [congruence|discriminate].
Defined.

(** ** Recovery *)

Lemma recover_rows_runs e stack rows w :
  db_ok (db w) -> untouched (db w) rows -> Forall (fun r => status r = HandedOff) rows ->
  exists js w', recover_rows e stack rows w = (Ok js, w') /\ length js = length rows /\
    (forall r, r ∈ rows -> exists r', jobs (db w') !! id r = Some r' /\ recovered_from r r') /\
    (forall i, i ∉ id <$> rows -> jobs (db w') !! i = jobs (db w) !! i).
Proof.
  intros Hd Hu Hs. revert w Hd Hu. induction Hs as [|r rows Hr Hs IH]; intros w Hd Hu.
  { exists [], w. split_and!; [done|done| |done]. by intros r ?%elem_of_nil. }
  pose proof Hu as [Hnd [Hi _]%Forall_cons].
  destruct (recover_row_runs e stack r w Hd Hi Hr) as (j & w1 & Hrun & r' & Hr' & Hrec).
  destruct (recover_row_sim _ _ _ _ _ _ Hd Hi Hrun) as [[Hd1 _] Hframe].
  destruct (IH w1 Hd1 (untouched_tail _ _ _ _ Hu Hframe)) as (js & w2 & Hrun2 & Hlen & Hall & Hframe2).
  exists (j :: js), w2. cbn [recover_rows]. unfold mbind, ST_bind. rewrite Hrun, Hrun2.
  cbn [fmap list_fmap] in Hnd. apply NoDup_cons in Hnd as [Hnew _].
  split_and!; [done|cbn; by rewrite Hlen| |].
  - intros r0 [->|Hr0]%elem_of_cons; [|by apply Hall].
    exists r'. split; [|done]. by rewrite Hframe2.
  - intros i [Hne Hin]%not_elem_of_cons. rewrite Hframe2 by done. by apply Hframe.
Qed.

(** After the loop of the recovery no job is handed off. *)
Lemma recovered_none e stack w js w1 : db_ok (db w) ->
  recover_rows e stack (List.filter (has_status HandedOff) (scan (job_scan e) (jobs (db w)))) w =
    (Ok js, w1) ->
  forall i r, jobs (db w1) !! i = Some r -> status r <> HandedOff.
Proof.
  intros Hd. pose proof (untouched_scan (db w) (job_scan e) (has_status HandedOff) Hd) as Hu.
  set (rows := List.filter (has_status HandedOff) (scan (job_scan e) (jobs (db w)))) in *.
  destruct (recover_rows_runs e stack rows w Hd Hu (filter_Forall_status _ _))
    as (js' & w1' & -> & _ & Hall & Hframe).
  intros [= <- <-] i r Hi Hs. destruct (decide (i ∈ id <$> rows)) as [Hin|Hout].
  - apply list_elem_of_fmap in Hin as (r0 & -> & Hr0).
    destruct (Hall r0 Hr0) as (r' & Hr' & _ & Hst). rewrite Hi in Hr'. injection Hr' as <-.
    rewrite Hs in Hst. by destruct (_ <=? _).
  - rewrite Hframe in Hi by done. apply Hout. rewrite <- (row_id _ _ (rows_ok _ Hd _ _ Hi)).
    apply list_elem_of_fmap_2. unfold rows.
    rewrite list_elem_of_In, filter_In, <- list_elem_of_In, elem_of_scan.
    split; [by eexists|by apply bool_decide_eq_true_2].
Qed.

(** Recovery always returns, whatever the interrupted dispatcher left behind;
    each handed-off job is queued again or, its attempts exhausted, failed, with
    one more attempt counted; every other job is untouched; afterwards no job is
    handed off and every counter is zero. *)
Lemma recoverHandedOffJobs_complete e stack w : reachable w ->
  exists js w', recoverHandedOffJobs e stack w = (Ok js, w') /\
    (forall i r, jobs (db w) !! i = Some r -> exists r', jobs (db w') !! i = Some r' /\
      if has_status HandedOff r then recovered_from r r' else r' = r) /\
    (forall i r, jobs (db w') !! i = Some r -> status r <> HandedOff) /\
    (forall key c, counters (db w') !! key = Some c -> active_count c = 0).
Proof.
  intros Hw. pose proof (reachable_ok w Hw) as Hd.
  pose proof (untouched_scan (db w) (job_scan e) (has_status HandedOff) Hd) as Hu.
  set (rows := List.filter (has_status HandedOff) (scan (job_scan e) (jobs (db w)))) in *.
  destruct (recover_rows_runs e stack rows w Hd Hu (filter_Forall_status _ _))
    as (js & w1 & Hrun & _ & Hall & Hframe).
  pose proof (recover_rows_sim _ _ _ _ _ _ Hd Hu Hrun) as [Hd1 _].
  assert (forall i r, jobs (db w) !! i = Some r -> id r = i) as Hid by apply (rows_ok _ Hd).
  assert (forall i r, jobs (db w) !! i = Some r -> (has_status HandedOff r = true <-> r ∈ rows))
    as Hrows.
  { intros i r Hi. unfold rows. rewrite list_elem_of_In, filter_In, <- list_elem_of_In, elem_of_scan.
    naive_solver. }
  pose proof (recovered_none e stack w js w1 Hd Hrun) as Hnone.
  exists js, (set_db rebuild_counts w1). split_and!.
  - unfold recoverHandedOffJobs, _mutate, select_jobs, mbind, ST_bind, gets. fold rows.
    by rewrite Hrun.
  - intros i r Hi. cbn. destruct (has_status HandedOff r) eqn:Hs.
    + destruct (Hall r) as (r' & Hr' & Hrec); [by apply (Hrows i)|]. rewrite (Hid i r Hi) in Hr'. eauto.
    + exists r. split; [|done]. rewrite Hframe; [done|]. intros Hin.
      apply list_elem_of_fmap in Hin as (r' & Heq & Hr'). pose proof Hr' as Hin.
      destruct Hu as [_ Hall']. rewrite Forall_forall in Hall'. specialize (Hall' r' Hr').
      rewrite <- Heq, Hi in Hall'. injection Hall' as <-. apply (Hrows i r Hi) in Hin. congruence.
  - exact Hnone.
  - cbn [db set_db]. rewrite rebuild_counts_id by done. intros key c Hc.
    rewrite (counts_ok _ Hd1 key c Hc), running_count_abs. apply count_where_zero.
    intros i r Hi. unfold holds_key, has_status.
    rewrite bool_decide_eq_false_2; [done|by apply (Hnone i)].
Qed.

Lemma recoverHandedOffJobs_complete_witness :
  exists js w', recoverHandedOffJobs demo_env "Error: interrupted" demo_claimed = (Ok js, w') /\
    counters (db w') !! "account-7" = Some {| counter_cap := 1; active_count := 0 |}.
Proof.
  destruct (recoverHandedOffJobs_complete demo_env "Error: interrupted" demo_claimed
    demo_claimed_reachable) as (js & w' & Hrun & _ & _ & Hc).
  exists js, w'. split; [exact Hrun|].
  apply (f_equal (fun p => counter_cap <$> counters (db p.2) !! "account-7")) in Hrun as Hcap.
  cbn [snd] in Hcap. destruct (counters (db w') !! "account-7") as [[cap n]|] eqn:He.
  - specialize (Hc _ _ He). cbn in Hc. subst n. vm_compute in Hcap. injection Hcap as <-. reflexivity.
  - vm_compute in Hcap. discriminate Hcap.
Defined.

(** ** Selection and claims *)

(** A job the dispatcher may claim at a time. *)
Definition eligible (d : database) (nowMs : Z) (r : job_row) : Prop :=
  status r = Queued /\ scheduled_at_ms r <= nowMs /\ has_capacity d r = true.

(** The order of the selection: higher queue priority first, then the earlier
    schedule, the earlier creation and the smaller identifier. *)
Definition selected_before (e : env) (r r' : job_row) : Prop :=
  then_by (by_key (flip Qle) (default (fun _ => 0%Q) (_queuePriorityOrderSql (queues e))))
    by_schedule r r'.

#[local] Instance by_schedule_total : Total by_schedule.
Proof. unfold by_schedule. apply _. Qed.
#[local] Instance by_schedule_trans : Transitive by_schedule.
Proof. unfold by_schedule. apply _. Qed.

Lemma first_in_order_spec e rows :
  match first_in_order (_queuePriorityOrderSql (queues e)) rows with
  | Some r => r ∈ rows /\ Forall (fun r' => r' = r \/ selected_before e r r') rows
  | None => rows = []
  end.
Proof.
  unfold first_in_order, selected_before.
  destruct (_queuePriorityOrderSql (queues e)) as [p|]; cbn [default].
  - destruct (first_by _ rows) as [r|] eqn:Hr; [apply first_by_Some in Hr; [done|apply _..]|].
    by apply first_by_None in Hr.
  - destruct (first_by _ rows) as [r|] eqn:Hr; [|by apply first_by_None in Hr].
    apply first_by_Some in Hr as [Hin Hall]; [|apply _..]. split; [done|].
    eapply Forall_impl; [exact Hall|]. intros r' [->|Hle]; [by left|right].
    split; [apply Qle_refl|by intros _].
Qed.

Lemma elem_of_eligible e w nowMs r :
  r ∈ List.filter (fun r => has_status Queued r && (scheduled_at_ms r <=? nowMs) &&
      has_capacity (db w) r) (scan (job_scan e) (jobs (db w))) <->
  exists i, jobs (db w) !! i = Some r /\ eligible (db w) nowMs r.
Proof.
  rewrite list_elem_of_In, filter_In, <- list_elem_of_In, elem_of_scan. unfold eligible, has_status.
  rewrite !andb_true_iff, bool_decide_eq_true, Z.leb_le. naive_solver.
Qed.

(** The world after one reading of the clock. *)
Definition after_tick (w : world) : world :=
  {| db := db w; ticks := S (ticks w); uuids := uuids w; wakes := wakes w |}.

Definition selection (e : env) (w : world) (o : option job) : Prop :=
  let nowMs := clock e (ticks w) in
  match o with
  | Some j => exists i r, jobs (db w) !! i = Some r /\ _normalizeRow r = Ok j /\
      eligible (db w) nowMs r /\
      forall i' r', jobs (db w) !! i' = Some r' -> eligible (db w) nowMs r' ->
        r' = r \/ selected_before e r r'
  | None => forall i r, jobs (db w) !! i = Some r -> ~ eligible (db w) nowMs r
  end.

Lemma nextAvailableJob_runs e w : db_ok (db w) ->
  exists o, nextAvailableJob e w = (Ok o, after_tick w) /\ selection e w o.
Proof.
  intros Hd. unfold nextAvailableJob, now, select_jobs, gets, mbind, ST_bind. cbn [db].
  fold (after_tick w). unfold selection. set (nowMs := clock e (ticks w)).
  change (has_capacity (db w)) with (has_capacity (db (after_tick w))).
  change (jobs (db w)) with (jobs (db (after_tick w))).
  pose proof (elem_of_eligible e (after_tick w) nowMs) as Hel.
  set (rows := List.filter _ _) in *. pose proof (first_in_order_spec e rows) as Hspec.
  destruct (first_in_order _ rows) as [r|].
  - destruct Hspec as [Hin Hall]. apply Hel in Hin as (i & Hi & Helig).
    destruct (normalizeRow_ok i r) as (j & Hj & _); [by apply (rows_ok _ Hd)|].
    exists (Some j). split.
    + unfold normalize_first, lift_result, mbind, ST_bind. by rewrite Hj.
    + exists i, r. split; [done|]. split; [done|]. split; [done|]. intros i' r' Hi' He'.
      rewrite Forall_forall in Hall. apply Hall, Hel. eauto.
  - exists None. split; [done|]. intros i r Hi He.
    assert (r ∈ rows) as Hr by (apply Hel; eauto). rewrite Hspec in Hr. by apply elem_of_nil in Hr.
Qed.

(** [nextAvailableJob] always returns: a queued job that is due and whose key has a
    free slot, such that no other eligible job comes before it in the order of
    priority, schedule, creation and identifier; nothing exactly when no job is
    eligible. *)
Lemma nextAvailableJob_selects e w : reachable w ->
  exists o, nextAvailableJob e w = (Ok o, after_tick w) /\ selection e w o.
Proof. intros Hw. by apply nextAvailableJob_runs, reachable_ok. Qed.

Lemma nextAvailableJob_selects_witness :
  exists j w1, nextAvailableJob demo_env demo_queued = (Ok (Some j), w1) /\ j_id j = "A".
Proof.
  destruct (nextAvailableJob_selects demo_env demo_queued demo_queued_reachable) as (o & H & _).
  assert (match fst (nextAvailableJob demo_env demo_queued) with
    Ok o => j_id <$> o | Throw _ => None end = Some "A") as Hm by (vm_compute; reflexivity).
  rewrite H in Hm. cbn in Hm. destruct o as [j|]; [|discriminate Hm].
  exists j, (after_tick demo_queued). split; [exact H|]. cbn in Hm. congruence.
Defined.

(** The job [nextAvailableJob] returns can be claimed: [markHandedOff] right
    after it, at a clock that has not gone back, succeeds under the handoff
    given, and the job is then handed off under it. *)
Lemma selected_job_is_claimed e h w j w1 : reachable w ->
  nextAvailableJob e w = (Ok (Some j), w1) -> clock e (ticks w) <= clock e (S (ticks w)) ->
  exists t w2, markHandedOff e (j_id j) (Some h) None w1 = (Ok (Some (t, h)), w2) /\
    exists r, jobs (db w) !! j_id j = Some r /\
      jobs (db w2) = <[j_id j := hand_off t h "local" r]> (jobs (db w)).
Proof.
  intros Hw Hnext Hclock. pose proof (reachable_ok w Hw) as Hd.
  destruct (nextAvailableJob_runs e w Hd) as (o & Hrun & Hsel).
  rewrite Hnext in Hrun. injection Hrun as <- ->.
  destruct Hsel as (i & r & Hi & Hj & (Hq & Hdue & Hcap) & _).
  pose proof (rows_ok _ Hd _ _ Hi) as Hr. pose proof (normalizeRow_snapshot _ _ Hj) as Hsnap.
  assert (j_id j = i) as Hid by (rewrite (snap_id _ _ Hsnap); apply Hr). rewrite Hid.
  set (w3 := after_tick (after_tick w)).
  assert (exists w4, (match truthy (j_concurrencyKey j) with
    | Some key => _reserveConcurrency key | None => mret true end) w3 = (Ok true, w4) /\
    jobs (db w4) = jobs (db w)) as (w4 & Hres & Hw4).
  { rewrite (snap_key _ _ Hsnap), (row_truthy _ _ Hr). unfold has_capacity in Hcap.
    destruct (concurrency_key r) as [key|]; [|by eexists].
    unfold _reserveConcurrency, update_counter, mbind, ST_bind.
    change (counters (db w3)) with (counters (db w)).
    destruct (counters (db w) !! key) as [c|]; [|done]. rewrite Hcap. cbn. by eexists. }
  exists (clock e (ticks w4)), (set_db (set_jobs (insert i
    (hand_off (clock e (ticks w4)) h "local" r))) (after_tick w4)).
  split; [|exists r; split; [done|]; cbn; by rewrite Hw4].
  unfold markHandedOff, _mutate. unfold mbind at 1, ST_bind at 1, mret at 1, ST_ret at 1.
  unfold _getJob, mbind at 1, ST_bind at 1. change (jobs (db (after_tick w))) with (jobs (db w)).
  rewrite Hi, Hj, (snap_status _ _ Hsnap), Hq. cbn [bool_decide decide_rel negb].
  rewrite bool_decide_eq_true_2 by done. cbn [negb].
  unfold mbind at 1, ST_bind at 1, now at 1. fold (after_tick (after_tick w)). fold w3.
  rewrite (snap_scheduled _ _ Hsnap).
  destruct (Z.ltb_spec (clock e (ticks (after_tick w))) (scheduled_at_ms r)); [cbn in *; lia|].
  unfold mbind at 1, ST_bind at 1. rewrite Hres. cbn [negb].
  unfold now, update_job, mbind, ST_bind. cbn [db]. rewrite Hw4, Hi. unfold has_status.
  by rewrite bool_decide_eq_true_2.
Qed.

Lemma selected_job_is_claimed_witness :
  exists t w2, markHandedOff demo_env "A" (Some "h1") None (after_tick demo_queued)
    = (Ok (Some (t, "h1")), w2).
Proof.
  destruct (nextAvailableJob demo_env demo_queued) as [[[j|]|] w1] eqn:H;
    try (apply (f_equal (fun p => match p.1 with Ok (Some _) => true | _ => false end)) in H;
         vm_compute in H; discriminate H).
  assert (w1 = after_tick demo_queued) as ->.
  { destruct (nextAvailableJob_runs demo_env demo_queued (reachable_ok _ demo_queued_reachable))
      as (o & Hrun & _). congruence. }
  assert (match fst (nextAvailableJob demo_env demo_queued) with
    Ok o => j_id <$> o | Throw _ => None end = Some "A") as Hm by (vm_compute; reflexivity).
  rewrite H in Hm. cbn in Hm. injection Hm as Hid.
  destruct (selected_job_is_claimed demo_env "h1" demo_queued j (after_tick demo_queued))
    as (t & w2 & Hc & _); [apply demo_queued_reachable|exact H|cbn; lia|].
  exists t, w2. rewrite <- Hc. f_equal. symmetry. exact Hid.
Defined.

(** ** Errors *)

Lemma mutate_Throw {A} (m : M A) w x w' : _mutate m w = (Throw x, w') ->
  db w' = db w /\ wakes w' = wakes w.
Proof. unfold _mutate. destruct (m w) as [[a|e] w1]; [done|]. by intros [= _ <-]. Qed.

(** Steps that register no wake. *)
Definition no_wakes {A} (m : M A) : Prop := forall n, preserves (fun w => wakes w = n) m.

Lemma no_wakes_prepareJob e name args options : no_wakes (_prepareJob e name args options).
Proof.
  intros n. repeat first
    [ apply preserves_bind; [|intros ?] | apply preserves_ret | apply preserves_throw
    | apply preserves_lift | apply preserves_if | by intros ? ? ].
Qed.

Lemma no_wakes_getJob i : no_wakes (_getJob i).
Proof.
  intros n w Hw. unfold _getJob. destruct (jobs (db w) !! i); [|done]. by destruct (_normalizeRow _).
Qed.

Lemma no_wakes_normalize_first r : no_wakes (normalize_first r).
Proof.
  intros n. destruct r; cbn; [|apply preserves_ret].
  apply preserves_bind; [apply preserves_lift|intros ?; apply preserves_ret].
Qed.

Ltac solve_no_wakes :=
  intros n; repeat first
    [ apply preserves_bind; [|intros ?] | apply preserves_ret | apply preserves_throw
    | apply preserves_lift | apply preserves_gets | apply no_wakes_getJob
    | apply no_wakes_normalize_first | by intros ? ? ].

(** C4: atomicity: a request that throws leaves both tables as they were and
    wakes nobody, wherever the error was raised. *)
Theorem throwing_request_rolls_back e r w x w' :
  perform e r w = (Throw x, w') -> db w' = db w /\ wakes w' = wakes w.
Proof.
  assert (forall A (m : M A) (v : world) y v', ignoring m v = (Throw y, v') -> m v = (Throw y, v'))
    as Hign.
  { intros A m v y v'. unfold ignoring, mbind, ST_bind. destruct (m v) as [[a|z] v1]; [done|].
    by intros [= -> ->]. }
  assert (forall A (m : M A), reads m -> no_wakes m -> m w = (Throw x, w') ->
    db w' = db w /\ wakes w' = wakes w) as Hread.
  { intros A m Hr Hn H. pose proof (Hr (db w) w eq_refl) as H1.
    pose proof (Hn (wakes w) w eq_refl) as H2. rewrite H in H1, H2. done. }
  destruct r; cbn [perform]; try intros H%Hign; try (intros H; by eapply mutate_Throw);
    try (by eapply mutate_Throw).
  - unfold enqueue, mbind, ST_bind in H. destruct (_prepareJob _ _ _ _ _) as [[p|y] w1] eqn:Hp.
    + apply mutate_Throw in H as [-> ->].
      pose proof (reads_prepareJob e jobName args options (db w) w eq_refl) as H1.
      pose proof (no_wakes_prepareJob e jobName args options (wakes w) w eq_refl) as H2.
      rewrite Hp in H1, H2. done.
    + injection H as -> ->. by eapply Hread; [apply reads_prepareJob|apply no_wakes_prepareJob|].
  - eapply Hread; [| |exact H]; [eauto with preserves|solve_no_wakes].
  - eapply Hread; [| |exact H]; [eauto with preserves|solve_no_wakes].
  - eapply Hread; [| |exact H]; [eauto with preserves|solve_no_wakes].
  - eapply Hread; [| |exact H]; [eauto with preserves|solve_no_wakes].
  - unfold markHandedOff, mbind at 1, ST_bind at 1 in H. destruct handoffId as [h|].
    + unfold mret at 1, ST_ret at 1 in H. by eapply mutate_Throw.
    + unfold new_uuid at 1 in H. by apply mutate_Throw in H.
  - eapply Hread; [| |exact H]; [eauto with preserves|solve_no_wakes].
Qed.

(** A request that writes a counter before it throws: its identifier is taken. *)
Definition colliding_env : env := {|
  clock := clock demo_env; uuid := fun _ => "A"; job_scan := key_order;
  queues := queues demo_env; has_onCommittedEnqueue := true |}.

Definition colliding_enqueue : request := Enqueue "SendMail" [] {|
  opt_queue := JsUndefined; opt_has_forked := false; opt_executionMode := None;
  opt_maxRetries := JsUndefined; opt_scheduledAtMs := JsUndefined;
  opt_concurrencyKey := JsString "account-8"; opt_maxConcurrency := of_Z 1;
  opt_deduplicateWhileQueued := false; opt_idempotencyKey := JsUndefined |}.

Lemma throwing_request_rolls_back_witness :
  exists w', perform colliding_env colliding_enqueue demo_queued = (Throw (DuplicateJobId "A"), w') /\
    counters (db w') !! "account-8" = None.
Proof.
  destruct (perform colliding_env colliding_enqueue demo_queued) as [[u|x] w'] eqn:H.
  - apply (f_equal (fun p => is_Ok p.1)) in H. vm_compute in H. discriminate H.
  - exists w'. split.
    + assert (fst (perform colliding_env colliding_enqueue demo_queued) = Throw (DuplicateJobId "A"))
        as Hx by (vm_compute; reflexivity).
      rewrite H in Hx. cbn in Hx. injection Hx as ->. reflexivity.
    + destruct (throwing_request_rolls_back _ _ _ _ _ H) as [-> _]. vm_compute. reflexivity.
Defined.

(** ** Enqueueing *)

(** The contract the options of an enqueue resolve to. *)
Definition resolves (e : env) (options : job_options) (c : option resolved_concurrency) : Prop :=
  normalizeBackgroundJobConcurrency options (normalizeBackgroundJobQueue (Some options)) (queues e) = Ok c.

Lemma prepareJob_fields e name args options w p w' :
  _prepareJob e name args options w = (Ok p, w') ->
  w' = {| db := db w; ticks := S (ticks w); uuids := S (uuids w); wakes := wakes w |} /\
  p_argsJson p = stringify (JArr args) /\ p_argsDigest p = Sha256.sha256Hex (stringify (JArr args)) /\
  p_jobName p = name /\
  p_queue p = normalizeBackgroundJobQueue (Some options) /\
  p_maxRetries p = normalizeBackgroundJobMaxRetries (opt_maxRetries options) /\
  p_jobId p = uuid e (uuids w) /\ p_executionMode p = "inline" /\
  normalizeBackgroundJobScheduledAtMs (opt_scheduledAtMs options) (clock e (ticks w))
    = Ok (p_scheduledAtMs p) /\
  resolves e options (p_concurrency p).
Proof.
  intros H. unfold _prepareJob in H. destruct (negb (is_undefined _)); [by st_inv|]. st_inv.
  destruct (negb (bool_decide _)) eqn:Hm; [by st_inv|]. st_inv. cbn.
  injection H as <- <-. injection H2 as <- <-. cbn in *.
  repeat match goal with H : lift_semantics _ = Ok _ |- _ => apply lift_semantics_Ok in H end.
  split_and!; try done. case_bool_decide; [by subst|done].
Qed.

Lemma ensureConcurrency_jobs c w x w' : _ensureConcurrency c w = (Ok x, w') ->
  jobs (db w') = jobs (db w).
Proof.
  intros H. unfold _ensureConcurrency, upsert_counter in H. st_inv.
  destruct (counters _ !! _) as [row|]; st_inv. destruct (_ =? _); st_inv; [done|].
  destruct (negb _); st_inv.
  rename select (update_counter _ _ _ _ = _) into Hu.
  by apply update_counter_Ok in Hu as [(_ & -> & _)|(c' & _ & _ & _ & ->)].
Qed.

(** The queued job a deduplicated enqueue finds. *)
Definition duplicate_of (e : env) (dedup : bool) (p : prepared_job) (w : world) : option job_row :=
  if dedup
  then first_by oldest_due (List.filter (same_queued_job p) (scan (job_scan e) (jobs (db w))))
  else None.

Lemma duplicate_of_row e dedup p w r : db_ok (db w) -> duplicate_of e dedup p w = Some r ->
  jobs (db w) !! id r = Some r /\ same_queued_job p r = true.
Proof.
  intros Hd H. unfold duplicate_of in H. destruct dedup; [|done].
  apply first_by_Some in H as [Hr _]; [|apply _..].
  rewrite list_elem_of_In, filter_In, <- list_elem_of_In, elem_of_scan in Hr.
  destruct Hr as [[k Hk] Hr]. destruct (rows_ok _ Hd _ _ Hk) as [-> _ _ _]. done.
Qed.

Lemma enqueue_prepared_jobs e dedup p w i w' :
  db_ok (db w) -> enqueue_prepared e dedup p w = (Ok i, w') ->
  match duplicate_of e dedup p w with
  | Some r => i = id r /\ jobs (db w') = jobs (db w)
  | None => i = p_jobId p /\ jobs (db w) !! i = None /\
      jobs (db w') = <[i := prepared_row p]> (jobs (db w))
  end.
Proof.
  intros Hd H. pose proof (duplicate_of_row e dedup p w) as Hdup.
  unfold enqueue_prepared in H. st_inv. apply after_commit_wake_Ok in H2. rewrite H2. clear H2.
  assert (jobs (db x0) = jobs (db w)) as Hjobs.
  { destruct (p_concurrency p); st_inv; [by eapply ensureConcurrency_jobs|done]. }
  assert (x2 = x0 /\ x1 = match duplicate_of e dedup p w with
    | Some r => id r | None => p_jobId p end) as [-> ->].
  { unfold duplicate_of. destruct dedup; [|by st_inv]. unfold select_jobs in H0. st_inv. rewrite <- Hjobs.
    match goal with H : (match first_by ?R ?l with _ => _ end) _ = _ |- _ =>
      revert H; destruct (first_by R l); intros H; by st_inv end. }
  destruct (duplicate_of e dedup p w) as [r|].
  - destruct (Hdup r Hd eq_refl) as [Hr _]. split; [done|].
    destruct (decide (id r = p_jobId p)) as [Heq|]; st_inv; [|done].
    unfold _insertPreparedJob in H1. rewrite Hjobs, <- Heq, Hr in H1. done.
  - rewrite decide_True in H1 by done. unfold _insertPreparedJob in H1.
    rewrite Hjobs in H1. destruct (jobs (db w) !! p_jobId p) eqn:Hnone; [done|].
    injection H1 as _ <-. cbn. by rewrite Hjobs.
Qed.

Lemma enqueue_Ok e name args options w i w' :
  enqueue e name args options w = (Ok i, w') ->
  exists p w1, _prepareJob e name args options w = (Ok p, w1) /\ db w1 = db w /\
    enqueue_prepared e (opt_deduplicateWhileQueued options) p w1 = (Ok i, w').
Proof.
  intros H. unfold enqueue in H. st_inv. apply mutate_Ok in H0. do 2 eexists. split; [done|].
  split; [|done]. by apply prepareJob_fields in H as [-> _].
Qed.

(** What is enqueued is what is read back: without deduplication, the returned
    identifier was not in use, no other job changes, and [getJob] returns the
    job queued with the arguments, through [JSON.stringify] and [JSON.parse],
    the name, the normalized queue and retry cap, the schedule and the resolved
    concurrency contract it was enqueued with. *)
Lemma enqueue_getJob_roundtrip e name args options w i w' :
  reachable w -> Forall valid_json args -> Forall ordinary args ->
  opt_deduplicateWhileQueued options = false ->
  enqueue e name args options w = (Ok i, w') ->
  jobs (db w) !! i = None /\ (forall k, k <> i -> jobs (db w') !! k = jobs (db w) !! k) /\
  exists j c, getJob i w' = (Ok (Some j), w') /\
    j_args j = args /\ j_jobName j = name /\ j_id j = i /\ j_status j = Queued /\
    j_attempts j = 0 /\ j_handoffId j = None /\
    j_queue j = normalizeBackgroundJobQueue (Some options) /\
    j_maxRetries j = normalizeBackgroundJobMaxRetries (opt_maxRetries options) /\
    normalizeBackgroundJobScheduledAtMs (opt_scheduledAtMs options) (clock e (ticks w))
      = Ok (j_scheduledAtMs j) /\
    resolves e options c /\ j_concurrencyKey j = concurrencyKey <$> c /\
    j_maxConcurrency j = maxConcurrency <$> c.
Proof.
  intros Hw Hv Ho Hdedup H. pose proof (reachable_ok w Hw) as Hd.
  apply enqueue_Ok in H as (p & w1 & Hp & Hw1 & H).
  apply prepareJob_fields in Hp as (_ & Hargs & _ & Hname & Hqueue & Hmr & _ & Hmode & Hsched & Hc).
  rewrite Hdedup in H. rewrite <- Hw1 in Hd. apply enqueue_prepared_jobs in H; [|done].
  cbn [duplicate_of] in H. destruct H as (-> & Hnone & Hjobs). rewrite Hw1 in *.
  split; [done|]. split; [intros k Hk; by rewrite Hjobs, lookup_insert_ne|].
  assert (parse (args_json (prepared_row p)) = Some (JArr args)) as Hparse.
  { cbn [args_json prepared_row]. rewrite Hargs. apply parse_stringify; by constructor. }
  assert (resolved_row : concurrency_key (prepared_row p) = concurrencyKey <$> p_concurrency p /\
    max_concurrency (prepared_row p) = maxConcurrency <$> p_concurrency p).
  { cbn. destruct (p_concurrency p) as [c|] eqn:Hpc; [|done].
    destruct (normalize_concurrency_valid _ _ _ _ Hc) as (Hpos & Hne & _). cbn.
    destruct (Z.eqb_spec (maxConcurrency c) 0); [lia|]. by destruct (concurrencyKey c). }
  destruct resolved_row as [Hkey Hcap].
  unfold getJob, _getJob. rewrite Hjobs, lookup_insert_eq. unfold _normalizeRow.
  rewrite Hparse, Hkey, Hcap. cbn [execution_mode_column prepared_row]. rewrite Hmode.
  rewrite (decide_False (P := queue (prepared_row p) = "")).
  2: { cbn. rewrite Hqueue. apply normalize_queue_nonempty. }
  eexists _, (p_concurrency p). split; [reflexivity|]. cbn. by rewrite Hname, Hqueue, Hmr.
Qed.

Lemma enqueue_getJob_roundtrip_witness :
  exists i w' j, enqueue colliding_env "SendMail" [JNum "7"; JStr "x"] empty_options initial_world
      = (Ok i, w') /\
    getJob i w' = (Ok (Some j), w') /\ j_args j = [JNum "7"; JStr "x"].
Proof.
  destruct (enqueue colliding_env "SendMail" [JNum "7"; JStr "x"] empty_options initial_world)
    as [[i|x] w'] eqn:H; [|apply (f_equal (fun p => is_Ok p.1)) in H; vm_compute in H; discriminate H].
  destruct (enqueue_getJob_roundtrip colliding_env "SendMail" [JNum "7"; JStr "x"] empty_options
    initial_world i w') as (_ & _ & j & _ & Hget & Hargs & _); [constructor| | |reflexivity|exact H|].
  - repeat constructor.
  - repeat constructor.
  - exists i, w', j. split; [reflexivity|]. split; [exact Hget|exact Hargs].
Defined.

(** A deduplicated enqueue returns the oldest queued job with the same name,
    the same arguments and the same queue that is due by the requested time, and
    then adds nothing; only when there is none does it insert a new job. *)
Lemma enqueue_deduplicates e name args options w i w' :
  reachable w -> opt_deduplicateWhileQueued options = true ->
  enqueue e name args options w = (Ok i, w') ->
  exists due, normalizeBackgroundJobScheduledAtMs (opt_scheduledAtMs options) (clock e (ticks w)) = Ok due /\
    let same r := status r = Queued /\ job_name r = name /\ args_json r = stringify (JArr args) /\
      args_digest r = Sha256.sha256Hex (stringify (JArr args)) /\
      queue r = normalizeBackgroundJobQueue (Some options) /\ scheduled_at_ms r <= due in
    (jobs (db w') = jobs (db w) /\ exists r, jobs (db w) !! i = Some r /\ same r /\
       forall k r', jobs (db w) !! k = Some r' -> same r' -> r' = r \/ oldest_due r r') \/
    (jobs (db w) !! i = None /\ (forall k r, jobs (db w) !! k = Some r -> ~ same r) /\
       exists r, jobs (db w') = <[i := r]> (jobs (db w)) /\ same r).
Proof.
  intros Hw Hdedup H. pose proof (reachable_ok w Hw) as Hd.
  apply enqueue_Ok in H as (p & w1 & Hp & Hw1 & H).
  apply prepareJob_fields in Hp as (_ & Hargs & Hdig & Hname & Hqueue & _ & _ & _ & Hsched & _).
  exists (p_scheduledAtMs p). split; [done|]. intros same.
  assert (forall r, same_queued_job p r = true <-> same r) as Hsame.
  { intros r. unfold same_queued_job, same, has_status.
    rewrite !andb_true_iff, !bool_decide_eq_true, Z.leb_le, Hargs, Hdig, Hname, Hqueue. tauto. }
  assert (forall k r, jobs (db w) !! k = Some r -> same r ->
    r ∈ List.filter (same_queued_job p) (scan (job_scan e) (jobs (db w)))) as Hin.
  { intros k r Hk Hr. rewrite list_elem_of_In, filter_In, <- list_elem_of_In, elem_of_scan, Hsame.
    eauto. }
  rewrite Hdedup in H. rewrite <- Hw1 in Hd. pose proof (duplicate_of_row e true p w1) as Hrow.
  apply enqueue_prepared_jobs in H; [|done].
  destruct (duplicate_of e true p w1) as [r|] eqn:Hdup; cbn [duplicate_of] in Hdup; rewrite Hw1 in *.
  - left. destruct H as [-> Hjobs]. split; [done|].
    destruct (Hrow r Hd eq_refl) as [Hi Hr]. apply Hsame in Hr. exists r. split; [done|]. split; [done|].
    intros k r' Hk Hr'. apply first_by_Some in Hdup as [_ Hall]; [|apply _..].
    rewrite Forall_forall in Hall. by apply Hall, (Hin k).
  - right. destruct H as (-> & Hnone & Hjobs). split; [done|]. split.
    + intros k r Hk Hr. apply first_by_None in Hdup. specialize (Hin k r Hk Hr).
      rewrite Hdup in Hin. by apply elem_of_nil in Hin.
    + exists (prepared_row p). split; [done|]. unfold same. cbn.
      rewrite Hname, Hargs, Hdig, Hqueue. split_and!; done || lia.
Qed.

Lemma enqueue_deduplicates_witness :
  exists w', enqueue demo_env "SendMail" [JNum "7"; JStr "x"] demo_options demo_queued = (Ok "A", w') /\
    exists due, normalizeBackgroundJobScheduledAtMs (opt_scheduledAtMs demo_options)
      (clock demo_env (ticks demo_queued)) = Ok due.
Proof.
  destruct (enqueue demo_env "SendMail" [JNum "7"; JStr "x"] demo_options demo_queued)
    as [[i|x] w'] eqn:H; [|apply (f_equal (fun p => is_Ok p.1)) in H; vm_compute in H; discriminate H].
  assert (fst (enqueue demo_env "SendMail" [JNum "7"; JStr "x"] demo_options demo_queued) = Ok "A")
    as Hx by (vm_compute; reflexivity).
  rewrite H in Hx. cbn in Hx. injection Hx as ->. exists w'. split; [reflexivity|].
  destruct (enqueue_deduplicates demo_env "SendMail" [JNum "7"; JStr "x"] demo_options demo_queued "A" w')
    as (due & Hdue & _); [apply demo_queued_reachable|reflexivity|exact H|].
  exists due. exact Hdue.
Defined.
