(* ===== verification/LocalDispatcher.v ===== *)
(** * The local background-jobs dispatcher ([src/src/background-jobs/local-dispatcher.js])

    [LocalBackgroundJobsDispatcher] claims jobs from the store, performs them in
    this process, acknowledges them under their handoff, retries acknowledgements
    that failed, and stops gracefully. Its methods interleave at every [await], so
    it is a step relation: a step is the code between two awaits, with the store
    call that ends it. A store call may also be lost (the database fails): then it
    throws and has changed nothing. Jobs are enqueued at any time.

    [HandoffStore] is what the dispatcher promises itself of the store, by the
    view [handoffs] (the jobs that are handed off, with their fence). The cap
    [maxConcurrentInlineJobs] is constant; what a performance runs is any
    acknowledgement at any later time. [start] awaits two calls of the store, the
    reconciliation and the recovery, as one; a start and a stop, or two stops, do
    not overlap. The reports of errors and the idle waiters are not modelled, nor
    is a second process on the same store. *)

From stdpp Require Import base functions gmap strings list relations.
From Stdlib Require Import ZArith Lia.
From S2P Require Import Prelude Sql Json JobSemantics LocalStore.
Open Scope Z_scope.

(** ** The store, as the dispatcher uses it *)

Class HandoffStore (W : Type) := {
  store_nextAvailableJob : ST W store_error (option job);
  store_nextScheduledJob : ST W store_error (option job);
  store_markHandedOff : string -> ST W store_error (option string);
  store_markCompleted : string -> string -> ST W store_error unit;
  store_markRescheduled : string -> string -> scalar -> ST W store_error unit;
  store_markFailed : string -> string -> job_error -> ST W store_error unit;
  store_recover : ST W store_error unit;      (* reconciles, then recovers *)
  store_enqueue : string -> list json -> job_options -> ST W store_error unit
}.

Class HandoffView (W : Type) := {
  handoffs : W -> gmap string string;
  store_ok : W -> Prop
}.

(** The effect of a call on the handoffs: [f] of them when it returns [a], none
    when it throws. *)
Definition effect {W A} `{HandoffView W} (m : ST W store_error A)
    (f : A -> gmap string string -> gmap string string -> Prop) : Prop :=
  forall w, store_ok w -> ends m (fun r w' => store_ok w' /\
    match r with
    | Ok a => f a (handoffs w) (handoffs w')
    | Throw _ => handoffs w' = handoffs w
    end) w.

(** Of the handoffs, only the acknowledged one is gone. *)
Definition acknowledged (i h : string) (before after : gmap string string) : Prop :=
  after = if decide (before !! i = Some h) then delete i before else before.

Class HandoffLaws (W : Type) `{!HandoffStore W, !HandoffView W} := {
  next_available_law : effect store_nextAvailableJob (fun _ before after => after = before);
  next_scheduled_law : effect store_nextScheduledJob (fun _ before after => after = before);
  hand_off_law i : effect (store_markHandedOff i) (fun claimed before after =>
    match claimed with
    | Some h => before !! i = None /\ after = <[i := h]> before /\ h <> ""
    | None => after = before
    end);
  completed_law i h : h <> "" -> effect (store_markCompleted i h) (fun _ => acknowledged i h);
  rescheduled_law i h d : h <> "" -> effect (store_markRescheduled i h d) (fun _ => acknowledged i h);
  failed_law i h err : h <> "" -> effect (store_markFailed i h err) (fun _ => acknowledged i h);
  recover_law : effect store_recover (fun _ _ after => after = ∅);
  enqueue_law name args options : Forall valid_json args ->
    effect (store_enqueue name args options) (fun _ before after => after = before)
}.

(** ** The state *)

Inductive acknowledgement :=
| AckCompleted
| AckFailed (error : job_error)
| AckRescheduled (delayMs : scalar).

(** A claimed job and its handoff. *)
Record claimed := { claimed_job : job; handoffId : string }.

Inductive stage :=
| Performing
| Acknowledging (a : acknowledgement)
| Settled.                              (* the promise is settled, not yet removed *)

Record performance := { performed : claimed; stage_of : stage }.

Record pending := { pending_claim : claimed; pending_acknowledgement : acknowledgement }.

(** Where the drain that [_drainPromise] stands for is. *)
Inductive drain_phase :=
| NoDrain
| WakeQueued
| Retrying (left : list (string * pending))
| Asking
| Claiming (j : job)
| Arming
| Ended.                                (* [_drain] is over, its [finally] is not *)

Inductive stop_phase :=
| NotStopping
| AwaitingDrain
| AwaitingPerformances
| RetryingToStop (left : list (string * pending)).

Record dispatcher := {
  _accepting : bool;
  _started : bool;
  _drain : drain_phase;
  _redrain : bool;
  _inFlight : list performance;
  _pendingAcknowledgements : list (string * pending);
  _scheduledTimer : option Z;
  _recoveryTimer : bool;
  stopping : stop_phase
}.

Definition initial_dispatcher : dispatcher := {|
  _accepting := false; _started := false; _drain := NoDrain; _redrain := false;
  _inFlight := []; _pendingAcknowledgements := []; _scheduledTimer := None;
  _recoveryTimer := false; stopping := NotStopping |}.

Definition set_drain (p : drain_phase) (d : dispatcher) : dispatcher := {|
  _accepting := _accepting d; _started := _started d; _drain := p; _redrain := _redrain d;
  _inFlight := _inFlight d; _pendingAcknowledgements := _pendingAcknowledgements d;
  _scheduledTimer := _scheduledTimer d; _recoveryTimer := _recoveryTimer d; stopping := stopping d |}.

Definition set_redrain (b : bool) (d : dispatcher) : dispatcher := {|
  _accepting := _accepting d; _started := _started d; _drain := _drain d; _redrain := b;
  _inFlight := _inFlight d; _pendingAcknowledgements := _pendingAcknowledgements d;
  _scheduledTimer := _scheduledTimer d; _recoveryTimer := _recoveryTimer d; stopping := stopping d |}.

Definition set_inFlight (l : list performance) (d : dispatcher) : dispatcher := {|
  _accepting := _accepting d; _started := _started d; _drain := _drain d; _redrain := _redrain d;
  _inFlight := l; _pendingAcknowledgements := _pendingAcknowledgements d;
  _scheduledTimer := _scheduledTimer d; _recoveryTimer := _recoveryTimer d; stopping := stopping d |}.

Definition set_pending (l : list (string * pending)) (d : dispatcher) : dispatcher := {|
  _accepting := _accepting d; _started := _started d; _drain := _drain d; _redrain := _redrain d;
  _inFlight := _inFlight d; _pendingAcknowledgements := l;
  _scheduledTimer := _scheduledTimer d; _recoveryTimer := _recoveryTimer d; stopping := stopping d |}.

Definition set_scheduled (t : option Z) (d : dispatcher) : dispatcher := {|
  _accepting := _accepting d; _started := _started d; _drain := _drain d; _redrain := _redrain d;
  _inFlight := _inFlight d; _pendingAcknowledgements := _pendingAcknowledgements d;
  _scheduledTimer := t; _recoveryTimer := _recoveryTimer d; stopping := stopping d |}.

Definition set_recovery (b : bool) (d : dispatcher) : dispatcher := {|
  _accepting := _accepting d; _started := _started d; _drain := _drain d; _redrain := _redrain d;
  _inFlight := _inFlight d; _pendingAcknowledgements := _pendingAcknowledgements d;
  _scheduledTimer := _scheduledTimer d; _recoveryTimer := b; stopping := stopping d |}.

Definition set_stopping (p : stop_phase) (d : dispatcher) : dispatcher := {|
  _accepting := _accepting d; _started := _started d; _drain := _drain d; _redrain := _redrain d;
  _inFlight := _inFlight d; _pendingAcknowledgements := _pendingAcknowledgements d;
  _scheduledTimer := _scheduledTimer d; _recoveryTimer := _recoveryTimer d; stopping := p |}.

(** ** The synchronous methods *)

Definition MAX_TIMER_MS : Z := 2147483647.

(** [wake] *)
Definition wake (d : dispatcher) : dispatcher :=
  if negb (_accepting d) then d else
  match _drain d with
  | NoDrain => set_drain WakeQueued d
  | _ => set_redrain true d
  end.

(** [_armRecoveryTimer]: an armed timer stays. *)
Definition _armRecoveryTimer (d : dispatcher) : dispatcher :=
  if negb (_accepting d) then d else set_recovery true d.

(** The [finally] of the drain promise. *)
Definition drain_finished (d : dispatcher) : dispatcher :=
  let d := set_drain NoDrain d in
  if _redrain d && _accepting d then wake (set_redrain false d) else d.

(** The [catch] of the drain promise, before its [finally]. *)
Definition drain_failed (d : dispatcher) : dispatcher := set_drain Ended (_armRecoveryTimer d).

(** [_armScheduledTimer] up to its call of the store. *)
Definition _armScheduledTimer (d : dispatcher) : dispatcher :=
  let d := set_scheduled None d in
  if _accepting d then set_drain Arming d else set_drain Ended d.

(** [map.set(key, value)] *)
Fixpoint map_set {A} (k : string) (v : A) (l : list (string * A)) : list (string * A) :=
  match l with
  | [] => [(k, v)]
  | (k', v') :: l' => if decide (k = k') then (k', v) :: l' else (k', v') :: map_set k v l'
  end.

(** [map.delete(key)] *)
Definition map_delete {A} (k : string) (l : list (string * A)) : list (string * A) :=
  List.filter (fun kv => negb (bool_decide (kv.1 = k))) l.

(** The beginning of [stop]. *)
Definition begin_stop (d : dispatcher) : dispatcher := {|
  _accepting := false; _started := _started d; _drain := _drain d; _redrain := false;
  _inFlight := _inFlight d; _pendingAcknowledgements := _pendingAcknowledgements d;
  _scheduledTimer := None; _recoveryTimer := false; stopping := AwaitingDrain |}.

(** The end of [stop]. *)
Definition end_stop (d : dispatcher) : dispatcher := {|
  _accepting := _accepting d; _started := false; _drain := _drain d; _redrain := _redrain d;
  _inFlight := _inFlight d; _pendingAcknowledgements := _pendingAcknowledgements d;
  _scheduledTimer := _scheduledTimer d; _recoveryTimer := _recoveryTimer d;
  stopping := NotStopping |}.

(** The end of [start]. *)
Definition end_start (d : dispatcher) : dispatcher := wake {|
  _accepting := true; _started := true; _drain := _drain d; _redrain := _redrain d;
  _inFlight := _inFlight d; _pendingAcknowledgements := _pendingAcknowledgements d;
  _scheduledTimer := _scheduledTimer d; _recoveryTimer := _recoveryTimer d;
  stopping := stopping d |}.

Section dispatcher.
Context {W : Type} `{!HandoffStore W} (maxConcurrentInlineJobs : Z).

(** [_ownedPerformanceCount] *)
Definition _ownedPerformanceCount (d : dispatcher) : Z :=
  Z.of_nat (length (_inFlight d) + length (_pendingAcknowledgements d)).

(** The condition of the drain loop. *)
Definition drain_loop (d : dispatcher) : dispatcher :=
  if _accepting d && (_ownedPerformanceCount d <? maxConcurrentInlineJobs)
  then set_drain Asking d else _armScheduledTimer d.

(** [_retryPendingAcknowledgements] goes on with the rest of its snapshot. *)
Definition retry_rest (left : list (string * pending)) (d : dispatcher) : dispatcher :=
  match left with [] => drain_loop d | _ => set_drain (Retrying left) d end.

(** [_startPerformance] *)
Definition _startPerformance (c : claimed) (d : dispatcher) : dispatcher :=
  set_inFlight (_inFlight d ++ [{| performed := c; stage_of := Performing |}]) d.

(** [_acknowledge] *)
Definition _acknowledge (c : claimed) (a : acknowledgement) : ST W store_error unit :=
  let i := j_id (claimed_job c) in
  match a with
  | AckRescheduled delayMs => store_markRescheduled i (handoffId c) delayMs
  | AckFailed error => store_markFailed i (handoffId c) error
  | AckCompleted => store_markCompleted i (handoffId c)
  end.

(** A call of the store: it runs, or it is lost and throws. *)
Inductive calls_store {A} (m : ST W store_error A) (w : W) : result store_error A -> W -> Prop :=
| call_runs r w' : m w = (r, w') -> calls_store m w r w'
| call_lost err : calls_store m w (Throw err) w.

Definition is_settled (p : performance) : bool :=
  match stage_of p with Settled => true | _ => false end.

Definition at_stage (st : stage) (p : performance) : performance :=
  {| performed := performed p; stage_of := st |}.

(** One attempt of [_retryPendingAcknowledgements]. *)
Definition retried (jobId : string) (r : result store_error unit) (d : dispatcher) : dispatcher :=
  match r with
  | Ok _ => set_pending (map_delete jobId (_pendingAcknowledgements d)) d
  | Throw _ => _armRecoveryTimer d
  end.

(** The end of [_perform]: a failed acknowledgement is kept. *)
Definition acknowledged_performance (p : performance) (a : acknowledgement)
    (r : result store_error unit) (before after : list performance) (d : dispatcher) : dispatcher :=
  let d := set_inFlight (before ++ at_stage Settled p :: after) d in
  match r with
  | Ok _ => d
  | Throw _ =>
      set_pending (map_set (j_id (claimed_job (performed p)))
        {| pending_claim := performed p; pending_acknowledgement := a |}
        (_pendingAcknowledgements d)) d
  end.

(** The delay of the scheduled timer. *)
Definition timer_delay (scheduledAtMs now : Z) : Z := Z.max 0 (Z.min (scheduledAtMs - now) MAX_TIMER_MS).

Inductive dstep : dispatcher * W -> dispatcher * W -> Prop :=
(* start: the store is reconciled and recovered before admission *)
| step_start d w w' :
    _started d = false -> calls_store store_recover w (Ok tt) w' ->
    dstep (d, w) (end_start d, w')
| step_start_failed d w err w' :
    _started d = false -> calls_store store_recover w (Throw err) w' -> dstep (d, w) (d, w')
(* somebody enqueues a job, well or not; and a committed enqueue, or anyone else, wakes the
   dispatcher *)
| step_enqueue d w name args options r w' :
    Forall valid_json args -> calls_store (store_enqueue name args options) w r w' -> dstep (d, w) (d, w')
| step_wake d w : dstep (d, w) (wake d, w)
| step_scheduled_timer d w t :
    _scheduledTimer d = Some t -> dstep (d, w) (wake (set_scheduled None d), w)
| step_recovery_timer d w :
    _recoveryTimer d = true -> dstep (d, w) (wake (set_recovery false d), w)
(* the drain *)
| step_drain d w :
    _drain d = WakeQueued -> dstep (d, w) (retry_rest (_pendingAcknowledgements d) d, w)
| step_retry d w jobId p left r w' :
    _drain d = Retrying ((jobId, p) :: left) ->
    calls_store (_acknowledge (pending_claim p) (pending_acknowledgement p)) w r w' ->
    dstep (d, w) (retry_rest left (retried jobId r d), w')
| step_ask d w j w' :
    _drain d = Asking -> calls_store store_nextAvailableJob w (Ok (Some j)) w' ->
    dstep (d, w) (set_drain (Claiming j) d, w')
| step_none_available d w w' :
    _drain d = Asking -> calls_store store_nextAvailableJob w (Ok None) w' ->
    dstep (d, w) (_armScheduledTimer d, w')
| step_ask_failed d w err w' :
    _drain d = Asking -> calls_store store_nextAvailableJob w (Throw err) w' ->
    dstep (d, w) (drain_failed d, w')
| step_claim d w j h w' :
    _drain d = Claiming j -> calls_store (store_markHandedOff (j_id j)) w (Ok (Some h)) w' ->
    dstep (d, w) (drain_loop (_startPerformance {| claimed_job := j; handoffId := h |} d), w')
| step_not_claimed d w j w' :
    _drain d = Claiming j -> calls_store (store_markHandedOff (j_id j)) w (Ok None) w' ->
    dstep (d, w) (_armScheduledTimer (set_redrain true d), w')
| step_claim_failed d w j err w' :
    _drain d = Claiming j -> calls_store (store_markHandedOff (j_id j)) w (Throw err) w' ->
    dstep (d, w) (drain_failed d, w')
| step_armed d w next now w' :
    _drain d = Arming -> calls_store store_nextScheduledJob w (Ok next) w' ->
    dstep (d, w) (set_drain Ended (match next with
      | Some j => set_scheduled (Some (timer_delay (j_scheduledAtMs j) now)) d
      | None => d
      end), w')
| step_arm_failed d w err w' :
    _drain d = Arming -> calls_store store_nextScheduledJob w (Throw err) w' ->
    dstep (d, w) (drain_failed d, w')
| step_drained d w : _drain d = Ended -> dstep (d, w) (drain_finished d, w)
(* a performance *)
| step_performed d w p a before after :
    _inFlight d = before ++ p :: after -> stage_of p = Performing ->
    dstep (d, w) (set_inFlight (before ++ at_stage (Acknowledging a) p :: after) d, w)
| step_acknowledge d w p a before after r w' :
    _inFlight d = before ++ p :: after -> stage_of p = Acknowledging a ->
    calls_store (_acknowledge (performed p) a) w r w' ->
    dstep (d, w) (acknowledged_performance p a r before after d, w')
| step_removed d w p before after :
    _inFlight d = before ++ p :: after -> is_settled p = true ->
    dstep (d, w) (wake (set_inFlight (before ++ after) d), w)
(* stop *)
| step_stop d w : _started d = true -> stopping d = NotStopping -> dstep (d, w) (begin_stop d, w)
| step_stop_drained d w :
    stopping d = AwaitingDrain -> _drain d = NoDrain ->
    dstep (d, w) (set_stopping AwaitingPerformances d, w)
| step_stop_performed d w :
    stopping d = AwaitingPerformances -> forallb is_settled (_inFlight d) = true ->
    dstep (d, w) (set_stopping (RetryingToStop (_pendingAcknowledgements d)) d, w)
| step_stop_retry d w jobId p left w' :
    stopping d = RetryingToStop ((jobId, p) :: left) ->
    calls_store (_acknowledge (pending_claim p) (pending_acknowledgement p)) w (Ok tt) w' ->
    dstep (d, w) (set_stopping (RetryingToStop left) (retried jobId (Ok tt) d), w')
| step_stop_failed d w jobId p left err w' :
    stopping d = RetryingToStop ((jobId, p) :: left) ->
    calls_store (_acknowledge (pending_claim p) (pending_acknowledgement p)) w (Throw err) w' ->
    dstep (d, w) (set_stopping NotStopping d, w')
| step_stopped d w :
    stopping d = RetryingToStop [] -> dstep (d, w) (end_stop d, w).
End dispatcher.
