(* ===== verification/LocalDispatcherCorrect.v ===== *)
(** * The local background-jobs dispatcher: correctness

    Invariants of the steps of [LocalDispatcher.v] over any store that keeps the
    laws of [HandoffLaws]: the jobs handed off in the store are exactly those the
    dispatcher owns (a performance, or an acknowledgement kept for a retry), never
    more than the cap; a kept acknowledgement will be retried; a stop that returns
    leaves nothing handed off. *)

From stdpp Require Import base functions gmap strings list relations.
From Stdlib Require Import ZArith Lia.
From S2P Require Import Prelude Sql Json JobSemantics LocalStore LocalDispatcher.
Open Scope Z_scope.

Abbreviation fences := (gmap string string).

Definition claim_id (c : claimed) : string := j_id (claimed_job c).

(** ** Ownership *)

(** The claims [cs] are of different jobs and are exactly the handoffs [H]. *)
Record owns (cs : list claimed) (H : fences) : Prop := {
  owns_once : NoDup (map claim_id cs);
  owns_exactly : forall i h, H !! i = Some h <->
    exists c, c ∈ cs /\ claim_id c = i /\ handoffId c = h;
  owns_fences : Forall (fun c => handoffId c <> "") cs
}.

#[export] Instance owns_proper : Proper ((≡ₚ) ==> (=) ==> iff) owns.
Proof.
  assert (forall cs cs' H, cs ≡ₚ cs' -> owns cs H -> owns cs' H) as Himp.
  { intros cs cs' H Hp [H1 H2 H3]. split; [by rewrite <- Hp| |by rewrite <- Hp].
    intros i h. rewrite H2. by setoid_rewrite Hp. }
  intros cs cs' Hp H ? <-. split; apply Himp; [done|by symmetry].
Qed.

Lemma owns_empty : owns [] ∅.
Proof.
  split; [constructor| |constructor]. intros i h. rewrite lookup_empty.
  split; [done|]. intros (c & []%elem_of_nil & _).
Qed.

Lemma owns_head c cs H : owns (c :: cs) H -> H !! claim_id c = Some (handoffId c) /\ handoffId c <> "".
Proof.
  intros [_ He Hf]. split; [|by inversion Hf]. apply He. exists c. split_and!; [by left|done..].
Qed.

(** An acknowledged claim is released. *)
Lemma owns_release c cs H H' : owns (c :: cs) H -> acknowledged (claim_id c) (handoffId c) H H' ->
  owns cs H'.
Proof.
  intros Ho Ha. pose proof (owns_head _ _ _ Ho) as [Hc _]. destruct Ho as [Hn He Hf].
  unfold acknowledged in Ha. rewrite decide_True in Ha by done. subst H'.
  cbn in Hn. apply NoDup_cons in Hn as [Hnot Hn]. apply Forall_cons in Hf as [_ Hf].
  split; [done| |done]. intros i h. rewrite lookup_delete_Some, He. split.
  - intros [Hi (c' & [->|Hin]%elem_of_cons & Hid & Hh)]; [done|]. by exists c'.
  - intros (c' & Hin & Hid & Hh). split.
    + intros Heq. apply Hnot. rewrite Heq, <- Hid. by apply list_elem_of_fmap_2.
    + exists c'. split; [by right|done].
Qed.

(** A claimed job was nobody's. *)
Lemma owns_claim c cs H : owns cs H -> H !! claim_id c = None -> handoffId c <> "" ->
  owns (c :: cs) (<[claim_id c := handoffId c]> H).
Proof.
  intros [Hn He Hf] Hnone Hh. split; cbn; [| |by constructor].
  - constructor; [|done]. intros (c' & Hid & Hin)%list_elem_of_fmap.
    assert (H !! claim_id c' = Some (handoffId c')) by (apply He; eauto). congruence.
  - intros i h. rewrite lookup_insert_Some, He. split.
    + intros [[<- <-]|[Hne (c' & Hin & Hid & Hh')]]; [exists c|exists c']; split_and!;
        try done; by constructor.
    + intros (c' & [->|Hin]%elem_of_cons & Hid & Hh'); [by left|right]. split; [|by exists c'].
      intros <-. assert (H !! claim_id c' = Some (handoffId c')) by (apply He; eauto). congruence.
Qed.

(** What the dispatcher owns: performances that are not settled, and kept
    acknowledgements. *)
Definition performing (l : list performance) : list claimed :=
  map performed (List.filter (fun p => negb (is_settled p)) l).

Definition kept (l : list (string * pending)) : list claimed := map (fun kv => pending_claim kv.2) l.

Definition owned (d : dispatcher) : list claimed :=
  performing (_inFlight d) ++ kept (_pendingAcknowledgements d).

Arguments owned : simpl never.
Arguments performing : simpl never.
Arguments kept : simpl never.

Lemma performing_app l l' : performing (l ++ l') = performing l ++ performing l'.
Proof. unfold performing. by rewrite List.filter_app, map_app. Qed.

Lemma performing_length l : (length (performing l) <= length l)%nat.
Proof.
  unfold performing. rewrite length_map. induction l as [|p l IH]; cbn; [done|].
  destruct (is_settled p); cbn; lia.
Qed.

(** The entries of the map of kept acknowledgements are under their ids. *)
Definition keyed (l : list (string * pending)) : Prop :=
  Forall (fun kv => kv.1 = claim_id (pending_claim kv.2)) l.

Lemma keyed_keys l : keyed l -> l.*1 = map claim_id (kept l).
Proof.
  unfold kept. induction 1 as [|kv l Hk Hl IH]; [done|]. cbn. by rewrite IH, Hk.
Qed.

Lemma map_set_new {A} k (v : A) l : k ∉ l.*1 -> map_set k v l = l ++ [(k, v)].
Proof.
  induction l as [|[k' v'] l IH]; cbn; [done|]. intros Hk.
  rewrite decide_False by set_solver. rewrite IH; [done|set_solver].
Qed.

Lemma map_delete_one k (v : pending) l : NoDup l.*1 -> (k, v) ∈ l ->
  l ≡ₚ (k, v) :: map_delete k l /\ forall kv, kv ∈ map_delete k l <-> kv ∈ l /\ kv.1 <> k.
Proof.
  intros Hn Hin. split.
  - apply list_elem_of_split in Hin as (l1 & l2 & ->). unfold map_delete.
    rewrite fmap_app, fmap_cons in Hn. cbn in Hn.
    assert (forall l', k ∉ l'.*1 -> List.filter (fun kv : string * pending =>
      negb (bool_decide (kv.1 = k))) l' = l') as Hid.
    { intros l'. induction l' as [|[k' v'] l' IH]; cbn; [done|]. intros Hk.
      rewrite bool_decide_eq_false_2 by set_solver. cbn. by rewrite IH by set_solver. }
    apply NoDup_app in Hn as (Hn1 & Hd & [Hk Hn2]%NoDup_cons).
    rewrite List.filter_app. cbn. rewrite bool_decide_eq_true_2 by done. cbn.
    rewrite !Hid; [by rewrite Permutation_middle|done|]. intros Hk1. apply (Hd k Hk1). by left.
  - intros kv. unfold map_delete. rewrite !list_elem_of_In, List.filter_In, negb_true_iff,
      bool_decide_eq_false. done.
Qed.

(** ** The invariant *)

Section correct.
Context {W : Type} `{!HandoffStore W, !HandoffView W, !HandoffLaws W}.
Context (cap : Z) (cap_nonneg : 0 <= cap).

(** A claim the drain is about to make. *)
Definition reserved (p : drain_phase) : Z :=
  match p with Asking | Claiming _ => 1 | _ => 0 end.

(** The phases fit the flags and the lists. *)
Record consistent (d : dispatcher) : Prop := {
  accepts_started : _accepting d = true -> _started d = true;
  drains_started : _drain d <> NoDrain -> _started d = true;
  stops_started : stopping d <> NotStopping -> _started d = true /\ _accepting d = false;
  stop_drained : (stopping d = NotStopping \/ stopping d = AwaitingDrain) \/ _drain d = NoDrain;
  stop_retries : forall left, stopping d = RetryingToStop left ->
    forallb is_settled (_inFlight d) = true /\ _pendingAcknowledgements d = left;
  drain_retries : forall left, _drain d = Retrying left ->
    NoDup left.*1 /\ left ⊆ _pendingAcknowledgements d
}.

Record dispatcher_ok (d : dispatcher) (w : W) : Prop := {
  ok_store : store_ok w;
  ok_keyed : keyed (_pendingAcknowledgements d);
  ok_owned : if _started d then owns (owned d) (handoffs w) else owned d = [];
  ok_cap : Z.of_nat (length (owned d)) + reserved (_drain d) <= cap;
  ok_consistent : consistent d
}.

Lemma pending_keys d w : dispatcher_ok d w -> NoDup (_pendingAcknowledgements d).*1.
Proof.
  intros [_ Hk Ho _ _]. rewrite keyed_keys by done. destruct (_started d).
  - destruct Ho as [Hn _ _]. unfold owned in Hn. rewrite map_app in Hn.
    by apply NoDup_app in Hn as (_ & _ & ?).
  - unfold owned in Ho. apply app_eq_nil in Ho as [_ ->]. constructor.
Qed.

(** A change of the drain alone. *)
Lemma ok_set_drain p d w : dispatcher_ok d w -> _started d = true ->
  reserved p <= reserved (_drain d) ->
  (stopping d = NotStopping \/ stopping d = AwaitingDrain \/ p = NoDrain) ->
  (forall left, p = Retrying left -> NoDup left.*1 /\ left ⊆ _pendingAcknowledgements d) ->
  dispatcher_ok (set_drain p d) w.
Proof.
  intros [Hs Hk Ho Hc [C1 C2 C3 C4 C5 C6]] Hst Hr Hstop Hretry.
  split; cbn; try done; [change (owned (set_drain p d)) with (owned d); lia|].
  split; cbn; try done. destruct Hstop as [?|[?|?]]; auto.
Qed.

Lemma ok_set_redrain b d w : dispatcher_ok d w -> dispatcher_ok (set_redrain b d) w.
Proof. intros [Hs Hk Ho Hc []]. by split; [..|split]. Qed.

Lemma ok_set_scheduled t d w : dispatcher_ok d w -> dispatcher_ok (set_scheduled t d) w.
Proof. intros [Hs Hk Ho Hc []]. by split; [..|split]. Qed.

Lemma ok_set_recovery b d w : dispatcher_ok d w -> dispatcher_ok (set_recovery b d) w.
Proof. intros [Hs Hk Ho Hc []]. by split; [..|split]. Qed.

Lemma ok_arm_recovery d w : dispatcher_ok d w -> dispatcher_ok (_armRecoveryTimer d) w.
Proof. intros H. unfold _armRecoveryTimer. case_match; [done|]. by apply ok_set_recovery. Qed.

(** The stop has not passed the drain. *)
Lemma drain_before_stop d w : dispatcher_ok d w -> _drain d <> NoDrain ->
  _started d = true /\ (stopping d = NotStopping \/ stopping d = AwaitingDrain).
Proof. intros [_ _ _ _ [C1 C2 C3 C4 C5 C6]] Hd. split; [by apply C2|]. by destruct C4. Qed.

Lemma ok_wake d w : dispatcher_ok d w -> dispatcher_ok (wake d) w.
Proof.
  intros H. unfold wake. destruct (_accepting d) eqn:Ha; [cbn|done].
  destruct (_drain d) eqn:Hd; try by apply ok_set_redrain. pose proof H as [_ _ _ _ [C1 C2 C3 C4 C5 C6]].
  apply ok_set_drain; [done|by apply C1|by rewrite Hd| |done].
  destruct (stopping d) eqn:Hst; [by left|..]; destruct C3 as [_ C3]; congruence.
Qed.

Lemma ok_drain_to p d w : dispatcher_ok d w -> _drain d <> NoDrain -> reserved p <= reserved (_drain d) ->
  (forall left, p = Retrying left -> NoDup left.*1 /\ left ⊆ _pendingAcknowledgements d) ->
  dispatcher_ok (set_drain p d) w.
Proof.
  intros H Hd Hr Hl. destruct (drain_before_stop d w H Hd) as [Hs Hstop].
  apply ok_set_drain; try done. destruct Hstop; auto.
Qed.

Lemma reserved_nonneg p : 0 <= reserved p.
Proof. by destruct p. Qed.

Lemma ok_arm_scheduled d w : dispatcher_ok d w -> _drain d <> NoDrain ->
  dispatcher_ok (_armScheduledTimer d) w.
Proof.
  intros H Hd. unfold _armScheduledTimer. apply (ok_set_scheduled None) in H.
  case_match; apply ok_drain_to; try done; apply reserved_nonneg.
Qed.

Lemma ok_drain_failed d w : dispatcher_ok d w -> _drain d <> NoDrain -> dispatcher_ok (drain_failed d) w.
Proof.
  intros H Hd. unfold drain_failed. apply ok_drain_to; [by apply ok_arm_recovery| | |done].
  - unfold _armRecoveryTimer. by case_match.
  - apply reserved_nonneg.
Qed.

(** The loop reserves a place for the claim when there is one. *)
Lemma ok_drain_loop d w : dispatcher_ok d w -> _drain d <> NoDrain -> dispatcher_ok (drain_loop cap d) w.
Proof.
  intros H Hd. unfold drain_loop. destruct (_accepting d && _) eqn:Hc; [|by apply ok_arm_scheduled].
  apply andb_prop in Hc as [_ Hc%Z.ltb_lt]. destruct (drain_before_stop d w H Hd) as [Hs Hstop].
  pose proof H as [H1 H2 H3 H4 [C1 C2 C3 C4 C5 C6]]. split; cbn; try done.
  - change (owned (set_drain Asking d)) with (owned d). unfold owned, _ownedPerformanceCount in *.
    rewrite length_app. pose proof (performing_length (_inFlight d)).
    unfold kept. rewrite length_map. lia.
  - split; cbn; try done. by left.
Qed.

Lemma ok_drain_finished d w : dispatcher_ok d w -> dispatcher_ok (drain_finished d) w.
Proof.
  intros H. unfold drain_finished. assert (dispatcher_ok (set_drain NoDrain d) w) as H1.
  { destruct H as [H1 H2 H3 H4 [C1 C2 C3 C4 C5 C6]]. split; cbn; try done.
    - change (owned (set_drain NoDrain d)) with (owned d). pose proof (reserved_nonneg (_drain d)). lia.
    - split; cbn; try done. by right. }
  case_match; [|done]. by apply ok_wake, ok_set_redrain.
Qed.

Lemma ok_retry_rest left d w : dispatcher_ok d w -> _drain d <> NoDrain ->
  NoDup left.*1 -> left ⊆ _pendingAcknowledgements d -> dispatcher_ok (retry_rest cap left d) w.
Proof.
  intros H Hd Hn Hl. unfold retry_rest. destruct left as [|kv left]; [by apply ok_drain_loop|].
  apply ok_drain_to; [done|done|apply reserved_nonneg|]. by intros ? [= <-].
Qed.

(** ** Calls of the store *)

Lemma calls_effect {A} (m : ST W store_error A) f w r w' : effect m f -> store_ok w ->
  calls_store m w r w' ->
  store_ok w' /\ match r with Ok a => f a (handoffs w) (handoffs w') | Throw _ => handoffs w' = handoffs w end.
Proof.
  intros Hm Hw [r' w1 Hrun|err]; [|done]. specialize (Hm w Hw). unfold ends in Hm.
  by rewrite Hrun in Hm.
Qed.

Lemma ok_world d w w' : dispatcher_ok d w -> store_ok w' -> handoffs w' = handoffs w ->
  dispatcher_ok d w'.
Proof. intros [H1 H2 H3 H4 H5] Hw Hh. split; try done. by rewrite Hh. Qed.

Lemma ok_reads {A} (m : ST W store_error A) d w r w' : effect m (fun _ b a => a = b) ->
  dispatcher_ok d w -> calls_store m w r w' -> dispatcher_ok d w'.
Proof.
  intros Hm Hd Hc. destruct (calls_effect _ _ _ _ _ Hm (ok_store _ _ Hd) Hc) as [Hw H].
  eapply ok_world; [done|done|]. by destruct r.
Qed.

Lemma acknowledge_law c a : handoffId c <> "" ->
  effect (_acknowledge c a) (fun _ => acknowledged (claim_id c) (handoffId c)).
Proof.
  intros Hh. destruct a; [by apply completed_law|by apply failed_law|by apply rescheduled_law].
Qed.

(** An owned claim is acknowledged: released, or still owned after a throw. *)
Lemma acknowledge_owned c cs a w r w' : owns (c :: cs) (handoffs w) -> store_ok w ->
  calls_store (_acknowledge c a) w r w' ->
  store_ok w' /\ match r with
    | Ok _ => owns cs (handoffs w')
    | Throw _ => owns (c :: cs) (handoffs w')
    end.
Proof.
  intros Ho Hw Hc. pose proof (owns_head _ _ _ Ho) as [_ Hh].
  destruct (calls_effect _ _ _ _ _ (acknowledge_law c a Hh) Hw Hc) as [Hw' H]. split; [done|].
  destruct r; [by eapply owns_release|by rewrite H].
Qed.

Lemma kept_delete k p l : NoDup l.*1 -> (k, p) ∈ l ->
  kept l ≡ₚ pending_claim p :: kept (map_delete k l).
Proof.
  intros Hn Hin. destruct (map_delete_one k p l Hn Hin) as [Hp _]. unfold kept.
  rewrite Hp at 1. done.
Qed.

Lemma keyed_delete k l : keyed l -> keyed (map_delete k l).
Proof.
  unfold keyed. rewrite !Forall_forall. intros H kv Hkv. apply H.
  unfold map_delete in Hkv. rewrite list_elem_of_In, List.filter_In, <- list_elem_of_In in Hkv.
  by destruct Hkv.
Qed.

Lemma ok_retried d w jobId p r w' : dispatcher_ok d w -> _started d = true ->
  (jobId, p) ∈ _pendingAcknowledgements d ->
  (forall left, _drain d = Retrying left -> jobId ∉ left.*1) ->
  (forall left, stopping d <> RetryingToStop left) ->
  calls_store (_acknowledge (pending_claim p) (pending_acknowledgement p)) w r w' ->
  dispatcher_ok (retried jobId r d) w'.
Proof.
  intros H Hst Hin Hleft Hstop Hc. pose proof (pending_keys d w H) as Hn.
  pose proof H as [H1 H2 H3 H4 [C1 C2 C3 C4 C5 C6]]. rewrite Hst in H3.
  assert (owned d ≡ₚ pending_claim p ::
    (performing (_inFlight d) ++ kept (map_delete jobId (_pendingAcknowledgements d)))) as Hperm.
  { unfold owned. rewrite (kept_delete jobId p) by done. by rewrite Permutation_middle. }
  rewrite Hperm in H3, H4. destruct (acknowledge_owned _ _ _ _ _ _ H3 H1 Hc) as [Hw' Ho].
  destruct r as [[]|err]; cbn.
  - split; cbn; [done|by apply keyed_delete|by rewrite Hst| |].
    + cbn in H4. change (owned (set_pending _ d)) with
        (performing (_inFlight d) ++ kept (map_delete jobId (_pendingAcknowledgements d))). lia.
    + split; cbn; try done; [intros left Hl; by destruct (Hstop left)|].
      intros left Hl. destruct (C6 left Hl) as [Hnl Hsub]. split; [done|]. intros kv Hkv.
      apply (map_delete_one jobId p); [done|done|]. split; [by apply Hsub|]. intros <-.
      apply (Hleft left Hl). by apply list_elem_of_fmap_2.
  - apply ok_arm_recovery. split; try done; [by rewrite Hst, Hperm|by rewrite Hperm].
Qed.

Lemma retry_rest_drain left jobId r q d :
  retry_rest cap left (retried jobId r (set_drain q d)) = retry_rest cap left (retried jobId r d).
Proof.
  unfold retry_rest, drain_loop, _armScheduledTimer, retried, _armRecoveryTimer.
  by destruct r, left; cbn; destruct (_accepting d); cbn.
Qed.

Lemma retried_drain jobId r d : _drain (retried jobId r d) = _drain d /\
  _started (retried jobId r d) = _started d /\ stopping (retried jobId r d) = stopping d.
Proof. unfold retried, _armRecoveryTimer. destruct r, (_accepting d); done. Qed.

Lemma ok_step_retry d w jobId p left r w' : dispatcher_ok d w ->
  _drain d = Retrying ((jobId, p) :: left) ->
  calls_store (_acknowledge (pending_claim p) (pending_acknowledgement p)) w r w' ->
  dispatcher_ok (retry_rest cap left (retried jobId r d)) w'.
Proof.
  intros H Hd Hc. pose proof H as [_ _ _ _ [C1 C2 C3 C4 C5 C6]].
  destruct (C6 _ Hd) as [Hn Hsub]. cbn in Hn. apply NoDup_cons in Hn as [Hnot Hn].
  assert (_drain d <> NoDrain) as Hne by (by rewrite Hd).
  destruct (drain_before_stop d w H Hne) as [Hst Hstop].
  assert (dispatcher_ok (set_drain (Retrying left) d) w) as H1.
  { apply ok_drain_to; [done|done|by rewrite Hd|]. intros ? [= <-]. split; [done|].
    intros kv Hkv. apply Hsub. by right. }
  rewrite <- (retry_rest_drain left jobId r (Retrying left)).
  assert (dispatcher_ok (retried jobId r (set_drain (Retrying left) d)) w') as H2.
  { eapply ok_retried; try done.
    - apply Hsub. by left.
    - by intros ? [= <-].
    - intros l Hl. cbn in Hl. rewrite Hl in Hstop. by destruct Hstop. }
  destruct (retried_drain jobId r (set_drain (Retrying left) d)) as (E1 & _ & _).
  pose proof H2 as [_ _ _ _ [_ _ _ _ _ D6]]. rewrite E1 in D6. destruct (D6 left eq_refl) as [_ Hsub'].
  apply ok_retry_rest; [done|by rewrite E1|done|done].
Qed.

(** ** Start and claims *)

Lemma ok_start d w w' : dispatcher_ok d w -> _started d = false ->
  calls_store store_recover w (Ok tt) w' -> dispatcher_ok (end_start d) w'.
Proof.
  intros [H1 H2 H3 H4 [C1 C2 C3 C4 C5 C6]] Hst Hc. rewrite Hst in H3.
  destruct (calls_effect _ _ _ _ _ recover_law H1 Hc) as [Hw' Hh].
  assert (stopping d = NotStopping) as Hns.
  { destruct (stopping d); [done|..]; (destruct C3 as [C3 _]; [done|congruence]). }
  assert (_drain d = NoDrain) as Hnd.
  { destruct (_drain d); [done|..]; (rewrite C2 in Hst; [done|done]). }
  unfold end_start. apply ok_wake. split; cbn; [done|done| | |].
  - change (owned _) with (owned d). rewrite H3, Hh. apply owns_empty.
  - change (owned _) with (owned d). by rewrite H3, Hnd.
  - split; cbn; rewrite ?Hns, ?Hnd; try done; auto.
Qed.

Lemma performing_start c l :
  performing (l ++ [{| performed := c; stage_of := Performing |}]) = performing l ++ [c].
Proof. by rewrite performing_app. Qed.

(** The claim takes the place that was reserved for it. *)
Lemma ok_claim d w j h w' : dispatcher_ok d w -> _drain d = Claiming j ->
  calls_store (store_markHandedOff (j_id j)) w (Ok (Some h)) w' ->
  dispatcher_ok (drain_loop cap (_startPerformance {| claimed_job := j; handoffId := h |} d)) w'.
Proof.
  intros H Hd Hc. assert (_drain d <> NoDrain) as Hne by (by rewrite Hd).
  destruct (drain_before_stop d w H Hne) as [Hst Hstop].
  pose proof H as [H1 H2 H3 H4 [C1 C2 C3 C4 C5 C6]]. rewrite Hst in H3. rewrite Hd in H4. cbn in H4.
  destruct (calls_effect _ _ _ _ _ (hand_off_law (j_id j)) H1 Hc) as (Hw' & Hnone & Hh & Hne').
  set (c := {| claimed_job := j; handoffId := h |}) in *.
  assert (owned (_startPerformance c d) ≡ₚ c :: owned d) as Hperm.
  { unfold owned. cbn. rewrite performing_start, <- (assoc_L (++)). cbn.
    by rewrite Permutation_middle. }
  assert (dispatcher_ok (set_drain Ended (_startPerformance c d)) w') as H'.
  { split; cbn; [done|done| | |].
    - rewrite Hst, Hh. change (owned (set_drain _ ?x)) with (owned x). rewrite Hperm.
      by apply (owns_claim c).
    - change (owned (set_drain _ ?x)) with (owned x). rewrite Hperm. cbn. lia.
    - split; cbn; try done; [by left|]. intros left Hl. rewrite Hl in Hstop. by destruct Hstop. }
  apply ok_drain_loop in H'; [|done]. revert H'.
  unfold drain_loop, _armScheduledTimer, _ownedPerformanceCount. cbn.
  destruct (_accepting d); cbn; [by case_match|done].
Qed.

(** ** Performances *)

(** Only performances and kept acknowledgements change, with what is owned. *)
Lemma ok_lists d d' w w' : dispatcher_ok d w -> store_ok w' ->
  (_accepting d', _started d', _drain d', stopping d') = (_accepting d, _started d, _drain d, stopping d) ->
  keyed (_pendingAcknowledgements d') -> (length (owned d') <= length (owned d))%nat ->
  (if _started d then owns (owned d') (handoffs w') else owned d' = []) ->
  (forallb is_settled (_inFlight d) = true -> forallb is_settled (_inFlight d') = true /\
    _pendingAcknowledgements d' = _pendingAcknowledgements d) ->
  _pendingAcknowledgements d ⊆ _pendingAcknowledgements d' ->
  dispatcher_ok d' w'.
Proof.
  intros [H1 H2 H3 H4 [C1 C2 C3 C4 C5 C6]] Hw [= E1 E2 E3 E4] Hk Hlen Ho Hset Hsub.
  split; [done|done|by rewrite E2|rewrite E3; lia|]. split; rewrite ?E1, ?E2, ?E3, ?E4; try done.
  - intros left Hl. destruct (C5 left Hl) as [Hs <-]. by apply Hset.
  - intros left Hl. destruct (C6 left Hl) as [Hn Hin]. split; [done|]. by trans (_pendingAcknowledgements d).
Qed.

Lemma performing_mid before p after :
  performing (before ++ p :: after) =
  performing before ++ (if is_settled p then [] else [performed p]) ++ performing after.
Proof. rewrite performing_app. unfold performing at 2 3. cbn. by destruct (is_settled p). Qed.

Lemma settled_mid before p after : forallb is_settled (before ++ p :: after) = true <->
  forallb is_settled before = true /\ is_settled p = true /\ forallb is_settled after = true.
Proof. rewrite forallb_app. cbn. by rewrite !andb_true_iff. Qed.

Lemma ok_performed d w p a before after : dispatcher_ok d w ->
  _inFlight d = before ++ p :: after -> stage_of p = Performing ->
  dispatcher_ok (set_inFlight (before ++ at_stage (Acknowledging a) p :: after) d) w.
Proof.
  intros H Hl Hp. assert (is_settled p = false) as Hs by (unfold is_settled; by rewrite Hp).
  assert (owned (set_inFlight (before ++ at_stage (Acknowledging a) p :: after) d) = owned d) as Ho.
  { unfold owned. cbn. rewrite Hl, !performing_mid. cbn. by rewrite Hs. }
  pose proof H as [H1 H2 H3 H4 _]. eapply ok_lists; try done; rewrite ?Ho; try done.
  rewrite Hl, settled_mid, Hs. by intros (_ & ? & _).
Qed.

Lemma ok_removed d w p before after : dispatcher_ok d w ->
  _inFlight d = before ++ p :: after -> is_settled p = true ->
  dispatcher_ok (wake (set_inFlight (before ++ after) d)) w.
Proof.
  intros H Hl Hs. apply ok_wake.
  assert (owned (set_inFlight (before ++ after) d) = owned d) as Ho.
  { unfold owned. cbn. by rewrite Hl, performing_app, performing_mid, Hs. }
  pose proof H as [H1 H2 H3 H4 _]. eapply ok_lists; try done; rewrite ?Ho; try done.
  cbn. rewrite Hl, settled_mid, forallb_app. by intros (-> & _ & ->).
Qed.

(** An acknowledgement releases the claim, or is kept under its new key. *)
Lemma ok_acknowledge d w p a before after r w' : dispatcher_ok d w ->
  _inFlight d = before ++ p :: after -> stage_of p = Acknowledging a ->
  calls_store (_acknowledge (performed p) a) w r w' ->
  dispatcher_ok (acknowledged_performance p a r before after d) w'.
Proof.
  intros H Hl Hp Hc. assert (is_settled p = false) as Hs by (unfold is_settled; by rewrite Hp).
  pose proof H as [H1 H2 H3 H4 _].
  set (rest := performing before ++ performing after ++ kept (_pendingAcknowledgements d)).
  assert (owned d ≡ₚ performed p :: rest) as Hperm.
  { unfold owned, rest. rewrite Hl, performing_mid, Hs, <- !(assoc_L (++)). cbn.
    symmetry. apply Permutation_middle. }
  assert (_started d = true) as Hst.
  { destruct (_started d); [done|]. rewrite H3 in Hperm. by apply Permutation_nil_cons in Hperm. }
  rewrite Hst, Hperm in H3. destruct (acknowledge_owned _ _ _ _ _ _ H3 H1 Hc) as [Hw' Ho].
  set (d1 := set_inFlight (before ++ at_stage Settled p :: after) d).
  assert (owned d1 = rest) as Hrest.
  { unfold owned, rest. cbn. rewrite performing_mid. cbn. by rewrite <- !(assoc_L (++)). }
  assert (forallb is_settled (_inFlight d) = false) as Hf.
  { apply not_true_iff_false. rewrite Hl, settled_mid, Hs. by intros (_ & ? & _). }
  unfold acknowledged_performance. fold d1. destruct r as [[]|err].
  - eapply ok_lists; try done; rewrite ?Hrest, ?Hst, ?Hf; try done. rewrite Hperm. cbn. lia.
  - assert (claim_id (performed p) ∉ (_pendingAcknowledgements d1).*1) as Hnew.
    { cbn. rewrite keyed_keys by done. destruct H3 as [Hn _ _]. cbn in Hn. unfold rest in Hn.
      rewrite !map_app in Hn. apply NoDup_cons in Hn as [Hn _]. set_solver. }
    unfold claim_id in Hnew. rewrite map_set_new by done.
    assert (owned (set_pending (_pendingAcknowledgements d1 ++ [(j_id (claimed_job (performed p)),
      {| pending_claim := performed p; pending_acknowledgement := a |})]) d1) ≡ₚ
      performed p :: rest) as Hperm'.
    { rewrite <- Hrest. unfold owned, kept. cbn. rewrite map_app. cbn.
      rewrite (assoc_L (++)). by rewrite <- Permutation_cons_append. }
    eapply ok_lists; try done; rewrite ?Hperm', ?Hst, ?Hf; try done.
    + cbn. apply Forall_app. split; [done|]. by constructor.
    + by rewrite Hperm.
    + by rewrite Hperm'.
    + intros kv Hkv. cbn. apply elem_of_app. by left.
Qed.

(** ** Stop *)

Lemma ok_begin_stop d w : dispatcher_ok d w -> _started d = true -> stopping d = NotStopping ->
  dispatcher_ok (begin_stop d) w.
Proof.
  intros [H1 H2 H3 H4 [C1 C2 C3 C4 C5 C6]] Hst Hn. split; cbn; try done. split; cbn; try done.
  by left; right.
Qed.

Lemma ok_stop_drained d w : dispatcher_ok d w -> stopping d = AwaitingDrain -> _drain d = NoDrain ->
  dispatcher_ok (set_stopping AwaitingPerformances d) w.
Proof.
  intros [H1 H2 H3 H4 [C1 C2 C3 C4 C5 C6]] Hs Hd. rewrite Hs in C3. split; cbn; try done.
  split; cbn; try done; by auto.
Qed.

Lemma ok_stop_performed d w : dispatcher_ok d w -> stopping d = AwaitingPerformances ->
  forallb is_settled (_inFlight d) = true ->
  dispatcher_ok (set_stopping (RetryingToStop (_pendingAcknowledgements d)) d) w.
Proof.
  intros [H1 H2 H3 H4 [C1 C2 C3 C4 C5 C6]] Hs Hf. rewrite Hs in C3, C4. split; cbn; try done.
  split; cbn; try done; [by auto|by destruct C4 as [[|]|]; auto|]. by intros ? [= <-].
Qed.

Lemma performing_settled l : forallb is_settled l = true -> performing l = [].
Proof.
  unfold performing. induction l as [|p l IH]; cbn; [done|]. intros [-> Hl]%andb_prop. by apply IH.
Qed.

Lemma ok_stop_retry d w jobId p left w' : dispatcher_ok d w ->
  stopping d = RetryingToStop ((jobId, p) :: left) ->
  calls_store (_acknowledge (pending_claim p) (pending_acknowledgement p)) w (Ok tt) w' ->
  dispatcher_ok (set_stopping (RetryingToStop left) (retried jobId (Ok tt) d)) w'.
Proof.
  intros H Hs Hc. pose proof H as [H1 H2 H3 H4 [C1 C2 C3 C4 C5 C6]].
  destruct (C3 ltac:(by rewrite Hs)) as [Hst Ha]. destruct (C5 _ Hs) as [Hset Hp].
  assert (_drain d = NoDrain) as Hd by (rewrite Hs in C4; by destruct C4 as [[|]|]).
  pose proof (pending_keys d w H) as Hn. rewrite Hp in Hn. cbn in Hn. apply NoDup_cons in Hn as [Hnot Hn].
  assert (dispatcher_ok (set_stopping AwaitingPerformances d) w) as H'.
  { split; cbn; try done. split; cbn; auto; done. }
  assert (map_delete jobId (_pendingAcknowledgements d) = left) as Hleft.
  { rewrite Hp. unfold map_delete. cbn. rewrite bool_decide_eq_true_2 by done. cbn.
    clear -Hnot. induction left as [|[k v] l IH]; cbn; [done|]. cbn in Hnot.
    rewrite bool_decide_eq_false_2 by set_solver. cbn. rewrite IH; [done|set_solver]. }
  assert (dispatcher_ok (retried jobId (Ok tt) (set_stopping AwaitingPerformances d)) w') as Hr.
  { eapply ok_retried; try done; cbn; [rewrite Hp; by left|]. by rewrite Hd. }
  destruct Hr as [R1 R2 R3 R4 [D1 D2 D3 D4 D5 D6]]. cbn in *. split; cbn; try done.
  split; cbn; auto; try done. intros l [= <-]. by rewrite Hleft.
Qed.

Lemma ok_stop_failed d w jobId p left err w' : dispatcher_ok d w ->
  stopping d = RetryingToStop ((jobId, p) :: left) ->
  calls_store (_acknowledge (pending_claim p) (pending_acknowledgement p)) w (Throw err) w' ->
  dispatcher_ok (set_stopping NotStopping d) w'.
Proof.
  intros H Hs Hc. pose proof H as [H1 H2 H3 H4 [C1 C2 C3 C4 C5 C6]].
  destruct (C3 ltac:(by rewrite Hs)) as [Hst Ha]. destruct (C5 _ Hs) as [Hset Hp]. rewrite Hst in H3.
  assert (owned d = pending_claim p :: kept left) as Ho.
  { unfold owned. by rewrite Hp, performing_settled. }
  rewrite Ho in H3. destruct (acknowledge_owned _ _ _ _ _ _ H3 H1 Hc) as [Hw' Ho'].
  split; cbn; try done.
  - rewrite Hst. change (owned (set_stopping _ d)) with (owned d). by rewrite Ho.
  - split; cbn; auto; done.
Qed.

(** What a stop leaves when it returns. *)
Lemma stop_owned d w : dispatcher_ok d w -> stopping d = RetryingToStop [] -> owned d = [].
Proof.
  intros [_ _ _ _ [C1 C2 C3 C4 C5 C6]] Hs. destruct (C5 _ Hs) as [Hset Hp].
  unfold owned. by rewrite Hp, performing_settled.
Qed.

Lemma ok_stopped d w : dispatcher_ok d w -> stopping d = RetryingToStop [] ->
  dispatcher_ok (end_stop d) w.
Proof.
  intros H Hs. pose proof (stop_owned d w H Hs) as Ho.
  pose proof H as [H1 H2 H3 H4 [C1 C2 C3 C4 C5 C6]]. destruct (C3 ltac:(by rewrite Hs)) as [Hst Ha].
  assert (_drain d = NoDrain) as Hd by (rewrite Hs in C4; by destruct C4 as [[|]|]).
  split; cbn; try done. split; cbn; rewrite ?Hd, ?Ha; auto; done.
Qed.

(** ** Every step keeps the invariant *)

Lemma dstep_ok s s' : dispatcher_ok s.1 s.2 -> dstep cap s s' -> dispatcher_ok s'.1 s'.2.
Proof.
  intros H Hstep. destruct Hstep as [d w w' Hd Hc|d w err w' Hd Hc|d w name args options r w' Hv Hc|d w|d w t Hd|d w Hd|d w Hd
    |d w jobId p left r w' Hd Hc|d w j w' Hd Hc|d w w' Hd Hc|d w err w' Hd Hc|d w j h w' Hd Hc
    |d w j w' Hd Hc|d w j err w' Hd Hc|d w next now w' Hd Hc|d w err w' Hd Hc|d w Hd
    |d w p a before after Hl Hp|d w p a before after r w' Hl Hp Hc|d w p before after Hl Hp
    |d w Hst Hs|d w Hs Hd|d w Hs Hf|d w jobId p left w' Hs Hc|d w jobId p left err w' Hs Hc|d w Hs]; cbn in *.
  - by eapply ok_start.
  - destruct (calls_effect _ _ _ _ _ recover_law (ok_store _ _ H) Hc). by eapply ok_world.
  - eapply ok_reads; [by apply enqueue_law|done..].
  - by apply ok_wake.
  - by apply ok_wake, ok_set_scheduled.
  - by apply ok_wake, ok_set_recovery.
  - apply ok_retry_rest; [done|by rewrite Hd|by eapply pending_keys|done].
  - by eapply ok_step_retry.
  - apply ok_drain_to; [eapply ok_reads; [apply next_available_law|done..]|by rewrite Hd..|done].
  - apply ok_arm_scheduled; [eapply ok_reads; [apply next_available_law|done..]|by rewrite Hd].
  - apply ok_drain_failed; [eapply ok_reads; [apply next_available_law|done..]|by rewrite Hd].
  - by eapply ok_claim.
  - destruct (calls_effect _ _ _ _ _ (hand_off_law (j_id j)) (ok_store _ _ H) Hc) as [Hw' Hh].
    apply ok_arm_scheduled; [|by cbn; rewrite Hd]. apply ok_set_redrain. by eapply ok_world.
  - destruct (calls_effect _ _ _ _ _ (hand_off_law (j_id j)) (ok_store _ _ H) Hc) as [Hw' Hh].
    apply ok_drain_failed; [|by rewrite Hd]. by eapply ok_world.
  - assert (dispatcher_ok d w') as Hok by (eapply ok_reads; [apply next_scheduled_law|done..]).
    destruct next; apply ok_drain_to; try done; try apply ok_set_scheduled; try done;
      cbn; by rewrite Hd.
  - apply ok_drain_failed; [eapply ok_reads; [apply next_scheduled_law|done..]|by rewrite Hd].
  - by apply ok_drain_finished.
  - by apply ok_performed.
  - by eapply ok_acknowledge.
  - by eapply ok_removed.
  - by apply ok_begin_stop.
  - by apply ok_stop_drained.
  - by apply ok_stop_performed.
  - by eapply ok_stop_retry.
  - by eapply ok_stop_failed.
  - by apply ok_stopped.
Qed.

Lemma initial_ok w : store_ok w -> dispatcher_ok initial_dispatcher w.
Proof. intros H. split; cbn; try done; [constructor|]. split; cbn; try done; by auto. Qed.

Lemma run_ok w s : store_ok w -> rtc (dstep cap) (initial_dispatcher, w) s ->
  dispatcher_ok s.1 s.2.
Proof.
  intros Hw Hr. assert (dispatcher_ok (initial_dispatcher, w).1 (initial_dispatcher, w).2) as H
    by by apply initial_ok.
  revert H. induction Hr as [|s1 s2 s3 Hs Hr IH]; [done|]. intros H. by eapply IH, dstep_ok.
Qed.

(** ** Kept acknowledgements are retried *)

(** While jobs are admitted, an acknowledgement that is kept has a retry coming. *)
Definition retry_due (d : dispatcher) (kv : string * pending) : Prop :=
  _drain d = WakeQueued \/ _redrain d = true \/ _recoveryTimer d = true \/
  existsb is_settled (_inFlight d) = true \/
  exists left, _drain d = Retrying left /\ kv ∈ left.

Record covered (d : dispatcher) : Prop := {
  idle_not_redrain : _drain d = NoDrain -> _redrain d = false;
  kept_due : forall kv, kv ∈ _pendingAcknowledgements d -> retry_due d kv
}.

Definition live (d : dispatcher) : Prop := _accepting d = true -> covered d.

Lemma live_not_accepting d : _accepting d = false -> live d.
Proof. intros H ?. congruence. Qed.

Lemma live_wake d : live (wake d).
Proof.
  intros Ha. unfold wake in *. destruct (_accepting d) eqn:E; cbn in *; [|congruence].
  destruct (_drain d) eqn:Hd; split; cbn; rewrite ?Hd; try done; auto;
    intros kv Hkv; unfold retry_due; cbn; auto.
Qed.

(** The drain goes on, not retrying anything: then nothing depended on it. *)
Lemma live_drain p d : live d -> p <> NoDrain -> _drain d <> WakeQueued ->
  (forall left, _drain d <> Retrying left) -> live (set_drain p d).
Proof.
  intros H Hp Hw Hr Ha. destruct (H Ha) as [H1 H2]. split; cbn; [done|].
  intros kv Hkv. destruct (H2 kv Hkv) as [?|[?|[?|[?|(l & Hl & _)]]]]; [done| | | |by destruct (Hr l)];
    unfold retry_due; cbn; auto.
Qed.

Lemma live_scheduled t d : live d -> live (set_scheduled t d).
Proof. intros H Ha. destruct (H Ha). by split. Qed.

Lemma live_redrain d : live d -> _drain d <> NoDrain -> live (set_redrain true d).
Proof.
  intros H Hd Ha. destruct (H Ha). split; cbn; [done|]. intros kv Hkv. unfold retry_due. cbn. auto.
Qed.

Lemma live_arm_recovery d : live d -> live (_armRecoveryTimer d).
Proof.
  intros H. unfold _armRecoveryTimer. case_match; [done|]. intros Ha. destruct (H Ha). split; cbn; [done|].
  intros kv Hkv. unfold retry_due. cbn. auto.
Qed.

Lemma live_arm_scheduled d : live d -> _drain d <> NoDrain -> _drain d <> WakeQueued ->
  (forall left, _drain d <> Retrying left) -> live (_armScheduledTimer d).
Proof.
  intros H H1 H2 H3. unfold _armScheduledTimer. case_match; apply live_drain; try done;
    by apply live_scheduled.
Qed.

Lemma live_drain_loop d : live d -> _drain d <> NoDrain -> _drain d <> WakeQueued ->
  (forall left, _drain d <> Retrying left) -> live (drain_loop cap d).
Proof.
  intros. unfold drain_loop. case_match; [by apply live_drain|by apply live_arm_scheduled].
Qed.

Lemma live_drain_finished d : live d -> (forall left, _drain d <> Retrying left) ->
  _drain d <> WakeQueued -> live (drain_finished d).
Proof.
  intros H Hr Hw. unfold drain_finished. cbn. destruct (_redrain d) eqn:E, (_accepting d) eqn:Ha; cbn;
    [by apply live_wake|by apply live_not_accepting| |by apply live_not_accepting].
  intros _. destruct (H Ha) as [H1 H2]. split; [done|]. cbn. intros kv Hkv.
  destruct (H2 kv Hkv) as [?|[?|[?|[?|(l & Hl & _)]]]]; [done|congruence|..|by destruct (Hr l)];
    unfold retry_due; cbn; auto.
Qed.

(** A snapshot of all that is kept, or of what is left of it. *)
Lemma live_retry_rest left d : _drain d <> NoDrain -> (_accepting d = true ->
    forall kv, kv ∈ _pendingAcknowledgements d -> kv ∈ left \/ _redrain d = true \/
      _recoveryTimer d = true \/ existsb is_settled (_inFlight d) = true) ->
  live (retry_rest cap left d).
Proof.
  intros Hd H. assert (left = [] \/ left <> []) as [->|Hne] by (destruct left; auto).
  - cbn. unfold drain_loop, _armScheduledTimer. cbn. destruct (_accepting d) eqn:Ha; cbn;
      [|by apply live_not_accepting].
    case_match; intros _; (split; [done|]); cbn; intros kv Hkv;
      destruct (H eq_refl kv Hkv) as [Hn|[?|[?|?]]]; [by apply elem_of_nil in Hn| | | |
        by apply elem_of_nil in Hn| | |]; unfold retry_due; cbn; auto.
  - replace (retry_rest cap left d) with (set_drain (Retrying left) d) by (by destruct left).
    intros Ha. split; [done|]. cbn. intros kv Hkv. destruct (H Ha kv Hkv) as [?|[?|[?|?]]];
      unfold retry_due; cbn; eauto 8.
Qed.

Lemma existsb_mid (f : performance -> bool) before p after :
  existsb f (before ++ p :: after) = existsb f before || f p || existsb f after.
Proof. rewrite existsb_app. cbn. by rewrite orb_assoc. Qed.


(** A performance moves on, staying in the list. *)
Lemma live_moves st p before after d : live d -> _inFlight d = before ++ p :: after ->
  is_settled p = false -> live (set_inFlight (before ++ at_stage st p :: after) d).
Proof.
  intros H Hl Hs Ha. destruct (H Ha) as [H1 H2]. split; [done|]. cbn. intros kv Hkv.
  specialize (H2 kv Hkv). unfold retry_due in *. rewrite Hl in H2. cbn. rewrite existsb_mid in *.
  rewrite Hs, orb_false_r in H2. destruct H2 as [?|[?|[?|[H2|?]]]]; auto 6.
  do 3 right. left. apply orb_prop in H2 as [->| ->]; by rewrite ?orb_true_r.
Qed.

Lemma live_acknowledged p a r before after d : live d -> _inFlight d = before ++ p :: after ->
  is_settled p = false -> live (acknowledged_performance p a r before after d).
Proof.
  intros H Hl Hs. unfold acknowledged_performance. destruct r; [by apply live_moves|].
  intros Ha. destruct (H Ha) as [H1 H2]. split; [done|]. cbn. intros kv _. unfold retry_due. cbn.
  rewrite existsb_mid, orb_true_r. auto.
Qed.

Lemma live_retried jobId p left r d : live d -> _drain d = Retrying ((jobId, p) :: left) ->
  NoDup (_pendingAcknowledgements d).*1 -> (jobId, p) ∈ _pendingAcknowledgements d ->
  live (retry_rest cap left (retried jobId r d)).
Proof.
  intros H Hd Hn Hin. destruct (retried_drain jobId r d) as (Hd' & _).
  apply live_retry_rest; [by rewrite Hd', Hd|]. intros Ha kv Hkv. destruct r as [[]|err]; cbn in *.
  - apply (map_delete_one jobId p) in Hkv as [Hkv Hne]; [|done..]. destruct (H Ha) as [_ H2].
    destruct (H2 kv Hkv) as [?|[?|[?|[?|(l & Hl & Hkl)]]]]; [congruence|auto..|].
    rewrite Hd in Hl. injection Hl as <-. apply elem_of_cons in Hkl as [->|?]; [done|auto].
  - unfold _armRecoveryTimer in *. destruct (_accepting d) eqn:E; cbn in *; [auto|congruence].
Qed.

Lemma dstep_live s s' : dispatcher_ok s.1 s.2 -> live s.1 -> dstep cap s s' -> live s'.1.
Proof.
  intros H L Hstep. destruct Hstep as [d w w' Hd Hc|d w err w' Hd Hc|d w name args options r w' Hv Hc|d w|d w t Hd|d w Hd|d w Hd
    |d w jobId p left r w' Hd Hc|d w j w' Hd Hc|d w w' Hd Hc|d w err w' Hd Hc|d w j h w' Hd Hc
    |d w j w' Hd Hc|d w j err w' Hd Hc|d w next now w' Hd Hc|d w err w' Hd Hc|d w Hd
    |d w p a before after Hl Hp|d w p a before after r w' Hl Hp Hc|d w p before after Hl Hp
    |d w Hst Hs|d w Hs Hd|d w Hs Hf|d w jobId p left w' Hs Hc|d w jobId p left err w' Hs Hc|d w Hs]; cbn [fst snd] in *.
  - by apply live_wake.
  - done.
  - done.
  - by apply live_wake.
  - by apply live_wake.
  - by apply live_wake.
  - apply live_retry_rest; [by rewrite Hd|]. by auto.
  - pose proof (pending_keys d w H) as Hn. destruct (drain_retries _ (ok_consistent _ _ H) _ Hd) as [_ Hsub].
    eapply live_retried; try done. apply Hsub. by left.
  - apply live_drain; try done; by rewrite Hd.
  - apply live_arm_scheduled; try done; by rewrite Hd.
  - apply live_drain; [by apply live_arm_recovery|done|..]; unfold _armRecoveryTimer; case_match; cbn; by rewrite Hd.
  - apply live_drain_loop; cbn; try by rewrite Hd. intros Ha. destruct (L Ha) as [L1 L2].
    split; [done|]. cbn. intros kv Hkv. specialize (L2 kv Hkv). unfold retry_due in *. cbn.
    rewrite existsb_app. cbn. by rewrite orb_false_r.
  - apply live_arm_scheduled; cbn; try by rewrite Hd. apply live_redrain; [done|by rewrite Hd].
  - apply live_drain; [by apply live_arm_recovery|done|..]; unfold _armRecoveryTimer; case_match; cbn; by rewrite Hd.
  - destruct next; apply live_drain; cbn; try (by rewrite Hd); try done; by apply live_scheduled.
  - apply live_drain; [by apply live_arm_recovery|done|..]; unfold _armRecoveryTimer; case_match; cbn; by rewrite Hd.
  - apply live_drain_finished; [done|by rewrite Hd..].
  - apply live_moves; [done..|]. unfold is_settled. by rewrite Hp.
  - apply live_acknowledged; [done..|]. unfold is_settled. by rewrite Hp.
  - by apply live_wake.
  - by apply live_not_accepting.
  - intros Ha. destruct (stops_started _ (ok_consistent _ _ H)); [by rewrite Hs|]. cbn in Ha. congruence.
  - intros Ha. destruct (stops_started _ (ok_consistent _ _ H)); [by rewrite Hs|]. cbn in Ha. congruence.
  - intros Ha. destruct (stops_started _ (ok_consistent _ _ H)); [by rewrite Hs|]. cbn in Ha. congruence.
  - intros Ha. destruct (stops_started _ (ok_consistent _ _ H)); [by rewrite Hs|]. cbn in Ha. congruence.
  - intros Ha. destruct (stops_started _ (ok_consistent _ _ H)); [by rewrite Hs|]. cbn in Ha. congruence.
Qed.
End correct.
