(* ===== verification/LocalDispatcherStore.v ===== *)
(** * The local dispatcher on the local store

    [LocalBackgroundJobsStore] ([LocalStore.v]) keeps what the dispatcher
    ([LocalDispatcher.v]) asks of its store: the instance of [HandoffStore], its
    view and its laws. The identifiers generated are not empty, as those of the
    uuid package; a handoff identifier is always generated. The clock and the
    configuration are those of [env]. *)

From stdpp Require Import base functions gmap strings list relations.
From Stdlib Require Import ZArith Lia.
From S2P Require Import Prelude Sql Json JobSemantics LocalStore LocalProtocol LocalStoreCorrect LocalStoreTheorems LocalDispatcher LocalDispatcherCorrect.
Open Scope Z_scope.

(** ** The calls *)

Definition discarding {A} (m : M A) : M unit := _ ← m; mret tt.

(** The calls of [local-dispatcher.js], with their arguments. *)
#[export] Instance local_handoff_store (e : env) (stack : string) : HandoffStore world := {|
  store_nextAvailableJob := nextAvailableJob e;
  store_nextScheduledJob := nextScheduledJob e;
  store_markHandedOff i :=
    handoff ← markHandedOff e i None None;
    mret (snd <$> handoff);
  store_markCompleted i h := discarding (markCompleted e i (Some h));
  store_markRescheduled i h delayMs := discarding (markRescheduled e i (Some h) delayMs);
  store_markFailed i h error := discarding (markFailed e i (Some h) error);
  store_recover :=
    _ ← reconcileQueueConcurrency e;
    discarding (recoverHandedOffJobs e stack);
  store_enqueue name args options := discarding (enqueue e name args options)
|}.

(** ** The handoffs of a database *)

Definition fence (r : job_row) : option string :=
  if has_status HandedOff r then Some (default "" (handoff_id r)) else None.

Definition fences_of (js : gmap string job_row) : gmap string string := omap fence js.

#[export] Instance local_handoff_view : HandoffView world := {|
  handoffs w := fences_of (jobs (db w));
  store_ok w := db_ok (db w)
|}.

Lemma fences_lookup js i : fences_of js !! i = js !! i ≫= fence.
Proof. unfold fences_of. by rewrite lookup_omap. Qed.

Lemma fences_held js i h : h <> "" -> fences_of js !! i = Some h <->
  exists r, js !! i = Some r /\ status r = HandedOff /\ handoff_id r = Some h.
Proof.
  intros Hh. rewrite fences_lookup. unfold fence, has_status. split.
  - intros H. destruct (js !! i) as [r|]; [|done]. cbn in H. case_bool_decide as Hs; [|done].
    injection H as H. exists r. split_and!; [done..|]. destruct (handoff_id r); cbn in H; congruence.
  - intros (r & -> & Hs & Hr). cbn. by rewrite bool_decide_eq_true_2, Hr.
Qed.

Lemma fences_insert js i r : fences_of (<[i := r]> js) =
  match fence r with Some h => <[i := h]> (fences_of js) | None => delete i (fences_of js) end.
Proof.
  apply map_eq. intros k. rewrite fences_lookup. destruct (fence r) eqn:Hr;
    (destruct (decide (i = k)) as [<-|]; simplify_map_eq; [done|by rewrite fences_lookup]).
Qed.

(** ** Transactions *)

(** A transaction that throws leaves the database, so its effect is that of the
    runs that return. *)
Lemma mutate_effect {A B} (m : M A) (g : A -> B) f :
  (forall w, db_ok (db w) -> db_ok (db (_mutate m w).2)) ->
  (forall w a w', db_ok (db w) -> m w = (Ok a, w') -> f (g a) (handoffs w) (handoffs w')) ->
  effect (a ← _mutate m; mret (g a)) f.
Proof.
  intros Hok Hf w Hw. specialize (Hok w Hw). apply ends_bind. unfold ends.
  destruct (_mutate m w) as [[a|x] w'] eqn:Hm; cbn in *.
  - split; [done|]. apply Hf; [done|]. by apply mutate_Ok.
  - split; [done|]. unfold _mutate in Hm. destruct (m w) as [[]]; [done|].
    by injection Hm as _ <-.
Qed.

Lemma reads_effect {A} (m : M A) : reads m -> effect m (fun _ before after => after = before).
Proof.
  intros Hm w Hw. pose proof (reads_db m w Hm) as Hdb. unfold ends. cbn in *. rewrite Hdb.
  split; [done|]. by destruct (m w).1.
Qed.

(** ** Acknowledgements *)

Lemma held_fence w i h r : held w i (Some h) r -> h <> "" /\ handoffs w !! i = Some h.
Proof.
  intros (Hi & Hs & Hr & Ht). assert (h <> "") as Hh.
  { intros ->. by apply Ht. }
  split; [done|]. apply fences_held; [done|]. by exists r.
Qed.

(** The acknowledgements read the job, and go on when it holds the handoff. *)
Lemma acknowledged_body {A} (body : job -> M A) (none : A) i h w a w' :
  db_ok (db w) -> h <> "" ->
  (forall j r, j_id j = i -> jobs (db w) !! i = Some r -> snapshot_of r j -> held w i (Some h) r ->
    body j w = (Ok a, w') -> handoffs w' = delete i (handoffs w)) ->
  (j ← _getJob i;
   match j with
   | Some j' => if negb (_acceptsHandoff j (Some h)) then mret none else body j'
   | None => mret none
   end) w = (Ok a, w') ->
  acknowledged i h (handoffs w) (handoffs w').
Proof.
  intros Hd Hh Hbody H. destruct (getJob_total w i Hd) as (oj & Hj & Hoj).
  unfold mbind, ST_bind in H. rewrite Hj in H. unfold acknowledged. destruct oj as [j|].
  - destruct Hoj as (r & Hi & Hsnap). assert (j_id j = i) as <-.
    { rewrite (snap_id _ _ Hsnap). apply (rows_ok _ Hd _ _ Hi). }
    destruct (negb (_acceptsHandoff _ _)) eqn:Ha.
    + injection H as <- <-. rewrite decide_False; [done|]. cbn. rewrite fences_held by done.
      intros (r' & Hi' & Hs & Hr). rewrite Hi in Hi'. injection Hi' as <-.
      apply negb_true_iff in Ha. unfold _acceptsHandoff in Ha.
      rewrite (snap_status _ _ Hsnap), (snap_handoff _ _ Hsnap), Hs, Hr in Ha.
      rewrite !bool_decide_eq_true_2 in Ha; [done|done| |done]. by destruct h.
    + pose proof (accepted_held _ _ _ _ Hi Hsnap Ha) as Hheld.
      destruct (held_fence _ _ _ _ Hheld) as [_ Hf]. rewrite decide_True by done. by apply (Hbody j r).
  - injection H as <- <-. rewrite decide_False; [done|]. cbn. by rewrite fences_lookup, Hoj.
Qed.

(** The fenced update of a held job releases its handoff. *)
Lemma fenced_update_releases j h f w0 w b w' r :
  db_ok (db w) -> snapshot_of r j -> held w0 (j_id j) (Some h) r -> db w = db w0 ->
  row_ok (j_id j) (f r) -> concurrency_key (f r) = concurrency_key r ->
  has_status HandedOff (f r) = false ->
  (forall d, jobs d !! j_id j = Some r -> status r = HandedOff -> astep (abs d) (put (abs d) (j_id j) (abs_job (f r)))) ->
  fenced_update j (Some h) f w = (Ok b, w') ->
  handoffs w' = delete (j_id j) (handoffs w0).
Proof.
  intros Hd Hsnap (Hi & Hs & Hr & _) Hdb Hok Hkey Hst Hstep H. rewrite <- Hdb in Hi.
  destruct (fenced_update_runs j f w r Hi Hs) as [w1 Hrun]. rewrite Hr, H in Hrun.
  injection Hrun as -> _. apply (fenced_update_jobs _ _ _ _ _ r) in H; auto.
  cbn. rewrite H, fences_insert, <- Hdb. unfold fence. by rewrite Hst.
Qed.

(** ** The laws *)

Section laws.
Context (e : env) (stack : string) (uuid_nonempty : forall n, uuid e n <> "").

Ltac held_states :=
  repeat match goal with
  | H : _lockConcurrencyRow _ _ = (Ok _, _) |- _ => apply lock_Ok in H
  | H : now _ _ = (Ok _, _) |- _ => apply now_Ok in H
  end.

Lemma local_completed i h : h <> "" ->
  effect (discarding (markCompleted e i (Some h))) (fun _ => acknowledged i h).
Proof.
  intros Hh. apply (mutate_effect _ (fun _ => tt)); [intros w; by apply markCompleted_sim|].
  intros w a w' Hd H. cbn beta. eapply acknowledged_body in H; [done..|].
  clear H. intros j r <- Hi Hsnap Hheld H. st_inv. held_states.
  eapply fenced_update_releases in H1; eauto using step_of_complete; try congruence.
  apply row_ok_complete. by eapply rows_ok.
Qed.

Lemma local_rescheduled i h delayMs : h <> "" ->
  effect (discarding (markRescheduled e i (Some h) delayMs)) (fun _ => acknowledged i h).
Proof.
  intros Hh. apply (mutate_effect _ (fun _ => tt)); [intros w; by apply markRescheduled_sim|].
  intros w a w' Hd H. cbn beta. eapply acknowledged_body in H; [done..|].
  clear H. intros j r <- Hi Hsnap Hheld H. st_inv. held_states.
  eapply fenced_update_releases in H2; eauto using step_of_requeue; try congruence.
  apply row_ok_requeue. by eapply rows_ok.
Qed.

Lemma local_failed i h error : h <> "" ->
  effect (discarding (markFailed e i (Some h) error)) (fun _ => acknowledged i h).
Proof.
  intros Hh. apply (mutate_effect _ (fun _ => tt)); [intros w; by apply markFailed_sim|].
  intros w a w' Hd H. cbn beta. eapply acknowledged_body in H; [done..|].
  clear H. intros j r <- Hi Hsnap Hheld H. pose proof Hheld as (_ & Hs & _).
  destruct (applyFailure_runs e j error w r Hd Hi Hsnap Hs) as (o & w1 & Ho & Hrun & Hput).
  rewrite Hrun in H. injection H as _ <-.
  apply (applyFailure_sim _ _ _ _ _ _ r) in Hrun as (_ & Hframe & _); [|done..].
  cbn. apply map_eq. intros k. rewrite fences_lookup. destruct (decide (j_id j = k)) as [<-|Hne].
  - rewrite lookup_delete_eq, Hput. cbn. unfold fence. by destruct o.
  - by rewrite lookup_delete_ne, Hframe, fences_lookup.
Qed.

Lemma markHandedOff_jobs i w o w' : db_ok (db w) -> markHandedOff e i None None w = (Ok o, w') ->
  match o with
  | Some (t, h) => h <> "" /\ exists r wk, jobs (db w) !! i = Some r /\ status r = Queued /\
      jobs (db w') = <[i := hand_off t h wk r]> (jobs (db w))
  | None => jobs (db w') = jobs (db w)
  end.
Proof.
  intros Hd H. unfold markHandedOff in H. st_inv. assert (x <> "") as Hx.
  { unfold new_uuid in H. by injection H as <- _. }
  apply new_uuid_Ok in H. rewrite <- H in Hd |- *. clear H w. rename x0 into w.
  apply mutate_Ok in H0. st_inv. apply getJob_Ok in H as [-> Hj]. destruct x0 as [j|]; [|by st_inv].
  destruct Hj as (r & Hi & Hsnap). pose proof (rows_ok _ Hd _ _ Hi) as Hr.
  rewrite (snap_status _ _ Hsnap), (snap_key _ _ Hsnap), (row_truthy _ _ Hr) in H0.
  case_bool_decide as Hq; cbn [negb] in H0; st_inv; [|done].
  apply now_Ok in H. destruct (_ <? _); st_inv; [by rewrite H|].
  rewrite <- H in Hd, Hi |- *. apply reserve_key_Ok in H0; [|done].
  destruct x2; cbn [negb] in H1; st_inv; [|by rewrite H0].
  destruct H0 as [Hslot Hdb]. apply now_Ok in H1. rewrite Hdb in H1.
  apply update_job_Ok in H2 as [(-> & -> & Hno)|(r' & Hi' & _ & -> & ->)]; cbn in H3; st_inv.
  - rewrite H1 in Hno. specialize (Hno r Hi). unfold has_status in Hno.
    by rewrite bool_decide_eq_true_2 in Hno.
  - rewrite H1 in Hi'. cbn in Hi'. simplify_eq. split; [done|]. exists r. eexists.
    split_and!; [done..|]. cbn. rewrite H1. done.
Qed.

Lemma local_hand_off i : effect
  (handoff ← markHandedOff e i None None; mret (snd <$> handoff) : M (option string))
  (fun claimed before after => match claimed with
    | Some h => before !! i = None /\ after = <[i := h]> before /\ h <> ""
    | None => after = before
    end).
Proof.
  intros w Hw. pose proof (markHandedOff_sim e i None None w Hw) as [Hok _].
  apply ends_bind. unfold ends. destruct (markHandedOff e i None None w) as [[o|x] w'] eqn:Hm; cbn [fst snd] in *.
  - split; [done|]. cbn. apply markHandedOff_jobs in Hm; [|done].
    destruct o as [[t h]|]; cbn; [|by rewrite Hm].
    destruct Hm as (Hh & r & wk & Hi & Hs & ->). rewrite fences_lookup, Hi, fences_insert. cbn.
    unfold fence at 1, has_status. by rewrite Hs.
  - split; [done|]. unfold markHandedOff in Hm. unfold mbind at 1, ST_bind at 1, new_uuid in Hm.
    unfold _mutate in Hm. case_match eqn:He; destruct r; [done|]. by injection Hm as _ <-.
Qed.

(** Reconciliation writes the keys of queued rows, and counters. *)
Definition keeps {A} (m : M A) : Prop := forall H, preserves (fun w => handoffs w = H) m.

Lemma keeps_reads {A} (m : M A) : reads m -> keeps m.
Proof. intros Hm H w Hw. cbn in *. by rewrite reads_db. Qed.

Lemma keeps_bind {A B} (m : M A) (k : A -> M B) : keeps m -> (forall a, keeps (k a)) -> keeps (m ≫= k).
Proof. intros Hm Hk H. apply preserves_bind; [apply Hm|]. intros a. apply Hk. Qed.

Lemma keeps_update_counter key p f : keeps (update_counter key p f).
Proof.
  intros H w Hw. unfold update_counter. destruct (counters (db w) !! key); [|done]. by destruct (p _).
Qed.

Lemma keeps_upsert key cap : keeps (upsert_counter key cap).
Proof. by intros H w Hw. Qed.

Lemma keeps_rekey i key cap : keeps (update_job i (has_status Queued) (set_concurrency key cap)).
Proof.
  intros H w Hw. unfold update_job. destruct (jobs (db w) !! i) as [r|] eqn:Hi; [|done].
  destruct (has_status Queued r) eqn:Hs; [|done]. cbn in *. rewrite <- Hw. apply map_eq. intros k.
  rewrite !fences_lookup. destruct (decide (i = k)) as [<-|]; simplify_map_eq; done.
Qed.

Lemma keeps_rebuild : keeps _rebuildConcurrencyCounts.
Proof. by intros H w Hw. Qed.

Lemma keeps_lift {A} (r : result store_error A) : keeps (lift_result r).
Proof. intros H. apply preserves_lift. Qed.

Lemma keeps_ret {A} (a : A) : keeps (mret a).
Proof. intros H. apply preserves_ret. Qed.

Lemma keeps_throw {A} x : keeps (throw x : M A).
Proof. intros H. apply preserves_throw. Qed.

Lemma keeps_gets {A} (f : world -> A) : keeps (gets f).
Proof. intros H. apply preserves_gets. Qed.

Lemma keeps_ensureConcurrency c : keeps (_ensureConcurrency c).
Proof.
  unfold _ensureConcurrency.
  repeat first [apply keeps_upsert|apply keeps_update_counter|apply keeps_gets|apply keeps_ret|apply keeps_throw
    |apply keeps_bind; [|intros ?]|case_match].
Qed.

Lemma keeps_reconcile_job j : keeps (_reconcileQueuedJobConcurrency e j).
Proof.
  unfold _reconcileQueuedJobConcurrency.
  repeat first [apply keeps_ensureConcurrency|apply keeps_rekey|apply keeps_lift|apply keeps_ret
    |apply keeps_bind; [|intros ?]|case_match].
Qed.

Lemma keeps_mutate {A} (m : M A) : keeps m -> keeps (_mutate m).
Proof.
  intros Hm H w Hw. specialize (Hm H w Hw). unfold _mutate. by destruct (m w) as [[]].
Qed.

Lemma keeps_reconcile : keeps (reconcileQueueConcurrency e).
Proof.
  apply keeps_mutate, keeps_bind; [by apply keeps_gets|]. intros rows.
  apply keeps_bind; [|intros; apply keeps_rebuild]. intros H. apply preserves_for_each. intros r.
  revert H. apply keeps_bind; [by apply keeps_lift|]. intros j.
  apply keeps_bind; [by apply keeps_reconcile_job|]. intros. apply keeps_ret.
Qed.

Lemma keeps_insert p : keeps (_insertPreparedJob p).
Proof.
  intros H w Hw. unfold _insertPreparedJob. destruct (jobs (db w) !! p_jobId p) as [r|] eqn:Hi; [done|]. cbn in *.
  rewrite fences_insert. cbn. rewrite delete_id; [done|]. by rewrite fences_lookup, Hi.
Qed.

Lemma keeps_wake : keeps (after_commit_wake e).
Proof. intros H w Hw. unfold after_commit_wake. by destruct (has_onCommittedEnqueue e). Qed.

(** A job that is enqueued is not handed off. *)
Lemma keeps_enqueue name args options : keeps (enqueue e name args options).
Proof.
  apply keeps_bind; [apply keeps_reads, reads_prepareJob|]. intros p. apply keeps_mutate. unfold enqueue_prepared.
  repeat first [apply keeps_ensureConcurrency|apply keeps_insert|apply keeps_wake|apply keeps_ret
    |apply keeps_reads, reads_select|apply keeps_bind; [|intros ?]|case_match].
Qed.

Lemma local_enqueue name args options : Forall valid_json args ->
  effect (discarding (enqueue e name args options)) (fun _ before after => after = before).
Proof.
  intros Hv w Hw. destruct (enqueue_sim e name args options w Hw Hv) as [Hok _].
  pose proof (keeps_enqueue name args options (handoffs w) w eq_refl) as Hkeep. unfold discarding. apply ends_bind. unfold ends at 1.
  by destruct (enqueue e name args options w) as [[i|x] w1].
Qed.

Lemma local_recover : effect
  (_ ← reconcileQueueConcurrency e; discarding (recoverHandedOffJobs e stack))
  (fun _ _ after => after = ∅).
Proof.
  intros w Hw. pose proof (reconcileQueueConcurrency_sim e w Hw) as [Hok _].
  pose proof (keeps_reconcile (handoffs w) w eq_refl) as Hkeep.
  apply ends_bind. unfold ends at 1. destruct (reconcileQueueConcurrency e w) as [[[]|x] w1]; [|done].
  cbn [fst snd] in *. apply ends_bind. unfold ends at 1.
  pose proof (recoverHandedOffJobs_sim e stack w1 Hok) as [Hok2 _].
  destruct (recoverHandedOffJobs e stack w1) as [[js|x] w2] eqn:Hr; cbn [fst snd] in *.
  - split; [done|]. cbn. apply mutate_Ok in Hr. unfold select_jobs in Hr. st_inv.
    pose proof (recovered_none _ _ _ _ _ Hok H0) as Hnone. unfold _rebuildConcurrencyCounts in H1. st_inv.
    apply map_eq. intros i. rewrite fences_lookup, lookup_empty. cbn.
    destruct (jobs (db x2) !! i) as [r|] eqn:Hi; [|done]. cbn. unfold fence, has_status.
    by rewrite bool_decide_eq_false_2 by by apply (Hnone i).
  - split; [done|]. rewrite <- Hkeep. unfold recoverHandedOffJobs, _mutate in Hr.
    case_match eqn:He; destruct r; [done|]. by injection Hr as _ <-.
Qed.

#[export] Instance local_handoff_laws : HandoffLaws world (HandoffStore0 := local_handoff_store e stack).
Proof.
  split.
  - apply reads_effect, reads_nextAvailableJob.
  - apply reads_effect, reads_nextScheduledJob.
  - apply local_hand_off.
  - apply local_completed.
  - intros i h d. apply local_rescheduled.
  - intros i h err. apply local_failed.
  - apply local_recover.
  - intros name args options. apply local_enqueue.
Qed.
End laws.
