(* ===== verification/LocalDispatcherTheorems.v ===== *)
(** * What the local dispatcher guarantees

    Theorems about every run of [LocalDispatcher.v], for any store that keeps the
    laws of [HandoffLaws]; the witnesses run it on the local store. *)

From stdpp Require Import base functions gmap strings list relations.
From Stdlib Require Import ZArith Lia.
From S2P Require Import Prelude Sql Json JobSemantics LocalStore LocalProtocol LocalStoreCorrect LocalStoreTheorems LocalDispatcher LocalDispatcherCorrect LocalDispatcherStore.
Open Scope Z_scope.

(** ** Who owns a handoff *)

Lemma owns_map cs H : owns cs H -> H = list_to_map (map (fun c => (claim_id c, handoffId c)) cs).
Proof.
  intros [Hn He _]. assert (NoDup (map (fun c => (claim_id c, handoffId c)) cs).*1) as Hn'.
  { replace (_.*1) with (map claim_id cs); [done|]. clear. induction cs; cbn; congruence. }
  apply map_eq. intros i. apply option_eq. intros h. rewrite He, <- elem_of_list_to_map by done.
  rewrite list_elem_of_fmap. naive_solver.
Qed.

(** C21: while the dispatcher is started, the jobs handed off in the store are
    exactly the jobs it owns, each under the handoff it holds: those it is
    performing or whose acknowledgement is not settled. They are different jobs,
    and never more than the cap: no job is performed twice at a time, and none is
    lost, whatever calls of the store fail. *)
Theorem claims_are_owned {W} `{HandoffLaws W} cap w0 d w :
  0 <= cap -> store_ok w0 -> rtc (dstep cap) (initial_dispatcher, w0) (d, w) -> _started d = true ->
  handoffs w = list_to_map (map (fun c => (claim_id c, handoffId c)) (owned d)) /\
  NoDup (map claim_id (owned d)) /\ Z.of_nat (length (owned d)) <= cap.
Proof.
  intros Hcap Hw Hr Hs. pose proof (run_ok cap Hcap w0 (d, w) Hw Hr) as [_ _ Ho Hc _]. cbn in *.
  rewrite Hs in Ho. pose proof (reserved_nonneg (_drain d)).
  split_and!; [by apply owns_map|by apply Ho|lia].
Qed.

(** ** Stop *)

Lemma started_wake d : _started (wake d) = _started d.
Proof. unfold wake. destruct (negb _); [done|]. by destruct (_drain d). Qed.

Lemma started_arm_scheduled d : _started (_armScheduledTimer d) = _started d.
Proof. unfold _armScheduledTimer. by case_match. Qed.

Lemma started_drain_loop cap d : _started (drain_loop cap d) = _started d.
Proof. unfold drain_loop. case_match; [done|apply started_arm_scheduled]. Qed.

Lemma started_retry_rest cap left d : _started (retry_rest cap left d) = _started d.
Proof. destruct left; [apply started_drain_loop|done]. Qed.

Lemma started_drain_failed d : _started (drain_failed d) = _started d.
Proof. unfold drain_failed, _armRecoveryTimer. by case_match. Qed.

Lemma started_drain_finished d : _started (drain_finished d) = _started d.
Proof. unfold drain_finished. case_match; [by rewrite started_wake|done]. Qed.

Lemma started_retried i r d : _started (retried i r d) = _started d.
Proof. by destruct (retried_drain i r d) as (_ & -> & _). Qed.

Lemma started_acknowledged p a r before after d :
  _started (acknowledged_performance p a r before after d) = _started d.
Proof. by destruct r. Qed.

Create HintDb started.
#[export] Hint Rewrite started_wake started_arm_scheduled started_drain_loop started_retry_rest
  started_drain_failed started_drain_finished started_retried started_acknowledged : started.

Lemma only_stop_stops {W} `{HandoffStore W} cap (d d' : dispatcher) (w w' : W) :
  dstep cap (d, w) (d', w') -> _started d = true -> _started d' = false ->
  stopping d = RetryingToStop [] /\ w' = w.
Proof.
  intros Hstep Hs Hs'. inversion Hstep; subst; autorewrite with started in *; cbn in *;
    autorewrite with started in *; cbn in *; try congruence; try done.
  destruct next; cbn in *; congruence.
Qed.

(** A graceful stop: when [stop] returns, no job is handed off any more. *)
Lemma stop_releases_all {W} `{HandoffLaws W} cap w0 d w d' w' :
  0 <= cap -> store_ok w0 -> rtc (dstep cap) (initial_dispatcher, w0) (d, w) ->
  dstep cap (d, w) (d', w') -> _started d = true -> _started d' = false -> handoffs w' = ∅.
Proof.
  intros Hcap Hw Hr Hstep Hs Hs'. pose proof (run_ok cap Hcap w0 (d, w) Hw Hr) as Hok.
  destruct (only_stop_stops _ _ _ _ _ Hstep Hs Hs') as [Hstop ->]. cbn in Hok.
  pose proof (stop_owned cap d w Hok Hstop) as Ho. destruct Hok as [_ _ Howns _ _].
  rewrite Hs, Ho in Howns. apply owns_map in Howns. done.
Qed.

(** ** Kept acknowledgements *)

Lemma reachable_live {W} `{HandoffLaws W} cap w0 s : 0 <= cap -> store_ok w0 ->
  rtc (dstep cap) (initial_dispatcher, w0) s -> dispatcher_ok cap s.1 s.2 /\ live s.1.
Proof.
  intros Hcap Hw Hr.
  assert (dispatcher_ok cap (initial_dispatcher, w0).1 (initial_dispatcher, w0).2 /\
    live (initial_dispatcher, w0).1) as H0.
  { split; [by apply initial_ok|by apply live_not_accepting]. }
  revert H0. induction Hr as [|s1 s2 s3 Hs Hr IH]; [done|]. intros [H1 H2]. apply IH.
  split; [by eapply dstep_ok|by eapply dstep_live].
Qed.

(** C22: while jobs are admitted, an acknowledgement that the store did not take is
    never forgotten: the drain is about to retry it, or a wake, a timer or the
    end of its performance will start the drain that does; and a request to drain
    again is never left behind by the drain that ended. *)
Theorem kept_acknowledgement_is_retried {W} `{HandoffLaws W} cap w0 d w :
  0 <= cap -> store_ok w0 -> rtc (dstep cap) (initial_dispatcher, w0) (d, w) -> _accepting d = true ->
  (forall kv, kv ∈ _pendingAcknowledgements d -> retry_due d kv) /\
  (_drain d = NoDrain -> _redrain d = false).
Proof.
  intros Hcap Hw Hr Ha. destruct (reachable_live cap w0 (d, w) Hcap Hw Hr) as [_ Hl].
  destruct (Hl Ha). done.
Qed.

(** ** A run on the local store *)

Lemma calls_run {W A} (m : ST W store_error A) w r : (m w).1 = r -> calls_store m w r (m w).2.
Proof. intros <-. constructor. by destruct (m w). Qed.

(** The dispatcher on the store of the demonstration, one job at a time. *)
Definition demo_store : HandoffStore world := local_handoff_store demo_env "".

Lemma demo_laws : @HandoffLaws world demo_store local_handoff_view.
Proof. apply local_handoff_laws. intros n [=]. Qed.

#[local] Existing Instance demo_store.

Abbreviation demo_step := (@dstep world demo_store 1).

Ltac runs_one rule := eapply rtc_l; [eapply rule; try reflexivity; try (apply calls_run; vm_compute; reflexivity)|].

Ltac runs_performed := eapply rtc_l;
  [eapply step_performed with (a := AckCompleted) (before := []) (after := []); reflexivity|].

Ltac runs_armed time := eapply rtc_l;
  [eapply step_armed with (now := time); [reflexivity|apply calls_run; vm_compute; reflexivity]|].

(** Started, the drain asks, and claims the job that is queued. *)
Lemma demo_claims : exists d w, rtc demo_step (initial_dispatcher, demo_queued) (d, w) /\
  _started d = true /\ length (owned d) = 1%nat.
Proof.
  eexists _, _. split.
  - runs_one step_start. runs_one step_drain. runs_one step_ask. runs_one step_claim. apply rtc_refl.
  - vm_compute. done.
Qed.

(** The job is performed, and its acknowledgement is lost. *)
Lemma demo_keeps : exists d w, rtc demo_step (initial_dispatcher, demo_queued) (d, w) /\
  _accepting d = true /\ length (_pendingAcknowledgements d) = 1%nat.
Proof.
  eexists _, _. split.
  - runs_one step_start. runs_one step_drain. runs_one step_ask. runs_one step_claim.
    runs_performed.
    eapply rtc_l; [eapply step_acknowledge with (before := []) (after := []); [reflexivity|reflexivity|];
      apply call_lost with (err := NaNScheduledAt)|]. apply rtc_refl.
  - vm_compute. done.
Qed.

(** The job is performed and acknowledged, and the dispatcher stops. *)
Lemma demo_stops : exists d w d' w', rtc demo_step (initial_dispatcher, demo_queued) (d, w) /\
  demo_step (d, w) (d', w') /\ _started d = true /\ _started d' = false.
Proof.
  eexists _, _, _, _. split.
  - runs_one step_start. runs_one step_drain. runs_one step_ask. runs_one step_claim.
    runs_performed.
    eapply rtc_l; [eapply step_acknowledge with (before := []) (after := []); [reflexivity|reflexivity|];
      apply calls_run; vm_compute; reflexivity|].
    runs_one step_stop. runs_armed 0.
    runs_one step_drained. runs_one step_stop_drained. runs_one step_stop_performed. apply rtc_refl.
  - split; [apply step_stopped; reflexivity|]. vm_compute. done.
Qed.

Lemma claims_are_owned_witness : exists d w, rtc demo_step (initial_dispatcher, demo_queued) (d, w) /\
  length (owned d) = 1%nat /\ size (handoffs w) = 1%nat.
Proof.
  destruct demo_claims as (d & w & Hr & Hs & Hl). exists d, w. split; [done|]. split; [done|].
  destruct (@claims_are_owned world demo_store local_handoff_view demo_laws 1 demo_queued d w)
    as (-> & Hn & _); [lia|apply reachable_ok, demo_queued_reachable|done|done|].
  destruct (owned d) as [|c [|]]; [discriminate| |discriminate].
  cbn. rewrite insert_empty. apply map_size_singleton.
Defined.

Lemma stop_releases_all_witness : exists d w, rtc demo_step (initial_dispatcher, demo_queued) (d, w) /\
  _started d = false /\ handoffs w = ∅.
Proof.
  destruct demo_stops as (d & w & d' & w' & Hr & Hstep & Hs & Hs'). exists d', w'.
  split; [by eapply rtc_r|]. split; [done|].
  apply (@stop_releases_all world demo_store local_handoff_view demo_laws 1 demo_queued d w d' w');
    [lia|apply reachable_ok, demo_queued_reachable|done..].
Defined.

Lemma kept_acknowledgement_is_retried_witness : exists d w kv,
  rtc demo_step (initial_dispatcher, demo_queued) (d, w) /\
  kv ∈ _pendingAcknowledgements d /\ retry_due d kv.
Proof.
  destruct demo_keeps as (d & w & Hr & Ha & Hl).
  destruct (_pendingAcknowledgements d) as [|kv l] eqn:Hp; [discriminate|].
  exists d, w, kv. split; [done|]. split; [rewrite Hp; by left|].
  destruct (@kept_acknowledgement_is_retried world demo_store local_handoff_view demo_laws 1
    demo_queued d w) as [H _]; [lia|apply reachable_ok, demo_queued_reachable|done|done|].
  apply H. rewrite Hp. by left.
Defined.

(** ** A timer that outlives the stop *)

Definition demo_scheduled_options : job_options := {|
  opt_queue := JsUndefined; opt_has_forked := false; opt_executionMode := None;
  opt_maxRetries := of_Z 1; opt_scheduledAtMs := of_Z 100000;
  opt_concurrencyKey := JsUndefined; opt_maxConcurrency := JsUndefined;
  opt_deduplicateWhileQueued := false; opt_idempotencyKey := JsUndefined |}.

Definition demo_scheduled : world :=
  (perform demo_env (Enqueue "SendMail" [] demo_scheduled_options) initial_world).2.

(** A stop that comes while the drain asks for the next scheduled job clears the
    timer too early: the drain then arms it, and it is still armed when the stop
    has returned. *)
Lemma stop_can_leave_timer_armed : exists d w,
  rtc demo_step (initial_dispatcher, demo_scheduled) (d, w) /\
  _started d = false /\ _accepting d = false /\ stopping d = NotStopping /\ _drain d = NoDrain /\
  _scheduledTimer d = Some 98000.
Proof.
  eexists _, _. split.
  - runs_one step_start. runs_one step_drain. runs_one step_none_available. runs_one step_stop.
    runs_armed 2000. runs_one step_drained. runs_one step_stop_drained.
    runs_one step_stop_performed. runs_one step_stopped. apply rtc_refl.
  - vm_compute. done.
Qed.
