(* ===== verification/ActsAsList.v ===== *)
(** * Positional lists ([src/src/database/record/acts-as-list.js])

    The lifecycle callbacks that keep the rows of a scope numbered 1, 2, 3, …,
    with the statements that [save] and [destroy] (record/index.js) run after
    them. [table] is the table with the columns the callbacks use and its UNIQUE
    index on scope and position; a statement that would break the index throws.
    [record] is a model instance: the attributes read from the database, the
    changes assigned since, and the loaded parent of the scope.

    Ids are integers. The re-entrance flag is read where a callback starts; the
    raw statements of the callbacks run no callback. *)

From stdpp Require Import base functions gmap list sorting.
From Stdlib Require Import ZArith QArith Lia.
From S2P Require Import Prelude.
Open Scope Z_scope.

(** ** The table *)

Record row := { scope_id : option Z; position : Z }.

#[export] Instance row_eq_dec : EqDecision row.
Proof. solve_decision. Defined.

Abbreviation table := (gmap Z row).

Inductive list_error :=
| InvalidPosition (persisted : bool)
| UniqueViolation.

Definition DB (A : Type) := ST table list_error A.

(** Another row holds the position; NULL scopes do not collide. *)
Definition taken (t : table) (id : Z) (s : option Z) (p : Z) : bool :=
  match s with
  | None => false
  | Some _ => existsb (fun ir => negb (ir.1 =? id) && bool_decide (ir.2 = {| scope_id := s; position := p |}))
                      (map_to_list t)
  end.

(** The row [id] is written, unless the index refuses it. *)
Definition write_row (id : Z) (r : row) : DB unit := fun t =>
  if taken t id (scope_id r) (position r) then (Throw UniqueViolation, t) else (Ok tt, <[id := r]> t).

(** ** Records *)

Record record := {
  id : Z;
  isPersisted : bool;
  isShifting : bool;
  attr_scope : option Z;
  attr_position : scalar;               (* [JsUndefined]: the column was not selected *)
  chg_scope : option (option Z);
  chg_position : option scalar;
  posAssigned : bool;
  loaded_parent : option Z              (* the loaded belongs-to of the scope *)
}.

Definition read_position (r : record) : scalar := default (attr_position r) (chg_position r).
Definition read_scope (r : record) : option Z := default (attr_scope r) (chg_scope r).

Definition with_changes (s : option (option Z)) (p : option scalar) (r : record) : record :=
  {| id := id r; isPersisted := isPersisted r; isShifting := isShifting r; attr_scope := attr_scope r;
     attr_position := attr_position r; chg_scope := s; chg_position := p; posAssigned := posAssigned r;
     loaded_parent := loaded_parent r |}.

(** [setAttribute(position, n)]: a value equal to the attribute is no change. *)
Definition set_position (n : Z) (r : record) : record :=
  if decide (as_integer (attr_position r) = Some n) then r
  else with_changes (chg_scope r) (Some (of_Z n)) r.

(** [position != null] *)
Definition is_nullish (v : scalar) : bool :=
  match v with JsUndefined | JsNull => true | _ => false end.

Definition resolveScopeValue (r : record) : option Z :=
  match read_scope r with Some s => Some s | None => loaded_parent r end.

(** [scopeValue != null ? scopeValue : resolveScopeValue(record, scope)] *)
Definition scope_or_own (scopeValue : option Z) (r : record) : option Z :=
  match scopeValue with Some s => Some s | None => resolveScopeValue r end.

(** The position, as an integer the later arithmetic uses. *)
Definition assertPositivePosition (v : scalar) (persisted : bool) : DB Z :=
  match as_integer v with
  | Some n => if 0 <? n then mret n else throw (InvalidPosition persisted)
  | None => throw (InvalidPosition persisted)
  end.

(** ** Shifting *)

(** [UPDATE … SET position = position + d WHERE id = … AND scope = … AND position = …] *)
Definition bump (d s : Z) (ir : Z * row) : DB unit := fun t =>
  match t !! ir.1 with
  | Some r =>
      if decide (r = {| scope_id := Some s; position := position ir.2 |})
      then write_row ir.1 {| scope_id := Some s; position := position ir.2 + d |} t
      else (Ok tt, t)
  | None => (Ok tt, t)
  end.

Definition before (hi : option Z) (p : Z) : bool :=
  match hi with Some h => p <? h | None => true end.

Definition in_range (s lo : Z) (hi : option Z) (r : row) : bool :=
  bool_decide (scope_id r = Some s) && (lo <=? position r) && (0 <? position r) && before hi (position r).

Definition excluded (excl : option Z) (i : Z) : bool := bool_decide (excl = Some i).

Definition rows_in_range (excl : option Z) (s lo : Z) (hi : option Z) (t : table) : list (Z * row) :=
  filter (fun ir => in_range s lo hi ir.2 && negb (excluded excl ir.1) = true) (map_to_list t).

Definition descending (x y : Z * row) : Prop := position y.2 <= position x.2.
Definition ascending (x y : Z * row) : Prop := position x.2 <= position y.2.

#[export] Instance descending_dec : RelDecision descending.
Proof. intros x y. unfold descending. apply _. Defined.
#[export] Instance ascending_dec : RelDecision ascending.
Proof. intros x y. unfold ascending. apply _. Defined.

Definition shiftPositionsUp (r : record) (fromPosition : Z) (toPosition scopeValue excludeRecordId : option Z) :
    DB unit :=
  match scope_or_own scopeValue r with
  | None => mret tt
  | Some s =>
      let excl := match excludeRecordId with
                  | Some i => Some i
                  | None => if isPersisted r then Some (id r) else None
                  end in
      rows ← gets (rows_in_range excl s fromPosition toPosition);
      for_each (bump 1 s) (merge_sort descending rows)
  end.

Definition shiftPositionsDown (r : record) (fromPosition : Z) (toPosition scopeValue : option Z) : DB unit :=
  match scope_or_own scopeValue r with
  | None => mret tt
  | Some s =>
      rows ← gets (rows_in_range (Some (id r)) s fromPosition toPosition);
      for_each (bump (-1) s) (merge_sort ascending rows)
  end.

Definition highestPositionInScope (r : record) (scopeValue : option Z) : DB Z :=
  match scope_or_own scopeValue r with
  | None => mret 0
  | Some s =>
      rows ← gets (fun t => filter (fun ir => scope_id ir.2 = Some s) (map_to_list t));
      mret (match merge_sort descending rows with [] => 0 | ir :: _ => position ir.2 end)
  end.

(** [UPDATE … SET position = -position WHERE scope = … AND id = …] *)
Definition moveOutOfWay (r : record) (scopeValue : option Z) : DB unit :=
  match scope_or_own scopeValue r with
  | None => mret tt
  | Some s => fun t =>
      match t !! id r with
      | Some x => if decide (scope_id x = Some s)
                  then write_row (id r) {| scope_id := Some s; position := - position x |} t
                  else (Ok tt, t)
      | None => (Ok tt, t)
      end
  end.

(** The row gets its scope and position, and the record is reloaded without them
    among its changes. *)
Definition placeMovedRecord (r : record) (scopeValue : option Z) (newPosition : Z) : DB record := fun t =>
  match t !! id r with
  | Some _ =>
      (_ ← write_row (id r) {| scope_id := scopeValue; position := newPosition |};
       mret {| id := id r; isPersisted := isPersisted r; isShifting := isShifting r;
               attr_scope := scopeValue; attr_position := of_Z newPosition; chg_scope := None;
               chg_position := None; posAssigned := posAssigned r; loaded_parent := loaded_parent r |}) t
  | None => (Ok (with_changes None None r), t)
  end.

(** ** Callbacks *)

Definition beforeCreate (r : record) : DB record :=
  if isShifting r then mret r else
  if is_nullish (read_position r) then
    nextPosition ← highestPositionInScope r None;
    mret (set_position (nextPosition + 1) r)
  else
    position ← assertPositivePosition (read_position r) false;
    _ ← shiftPositionsUp r position None None None;
    mret r.

Definition beforeUpdate (r : record) : DB record :=
  if isShifting r || negb (isPersisted r) then mret r else
  match chg_position r, chg_scope r with
  | None, None => mret r
  | _, _ =>
      oldPosition ← assertPositivePosition (attr_position r) true;
      newPosition ← assertPositivePosition (read_position r) false;
      let oldScopeValue := attr_scope r in
      let newScopeValue := read_scope r in
      if decide (newPosition = oldPosition /\ newScopeValue = oldScopeValue) then mret r else
      if decide (oldScopeValue <> newScopeValue) then
        if negb (posAssigned r) then
          _ ← moveOutOfWay r oldScopeValue;
          highestNew ← highestPositionInScope r newScopeValue;
          let r' := set_position (highestNew + 1) r in
          _ ← shiftPositionsDown r' (oldPosition + 1) None oldScopeValue;
          mret r'
        else
          _ ← moveOutOfWay r oldScopeValue;
          _ ← shiftPositionsDown r (oldPosition + 1) None oldScopeValue;
          _ ← shiftPositionsUp r newPosition None newScopeValue (Some (id r));
          placeMovedRecord r newScopeValue newPosition
      else
        _ ← moveOutOfWay r oldScopeValue;
        _ ← (if newPosition <? oldPosition
             then shiftPositionsUp r newPosition (Some oldPosition) None None
             else if oldPosition <? newPosition
             then shiftPositionsDown r (oldPosition + 1) (Some (newPosition + 1)) None
             else mret tt);
        mret r
  end.

Definition beforeDestroy (r : record) : DB unit :=
  match read_position r with
  | JsUndefined => mret tt
  | JsNull => throw (InvalidPosition true)
  | v =>
      position ← assertPositivePosition v true;
      _ ← moveOutOfWay r None;
      shiftPositionsDown r (position + 1) None None
  end.

(** ** Saving and destroying *)

Definition transaction {A} (m : DB A) : DB A := fun t =>
  match m t with (Ok a, t') => (Ok a, t') | (Throw e, _) => (Throw e, t) end.

(** The INSERT, with the foreign key of the loaded parent. *)
Definition createNewRecord (r : record) : DB unit :=
  match as_integer (read_position r) with
  | Some p => write_row (id r) {| scope_id := resolveScopeValue r; position := p |}
  | None => throw (InvalidPosition false)
  end.

(** The UPDATE of the changed columns. *)
Definition updateRecordWithChanges (r : record) : DB unit := fun t =>
  match t !! id r with
  | None => (Ok tt, t)
  | Some x =>
      let s := default (scope_id x) (chg_scope r) in
      match chg_position r with
      | None => write_row (id r) {| scope_id := s; position := position x |} t
      | Some v => match as_integer v with
                  | Some p => write_row (id r) {| scope_id := s; position := p |} t
                  | None => (Throw (InvalidPosition false), t)
                  end
      end
  end.

Definition save (r : record) : DB unit :=
  transaction (if isPersisted r then r' ← beforeUpdate r; updateRecordWithChanges r'
               else r' ← beforeCreate r; createNewRecord r').

(** [destroy] opens no transaction. *)
Definition destroy (r : record) : DB unit :=
  _ ← beforeDestroy r;
  modify (delete (id r)).

(** ** Lists of ids *)

Definition insert_at {A} (n : nat) (x : A) (l : list A) : list A := take n l ++ x :: drop n l.

Lemma lookup_insert_at {A} n (x : A) l k y : (n <= length l)%nat ->
  insert_at n x l !! k = Some y <->
  (k = n /\ y = x) \/ exists k', l !! k' = Some y /\ k = (if (k' <? n)%nat then k' else S k').
Proof.
  intros Hn. unfold insert_at. assert (length (take n l) = n) as Hl by (rewrite length_take; lia). split.
  - intros H. apply lookup_app_Some in H as [H|[Hk H]].
    + apply lookup_take_Some in H as [H Hk]. right. exists k. split; [done|].
      by replace (k <? n)%nat with true by (symmetry; apply Nat.ltb_lt; lia).
    + rewrite Hl in Hk, H. destruct (k - n)%nat as [|m] eqn:Hm.
      * left. cbn in H. split; [lia|congruence].
      * right. change (drop n l !! m = Some y) in H. rewrite lookup_drop in H. exists (n + m)%nat. split; [done|].
        replace (n + m <? n)%nat with false by (symmetry; apply Nat.ltb_ge; lia). lia.
  - intros [[-> ->]|(k' & Hk' & ->)].
    + rewrite lookup_app_r by lia. by rewrite Hl, Nat.sub_diag.
    + destruct (k' <? n)%nat eqn:Hb.
      * apply Nat.ltb_lt in Hb. rewrite lookup_app_l by lia. by rewrite lookup_take_lt.
      * apply Nat.ltb_ge in Hb. rewrite lookup_app_r by lia. rewrite Hl.
        replace (S k' - n)%nat with (S (k' - n)) by lia.
        change (drop n l !! (k' - n)%nat = Some y). rewrite lookup_drop.
        by replace (n + (k' - n))%nat with k' by lia.
Qed.

Lemma lookup_delete_iff {A} n (l : list A) k y :
  delete n l !! k = Some y <->
  exists k', l !! k' = Some y /\ k' <> n /\ k = (if (k' <? n)%nat then k' else pred k').
Proof.
  split.
  - destruct (decide (k < n)%nat) as [Hk|Hk].
    + rewrite list_lookup_delete_lt by done. intros H. exists k. split; [done|]. split; [lia|].
      by replace (k <? n)%nat with true by (symmetry; apply Nat.ltb_lt; lia).
    + rewrite list_lookup_delete_ge by lia. intros H. exists (S k). split; [done|]. split; [lia|].
      replace (S k <? n)%nat with false by (symmetry; apply Nat.ltb_ge; lia). done.
  - intros (k' & H & Hne & ->). destruct (k' <? n)%nat eqn:Hb.
    + apply Nat.ltb_lt in Hb. by rewrite list_lookup_delete_lt.
    + apply Nat.ltb_ge in Hb. rewrite list_lookup_delete_ge by lia. by replace (S (pred k')) with k' by lia.
Qed.

(** ** The UNIQUE index *)

Definition unique_index (t : table) : Prop :=
  forall i j s p, t !! i = Some {| scope_id := Some s; position := p |} ->
    t !! j = Some {| scope_id := Some s; position := p |} -> i = j.

Lemma taken_spec t i s p :
  taken t i (Some s) p = false <->
  forall j, j <> i -> t !! j <> Some {| scope_id := Some s; position := p |}.
Proof.
  unfold taken. rewrite <-not_true_iff_false. split.
  - intros H j Hj Ht. apply H. apply existsb_exists. exists (j, {| scope_id := Some s; position := p |}).
    split; [by apply list_elem_of_In, elem_of_map_to_list|].
    apply andb_true_iff. split; [apply negb_true_iff, Z.eqb_neq; done|by apply bool_decide_eq_true].
  - intros H He. apply existsb_exists in He as ([j r] & Hin & Hb).
    apply list_elem_of_In, elem_of_map_to_list in Hin. cbn in Hb.
    apply andb_true_iff in Hb as [Hj Hr]. apply negb_true_iff, Z.eqb_neq in Hj.
    apply bool_decide_eq_true in Hr. subst r. by apply (H j).
Qed.

Lemma write_row_free t i r :
  (forall s j, scope_id r = Some s -> j <> i -> t !! j <> Some r) ->
  write_row i r t = (Ok tt, <[i := r]> t).
Proof.
  intros H. unfold write_row. destruct r as [[s|] p]; [|done]. cbn [scope_id position].
  replace (taken t i (Some s) p) with false; [done|]. symmetry. apply taken_spec.
  intros j Hj. by apply (H s).
Qed.

(** ** Shifts

    Bumping the rows of a range one by one, in the order in which each moves
    into a position already free, moves the whole range. *)

Definition shifted (d : Z) (r : row) : row :=
  {| scope_id := scope_id r; position := position r + d |}.

Lemma bump_loop d s rows t :
  d = 1 \/ d = -1 ->
  (forall ir, ir ∈ rows -> t !! ir.1 = Some ir.2 /\ scope_id ir.2 = Some s) ->
  StronglySorted (fun x y => d * position y.2 < d * position x.2) rows ->
  (forall ir j rj, ir ∈ rows -> t !! j = Some rj -> scope_id rj = Some s ->
     position rj = position ir.2 + d -> (j, rj) ∈ rows) ->
  exists t', for_each (bump d s) rows t = (Ok tt, t') /\
    forall j, t' !! j = match t !! j with
                        | Some rj => Some (if bool_decide ((j, rj) ∈ rows) then shifted d rj else rj)
                        | None => None
                        end.
Proof.
  intros Hd. revert t. induction rows as [|[i r] rows IH]; intros t Hin Hsort Hfree.
  { exists t. split; [done|]. intros j. destruct (t !! j); [|done]. by rewrite bool_decide_eq_false_2 by set_solver. }
  inversion Hsort as [|? ? Hsort' Hfirst]; subst. rewrite Forall_forall in Hfirst.
  destruct (Hin (i, r)) as [Hi Hs]; [constructor|]. cbn in Hi, Hs.
  set (r' := shifted d r).
  assert (forall ir, ir ∈ rows -> ir.1 <> i) as Hnot.
  { intros [j rj] Hj He. cbn in He. subst j. destruct (Hin (i, rj)) as [Hj' _]; [by constructor|]. cbn in Hj'.
    specialize (Hfirst _ Hj). cbn in Hfirst. assert (rj = r) by congruence. subst. lia. }
  assert (bump d s (i, r) t = (Ok tt, <[i := r']> t)) as Hbump.
  { unfold bump. cbn. rewrite Hi. destruct (decide _) as [_|Hne].
    - change ({| scope_id := Some s; position := position r + d |}) with ({| scope_id := Some s; position := position r + d |}).
      assert (r' = {| scope_id := Some s; position := position r + d |}) as Hr' by (unfold r', shifted; by rewrite Hs).
      rewrite <-Hr'. apply write_row_free. intros s' j _ Hj Htj.
      assert ((j, r') ∈ (i, r) :: rows) as Hj'.
      { apply (Hfree (i, r) j r'); [constructor|done|by rewrite Hr'|by rewrite Hr']. }
      apply elem_of_cons in Hj' as [Hj'|Hj']; [congruence|].
      specialize (Hfirst _ Hj'). rewrite Hr' in Hfirst. cbn in Hfirst. lia.
    - destruct Hne. destruct r as [rs rp]. cbn in *. by rewrite Hs. }
  destruct (IH (<[i := r']> t)) as (t' & Hrun & Hlook).
  - intros [j rj] Hj. specialize (Hnot _ Hj). cbn [fst snd] in *.
    rewrite lookup_insert_ne by done. apply (Hin (j, rj)). by constructor.
  - done.
  - intros [j rj] k rk Hj Hk Hsk Hpk. cbn in Hpk. destruct (decide (k = i)) as [->|Hki].
    + rewrite lookup_insert_eq in Hk. injection Hk as <-. specialize (Hfirst _ Hj). cbn in *. lia.
    + rewrite lookup_insert_ne in Hk by done.
      assert ((k, rk) ∈ (i, r) :: rows) as Hk' by (apply (Hfree (j, rj) k rk); [by constructor|done..]).
      apply elem_of_cons in Hk' as [Hk'|Hk']; [congruence|done].
  - exists t'. cbn [for_each]. st_run. rewrite Hbump. split; [exact Hrun|].
    intros j. rewrite Hlook. destruct (decide (j = i)) as [->|Hji].
    + rewrite lookup_insert_eq, Hi. rewrite bool_decide_eq_false_2; [|by intros Hx; apply (Hnot _ Hx)].
      by rewrite bool_decide_eq_true_2 by constructor.
    + rewrite lookup_insert_ne by done. destruct (t !! j) as [rj|]; [|done]. f_equal.
      rewrite (bool_decide_ext ((j, rj) ∈ rows) ((j, rj) ∈ (i, r) :: rows)); [done|]. rewrite elem_of_cons. split; [by right|]. intros [?|?]; [congruence|done].
Qed.

(** The whole range moves, when the position it moves into is free. *)
Definition shift_range (d s lo : Z) (hi : option Z) (r : row) : row :=
  if in_range s lo hi r then shifted d r else r.

Definition outside_free (d s lo : Z) (hi : option Z) (t : table) : Prop :=
  forall i j ri rj, t !! i = Some ri -> t !! j = Some rj -> in_range s lo hi ri = true ->
    scope_id rj = Some s -> position rj = position ri + d -> in_range s lo hi rj = true.

Lemma in_range_scope s lo hi r : in_range s lo hi r = true -> scope_id r = Some s.
Proof. unfold in_range. rewrite !andb_true_iff. intros [[[H _] _] _]. by apply bool_decide_eq_true in H. Qed.

Lemma elem_of_rows_in_range excl s lo hi t i r :
  (i, r) ∈ rows_in_range excl s lo hi t <->
  t !! i = Some r /\ in_range s lo hi r = true /\ excluded excl i = false.
Proof.
  unfold rows_in_range. rewrite list_elem_of_filter, elem_of_map_to_list. cbn [fst snd].
  rewrite andb_true_iff, negb_true_iff. tauto.
Qed.

Lemma shift_rows d s lo hi excl t (R : Z * row -> Z * row -> Prop) `{!RelDecision R, !Total R, !Transitive R} :
  d = 1 \/ d = -1 -> (forall x y, R x y <-> d * position y.2 <= d * position x.2) ->
  unique_index t -> outside_free d s lo hi t ->
  (forall i r, t !! i = Some r -> in_range s lo hi r = true -> excluded excl i = false) ->
  for_each (bump d s) (merge_sort R (rows_in_range excl s lo hi t)) t =
    (Ok tt, shift_range d s lo hi <$> t).
Proof.
  intros Hd HR Hu Hfree Hex. set (rows := merge_sort R _).
  assert (forall i r, (i, r) ∈ rows <-> t !! i = Some r /\ in_range s lo hi r = true) as Hrows.
  { intros i r. unfold rows. rewrite merge_sort_Permutation, elem_of_rows_in_range.
    split; [tauto|]. intros [Ht Hr]. split_and!; [done|done|by eapply Hex]. }
  destruct (bump_loop d s rows t Hd) as (t' & Hrun & Hlook).
  - intros [i r] [Ht Hr]%Hrows. split; [done|]. by apply in_range_scope in Hr.
  - assert (NoDup rows) as Hnd.
    { unfold rows. rewrite merge_sort_Permutation. apply NoDup_filter, NoDup_map_to_list. }
    pose proof (StronglySorted_merge_sort R (rows_in_range excl s lo hi t)) as Hs. fold rows in Hs.
    assert (forall x, x ∈ rows -> t !! x.1 = Some x.2 /\ scope_id x.2 = Some s) as Hin.
    { intros [i r] [Ht Hr]%Hrows. split; [done|]. by eapply in_range_scope. }
    clearbody rows. clear Hrows. induction Hs as [|x rows Hs IH Hx]; [constructor|].
    apply NoDup_cons in Hnd as [Hnx Hnd]. constructor; [apply IH; [done|intros; apply Hin; by constructor]|].
    rewrite Forall_forall in Hx |- *. intros y Hy. specialize (Hx _ Hy). apply HR in Hx.
    destruct (decide (d * position y.2 = d * position x.2)) as [He|]; [|lia]. exfalso. apply Hnx.
    destruct x as [i [si pi]], y as [j [sj pj]].
    destruct (Hin (i, {| scope_id := si; position := pi |})) as [Hi Hsi]; [constructor|].
    destruct (Hin (j, {| scope_id := sj; position := pj |})) as [Hj Hsj]; [by constructor|].
    cbn in *. assert (pi = pj) by lia. subst. by rewrite (Hu _ _ _ _ Hi Hj).
  - intros [i r] j rj [Ht Hr]%Hrows Hj Hsj Hp. apply Hrows. split; [done|]. by apply (Hfree i j r rj).
  - rewrite Hrun. f_equal. apply map_eq. intros j. rewrite Hlook, lookup_fmap.
    destruct (t !! j) as [rj|] eqn:Hj; [|done]. cbn. f_equal. unfold shift_range.
    destruct (in_range s lo hi rj) eqn:Hr.
    + by rewrite bool_decide_eq_true_2 by by apply Hrows.
    + rewrite bool_decide_eq_false_2; [done|]. intros [_ H]%Hrows. congruence.
Qed.

#[export] Instance descending_total : Total descending.
Proof. intros x y. unfold descending. lia. Qed.
#[export] Instance descending_trans : Transitive descending.
Proof. intros x y z. unfold descending. lia. Qed.
#[export] Instance ascending_total : Total ascending.
Proof. intros x y. unfold ascending. lia. Qed.
#[export] Instance ascending_trans : Transitive ascending.
Proof. intros x y z. unfold ascending. lia. Qed.

Lemma shift_up_runs r lo hi scopeValue excl s t :
  scope_or_own scopeValue r = Some s -> unique_index t -> outside_free 1 s lo hi t ->
  (forall i x, t !! i = Some x -> in_range s lo hi x = true ->
     Some i <> excl /\ (isPersisted r = true -> i <> id r)) ->
  shiftPositionsUp r lo hi scopeValue excl t = (Ok tt, shift_range 1 s lo hi <$> t).
Proof.
  intros Hs Hu Hf Hex. unfold shiftPositionsUp. rewrite Hs. st_run.
  apply (shift_rows 1); [apply _|apply _|by left|unfold descending; intros; lia|done|done|].
  intros i x Hi Hr. destruct (Hex i x Hi Hr) as [H1 H2]. unfold excluded. apply bool_decide_eq_false_2.
  destruct excl as [e|]; [congruence|]. destruct (isPersisted r); [|done]. intros [= He]. by apply H2.
Qed.

Lemma shift_down_runs r lo hi scopeValue s t :
  scope_or_own scopeValue r = Some s -> unique_index t -> outside_free (-1) s lo hi t ->
  (forall i x, t !! i = Some x -> in_range s lo hi x = true -> i <> id r) ->
  shiftPositionsDown r lo hi scopeValue t = (Ok tt, shift_range (-1) s lo hi <$> t).
Proof.
  intros Hs Hu Hf Hex. unfold shiftPositionsDown. rewrite Hs. st_run.
  apply (shift_rows (-1)); [apply _|apply _|by right|unfold ascending; intros; lia|done|done|].
  intros i x Hi Hr. unfold excluded. apply bool_decide_eq_false_2. intros [= He]. by apply (Hex i x).
Qed.

(** ** The lists of a table

    A table holds, for each scope, the list of its ids in the order of their
    positions: position [p] is the [p]-th id, and there is no other row. *)

Abbreviation lists := (Z -> list Z).

Definition repr (L : lists) (t : table) : Prop :=
  forall i s p, t !! i = Some {| scope_id := Some s; position := p |} <->
    0 < p /\ L s !! Z.to_nat (p - 1) = Some i.

(** The same, but for one row. *)
Definition others (i : Z) (L : lists) (t : table) : Prop :=
  forall j s p, j <> i -> t !! j = Some {| scope_id := Some s; position := p |} <->
    0 < p /\ L s !! Z.to_nat (p - 1) = Some j.

Definition absent (i : Z) (L : lists) : Prop := forall s k, L s !! k <> Some i.

Definition list_create (L : lists) (i s : Z) (p : option Z) : lists :=
  <[s := insert_at (match p with Some p => Z.to_nat (p - 1) | None => length (L s) end) i (L s)]> L.

Definition list_destroy (L : lists) (s p : Z) : lists := <[s := delete (Z.to_nat (p - 1)) (L s)]> L.

Definition list_move (L : lists) (i s old s' : Z) (p : option Z) : lists :=
  list_create (list_destroy L s old) i s' p.

Lemma repr_unique L t : repr L t -> unique_index t.
Proof. intros H i j s p Hi%H Hj%H. destruct Hi, Hj. congruence. Qed.

Lemma shift_range_scope d s lo hi r : scope_id (shift_range d s lo hi r) = scope_id r.
Proof. unfold shift_range. by destruct (in_range _ _ _ _). Qed.

Lemma in_range_spec s lo hi s' p :
  in_range s lo hi {| scope_id := Some s'; position := p |} = true <->
  s' = s /\ lo <= p /\ 0 < p /\ (forall h, hi = Some h -> p < h).
Proof.
  unfold in_range. cbn [scope_id position]. rewrite !andb_true_iff, bool_decide_eq_true, Z.leb_le, Z.ltb_lt.
  unfold before. destruct hi as [h|].
  - rewrite Z.ltb_lt. split; [intros [[[[= ->] ?] ?] ?]; split_and!; try done; by intros ? [= <-]|].
    intros (-> & ? & ? & H). split_and!; try done. by apply H.
  - split; [intros [[[[= ->] ?] ?] ?]; done|]. intros (-> & ? & ? & ?). done.
Qed.

(** Where a shift brings the rows of a scope. *)
Lemma shift_lookup d s lo hi (o : option row) s' p :
  shift_range d s lo hi <$> o = Some {| scope_id := Some s'; position := p |} <->
  exists p0, o = Some {| scope_id := Some s'; position := p0 |} /\
    p = (if in_range s lo hi {| scope_id := Some s'; position := p0 |} then p0 + d else p0).
Proof.
  rewrite fmap_Some. split.
  - intros ([sr pr] & -> & He). unfold shift_range, shifted in He. exists pr.
    destruct (in_range s lo hi _) eqn:Hr; injection He as -> ->; by rewrite Hr.
  - intros (p0 & -> & ->). eexists. split; [done|]. unfold shift_range, shifted.
    by destruct (in_range _ _ _ _).
Qed.

Lemma others_removed i L t t1 s old :
  repr L t -> t !! i = Some {| scope_id := Some s; position := old |} ->
  (forall j, j <> i -> t1 !! j = shift_range (-1) s (old + 1) None <$> t !! j) ->
  others i (list_destroy L s old) t1 /\ absent i (list_destroy L s old).
Proof.
  intros Hr Hi Ht1. pose proof Hi as [Hold Hio]%Hr. split.
  - intros j s' p Hj. rewrite Ht1, shift_lookup by done. unfold list_destroy.
    destruct (decide (s' = s)) as [->|Hs'].
    + rewrite fn_lookup_insert. rewrite lookup_delete_iff. split.
      * intros (p0 & Hp0%Hr & ->). destruct Hp0 as [H0 Hl].
        assert (p0 <> old) by (intros ->; congruence).
        destruct (in_range s (old + 1) None _) eqn:Hin.
        { apply in_range_spec in Hin as (_ & Hge & _). split; [lia|]. exists (Z.to_nat (p0 - 1)).
          split; [done|]. split; [lia|]. destruct (_ <? _)%nat eqn:Hb; [apply Nat.ltb_lt in Hb|]; lia. }
        apply not_true_iff_false in Hin. rewrite in_range_spec in Hin.
        assert (p0 < old) by (destruct (decide (p0 < old)); [done|]; exfalso; apply Hin; split_and!; lia || done).
        split; [lia|]. exists (Z.to_nat (p0 - 1)). split; [done|]. split; [lia|].
        destruct (_ <? _)%nat eqn:Hb; [done|]. apply Nat.ltb_ge in Hb. lia.
      * intros (Hp & k & Hk & Hne & Hpk). exists (Z.of_nat k + 1).
        split; [apply Hr; split; [lia|]; by replace (Z.to_nat (Z.of_nat k + 1 - 1)) with k by lia|].
        destruct (in_range s (old + 1) None _) eqn:Hin.
        { apply in_range_spec in Hin as (_ & Hge & _).
          destruct (_ <? _)%nat eqn:Hb; [apply Nat.ltb_lt in Hb|]; lia. }
        apply not_true_iff_false in Hin. rewrite in_range_spec in Hin.
        destruct (k <? Z.to_nat (old - 1))%nat eqn:Hb; [lia|]. apply Nat.ltb_ge in Hb.
        exfalso. apply Hin. split_and!; lia || done.
    + rewrite fn_lookup_insert_ne by done. split.
      * intros (p0 & Hp0 & ->). destruct (in_range _ _ _ _) eqn:Hin; [|by apply Hr].
        by apply in_range_spec in Hin as [? _].
      * intros Hl. exists p. split; [by apply Hr|]. destruct (in_range _ _ _ _) eqn:Hin; [|done].
        by apply in_range_spec in Hin as [? _].
  - intros s' k Hk. unfold list_destroy in Hk. destruct (decide (s' = s)) as [->|Hs'].
    + rewrite fn_lookup_insert in Hk. apply lookup_delete_iff in Hk as (k' & Hk' & Hne & _).
      assert (t !! i = Some {| scope_id := Some s; position := Z.of_nat k' + 1 |}) as Hi'.
      { apply Hr. split; [lia|]. by replace (Z.to_nat (Z.of_nat k' + 1 - 1)) with k' by lia. }
      rewrite Hi in Hi'. injection Hi' as ->. lia.
    + rewrite fn_lookup_insert_ne in Hk by done.
      assert (t !! i = Some {| scope_id := Some s'; position := Z.of_nat k + 1 |}) as Hi'.
      { apply Hr. split; [lia|]. by replace (Z.to_nat (Z.of_nat k + 1 - 1)) with k by lia. }
      rewrite Hi in Hi'. by injection Hi' as ->.
Qed.

Lemma others_inserted i L t t1 s p :
  others i L t -> absent i L -> 1 <= p <= Z.of_nat (length (L s)) + 1 ->
  (forall j, j <> i -> t1 !! j = shift_range 1 s p None <$> t !! j) ->
  t1 !! i = Some {| scope_id := Some s; position := p |} ->
  repr (list_create L i s (Some p)) t1.
Proof.
  intros Ho Ha Hp Ht1 Hi j s' p'. unfold list_create.
  assert (Z.to_nat (p - 1) <= length (L s))%nat as Hlen by lia.
  destruct (decide (j = i)) as [->|Hj].
  - rewrite Hi. destruct (decide (s' = s)) as [->|Hs'].
    + rewrite fn_lookup_insert, lookup_insert_at by done. split.
      * intros [= <-]. split; [lia|]. by left.
      * intros (Hp' & [[Hk _]|(k & Hk & _)]); [do 2 f_equal; lia|]. by apply Ha in Hk.
    + rewrite fn_lookup_insert_ne by done. split; [by intros [= <- _]|].
      intros [_ Hk]. by apply Ha in Hk.
  - rewrite Ht1, shift_lookup by done. destruct (decide (s' = s)) as [->|Hs'].
    + rewrite fn_lookup_insert, lookup_insert_at by done. split.
      * intros (p0 & [H0 Hl]%Ho & ->); [|done]. destruct (in_range s p None _) eqn:Hin.
        { apply in_range_spec in Hin as (_ & Hge & _). split; [lia|]. right. exists (Z.to_nat (p0 - 1)).
          split; [done|]. destruct (_ <? _)%nat eqn:Hb; [apply Nat.ltb_lt in Hb|]; lia. }
        apply not_true_iff_false in Hin. rewrite in_range_spec in Hin.
        assert (p0 < p) by (destruct (decide (p0 < p)); [done|]; exfalso; apply Hin; split_and!; lia || done).
        split; [lia|]. right. exists (Z.to_nat (p0 - 1)). split; [done|].
        destruct (_ <? _)%nat eqn:Hb; [done|]. apply Nat.ltb_ge in Hb. lia.
      * intros (Hp' & [[_ ->]|(k & Hk & Hpk)]); [done|]. exists (Z.of_nat k + 1).
        split; [apply Ho; [done|]; split; [lia|]; by replace (Z.to_nat (Z.of_nat k + 1 - 1)) with k by lia|].
        destruct (in_range s p None _) eqn:Hin.
        { apply in_range_spec in Hin as (_ & Hge & _).
          destruct (_ <? _)%nat eqn:Hb; [apply Nat.ltb_lt in Hb|]; lia. }
        apply not_true_iff_false in Hin. rewrite in_range_spec in Hin.
        destruct (k <? Z.to_nat (p - 1))%nat eqn:Hb; [lia|]. apply Nat.ltb_ge in Hb.
        exfalso. apply Hin. split_and!; lia || done.
    + rewrite fn_lookup_insert_ne by done. split.
      * intros (p0 & Hp0 & ->). destruct (in_range _ _ _ _) eqn:Hin; [|by apply Ho].
        by apply in_range_spec in Hin as [? _].
      * intros Hl. exists p'. split; [by apply Ho|]. destruct (in_range _ _ _ _) eqn:Hin; [|done].
        by apply in_range_spec in Hin as [? _].
Qed.

(** Appending shifts nothing. *)
Lemma others_appended i L t t1 s :
  others i L t -> absent i L -> (forall j, j <> i -> t1 !! j = t !! j) ->
  t1 !! i = Some {| scope_id := Some s; position := Z.of_nat (length (L s)) + 1 |} ->
  repr (list_create L i s None) t1.
Proof.
  intros Ho Ha Ht1 Hi.
  replace (list_create L i s None) with (list_create L i s (Some (Z.of_nat (length (L s)) + 1))).
  2: { unfold list_create. by replace (Z.to_nat (Z.of_nat (length (L s)) + 1 - 1)) with (length (L s)) by lia. }
  apply (others_inserted i L t); [done|done|lia| |done].
  intros j Hj. rewrite Ht1 by done. destruct (t !! j) as [[[s'|] p]|] eqn:Htj; cbn; [|done|done].
  f_equal. unfold shift_range. destruct (in_range _ _ _ _) eqn:Hin; [|done].
  apply in_range_spec in Hin as (-> & Hge & _). apply Ho in Htj as [_ Hl]; [|done].
  apply lookup_lt_Some in Hl. lia.
Qed.

Lemma repr_absent i L t : repr L t -> t !! i = None -> others i L t /\ absent i L.
Proof.
  intros Hr Hi. split; [intros j s p _; apply Hr|]. intros s k Hk.
  assert (t !! i = Some {| scope_id := Some s; position := Z.of_nat k + 1 |}) as Hi'; [|congruence].
  apply Hr. split; [lia|]. by replace (Z.to_nat (Z.of_nat k + 1 - 1)) with k by lia.
Qed.

(** ** The highest position *)

Lemma highest_of_list r L t s scopeValue i :
  scope_or_own scopeValue r = Some s -> others i L t ->
  (forall x, t !! i = Some x -> scope_id x <> Some s) -> (forall k, L s !! k <> Some i) ->
  highestPositionInScope r scopeValue t = (Ok (Z.of_nat (length (L s))), t).
Proof.
  intros Hs Ho Hi Ha. unfold highestPositionInScope. rewrite Hs. st_run. do 2 f_equal.
  set (rows := filter _ _).
  assert (forall j x, (j, x) ∈ rows <-> t !! j = Some x /\ scope_id x = Some s) as Hrows.
  { intros j x. unfold rows. rewrite list_elem_of_filter, elem_of_map_to_list. cbn [fst snd]. tauto. }
  assert (forall j x, t !! j = Some x -> scope_id x = Some s ->
    0 < position x /\ L s !! Z.to_nat (position x - 1) = Some j) as Hin.
  { intros j [sx px] Hj Hsx. cbn in Hsx. subst sx. apply Ho in Hj; [done|]. intros ->. by apply (Hi _ Hj). }
  pose proof (StronglySorted_merge_sort descending rows) as Hsort.
  pose proof (merge_sort_Permutation descending rows) as Hperm.
  destruct (merge_sort descending rows) as [|[j x] rest].
  - destruct (L s) as [|k l] eqn:Hl; [done|]. exfalso.
    assert ((k, {| scope_id := Some s; position := 1 |}) ∈ rows) as Hk.
    { apply Hrows. split; [|done]. apply Ho; [intros ->; by apply (Ha 0%nat)|].
      split; [done|]. by rewrite Hl. }
    rewrite <-Hperm in Hk. by apply not_elem_of_nil in Hk.
  - assert ((j, x) ∈ rows) as Hj by (rewrite <-Hperm; constructor). apply Hrows in Hj as [Hj Hsx].
    destruct (Hin j x Hj Hsx) as [Hpos Hlk]. pose proof (lookup_lt_Some _ _ _ Hlk) as Hlt. cbn [snd].
    destruct (lookup_lt_is_Some_2 (L s) (pred (length (L s)))) as [k Hk]; [lia|].
    assert ((k, {| scope_id := Some s; position := Z.of_nat (length (L s)) |}) ∈ rows) as Hkr.
    { apply Hrows. split; [|done]. apply Ho; [intros ->; by apply (Ha _ Hk)|]. split; [lia|].
      by replace (Z.to_nat (Z.of_nat (length (L s)) - 1)) with (pred (length (L s))) by lia. }
    rewrite <-Hperm in Hkr. apply elem_of_cons in Hkr as [[= <- <-]|Hkr]; [done|].
    inversion Hsort as [|? ? _ Hall]; subst. rewrite Forall_forall in Hall. specialize (Hall _ Hkr).
    unfold descending in Hall. cbn in Hall. lia.
Qed.

(** ** Requests *)

Inductive list_request := Save (r : record) | Destroy (r : record).

Definition perform (q : list_request) : DB unit :=
  match q with Save r => save r | Destroy r => destroy r end.

(** A new instance, and an instance that shows its row. *)
Definition new_record (r : record) (t : table) : Prop :=
  isPersisted r = false /\ isShifting r = false /\ t !! id r = None /\ as_integer (attr_position r) = None.

Definition stored (r : record) (t : table) (s p : Z) : Prop :=
  isPersisted r = true /\ isShifting r = false /\ attr_scope r = Some s /\
  as_integer (attr_position r) = Some p /\ t !! id r = Some {| scope_id := Some s; position := p |}.

(** What a request asks of the lists. The last case of a move leaves the
    position to the callback; it asks that the end of the new list is not the
    position the row had. *)
Inductive asks (L : lists) (t : table) : list_request -> lists -> Prop :=
| asks_append r s :
    new_record r t -> resolveScopeValue r = Some s -> is_nullish (read_position r) = true ->
    asks L t (Save r) (list_create L (id r) s None)
| asks_insert r s p :
    new_record r t -> resolveScopeValue r = Some s -> as_integer (read_position r) = Some p ->
    1 <= p <= Z.of_nat (length (L s)) + 1 ->
    asks L t (Save r) (list_create L (id r) s (Some p))
| asks_reorder r s old p :
    stored r t s old -> read_scope r = Some s -> as_integer (read_position r) = Some p ->
    1 <= p <= Z.of_nat (length (L s)) ->
    asks L t (Save r) (list_move L (id r) s old s (Some p))
| asks_move_to r s old s' p :
    stored r t s old -> read_scope r = Some s' -> s <> s' -> posAssigned r = true ->
    as_integer (read_position r) = Some p -> 1 <= p <= Z.of_nat (length (L s')) + 1 ->
    asks L t (Save r) (list_move L (id r) s old s' (Some p))
| asks_move r s old s' :
    stored r t s old -> read_scope r = Some s' -> s <> s' -> posAssigned r = false ->
    chg_position r = None -> old <> Z.of_nat (length (L s')) + 1 ->
    asks L t (Save r) (list_move L (id r) s old s' None)
| asks_destroy r s old :
    stored r t s old -> chg_scope r = None -> chg_position r = None ->
    asks L t (Destroy r) (list_destroy L s old).

Lemma assert_Ok v b n : as_integer v = Some n -> 0 < n ->
  assertPositivePosition v b = mret n.
Proof. unfold assertPositivePosition. intros -> Hn. by replace (0 <? n) with true by (symmetry; lia). Qed.

Lemma as_integer_nullish v n : as_integer v = Some n -> is_nullish v = false.
Proof. by destruct v. Qed.

Lemma outside_up s lo t : outside_free 1 s lo None t.
Proof.
  intros i j [si pi] [sj pj] _ _ Hi Hs Hp. cbn in *. subst.
  pose proof (in_range_scope _ _ _ _ Hi) as Hsi. cbn in Hsi. subst. apply in_range_spec in Hi as (_ & ? & ? & _).
  apply in_range_spec. split_and!; lia || done.
Qed.

Lemma save_create_insert L t r s p :
  repr L t -> new_record r t -> resolveScopeValue r = Some s -> as_integer (read_position r) = Some p ->
  1 <= p <= Z.of_nat (length (L s)) + 1 ->
  exists t', save r t = (Ok tt, t') /\ repr (list_create L (id r) s (Some p)) t'.
Proof.
  intros Hr (Hper & Hsh & Hnone & Hap) Hs Hp Hlen. unfold save, transaction. rewrite Hper.
  unfold beforeCreate. rewrite Hsh, (as_integer_nullish _ _ Hp), (assert_Ok _ _ _ Hp) by lia. st_run.
  rewrite (shift_up_runs r p None None None s); [|done|by eapply repr_unique|apply outside_up|
    by intros; split; [|rewrite Hper]].
  destruct (repr_absent _ _ _ Hr Hnone) as [Ho Ha].
  set (t1 := shift_range 1 s p None <$> t).
  assert (repr (list_create L (id r) s (Some p)) (<[id r := {| scope_id := Some s; position := p |}]> t1)) as Hfin.
  { apply (others_inserted (id r) L t); [done|done|done| |by rewrite lookup_insert_eq].
    intros j Hj. rewrite lookup_insert_ne by done. apply lookup_fmap. }
  unfold createNewRecord. rewrite Hp, Hs. rewrite write_row_free; [by eexists|].
  intros s' j _ Hj Htj.
  assert (<[id r := {| scope_id := Some s; position := p |}]> t1 !! j = Some {| scope_id := Some s; position := p |})
    as Htj' by by rewrite lookup_insert_ne.
  apply Hj. apply (repr_unique _ _ Hfin j (id r) s p); [done|by rewrite lookup_insert_eq].
Qed.

(** A write that completes a table of lists is not refused. *)
Lemma write_final L i x t : repr L (<[i := x]> t) -> write_row i x t = (Ok tt, <[i := x]> t).
Proof.
  intros Hr. apply write_row_free. intros s j Hs Hj Htj. apply Hj. destruct x as [sx p]. cbn in Hs. subst sx.
  apply (repr_unique _ _ Hr j i s p); [by rewrite lookup_insert_ne|by rewrite lookup_insert_eq].
Qed.

Lemma others_unique i L t :
  others i L t -> (forall s p, t !! i = Some {| scope_id := Some s; position := p |} -> p <= 0) ->
  unique_index t.
Proof.
  intros Ho Hi j k s p Hj Hk. destruct (decide (j = i)) as [->|Hji], (decide (k = i)) as [->|Hki]; [done|..].
  - apply Hi in Hj. apply Ho in Hk as [? _]; [lia|done].
  - apply Hi in Hk. apply Ho in Hj as [? _]; [lia|done].
  - apply Ho in Hj as [_ Hj], Hk as [_ Hk]; [congruence|done..].
Qed.

Lemma save_create_append L t r s :
  repr L t -> new_record r t -> resolveScopeValue r = Some s -> is_nullish (read_position r) = true ->
  exists t', save r t = (Ok tt, t') /\ repr (list_create L (id r) s None) t'.
Proof.
  intros Hr (Hper & Hsh & Hnone & Hap) Hs Hp. unfold save, transaction. rewrite Hper.
  destruct (repr_absent _ _ _ Hr Hnone) as [Ho Ha].
  unfold beforeCreate. rewrite Hsh, Hp. st_run.
  rewrite (highest_of_list r L t s None (id r)); [|done|done|by rewrite Hnone|apply Ha].
  set (p := Z.of_nat (length (L s)) + 1). unfold set_position. rewrite Hap.
  destruct (decide _) as [|_]; [done|]. unfold createNewRecord.
  change (read_position (with_changes _ _ r)) with (of_Z p). rewrite as_integer_of_Z.
  change (resolveScopeValue (with_changes _ _ r)) with (resolveScopeValue r). rewrite Hs.
  change (id (with_changes _ _ r)) with (id r).
  assert (repr (list_create L (id r) s None) (<[id r := {| scope_id := Some s; position := p |}]> t)) as Hfin.
  { apply (others_appended (id r) L t); [done|done| |by rewrite lookup_insert_eq].
    intros j Hj. by rewrite lookup_insert_ne. }
  rewrite (write_final _ _ _ _ Hfin). by eexists.
Qed.

(** *** Moves *)

(** The row, out of the way of the shifts. *)
Definition parked (i s old : Z) (t : table) : table := <[i := {| scope_id := Some s; position := - old |}]> t.

Lemma stored_pos L t r s old : repr L t -> stored r t s old -> 0 < old /\ L s !! Z.to_nat (old - 1) = Some (id r).
Proof. intros Hr (_ & _ & _ & _ & Hi). by apply Hr in Hi. Qed.

Lemma moveOutOfWay_runs L t r s old scopeValue :
  repr L t -> stored r t s old -> scope_or_own scopeValue r = Some s ->
  moveOutOfWay r scopeValue t = (Ok tt, parked (id r) s old t).
Proof.
  intros Hr Hst Hs. destruct (stored_pos _ _ _ _ _ Hr Hst) as [Hold _].
  destruct Hst as (_ & _ & _ & _ & Hi). unfold moveOutOfWay. rewrite Hs, Hi. cbn [scope_id position].
  destruct (decide _) as [_|]; [|done]. apply write_row_free.
  intros s' j [= <-] Hj Htj. apply Hr in Htj as [? _]. lia.
Qed.

Lemma parked_unique L t r s old : repr L t -> stored r t s old -> unique_index (parked (id r) s old t).
Proof.
  intros Hr Hst. destruct (stored_pos _ _ _ _ _ Hr Hst) as [Hold _].
  apply (others_unique (id r) L).
  - intros j s' p Hj. unfold parked. rewrite lookup_insert_ne by done. apply Hr.
  - intros s' p. unfold parked. rewrite lookup_insert_eq. intros [= _ <-]. lia.
Qed.

(** The gap that the parked row leaves is where the rows after it move into. *)
Lemma parked_outside_down L t r s old hi :
  repr L t -> stored r t s old -> outside_free (-1) s (old + 1) hi (parked (id r) s old t).
Proof.
  intros Hr Hst i j [si pi] [sj pj] Hi Hj Hri Hs Hp. cbn in Hs, Hp. subst.
  destruct (stored_pos _ _ _ _ _ Hr Hst) as [Hold Hlist].
  pose proof (in_range_scope _ _ _ _ Hri) as Hsi. cbn in Hsi. subst.
  apply in_range_spec in Hri as (_ & Hge & Hpos & Hhi). unfold parked in *.
  destruct (decide (j = id r)) as [->|Hjr]; [rewrite lookup_insert_eq in Hj; injection Hj as Hj; lia|].
  rewrite lookup_insert_ne in Hj by done. apply Hr in Hj as [Hpj Hlj].
  apply in_range_spec. split_and!; [done| |lia|intros h Hh; specialize (Hhi h Hh); lia].
  destruct (decide (old + 1 <= pi + -1)); [done|]. exfalso.
  replace (pi + -1) with old in Hlj by lia. congruence.
Qed.

Lemma parked_shift_down L t r s old r' scopeValue :
  repr L t -> stored r t s old -> scope_or_own scopeValue r' = Some s -> id r' = id r ->
  shiftPositionsDown r' (old + 1) None scopeValue (parked (id r) s old t) =
    (Ok tt, shift_range (-1) s (old + 1) None <$> parked (id r) s old t).
Proof.
  intros Hr Hst Hs Hid. apply shift_down_runs; [done|by eapply parked_unique|by eapply parked_outside_down|].
  intros i x Hi Hin. rewrite Hid. intros ->. unfold parked in Hi. rewrite lookup_insert_eq in Hi.
  injection Hi as <-. apply in_range_spec in Hin as (_ & ? & ? & _).
  destruct (stored_pos _ _ _ _ _ Hr Hst). lia.
Qed.

(** The row keeps its temporary position while the rows of the range move. *)
Lemma shift_parked d s' lo hi i s old t :
  0 < old -> (shift_range d s' lo hi <$> parked i s old t) !! i = Some {| scope_id := Some s; position := - old |}.
Proof.
  intros Hold. rewrite lookup_fmap. unfold parked. rewrite lookup_insert_eq. cbn. f_equal.
  unfold shift_range. destruct (in_range _ _ _ _) eqn:Hin; [|done].
  apply in_range_spec in Hin as (_ & _ & ? & _). lia.
Qed.

Lemma save_destroy L t r s old :
  repr L t -> stored r t s old -> chg_scope r = None -> chg_position r = None ->
  exists t', destroy r t = (Ok tt, t') /\ repr (list_destroy L s old) t'.
Proof.
  intros Hr Hst Hcs Hcp. pose proof Hst as (Hper & Hsh & Has & Hap & Hi).
  destruct (stored_pos _ _ _ _ _ Hr Hst) as [Hold _].
  assert (scope_or_own None r = Some s) as Hs by (cbn; unfold resolveScopeValue, read_scope; by rewrite Hcs, Has).
  unfold destroy, beforeDestroy. assert (read_position r = attr_position r) as -> by (unfold read_position; by rewrite Hcp).
  destruct (attr_position r) as [| |?|n|?] eqn:Hv; try discriminate Hap.
  rewrite (assert_Ok _ _ _ Hap Hold). st_run.
  rewrite (moveOutOfWay_runs L t r s old None) by done.
  rewrite (parked_shift_down L t r s old r None) by done.
  set (t2 := shift_range (-1) s (old + 1) None <$> parked (id r) s old t).
  destruct (others_removed (id r) L t t2 s old Hr Hi) as [Ho Ha].
  { intros j Hj. unfold t2. rewrite lookup_fmap. unfold parked. by rewrite lookup_insert_ne. }
  eexists. split; [done|]. intros j s' p. destruct (decide (j = id r)) as [->|Hj].
  - rewrite lookup_delete_eq. split; [done|]. intros [_ Hk]. by apply Ha in Hk.
  - rewrite lookup_delete_ne by done. by apply Ho.
Qed.

Lemma update_writes r t x s p :
  t !! id r = Some x -> default (scope_id x) (chg_scope r) = s ->
  match chg_position r with Some v => as_integer v = Some p | None => position x = p end ->
  updateRecordWithChanges r t = write_row (id r) {| scope_id := s; position := p |} t.
Proof.
  intros Hx Hs Hp. unfold updateRecordWithChanges. rewrite Hx, Hs.
  destruct (chg_position r) as [v|]; [by rewrite Hp|by rewrite Hp].
Qed.

Lemma insert_at_delete {A} (l : list A) k x : l !! k = Some x -> insert_at k x (delete k l) = l.
Proof.
  intros Hx. apply list_eq. intros n. apply option_eq. intros y.
  pose proof (lookup_lt_Some _ _ _ Hx) as Hk.
  rewrite lookup_insert_at by (rewrite length_delete by eauto; lia). split.
  - intros [[-> ->]|(k' & Hk' & ->)]; [done|]. apply lookup_delete_iff in Hk' as (k2 & Hk2 & Hne & ->).
    destruct (k2 <? k)%nat eqn:Hb; [apply Nat.ltb_lt in Hb|apply Nat.ltb_ge in Hb].
    + by replace (k2 <? k)%nat with true by (symmetry; by apply Nat.ltb_lt).
    + replace (pred k2 <? k)%nat with false by (symmetry; apply Nat.ltb_ge; lia).
      by replace (S (pred k2)) with k2 by lia.
  - intros Hy. destruct (decide (n = k)) as [->|Hn]; [left; split; congruence|]. right.
    exists (if (n <? k)%nat then n else pred n). split.
    + apply lookup_delete_iff. exists n. split_and!; done.
    + destruct (n <? k)%nat eqn:Hb; [apply Nat.ltb_lt in Hb|apply Nat.ltb_ge in Hb].
      * by replace (n <? k)%nat with true by (symmetry; by apply Nat.ltb_lt).
      * replace (pred n <? k)%nat with false by (symmetry; apply Nat.ltb_ge; lia). lia.
Qed.

Lemma list_move_same L i s old :
  L s !! Z.to_nat (old - 1) = Some i -> forall s', list_move L i s old s (Some old) s' = L s'.
Proof.
  intros Hi s'. unfold list_move, list_create, list_destroy.
  destruct (decide (s' = s)) as [->|Hs]; [|by rewrite !fn_lookup_insert_ne].
  rewrite !fn_lookup_insert. by apply insert_at_delete.
Qed.

Lemma repr_ext L L' t : (forall s, L' s = L s) -> repr L t -> repr L' t.
Proof. intros He Hr i s p. rewrite He. apply Hr. Qed.

Lemma before_update_branch r :
  isPersisted r = true -> isShifting r = false -> ~ (chg_position r = None /\ chg_scope r = None) ->
  beforeUpdate r =
    (oldPosition ← assertPositivePosition (attr_position r) true;
     newPosition ← assertPositivePosition (read_position r) false;
     let oldScopeValue := attr_scope r in
     let newScopeValue := read_scope r in
     if decide (newPosition = oldPosition /\ newScopeValue = oldScopeValue) then mret r else
     if decide (oldScopeValue <> newScopeValue) then
       if negb (posAssigned r) then
         _ ← moveOutOfWay r oldScopeValue;
         highestNew ← highestPositionInScope r newScopeValue;
         let r' := set_position (highestNew + 1) r in
         _ ← shiftPositionsDown r' (oldPosition + 1) None oldScopeValue;
         mret r'
       else
         _ ← moveOutOfWay r oldScopeValue;
         _ ← shiftPositionsDown r (oldPosition + 1) None oldScopeValue;
         _ ← shiftPositionsUp r newPosition None newScopeValue (Some (id r));
         placeMovedRecord r newScopeValue newPosition
     else
       _ ← moveOutOfWay r oldScopeValue;
       _ ← (if newPosition <? oldPosition
            then shiftPositionsUp r newPosition (Some oldPosition) None None
            else if oldPosition <? newPosition
            then shiftPositionsDown r (oldPosition + 1) (Some (newPosition + 1)) None
            else mret tt);
       mret r).
Proof.
  intros Hp Hs Hc. unfold beforeUpdate. rewrite Hp, Hs. cbn [orb negb].
  destruct (chg_position r), (chg_scope r); try done. by destruct Hc.
Qed.

Lemma save_persisted r t : isPersisted r = true ->
  save r t = transaction (r' ← beforeUpdate r; updateRecordWithChanges r') t.
Proof. unfold save. by intros ->. Qed.

(** Saving a row where it is. *)
Lemma save_unmoved L t r s old :
  repr L t -> stored r t s old -> read_scope r = Some s -> as_integer (read_position r) = Some old ->
  exists t', save r t = (Ok tt, t') /\ repr (list_move L (id r) s old s (Some old)) t'.
Proof.
  intros Hr Hst Hs Hp. pose proof Hst as (Hper & Hsh & Has & Hap & Hi).
  destruct (stored_pos _ _ _ _ _ Hr Hst) as [Hold Hlist].
  assert (beforeUpdate r t = (Ok r, t)) as Hb.
  { destruct (decide (chg_position r = None /\ chg_scope r = None)) as [[H1 H2]|Hc].
    - unfold beforeUpdate. by rewrite Hper, Hsh, H1, H2.
    - rewrite before_update_branch by done.
      rewrite (assert_Ok _ _ _ Hap Hold), (assert_Ok _ _ _ Hp Hold). st_run. cbv zeta.
      by rewrite decide_True by by rewrite Hs, Has. }
  rewrite save_persisted by done. unfold transaction. st_run. rewrite Hb.
  rewrite (update_writes r t _ (Some s) old Hi).
  - rewrite (write_final L); rewrite insert_id by done; [|done]. eexists. split; [done|].
    eapply repr_ext, Hr. by apply list_move_same.
  - cbn. unfold read_scope in Hs. rewrite Has in Hs. by destruct (chg_scope r).
  - cbn. unfold read_position in Hp. by destruct (chg_position r).
Qed.

#[export] Instance below_dec (hi : option Z) (p : Z) :
  Decision (match hi with Some h => p < h | None => True end).
Proof. destruct hi; apply _. Defined.

Lemma shift_range_eq d s lo hi sx px :
  shift_range d s lo hi {| scope_id := Some sx; position := px |} =
  {| scope_id := Some sx;
     position := if decide (sx = s /\ lo <= px /\ 0 < px /\ match hi with Some h => px < h | None => True end)
                 then px + d else px |}.
Proof.
  unfold shift_range, shifted. destruct (in_range _ _ _ _) eqn:Hin.
  - apply in_range_spec in Hin as (-> & ? & ? & Hh). destruct (decide _) as [|Hn]; [done|].
    destruct Hn. split_and!; [done..|]. destruct hi; [by apply Hh|done].
  - destruct (decide _) as [(-> & ? & ? & Hh)|]; [|done]. apply not_true_iff_false in Hin.
    rewrite in_range_spec in Hin. destruct Hin. split_and!; [done..|]. intros h ->. done.
Qed.

(** The rows that a bounded shift moves are those that closing the gap and opening
    another move. *)
Lemma reorder_shift s old p sx px :
  0 < old -> 0 < p -> p <> old -> (sx = s -> px <> old) ->
  let r := {| scope_id := Some sx; position := px |} in
  shift_range 1 s p None (shift_range (-1) s (old + 1) None r) =
  if p <? old then shift_range 1 s p (Some old) r else shift_range (-1) s (old + 1) (Some (p + 1)) r.
Proof.
  intros Hold Hp Hpo Hne. cbv zeta. rewrite !shift_range_eq.
  destruct (p <? old) eqn:Hb; [apply Z.ltb_lt in Hb|apply Z.ltb_ge in Hb];
    f_equal; repeat destruct (decide _); intuition lia.
Qed.

Lemma shift_range_null d s lo hi p :
  shift_range d s lo hi {| scope_id := None; position := p |} = {| scope_id := None; position := p |}.
Proof. unfold shift_range, in_range. cbn. by rewrite bool_decide_eq_false_2. Qed.

(** The bounded shift of a parked row's scope. *)
Lemma parked_reorder L t r s old p :
  repr L t -> stored r t s old -> scope_or_own None r = Some s -> 1 <= p <= Z.of_nat (length (L s)) ->
  p <> old ->
  exists t2,
    (if p <? old then shiftPositionsUp r p (Some old) None None
     else if old <? p then shiftPositionsDown r (old + 1) (Some (p + 1)) None
     else mret tt) (parked (id r) s old t) = (Ok tt, t2) /\
    (forall j, j <> id r -> t2 !! j = shift_range 1 s p None <$> (shift_range (-1) s (old + 1) None <$> t !! j)) /\
    t2 !! id r = Some {| scope_id := Some s; position := - old |}.
Proof.
  intros Hr Hst Hs Hp Hpo. destruct (stored_pos _ _ _ _ _ Hr Hst) as [Hold Hlist].
  pose proof (parked_unique _ _ _ _ _ Hr Hst) as Hu.
  assert (forall i x lo hi, parked (id r) s old t !! i = Some x -> in_range s lo hi x = true -> i <> id r) as Hex.
  { intros i x lo hi Hi Hin ->. unfold parked in Hi. rewrite lookup_insert_eq in Hi. injection Hi as <-.
    apply in_range_spec in Hin. lia. }
  exists (if p <? old then shift_range 1 s p (Some old) <$> parked (id r) s old t
          else shift_range (-1) s (old + 1) (Some (p + 1)) <$> parked (id r) s old t).
  split; [|split].
  - destruct (p <? old) eqn:Hb; [apply Z.ltb_lt in Hb|apply Z.ltb_ge in Hb].
    + apply shift_up_runs; [done|done| |intros i x Hi Hin; split; [done|]; by intros; eapply Hex].
      intros i j [si pi] [sj pj] Hi Hj Hri Hsj Hpj. cbn in Hsj, Hpj. subst.
      pose proof (in_range_scope _ _ _ _ Hri) as Hsi. cbn in Hsi. subst.
      apply in_range_spec in Hri as (_ & ? & ? & Hh). specialize (Hh _ eq_refl).
      unfold parked in Hj. destruct (decide (j = id r)) as [->|Hjr];
        [rewrite lookup_insert_eq in Hj; injection Hj as Hj; lia|].
      rewrite lookup_insert_ne in Hj by done. apply Hr in Hj as [_ Hj].
      apply in_range_spec. split_and!; [done|lia|lia|]. intros h [= <-].
      destruct (decide (pi + 1 = old)) as [He|]; [|lia]. rewrite He in Hj. congruence.
    + replace (old <? p) with true by (symmetry; apply Z.ltb_lt; lia).
      apply shift_down_runs; [done|done|by eapply parked_outside_down|by intros i x; apply Hex].
  - intros j Hj. assert (forall o : option row, (forall x, o = Some x -> scope_id x = Some s -> position x <> old) ->
      shift_range 1 s p None <$> (shift_range (-1) s (old + 1) None <$> o) =
      (if p <? old then shift_range 1 s p (Some old) <$> o else shift_range (-1) s (old + 1) (Some (p + 1)) <$> o)) as He.
    { intros [[[sx|] px]|] Ho; cbn.
      - rewrite reorder_shift; [by destruct (p <? old)|lia|lia|done|]. intros ->. by apply (Ho _ eq_refl).
      - rewrite !shift_range_null. by destruct (p <? old).
      - by destruct (p <? old). }
    rewrite He.
    + destruct (p <? old); rewrite lookup_fmap; unfold parked; by rewrite lookup_insert_ne.
    + intros [sx px] Hx Hsx Hpx. cbn in *. subst. apply Hr in Hx as [_ Hx]. congruence.
  - destruct (p <? old); by apply shift_parked.
Qed.

Lemma save_reorder L t r s old p :
  repr L t -> stored r t s old -> read_scope r = Some s -> as_integer (read_position r) = Some p ->
  1 <= p <= Z.of_nat (length (L s)) ->
  exists t', save r t = (Ok tt, t') /\ repr (list_move L (id r) s old s (Some p)) t'.
Proof.
  intros Hr Hst Hs Hp Hlen. destruct (decide (p = old)) as [->|Hpo]; [by apply save_unmoved|].
  pose proof Hst as (Hper & Hsh & Has & Hap & Hi).
  destruct (stored_pos _ _ _ _ _ Hr Hst) as [Hold Hlist].
  assert (exists v, chg_position r = Some v /\ as_integer v = Some p) as (v & Hv & Hvp).
  { unfold read_position in Hp. destruct (chg_position r) as [v|]; [by exists v|]. cbn in Hp. congruence. }
  assert (scope_or_own None r = Some s) as Hown by (cbn; unfold resolveScopeValue; by rewrite Hs).
  destruct (parked_reorder L t r s old p) as (t2 & Hrun & Hlook & Hpark); [done..|].
  destruct (others_removed (id r) L t (shift_range (-1) s (old + 1) None <$> t) s old Hr Hi) as [Ho Ha].
  { intros j _. apply lookup_fmap. }
  set (t3 := <[id r := {| scope_id := Some s; position := p |}]> t2).
  assert (repr (list_move L (id r) s old s (Some p)) t3) as Hfin.
  { apply (others_inserted (id r) _ (shift_range (-1) s (old + 1) None <$> t)); [done|done| | |by apply lookup_insert_eq].
    - unfold list_destroy. rewrite fn_lookup_insert, length_delete by eauto.
      pose proof (lookup_lt_Some _ _ _ Hlist). lia.
    - intros j Hj. unfold t3. rewrite lookup_insert_ne by done. rewrite Hlook by done. by rewrite lookup_fmap. }
  assert (beforeUpdate r t = (Ok r, t2)) as Hb.
  { rewrite before_update_branch; [|done|done|by intros [? _]; congruence].
    rewrite (assert_Ok _ _ _ Hap Hold), (assert_Ok _ _ _ Hp) by lia. st_run. cbv zeta.
    rewrite decide_False by by intros [? _]. rewrite decide_False by (rewrite Hs, Has; intros Hn; by apply Hn).
    rewrite (moveOutOfWay_runs L t r s old) by (done || by rewrite Has).
    unfold mret, ST_ret in Hrun. by rewrite Hrun. }
  rewrite save_persisted by done. unfold transaction. st_run. rewrite Hb.
  rewrite (update_writes r t2 _ (Some s) p Hpark).
  - rewrite (write_final _ _ _ _ Hfin). by eexists.
  - cbn. unfold read_scope in Hs. rewrite Has in Hs. by destruct (chg_scope r).
  - by rewrite Hv.
Qed.

(** *** Moves between scopes *)

Lemma gap_closed L t r s old :
  repr L t -> stored r t s old ->
  let t2 := shift_range (-1) s (old + 1) None <$> parked (id r) s old t in
  others (id r) (list_destroy L s old) t2 /\ absent (id r) (list_destroy L s old) /\
  t2 !! id r = Some {| scope_id := Some s; position := - old |} /\ unique_index t2.
Proof.
  intros Hr Hst t2. destruct (stored_pos _ _ _ _ _ Hr Hst) as [Hold _]. pose proof Hst as (_ & _ & _ & _ & Hi).
  destruct (others_removed (id r) L t t2 s old Hr Hi) as [Ho Ha].
  { intros j Hj. unfold t2. rewrite lookup_fmap. unfold parked. by rewrite lookup_insert_ne. }
  assert (t2 !! id r = Some {| scope_id := Some s; position := - old |}) as Hp by by apply shift_parked.
  split_and!; [done|done|done|]. apply (others_unique (id r) (list_destroy L s old)); [done|].
  intros s' p. rewrite Hp. intros [= _ <-]. lia.
Qed.

Lemma save_move_to L t r s old s' p :
  repr L t -> stored r t s old -> read_scope r = Some s' -> s <> s' -> posAssigned r = true ->
  as_integer (read_position r) = Some p -> 1 <= p <= Z.of_nat (length (L s')) + 1 ->
  exists t', save r t = (Ok tt, t') /\ repr (list_move L (id r) s old s' (Some p)) t'.
Proof.
  intros Hr Hst Hs Hne Has Hp Hlen. pose proof Hst as (Hper & Hsh & Hasc & Hap & Hi).
  destruct (stored_pos _ _ _ _ _ Hr Hst) as [Hold Hlist].
  destruct (gap_closed _ _ _ _ _ Hr Hst) as (Ho & Ha & Hpark & Hu).
  set (t2 := shift_range (-1) s (old + 1) None <$> parked (id r) s old t) in *.
  set (t3 := shift_range 1 s' p None <$> t2).
  assert (t3 !! id r = Some {| scope_id := Some s; position := - old |}) as Hi3.
  { unfold t3. rewrite lookup_fmap, Hpark. cbn. f_equal. rewrite shift_range_eq.
    destruct (decide _) as [[? _]|]; done. }
  set (x := {| scope_id := Some s'; position := p |}).
  assert (repr (list_move L (id r) s old s' (Some p)) (<[id r := x]> t3)) as Hfin.
  { apply (others_inserted (id r) _ t2); [done|done| | |by apply lookup_insert_eq].
    - unfold list_destroy. by rewrite fn_lookup_insert_ne.
    - intros j Hj. rewrite lookup_insert_ne by done. apply lookup_fmap. }
  set (r' := {| id := id r; isPersisted := isPersisted r; isShifting := isShifting r;
                attr_scope := Some s'; attr_position := of_Z p; chg_scope := None;
                chg_position := None; posAssigned := posAssigned r; loaded_parent := loaded_parent r |}).
  assert (beforeUpdate r t = (Ok r', <[id r := x]> t3)) as Hb.
  { rewrite before_update_branch; [|done|done|].
    2: { intros [_ Hc]. unfold read_scope in Hs. rewrite Hc, Hasc in Hs. cbn in Hs. congruence. }
    rewrite (assert_Ok _ _ _ Hap Hold), (assert_Ok _ _ _ Hp) by lia. st_run. cbv zeta.
    rewrite Hs, Hasc. rewrite decide_False by (intros [_ ?]; congruence). rewrite decide_True by congruence.
    rewrite Has. cbn [negb]. rewrite (moveOutOfWay_runs L t r s old) by done.
    rewrite (parked_shift_down L t r s old r) by done. fold t2.
    rewrite (shift_up_runs r p None (Some s') (Some (id r)) s'); [|done|done|apply outside_up|].
    2: { intros i y Hy Hin. assert (i <> id r) as Hii; [|split; [congruence|done]]. intros ->.
         rewrite Hpark in Hy. injection Hy as <-. apply in_range_spec in Hin as [? _]. congruence. }
    fold t3. unfold placeMovedRecord. rewrite Hi3. st_run. fold x.
    by rewrite (write_final _ _ _ _ Hfin). }
  rewrite save_persisted by done. unfold transaction. st_run. rewrite Hb.
  rewrite (update_writes r' _ x (Some s') p); [|apply lookup_insert_eq|done|done]. fold x.
  change (id r') with (id r).
  rewrite (write_final (list_move L (id r) s old s' (Some p))); rewrite insert_insert_eq; [|done].
  by eexists.
Qed.

(** A move to another scope without a position, up to the statement that writes
    the row. *)
Lemma before_update_move L t r s old s' :
  repr L t -> stored r t s old -> read_scope r = Some s' -> s <> s' -> posAssigned r = false ->
  chg_position r = None ->
  beforeUpdate r t = (Ok (set_position (Z.of_nat (length (L s')) + 1) r),
                      shift_range (-1) s (old + 1) None <$> parked (id r) s old t).
Proof.
  intros Hr Hst Hs Hne Has Hc. pose proof Hst as (Hper & Hsh & Hasc & Hap & Hi).
  destruct (stored_pos _ _ _ _ _ Hr Hst) as [Hold Hlist].
  rewrite before_update_branch; [|done|done|].
  2: { intros [_ Hcs]. unfold read_scope in Hs. rewrite Hcs, Hasc in Hs. cbn in Hs. congruence. }
  assert (read_position r = attr_position r) as Hrp by (unfold read_position; by rewrite Hc).
  rewrite Hrp, (assert_Ok _ true _ Hap Hold), (assert_Ok _ false _ Hap Hold). st_run. cbv zeta.
  rewrite Hs, Hasc. rewrite decide_False by (intros [_ ?]; congruence). rewrite decide_True by congruence.
  rewrite Has. cbn [negb]. rewrite (moveOutOfWay_runs L t r s old) by done.
  rewrite (highest_of_list r L _ s' (Some s') (id r)); [|done| | |].
  - by rewrite (parked_shift_down L t r s old) by (done || unfold set_position; by destruct (decide _)).
  - intros j x p Hj. unfold parked. rewrite lookup_insert_ne by done. apply Hr.
  - intros x. unfold parked. rewrite lookup_insert_eq. intros [= <-]. cbn. congruence.
  - intros k Hk. assert (t !! id r = Some {| scope_id := Some s'; position := Z.of_nat k + 1 |}) as Hi'.
    { apply Hr. split; [lia|]. by replace (Z.to_nat (Z.of_nat k + 1 - 1)) with k by lia. }
    rewrite Hi in Hi'. congruence.
Qed.

Lemma save_move L t r s old s' :
  repr L t -> stored r t s old -> read_scope r = Some s' -> s <> s' -> posAssigned r = false ->
  chg_position r = None -> old <> Z.of_nat (length (L s')) + 1 ->
  exists t', save r t = (Ok tt, t') /\ repr (list_move L (id r) s old s' None) t'.
Proof.
  intros Hr Hst Hs Hne Has Hc Hold'. pose proof Hst as (Hper & Hsh & Hasc & Hap & Hi).
  rewrite save_persisted by done. unfold transaction. st_run.
  rewrite (before_update_move L t r s old s') by done.
  destruct (gap_closed _ _ _ _ _ Hr Hst) as (Ho & Ha & Hpark & Hu).
  set (t2 := shift_range (-1) s (old + 1) None <$> parked (id r) s old t) in *.
  set (p := Z.of_nat (length (L s')) + 1). unfold set_position.
  destruct (decide _) as [He|_]; [rewrite Hap in He; injection He as He; unfold p in He; lia|].
  set (r' := with_changes _ _ r).
  rewrite (update_writes r' t2 _ (Some s') p Hpark); [| |exact (as_integer_of_Z p)].
  2: { unfold read_scope in Hs. rewrite Hasc in Hs. change (chg_scope r') with (chg_scope r).
       cbn. destruct (chg_scope r); [done|]. cbn in Hs. congruence. }
  change (id r') with (id r).
  assert (repr (list_move L (id r) s old s' None) (<[id r := {| scope_id := Some s'; position := p |}]> t2)) as Hfin.
  { apply (others_appended (id r) _ t2); [done|done| |].
    - intros j Hj. by rewrite lookup_insert_ne.
    - rewrite lookup_insert_eq. unfold list_destroy. by rewrite fn_lookup_insert_ne. }
  rewrite (write_final _ _ _ _ Hfin). by eexists.
Qed.

(** C13: on a table that holds the lists of its scopes, saving or destroying a
    record does to the lists what it asks: a new record is appended or inserted,
    a moved one leaves its place and takes the new one, in its scope or in
    another, a destroyed one leaves. No statement meets the UNIQUE index on the
    way, and every scope stays numbered 1, 2, 3, … without a gap. *)
Theorem callbacks_refine_lists L t q L' :
  repr L t -> asks L t q L' -> exists t', perform q t = (Ok tt, t') /\ repr L' t'.
Proof.
  intros Hr Hq. destruct Hq; cbn [perform].
  - by apply save_create_append.
  - by apply save_create_insert.
  - by apply save_reorder.
  - by apply save_move_to.
  - by apply save_move.
  - by apply save_destroy.
Qed.

(** A record that changes scope without a position, when the end of the new
    list is the position it had, keeps the temporary negative position it was
    parked at: assigning an equal position records no change, so that the UPDATE
    writes the scope only. The new list misses the record. *)
Lemma scope_move_can_keep_parked_position L t r s old s' :
  repr L t -> stored r t s old -> read_scope r = Some s' -> s <> s' -> posAssigned r = false ->
  chg_position r = None -> old = Z.of_nat (length (L s')) + 1 ->
  exists t', save r t = (Ok tt, t') /\
    t' !! id r = Some {| scope_id := Some s'; position := - old |}.
Proof.
  intros Hr Hst Hs Hne Has Hc Hold'. pose proof Hst as (Hper & Hsh & Hasc & Hap & Hi).
  destruct (stored_pos _ _ _ _ _ Hr Hst) as [Hold _].
  rewrite save_persisted by done. unfold transaction. st_run.
  rewrite (before_update_move L t r s old s') by done.
  destruct (gap_closed _ _ _ _ _ Hr Hst) as (Ho & Ha & Hpark & Hu).
  unfold set_position. destruct (decide _) as [_|Hn]; [|rewrite Hap, Hold' in Hn; done].
  rewrite (update_writes r _ _ (Some s') (- old) Hpark).
  - rewrite write_row_free.
    + eexists. split; [done|]. apply lookup_insert_eq.
    + intros x j _ Hj Hx. apply Ho in Hx as [? _]; [lia|done].
  - unfold read_scope in Hs. rewrite Hasc in Hs. cbn. destruct (chg_scope r); [done|]. cbn in Hs. congruence.
  - by rewrite Hc.
Qed.

(** ** Examples *)

Definition new_item (i s : Z) : record :=
  {| id := i; isPersisted := false; isShifting := false; attr_scope := None; attr_position := JsUndefined;
     chg_scope := Some (Some s); chg_position := None; posAssigned := false; loaded_parent := None |}.

Definition stored_item (i s p : Z) (s' : option Z) (p' : option Z) : record :=
  {| id := i; isPersisted := true; isShifting := false; attr_scope := Some s; attr_position := of_Z p;
     chg_scope := Some <$> s'; chg_position := of_Z <$> p';
     posAssigned := match p' with Some _ => true | None => false end; loaded_parent := None |}.

(** Items 10, 11 and 12 of scope 1, then item 20 of scope 2. *)
Definition example_table : table :=
  (save (new_item 20 2) (save (new_item 12 1) (save (new_item 11 1) (save (new_item 10 1) ∅).2).2).2).2.

Definition example_lists : lists :=
  list_create (list_create (list_create (list_create (fun _ => []) 10 1 None) 11 1 None) 12 1 None) 20 2 None.

Lemma repr_created L t i s :
  repr L t -> t !! i = None -> repr (list_create L i s None) (save (new_item i s) t).2.
Proof.
  intros Hr Hi. destruct (save_create_append L t (new_item i s) s Hr) as (t' & -> & Hr');
    [by split_and!|done|done|exact Hr'].
Qed.

Lemma example_repr : repr example_lists example_table.
Proof.
  assert (repr (fun _ => []) (∅ : table)) as H.
  { intros i s p. rewrite lookup_empty. split; [done|]. by intros [_ H]. }
  unfold example_lists, example_table.
  repeat (apply repr_created; [|vm_compute; reflexivity]). exact H.
Qed.

Lemma callbacks_refine_lists_witness :
  map (list_move example_lists 12 1 3 1 (Some 1)) [1; 2] = [[12; 10; 11]; [20]] /\
  exists t', perform (Save (stored_item 12 1 3 None (Some 1))) example_table = (Ok tt, t') /\
    repr (list_move example_lists 12 1 3 1 (Some 1)) t'.
Proof.
  split; [vm_compute; reflexivity|].
  apply (callbacks_refine_lists example_lists example_table _ _ example_repr).
  apply (asks_reorder _ _ (stored_item 12 1 3 None (Some 1)) 1 3 1);
    [split_and!; vm_compute; reflexivity|reflexivity|reflexivity|vm_compute; split; discriminate].
Defined.

Lemma scope_move_can_keep_parked_position_witness :
  exists t', save (stored_item 20 2 1 (Some 3) None) example_table = (Ok tt, t') /\
    t' !! 20 = Some {| scope_id := Some 3; position := -1 |}.
Proof.
  apply (scope_move_can_keep_parked_position example_lists example_table
    (stored_item 20 2 1 (Some 3) None) 2 1 3 example_repr);
    [split_and!; vm_compute; reflexivity|reflexivity|discriminate|reflexivity|reflexivity|reflexivity].
Defined.
