(* ===== verification/ConnectionPool.v ===== *)
(** * The database connection pool
    ([src/src/database/pool/async-tracked-multi-connection.js])

    Asynchronous functions are written the way they run. Calling one runs it up to its first
    [await]: a [computation] changes the pool and says what the call waits for and which
    functions are suspended below it, as a stack of [frame]s (one per [await] of the source
    whose result is used). A step resumes one call whose wait is over and runs its top frame up
    to the next [await]; every [await] is a point where other calls may run, in any order.

    What the driver does (connecting, naming, cleaning and closing a connection) succeeds or
    fails as the step chooses. The ambient configuration of a call is an argument of the step;
    a checkout reads it twice. Connections are objects, so they have handles, as the objects of
    waiting checkouts do. Not modelled: connections retained by the tenant lifecycle, the global
    and the test-shared connection (there are none), telemetry and debug snapshots. *)

From stdpp Require Import base strings gmap list relations.
From Stdlib Require Import QArith.
From S2P Require Import Prelude.
Open Scope Z_scope.

(** ** Data *)

(** A resolved database configuration: its reuse key, and what its [pool] entry holds. *)
Record config := {
  config_key : string;                     (* getConfigurationReuseKey *)
  pool_max : scalar;
  pool_idleTimeoutMillis : scalar;
  pool_checkoutTimeoutMillis : scalar
}.

Inductive settled := Fulfilled | Rejected.

Record connection := {
  reuse_key : option string;               (* [POOL_CONFIGURATION_KEY] *)
  id_seq : option nat;                     (* getIdSeq() *)
  closed_connection : bool;                (* [CLOSED_CONNECTION] *)
  transactions_count : nat;
  checked_in_at : option Z;                (* [IDLE_CONNECTION_CHECKED_IN_AT] *)
  close_promise : option (option settled)  (* connectionClosePromises.get(connection) *)
}.

Record pending_checkout := {
  handle : nat;
  ticket : nat;                            (* the caller whose promise it settles *)
  databaseConfig : config;
  timeoutAt : option Q
}.

Inductive error :=
| DriverError
| AlreadyInUse (id : nat)
| IdSeqNotSet
| MissingReuseKey
| TimedOut
| PoolClosed
| TypeErrorUndefined
| AggregateError.

Inductive value := Undefined | Bool (b : bool) | Conn (c : nat).

(** What a suspended call waits for. *)
Inductive wait :=
| Settled (r : result error value)
| Naming (c : nat)
| Cleaning (c : nat)
| Connecting
| ClosePromise (c : nat)
| AllSettled (cs : list nat)
| DrainPromise (d : nat).

(** The suspended functions, with the variables they need afterwards. *)
Inductive frame :=
| Activating (c id : nat)
| Rethrow (e : error)
| ClosingFirst (c : nat)
| ReapClosing (rest : list nat)
| ReapClosed
| ReapInflight
| CheckoutReaped (t : nat) (cfg : config)
| Spawning (key : string)
| CheckoutSpawned (t : nat) (key : string)
| CheckoutDone (t : nat) (key : string)
| DrainCatch
| DrainFinally (d : nat)
| DrainMatched
| DrainCapacity (w : pending_checkout)
| CapacityReaped (w : pending_checkout)
| DrainIdle (w : pending_checkout)
| IdleReaped (w : pending_checkout)
| DrainContinue
| SpawnedFor (w : pending_checkout)
| Resolving (w : pending_checkout)
| ReturnsTrue
| ReturnsNothing
| CheckinCleaned (c : nat) (id : option nat)
| CheckinDrained (c : nat)
| CheckinFailedClosed (e : error)
| CheckinFailed (e : error)
| DiscardClosed
| DiscardDrained (e : option error)
| CloseAllClosing (rest : list nat).

Definition suspended : Type := wait * list frame.

(** What became of a caller: it holds a connection, with the id its async context has and the
    reuse key it asked for; or its checkout failed; or it has given the connection back. *)
Inductive outcome := Holding (c id : nat) (key : string) | Failed (e : error) | Ended.

Record pool := Pool {
  heap : gmap nat connection;
  connections : list nat;
  connectionsInUse : gmap nat nat;
  pendingCheckouts : list pending_checkout;
  connectionsBeingSpawned : nat;
  pendingCheckoutDrainPromise : option nat;
  idleConnectionReaperTimer : option (Q * config);
  inflightConnectionCloses : list nat;
  idSeq : nat;
  now : Z;
  next_connection : nat;
  next_checkout : nat;
  next_ticket : nat;
  next_drain : nat;
  drains : gmap nat (option error);        (* the drain promises that are settled *)
  outcomes : gmap nat outcome;
  served : list pending_checkout;          (* taken from the queue by a drain, in order *)
  calls : list (config * suspended)
}.

(** ** Assignments *)

Definition set_heap h p := Pool h (connections p) (connectionsInUse p) (pendingCheckouts p) (connectionsBeingSpawned p) (pendingCheckoutDrainPromise p) (idleConnectionReaperTimer p) (inflightConnectionCloses p) (idSeq p) (now p) (next_connection p) (next_checkout p) (next_ticket p) (next_drain p) (drains p) (outcomes p) (served p) (calls p).
Definition set_connections l p := Pool (heap p) l (connectionsInUse p) (pendingCheckouts p) (connectionsBeingSpawned p) (pendingCheckoutDrainPromise p) (idleConnectionReaperTimer p) (inflightConnectionCloses p) (idSeq p) (now p) (next_connection p) (next_checkout p) (next_ticket p) (next_drain p) (drains p) (outcomes p) (served p) (calls p).
Definition set_in_use m p := Pool (heap p) (connections p) m (pendingCheckouts p) (connectionsBeingSpawned p) (pendingCheckoutDrainPromise p) (idleConnectionReaperTimer p) (inflightConnectionCloses p) (idSeq p) (now p) (next_connection p) (next_checkout p) (next_ticket p) (next_drain p) (drains p) (outcomes p) (served p) (calls p).
Definition set_pending l p := Pool (heap p) (connections p) (connectionsInUse p) l (connectionsBeingSpawned p) (pendingCheckoutDrainPromise p) (idleConnectionReaperTimer p) (inflightConnectionCloses p) (idSeq p) (now p) (next_connection p) (next_checkout p) (next_ticket p) (next_drain p) (drains p) (outcomes p) (served p) (calls p).
Definition set_spawned n p := Pool (heap p) (connections p) (connectionsInUse p) (pendingCheckouts p) n (pendingCheckoutDrainPromise p) (idleConnectionReaperTimer p) (inflightConnectionCloses p) (idSeq p) (now p) (next_connection p) (next_checkout p) (next_ticket p) (next_drain p) (drains p) (outcomes p) (served p) (calls p).
Definition set_drain d n p := Pool (heap p) (connections p) (connectionsInUse p) (pendingCheckouts p) (connectionsBeingSpawned p) d (idleConnectionReaperTimer p) (inflightConnectionCloses p) (idSeq p) (now p) (next_connection p) (next_checkout p) (next_ticket p) n (drains p) (outcomes p) (served p) (calls p).
Definition set_timer t p := Pool (heap p) (connections p) (connectionsInUse p) (pendingCheckouts p) (connectionsBeingSpawned p) (pendingCheckoutDrainPromise p) t (inflightConnectionCloses p) (idSeq p) (now p) (next_connection p) (next_checkout p) (next_ticket p) (next_drain p) (drains p) (outcomes p) (served p) (calls p).
Definition set_inflight l p := Pool (heap p) (connections p) (connectionsInUse p) (pendingCheckouts p) (connectionsBeingSpawned p) (pendingCheckoutDrainPromise p) (idleConnectionReaperTimer p) l (idSeq p) (now p) (next_connection p) (next_checkout p) (next_ticket p) (next_drain p) (drains p) (outcomes p) (served p) (calls p).
Definition set_idSeq n p := Pool (heap p) (connections p) (connectionsInUse p) (pendingCheckouts p) (connectionsBeingSpawned p) (pendingCheckoutDrainPromise p) (idleConnectionReaperTimer p) (inflightConnectionCloses p) n (now p) (next_connection p) (next_checkout p) (next_ticket p) (next_drain p) (drains p) (outcomes p) (served p) (calls p).
Definition set_now n p := Pool (heap p) (connections p) (connectionsInUse p) (pendingCheckouts p) (connectionsBeingSpawned p) (pendingCheckoutDrainPromise p) (idleConnectionReaperTimer p) (inflightConnectionCloses p) (idSeq p) n (next_connection p) (next_checkout p) (next_ticket p) (next_drain p) (drains p) (outcomes p) (served p) (calls p).
Definition set_next c w t p := Pool (heap p) (connections p) (connectionsInUse p) (pendingCheckouts p) (connectionsBeingSpawned p) (pendingCheckoutDrainPromise p) (idleConnectionReaperTimer p) (inflightConnectionCloses p) (idSeq p) (now p) c w t (next_drain p) (drains p) (outcomes p) (served p) (calls p).
Definition set_drains m p := Pool (heap p) (connections p) (connectionsInUse p) (pendingCheckouts p) (connectionsBeingSpawned p) (pendingCheckoutDrainPromise p) (idleConnectionReaperTimer p) (inflightConnectionCloses p) (idSeq p) (now p) (next_connection p) (next_checkout p) (next_ticket p) (next_drain p) m (outcomes p) (served p) (calls p).
Definition set_outcomes m p := Pool (heap p) (connections p) (connectionsInUse p) (pendingCheckouts p) (connectionsBeingSpawned p) (pendingCheckoutDrainPromise p) (idleConnectionReaperTimer p) (inflightConnectionCloses p) (idSeq p) (now p) (next_connection p) (next_checkout p) (next_ticket p) (next_drain p) (drains p) m (served p) (calls p).
Definition set_served l p := Pool (heap p) (connections p) (connectionsInUse p) (pendingCheckouts p) (connectionsBeingSpawned p) (pendingCheckoutDrainPromise p) (idleConnectionReaperTimer p) (inflightConnectionCloses p) (idSeq p) (now p) (next_connection p) (next_checkout p) (next_ticket p) (next_drain p) (drains p) (outcomes p) l (calls p).
Definition set_calls l p := Pool (heap p) (connections p) (connectionsInUse p) (pendingCheckouts p) (connectionsBeingSpawned p) (pendingCheckoutDrainPromise p) (idleConnectionReaperTimer p) (inflightConnectionCloses p) (idSeq p) (now p) (next_connection p) (next_checkout p) (next_ticket p) (next_drain p) (drains p) (outcomes p) (served p) l.

Definition on_connection (c : nat) (f : connection -> connection) (p : pool) : pool :=
  set_heap (alter f c (heap p)) p.

Definition with_key key k := Build_connection (Some key) (id_seq k) (closed_connection k) (transactions_count k) (checked_in_at k) (close_promise k).
Definition with_id id k := Build_connection (reuse_key k) id (closed_connection k) (transactions_count k) (checked_in_at k) (close_promise k).
Definition with_transactions n k := Build_connection (reuse_key k) (id_seq k) (closed_connection k) n (checked_in_at k) (close_promise k).
Definition with_checked_in t k := Build_connection (reuse_key k) (id_seq k) (closed_connection k) (transactions_count k) t (close_promise k).
Definition with_close s k := Build_connection (reuse_key k) (id_seq k) true (transactions_count k) (checked_in_at k) (Some s).

(** ** Asynchronous computations *)

Definition computation : Type := pool -> pool * suspended.

Definition returns (r : result error value) : computation := fun p => (p, (Settled r, [])).

(** [await m], and then the frame. *)
Definition await_then (m : computation) (f : frame) : computation := fun p =>
  let '(p, (w, fs)) := m p in (p, (w, fs ++ [f])).

Definition ok : computation := returns (Ok Undefined).

(** ** Reading the pool *)

Definition connection_at (c : nat) (p : pool) : option connection := heap p !! c.

Definition connectionHasOpenTransaction (p : pool) (c : nat) : bool :=
  match heap p !! c with Some k => bool_decide (0 < transactions_count k)%nat | None => false end.

Definition connectionMatchesReuseKey (p : pool) (key : string) (c : nat) : bool :=
  match heap p !! c with Some k => bool_decide (reuse_key k = Some key) | None => false end.

Definition connectionIsClosed (p : pool) (c : nat) : bool :=
  match heap p !! c with Some k => closed_connection k | None => false end.

Definition Qltb (a b : Q) : bool := negb (Qle_bool b a).

Definition validMaxConnections (v : scalar) : option Q :=
  match v with JsNumber (Fin q) => if Qle_bool 1 q then Some q else None | _ => None end.

(** [validIdleTimeoutMillis] and [validCheckoutTimeoutMillis] *)
Definition validTimeoutMillis (v : scalar) : option Q :=
  match v with JsNumber (Fin q) => if Qle_bool 0 q then Some q else None | _ => None end.

Definition DEFAULT_MAX_CONNECTIONS : Q := 10.
Definition DEFAULT_IDLE_TIMEOUT_MILLIS : Q := 5000.
Definition DEFAULT_CHECKOUT_TIMEOUT_MILLIS : Q := 10000.

Definition maxConnections (cfg : config) : option Q :=
  match pool_max cfg with JsNull => None | v => Some (default DEFAULT_MAX_CONNECTIONS (validMaxConnections v)) end.

Definition idleTimeoutMillis (cfg : config) : option Q :=
  match pool_idleTimeoutMillis cfg with
  | JsNull => None
  | v => Some (default DEFAULT_IDLE_TIMEOUT_MILLIS (validTimeoutMillis v))
  end.

Definition checkoutTimeoutMillis (cfg : config) : option Q :=
  match pool_checkoutTimeoutMillis cfg with
  | JsNull => None
  | v => Some (default DEFAULT_CHECKOUT_TIMEOUT_MILLIS (validTimeoutMillis v))
  end.

(** [Object.values(this.connectionsInUse)]: by ascending id. *)
Definition in_use_values (p : pool) : list nat :=
  omap (fun id => connectionsInUse p !! id) (seq 0 (idSeq p)).

Definition liveConnectionCount (p : pool) : nat :=
  (size (list_to_set (connections p ++ in_use_values p) : gset nat) + connectionsBeingSpawned p)%nat.

Definition canSpawnConnection (cfg : config) (p : pool) : bool :=
  match maxConnections cfg with
  | None => true
  | Some m => Qltb (inject_Z (Z.of_nat (liveConnectionCount p))) m
  end.

(** ** Taking idle connections *)

Definition idle_for (p : pool) (key : string) (includeOpenTransactions : bool) (c : nat) : bool :=
  (includeOpenTransactions || negb (connectionHasOpenTransaction p c)) && connectionMatchesReuseKey p key c.

(** The first element the test accepts, and the list without it. *)
Fixpoint take_first {A} (test : A -> bool) (l : list A) : option (A * list A) :=
  match l with
  | [] => None
  | x :: l =>
      if test x then Some (x, l)
      else match take_first test l with Some (y, l') => Some (y, x :: l') | None => None end
  end.

Definition takeIdleConnectionForReuseKey (key : string) (includeOpenTransactions : bool) (p : pool) : option (nat * pool) :=
  match take_first (idle_for p key includeOpenTransactions) (connections p) with
  | Some (c, rest) => Some (c, set_connections rest p)
  | None => None
  end.

Definition findIdleConnectionForReuseKey (key : string) (p : pool) : option nat :=
  List.find (idle_for p key false) (connections p).

(** ** Closing *)

Definition closeConnection (c : nat) : computation := fun p =>
  match connection_at c p with
  | None => (p, (Settled (Throw TypeErrorUndefined), []))
  | Some k =>
      match close_promise k with
      | Some _ => (p, (ClosePromise c, []))
      | None =>
          (set_inflight (inflightConnectionCloses p ++ [c])
             (on_connection c (fun k => with_close None (with_checked_in None k)) p),
           (ClosePromise c, [ClosingFirst c]))
      end
  end.

(** ** Reaping idle connections *)

Definition idleConnectionExpired (p : pool) (idle : Q) (c : nat) : bool :=
  match connection_at c p with
  | Some k => match checked_in_at k with Some at_ => Qle_bool idle (inject_Z (now p - at_)) | None => false end
  | None => false
  end.

Definition keptWhenReaping (p : pool) (idle : Q) (c : nat) : bool :=
  negb (connectionIsClosed p c) && (connectionHasOpenTransaction p c || negb (idleConnectionExpired p idle c)).

Definition expiredWhenReaping (p : pool) (idle : Q) (c : nat) : bool :=
  negb (connectionIsClosed p c) && negb (connectionHasOpenTransaction p c) && idleConnectionExpired p idle c.

(** [classifyIdleConnectionsForReaping] *)
Definition classifyIdleConnections (idle : Q) (p : pool) : list nat * list nat :=
  (List.filter (expiredWhenReaping p idle) (connections p), List.filter (keptWhenReaping p idle) (connections p)).

Definition Qmin2 (a b : Q) : Q := if Qle_bool a b then a else b.
Definition Qmax2 (a b : Q) : Q := if Qle_bool a b then b else a.

Definition nextIdleConnectionReapDelay (idle : Q) (p : pool) : Q :=
  foldl (fun delay c =>
    if connectionHasOpenTransaction p c then delay else
    match connection_at c p with
    | Some k =>
        match checked_in_at k with
        | Some at_ => Qmin2 delay (Qmax2 0 (idle - inject_Z (now p - at_)))
        | None => delay
        end
    | None => delay
    end) idle (connections p).

Definition scheduleIdleConnectionReaper (cfg : config) (p : pool) : pool :=
  match idleConnectionReaperTimer p, connections p, idleTimeoutMillis cfg with
  | None, _ :: _, Some idle =>
      set_timer (Some ((inject_Z (now p) + nextIdleConnectionReapDelay idle p)%Q, cfg)) p
  | _, _, _ => p
  end.

Definition closeExpiredIdleConnections (cs : list nat) : computation :=
  match cs with
  | [] => ok
  | c :: rest => await_then (closeConnection c) (ReapClosing rest)
  end.

Definition awaitInflightConnectionCloses : computation := fun p =>
  match inflightConnectionCloses p with
  | [] => (p, (Settled (Ok Undefined), []))
  | cs => (p, (AllSettled cs, []))
  end.

Definition reapIdleConnections (cfg : config) : computation := fun p =>
  match connections p, idleTimeoutMillis cfg with
  | _ :: _, Some idle =>
      let '(expired, kept) := classifyIdleConnections idle p in
      await_then (closeExpiredIdleConnections expired) ReapClosed (set_connections kept p)
  | _, _ => ok p
  end.

(** ** Activating and spawning *)

Definition activateConnection (c : nat) : computation := fun p =>
  match connection_at c p with
  | None => (p, (Settled (Throw TypeErrorUndefined), []))
  | Some k =>
      match id_seq k with
      | Some id => (p, (Settled (Throw (AlreadyInUse id)), []))
      | None =>
          let id := idSeq p in
          (set_in_use (<[id := c]> (connectionsInUse p))
             (on_connection c (fun k => with_id (Some id) (with_checked_in None k)) (set_idSeq (S id) p)),
           (Naming c, [Activating c id]))
      end
  end.

Definition spawnConnectionForCheckout (key : string) : computation := fun p =>
  (set_spawned (S (connectionsBeingSpawned p)) p, (Connecting, [Spawning key])).

(** A driver has connected: the new connection object. *)
Definition new_connection (p : pool) : nat * pool :=
  (next_connection p,
   set_next (S (next_connection p)) (next_checkout p) (next_ticket p)
     (set_heap (<[next_connection p := Build_connection None None false 0 None None]> (heap p)) p)).

(** ** Promises of callers *)

(** A promise that is settled stays as it is. *)
Definition settle (t : nat) (key : string) (r : result error value) (p : pool) : pool :=
  match outcomes p !! t with
  | Some _ => p
  | None =>
      match r with
      | Ok (Conn c) =>
          match connection_at c p ≫= id_seq with
          | Some id => set_outcomes (<[t := Holding c id key]> (outcomes p)) p
          | None => p
          end
      | Ok _ => p
      | Throw e => set_outcomes (<[t := Failed e]> (outcomes p)) p
      end
  end.

Definition settle_checkout (w : pending_checkout) (r : result error value) (p : pool) : pool :=
  settle (ticket w) (config_key (databaseConfig w)) r p.

(** [pendingCheckouts.includes(checkout)] *)
Definition includes (w : pending_checkout) (l : list pending_checkout) : bool :=
  existsb (fun x => bool_decide (handle x = handle w)) l.

(** [removePendingCheckoutAt], called by the drain with the checkout at that index. *)
Definition take_pending (w : pending_checkout) (rest : list pending_checkout) (p : pool) : pool :=
  set_served (served p ++ [w]) (set_pending rest p).

Definition timeoutPendingCheckout (h : nat) (p : pool) : pool :=
  match take_first (fun w => bool_decide (handle w = h)) (pendingCheckouts p) with
  | None => p
  | Some (w, rest) => settle_checkout w (Throw TimedOut) (set_pending rest p)
  end.

Definition rejectPendingCheckouts (e : error) (p : pool) : pool :=
  foldl (fun p w => settle_checkout w (Throw e) p) (set_pending [] p) (pendingCheckouts p).

(** ** The drain *)

Definition resolvePendingCheckout (w : pending_checkout) (c : nat) : computation :=
  await_then (activateConnection c) (Resolving w).

(** The first waiting checkout an idle connection matches, with the rest of the queue. *)
Fixpoint match_pending (before l : list pending_checkout) (p : pool)
    : option (pending_checkout * list pending_checkout * nat * pool) :=
  match l with
  | [] => None
  | w :: l =>
      match takeIdleConnectionForReuseKey (config_key (databaseConfig w)) false p with
      | Some (c, p) => Some (w, before ++ l, c, p)
      | None => match_pending (before ++ [w]) l p
      end
  end.

Definition resolvePendingCheckoutWithMatchingIdleConnection : computation := fun p =>
  match match_pending [] (pendingCheckouts p) p with
  | Some (w, rest, c, p) => await_then (resolvePendingCheckout w c) ReturnsTrue (take_pending w rest p)
  | None => (p, (Settled (Ok (Bool false)), []))
  end.

Definition drainPendingCheckoutsActual : computation := fun p =>
  match pendingCheckouts p with
  | [] => ok p
  | _ => await_then resolvePendingCheckoutWithMatchingIdleConnection DrainMatched p
  end.

Definition drainPendingCheckouts : computation := fun p =>
  match pendingCheckoutDrainPromise p with
  | Some d => (p, (DrainPromise d, []))
  | None =>
      let d := next_drain p in
      let '(p, (w, fs)) := drainPendingCheckoutsActual p in
      (set_drain (Some d) (S d) p, (w, fs ++ [DrainFinally d]))
  end.

Definition closeOneIdleConnectionForCapacity : computation := fun p =>
  match List.find (fun c => negb (connectionHasOpenTransaction p c)) (connections p) with
  | None => (p, (Settled (Ok (Bool false)), []))
  | Some c =>
      await_then (closeConnection c) ReturnsTrue
        (set_connections (List.filter (fun d => negb (bool_decide (d = c))) (connections p)) p)
  end.

Definition closeIdleConnectionForPendingCheckoutCapacity (ambient : config) (w : pending_checkout) : computation := fun p =>
  match findIdleConnectionForReuseKey (config_key (databaseConfig w)) p with
  | Some _ => (p, (Settled (Ok (Bool false)), []))
  | None => await_then (reapIdleConnections ambient) (CapacityReaped w) p
  end.

Definition idleConnectionForPendingCheckout (ambient : config) (w : pending_checkout) : computation := fun p =>
  match takeIdleConnectionForReuseKey (config_key (databaseConfig w)) false p with
  | Some (c, p) => (p, (Settled (Ok (Conn c)), []))
  | None => await_then (reapIdleConnections ambient) (IdleReaped w) p
  end.

Definition spawnAndResolvePendingCheckout (w : pending_checkout) : computation :=
  await_then (spawnConnectionForCheckout (config_key (databaseConfig w))) (SpawnedFor w).

(** ** Checking out *)

(** The promise of the caller is settled by a drain; the call goes on as the drain it starts. *)
Definition waitForCheckout (t : nat) (cfg : config) : computation := fun p =>
  let w := {| handle := next_checkout p; ticket := t; databaseConfig := cfg;
              timeoutAt := match checkoutTimeoutMillis cfg with
                           | Some ms => Some (inject_Z (now p) + ms)%Q
                           | None => None
                           end |} in
  await_then drainPendingCheckouts DrainCatch
    (set_next (next_connection p) (S (next_checkout p)) (next_ticket p) (set_pending (pendingCheckouts p ++ [w]) p)).

Definition checkout (t : nat) (cfg cfg' : config) : computation := fun p =>
  match takeIdleConnectionForReuseKey (config_key cfg) true p with
  | Some (c, p) => await_then (activateConnection c) (CheckoutDone t (config_key cfg)) p
  | None => await_then (reapIdleConnections cfg) (CheckoutReaped t cfg') p
  end.

Definition checkout_reaped (t : nat) (cfg : config) : computation := fun p =>
  match takeIdleConnectionForReuseKey (config_key cfg) true p with
  | Some (c, p) => await_then (activateConnection c) (CheckoutDone t (config_key cfg)) p
  | None =>
      if canSpawnConnection cfg p
      then await_then (spawnConnectionForCheckout (config_key cfg)) (CheckoutSpawned t (config_key cfg)) p
      else waitForCheckout t cfg p
  end.

(** ** Checking in *)

(** [None] when it throws: the connection has no id. *)
Definition untrackConnectionInUse (c : nat) (id : option nat) (p : pool) : option pool :=
  match id with
  | None => None
  | Some id => Some (on_connection c (with_id None) (set_in_use (delete id (connectionsInUse p)) p))
  end.

Definition checkin (c : nat) : computation := fun p =>
  match connection_at c p with
  | None => (p, (Settled (Throw TypeErrorUndefined), []))
  | Some k =>
      if closed_connection k then
        match untrackConnectionInUse c (id_seq k) p with
        | None => (p, (Settled (Throw IdSeqNotSet), []))
        | Some p => await_then drainPendingCheckouts ReturnsNothing p
        end
      else (p, (Cleaning c, [CheckinCleaned c (id_seq k)]))
  end.

(** After a successful cleaning, which has rolled back what was open. *)
Definition checkin_cleaned (c : nat) (id : option nat) : computation := fun p =>
  match untrackConnectionInUse c id p with
  | None => (p, (Settled (Throw IdSeqNotSet), []))
  | Some p =>
      if bool_decide (from_option reuse_key None (connection_at c p) = None) then (p, (Settled (Throw MissingReuseKey), [])) else
      let p := on_connection c (fun k => with_checked_in (Some (now p)) (with_transactions 0 k)) p in
      await_then drainPendingCheckouts (CheckinDrained c) (set_connections (connections p ++ [c]) p)
  end.

(** [closeCheckedOutConnectionAfterCheckinFailure] *)
Definition checkin_failed (c : nat) (id : option nat) (e : error) : computation := fun p =>
  match untrackConnectionInUse c id p with
  | None => (p, (Settled (Throw IdSeqNotSet), []))
  | Some p => await_then (closeConnection c) (CheckinFailedClosed e) p
  end.

Definition handleCheckedInIdleConnection (ambient : config) : computation := fun p =>
  match idleTimeoutMillis ambient with
  | Some q => if Qeq_bool q 0 then reapIdleConnections ambient p else ok (scheduleIdleConnectionReaper ambient p)
  | None => ok (scheduleIdleConnectionReaper ambient p)
  end.

Definition discard (c : nat) : computation := fun p =>
  match connection_at c p with
  | None => (p, (Settled (Throw TypeErrorUndefined), []))
  | Some k =>
      match untrackConnectionInUse c (id_seq k) p with
      | None => (p, (Settled (Throw IdSeqNotSet), []))
      | Some p => await_then (closeConnection c) DiscardClosed p
      end
  end.

(** ** Closing the pool *)

Definition closeAll_next (cs : list nat) : computation :=
  match cs with
  | [] => ok
  | c :: rest => await_then (closeConnection c) (CloseAllClosing rest)
  end.

Definition closeAll : computation := fun p =>
  let p := rejectPendingCheckouts PoolClosed (set_timer None p) in
  let cs := remove_dups (connections p ++ in_use_values p) in
  closeAll_next cs (set_in_use ∅ (set_connections [] p)).

(** ** Resuming a call: the top frame gets what the call waited for *)

Definition error_of (r : result error value) : option error :=
  match r with Throw e => Some e | Ok _ => None end.

Definition run_drain_frame (ambient : config) (f : frame) (r : value) : computation :=
  match f with
  | DrainMatched =>
      match r with
      | Bool true => drainPendingCheckoutsActual
      | _ => fun p =>
          match pendingCheckouts p with
          | [] => (p, (Settled (Throw TypeErrorUndefined), []))   (* the queue was emptied meanwhile *)
          | w :: _ => await_then (closeIdleConnectionForPendingCheckoutCapacity ambient w) (DrainCapacity w) p
          end
      end
  | CapacityReaped w => fun p =>
      match findIdleConnectionForReuseKey (config_key (databaseConfig w)) p with
      | Some _ => (p, (Settled (Ok (Bool false)), []))
      | None =>
          if canSpawnConnection (databaseConfig w) p then (p, (Settled (Ok (Bool false)), []))
          else closeOneIdleConnectionForCapacity p
      end
  | DrainCapacity w =>
      match r with
      | Bool true => drainPendingCheckoutsActual
      | _ => fun p =>
          if negb (includes w (pendingCheckouts p)) then drainPendingCheckoutsActual p else
          if canSpawnConnection (databaseConfig w) p
          then await_then (spawnAndResolvePendingCheckout w) DrainContinue (take_pending w (drop 1 (pendingCheckouts p)) p)
          else await_then (idleConnectionForPendingCheckout ambient w) (DrainIdle w) p
      end
  | IdleReaped w => fun p =>
      if negb (includes w (pendingCheckouts p)) then ok p else
      match takeIdleConnectionForReuseKey (config_key (databaseConfig w)) false p with
      | Some (c, p) => (p, (Settled (Ok (Conn c)), []))
      | None => ok p
      end
  | DrainIdle w => fun p =>
      if negb (includes w (pendingCheckouts p)) then drainPendingCheckoutsActual p else
      match r with
      | Conn c => await_then (resolvePendingCheckout w c) DrainContinue (take_pending w (drop 1 (pendingCheckouts p)) p)
      | _ => ok p
      end
  | _ => drainPendingCheckoutsActual        (* DrainContinue *)
  end.

Definition run_frame (ambient : config) (f : frame) (r : result error value) : computation :=
  match f, r with
  | Activating c id, Ok _ => returns (Ok (Conn c))
  | Activating c id, Throw e => fun p =>
      await_then (closeConnection c) (Rethrow e)
        (on_connection c (with_id None) (set_in_use (delete id (connectionsInUse p)) p))
  | Rethrow e, Ok _ => returns (Throw e)
  | ClosingFirst c, _ => fun p =>
      (set_inflight (List.filter (fun d => negb (bool_decide (d = c))) (inflightConnectionCloses p)) p, (Settled r, []))
  | ReapClosing rest, Ok _ => closeExpiredIdleConnections rest
  | ReapClosed, Ok _ => await_then awaitInflightConnectionCloses ReapInflight
  | ReapInflight, Ok _ => fun p => ok (scheduleIdleConnectionReaper ambient p)
  | CheckoutReaped t cfg, Ok _ => checkout_reaped t cfg
  | CheckoutReaped t cfg, Throw e => fun p => ok (settle t (config_key cfg) (Throw e) p)
  | Spawning key, Ok (Conn c) => fun p =>
      (set_spawned (pred (connectionsBeingSpawned p)) (on_connection c (with_key key) p), (Settled r, []))
  | Spawning key, _ => fun p => (set_spawned (pred (connectionsBeingSpawned p)) p, (Settled r, []))
  | CheckoutSpawned t key, Ok (Conn c) => await_then (activateConnection c) (CheckoutDone t key)
  | CheckoutSpawned t key, _ => fun p => ok (settle t key r p)
  | CheckoutDone t key, _ => fun p => ok (settle t key r p)
  | DrainCatch, Throw e => fun p => ok (rejectPendingCheckouts e p)
  | DrainFinally d, _ => fun p =>
      (set_drains (<[d := error_of r]> (drains p)) (set_drain None (next_drain p) p), (Settled r, []))
  | (DrainMatched | DrainCapacity _ | CapacityReaped _ | DrainIdle _ | IdleReaped _ | DrainContinue), Ok v =>
      run_drain_frame ambient f v
  | SpawnedFor w, Ok (Conn c) => resolvePendingCheckout w c
  | SpawnedFor w, _ => fun p => ok (settle_checkout w r p)
  | Resolving w, _ => fun p => ok (settle_checkout w r p)
  | ReturnsTrue, Ok _ => returns (Ok (Bool true))
  | ReturnsNothing, Ok _ => ok
  | CheckinCleaned c id, Ok _ => checkin_cleaned c id
  | CheckinCleaned c id, Throw e => checkin_failed c id e
  | CheckinDrained c, Ok _ => fun p =>
      if bool_decide (c ∈ connections p) then handleCheckedInIdleConnection ambient p else ok p
  | CheckinFailedClosed e, _ => await_then drainPendingCheckouts (CheckinFailed e)
  | CheckinFailed e, _ => returns (Throw e)
  | DiscardClosed, _ => await_then drainPendingCheckouts (DiscardDrained (error_of r))
  | DiscardDrained None, _ => returns r
  | DiscardDrained (Some e), Ok _ => returns (Throw e)
  | DiscardDrained (Some e), Throw _ => returns (Throw AggregateError)
  | CloseAllClosing rest, Ok _ => closeAll_next rest
  | _, _ => returns r
  end.

(** ** Steps *)

(** What a wait that is over gives the frame; [driver] is what the driver did. *)
Definition wait_result (w : wait) (driver : bool) (p : pool) : option (result error value * pool) :=
  match w with
  | Settled r => Some (r, p)
  | Naming _ | Cleaning _ => Some (if driver then Ok Undefined else Throw DriverError, p)
  | Connecting =>
      if driver then let '(c, p) := new_connection p in Some (Ok (Conn c), p)
      else Some (Throw DriverError, p)
  | ClosePromise c =>
      match connection_at c p ≫= close_promise with
      | Some (Some Fulfilled) => Some (Ok Undefined, p)
      | Some (Some Rejected) => Some (Throw DriverError, p)
      | _ => None
      end
  | AllSettled cs =>
      if forallb (fun c =>
           match connection_at c p ≫= close_promise with Some (Some _) => true | _ => false end) cs
      then Some (Ok Undefined, p) else None
  | DrainPromise d =>
      match drains p !! d with
      | Some None => Some (Ok Undefined, p)
      | Some (Some e) => Some (Throw e, p)
      | None => None
      end
  end.

Definition resume (i : nat) (driver : bool) (p : pool) : option pool :=
  match calls p !! i with
  | None => None
  | Some (ambient, (w, fs)) =>
      match wait_result w driver p with
      | None => None
      | Some (r, p) =>
          match fs with
          | [] => Some (set_calls (delete i (calls p)) p)
          | f :: fs =>
              let '(p, (w, gs)) := run_frame ambient f r p in
              Some (set_calls (<[i := (ambient, (w, gs ++ fs))]> (calls p)) p)
          end
      end
  end.

(** A call starts, in the context of an ambient configuration. *)
Definition start (ambient : config) (m : computation) (p : pool) : pool :=
  let '(p, call) := m p in set_calls (calls p ++ [(ambient, call)]) p.

(** The promise [withConnection] waits for gets the next ticket. *)
Definition start_checkout (cfg cfg' : config) (p : pool) : pool :=
  let t := next_ticket p in
  start cfg (checkout t cfg cfg') (set_next (next_connection p) (next_checkout p) (S t) p).

Definition end_use (t : nat) (p : pool) : pool := set_outcomes (<[t := Ended]> (outcomes p)) p.

(** A close of the driver ends, well or not. *)
Definition close_settles (c : nat) (s : settled) (p : pool) : option pool :=
  match connection_at c p ≫= close_promise with
  | Some None => Some (on_connection c (with_close (Some s)) p)
  | _ => None
  end.

Inductive action :=
| Checkout (cfg cfg' : config)             (* before and after reaping *)
| CallbackEnds (ambient : config) (t : nat)   (* withConnection checks in *)
| Discard (ambient : config) (t : nat)
| Transactions (t n : nat)
| ResumeCall (i : nat) (driver : bool)
| CloseSettles (c : nat) (s : settled)
| CheckoutTimesOut (h : nat)
| ReaperFires
| Wait (ms : nat)
| CloseAll (ambient : config).

Definition perform (a : action) (p : pool) : option pool :=
  match a with
  | Checkout cfg cfg' => Some (start_checkout cfg cfg' p)
  | CallbackEnds ambient t =>
      match outcomes p !! t with
      | Some (Holding c _ _) => Some (start ambient (checkin c) (end_use t p))
      | _ => None
      end
  | Discard ambient t =>
      match outcomes p !! t with
      | Some (Holding c _ _) => Some (start ambient (discard c) (end_use t p))
      | _ => None
      end
  | Transactions t n =>
      match outcomes p !! t with
      | Some (Holding c _ _) => Some (on_connection c (with_transactions n) p)
      | _ => None
      end
  | ResumeCall i driver => resume i driver p
  | CloseSettles c s => close_settles c s p
  | CheckoutTimesOut h =>
      match List.find (fun w => bool_decide (handle w = h)) (pendingCheckouts p) ≫= timeoutAt with
      | Some at_ => if Qle_bool at_ (inject_Z (now p)) then Some (timeoutPendingCheckout h p) else None
      | None => None
      end
  | ReaperFires =>
      match idleConnectionReaperTimer p with
      | Some (due, cfg) =>
          if Qle_bool due (inject_Z (now p)) then Some (start cfg (reapIdleConnections cfg) (set_timer None p)) else None
      | None => None
      end
  | Wait ms => Some (set_now (now p + Z.of_nat ms) p)
  | CloseAll ambient => Some (start ambient closeAll p)
  end.

Definition step (p p' : pool) : Prop := exists a, perform a p = Some p'.

Fixpoint run (actions : list action) (p : pool) : option pool :=
  match actions with
  | [] => Some p
  | a :: actions => match perform a p with Some p => run actions p | None => None end
  end.

Definition new_pool : pool := {|
  heap := ∅; connections := []; connectionsInUse := ∅; pendingCheckouts := []; connectionsBeingSpawned := 0;
  pendingCheckoutDrainPromise := None; idleConnectionReaperTimer := None; inflightConnectionCloses := [];
  idSeq := 0; now := 0; next_connection := 0; next_checkout := 0; next_ticket := 0; next_drain := 0;
  drains := ∅; outcomes := ∅; served := []; calls := [] |}.

Inductive context_error := ContextNotSet | NotCheckedOut (id : nat).

(** [getCurrentConnection] in an async context whose store is that id. *)
Definition getCurrentConnection (store : option nat) (p : pool) : result context_error nat :=
  match store with
  | None => Throw ContextNotSet              (* there is no global connection to fall back on *)
  | Some id => match connectionsInUse p !! id with Some c => Ok c | None => Throw (NotCheckedOut id) end
  end.
