(* ===== verification/ConnectionPoolCorrect.v ===== *)
(** * The connection pool gives every connection to one caller at a time

    Who may use a connection is a list of [claim]s: of the idle list, of the callers that hold
    one, and of the suspended calls that have one in a frame or are about to receive it. The
    claims are resources: no two are on one connection, and a computation turns the claims it
    starts with into those of the call it leaves behind ([safe]), whatever the others are. *)

From stdpp Require Import base strings gmap list relations.
From S2P Require Import Prelude ConnectionPool.

(** ** Claims *)

(** Whether the connection has a checkout id. *)
Inductive mode := Raw | Active | Id (id : nat).

(** A connection with the reuse key it was promised for; or a fact about a stack. *)
Inductive claim := Owns (c : nat) (m : mode) (key : option string) | Fact (P : Prop).

Definition mode_ok (m : mode) (id : option nat) : Prop :=
  match m with Raw => id = None | Active => is_Some id | Id i => id = Some i end.

Definition holds (h : gmap nat connection) (x : claim) : Prop :=
  match x with
  | Owns c m key => exists k, h !! c = Some k /\ mode_ok m (id_seq k) /\ (forall s, key = Some s -> reuse_key k = Some s)
  | Fact P => P
  end.

Definition owned (l : list claim) : list nat :=
  omap (fun x => match x with Owns c _ _ => Some c | Fact _ => None end) l.

(** The reuse key for which the connection a stack waits for is wanted. *)
Fixpoint key_of (fs : list frame) : option string :=
  match fs with
  | [] => None
  | (CheckoutSpawned _ key | CheckoutDone _ key) :: _ => Some key
  | (SpawnedFor w | Resolving w | DrainIdle w) :: _ => Some (config_key (databaseConfig w))
  | _ :: fs => key_of fs
  end.

(** Who gets a connection that is returned. *)
Fixpoint returned_claims (c : nat) (fs : list frame) : list claim :=
  match fs with
  | Spawning _ :: _ => [Owns c Raw None]
  | (CheckoutSpawned _ key) :: _ => [Owns c Raw (Some key)]
  | (SpawnedFor w | DrainIdle w) :: _ => [Owns c Raw (Some (config_key (databaseConfig w)))]
  | CheckoutDone _ key :: _ => [Owns c Active (Some key)]
  | Resolving w :: _ => [Owns c Active (Some (config_key (databaseConfig w)))]
  | (ClosingFirst _ | DrainCatch | DrainFinally _ | DiscardDrained None) :: fs => returned_claims c fs
  | _ => []
  end.

Definition frame_claims (f : frame) (fs : list frame) : list claim :=
  match f with
  | Activating c id => [Fact (returned_claims c fs = [Owns c Active (key_of fs)]); Owns c (Id id) (key_of fs)]
  | CheckinCleaned c (Some id) => [Owns c (Id id) None]
  | Spawning key => [Fact (forall c, returned_claims c fs = [Owns c Raw (Some key)])]
  | IdleReaped w => [Fact (forall c, returned_claims c fs = [Owns c Raw (Some (config_key (databaseConfig w)))])]
  | _ => []
  end.

Fixpoint stack_claims (fs : list frame) : list claim :=
  match fs with [] => [] | f :: fs => frame_claims f fs ++ stack_claims fs end.

Definition result_claims (r : result error value) (fs : list frame) : list claim :=
  match r with Ok (Conn c) => returned_claims c fs | _ => [] end.

Definition wait_claims (w : wait) (fs : list frame) : list claim :=
  match w with
  | Settled r => result_claims r fs
  | Connecting => [Fact (exists key fs', fs = Spawning key :: fs')]
  | _ => []
  end.

Definition call_claims (call : suspended) : list claim :=
  wait_claims call.1 call.2 ++ stack_claims call.2.

Definition outcome_claims (o : outcome) : list claim :=
  match o with Holding c id key => [Owns c (Id id) (Some key)] | _ => [] end.

Definition held_claims (m : gmap nat outcome) : list claim :=
  map_to_list m ≫= fun x => outcome_claims x.2.

Definition idle_claims (l : list nat) : list claim := map (fun c => Owns c Raw None) l.

(** ** Consistent claims

    A connection that somebody uses is registered under its id, as long as the pool is not
    closed: that is part of the claims when [registered] holds. *)

Section claims.
Context (registered : Prop).

Record consistent (h : gmap nat connection) (u : gmap nat nat) (n m : nat) (l : list claim) : Prop := {
  co_once : NoDup (owned l);
  co_holds : Forall (holds h) l;
  co_in_use : forall id c, u !! id = Some c -> exists k, h !! c = Some k /\ id_seq k = Some id;
  co_ids : forall c k id, h !! c = Some k -> id_seq k = Some id -> (id < n)%nat;
  co_inj : forall c c' k k' id, h !! c = Some k -> h !! c' = Some k' -> id_seq k = Some id -> id_seq k' = Some id -> c = c';
  co_new : forall c k, h !! c = Some k -> (c < m)%nat;
  co_registered : registered -> forall c md key k id, Owns c md key ∈ l -> h !! c = Some k -> id_seq k = Some id -> u !! id = Some c
}.

Lemma owned_app l l' : owned (l ++ l') = owned l ++ owned l'.
Proof. apply omap_app. Qed.

#[export] Instance owned_Permutation : Proper ((≡ₚ) ==> (≡ₚ)) owned.
Proof. intros l l' H. unfold owned. by rewrite H. Qed.

#[export] Instance consistent_Permutation h u n m : Proper ((≡ₚ) ==> iff) (consistent h u n m).
Proof.
  assert (forall l l', l ≡ₚ l' -> consistent h u n m l -> consistent h u n m l') as W.
  { intros l l' H [H1 H2 H3 H4 H5 H6 H7]. split; auto; [by rewrite <- H | by rewrite <- H |].
    intros Hr c md key k id. rewrite <- H. by apply H7. }
  intros l l' H. split; apply W; done.
Qed.

Lemma consistent_sub h u n m l l' : l' ⊆+ l -> consistent h u n m l -> consistent h u n m l'.
Proof.
  intros (rest & ->)%submseteq_Permutation [H1 H2 H3 H4 H5 H6 H7]. split; auto.
  - rewrite owned_app in H1. by apply NoDup_app in H1 as [? _].
  - by apply Forall_app in H2 as [? _].
  - intros Hr c md key k id Hin. apply (H7 Hr c md key). apply elem_of_app. by left.
Qed.

Lemma consistent_known h u n m c md key l : consistent h u n m (Owns c md key :: l) ->
  exists k, h !! c = Some k /\ mode_ok md (id_seq k) /\ (forall s, key = Some s -> reuse_key k = Some s).
Proof. intros [_ H _ _ _ _ _]. by apply Forall_cons in H as [H _]. Qed.

Lemma consistent_fact h u n m P l : consistent h u n m (Fact P :: l) -> P /\ consistent h u n m l.
Proof.
  intros [H1 H2 H3 H4 H5 H6 H7]. apply Forall_cons in H2 as [HP H2]. split; [done|]. split; auto.
  intros Hr c md key k id Hin. apply (H7 Hr c md key). by right.
Qed.

Lemma consistent_add_fact h u n m (P : Prop) l : P -> consistent h u n m l -> consistent h u n m (Fact P :: l).
Proof.
  intros HP [H1 H2 H3 H4 H5 H6 H7]. split; auto. intros Hr c md key k id Hin. apply (H7 Hr c md key).
  apply elem_of_cons in Hin as [|]; done.
Qed.

(** A change of one connection leaves the claims on the others alone. *)
Lemma holds_others h c f md key l : NoDup (owned (Owns c md key :: l)) -> Forall (holds h) l -> Forall (holds (alter f c h)) l.
Proof.
  intros [Hc _]%NoDup_cons H. apply Forall_forall. intros x Hx. rewrite Forall_forall in H.
  specialize (H x Hx). destruct x as [c' md' key'|P]; [|done].
  assert (c <> c') as Hne.
  { intros ->. apply Hc. unfold owned. apply list_elem_of_omap. by eexists. }
  destruct H as (k & Hk & H). exists k. by rewrite lookup_alter_ne.
Qed.

(** A change that keeps ids and keys. *)
Lemma consistent_alter h u n m l c f :
  (forall k, id_seq (f k) = id_seq k /\ reuse_key (f k) = reuse_key k) ->
  consistent h u n m l -> consistent (alter f c h) u n m l.
Proof.
  intros Hf [H1 H2 H3 H4 H5 H6 H7].
  assert (forall d k, alter f c h !! d = Some k ->
            exists k0, h !! d = Some k0 /\ id_seq k = id_seq k0 /\ reuse_key k = reuse_key k0) as Hback.
  { intros d k. destruct (decide (d = c)) as [->|Hne].
    - rewrite lookup_alter_eq. intros (k0 & Hk & ->)%fmap_Some. exists k0. split; [done|]. apply Hf.
    - rewrite lookup_alter_ne by congruence. eauto. }
  assert (forall d k0, h !! d = Some k0 -> exists k, alter f c h !! d = Some k /\ id_seq k = id_seq k0 /\ reuse_key k = reuse_key k0) as Hforth.
  { intros d k0 Hd. destruct (decide (d = c)) as [->|Hne].
    - exists (f k0). rewrite lookup_alter_eq, Hd. split; [done|]. apply Hf.
    - exists k0. by rewrite lookup_alter_ne by congruence. }
  split; auto.
  - eapply Forall_impl; [exact H2|]. intros [d md key|P]; [|done]. intros (k0 & Hk & Hm & Hkey).
    destruct (Hforth d k0 Hk) as (k & Hk' & Hi & Hr). exists k. by rewrite Hk', Hi, Hr.
  - intros id d Hd. destruct (H3 id d Hd) as (k0 & Hk & Hi). destruct (Hforth d k0 Hk) as (k & Hk' & Hi' & _).
    exists k. split; congruence.
  - intros d k id Hd Hi. destruct (Hback d k Hd) as (k0 & ? & ? & ?). eapply H4; [done|congruence].
  - intros d d' k k' id Hd Hd' Hi Hi'. destruct (Hback d k Hd) as (? & ? & ? & ?), (Hback d' k' Hd') as (? & ? & ? & ?).
    eapply (H5 d d' _ _ id); [done|done|congruence|congruence].
  - intros d k Hd. destruct (Hback d k Hd) as (? & ? & ?). eauto.
  - intros Hr d md key k id Hin Hd Hi. destruct (Hback d k Hd) as (k0 & Hk0 & Hi' & _).
    eapply (H7 Hr d md key k0); [done|done|congruence].
Qed.

Lemma consistent_activate h u n m l c key f :
  (forall k, id_seq (f k) = Some n /\ reuse_key (f k) = reuse_key k) ->
  consistent h u n m (Owns c Raw key :: l) -> consistent (alter f c h) (<[n := c]> u) (S n) m (Owns c (Id n) key :: l).
Proof.
  intros Hf H. destruct (consistent_known _ _ _ _ _ _ _ _ H) as (k & Hk & Hraw & Hkey).
  destruct H as [H1 H2 H3 H4 H5 H6 H7]. cbn in Hraw. destruct (Hf k) as [Hfi Hfr].
  assert (forall d k', alter f c h !! d = Some k' -> d = c /\ k' = f k \/ d <> c /\ h !! d = Some k') as Hback.
  { intros d k'. destruct (decide (d = c)) as [->|Hne].
    - rewrite lookup_alter_eq, Hk. intros [= <-]. by left.
    - rewrite lookup_alter_ne by congruence. by right. }
  split.
  - done.
  - apply Forall_cons in H2 as [_ H2]. apply Forall_cons. split.
    + exists (f k). rewrite lookup_alter_eq, Hk. split; [done|]. rewrite Hfr. done.
    + by eapply holds_others.
  - intros id d. destruct (decide (id = n)) as [->|Hne].
    + rewrite lookup_insert_eq. intros [= <-]. exists (f k). by rewrite lookup_alter_eq, Hk.
    + rewrite lookup_insert_ne by congruence. intros Hd. destruct (H3 id d Hd) as (k' & Hk' & Hi).
      exists k'. rewrite lookup_alter_ne; [done|]. intros <-. congruence.
  - intros d k' id Hd Hi. destruct (Hback d k' Hd) as [[-> ->]|[_ Hd']]; [|specialize (H4 d k' id Hd' Hi); lia].
    rewrite Hfi in Hi. injection Hi as <-. lia.
  - intros d d' k1 k2 id Hd Hd' Hi Hi'.
    destruct (Hback d k1 Hd) as [[-> ->]|[_ Hx]], (Hback d' k2 Hd') as [[-> ->]|[_ Hy]]; [done| | |by eapply H5].
    + specialize (H4 d' k2 id Hy Hi'). rewrite Hfi in Hi. injection Hi as <-. lia.
    + specialize (H4 d k1 id Hx Hi). rewrite Hfi in Hi'. injection Hi' as <-. lia.
  - intros d k' Hd. destruct (Hback d k' Hd) as [[-> ->]|[_ Hx]]; eauto.
  - intros Hr d md s k' id Hin Hd Hi. destruct (Hback d k' Hd) as [[-> ->]|[Hne Hd']].
    + rewrite Hfi in Hi. injection Hi as <-. by rewrite lookup_insert_eq.
    + apply elem_of_cons in Hin as [[=]|Hin]; [done|]. rewrite lookup_insert_ne; [eapply (H7 Hr d md s); eauto; by right|].
      intros <-. specialize (H4 d k' n Hd' Hi). lia.
Qed.

Lemma consistent_untrack h u n m l c key id :
  consistent h u n m (Owns c (Id id) key :: l) ->
  consistent (alter (with_id None) c h) (delete id u) n m (Owns c Raw key :: l).
Proof.
  intros H. destruct (consistent_known _ _ _ _ _ _ _ _ H) as (k & Hk & Hid & Hkey). cbn in Hid.
  destruct H as [H1 H2 H3 H4 H5 H6 H7].
  assert (forall d k' i, alter (with_id None) c h !! d = Some k' -> id_seq k' = Some i -> d <> c /\ h !! d = Some k') as Hback.
  { intros d k' i. destruct (decide (d = c)) as [->|Hne].
    - rewrite lookup_alter_eq, Hk. by intros [= <-].
    - rewrite lookup_alter_ne by congruence. done. }
  split.
  - done.
  - apply Forall_cons in H2 as [_ H2]. apply Forall_cons. split; [|by eapply holds_others].
    exists (with_id None k). rewrite lookup_alter_eq, Hk. done.
  - intros i d. destruct (decide (i = id)) as [->|Hne]; [by rewrite lookup_delete_eq|].
    rewrite lookup_delete_ne by congruence. intros Hd. destruct (H3 i d Hd) as (k' & Hk' & Hi).
    exists k'. rewrite lookup_alter_ne; [done|]. intros <-. congruence.
  - intros d k' i Hd Hi. destruct (Hback d k' i Hd Hi) as [_ Hd']. eauto.
  - intros d d' k1 k2 i Hd Hd' Hi Hi'.
    destruct (Hback d k1 i Hd Hi) as [_ Hx], (Hback d' k2 i Hd' Hi') as [_ Hy]. by eapply H5.
  - intros d k' Hd. destruct (decide (d = c)) as [->|Hne]; [by eapply H6|].
    rewrite lookup_alter_ne in Hd by congruence. eauto.
  - intros Hr d md s k' i Hin Hd Hi. destruct (Hback d k' i Hd Hi) as [Hne Hd'].
    apply elem_of_cons in Hin as [[=]|Hin]; [done|].
    rewrite lookup_delete_ne; [eapply (H7 Hr d md s); eauto; by right|]. intros <-. apply Hne. by eapply H5.
Qed.

Lemma consistent_stamp h u n m l c key s :
  consistent h u n m (Owns c Raw key :: l) -> consistent (alter (with_key s) c h) u n m (Owns c Raw (Some s) :: l).
Proof.
  intros H. destruct (consistent_known _ _ _ _ _ _ _ _ H) as (k & Hk & Hid & _). cbn in Hid.
  destruct H as [H1 H2 H3 H4 H5 H6 H7].
  assert (forall d k', alter (with_key s) c h !! d = Some k' -> exists k0, h !! d = Some k0 /\ id_seq k' = id_seq k0) as Hback.
  { intros d k'. destruct (decide (d = c)) as [->|Hne].
    - rewrite lookup_alter_eq, Hk. intros [= <-]. by exists k.
    - rewrite lookup_alter_ne by congruence. by exists k'. }
  split.
  - done.
  - apply Forall_cons in H2 as [_ H2]. apply Forall_cons. split; [|by eapply holds_others].
    exists (with_key s k). rewrite lookup_alter_eq, Hk. split; [done|]. split; [done|]. by intros ? [= <-].
  - intros i d Hd. destruct (H3 i d Hd) as (k' & Hk' & Hi). exists k'. rewrite lookup_alter_ne; [done|]. intros <-. congruence.
  - intros d k' i Hd Hi. destruct (Hback d k' Hd) as (? & ? & ?). eapply H4; [done|congruence].
  - intros d d' k1 k2 i Hd Hd' Hi Hi'.
    destruct (Hback d k1 Hd) as (? & ? & ?), (Hback d' k2 Hd') as (? & ? & ?). eapply (H5 d d' _ _ i); [done|done|congruence|congruence].
  - intros d k' Hd. destruct (Hback d k' Hd) as (? & ? & ?). eauto.
  - intros Hr d md s' k' i Hin Hd Hi. destruct (Hback d k' Hd) as (k0 & Hk0 & Hi').
    apply elem_of_cons in Hin as [[= -> -> ->]|Hin]; [|eapply (H7 Hr d md s' k0); [by right|done|congruence]].
    eapply (H7 Hr c Raw key k0); [by left|done|congruence].
Qed.

Lemma consistent_new h u n m l k : id_seq k = None ->
  consistent h u n m l -> consistent (<[m := k]> h) u n (S m) (Owns m Raw None :: l).
Proof.
  intros Hk [H1 H2 H3 H4 H5 H6 H7].
  assert (h !! m = None) as Hm.
  { destruct (h !! m) as [k'|] eqn:E; [|done]. apply H6 in E. lia. }
  assert (forall d k' i, <[m := k]> h !! d = Some k' -> id_seq k' = Some i -> h !! d = Some k') as Hback.
  { intros d k' i. destruct (decide (d = m)) as [->|Hne].
    - rewrite lookup_insert_eq. intros [= <-]. congruence.
    - by rewrite lookup_insert_ne by congruence. }
  assert (Forall (holds (<[m := k]> h)) l) as H2'.
  { eapply Forall_impl; [exact H2|]. intros [d md key|P]; [|done]. intros (k' & Hk' & H).
    exists k'. rewrite lookup_insert_ne; [done|]. intros <-. congruence. }
  split.
  - cbn. apply NoDup_cons. split; [|done]. intros Hin. apply list_elem_of_omap in Hin as ([d md key|P] & Hin & [= ->]).
    rewrite Forall_forall in H2. destruct (H2 _ Hin) as (k' & Hk' & _). congruence.
  - apply Forall_cons. split; [|done]. exists k. rewrite lookup_insert_eq. done.
  - intros i d Hd. destruct (H3 i d Hd) as (k' & Hk' & Hi). exists k'. rewrite lookup_insert_ne; [done|]. intros <-. congruence.
  - intros d k' i Hd Hi. eauto.
  - intros d d' k1 k2 i Hd Hd' Hi Hi'. eapply H5; eauto.
  - intros d k' Hd. destruct (decide (d = m)) as [->|Hne]; [lia|].
    rewrite lookup_insert_ne in Hd by congruence. apply H6 in Hd. lia.
  - intros Hr d md s' k' i Hin Hd Hi. pose proof (Hback d k' i Hd Hi) as Hd'.
    apply elem_of_cons in Hin as [[= -> -> ->]|Hin]; [congruence|]. by eapply (H7 Hr d md s' k').
Qed.

(** A claim may be traded for another one that holds of the same connection. *)
Lemma consistent_trade h u n m l c md md' key key' :
  (forall k, h !! c = Some k -> mode_ok md (id_seq k) -> (forall s, key = Some s -> reuse_key k = Some s) ->
     mode_ok md' (id_seq k) /\ (forall s, key' = Some s -> reuse_key k = Some s)) ->
  consistent h u n m (Owns c md key :: l) -> consistent h u n m (Owns c md' key' :: l).
Proof.
  intros Himp [H1 H2 H3 H4 H5 H6 H7]. split; auto.
  - apply Forall_cons in H2 as [(k & Hk & Hm & Hs) H2]. apply Forall_cons. split; [|done].
    exists k. split; [done|]. by apply Himp.
  - intros Hr d md0 s' k i [[= -> -> ->]|Hin]%elem_of_cons; [eapply (H7 Hr c md key); by left|].
    eapply (H7 Hr d md0 s'). by right.
Qed.

Lemma consistent_no_use h u n m l : ~ registered -> consistent h u n m l -> consistent h ∅ n m l.
Proof. intros Hr [H1 H2 H3 H4 H5 H6 H7]. split; auto; [by intros id c; rewrite lookup_empty|by intros ?]. Qed.

Lemma held_insert_claims m t o : m !! t = None -> held_claims (<[t := o]> m) ≡ₚ outcome_claims o ++ held_claims m.
Proof. intros H. unfold held_claims. by rewrite map_to_list_insert. Qed.

Lemma held_delete_claims m t o : m !! t = Some o -> held_claims m ≡ₚ outcome_claims o ++ held_claims (delete t m).
Proof. intros H. unfold held_claims. by rewrite <- (map_to_list_delete m t o). Qed.

Lemma held_end m t o : m !! t = Some o -> held_claims m ≡ₚ outcome_claims o ++ held_claims (<[t := Ended]> m).
Proof.
  intros H. rewrite (held_delete_claims m t o) by done. f_equiv.
  rewrite <- insert_delete_eq, held_insert_claims by apply lookup_delete_eq. done.
Qed.

(** ** Computations *)

Definition sound (p : pool) (l : list claim) : Prop :=
  consistent (heap p) (connectionsInUse p) (idSeq p) (next_connection p)
    (idle_claims (connections p) ++ held_claims (outcomes p) ++ l).

#[export] Instance sound_Permutation p : Proper ((≡ₚ) ==> iff) (sound p).
Proof. intros l l' H. unfold sound. by rewrite H. Qed.

Lemma sound_sub p l l' : l' ⊆+ l -> sound p l -> sound p l'.
Proof. intros H. apply consistent_sub. by do 2 apply submseteq_skips_l. Qed.

(** The claims of the rest of the stack and of everybody else stay what they are. *)
Definition safe (m : computation) (k : list frame) (before : list claim) : Prop :=
  forall p R, sound p (before ++ stack_claims k ++ R) ->
  sound (m p).1 (wait_claims (m p).2.1 ((m p).2.2 ++ k) ++ stack_claims ((m p).2.2 ++ k) ++ R) /\ calls (m p).1 = calls p.

Lemma safe_returns r k : safe (returns r) k (result_claims r k).
Proof. by intros p R H. Qed.

Lemma safe_sub m k l l' : l' ⊆+ l -> safe m k l' -> safe m k l.
Proof. intros Hl H p R HR. apply H. eapply sound_sub; [|exact HR]. by apply submseteq_app. Qed.

Lemma safe_await m f k l : frame_claims f k = [] -> safe m (f :: k) l -> safe (await_then m f) k l.
Proof.
  intros Hf H p R HR. specialize (H p R). unfold await_then. destruct (m p) as [p' [w fs]]. cbn in *.
  rewrite Hf in H. rewrite <- !app_assoc. by apply H.
Qed.

Lemma safe_await_fact m f k l P : frame_claims f k = [Fact P] -> P -> safe m (f :: k) l -> safe (await_then m f) k l.
Proof.
  intros Hf HP H p R HR. specialize (H p R). unfold await_then. destruct (m p) as [p' [w fs]]. cbn in *.
  rewrite Hf in H. rewrite <- !app_assoc. apply H. unfold sound in *. cbn. rewrite <- !Permutation_middle.
  by apply consistent_add_fact.
Qed.

(** ** The operations *)

Lemma safe_ok k : safe ok k [].
Proof. by intros p R H. Qed.

Lemma take_first_spec {A} (test : A -> bool) l x l' : take_first test l = Some (x, l') ->
  exists l1 l2, l = l1 ++ x :: l2 /\ l' = l1 ++ l2 /\ test x = true /\ Forall (fun y => test y = false) l1.
Proof.
  revert x l'. induction l as [|y l IH]; intros x l'; cbn; [done|]. destruct (test y) eqn:Ey.
  - intros [= <- <-]. by exists [], l.
  - destruct (take_first test l) as [[z l'']|]; [|done]. intros [= <- <-].
    destruct (IH z l'' eq_refl) as (l1 & l2 & -> & -> & Hz & Hl1). exists (y :: l1), l2. auto.
Qed.

Lemma sound_fewer p l R : l ⊆+ connections p -> sound p R -> sound (set_connections l p) R.
Proof.
  intros H. apply consistent_sub. apply submseteq_app; [|done]. by apply fmap_submseteq.
Qed.

Lemma filter_submseteq' {A} (f : A -> bool) (l : list A) : List.filter f l ⊆+ l.
Proof.
  induction l as [|x l IH]; cbn; [done|]. destruct (f x); [by apply submseteq_skip | by apply submseteq_cons].
Qed.

Lemma sound_take key b p c p' R : takeIdleConnectionForReuseKey key b p = Some (c, p') -> sound p R ->
  sound p' (Owns c Raw (Some key) :: R) /\ calls p' = calls p.
Proof.
  unfold takeIdleConnectionForReuseKey. destruct (take_first _ _) as [[x rest]|] eqn:E; [|done].
  intros [= -> <-] H. apply take_first_spec in E as (l1 & l2 & El & -> & Hx & _). split; [|done].
  unfold sound in *. cbn. rewrite El in H. rewrite <- !Permutation_middle.
  apply (consistent_trade _ _ _ _ _ c Raw Raw None); [|eapply consistent_sub; [|exact H]].
  - intros k Hk Hm _. cbn in Hm. split; [done|]. intros s [= <-].
    apply andb_true_iff in Hx as [_ Hx]. unfold connectionMatchesReuseKey in Hx. rewrite Hk in Hx.
    by apply bool_decide_eq_true in Hx.
  - unfold idle_claims. rewrite !map_app. cbn. rewrite <- Permutation_middle. reflexivity.
Qed.

Lemma safe_close c k : safe (closeConnection c) k [].
Proof.
  intros p R H. unfold closeConnection. destruct (connection_at c p) as [x|]; [|done].
  destruct (close_promise x); [done|]. split; [|done].
  unfold sound. cbn. apply consistent_alter; [done|exact H].
Qed.

Lemma safe_closeExpired cs k : safe (closeExpiredIdleConnections cs) k [].
Proof. destruct cs; [apply safe_ok|]. apply safe_await; [done|]. apply safe_close. Qed.

Lemma safe_awaitInflight k : safe awaitInflightConnectionCloses k [].
Proof. intros p R H. unfold awaitInflightConnectionCloses. by destruct (inflightConnectionCloses p). Qed.

Lemma safe_reap cfg k : safe (reapIdleConnections cfg) k [].
Proof.
  intros p R H. unfold reapIdleConnections.
  destruct (connections p); [done|]. destruct (idleTimeoutMillis cfg) as [idle|]; [|done].
  destruct (safe_await (closeExpiredIdleConnections (classifyIdleConnections idle p).1) ReapClosed k []) with
    (p := set_connections (classifyIdleConnections idle p).2 p) (R := R) as [H1 H2]; [done|apply safe_closeExpired| |done].
  apply sound_fewer; [|done]. apply filter_submseteq'.
Qed.

Lemma safe_activate c k : returned_claims c k = [Owns c Active (key_of k)] -> safe (activateConnection c) k [Owns c Raw (key_of k)].
Proof.
  intros Hk p R H. unfold activateConnection, connection_at.
  destruct (heap p !! c) as [x|] eqn:Ex.
  - destruct (id_seq x) as [id|] eqn:Eid.
    + split; [|done]. eapply sound_sub; [|exact H]. cbn. by apply submseteq_cons.
    + split; [|done]. unfold sound in *. cbn in *. rewrite <- !Permutation_middle in *.
      apply consistent_add_fact; [done|]. by apply consistent_activate.
  - split; [|done]. eapply sound_sub; [|exact H]. cbn. by apply submseteq_cons.
Qed.

Lemma safe_spawn key k : (forall c, returned_claims c k = [Owns c Raw (Some key)]) -> safe (spawnConnectionForCheckout key) k [].
Proof.
  intros Hk p R H. split; [|done]. unfold sound in *. cbn in *. rewrite <- !Permutation_middle.
  apply consistent_add_fact; [eauto|]. by apply consistent_add_fact.
Qed.

Lemma sound_settle t key r p R :
  sound p (match r with Ok (Conn c) => [Owns c Active (Some key)] | _ => [] end ++ R) ->
  sound (settle t key r p) R /\ calls (settle t key r p) = calls p.
Proof.
  unfold settle. destruct (outcomes p !! t) eqn:Et.
  { intros H. split; [|done]. eapply sound_sub; [|exact H]. by apply submseteq_inserts_l. }
  destruct r as [[|b|c]|e]; [done|done| |].
  - intros H. unfold sound in *. cbn in H. rewrite <- !Permutation_middle in H.
    destruct (consistent_known _ _ _ _ _ _ _ _ H) as (x & Hx & [id Hid] & Hkey). cbn in Hkey.
    unfold connection_at. rewrite Hx. cbn. rewrite Hid. split; [|done]. cbn.
    rewrite held_insert_claims by done. cbn. rewrite <- !Permutation_middle.
    eapply consistent_trade; [|exact H]. intros k Hk _ _. simplify_eq. done.
  - intros H. split; [|done]. unfold sound. cbn. rewrite held_insert_claims by done. exact H.
Qed.

Lemma sound_reject e p R : sound p R -> sound (rejectPendingCheckouts e p) R /\ calls (rejectPendingCheckouts e p) = calls p.
Proof.
  unfold rejectPendingCheckouts. intros H.
  assert (forall l q, sound q R -> calls q = calls p ->
    sound (foldl (fun p w => settle_checkout w (Throw e) p) q l) R /\
    calls (foldl (fun p w => settle_checkout w (Throw e) p) q l) = calls p) as Hl; [|by apply Hl].
  intros l. induction l as [|w l IH]; intros q Hq Hc; cbn; [done|].
  destruct (sound_settle (ticket w) (config_key (databaseConfig w)) (Throw e) q R Hq) as [H1 H2].
  apply IH; [done|]. by rewrite <- Hc.
Qed.

(** ** The drain *)

Lemma safe_resolve w c k : safe (resolvePendingCheckout w c) k [Owns c Raw (Some (config_key (databaseConfig w)))].
Proof. apply safe_await; [done|]. by apply safe_activate. Qed.

Lemma match_pending_spec before l p w rest c p' : match_pending before l p = Some (w, rest, c, p') ->
  takeIdleConnectionForReuseKey (config_key (databaseConfig w)) false p = Some (c, p') /\
  exists l1 l2, l = l1 ++ w :: l2 /\ rest = before ++ l1 ++ l2 /\
    Forall (fun x => takeIdleConnectionForReuseKey (config_key (databaseConfig x)) false p = None) l1.
Proof.
  revert before. induction l as [|x l IH]; intros before; cbn; [done|].
  destruct (takeIdleConnectionForReuseKey (config_key (databaseConfig x)) false p) as [[d q]|] eqn:E.
  - intros [= -> <- -> ->]. split; [done|]. by exists [], l.
  - intros H. destruct (IH _ H) as (H1 & l1 & l2 & -> & -> & H2). split; [done|].
    exists (x :: l1), l2. rewrite <- !app_assoc. auto.
Qed.

Lemma safe_resolveMatching k : safe resolvePendingCheckoutWithMatchingIdleConnection k [].
Proof.
  intros p R H. unfold resolvePendingCheckoutWithMatchingIdleConnection.
  destruct (match_pending _ _ _) as [[[[w rest] c] p']|] eqn:E; [|done].
  apply match_pending_spec in E as [E _]. destruct (sound_take _ _ _ _ _ _ E H) as [H1 H2].
  destruct (safe_await (resolvePendingCheckout w c) ReturnsTrue k
    [Owns c Raw (Some (config_key (databaseConfig w)))]) with (p := take_pending w rest p') (R := R) as [H3 H4];
    [done|apply safe_resolve|exact H1|]. split; [exact H3|]. rewrite H4. exact H2.
Qed.

Lemma safe_drainActual k : safe drainPendingCheckoutsActual k [].
Proof.
  intros p R H. unfold drainPendingCheckoutsActual. destruct (pendingCheckouts p); [done|].
  apply (safe_await resolvePendingCheckoutWithMatchingIdleConnection DrainMatched k []); [done| |done].
  apply safe_resolveMatching.
Qed.

Lemma safe_drain k : safe drainPendingCheckouts k [].
Proof.
  intros p R H. unfold drainPendingCheckouts. destruct (pendingCheckoutDrainPromise p); [done|].
  destruct (safe_await drainPendingCheckoutsActual (DrainFinally (next_drain p)) k []) with (p := p) (R := R) as [H1 H2];
    [done|apply safe_drainActual|done|].
  unfold await_then in *. destruct (drainPendingCheckoutsActual p) as [p' [w fs]]. done.
Qed.

Lemma safe_closeOne k : safe closeOneIdleConnectionForCapacity k [].
Proof.
  intros p R H. unfold closeOneIdleConnectionForCapacity. destruct (List.find _ _) as [c|]; [|done].
  destruct (safe_await (closeConnection c) ReturnsTrue k []) with
    (p := set_connections (List.filter (fun d => negb (bool_decide (d = c))) (connections p)) p) (R := R) as [H1 H2];
    [done|apply safe_close| |done].
  apply sound_fewer; [|done]. apply filter_submseteq'.
Qed.

Lemma safe_closeIdle ambient w k : safe (closeIdleConnectionForPendingCheckoutCapacity ambient w) k [].
Proof.
  intros p R H. unfold closeIdleConnectionForPendingCheckoutCapacity.
  destruct (findIdleConnectionForReuseKey _ _); [done|].
  by apply (safe_await (reapIdleConnections ambient) (CapacityReaped w) k []); [|apply safe_reap|].
Qed.

Lemma safe_idleFor ambient w k : safe (idleConnectionForPendingCheckout ambient w) (DrainIdle w :: k) [].
Proof.
  intros p R H. unfold idleConnectionForPendingCheckout.
  destruct (takeIdleConnectionForReuseKey _ _ _) as [[c p']|] eqn:E.
  - apply (sound_take _ _ _ _ _ _ E H).
  - by eapply (safe_await_fact (reapIdleConnections ambient) (IdleReaped w) (DrainIdle w :: k) []); [| |apply safe_reap|].
Qed.

Lemma safe_spawnFor w k : safe (spawnAndResolvePendingCheckout w) k [].
Proof. apply safe_await; [done|]. by apply safe_spawn. Qed.

(** ** Checking out and in *)

(** Running a computation after a change that keeps the calls. *)
Lemma safe_after m k l p q R : safe m k l -> calls q = calls p -> sound q (l ++ stack_claims k ++ R) ->
  sound (m q).1 (wait_claims (m q).2.1 ((m q).2.2 ++ k) ++ stack_claims ((m q).2.2 ++ k) ++ R) /\ calls (m q).1 = calls p.
Proof. intros Hm Hq H. destruct (Hm q R H) as [H1 H2]. split; [done|congruence]. Qed.

Lemma safe_wait t cfg k : safe (waitForCheckout t cfg) k [].
Proof.
  intros p R H. unfold waitForCheckout. eapply safe_after; [apply safe_await; [|apply safe_drain]| |]; done.
Qed.

Lemma safe_take_activate key b p c p' f k R :
  takeIdleConnectionForReuseKey key b p = Some (c, p') -> frame_claims f k = [] -> key_of (f :: k) = Some key ->
  returned_claims c (f :: k) = [Owns c Active (Some key)] ->
  sound p (stack_claims k ++ R) ->
  let m := await_then (activateConnection c) f in
  sound (m p').1 (wait_claims (m p').2.1 ((m p').2.2 ++ k) ++ stack_claims ((m p').2.2 ++ k) ++ R) /\ calls (m p').1 = calls p.
Proof.
  intros E Hf Hk Hr H m. destruct (sound_take _ _ _ _ _ _ E H) as [H1 H2].
  apply safe_after with (l := [Owns c Raw (Some key)]); [|done|done].
  apply safe_await; [done|]. rewrite <- Hk. apply safe_activate. by rewrite Hk.
Qed.

Lemma safe_checkout t cfg cfg' k : safe (checkout t cfg cfg') k [].
Proof.
  intros p R H. unfold checkout. destruct (takeIdleConnectionForReuseKey _ _ _) as [[c p']|] eqn:E.
  - by apply (safe_take_activate _ _ _ _ _ _ _ _ E).
  - by apply (safe_await (reapIdleConnections cfg) (CheckoutReaped t cfg') k []); [|apply safe_reap|].
Qed.

Lemma safe_checkout_reaped t cfg k : safe (checkout_reaped t cfg) k [].
Proof.
  intros p R H. unfold checkout_reaped. destruct (takeIdleConnectionForReuseKey _ _ _) as [[c p']|] eqn:E.
  - by apply (safe_take_activate _ _ _ _ _ _ _ _ E).
  - destruct (canSpawnConnection cfg p); [|by apply (safe_wait t cfg k)].
    by apply (safe_await (spawnConnectionForCheckout (config_key cfg)) (CheckoutSpawned t (config_key cfg)) k []);
      [|apply safe_spawn|].
Qed.

Lemma sound_untrack p c id key R p' : untrackConnectionInUse c (Some id) p = Some p' ->
  sound p (Owns c (Id id) key :: R) -> sound p' (Owns c Raw key :: R) /\ calls p' = calls p.
Proof.
  intros [= <-] H. split; [|done]. unfold sound in *. cbn. rewrite <- !Permutation_middle in *.
  by apply consistent_untrack.
Qed.

Lemma sound_drop p x R : sound p (x :: R) -> sound p R.
Proof. apply sound_sub. by apply submseteq_cons. Qed.

Lemma sound_known p c md key R : sound p (Owns c md key :: R) ->
  exists k, heap p !! c = Some k /\ mode_ok md (id_seq k) /\ (forall s, key = Some s -> reuse_key k = Some s).
Proof. unfold sound. rewrite <- !Permutation_middle. apply consistent_known. Qed.

Lemma safe_checkin c id key k : safe (checkin c) k [Owns c (Id id) key].
Proof.
  intros p R H. unfold checkin, connection_at.
  destruct (sound_known _ _ _ _ _ H) as (x & Hx & Hid & _). cbn in Hid. rewrite Hx, Hid.
  destruct (closed_connection x).
  - cbn [untrackConnectionInUse].
    destruct (sound_untrack p c id key _ _ eq_refl H) as [H1 H2].
    eapply safe_after; [apply (safe_await drainPendingCheckouts ReturnsNothing k []); [done|apply safe_drain]|done|].
    by eapply sound_drop.
  - split; [|done]. unfold sound in *. cbn in *. rewrite <- !Permutation_middle in *.
    eapply consistent_trade; [|exact H]. by intros k' ? ? ?.
Qed.

Lemma safe_checkin_cleaned c id k : safe (checkin_cleaned c (Some id)) k [Owns c (Id id) None].
Proof.
  intros p R H. unfold checkin_cleaned. destruct (untrackConnectionInUse c (Some id) p) as [q|] eqn:E; [|done].
  destruct (sound_untrack p c id None _ _ E H) as [H1 H2].
  destruct (bool_decide _).
  - split; [|done]. by eapply sound_drop.
  - eapply safe_after; [apply (safe_await drainPendingCheckouts (CheckinDrained c) k []); [done|apply safe_drain]|done|].
    unfold sound. cbn. apply consistent_alter; [done|].
    eapply consistent_sub; [|exact H1]. unfold idle_claims. rewrite map_app, <- app_assoc. apply submseteq_app; [done|].
    cbn. by rewrite Permutation_middle.
Qed.

Lemma safe_checkin_failed c id e k : safe (checkin_failed c (Some id) e) k [Owns c (Id id) None].
Proof.
  intros p R H. unfold checkin_failed. destruct (untrackConnectionInUse c (Some id) p) as [q|] eqn:E; [|done].
  destruct (sound_untrack p c id None _ _ E H) as [H1 H2].
  eapply safe_after; [apply (safe_await (closeConnection c) (CheckinFailedClosed e) k []); [done|apply safe_close]|done|].
  by eapply sound_drop.
Qed.

Lemma safe_discard c id key k : safe (discard c) k [Owns c (Id id) key].
Proof.
  intros p R H. unfold discard, connection_at.
  destruct (sound_known _ _ _ _ _ H) as (x & Hx & Hid & _). cbn in Hid. rewrite Hx, Hid. cbn [untrackConnectionInUse].
  destruct (sound_untrack p c id key _ _ eq_refl H) as [H1 H2].
  eapply safe_after; [apply (safe_await (closeConnection c) DiscardClosed k []); [done|apply safe_close]|done|].
  by eapply sound_drop.
Qed.

Lemma safe_handleCheckedIn ambient k : safe (handleCheckedInIdleConnection ambient) k [].
Proof.
  intros p R H. unfold handleCheckedInIdleConnection.
  assert (sound (scheduleIdleConnectionReaper ambient p) (stack_claims k ++ R) /\
          calls (scheduleIdleConnectionReaper ambient p) = calls p) as Hs.
  { unfold scheduleIdleConnectionReaper.
    by destruct (idleConnectionReaperTimer p), (connections p) eqn:?, (idleTimeoutMillis ambient). }
  destruct (idleTimeoutMillis ambient) as [q|]; [|done].
  destruct (QArith_base.Qeq_bool q _); [by apply safe_reap|done].
Qed.

Lemma safe_closeAll_next cs k : safe (closeAll_next cs) k [].
Proof. destruct cs; [apply safe_ok|]. apply safe_await; [done|]. apply safe_close. Qed.

Lemma safe_closeAll k : ~ registered -> safe closeAll k [].
Proof.
  intros Hr p R H. unfold closeAll.
  destruct (sound_reject PoolClosed (set_timer None p) (stack_claims k ++ R)) as [H1 H2]; [exact H|].
  eapply safe_after; [apply safe_closeAll_next|exact H2|].
  unfold sound in *. cbn. eapply consistent_no_use; [done|]. eapply consistent_sub; [|exact H1].
  by apply submseteq_inserts_l.
Qed.

(** ** Frames *)

Lemma sound_fact p (P : Prop) l : sound p (Fact P :: l) -> P /\ sound p l.
Proof. unfold sound. rewrite <- !Permutation_middle. apply consistent_fact. Qed.

Lemma safe_nothing m k l : safe m k [] -> safe m k l.
Proof. intros H. eapply safe_sub; [|exact H]. apply submseteq_nil_l. Qed.

(** A frame that settles the promise of a caller. *)
Lemma safe_settle t key r k :
  safe (fun p => ok (settle t key r p)) k (match r with Ok (Conn c) => [Owns c Active (Some key)] | _ => [] end).
Proof. intros p R H. exact (sound_settle t key r p _ H). Qed.

Lemma safe_reject e k : safe (fun p => ok (rejectPendingCheckouts e p)) k [].
Proof. intros p R H. exact (sound_reject e p _ H). Qed.

Lemma safe_drain_frame ambient f r k :
  match f with DrainMatched | DrainCapacity _ | CapacityReaped _ | DrainIdle _ | IdleReaped _ | DrainContinue => True | _ => False end ->
  safe (run_drain_frame ambient f r) k (result_claims (Ok r) (f :: k) ++ frame_claims f k).
Proof.
  intros Hf. destruct f; try done; cbn [run_drain_frame].
  - (* DrainMatched *)
    apply safe_nothing. assert (safe (fun p => match pendingCheckouts p with
      | [] => (p, (Settled (Throw TypeErrorUndefined), []))
      | w :: _ => await_then (closeIdleConnectionForPendingCheckoutCapacity ambient w) (DrainCapacity w) p end) k []) as H.
    { intros p R H. destruct (pendingCheckouts p) as [|w ?]; [done|].
      by apply (safe_await (closeIdleConnectionForPendingCheckoutCapacity ambient w) (DrainCapacity w) k []);
        [|apply safe_closeIdle|]. }
    destruct r as [|[]|]; [done|apply safe_drainActual|done|done].
  - (* DrainCapacity *)
    apply safe_nothing. match goal with |- safe match r with _ => _ end _ _ => idtac end.
    assert (safe (fun p =>
          if negb (includes w (pendingCheckouts p)) then drainPendingCheckoutsActual p else
          if canSpawnConnection (databaseConfig w) p
          then await_then (spawnAndResolvePendingCheckout w) DrainContinue (take_pending w (drop 1 (pendingCheckouts p)) p)
          else await_then (idleConnectionForPendingCheckout ambient w) (DrainIdle w) p) k []) as H.
    { intros p R H. destruct (negb _); [by apply safe_drainActual|]. destruct (canSpawnConnection _ _).
      - by eapply safe_after; [apply (safe_await (spawnAndResolvePendingCheckout w) DrainContinue k []);
          [done|apply safe_spawnFor]| |].
      - by apply (safe_await (idleConnectionForPendingCheckout ambient w) (DrainIdle w) k []); [|apply safe_idleFor|]. }
    destruct r as [|[]|]; [done|apply safe_drainActual|done|done].
  - (* CapacityReaped *)
    intros p R H. cbn in H. apply (sound_sub _ _ (stack_claims k ++ R)) in H; [|by apply submseteq_inserts_l].
    destruct (findIdleConnectionForReuseKey _ _); [done|]. destruct (canSpawnConnection _ _); [done|]. by apply safe_closeOne.
  - (* DrainIdle *)
    intros p R H. destruct (negb _).
    { apply safe_drainActual. eapply sound_sub; [|exact H]. by apply submseteq_inserts_l. }
    destruct r as [| |c]; [done|done|].
    by eapply safe_after; [apply (safe_await (resolvePendingCheckout w c) DrainContinue k); [done|apply safe_resolve]| |].
  - (* IdleReaped *)
    intros p R H. cbn in H.
    assert (result_claims (Ok r) (IdleReaped w :: k) = []) as Hr by (by destruct r).
    cbn in Hr. rewrite Hr in H. cbn in H. apply sound_fact in H as [Hk H].
    destruct (negb _); [done|]. destruct (takeIdleConnectionForReuseKey _ _ _) as [[c p']|] eqn:E; [|done].
    destruct (sound_take _ _ _ _ _ _ E H) as [H1 H2]. split; [|done]. cbn. by rewrite Hk.
  - (* DrainContinue *)
    apply safe_nothing. apply safe_drainActual.
Qed.

Lemma safe_run_frame ambient f r k : safe (run_frame ambient f r) k (result_claims r (f :: k) ++ frame_claims f k).
Proof.
  destruct f.
  - (* Activating *)
    intros p R H. replace (result_claims r (Activating c id :: k)) with (@nil claim) in H by (by destruct r as [[]|]).
    cbn in H. apply sound_fact in H as [Hk H]. destruct r as [v|e].
    + split; [|done]. unfold sound in *. cbn. rewrite Hk. cbn. rewrite <- !Permutation_middle in *.
      eapply consistent_trade; [|exact H]. intros x Hx Hm Hs. cbn in *. split; [by eexists|done].
    + destruct (sound_untrack p c id (key_of k) _ _ eq_refl H) as [H1 H2]. cbn [run_frame].
      eapply safe_after; [apply (safe_await (closeConnection c) (Rethrow e) k []); [done|apply safe_close]|done|].
      by eapply sound_drop.
  - apply safe_nothing. destruct r; apply safe_returns.
  - (* ClosingFirst *)
    intros p R H. split; [|done]. cbn in H. rewrite app_nil_r in H. destruct r as [[]|]; exact H.
  - destruct r; apply safe_nothing; [apply safe_closeExpired|apply safe_returns].
  - destruct r; apply safe_nothing; [|apply safe_returns]. apply safe_await; [done|]. apply safe_awaitInflight.
  - destruct r; apply safe_nothing; [|apply safe_returns]. intros p R H. cbn [run_frame].
    unfold scheduleIdleConnectionReaper.
    by destruct (idleConnectionReaperTimer p), (connections p) eqn:?, (idleTimeoutMillis ambient).
  - destruct r; apply safe_nothing; [apply safe_checkout_reaped|]. apply (safe_settle t (config_key cfg) (Throw e)).
  - (* Spawning *)
    intros p R H. destruct r as [[|b|c]|e]; cbn in H.
    + apply sound_fact in H as [_ H]. done.
    + apply sound_fact in H as [_ H]. done.
    + assert (sound p (Fact (forall c, returned_claims c k = [Owns c Raw (Some key)]) :: Owns c Raw None :: stack_claims k ++ R)) as H'.
      { eapply sound_sub; [|exact H]. apply Permutation_submseteq, Permutation_swap. }
      apply sound_fact in H' as [Hk H']. split; [|done]. unfold sound in *. cbn. rewrite Hk. cbn.
      rewrite <- !Permutation_middle in *. by eapply consistent_stamp.
    + apply sound_fact in H as [_ H]. done.
  - (* CheckoutSpawned *)
    cbn [frame_claims]. rewrite app_nil_r.
    destruct r as [[|b|c]|e]; [apply (safe_settle t key (Ok Undefined))|apply (safe_settle t key (Ok (Bool b)))|
      |apply (safe_settle t key (Throw e))].
    apply safe_await; [done|]. by apply safe_activate.
  - cbn [frame_claims]. rewrite app_nil_r. destruct r as [[|b|c]|e]; apply safe_settle.
  - (* DrainCatch *)
    cbn [frame_claims]. rewrite app_nil_r. destruct r as [v|e]; [exact (safe_returns (Ok v) k)|apply safe_reject].
  - intros p R H. split; [|done]. cbn in H. rewrite app_nil_r in H. destruct r as [[]|]; exact H.
  - destruct r as [r|e]; [by apply safe_drain_frame|]. apply safe_nothing, safe_returns.
  - destruct r as [r|e]; [by apply safe_drain_frame|]. apply safe_nothing, safe_returns.
  - destruct r as [r|e]; [by apply safe_drain_frame|]. apply safe_nothing, safe_returns.
  - destruct r as [r|e]; [by apply safe_drain_frame|]. apply safe_nothing, safe_returns.
  - destruct r as [r|e]; [by apply safe_drain_frame|]. apply safe_nothing, safe_returns.
  - destruct r as [r|e]; [by apply safe_drain_frame|]. apply safe_nothing, safe_returns.
  - (* SpawnedFor *)
    cbn [frame_claims]. rewrite app_nil_r.
    destruct r as [[|b|c]|e]; [apply (safe_settle _ _ (Ok Undefined))|apply (safe_settle _ _ (Ok (Bool b)))|
      |apply (safe_settle _ _ (Throw e))].
    apply safe_resolve.
  - cbn [frame_claims]. rewrite app_nil_r. destruct r as [[|b|c]|e]; apply safe_settle.
  - destruct r; [apply safe_nothing, (safe_returns (Ok (Bool true)))|apply safe_nothing, safe_returns].
  - destruct r; [apply safe_nothing, safe_ok|apply safe_nothing, safe_returns].
  - (* CheckinCleaned *)
    destruct id as [id|].
    + replace (result_claims r (CheckinCleaned c (Some id) :: k)) with (@nil claim) by (by destruct r as [[]|]).
      destruct r; [apply safe_checkin_cleaned|apply safe_checkin_failed].
    + destruct r; apply safe_nothing, safe_returns.
  - destruct r; apply safe_nothing; [|apply safe_returns]. intros p R H. cbn [run_frame].
    destruct (bool_decide _); [by apply safe_handleCheckedIn|done].
  - destruct r; apply safe_nothing; apply safe_await; try done; apply safe_drain.
  - destruct r; apply safe_nothing; apply safe_returns.
  - destruct r; apply safe_nothing; apply safe_await; try done; apply safe_drain.
  - cbn [frame_claims]. rewrite app_nil_r. destruct e; [destruct r; apply safe_nothing, safe_returns|].
    exact (safe_returns r k).
  - destruct r; apply safe_nothing; [apply safe_closeAll_next|apply safe_returns].
Qed.

(** ** Steps *)

Definition all_claims (l : list (config * suspended)) : list claim := l ≫= fun x => call_claims x.2.

Definition well_owned (p : pool) : Prop := sound p (all_claims (calls p)).

Lemma all_claims_delete l i x : l !! i = Some x -> all_claims l ≡ₚ call_claims x.2 ++ all_claims (delete i l).
Proof. intros H. unfold all_claims. rewrite (delete_Permutation l i x H) at 1. done. Qed.

Lemma delete_insert_same {A} (l : list A) i y : delete i (<[i := y]> l) = delete i l.
Proof. revert i. induction l as [|x l IH]; intros [|i]; cbn; [done..|]. f_equal. apply IH. Qed.

Lemma all_claims_insert l i x y : l !! i = Some x -> all_claims (<[i := y]> l) ≡ₚ call_claims y.2 ++ all_claims (delete i l).
Proof.
  intros H. assert (<[i := y]> l !! i = Some y) as Hy.
  { apply list_lookup_insert_eq. by eapply lookup_lt_Some. }
  by rewrite (all_claims_delete _ _ _ Hy), delete_insert_same.
Qed.

Lemma sound_wait_result w driver p r q fs R : wait_result w driver p = Some (r, q) ->
  sound p (call_claims (w, fs) ++ R) -> sound q (result_claims r fs ++ stack_claims fs ++ R) /\ calls q = calls p.
Proof.
  unfold call_claims. cbn [fst snd]. rewrite <- app_assoc. intros H HR.
  destruct w as [r'|c|c| |c|cs|d]; cbn in H.
  - by injection H as <- <-.
  - destruct driver; by injection H as <- <-.
  - destruct driver; by injection H as <- <-.
  - cbn in HR. apply sound_fact in HR as [(key & fs' & ->) HR].
    destruct driver; injection H as <- <-; [|done]. split; [|done].
    unfold sound in *. cbn in *. rewrite <- !Permutation_middle in *. by apply consistent_new.
  - destruct (connection_at c p ≫= close_promise) as [[[]|]|]; by simplify_eq.
  - destruct (forallb _ _); by simplify_eq.
  - destruct (drains p !! d) as [[e|]|]; by simplify_eq.
Qed.

Lemma well_owned_resume i driver p p' : resume i driver p = Some p' -> well_owned p -> well_owned p'.
Proof.
  unfold resume, well_owned. destruct (calls p !! i) as [[ambient [w fs]]|] eqn:Ei; [|done].
  destruct (wait_result w driver p) as [[r q]|] eqn:Ew; [|done]. intros H HR.
  rewrite (all_claims_delete _ _ _ Ei) in HR. destruct (sound_wait_result _ _ _ _ _ _ _ Ew HR) as [Hq Hc].
  destruct fs as [|f fs].
  - injection H as <-. cbn. rewrite Hc. eapply sound_sub; [|exact Hq]. by apply submseteq_inserts_l.
  - destruct (safe_run_frame ambient f r fs q (all_claims (delete i (calls p)))) as [H1 H2].
    { rewrite <- app_assoc. cbn [stack_claims] in Hq. by rewrite <- app_assoc in Hq. }
    destruct (run_frame ambient f r q) as [q' [w' gs]]. injection H as <-. cbn in *.
    unfold sound in *. cbn. rewrite H2, Hc, (all_claims_insert _ _ _ _ Ei).
    unfold call_claims. cbn. by rewrite <- app_assoc.
Qed.

Lemma well_owned_start ambient m l p : safe m [] l -> sound p (l ++ all_claims (calls p)) -> well_owned (start ambient m p).
Proof.
  intros Hm H. destruct (Hm p (all_claims (calls p)) H) as [H1 H2]. unfold start, well_owned.
  destruct (m p) as [q [w fs]]. cbn in *. unfold sound in *. cbn. rewrite H2. unfold all_claims in *.
  rewrite bind_app. cbn. unfold call_claims. cbn. rewrite !app_nil_r in *.
  by rewrite (Permutation_app_comm (calls p ≫= _)), <- app_assoc.
Qed.

Lemma sound_ends t c id key p l : outcomes p !! t = Some (Holding c id key) ->
  sound p l -> sound (end_use t p) (Owns c (Id id) (Some key) :: l).
Proof.
  intros Ht H. unfold sound in *. cbn. rewrite (held_end _ _ _ Ht) in H. cbn in H. by rewrite <- !Permutation_middle in *.
Qed.

Definition closes_pool (a : action) : bool := match a with CloseAll _ => true | _ => false end.

Lemma well_owned_perform a p p' : (registered -> closes_pool a = false) -> perform a p = Some p' -> well_owned p -> well_owned p'.
Proof.
  intros Hr Ha H. destruct a as [cfg cfg'|ambient t|ambient t|t n|i driver|c s|h| |ms|ambient]; cbn in Ha.
  - injection Ha as <-. by apply well_owned_start with (l := []); [apply safe_checkout|].
  - destruct (outcomes p !! t) as [[c id key| |]|] eqn:Et; try done. injection Ha as <-.
    eapply well_owned_start; [apply safe_checkin|]. by eapply sound_ends.
  - destruct (outcomes p !! t) as [[c id key| |]|] eqn:Et; try done. injection Ha as <-.
    eapply well_owned_start; [apply safe_discard|]. by eapply sound_ends.
  - destruct (outcomes p !! t) as [[c id key| |]|] eqn:Et; try done. injection Ha as <-.
    by apply consistent_alter.
  - by eapply well_owned_resume.
  - unfold close_settles in Ha. destruct (_ ≫= _) as [[|]|]; try done. injection Ha as <-. by apply consistent_alter.
  - destruct (_ ≫= _) as [q|]; [|done]. destruct (QArith_base.Qle_bool _ _); [|done]. injection Ha as <-.
    unfold timeoutPendingCheckout. destruct (take_first _ _) as [[w rest]|]; [|done].
    destruct (sound_settle (ticket w) (config_key (databaseConfig w)) (Throw TimedOut) (set_pending rest p) (all_claims (calls p)) H)
      as [H1 H2]. unfold well_owned. unfold settle_checkout. by rewrite H2.
  - destruct (idleConnectionReaperTimer p) as [[due cfg]|]; [|done]. destruct (QArith_base.Qle_bool _ _); [|done].
    injection Ha as <-. by apply well_owned_start with (l := []); [apply safe_reap|].
  - by injection Ha as <-.
  - injection Ha as <-. apply well_owned_start with (l := []); [|done]. apply safe_closeAll. by intros ?%Hr.
Qed.

Lemma well_owned_new : well_owned new_pool.
Proof.
  unfold well_owned, sound. cbn. split; cbn; try (by intros ? ?; rewrite lookup_empty); try done.
  - constructor.
Qed.
End claims.

(** The claims of a pool that may have been closed. *)
Lemma well_owned_reachable p : rtc step new_pool p -> well_owned False p.
Proof.
  assert (forall q, rtc step q p -> well_owned False q -> well_owned False p) as H.
  { intros q. induction 1 as [|q q' p [a Ha] _ IH]; [done|]. intros Hq. apply IH. by eapply well_owned_perform. }
  intros Hp. eapply H; [done|apply well_owned_new].
Qed.

(** ** One holder, the right database, the right connection *)

Lemma held_claim m t c id key : m !! t = Some (Holding c id key) -> Owns c (Id id) (Some key) ∈ held_claims m.
Proof.
  intros H. unfold held_claims. apply list_elem_of_bind. exists (t, Holding c id key). split; [|by apply elem_of_map_to_list].
  by apply list_elem_of_singleton.
Qed.

Lemma held_split registered p t c id key : well_owned registered p -> outcomes p !! t = Some (Holding c id key) ->
  consistent registered (heap p) (connectionsInUse p) (idSeq p) (next_connection p)
    (Owns c (Id id) (Some key) :: idle_claims (connections p) ++ held_claims (delete t (outcomes p)) ++ all_claims (calls p)).
Proof.
  unfold well_owned, sound. intros H Ht. rewrite (held_delete_claims _ _ _ Ht) in H. cbn in H.
  by rewrite <- !Permutation_middle in H.
Qed.

Lemma owned_elem c md key l : Owns c md key ∈ l -> c ∈ owned l.
Proof. intros H. apply list_elem_of_omap. by eexists. Qed.

(** What the two theorems below say, for the proofs that use them. *)
Lemma held_is_not_idle p t c id key :
  rtc step new_pool p -> outcomes p !! t = Some (Holding c id key) -> ~ c ∈ connections p.
Proof.
  intros Hp Ht Hin. destruct (held_split _ _ _ _ _ _ (well_owned_reachable p Hp) Ht) as [H _ _ _ _ _ _].
  cbn in H. apply NoDup_cons in H as [H _]. apply H. rewrite owned_app, elem_of_app. left.
  apply (owned_elem c Raw None). by apply list_elem_of_fmap_2' with c.
Qed.

Lemma held_is_known p t c id key :
  rtc step new_pool p -> outcomes p !! t = Some (Holding c id key) ->
  exists k, connection_at c p = Some k /\ reuse_key k = Some key /\ id_seq k = Some id.
Proof.
  intros Hp Ht. destruct (consistent_known _ _ _ _ _ _ _ _ _ (held_split _ _ _ _ _ _ (well_owned_reachable p Hp) Ht)) as (k & Hk & Hid & Hkey).
  exists k. auto.
Qed.

(** C35: A connection the pool has given out belongs to its caller alone until the caller gives
    it back, whatever calls are suspended and in whatever order they go on: it is not among the
    idle connections, no other caller holds it, and no suspended call has it in hand, to
    activate, to reuse or to give it to a waiting checkout. *)
Theorem connections_have_one_holder p t c id key :
  rtc step new_pool p -> outcomes p !! t = Some (Holding c id key) ->
  (c ∉ connections p) /\
  (forall t' id' key', outcomes p !! t' = Some (Holding c id' key') -> t' = t) /\
  (forall ambient w fs, (ambient, (w, fs)) ∈ calls p -> c ∉ owned (call_claims (w, fs))).
Proof.
  intros Hp Ht. destruct (held_split _ _ _ _ _ _ (well_owned_reachable p Hp) Ht) as [H _ _ _ _ _ _].
  cbn in H. apply NoDup_cons in H as [H _]. rewrite !owned_app, !not_elem_of_app in H. destruct H as (Hi & Hh & Hc).
  split; [|split].
  - intros Hin. apply Hi, (owned_elem c Raw None). by apply list_elem_of_fmap_2' with c.
  - intros t' id' key' Ht'. destruct (decide (t' = t)) as [|Hne]; [done|]. exfalso. apply Hh.
    apply (owned_elem c (Id id') (Some key')), (held_claim _ t'). rewrite lookup_delete_ne; [done|]. by intros <-.
  - intros ambient w fs Hin Hc'. apply Hc. apply list_elem_of_omap in Hc' as (x & Hx & Hcx).
    apply list_elem_of_omap. exists x. split; [|done]. apply list_elem_of_bind. by exists (ambient, (w, fs)).
Qed.

(** The connection a caller holds is of the database it asked for (its reuse key is the one
    of the configuration the checkout resolved), it still has the id its async context got, and
    looking the current connection up by that id gives this connection or, once the pool was
    closed, an error: never the connection of another caller. *)
Lemma current_connection_is_own p t c id key :
  rtc step new_pool p -> outcomes p !! t = Some (Holding c id key) ->
  (exists k, connection_at c p = Some k /\ reuse_key k = Some key /\ id_seq k = Some id) /\
  (forall c', getCurrentConnection (Some id) p = Ok c' -> c' = c).
Proof.
  intros Hp Ht. pose proof (held_split _ _ _ _ _ _ (well_owned_reachable p Hp) Ht) as H.
  destruct (consistent_known _ _ _ _ _ _ _ _ _ H) as (k & Hk & Hid & Hkey). split.
  - exists k. auto.
  - intros c' Hc. cbn in Hc. destruct (connectionsInUse p !! id) as [d|] eqn:Hc'; [|done]. injection Hc as ->.
    destruct (co_in_use _ _ _ _ _ _ H id c' Hc') as (k' & Hk' & Hid').
    by eapply (co_inj _ _ _ _ _ _ H).
Qed.

(** ** Runs *)

Lemma actions_steps actions p q : run actions p = Some q -> rtc step p q.
Proof.
  revert p. induction actions as [|a actions IH]; intros p; cbn; [by intros [= ->]|].
  destruct (perform a p) as [p'|] eqn:E; [|done]. intros H. eapply rtc_l; [by exists a|]. by apply IH.
Qed.

Definition after (actions : list action) : pool := default new_pool (run actions new_pool).

(** A configuration of a database with a maximum, the other settings being the defaults. *)
Definition configured (key : string) (max : Z) : config := Build_config key (of_Z max) JsUndefined JsUndefined.

(** The call goes on that many times; the driver succeeds. *)
Definition goes_on (call times : nat) : list action := repeat (ResumeCall call true) times.

(** A caller gets the first connection. *)
Definition checked_out (cfg : config) : list action := Checkout cfg cfg :: goes_on 0 6.

(** Two callers wait for the only connection; its holder ends, and so does the next one. *)
Definition passed_on : list action :=
  let cfg := configured "a" 1 in
  checked_out cfg ++ (Checkout cfg cfg :: goes_on 0 9) ++ (Checkout cfg cfg :: goes_on 0 9) ++
  (CallbackEnds cfg 0 :: goes_on 0 13) ++ (CallbackEnds cfg 1 :: goes_on 0 8).

Lemma connections_have_one_holder_witness :
  run passed_on new_pool = Some (after passed_on) /\
  outcomes (after passed_on) !! 1%nat = Some Ended /\ outcomes (after passed_on) !! 2%nat = Some (Holding 0 2 "a") /\
  ~ (0%nat ∈ connections (after passed_on)).
Proof.
  assert (run passed_on new_pool = Some (after passed_on)) as Hr by (vm_compute; reflexivity).
  assert (outcomes (after passed_on) !! 2%nat = Some (Holding 0 2 "a")) as H2 by (vm_compute; reflexivity).
  destruct (connections_have_one_holder _ _ _ _ _ (actions_steps _ _ _ Hr) H2) as (H & _ & _).
  split; [exact Hr|]. split; [vm_compute; reflexivity|]. split; [exact H2|exact H].
Defined.

(** The connection waited for is the one with the id of the new caller; the id of the first
    holder gives nothing any more. *)
Lemma current_connection_is_own_witness :
  run passed_on new_pool = Some (after passed_on) /\
  getCurrentConnection (Some 2%nat) (after passed_on) = Ok 0%nat /\
  getCurrentConnection (Some 0%nat) (after passed_on) = Throw (NotCheckedOut 0) /\
  exists k, connection_at 0 (after passed_on) = Some k /\ reuse_key k = Some "a"%string /\ id_seq k = Some 2%nat.
Proof.
  assert (run passed_on new_pool = Some (after passed_on)) as Hr by (vm_compute; reflexivity).
  assert (outcomes (after passed_on) !! 2%nat = Some (Holding 0 2 "a")) as H2 by (vm_compute; reflexivity).
  destruct (current_connection_is_own _ _ _ _ _ (actions_steps _ _ _ Hr) H2) as [H _].
  split; [exact Hr|]. split; [vm_compute; reflexivity|]. split; [vm_compute; reflexivity|exact H].
Defined.

(** ** What the interleavings allow *)

(** A caller waits for the only connection while its holder gives it back in the last steps of
    a drain: the drain that the check-in asks for is the one that has just looked. Everything
    has ended, the connection is idle, and the caller still waits for a connection like it. *)
Example wakeup_is_missed :
  let cfg := configured "a" 1 in
  let p := after (checked_out cfg ++ [Checkout cfg cfg; CallbackEnds cfg 0] ++ goes_on 0 5 ++ goes_on 1 1 ++ goes_on 0 6) in
  connections p = [0%nat] /\ map ticket (pendingCheckouts p) = [1%nat] /\ calls p = [] /\
  findIdleConnectionForReuseKey "a" p = Some 0%nat.
Proof. vm_compute. done. Qed.

(** A connection is being cleaned when the pool is closed: it goes back to the idle ones after
    it was closed, and the next caller gets it. *)
Example closed_connection_is_handed_out :
  let cfg := configured "a" 1 in
  let p := after (checked_out cfg ++ [CallbackEnds cfg 0; CloseAll cfg; CloseSettles 0 Fulfilled] ++ goes_on 0 4 ++
    [Checkout cfg cfg] ++ goes_on 1 2) in
  outcomes p !! 1%nat = Some (Holding 0 1 "a") /\ option_map closed_connection (connection_at 0 p) = Some true.
Proof. vm_compute. done. Qed.

(** Two idle connections have expired and closing the first fails: the second one is neither
    closed nor in the pool any more, and the caller who only wanted a connection to another
    database gets the error. *)
Example failed_close_forgets_the_rest :
  let cfg := configured "a" 2 in
  let p := after (checked_out cfg ++ checked_out cfg ++ (CallbackEnds cfg 0 :: goes_on 0 4) ++ (CallbackEnds cfg 1 :: goes_on 0 4) ++
    [Wait 5000; Checkout (configured "b" 2) (configured "b" 2); CloseSettles 0 Rejected] ++ goes_on 0 5) in
  outcomes p !! 2%nat = Some (Failed DriverError) /\ calls p = [] /\ connections p = [] /\
  option_map closed_connection (connection_at 1 p) = Some false.
Proof. vm_compute. done. Qed.

(** The drain has just taken a connection for a waiting checkout when the pool is closed: the
    connection is dropped, open and in no list. *)
Example connection_in_hand_is_dropped :
  let cfg := configured "a" 1 in
  let p := after (checked_out cfg ++ [Checkout cfg cfg; CallbackEnds cfg 0] ++ goes_on 0 3 ++ goes_on 1 1 ++ goes_on 0 1 ++
    [CloseAll cfg] ++ goes_on 0 7) in
  calls p = [] /\ connections p = [] /\ connectionsInUse p = ∅ /\ option_map closed_connection (connection_at 0 p) = Some false.
Proof. vm_compute. done. Qed.
