(* ===== verification/ConnectionPoolQueue.v ===== *)
(** * Waiting checkouts are served in the order in which they arrived

    The waiting checkouts of one database configuration are served first come, first served,
    through the loop of the drain with its waits: between the waits of a drain, checkouts may
    time out, arrive, or be rejected, and the one the drain is working for is still the first
    of the queue if it is there at all. *)

From stdpp Require Import base strings gmap list sorting relations.
From S2P Require Import Prelude ConnectionPool ConnectionPoolCorrect.

(** ** The queue *)

Definition key_for (w : pending_checkout) : string := config_key (databaseConfig w).

Definition arrived_before (a b : pending_checkout) : Prop := (handle a < handle b)%nat.

Definition before_of_same_key (a b : pending_checkout) : Prop := key_for a = key_for b -> arrived_before a b.

Record queue_ok (p : pool) : Prop := {
  queue_sorted : StronglySorted arrived_before (pendingCheckouts p);
  queue_served : StronglySorted before_of_same_key (served p ++ pendingCheckouts p);
  queue_old : Forall (fun w => (handle w < next_checkout p)%nat) (served p ++ pendingCheckouts p)
}.

Definition first_if_waiting (p : pool) (w : pending_checkout) : Prop :=
  (handle w < next_checkout p)%nat /\ (includes w (pendingCheckouts p) = true -> head (pendingCheckouts p) = Some w).

Definition frame_ok (p : pool) (f : frame) : Prop :=
  match f with
  | DrainCapacity w | CapacityReaped w | DrainIdle w | IdleReaped w => first_if_waiting p w
  | _ => True
  end.

Definition evolves (p q : pool) : Prop :=
  calls q = calls p /\
  (queue_ok p -> queue_ok q /\ forall w, first_if_waiting p w -> first_if_waiting q w).

#[export] Instance evolves_refl : Reflexive evolves.
Proof. by split. Qed.

#[export] Instance evolves_trans : Transitive evolves.
Proof.
  intros p q r [H1 H2] [H3 H4]. split; [congruence|]. intros H. destruct (H2 H) as [Hq Hw]. destruct (H4 Hq) as [Hr Hw'].
  split; auto.
Qed.

Lemma evolves_same p q : calls q = calls p -> pendingCheckouts q = pendingCheckouts p -> served q = served p ->
  next_checkout q = next_checkout p -> evolves p q.
Proof.
  intros Hc Hp Hs Hn. split; [done|]. intros [H1 H2 H3]. split.
  - split; rewrite ?Hp, ?Hs, ?Hn; done.
  - intros w. unfold first_if_waiting. by rewrite Hp, Hn.
Qed.

Lemma frame_ok_evolves p q f : queue_ok p -> evolves p q -> frame_ok p f -> frame_ok q f.
Proof. intros Hp [_ H]. destruct (H Hp) as [_ Hw]. destruct f; cbn; auto. Qed.

Lemma sorted_remove {A} (R : A -> A -> Prop) l1 x l2 : StronglySorted R (l1 ++ x :: l2) -> StronglySorted R (l1 ++ l2).
Proof.
  induction l1 as [|y l1 IH]; cbn.
  - by intros [H _]%StronglySorted_inv.
  - intros [H1 H2]%StronglySorted_inv. constructor; [by apply IH|].
    apply Forall_app in H2 as [H2 H3]. apply Forall_cons in H3 as [_ H3]. by apply Forall_app.
Qed.

Lemma includes_elem w l : includes w l = true <-> exists x, x ∈ l /\ handle x = handle w.
Proof.
  unfold includes. rewrite existsb_exists. setoid_rewrite bool_decide_eq_true. setoid_rewrite list_elem_of_In. done.
Qed.

Lemma includes_remove w l1 x l2 : includes w (l1 ++ l2) = true -> includes w (l1 ++ x :: l2) = true.
Proof.
  rewrite !includes_elem. intros (y & Hy & E). exists y. split; [|done]. set_solver.
Qed.

(** Removing a checkout keeps the first one first. *)
Lemma first_remove p q w l1 x l2 : queue_ok p -> pendingCheckouts p = l1 ++ x :: l2 -> pendingCheckouts q = l1 ++ l2 ->
  next_checkout q = next_checkout p -> first_if_waiting p w -> first_if_waiting q w.
Proof.
  intros [Hs _ _] Hp Hq Hn [Hold Hw]. split; [by rewrite Hn|]. rewrite Hq. intros Hin.
  rewrite Hp in Hw, Hs. specialize (Hw (includes_remove _ _ _ _ Hin)). destruct l1 as [|y l1]; [|done].
  cbn in *. injection Hw as ->. apply StronglySorted_inv in Hs as [_ Hs]. rewrite Forall_forall in Hs.
  apply includes_elem in Hin as (y & Hy & E). specialize (Hs y Hy). unfold arrived_before in Hs. lia.
Qed.

Lemma evolves_remove p l1 x l2 : pendingCheckouts p = l1 ++ x :: l2 -> evolves p (set_pending (l1 ++ l2) p).
Proof.
  intros Hp. split; [done|]. intros H. split; [|intros w; by apply (first_remove p _ w l1 x l2)].
  destruct H as [H1 H2 H3]. rewrite Hp in *. split; cbn.
  - by eapply sorted_remove.
  - rewrite app_assoc. eapply sorted_remove. by rewrite <- app_assoc.
  - rewrite !Forall_app, Forall_cons in *. tauto.
Qed.

(** The checkout that is served is the first one of its key. *)
Lemma evolves_serve p l1 x l2 : pendingCheckouts p = l1 ++ x :: l2 -> Forall (fun y => key_for y <> key_for x) l1 ->
  evolves p (take_pending x (l1 ++ l2) p).
Proof.
  intros Hp Hl1. split; [done|]. intros H. split; [|intros w; by apply (first_remove p _ w l1 x l2)].
  destruct H as [H1 H2 H3]. rewrite Hp in *. split; cbn.
  - by eapply sorted_remove.
  - rewrite <- app_assoc. cbn. induction (served p) as [|s l IH]; cbn in *.
    + apply StronglySorted_app_1_r in H2 as H2x. apply StronglySorted_inv in H2x as [_ Hx].
      constructor; [by eapply sorted_remove|]. apply Forall_app. split; [|done].
      eapply Forall_impl; [exact Hl1|]. intros y Hy E. by rewrite E in Hy.
    + apply StronglySorted_inv in H2 as [H2 Hs]. apply Forall_cons in H3 as [_ H3]. constructor; [by apply IH|].
      rewrite !Forall_app, !Forall_cons, ?Forall_app in *. tauto.
  - rewrite !Forall_app, ?Forall_cons in *. naive_solver.
Qed.

Lemma evolves_push p w : handle w = next_checkout p ->
  evolves p (set_next (next_connection p) (S (next_checkout p)) (next_ticket p) (set_pending (pendingCheckouts p ++ [w]) p)).
Proof.
  intros Hw. split; [done|]. intros [H1 H2 H3]. split.
  - assert (Forall (fun x => (handle x < handle w)%nat) (served p ++ pendingCheckouts p)) as Hlt by by rewrite Hw.
    assert (forall (R : relation pending_checkout) l, (forall x, (handle x < handle w)%nat -> R x w) ->
              Forall (fun x => (handle x < handle w)%nat) l -> StronglySorted R l -> StronglySorted R (l ++ [w])) as Happ.
    { intros R l HR Hl. induction 1 as [|x l Hl' IH Hx]; cbn; [repeat constructor|].
      apply Forall_cons in Hl as [Hx' Hl]. constructor; [by apply IH|]. apply Forall_app. split; [done|].
      apply Forall_singleton. by apply HR. }
    split; cbn.
    + apply Happ; [done| |done]. by apply Forall_app in Hlt as [_ ?].
    + rewrite app_assoc. apply Happ; [by intros x ? _|done|done].
    + rewrite app_assoc. apply Forall_app. split; [|apply Forall_singleton; lia].
      eapply Forall_impl; [exact H3|]. cbn. lia.
  - intros x [Hold Hx]. split; cbn; [lia|]. intros (y & Hy & E)%includes_elem.
    apply elem_of_app in Hy as [Hy|Hy%list_elem_of_singleton]; [|subst; lia].
    assert (head (pendingCheckouts p) = Some x) as Hh by (apply Hx, includes_elem; eauto).
    destruct (pendingCheckouts p); done.
Qed.

Lemma evolves_clear p : evolves p (set_pending [] p).
Proof.
  split; [done|]. intros [H1 H2 H3]. split.
  - split; cbn; rewrite ?app_nil_r; [constructor| |by apply Forall_app in H3 as [? _]].
    by eapply StronglySorted_app_1_l.
  - intros w [Hold _]. by split.
Qed.

(** ** Computations *)

Definition fine (m : computation) (p : pool) : Prop :=
  evolves p (m p).1 /\ (queue_ok p -> Forall (frame_ok (m p).1) (m p).2.2).

Definition plain (f : frame) : bool :=
  match f with DrainCapacity _ | CapacityReaped _ | DrainIdle _ | IdleReaped _ => false | _ => true end.

Lemma fine_await m f p : fine m p -> (queue_ok p -> frame_ok p f) -> fine (await_then m f) p.
Proof.
  intros [H1 H2] Hf. unfold fine, await_then. destruct (m p) as [q [w fs]]. cbn in *. split; [done|].
  intros H. apply Forall_app. split; [auto|]. apply Forall_singleton. eapply frame_ok_evolves; eauto.
Qed.

Lemma fine_await_plain m f p : fine m p -> plain f = true -> fine (await_then m f) p.
Proof. intros H Hf. apply fine_await; [done|]. by destruct f. Qed.

Lemma fine_after (m m' : computation) p q : m' p = m q -> evolves p q -> fine m q -> fine m' p.
Proof.
  intros E Hpq [H1 H2]. unfold fine. rewrite E. split; [by etrans|]. intros H. apply H2. by destruct Hpq as [_ Hpq]; apply Hpq.
Qed.

Lemma fine_ret r p : fine (returns r) p.
Proof. split; [done|]. intros _. constructor. Qed.

Lemma fine_quiet (m : computation) p q w fs : m p = (q, (w, fs)) -> evolves p q -> forallb plain fs = true -> fine m p.
Proof.
  intros E Hq Hfs. unfold fine. rewrite E. cbn. split; [done|]. intros _. apply Forall_forall. intros f Hf.
  rewrite forallb_forall in Hfs. specialize (Hfs f). rewrite <- list_elem_of_In in Hfs. specialize (Hfs Hf). by destruct f.
Qed.

(** A computation that leaves the queue alone. *)
Ltac quiet := eapply fine_quiet; [reflexivity | by apply evolves_same | reflexivity].

Lemma fine_close c p : fine (closeConnection c) p.
Proof.
  destruct (connection_at c p) as [k|] eqn:E; [destruct (close_promise k) eqn:Ek|];
    (eapply fine_quiet; [unfold closeConnection; rewrite E, ?Ek; reflexivity | by apply evolves_same | reflexivity]).
Qed.

Lemma fine_closeExpired cs p : fine (closeExpiredIdleConnections cs) p.
Proof. destruct cs; [apply fine_ret|]. apply fine_await_plain; [apply fine_close|done]. Qed.

Lemma fine_awaitInflight p : fine awaitInflightConnectionCloses p.
Proof.
  unfold fine, awaitInflightConnectionCloses. destruct (inflightConnectionCloses p); cbn; (split; [done|constructor]).
Qed.

Lemma fine_reap cfg p : fine (reapIdleConnections cfg) p.
Proof.
  destruct (connections p) eqn:El; [|destruct (idleTimeoutMillis cfg) as [idle|] eqn:Ei].
  - apply (fine_after ok _ p p); [unfold reapIdleConnections; by rewrite El|done|apply fine_ret].
  - eapply fine_after; [unfold reapIdleConnections; rewrite El, Ei; reflexivity|by apply evolves_same|].
    apply fine_await_plain; [apply fine_closeExpired|done].
  - apply (fine_after ok _ p p); [unfold reapIdleConnections; by rewrite El, Ei|done|apply fine_ret].
Qed.

Lemma fine_activate c p : fine (activateConnection c) p.
Proof.
  destruct (connection_at c p) as [k|] eqn:E; [destruct (id_seq k) eqn:Ek|];
    (eapply fine_quiet; [unfold activateConnection; rewrite E, ?Ek; reflexivity | by apply evolves_same | reflexivity]).
Qed.

Lemma fine_spawn key p : fine (spawnConnectionForCheckout key) p.
Proof. quiet. Qed.

Lemma evolves_settle t key r p : evolves p (settle t key r p).
Proof.
  unfold settle. destruct (outcomes p !! t); [done|]. destruct r as [[| |c]|e]; try done; [|by apply evolves_same].
  destruct (_ ≫= _); [by apply evolves_same|done].
Qed.

Lemma evolves_reject e p : evolves p (rejectPendingCheckouts e p).
Proof.
  unfold rejectPendingCheckouts. transitivity (set_pending [] p); [apply evolves_clear|].
  generalize (set_pending [] p). intros q. generalize (pendingCheckouts p). intros l. revert q.
  induction l as [|w l IH]; intros q; cbn; [done|]. etrans; [apply evolves_settle|apply IH].
Qed.

Lemma fine_settle t key r p : fine (fun p => ok (settle t key r p)) p.
Proof. split; [apply evolves_settle|constructor]. Qed.

Lemma evolves_take key b p c q : takeIdleConnectionForReuseKey key b p = Some (c, q) -> evolves p q.
Proof. unfold takeIdleConnectionForReuseKey. destruct (take_first _ _) as [[]|]; [|done]. intros [= _ <-]. by apply evolves_same. Qed.

(** ** The drain *)

Lemma fine_resolve w c p : fine (resolvePendingCheckout w c) p.
Proof. apply fine_await_plain; [apply fine_activate|done]. Qed.

Lemma take_same_queue key b p c q : takeIdleConnectionForReuseKey key b p = Some (c, q) ->
  pendingCheckouts q = pendingCheckouts p.
Proof. unfold takeIdleConnectionForReuseKey. destruct (take_first _ _) as [[]|]; [|done]. by intros [= _ <-]. Qed.

Lemma fine_resolveMatching p : fine resolvePendingCheckoutWithMatchingIdleConnection p.
Proof.
  destruct (match_pending [] (pendingCheckouts p) p) as [[[[w rest] c] q]|] eqn:E.
  - apply (fine_after (await_then (resolvePendingCheckout w c) ReturnsTrue) _ p (take_pending w rest q));
      [unfold resolvePendingCheckoutWithMatchingIdleConnection; by rewrite E| |
      apply fine_await_plain; [apply fine_resolve|done]].
    apply match_pending_spec in E as (E & l1 & l2 & El & -> & Hl1). etrans; [by eapply evolves_take|].
    apply (evolves_serve q l1 w l2); [by rewrite (take_same_queue _ _ _ _ _ E)|].
    eapply Forall_impl; [exact Hl1|]. intros y Hy Hk. cbn in Hy. unfold key_for in Hk. rewrite Hk in Hy. congruence.
  - eapply fine_quiet; [unfold resolvePendingCheckoutWithMatchingIdleConnection; rewrite E; reflexivity|done|done].
Qed.

Lemma fine_drainActual p : fine drainPendingCheckoutsActual p.
Proof.
  destruct (pendingCheckouts p) eqn:E.
  - apply (fine_after ok _ p p); [unfold drainPendingCheckoutsActual; by rewrite E|done|apply fine_ret].
  - eapply fine_after; [unfold drainPendingCheckoutsActual; rewrite E; reflexivity|done|].
    apply fine_await_plain; [apply fine_resolveMatching|done].
Qed.

Lemma fine_drain p : fine drainPendingCheckouts p.
Proof.
  destruct (pendingCheckoutDrainPromise p) eqn:E.
  - eapply fine_quiet; [unfold drainPendingCheckouts; rewrite E; reflexivity|done|done].
  - pose proof (fine_await_plain _ (DrainFinally (next_drain p)) p (fine_drainActual p) eq_refl) as [H1 H2].
    unfold fine, drainPendingCheckouts. rewrite E. unfold await_then in *.
    destruct (drainPendingCheckoutsActual p) as [q [w fs]]. cbn in *. split.
    + etrans; [exact H1|]. by apply evolves_same.
    + intros Hp. eapply Forall_impl; [by apply H2|]. intros f Hf. by destruct f.
Qed.

Lemma fine_closeOne p : fine closeOneIdleConnectionForCapacity p.
Proof.
  destruct (List.find (fun c => negb (connectionHasOpenTransaction p c)) (connections p)) as [c|] eqn:E.
  - eapply fine_after; [unfold closeOneIdleConnectionForCapacity; rewrite E; reflexivity|by apply evolves_same|].
    apply fine_await_plain; [apply fine_close|done].
  - eapply fine_quiet; [unfold closeOneIdleConnectionForCapacity; rewrite E; reflexivity|done|done].
Qed.

Lemma fine_closeIdle ambient w p : (queue_ok p -> first_if_waiting p w) ->
  fine (closeIdleConnectionForPendingCheckoutCapacity ambient w) p.
Proof.
  intros Hw. destruct (findIdleConnectionForReuseKey (config_key (databaseConfig w)) p) eqn:E.
  - eapply fine_quiet; [unfold closeIdleConnectionForPendingCheckoutCapacity; rewrite E; reflexivity|done|done].
  - eapply fine_after; [unfold closeIdleConnectionForPendingCheckoutCapacity; rewrite E; reflexivity|done|].
    apply fine_await; [apply fine_reap|done].
Qed.

Lemma fine_idleFor ambient w p : (queue_ok p -> first_if_waiting p w) ->
  fine (idleConnectionForPendingCheckout ambient w) p.
Proof.
  intros Hw. destruct (takeIdleConnectionForReuseKey (config_key (databaseConfig w)) false p) as [[c q]|] eqn:E.
  - eapply fine_quiet; [unfold idleConnectionForPendingCheckout; rewrite E; reflexivity|by eapply evolves_take|done].
  - eapply fine_after; [unfold idleConnectionForPendingCheckout; rewrite E; reflexivity|done|].
    apply fine_await; [apply fine_reap|done].
Qed.

(** The one the drain works for, if it still waits, is what [shift] takes from the queue. *)
Lemma evolves_shift p w : (queue_ok p -> first_if_waiting p w) -> includes w (pendingCheckouts p) = true ->
  evolves p (take_pending w (drop 1 (pendingCheckouts p)) p).
Proof.
  intros Hw Hin. split; [done|]. intros H. destruct (Hw H) as [_ Hh]. specialize (Hh Hin).
  destruct (pendingCheckouts p) as [|x l] eqn:E; [done|]. injection Hh as ->.
  destruct (evolves_serve p [] w l E (Forall_nil_2 _)) as [_ He]. by apply He.
Qed.

(** ** Checking out and in *)

Lemma fine_wait t cfg p : fine (waitForCheckout t cfg) p.
Proof.
  eapply fine_after; [unfold waitForCheckout; reflexivity|by apply evolves_push|].
  apply fine_await_plain; [apply fine_drain|done].
Qed.

Lemma fine_take_activate (m : computation) key b p c q f : takeIdleConnectionForReuseKey key b p = Some (c, q) ->
  m p = await_then (activateConnection c) f q -> plain f = true -> fine m p.
Proof.
  intros E Hm Hf. eapply fine_after; [exact Hm|by eapply evolves_take|]. apply fine_await_plain; [apply fine_activate|done].
Qed.

Lemma fine_checkout t cfg cfg' p : fine (checkout t cfg cfg') p.
Proof.
  destruct (takeIdleConnectionForReuseKey (config_key cfg) true p) as [[c q]|] eqn:E.
  - eapply fine_take_activate; [exact E|unfold checkout; rewrite E; reflexivity|done].
  - eapply fine_after; [unfold checkout; rewrite E; reflexivity|done|]. apply fine_await_plain; [apply fine_reap|done].
Qed.

Lemma fine_checkout_reaped t cfg p : fine (checkout_reaped t cfg) p.
Proof.
  destruct (takeIdleConnectionForReuseKey (config_key cfg) true p) as [[c q]|] eqn:E;
    [|destruct (canSpawnConnection cfg p) eqn:Es].
  - eapply fine_take_activate; [exact E|unfold checkout_reaped; rewrite E; reflexivity|done].
  - eapply fine_after; [unfold checkout_reaped; rewrite E, Es; reflexivity|done|].
    apply fine_await_plain; [apply fine_spawn|done].
  - eapply fine_after; [unfold checkout_reaped; rewrite E, Es; reflexivity|done|apply fine_wait].
Qed.

Lemma evolves_untrack c id p q : untrackConnectionInUse c id p = Some q -> evolves p q.
Proof. destruct id; [|done]. intros [= <-]. by apply evolves_same. Qed.

(** A branch that only returns. *)
Ltac returning E := eapply fine_quiet; [E; reflexivity | first [done | by eapply evolves_untrack] | done].

Lemma fine_checkin c p : fine (checkin c) p.
Proof.
  destruct (connection_at c p) as [k|] eqn:E; [|returning ltac:(unfold checkin; rewrite E)].
  destruct (closed_connection k) eqn:Ec; [|returning ltac:(unfold checkin; rewrite E, Ec)].
  destruct (untrackConnectionInUse c (id_seq k) p) as [q|] eqn:Eu; [|returning ltac:(unfold checkin; rewrite E, Ec, Eu)].
  eapply fine_after; [unfold checkin; rewrite E, Ec, Eu; reflexivity|by eapply evolves_untrack|].
  apply fine_await_plain; [apply fine_drain|done].
Qed.

Lemma fine_checkin_cleaned c id p : fine (checkin_cleaned c id) p.
Proof.
  destruct (untrackConnectionInUse c id p) as [q|] eqn:Eu; [|returning ltac:(unfold checkin_cleaned; rewrite Eu)].
  destruct (bool_decide (from_option reuse_key None (connection_at c q) = None)) eqn:Eb.
  - returning ltac:(unfold checkin_cleaned; rewrite Eu, Eb).
  - eapply fine_after; [unfold checkin_cleaned; rewrite Eu, Eb; reflexivity| |].
    + etrans; [by eapply evolves_untrack|]. by apply evolves_same.
    + apply fine_await_plain; [apply fine_drain|done].
Qed.

Lemma fine_checkin_failed c id e p : fine (checkin_failed c id e) p.
Proof.
  destruct (untrackConnectionInUse c id p) as [q|] eqn:Eu; [|returning ltac:(unfold checkin_failed; rewrite Eu)].
  eapply fine_after; [unfold checkin_failed; rewrite Eu; reflexivity|by eapply evolves_untrack|].
  apply fine_await_plain; [apply fine_close|done].
Qed.

Lemma fine_discard c p : fine (discard c) p.
Proof.
  destruct (connection_at c p) as [k|] eqn:E; [|returning ltac:(unfold discard; rewrite E)].
  destruct (untrackConnectionInUse c (id_seq k) p) as [q|] eqn:Eu; [|returning ltac:(unfold discard; rewrite E, Eu)].
  eapply fine_after; [unfold discard; rewrite E, Eu; reflexivity|by eapply evolves_untrack|].
  apply fine_await_plain; [apply fine_close|done].
Qed.

Lemma fine_schedule ambient p : fine (fun p => ok (scheduleIdleConnectionReaper ambient p)) p.
Proof.
  split; [|constructor]. cbn. unfold scheduleIdleConnectionReaper.
  destruct (idleConnectionReaperTimer p), (connections p) eqn:E, (idleTimeoutMillis ambient); try done. by apply evolves_same.
Qed.

Lemma fine_handleCheckedIn ambient p : fine (handleCheckedInIdleConnection ambient) p.
Proof.
  destruct (idleTimeoutMillis ambient) as [q|] eqn:E; [destruct (QArith_base.Qeq_bool q (QArith_base.Qmake 0 1)) eqn:Eq|].
  - eapply fine_after; [unfold handleCheckedInIdleConnection; rewrite E, Eq; reflexivity|done|apply fine_reap].
  - apply (fine_after (fun p => ok (scheduleIdleConnectionReaper ambient p)) _ p p);
      [unfold handleCheckedInIdleConnection; by rewrite E, Eq|done|apply fine_schedule].
  - apply (fine_after (fun p => ok (scheduleIdleConnectionReaper ambient p)) _ p p);
      [unfold handleCheckedInIdleConnection; by rewrite E|done|apply fine_schedule].
Qed.

Lemma fine_closeAll_next cs p : fine (closeAll_next cs) p.
Proof. destruct cs; [apply fine_ret|]. apply fine_await_plain; [apply fine_close|done]. Qed.

Lemma fine_closeAll p : fine closeAll p.
Proof.
  eapply fine_after; [unfold closeAll; reflexivity| |apply fine_closeAll_next].
  transitivity (set_timer None p); [by apply evolves_same|]. etrans; [apply evolves_reject|]. by apply evolves_same.
Qed.

(** ** Frames *)

Lemma fine_if (b : bool) (m m' : computation) p : (b = true -> fine m p) -> (b = false -> fine m' p) ->
  fine (fun p => (if b then m else m') p) p.
Proof. destruct b; auto. Qed.

Lemma fine_ext (m m' : computation) p : m p = m' p -> fine m' p -> fine m p.
Proof. intros E H. eapply fine_after; [exact E|done|done]. Qed.

Lemma fine_drain_frame ambient f r p : (queue_ok p -> frame_ok p f) -> fine (run_drain_frame ambient f r) p.
Proof.
  assert (forall m : computation, (forall q, fine m q) -> fine m p) as Hall by auto.
  intros Hf. destruct f; try apply fine_drainActual; cbn [run_drain_frame frame_ok] in *.
  - assert (fine (fun p => match pendingCheckouts p with
      | [] => (p, (Settled (Throw TypeErrorUndefined), []))
      | w :: _ => await_then (closeIdleConnectionForPendingCheckoutCapacity ambient w) (DrainCapacity w) p end) p) as H.
    { destruct (pendingCheckouts p) as [|w l] eqn:E.
      - eapply fine_quiet; [rewrite E; reflexivity|done|done].
      - assert (queue_ok p -> first_if_waiting p w) as Hw.
        { intros Hp. split; [|by rewrite E]. destruct Hp as [_ _ Ho]. rewrite Forall_forall in Ho. apply Ho.
          rewrite E. set_solver. }
        eapply fine_ext; [rewrite E; reflexivity|]. apply fine_await; [by apply fine_closeIdle|done]. }
    destruct r as [|[]|]; [done|apply fine_drainActual|done|done].
  - assert (fine (fun p =>
          if negb (includes w (pendingCheckouts p)) then drainPendingCheckoutsActual p else
          if canSpawnConnection (databaseConfig w) p
          then await_then (spawnAndResolvePendingCheckout w) DrainContinue (take_pending w (drop 1 (pendingCheckouts p)) p)
          else await_then (idleConnectionForPendingCheckout ambient w) (DrainIdle w) p) p) as H.
    { destruct (includes w (pendingCheckouts p)) eqn:Ei; [destruct (canSpawnConnection (databaseConfig w) p) eqn:Es|].
      - eapply fine_after; [rewrite Ei, Es; reflexivity|by apply evolves_shift|].
        apply fine_await_plain; [|done]. apply fine_await_plain; [apply fine_spawn|done].
      - eapply fine_ext; [rewrite Ei, Es; reflexivity|]. apply fine_await; [by apply fine_idleFor|done].
      - eapply fine_ext; [rewrite Ei; reflexivity|]. apply fine_drainActual. }
    destruct r as [|[]|]; [done|apply fine_drainActual|done|done].
  - destruct (findIdleConnectionForReuseKey (config_key (databaseConfig w)) p) eqn:E;
      [eapply fine_quiet; [rewrite E; reflexivity|done|done]|].
    destruct (canSpawnConnection (databaseConfig w) p) eqn:Es; [eapply fine_quiet; [rewrite E, Es; reflexivity|done|done]|].
    eapply fine_ext; [rewrite E, Es; reflexivity|]. apply fine_closeOne.
  - destruct (includes w (pendingCheckouts p)) eqn:Ei.
    + destruct r as [| |c]; [eapply fine_quiet; [rewrite Ei; reflexivity|done|done]..|].
      eapply fine_after; [rewrite Ei; reflexivity|by apply evolves_shift|].
      apply fine_await_plain; [apply fine_resolve|done].
    + eapply fine_ext; [rewrite Ei; reflexivity|]. apply fine_drainActual.
  - destruct (includes w (pendingCheckouts p)) eqn:Ei; [|eapply fine_quiet; [rewrite Ei; reflexivity|done|done]].
    destruct (takeIdleConnectionForReuseKey (config_key (databaseConfig w)) false p) as [[c q]|] eqn:E.
    + eapply fine_quiet; [rewrite Ei, E; reflexivity|by eapply evolves_take|done].
    + eapply fine_quiet; [rewrite Ei, E; reflexivity|done|done].
Qed.

Lemma fine_run_frame ambient f r p : (queue_ok p -> frame_ok p f) -> fine (run_frame ambient f r) p.
Proof.
  intros Hf. destruct f.
  - destruct r; [apply fine_ret|].
    apply (fine_after (await_then (closeConnection c) (Rethrow e)) _ p
      (on_connection c (with_id None) (set_in_use (delete id (connectionsInUse p)) p))); [done|by apply evolves_same|].
    apply fine_await_plain; [apply fine_close|done].
  - destruct r; apply fine_ret.
  - destruct r; quiet.
  - destruct r; [apply fine_closeExpired|apply fine_ret].
  - destruct r; [|apply fine_ret]. apply fine_await_plain; [apply fine_awaitInflight|done].
  - destruct r; [apply fine_schedule|apply fine_ret].
  - destruct r; [apply fine_checkout_reaped|apply fine_settle].
  - destruct r as [[]|]; quiet.
  - destruct r as [[]|]; try apply fine_settle. apply fine_await_plain; [apply fine_activate|done].
  - destruct r; apply fine_settle.
  - destruct r; [apply fine_ret|]. split; [apply evolves_reject|constructor].
  - destruct r; quiet.
  - destruct r; [by apply fine_drain_frame|apply fine_ret].
  - destruct r; [by apply fine_drain_frame|apply fine_ret].
  - destruct r; [by apply fine_drain_frame|apply fine_ret].
  - destruct r; [by apply fine_drain_frame|apply fine_ret].
  - destruct r; [by apply fine_drain_frame|apply fine_ret].
  - destruct r; [by apply fine_drain_frame|apply fine_ret].
  - destruct r as [[]|]; try apply fine_settle. apply fine_resolve.
  - destruct r; apply fine_settle.
  - destruct r; apply fine_ret.
  - destruct r; apply fine_ret.
  - destruct r; [apply fine_checkin_cleaned|apply fine_checkin_failed].
  - destruct r; [|apply fine_ret]. cbn [run_frame]. destruct (bool_decide (c ∈ connections p)) eqn:E.
    + eapply fine_ext; [rewrite E; reflexivity|]. apply fine_handleCheckedIn.
    + eapply fine_ext; [rewrite E; reflexivity|]. apply fine_ret.
  - destruct r; (apply fine_await_plain; [apply fine_drain|done]).
  - destruct r; apply fine_ret.
  - destruct r; (apply fine_await_plain; [apply fine_drain|done]).
  - destruct e, r; apply fine_ret.
  - destruct r; [apply fine_closeAll_next|apply fine_ret].
Qed.

(** ** Steps *)

Definition frames_ok (p : pool) : Prop := Forall (fun x => Forall (frame_ok p) x.2.2) (calls p).

Definition in_order (p : pool) : Prop := queue_ok p /\ frames_ok p.

Lemma in_order_evolves p q : evolves p q -> in_order p -> in_order q.
Proof.
  intros H [Hp Hf]. pose proof H as [Hc Hq]. split; [by apply Hq|]. unfold frames_ok in *. rewrite Hc.
  eapply Forall_impl; [exact Hf|]. intros x Hx. eapply Forall_impl; [exact Hx|]. intros f. by apply frame_ok_evolves.
Qed.

(** The calls change, to what a computation left behind. *)
Lemma in_order_calls p q l : evolves p q -> in_order p -> (forall x, x ∈ l -> x ∈ calls q \/ Forall (frame_ok q) x.2.2) ->
  in_order (set_calls l q).
Proof.
  intros He Hp Hl. destruct (in_order_evolves _ _ He Hp) as [Hq Hf]. split; [by destruct Hq as [? ? ?]; split|].
  apply Forall_forall. intros x Hx. destruct (Hl x Hx) as [Hx'|Hx']; [|by eapply Forall_impl; [exact Hx'|]; intros []].
  unfold frames_ok in Hf. rewrite Forall_forall in Hf. specialize (Hf x Hx'). by eapply Forall_impl; [exact Hf|]; intros [].
Qed.

Lemma evolves_wait_result w driver p r q : wait_result w driver p = Some (r, q) -> evolves p q.
Proof.
  destruct w as [r'|c|c| |c|cs|d]; cbn; try (by intros [= _ <-]).
  - destruct driver; intros [= _ <-]; [by apply evolves_same|done].
  - destruct (connection_at c p ≫= close_promise) as [[[]|]|]; by intros; simplify_eq.
  - destruct (forallb _ _); by intros; simplify_eq.
  - destruct (drains p !! d) as [[e|]|]; by intros; simplify_eq.
Qed.

Lemma in_order_resume i driver p p' : resume i driver p = Some p' -> in_order p -> in_order p'.
Proof.
  unfold resume. destruct (calls p !! i) as [[ambient [w fs]]|] eqn:Ei; [|done].
  destruct (wait_result w driver p) as [[r q]|] eqn:Ew; [|done]. intros H Hp.
  pose proof (evolves_wait_result _ _ _ _ _ Ew) as Hq. pose proof (in_order_evolves _ _ Hq Hp) as [Hqo Hqf].
  assert (Forall (frame_ok q) fs) as Hfs.
  { unfold frames_ok in Hqf. rewrite Forall_lookup in Hqf. destruct Hq as [Hc _]. rewrite <- Hc in Ei. apply (Hqf i _ Ei). }
  destruct fs as [|f fs].
  - injection H as <-. apply (in_order_calls p); [done|done|]. intros x Hx. left.  by eapply list_elem_of_delete_inv.
  - apply Forall_cons in Hfs as [Hf Hfs].
    destruct (fine_run_frame ambient f r q (fun _ => Hf)) as [H1 H2]. specialize (H2 Hqo).
    destruct (run_frame ambient f r q) as [q' [w' gs]] eqn:Er. injection H as <-. cbn in *.
    apply (in_order_calls p); [by etrans|done|]. intros x Hx. apply list_elem_of_lookup in Hx as [j Hj].
    destruct (decide (j = i)) as [->|Hne].
    + right. assert (x = (ambient, (w', gs ++ fs))) as ->.
      { destruct (decide (i < length (calls q'))%nat) as [Hlt|Hge].
        - rewrite list_lookup_insert_eq in Hj by done. congruence.
        - apply Nat.nlt_ge in Hge. rewrite list_insert_ge in Hj by done. apply lookup_lt_Some in Hj.
          by apply Nat.lt_nge in Hj. }
      cbn. apply Forall_app. split; [done|]. eapply Forall_impl; [exact Hfs|]. intros g. by apply frame_ok_evolves.
    + left. rewrite list_lookup_insert_ne in Hj by congruence. by eapply list_elem_of_lookup_2.
Qed.

Lemma in_order_start ambient m p q : evolves p q -> fine m q -> in_order p -> in_order (start ambient m q).
Proof.
  intros He [H1 H2] Hp. destruct (in_order_evolves _ _ He Hp) as [Hq _]. specialize (H2 Hq). unfold start.
  destruct (m q) as [q' [w fs]]. cbn in *. apply (in_order_calls p); [by etrans|done|].
  intros x [Hx|Hx%list_elem_of_singleton]%elem_of_app; [by left|]. right. by subst.
Qed.

Lemma in_order_step p p' : step p p' -> in_order p -> in_order p'.
Proof.
  intros [a Ha] H. destruct a as [cfg cfg'|ambient t|ambient t|t n|i driver|c s|h| |ms|ambient]; cbn in Ha.
  - injection Ha as <-. eapply in_order_start; [|apply fine_checkout|exact H]. by apply evolves_same.
  - destruct (outcomes p !! t) as [[c id key| |]|]; try done. injection Ha as <-.
    eapply in_order_start; [|apply fine_checkin|exact H]. by apply evolves_same.
  - destruct (outcomes p !! t) as [[c id key| |]|]; try done. injection Ha as <-.
    eapply in_order_start; [|apply fine_discard|exact H]. by apply evolves_same.
  - destruct (outcomes p !! t) as [[c id key| |]|]; try done. injection Ha as <-.
    eapply in_order_evolves; [|exact H]. by apply evolves_same.
  - by eapply in_order_resume.
  - unfold close_settles in Ha. destruct (_ ≫= _) as [[|]|]; try done. injection Ha as <-.
    eapply in_order_evolves; [|exact H]. by apply evolves_same.
  - destruct (_ ≫= _) as [q|]; [|done]. destruct (QArith_base.Qle_bool _ _); [|done]. injection Ha as <-.
    eapply in_order_evolves; [|exact H]. unfold timeoutPendingCheckout.
    destruct (take_first _ _) as [[w rest]|] eqn:E; [|done]. apply take_first_spec in E as (l1 & l2 & El & -> & _).
    etrans; [by eapply evolves_remove|]. apply evolves_settle.
  - destruct (idleConnectionReaperTimer p) as [[due cfg]|]; [|done]. destruct (QArith_base.Qle_bool _ _); [|done].
    injection Ha as <-. eapply in_order_start; [|apply fine_reap|exact H]. by apply evolves_same.
  - injection Ha as <-. eapply in_order_evolves; [|exact H]. by apply evolves_same.
  - injection Ha as <-. eapply in_order_start; [|apply fine_closeAll|exact H]. done.
Qed.

Lemma in_order_reachable p : rtc step new_pool p -> in_order p.
Proof.
  assert (forall q, rtc step q p -> in_order q -> in_order p) as H.
  { intros q. induction 1; eauto using in_order_step. }
  intros Hp. eapply H; [exact Hp|]. split; [split; constructor|constructor].
Qed.

(** C36: Waiting checkouts of one database configuration are served first come, first served:
    the drain takes a checkout from the queue only when every earlier one with its reuse key
    has been taken or has left (a timeout, the pool closed), although it waits for the reaper,
    for closes and for the driver while others arrive and leave. *)
Theorem waiting_checkouts_are_served_in_order p :
  rtc step new_pool p -> StronglySorted before_of_same_key (served p ++ pendingCheckouts p).
Proof. intros Hp. by destruct (in_order_reachable p Hp) as [[_ H _] _]. Qed.

(** Two callers that waited for the one connection got it in the order of their arrival, and a
    third one still waits. *)
Definition third_waits : list action := passed_on ++ Checkout (configured "a" 1) (configured "a" 1) :: goes_on 0 9.

Lemma waiting_checkouts_are_served_in_order_witness :
  run third_waits new_pool = Some (after third_waits) /\
  map handle (served (after third_waits)) = [0; 1]%nat /\ map handle (pendingCheckouts (after third_waits)) = [2]%nat /\
  StronglySorted before_of_same_key (served (after third_waits) ++ pendingCheckouts (after third_waits)).
Proof.
  assert (run third_waits new_pool = Some (after third_waits)) as Hr by (vm_compute; reflexivity).
  split; [exact Hr|]. split; [vm_compute; reflexivity|]. split; [vm_compute; reflexivity|].
  exact (waiting_checkouts_are_served_in_order _ (actions_steps _ _ _ Hr)).
Defined.
