(* ===== verification/ConnectionPoolBounds.v ===== *)
(** * The connection pool keeps to its maximum

    The code counts the connections that are idle, in use or being spawned. A connection that
    has just been spawned, or that the drain has taken from the idle ones, is none of these
    until its call goes on and activates it. As long as such a call goes on before any other
    ([prompt_step]) the pool never has more connections than its maximum; without that it can
    ([ConnectionPoolQueue] shows how). *)

From stdpp Require Import base strings gmap list relations.
From S2P Require Import Prelude ConnectionPool ConnectionPoolCorrect ConnectionPoolQueue.

(** ** Connections that are counted, and those in hand *)

(** Whether a returned connection goes to a call that will activate it. *)
Fixpoint returned_raw (fs : list frame) : nat :=
  match fs with
  | (CheckoutSpawned _ _ | SpawnedFor _ | DrainIdle _) :: _ => 1
  | (ClosingFirst _ | DrainCatch | DrainFinally _ | DiscardDrained None) :: fs => returned_raw fs
  | _ => 0
  end.

Definition hand (r : result error value) (fs : list frame) : nat :=
  match r with Ok (Conn _) => returned_raw fs | _ => 0 end.

Definition in_hand (call : suspended) : nat :=
  match call.1 with Settled r => hand r call.2 | _ => 0 end.

Definition spawns (fs : list frame) : nat :=
  length (List.filter (fun f => match f with Spawning _ => true | _ => false end) fs).

Definition load (call : suspended) : nat := (in_hand call + spawns call.2)%nat.

Definition listed (p : pool) : nat := (length (connections p) + size (connectionsInUse p))%nat.

Fixpoint sum_calls (f : suspended -> nat) (l : list (config * suspended)) : nat :=
  match l with [] => 0 | x :: l => f x.2 + sum_calls f l end.

Definition total (p : pool) : nat := (listed p + sum_calls load (calls p))%nat.

(** ** Computations *)

Definition light (m : computation) (k : list frame) (x : nat) (p : pool) : Prop :=
  (listed (m p).1 + load ((m p).2.1, (m p).2.2 ++ k) <= listed p + x + spawns k)%nat /\
  (connectionsBeingSpawned (m p).1 + spawns k = connectionsBeingSpawned p + spawns ((m p).2.2 ++ k))%nat.

Definition spawning (f : frame) : bool := match f with Spawning _ => true | _ => false end.

Lemma spawns_cons f fs : spawns (f :: fs) = ((if spawning f then 1 else 0) + spawns fs)%nat.
Proof. by destruct f. Qed.

Lemma light_await m f k x p : spawning f = false -> light m (f :: k) x p -> light (await_then m f) k x p.
Proof.
  intros Hf [H1 H2]. rewrite (spawns_cons f k), Hf in H1, H2. unfold light, await_then.
  destruct (m p) as [q [w fs]]. cbn in *. by rewrite <- app_assoc.
Qed.

Lemma light_after (m m' : computation) k x x' p q : m' p = m q -> (listed q + x <= listed p + x')%nat ->
  connectionsBeingSpawned q = connectionsBeingSpawned p -> light m k x q -> light m' k x' p.
Proof. intros E Hv Hb [H1 H2]. unfold light. rewrite E. split; [lia|]. by rewrite <- Hb. Qed.

Lemma light_quiet (m : computation) k x p q w fs : m p = (q, (w, fs)) -> (listed q <= listed p + x)%nat ->
  connectionsBeingSpawned q = connectionsBeingSpawned p -> in_hand (w, fs ++ k) = 0%nat -> forallb (fun f => negb (spawning f)) fs = true ->
  light m k x p.
Proof.
  intros E Hv Hb Hw Hfs. unfold light, load. rewrite E. cbn [fst snd]. rewrite Hw, Hb.
  assert (spawns (fs ++ k) = spawns k) as ->; [|split; lia].
  clear E Hw. induction fs as [|f fs IH]; [done|]. cbn [app]. rewrite spawns_cons. cbn in Hfs.
  apply andb_true_iff in Hfs as [Hf Hfs]. rewrite IH by done. by destruct (spawning f).
Qed.

Lemma light_weaken m k x x' p : (x <= x')%nat -> light m k x p -> light m k x' p.
Proof. intros Hx [H1 H2]. split; [lia|done]. Qed.

Lemma light_ret r k p : light (returns r) k (hand r k) p.
Proof. unfold light, load, in_hand, returns. cbn [fst snd app]. split; lia. Qed.

Lemma light_ok k p : light ok k 0 p.
Proof. apply (light_ret (Ok Undefined)). Qed.

Lemma light_close c k p : light (closeConnection c) k 0 p.
Proof.
  destruct (connection_at c p) as [x|] eqn:E; [destruct (close_promise x) eqn:Ek|];
    (eapply light_quiet; [unfold closeConnection; rewrite E, ?Ek; reflexivity | unfold listed; cbn; lia | done..]).
Qed.

Lemma light_closeExpired cs k p : light (closeExpiredIdleConnections cs) k 0 p.
Proof. destruct cs; [apply light_ok|]. apply light_await; [done|]. apply light_close. Qed.

Lemma light_awaitInflight k p : light awaitInflightConnectionCloses k 0 p.
Proof.
  destruct (inflightConnectionCloses p) eqn:E;
    (eapply light_quiet; [unfold awaitInflightConnectionCloses; rewrite E; reflexivity | lia | done..]).
Qed.

Lemma length_filter_le {A} (f : A -> bool) l : (length (List.filter f l) <= length l)%nat.
Proof. induction l as [|x l IH]; cbn; [done|]. destruct (f x); cbn; lia. Qed.

Lemma light_reap cfg k p : light (reapIdleConnections cfg) k 0 p.
Proof.
  destruct (connections p) eqn:El; [|destruct (idleTimeoutMillis cfg) as [idle|] eqn:Ei].
  - apply (light_after ok _ k 0 0 p p); [unfold reapIdleConnections; by rewrite El|done|done|apply light_ok].
  - apply (light_after (await_then (closeExpiredIdleConnections (classifyIdleConnections idle p).1) ReapClosed) _ k 0 0 p
      (set_connections (classifyIdleConnections idle p).2 p)); [unfold reapIdleConnections; by rewrite El, Ei| |done|].
    + unfold listed. cbn. pose proof (length_filter_le (keptWhenReaping p idle) (connections p)). lia.
    + apply light_await; [done|]. apply light_closeExpired.
  - apply (light_after ok _ k 0 0 p p); [unfold reapIdleConnections; by rewrite El, Ei|done|done|apply light_ok].
Qed.

Lemma size_insert_le (m : gmap nat nat) i x : (size (<[i := x]> m) <= S (size m))%nat.
Proof. destruct (m !! i) eqn:E; [rewrite map_size_insert_Some by done; lia|by rewrite map_size_insert_None]. Qed.

Lemma size_delete_le (m : gmap nat nat) i : (size (delete i m) <= size m)%nat.
Proof. destruct (m !! i) eqn:E; [erewrite map_size_delete_Some by done; lia|by rewrite map_size_delete_None]. Qed.

Lemma light_activate c k p : light (activateConnection c) k 1 p.
Proof.
  destruct (connection_at c p) as [x|] eqn:E; [destruct (id_seq x) eqn:Ek|];
    (eapply light_quiet; [unfold activateConnection; rewrite E, ?Ek; reflexivity | unfold listed; cbn | done..]); [lia| |lia].
  pose proof (size_insert_le (connectionsInUse p) (idSeq p) c). lia.
Qed.

Lemma light_spawn key k p : light (spawnConnectionForCheckout key) k 1 p.
Proof. unfold light, load, in_hand. cbn [spawnConnectionForCheckout fst snd app]. rewrite spawns_cons. unfold listed. cbn. split; lia. Qed.

Lemma settle_same t key r p : listed (settle t key r p) = listed p /\
  connectionsBeingSpawned (settle t key r p) = connectionsBeingSpawned p.
Proof.
  unfold settle. destruct (outcomes p !! t); [done|]. destruct r as [[| |c]|e]; try done. by destruct (_ ≫= _).
Qed.

Lemma reject_same e p : listed (rejectPendingCheckouts e p) = listed p /\
  connectionsBeingSpawned (rejectPendingCheckouts e p) = connectionsBeingSpawned p.
Proof.
  unfold rejectPendingCheckouts. change (listed p) with (listed (set_pending [] p)).
  change (connectionsBeingSpawned p) with (connectionsBeingSpawned (set_pending [] p)).
  generalize (set_pending [] p). generalize (pendingCheckouts p). intros l. induction l as [|w l IH]; intros q; cbn; [done|].
  destruct (IH (settle_checkout w (Throw e) q)) as [-> ->]. apply settle_same.
Qed.

Lemma light_settle t key r k p : light (fun p => ok (settle t key r p)) k 0 p.
Proof.
  destruct (settle_same t key r p) as [H1 H2]. eapply (light_after _ _ k 0); [reflexivity| |exact H2|apply light_ok]. lia.
Qed.

Lemma take_listed key b p c q : takeIdleConnectionForReuseKey key b p = Some (c, q) ->
  listed p = S (listed q) /\ connectionsBeingSpawned q = connectionsBeingSpawned p.
Proof.
  unfold takeIdleConnectionForReuseKey. destruct (take_first _ _) as [[x rest]|] eqn:E; [|done]. intros [= _ <-].
  apply take_first_spec in E as (l1 & l2 & El & -> & _). split; [|done]. unfold listed. cbn. rewrite El, !length_app. cbn. lia.
Qed.

(** ** The operations *)

Lemma light_resolve w c k p : light (resolvePendingCheckout w c) k 1 p.
Proof. apply light_await; [done|]. apply light_activate. Qed.

Lemma light_resolveMatching k p : light resolvePendingCheckoutWithMatchingIdleConnection k 0 p.
Proof.
  destruct (match_pending [] (pendingCheckouts p) p) as [[[[w rest] c] q]|] eqn:E.
  - pose proof (match_pending_spec _ _ _ _ _ _ _ E) as [Et _]. destruct (take_listed _ _ _ _ _ Et) as [H1 H2].
    apply (light_after (await_then (resolvePendingCheckout w c) ReturnsTrue) _ k 1 0 p (take_pending w rest q));
      [unfold resolvePendingCheckoutWithMatchingIdleConnection; by rewrite E| |exact H2|].
    + rewrite H1. unfold listed. cbn. lia.
    + apply light_await; [done|]. apply light_resolve.
  - eapply light_quiet; [unfold resolvePendingCheckoutWithMatchingIdleConnection; rewrite E; reflexivity|lia|done..].
Qed.

Lemma light_drainActual k p : light drainPendingCheckoutsActual k 0 p.
Proof.
  destruct (pendingCheckouts p) eqn:E.
  - apply (light_after ok _ k 0 0 p p); [unfold drainPendingCheckoutsActual; by rewrite E|done|done|apply light_ok].
  - eapply (light_after _ _ k 0); [unfold drainPendingCheckoutsActual; rewrite E; reflexivity|done|done|].
    apply light_await; [done|]. apply light_resolveMatching.
Qed.

Lemma light_drain k p : light drainPendingCheckouts k 0 p.
Proof.
  destruct (pendingCheckoutDrainPromise p) eqn:E.
  - eapply light_quiet; [unfold drainPendingCheckouts; rewrite E; reflexivity|lia|done..].
  - destruct (light_await drainPendingCheckoutsActual (DrainFinally (next_drain p)) k 0 p eq_refl
      (light_drainActual _ p)) as [H1 H2].
    unfold light, drainPendingCheckouts. rewrite E. unfold await_then in *.
    by destruct (drainPendingCheckoutsActual p) as [q [w fs]].
Qed.

Lemma light_closeOne k p : light closeOneIdleConnectionForCapacity k 0 p.
Proof.
  destruct (List.find (fun c => negb (connectionHasOpenTransaction p c)) (connections p)) as [c|] eqn:E.
  - eapply (light_after _ _ k 0); [unfold closeOneIdleConnectionForCapacity; rewrite E; reflexivity| |done|].
    + unfold listed. cbn. pose proof (length_filter_le (fun d => negb (bool_decide (d = c))) (connections p)). lia.
    + apply light_await; [done|]. apply light_close.
  - eapply light_quiet; [unfold closeOneIdleConnectionForCapacity; rewrite E; reflexivity|lia|done..].
Qed.

Lemma light_closeIdle ambient w k p : light (closeIdleConnectionForPendingCheckoutCapacity ambient w) k 0 p.
Proof.
  destruct (findIdleConnectionForReuseKey (config_key (databaseConfig w)) p) eqn:E.
  - eapply light_quiet; [unfold closeIdleConnectionForPendingCheckoutCapacity; rewrite E; reflexivity|lia|done..].
  - eapply (light_after _ _ k 0); [unfold closeIdleConnectionForPendingCheckoutCapacity; rewrite E; reflexivity|done|done|].
    apply light_await; [done|]. apply light_reap.
Qed.

(** Taking an idle connection puts it in hand. *)
Lemma light_take (m : computation) key b p c q k : takeIdleConnectionForReuseKey key b p = Some (c, q) ->
  m p = returns (Ok (Conn c)) q -> (returned_raw k <= 1)%nat -> light m k 0 p.
Proof.
  intros E Hm Hk. destruct (take_listed _ _ _ _ _ E) as [H1 H2].
  apply (light_after (returns (Ok (Conn c))) _ k (returned_raw k) 0 p q); [done|lia|done|]. apply light_ret.
Qed.

Lemma returned_raw_le fs : (returned_raw fs <= 1)%nat.
Proof. induction fs as [|[] fs IH]; cbn; try lia. destruct e; lia. Qed.

Lemma light_idleFor ambient w k p : light (idleConnectionForPendingCheckout ambient w) k 0 p.
Proof.
  destruct (takeIdleConnectionForReuseKey (config_key (databaseConfig w)) false p) as [[c q]|] eqn:E.
  - eapply light_take; [exact E|unfold idleConnectionForPendingCheckout; by rewrite E|apply returned_raw_le].
  - eapply (light_after _ _ k 0); [unfold idleConnectionForPendingCheckout; rewrite E; reflexivity|done|done|].
    apply light_await; [done|]. apply light_reap.
Qed.

Lemma light_wait t cfg k p : light (waitForCheckout t cfg) k 0 p.
Proof.
  eapply (light_after _ _ k 0); [unfold waitForCheckout; reflexivity| |done|apply light_await; [done|apply light_drain]].
  unfold listed. cbn. lia.
Qed.

Lemma light_take_activate (m : computation) key b p c q f k : takeIdleConnectionForReuseKey key b p = Some (c, q) ->
  m p = await_then (activateConnection c) f q -> spawning f = false -> light m k 0 p.
Proof.
  intros E Hm Hf. destruct (take_listed _ _ _ _ _ E) as [H1 H2].
  apply (light_after _ _ k 1 0 p q Hm); [lia|done|]. apply light_await; [done|]. apply light_activate.
Qed.

Lemma light_checkout t cfg cfg' k p : light (checkout t cfg cfg') k 0 p.
Proof.
  destruct (takeIdleConnectionForReuseKey (config_key cfg) true p) as [[c q]|] eqn:E.
  - eapply light_take_activate; [exact E|unfold checkout; rewrite E; reflexivity|done].
  - eapply (light_after _ _ k 0); [unfold checkout; rewrite E; reflexivity|done|done|]. apply light_await; [done|apply light_reap].
Qed.

Definition room (cfg : config) (p : pool) : nat := if canSpawnConnection cfg p then 1 else 0.

Lemma light_checkout_reaped t cfg k p : light (checkout_reaped t cfg) k (room cfg p) p.
Proof.
  unfold room. destruct (takeIdleConnectionForReuseKey (config_key cfg) true p) as [[c q]|] eqn:E;
    [|destruct (canSpawnConnection cfg p) eqn:Es].
  - apply (light_weaken _ _ 0); [lia|].
    eapply light_take_activate; [exact E|unfold checkout_reaped; rewrite E; reflexivity|done].
  - eapply (light_after _ _ k 1); [unfold checkout_reaped; rewrite E, Es; reflexivity|done|done|].
    apply light_await; [done|apply light_spawn].
  - eapply (light_after _ _ k 0); [unfold checkout_reaped; rewrite E, Es; reflexivity|done|done|apply light_wait].
Qed.

Lemma untrack_listed c id p q : untrackConnectionInUse c id p = Some q ->
  (listed q <= listed p)%nat /\ connectionsBeingSpawned q = connectionsBeingSpawned p.
Proof.
  destruct id as [id|]; [|done]. intros [= <-]. split; [|done]. unfold listed. cbn.
  pose proof (size_delete_le (connectionsInUse p) id). lia.
Qed.

Lemma light_checkin c k p : light (checkin c) k 0 p.
Proof.
  destruct (connection_at c p) as [x|] eqn:E; [|eapply light_quiet; [unfold checkin; rewrite E; reflexivity|lia|done..]].
  destruct (closed_connection x) eqn:Ec; [|eapply light_quiet; [unfold checkin; rewrite E, Ec; reflexivity|lia|done..]].
  destruct (untrackConnectionInUse c (id_seq x) p) as [q|] eqn:Eu;
    [|eapply light_quiet; [unfold checkin; rewrite E, Ec, Eu; reflexivity|lia|done..]].
  destruct (untrack_listed _ _ _ _ Eu) as [H1 H2].
  eapply (light_after _ _ k 0); [unfold checkin; rewrite E, Ec, Eu; reflexivity| |exact H2|]; [|apply light_await; [done|apply light_drain]].
  lia.
Qed.

(** A connection in use becomes an idle one. *)
Lemma light_checkin_cleaned c id k p : (forall i, id = Some i -> is_Some (connectionsInUse p !! i)) ->
  light (checkin_cleaned c id) k 0 p.
Proof.
  intros Hid. destruct (untrackConnectionInUse c id p) as [q|] eqn:Eu;
    [|eapply light_quiet; [unfold checkin_cleaned; rewrite Eu; reflexivity|lia|done..]].
  destruct (bool_decide (from_option reuse_key None (connection_at c q) = None)) eqn:Eb.
  - destruct (untrack_listed _ _ _ _ Eu) as [H1 H2].
    eapply light_quiet; [unfold checkin_cleaned; rewrite Eu, Eb; reflexivity|lia|done..].
  - destruct id as [id|]; [|done].
    eapply (light_after _ _ k 0); [unfold checkin_cleaned; rewrite Eu, Eb; reflexivity| |by injection Eu as <-|
      apply light_await; [done|apply light_drain]].
    injection Eu as <-. unfold listed. cbn. destruct (Hid id eq_refl) as [x Hx]. rewrite length_app. cbn.
    assert (size (connectionsInUse p) <> 0%nat) by (rewrite map_size_ne_0_lookup; eauto).
    erewrite map_size_delete_Some by done. lia.
Qed.

Lemma light_checkin_failed c id e k p : light (checkin_failed c id e) k 0 p.
Proof.
  destruct (untrackConnectionInUse c id p) as [q|] eqn:Eu;
    [|eapply light_quiet; [unfold checkin_failed; rewrite Eu; reflexivity|lia|done..]].
  destruct (untrack_listed _ _ _ _ Eu) as [H1 H2].
  eapply (light_after _ _ k 0); [unfold checkin_failed; rewrite Eu; reflexivity| |exact H2|]; [|apply light_await; [done|apply light_close]].
  lia.
Qed.

Lemma light_discard c k p : light (discard c) k 0 p.
Proof.
  destruct (connection_at c p) as [x|] eqn:E; [|eapply light_quiet; [unfold discard; rewrite E; reflexivity|lia|done..]].
  destruct (untrackConnectionInUse c (id_seq x) p) as [q|] eqn:Eu;
    [|eapply light_quiet; [unfold discard; rewrite E, Eu; reflexivity|lia|done..]].
  destruct (untrack_listed _ _ _ _ Eu) as [H1 H2].
  eapply (light_after _ _ k 0); [unfold discard; rewrite E, Eu; reflexivity| |exact H2|]; [|apply light_await; [done|apply light_close]].
  lia.
Qed.

Lemma schedule_same ambient p : listed (scheduleIdleConnectionReaper ambient p) = listed p /\
  connectionsBeingSpawned (scheduleIdleConnectionReaper ambient p) = connectionsBeingSpawned p.
Proof.
  unfold scheduleIdleConnectionReaper. by destruct (idleConnectionReaperTimer p), (connections p) eqn:E, (idleTimeoutMillis ambient).
Qed.

Lemma light_schedule ambient k p : light (fun p => ok (scheduleIdleConnectionReaper ambient p)) k 0 p.
Proof.
  destruct (schedule_same ambient p) as [H1 H2]. eapply (light_after _ _ k 0); [reflexivity| |exact H2|apply light_ok]. lia.
Qed.

Lemma light_handleCheckedIn ambient k p : light (handleCheckedInIdleConnection ambient) k 0 p.
Proof.
  destruct (idleTimeoutMillis ambient) as [q|] eqn:E; [destruct (QArith_base.Qeq_bool q (QArith_base.Qmake 0 1)) eqn:Eq|].
  - eapply (light_after _ _ k 0); [unfold handleCheckedInIdleConnection; rewrite E, Eq; reflexivity|done|done|apply light_reap].
  - apply (light_after (fun p => ok (scheduleIdleConnectionReaper ambient p)) _ k 0 0 p p);
      [unfold handleCheckedInIdleConnection; by rewrite E, Eq|done|done|apply light_schedule].
  - apply (light_after (fun p => ok (scheduleIdleConnectionReaper ambient p)) _ k 0 0 p p);
      [unfold handleCheckedInIdleConnection; by rewrite E|done|done|apply light_schedule].
Qed.

Lemma light_closeAll_next cs k p : light (closeAll_next cs) k 0 p.
Proof. destruct cs; [apply light_ok|]. apply light_await; [done|]. apply light_close. Qed.

(** ** Frames *)

(** The configuration a frame decides by whether to spawn. *)
Definition decides_by (f : frame) : option config :=
  match f with
  | CheckoutReaped _ cfg => Some cfg
  | DrainCapacity w => Some (databaseConfig w)
  | _ => None
  end.

Definition room_of (f : frame) (p : pool) : nat := match decides_by f with Some cfg => room cfg p | None => 0 end.

Definition spawning_weight (f : frame) : nat := if spawning f then 1 else 0.

(** What a frame needs to know of the pool. *)
Definition frame_known (f : frame) (k : list frame) (p : pool) : Prop :=
  match f with
  | Activating _ _ => returned_raw k = 0%nat
  | Spawning _ => (0 < connectionsBeingSpawned p)%nat
  | CheckinCleaned _ (Some id) => is_Some (connectionsInUse p !! id)
  | _ => True
  end.

Lemma light_extra m k x p : light m k 0 p -> light m k x p.
Proof. apply light_weaken. lia. Qed.

Lemma light_throw e k x p : light (returns (Throw e)) k x p.
Proof. apply light_extra, (light_ret (Throw e)). Qed.

Lemma light_drain_frame ambient f v k p : plain f = false \/ f = DrainMatched \/ f = DrainContinue ->
  light (run_drain_frame ambient f v) k (hand (Ok v) (f :: k) + room_of f p) p.
Proof.
  intros Hf. destruct f; try (by destruct Hf as [Hf|[Hf|Hf]]); cbn [run_drain_frame].
  - apply light_extra. assert (light (fun p => match pendingCheckouts p with
      | [] => (p, (Settled (Throw TypeErrorUndefined), []))
      | w :: _ => await_then (closeIdleConnectionForPendingCheckoutCapacity ambient w) (DrainCapacity w) p end) k 0 p) as H.
    { destruct (pendingCheckouts p) as [|w l] eqn:E.
      - eapply light_quiet; [rewrite E; reflexivity|lia|done..].
      - eapply (light_after _ _ k 0); [rewrite E; reflexivity|done|done|]. apply light_await; [done|apply light_closeIdle]. }
    destruct v as [|[]|]; [done|apply light_drainActual|done|done].
  - assert (light (fun p =>
          if negb (includes w (pendingCheckouts p)) then drainPendingCheckoutsActual p else
          if canSpawnConnection (databaseConfig w) p
          then await_then (spawnAndResolvePendingCheckout w) DrainContinue (take_pending w (drop 1 (pendingCheckouts p)) p)
          else await_then (idleConnectionForPendingCheckout ambient w) (DrainIdle w) p) k (room (databaseConfig w) p) p) as H.
    { unfold room. destruct (includes w (pendingCheckouts p)) eqn:Ei;
        [destruct (canSpawnConnection (databaseConfig w) p) eqn:Es|].
      - eapply (light_after _ _ k 1); [rewrite Ei, Es; reflexivity|done|done|].
        apply light_await; [done|]. apply light_await; [done|apply light_spawn].
      - eapply (light_after _ _ k 0); [rewrite Ei, Es; reflexivity|done|done|].
        apply light_await; [done|apply light_idleFor].
      - apply light_extra. eapply (light_after _ _ k 0); [rewrite Ei; reflexivity|done|done|]. apply light_drainActual. }
    unfold room_of. cbn [decides_by]. apply (light_weaken _ _ (room (databaseConfig w) p)); [lia|].
    destruct v as [|[]|]; [done|apply light_extra, light_drainActual|done|done].
  - apply light_extra. destruct (findIdleConnectionForReuseKey (config_key (databaseConfig w)) p) eqn:E;
      [eapply light_quiet; [rewrite E; reflexivity|lia|done..]|].
    destruct (canSpawnConnection (databaseConfig w) p) eqn:Es; [eapply light_quiet; [rewrite E, Es; reflexivity|lia|done..]|].
    eapply (light_after _ _ k 0); [rewrite E, Es; reflexivity|done|done|]. apply light_closeOne.
  - destruct (includes w (pendingCheckouts p)) eqn:Ei.
    + destruct v as [| |c]; [apply light_extra; eapply light_quiet; [rewrite Ei; reflexivity|lia|done..]..|].
      eapply (light_after _ _ k 1); [rewrite Ei; reflexivity|unfold room_of, listed; cbn; lia|done|].
      apply light_await; [done|apply light_resolve].
    + apply light_extra. eapply (light_after _ _ k 0); [rewrite Ei; reflexivity|done|done|]. apply light_drainActual.
  - apply light_extra. destruct (includes w (pendingCheckouts p)) eqn:Ei;
      [|eapply light_quiet; [rewrite Ei; reflexivity|lia|done..]].
    destruct (takeIdleConnectionForReuseKey (config_key (databaseConfig w)) false p) as [[c q]|] eqn:E.
    + eapply light_take; [exact E|by rewrite Ei, E|apply returned_raw_le].
    + eapply light_quiet; [rewrite Ei, E; reflexivity|lia|done..].
  - apply light_extra, light_drainActual.
Qed.

Lemma light_run_frame ambient f r k p : frame_known f k p ->
  (listed (run_frame ambient f r p).1 + load ((run_frame ambient f r p).2.1, (run_frame ambient f r p).2.2 ++ k)
     <= listed p + hand r (f :: k) + room_of f p + spawns (f :: k))%nat /\
  (connectionsBeingSpawned (run_frame ambient f r p).1 + spawns (f :: k) =
     connectionsBeingSpawned p + spawns ((run_frame ambient f r p).2.2 ++ k))%nat.
Proof.
  intros Hk. destruct (spawning f) eqn:Hf.
  - destruct f; try done. cbn in Hk. rewrite spawns_cons. unfold load, in_hand, listed. cbn [spawning].
    pose proof (returned_raw_le k). destruct r as [[]|]; cbn [run_frame fst snd app hand]; (split; cbn; lia).
  - assert (light (run_frame ambient f r) k (hand r (f :: k) + room_of f p) p) as [H1 H2];
      [|rewrite spawns_cons, Hf; split; [lia|exact H2]].
    destruct f; try done.
    + destruct r; apply light_extra.
      * unfold light, load. cbn [run_frame returns fst snd app in_hand hand]. rewrite Hk. split; lia.
      * apply (light_after (await_then (closeConnection c) (Rethrow e)) _ k 0 0 p
          (on_connection c (with_id None) (set_in_use (delete id (connectionsInUse p)) p))); [done| |done|].
        -- unfold listed. cbn. pose proof (size_delete_le (connectionsInUse p) id). lia.
        -- apply light_await; [done|apply light_close].
    + destruct r; apply light_throw.
    + apply (light_weaken _ _ (hand r k)); [destruct r as [[]|]; cbn; lia|].
      apply (light_after (returns r) _ k (hand r k) _ p
        (set_inflight (List.filter (fun d => negb (bool_decide (d = c))) (inflightConnectionCloses p)) p));
        [by destruct r|done|done|apply light_ret].
    + destruct r; [apply light_extra, light_closeExpired|apply light_throw].
    + destruct r; [|apply light_throw]. apply light_extra, light_await; [done|apply light_awaitInflight].
    + destruct r; [apply light_extra, light_schedule|apply light_throw].
    + destruct r; [|apply light_extra, light_settle].
      apply (light_weaken _ _ (room cfg p)); [unfold room_of; cbn; lia|apply light_checkout_reaped].
    + destruct r as [[| |c]|]; try apply light_extra, light_settle.
      apply (light_weaken _ _ 1); [cbn; lia|]. apply light_await; [done|apply light_activate].
    + destruct r; apply light_extra, light_settle.
    + destruct r as [v|e]; [apply (light_weaken _ _ (hand (Ok v) k)); [destruct v; cbn; lia|apply light_ret]|].
      apply light_extra. destruct (reject_same e p) as [H1 H2].
      apply (light_after ok _ k 0 0 p (rejectPendingCheckouts e p)); [done|lia|exact H2|apply light_ok].
    + apply (light_weaken _ _ (hand r k)); [destruct r as [[]|]; cbn; lia|].
      apply (light_after (returns r) _ k (hand r k) _ p
        (set_drains (<[d := error_of r]> (drains p)) (set_drain None (next_drain p) p)));
        [by destruct r|done|done|apply light_ret].
    + destruct r; [apply light_drain_frame; auto|apply light_throw].
    + destruct r; [apply light_drain_frame; auto|apply light_throw].
    + destruct r; [apply light_drain_frame; auto|apply light_throw].
    + destruct r; [apply light_drain_frame; auto|apply light_throw].
    + destruct r; [apply light_drain_frame; auto|apply light_throw].
    + destruct r; [apply light_drain_frame; auto|apply light_throw].
    + destruct r as [[| |c]|]; try apply light_extra, light_settle.
      apply (light_weaken _ _ 1); [cbn; lia|]. apply light_resolve.
    + destruct r; apply light_extra, light_settle.
    + destruct r; [apply light_extra, (light_ret (Ok (Bool true)))|apply light_throw].
    + destruct r; [apply light_extra, light_ok|apply light_throw].
    + destruct r; apply light_extra; [apply light_checkin_cleaned|apply light_checkin_failed].
      intros i ->. exact Hk.
    + destruct r; [|apply light_throw]. apply light_extra. cbn [run_frame].
      destruct (bool_decide (c ∈ connections p)) eqn:E.
      * eapply (light_after _ _ k 0); [rewrite E; reflexivity|done|done|]. apply light_handleCheckedIn.
      * eapply (light_after _ _ k 0); [rewrite E; reflexivity|done|done|]. apply light_ok.
    + destruct r; apply light_extra, light_await; try done; apply light_drain.
    + destruct r; apply light_throw.
    + destruct r; apply light_extra, light_await; try done; apply light_drain.
    + destruct e; [destruct r; apply light_throw|].
      apply (light_weaken _ _ (hand r k)); [destruct r as [[]|]; cbn; lia|]. destruct r; apply light_ret.
    + destruct r; [apply light_extra, light_closeAll_next|apply light_throw].
Qed.

(** ** Steps *)

Lemma sum_calls_delete f l i x : l !! i = Some x -> sum_calls f l = (f x.2 + sum_calls f (delete i l))%nat.
Proof.
  revert i. induction l as [|y l IH]; intros [|i]; cbn; [done|done|by intros [= ->]|].
  intros H. rewrite (IH i H). apply Nat.add_shuffle3.
Qed.

Lemma sum_calls_insert f l i x y : l !! i = Some x -> sum_calls f (<[i := y]> l) = (f y.2 + sum_calls f (delete i l))%nat.
Proof.
  revert i. induction l as [|z l IH]; intros [|i] H; [done|done|done|].
  change (<[S i := y]> (z :: l)) with (z :: <[i := y]> l). change (delete (S i) (z :: l)) with (z :: delete i l).
  cbn [sum_calls]. rewrite (IH i H). apply Nat.add_shuffle3.
Qed.

Lemma sum_calls_app f l l' : sum_calls f (l ++ l') = (sum_calls f l + sum_calls f l')%nat.
Proof. induction l as [|x l IH]; cbn; [done|]. rewrite IH. lia. Qed.

Lemma sum_calls_le f g l : (forall x, x ∈ l -> f x.2 <= g x.2)%nat -> (sum_calls f l <= sum_calls g l)%nat.
Proof.
  induction l as [|x l IH]; intros H; cbn; [done|].
  pose proof (H x (list_elem_of_here _ _)). assert (forall y, y ∈ l -> f y.2 <= g y.2)%nat as Hl by (intros y ?; apply H; by right).
  specialize (IH Hl). lia.
Qed.

Definition in_hand_somewhere (p : pool) : Prop := exists x, x ∈ calls p /\ (0 < in_hand x.2)%nat.

(** A step of a run in which a connection that is in hand is activated at once; the pool is not
    closed, and every decision whether to spawn is made under a maximum of at most [max]. *)
Definition prompt_step (max : nat) (p p' : pool) : Prop :=
  exists a, perform a p = Some p' /\ closes_pool a = false /\
    (forall i driver ambient w f fs cfg, a = ResumeCall i driver -> calls p !! i = Some (ambient, (w, f :: fs)) ->
       decides_by f = Some cfg -> exists q, maxConnections cfg = Some q /\ QArith_base.Qle q (QArith_base.inject_Z (Z.of_nat max))) /\
    (in_hand_somewhere p -> exists i driver x, a = ResumeCall i driver /\ calls p !! i = Some x /\ (0 < in_hand x.2)%nat).

Record bounded (max : nat) (p : pool) : Prop := {
  bo_owned : well_owned True p;
  bo_total : (total p <= max)%nat;
  bo_spawning : connectionsBeingSpawned p = sum_calls (fun c => spawns c.2) (calls p)
}.

(** *** Counting *)

Lemma omap_seq_lookup (m : gmap nat nat) n : (forall i x, m !! i = Some x -> (i < n)%nat) ->
  length (omap (fun i => m !! i) (seq 0 n)) = size m.
Proof.
  revert m. induction n as [|n IH]; intros m Hm.
  - cbn. symmetry. apply map_size_empty_iff, map_empty. intros i. destruct (m !! i) eqn:E; [|done]. apply Hm in E. lia.
  - rewrite seq_S, omap_app, length_app. cbn.
    assert (omap (fun i => m !! i) (seq 0 n) = omap (fun i => delete n m !! i) (seq 0 n)) as ->.
    { assert (forall i, i ∈ seq 0 n -> (i < n)%nat) as Hl by (intros i Hi%elem_of_seq; lia).
      revert Hl. generalize (seq 0 n). intros l. induction l as [|i l IHl]; intros Hl; cbn; [done|].
      pose proof (Hl i (list_elem_of_here _ _)). rewrite lookup_delete_ne by lia. rewrite IHl; [done|]. intros j ?. apply Hl. by right. }
    rewrite IH; [|intros i x [Hne Hi]%lookup_delete_Some; apply Hm in Hi; lia].
    destruct (m !! n) as [x|] eqn:E; cbn.
    + assert (size m <> 0%nat) by (rewrite map_size_ne_0_lookup; eauto). erewrite map_size_delete_Some by done. lia.
    + rewrite map_size_delete_None by done. lia.
Qed.

Lemma well_owned_in_use reg p id c : well_owned reg p -> connectionsInUse p !! id = Some c ->
  (id < idSeq p)%nat /\ exists k, heap p !! c = Some k /\ id_seq k = Some id.
Proof.
  intros H Hc. destruct (co_in_use _ _ _ _ _ _ H id c Hc) as (k & Hk & Hi). split; [|eauto].
  by eapply (co_ids _ _ _ _ _ _ H).
Qed.

(** Nothing is counted twice. *)
Lemma live_count p reg : well_owned reg p -> liveConnectionCount p = (listed p + connectionsBeingSpawned p)%nat.
Proof.
  intros H. unfold liveConnectionCount, listed. f_equal. rewrite size_list_to_set.
  - rewrite length_app. f_equal. apply omap_seq_lookup. intros i x Hi. by apply (well_owned_in_use _ _ _ _ H Hi).
  - assert (forall c, c ∈ in_use_values p -> exists id, connectionsInUse p !! id = Some c) as Hv.
    { intros c (id & _ & Hid)%list_elem_of_omap. by exists id. }
    apply NoDup_app. split; [|split].
    + pose proof (co_once _ _ _ _ _ _ H) as Hn. rewrite owned_app in Hn. apply NoDup_app in Hn as [Hn _].
      clear -Hn. induction (connections p) as [|c l IH]; [constructor|]. cbn in Hn. apply NoDup_cons in Hn as [Hc Hn].
      apply NoDup_cons. split; [|by apply IH]. intros Hin. apply Hc, (owned_elem c Raw None). by apply list_elem_of_fmap_2' with c.
    + intros c Hc (id & Hid)%Hv. destruct (well_owned_in_use _ _ _ _ H Hid) as (_ & k & Hk & Hi).
      pose proof (co_holds _ _ _ _ _ _ H) as Hh. rewrite Forall_forall in Hh. destruct (Hh (Owns c Raw None)) as (k' & Hk' & Hr & _).
      { apply elem_of_app. left. by apply list_elem_of_fmap_2' with c. }
      cbn in Hr. congruence.
    + unfold in_use_values. generalize (idSeq p) at 1. intros n.
      assert (NoDup (seq 0 n)) as Hn by apply NoDup_seq. induction Hn as [|i l Hi _ IH]; cbn; [constructor|].
      destruct (connectionsInUse p !! i) as [c|] eqn:Ec; [|done]. apply NoDup_cons. split; [|done].
      intros (j & Hj & Ej)%list_elem_of_omap. destruct (well_owned_in_use _ _ _ _ H Ec) as (_ & k & Hk & Hki).
      destruct (well_owned_in_use _ _ _ _ H Ej) as (_ & k' & Hk' & Hkj). assert (i = j) as -> by congruence. done.
Qed.

(** *** The bound is kept *)

Lemma returned_active c k fs : returned_claims c fs = [Owns c Active k] -> returned_raw fs = 0%nat.
Proof. induction fs as [|[] fs IH]; cbn; try done. by destruct e. Qed.

Lemma sound_holds reg p l x : sound reg p l -> x ∈ l -> holds (heap p) x.
Proof.
  intros H Hx. pose proof (co_holds _ _ _ _ _ _ H) as Hh. rewrite Forall_forall in Hh. apply Hh.
  rewrite !elem_of_app. tauto.
Qed.

Lemma sound_frame_known f fs r p R : sound True p (result_claims r (f :: fs) ++ stack_claims (f :: fs) ++ R) ->
  (0 < spawns (f :: fs) -> 0 < connectionsBeingSpawned p)%nat -> frame_known f fs p.
Proof.
  intros H Hs. assert (forall x, x ∈ frame_claims f fs -> holds (heap p) x) as Hh.
  { intros x Hx. eapply sound_holds; [exact H|]. cbn [stack_claims]. rewrite !elem_of_app. tauto. }
  destruct f as [c id| | | | | | |key| | | | | | | | | | | | | | |c [id|]| | | | | |]; try done.
  - pose proof (Hh _ (list_elem_of_here _ _)) as Hk. cbn in Hk. by eapply returned_active.
  - apply Hs. rewrite spawns_cons. cbn. lia.
  - destruct (Hh _ (list_elem_of_here _ _)) as (k & Hk & Hid & _). cbn in Hid. cbn. exists c.
    eapply (co_registered _ _ _ _ _ _ H I c (Id id) None k); [|done|done]. rewrite !elem_of_app. cbn. set_solver.
Qed.

Lemma wait_result_same w driver p r q : wait_result w driver p = Some (r, q) ->
  listed q = listed p /\ connectionsBeingSpawned q = connectionsBeingSpawned p /\ (forall f, room_of f q = room_of f p).
Proof.
  destruct w as [r'|c|c| |c|cs|d]; cbn; try (by intros [= _ <-]).
  - by destruct driver; intros [= _ <-].
  - destruct (connection_at c p ≫= close_promise) as [[[]|]|]; by intros; simplify_eq.
  - destruct (forallb _ _); by intros; simplify_eq.
  - destruct (drains p !! d) as [[e|]|]; by intros; simplify_eq.
Qed.

Lemma wait_result_hand w driver p r q fs R : wait_result w driver p = Some (r, q) ->
  sound True p (call_claims (w, fs) ++ R) -> (hand r fs <= in_hand (w, fs))%nat.
Proof.
  intros H HR. destruct w as [r'|c|c| |c|cs|d]; cbn in H.
  - by injection H as <- <-.
  - destruct driver; by injection H as <- <-.
  - destruct driver; by injection H as <- <-.
  - pose proof (sound_holds _ _ _ (Fact (exists key fs', fs = Spawning key :: fs')) HR) as (key & fs' & ->).
    { unfold call_claims. cbn. by left. }
    destruct driver; by injection H as <- <-.
  - destruct (connection_at c p ≫= close_promise) as [[[]|]|]; by simplify_eq.
  - destruct (forallb _ _); by simplify_eq.
  - destruct (drains p !! d) as [[e|]|]; by simplify_eq.
Qed.

Lemma room_decided f p max cfg : bounded max p -> decides_by f = Some cfg ->
  (exists q, maxConnections cfg = Some q /\ QArith_base.Qle q (QArith_base.inject_Z (Z.of_nat max))) ->
  ~ in_hand_somewhere p -> (total p + room_of f p <= max)%nat.
Proof.
  intros [H1 H2 H3] Hd (q & Hq & Hle) Hno. unfold room_of. rewrite Hd. unfold room.
  destruct (canSpawnConnection cfg p) eqn:E; [|lia].
  unfold canSpawnConnection in E. rewrite Hq in E. unfold Qltb in E. apply negb_true_iff in E.
  assert (liveConnectionCount p < max)%nat as Hlt.
  { destruct (le_lt_dec max (liveConnectionCount p)) as [Hge|]; [|done]. exfalso.
    apply Bool.not_true_iff_false in E. apply E, QArith_base.Qle_bool_iff. eapply QArith_base.Qle_trans; [exact Hle|].
    rewrite <- QArith_base.Zle_Qle. lia. }
  rewrite (live_count _ _ H1), H3 in Hlt. unfold total.
  assert (sum_calls load (calls p) <= sum_calls (fun c => spawns c.2) (calls p))%nat; [|lia].
  apply sum_calls_le. intros x Hx. unfold load. destruct (in_hand x.2) eqn:Eh; [done|].
  exfalso. apply Hno. exists x. split; [done|]. rewrite Eh. lia.
Qed.

Lemma bounded_resume max i driver p p' : resume i driver p = Some p' -> well_owned True p' -> bounded max p ->
  (forall ambient w f fs, calls p !! i = Some (ambient, (w, f :: fs)) -> (total p + room_of f p <= max)%nat) -> bounded max p'.
Proof.
  unfold resume. destruct (calls p !! i) as [[ambient [w fs]]|] eqn:Ei; [|done].
  destruct (wait_result w driver p) as [[r q]|] eqn:Ew; [|done]. intros H Ho' [Ho Ht Hs] Hroom.
  unfold well_owned in Ho. rewrite (all_claims_delete _ _ _ Ei) in Ho.
  destruct (wait_result_same _ _ _ _ _ Ew) as (Hl & Hb & Hr). pose proof (wait_result_hand _ _ _ _ _ _ _ Ew Ho) as Hh.
  destruct (sound_wait_result _ _ _ _ _ _ _ _ Ew Ho) as [Hq Hc].
  unfold total in *. rewrite (sum_calls_delete load _ _ _ Ei) in Ht, Hroom. cbn [snd] in Ht, Hroom.
  rewrite (sum_calls_delete _ _ _ _ Ei) in Hs. cbn [snd] in Hs. destruct fs as [|f fs].
  - injection H as <-. split; [done|..].
    + unfold total. cbn [calls set_calls]. rewrite Hc. change (listed (set_calls _ q)) with (listed q). lia.
    + change (connectionsBeingSpawned (set_calls _ q)) with (connectionsBeingSpawned q).
      cbn [calls set_calls]. rewrite Hc, Hb. exact Hs.
  - specialize (Hroom _ _ _ _ eq_refl).
    assert (frame_known f fs q) as Hk by (eapply sound_frame_known; [exact Hq|lia]).
    destruct (light_run_frame ambient f r fs q Hk) as [H1 H2].
    destruct (safe_run_frame True ambient f r fs q (all_claims (delete i (calls p)))) as [_ Hcalls].
    { rewrite <- app_assoc. cbn [stack_claims] in Hq. by rewrite <- app_assoc in Hq. }
    destruct (run_frame ambient f r q) as [q' [w' gs]]. injection H as <-. cbn [fst snd] in *.
    rewrite Hl, (Hr f) in H1. unfold load in Hroom at 1. cbn [snd] in Hroom.
    split; [done|..]; unfold total; cbn [calls set_calls]; rewrite Hcalls, Hc, (sum_calls_insert _ _ _ _ _ Ei); cbn [snd].
    + change (listed (set_calls _ q')) with (listed q'). lia.
    + change (connectionsBeingSpawned (set_calls _ q')) with (connectionsBeingSpawned q'). lia.
Qed.

Lemma bounded_start max ambient m p q : light m [] 0 q -> calls (m q).1 = calls q ->
  listed q = listed p -> connectionsBeingSpawned q = connectionsBeingSpawned p -> calls q = calls p ->
  well_owned True (start ambient m q) -> bounded max p -> bounded max (start ambient m q).
Proof.
  intros [H1 H2] Hm Hl Hb Hc Ho [_ Ht Hs]. unfold start in *. destruct (m q) as [q' [w fs]]. cbn [fst snd] in *.
  rewrite app_nil_r in *. split; [done|..].
  - unfold total in *. cbn [calls set_calls]. change (listed (set_calls _ q')) with (listed q').
    rewrite Hm, Hc, sum_calls_app. cbn [sum_calls snd]. change (spawns []) with 0%nat in H1. lia.
  - cbn [calls set_calls]. change (connectionsBeingSpawned (set_calls _ q')) with (connectionsBeingSpawned q').
    rewrite Hm, Hc, sum_calls_app. cbn [sum_calls snd]. change (spawns []) with 0%nat in H2. lia.
Qed.

Lemma bounded_same max p q : listed q = listed p -> connectionsBeingSpawned q = connectionsBeingSpawned p -> calls q = calls p ->
  well_owned True q -> bounded max p -> bounded max q.
Proof.
  intros Hl Hb Hc Ho [_ Ht Hs]. split; [done|..]; unfold total in *; rewrite ?Hl, ?Hb, Hc; done.
Qed.

Lemma bounded_step max p p' : prompt_step max p p' -> bounded max p -> bounded max p'.
Proof.
  intros (a & Ha & Hcl & Hcfg & Hpr) H. pose proof H as [Ho _ _].
  assert (well_owned True p') as Ho' by (eapply well_owned_perform; eauto).
  destruct a as [cfg cfg'|ambient t|ambient t|t n|i driver|c s|h| |ms|ambient]; cbn in Ha; [..|done].
  - injection Ha as <-. apply (bounded_start max cfg _ p); [apply light_checkout| |done..].
    apply (fine_checkout (next_ticket p) cfg cfg').
  - destruct (outcomes p !! t) as [[c id key| |]|]; try done. injection Ha as <-.
    apply (bounded_start max ambient _ p); [apply light_checkin| |done..]. apply fine_checkin.
  - destruct (outcomes p !! t) as [[c id key| |]|]; try done. injection Ha as <-.
    apply (bounded_start max ambient _ p); [apply light_discard| |done..]. apply fine_discard.
  - destruct (outcomes p !! t) as [[c id key| |]|]; try done. injection Ha as <-. by apply (bounded_same max p).
  - eapply bounded_resume; [exact Ha|done|done|]. intros ambient w f fs Ei. pose proof H as [_ Ht _].
    destruct (decides_by f) as [cfg|] eqn:Ed; [|unfold room_of; rewrite Ed; lia].
    eapply room_decided; [done|exact Ed|by eapply Hcfg|]. intros Hs. destruct (Hpr Hs) as (i' & driver' & x & Heq & Ei' & Hx).
    injection Heq as <- <-. pose proof (eq_trans (eq_sym Ei') Ei) as E; injection E as ->. assert (in_hand (w, f :: fs) = 0%nat) as E0; [|cbn [snd] in Hx; rewrite E0 in Hx; lia].
    unfold in_hand. cbn [fst snd]. destruct w as [r| | | | | |]; try done. destruct r as [[]|]; try done. by destruct f.
  - unfold close_settles in Ha. destruct (_ ≫= _) as [[|]|]; try done. injection Ha as <-. by apply (bounded_same max p).
  - destruct (_ ≫= _) as [q|]; [|done]. destruct (QArith_base.Qle_bool _ _); [|done]. injection Ha as <-.
    revert Ho'. unfold timeoutPendingCheckout. destruct (take_first _ _) as [[w rest]|]; [|done]. intros Ho'.
    destruct (settle_same (ticket w) (config_key (databaseConfig w)) (Throw TimedOut) (set_pending rest p)) as [H1 H2].
    apply (bounded_same max p); [exact H1|exact H2| |done|done].
    by destruct (evolves_settle (ticket w) (config_key (databaseConfig w)) (Throw TimedOut) (set_pending rest p)).
  - destruct (idleConnectionReaperTimer p) as [[due cfg]|]; [|done]. destruct (QArith_base.Qle_bool _ _); [|done]. injection Ha as <-.
    apply (bounded_start max cfg _ p); [apply light_reap| |done..]. apply fine_reap.
  - injection Ha as <-. by apply (bounded_same max p).
Qed.

Lemma bounded_new max : bounded max new_pool.
Proof. split; [apply well_owned_new|change (0 <= max)%nat; lia|done]. Qed.

(** C37: The pool never has more connections than its maximum, counting those that are idle, in
    use, being spawned, and in the hand of a suspended call: for every run that does not close
    the pool, whose configurations set no larger maximum, and in which a connection in hand is
    activated before other calls go on. *)
Theorem maximum_is_respected max p :
  rtc (prompt_step max) new_pool p -> (liveConnectionCount p <= max)%nat /\ (total p <= max)%nat.
Proof.
  assert (forall q, rtc (prompt_step max) q p -> bounded max q -> bounded max p) as Hrtc.
  { intros q. induction 1; eauto using bounded_step. }
  intros H. destruct (Hrtc _ H (bounded_new max)) as [Ho Ht Hs]. split; [|done].
  rewrite (live_count _ _ Ho), Hs. unfold total in Ht.
  assert (sum_calls (fun c => spawns c.2) (calls p) <= sum_calls load (calls p))%nat; [|lia].
  apply sum_calls_le. intros x _. unfold load. lia.
Qed.

(** ** Runs *)

(** What [prompt_step] asks of an action, as a test. *)
Definition has_hand (i : nat) (p : pool) : bool :=
  match calls p !! i with Some x => bool_decide (0 < in_hand x.2)%nat | None => false end.

Definition decides_within (max : nat) (i : nat) (p : pool) : bool :=
  match calls p !! i with
  | Some (_, (_, f :: _)) =>
      match decides_by f with
      | Some cfg =>
          match maxConnections cfg with Some q => QArith_base.Qle_bool q (QArith_base.inject_Z (Z.of_nat max)) | None => false end
      | None => true
      end
  | _ => true
  end.

Definition prompt (max : nat) (a : action) (p : pool) : bool :=
  negb (closes_pool a) &&
  match a with
  | ResumeCall i _ => decides_within max i p && (has_hand i p || negb (existsb (fun x => bool_decide (0 < in_hand x.2)%nat) (calls p)))
  | _ => negb (existsb (fun x => bool_decide (0 < in_hand x.2)%nat) (calls p))
  end.

Fixpoint run_prompt (max : nat) (actions : list action) (p : pool) : option pool :=
  match actions with
  | [] => Some p
  | a :: actions =>
      if prompt max a p then match perform a p with Some p => run_prompt max actions p | None => None end else None
  end.

Lemma no_hands p : existsb (fun x => bool_decide (0 < in_hand x.2)%nat) (calls p) = false -> ~ in_hand_somewhere p.
Proof.
  intros H (x & Hx & Hh). apply Bool.not_true_iff_false in H. apply H. apply existsb_exists. exists x.
  split; [by apply list_elem_of_In|]. by apply bool_decide_eq_true.
Qed.

Lemma prompt_perform max a p p' : prompt max a p = true -> perform a p = Some p' -> prompt_step max p p'.
Proof.
  intros [Hc H]%andb_true_iff Ha. apply negb_true_iff in Hc. exists a. split; [done|]. split; [done|].
  destruct a as [| | | |i driver| | | | |]; try (split; [done|]; apply negb_true_iff, no_hands in H; done).
  apply andb_true_iff in H as [Hd H]. split.
  - intros i' driver' ambient w f fs cfg [= <- <-] Hi Hf. unfold decides_within in Hd. rewrite Hi, Hf in Hd.
    destruct (maxConnections cfg) as [q|]; [|done]. exists q. split; [done|]. by apply QArith_base.Qle_bool_iff.
  - apply orb_true_iff in H as [H|H]; [|apply negb_true_iff, no_hands in H; done].
    intros _. unfold has_hand in H. destruct (calls p !! i) as [x|] eqn:E; [|done].
    exists i, driver, x. split; [done|]. split; [done|]. by apply bool_decide_eq_true in H.
Qed.

Lemma run_prompt_steps max actions p q : run_prompt max actions p = Some q -> rtc (prompt_step max) p q.
Proof.
  revert p. induction actions as [|a actions IH]; intros p; cbn; [by intros [= ->]|].
  destruct (prompt max a p) eqn:Ep; [|done]. destruct (perform a p) as [p'|] eqn:E; [|done].
  intros H. eapply rtc_l; [by eapply prompt_perform|]. by apply IH.
Qed.

(** Three callers share the one connection: the whole run is prompt. *)
Lemma maximum_is_respected_witness :
  run_prompt 1 passed_on new_pool = Some (after passed_on) /\ (liveConnectionCount (after passed_on) <= 1)%nat.
Proof.
  assert (run_prompt 1 passed_on new_pool = Some (after passed_on)) as Hr by (vm_compute; reflexivity).
  split; [exact Hr|]. by apply (maximum_is_respected 1 _ (run_prompt_steps _ _ _ _ Hr)).
Defined.

(** Otherwise the maximum can be exceeded: a second caller decides between the end of a
    connection's spawning and its activation. *)
Example maximum_is_exceeded :
  let cfg := configured "a" 1 in
  let p := after ([Checkout cfg cfg; Checkout cfg cfg] ++ goes_on 0 2 ++ goes_on 1 1 ++ goes_on 0 4 ++ goes_on 0 5) in
  outcomes p !! 0%nat = Some (Holding 0 0 "a") /\ outcomes p !! 1%nat = Some (Holding 1 1 "a") /\ liveConnectionCount p = 2%nat.
Proof. vm_compute. done. Qed.
