(* ===== verification/ConnectionPoolIdle.v ===== *)
(** * Idle connections have no open transaction

    A connection becomes idle only when its cleaning has rolled back what was open, and only
    its holder opens a transaction. So whoever waits while the pool can neither match, nor
    spawn, nor close a connection waits for one that is in use.

    [tidies m]: running [m] up to its next [await] makes no connection idle that has an open
    transaction, and opens none. *)

From stdpp Require Import base strings gmap list relations.
From S2P Require Import Prelude ConnectionPool ConnectionPoolCorrect.
Local Open Scope nat_scope.

Definition transactions_of (p : pool) (c : nat) : nat := from_option transactions_count 0 (heap p !! c).

Record tidy (p q : pool) : Prop := {
  tidy_idle : forall c, c ∈ connections q -> c ∈ connections p \/ transactions_of q c = 0;
  tidy_count : forall c, transactions_of q c = transactions_of p c \/ transactions_of q c = 0
}.

Definition tidies (m : computation) : Prop := forall p, tidy p (m p).1.

Lemma tidy_refl p : tidy p p.
Proof. split; by left. Qed.

Lemma tidy_trans p q r : tidy p q -> tidy q r -> tidy p r.
Proof.
  intros [H1 H2] [H3 H4]. split.
  - intros c [Hc|?]%H3; [|by right]. destruct (H1 c Hc) as [?|H0]; [by left|right]. destruct (H4 c); [congruence|done].
  - intros c. destruct (H4 c) as [->|?]; [apply H2|by right].
Qed.

Lemma tidy_same p q : connections q = connections p -> heap q = heap p -> tidy p q.
Proof. intros H1 H2. split; intros c; unfold transactions_of; rewrite ?H1, ?H2; by left. Qed.

Lemma tidy_fewer p l : (forall c, c ∈ l -> c ∈ connections p) -> tidy p (set_connections l p).
Proof. intros H. split; intros c; [intros Hc; left; by apply H|by left]. Qed.

Lemma tidy_connection c f p : (forall k, transactions_count (f k) = transactions_count k \/ transactions_count (f k) = 0) ->
  tidy p (on_connection c f p).
Proof.
  intros Hf. split; intros d; [by left|]. unfold transactions_of. cbn. destruct (decide (c = d)) as [->|].
  - rewrite lookup_alter_eq. destruct (heap p !! d) as [k|]; cbn; [apply Hf|by left].
  - rewrite lookup_alter_ne by done. by left.
Qed.

Lemma tidy_new p : tidy p (new_connection p).2.
Proof.
  split; intros d; [by left|]. unfold transactions_of. cbn. destruct (decide (next_connection p = d)) as [->|].
  - rewrite lookup_insert_eq. by right.
  - rewrite lookup_insert_ne by done. by left.
Qed.

Lemma tidies_returns r : tidies (returns r).
Proof. intros p. apply tidy_refl. Qed.

Lemma tidies_await m f : tidies m -> tidies (await_then m f).
Proof. intros H p. specialize (H p). unfold await_then. by destruct (m p) as [q [w fs]]. Qed.

(** A computation that goes on from a changed pool. *)
Lemma tidy_then (m : computation) p q : tidy p q -> tidies m -> tidy p (m q).1.
Proof. intros H Hm. by eapply tidy_trans. Qed.

Create HintDb tidy.
#[local] Hint Resolve tidy_refl tidies_returns tidies_await tidy_then : tidy.
#[local] Hint Extern 3 (tidy _ _) => apply tidy_same; reflexivity : tidy.
#[local] Hint Extern 2 (tidy _ (on_connection _ _ _)) => apply tidy_connection; intros ?; cbn; auto : tidy.
#[local] Hint Extern 2 (tidy _ (set_connections (List.filter _ _) _)) =>
  apply tidy_fewer; intros ?; rewrite !list_elem_of_In, List.filter_In; tauto : tidy.

(** Assignments that concern neither the idle connections nor their transactions. *)
Ltac tidy_up := repeat (cbn [fst snd]; lazymatch goal with
  | |- tidy ?p (set_in_use _ ?q) => apply (tidy_trans p q); [|apply tidy_same; reflexivity]
  | |- tidy ?p (set_pending _ ?q) => apply (tidy_trans p q); [|apply tidy_same; reflexivity]
  | |- tidy ?p (set_spawned _ ?q) => apply (tidy_trans p q); [|apply tidy_same; reflexivity]
  | |- tidy ?p (set_drain _ _ ?q) => apply (tidy_trans p q); [|apply tidy_same; reflexivity]
  | |- tidy ?p (set_drains _ ?q) => apply (tidy_trans p q); [|apply tidy_same; reflexivity]
  | |- tidy ?p (set_timer _ ?q) => apply (tidy_trans p q); [|apply tidy_same; reflexivity]
  | |- tidy ?p (set_inflight _ ?q) => apply (tidy_trans p q); [|apply tidy_same; reflexivity]
  | |- tidy ?p (set_idSeq _ ?q) => apply (tidy_trans p q); [|apply tidy_same; reflexivity]
  | |- tidy ?p (set_next _ _ _ ?q) => apply (tidy_trans p q); [|apply tidy_same; reflexivity]
  | |- tidy ?p (set_outcomes _ ?q) => apply (tidy_trans p q); [|apply tidy_same; reflexivity]
  | |- tidy ?p (set_now _ ?q) => apply (tidy_trans p q); [|apply tidy_same; reflexivity]
  | |- tidy ?p (set_calls _ ?q) => apply (tidy_trans p q); [|apply tidy_same; reflexivity]
  | |- tidy ?p (take_pending _ _ ?q) => apply (tidy_trans p q); [|apply tidy_same; reflexivity]
  | |- tidy ?p (on_connection _ _ ?q) => apply (tidy_trans p q); [|apply tidy_connection; intros ?; cbn; auto]
  end); eauto with tidy.

Lemma tidies_ok : tidies ok.
Proof. apply tidies_returns. Qed.
#[local] Hint Resolve tidies_ok : tidy.

Lemma tidies_close c : tidies (closeConnection c).
Proof.
  intros p. unfold closeConnection. destruct (connection_at c p) as [k|]; [|apply tidy_refl].
  destruct (close_promise k); [apply tidy_refl|tidy_up].
Qed.
#[local] Hint Resolve tidies_close : tidy.

Lemma tidies_closeExpired cs : tidies (closeExpiredIdleConnections cs).
Proof. destruct cs; cbn; auto with tidy. Qed.
#[local] Hint Resolve tidies_closeExpired : tidy.

Lemma tidies_inflight : tidies awaitInflightConnectionCloses.
Proof. intros p. unfold awaitInflightConnectionCloses. destruct (inflightConnectionCloses p); apply tidy_refl. Qed.

Lemma tidy_schedule cfg p : tidy p (scheduleIdleConnectionReaper cfg p).
Proof.
  unfold scheduleIdleConnectionReaper. destruct (idleConnectionReaperTimer p), (connections p), (idleTimeoutMillis cfg); auto with tidy.
Qed.

Lemma tidies_reap cfg : tidies (reapIdleConnections cfg).
Proof.
  intros p. unfold reapIdleConnections. destruct (connections p) eqn:E; [apply tidy_refl|]. destruct (idleTimeoutMillis cfg); [|apply tidy_refl].
  unfold classifyIdleConnections. rewrite E, <- E. apply tidy_then; auto with tidy.
Qed.

Lemma tidies_activate c : tidies (activateConnection c).
Proof.
  intros p. unfold activateConnection. destruct (connection_at c p) as [k|]; [|apply tidy_refl]. destruct (id_seq k); [apply tidy_refl|].
  tidy_up.
Qed.
#[local] Hint Resolve tidies_inflight tidy_schedule tidies_reap tidies_activate : tidy.

Lemma tidy_settle t key r p : tidy p (settle t key r p).
Proof.
  unfold settle. destruct (outcomes p !! t); [apply tidy_refl|]. destruct r as [[|b|c]|e]; auto with tidy.
  destruct (_ ≫= _); auto with tidy.
Qed.
#[local] Hint Resolve tidy_settle : tidy.

Lemma tidy_reject e p : tidy p (rejectPendingCheckouts e p).
Proof.
  unfold rejectPendingCheckouts. apply (tidy_trans _ (set_pending [] p)); [by apply tidy_same|]. generalize (set_pending [] p) as q.
  induction (pendingCheckouts p) as [|w l IH]; intros q; cbn [foldl]; [apply tidy_refl|]. eapply tidy_trans; [apply tidy_settle|apply IH].
Qed.

Lemma tidy_take key b p c q : takeIdleConnectionForReuseKey key b p = Some (c, q) -> tidy p q.
Proof.
  unfold takeIdleConnectionForReuseKey. destruct (take_first _ _) as [[x rest]|] eqn:E; [|done]. intros [= _ <-].
  apply take_first_spec in E as (l1 & l2 & E & -> & _). apply tidy_fewer. intros d. rewrite E. set_solver.
Qed.

Lemma tidy_match before l p w rest c q : match_pending before l p = Some (w, rest, c, q) -> tidy p q.
Proof.
  revert before. induction l as [|x l IH]; intros before; cbn; [done|].
  destruct (takeIdleConnectionForReuseKey _ _ _) as [[]|] eqn:E; [|by apply IH]. intros [= _ _ _ <-]. by eapply tidy_take.
Qed.

#[local] Hint Resolve tidy_reject tidy_take tidy_match : tidy.

Lemma tidies_resolve w c : tidies (resolvePendingCheckout w c).
Proof. unfold resolvePendingCheckout. auto with tidy. Qed.
#[local] Hint Resolve tidies_resolve : tidy.

Lemma tidies_drainActual : tidies drainPendingCheckoutsActual.
Proof.
  intros p. unfold drainPendingCheckoutsActual. destruct (pendingCheckouts p); [apply tidy_refl|]. apply tidies_await. clear. intros p.
  unfold resolvePendingCheckoutWithMatchingIdleConnection. destruct (match_pending _ _ p) as [[[[w rest] c] q]|] eqn:E; [|apply tidy_refl].
  apply tidy_then; [tidy_up|auto with tidy].
Qed.
#[local] Hint Resolve tidies_drainActual : tidy.

Lemma tidies_drain : tidies drainPendingCheckouts.
Proof.
  intros p. unfold drainPendingCheckouts. destruct (pendingCheckoutDrainPromise p); [apply tidy_refl|].
  pose proof (tidies_drainActual p) as H. destruct (drainPendingCheckoutsActual p) as [q [w fs]]. cbn in *.
  by tidy_up.
Qed.

Lemma tidies_closeOne : tidies closeOneIdleConnectionForCapacity.
Proof.
  intros p. unfold closeOneIdleConnectionForCapacity. destruct (List.find _ _); [|apply tidy_refl]. apply tidy_then; auto with tidy.
Qed.

Lemma tidies_spawn key : tidies (spawnConnectionForCheckout key).
Proof. intros p. by apply tidy_same. Qed.
#[local] Hint Resolve tidies_drain tidies_closeOne tidies_spawn : tidy.

Lemma tidies_spawnFor w : tidies (spawnAndResolvePendingCheckout w).
Proof. unfold spawnAndResolvePendingCheckout. auto with tidy. Qed.

Lemma tidies_wait t cfg : tidies (waitForCheckout t cfg).
Proof. intros p. unfold waitForCheckout. apply tidy_then; auto with tidy. Qed.
#[local] Hint Resolve tidies_spawnFor tidies_wait : tidy.

Lemma tidies_checkout t cfg cfg' : tidies (checkout t cfg cfg').
Proof.
  intros p. unfold checkout. destruct (takeIdleConnectionForReuseKey _ _ p) as [[c q]|] eqn:E; [|apply tidies_await; auto with tidy].
  apply tidy_then; eauto with tidy.
Qed.

Lemma tidies_checkout_reaped t cfg : tidies (checkout_reaped t cfg).
Proof.
  intros p. unfold checkout_reaped. destruct (takeIdleConnectionForReuseKey _ _ p) as [[c q]|] eqn:E; [apply tidy_then; eauto with tidy|].
  destruct (canSpawnConnection cfg p); [apply tidies_await|]; auto with tidy.
Qed.

Lemma tidy_untrack c id p q : untrackConnectionInUse c id p = Some q -> tidy p q.
Proof.
  unfold untrackConnectionInUse. destruct id as [id|]; [|done]. intros [= <-].
  tidy_up.
Qed.
#[local] Hint Resolve tidies_checkout tidies_checkout_reaped tidy_untrack : tidy.

Lemma tidies_checkin c : tidies (checkin c).
Proof.
  intros p. unfold checkin. destruct (connection_at c p) as [k|]; [|apply tidy_refl]. destruct (closed_connection k); [|apply tidy_refl].
  destruct (untrackConnectionInUse _ _ _) eqn:E; [|apply tidy_refl]. apply tidy_then; eauto with tidy.
Qed.

(** A connection goes back to the idle ones with its transactions rolled back. *)
Lemma tidies_cleaned c id : tidies (checkin_cleaned c id).
Proof.
  intros p. unfold checkin_cleaned. destruct (untrackConnectionInUse _ _ _) as [q|] eqn:E; [|apply tidy_refl].
  destruct (bool_decide _); [eauto with tidy|]. apply tidy_then; [|auto with tidy]. set (q' := on_connection c _ q).
  assert (tidy p q') as H by (apply (tidy_trans _ q); [eauto with tidy|apply tidy_connection; intros k; cbn; auto]). split; [|apply (tidy_count _ _ H)].
  intros d. cbn. intros [Hd| ->%list_elem_of_singleton]%elem_of_app; [by apply (tidy_idle _ _ H)|right].
  unfold transactions_of. cbn. rewrite lookup_alter_eq. by destruct (heap q !! c).
Qed.

Lemma tidies_failed c id e : tidies (checkin_failed c id e).
Proof. intros p. unfold checkin_failed. destruct (untrackConnectionInUse _ _ _) eqn:E; [apply tidy_then; eauto with tidy|apply tidy_refl]. Qed.

Lemma tidies_discard c : tidies (discard c).
Proof.
  intros p. unfold discard. destruct (connection_at c p) as [k|]; [|apply tidy_refl].
  destruct (untrackConnectionInUse _ _ _) eqn:E; [apply tidy_then; eauto with tidy|apply tidy_refl].
Qed.

Lemma tidies_closeAll_next cs : tidies (closeAll_next cs).
Proof. destruct cs; cbn; auto with tidy. Qed.
#[local] Hint Resolve tidies_checkin tidies_cleaned tidies_failed tidies_discard tidies_closeAll_next : tidy.

Lemma tidies_closeAll : tidies closeAll.
Proof.
  intros p. unfold closeAll. apply tidy_then; [|auto with tidy]. tidy_up. set (q := rejectPendingCheckouts _ _).
  apply (tidy_trans _ q); [|apply tidy_fewer; by intros c ?%elem_of_nil]. apply (tidy_trans _ (set_timer None p)); tidy_up.
Qed.

Lemma tidies_handle ambient : tidies (handleCheckedInIdleConnection ambient).
Proof.
  intros p. unfold handleCheckedInIdleConnection. destruct (idleTimeoutMillis ambient) as [t|]; [destruct (QArith_base.Qeq_bool _ _)|];
    [apply tidies_reap|apply tidy_schedule..].
Qed.

Lemma tidies_closeIdle ambient w : tidies (closeIdleConnectionForPendingCheckoutCapacity ambient w).
Proof.
  intros p. unfold closeIdleConnectionForPendingCheckoutCapacity. destruct (findIdleConnectionForReuseKey _ _); [apply tidy_refl|].
  apply tidies_await; auto with tidy.
Qed.

Lemma tidies_idleFor ambient w : tidies (idleConnectionForPendingCheckout ambient w).
Proof.
  intros p. unfold idleConnectionForPendingCheckout. destruct (takeIdleConnectionForReuseKey _ _ p) as [[c q]|] eqn:E; [eauto with tidy|].
  apply tidies_await; auto with tidy.
Qed.
#[local] Hint Resolve tidies_closeAll tidies_handle tidies_closeIdle tidies_idleFor : tidy.

Lemma tidies_drain_frame ambient f v : tidies (run_drain_frame ambient f v).
Proof.
  intros p. destruct f; cbn [run_drain_frame]; try apply tidies_drainActual.
  - destruct v as [|[]|]; try apply tidies_drainActual; destruct (pendingCheckouts p); try apply tidy_refl; apply tidies_await; auto with tidy.
  - destruct v as [|[]|]; try apply tidies_drainActual; (destruct (negb _); [apply tidies_drainActual|]);
      (destruct (canSpawnConnection _ p); [apply tidy_then; [tidy_up|auto with tidy]|apply tidies_await; auto with tidy]).
  - destruct (findIdleConnectionForReuseKey _ _); [apply tidy_refl|]. destruct (canSpawnConnection _ _); [apply tidy_refl|apply tidies_closeOne].
  - destruct (negb _); [apply tidies_drainActual|]. destruct v; [apply tidies_ok..|]. apply tidy_then; [tidy_up|auto with tidy].
  - destruct (negb _); [apply tidies_ok|]. destruct (takeIdleConnectionForReuseKey _ _ p) as [[c q]|] eqn:E; [eauto with tidy|apply tidies_ok].
Qed.

Lemma tidies_schedule ambient : tidies (fun p => ok (scheduleIdleConnectionReaper ambient p)).
Proof. intros p. apply tidy_schedule. Qed.

Lemma tidies_settle t key r : tidies (fun p => ok (settle t key r p)).
Proof. intros p. apply tidy_settle. Qed.

Lemma tidies_settle_checkout w r : tidies (fun p => ok (settle_checkout w r p)).
Proof. intros p. apply tidy_settle. Qed.

Lemma tidies_rejects e : tidies (fun p => ok (rejectPendingCheckouts e p)).
Proof. intros p. apply tidy_reject. Qed.
#[local] Hint Resolve tidies_drain_frame tidies_schedule tidies_settle tidies_settle_checkout tidies_rejects : tidy.

Lemma tidies_idled ambient c : tidies (fun p => if bool_decide (c ∈ connections p) then handleCheckedInIdleConnection ambient p else ok p).
Proof. intros p. destruct (bool_decide _); [apply tidies_handle|apply tidy_refl]. Qed.
#[local] Hint Resolve tidies_idled : tidy.

Lemma tidies_run_frame ambient f r : tidies (run_frame ambient f r).
Proof.
  destruct f, r as [v|err]; cbn [run_frame]; auto with tidy; try (destruct v; auto with tidy); try (intros p; tidy_up; fail);
    try (destruct e; auto with tidy; fail).
  intros p. apply tidy_then; [tidy_up|auto with tidy].
Qed.

(** ** Steps *)

Definition idle_clean (p : pool) : Prop := forall c, c ∈ connections p -> transactions_of p c = 0.

Lemma idle_clean_tidy p q : tidy p q -> idle_clean p -> idle_clean q.
Proof. intros [H1 H2] Hp c [Hc|?]%H1; [|done]. destruct (H2 c) as [->|?]; auto. Qed.

Lemma tidy_start ambient m p q : tidies m -> tidy p q -> tidy p (start ambient m q).
Proof.
  intros Hm H. unfold start. pose proof (tidy_then m p q H Hm) as H'. destruct (m q) as [q' call]. cbn in H'. by tidy_up.
Qed.

Lemma tidy_wait w driver p r q : wait_result w driver p = Some (r, q) -> tidy p q.
Proof.
  destruct w; cbn.
  - intros [= _ <-]. apply tidy_refl.
  - intros [= _ <-]. apply tidy_refl.
  - intros [= _ <-]. apply tidy_refl.
  - destruct driver; intros [= _ <-]; [apply tidy_new|apply tidy_refl].
  - destruct (_ ≫= _) as [[[]|]|]; intros [= _ <-]; apply tidy_refl.
  - destruct (forallb _ _); [|done]. intros [= _ <-]. apply tidy_refl.
  - destruct (drains p !! d) as [[]|]; intros [= _ <-]; apply tidy_refl.
Qed.

Lemma tidy_resume i driver p q : resume i driver p = Some q -> tidy p q.
Proof.
  unfold resume. destruct (calls p !! i) as [[ambient [w fs]]|]; [|done]. destruct (wait_result w driver p) as [[r p1]|] eqn:E; [|done].
  apply tidy_wait in E. destruct fs as [|f fs]; [intros [= <-]; by tidy_up|].
  pose proof (tidy_then _ _ _ E (tidies_run_frame ambient f r)) as H. destruct (run_frame ambient f r p1) as [p2 [w' gs]].
  cbn in H. intros [= <-]. by tidy_up.
Qed.

(** A transaction is opened by the holder of the connection only. *)
Lemma idle_clean_step p q : rtc step new_pool p -> step p q -> idle_clean p -> idle_clean q.
Proof.
  intros Hp [a Ha] H. destruct a as [cfg cfg'|ambient t|ambient t|t n|i driver|c s|h| |ms|ambient]; cbn in Ha.
  4:{ destruct (outcomes p !! t) as [[c id key| |]|] eqn:Ht; simplify_eq. intros d Hd. cbn in Hd.
    assert (d <> c) as Hne by (intros ->; by apply (held_is_not_idle p t c id key)).
    unfold transactions_of. cbn. rewrite lookup_alter_ne by done. by apply H. }
  all: apply (idle_clean_tidy p q); [|done].
  - injection Ha as <-. apply tidy_start; [auto with tidy|tidy_up].
  - destruct (outcomes p !! t) as [[c id key| |]|]; simplify_eq. apply tidy_start; [auto with tidy|unfold end_use; tidy_up].
  - destruct (outcomes p !! t) as [[c id key| |]|]; simplify_eq. apply tidy_start; [auto with tidy|unfold end_use; tidy_up].
  - by eapply tidy_resume.
  - unfold close_settles in Ha. destruct (_ ≫= _) as [[]|]; simplify_eq. tidy_up.
  - destruct (_ ≫= _); [|done]. destruct (QArith_base.Qle_bool _ _); simplify_eq. unfold timeoutPendingCheckout.
    destruct (take_first _ _) as [[w rest]|]; [|apply tidy_refl]. apply (tidy_trans _ (set_pending rest p)); [tidy_up|apply tidy_settle].
  - destruct (idleConnectionReaperTimer p) as [[due cfg]|]; [|done]. destruct (QArith_base.Qle_bool _ _); simplify_eq.
    apply tidy_start; [auto with tidy|tidy_up].
  - simplify_eq. tidy_up.
  - simplify_eq. apply tidy_start; auto with tidy.
Qed.

Lemma idle_clean_reachable p : rtc step new_pool p -> forall c, c ∈ connections p -> connectionHasOpenTransaction p c = false.
Proof.
  intros Hp c Hc. assert (idle_clean p) as H.
  { revert Hp. apply rtc_ind_r; [by intros d ?%elem_of_nil|]. intros q r Hq Hs IH. by eapply idle_clean_step. }
  specialize (H c Hc). unfold transactions_of, connectionHasOpenTransaction in *. destruct (heap p !! c) as [k|]; [|done]. cbn in H.
  apply bool_decide_eq_false_2. lia.
Qed.
