(* ===== verification/ConnectionPoolDrain.v ===== *)
(** * A drain that is left to itself serves every checkout it can

    The calls of a drain, run to its end with a driver that succeeds and nobody between: it
    ends, whoever it takes from the queue holds a connection, and if somebody still waits, no
    connection is idle and as many as the first may have are in use. What [wakeup_is_missed] shows needs an interference.

    [completes m q Q]: a call that computes [m] on [q] runs, alone, to a result for which [Q]
    holds. The rules follow the stack of frames, as a program logic would. *)

From stdpp Require Import base strings gmap list sorting relations.
From Stdlib Require Import QArith.
From S2P Require Import Prelude ConnectionPool ConnectionPoolCorrect ConnectionPoolQueue ConnectionPoolBounds ConnectionPoolIdle.

Section alone.
Context (i : nat) (ambient : config).

(** The call runs, or a close that somebody waits for ends. *)
Definition alone (p q : pool) : Prop :=
  perform (ResumeCall i true) p = Some q \/ exists c, perform (CloseSettles c Fulfilled) p = Some q.

Lemma alone_step p q : alone p q -> step p q.
Proof. intros [H|[c H]]; by eexists. Qed.

Lemma alone_steps p q : rtc alone p q -> rtc step p q.
Proof. induction 1; [done|]. eapply rtc_l; [by apply alone_step|done]. Qed.

Definition reachable (p : pool) : Prop := rtc step new_pool p.

Definition ends_with (p : pool) (K : list frame) (Q : pool -> result error value -> Prop) : Prop :=
  exists q r, rtc alone p q /\ calls q !! i = Some (ambient, (Settled r, K)) /\ Q q r.

Definition completes (m : computation) (q : pool) (Q : pool -> result error value -> Prop) : Prop :=
  forall l K, l !! i = Some (ambient, ((m q).2.1, (m q).2.2 ++ K)) -> reachable (set_calls l (m q).1) ->
  ends_with (set_calls l (m q).1) K Q.

Lemma ends_with_steps p q K Q : rtc alone p q -> ends_with q K Q -> ends_with p K Q.
Proof. intros H (q' & r & H1 & H2 & H3). exists q', r. split; [by etrans|done]. Qed.

Lemma completes_mono m q (Q Q' : pool -> result error value -> Prop) : (forall p r, reachable p -> Q p r -> Q' p r) -> completes m q Q -> completes m q Q'.
Proof.
  intros HQ H l K Hl Hr. destruct (H l K Hl Hr) as (p & r & H1 & H2 & H3). exists p, r. split; [done|]. split; [done|].
  apply HQ; [|done]. unfold reachable in *. etrans; [exact Hr|by apply alone_steps].
Qed.

Lemma completes_ret m q q' r Q : m q = (q', (Settled r, [])) -> (forall l, Q (set_calls l q') r) -> completes m q Q.
Proof. intros Hm HQ l K. rewrite Hm. cbn. intros Hl _. exists (set_calls l q'), r. split; [reflexivity|auto]. Qed.

(** One step of the call. *)
Lemma call_goes_on p w f K r q Q : calls p !! i = Some (ambient, (w, f :: K)) -> reachable p ->
  wait_result w true p = Some (r, q) -> completes (run_frame ambient f r) q Q -> ends_with p K Q.
Proof.
  intros Hc Hp Hw H.
  assert (calls (run_frame ambient f r q).1 = calls p) as Hcalls.
  { pose proof (well_owned_reachable p Hp) as Ho. unfold well_owned in Ho. rewrite (all_claims_delete _ _ _ Hc) in Ho.
    destruct (sound_wait_result _ _ _ _ _ _ _ _ Hw Ho) as [Hq Hcq].
    destruct (safe_run_frame False ambient f r K q (all_claims (delete i (calls p)))) as [_ H1]; [|congruence].
    rewrite <- app_assoc. cbn [stack_claims] in Hq. by rewrite <- app_assoc in Hq. }
  assert (perform (ResumeCall i true) p =
    Some (set_calls (<[i := (ambient, ((run_frame ambient f r q).2.1, (run_frame ambient f r q).2.2 ++ K))]> (calls p))
      (run_frame ambient f r q).1)) as Hs.
  { cbn. unfold resume. rewrite Hc, Hw. rewrite <- Hcalls. by destruct (run_frame ambient f r q) as [q' [w' gs]]. }
  eapply ends_with_steps; [apply rtc_once; by left|]. apply H.
  - apply list_lookup_insert_eq. by eapply lookup_lt_Some.
  - unfold reachable in *. eapply rtc_r; [exact Hp|]. by exists (ResumeCall i true).
Qed.

Lemma completes_await m f q Q : completes m q (fun p r => completes (run_frame ambient f r) p Q) -> completes (await_then m f) q Q.
Proof.
  intros H l K. unfold await_then. specialize (H l (f :: K)). destruct (m q) as [q' [w fs]]. cbn in *.
  rewrite <- app_assoc. cbn. intros Hl Hr. destruct (H Hl Hr) as (p & r & H1 & H2 & H3).
  eapply ends_with_steps; [exact H1|]. eapply call_goes_on; [exact H2| |reflexivity|exact H3].
  unfold reachable in *. etrans; [exact Hr|by apply alone_steps].
Qed.

(** A wait for the driver, and the frame that follows. *)
Lemma completes_driver m q q' w f Q : m q = (q', (w, [f])) ->
  (forall l, reachable (set_calls l q') -> exists r p, wait_result w true (set_calls l q') = Some (r, p) /\ completes (run_frame ambient f r) p Q) ->
  completes m q Q.
Proof.
  intros Hm H l K. rewrite Hm. cbn. intros Hl Hr. destruct (H l Hr) as (r & p & Hw & Hf).
  by eapply call_goes_on.
Qed.

(** ** Closing *)

(** The pool after changes that concern neither the queue nor who holds what: with those idle
    connections, and with no connection changed but those of a list. *)
Record keeps (idle touched : list nat) (p q : pool) : Prop := {
  k_idle : connections q = idle;
  k_pending : pendingCheckouts q = pendingCheckouts p;
  k_in_use : connectionsInUse q = connectionsInUse p;
  k_spawned : connectionsBeingSpawned q = connectionsBeingSpawned p;
  k_ids : idSeq q = idSeq p;
  k_outcomes : outcomes q = outcomes p;
  k_inflight : inflightConnectionCloses q = inflightConnectionCloses p;
  k_heap : forall c, ~ c ∈ touched -> heap q !! c = heap p !! c
}.

Lemma keeps_calls p l : keeps (connections p) [] p (set_calls l p).
Proof. by split. Qed.

Lemma keeps_trans idle idle' l l' p q r : keeps idle l p q -> keeps idle' l' q r -> keeps idle' (l ++ l') p r.
Proof.
  intros [] []. split; try congruence. intros c [H1 H2]%not_elem_of_app. etrans; [by apply k_heap1|by apply k_heap0].
Qed.

Definition open_connection (p : pool) (c : nat) : Prop :=
  exists k, heap p !! c = Some k /\ close_promise k = None /\ closed_connection k = false.

Lemma completes_close c q : open_connection q c -> inflightConnectionCloses q = [] ->
  completes (closeConnection c) q (fun p r => is_Ok r = true /\ keeps (connections q) [c] q p).
Proof.
  intros (k & Hk & Hp & _) Hi l K. unfold closeConnection, connection_at. rewrite Hk, Hp, Hi. cbn.
  set (q1 := set_inflight [c] (on_connection c (fun k => with_close None (with_checked_in None k)) q)). intros Hl Hr.
  assert (heap q1 !! c = Some (with_close None (with_checked_in None k))) as Hk1.
  { cbn. by rewrite lookup_alter_eq, Hk. }
  assert (perform (CloseSettles c Fulfilled) (set_calls l q1) = Some (on_connection c (with_close (Some Fulfilled)) (set_calls l q1))) as Hs.
  { cbn. unfold close_settles, connection_at. cbn [heap set_calls]. by rewrite Hk1. }
  eapply ends_with_steps; [apply rtc_once; right; by exists c|].
  eapply call_goes_on; [exact Hl| | |].
  - unfold reachable in *. eapply rtc_r; [exact Hr|]. by exists (CloseSettles c Fulfilled).
  - cbn [wait_result]. unfold connection_at. cbn [heap on_connection set_heap set_calls]. rewrite lookup_alter_eq.
    rewrite Hk1. reflexivity.
  - eapply completes_ret; [reflexivity|]. intros l'. split; [done|]. split; try done.
    + cbn. by rewrite bool_decide_eq_true_2, Hi.
    + intros d Hd. assert (c <> d) by (intros ->; set_solver). cbn. by rewrite !lookup_alter_ne.
Qed.

Lemma completes_closeExpired cs q : Forall (open_connection q) cs -> NoDup cs -> inflightConnectionCloses q = [] ->
  completes (closeExpiredIdleConnections cs) q (fun p r => is_Ok r = true /\ keeps (connections q) cs q p).
Proof.
  revert q. induction cs as [|c cs IH]; intros q Ho Hn Hi.
  - eapply completes_ret; [reflexivity|]. intros l. split; [done|apply keeps_calls].
  - apply Forall_cons in Ho as [Hc Ho]. apply NoDup_cons in Hn as [Hni Hn].
    apply completes_await. eapply completes_mono; [|by apply completes_close]. intros p r _ [Hr Hk].
    destruct r as [v|]; [|done]. cbn [run_frame].
    eapply completes_mono; [|apply IH; [|done|by rewrite (k_inflight _ _ _ _ Hk)]].
    + intros p' r' _ [Hr' Hk']. split; [done|]. rewrite (k_idle _ _ _ _ Hk) in Hk'. exact (keeps_trans _ _ _ _ _ _ _ Hk Hk').
    + apply Forall_forall. intros d Hd. rewrite Forall_forall in Ho. destruct (Ho d Hd) as (k & Hk1 & Hk2).
      exists k. rewrite (k_heap _ _ _ _ Hk); [done|]. intros ->%list_elem_of_singleton. done.
Qed.

Lemma schedule_keeps cfg p : keeps (connections p) [] p (scheduleIdleConnectionReaper cfg p).
Proof.
  unfold scheduleIdleConnectionReaper. destruct (idleConnectionReaperTimer p), (connections p) eqn:E, (idleTimeoutMillis cfg);
    by split.
Qed.

Lemma completes_ext m m' q q' Q : m q = m' q' -> completes m' q' Q -> completes m q Q.
Proof. intros E H l K. rewrite E. apply H. Qed.

(** Reaping keeps the idle connections that have not expired, and all when each has an open
    transaction. *)
Definition reaped (q p : pool) : Prop :=
  exists touched, keeps (connections p) touched q p /\ connections p `sublist_of` connections q /\
    (forall c, c ∈ connections p -> ~ c ∈ touched) /\
    (forallb (connectionHasOpenTransaction q) (connections q) = true -> connections p = connections q).

Lemma reaped_refl q l : reaped q (set_calls l q).
Proof. exists []. split; [by split|]. split; [done|]. split; [set_solver|done]. Qed.

Lemma filter_keeps_all {A} (f : A -> bool) l : forallb f l = true -> List.filter f l = l.
Proof. induction l as [|x l IH]; cbn; [done|]. intros [-> H]%andb_true_iff. f_equal. by apply IH. Qed.

Lemma filter_sublist {A} (f : A -> bool) l : List.filter f l `sublist_of` l.
Proof. induction l as [|x l IH]; cbn; [constructor|]. destruct (f x); by constructor. Qed.

Lemma completes_reap q : Forall (open_connection q) (connections q) -> NoDup (connections q) -> inflightConnectionCloses q = [] ->
  completes (reapIdleConnections ambient) q (fun p r => is_Ok r = true /\ reaped q p).
Proof.
  intros Ho Hn Hi. destruct (connections q) as [|c0 cs0] eqn:El; [|destruct (idleTimeoutMillis ambient) as [idle|] eqn:Eidle].
  - eapply completes_ret; [unfold reapIdleConnections; rewrite El; reflexivity|]. intros l. split; [done|apply reaped_refl].
  - rewrite <- El in *.
    apply (completes_ext _ (await_then (closeExpiredIdleConnections (classifyIdleConnections idle q).1) ReapClosed) _
      (set_connections (classifyIdleConnections idle q).2 q)); [unfold reapIdleConnections; by rewrite El, Eidle|].
    apply completes_await. eapply completes_mono; [|apply completes_closeExpired].
    + intros p r _ [Hr Hk]. destruct r as [v|]; [|done]. cbn [run_frame].
      assert (keeps (List.filter (keptWhenReaping q idle) (connections q)) (List.filter (expiredWhenReaping q idle) (connections q)) q p) as Hk'
        by (destruct Hk; split; done).
      apply completes_await. eapply completes_ret.
      { unfold awaitInflightConnectionCloses. rewrite (k_inflight _ _ _ _ Hk'), Hi. reflexivity. }
      intros l. eapply completes_ret; [reflexivity|]. intros l'. split; [done|].
      assert (keeps (connections p) [] p (scheduleIdleConnectionReaper ambient (set_calls l p))) as H1
        by (destruct (schedule_keeps ambient (set_calls l p)); split; done).
      pose proof (keeps_trans _ _ _ _ _ _ _ Hk' H1) as H2. rewrite (k_idle _ _ _ _ Hk'), app_nil_r in H2.
      exists (List.filter (expiredWhenReaping q idle) (connections q)). cbn [connections set_calls].
      rewrite (k_idle _ _ _ _ H2). split; [by destruct H2; split|]. split; [apply filter_sublist|]. split.
      * intros c [_ Hkept]%list_elem_of_In%List.filter_In [_ Hex]%list_elem_of_In%List.filter_In.
        unfold keptWhenReaping, expiredWhenReaping in *.
        destruct (connectionIsClosed q c), (connectionHasOpenTransaction q c), (idleConnectionExpired q idle c); done.
      * intros Htx. apply filter_keeps_all. apply forallb_forall. intros c Hc. rewrite forallb_forall in Htx.
        unfold keptWhenReaping. rewrite (Htx c Hc). cbn. rewrite andb_true_r. rewrite <- list_elem_of_In in Hc.
        rewrite Forall_forall in Ho. destruct (Ho c Hc) as (k & Hk1 & _ & Hc1). unfold connectionIsClosed. by rewrite Hk1, Hc1.
    + cbn. apply Forall_forall. intros c Hc. rewrite Forall_forall in Ho. apply (Ho c).
      by eapply elem_of_sublist; [exact Hc|apply filter_sublist].
    + eapply sublist_NoDup; [exact Hn|apply filter_sublist].
    + done.
  - eapply completes_ret; [unfold reapIdleConnections; rewrite El, Eidle; reflexivity|]. intros l. split; [done|apply reaped_refl].
Qed.

(** ** Serving a checkout *)

(** The checkout gets a connection; the idle ones and the queue stay. *)
Definition gets (w : pending_checkout) (q p : pool) : Prop :=
  connections p = connections q /\ pendingCheckouts p = pendingCheckouts q /\
  inflightConnectionCloses p = inflightConnectionCloses q /\
  (forall d, d ∈ connections q -> heap p !! d = heap q !! d) /\
  exists c id, outcomes p = <[ticket w := Holding c id (key_for w)]> (outcomes q).

Lemma completes_resolve w c q k : heap q !! c = Some k -> id_seq k = None -> outcomes q !! ticket w = None ->
  ~ c ∈ connections q -> completes (resolvePendingCheckout w c) q (fun p r => is_Ok r = true /\ gets w q p).
Proof.
  intros Hk Hid Hw Hc. apply completes_await.
  eapply completes_driver; [unfold activateConnection, connection_at; rewrite Hk, Hid; reflexivity|].
  intros l _. eexists _, _. split; [reflexivity|]. eapply completes_ret; [reflexivity|]. intros l1.
  assert (forall p : pool, outcomes p = outcomes q -> heap p !! c = Some (with_id (Some (idSeq q)) (with_checked_in None k)) ->
    settle_checkout w (Ok (Conn c)) p = set_outcomes (<[ticket w := Holding c (idSeq q) (key_for w)]> (outcomes p)) p) as Hs.
  { intros p Ho Hh. unfold settle_checkout, settle, connection_at. rewrite Ho, Hw, Hh. done. }
  eapply completes_ret; [cbn [run_frame]; rewrite Hs; [reflexivity|done|]|].
  - cbn. by rewrite lookup_alter_eq, Hk.
  - intros l2. split; [done|]. split; [done|]. split; [done|]. split; [done|]. split; [|by exists c, (idSeq q)].
    intros d Hd. cbn. rewrite lookup_alter_ne; [done|]. by intros <-.
Qed.

Lemma gets_same_queue w q q' p : connections q' = connections q -> pendingCheckouts q' = pendingCheckouts q ->
  inflightConnectionCloses q' = inflightConnectionCloses q -> outcomes q' = outcomes q ->
  (forall d, d ∈ connections q -> heap q' !! d = heap q !! d) -> gets w q' p -> gets w q p.
Proof.
  intros H1 H2 H3 H4 H5 (G1 & G2 & G3 & G4 & c & id & G5). split; [congruence|]. split; [congruence|]. split; [congruence|].
  split; [|exists c, id; by rewrite <- H4]. intros d Hd. etrans; [apply G4; by rewrite H1|by apply H5].
Qed.

Lemma completes_spawnFor w q : outcomes q !! ticket w = None -> Forall (fun c => is_Some (heap q !! c)) (connections q) ->
  completes (spawnAndResolvePendingCheckout w) q (fun p r => is_Ok r = true /\ gets w q p).
Proof.
  intros Hw Hidle. apply completes_await.
  eapply completes_driver; [reflexivity|]. intros l Hr. eexists _, _. split; [reflexivity|].
  assert (~ next_connection q ∈ connections q) as Hnew.
  { intros Hin. rewrite Forall_forall in Hidle. destruct (Hidle _ Hin) as [k Hk].
    pose proof (co_new _ _ _ _ _ _ (well_owned_reachable _ Hr) _ _ Hk) as Hlt. cbn in Hlt. lia. }
  eapply completes_ret; [reflexivity|]. intros l1. cbn [run_frame].
  eapply completes_mono; [|eapply (completes_resolve w (next_connection q))].
  - intros p r _ [Hok Hg]. split; [done|]. eapply gets_same_queue; [..|exact Hg]; try done.
    intros d Hd. cbn. assert (next_connection q <> d) by (intros <-; done). by rewrite lookup_alter_ne, lookup_insert_ne.
  - cbn. by rewrite lookup_alter_eq, lookup_insert_eq.
  - done.
  - done.
  - done.
Qed.

(** ** A quiet pool *)

(** No close is in flight, the idle connections are open and free, and no caller that waits has
    got an answer. *)
Record quiet (p : pool) : Prop := {
  q_inflight : inflightConnectionCloses p = [];
  q_open : Forall (open_connection p) (connections p);
  q_once : NoDup (connections p);
  q_free : Forall (fun c => exists k, heap p !! c = Some k /\ id_seq k = None) (connections p);
  q_tickets : NoDup (map ticket (pendingCheckouts p));
  q_waiting : Forall (fun w => outcomes p !! ticket w = None) (pendingCheckouts p)
}.

(** Who leaves the queue holds a connection, no answer is taken back, and the connections that
    are still idle are as they were. *)
Definition moves (q p : pool) : Prop :=
  (forall w, w ∈ pendingCheckouts q -> w ∈ pendingCheckouts p \/ exists c id, outcomes p !! ticket w = Some (Holding c id (key_for w))) /\
  (forall t o, outcomes q !! t = Some o -> outcomes p !! t = Some o) /\
  (forall d, d ∈ connections p -> d ∈ connections q /\ heap p !! d = heap q !! d).

Lemma moves_trans p q r : moves p q -> moves q r -> moves p r.
Proof.
  intros (H1 & H2 & I1) (H3 & H4 & I2). split; [|split; [auto|]].
  - intros w Hw. destruct (H1 w Hw) as [Hq|(c & id & Hq)]; [by apply H3|]. right. exists c, id. by apply H4.
  - intros d Hd. destruct (I2 d Hd) as [Hd' E]. destruct (I1 d Hd') as [Hd'' E']. split; [done|congruence].
Qed.

Lemma moves_same q p : pendingCheckouts p = pendingCheckouts q -> outcomes p = outcomes q ->
  (forall d, d ∈ connections p -> d ∈ connections q /\ heap p !! d = heap q !! d) -> moves q p.
Proof. intros H1 H2 H3. split; [intros w; rewrite H1; by left|]. split; [by intros t o; rewrite H2|done]. Qed.

(** Fewer idle connections, those left as they were. *)
Lemma quiet_fewer q p : quiet q -> connections p `sublist_of` connections q -> (forall c, c ∈ connections p -> heap p !! c = heap q !! c) ->
  inflightConnectionCloses p = inflightConnectionCloses q -> pendingCheckouts p = pendingCheckouts q -> outcomes p = outcomes q -> quiet p.
Proof.
  intros [H1 H2 H3 H4 H5 H6] Hs Hh Hi Hp Ho. rewrite Forall_forall in H2, H4.
  assert (forall c, c ∈ connections p -> c ∈ connections q) as Hin by (intros c Hc; by eapply elem_of_sublist).
  split; rewrite ?Hp; [congruence| | | |done|by rewrite Ho].
  - apply Forall_forall. intros c Hc. unfold open_connection. rewrite Hh by done. by apply H2, Hin.
  - eapply sublist_NoDup; [exact H3|done].
  - apply Forall_forall. intros c Hc. rewrite Hh by done. by apply H4, Hin.
Qed.

Lemma quiet_reaped q p : quiet q -> reaped q p -> quiet p /\ moves q p.
Proof.
  intros Hq (touched & Hk & Hs & Hd & _).
  split; [|apply moves_same; [by destruct Hk..|]; intros d Hin; split; [by eapply elem_of_sublist|apply (k_heap _ _ _ _ Hk); by apply Hd]].
  apply (quiet_fewer q); [done|done| |by destruct Hk..]. intros c Hc. apply (k_heap _ _ _ _ Hk). by apply Hd.
Qed.

(** A checkout is taken from the queue and gets a connection. *)
Lemma quiet_gets q w l1 l2 q' p : quiet q -> pendingCheckouts q = l1 ++ w :: l2 -> pendingCheckouts q' = l1 ++ l2 ->
  connections q' `sublist_of` connections q -> heap q' = heap q -> outcomes q' = outcomes q ->
  inflightConnectionCloses q' = inflightConnectionCloses q -> gets w q' p -> quiet p /\ moves q p.
Proof.
  intros Hq Hp Hp' Hs Hh Ho Hi (G1 & G2 & G3 & G4 & c & id & G5). pose proof Hq as [H1 H2 H3 H4 H5 H6].
  rewrite Hp in H5, H6. rewrite map_app in H5. cbn in H5. rewrite <- Permutation_middle in H5. apply NoDup_cons in H5 as [Hw H5].
  rewrite <- map_app in Hw, H5. rewrite <- Permutation_middle in H6. apply Forall_cons in H6 as [Hw0 H6]. split.
  - assert (quiet (set_pending (pendingCheckouts q) (set_outcomes (outcomes q) p))) as Hp0.
    { apply (quiet_fewer q); [done|cbn; by rewrite G1| |cbn; congruence|done|done].
      cbn. rewrite G1. intros d Hd. rewrite G4 by done. by rewrite Hh. }
    destruct Hp0 as [P1 P2 P3 P4 _ _]. split; [done|done|done|done| |]; rewrite G2, Hp'; [done|].
    rewrite G5, Ho. apply Forall_forall. intros x Hx. rewrite Forall_forall in H6. rewrite lookup_insert_ne; [by apply H6|].
    intros Hx'. apply Hw. rewrite Hx'. by apply list_elem_of_fmap_2.
  - split.
    + intros x Hx. rewrite Hp in Hx. rewrite G2, Hp'. apply elem_of_app in Hx as [Hx|[->|Hx]%elem_of_cons].
      * left. apply elem_of_app. by left.
      * right. exists c, id. by rewrite G5, lookup_insert_eq.
      * left. apply elem_of_app. by right.
    + split; [intros t o Ht; rewrite G5, Ho; rewrite lookup_insert_ne; [done|]; intros <-; congruence|].
      intros d Hd. rewrite G1 in Hd. split; [by eapply elem_of_sublist|]. rewrite G4 by done. by rewrite Hh.
Qed.

(** ** The loop *)

Lemma take_first_none {A} (test : A -> bool) l : take_first test l = None <-> forall x, x ∈ l -> test x = false.
Proof.
  induction l as [|x l IH]; cbn; [split; [set_solver|done]|]. destruct (test x) eqn:E.
  - split; [done|]. intros H. rewrite (H x) in E by by left. done.
  - destruct (take_first test l) as [[]|].
    + split; [done|]. intros H. assert (Some (a, l0) = None) by (apply IH; intros y Hy; apply H; by right). done.
    + split; [|done]. intros _ y [->|Hy]%elem_of_cons; [done|]. by apply IH.
Qed.

Lemma find_none {A} (test : A -> bool) l : List.find test l = None <-> forall x, x ∈ l -> test x = false.
Proof.
  induction l as [|x l IH]; cbn; [split; [set_solver|done]|]. destruct (test x) eqn:E.
  - split; [done|]. intros H. rewrite (H x) in E by by left. done.
  - rewrite IH. split; [intros H y [->|Hy]%elem_of_cons; [done|by apply H]|intros H y Hy; apply H; by right].
Qed.

Lemma take_none key p : takeIdleConnectionForReuseKey key false p = None <-> forall c, c ∈ connections p -> idle_for p key false c = false.
Proof.
  unfold takeIdleConnectionForReuseKey. rewrite <- take_first_none. by destruct (take_first _ _) as [[]|].
Qed.

Lemma match_none before l p : match_pending before l p = None -> forall w, w ∈ l -> takeIdleConnectionForReuseKey (key_for w) false p = None.
Proof.
  revert before. induction l as [|x l IH]; intros before; cbn; [set_solver|].
  destruct (takeIdleConnectionForReuseKey (config_key (databaseConfig x)) false p) as [[]|] eqn:E; [done|].
  intros H w [->|Hw]%elem_of_cons; [done|]. by eapply IH.
Qed.

Lemma idle_for_same p q key c : heap q !! c = heap p !! c -> idle_for q key false c = idle_for p key false c.
Proof. intros H. unfold idle_for, connectionHasOpenTransaction, connectionMatchesReuseKey. by rewrite H. Qed.

Lemma can_spawn_same cfg p q : connections q = connections p -> connectionsInUse q = connectionsInUse p -> idSeq q = idSeq p ->
  connectionsBeingSpawned q = connectionsBeingSpawned p -> canSpawnConnection cfg q = canSpawnConnection cfg p.
Proof. intros H1 H2 H3 H4. unfold canSpawnConnection, liveConnectionCount, in_use_values. by rewrite H1, H2, H3, H4. Qed.

(** Who still waits waits for a connection in use: no idle connection is free of a transaction,
    and the first one in the queue must not spawn another. *)
Definition nothing_left (p : pool) : Prop :=
  forall w, head (pendingCheckouts p) = Some w ->
  canSpawnConnection (databaseConfig w) p = false /\ forall c, c ∈ connections p -> connectionHasOpenTransaction p c = true.

Definition drained (q p : pool) : Prop := quiet p /\ moves q p /\ nothing_left p.

Lemma drained_after q p p' : moves q p -> drained p p' -> drained q p'.
Proof. intros H (H1 & H2 & H3). split; [done|]. split; [by eapply moves_trans|done]. Qed.

Definition size_of (p : pool) : nat := (length (pendingCheckouts p) + length (connections p))%nat.

(** The claim for pools that are smaller. *)
Definition loops (n : nat) : Prop :=
  forall q, (size_of q < n)%nat -> quiet q -> completes drainPendingCheckoutsActual q (fun p r => is_Ok r = true /\ drained q p).

Definition finishes (q : pool) (p : pool) (r : result error value) : Prop := is_Ok r = true /\ drained q p.

Lemma loops_on n q p : loops n -> (size_of p < n)%nat -> quiet p -> moves q p -> completes drainPendingCheckoutsActual p (finishes q).
Proof.
  intros Hn Hs Hq Hm. eapply completes_mono; [|by apply Hn]. intros p' r _ [Hr Hd]. split; [done|]. by eapply drained_after.
Qed.

Lemma elem_open q c : quiet q -> c ∈ connections q -> exists k, heap q !! c = Some k /\ id_seq k = None.
Proof. intros [_ _ _ H _ _] Hc. rewrite Forall_forall in H. by apply H. Qed.

(** A checkout that an idle connection matches. *)
Lemma completes_matched n q w rest c q1 : loops n -> (size_of q <= n)%nat -> quiet q ->
  match_pending [] (pendingCheckouts q) q = Some (w, rest, c, q1) ->
  completes (await_then resolvePendingCheckoutWithMatchingIdleConnection DrainMatched) q (finishes q).
Proof.
  intros Hn Hs Hq E. pose proof (match_pending_spec _ _ _ _ _ _ _ E) as (Et & l1 & l2 & El & Erest & _). cbn in Erest. subst rest.
  apply completes_await. eapply (completes_ext _ (await_then (resolvePendingCheckout w c) ReturnsTrue) _ (take_pending w (l1 ++ l2) q1));
    [unfold resolvePendingCheckoutWithMatchingIdleConnection; by rewrite E|].
  unfold takeIdleConnectionForReuseKey in Et. destruct (take_first _ _) as [[x idle]|] eqn:Ef; [|done]. injection Et as -> <-.
  apply take_first_spec in Ef as (i1 & i2 & Ei & -> & _ & _).
  assert (c ∈ connections q) as Hc by (rewrite Ei; set_solver). destruct (elem_open q c Hq Hc) as (k & Hk & Hid).
  assert (NoDup (c :: i1 ++ i2)) as Hnd by (rewrite Permutation_middle, <- Ei; apply Hq). apply NoDup_cons in Hnd as [Hni _].
  assert (w ∈ pendingCheckouts q) as Hw by (rewrite El; set_solver).
  apply completes_await. eapply completes_mono; [|eapply completes_resolve; [exact Hk|exact Hid| |exact Hni]].
  - intros p r _ [Hr Hg]. destruct r as [v|]; [|done]. eapply completes_ret; [reflexivity|]. intros l.
    destruct (quiet_gets q w l1 l2 (take_pending w (l1 ++ l2) (set_connections (i1 ++ i2) q)) (set_calls l p)) as [Hp Hm]; try done.
    { cbn. rewrite Ei. apply sublist_app; [done|]. by constructor. }
    apply (loops_on n); [done| |done|done]. destruct Hg as (G1 & G2 & _). unfold size_of in *. cbn in *. rewrite G1, G2.
    rewrite El, Ei, !length_app in Hs. cbn in Hs. rewrite !length_app. lia.
  - cbn. destruct Hq as [_ _ _ _ _ H]. rewrite Forall_forall in H. by apply H.
Qed.

(** The first checkout gets a connection that is spawned for it. *)
Lemma completes_spawned n q p w l : loops n -> (size_of q <= n)%nat -> quiet q -> reaped q p ->
  pendingCheckouts q = w :: l -> canSpawnConnection (databaseConfig w) p = true ->
  completes (run_frame ambient (DrainCapacity w) (Ok (Bool false))) p (finishes q).
Proof.
  intros Hn Hs Hq Hr El Hcan. destruct (quiet_reaped q p Hq Hr) as [Hp Hm]. destruct Hr as (touched & Hk & Hsub & _ & _).
  assert (pendingCheckouts p = w :: l) as Ep by (rewrite (k_pending _ _ _ _ Hk); done).
  apply (completes_ext _ (await_then (spawnAndResolvePendingCheckout w) DrainContinue) _ (take_pending w l p)).
  { cbn. rewrite Ep. cbn. rewrite bool_decide_eq_true_2 by done. cbn. by rewrite Hcan. }
  apply completes_await. eapply completes_mono; [|apply completes_spawnFor].
  - intros p' r _ [Hok Hg]. destruct r as [v|]; [|done]. cbn [run_frame run_drain_frame].
    destruct (quiet_gets p w [] l (take_pending w l p) p') as [Hp' Hm']; try done.
    apply (loops_on n); [done| |done|by eapply moves_trans]. destruct Hg as (G1 & G2 & _). unfold size_of in *. rewrite G1, G2. cbn.
    apply sublist_length in Hsub. rewrite El in Hs. cbn in Hs. lia.
  - cbn. pose proof (q_waiting p Hp) as Hw. rewrite Ep in Hw. by apply Forall_cons in Hw as [? _].
  - cbn. eapply Forall_impl; [apply (q_free p Hp)|]. intros c (k & Hck & _). by exists k.
Qed.

(** An idle connection of another key is closed for the first checkout. *)
Lemma completes_closed n q p w l c : loops n -> (size_of q <= n)%nat -> quiet q -> reaped q p ->
  pendingCheckouts q = w :: l -> List.find (fun c => negb (connectionHasOpenTransaction p c)) (connections p) = Some c ->
  completes closeOneIdleConnectionForCapacity p (fun p r => completes (run_frame ambient (DrainCapacity w) r) p (finishes q)).
Proof.
  intros Hn Hs Hq Hr El Hf. destruct (quiet_reaped q p Hq Hr) as [Hp Hm]. destruct Hr as (touched & Hk & Hsub & _ & _).
  apply List.find_some in Hf as Hc. destruct Hc as [Hc _]. rewrite <- list_elem_of_In in Hc.
  pose proof (q_open p Hp) as Ho. rewrite Forall_forall in Ho.
  set (others := List.filter (fun d => negb (bool_decide (d = c))) (connections p)).
  apply (completes_ext _ (await_then (closeConnection c) ReturnsTrue) _ (set_connections others p)).
  { unfold closeOneIdleConnectionForCapacity. by rewrite Hf. }
  apply completes_await. eapply completes_mono; [|apply completes_close; [by apply Ho|apply (q_inflight p Hp)]].
  intros p1 r _ [Hok Hk1]. destruct r as [v|]; [|done]. eapply completes_ret; [reflexivity|]. intros l1. cbn [run_frame run_drain_frame].
  assert (~ c ∈ others) as Hnc.
  { intros [_ H]%list_elem_of_In%List.filter_In. by rewrite bool_decide_eq_true_2 in H. }
  assert (quiet (set_calls l1 p1)) as Hp1.
  { apply (quiet_fewer p); [done|cbn; rewrite (k_idle _ _ _ _ Hk1); apply filter_sublist| |by destruct Hk1..].
    intros d Hd. cbn in Hd. rewrite (k_idle _ _ _ _ Hk1) in Hd. cbn. apply (k_heap _ _ _ _ Hk1). intros ->%list_elem_of_singleton. done. }
  apply (loops_on n); [done| |done|].
  - unfold size_of in *. cbn. rewrite (k_idle _ _ _ _ Hk1), (k_pending _ _ _ _ Hk1). cbn.
    rewrite (k_pending _ _ _ _ Hk). apply sublist_length in Hsub.
    assert (length others < length (connections p))%nat; [|lia]. clear -Hc Hnc. unfold others in *.
    induction (connections p) as [|d ds IH]; [set_solver|]. cbn in *.
    destruct (bool_decide_reflect (d = c)) as [->|Hne]; cbn in *.
    + pose proof (sublist_length _ _ (filter_sublist (fun d => negb (bool_decide (d = c))) ds)). lia.
    + apply -> Nat.succ_lt_mono. apply IH; [|set_solver]. apply elem_of_cons in Hc as [->|]; done.
  - eapply moves_trans; [exact Hm|]. apply moves_same; [by destruct Hk1..|]. intros d Hd. cbn in Hd |- *. rewrite (k_idle _ _ _ _ Hk1) in Hd.
    split; [by eapply elem_of_sublist; [exact Hd|apply filter_sublist]|]. apply (k_heap _ _ _ _ Hk1). by intros ->%list_elem_of_singleton.
Qed.

(** Nothing can be done for the first checkout: the drain looks once more, and ends. *)
Lemma completes_stuck q p w l : quiet q -> reaped q p -> pendingCheckouts q = w :: l ->
  canSpawnConnection (databaseConfig w) p = false -> (forall c, c ∈ connections p -> connectionHasOpenTransaction p c = true) ->
  completes (run_frame ambient (DrainCapacity w) (Ok (Bool false))) p (finishes q).
Proof.
  intros Hq Hr El Hcan Htx. destruct (quiet_reaped q p Hq Hr) as [Hp Hm]. destruct Hr as (touched & Hk & _ & _ & _).
  assert (pendingCheckouts p = w :: l) as Ep by (rewrite (k_pending _ _ _ _ Hk); done).
  assert (forall c, c ∈ connections p -> idle_for p (key_for w) false c = false) as Hno.
  { intros c Hc. unfold idle_for. by rewrite (Htx c Hc). }
  apply (completes_ext _ (await_then (idleConnectionForPendingCheckout ambient w) (DrainIdle w)) _ p).
  { cbn. rewrite Ep. cbn. rewrite bool_decide_eq_true_2 by done. cbn. by rewrite Hcan. }
  apply completes_await. apply (completes_ext _ (await_then (reapIdleConnections ambient) (IdleReaped w)) _ p).
  { unfold idleConnectionForPendingCheckout. apply take_none in Hno. unfold key_for in Hno. by rewrite Hno. }
  apply completes_await. eapply completes_mono; [|apply completes_reap; apply Hp].
  intros p1 r _ [Hok Hr1]. destruct r as [v|]; [|done]. destruct (quiet_reaped p p1 Hp Hr1) as [Hp1 Hm1].
  destruct Hr1 as (touched1 & Hk1 & _ & Hd1 & Hall).
  assert (connections p1 = connections p) as Ec.
  { apply Hall. apply forallb_forall. intros c Hc. apply Htx. by apply list_elem_of_In. }
  assert (pendingCheckouts p1 = w :: l) as Ep1 by (rewrite (k_pending _ _ _ _ Hk1); done).
  assert (forall c, c ∈ connections p1 -> heap p1 !! c = heap p !! c) as Hh by (intros c Hc; apply (k_heap _ _ _ _ Hk1); by apply Hd1).
  eapply completes_ret.
  { cbn. rewrite Ep1. cbn. rewrite bool_decide_eq_true_2 by done. cbn.
    assert (takeIdleConnectionForReuseKey (config_key (databaseConfig w)) false p1 = None) as ->; [|reflexivity].
    apply take_none. intros c Hc. rewrite (idle_for_same p p1) by by apply Hh. apply Hno. by rewrite <- Ec. }
  intros l1. eapply completes_ret.
  { cbn. rewrite Ep1. cbn. rewrite bool_decide_eq_true_2 by done. reflexivity. }
  intros l2. split; [done|]. split; [by destruct Hp1; split|]. split; [by eapply moves_trans|].
  intros w' Hw'. cbn in Hw'. rewrite Ep1 in Hw'. injection Hw' as <-. split.
  - rewrite <- Hcan. apply can_spawn_same; [exact Ec|apply Hk1..].
  - intros c Hc. cbn in Hc. unfold connectionHasOpenTransaction. cbn. rewrite Hh by done.
    apply Htx. by rewrite <- Ec.
Qed.

Lemma completes_unmatched n q w l : loops n -> (size_of q <= n)%nat -> quiet q -> pendingCheckouts q = w :: l ->
  match_pending [] (pendingCheckouts q) q = None ->
  completes (await_then resolvePendingCheckoutWithMatchingIdleConnection DrainMatched) q (finishes q).
Proof.
  intros Hn Hs Hq El E. apply completes_await.
  eapply completes_ret; [unfold resolvePendingCheckoutWithMatchingIdleConnection; rewrite E; reflexivity|]. intros l0.
  assert (forall c, c ∈ connections q -> idle_for q (key_for w) false c = false) as Hno.
  { apply take_none. eapply match_none; [exact E|]. rewrite El. by left. }
  apply (completes_ext _ (await_then (closeIdleConnectionForPendingCheckoutCapacity ambient w) (DrainCapacity w)) _ (set_calls l0 q)).
  { cbn. by rewrite El. }
  apply completes_await. apply (completes_ext _ (await_then (reapIdleConnections ambient) (CapacityReaped w)) _ (set_calls l0 q)).
  { unfold closeIdleConnectionForPendingCheckoutCapacity. assert (findIdleConnectionForReuseKey (config_key (databaseConfig w)) (set_calls l0 q) = None) as ->; [|done].
    apply find_none. exact Hno. }
  assert (quiet (set_calls l0 q)) as Hq0 by (destruct Hq; split; done).
  apply completes_await. eapply completes_mono; [|apply completes_reap; apply Hq0].
  intros p r _ [Hok Hr]. destruct r as [v|]; [|done].
  assert (reaped q p) as Hr' by (destruct Hr as (t & [] & Hrest); exists t; split; [by split|exact Hrest]).
  destruct (quiet_reaped q p Hq Hr') as [Hp _]. pose proof Hr' as (touched & Hk & Hsub & Hd & _).
  assert (findIdleConnectionForReuseKey (config_key (databaseConfig w)) p = None) as Hfind.
  { apply find_none. intros c Hc. rewrite (idle_for_same q p); [|apply (k_heap _ _ _ _ Hk); by apply Hd]. apply Hno. by eapply elem_of_sublist. }
  destruct (canSpawnConnection (databaseConfig w) p) eqn:Hcan;
    [|destruct (List.find (fun c => negb (connectionHasOpenTransaction p c)) (connections p)) as [c|] eqn:Hf].
  - eapply completes_ret; [cbn; rewrite Hfind, Hcan; reflexivity|]. intros l1.
    apply (completes_spawned n q _ w l); [done|done|done| |done|exact Hcan].
    destruct Hr' as (t & [] & Hrest). exists t. split; [by split|exact Hrest].
  - apply (completes_ext _ closeOneIdleConnectionForCapacity _ p); [cbn; by rewrite Hfind, Hcan|].
    by apply (completes_closed n q p w l c).
  - eapply completes_ret; [cbn; rewrite Hfind, Hcan; unfold closeOneIdleConnectionForCapacity; rewrite Hf; reflexivity|]. intros l1.
    apply (completes_stuck q _ w l); [done| |done|exact Hcan|].
    + destruct Hr' as (t & [] & Hrest). exists t. split; [by split|exact Hrest].
    + intros c Hc. rewrite find_none in Hf. specialize (Hf c Hc). by apply negb_false_iff in Hf.
Qed.

Lemma completes_loop n : loops n.
Proof.
  induction n as [|n IH]; intros q Hs Hq; [lia|]. destruct (pendingCheckouts q) as [|w l] eqn:El.
  - eapply completes_ret; [unfold drainPendingCheckoutsActual; rewrite El; reflexivity|]. intros l. split; [done|].
    split; [by destruct Hq; split|]. split; [by apply moves_same; [..|intros d Hd]|]. intros w. cbn. by rewrite El.
  - apply (completes_ext _ (await_then resolvePendingCheckoutWithMatchingIdleConnection DrainMatched) _ q).
    { unfold drainPendingCheckoutsActual. by rewrite El. }
    destruct (match_pending [] (pendingCheckouts q) q) as [[[[w' rest] c] q1]|] eqn:E.
    + eapply completes_matched; [exact IH|lia|done|exact E].
    + eapply completes_unmatched; [exact IH|lia|done|exact El|exact E].
Qed.

(** The promise of the drain is set after its first part has run, which does not see it. *)
Lemma match_pending_set_drain d n before l q : match_pending before l (set_drain d n q) =
  match match_pending before l q with Some (w, rest, c, q1) => Some (w, rest, c, set_drain d n q1) | None => None end.
Proof.
  revert before. induction l as [|w l IH]; intros before; cbn; [done|]. unfold takeIdleConnectionForReuseKey.
  change (idle_for (set_drain d n q)) with (idle_for q). cbn. destruct (take_first _ _) as [[]|]; [done|apply IH].
Qed.

Lemma drainActual_set_drain d n q : drainPendingCheckoutsActual (set_drain d n q) =
  (set_drain d n (drainPendingCheckoutsActual q).1, (drainPendingCheckoutsActual q).2).
Proof.
  unfold drainPendingCheckoutsActual. cbn. destruct (pendingCheckouts q) as [|w0 l0] eqn:E; [done|].
  unfold await_then at 1. unfold resolvePendingCheckoutWithMatchingIdleConnection at 1. cbn. rewrite E, match_pending_set_drain.
  unfold await_then, resolvePendingCheckoutWithMatchingIdleConnection. rewrite E.
  destruct (match_pending [] (w0 :: l0) q) as [[[[w rest] c] q1]|]; [|done].
  unfold resolvePendingCheckout, await_then, activateConnection, connection_at. cbn.
  destruct (heap q1 !! c) as [k|]; [|done]. by destruct (id_seq k).
Qed.

Lemma completes_drain q : quiet q -> pendingCheckoutDrainPromise q = None ->
  completes drainPendingCheckouts q (fun p r => is_Ok r = true /\ drained q p /\ pendingCheckoutDrainPromise p = None).
Proof.
  intros Hq Hd. set (q1 := set_drain (Some (next_drain q)) (S (next_drain q)) q).
  apply (completes_ext _ (await_then drainPendingCheckoutsActual (DrainFinally (next_drain q))) _ q1).
  { unfold drainPendingCheckouts, await_then, q1. rewrite Hd, drainActual_set_drain.
    by destruct (drainPendingCheckoutsActual q) as [p [w fs]]. }
  apply completes_await. eapply completes_mono; [|apply (completes_loop (S (size_of q)) q1); [unfold size_of; cbn; lia|by destruct Hq; split]].
  intros p r _ [Hok (H1 & H2 & H3)]. eapply completes_ret; [reflexivity|]. intros l'. split; [by destruct r|]. split; [|done].
  split; [by destruct H1; split|]. split; [exact H2|exact H3].
Qed.

(** ** Giving a connection back *)

(** Once the queue is served, what check-in does with the idle connection leaves it so. *)
Lemma completes_after_checkin c q p : drained q p -> connectionHasOpenTransaction q c = false ->
  completes (run_frame ambient (CheckinDrained c) (Ok Undefined)) p (fun p r => is_Ok r = true /\ drained q p).
Proof.
  intros (Hp & Hm & Hleft) Htx. cbn [run_frame].
  assert (forall l, drained q (set_calls l p)) as Hd.
  { intros l. split; [by destruct Hp; split|]. split; [exact Hm|exact Hleft]. }
  destruct (bool_decide_reflect (c ∈ connections p)) as [Hc|Hc].
  - assert (pendingCheckouts p = []) as Hnone.
    { destruct (pendingCheckouts p) as [|w l] eqn:E; [done|]. destruct (Hleft w) as [_ H]; [by rewrite E|]. specialize (H c Hc).
      destruct Hm as (_ & _ & Hm). destruct (Hm c Hc) as [_ Hh]. unfold connectionHasOpenTransaction in *. rewrite Hh in H. congruence. }
    assert (forall l, drained q (set_calls l (scheduleIdleConnectionReaper ambient p))) as Hsched.
    { intros l. pose proof (schedule_keeps ambient p) as Hk. split; [|split].
      - apply (quiet_fewer p); [done|cbn; by rewrite (k_idle _ _ _ _ Hk)| |by destruct Hk..].
        intros d Hd'. apply (k_heap _ _ _ _ Hk). set_solver.
      - eapply moves_trans; [exact Hm|]. apply moves_same; [by destruct Hk..|]. intros d Hd'. cbn in Hd' |- *.
        rewrite (k_idle _ _ _ _ Hk) in Hd'. split; [done|]. apply (k_heap _ _ _ _ Hk). set_solver.
      - intros w. cbn. by rewrite (k_pending _ _ _ _ Hk), Hnone. }
    destruct (idleTimeoutMillis ambient) as [t|] eqn:Ei; [destruct (QArith_base.Qeq_bool t (QArith_base.Qmake 0 1)) eqn:Et|].
    + apply (completes_ext _ (reapIdleConnections ambient) _ p); [rewrite bool_decide_eq_true_2 by done; unfold handleCheckedInIdleConnection; by rewrite Ei, Et|].
      eapply completes_mono; [|apply completes_reap; apply Hp]. intros p1 r _ [Hok Hr]. split; [done|].
      destruct (quiet_reaped p p1 Hp Hr) as [Hp1 Hm1]. split; [done|]. split; [by eapply moves_trans|].
      destruct Hr as (touched & Hk & _). intros w. by rewrite (k_pending _ _ _ _ Hk), Hnone.
    + eapply completes_ret; [rewrite bool_decide_eq_true_2 by done; unfold handleCheckedInIdleConnection; rewrite Ei, Et; reflexivity|]. done.
    + eapply completes_ret; [rewrite bool_decide_eq_true_2 by done; unfold handleCheckedInIdleConnection; rewrite Ei; reflexivity|]. done.
  - eapply completes_ret; [rewrite bool_decide_eq_false_2 by done; reflexivity|]. done.
Qed.
End alone.

(** ** Giving a connection back, undisturbed *)

(** No close is in flight, the idle connections and [c] are open, and the callers that wait are
    different ones that have no answer. *)
Definition at_rest (c : nat) (p : pool) : Prop :=
  inflightConnectionCloses p = [] /\ Forall (open_connection p) (c :: connections p) /\
  NoDup (map ticket (pendingCheckouts p)) /\ Forall (fun w => outcomes p !! ticket w = None) (pendingCheckouts p).

(** The pool when the cleaned connection has gone back to the idle ones. *)
Definition given_back (c id : nat) (p : pool) : pool :=
  set_connections (connections p ++ [c])
    (on_connection c (fun k => with_checked_in (Some (now p)) (with_transactions 0 k))
      (on_connection c (with_id None) (set_in_use (delete id (connectionsInUse p)) p))).

Lemma given_back_heap c id p k : heap p !! c = Some k ->
  heap (given_back c id p) !! c = Some (with_checked_in (Some (now p)) (with_transactions 0 (with_id None k))).
Proof. intros Hk. cbn. by rewrite !lookup_alter_eq, Hk. Qed.

Lemma given_back_quiet c id p k : heap p !! c = Some k -> at_rest c p -> ~ c ∈ connections p -> NoDup (connections p) ->
  Forall (fun d => exists k, heap p !! d = Some k /\ id_seq k = None) (connections p) -> quiet (given_back c id p).
Proof.
  intros Hk (H1 & H2 & H3 & H4) Hc Hn Hfree. apply Forall_cons in H2 as [(k0 & Hk0 & Ho1 & Ho2) H2].
  assert (k0 = k) as -> by congruence.
  assert (forall d, d ∈ connections p -> heap (given_back c id p) !! d = heap p !! d) as Hh.
  { intros d Hd. assert (c <> d) by (by intros ->). cbn. by rewrite !lookup_alter_ne. }
  rewrite Forall_forall in H2, Hfree. split; [done| | | |done|done].
  - apply Forall_forall. cbn. intros d Hd. apply elem_of_app in Hd as [Hd|Hd]; [|apply list_elem_of_singleton in Hd as ->].
    + destruct (H2 d Hd) as (k' & Hk' & Ho). exists k'. by rewrite Hh.
    + eexists. split; [apply (given_back_heap c id p k Hk)|done].
  - cbn. apply NoDup_app. split; [done|]. split; [|apply NoDup_singleton]. intros d Hd Hdc. apply list_elem_of_singleton in Hdc as ->. done.
  - apply Forall_forall. cbn. intros d Hd. apply elem_of_app in Hd as [Hd|Hd]; [|apply list_elem_of_singleton in Hd as ->].
    + destruct (Hfree d Hd) as (k' & Hk' & Ho). exists k'. by rewrite Hh.
    + eexists. split; [apply (given_back_heap c id p k Hk)|done].
Qed.

Lemma idle_owned p : reachable p -> NoDup (connections p) /\ Forall (fun d => exists k, heap p !! d = Some k /\ id_seq k = None) (connections p).
Proof.
  intros Hp. pose proof (well_owned_reachable p Hp) as H. split.
  - pose proof (co_once _ _ _ _ _ _ H) as Hn. rewrite owned_app in Hn. apply NoDup_app in Hn as [Hn _].
    clear -Hn. induction (connections p) as [|c l IH]; [constructor|]. cbn in Hn. apply NoDup_cons in Hn as [Hc Hn].
    apply NoDup_cons. split; [|by apply IH]. intros Hin. apply Hc, (owned_elem c Raw None). by apply list_elem_of_fmap_2' with c.
  - apply Forall_forall. intros d Hd. pose proof (co_holds _ _ _ _ _ _ H) as Hh. rewrite Forall_forall in Hh.
    destruct (Hh (Owns d Raw None)) as (k & Hk & Hr & _); [|by exists k].
    apply elem_of_app. left. by apply list_elem_of_fmap_2' with d.
Qed.

(** Who must not spawn has reached its maximum; so has who may have no more. *)
Lemma cannot_spawn cfg p : canSpawnConnection cfg p = false ->
  exists m, maxConnections cfg = Some m /\ (m <= inject_Z (Z.of_nat (liveConnectionCount p)))%Q.
Proof.
  unfold canSpawnConnection, Qltb. destruct (maxConnections cfg) as [m|]; [|done]. intros H%negb_false_iff. exists m. split; [done|].
  by apply QArith_base.Qle_bool_iff.
Qed.

Lemma cannot_spawn_either cfg cfg' m m' p : canSpawnConnection cfg p = false -> maxConnections cfg = Some m ->
  maxConnections cfg' = Some m' -> (m' <= m)%Q -> canSpawnConnection cfg' p = false.
Proof.
  intros (m0 & Hm0 & Hle)%cannot_spawn Hm Hm' Hless. assert (m0 = m) as -> by congruence. unfold canSpawnConnection, Qltb. rewrite Hm'.
  apply negb_false_iff, QArith_base.Qle_bool_iff. by eapply QArith_base.Qle_trans.
Qed.

(** C38: A caller that gives its connection back to a pool at rest, undisturbed and with a
    driver that succeeds, gets everybody served who can be: the check-in ends, and every
    checkout that has left the queue holds a connection for its database. If somebody still
    waits, no connection is idle at all, of whatever database, and the connections in use or
    being spawned are as many as the first of them may have; so neither it nor anybody behind
    it with the same or a smaller maximum may have one spawned. (Who waits behind it with a
    larger maximum waits too: [waits_behind_the_first].) *)
Theorem checkin_serves_waiting_checkouts ambient p t c id key :
  rtc step new_pool p -> outcomes p !! t = Some (Holding c id key) -> at_rest c p -> pendingCheckoutDrainPromise p = None ->
  exists p0 q, perform (CallbackEnds ambient t) p = Some p0 /\ rtc (alone (length (calls p))) p0 q /\
    (exists v, calls q !! length (calls p) = Some (ambient, (Settled (Ok v), []))) /\
    (forall w, w ∈ pendingCheckouts p -> w ∈ pendingCheckouts q \/
       exists c' id', outcomes q !! ticket w = Some (Holding c' id' (key_for w))) /\
    (pendingCheckouts q <> [] -> connections q = []) /\
    (forall w, head (pendingCheckouts q) = Some w -> exists m, maxConnections (databaseConfig w) = Some m /\
       (m <= inject_Z (Z.of_nat (size (connectionsInUse q) + connectionsBeingSpawned q)))%Q /\
       forall w' m', w' ∈ pendingCheckouts q -> maxConnections (databaseConfig w') = Some m' -> (m' <= m)%Q ->
         canSpawnConnection (databaseConfig w') q = false).
Proof.
  intros Hp Ht Hrest Hdrain. set (i := length (calls p)).
  destruct (held_is_known p t c id key Hp Ht) as (k & Hk & Hkey & Hid).
  pose proof Hrest as (_ & Hopen & _ & _). apply Forall_cons in Hopen as [(k0 & Hk0 & Hcp & Hcl) _].
  unfold connection_at in Hk. assert (k0 = k) as -> by congruence.
  set (call := (Cleaning c, [CheckinCleaned c (Some id)])).
  set (p0 := set_calls (calls p ++ [(ambient, call)]) (end_use t p)).
  assert (perform (CallbackEnds ambient t) p = Some p0) as Hp0.
  { cbn. rewrite Ht. unfold start, checkin, connection_at. cbn. by rewrite Hk, Hcl, Hid. }
  exists p0.
  assert (ends_with i ambient p0 [] (fun q r => is_Ok r = true /\ drained (given_back c id p0) q)) as (q & r & H1 & H2 & H3 & Hq & Hm & Hleft).
  { eapply (call_goes_on i ambient p0 (Cleaning c) (CheckinCleaned c (Some id)) []); [| |reflexivity|].
    - cbn. rewrite lookup_app_r by done. by rewrite Nat.sub_diag.
    - unfold reachable. eapply rtc_r; [exact Hp|]. by eexists.
    - apply (completes_ext _ _ _ (await_then drainPendingCheckouts (CheckinDrained c)) _ (given_back c id p0)).
      { cbn [run_frame]. unfold checkin_cleaned. cbn [untrackConnectionInUse].
        rewrite bool_decide_eq_false_2; [done|]. unfold connection_at. cbn. rewrite lookup_alter_eq, Hk. cbn. by rewrite Hkey. }
      assert (quiet (given_back c id p0)) as Hquiet.
      { destruct (idle_owned p Hp) as [Hn Hfree]. pose proof (held_is_not_idle p t c id key Hp Ht) as Hni.
        apply (given_back_quiet c id p0 k); [exact Hk| |exact Hni|exact Hn|exact Hfree].
        destruct Hrest as (R1 & R2 & R3 & R4). split; [done|]. split; [exact R2|]. split; [exact R3|].
        cbn. eapply Forall_impl; [exact R4|]. cbn. intros w Hw. rewrite lookup_insert_ne; [done|]. intros E. rewrite <- E in Hw. congruence. }
      apply completes_await. eapply completes_mono; [|apply completes_drain; [done|exact Hdrain]].
      intros p1 r _ (Hok & Hd & _). destruct r as [v|]; [|done].
      eapply completes_ext; [|apply completes_after_checkin; [exact Hd|]].
      + done.
      + unfold connectionHasOpenTransaction. by rewrite (given_back_heap c id p0 k). }
  exists q. destruct r as [v|]; [|done]. split; [done|]. split; [exact H1|]. split; [by exists v|].
  assert (rtc step new_pool q) as Hreach.
  { apply (rtc_r _ _ p0) in Hp; [|by eexists]. etrans; [exact Hp|]. eapply alone_steps, H1. }
  assert (pendingCheckouts q <> [] -> connections q = []) as Hempty.
  { intros Hne. destruct (pendingCheckouts q) as [|w0 l] eqn:E; [done|]. destruct (Hleft w0) as [_ Htx]; [by rewrite E|].
    destruct (connections q) as [|d l'] eqn:Ec; [done|]. assert (d ∈ connections q) as Hd by (rewrite Ec; by left).
    pose proof (idle_clean_reachable q Hreach d Hd) as Hno. rewrite Htx in Hno; [done|by left]. }
  destruct Hm as (Hm & _ & _). split; [exact Hm|]. split; [exact Hempty|]. intros w Hw. destruct (Hleft w Hw) as [Hno _].
  destruct (cannot_spawn _ _ Hno) as (m & Hmax & Hle). exists m. split; [done|]. split.
  - rewrite (live_count q False) in Hle by by apply well_owned_reachable. unfold listed in Hle. rewrite Hempty in Hle; [exact Hle|].
    by intros E; rewrite E in Hw.
  - intros w' m' _ Hm' Hless. by eapply cannot_spawn_either.
Qed.

(** Three connections are in use. A caller with the maximum 1 waits for one, and behind it
    another with the maximum 3. A connection that is given back is closed for the first, which
    still may not have one; the second might, but waits behind it. *)
Example waits_behind_the_first :
  let held := configured "a" 3 in
  let p := after (checked_out held ++ checked_out held ++ checked_out held ++
    (Checkout (configured "b" 1) (configured "b" 1) :: goes_on 0 9) ++ (Checkout (configured "b" 3) (configured "b" 3) :: goes_on 0 9) ++
    (CallbackEnds held 0 :: goes_on 0 5) ++ (CloseSettles 0 Fulfilled :: goes_on 0 11)) in
  calls p = [] /\ connections p = [] /\ map ticket (pendingCheckouts p) = [3; 4]%nat /\
  map (fun w => canSpawnConnection (databaseConfig w) p) (pendingCheckouts p) = [false; true].
Proof. vm_compute. repeat split. Qed.

(** Two callers wait for the only connection: the one that gives it back is enough for the
    first of them. *)
Definition two_wait : list action :=
  let cfg := configured "a" 1 in
  checked_out cfg ++ (Checkout cfg cfg :: goes_on 0 9) ++ (Checkout cfg cfg :: goes_on 0 9).

Lemma checkin_serves_waiting_checkouts_witness :
  map ticket (pendingCheckouts (after two_wait)) = [1; 2]%nat /\
  exists p0 q, perform (CallbackEnds (configured "a" 1) 0) (after two_wait) = Some p0 /\ rtc (alone 0) p0 q /\
    (forall w, w ∈ pendingCheckouts (after two_wait) -> w ∈ pendingCheckouts q \/
       exists c' id', outcomes q !! ticket w = Some (Holding c' id' (key_for w))) /\
    (pendingCheckouts q <> [] -> connections q = []).
Proof.
  assert (run two_wait new_pool = Some (after two_wait)) as Hr by (vm_compute; reflexivity).
  assert (outcomes (after two_wait) !! 0%nat = Some (Holding 0 0 "a")) as Ht by (vm_compute; reflexivity).
  assert (at_rest 0 (after two_wait)) as Hrest.
  { split; [vm_compute; reflexivity|]. split; [|split].
    - assert (connections (after two_wait) = []) as -> by (vm_compute; reflexivity). apply Forall_singleton.
      exists (Build_connection (Some "a"%string) (Some 0%nat) false 0 None None).
      split; [vm_compute; reflexivity|split; reflexivity].
    - assert (map ticket (pendingCheckouts (after two_wait)) = [1; 2]%nat) as -> by (vm_compute; reflexivity).
      apply NoDup_cons. split; [|apply NoDup_singleton]. intros H. apply list_elem_of_singleton in H. discriminate H.
    - assert (forallb (fun w => match outcomes (after two_wait) !! ticket w with None => true | Some _ => false end)
        (pendingCheckouts (after two_wait)) = true) as Hn by (vm_compute; reflexivity).
      apply Forall_forall. intros w Hw. rewrite forallb_forall in Hn. rewrite list_elem_of_In in Hw. specialize (Hn w Hw).
      destruct (outcomes (after two_wait) !! ticket w); [discriminate Hn|reflexivity]. }
  split; [vm_compute; reflexivity|].
  destruct (checkin_serves_waiting_checkouts (configured "a" 1) (after two_wait) 0 0 0 "a" (actions_steps _ _ _ Hr) Ht Hrest)
    as (p0 & q & H1 & H2 & _ & H4 & H5 & _); [vm_compute; reflexivity|].
  exists p0, q. split; [exact H1|]. split; [|split; [exact H4|exact H5]].
  assert (length (calls (after two_wait)) = 0%nat) as E by (vm_compute; reflexivity). rewrite E in H2. exact H2.
Defined.
