(* ===== verification/JsObjects.v ===== *)
(** * Objects of the language

    What code that writes into objects under names it does not know depends on:
    properties are looked up along the prototypes, [__proto__] is an accessor that
    lives on [Object.prototype], and arrays have a length. Objects are cells of a
    heap, so that two references to one object see each other's writes.

    All objects are extensible; symbols and getters other than [__proto__] are left
    out. The order in which properties were created is left out too. *)

From stdpp Require Import base gmap strings list.
From Stdlib Require Import ZArith Ascii Lia.
From S2P Require Import Prelude Numbers Json.
Open Scope Z_scope.

Definition loc := nat.

Inductive jsval :=
| Undefined
| Null
| Number (n : Z)
| Text (s : string)
| Ref (l : loc).

#[export] Instance jsval_eq_dec : EqDecision jsval.
Proof. solve_decision. Defined.

(** A data property, which may be read-only, or the accessor [__proto__]. *)
Inductive property :=
| Data (v : jsval) (writable : bool)
| Proto_accessor.

(** [arrayLength] is there exactly in arrays. *)
Record object := {
  arrayLength : option Z;
  proto : option loc;
  own : gmap string property
}.

Abbreviation heap := (gmap loc object).

Definition plain (p : option loc) : object :=
  {| arrayLength := None; proto := p; own := ∅ |}.

Definition empty_array (p : option loc) : object :=
  {| arrayLength := Some 0; proto := p; own := ∅ |}.

Definition with_own (o : object) (m : gmap string property) : object :=
  {| arrayLength := arrayLength o; proto := proto o; own := m |}.

Definition with_length (o : object) (n : Z) : object :=
  {| arrayLength := Some n; proto := proto o; own := own o |}.

Definition with_proto (o : object) (p : option loc) : object :=
  {| arrayLength := arrayLength o; proto := p; own := own o |}.

(** The objects of the runtime the code refers to. *)
Record realm := {
  object_prototype : loc;
  array_prototype : loc;
  string_prototype : loc;
  number_prototype : loc;
  array_push : loc                    (* the function [Array.prototype.push] *)
}.

Inductive js_error :=
| TypeError
| RangeError
| PlainError (message : string).

Definition own_property (o : object) (key : string) : option property :=
  match arrayLength o with
  | Some n => if String.eqb key "length" then Some (Data (Number n) true) else own o !! key
  | None => own o !! key
  end.

(** The property a lookup finds: the object's own, or its prototype's. The language
    refuses cycles of prototypes, so that a chain is no longer than the heap. *)
Fixpoint lookup_chain (fuel : nat) (h : heap) (l : loc) (key : string) : option property :=
  match fuel with
  | O => None
  | S fuel =>
      o ← h !! l;
      match own_property o key with
      | Some p => Some p
      | None => p ← proto o; lookup_chain fuel h p key
      end
  end.

Definition lookup_property (h : heap) (l : loc) (key : string) : option property :=
  lookup_chain (size h) h l key.

(** [Array.isArray(v)] *)
Definition isArray (h : heap) (v : jsval) : bool :=
  match v with
  | Ref l => match h !! l with Some o => bool_decide (is_Some (arrayLength o)) | None => false end
  | _ => false
  end.

Section operations.
Context (R : realm).

(** The number an object converts to, by its [valueOf] and [toString]. *)
Context (object_number : heap -> loc -> option Z).

(** [key in v] *)
Definition has_property (h : heap) (v : jsval) (key : string) : result js_error bool :=
  match v with
  | Ref l => Ok (bool_decide (is_Some (lookup_property h l key)))
  | _ => Throw TypeError
  end.

(** [v[key]] of an object *)
Definition get (h : heap) (l : loc) (key : string) : jsval :=
  match lookup_property h l key with
  | Some (Data v _) => v
  | Some Proto_accessor =>
      match h !! l ≫= proto with Some p => Ref p | None => Null end
  | None => Undefined
  end.

(** [ToNumber] of what is assigned to a [length], when it is an integer. *)
Definition to_integer (h : heap) (v : jsval) : option Z :=
  match v with
  | Undefined => None
  | Null => Some 0
  | Number n => Some n
  | Text s => Number_integer s
  | Ref l => object_number h l
  end.

Definition below (n : Z) (key : string) : bool :=
  match array_index key with Some i => i <? n | None => true end.

(** Assigning the [length] of an array of [len] elements: elements beyond it go. *)
Definition set_length (h : heap) (l : loc) (o : object) (len : Z) (v : jsval) :
    result js_error heap :=
  match to_integer h v with
  | Some n =>
      if (0 <=? n) && (n <? 2 ^ 32) then
        if len <=? n then Ok (<[l := with_length o n]> h)
        else Ok (<[l := with_length (with_own o (filter (fun kp => below n kp.1 = true) (own o))) n]> h)
      else Throw RangeError
  | None => Throw RangeError
  end.

(** Creating or overwriting an own data property. *)
Definition define_own (h : heap) (l : loc) (key : string) (v : jsval) : result js_error heap :=
  match h !! l with
  | None => Throw TypeError
  | Some o =>
      let o' := with_own o (<[key := Data v true]> (own o)) in
      match arrayLength o with
      | None => Ok (<[l := o']> h)
      | Some n =>
          if String.eqb key "length" then set_length h l o n v
          else match array_index key with
               | Some i => Ok (<[l := with_length o' (Z.max n (i + 1))]> h)
               | None => Ok (<[l := o']> h)
               end
      end
  end.

(** Whether [l] is on the chain of prototypes that begins at [p]. *)
Fixpoint on_chain (fuel : nat) (h : heap) (l p : loc) : bool :=
  match fuel with
  | O => false
  | S fuel =>
      bool_decide (l = p) ||
      match h !! p ≫= proto with Some q => on_chain fuel h l q | None => false end
  end.

(** The setter of [__proto__]: values that are not objects are ignored;
    [Object.prototype] has an immutable prototype. *)
Definition set_prototype (h : heap) (l : loc) (v : jsval) : result js_error heap :=
  match v, h !! l with
  | Ref p, Some o =>
      if bool_decide (proto o = Some p) then Ok h
      else if bool_decide (l = object_prototype R) || on_chain (size h) h l p then Throw TypeError
      else Ok (<[l := with_proto o (Some p)]> h)
  | Null, Some o => Ok (<[l := with_proto o None]> h)
  | _, _ => Ok h
  end.

(** A primitive has no properties of its own to write: only a setter of its
    prototypes runs, without effect. *)
Definition set_primitive (h : heap) (p : loc) (own_key : bool) (key : string) :
    result js_error heap :=
  if own_key then Throw TypeError else
  match lookup_property h p key with
  | Some Proto_accessor => Ok h
  | _ => Throw TypeError
  end.

Definition text_own (s : string) (key : string) : bool :=
  String.eqb key "length" ||
  match array_index key with Some i => i <? Z.of_nat (String.length s) | None => false end.

(** [base[key] = v], in strict code *)
Definition set (h : heap) (base : jsval) (key : string) (v : jsval) : result js_error heap :=
  match base with
  | Undefined | Null => Throw TypeError
  | Text s => set_primitive h (string_prototype R) (text_own s key) key
  | Number _ => set_primitive h (number_prototype R) false key
  | Ref l =>
      match lookup_property h l key with
      | Some Proto_accessor => set_prototype h l v
      | Some (Data _ false) => Throw TypeError
      | _ => define_own h l key v
      end
  end.

(** The index [array.push(v)] writes to, where [push] is looked up as any property
    is; [None] when it is not the array method. *)
Definition push_length (h : heap) (l : loc) : option Z :=
  if bool_decide (get h l "push" = Ref (array_push R)) then h !! l ≫= arrayLength else None.

(** [{}] and [[]] *)
Definition new_object (h : heap) : jsval * heap :=
  let l := fresh (dom h) in (Ref l, <[l := plain (Some (object_prototype R))]> h).

Definition new_array (h : heap) : jsval * heap :=
  let l := fresh (dom h) in (Ref l, <[l := empty_array (Some (array_prototype R))]> h).

End operations.

(** ** Prototype chains *)

(** The objects a chain visits, from [l] to the one without a prototype. *)
Inductive chain (h : heap) : loc -> list loc -> Prop :=
| chain_end l o : h !! l = Some o -> proto o = None -> chain h l [l]
| chain_next l o p ls : h !! l = Some o -> proto o = Some p -> chain h p ls -> chain h l (l :: ls).

Lemma chain_starts h l ls : chain h l ls -> exists ls', ls = l :: ls'.
Proof. destruct 1; eauto. Qed.

Lemma chain_functional h l ls ls' : chain h l ls -> chain h l ls' -> ls = ls'.
Proof.
  intros H. revert ls'. induction H as [l o Ho Hp|l o p ls Ho Hp Hc IH]; inversion 1; simplify_eq; [done|].
  f_equal. auto.
Qed.

Lemma chain_suffix h l ls x : chain h l ls -> x ∈ ls -> exists ls', chain h x ls' /\ (length ls' <= length ls)%nat.
Proof.
  induction 1 as [l o Ho Hp|l o p ls Ho Hp Hc IH]; intros Hx; apply list_elem_of_In in Hx.
  - destruct Hx as [<-|[]]. exists [l]. split; [by econstructor|done].
  - destruct Hx as [<-|Hx].
    + exists (l :: ls). split; [by econstructor|done].
    + apply list_elem_of_In in Hx. destruct (IH Hx) as (ls' & Hls & Hlen).
      exists ls'. split; [done|]. cbn. lia.
Qed.

Lemma chain_no_dup h l ls : chain h l ls -> NoDup ls.
Proof.
  induction 1 as [l o Ho Hp|l o p ls Ho Hp Hc IH]; [apply NoDup_singleton|].
  constructor; [|done]. intros Hin. destruct (chain_suffix _ _ _ _ Hc Hin) as (ls' & Hls & Hlen).
  assert (ls' = l :: ls) as -> by (eapply chain_functional; [done|by econstructor]). cbn in Hlen. lia.
Qed.

Lemma chain_in_heap h l ls x : chain h l ls -> x ∈ ls -> x ∈ dom h.
Proof.
  intros H Hx. destruct (chain_suffix _ _ _ _ H Hx) as (ls' & Hls & _).
  apply elem_of_dom. inversion Hls; eauto.
Qed.

(** The heap is fuel enough for a lookup along any chain that ends. *)
Lemma chain_fits h l ls : chain h l ls -> (length ls <= size h)%nat.
Proof.
  intros H. rewrite <- size_dom, <- (size_list_to_set (C := gset loc) ls) by by eapply chain_no_dup.
  apply subseteq_size. intros x Hx. apply elem_of_list_to_set in Hx. by eapply chain_in_heap.
Qed.

Fixpoint first_property (h : heap) (ls : list loc) (key : string) : option property :=
  match ls with
  | [] => None
  | l :: ls' =>
      o ← h !! l;
      match own_property o key with Some p => Some p | None => first_property h ls' key end
  end.

Lemma lookup_along h l ls key : chain h l ls -> lookup_property h l key = first_property h ls key.
Proof.
  intros H. unfold lookup_property. pose proof (chain_fits _ _ _ H) as Hlen. revert Hlen.
  generalize (size h). induction H as [l o Ho Hp|l o p ls Ho Hp Hc IH]; intros [|fuel] Hlen; cbn in Hlen; try lia;
    cbn [lookup_chain first_property]; rewrite Ho; cbn; destruct (own_property o key); try done.
  - by rewrite Hp.
  - rewrite Hp. apply IH. lia.
Qed.
