(* ===== verification/ParamsToObject.v ===== *)
(** * Nested parameters ([src/src/http-server/client/params-to-object.js])

    [ParamsToObject] turns the flat parameters of a query, a form body or a form
    part into nested objects: [task\[name\]=x] becomes [{task: {name: "x"}}], and
    [tags\[\]=x] an array. The keys are the client's, so that objects are those of
    [JsObjects.v], with their prototypes: a key can name what an object inherits.

    The parameters come as the list of the keys that [for (const key in object)]
    enumerates with their values, which are texts or, for keys that
    [querystring.parse] has seen twice, arrays that exist before. A throw ends
    the loop; what it has written stays in the heap. *)

From stdpp Require Import base gmap strings list.
From Stdlib Require Import ZArith Ascii Lia.
From S2P Require Import Prelude Numbers Json JsObjects.
Open Scope Z_scope.

Inductive params_error :=
| Language (e : js_error)
| Malformed (key rest : string)          (* malformedNestedParamsKeyError *)
| ExpectedArray (rest : string)
| OutOfFuel.

Definition P (A : Type) : Type := ST heap params_error A.

Definition is_line_terminator (c : ascii) : bool :=
  Ascii.eqb c LF || Ascii.eqb c CR.

(** The first pattern: the shortest name of at least one character, on one line,
    before a bracket that something follows. *)
Fixpoint name_before_bracket (s : string) : option (string * string) :=
  match s with
  | EmptyString => None
  | String c s' =>
      if Ascii.eqb c "[" && negb (String.eqb s' "") then Some (EmptyString, s)
      else if is_line_terminator c then None
      else '(name, rest) ← name_before_bracket s'; Some (String c name, rest)
  end.

Definition firstMatch (key : string) : option (string * string) :=
  match key with
  | EmptyString => None
  | String c s =>
      if is_line_terminator c then None
      else '(name, rest) ← name_before_bracket s; Some (String c name, rest)
  end.

(** The second pattern: a bracket, the shortest name on one line up to a closing
    bracket, and the rest. *)
Fixpoint until_bracket (s : string) : option (string * string) :=
  match s with
  | EmptyString => None
  | String c s' =>
      if Ascii.eqb c "]" then Some (EmptyString, s')
      else if is_line_terminator c then None
      else '(name, rest) ← until_bracket s'; Some (String c name, rest)
  end.

Definition secondMatch (rest : string) : option (string * string) :=
  match rest with
  | String c s => if Ascii.eqb c "[" then until_bracket s else None
  | EmptyString => None
  end.

Section params.
Context (R : realm) (object_number : heap -> loc -> option Z).

(** The statements of the language, as steps on the heap. *)
Definition on_heap (f : heap -> result js_error heap) : P unit := fun h =>
  match f h with
  | Ok h' => (Ok tt, h')
  | Throw e => (Throw (Language e), h)
  end.

Definition js_set (base : jsval) (key : string) (v : jsval) : P unit :=
  on_heap (fun h => set R object_number h base key v).

Definition js_in (key : string) (v : jsval) : P bool := fun h =>
  match has_property h v key with
  | Ok b => (Ok b, h)
  | Throw e => (Throw (Language e), h)
  end.

Definition js_get (v : jsval) (key : string) : P jsval :=
  match v with
  | Ref l => gets (fun h => get h l key)
  | _ => throw (Language TypeError)
  end.

(** [array.push(x)] writes the element, then the length. *)
Definition js_push (v x : jsval) : P unit :=
  match v with
  | Ref l =>
      length ← (fun h => match push_length R h l with
                         | Some n => (Ok n, h)
                         | None => (Throw (Language TypeError), h)
                         end);
      _ ← js_set v (decimal_text length) x;
      js_set v "length" (Number (length + 1))
  | _ => throw (Language TypeError)
  end.

Definition js_object : P jsval := fun h => let '(v, h') := new_object R h in (Ok v, h').
Definition js_array : P jsval := fun h => let '(v, h') := new_array R h in (Ok v, h').

(** [newResult = []] for a rest of [[]], an object otherwise, assigned under [key]. *)
Definition create_under (result : jsval) (key rest : string) : P jsval :=
  newResult ← (if String.eqb rest "[]" then js_array else js_object);
  _ ← js_set result key newResult;
  mret newResult.

Fixpoint treatSecond (fuel : nat) (value : jsval) (rest : string) (result : jsval)
    (fullKey : string) : P unit :=
  match fuel with
  | O => throw OutOfFuel
  | S fuel =>
      match secondMatch rest with
      | None => throw (Malformed fullKey rest)
      | Some (key, newRest) =>
          if String.eqb rest "[]" then
            array ← gets (fun h => isArray h result);
            if negb (array : bool) then throw (ExpectedArray rest) else js_push result value
          else if String.eqb newRest "" then js_set result key value
          else
            array ← gets (fun h => isArray h result);
            present ← (if (array : bool) then mret false else js_in key result);
            newResult ← (if (present : bool) then js_get result key
                         else create_under result key newRest);
            treatSecond fuel value newRest newResult fullKey
      end
  end.

Definition treatInitial (key : string) (value result : jsval) : P unit :=
  match firstMatch key with
  | Some (inputName, rest) =>
      present ← js_in inputName result;
      newResult ← (if (present : bool) then js_get result inputName
                   else create_under result inputName rest);
      treatSecond (S (String.length rest)) value rest newResult key
  | None => js_set result key value
  end.

Definition toObject (object : list (string * jsval)) : P jsval :=
  result ← js_object;
  _ ← for_each (fun kv => treatInitial kv.1 kv.2 result) object;
  mret result.

(** ** Every key is read to its end *)

Lemma until_bracket_shorter s name rest :
  until_bracket s = Some (name, rest) -> (String.length rest < String.length s)%nat.
Proof.
  revert name. induction s as [|c s IH]; intros name; [done|]. cbn [until_bracket String.length].
  destruct (Ascii.eqb c "]"); [intros [= <- <-]; lia|]. destruct (is_line_terminator c); [done|].
  destruct (until_bracket s) as [[n r]|]; [|done]. cbn. intros [= <- <-]. specialize (IH n eq_refl). lia.
Qed.

Lemma secondMatch_shorter rest key newRest :
  secondMatch rest = Some (key, newRest) -> (String.length newRest < String.length rest)%nat.
Proof.
  destruct rest as [|c s]; [done|]. cbn. destruct (Ascii.eqb c "["); [|done].
  intros H. apply until_bracket_shorter in H. lia.
Qed.

(** ** The names a key visits *)

Fixpoint bracket_names (fuel : nat) (rest : string) : list string :=
  match fuel with
  | O => []
  | S fuel =>
      match secondMatch rest with
      | Some (key, newRest) => key :: bracket_names fuel newRest
      | None => []
      end
  end.

Definition key_names (key : string) : list string :=
  match firstMatch key with
  | Some (inputName, rest) => inputName :: bracket_names (S (String.length rest)) rest
  | None => [key]
  end.

Lemma bracket_names_fuel fuel rest : (String.length rest < fuel)%nat ->
  bracket_names fuel rest = bracket_names (S (String.length rest)) rest.
Proof.
  revert rest. induction fuel as [fuel IH] using lt_wf_ind. intros rest Hf.
  destruct fuel as [|fuel]; [lia|]. cbn [bracket_names].
  destruct (secondMatch rest) as [[key newRest]|] eqn:E; [|done]. f_equal.
  apply secondMatch_shorter in E.
  transitivity (bracket_names (S (String.length newRest)) newRest); [|symmetry]; apply IH; lia.
Qed.

End params.
