(* ===== verification/ParamsToObjectCorrect.v ===== *)
(** * What nested parameters become

    Keys that name no property of [Object.prototype] build, in any order, the
    nested object that they describe, and write to nothing else
    ([nested_params_are_read], [params_write_their_own_objects]). The examples run
    the keys that the hypotheses exclude. *)

From stdpp Require Import base gmap strings list.
From Stdlib Require Import ZArith Ascii Lia.
From S2P Require Import Prelude Numbers Json JsObjects ParamsToObject.
Open Scope Z_scope.

(** The value that own data properties lead to. *)
Fixpoint read (h : heap) (v : jsval) (path : list string) : option jsval :=
  match path with
  | [] => Some v
  | key :: path' =>
      match v with
      | Ref l =>
          match h !! l ≫= (fun o => own o !! key) with
          | Some (Data v' _) => read h v' path'
          | _ => None
          end
      | _ => None
      end
  end.

(** ** A runtime to evaluate in *)

Module Runtime.

Definition R : realm := {|
  object_prototype := 0; array_prototype := 1; string_prototype := 2;
  number_prototype := 3; array_push := 4
|}%nat.

Definition method (l : loc) : property := Data (Ref l) true.

Definition object_properties : list (string * property) :=
  [("__proto__", Proto_accessor); ("constructor", method 5); ("toString", method 7);
   ("valueOf", method 7); ("hasOwnProperty", method 7)]%string%nat.

Definition array_properties : list (string * property) :=
  [("push", method 4); ("constructor", method 7)]%string%nat.

(** [Object.prototype], the prototypes that inherit from it, and functions:
    [Array.prototype.push] (4), [Object] (5), [Function.prototype] (6), the other
    methods (7); the array of a repeated parameter (8). *)
Definition initial : heap := list_to_map [
  (0%nat, {| arrayLength := None; proto := None; own := list_to_map object_properties |});
  (1%nat, {| arrayLength := Some 0; proto := Some 0%nat; own := list_to_map array_properties |});
  (2%nat, plain (Some 0%nat));
  (3%nat, plain (Some 0%nat));
  (4%nat, plain (Some 6%nat));
  (5%nat, {| arrayLength := None; proto := Some 6%nat; own := list_to_map [
     ("prototype", Data (Ref 0%nat) false)] |});
  (6%nat, plain (Some 0%nat));
  (7%nat, plain (Some 6%nat));
  (8%nat, {| arrayLength := Some 2; proto := Some 1%nat; own := list_to_map [
     ("0", Data (Text "a") true); ("1", Data (Text "b") true)] |})]%string.

Definition run (object : list (string * jsval)) : result params_error jsval * heap :=
  toObject R (fun _ _ => None) object initial.

Definition read_all (object : list (string * jsval)) (paths : list (list string)) :
    result params_error (list (option jsval)) :=
  let '(r, h) := run object in
  match r with Ok v => Ok (map (read h v) paths) | Throw e => Throw e end.

Example nested_keys :
  read_all [("user[name]", Text "Ann"); ("id", Text "7"); ("user[address][city]", Text "Oslo");
            ("tags[]", Text "x")]
           [["user"; "name"]; ["user"; "address"; "city"]; ["id"]; ["tags"; "0"]; ["user"; "age"]]
  = Ok [Some (Text "Ann"); Some (Text "Oslo"); Some (Text "7"); Some (Text "x"); None].
Proof. vm_compute. reflexivity. Qed.

Example broken_key :
  (run [("task[]]", Text "Broken")]).1 = Throw (Malformed "task[]]" "]").
Proof. vm_compute. reflexivity. Qed.

(** [?__proto__\[admin\]=1] and [?constructor\[prototype\]\[admin\]=1] write to
    [Object.prototype]: from then on every object of the process has [admin]. *)
Example prototype_is_written :
  map (fun key => get (run [(key, Text "1")]).2 7%nat "admin")
    ["__proto__[admin]"; "constructor[prototype][admin]"]%string = [Text "1"; Text "1"]
  /\ get initial 7%nat "admin" = Undefined.
Proof. vm_compute. auto. Qed.

(** A repeated [tags\[\]] has an array for its value, which is pushed as one element. *)
Example repeated_append_is_nested :
  read_all [("tags[]", Ref 8%nat)] [["tags"; "0"]; ["tags"; "1"]; ["tags"; "0"; "1"]]
  = Ok [Some (Ref 8%nat); None; Some (Text "b")].
Proof. vm_compute. reflexivity. Qed.

(** Conflicting keys throw: a text has no properties, an array method can be hidden. *)
Example conflicts_throw :
  map (fun object => (run object).1)
    [[("a", Text "1"); ("a[b]", Text "2")];
     [("a[b]", Text "1"); ("a[]", Text "2")];
     [("a", Ref 8%nat); ("a[push]", Text "2"); ("a[]", Text "3")];
     [("a[]", Text "1"); ("a[length]", Text "many")]]%string
  = [Throw (Language TypeError); Throw (ExpectedArray "[]");
     Throw (Language TypeError); Throw (Language RangeError)].
Proof. vm_compute. reflexivity. Qed.

End Runtime.

(** ** Keys that describe a path *)

Record entry := {
  name : string;
  inner : list string;                  (* what stands in brackets *)
  appends : bool;                       (* whether the key ends in [[]] *)
  content : jsval
}.

Definition segments (e : entry) : list string := name e :: inner e.

Fixpoint brackets (l : list string) : string :=
  match l with
  | [] => ""
  | s :: l' => String "[" (s +:+ String "]" (brackets l'))
  end.

Definition suffix (appends : bool) : string := if appends then "[]" else "".

Definition key_of (e : entry) : string := name e +:+ brackets (inner e) +:+ suffix (appends e).

Definition on_one_line (s : string) : bool := all_chars (fun c => negb (is_line_terminator c)) s.

Lemma lacks_char_cons c d s :
  has_char c (String d s) = false -> Ascii.eqb d c = false /\ has_char c s = false.
Proof.
  rewrite has_char_cons. intros [Hd Hs]%orb_false_elim. split; [|done].
  apply Ascii.eqb_neq. by apply bool_decide_eq_false in Hd.
Qed.

Lemma name_before_bracket_name s c r : on_one_line s = true -> has_char "[" s = false ->
  name_before_bracket (s +:+ String "[" (String c r)) = Some (s, String "[" (String c r)).
Proof.
  induction s as [|d s IH]; intros Hl Hb; [done|]. cbn in Hl.
  apply andb_prop in Hl as [Hd Hl]. apply lacks_char_cons in Hb as [Hd' Hb].
  change ((String d s) +:+ ?x) with (String d (s +:+ x)). cbn [name_before_bracket].
  rewrite Hd'. cbn [andb]. destruct (is_line_terminator d); [done|]. by rewrite IH.
Qed.

Lemma name_before_bracket_none s : has_char "[" s = false -> name_before_bracket s = None.
Proof.
  induction s as [|d s IH]; intros Hb; [done|].
  apply lacks_char_cons in Hb as [Hd Hb]. cbn [name_before_bracket]. rewrite Hd. cbn [andb].
  destruct (is_line_terminator d); [done|]. by rewrite IH.
Qed.

Lemma firstMatch_name s c r : s <> "" -> on_one_line s = true -> has_char "[" s = false ->
  firstMatch (s +:+ String "[" (String c r)) = Some (s, String "[" (String c r)).
Proof.
  destruct s as [|d s]; intros Hs Hl Hb; [done|]. cbn in Hl.
  apply andb_prop in Hl as [Hd Hl]. apply lacks_char_cons in Hb as [Hd' Hb].
  change ((String d s) +:+ ?x) with (String d (s +:+ x)). cbn [firstMatch].
  destruct (is_line_terminator d); [done|]. by rewrite name_before_bracket_name.
Qed.

Lemma firstMatch_none s : has_char "[" s = false -> firstMatch s = None.
Proof.
  destruct s as [|d s]; intros Hb; [done|].
  apply lacks_char_cons in Hb as [Hd Hb]. cbn. destruct (is_line_terminator d); [done|].
  by rewrite name_before_bracket_none.
Qed.

Lemma secondMatch_name s r : on_one_line s = true -> has_char "]" s = false ->
  secondMatch (String "[" (s +:+ String "]" r)) = Some (s, r).
Proof.
  cbn [secondMatch]. rewrite Ascii.eqb_refl.
  induction s as [|d s IH]; intros Hl Hb; [done|]. cbn in Hl.
  apply andb_prop in Hl as [Hd Hl]. apply lacks_char_cons in Hb as [Hd' Hb].
  change ((String d s) +:+ ?x) with (String d (s +:+ x)). cbn [until_bracket].
  rewrite Hd'. destruct (is_line_terminator d); [done|]. by rewrite IH.
Qed.

Lemma brackets_suffix_nil l a : brackets l +:+ suffix a = "" -> l = [] /\ a = false.
Proof. destruct l, a; cbn; try done. Qed.

Lemma brackets_suffix_starts l a : ~ (l = [] /\ a = false) ->
  exists c r, brackets l +:+ suffix a = String "[" (String c r).
Proof.
  destruct l as [|s l]; cbn.
  - destruct a; [|naive_solver]. intros _. cbn. eauto.
  - intros _. destruct s as [|c s]; cbn; eauto.
Qed.

(** ** The object under construction

    A shape gives, for every path from the result, what is found there: an object
    under construction, a value, or an array with one element. *)

Inductive item :=
| Node (l : loc)
| Held (v : jsval)
| Arr (l : loc) (v : jsval).

Definition item_value (i : item) : jsval :=
  match i with Node l | Arr l _ => Ref l | Held v => v end.

Definition item_loc (i : item) : option loc :=
  match i with Node l | Arr l _ => Some l | Held _ => None end.

Definition one_element (p : option loc) (v : jsval) : object :=
  {| arrayLength := Some 1; proto := p; own := {["0" := Data v true]} |}.

Section construction.
Context (R : realm) (object_number : heap -> loc -> option Z) (h0 : heap).

(** What is used of the runtime: where the prototypes are, and that arrays have
    their [push]. *)
Record ordinary_runtime : Prop := {
  runtime_object : exists m, h0 !! object_prototype R = Some {| arrayLength := None; proto := None; own := m |}
    /\ m !! "0" = None /\ (forall key, m !! key = Some Proto_accessor -> key = "__proto__");
  runtime_array : exists m, h0 !! array_prototype R =
      Some {| arrayLength := Some 0; proto := Some (object_prototype R); own := m |}
    /\ m !! "push" = Some (Data (Ref (array_push R)) true) /\ m !! "0" = None
    /\ (forall key, m !! key <> Some Proto_accessor)
}.
Context (Hrun : ordinary_runtime).

(** A name that no object inherits. *)
Definition not_inherited (s : string) : Prop :=
  has_property h0 (Ref (object_prototype R)) s = Ok false.

Lemma object_prototype_chain : chain h0 (object_prototype R) [object_prototype R].
Proof. destruct (runtime_object Hrun) as (m & Ho & _). by econstructor. Qed.

Lemma not_inherited_own s m : not_inherited s ->
  h0 !! object_prototype R = Some {| arrayLength := None; proto := None; own := m |} -> m !! s = None.
Proof.
  unfold not_inherited. cbn [has_property]. intros [= H] Ho. apply bool_decide_eq_false in H.
  rewrite (lookup_along _ _ _ _ object_prototype_chain) in H. cbn in H. rewrite Ho in H. cbn in H.
  destruct (m !! s); [|done]. destruct H. eauto.
Qed.

(** A heap in which the two prototypes are as they were. *)
Definition keeps_prototypes (h : heap) : Prop :=
  h !! object_prototype R = h0 !! object_prototype R /\ h !! array_prototype R = h0 !! array_prototype R.

Lemma larger_keeps_prototypes h : h0 ⊆ h -> keeps_prototypes h.
Proof.
  intros Hsub. destruct (runtime_object Hrun) as (om & Ho & _). destruct (runtime_array Hrun) as (am & Ha & _).
  split; [rewrite Ho|rewrite Ha]; by eapply lookup_weaken.
Qed.

Lemma lookup_object h l m s : keeps_prototypes h ->
  h !! l = Some {| arrayLength := None; proto := Some (object_prototype R); own := m |} ->
  exists om, h0 !! object_prototype R = Some {| arrayLength := None; proto := None; own := om |} /\
    lookup_property h l s = match m !! s with Some p => Some p | None => om !! s end.
Proof.
  intros [Ho' _] Hl. destruct (runtime_object Hrun) as (om & Ho & _). rewrite Ho in Ho'.
  exists om. split; [done|]. rewrite (lookup_along _ _ [l; object_prototype R]).
  - cbn. rewrite Hl. cbn. destruct (m !! s); [done|]. rewrite Ho'. cbn. by destruct (om !! s).
  - econstructor; [done..|]. by econstructor.
Qed.

Lemma lookup_plain h l m s : keeps_prototypes h -> not_inherited s ->
  h !! l = Some {| arrayLength := None; proto := Some (object_prototype R); own := m |} ->
  lookup_property h l s = m !! s.
Proof.
  intros Hkeep Hs Hl. destruct (lookup_object h l m s Hkeep Hl) as (om & Ho & ->).
  rewrite (not_inherited_own s om Hs Ho). by destruct (m !! s).
Qed.

Lemma lookup_array h l n m s : keeps_prototypes h ->
  h !! l = Some {| arrayLength := Some n; proto := Some (array_prototype R); own := m |} ->
  exists am om,
    h0 !! array_prototype R = Some {| arrayLength := Some 0; proto := Some (object_prototype R); own := am |} /\
    h0 !! object_prototype R = Some {| arrayLength := None; proto := None; own := om |} /\
    lookup_property h l s =
      (if String.eqb s "length" then Some (Data (Number n) true)
       else match m !! s with Some p => Some p | None =>
            match am !! s with Some p => Some p | None => om !! s end end).
Proof.
  intros [Ho' Ha'] Hl. destruct (runtime_object Hrun) as (om & Ho & _).
  destruct (runtime_array Hrun) as (am & Ha & _). rewrite Ho in Ho'. rewrite Ha in Ha'.
  exists am, om. split; [done|]. split; [done|].
  rewrite (lookup_along _ _ [l; array_prototype R; object_prototype R]).
  - cbn. rewrite Hl. cbn. unfold own_property at 1. cbn. destruct (String.eqb s "length") eqn:Hlen; [done|].
    destruct (m !! s); [done|]. rewrite Ha'. cbn. unfold own_property at 1. cbn. rewrite Hlen.
    destruct (am !! s); [done|]. rewrite Ho'. cbn. by destruct (om !! s).
  - econstructor; [done..|]. econstructor; [done..|]. by econstructor.
Qed.

Record represents (h : heap) (root : loc) (S : gmap (list string) item) : Prop := {
  rep_root : S !! [] = Some (Node root);
  rep_node p l : S !! p = Some (Node l) -> exists m,
    h !! l = Some {| arrayLength := None; proto := Some (object_prototype R); own := m |} /\
    forall s, m !! s = (fun i => Data (item_value i) true) <$> S !! (p ++ [s]);
  rep_arr p l v : S !! p = Some (Arr l v) -> h !! l = Some (one_element (Some (array_prototype R)) v);
  rep_inj p q i j l : S !! p = Some i -> S !! q = Some j ->
    item_loc i = Some l -> item_loc j = Some l -> p = q;
  rep_new p i l : S !! p = Some i -> item_loc i = Some l -> l ∉ dom h0;
  rep_old : h0 ⊆ h;
  rep_closed p s : is_Some (S !! (p ++ [s])) -> exists l, S !! p = Some (Node l)
}.

(** What a new item needs of the heap it is linked in. *)
Definition item_ready (h : heap) (i : item) : Prop :=
  match i with
  | Node l => h !! l = Some (plain (Some (object_prototype R)))
  | Arr l v => h !! l = Some (one_element (Some (array_prototype R)) v)
  | Held _ => True
  end.

Lemma rep_in_heap h root S p i l : represents h root S -> S !! p = Some i -> item_loc i = Some l ->
  l ∈ dom h.
Proof.
  intros HR Hp Hi. apply elem_of_dom. destruct i as [l'|v|l' v]; simplify_eq/=.
  - destruct (rep_node _ _ _ HR _ _ Hp) as (m & -> & _). eauto.
  - rewrite (rep_arr _ _ _ HR _ _ _ Hp). eauto.
Qed.

Lemma represents_insert h h' root S p l m s i : represents h root S -> S !! p = Some (Node l) ->
  S !! (p ++ [s]) = None -> h ⊆ h' -> item_ready h' i ->
  (forall l', item_loc i = Some l' -> l' ∉ dom h) ->
  h !! l = Some {| arrayLength := None; proto := Some (object_prototype R); own := m |} ->
  represents
    (<[l := {| arrayLength := None; proto := Some (object_prototype R);
               own := <[s := Data (item_value i) true]> m |}]> h') root (<[p ++ [s] := i]> S).
Proof.
  intros HR Hp Hnone Hsub Hready Hfresh Hl.
  assert (forall q x, S !! q = Some x -> q <> p ++ [s]) as Hne by (intros q x Hq ->; congruence).
  assert (forall q x l', S !! q = Some x -> item_loc x = Some l' -> item_loc i <> Some l') as Hdiff.
  { intros q x l' Hq Hx Hi. apply (Hfresh _ Hi). by eapply rep_in_heap. }
  assert (l ∈ dom h) as Hin by (apply elem_of_dom; eauto).
  assert (forall q x l', S !! q = Some x -> item_loc x = Some l' -> q <> p -> l' <> l) as Hother.
  { intros q x l' Hq Hx Hqp ->. apply Hqp. by eapply (rep_inj _ _ _ HR _ _ _ (Node l)). }
  assert (item_loc i <> Some l) as Hil by by intros Hi%Hfresh.
  split.
  - rewrite lookup_insert_ne; [apply (rep_root _ _ _ HR)|]. by destruct p.
  - intros q l'. rewrite lookup_insert. case_decide as Hq.
    + subst q. intros [= ->]. cbn in Hready. exists ∅. split.
      * rewrite lookup_insert_ne by (cbn in Hil; congruence). done.
      * intros s'. rewrite lookup_empty, lookup_insert_ne.
        -- destruct (S !! ((p ++ [s]) ++ [s'])) eqn:E; [|done].
           destruct (rep_closed _ _ _ HR (p ++ [s]) s') as [l'' ?]; [by rewrite E|congruence].
        -- intros Heq%(f_equal length). rewrite !length_app in Heq. cbn in Heq. lia.
    + intros Hql. destruct (rep_node _ _ _ HR _ _ Hql) as (m' & Hm' & Hown).
      destruct (decide (q = p)) as [->|Hqp].
      * assert (l' = l) as -> by congruence. assert (m' = m) as -> by congruence.
        eexists. rewrite lookup_insert_eq. split; [done|]. intros s'. rewrite !lookup_insert.
        destruct (decide (s = s')) as [->|Hs]; [by rewrite decide_True by done|].
        rewrite decide_False by (intros [_ ?]%app_inj_tail; done). apply Hown.
      * exists m'. rewrite lookup_insert_ne by (intros ->; by eapply (Hother q (Node l'))).
        split; [by eapply lookup_weaken|]. intros s'.
        rewrite lookup_insert_ne by (intros [? _]%app_inj_tail; done). apply Hown.
  - intros q l' v. rewrite lookup_insert. case_decide as Hq.
    + intros [= ->]. cbn in Hready, Hil. rewrite lookup_insert_ne by congruence. done.
    + intros Hql. assert (q <> p) as Hqp by congruence.
      rewrite lookup_insert_ne by (intros ->; by eapply (Hother q (Arr l' v))).
      eapply lookup_weaken; [|done]. by eapply rep_arr.
  - intros q1 q2 i1 i2 l'. rewrite !lookup_insert. case_decide; case_decide.
    + congruence.
    + intros [= <-] H2 Hi1 Hi2. by destruct (Hdiff _ _ _ H2 Hi2).
    + intros H1 [= <-] Hi1 Hi2. by destruct (Hdiff _ _ _ H1 Hi1).
    + apply (rep_inj _ _ _ HR).
  - intros q i' l'. rewrite lookup_insert. case_decide.
    + intros [= <-] Hi Hd. apply (Hfresh _ Hi). eapply subseteq_dom; [apply (rep_old _ _ _ HR)|done].
    + apply (rep_new _ _ _ HR).
  - apply map_subseteq_spec. intros l' o Ho. rewrite lookup_insert_ne.
    + eapply lookup_weaken; [|done]. eapply lookup_weaken; [done|apply (rep_old _ _ _ HR)].
    + intros <-. eapply (rep_new _ _ _ HR); [done..|]. apply elem_of_dom. eauto.
  - intros q s'. rewrite !lookup_insert. intros Hsome. destruct (decide (p ++ [s] = q)) as [<-|Hq].
    + rewrite decide_False in Hsome.
      * destruct (rep_closed _ _ _ HR _ _ Hsome). congruence.
      * intros Heq%(f_equal length). rewrite !length_app in Heq. cbn in Heq. lia.
    + case_decide as Heq.
      * apply app_inj_tail in Heq as [-> _]. eauto.
      * by eapply rep_closed.
Qed.

Lemma set_plain h l m s v : h0 ⊆ h -> not_inherited s -> m !! s = None ->
  h !! l = Some {| arrayLength := None; proto := Some (object_prototype R); own := m |} ->
  set R object_number h (Ref l) s v =
    Ok (<[l := {| arrayLength := None; proto := Some (object_prototype R);
                  own := <[s := Data v true]> m |}]> h).
Proof.
  intros Hsub Hs Hm Hl. cbn [set]. rewrite (lookup_plain h l m s) by auto using larger_keeps_prototypes. rewrite Hm.
  unfold define_own. by rewrite Hl.
Qed.

Lemma fresh_new (h : heap) : fresh (dom h) ∉ dom h.
Proof. apply is_fresh. Qed.

Lemma create_object_runs h l m s rest : h0 ⊆ h -> not_inherited s -> m !! s = None -> rest <> "[]" ->
  h !! l = Some {| arrayLength := None; proto := Some (object_prototype R); own := m |} ->
  exists l', (l' ∉ dom h) /\ create_under R object_number (Ref l) s rest h =
    (Ok (Ref l'), <[l := {| arrayLength := None; proto := Some (object_prototype R);
                            own := <[s := Data (Ref l') true]> m |}]>
                    (<[l' := plain (Some (object_prototype R))]> h)).
Proof.
  intros Hsub Hs Hm Hrest Hl. exists (fresh (dom h)). split; [apply fresh_new|].
  unfold create_under. rewrite (proj2 (String.eqb_neq rest "[]")) by done.
  unfold js_object, new_object, js_set, on_heap. st_run. rewrite (set_plain _ l m); [done|..].
  - etrans; [done|]. apply insert_subseteq. apply not_elem_of_dom, fresh_new.
  - done.
  - done.
  - rewrite lookup_insert_ne; [done|]. intros Hf. apply (fresh_new h). rewrite Hf. apply elem_of_dom. eauto.
Qed.

Lemma create_array_runs h l m s : h0 ⊆ h -> not_inherited s -> m !! s = None ->
  h !! l = Some {| arrayLength := None; proto := Some (object_prototype R); own := m |} ->
  exists l', (l' ∉ dom h) /\ create_under R object_number (Ref l) s "[]" h =
    (Ok (Ref l'), <[l := {| arrayLength := None; proto := Some (object_prototype R);
                            own := <[s := Data (Ref l') true]> m |}]>
                    (<[l' := empty_array (Some (array_prototype R))]> h)).
Proof.
  intros Hsub Hs Hm Hl. exists (fresh (dom h)). split; [apply fresh_new|].
  unfold create_under, js_array, new_array, js_set, on_heap. st_run.
  change (String.eqb "[]" "[]") with true. cbv beta iota zeta. rewrite (set_plain _ l m); [done|..].
  - etrans; [done|]. apply insert_subseteq. apply not_elem_of_dom, fresh_new.
  - done.
  - done.
  - rewrite lookup_insert_ne; [done|]. intros Hf. apply (fresh_new h). rewrite Hf. apply elem_of_dom. eauto.
Qed.

Lemma define_first h l p v : h !! l = Some (empty_array p) ->
  define_own object_number h l "0" v = Ok (<[l := one_element p v]> h).
Proof.
  intros Hl. unfold define_own. rewrite Hl. cbn [arrayLength empty_array].
  change (String.eqb "0" "length") with false. change (array_index "0") with (Some 0). cbn iota.
  do 2 f_equal.
Qed.

Lemma define_length h l p v : h !! l = Some (one_element p v) ->
  define_own object_number h l "length" (Number (0 + 1)) = Ok (<[l := one_element p v]> h).
Proof. intros Hl. unfold define_own. by rewrite Hl. Qed.

Lemma push_empty h l v : h0 ⊆ h -> h !! l = Some (empty_array (Some (array_prototype R))) ->
  js_push R object_number (Ref l) v h = (Ok tt, <[l := one_element (Some (array_prototype R)) v]> h).
Proof.
  intros Hsub Hl. pose proof (larger_keeps_prototypes h Hsub) as Hkeep.
  destruct (lookup_array h l 0 ∅ "push" Hkeep Hl) as (am & om & Ha & Ho & Hpushed).
  destruct (lookup_array h l 0 ∅ "0" Hkeep Hl) as (am' & om' & Ha' & Ho' & Hzero).
  destruct (runtime_array Hrun) as (am'' & Ha'' & Hpush & Ham & _).
  destruct (runtime_object Hrun) as (om'' & Ho'' & Hom & _). simplify_eq.
  unfold js_push. st_run. unfold push_length, get. rewrite Hpushed.
  change (String.eqb "push" "length") with false. cbv iota. rewrite lookup_empty, Hpush.
  rewrite bool_decide_eq_true_2 by done. rewrite Hl. cbn [option_bind mbind arrayLength empty_array].
  change (decimal_text 0) with "0". unfold js_set, on_heap. cbn [set]. rewrite Hzero, lookup_empty, Ham, Hom.
  change (String.eqb "0" "length") with false. cbv iota.
  rewrite (define_first h l (Some (array_prototype R))) by done. cbv beta iota.
  set (h1 := <[l := one_element _ v]> h).
  assert (h1 !! l = Some (one_element (Some (array_prototype R)) v)) as Hl1 by apply lookup_insert_eq.
  assert (lookup_property h1 l "length" = Some (Data (Number 1) true)) as ->.
  { unfold lookup_property. assert (size h1 <> O) as Hsize.
    { intros H%map_size_empty_inv. rewrite H in Hl1. done. }
    destruct (size h1); [done|]. cbn [lookup_chain]. rewrite Hl1. done. }
  rewrite (define_length h1 l (Some (array_prototype R)) v) by done.
  f_equal. unfold h1. apply insert_insert_eq.
Qed.

(** *** One key *)

Definition open_at (S : gmap (list string) item) (t : list string) : Prop :=
  S !! t = None /\ forall q x, S !! q = Some x -> q `prefix_of` t -> exists l, x = Node l.

(** What one key adds: its own path, and objects on the way to it. *)
Definition grows (S S' : gmap (list string) item) (t : list string) : Prop :=
  S ⊆ S' /\ (forall q, is_Some (S' !! q) -> is_Some (S !! q) \/ q `prefix_of` t) /\
  (forall q x, S' !! q = Some x -> S !! q = None -> q <> t -> exists l, x = Node l).

Definition is_final (a : bool) (v : jsval) (i : item) : Prop :=
  match i with Held v' => a = false /\ v' = v | Arr _ v' => a = true /\ v' = v | Node _ => False end.

Lemma shape_grows_refl S t : grows S S t.
Proof. split; [done|]. split; [auto|]. congruence. Qed.

Lemma shape_grows_trans S1 S2 S3 t : grows S1 S2 t -> grows S2 S3 t -> grows S1 S3 t.
Proof.
  intros (H1 & H2 & H3) (H1' & H2' & H3'). split; [by etrans|]. split.
  - intros q [?|?]%H2'; auto.
  - intros q x Hq Hn Hne. destruct (S2 !! q) as [y|] eqn:E; [|by eauto].
    assert (x = y) as -> by (pose proof (lookup_weaken _ _ _ _ E H1'); congruence). eauto.
Qed.

Lemma shape_grows_insert S t q i : S !! q = None -> q `prefix_of` t -> (q <> t -> exists l, i = Node l) ->
  grows S (<[q := i]> S) t.
Proof.
  intros Hn Hq Hi. split; [by apply insert_subseteq|]. split.
  - intros q'. rewrite lookup_insert. case_decide; subst; auto.
  - intros q' x. rewrite lookup_insert. case_decide; [|congruence].
    intros [= <-] _ Hne. subst q'. auto.
Qed.

Lemma open_insert S t q l : open_at S t -> q <> t -> open_at (<[q := Node l]> S) t.
Proof.
  intros [Ht Hpre] Hq. split; [by rewrite lookup_insert_ne|].
  intros q' x. rewrite lookup_insert. case_decide; [|eauto]. intros [= <-]. eauto.
Qed.

Lemma node_in h root S p l s : represents h root S -> S !! p = Some (Node l) -> not_inherited s ->
  js_in s (Ref l) h = (Ok (bool_decide (is_Some (S !! (p ++ [s])))), h).
Proof.
  intros HR Hp Hs. destruct (rep_node _ _ _ HR _ _ Hp) as (m & Hl & Hown).
  unfold js_in, has_property. rewrite (lookup_plain h l m s) by eauto using larger_keeps_prototypes, rep_old.
  rewrite Hown. do 3 f_equal. apply bool_decide_ext. by rewrite fmap_is_Some.
Qed.

Lemma node_get h root S p l s i : represents h root S -> S !! p = Some (Node l) -> not_inherited s ->
  S !! (p ++ [s]) = Some i -> js_get (Ref l) s h = (Ok (item_value i), h).
Proof.
  intros HR Hp Hs Hi. destruct (rep_node _ _ _ HR _ _ Hp) as (m & Hl & Hown).
  unfold js_get, gets, get. rewrite (lookup_plain h l m s) by eauto using larger_keeps_prototypes, rep_old.
  by rewrite Hown, Hi.
Qed.

Lemma node_not_array h root S p l : represents h root S -> S !! p = Some (Node l) ->
  isArray h (Ref l) = false.
Proof.
  intros HR Hp. destruct (rep_node _ _ _ HR _ _ Hp) as (m & Hl & _).
  unfold isArray. rewrite Hl. by apply bool_decide_eq_false_2; intros [].
Qed.

(** The object on the way, found or created. *)
Lemma descend_runs h root S p l s t rest : represents h root S -> S !! p = Some (Node l) ->
  not_inherited s -> open_at S t -> p ++ [s] `prefix_of` t -> p ++ [s] <> t -> rest <> "[]" ->
  exists h' S' l',
    (present ← js_in s (Ref l);
     if (present : bool) then js_get (Ref l) s else create_under R object_number (Ref l) s rest) h
    = (Ok (Ref l'), h') /\
    represents h' root S' /\ S' !! (p ++ [s]) = Some (Node l') /\ grows S S' t /\ open_at S' t.
Proof.
  intros HR Hp Hs Hopen Hpre Hne Hrest. unfold mbind, ST_bind.
  rewrite (node_in _ _ _ _ _ _ HR Hp Hs). destruct (S !! (p ++ [s])) as [x|] eqn:E.
  - destruct (proj2 Hopen _ _ E Hpre) as [l' ->]. rewrite bool_decide_eq_true_2 by eauto.
    exists h, S, l'. rewrite (node_get _ _ _ _ _ _ _ HR Hp Hs E). auto using shape_grows_refl.
  - rewrite bool_decide_eq_false_2 by (intros [? [=]]).
    destruct (rep_node _ _ _ HR _ _ Hp) as (m & Hl & Hown).
    destruct (create_object_runs h l m s rest) as (l' & Hl' & ->);
      [apply (rep_old _ _ _ HR)|done|by rewrite Hown, E|done|done|].
    eexists _, (<[p ++ [s] := Node l']> S), l'. split; [done|]. split; [|split; [apply lookup_insert_eq|split]].
    + apply (represents_insert h _ root S p l m s (Node l')); [done..| | | |done].
      * apply insert_subseteq. by apply not_elem_of_dom.
      * apply lookup_insert_eq.
      * by intros ? [= <-].
    + apply shape_grows_insert; eauto.
    + by apply open_insert.
Qed.

Lemma link_value h root S p l s v : represents h root S -> S !! p = Some (Node l) ->
  not_inherited s -> S !! (p ++ [s]) = None ->
  exists h', js_set R object_number (Ref l) s v h = (Ok tt, h') /\
    represents h' root (<[p ++ [s] := Held v]> S).
Proof.
  intros HR Hp Hs Hn. destruct (rep_node _ _ _ HR _ _ Hp) as (m & Hl & Hown).
  unfold js_set, on_heap. rewrite (set_plain h l m s v);
    [|apply (rep_old _ _ _ HR)|done|by rewrite Hown, Hn|done].
  eexists. split; [done|]. by apply (represents_insert h h root S p l m s (Held v)).
Qed.

Lemma link_array h root S p l s v full fuel : represents h root S -> S !! p = Some (Node l) ->
  not_inherited s -> S !! (p ++ [s]) = None ->
  exists h1 h' l', create_under R object_number (Ref l) s "[]" h = (Ok (Ref l'), h1) /\
    treatSecond R object_number (Datatypes.S fuel) v "[]" (Ref l') full h1 = (Ok tt, h') /\
    represents h' root (<[p ++ [s] := Arr l' v]> S).
Proof.
  intros HR Hp Hs Hn. destruct (rep_node _ _ _ HR _ _ Hp) as (m & Hl & Hown).
  destruct (create_array_runs h l m s) as (l' & Hl' & Hrun');
    [apply (rep_old _ _ _ HR)|done|by rewrite Hown, Hn|done|].
  eexists _, _, l'. split; [exact Hrun'|]. clear Hrun'. cbn [treatSecond]. change (secondMatch "[]") with (Some ("", "")).
  cbv beta iota zeta. change (String.eqb "[]" "[]") with true. cbv iota.
  assert (l' <> l) as Hne by (intros ->; apply Hl', elem_of_dom; eauto).
  set (h1 := <[l := _]> _).
  assert (h1 !! l' = Some (empty_array (Some (array_prototype R)))) as Hl1.
  { unfold h1. rewrite lookup_insert_ne by done. apply lookup_insert_eq. }
  assert (h0 ⊆ h1) as Hsub.
  { apply map_subseteq_spec. intros x o Hx. unfold h1. rewrite lookup_insert_ne.
    - rewrite lookup_insert_ne; [by eapply lookup_weaken; [|apply (rep_old _ _ _ HR)]|].
      intros <-. apply Hl', (subseteq_dom _ _ (rep_old _ _ _ HR)), elem_of_dom. eauto.
    - intros <-. eapply (rep_new _ _ _ HR); [done..|]. apply elem_of_dom. eauto. }
  st_run. unfold isArray. rewrite Hl1. cbn [arrayLength empty_array].
  rewrite bool_decide_eq_true_2 by eauto. cbn [negb]. rewrite (push_empty h1 l' v) by done. split; [done|].
  unfold h1. rewrite insert_insert_ne, insert_insert_eq by done.
  apply (represents_insert h _ root S p l m s (Arr l' v)); [done..| | | |done].
  - apply insert_subseteq. by apply not_elem_of_dom.
  - apply lookup_insert_eq.
  - by intros ? [= <-].
Qed.

Definition plain_segment (s : string) : Prop :=
  on_one_line s = true /\ has_char "]" s = false /\ not_inherited s.

Lemma brackets_cons s l a :
  brackets (s :: l) +:+ suffix a = String "[" (s +:+ String "]" (brackets l +:+ suffix a)).
Proof.
  cbn [brackets]. rewrite append_cons. f_equal. by rewrite append_assoc, append_cons.
Qed.

Lemma brackets_fuel l a : (length l < S (String.length (brackets l +:+ suffix a)))%nat.
Proof.
  induction l as [|s l IH]; [cbn; lia|]. rewrite brackets_cons. cbn [length String.length].
  rewrite length_append. cbn [String.length]. lia.
Qed.

Lemma brackets_not_pair s l a : ~ (s = "" /\ l = [] /\ a = false) ->
  brackets (s :: l) +:+ suffix a <> "[]".
Proof.
  rewrite brackets_cons. intros Hn H. injection H as H. destruct s as [|c [|d s]]; cbn in H.
  - injection H as H. apply brackets_suffix_nil in H as [-> ->]. auto.
  - injection H as _ H. discriminate H.
  - injection H as _ H. discriminate H.
Qed.

Lemma treatSecond_step fuel v key newRest rest l full h :
  secondMatch rest = Some (key, newRest) -> rest <> "[]" -> newRest <> "" -> isArray h (Ref l) = false ->
  treatSecond R object_number (S fuel) v rest (Ref l) full h =
    (newResult ← (present ← js_in key (Ref l);
                  if (present : bool) then js_get (Ref l) key
                  else create_under R object_number (Ref l) key newRest);
     treatSecond R object_number fuel v newRest newResult full) h.
Proof.
  intros Hm Hr Hn Ha. cbn [treatSecond]. rewrite Hm. cbv beta iota zeta.
  rewrite (proj2 (String.eqb_neq rest _)) by done. rewrite (proj2 (String.eqb_neq newRest _)) by done.
  unfold mbind, ST_bind, gets. rewrite Ha. cbv iota beta. unfold js_in. by destruct (has_property _ _ _).
Qed.

(** What is promised of a key from a path of the shape on. *)
Definition adds (m : P unit) (h : heap) root Sh t a v : Prop :=
  exists h' S' i, m h = (Ok tt, h') /\ represents h' root S' /\ grows Sh S' t /\
    S' !! t = Some i /\ is_final a v i.

Definition reads_brackets a v full rem : Prop := forall s p l h root Sh fuel,
  represents h root Sh -> Sh !! p = Some (Node l) -> open_at Sh (p ++ s :: rem) ->
  Forall plain_segment (s :: rem) -> (a = false -> last (s :: rem) <> Some "") ->
  (S (length rem) < fuel)%nat ->
  adds (treatSecond R object_number fuel v (brackets (s :: rem) +:+ suffix a) (Ref l) full)
    h root Sh (p ++ s :: rem) a v.

Lemma continue_runs a v full s rem p l h root Sh fuel :
  (forall s2 rem', rem = s2 :: rem' -> reads_brackets a v full rem') ->
  represents h root Sh -> Sh !! p = Some (Node l) -> open_at Sh (p ++ s :: rem) ->
  not_inherited s -> Forall plain_segment rem -> ~ (rem = [] /\ a = false) ->
  (a = false -> last (s :: rem) <> Some "") -> (length rem < fuel)%nat ->
  adds (newResult ← (present ← js_in s (Ref l);
                  if (present : bool) then js_get (Ref l) s
                  else create_under R object_number (Ref l) s (brackets rem +:+ suffix a));
     treatSecond R object_number fuel v (brackets rem +:+ suffix a) newResult full)
    h root Sh (p ++ s :: rem) a v.
Proof.
  intros IH HR Hp Hopen Hs Hplain Hend Hlast Hfuel. destruct rem as [|s2 rem].
  - destruct a; [|naive_solver]. destruct fuel as [|fuel]; [cbn in Hfuel; lia|].
    change (brackets [] +:+ suffix true) with "[]".
    destruct (link_array h root Sh p l s v full fuel) as (h1 & h' & l' & H1 & H2 & H3);
      [done..|apply Hopen|].
    exists h', (<[p ++ [s] := Arr l' v]> Sh), (Arr l' v). split; [|split; [done|split; [|split]]].
    + unfold mbind, ST_bind. rewrite (node_in _ _ _ _ _ _ HR Hp Hs), (proj1 Hopen).
      rewrite bool_decide_eq_false_2 by (intros [? [=]]). rewrite H1. exact H2.
    + apply shape_grows_insert; [apply Hopen|done|done].
    + apply lookup_insert_eq.
    + done.
  - destruct (descend_runs h root Sh p l s (p ++ s :: s2 :: rem) (brackets (s2 :: rem) +:+ suffix a))
      as (h1 & S1 & l' & H1 & H2 & H3 & H4 & H5); [done..| | | |].
    { exists (s2 :: rem). by rewrite <- (assoc_L (++)). }
    { intros H%(f_equal length). rewrite !length_app in H. cbn in H. lia. }
    { apply brackets_not_pair. intros (-> & -> & ->). by apply Hlast. }
    edestruct (IH s2 rem eq_refl s2 (p ++ [s]) l' h1 root S1 fuel) as (h' & S' & i & G1 & G2 & G3 & G4 & G5);
      [done|done| |done| | |].
    { by rewrite <- (assoc_L (++)). }
    { done. }
    { cbn in Hfuel. lia. }
    rewrite <- (assoc_L (++)) in G3, G4. exists h', S', i. split; [|split; [done|split; [by eapply shape_grows_trans|done]]].
    unfold mbind at 1, ST_bind at 1. rewrite H1. exact G1.
Qed.

Lemma treatSecond_runs a v full rem : reads_brackets a v full rem.
Proof.
  induction rem as [rem IHrem] using (induction_ltof1 _ (@length string)).
  assert (forall s2 rem', rem = s2 :: rem' -> reads_brackets a v full rem') as IH.
  { intros s2 rem' ->. apply IHrem. unfold ltof. cbn. lia. }
  clear IHrem. intros s p l h root Sh fuel HR Hp Hopen Hplain Hlast Hfuel.
  destruct fuel as [|fuel]; [lia|]. apply Forall_cons in Hplain as [(Hline & Hbr & Hs) Hplain].
  assert (secondMatch (brackets (s :: rem) +:+ suffix a) = Some (s, brackets rem +:+ suffix a)) as Hmatch
    by (rewrite brackets_cons; by apply secondMatch_name).
  assert (brackets (s :: rem) +:+ suffix a <> "[]") as Hpair.
  { apply brackets_not_pair. intros (-> & -> & ->). by apply Hlast. }
  assert (Decision (rem = [] /\ a = false)) as [[-> ->]|Hend] by apply _.
  - cbn [brackets suffix treatSecond] in *. unfold adds. cbn [treatSecond]. rewrite Hmatch.
    change ("" +:+ "") with "" in *. cbv beta iota zeta.
    rewrite (proj2 (String.eqb_neq _ "[]")) by done. change (String.eqb "" "") with true. cbv iota.
    destruct (link_value h root Sh p l s v HR Hp Hs (proj1 Hopen)) as (h' & -> & HR').
    eexists h', _, (Held v). split; [done|]. split; [exact HR'|].
    split; [by apply shape_grows_insert; [apply Hopen|..]|]. split; [apply lookup_insert_eq|done].
  - unfold adds. rewrite (treatSecond_step _ _ s (brackets rem +:+ suffix a));
      [|done..|by intros ?%brackets_suffix_nil|by eapply node_not_array].
    apply continue_runs; try done. lia.
Qed.

(** *** All keys *)

(** Keys of the grammar [name\[a\]\[b\]] or [name\[a\]\[\]] that name nothing an
    object inherits. *)
Record plain_entry (e : entry) : Prop := {
  plain_name : name e <> "" /\ on_one_line (name e) = true /\ has_char "[" (name e) = false;
  plain_name_new : not_inherited (name e);
  plain_inner : Forall plain_segment (inner e);
  plain_last : appends e = false -> last (inner e) <> Some ""
}.

Lemma treatInitial_runs e h root Sh : plain_entry e -> represents h root Sh ->
  open_at Sh (segments e) ->
  adds (treatInitial R object_number (key_of e) (content e) (Ref root))
    h root Sh (segments e) (appends e) (content e).
Proof.
  intros [(Hne & Hline & Hbr) Hnew Hinner Hlast] HR Hopen. unfold adds, treatInitial, key_of.
  assert (Decision (inner e = [] /\ appends e = false)) as [[Hi Ha]|Hend] by apply _.
  - unfold segments in *. rewrite Hi, Ha in *. change (brackets [] +:+ suffix false) with "".
    rewrite append_nil_r, firstMatch_none by done.
    destruct (link_value h root Sh [] root (name e) (content e) HR (rep_root _ _ _ HR) Hnew (proj1 Hopen))
      as (h' & -> & HR').
    eexists h', _, (Held (content e)). split; [done|]. split; [exact HR'|].
    split; [by apply shape_grows_insert; [apply Hopen|..]|]. split; [apply lookup_insert_eq|done].
  - assert (exists c r, brackets (inner e) +:+ suffix (appends e) = String "[" (String c r)) as (c & r & Hcr)
      by by apply brackets_suffix_starts.
    rewrite Hcr, firstMatch_name, <- Hcr by done. cbv beta iota zeta.
    assert (adds (newResult ← (present ← js_in (name e) (Ref root);
                  if (present : bool) then js_get (Ref root) (name e)
                  else create_under R object_number (Ref root) (name e)
                         (brackets (inner e) +:+ suffix (appends e)));
       treatSecond R object_number (S (String.length (brackets (inner e) +:+ suffix (appends e)))) (content e)
         (brackets (inner e) +:+ suffix (appends e)) newResult
         (name e +:+ brackets (inner e) +:+ suffix (appends e))) h root Sh ([] ++ name e :: inner e)
         (appends e) (content e)) as Hadds.
    + apply continue_runs; try done.
      * intros s2 rem' _. apply treatSecond_runs.
      * apply (rep_root _ _ _ HR).
      * intros Ha. destruct (inner e) eqn:E; [by intros [= ?]|]. by apply Hlast.
      * apply brackets_fuel.
    + destruct Hadds as (h' & S' & i & Hm & Hrest). exists h', S', i. split; [|exact Hrest].
      rewrite <- Hm. unfold mbind, ST_bind, js_in. by destruct (has_property _ _ _).
Qed.

Record covers (Sh : gmap (list string) item) (es : list entry) : Prop := {
  cover_dom q : is_Some (Sh !! q) -> q = [] \/ exists e, e ∈ es /\ q `prefix_of` segments e;
  cover_leaf q x : Sh !! q = Some x -> (exists l, x = Node l) \/ exists e, e ∈ es /\ q = segments e;
  cover_entry e : e ∈ es -> exists i, Sh !! segments e = Some i /\ is_final (appends e) (content e) i
}.

(** No key continues another, and none comes twice. *)
Definition prefix_free (es : list entry) : Prop :=
  NoDup es /\ forall e e', e ∈ es -> e' ∈ es -> segments e `prefix_of` segments e' -> e = e'.

Lemma covers_open Sh es e rest : covers Sh es -> prefix_free (es ++ e :: rest) -> open_at Sh (segments e).
Proof.
  intros HC [Hnd Hpf]. apply NoDup_app in Hnd as (_ & Hnd & _).
  assert (forall e', e' ∈ es -> e' ∈ es ++ e :: rest) as Hin by (intros; apply elem_of_app; auto).
  assert (e ∈ es ++ e :: rest) as He by (apply elem_of_app; right; left).
  assert (e ∉ es) as Hnot by (intros Hx; destruct (Hnd e Hx); left).
  split.
  - destruct (Sh !! segments e) eqn:E; [|done].
    destruct (cover_dom _ _ HC (segments e) ltac:(eauto)) as [Hnil|(e' & He' & Hpre)]; [discriminate Hnil|].
    destruct Hnot. by rewrite (Hpf e e' He (Hin _ He') Hpre).
  - intros q x Hq Hpre. destruct (cover_leaf _ _ HC q x Hq) as [?|(e' & He' & ->)]; [done|].
    destruct Hnot. by rewrite <- (Hpf e' e (Hin _ He') He Hpre).
Qed.

Lemma covers_grow Sh S' es e i : covers Sh es -> grows Sh S' (segments e) ->
  S' !! segments e = Some i -> is_final (appends e) (content e) i -> covers S' (es ++ [e]).
Proof.
  intros HC (G1 & G2 & G3) Hi Hf. split.
  - intros q Hq. destruct (G2 q Hq) as [Hold|Hpre].
    + destruct (cover_dom _ _ HC q Hold) as [?|(e' & He' & Hpre)]; [auto|]. right. exists e'.
      split; [|done]. apply elem_of_app. auto.
    + right. exists e. split; [|done]. apply elem_of_app. right. by left.
  - intros q x Hq. destruct (Sh !! q) as [y|] eqn:E.
    + assert (x = y) as -> by (pose proof (lookup_weaken _ _ _ _ E G1); congruence).
      destruct (cover_leaf _ _ HC q y E) as [?|(e' & He' & Heq)]; [auto|]. right. exists e'.
      split; [|done]. apply elem_of_app. auto.
    + destruct (decide (q = segments e)) as [->|Hq']; [|left; eauto]. right. exists e.
      split; [|done]. apply elem_of_app. right. by left.
  - intros e'. rewrite elem_of_app, list_elem_of_singleton. intros [He'| ->]; [|eauto].
    destruct (cover_entry _ _ HC e' He') as (j & Hj & Hfj). exists j. split; [|done].
    by eapply lookup_weaken.
Qed.

Lemma all_keys_run todo : forall es h root Sh,
  represents h root Sh -> covers Sh es -> prefix_free (es ++ todo) -> Forall plain_entry todo ->
  exists h' S',
    for_each (fun kv => treatInitial R object_number kv.1 kv.2 (Ref root))
      (map (fun e => (key_of e, content e)) todo) h = (Ok tt, h') /\
    represents h' root S' /\ covers S' (es ++ todo).
Proof.
  induction todo as [|e todo IH]; intros es h root Sh HR HC Hpf Hplain.
  - exists h, Sh. by rewrite app_nil_r.
  - apply Forall_cons in Hplain as [He Hplain].
    destruct (treatInitial_runs e h root Sh He HR (covers_open _ _ _ _ HC Hpf)) as (h1 & S1 & i & H1 & H2 & H3 & H4 & H5).
    destruct (IH (es ++ [e]) h1 root S1) as (h' & S' & G1 & G2 & G3);
      [done|by eapply covers_grow|by rewrite <- (assoc_L (++))|done|].
    rewrite <- (assoc_L (++)) in G3. exists h', S'. split; [|done].
    cbn [map for_each fst snd]. unfold mbind, ST_bind. by rewrite H1.
Qed.

(** *** Reading the result *)

Lemma node_above h root Sh p q : represents h root Sh -> is_Some (Sh !! (p ++ q)) -> q <> [] ->
  exists l, Sh !! p = Some (Node l).
Proof.
  intros HR. induction q as [|s q IH] using rev_ind; [done|]. intros Hq _.
  rewrite (assoc_L (++)) in Hq. destruct (rep_closed _ _ _ HR _ _ Hq) as [l Hl].
  destruct q as [|s' q]; [rewrite app_nil_r in Hl; eauto|]. apply IH; [eauto|done].
Qed.

Lemma read_at h root Sh q : represents h root Sh -> forall p l i, Sh !! p = Some (Node l) ->
  Sh !! (p ++ q) = Some i -> read h (Ref l) q = Some (item_value i).
Proof.
  intros HR. induction q as [|s q IH]; intros p l i Hp Hi.
  - rewrite app_nil_r in Hi. by assert (i = Node l) as -> by congruence.
  - cbn [read]. destruct (rep_node _ _ _ HR _ _ Hp) as (m & Hl & Hown). rewrite Hl. cbn.
    rewrite Hown. rewrite (cons_middle s), (assoc_L (++)) in Hi. destruct q as [|s' q].
    + rewrite app_nil_r in Hi. by rewrite Hi.
    + destruct (node_above h root Sh (p ++ [s]) (s' :: q) HR) as [l' Hl']; [eauto|done|].
      rewrite Hl'. cbn. by eapply IH.
Qed.

Lemma read_covered h root Sh q : represents h root Sh -> forall p l, Sh !! p = Some (Node l) ->
  is_Some (read h (Ref l) q) ->
  is_Some (Sh !! (p ++ q)) \/
  exists q1 x, q1 `prefix_of` q /\ Sh !! (p ++ q1) = Some x /\ (forall l, x <> Node l).
Proof.
  intros HR. induction q as [|s q IH]; intros p l Hp Hq.
  - left. rewrite app_nil_r. eauto.
  - cbn [read] in Hq. destruct (rep_node _ _ _ HR _ _ Hp) as (m & Hl & Hown). rewrite Hl in Hq. cbn in Hq.
    rewrite Hown in Hq. destruct (Sh !! (p ++ [s])) as [i|] eqn:E; cbn in Hq; [|by destruct Hq].
    rewrite (cons_middle s), (assoc_L (++)). destruct i as [l'|v|l' v].
    + destruct (IH _ _ E Hq) as [?|(q1 & x & [k ->] & Hx & Hn)]; [auto|]. right. exists (s :: q1), x.
      split; [by exists k|]. split; [|done]. by rewrite (cons_middle s), (assoc_L (++)).
    + right. exists [s], (Held v). split; [by exists q|done].
    + right. exists [s], (Arr l' v). split; [by exists q|done].
Qed.

Definition new_object_at (h : heap) (root : loc) (path : list string) : Prop := exists l m,
  read h (Ref root) path = Some (Ref l) /\ (l ∉ dom h0) /\
  h !! l = Some {| arrayLength := None; proto := Some (object_prototype R); own := m |}.

Definition reads_entry (h : heap) (root : loc) (e : entry) : Prop :=
  if appends e then exists l,
    read h (Ref root) (segments e) = Some (Ref l) /\ (l ∉ dom h0) /\
    h !! l = Some (one_element (Some (array_prototype R)) (content e))
  else read h (Ref root) (segments e) = Some (content e).

Lemma shape_read h root Sh es : represents h root Sh -> covers Sh es ->
  Forall (reads_entry h root) es /\
  (forall e path, e ∈ es -> path `prefix_of` segments e -> path <> segments e -> new_object_at h root path) /\
  (forall path, is_Some (read h (Ref root) path) ->
     path = [] \/ exists e, e ∈ es /\ (path `prefix_of` segments e \/ segments e `prefix_of` path)).
Proof.
  intros HR HC. pose proof (rep_root _ _ _ HR) as Hroot. split; [|split].
  - apply Forall_forall. intros e He. destruct (cover_entry _ _ HC e He) as (i & Hi & Hf).
    pose proof (read_at h root Sh (segments e) HR [] root i Hroot Hi) as Hread.
    unfold reads_entry. destruct i as [l|v|l v]; cbn in Hf; [done| |]; destruct Hf as [-> ->]; [done|].
    exists l. split; [done|]. split; [by eapply (rep_new _ _ _ HR _ _ _ Hi)|by eapply rep_arr].
  - intros e path He [k Hk] Hne. destruct (cover_entry _ _ HC e He) as (i & Hi & Hf).
    rewrite Hk in Hi. destruct (node_above h root Sh path k HR) as [l Hl]; [eauto|by intros ->; rewrite app_nil_r in Hk|].
    destruct (rep_node _ _ _ HR _ _ Hl) as (m & Hm & _). exists l, m.
    split; [by apply (read_at h root Sh path HR [] root _ Hroot Hl)|]. split; [by eapply (rep_new _ _ _ HR _ _ _ Hl)|done].
  - intros path Hpath. destruct (read_covered h root Sh path HR [] root Hroot Hpath) as [Hs|(q1 & x & Hq & Hx & Hn)].
    + destruct (cover_dom _ _ HC _ Hs) as [?|(e & He & Hp)]; eauto.
    + right. change ([] ++ q1) with q1 in Hx. destruct (cover_leaf _ _ HC _ _ Hx) as [[l ->]|(e & He & ->)]; [by destruct (Hn l)|]. eauto.
Qed.

Lemma represents_empty l : l ∉ dom h0 ->
  represents (<[l := plain (Some (object_prototype R))]> h0) l {[ [] := Node l ]}.
Proof.
  intros Hl. split.
  - apply lookup_singleton_eq.
  - intros p l' [<- [= ->]]%lookup_singleton_Some. exists ∅. split; [apply lookup_insert_eq|].
    intros s. by rewrite lookup_empty, lookup_singleton_ne.
  - intros p l' v [_ [=]]%lookup_singleton_Some.
  - intros p q i j l' [<- <-]%lookup_singleton_Some [<- <-]%lookup_singleton_Some. done.
  - intros p i l' [<- <-]%lookup_singleton_Some. cbn. congruence.
  - apply insert_subseteq. by apply not_elem_of_dom.
  - intros p s [x [Heq _]%lookup_singleton_Some]. by destruct p.
Qed.

(** C39: [toObject] of keys of the form [name\[a\]\[b\]] or [name\[a\]\[\]], none of
    which continues another and none of whose names [Object.prototype] has, returns,
    in whatever order the keys come, a new object in which the path of each key leads
    to its value, or to a new array of that one value; every object on the way is new
    and ordinary, no other path leads anywhere, and all objects from before are
    unchanged. *)
Theorem nested_params_are_read es : Forall plain_entry es -> prefix_free es ->
  exists root h, toObject R object_number (map (fun e => (key_of e, content e)) es) h0 = (Ok (Ref root), h) /\
    h0 ⊆ h /\
    Forall (reads_entry h root) es /\
    (forall e path, e ∈ es -> path `prefix_of` segments e -> path <> segments e -> new_object_at h root path) /\
    (forall path, is_Some (read h (Ref root) path) ->
       path = [] \/ exists e, e ∈ es /\ (path `prefix_of` segments e \/ segments e `prefix_of` path)).
Proof.
  intros Hplain Hpf. pose proof (represents_empty _ (fresh_new h0)) as HR.
  destruct (all_keys_run es [] _ _ _ HR) as (h & Sh & Hm & HR' & HC); [|done..|].
  { split.
    - intros q [x [<- _]%lookup_singleton_Some]. auto.
    - intros q x [_ <-]%lookup_singleton_Some. eauto.
    - intros e He. by apply not_elem_of_nil in He. }
  exists (fresh (dom h0)), h. split; [|split; [apply (rep_old _ _ _ HR')|by eapply shape_read]].
  unfold toObject, js_object, new_object. unfold mbind, ST_bind. by rewrite Hm.
Qed.

End construction.

(** The runtime above is one the theorems speak of. *)
Lemma initial_runtime : ordinary_runtime Runtime.R Runtime.initial.
Proof.
  split.
  - exists (list_to_map Runtime.object_properties). split; [vm_compute; reflexivity|].
    split; [vm_compute; reflexivity|]. intros key. unfold Runtime.object_properties, Runtime.method.
    rewrite !list_to_map_cons, !lookup_insert, list_to_map_nil, lookup_empty. repeat case_decide; cbn; congruence.
  - exists (list_to_map Runtime.array_properties). split; [vm_compute; reflexivity|].
    split; [vm_compute; reflexivity|]. split; [vm_compute; reflexivity|].
    intros key. unfold Runtime.array_properties, Runtime.method.
    rewrite !list_to_map_cons, !lookup_insert, list_to_map_nil, lookup_empty. repeat case_decide; done.
Qed.

Definition sample_entries : list entry := [
  {| name := "user"; inner := ["name"]; appends := false; content := Text "Ann" |};
  {| name := "id"; inner := []; appends := false; content := Text "7" |};
  {| name := "user"; inner := ["address"; "city"]; appends := false; content := Text "Oslo" |};
  {| name := "tags"; inner := []; appends := true; content := Text "x" |}]%string.

Lemma nested_params_are_read_witness : exists root h,
  toObject Runtime.R (fun _ _ => None)
    [("user[name]", Text "Ann"); ("id", Text "7"); ("user[address][city]", Text "Oslo");
     ("tags[]", Text "x")] Runtime.initial = (Ok (Ref root), h) /\
  Forall (reads_entry Runtime.R Runtime.initial h root) sample_entries.
Proof.
  destruct (nested_params_are_read Runtime.R (fun _ _ => None) Runtime.initial initial_runtime sample_entries)
    as (root & h & Hm & _ & Hread & _).
  - repeat constructor; try (vm_compute; congruence). all: try (cbn; congruence).
  - split.
    + apply (NoDup_fmap_1 segments), (bool_decide_unpack _). vm_compute. exact I.
    + intros e e' He He' [k Hk]. cbn in He, He'.
      repeat (apply elem_of_cons in He as [->|He]); repeat (apply elem_of_cons in He' as [->|He']);
        try (by apply not_elem_of_nil in He); try (by apply not_elem_of_nil in He'); try done; discriminate Hk.
  - exists root, h. split; [exact Hm|exact Hread].
Defined.
