(* ===== verification/ParamsToObjectSafe.v ===== *)
(** * What nested parameters may write

    Whatever keys a client sends, conflicting or malformed ones included, as long
    as they name no property of [Object.prototype]: the parser ends, and writes only
    to objects it has created and to the arrays of repeated parameters
    ([params_write_their_own_objects]). *)

From stdpp Require Import base gmap strings list.
From Stdlib Require Import ZArith Ascii Lia.
From S2P Require Import Prelude Numbers Json JsObjects ParamsToObject ParamsToObjectCorrect.
Open Scope Z_scope.

Section keeping.
Context (R : realm) (object_number : heap -> loc -> option Z) (h0 : heap).
Context (Hrun : ordinary_runtime R h0).

(** The values of the parameters: texts, and the arrays of repeated keys. *)
Context (values : list jsval).

Definition text_array (l : loc) : Prop := exists n m,
  h0 !! l = Some {| arrayLength := Some n; proto := Some (array_prototype R); own := m |} /\
  forall key p, m !! key = Some p -> exists s b, p = Data (Text s) b.

Definition parameter (v : jsval) : Prop :=
  match v with Text _ => True | Ref l => text_array l | _ => False end.

Context (Hvalues : Forall parameter values).

Definition writable_loc (l : loc) : Prop := l ∉ dom h0 \/ Ref l ∈ values.

Definition good (v : jsval) : Prop :=
  match v with Ref l => writable_loc l | _ => True end.

Record cell_ok (o : object) : Prop := {
  cell_kind : (arrayLength o = None /\ proto o = Some (object_prototype R)) \/
    (is_Some (arrayLength o) /\ proto o = Some (array_prototype R));
  cell_own key p : own o !! key = Some p -> exists v b, p = Data v b /\ good v
}.

Record kept (h : heap) : Prop := {
  kept_old l : l ∈ dom h0 -> Ref l ∉ values -> h !! l = h0 !! l;
  kept_cells l o : writable_loc l -> h !! l = Some o -> cell_ok o;
  kept_dom : dom h0 ⊆ dom h
}.

Lemma value_is_array l : Ref l ∈ values -> text_array l.
Proof. intros Hl. rewrite Forall_forall in Hvalues. exact (Hvalues _ Hl). Qed.

Lemma kept_prototypes h : kept h -> keeps_prototypes R h0 h.
Proof.
  intros HK. destruct (runtime_object _ _ Hrun) as (om & Ho & _). destruct (runtime_array _ _ Hrun) as (am & Ha & Hpush & _).
  split; apply (kept_old _ HK); try (apply elem_of_dom; eauto); intros (n & m & Hl & Hm)%value_is_array.
  - congruence.
  - simplify_eq. by destruct (Hm _ _ Hpush) as (s & b & [=]).
Qed.

Lemma kept_initial : kept h0.
Proof.
  split; [done| |done]. intros l o [Hl|Hl] Ho; [destruct Hl; apply elem_of_dom; eauto|].
  destruct (value_is_array l Hl) as (n & m & Hm & Hown). simplify_eq. split; [right; cbn; eauto|].
  intros key p Hp. destruct (Hown _ _ Hp) as (s & b & ->). by exists (Text s), b.
Qed.

Lemma kept_update h l o' : kept h -> writable_loc l -> cell_ok o' -> kept (<[l := o']> h).
Proof.
  intros HK Hl Ho. split.
  - intros l' Hd Hv. rewrite lookup_insert_ne; [by apply (kept_old _ HK)|]. intros <-. by destruct Hl.
  - intros l' o Hw. rewrite lookup_insert. case_decide; [congruence|]. by apply (kept_cells _ HK).
  - rewrite dom_insert. pose proof (kept_dom _ HK). set_solver.
Qed.

(** *** The result stays an object, and arrays stay arrays *)

Definition same_kind (h h' : heap) : Prop := forall l o, h !! l = Some o ->
  exists o', h' !! l = Some o' /\ (arrayLength o = None -> arrayLength o' = None).

Lemma same_kind_refl h : same_kind h h.
Proof. intros l o Ho. eauto. Qed.

Lemma same_kind_trans h1 h2 h3 : same_kind h1 h2 -> same_kind h2 h3 -> same_kind h1 h3.
Proof.
  intros H1 H2 l o Ho. destruct (H1 _ _ Ho) as (o' & Ho' & Hn). destruct (H2 _ _ Ho') as (o'' & Ho'' & Hn').
  eauto.
Qed.

Lemma same_kind_update h l o o' : h !! l = Some o -> (arrayLength o = None -> arrayLength o' = None) ->
  same_kind h (<[l := o']> h).
Proof.
  intros Hl Hn l' x Hx. destruct (decide (l = l')) as [<-|Hne].
  - exists o'. rewrite lookup_insert_eq. split; [done|]. by simplify_eq.
  - exists x. by rewrite lookup_insert_ne.
Qed.

Lemma cell_with_own o key v : cell_ok o -> good v -> cell_ok (with_own o (<[key := Data v true]> (own o))).
Proof.
  intros [Hk Ho] Hv. split; [done|]. cbn. intros key' p. rewrite lookup_insert. case_decide; [|by apply Ho].
  intros [= <-]. eauto.
Qed.

Lemma cell_with_length o n : cell_ok o -> is_Some (arrayLength o) -> cell_ok (with_length o n).
Proof.
  intros [Hk Ho] Hn. split; [|done]. right. cbn. split; [eauto|].
  destruct Hk as [[Hnone _]|[_ ?]]; [|done]. rewrite Hnone in Hn. by destruct Hn.
Qed.

Lemma define_own_keeps h l key v h' : kept h -> writable_loc l -> good v ->
  define_own object_number h l key v = Ok h' -> kept h' /\ same_kind h h'.
Proof.
  intros HK Hl Hv. unfold define_own. destruct (h !! l) as [o|] eqn:E; [|done].
  pose proof (kept_cells _ HK l o Hl E) as Ho. pose proof (cell_with_own o key v Ho Hv) as Hown.
  assert (forall o', cell_ok o' -> (arrayLength o = None -> arrayLength o' = None) ->
    kept (<[l := o']> h) /\ same_kind h (<[l := o']> h)) as Hdone
    by (intros; split; [by apply kept_update|by eapply same_kind_update]).
  destruct (arrayLength o) as [n|] eqn:En; [|intros [= <-]; by apply Hdone].
  destruct (String.eqb key "length").
  - unfold set_length. destruct (to_integer object_number h v) as [k|]; [|done].
    destruct ((0 <=? k) && (k <? 2 ^ 32)); [|done].
    destruct (n <=? k); intros [= <-]; apply Hdone; try done; apply cell_with_length; cbn; eauto.
    destruct Ho as [Hk Ho]. split; [done|]. cbn. intros key' p [Hp _]%map_lookup_filter_Some. eauto.
  - destruct (array_index key); intros [= <-]; apply Hdone; try done; try (by rewrite <- En in Hown).
    apply cell_with_length; [done|cbn; rewrite En; eauto].
Qed.

(** Names under which [Object.prototype] has no accessor. *)
Definition no_setter (key : string) : Prop := forall o,
  h0 !! object_prototype R = Some o -> own o !! key <> Some Proto_accessor.

Lemma no_setter_ordinary key : key <> "__proto__" -> no_setter key.
Proof.
  intros Hkey o Ho. destruct (runtime_object _ _ Hrun) as (om & Hom & _ & Hacc). simplify_eq. cbn. eauto.
Qed.

Lemma no_setter_new key : not_inherited R h0 key -> no_setter key.
Proof.
  intros Hkey o Ho. destruct (runtime_object _ _ Hrun) as (om & Hom & _). assert (o = Build_object None None om) as -> by congruence. cbn.
  by rewrite (not_inherited_own R h0 Hrun _ om Hkey Hom).
Qed.

Lemma lookup_not_accessor h l o key : kept h -> writable_loc l -> h !! l = Some o ->
  no_setter key -> lookup_property h l key <> Some Proto_accessor.
Proof.
  intros HK Hl Ho Hkey. pose proof (kept_prototypes h HK) as Hkeep.
  destruct (kept_cells _ HK l o Hl Ho) as [Hkind Hown].
  assert (own o !! key <> Some Proto_accessor) as Hm by (intros H; by destruct (Hown _ _ H) as (v & b & [=] & _)).
  destruct (runtime_object _ _ Hrun) as (om & Hom & _).
  destruct (runtime_array _ _ Hrun) as (am & Ham & _ & _ & Haacc).
  pose proof (Hkey _ Hom) as Hom'; cbn in Hom'.
  destruct o as [al pr m]; cbn in *. destruct Hkind as [[-> ->]|[[n ->] ->]].
  - destruct (lookup_object R h0 Hrun h l m key Hkeep Ho) as (om' & Hom'' & ->). simplify_eq.
    destruct (m !! key); congruence.
  - destruct (lookup_array R h0 Hrun h l n m key Hkeep Ho) as (am' & om' & Ha' & Ho' & ->). simplify_eq.
    destruct (String.eqb key "length"); [done|]. specialize (Haacc key).
    destruct (m !! key); [congruence|]. destruct (am !! key); congruence.
Qed.

Lemma set_keeps h base key v h' : kept h -> good base -> good v -> no_setter key ->
  set R object_number h base key v = Ok h' -> kept h' /\ same_kind h h'.
Proof.
  intros HK Hb Hv Hkey. assert (forall p b, set_primitive h p b key = Ok h' -> kept h' /\ same_kind h h') as Hprim.
  { intros p b. unfold set_primitive. destruct b; [done|]. destruct (lookup_property h p key) as [[]|]; try done.
    intros [= <-]. auto using same_kind_refl. }
  destruct base as [| |n|s|l]; cbn [set]; try done; [apply Hprim..|].
  destruct (h !! l) as [o|] eqn:E.
  - pose proof (lookup_not_accessor h l o key HK Hb E Hkey) as Hno.
    destruct (lookup_property h l key) as [[v' []|]|]; try done; by apply define_own_keeps.
  - unfold lookup_property. destruct (size h) as [|k]; cbn [lookup_chain]; [|rewrite E; cbn];
      unfold define_own; by rewrite E.
Qed.

(** *** Statements *)

Definition keeps {A} (Q : heap -> A -> Prop) (m : P A) (h : heap) : Prop :=
  kept (m h).2 /\ same_kind h (m h).2 /\
  match (m h).1 with Ok a => Q (m h).2 a | Throw e => e <> OutOfFuel end.

Lemma heap_keeps_bind {A B} (Q : heap -> A -> Prop) (Q' : heap -> B -> Prop) (m : P A) (k : A -> P B) h :
  keeps Q m h -> (forall a h', kept h' -> same_kind h h' -> Q h' a -> keeps Q' (k a) h') ->
  keeps Q' (m ≫= k) h.
Proof.
  unfold keeps, mbind, ST_bind. destruct (m h) as [[a|e] h']; cbn; [|done].
  intros (H1 & H2 & H3) Hk. destruct (Hk a h' H1 H2 H3) as (G1 & G2 & G3).
  split; [done|]. split; [by eapply same_kind_trans|done].
Qed.

Lemma keeps_same {A} (Q : heap -> A -> Prop) (m : P A) h r : kept h -> m h = (r, h) ->
  match r with Ok a => Q h a | Throw e => e <> OutOfFuel end -> keeps Q m h.
Proof. intros HK Hm HQ. unfold keeps. rewrite Hm. auto using same_kind_refl. Qed.

Lemma js_set_keeps h base key v : kept h -> good base -> good v -> no_setter key ->
  keeps (fun _ _ => True) (js_set R object_number base key v) h.
Proof.
  intros HK Hb Hv Hkey. unfold keeps, js_set, on_heap.
  destruct (set R object_number h base key v) as [h'|e] eqn:E; cbn.
  - by destruct (set_keeps h base key v h' HK Hb Hv Hkey E).
  - auto using same_kind_refl.
Qed.

Lemma decimal_text_not_proto n : decimal_text n <> "__proto__".
Proof.
  unfold decimal_text. destruct (n <? 0); [done|].
  destruct (decimal_digits_facts (Z.to_nat (Z.log2 (Z.abs n))) (Z.abs n) "" ltac:(lia)) as (d & t & -> & Hd & _).
  intros [= Hc _]. assert (d ∈ seqZ 0 10) as Hin by (apply elem_of_seqZ; lia).
  revert d Hin Hd Hc. apply (Forall_forall (fun d => 0 <= d < 10 -> decimal_digit d = "_"%char -> False)).
  repeat constructor; done.
Qed.

Lemma js_push_keeps h v x : kept h -> good v -> good x ->
  keeps (fun _ _ => True) (js_push R object_number v x) h.
Proof.
  intros HK Hv Hx. destruct v as [| |n|s|l]; try by eapply keeps_same.
  unfold js_push. apply (heap_keeps_bind (fun _ _ => True)).
  - unfold keeps. cbv beta. destruct (push_length R h l); cbn; auto using same_kind_refl.
  - intros n h1 HK1 _ _. apply (heap_keeps_bind (fun _ _ => True)).
    + apply js_set_keeps; try done. apply no_setter_ordinary, decimal_text_not_proto.
    + intros _ h2 HK2 _ _. apply js_set_keeps; try done. by apply no_setter_ordinary.
Qed.

Lemma allocate_keeps h o : kept h -> cell_ok o ->
  kept (<[fresh (dom h) := o]> h) /\ same_kind h (<[fresh (dom h) := o]> h) /\
  good (Ref (fresh (dom h))).
Proof.
  intros HK Ho. assert (writable_loc (fresh (dom h))) as Hw
    by (left; intros Hd; apply (is_fresh (dom h)); by apply (kept_dom _ HK)).
  split; [by apply kept_update|]. split; [|done]. intros l x Hx. exists x. split; [|done].
  rewrite lookup_insert_ne; [done|]. intros <-. apply (is_fresh (dom h)), elem_of_dom. eauto.
Qed.

Lemma create_under_keeps h result key rest : kept h -> good result -> no_setter key ->
  keeps (fun _ v => good v) (create_under R object_number result key rest) h.
Proof.
  intros HK Hr Hkey. unfold create_under. apply (heap_keeps_bind (fun _ v => good v)).
  - destruct (String.eqb rest "[]"); unfold keeps, js_array, js_object, new_array, new_object; cbn [fst snd];
      apply allocate_keeps; try done; split; cbn; eauto; intros k p Hp; by rewrite lookup_empty in Hp.
  - intros v h1 HK1 _ Hv. apply (heap_keeps_bind (fun _ _ => True)); [by apply js_set_keeps|].
    intros _ h2 HK2 _ _. by eapply keeps_same.
Qed.

(** What a key leads to, which is looked up in objects that are not arrays. *)
Lemma get_keeps h l key : kept h -> writable_loc l -> isArray h (Ref l) = false ->
  not_inherited R h0 key -> good (get h l key).
Proof.
  intros HK Hl Harr Hkey. unfold get. destruct (h !! l) as [o|] eqn:E.
  - destruct (kept_cells _ HK l o Hl E) as [Hkind Hown]. unfold isArray in Harr. rewrite E in Harr.
    apply bool_decide_eq_false in Harr. destruct o as [al pr m]; cbn in *.
    destruct Hkind as [[-> ->]|[? _]]; [|done].
    rewrite (lookup_plain R h0 Hrun h l m key (kept_prototypes h HK) Hkey E).
    destruct (m !! key) as [p|] eqn:Ep; [|done]. by destruct (Hown _ _ Ep) as (v & b & -> & ?).
  - unfold lookup_property. destruct (size h); cbn [lookup_chain]; [done|]. by rewrite E.
Qed.

(** The object a key goes on in, found or created. *)
Lemma next_keeps h result key rest (present : P bool) : kept h -> good result -> not_inherited R h0 key ->
  (forall r, present h = (r, h) -> r = Ok true -> isArray h result = false) ->
  (exists r, present h = (r, h) /\ r <> Throw OutOfFuel) ->
  keeps (fun _ v => good v)
    (found ← present;
     if (found : bool) then js_get result key else create_under R object_number result key rest) h.
Proof.
  intros HK Hr Hkey Harr (r & Hp & Hne). apply (heap_keeps_bind (fun h' b => h' = h /\ (b = true -> isArray h result = false))).
  - eapply keeps_same; [done..|]. destruct r as [[]|e]; [eauto|done|]. congruence.
  - intros b h' _ _ [-> Hb]. destruct b.
    + unfold js_get. destruct result as [| |n|s|l]; try by eapply keeps_same.
      eapply keeps_same; [done..|]. by apply get_keeps; [| |apply Hb|].
    + apply create_under_keeps; try done. by apply no_setter_new.
Qed.

Lemma js_in_same key result h : exists r, js_in key result h = (r, h) /\ r <> Throw OutOfFuel.
Proof. unfold js_in. destruct (has_property h result key); eexists; (split; [done|congruence]). Qed.

Lemma treatSecond_keeps value full fuel : good value -> forall rest result h,
  kept h -> good result -> (String.length rest < fuel)%nat ->
  Forall (not_inherited R h0) (bracket_names fuel rest) ->
  keeps (fun _ _ => True) (treatSecond R object_number fuel value rest result full) h.
Proof.
  intros Hv. induction fuel as [|fuel IH]; intros rest result h HK Hr Hfuel Hnames; [lia|].
  cbn [treatSecond]. cbn [bracket_names] in Hnames.
  destruct (secondMatch rest) as [[key newRest]|] eqn:E; [|by eapply keeps_same].
  apply Forall_cons in Hnames as [Hkey Hnames]. pose proof (secondMatch_shorter _ _ _ E) as Hlen.
  destruct (String.eqb rest "[]"); [|destruct (String.eqb newRest "")].
  - apply (heap_keeps_bind (fun _ _ => True)); [by eapply keeps_same|]. intros b h1 HK1 _ _.
    destruct (negb b); [by eapply keeps_same|]. by apply js_push_keeps.
  - apply js_set_keeps; try done. by apply no_setter_new.
  - apply (heap_keeps_bind (fun h' b => h' = h /\ isArray h result = b)); [by eapply keeps_same|].
    intros b h1 _ _ [-> Hb].
    apply (heap_keeps_bind (fun h' p => h' = h /\ (p = true -> isArray h result = false))).
    + destruct b; [by eapply keeps_same|]. destruct (js_in_same key result h) as (r & Hp & Hne).
      eapply keeps_same; [done..|]. destruct r as [p|e]; [auto|congruence].
    + intros p h1 _ _ [-> Hp]. apply (heap_keeps_bind (fun _ v => good v)).
      * destruct (next_keeps h result key newRest (mret p) HK Hr Hkey) as (K1 & K2 & K3).
        -- intros r [= <-] [= ->]. auto.
        -- by eexists.
        -- done.
      * intros v h1 HK1 _ Hgood. apply IH; try done. lia.
Qed.

Lemma treatInitial_keeps key value root h o : good value -> kept h -> writable_loc root ->
  h !! root = Some o -> arrayLength o = None -> Forall (not_inherited R h0) (key_names key) ->
  keeps (fun _ _ => True) (treatInitial R object_number key value (Ref root)) h.
Proof.
  intros Hv HK Hroot Ho Hnone Hnames. unfold treatInitial. unfold key_names in Hnames.
  destruct (firstMatch key) as [[inputName rest]|].
  - apply Forall_cons in Hnames as [Hkey Hnames].
    assert (isArray h (Ref root) = false) as Harr.
    { unfold isArray. rewrite Ho, Hnone. by apply bool_decide_eq_false_2; intros []. }
    destruct (js_in_same inputName (Ref root) h) as (r & Hp & Hne).
    apply (heap_keeps_bind (fun h' _ => h' = h)); [eapply keeps_same; [done..|]; destruct r; [done|by intros ->]|].
    intros p h1 _ _ ->. apply (heap_keeps_bind (fun _ v => good v)).
    + destruct (next_keeps h (Ref root) inputName rest (mret p) HK Hroot Hkey) as (K1 & K2 & K3);
        [done|by eexists|done].
    + intros v h1 HK1 _ Hgood. apply treatSecond_keeps; try done. lia.
  - apply Forall_cons in Hnames as [Hkey _]. apply js_set_keeps; try done. by apply no_setter_new.
Qed.

Lemma for_each_keeps root object : forall h, kept h -> writable_loc root ->
  (exists o, h !! root = Some o /\ arrayLength o = None) ->
  Forall (fun kv => good kv.2 /\ Forall (not_inherited R h0) (key_names kv.1)) object ->
  keeps (fun _ _ => True)
    (for_each (fun kv => treatInitial R object_number kv.1 kv.2 (Ref root)) object) h.
Proof.
  induction object as [|kv object IH]; intros h HK Hroot (o & Ho & Hn) Hall; [by eapply keeps_same|].
  apply Forall_cons in Hall as [[Hv Hkey] Hall]. cbn [for_each].
  apply (heap_keeps_bind (fun h' _ => exists o', h' !! root = Some o' /\ arrayLength o' = None)).
  - destruct (treatInitial_keeps kv.1 kv.2 root h o) as (K1 & K2 & K3); [done..|].
    split; [done|]. split; [done|]. destruct (treatInitial _ _ _ _ _ h) as [[[]|e] h']; cbn in *; [|done].
    destruct (K2 root o Ho) as (o' & Ho' & Hn'). eauto.
  - intros _ h' HK' _ Hroot'. by apply IH.
Qed.

End keeping.

(** C40: For any keys, malformed and conflicting ones included, that visit no name of
    [Object.prototype], and values that are texts or arrays of texts, [toObject] comes
    to an end, returning or throwing, and whichever it does, every object from before
    is unchanged, except the arrays among the values. *)
Theorem params_write_their_own_objects R object_number h0 object :
  ordinary_runtime R h0 ->
  Forall (fun kv => parameter R h0 kv.2 /\ Forall (not_inherited R h0) (key_names kv.1)) object ->
  (toObject R object_number object h0).1 <> Throw OutOfFuel /\
  forall l, l ∈ dom h0 -> (forall kv, kv ∈ object -> kv.2 <> Ref l) ->
    (toObject R object_number object h0).2 !! l = h0 !! l.
Proof.
  intros Hrun Hall. rewrite Forall_forall in Hall.
  assert (Forall (parameter R h0) (map snd object)) as Hvalues.
  { apply Forall_forall. intros v (kv & -> & Hkv)%list_elem_of_fmap. by apply Hall. }
  set (values := map snd object) in *.
  assert (keeps R h0 values (fun _ _ => True) (toObject R object_number object) h0) as (K1 & _ & K3).
  { unfold toObject. apply (heap_keeps_bind _ _ _ (fun h v => exists root o, v = Ref root /\
      writable_loc h0 values root /\ h !! root = Some o /\ arrayLength o = None)).
    - unfold keeps, js_object, new_object. cbn [fst snd].
      edestruct (allocate_keeps R) with (h0 := h0) (values := values) (h := h0)
        (o := plain (Some (object_prototype R))) as (A1 & A2 & A3); [done|done|done|by apply kept_initial|split; cbn; [auto|]; intros k p Hp; by rewrite lookup_empty in Hp|].
      split; [done|]. split; [done|]. eexists _, _. split; [done|]. split; [exact A3|].
      split; [apply lookup_insert_eq|done].
    - intros v h HK _ (root & o & -> & Hw & Ho & Hn). apply (heap_keeps_bind _ _ _ (fun _ _ => True)).
      + apply for_each_keeps; eauto. apply Forall_forall. intros kv Hkv. destruct (Hall kv Hkv) as [Hp Hk].
        split; [|done]. destruct (kv.2) as [| | | |l] eqn:E; try done. right. rewrite <- E.
        by apply list_elem_of_fmap_2.
      + intros _ h1 HK1 _ _. by eapply keeps_same. }
  split.
  - destruct (toObject R object_number object h0).1; congruence.
  - intros l Hl Hother. apply (kept_old _ _ _ _ K1 l Hl).
    intros (kv & Heq & Hkv)%list_elem_of_fmap. by apply (Hother kv Hkv).
Qed.

(** Keys in conflict: the array of a repeated parameter is written, nothing else. *)
Definition conflicting : list (string * jsval) :=
  [("a", Ref 8%nat); ("a[push]", Text "2"); ("b[]", Text "x"); ("a[]", Text "3")]%string.

Lemma params_write_their_own_objects_witness :
  (toObject Runtime.R (fun _ _ => None) conflicting Runtime.initial).1 = Throw (Language TypeError) /\
  (toObject Runtime.R (fun _ _ => None) conflicting Runtime.initial).2 !! 8%nat <> Runtime.initial !! 8%nat /\
  (toObject Runtime.R (fun _ _ => None) conflicting Runtime.initial).2 !! 0%nat = Runtime.initial !! 0%nat.
Proof.
  split; [vm_compute; reflexivity|]. split; [vm_compute; congruence|].
  apply (params_write_their_own_objects Runtime.R (fun _ _ => None) Runtime.initial conflicting).
  - exact initial_runtime.
  - repeat (apply Forall_cons; split); [..|apply Forall_nil; exact I].
    all: split; [try exact I|repeat constructor].
    exists 2, (list_to_map [("0", Data (Text "a") true); ("1", Data (Text "b") true)]%string).
    split; [vm_compute; reflexivity|]. intros key p. rewrite !list_to_map_cons, list_to_map_nil.
    intros [[_ <-]|[_ [[_ <-]|[_ Hp]]%lookup_insert_Some]]%lookup_insert_Some; [eauto..|].
    by rewrite lookup_empty in Hp.
  - apply elem_of_dom. vm_compute. eauto.
  - intros kv Hkv. cbn in Hkv.
    repeat (apply elem_of_cons in Hkv as [->|Hkv]); try done. by apply not_elem_of_nil in Hkv.
Defined.
